(* ===== verification/_CoqProject ===== *)
-Q . S2P
Prelude.v
Rubber.v
RubberLayout.v
RubberHoles.v
RubberFacts.v
RubberOps.v
RubberAdd.v
RubberSpec.v
ObjectStore.v
Chunk.v
Bucket.v
Chunked.v
ChunkedBucket.v
StdMap.v
Expiry.v
SessionData.v
SessionFacts.v
SessionFile.v
SessionFileFacts.v
SessionManager.v
SessionManagerFacts.v
Cache.v
CacheFacts.v
GrowingBuffer.v
GrowingBufferFacts.v
CharUtil.v
ExpansibleBuffer.v
XmlParser.v
XmlFacts.v
XmlSplit.v
XmlElement.v
CssParser.v
CssFacts.v
ConcurrencyQueue.v
Failure.v
Balancer.v
StrMap.v
Uri.v
HttpCacheRFC.v
UriFacts.v
UriCompress.v
UriInstance.v
HttpCacheRFCFacts.v
Escape.v
EscapeIstream.v
EscapeFacts.v
Sink.v
RubberSink.v
Dechunk.v
DechunkFacts.v
DechunkStream.v
ByteQueue.v
Replace.v
ReplaceFacts.v
ReplaceStream.v
ReplaceRun.v
HttpCacheHeap.v
HttpCacheHeapFacts.v
HttpCacheHeapOps.v
HttpCache.v
HttpCacheInv.v
HttpCacheSteps.v
HttpCacheServe.v
HttpCacheSpec.v
HttpHeaders.v
HttpHeadersFacts.v
Fcgi.v
FcgiFacts.v
FcgiIstream.v
FcgiParserFacts.v
FcgiClient.v
FcgiClientFacts.v
FcgiClientFeed.v
FcgiClientBuckets.v
FcgiClientRun.v
Cookies.v
CookieFacts.v
ForwardHeaders.v
ForwardHeadersFacts.v
XForwardedFor.v
