(* ===== verification/Prelude.v ===== *)
(** * beng-proxy: a verification library

    beng-proxy is an HTTP reverse proxy that assembles pages from templates and widgets, with
    a load balancer (beng-lb) beside it.  This library models the parts that carry its own
    core logic (memory management, streams, caches, sessions, parsers, node selection) as
    executable Rocq definitions that follow the C++ code line by line, and proves the
    properties the rest of the program relies on.

    ** The program's parts and where they are modelled

    - Memory.  [Rubber.v] is the compacting allocator of the response caches
      (src/memory/Rubber.cxx): its table of objects, its free lists of holes, and
      [Add], [Remove], [Shrink], [Compress], [MoveLast] and the rest, as operations of the
      state monad of this file on a [Record Rubber].  [RubberLayout], [RubberHoles],
      [RubberFacts], [RubberOps] and [RubberAdd] hold the layout invariant and
      what each operation does to it, [RubberSpec] the theorems.
      [GrowingBuffer.v] is the chunked byte queue with its reader and istream
      (src/memory/GrowingBuffer.cxx, istream_gb.cxx), [GrowingBufferFacts] its theorems;
      [ExpansibleBuffer.v] the contiguous buffer with a hard limit
      (src/memory/ExpansibleBuffer.cxx).  [ObjectStore.v] is the interface that the
      response caches see of the allocator, which implements it; [RubberSink.v] the sink that
      stores a stream in an object and the istream that reads it again
      (src/memory/sink_rubber.cxx, istream_rubber.cxx), with their theorems.
    - HTTP chunking.  [Chunk.v] is the incremental parser (src/http/ChunkParser.cxx) with a
      reference decoder and its theorems; [Chunked.v] and [ChunkedBucket.v] are the encoding
      istream (src/istream/ChunkedIstream.cxx) with its two data paths, [Bucket.v] the bucket
      lists that istreams exchange (src/istream/Bucket.hxx).  [Sink.v] is what an istream sees
      of its handler; [Dechunk.v] the decoding istream (src/istream/DechunkIstream.cxx),
      [DechunkFacts] and [DechunkStream] its theorems.
    - Substitution.  [Replace.v] is the istream that replaces ranges of its input by other
      istreams (src/istream/ReplaceIstream.cxx), against the interface [ByteQueue] of
      [ByteQueue.v] that the growing buffer implements; [ReplaceFacts], [ReplaceStream]
      and [ReplaceRun] hold its invariant, its two data paths and the theorems.
    - Sessions.  [StdMap.v] is what the code uses of ordered containers, [Expiry.v] the
      library's time stamps as a class, [SessionData.v] the data (src/bp/session/Id.cxx,
      Session.cxx, Widget.cxx, src/http/CookieJar.cxx), [SessionFile.v] the file format
      (src/bp/session/Write.cxx, Read.cxx, Save.cxx), [SessionManager.v] the set of sessions
      with its leases (src/bp/session/Manager.cxx, Lease.cxx); [SessionFacts],
      [SessionFileFacts] and [SessionManagerFacts] the theorems.
    - [Cache.v] is the generic cache with leases and expiry (src/cache/Cache.cxx, Item.cxx) on
      which all response caches are built; [CacheFacts.v] its theorems.
    - The HTTP cache.  [StrMap.v] is the multimap of header fields (src/strmap.cxx) with its
      refinement theorem; [HttpCacheRFC.v] the rules of what may be cached, for how long
      and for whom (src/http/cache/RFC.cxx, Age.cxx, Info.cxx, Document.cxx, src/http/PList.cxx,
      PHeaderUtil.cxx), [HttpCacheRFCFacts] their theorems; [HttpCacheHeap.v] the documents in
      memory (src/http/cache/Heap.cxx, Item.cxx), composed of [Cache], of an [ObjectStore] and of
      the lookup table of tags, [HttpCacheHeapFacts] and [HttpCacheHeapOps] its invariant and
      operations; [HttpCache.v] the cache with its requests (src/http/cache/Public.cxx),
      [HttpCacheInv], [HttpCacheSteps] and [HttpCacheServe] its invariant and steps,
      [HttpCacheSpec] the theorems over all sequences of events, and a run
      with the allocator and concrete library functions.
    - Header fields.  [HttpHeaders.v] is the parser and the writer of header fields
      (src/http/HeaderParser.cxx, HeaderWriter.cxx), [HttpHeadersFacts] their theorems.
      [Cookies.v] has tokens and quoted strings (src/http/Tokenizer.cxx, PTokenizer.cxx, Quote.cxx)
      and the cookies of both sides: the jar of cookies that other servers set (CookieClient.cxx),
      on the data of [SessionData], and those of the client (CookieServer.cxx, CookieExtract.cxx);
      [CookieFacts] holds their theorems and the unit tests.  [ForwardHeaders.v] decides which
      header fields are forwarded to servers and clients (src/bp/ForwardHeaders.cxx) with the
      cookies of [Cookies], [ForwardHeadersFacts] shows what that protects; [XForwardedFor.v] finds
      the client behind trusted proxies (src/http/XForwardedFor.cxx), with its theorem.
    - FastCGI.  [Fcgi.v] has the records of the protocol and of a request (src/fcgi/Protocol.hxx,
      Serialize.cxx, the end of Client.cxx) and the incremental parser of records (src/fcgi/Parser.cxx), [FcgiFacts] the round trip, [FcgiIstream.v] the istream
      that cuts the request body into records (src/fcgi/istream_fcgi.cxx) with its theorem;
      [FcgiParserFacts] a rule
      for its handlers and the machine that reads single bytes, which is the reference; [FcgiClient.v] the
      client (src/fcgi/Client.cxx) with the lease of its socket (src/net/BufferedSocketLease.cxx);
      [FcgiClientFacts] compares its look-ahead and its header parser with
      the reference, [FcgiClientFeed] and [FcgiClientBuckets] hold the invariant and the two data
      paths, [FcgiClientRun] the events, the theorems over all of their sequences, and examples.
    - Parsers.  [CharUtil.v] has the character classes (src/parser/HtmlSyntax.hxx,
      CssSyntax.hxx), [XmlParser.v] the parser of templates (src/parser/XmlParser.cxx),
      [XmlFacts], [XmlSplit] and [XmlElement] its theorems; [CssParser.v] and [CssFacts.v]
      the parser of style sheets (src/parser/CssParser.cxx).
    - Escaping.  [Escape.v] has the escaping and unescaping of HTML and CSS (src/escape/HTML.cxx,
      CSS.cxx, Class.hxx, Pool.cxx, Static.cxx), [EscapeIstream.v] the istream that escapes what
      it forwards (src/escape/Istream.cxx) with its theorem, [EscapeFacts.v] the other theorems.
    - Clusters.  [Failure.v] is what is known about failing nodes (src/net/FailureInfo.cxx,
      FailureManager.cxx), [Balancer.v] the selection of a node (src/cluster/Pick*.hxx,
      RoundRobinBalancer.cxx), [ConcurrencyQueue.v] the queue that limits how many
      jobs run at a time (src/util/LimitedConcurrencyQueue.cxx).
    - URIs.  [Uri.v] has the operations on paths, query strings and arguments (src/uri/),
      [UriFacts] and [UriCompress] their theorems, [UriInstance.v] concrete library functions
      with the witnesses and the program's unit tests.

    ** How code is translated

    A [char] or [std::byte] is a [Z] in [0, 256), a string or span a list of them.  Code that
    mutates one object is a computation in the state monad [M] below; [None] is a failed
    [assert()], a null pointer that is dereferenced or memory that must not be accessed, so
    that "the operation succeeds" in a theorem includes that none of this happens.
    Callbacks and virtual methods are arguments (a record of functions on a state), or they are
    collected in a log; where the caller decides something, the theorems quantify over it.
    Integers are kept at their width with [wrap] where they may overflow (chunk sizes,
    cluster hashes, counters).  Library code that is not in the repository is a parameter:
    [HashSetOrder] (where a hash set inserts), [ExpiryOps] with [ExpiryLaws], [CharUtil],
    [ChunkSize], [UriLib] with [UriLaws], [Utf8Lib] with [Utf8Laws], [TrieOrder] with [TrieLaws] (which
    of several header fields with the same name a lookup finds), [HttpLib] (dates, lists and methods
    of HTTP), [HttpCacheEnv] (hashes and digests), [HeaderLib] with [HeaderLaws] (the names of header
    fields), [StaticFifo] with its laws (the room in a static buffer), [CaseChars] and [FcgiEnv]
    (letters, names of methods, decimal numbers), [TokenLib] with [TokenLaws] and [StripLaws] (splitting,
    comparing and stripping strings), [AlphaNumericLaws], [Product], [SocketLib] with [SocketLaws] (addresses and
    networks), the random engine of the session
    manager; examples instantiate it.

    Loops are structural on their input where they can be.  The others have fuel, and
    theorems show that it is enough: [Compress_loop] and [Purge] run at most once per object,
    the loop of [NeedRoom] evicts an item in every iteration, [Load] consumes at least four
    bytes per record, [Write] of a growing buffer at least one byte, the XML and CSS parsers
    take at most six and three iterations per byte, the pickers one per node, and every iteration
    of the loops of [uri_compress] and of unescaping shortens what is left.  The decoding istream
    consumes a byte or changes the state of the parser in every iteration, the substituting
    one removes a substitution or copies from its buffer.  The parser of FastCGI records consumes a
    header in every iteration, or it skips the rest of a record.  The parser of cookies consumes a
    character in every iteration, and the list of proxies gets shorter.

    ** What the theorems show

    - Rubber: every operation refines an abstract map from ids to byte strings; no
      legal client reaches a failed assertion; [Compress] keeps the contents and leaves no
      hole.  Objects are aligned, disjoint and inside of the map, and [FindHole] finds a hole if
      there is one.
    - Chunking: any client of the parser obtains what the reference decoder obtains,
      and makes progress; encoding and decoding is a round trip through both data paths, and
      the encoder fails no assertion; the decoding istream refines the reference decoder for
      every handler and every way to cut the input, except for lists of several buckets in which a chunk header
      touches the end of a bucket, where the code is wrong; it delivers everything to a handler that
      keeps reading, and inverts the encoding istream.
    - Substitution: whatever the order of calls that keep the protocol, the output is a prefix of the source with its
      ranges replaced; the buffered source is bounded; the bucket path and [GetAvailable] are
      exact.
    - Sessions: cluster nodes of ids, merging of cookies, widgets and
      sessions, round trips of the file format, loading ends on every (corrupt) input,
      saving is all or nothing, purging, attaching, and the invariant of the manager under all of its
      operations, with loading from a file and without the event loop.
    - Cache: the invariant with leases, eviction of the least recently used items,
      and that [Get] returns what was [Put].
    - String map: every operation refines a map from names to multisets of values.
    - HTTP cache: which responses are stored and when they expire; the sink of response bodies refines a
      string of limited length, whatever size the stream announces; and for every order of requests, answers, body data, closed streams,
      flushes and timers, what is served from the cache is the status, the header fields and the whole body of a response of the
      origin to a matching request (with a Digest added, and Expires and Cache-Control of later revalidations), which is
      fresh unless the caller does not care; no assertion
      fails, nothing that was freed is used, and all memory is accounted for.  This holds unless a stream knows that its
      size exceeds the limit while its minimum estimate does not: then the assertion of the sink fails.
    - Growing buffer: refinement of a byte queue; the istream sends all of it.
    - Header fields: what [headers_dup] writes is read by [header_parse_buffer], if the names and values are valid; the latter reads
      the lines of the text, if they are shorter than its buffer.
    - FastCGI: the records of a request can be read back; the request body is framed without loss; for every order of
      received data, calls of the consumer, of the request and of the socket, the client fails no
      assertion, except in calls that come after it has released the socket, and delivers the contents of the STDOUT records as one response and those of the STDERR records to
      [stderr], each byte once, and the look-ahead is exact.  This holds as long as no record of the
      request follows END_REQUEST.
    - Cookies: a server can only touch the cookies of its own hosts; the header that is sent fits into its
      buffer and can be read back; a cookie that is set without attributes that take effect is sent; removing a cookie of a request removes
      that one only.
    - Forwarding: fields for backends cannot be forged unless the settings let them pass, the session cookie is neither revealed nor
      overwritten, hop-by-hop fields end here; the client behind trusted proxies cannot be forged.
    - XML parser: totality and safety for every input and handler, equivalence
      with a machine that reads single characters for every way to cut the input, as long as no attribute value exceeds its buffer, and the
      offsets that are reported.  CSS parser: totality and safety.
    - Escaping: unescaping reverts escaping, and it may be done in place; the istream
      delivers the escaped input to every handler, in every order of calls.
    - Clusters: no waiting job is forgotten in any schedule of the event loop, the limit is kept, the status of a node, the node that is
      picked, and that round robin is fair.
    - URIs: dissecting and recomposing is a round trip; compressing an absolute path
      is what a walk over its segments yields, without dot segments; formatting and parsing
      arguments is a round trip inside of the allocated buffer.

    The theorems that are numbered C1 to C40 are the main ones; those beside them are the
    lemmas they rest on and the examples that show where the code differs from its comments.

    ** Not modelled

    The event loop, sockets, TLS, processes and other I/O (what they answer and when they call are
    events of the models); the HTTP client and server, HTTP/2
    and WAS connections, which are callbacks around such I/O; direct transfers between file descriptors; the translation
    protocol and its cache, the request handlers, the widget processor, the filter cache and the
    encoding cache, which connect the modelled parts; configuration, logging and
    certificate management; callers that call the HTTP cache again from inside of their response handler; exceptions that are thrown by an input stream.  Memory
    allocation does not fail. *)

From Stdlib Require Export ZArith Lia Ascii.
From Stdlib Require Import String.
From stdpp Require Export base tactics strings option numbers gmap list.

#[global] Open Scope Z_scope.

(** ** Notations and automation *)

Declare Scope beng_scope.
Delimit Scope beng_scope with beng.

Create HintDb beng.
Create Rewrite HintDb beng_rw.

(** [simpl_bool] turns the boolean tests of the code into propositions. *)
Ltac simpl_bool :=
  repeat match goal with
  | H : andb _ _ = true |- _ => apply andb_true_iff in H; destruct H
  | H : andb _ _ = false |- _ => apply andb_false_iff in H
  | H : orb _ _ = true |- _ => apply orb_true_iff in H
  | H : orb _ _ = false |- _ => apply orb_false_iff in H; destruct H
  | H : negb _ = true |- _ => apply negb_true_iff in H
  | H : negb _ = false |- _ => apply negb_false_iff in H
  | H : (_ <? _) = true |- _ => apply Z.ltb_lt in H
  | H : (_ <? _) = false |- _ => apply Z.ltb_ge in H
  | H : (_ <=? _) = true |- _ => apply Z.leb_le in H
  | H : (_ <=? _) = false |- _ => apply Z.leb_gt in H
  | H : (_ =? _) = true |- _ => apply Z.eqb_eq in H
  | H : (_ =? _) = false |- _ => apply Z.eqb_neq in H
  | H : bool_decide _ = true |- _ => apply bool_decide_eq_true in H
  | H : bool_decide _ = false |- _ => apply bool_decide_eq_false in H
  end.

(** ** Bytes, strings and machine words

    A [char] or [std::byte] is an integer in [0, 256); a [std::string_view]
    or [std::span] that is known to be non-null is a list of them. *)

(** The bytes of a C string literal. *)
Definition str (s : string) : list Z :=
  map (fun a => Z.of_N (N_of_ascii a)) (list_ascii_of_string s).

(** The code of a character literal. *)
Definition chr (a : ascii) : Z := Z.of_N (N_of_ascii a).
#[global] Arguments chr a%_char_scope.

Definition is_byte (b : Z) : Prop := 0 <= b < 256.

(** Reduction modulo [2^w]: what storing into a [w]-bit unsigned integer does. *)
Definition wrap (w x : Z) : Z := x mod 2 ^ w.

Lemma wrap_id w x : 0 <= x < 2 ^ w -> wrap w x = x.
Proof. intros Hx. by apply Z.mod_small. Qed.

(** ** A state monad with failure

    A computation of the code that mutates an object of type [S].  [None] is
    a failed [assert()] or an access the code must not make (an array index
    out of range, unlinking an object that is not linked). *)

Definition M (S A : Type) : Type := S -> option (A * S).

Definition mret {S A} (a : A) : M S A := fun s => Some (a, s).
Definition mbnd {S A B} (m : M S A) (k : A -> M S B) : M S B :=
  fun s => match m s with Some (a, s') => k a s' | None => None end.
Definition mget {S} : M S S := fun s => Some (s, s).
Definition mput {S} (s' : S) : M S unit := fun _ => Some (tt, s').
Definition mgets {S A} (f : S -> A) : M S A := fun s => Some (f s, s).
Definition mmod {S} (f : S -> S) : M S unit := fun s => Some (tt, f s).
Definition mfail {S A} : M S A := fun _ => None.
Definition massert {S} (b : bool) : M S unit := if b then mret tt else mfail.
Definition mopt {S A} (o : option A) : M S A :=
  match o with Some a => mret a | None => mfail end.

Notation "'let!' x := m 'in' k" := (mbnd m (fun x => k))
  (at level 10, x pattern, m at level 100, k at level 200) : beng_scope.
Notation "m ;;; k" := (mbnd m (fun _ => k))
  (at level 199, k at level 200, right associativity) : beng_scope.

(** [while] loops: at most [p] iterations of [body], which returns [true] to
    go on.  The fuel is a binary number, so that a large bound costs nothing.
    The boolean result is [true] when the loop has ended by itself. *)
Fixpoint ploop {S} (p : positive) (body : M S bool) : M S bool :=
  match p with
  | xH => let! again := body in mret (negb again)
  | xO q => let! done := ploop q body in
            if done : bool then mret true else ploop q body
  | xI q => let! again := body in
            if again : bool
            then (let! done := ploop q body in
                  if done : bool then mret true else ploop q body)
            else mret true
  end%beng.

(** A loop that has to end by itself within its fuel. *)
Definition while {S} (p : positive) (body : M S bool) : M S unit :=
  (let! done := ploop p body in massert done)%beng.

(** *** Total correctness *)

(** [wp m Q s]: run in state [s], [m] fails no assertion and ends with a
    result and a state that satisfy [Q]. *)
Definition wp {S A} (m : M S A) (Q : A -> S -> Prop) (s : S) : Prop :=
  exists a s', m s = Some (a, s') /\ Q a s'.

Section Wp.
Context {S : Type}.

Lemma wp_ret {A} (a : A) (Q : A -> S -> Prop) s : Q a s -> wp (mret a) Q s.
Proof. intros H. exists a, s. auto. Qed.

Lemma wp_bind {A B} (m : M S A) (k : A -> M S B) Q s :
  wp m (fun a s' => wp (k a) Q s') s -> wp (mbnd m k) Q s.
Proof.
  intros (a & s1 & E & b & s2 & E2 & HQ). exists b, s2.
  unfold mbnd. rewrite E. auto.
Qed.

Lemma wp_get (Q : S -> S -> Prop) s : Q s s -> wp mget Q s.
Proof. intros H. exists s, s. auto. Qed.

Lemma wp_gets {A} (f : S -> A) (Q : A -> S -> Prop) s : Q (f s) s -> wp (mgets f) Q s.
Proof. intros H. exists (f s), s. auto. Qed.

Lemma wp_put s' (Q : unit -> S -> Prop) s : Q tt s' -> wp (mput s') Q s.
Proof. intros H. exists tt, s'. auto. Qed.

Lemma wp_mod (f : S -> S) (Q : unit -> S -> Prop) s : Q tt (f s) -> wp (mmod f) Q s.
Proof. intros H. exists tt, (f s). auto. Qed.

Lemma wp_assert b (Q : unit -> S -> Prop) s : b = true -> Q tt s -> wp (massert b) Q s.
Proof. intros -> H. exists tt, s. auto. Qed.

Lemma wp_opt {A} (o : option A) a (Q : A -> S -> Prop) s :
  o = Some a -> Q a s -> wp (mopt o) Q s.
Proof. intros -> H. exists a, s. auto. Qed.

Lemma wp_mono {A} (m : M S A) (Q Q' : A -> S -> Prop) s :
  wp m Q s -> (forall a s', Q a s' -> Q' a s') -> wp m Q' s.
Proof. intros (a & s' & E & H) HQ. exists a, s'. auto. Qed.

(** A loop whose body keeps an invariant [I m] and, when it asks to go on,
    decreases the measure [m], a natural number below the fuel, ends by
    itself. *)
Lemma ploop_wp (body : M S bool) (I : Z -> S -> Prop) (R : S -> Prop) :
  (forall m s, I m s -> 0 <= m) ->
  (forall m s, I m s ->
     wp body (fun again s' =>
       if again : bool then exists m', I m' s' /\ m' < m else R s') s) ->
  forall p m s, I m s ->
  wp (ploop p body)
     (fun done s' => if done : bool then R s'
                     else exists m', I m' s' /\ m' <= m - Zpos p) s.
Proof.
  intros Hnn Hbody p. induction p as [q IH|q IH|]; intros m s HI; simpl.
  - apply wp_bind. eapply wp_mono; [apply (Hbody m s HI)|].
    intros [|] s1 H1; simpl in *; [|by apply wp_ret].
    destruct H1 as (m1 & HI1 & Hm1).
    apply wp_bind. eapply wp_mono; [apply (IH m1 s1 HI1)|].
    intros [|] s2 H2; simpl in *; [by apply wp_ret|].
    destruct H2 as (m2 & HI2 & Hm2).
    eapply wp_mono; [apply (IH m2 s2 HI2)|].
    intros [|] s3 H3; simpl in *; [done|].
    destruct H3 as (m3 & ? & ?). exists m3. split; [done|lia].
  - apply wp_bind. eapply wp_mono; [apply (IH m s HI)|].
    intros [|] s2 H2; simpl in *; [by apply wp_ret|].
    destruct H2 as (m2 & HI2 & Hm2).
    eapply wp_mono; [apply (IH m2 s2 HI2)|].
    intros [|] s3 H3; simpl in *; [done|].
    destruct H3 as (m3 & ? & ?). exists m3. split; [done|lia].
  - apply wp_bind. eapply wp_mono; [apply (Hbody m s HI)|].
    intros [|] s1 H1; apply wp_ret; simpl in *; [|done].
    destruct H1 as (m1 & ? & ?). exists m1. split; [done|lia].
Qed.

Lemma while_wp (body : M S bool) (I : Z -> S -> Prop) (R : S -> Prop) p m s :
  (forall m s, I m s -> 0 <= m) ->
  (forall m s, I m s ->
     wp body (fun again s' =>
       if again : bool then exists m', I m' s' /\ m' < m else R s') s) ->
  I m s -> m < Zpos p ->
  wp (while p body) (fun _ s' => R s') s.
Proof.
  intros Hnn Hbody HI Hp. apply wp_bind.
  eapply wp_mono; [apply (ploop_wp body I R Hnn Hbody p m s HI)|].
  intros [|] s' H; simpl in *; [by apply wp_ret|].
  destruct H as (m' & HI' & Hm). specialize (Hnn m' s' HI'). lia.
Qed.

End Wp.

(** [wp_step] consumes one step of a [wp] goal; [wps] all the steps whose
    side conditions are immediate. *)
Ltac wp_step :=
  match goal with
  | |- wp (mbnd _ _) _ _ => apply wp_bind
  | |- wp (mret _) _ _ => apply wp_ret
  | |- wp mget _ _ => apply wp_get
  | |- wp (mgets _) _ _ => apply wp_gets
  | |- wp (mput _) _ _ => apply wp_put
  | |- wp (mmod _) _ _ => apply wp_mod
  | |- wp (massert _) _ _ => apply wp_assert
  | |- wp (mopt _) _ _ => eapply wp_opt
  end.

(** ** Lists *)

Section Lists.
Context {A : Type}.

(** The position of the first element that satisfies [P]. *)
Fixpoint find_index (P : A -> bool) (l : list A) : option nat :=
  match l with
  | [] => None
  | x :: l' => if P x then Some O else option_map S (find_index P l')
  end.

Fixpoint span_while (P : A -> bool) (l : list A) : list A * list A :=
  match l with
  | [] => ([], [])
  | x :: l' => if P x then let '(a, b) := span_while P l' in (x :: a, b) else ([], l)
  end.

Lemma find_index_Some P l i :
  find_index P l = Some i ->
  exists x, l !! i = Some x /\ P x = true /\ forall y, y ∈ take i l -> P y = false.
Proof.
  revert i. induction l as [|x l IH]; intros i; simpl; [done|].
  destruct (P x) eqn:Px.
  - intros [= <-]. exists x. split_and!; [done|done|]. intros y Hy. by apply elem_of_nil in Hy.
  - destruct (find_index P l) as [j|] eqn:Ej; simpl; [|done]. intros [= <-].
    destruct (IH j eq_refl) as (y & Hy & Py & Hb). exists y. split_and!; [done|done|].
    intros z Hz. simpl in Hz. apply elem_of_cons in Hz as [->|Hz]; auto.
Qed.

Lemma find_index_None P l : find_index P l = None -> forall y, y ∈ l -> P y = false.
Proof.
  induction l as [|x l IH]; simpl; intros E y Hy; [by apply elem_of_nil in Hy|].
  destruct (P x) eqn:Px; [done|]. destruct (find_index P l); [done|].
  apply elem_of_cons in Hy as [->|Hy]; auto.
Qed.

Lemma span_while_app P l : let '(a, b) := span_while P l in l = a ++ b.
Proof.
  induction l as [|x l IH]; simpl; [done|]. destruct (P x); [|done].
  destruct (span_while P l). simpl. by f_equal.
Qed.

Lemma span_while_length P (l a b : list A) : span_while P l = (a, b) ->
  l = a ++ b /\ (length a + length b = length l)%nat.
Proof.
  intros E. pose proof (span_while_app P l) as Ha. rewrite E in Ha. split; [done|].
  rewrite Ha, length_app. lia.
Qed.

Lemma span_while_cons P (l a b : list A) : span_while P l = (a, b) ->
  l = a ++ b /\ Forall (fun c => P c = true) a /\ match b with [] => True | c :: _ => P c = false end.
Proof.
  revert a b. induction l as [|c l IH]; intros a b; simpl; [intros [= <- <-]; by split_and!|].
  destruct (P c) eqn:E; [|intros [= <- <-]; by split_and!].
  destruct (span_while P l) as [a' b'] eqn:E'. intros [= <- <-].
  destruct (IH a' b' eq_refl) as (-> & Ha & Hb). split_and!; [done|by constructor|done].
Qed.

Lemma span_while_true P l : Forall (fun x => P x = true) (fst (span_while P l)).
Proof.
  induction l as [|x l IH]; simpl; [by constructor|]. destruct (P x) eqn:E; [|by constructor].
  destruct (span_while P l). by constructor.
Qed.

Lemma filter_all (P : A -> Prop) `{forall x, Decision (P x)} (l : list A) :
  (forall x, x ∈ l -> P x) -> filter P l = l.
Proof.
  induction l as [|x l IH]; intros HP; [done|]. rewrite filter_cons_True by (apply HP; left).
  f_equal. apply IH. intros y Hy. apply HP. by right.
Qed.

Lemma filter_none (P : A -> Prop) `{forall x, Decision (P x)} (l : list A) :
  (forall x, x ∈ l -> ~ P x) -> filter P l = [].
Proof.
  induction l as [|x l IH]; intros HP; [done|]. rewrite filter_cons_False by (apply HP; left).
  apply IH. intros y Hy. apply HP. by right.
Qed.

Lemma bfilter_sub (P : A -> bool) l : List.filter P l `sublist_of` l.
Proof. induction l as [|x l IH]; simpl; [done|]. destruct (P x); by constructor. Qed.

Lemma elem_of_bfilter (P : A -> bool) x l : x ∈ List.filter P l <-> x ∈ l /\ P x = true.
Proof. rewrite !list_elem_of_In. apply filter_In. Qed.

End Lists.

Definition sum_Z (l : list Z) : Z := foldr Z.add 0 l.

Lemma sum_Z_app l k : sum_Z (l ++ k) = sum_Z l + sum_Z k.
Proof. induction l as [|x l IH]; simpl; [done|]. rewrite IH. lia. Qed.

Lemma sum_Z_perm l k : l ≡ₚ k -> sum_Z l = sum_Z k.
Proof. induction 1; simpl; lia. Qed.

#[global] Instance sum_Z_proper : Proper ((≡ₚ) ==> (=)) sum_Z.
Proof. intros l k H. by apply sum_Z_perm. Qed.

#[export] Hint Rewrite sum_Z_app : beng_rw.

(** ** Hash sets

    An [IntrusiveHashSet] is the list of its elements in the order in which
    it iterates over them.  The set belongs to a library; where in this order
    a new element is inserted depends on the hash values and on the
    library, so that it is a parameter. *)
Class HashSetOrder := {
  hs_insert : forall {A}, A -> list A -> list A;
  hs_insert_perm : forall {A} (x : A) l, hs_insert x l ≡ₚ x :: l }.

(** [for] loops over a list. *)
Fixpoint mfor {S A} (l : list A) (f : A -> M S unit) : M S unit :=
  match l with
  | [] => mret tt
  | x :: l' => (f x ;;; mfor l' f)%beng
  end.

Lemma wp_mfor {S A} (I : list A -> S -> Prop) (f : A -> M S unit) l s :
  (forall x l s, I (x :: l) s -> wp (f x) (fun _ s' => I l s') s) ->
  I l s -> wp (mfor l f) (fun _ s' => I [] s') s.
Proof.
  intros Hf. revert s. induction l as [|x l IH]; intros s HI; simpl; [by apply wp_ret|].
  apply wp_bind. eapply wp_mono; [by apply Hf|]. intros ? s' H. by apply IH.
Qed.
