(* ===== verification/Rubber.v ===== *)
(** * The "rubber" allocator: model

    [src/memory/Rubber.hxx] and [src/memory/Rubber.cxx]: an allocator for
    large objects in one memory map.  Objects are kept in a table of entries
    that form a doubly linked list ordered by offset; the gaps between them
    are [Hole] structs that live in the free memory itself and are linked in
    one of ten lists by size.  Every [assert()] of the code is a [massert] of
    the model, which is therefore a model of the build with assertions. *)

From S2P Require Import Prelude.

#[local] Open Scope beng_scope.

(** ** Constants *)

Definition RUBBER_ALIGN : Z := 32.

(** [sizeof] of the structs on a 64 bit machine. *)
Definition sizeof_Hole : Z := 32.
Definition sizeof_RubberObject : Z := 32.
Definition sizeof_RubberTable : Z := 16 + sizeof_RubberObject.

Definition HOLE_THRESHOLDS : list Z :=
  [1024 * 1024; 64 * 1024; 32 * 1024; 16 * 1024; 8192; 4096; 2048; 1024; 64; 0].

Definition N_HOLE_THRESHOLDS : nat := length HOLE_THRESHOLDS.

Fixpoint lookup_threshold (thresholds : list Z) (size : Z) : nat :=
  match thresholds with
  | [] => O
  | t :: ts => if t <=? size then O else S (lookup_threshold ts size)
  end.

Definition LookupHoleThreshold (size : Z) : nat := lookup_threshold HOLE_THRESHOLDS size.

(** ** Data *)

Record RubberObject := mk_object {
  next : Z;
  previous : Z;
  offset : Z;
  size : Z;
  allocated : bool;
}.

Definition set_next n o := mk_object n (previous o) (offset o) (size o) (allocated o).
Definition set_previous p o := mk_object (next o) p (offset o) (size o) (allocated o).
Definition set_offset x o := mk_object (next o) (previous o) x (size o) (allocated o).
Definition set_size x o := mk_object (next o) (previous o) (offset o) x (allocated o).
Definition set_allocated b o := mk_object (next o) (previous o) (offset o) (size o) b.

(** The memory map is zero-filled. *)
Definition zero_object : RubberObject := mk_object 0 0 0 0 false.

Definition Init (_offset _size : Z) (o : RubberObject) : RubberObject :=
  set_allocated true (set_size _size (set_offset _offset o)).

Definition InitHead (_size : Z) (o : RubberObject) : RubberObject :=
  set_size _size (set_offset 0 (set_next 0 (set_previous 0 o))).

Definition GetEndOffset (o : RubberObject) : Z := offset o + size o.

Record RubberTable := mk_table {
  max_entries : Z;
  initialized_tail : Z;
  free_head : Z;
  entries : gmap Z RubberObject;
}.

Definition set_tail x t := mk_table (max_entries t) x (free_head t) (entries t).
Definition set_free_head x t := mk_table (max_entries t) (initialized_tail t) x (entries t).
Definition set_entries e t := mk_table (max_entries t) (initialized_tail t) (free_head t) e.

Record Hole := mk_hole {
  hole_size : Z;
  previous_id : Z;
  next_id : Z;
}.

(** [netto_size], [table] and [holes] are the members of [class Rubber];
    [map_size] is [table.size()], the size of the memory map; [hole_at] and
    [mem] are the contents of the map after the table: the [Hole] structs and
    the bytes of the objects. *)
Record Rubber := mk_rubber {
  netto_size : Z;
  map_size : Z;
  table : RubberTable;
  holes : list (list Z);
  hole_at : gmap Z Hole;
  mem : Z -> Z;
}.

Definition set_netto_size x r :=
  mk_rubber x (map_size r) (table r) (holes r) (hole_at r) (mem r).
Definition set_table t r :=
  mk_rubber (netto_size r) (map_size r) t (holes r) (hole_at r) (mem r).
Definition set_holes h r :=
  mk_rubber (netto_size r) (map_size r) (table r) h (hole_at r) (mem r).
Definition set_hole_at h r :=
  mk_rubber (netto_size r) (map_size r) (table r) (holes r) h (mem r).
Definition set_mem m r :=
  mk_rubber (netto_size r) (map_size r) (table r) (holes r) (hole_at r) m.

(** ** What the allocator takes from libcommon and the system

    Helpers that are not part of this repository: the size of a "huge page"
    and rounding up to it, rounding up to a multiple, the bytes by which a
    [Hole] struct is represented in memory, and what the bytes of a discarded
    page read as. *)

Class RubberEnv := {
  HUGE_PAGE_SIZE : Z;
  AlignHugePageUp : Z -> Z;
  RoundUpToPowerOfTwo : Z -> Z -> Z;
  hole_byte : Hole -> Z -> Z;
  discarded_byte : Z -> Z;
}.

(** Their documented behaviour. *)
Class RubberEnvOk `{RubberEnv} := {
  huge_page_size_ge : 4096 <= HUGE_PAGE_SIZE;
  align_huge_page_multiple : forall x, (HUGE_PAGE_SIZE | AlignHugePageUp x);
  align_huge_page_ge : forall x, x <= AlignHugePageUp x;
  align_huge_page_lt : forall x, AlignHugePageUp x < x + HUGE_PAGE_SIZE;
  round_up_ge : forall x, 0 <= x -> x <= RoundUpToPowerOfTwo x RUBBER_ALIGN;
  round_up_lt : forall x, 0 <= x -> RoundUpToPowerOfTwo x RUBBER_ALIGN < x + RUBBER_ALIGN;
  round_up_multiple : forall x, 0 <= x -> (RUBBER_ALIGN | RoundUpToPowerOfTwo x RUBBER_ALIGN);
}.

(** ** The table *)

Section Model.
Context `{RubberEnv}.

Definition align_size (size : Z) : Z := RoundUpToPowerOfTwo size RUBBER_ALIGN.

Definition RequiredSize (n : Z) : Z := sizeof_RubberTable + sizeof_RubberObject * (n - 1).

(** The results of [RequiredSize()] and [Capacity()]; their assertions are in
    [RubberTable_new].  [Capacity()] returns an [unsigned]. *)
Definition Capacity (size : Z) : Z :=
  wrap 32 ((size - sizeof_RubberTable) / sizeof_RubberObject + 1).

(** [base] is the address of the memory map; [_max_entries] is an [unsigned]. *)
Definition RubberTable_new (base _max_entries : Z) : option RubberTable :=
  let table_size := AlignHugePageUp (base + RequiredSize _max_entries) - base in
  if (1 <? _max_entries) && (sizeof_RubberTable <=? table_size) then
    Some (mk_table (Capacity table_size) 1 0
      {[ 0 := set_allocated true (InitHead table_size zero_object) ]})
  else None.

Definition entry (t : RubberTable) (id : Z) : RubberObject :=
  default zero_object (entries t !! id).

(** [entries[id]], read and written; the index must be within the array. *)
Definition read_entry (id : Z) : M RubberTable RubberObject :=
  let! t := mget in
  massert ((0 <=? id) && (id <? max_entries t)) ;;;
  mret (entry t id).

Definition write_entry (id : Z) (f : RubberObject -> RubberObject) : M RubberTable unit :=
  let! o := read_entry id in
  mmod (fun t => set_entries (<[id := f o]> (entries t)) t).

Definition IsEmpty : M RubberTable bool :=
  let! head := read_entry 0 in
  mret (next head =? 0).

Definition GetSize : M RubberTable Z :=
  let! head := read_entry 0 in
  massert (offset head =? 0) ;;;
  mret (size head).

Definition GetTail : M RubberTable RubberObject :=
  let! head := read_entry 0 in
  read_entry (previous head).

Definition table_GetBruttoSize : M RubberTable Z :=
  let! tail := GetTail in
  let! table_size := GetSize in
  mret (GetEndOffset tail - table_size).

Definition GetTailOffset : M RubberTable Z :=
  let! tail := GetTail in
  massert (next tail =? 0) ;;;
  mret (GetEndOffset tail).

Definition AddId : M RubberTable Z :=
  let! t := mget in
  if free_head t =? 0 then
    if max_entries t <=? initialized_tail t then mret 0
    else
      mput (set_tail (initialized_tail t + 1) t) ;;;
      mret (initialized_tail t)
  else
    let id := free_head t in
    let! o := read_entry id in
    massert (negb (allocated o)) ;;;
    mmod (set_free_head (next o)) ;;;
    mret id.

Definition Link (id previous_id next_id : Z) : M RubberTable unit :=
  massert (0 <? id) ;;;
  massert (negb (id =? previous_id)) ;;;
  massert (negb (id =? next_id)) ;;;
  let! o := read_entry id in
  massert (allocated o) ;;;
  let! prev := read_entry previous_id in
  massert (allocated prev) ;;;
  massert (next prev =? next_id) ;;;
  massert (offset prev <? offset o) ;;;
  let! nxt := read_entry next_id in
  massert (allocated prev) ;;;
  massert (previous nxt =? previous_id) ;;;
  massert ((next_id =? 0) || (offset o <? offset nxt)) ;;;
  write_entry id (set_next next_id) ;;;
  write_entry id (set_previous previous_id) ;;;
  write_entry previous_id (set_next id) ;;;
  write_entry next_id (set_previous id).

Definition table_Add (_offset _size : Z) : M RubberTable Z :=
  let! id := AddId in
  if id =? 0 then mret 0
  else
    write_entry id (Init _offset _size) ;;;
    let! head := read_entry 0 in
    Link id (previous head) 0 ;;;
    mret id.

Definition table_GetSizeOf (id : Z) : M RubberTable Z :=
  let! t := mget in
  let! head := read_entry 0 in
  massert (offset head =? 0) ;;;
  massert (sizeof_RubberTable <=? size head) ;;;
  massert (0 <? id) ;;;
  massert (id <? initialized_tail t) ;;;
  let! o := read_entry id in
  massert (allocated o) ;;;
  mret (size o).

Definition table_Shrink (id new_size : Z) : M RubberTable Z :=
  let! old_size := table_GetSizeOf id in
  massert (new_size <=? old_size) ;;;
  write_entry id (set_size new_size) ;;;
  mret (old_size - new_size).

Definition Unlink (id : Z) : M RubberTable unit :=
  let! t := mget in
  massert (0 <? id) ;;;
  massert (id <? max_entries t) ;;;
  let! o := read_entry id in
  massert (allocated o) ;;;
  let! nxt := read_entry (next o) in
  massert (allocated nxt) ;;;
  massert (previous nxt =? id) ;;;
  massert ((next o =? 0) || (offset o <? offset nxt)) ;;;
  write_entry (next o) (set_previous (previous o)) ;;;
  let! prev := read_entry (previous o) in
  massert (allocated prev) ;;;
  massert (offset prev <? offset o) ;;;
  massert (next prev =? id) ;;;
  write_entry (previous o) (set_next (next o)).

Definition table_Remove (id : Z) : M RubberTable Z :=
  let! t := mget in
  let! table_size := GetSize in
  massert (sizeof_RubberTable <=? table_size) ;;;
  massert (0 <? id) ;;;
  massert (id <? max_entries t) ;;;
  Unlink id ;;;
  let! t := mget in
  write_entry id (set_next (free_head t)) ;;;
  mmod (set_free_head id) ;;;
  write_entry id (set_allocated false) ;;;
  let! o := read_entry id in
  mret (size o).

Definition GetOffsetOf (id : Z) : M RubberTable Z :=
  let! t := mget in
  let! table_size := GetSize in
  massert (sizeof_RubberTable <=? table_size) ;;;
  massert (0 <? id) ;;;
  massert (id <? max_entries t) ;;;
  massert (id <? initialized_tail t) ;;;
  let! o := read_entry id in
  massert (0 <? offset o) ;;;
  massert (table_size <=? offset o) ;;;
  let! prev := read_entry (previous o) in
  massert (offset prev <? offset o) ;;;
  let! nxt := read_entry (next o) in
  massert ((next o =? 0) || (offset o <? offset nxt)) ;;;
  massert ((next o =? 0) || (GetEndOffset o <=? offset nxt)) ;;;
  mret (offset o).

(** ** Holes *)

(** A table operation, run on the table of the allocator. *)
Definition on_table {A} (m : M RubberTable A) : M Rubber A :=
  fun r => match m (table r) with
           | Some (a, t) => Some (a, set_table t r)
           | None => None
           end.

Definition the_hole (r : Rubber) (h : Z) : Hole :=
  default (mk_hole 0 0 0) (hole_at r !! h).

Definition GetTotalHoleSize (r : Rubber) : Z :=
  sum_Z (map (fun l => sum_Z (map (fun h => hole_size (the_hole r h)) l)) (holes r)).

(** [WriteAt()] and [ReadAt()]: the offset must be within the map. *)
Definition at_offset (ofs : Z) : M Rubber Z :=
  let! r := mget in
  massert (ofs <=? map_size r) ;;;
  mret ofs.

(** Writing a [Hole] struct overwrites the bytes at its offset. *)
Definition write_hole (ofs : Z) (h : Hole) : M Rubber unit :=
  mmod (fun r =>
    set_mem (fun a => if (ofs <=? a) && (a <? ofs + sizeof_Hole)
                      then hole_byte h (a - ofs) else mem r a)
      (set_hole_at (<[ofs := h]> (hole_at r)) r)).

Fixpoint FindHole_loop (r : Rubber) (size : Z) (l : list Z) (best : option Z) (i : Z)
  : option Z :=
  match l with
  | [] => best
  | h :: l' =>
    let hs := hole_size (the_hole r h) in
    let better := (size <=? hs) &&
      match best with
      | None => true
      | Some b => hs <? hole_size (the_hole r b)
      end in
    let best' := if better then Some h else best in
    if better && (hs =? size) then best'
    else match best' with
         | Some _ => if 64 <=? i + 1 then best'
                     else FindHole_loop r size l' best' (i + 1)
         | None => FindHole_loop r size l' best' i
         end
  end.

(** [while (bucket > 0)] of [FindHole()]: the first hole of the next
    non-empty list of larger holes. *)
Fixpoint FindHole_larger (r : Rubber) (bucket : nat) : option Z :=
  match bucket with
  | O => None
  | S b => match holes r !! b with
           | Some (h :: _) => Some h
           | _ => FindHole_larger r b
           end
  end.

Definition FindHole (size : Z) : M Rubber (option Z) :=
  let! r := mget in
  let bucket := LookupHoleThreshold size in
  let! l := mopt (holes r !! bucket) in
  massert (RUBBER_ALIGN <=? size) ;;;
  match FindHole_loop r size l None 0 with
  | Some h => mret (Some h)
  | None =>
    match FindHole_larger r bucket with
    | Some h => massert (size <? hole_size (the_hole r h)) ;;; mret (Some h)
    | None => mret None
    end
  end.

Definition AddToHoleList (h : Z) : M Rubber unit :=
  let! r := mget in
  let bucket := LookupHoleThreshold (hole_size (the_hole r h)) in
  let! l := mopt (holes r !! bucket) in
  mmod (set_holes (<[bucket := h :: l]> (holes r))).

(** [unlink()]: the hole must be in one of the lists. *)
Definition RemoveHole (h : Z) : M Rubber unit :=
  let! r := mget in
  massert (existsb (fun l => bool_decide (h ∈ l)) (holes r)) ;;;
  mput (set_holes (map (filter (fun x => x <> h)) (holes r)) r).

Definition AddHole (ofs size previous_id next_id : Z) : M Rubber unit :=
  let! h := at_offset ofs in
  write_hole h (mk_hole size previous_id next_id) ;;;
  AddToHoleList h.

(** The first branch of [AddHoleAfter()], which follows an existing hole:
    grow the existing one. *)
Definition AddHoleAfter_grow (reference_id reference_end ofs size nid next_offset : Z)
  : M Rubber unit :=
  let! h := at_offset reference_end in
  let! hole := mgets (fun r => the_hole r h) in
  massert (reference_end + hole_size hole =? ofs) ;;;
  massert (previous_id hole =? reference_id) ;;;
  RemoveHole h ;;;
  let new_size := hole_size hole + size in
  write_hole h (mk_hole new_size (previous_id hole) nid) ;;;
  (if reference_end + new_size <? next_offset then
     let! h2 := at_offset (reference_end + new_size) in
     let! next_hole := mgets (fun r => the_hole r h2) in
     massert (reference_end + new_size + hole_size next_hole =? next_offset) ;;;
     massert (next_id next_hole =? nid) ;;;
     RemoveHole h2 ;;;
     write_hole h (mk_hole (new_size + hole_size next_hole) (previous_id hole) nid)
   else mret tt) ;;;
  AddToHoleList h.

Definition AddHoleAfter (reference_id ofs size : Z) : M Rubber unit :=
  let! o := on_table (read_entry reference_id) in
  massert (allocated o) ;;;
  massert (negb (next o =? 0)) ;;;
  let nid := next o in
  let! nxt := on_table (read_entry nid) in
  massert (allocated nxt) ;;;
  massert (ofs <? offset nxt) ;;;
  massert (ofs + size <=? offset nxt) ;;;
  let reference_end := GetEndOffset o in
  massert (reference_end <=? ofs) ;;;
  if reference_end <? ofs then
    AddHoleAfter_grow reference_id reference_end ofs size nid (offset nxt)
  else if ofs + size <? offset nxt then
    let! h2 := at_offset (ofs + size) in
    let! next_hole := mgets (fun r => the_hole r h2) in
    massert (ofs + size + hole_size next_hole =? offset nxt) ;;;
    massert (next_id next_hole =? nid) ;;;
    RemoveHole h2 ;;;
    AddHole ofs (size + hole_size next_hole) reference_id nid
  else
    AddHole ofs size reference_id nid.

(** ** The allocator *)

(** [Rubber()]: an empty allocator; [base] is the address of the memory map
    and [m] its initial contents. *)
Definition Rubber_new (base _max_size : Z) (m : Z -> Z) : option Rubber :=
  let map_size := HUGE_PAGE_SIZE + AlignHugePageUp _max_size in
  match RubberTable_new base (wrap 32 (map_size / 1024)) with
  | Some t => Some (mk_rubber 0 map_size t (replicate N_HOLE_THRESHOLDS []) ∅ m)
  | None => None
  end.

(** [~Rubber()] and [~RubberTable()]. *)
Definition Rubber_delete : M Rubber unit :=
  let! empty := on_table IsEmpty in
  massert empty ;;;
  let! r := mget in
  massert (netto_size r =? 0) ;;;
  let! head := on_table (read_entry 0) in
  massert (next head =? 0) ;;;
  massert (previous head =? 0) ;;;
  massert (allocated head).

Definition GetBruttoSize : M Rubber Z := on_table table_GetBruttoSize.

Definition GetMaxSize : M Rubber Z :=
  let! r := mget in
  let! table_size := on_table GetSize in
  mret (map_size r - table_size).

Definition assert_accounting : M Rubber unit :=
  let! r := mget in
  let! brutto := GetBruttoSize in
  massert (netto_size r + GetTotalHoleSize r =? brutto).

Definition UseHole (h id size : Z) : M Rubber unit :=
  let! hole := mgets (fun r => the_hole r h) in
  on_table (Link id (previous_id hole) (next_id hole)) ;;;
  RemoveHole h ;;;
  if negb (size =? hole_size hole) then
    write_hole (h + size) (mk_hole (hole_size hole - size) id (next_id hole)) ;;;
    AddToHoleList (h + size)
  else mret tt.

Definition AddInHole_at (h size : Z) : M Rubber Z :=
  let! id := on_table AddId in
  if id =? 0 then mret 0
  else
    on_table (write_entry id (Init h size)) ;;;
    UseHole h id size ;;;
    mmod (fun r => set_netto_size (netto_size r + size) r) ;;;
    mret id.

Definition AddInHole (size : Z) : M Rubber Z :=
  let! hole := FindHole size in
  match hole with
  | Some h => AddInHole_at h size
  | None => mret 0
  end.

Definition FindHoleBetween (a b : RubberObject) : M Rubber (option Z) :=
  massert (offset a <? offset b) ;;;
  if GetEndOffset a <? offset b
  then let! h := at_offset (GetEndOffset a) in mret (Some h)
  else mret None.

(** [memcpy()] and [memmove()] within the map. *)
Definition move_bytes (dest src n : Z) : M Rubber unit :=
  mmod (fun r => set_mem (fun a => if (dest <=? a) && (a <? dest + n)
                                   then mem r (src + (a - dest)) else mem r a) r).

Definition memcpy (dest src n : Z) : M Rubber unit :=
  massert ((dest + n <=? src) || (src + n <=? dest)) ;;;
  move_bytes dest src n.

Definition MoveLast (max_object_size : Z) : M Rubber bool :=
  let! head := on_table (read_entry 0) in
  let id := previous head in
  let! o := on_table (read_entry id) in
  if max_object_size <? size o then mret false
  else
  massert (next o =? 0) ;;;
  let! found := FindHole (size o) in
  match found with
  | None => mret false
  | Some h =>
    let! hole := mgets (fun r => the_hole r h) in
    if next_id hole =? id then mret false
    else
    let prev_id := previous o in
    let! prev := on_table (read_entry prev_id) in
    massert (next prev =? id) ;;;
    massert (GetEndOffset prev <=? offset o) ;;;
    let! hole2 := FindHoleBetween prev o in
    match hole2 with
    | Some h2 =>
      let! hole2 := mgets (fun r => the_hole r h2) in
      massert (previous_id hole2 =? prev_id) ;;;
      massert (next_id hole2 =? id) ;;;
      massert (GetEndOffset prev + hole_size hole2 =? offset o) ;;;
      RemoveHole h2
    | None => mret tt
    end ;;;
    on_table (Unlink id) ;;;
    on_table (write_entry id (set_offset h)) ;;;
    UseHole h id (size o) ;;;
    let! d := at_offset h in
    let! s := at_offset (offset o) in
    memcpy d s (size o) ;;;
    mret true
  end.

(** [MoveData()] on the entry [id]. *)
Definition MoveData (id new_offset : Z) : M Rubber unit :=
  let! o := on_table (read_entry id) in
  massert (new_offset <=? offset o) ;;;
  massert (0 <? size o) ;;;
  if offset o =? new_offset then mret tt
  else
    let! d := at_offset new_offset in
    let! s := at_offset (offset o) in
    move_bytes d s (size o) ;;;
    on_table (write_entry id (set_offset new_offset)).

(** The [while] loop of [Compress()], from the entry [id] on; it visits each
    entry once, so that the size of the table bounds it. *)
Fixpoint Compress_loop (fuel : nat) (id ofs : Z) : M Rubber Z :=
  match fuel with
  | O => mfail
  | S fuel =>
    let! o := on_table (read_entry id) in
    if next o =? 0 then mret ofs
    else
      MoveData (next o) ofs ;;;
      let! n := on_table (read_entry (next o)) in
      Compress_loop fuel (next o) (ofs + size n)
  end.

(** [DiscardPages()] from [start] to the end of the map. *)
Definition DiscardPages (start : Z) : M Rubber unit :=
  mmod (fun r => set_mem (fun a => if (start <=? a) && (a <? map_size r)
                                   then discarded_byte a else mem r a) r).

Definition Compress : M Rubber unit :=
  let! r := mget in
  let! brutto := GetBruttoSize in
  massert (netto_size r <=? brutto) ;;;
  assert_accounting ;;;
  if brutto =? netto_size r then
    massert (forallb (fun l => match l with [] => true | _ => false end) (holes r))
  else
    mmod (set_holes (map (fun _ => []) (holes r))) ;;;
    let! o := on_table (read_entry 0) in
    massert (offset o =? 0) ;;;
    let! ofs := Compress_loop (S (Z.to_nat (max_entries (table r)))) 0 (size o) in
    let! table_size := on_table GetSize in
    massert (ofs =? netto_size r + table_size) ;;;
    let! brutto := GetBruttoSize in
    massert (netto_size r =? brutto) ;;;
    let allocated := AlignHugePageUp ofs in
    if allocated <? map_size r then
      let! p := at_offset allocated in
      DiscardPages p
    else mret tt.

Definition MoveLast_fuel (r : Rubber) : positive :=
  Z.to_pos (map_size r * max_entries (table r) + 1).

(** The part of [Add()] after no hole was used: append the object. *)
Definition Add_tail (size : Z) : M Rubber Z :=
  let! r := mget in
  let! brutto := GetBruttoSize in
  (if netto_size r <=? brutto / 3 then Compress
   else while (MoveLast_fuel r) (MoveLast (size - 1))) ;;;
  let! ofs := on_table GetTailOffset in
  let! fits :=
    (if map_size r <? ofs + size then
       Compress ;;;
       let! ofs := on_table GetTailOffset in
       if map_size r <? ofs + size then mret None else mret (Some ofs)
     else mret (Some ofs)) in
  match fits with
  | None => mret 0
  | Some ofs =>
    let! id := on_table (table_Add ofs size) in
    (if 0 <? id then mmod (fun r => set_netto_size (netto_size r + size) r)
     else mret tt) ;;;
    assert_accounting ;;;
    mret id
  end.

Definition Add (size : Z) : M Rubber Z :=
  assert_accounting ;;;
  massert (0 <? size) ;;;
  let! r := mget in
  if map_size r <=? size then mret 0
  else
    let size := align_size size in
    let! brutto := GetBruttoSize in
    let! id := (if netto_size r + size <=? brutto then AddInHole size else mret 0) in
    if negb (id =? 0) then mret id else Add_tail size.

Definition GetSizeOf (id : Z) : M Rubber Z :=
  massert (0 <? id) ;;;
  on_table (table_GetSizeOf id).

(** [Write()] and [Read()] return the offset of the object in the map. *)
Definition Write (id : Z) : M Rubber Z :=
  let! ofs := on_table (GetOffsetOf id) in
  let! r := mget in
  massert (ofs <? map_size r) ;;;
  at_offset ofs.

Definition Shrink (id new_size : Z) : M Rubber unit :=
  assert_accounting ;;;
  massert (0 <? new_size) ;;;
  let! o := on_table (read_entry id) in
  massert (allocated o) ;;;
  massert (new_size <=? size o) ;;;
  let new_size := align_size new_size in
  if new_size =? size o then mret tt
  else
    let hole_offset := offset o + new_size in
    let hole_size := size o - new_size in
    let! delta := on_table (table_Shrink id new_size) in
    mmod (fun r => set_netto_size (netto_size r - delta) r) ;;;
    (if negb (next o =? 0) then AddHoleAfter id hole_offset hole_size else mret tt) ;;;
    assert_accounting.

(** [o] is the removed object, [a] the object before it. *)
Definition DiscardHoleBetween (a_id : Z) (a b : RubberObject) : M Rubber unit :=
  massert (GetEndOffset a <=? offset b) ;;;
  let! found := FindHoleBetween a b in
  match found with
  | Some h =>
    let! hole := mgets (fun r => the_hole r h) in
    massert (previous_id hole =? a_id) ;;;
    massert (GetEndOffset a + hole_size hole =? offset b) ;;;
    RemoveHole h
  | None => mret tt
  end.

Definition ReplaceWithHole (o : RubberObject) (previous_id next_id : Z) : M Rubber unit :=
  if next_id =? 0 then
    let! a := on_table (read_entry previous_id) in
    DiscardHoleBetween previous_id a o
  else AddHoleAfter previous_id (offset o) (size o).

Definition Remove (id : Z) : M Rubber unit :=
  massert (0 <? id) ;;;
  let! o := on_table (read_entry id) in
  massert (allocated o) ;;;
  let! r := mget in
  let! size := on_table (table_Remove id) in
  massert (size <=? netto_size r) ;;;
  mmod (fun r => set_netto_size (netto_size r - size) r) ;;;
  let! o' := on_table (read_entry id) in
  ReplaceWithHole o' (previous o) (next o).

End Model.
