(* ===== verification/RubberLayout.v ===== *)
(** * The "rubber" allocator: the table as a layout of memory

    The entries of the table that are linked between the head and itself form
    a path; along the path, objects are ordered by offset and the gaps between
    them are what the hole lists have to describe.  This file relates the
    pointer structure to lists and has the specifications of the table
    operations ([AddId], [Link], [Unlink], ...). *)

From S2P Require Import Prelude Rubber.

#[local] Open Scope beng_scope.

(** ** Paths, order and gaps *)

Definition nx (t : RubberTable) (id : Z) : Z := next (entry t id).
Definition pv (t : RubberTable) (id : Z) : Z := previous (entry t id).
Definition off (t : RubberTable) (id : Z) : Z := offset (entry t id).
Definition sz (t : RubberTable) (id : Z) : Z := size (entry t id).
Definition fin (t : RubberTable) (id : Z) : Z := GetEndOffset (entry t id).
Definition alloc (t : RubberTable) (id : Z) : bool := allocated (entry t id).

(** Neighbours in [c] are linked in both directions. *)
Fixpoint path (t : RubberTable) (c : list Z) : Prop :=
  match c with
  | a :: c' => match c' with
               | b :: _ => nx t a = b /\ pv t b = a /\ path t c'
               | [] => True
               end
  | [] => True
  end.

(** Neighbours in [c] do not overlap and are ordered by offset. *)
Fixpoint ordered (t : RubberTable) (c : list Z) : Prop :=
  match c with
  | a :: c' => match c' with
               | b :: _ => fin t a <= off t b /\ ordered t c'
               | [] => True
               end
  | [] => True
  end.

(** The hole between two neighbours, if there is room between them. *)
Definition gap (t : RubberTable) (a b : Z) : list (Z * Hole) :=
  if fin t a <? off t b then [(fin t a, mk_hole (off t b - fin t a) a b)] else [].

Fixpoint gaps (t : RubberTable) (c : list Z) : list (Z * Hole) :=
  match c with
  | a :: c' => match c' with
               | b :: _ => gap t a b ++ gaps t c'
               | [] => []
               end
  | [] => []
  end.

(** The list of free entries. *)
Fixpoint free_chain (t : RubberTable) (h : Z) (fl : list Z) : Prop :=
  match fl with
  | [] => h = 0
  | x :: fl' => h = x /\ free_chain t (nx t x) fl'
  end.

Definition objects_size (t : RubberTable) (ids : list Z) : Z := sum_Z (map (sz t) ids).

Lemma fin_eq t a : fin t a = off t a + sz t a.
Proof. done. Qed.

Lemma path_app t A p n B :
  path t (A ++ p :: n :: B) <->
  path t (A ++ [p]) /\ (nx t p = n /\ pv t n = p) /\ path t (n :: B).
Proof.
  induction A as [|a A IH]; simpl.
  - tauto.
  - destruct A as [|b A]; simpl in *; [tauto|]. rewrite IH. tauto.
Qed.

Lemma ordered_app t A a b B :
  ordered t (A ++ a :: b :: B) <->
  ordered t (A ++ [a]) /\ fin t a <= off t b /\ ordered t (b :: B).
Proof.
  induction A as [|x A IH]; simpl.
  - tauto.
  - destruct A as [|y A]; simpl in *; [tauto|]. rewrite IH. tauto.
Qed.

Lemma gaps_app t A a b B :
  gaps t (A ++ a :: b :: B) = gaps t (A ++ [a]) ++ gap t a b ++ gaps t (b :: B).
Proof.
  induction A as [|x A IH]; simpl; [done|].
  destruct A as [|y A]; simpl in *; [by rewrite app_nil_r|]. by rewrite IH, app_assoc.
Qed.

(** Paths and layouts only depend on the entries they mention. *)
Lemma path_ext t t' c :
  path t c ->
  (forall A x y B, c = A ++ x :: y :: B -> nx t' x = nx t x /\ pv t' y = pv t y) ->
  path t' c.
Proof.
  induction c as [|a [|b c] IH]; simpl; [done|done|].
  intros (E1 & E2 & Hp) H. destruct (H [] a b c eq_refl) as [Ha Hb].
  rewrite Ha, Hb. split_and!; [done|done|]. apply IH; [done|].
  intros A x y B E. apply (H (a :: A) x y B). simpl. by rewrite E.
Qed.

Lemma path_ext_all t t' c :
  path t c -> (forall x, x ∈ c -> nx t' x = nx t x /\ pv t' x = pv t x) -> path t' c.
Proof.
  intros Hp H. eapply path_ext; [done|]. intros A x y B ->.
  split; apply H; set_solver.
Qed.

Lemma path_frame t t' c :
  path t c ->
  (forall y, y ∈ removelast c -> nx t' y = nx t y) ->
  (forall z, z ∈ tail c -> pv t' z = pv t z) ->
  path t' c.
Proof.
  induction c as [|a [|b c] IH]; [done|done|]. intros (E1 & E2 & Hp) Hn Hv.
  split_and!.
  - rewrite Hn; [done|]. apply elem_of_cons. by left.
  - rewrite Hv; [done|]. apply elem_of_cons. by left.
  - apply IH; [done| |].
    + intros y Hy. apply Hn. change (y ∈ a :: removelast (b :: c)). set_solver.
    + intros z Hz. apply Hv. simpl in *. set_solver.
Qed.

Definition same_place (t t' : RubberTable) (c : list Z) : Prop :=
  forall x, x ∈ c -> off t' x = off t x /\ sz t' x = sz t x.

Lemma same_place_fin t t' c x : same_place t t' c -> x ∈ c -> fin t' x = fin t x.
Proof. intros H Hx. destruct (H x Hx). rewrite !fin_eq. lia. Qed.

Lemma ordered_ext t t' c : same_place t t' c -> ordered t c -> ordered t' c.
Proof.
  induction c as [|a [|b c] IH]; simpl; [done|done|]. intros H [H1 H2].
  split; [|apply IH; [intros x Hx; apply H; set_solver|done]].
  rewrite (same_place_fin _ _ _ _ H) by set_solver.
  destruct (H b) as [-> _]; [set_solver|done].
Qed.

Lemma gaps_ext t t' c : same_place t t' c -> gaps t' c = gaps t c.
Proof.
  induction c as [|a [|b c] IH]; intros H; [done|done|].
  change (gap t' a b ++ gaps t' (b :: c) = gap t a b ++ gaps t (b :: c)).
  rewrite IH by (intros x Hx; apply H; set_solver). f_equal. unfold gap.
  rewrite (same_place_fin _ _ _ _ H) by set_solver.
  destruct (H b) as [-> _]; [set_solver|done].
Qed.

Lemma objects_size_ext t t' ids :
  (forall x, x ∈ ids -> sz t' x = sz t x) -> objects_size t' ids = objects_size t ids.
Proof.
  unfold objects_size. induction ids as [|a ids IH]; intros H; simpl; [done|].
  rewrite IH, (H a); set_solver.
Qed.

Lemma free_chain_ext t t' h fl :
  (forall x, x ∈ fl -> nx t' x = nx t x) -> free_chain t h fl -> free_chain t' h fl.
Proof.
  revert h. induction fl as [|x fl IH]; simpl; intros h H; [done|].
  intros [-> Hf]. split; [done|]. rewrite H by set_solver. apply IH; [set_solver|done].
Qed.

(** *** Bounds along an ordered path *)

Definition sized (t : RubberTable) (c : list Z) : Prop := forall x, x ∈ c -> 0 < sz t x.

Lemma ordered_before t A a x :
  ordered t (A ++ [a]) -> sized t (A ++ [a]) -> x ∈ A ++ [a] -> x <> a ->
  fin t x <= off t a.
Proof.
  induction A as [|y A IH]; simpl; intros Ho Hs Hx Hne; [set_solver|].
  destruct A as [|z A]; simpl in *.
  - destruct Ho. assert (x = y) by set_solver. by subst.
  - destruct Ho as [H1 H2].
    assert (Hs' : sized t (z :: A ++ [a])) by (intros w Hw; apply Hs; set_solver).
    destruct (decide (x = y)) as [->|]; [|apply IH; set_solver].
    destruct (decide (z = a)) as [->|Hza]; [done|].
    specialize (IH H2 Hs'). assert (fin t z <= off t a) by
      (clear IH; revert H2 Hs' Hza; clear; revert z;
       induction A as [|w A IHA]; simpl; intros z [H1 H2] Hs' Hza;
       [done|];
       destruct (decide (w = a)) as [->|Hwa]; [done|];
       assert (fin t w <= off t a) by (apply IHA; [done|intros v Hv; apply Hs'; set_solver|done]);
       assert (0 < sz t w) by (apply Hs'; set_solver); rewrite fin_eq in *; lia).
    assert (0 < sz t z) by (apply Hs'; set_solver). rewrite fin_eq in *. lia.
Qed.

Lemma ordered_after t b B x :
  ordered t (b :: B) -> sized t (b :: B) -> x ∈ B -> fin t b <= off t x.
Proof.
  revert b. induction B as [|y B IH]; intros b; [set_solver|].
  intros [H1 H2] Hs Hx. apply elem_of_cons in Hx as [->|Hx]; [done|].
  assert (fin t y <= off t x) by (apply IH; [done|intros v Hv; apply Hs; set_solver|done]).
  assert (0 < sz t y) by (apply Hs; set_solver). rewrite fin_eq in *. lia.
Qed.

Lemma gap_elem t a b p :
  p ∈ gap t a b -> p = (fin t a, mk_hole (off t b - fin t a) a b) /\ fin t a < off t b.
Proof. unfold gap. destruct (Z.ltb_spec (fin t a) (off t b)); set_solver. Qed.

Lemma gaps_elem t c p :
  p ∈ gaps t c ->
  exists A a b B, c = A ++ a :: b :: B /\ fin t a < off t b /\
    p = (fin t a, mk_hole (off t b - fin t a) a b).
Proof.
  induction c as [|a [|b c] IH]; [set_solver|set_solver|].
  intros Hp. change (p ∈ gap t a b ++ gaps t (b :: c)) in Hp.
  apply elem_of_app in Hp as [Hp|Hp].
  - apply gap_elem in Hp as [-> H]. by exists [], a, b, c.
  - destruct (IH Hp) as (A & x & y & B & E & H & ->).
    exists (a :: A), x, y, B. by rewrite E.
Qed.

Lemma gaps_before t A a p :
  ordered t (A ++ [a]) -> sized t (A ++ [a]) -> p ∈ gaps t (A ++ [a]) -> p.1 < off t a.
Proof.
  intros Ho Hs Hp. apply gaps_elem in Hp as (A' & x & y & B & E & H & ->). simpl.
  assert (x ∈ A ++ [a]) by (rewrite E; set_solver).
  destruct (decide (y = a)) as [->|Hya]; [done|].
  assert (y ∈ A ++ [a]) by (rewrite E; set_solver).
  assert (fin t y <= off t a) by (by apply (ordered_before t A a y)).
  assert (0 < sz t y) by (by apply Hs). rewrite (fin_eq t y) in *. lia.
Qed.

Lemma gaps_after t b B p :
  ordered t (b :: B) -> sized t (b :: B) -> p ∈ gaps t (b :: B) -> fin t b <= p.1.
Proof.
  intros Ho Hs Hp. apply gaps_elem in Hp as (A' & x & y & B' & E & H & ->). simpl.
  destruct A' as [|z A']; simpl in E; injection E as -> E; [done|].
  assert (Hx : x ∈ B) by (rewrite E; set_solver).
  pose proof (ordered_after t z B x Ho Hs Hx).
  assert (0 < sz t x) by (apply Hs; set_solver). rewrite (fin_eq t x) in *. lia.
Qed.

Lemma gaps_NoDup t c : ordered t c -> sized t c -> NoDup (gaps t c).*1.
Proof.
  induction c as [|a [|b c] IH]; intros Ho Hs; [constructor|constructor|].
  change (NoDup (gap t a b ++ gaps t (b :: c)).*1).
  assert (Hs' : sized t (b :: c)) by (intros x Hx; apply Hs; set_solver).
  destruct Ho as [H1 H2]. rewrite fmap_app. apply NoDup_app. split_and!.
  - unfold gap. case_match; simpl; [apply NoDup_singleton|constructor].
  - intros o Ho Ho'. apply list_elem_of_fmap in Ho as (p & -> & Hp).
    apply list_elem_of_fmap in Ho' as (q & Eq & Hq).
    apply gap_elem in Hp as [-> Hlt]. simpl in Eq.
    pose proof (gaps_after t b c q H2 Hs' Hq).
    assert (0 < sz t b) by (apply Hs'; set_solver). rewrite (fin_eq t b) in *. lia.
  - by apply IH.
Qed.

Lemma objects_size_app t l k : objects_size t (l ++ k) = objects_size t l + objects_size t k.
Proof. unfold objects_size. by rewrite map_app, sum_Z_app. Qed.

(** The space from the end of the first to the end of the last object of an
    ordered path is objects and gaps. *)
Lemma gaps_total t a B :
  ordered t (a :: B) ->
  fin t (List.last B a) - fin t a =
  objects_size t B + sum_Z (map (fun p => hole_size p.2) (gaps t (a :: B))).
Proof.
  revert a. induction B as [|b B IH]; intros a Ho; [unfold objects_size; simpl; lia|].
  destruct Ho as [H1 H2]. specialize (IH b H2).
  change (gaps t (a :: b :: B)) with (gap t a b ++ gaps t (b :: B)).
  rewrite map_app, sum_Z_app.
  replace (List.last (b :: B) a) with (List.last B b) by
    (clear; revert a b; induction B as [|c B IH]; intros a b; [done|];
     change (List.last (c :: B) b = List.last (c :: B) a); rewrite <- !IH; done).
  change (objects_size t (b :: B)) with (sz t b + objects_size t B).
  assert (sum_Z (map (fun p => hole_size p.2) (gap t a b)) = off t b - fin t a).
  { unfold gap. destruct (Z.ltb_spec (fin t a) (off t b)); simpl; lia. }
  rewrite (fin_eq t b) in *. lia.
Qed.

(** ** Reading and writing entries *)

Definition upd (t : RubberTable) (id : Z) (f : RubberObject -> RubberObject) : RubberTable :=
  set_entries (<[id := f (entry t id)]> (entries t)) t.

Definition valid (t : RubberTable) (id : Z) : Prop := 0 <= id < max_entries t.

Lemma entry_upd t id f x :
  entry (upd t id f) x = if decide (id = x) then f (entry t id) else entry t x.
Proof.
  unfold entry at 1, upd. simpl. rewrite lookup_insert. by case_decide.
Qed.

Lemma wp_read_entry t id Q : valid t id -> Q (entry t id) t -> wp (read_entry id) Q t.
Proof.
  intros [H1 H2] HQ. unfold read_entry. wp_step. wp_step. wp_step. wp_step.
  - apply andb_true_iff. split; [by apply Z.leb_le|by apply Z.ltb_lt].
  - by wp_step.
Qed.

Lemma wp_write_entry t id f Q : valid t id -> Q tt (upd t id f) -> wp (write_entry id f) Q t.
Proof.
  intros Hv HQ. unfold write_entry. wp_step. apply wp_read_entry; [done|]. by wp_step.
Qed.

Lemma wp_on_table {A} (m : M RubberTable A) Q r :
  wp m (fun a t' => Q a (set_table t' r)) (table r) -> wp (on_table m) Q r.
Proof.
  intros (a & t' & E & HQ). exists a, (set_table t' r). unfold on_table. rewrite E. auto.
Qed.

Lemma wp_read r id Q :
  valid (table r) id -> Q (entry (table r) id) r -> wp (on_table (read_entry id)) Q r.
Proof.
  intros Hv HQ. apply wp_on_table, wp_read_entry; [done|].
  by destruct r.
Qed.

(** [bsolve] closes the boolean side conditions of [massert]. *)
Ltac bsolve :=
  repeat match goal with
  | |- (_ && _) = true => apply andb_true_iff; split
  | |- negb _ = true => apply negb_true_iff
  | |- (_ =? _) = true => apply Z.eqb_eq
  | |- (_ =? _) = false => apply Z.eqb_neq
  | |- (_ <? _) = true => apply Z.ltb_lt
  | |- (_ <=? _) = true => apply Z.leb_le
  | |- (_ || _) = true => apply orb_true_iff; rewrite ?Z.eqb_eq, ?Z.ltb_lt, ?Z.leb_le
  end; try done; try lia; try congruence;
  try (unfold nx, pv, off, sz, fin, alloc, GetEndOffset in *; first [lia | congruence]).

(** ** The invariant of the table

    [ids] are the allocated entries in the order of their offsets, [fl] the
    free list and [dang] the entries that are in neither (while an operation
    is under way). *)
Record TInv (t : RubberTable) (ids fl dang : list Z) : Prop := {
  tinv_path : path t (0 :: ids ++ [0]);
  tinv_ordered : ordered t (0 :: ids);
  tinv_head_offset : off t 0 = 0;
  tinv_head_alloc : alloc t 0 = true;
  tinv_head_size : sizeof_RubberTable <= sz t 0;
  tinv_alloc : forall x, x ∈ ids -> alloc t x = true;
  tinv_size : forall x, x ∈ ids -> 0 < sz t x /\ (RUBBER_ALIGN | sz t x);
  tinv_offset : forall x, x ∈ ids -> (RUBBER_ALIGN | off t x - sz t 0);
  tinv_free : free_chain t (free_head t) fl;
  tinv_free_alloc : forall x, x ∈ fl -> alloc t x = false;
  tinv_ids : ids ++ fl ++ dang ≡ₚ seqZ 1 (initialized_tail t - 1);
  tinv_tail : 1 <= initialized_tail t <= max_entries t;
}.

Section TInvFacts.
Context {t : RubberTable} {ids fl dang : list Z} (HT : TInv t ids fl dang).

Lemma tinv_range x : x ∈ ids ++ fl ++ dang -> 1 <= x < initialized_tail t.
Proof.
  intros Hx. rewrite (tinv_ids _ _ _ _ HT) in Hx. apply elem_of_seqZ in Hx. lia.
Qed.

Lemma tinv_valid x : x ∈ ids -> valid t x.
Proof.
  intros Hx. pose proof (tinv_range x) as Hr. pose proof (tinv_tail _ _ _ _ HT).
  unfold valid. assert (x ∈ ids ++ fl ++ dang) by set_solver. specialize (Hr H0). lia.
Qed.

Lemma tinv_valid0 : valid t 0.
Proof. pose proof (tinv_tail _ _ _ _ HT). unfold valid. lia. Qed.

Lemma tinv_valid' x : x ∈ 0 :: ids -> valid t x.
Proof. intros [->|Hx]%elem_of_cons; [apply tinv_valid0|by apply tinv_valid]. Qed.

Lemma tinv_pos x : x ∈ ids -> 0 < x.
Proof. intros Hx. assert (1 <= x < initialized_tail t) by (apply tinv_range; set_solver). lia. Qed.

Lemma tinv_NoDup : NoDup (ids ++ fl ++ dang).
Proof. rewrite (tinv_ids _ _ _ _ HT). apply NoDup_seqZ. Qed.

Lemma tinv_NoDup0 : NoDup (0 :: ids).
Proof.
  apply NoDup_cons. split.
  - intros H0. pose proof (tinv_pos 0 H0). lia.
  - pose proof tinv_NoDup as H. by apply NoDup_app in H as [H _].
Qed.

Lemma tinv_sized : sized t (0 :: ids).
Proof.
  intros x [->|Hx]%elem_of_cons.
  - pose proof (tinv_head_size _ _ _ _ HT). unfold sizeof_RubberTable, sizeof_RubberObject in *. lia.
  - by apply (tinv_size _ _ _ _ HT).
Qed.

(** The entry before the head is the last one. *)
Lemma tinv_last : pv t 0 = List.last ids 0.
Proof.
  pose proof (tinv_path _ _ _ _ HT) as Hp.
  destruct ids as [|a l] using rev_ind; [simpl in Hp; tauto|].
  rewrite <- app_assoc in Hp. simpl in Hp. 
  change (path t ((0 :: l) ++ a :: 0 :: [])) in Hp.
  apply path_app in Hp as (_ & [_ E] & _). rewrite E. by rewrite List.last_last.
Qed.

Lemma tinv_last_in : List.last ids 0 ∈ 0 :: ids.
Proof.
  destruct ids as [|a l] using rev_ind; [set_solver|]. rewrite List.last_last. set_solver.
Qed.

Lemma tinv_nx_last : nx t (List.last ids 0) = 0.
Proof.
  pose proof (tinv_path _ _ _ _ HT) as Hp.
  destruct ids as [|a l] using rev_ind; [simpl in Hp; tauto|].
  rewrite <- app_assoc in Hp. simpl in Hp. 
  change (path t ((0 :: l) ++ a :: 0 :: [])) in Hp. rewrite List.last_last.
  apply path_app in Hp. tauto.
Qed.

(** An allocated entry and its neighbours. *)
Lemma tinv_split x : x ∈ ids ->
  exists A a b B, 0 :: ids ++ [0] = A ++ a :: x :: b :: B /\
    pv t x = a /\ nx t x = b /\ nx t a = x /\ pv t b = x /\
    a ∈ 0 :: ids /\ b ∈ 0 :: ids.
Proof.
  intros Hx. pose proof (tinv_path _ _ _ _ HT) as Hp.
  apply list_elem_of_split in Hx as (l1 & l2 & E).
  assert (exists A a, 0 :: l1 = A ++ [a]) as (A & a & EA).
  { destruct l1 as [|y l1] using rev_ind; [by exists [], 0|]. exists (0 :: l1), y. done. }
  assert (exists b B, l2 ++ [0] = b :: B) as (b & B & EB).
  { destruct l2 as [|y l2]; [by exists 0, []|]. by exists y, (l2 ++ [0]). }
  assert (Ec : 0 :: ids ++ [0] = A ++ a :: x :: b :: B).
  { rewrite E. rewrite <- app_assoc. simpl. rewrite EB.
    change (0 :: l1 ++ x :: b :: B) with ((0 :: l1) ++ x :: b :: B). rewrite EA.
    by rewrite <- app_assoc. }
  exists A, a, b, B. rewrite Ec in Hp. apply path_app in Hp as (_ & [H1 H2] & Hp).
  apply (path_app t []) in Hp as (_ & [H3 H4] & _).
  split_and!; try done.
  - rewrite E. assert (a ∈ 0 :: l1) by (rewrite EA; set_solver). set_solver.
  - rewrite E. assert (b ∈ l2 ++ [0]) by (rewrite EB; set_solver). set_solver.
Qed.

End TInvFacts.

(** The invariant of a table with the same entries. *)
Lemma TInv_same t t' ids fl dang fl' dang' :
  TInv t ids fl dang -> entries t' = entries t ->
  free_chain t (free_head t') fl' ->
  (forall x, x ∈ fl' -> alloc t x = false) ->
  ids ++ fl' ++ dang' ≡ₚ seqZ 1 (initialized_tail t' - 1) ->
  1 <= initialized_tail t' <= max_entries t' ->
  TInv t' ids fl' dang'.
Proof.
  intros [] E Hfc Hfa Hp Ht.
  assert (Ee : forall x, entry t' x = entry t x) by (intros x; unfold entry; by rewrite E).
  constructor; try done; unfold off, alloc, sz; intros; rewrite ?Ee; try done; eauto.
  - eapply path_ext_all; [done|]. intros x _. unfold nx, pv. by rewrite Ee.
  - eapply ordered_ext; [|done]. intros x _. unfold off, sz. by rewrite Ee.
  - eapply free_chain_ext; [|done]. intros x _. unfold nx. by rewrite Ee.
Qed.

(** ** Specifications of the table operations *)

Section TableOps.
Context `{RubberEnv}.

Lemma AddId_spec t ids fl Q :
  TInv t ids fl [] ->
  (fl = [] -> initialized_tail t = max_entries t -> Q 0 t) ->
  (forall id t' fl', 0 < id -> valid t' id -> id ∉ ids ->
     TInv t' ids fl' [id] -> entries t' = entries t -> max_entries t' = max_entries t ->
     Q id t') ->
  wp AddId Q t.
Proof.
  intros HT H0 H1. pose proof (tinv_tail _ _ _ _ HT) as Ht.
  unfold AddId. wp_step. wp_step.
  destruct (Z.eqb_spec (free_head t) 0) as [E|E].
  - assert (fl = []) as ->.
    { destruct fl as [|x fl]; [done|]. pose proof (tinv_free _ _ _ _ HT) as [Ex _].
      assert (1 <= x < initialized_tail t) by (apply (tinv_range HT); set_solver). lia. }
    destruct (Z.leb_spec (max_entries t) (initialized_tail t)).
    + wp_step. apply H0; [done|lia].
    + wp_step. wp_step. wp_step.
      eapply (H1 _ _ []); try done; try (unfold valid; simpl; lia).
      * intros Hin. assert (1 <= initialized_tail t < initialized_tail t)
          by (apply (tinv_range HT); set_solver). lia.
      * eapply TInv_same; [done|done|done|set_solver| |simpl; lia]. simpl.
        replace (initialized_tail t + 1 - 1) with (initialized_tail t - 1 + 1) by lia.
        rewrite seqZ_app by lia. pose proof (tinv_ids _ _ _ _ HT) as Hp.
        rewrite !app_nil_r in Hp. rewrite Hp. f_equiv.
        rewrite seqZ_cons by lia. simpl. f_equiv; [lia|done].
  - destruct fl as [|x fl]; [by destruct (E (tinv_free _ _ _ _ HT))|].
    pose proof (tinv_free _ _ _ _ HT) as [Ex Hfree]. cbv zeta. rewrite Ex in *.
    assert (Hr : 1 <= x < initialized_tail t) by (apply (tinv_range HT); set_solver).
    assert (Hx : x ∉ ids).
    { pose proof (tinv_NoDup HT) as Hnd. apply NoDup_app in Hnd as (_ & Hnd & _).
      intros Hin. apply (Hnd x Hin). set_solver. }
    wp_step. apply wp_read_entry; [unfold valid; lia|]. wp_step. wp_step.
    { apply negb_true_iff. apply (tinv_free_alloc _ _ _ _ HT). set_solver. }
    wp_step. wp_step. wp_step. eapply (H1 _ _ fl); try done; [lia|unfold valid; simpl; lia|].
    pose proof (tinv_ids _ _ _ _ HT) as Hp.
    eapply TInv_same; [done|done|done| | |done].
    + intros y Hy. apply (tinv_free_alloc _ _ _ _ HT). set_solver.
    + simpl. rewrite <- Hp. f_equiv. rewrite app_nil_r.
      symmetry. apply Permutation_cons_append.
Qed.

(** The effect of [Link()]. *)
Definition linked (t : RubberTable) (id p n : Z) : RubberTable :=
  upd (upd (upd (upd t id (set_next n)) id (set_previous p)) p (set_next id))
      n (set_previous id).

Lemma linked_fields t id p n x :
  id <> p -> id <> n ->
  nx (linked t id p n) x = (if decide (x = p) then id else if decide (x = id) then n else nx t x) /\
  pv (linked t id p n) x = (if decide (x = n) then id else if decide (x = id) then p else pv t x) /\
  off (linked t id p n) x = off t x /\ sz (linked t id p n) x = sz t x /\
  alloc (linked t id p n) x = alloc t x.
Proof.
  intros. unfold linked, nx, pv, off, sz, alloc. rewrite !entry_upd.
  repeat case_decide; subst; simpl; try done; try congruence;
    rewrite ?entry_upd; repeat case_decide; subst; simpl; try done; congruence.
Qed.

Lemma Link_spec t id p n Q :
  0 < id -> id <> p -> id <> n -> valid t id -> valid t p -> valid t n ->
  alloc t id = true -> alloc t p = true -> nx t p = n -> pv t n = p ->
  off t p < off t id -> (n = 0 \/ off t id < off t n) ->
  Q tt (linked t id p n) -> wp (Link id p n) Q t.
Proof.
  intros. unfold Link.
  repeat first
    [ wp_step; apply wp_read_entry; [done|]
    | wp_step; wp_step; [by bsolve|]
    | wp_step; apply wp_write_entry; [done|]
    | apply wp_write_entry; [done|] ].
  by unfold linked in *.
Qed.

(** Splitting a list of entries before a position. *)
Lemma cons_last (L : list Z) x : exists A, x :: L = A ++ [List.last L x].
Proof.
  destruct L as [|a l] using rev_ind; [by exists []|]. rewrite List.last_last. by exists (x :: l).
Qed.

Lemma app_hd (L : list Z) x : exists B, L ++ [x] = List.hd x L :: B.
Proof. destruct L as [|a l]; [by exists []|]. by exists (l ++ [x]). Qed.

(** The neighbours [p] and [n] of a position between [L1] and [L2], and the
    entries [A] before and [B] after them. *)
Record Split (L1 L2 A : list Z) (p n : Z) (B : list Z) : Prop := {
  split_l : 0 :: L1 = A ++ [p];
  split_r : L2 ++ [0] = n :: B;
  split_A : forall y, y ∈ A -> y <> p;
  split_An : forall z, z ∈ tail (A ++ [p]) -> z ∈ L1 /\ z <> n;
  split_Bp : forall y, y ∈ removelast (n :: B) -> y ∈ L2 /\ y <> p;
  split_B : forall z, z ∈ B -> z <> n;
}.

Lemma split_at L1 L2 :
  NoDup (0 :: L1 ++ L2) ->
  exists A B, Split L1 L2 A (List.last L1 0) (List.hd 0 L2) B.
Proof.
  intros Hnd. destruct (cons_last L1 0) as [A EA]. destruct (app_hd L2 0) as [B EB].
  exists A, B. apply NoDup_cons in Hnd as [H0 Hnd]. apply NoDup_app in Hnd as (N1 & N12 & N2).
  set (p := List.last L1 0) in *. set (n := List.hd 0 L2) in *. clearbody p n.
  assert (Hp : p ∈ 0 :: L1) by (rewrite EA; set_solver).
  assert (Hn : n ∈ L2 ++ [0]) by (rewrite EB; set_solver).
  constructor; [done|done| | | |].
  - intros y Hy ->. assert (NoDup (A ++ [p])) as Hnd
      by (rewrite <- EA; apply NoDup_cons; split; [set_solver|done]).
    apply NoDup_app in Hnd as (_ & Hnd & _). apply (Hnd p Hy). by apply list_elem_of_singleton.
  - intros z Hz. rewrite <- EA in Hz. simpl in Hz. split; [done|]. set_solver.
  - intros y Hy. rewrite <- EB in Hy. rewrite removelast_last in Hy. split; [done|]. set_solver.
  - intros z Hz ->. assert (NoDup (n :: B)) as Hnd.
    { rewrite <- EB. apply NoDup_app. split_and!; [done|set_solver|apply NoDup_singleton]. }
    apply NoDup_cons in Hnd. tauto.
Qed.

Lemma split_path L1 L2 A p n B t :
  Split L1 L2 A p n B -> path t (0 :: (L1 ++ L2) ++ [0]) = path t (A ++ p :: n :: B).
Proof.
  intros HS. f_equal. transitivity ((0 :: L1) ++ L2 ++ [0]); [simpl; by rewrite <- app_assoc|].
  by rewrite (split_l _ _ _ _ _ _ HS), (split_r _ _ _ _ _ _ HS), <- app_assoc.
Qed.

Lemma split_path1 L1 L2 A p n B x t :
  Split L1 L2 A p n B -> path t (0 :: (L1 ++ x :: L2) ++ [0]) = path t (A ++ p :: x :: n :: B).
Proof.
  intros HS. f_equal.
  transitivity ((0 :: L1) ++ x :: L2 ++ [0]); [simpl; by rewrite <- app_assoc|].
  by rewrite (split_l _ _ _ _ _ _ HS), (split_r _ _ _ _ _ _ HS), <- app_assoc.
Qed.

Lemma linked_path t L1 L2 A p n B x :
  Split L1 L2 A p n B -> x ∉ 0 :: L1 ++ L2 ->
  path t (0 :: (L1 ++ L2) ++ [0]) -> path (linked t x p n) (0 :: (L1 ++ x :: L2) ++ [0]).
Proof.
  intros HS Hx Hp. rewrite (split_path1 _ _ _ _ _ _ _ _ HS).
  rewrite (split_path _ _ _ _ _ _ _ HS) in Hp.
  assert (Hp' : p ∈ 0 :: L1) by (rewrite (split_l _ _ _ _ _ _ HS); set_solver).
  assert (Hn' : n ∈ L2 ++ [0]) by (rewrite (split_r _ _ _ _ _ _ HS); set_solver).
  assert (Hxp : x <> p) by set_solver. assert (Hxn : x <> n) by set_solver.
  apply path_app in Hp as (Pl & _ & Pr).
  apply path_app. split_and!; [|destruct (linked_fields t x p n p Hxp Hxn) as [-> _]; by case_decide
    |destruct (linked_fields t x p n x Hxp Hxn) as (_ & -> & _); by repeat case_decide|].
  - eapply path_frame; [done| |]; intros y Hy;
      destruct (linked_fields t x p n y Hxp Hxn) as (En & Ep & _).
    + rewrite removelast_last in Hy. pose proof (split_A _ _ _ _ _ _ HS y Hy).
      assert (y ∈ 0 :: L1) by (rewrite (split_l _ _ _ _ _ _ HS); set_solver).
      rewrite En. repeat case_decide; set_solver.
    + destruct (split_An _ _ _ _ _ _ HS y Hy). rewrite Ep. repeat case_decide; set_solver.
  - apply (path_app _ []). split_and!; [done
      |destruct (linked_fields t x p n x Hxp Hxn) as [-> _]; by repeat case_decide
      |destruct (linked_fields t x p n n Hxp Hxn) as (_ & -> & _); by case_decide|].
    eapply path_frame; [done| |]; intros y Hy;
      destruct (linked_fields t x p n y Hxp Hxn) as (En & Ep & _).
    + destruct (split_Bp _ _ _ _ _ _ HS y Hy). rewrite En. repeat case_decide; set_solver.
    + simpl in Hy. pose proof (split_B _ _ _ _ _ _ HS y Hy).
      assert (y ∈ L2 ++ [0]) by (rewrite (split_r _ _ _ _ _ _ HS); set_solver).
      rewrite Ep. repeat case_decide; set_solver.
Qed.

(** Inserting into, and removing from, an ordered list of entries. *)
Lemma ordered_insert t L1 L2 x :
  ordered t (0 :: L1 ++ L2) -> fin t (List.last L1 0) <= off t x ->
  (L2 = [] \/ fin t x <= off t (List.hd 0 L2)) ->
  ordered t (0 :: L1 ++ x :: L2).
Proof.
  intros Ho H1 H2. destruct (cons_last L1 0) as [A EA].
  change (ordered t ((0 :: L1) ++ L2)) in Ho. change (ordered t ((0 :: L1) ++ x :: L2)).
  rewrite EA in *. rewrite <- app_assoc in *. simpl in *.
  destruct L2 as [|b L2]; apply ordered_app.
  - split_and!; done.
  - apply ordered_app in Ho as (? & _ & ?). destruct H2 as [|H2]; [done|]. by split_and!.
Qed.

Lemma ordered_delete t L1 L2 x :
  ordered t (0 :: L1 ++ x :: L2) -> 0 <= sz t x -> ordered t (0 :: L1 ++ L2).
Proof.
  intros Ho Hs. destruct (cons_last L1 0) as [A EA].
  change (ordered t ((0 :: L1) ++ x :: L2)) in Ho. change (ordered t ((0 :: L1) ++ L2)).
  rewrite EA in *. rewrite <- app_assoc in *. simpl in *.
  destruct L2 as [|b L2]; apply ordered_app in Ho as (H1 & H2 & H3).
  - done.
  - destruct H3 as [H3 H4]. apply ordered_app. rewrite fin_eq in H3. split_and!; [done|lia|done].
Qed.

(** Linking a dangling entry between two neighbours. *)
Lemma linked_TInv t L1 L2 fl x :
  TInv t (L1 ++ L2) fl [x] ->
  alloc t x = true -> 0 < sz t x -> (RUBBER_ALIGN | sz t x) ->
  (RUBBER_ALIGN | off t x - sz t 0) ->
  fin t (List.last L1 0) <= off t x -> (L2 = [] \/ fin t x <= off t (List.hd 0 L2)) ->
  TInv (linked t x (List.last L1 0) (List.hd 0 L2)) (L1 ++ x :: L2) fl [].
Proof.
  intros HT Hal Hsz Hdv Hdo Hpx Hxn.
  destruct (split_at L1 L2 (tinv_NoDup0 HT)) as (A & B & HS).
  set (p := List.last L1 0) in *. set (n := List.hd 0 L2) in *.
  pose proof (tinv_NoDup HT) as Hnd. rewrite app_assoc in Hnd.
  apply NoDup_app in Hnd as (_ & Hnd & _).
  assert (Hx : x ∉ (L1 ++ L2) ++ fl) by (intros Hin; apply (Hnd x Hin); set_solver).
  assert (Hx0 : x <> 0) by (assert (1 <= x < initialized_tail t)
    by (apply (tinv_range HT); set_solver); lia).
  assert (Hp' : p ∈ 0 :: L1) by (rewrite (split_l _ _ _ _ _ _ HS); set_solver).
  assert (Hn' : n ∈ L2 ++ [0]) by (rewrite (split_r _ _ _ _ _ _ HS); set_solver).
  assert (Hxp : x <> p) by set_solver. assert (Hxn' : x <> n) by set_solver.
  pose proof (fun y => linked_fields t x p n y Hxp Hxn') as Hf.
  assert (Hal' : forall y, alloc (linked t x p n) y = alloc t y) by (intros y; apply (Hf y)).
  assert (Hsz' : forall y, sz (linked t x p n) y = sz t y) by (intros y; apply (Hf y)).
  assert (Hof' : forall y, off (linked t x p n) y = off t y) by (intros y; apply (Hf y)).
  assert (Hfl : forall y, y ∈ fl -> y <> p /\ y <> x).
  { intros y Hy. split; [|intros ->; apply Hx, elem_of_app; by right]. intros ->.
    apply elem_of_cons in Hp' as [E|E].
    - rewrite E in Hy. assert (1 <= 0 < initialized_tail t); [|lia].
      apply (tinv_range HT), elem_of_app; right; apply elem_of_app; by left.
    - pose proof (tinv_NoDup HT) as Hnd2. apply NoDup_app in Hnd2 as (_ & Hnd2 & _).
      apply (Hnd2 p); apply elem_of_app; by left. }
  destruct HT as [HTp HTo HT1 HT2 HT3 HT4 HT5 HT6 HT7 HT8 HT9 HT10].
  constructor; try done; rewrite ?Hal', ?Hsz', ?Hof'; try done.
  - eapply linked_path; [done| |done]. set_solver.
  - eapply ordered_ext with t; [by intros y _|]. by apply ordered_insert.
  - intros y Hy. rewrite Hal'. destruct (decide (y = x)) as [->|]; [done|]. apply HT4. set_solver.
  - intros y Hy. rewrite Hsz'. destruct (decide (y = x)) as [->|]; [done|]. apply HT5. set_solver.
  - intros y Hy. rewrite Hof'. destruct (decide (y = x)) as [->|]; [done|]. apply HT6. set_solver.
  - eapply free_chain_ext; [|exact HT7]. intros y Hy. destruct (Hf y) as [-> _].
    destruct (Hfl y Hy). by repeat case_decide.
  - intros y Hy. rewrite Hal'. by apply HT8.
  - change (initialized_tail (linked t x p n)) with (initialized_tail t).
    rewrite <- HT9, app_nil_r, <- !app_assoc. f_equiv. simpl.
    rewrite (app_assoc L2 fl). apply Permutation_cons_append.
Qed.

(** The effect of [Unlink()]. *)
Definition unlinked (t : RubberTable) (a b : Z) : RubberTable :=
  upd (upd t b (set_previous a)) a (set_next b).

Lemma unlinked_fields t a b x :
  nx (unlinked t a b) x = (if decide (x = a) then b else nx t x) /\
  pv (unlinked t a b) x = (if decide (x = b) then a else pv t x) /\
  off (unlinked t a b) x = off t x /\ sz (unlinked t a b) x = sz t x /\
  alloc (unlinked t a b) x = alloc t x.
Proof.
  unfold unlinked, nx, pv, off, sz, alloc. rewrite !entry_upd.
  repeat case_decide; subst; simpl; try done; try congruence;
    rewrite ?entry_upd; repeat case_decide; subst; simpl; try done; congruence.
Qed.

(** The neighbours of an allocated entry. *)
Lemma tinv_neighbours t L1 x L2 fl dang :
  TInv t (L1 ++ x :: L2) fl dang ->
  pv t x = List.last L1 0 /\ nx t x = List.hd 0 L2 /\
  nx t (List.last L1 0) = x /\ pv t (List.hd 0 L2) = x.
Proof.
  intros HT. pose proof (tinv_path _ _ _ _ HT) as Hp.
  destruct (cons_last L1 0) as [A EA]. destruct (app_hd L2 0) as [B EB].
  assert (E : 0 :: (L1 ++ x :: L2) ++ [0] = A ++ List.last L1 0 :: x :: List.hd 0 L2 :: B).
  { transitivity ((0 :: L1) ++ x :: L2 ++ [0]); [simpl; by rewrite <- app_assoc|].
    by rewrite EA, EB, <- app_assoc. }
  rewrite E in Hp. apply path_app in Hp as (_ & [H1 H2] & Hp).
  apply (path_app _ []) in Hp as (_ & [H3 H4] & _). done.
Qed.

Lemma tinv_order t L1 x L2 fl dang :
  TInv t (L1 ++ x :: L2) fl dang ->
  fin t (List.last L1 0) <= off t x /\ (L2 = [] \/ fin t x <= off t (List.hd 0 L2)).
Proof.
  intros HT. pose proof (tinv_ordered _ _ _ _ HT) as Ho.
  destruct (cons_last L1 0) as [A EA]. change (ordered t ((0 :: L1) ++ x :: L2)) in Ho.
  rewrite EA, <- app_assoc in Ho. apply ordered_app in Ho as (_ & H1 & H2).
  split; [done|]. destruct L2 as [|b L2]; [by left|right]. by destruct H2.
Qed.

Lemma last_elem (L : list Z) x : List.last L x ∈ x :: L.
Proof. destruct (cons_last L x) as [A ->]. set_solver. Qed.

Lemma hd_elem (L : list Z) x : List.hd x L ∈ x :: L.
Proof. destruct L; set_solver. Qed.

Lemma tinv_alloc' t ids fl dang x : TInv t ids fl dang -> x ∈ 0 :: ids -> alloc t x = true.
Proof.
  intros HT [->|Hx]%elem_of_cons; [apply (tinv_head_alloc _ _ _ _ HT)|].
  by apply (tinv_alloc _ _ _ _ HT).
Qed.

Lemma Unlink_spec t L1 x L2 fl dang Q :
  TInv t (L1 ++ x :: L2) fl dang ->
  Q tt (unlinked t (List.last L1 0) (List.hd 0 L2)) ->
  wp (Unlink x) Q t.
Proof.
  intros HT HQ. destruct (tinv_neighbours _ _ _ _ _ _ HT) as (Ea & Eb & Ena & Epb).
  destruct (tinv_order _ _ _ _ _ _ HT) as [Ho1 Ho2].
  assert (Hx : x ∈ L1 ++ x :: L2) by set_solver.
  assert (Ha : List.last L1 0 ∈ 0 :: L1 ++ x :: L2) by (pose proof (last_elem L1 0); set_solver).
  assert (Hb : List.hd 0 L2 ∈ 0 :: L1 ++ x :: L2) by (pose proof (hd_elem L2 0); set_solver).
  pose proof (tinv_valid HT x Hx) as Vx. pose proof (tinv_pos HT x Hx).
  pose proof (tinv_sized HT _ Ha) as Sa. pose proof (tinv_sized HT x) as Sx.
  pose proof (tinv_alloc' _ _ _ _ _ HT Ha) as Aa. pose proof (tinv_alloc' _ _ _ _ _ HT Hb) as Ab.
  pose proof (tinv_alloc _ _ _ _ HT x Hx) as Ax.
  pose proof (tinv_valid' HT _ Ha) as Va. pose proof (tinv_valid' HT _ Hb) as Vb.
  rewrite fin_eq in *. unfold Unlink. unfold valid in Vx.
  do 2 wp_step. do 2 (wp_step; wp_step; [by bsolve|]).
  wp_step; apply wp_read_entry; [done|]. wp_step. wp_step; [done|].
  wp_step. change (next (entry t x)) with (nx t x). change (previous (entry t x)) with (pv t x).
  rewrite Eb, Ea. apply wp_read_entry; [done|]. wp_step. wp_step; [done|].
  wp_step. wp_step; [by bsolve|]. wp_step. wp_step.
  { bsolve. destruct Ho2 as [->|Ho2]; [by left|right].
    unfold off, sz, fin, GetEndOffset in *. specialize (Sx ltac:(set_solver)). lia. }
  wp_step. apply wp_write_entry; [done|].
  wp_step. apply wp_read_entry; [done|]. rewrite entry_upd.
  assert (off t (List.last L1 0) < off t x) by lia.
  assert (Hor : List.last L1 0 <> x).
  { intros E. rewrite E in *. lia. }
  wp_step. wp_step; [by case_decide; [subst|]|]. wp_step. wp_step.
  { apply Z.ltb_lt. case_decide as Hd; [|done]. simpl. rewrite Hd. done. }
  wp_step. wp_step.
  { apply Z.eqb_eq. case_decide as Hd; [|done]. simpl. rewrite Hd. done. }
  apply wp_write_entry; [done|done].
Qed.

Lemma unlinked_path t L1 L2 A p n B x :
  Split L1 L2 A p n B ->
  path t (0 :: (L1 ++ x :: L2) ++ [0]) -> path (unlinked t p n) (0 :: (L1 ++ L2) ++ [0]).
Proof.
  intros HS Hp. rewrite (split_path _ _ _ _ _ _ _ HS).
  rewrite (split_path1 _ _ _ _ _ _ _ _ HS) in Hp.
  apply path_app in Hp as (Pl & _ & Pr).
  apply (path_app _ []) in Pr as (_ & _ & Pr).
  apply path_app. split_and!;
    [|destruct (unlinked_fields t p n p) as [-> _]; by case_decide
     |destruct (unlinked_fields t p n n) as (_ & -> & _); by case_decide|].
  - eapply path_frame; [done| |]; intros y Hy;
      destruct (unlinked_fields t p n y) as (En & Ep & _).
    + rewrite removelast_last in Hy. pose proof (split_A _ _ _ _ _ _ HS y Hy).
      rewrite En. by repeat case_decide.
    + destruct (split_An _ _ _ _ _ _ HS y Hy). rewrite Ep. by repeat case_decide.
  - eapply path_frame; [done| |]; intros y Hy;
      destruct (unlinked_fields t p n y) as (En & Ep & _).
    + destruct (split_Bp _ _ _ _ _ _ HS y Hy). rewrite En. by repeat case_decide.
    + simpl in Hy. pose proof (split_B _ _ _ _ _ _ HS y Hy). rewrite Ep. by repeat case_decide.
Qed.

Lemma unlinked_TInv t L1 x L2 fl :
  TInv t (L1 ++ x :: L2) fl [] ->
  TInv (unlinked t (List.last L1 0) (List.hd 0 L2)) (L1 ++ L2) fl [x].
Proof.
  intros HT. assert (Hnd : NoDup (0 :: L1 ++ L2)).
  { pose proof (tinv_NoDup0 HT) as Hnd.
    change (NoDup ((0 :: L1) ++ x :: L2)) in Hnd. change (NoDup ((0 :: L1) ++ L2)).
    apply NoDup_app in Hnd as (N1 & N2 & N3). apply NoDup_cons in N3 as [_ N3].
    apply NoDup_app. split_and!; [done|set_solver|done]. }
  destruct (split_at L1 L2 Hnd) as (A & B & HS).
  set (p := List.last L1 0) in *. set (n := List.hd 0 L2) in *.
  pose proof (fun y => unlinked_fields t p n y) as Hf.
  assert (Hal' : forall y, alloc (unlinked t p n) y = alloc t y) by (intros y; apply (Hf y)).
  assert (Hsz' : forall y, sz (unlinked t p n) y = sz t y) by (intros y; apply (Hf y)).
  assert (Hof' : forall y, off (unlinked t p n) y = off t y) by (intros y; apply (Hf y)).
  assert (Hfl : forall y, y ∈ fl -> y <> p).
  { intros y Hy ->. assert (Hp' : p ∈ 0 :: L1) by apply last_elem.
    apply elem_of_cons in Hp' as [E|E].
    - rewrite E in Hy. assert (1 <= 0 < initialized_tail t); [|lia].
      apply (tinv_range HT), elem_of_app; right; apply elem_of_app; by left.
    - pose proof (tinv_NoDup HT) as Hnd2. apply NoDup_app in Hnd2 as (_ & Hnd2 & _).
      apply (Hnd2 p); apply elem_of_app; by left. }
  assert (Hsub : forall y, y ∈ L1 ++ L2 -> y ∈ L1 ++ x :: L2) by set_solver.
  pose proof (tinv_sized HT x ltac:(set_solver)) as Hxs.
  destruct HT as [HTp HTo HT1 HT2 HT3 HT4 HT5 HT6 HT7 HT8 HT9 HT10].
  constructor; try done; rewrite ?Hal', ?Hsz', ?Hof'; try done.
  - eapply unlinked_path; done.
  - eapply ordered_ext with t; [by intros y _|]. eapply ordered_delete; [done|lia].
  - intros y Hy. rewrite Hal'. auto.
  - intros y Hy. rewrite Hsz'. auto.
  - intros y Hy. rewrite Hof'. auto.
  - eapply free_chain_ext; [|exact HT7]. intros y Hy. destruct (Hf y) as [-> _].
    pose proof (Hfl y Hy). by repeat case_decide.
  - intros y Hy. rewrite Hal'. by apply HT8.
  - change (initialized_tail (unlinked t p n)) with (initialized_tail t).
    rewrite <- HT9, app_nil_r, <- !app_assoc. f_equiv. simpl.
    rewrite (app_assoc L2 fl). symmetry. apply Permutation_cons_append.
Qed.

(** Changing an entry that is not linked. *)
Lemma TInv_upd_dangling t ids fl x f :
  TInv t ids fl [x] -> TInv (upd t x f) ids fl [x].
Proof.
  intros HT. pose proof (tinv_NoDup HT) as Hnd. rewrite app_assoc in Hnd.
  apply NoDup_app in Hnd as (_ & Hnd & _).
  assert (Hx : forall y, y ∈ ids ++ fl -> y <> x) by (intros y Hy ->; apply (Hnd x Hy); set_solver).
  assert (Hx0 : x <> 0) by (assert (1 <= x < initialized_tail t)
    by (apply (tinv_range HT); set_solver); lia).
  assert (Ee : forall y, y ∈ 0 :: ids ++ fl -> entry (upd t x f) y = entry t y).
  { intros y Hy. rewrite entry_upd. case_decide; [subst y|done].
    apply elem_of_cons in Hy as [?|Hy]; [done|by destruct (Hx x Hy)]. }
  destruct HT as [HTp HTo HT1 HT2 HT3 HT4 HT5 HT6 HT7 HT8 HT9 HT10].
  constructor; try done; unfold nx, pv, off, sz, alloc; intros;
    rewrite ?Ee by set_solver; try done; eauto.
  - eapply path_ext_all; [done|]. intros y Hy. unfold nx, pv. rewrite Ee; [done|set_solver].
  - eapply ordered_ext; [|done]. intros y Hy. unfold off, sz. rewrite Ee; [done|set_solver].
  - eapply free_chain_ext; [|done]. intros y Hy. unfold nx. rewrite Ee; [done|set_solver].
Qed.

(** Moving an object towards its predecessor, or shrinking it. *)
Lemma TInv_place t L1 x L2 fl f o s :
  TInv t (L1 ++ x :: L2) fl [] ->
  (forall e, next (f e) = next e /\ previous (f e) = previous e /\ allocated (f e) = allocated e) ->
  off (upd t x f) x = o -> sz (upd t x f) x = s ->
  fin t (List.last L1 0) <= o -> o + s <= fin t x -> 0 < s -> (RUBBER_ALIGN | s) ->
  (RUBBER_ALIGN | o - sz t 0) ->
  TInv (upd t x f) (L1 ++ x :: L2) fl [].
Proof.
  intros HT Hf Eo Es Hlo Hhi Hs Hd Hdo.
  assert (Hnd : NoDup (0 :: L1 ++ x :: L2)) by apply (tinv_NoDup0 HT).
  assert (Hx0 : x <> 0) by (pose proof (tinv_pos HT x ltac:(set_solver)); lia).
  assert (Ee : forall y, y <> x -> entry (upd t x f) y = entry t y).
  { intros y Hy. rewrite entry_upd. by case_decide. }
  assert (Enx : forall y, nx (upd t x f) y = nx t y /\ pv (upd t x f) y = pv t y /\
                          alloc (upd t x f) y = alloc t y).
  { intros y. unfold nx, pv, alloc. rewrite entry_upd. case_decide; [subst y; apply Hf|done]. }
  assert (HxL : x ∉ 0 :: L1 ++ L2).
  { change (NoDup ((0 :: L1) ++ x :: L2)) in Hnd. apply NoDup_app in Hnd as (_ & N1 & N2).
    apply NoDup_cons in N2 as [N2 _]. intros Hin. change (x ∈ (0 :: L1) ++ L2) in Hin.
    apply elem_of_app in Hin as [Hin|Hin]; [|done]. apply (N1 x Hin). set_solver. }
  assert (Hsp : same_place t (upd t x f) (0 :: L1 ++ L2)).
  { intros y Hy. unfold off, sz. rewrite Ee; [done|]. by intros ->. }
  destruct (tinv_order _ _ _ _ _ _ HT) as [_ Ho2].
  assert (Hlast : List.last L1 0 ∈ 0 :: L1 ++ L2) by (pose proof (last_elem L1 0); set_solver).
  pose proof (tinv_sized HT x ltac:(set_solver)) as Hxs.
  destruct HT as [HTp HTo HT1 HT2 HT3 HT4 HT5 HT6 HT7 HT8 HT9 HT10].
  assert (Esz0 : sz (upd t x f) 0 = sz t 0) by (unfold sz; by rewrite Ee).
  constructor; try done; rewrite ?Esz0; try done.
  - eapply path_ext_all; [exact HTp|]. intros y _. destruct (Enx y) as (? & ? & _). done.
  - apply ordered_insert.
    + eapply ordered_ext; [exact Hsp|]. eapply ordered_delete; [exact HTo|lia].
    + by rewrite Eo, (same_place_fin _ _ _ _ Hsp).
    + destruct Ho2 as [->|Ho2]; [by left|]. destruct L2 as [|b L2]; [by left|right]. simpl in *.
      destruct (Hsp b) as [-> _]; [set_solver|]. rewrite (fin_eq (upd t x f) x), Eo, Es. lia.
  - unfold off. by rewrite Ee.
  - destruct (Enx 0) as (_ & _ & ->). done.
  - intros y Hy. destruct (Enx y) as (_ & _ & ->). by apply HT4.
  - intros y Hy. destruct (decide (y = x)) as [->|Hne]; [by rewrite Es|].
    unfold sz. rewrite Ee by done. by apply HT5.
  - intros y Hy. destruct (decide (y = x)) as [->|Hne]; [by rewrite Eo|].
    unfold off. rewrite Ee by done. by apply HT6.
  - eapply free_chain_ext; [|exact HT7]. intros y _. by destruct (Enx y) as (? & _).
  - intros y Hy. destruct (Enx y) as (_ & _ & ->). by apply HT8.
Qed.

(** The last object. *)
Lemma GetTail_spec t ids fl dang Q :
  TInv t ids fl dang -> Q (entry t (List.last ids 0)) t -> wp GetTail Q t.
Proof.
  intros HT HQ. unfold GetTail. wp_step. apply wp_read_entry; [apply (tinv_valid0 HT)|].
  change (previous (entry t 0)) with (pv t 0). rewrite (tinv_last HT).
  apply wp_read_entry; [|done]. apply (tinv_valid' HT), last_elem.
Qed.

Lemma GetSize_spec t ids fl dang Q : TInv t ids fl dang -> Q (sz t 0) t -> wp GetSize Q t.
Proof.
  intros HT HQ. unfold GetSize. wp_step. apply wp_read_entry; [apply (tinv_valid0 HT)|].
  wp_step. wp_step; [|by wp_step]. apply Z.eqb_eq. apply (tinv_head_offset _ _ _ _ HT).
Qed.

Lemma table_GetBruttoSize_spec t ids fl dang Q :
  TInv t ids fl dang -> Q (fin t (List.last ids 0) - sz t 0) t -> wp table_GetBruttoSize Q t.
Proof.
  intros HT HQ. unfold table_GetBruttoSize. wp_step. eapply GetTail_spec; [done|].
  wp_step. eapply GetSize_spec; [done|]. by wp_step.
Qed.

Lemma GetTailOffset_spec t ids fl dang Q :
  TInv t ids fl dang -> Q (fin t (List.last ids 0)) t -> wp GetTailOffset Q t.
Proof.
  intros HT HQ. unfold GetTailOffset. wp_step. eapply GetTail_spec; [done|].
  wp_step. wp_step; [|by wp_step]. apply Z.eqb_eq. apply (tinv_nx_last HT).
Qed.

Lemma table_GetSizeOf_spec t ids fl dang x Q :
  TInv t ids fl dang -> x ∈ ids -> Q (sz t x) t -> wp (table_GetSizeOf x) Q t.
Proof.
  intros HT Hx HQ. unfold table_GetSizeOf. wp_step. wp_step.
  wp_step. apply wp_read_entry; [apply (tinv_valid0 HT)|].
  pose proof (tinv_pos HT x Hx). assert (1 <= x < initialized_tail t)
    by (apply (tinv_range HT); set_solver).
  wp_step. wp_step; [apply Z.eqb_eq; apply (tinv_head_offset _ _ _ _ HT)|].
  wp_step. wp_step; [apply Z.leb_le; apply (tinv_head_size _ _ _ _ HT)|].
  wp_step. wp_step; [bsolve|]. wp_step. wp_step; [bsolve|].
  wp_step. apply wp_read_entry; [by apply (tinv_valid HT)|].
  wp_step. wp_step; [by apply (tinv_alloc _ _ _ _ HT)|]. by wp_step.
Qed.

End TableOps.

#[global] Arguments gaps : simpl never.
#[global] Arguments ordered : simpl never.
#[global] Arguments path : simpl never.
