(* ===== verification/RubberHoles.v ===== *)
(** * The "rubber" allocator: the hole lists

    [HInv r G] says that the ten hole lists of [r] hold exactly the holes of
    [G], a list of offsets with the [Hole] structs found there, each in the
    list for its size.  The operations on holes are specified against it. *)

From S2P Require Import Prelude Rubber RubberLayout.

#[local] Open Scope beng_scope.

Record HInv (r : Rubber) (G : list (Z * Hole)) : Prop := {
  hinv_perm : concat (holes r) ≡ₚ G.*1;
  hinv_NoDup : NoDup G.*1;
  hinv_at : forall p, p ∈ G -> hole_at r !! p.1 = Some p.2;
  hinv_length : length (holes r) = N_HOLE_THRESHOLDS;
  hinv_bucket : forall i l o, holes r !! i = Some l -> o ∈ l ->
    LookupHoleThreshold (hole_size (the_hole r o)) = i;
}.

(** ** Thresholds *)

Lemma lookup_threshold_mono ts a b : a <= b -> (lookup_threshold ts b <= lookup_threshold ts a)%nat.
Proof.
  intros Hab. induction ts as [|t ts IH]; simpl; [done|].
  destruct (Z.leb_spec t b), (Z.leb_spec t a); lia.
Qed.

Lemma LookupHoleThreshold_lt size : 0 <= size -> (LookupHoleThreshold size < N_HOLE_THRESHOLDS)%nat.
Proof.
  intros H. unfold LookupHoleThreshold.
  pose proof (lookup_threshold_mono HOLE_THRESHOLDS 0 size H) as Hm.
  change (lookup_threshold HOLE_THRESHOLDS 0) with 9%nat in Hm.
  change N_HOLE_THRESHOLDS with 10%nat. lia.
Qed.

Lemma LookupHoleThreshold_larger a b :
  (LookupHoleThreshold b < LookupHoleThreshold a)%nat -> a < b.
Proof.
  intros H. destruct (Z.lt_ge_cases a b) as [|Hba]; [done|].
  pose proof (lookup_threshold_mono HOLE_THRESHOLDS b a Hba).
  unfold LookupHoleThreshold in H. lia.
Qed.

(** ** Lists of lists *)

Lemma concat_filter_ne (o : Z) (H : list (list Z)) :
  concat (map (filter (fun x => x <> o)) H) = filter (fun x => x <> o) (concat H).
Proof. induction H as [|l H IH]; simpl; [done|]. by rewrite IH, filter_app. Qed.

Lemma filter_ne_id (o : Z) (l : list Z) : o ∉ l -> filter (fun x => x <> o) l = l.
Proof.
  induction l as [|x l IH]; intros Ho; [done|].
  rewrite filter_cons_True by set_solver. f_equal. apply IH. set_solver.
Qed.

Lemma concat_insert (H : list (list Z)) i l (o : Z) :
  H !! i = Some l -> concat (<[i := o :: l]> H) ≡ₚ o :: concat H.
Proof.
  revert i. induction H as [|k H IH]; intros i E; [done|].
  destruct i as [|i]; simpl in *.
  - by injection E as ->.
  - rewrite IH by done. symmetry. apply Permutation_middle.
Qed.

Lemma elem_of_concat (H : list (list Z)) (o : Z) : o ∈ concat H <-> exists l, l ∈ H /\ o ∈ l.
Proof.
  induction H as [|k H IH]; simpl; [set_solver|]. rewrite elem_of_app, IH. set_solver.
Qed.

Lemma sum_concat (f : Z -> Z) (H : list (list Z)) :
  sum_Z (map (fun l => sum_Z (map f l)) H) = sum_Z (map f (concat H)).
Proof. induction H as [|l H IH]; simpl; [done|]. by rewrite map_app, sum_Z_app, IH. Qed.

(** ** Facts on the invariant *)

Section HInvFacts.
Context `{RubberEnv}.

Lemma HInv_perm r G G' : G ≡ₚ G' -> HInv r G -> HInv r G'.
Proof.
  intros E []. constructor; try done.
  - by rewrite <- E.
  - by rewrite <- E.
  - intros p Hp. apply hinv_at0. by rewrite E.
Qed.

#[global] Instance HInv_proper r : Proper ((≡ₚ) ==> iff) (HInv r).
Proof. intros G G' E. split; apply HInv_perm; [done|by symmetry]. Qed.

Lemma the_hole_eq r G p : HInv r G -> p ∈ G -> the_hole r p.1 = p.2.
Proof. intros HH Hp. unfold the_hole. by rewrite (hinv_at _ _ HH p Hp). Qed.

Lemma the_hole_in r G o h : HInv r G -> (o, h) ∈ G -> the_hole r o = h.
Proof. intros HH Hp. apply (the_hole_eq r G (o, h) HH Hp). Qed.

Lemma the_hole_head r G o h : HInv r ((o, h) :: G) -> the_hole r o = h.
Proof. intros HH. apply (the_hole_in r _ o h HH), elem_of_cons. by left. Qed.

(** Only the hole lists and the structs matter. *)
Lemma HInv_ext r r' G :
  holes r' = holes r -> hole_at r' = hole_at r -> HInv r G -> HInv r' G.
Proof.
  intros E1 E2 []. constructor; rewrite ?E1; try done.
  - intros p Hp. rewrite E2. auto.
  - intros i l o Hl Ho. unfold the_hole. rewrite E2. by eapply hinv_bucket0.
Qed.

Lemma total_holes r G :
  HInv r G -> GetTotalHoleSize r = sum_Z (map (fun p => hole_size p.2) G).
Proof.
  intros HH. unfold GetTotalHoleSize. rewrite sum_concat, (hinv_perm _ _ HH).
  assert (forall G', (forall p, p ∈ G' -> p ∈ G) ->
    sum_Z (map (fun h => hole_size (the_hole r h)) G'.*1) =
    sum_Z (map (fun p => hole_size p.2) G')) as Hgen; [|by apply Hgen].
  induction G' as [|p G' IH]; intros Hsub; csimpl; [done|].
  rewrite (the_hole_eq r G p HH) by (apply Hsub; set_solver). rewrite IH; [done|set_solver].
Qed.

Lemma hinv_in r G p : HInv r G -> p ∈ G ->
  existsb (fun l => bool_decide (p.1 ∈ l)) (holes r) = true.
Proof.
  intros HH Hp. apply existsb_exists.
  assert (p.1 ∈ concat (holes r)) as Hin.
  { rewrite (hinv_perm _ _ HH). apply list_elem_of_fmap. eauto. }
  apply elem_of_concat in Hin as (l & Hl & Hpl). exists l.
  split; [by apply list_elem_of_In|by apply bool_decide_eq_true].
Qed.

(** ** Specifications *)

Lemma RemoveHole_spec r o h G Q :
  HInv r ((o, h) :: G) ->
  (forall H', HInv (set_holes H' r) G -> Q tt (set_holes H' r)) ->
  wp (RemoveHole o) Q r.
Proof.
  intros HH HQ. unfold RemoveHole. wp_step. wp_step. wp_step. wp_step.
  { apply (hinv_in r _ (o, h) HH). set_solver. }
  wp_step. apply HQ. pose proof (hinv_NoDup _ _ HH) as Hnd.
  simpl in Hnd. apply NoDup_cons in Hnd as [Ho Hnd].
  constructor; simpl.
  - rewrite concat_filter_ne, (hinv_perm _ _ HH). simpl.
    rewrite filter_cons_False by auto. by rewrite filter_ne_id.
  - done.
  - intros p Hp. apply (hinv_at _ _ HH). set_solver.
  - rewrite length_map. apply (hinv_length _ _ HH).
  - intros i l o' Hl Ho'. apply list_lookup_fmap_Some in Hl as (l' & -> & Hl).
    apply list_elem_of_filter in Ho' as [_ Ho']. by eapply (hinv_bucket _ _ HH).
Qed.

Definition written (o : Z) (h : Hole) (r : Rubber) : Rubber :=
  set_mem (fun a => if (o <=? a) && (a <? o + sizeof_Hole)
                    then hole_byte h (a - o) else mem r a)
    (set_hole_at (<[o := h]> (hole_at r)) r).

Lemma wp_write_hole o h r Q : Q tt (written o h r) -> wp (write_hole o h) Q r.
Proof. intros HQ. by apply wp_mod. Qed.

Lemma hinv_notin r G o i l : HInv r G -> o ∉ G.*1 -> holes r !! i = Some l -> o ∉ l.
Proof.
  intros HH Ho Hl Hin. apply Ho. rewrite <- (hinv_perm _ _ HH).
  apply elem_of_concat. exists l. split; [by eapply list_elem_of_lookup_2|done].
Qed.

Lemma HInv_written r G o h : HInv r G -> o ∉ G.*1 -> HInv (written o h r) G.
Proof.
  intros HH Ho. constructor; try apply HH.
  - intros p Hp. simpl. rewrite lookup_insert_ne; [by apply HH|].
    intros ->. apply Ho. apply list_elem_of_fmap. eauto.
  - intros i l o' Hl Ho'. unfold the_hole. simpl. simpl in Hl.
    rewrite lookup_insert_ne; [by eapply (hinv_bucket _ _ HH)|].
    intros ->. by eapply (hinv_notin r G).
Qed.

Lemma AddToHoleList_spec r o h G Q :
  HInv r G -> o ∉ G.*1 -> hole_at r !! o = Some h -> 0 <= hole_size h ->
  (forall H', HInv (set_holes H' r) ((o, h) :: G) -> Q tt (set_holes H' r)) ->
  wp (AddToHoleList o) Q r.
Proof.
  intros HH Ho Hat Hs HQ. unfold AddToHoleList. wp_step. wp_step.
  assert (Et : the_hole r o = h) by (unfold the_hole; by rewrite Hat). rewrite Et.
  destruct (lookup_lt_is_Some_2 (holes r) (LookupHoleThreshold (hole_size h))) as [l Hl].
  { rewrite (hinv_length _ _ HH). by apply LookupHoleThreshold_lt. }
  wp_step. wp_step; [done|]. wp_step. apply HQ. constructor; simpl.
  - rewrite concat_insert by done. f_equiv. apply HH.
  - apply NoDup_cons. split; [done|apply HH].
  - intros p [->|Hp]%elem_of_cons; [done|by apply HH].
  - rewrite length_insert. apply HH.
  - intros i l' o' Hl' Ho'. destruct (decide (i = LookupHoleThreshold (hole_size h))) as [->|Hne].
    + rewrite list_lookup_insert_eq in Hl' by (eapply lookup_lt_Some; done).
      injection Hl' as <-. apply elem_of_cons in Ho' as [->|Ho'].
      * unfold the_hole. simpl. by rewrite Hat.
      * by eapply (hinv_bucket _ _ HH).
    + rewrite list_lookup_insert_ne in Hl' by done. by eapply (hinv_bucket _ _ HH).
Qed.

(** [write_hole] followed by [AddToHoleList]. *)
Lemma add_hole_spec r o h G Q :
  HInv r G -> o ∉ G.*1 -> 0 <= hole_size h ->
  (forall H', HInv (set_holes H' (written o h r)) ((o, h) :: G) ->
     Q tt (set_holes H' (written o h r))) ->
  wp (write_hole o h ;;; AddToHoleList o) Q r.
Proof.
  intros HH Ho Hs HQ. wp_step. apply wp_write_hole.
  eapply AddToHoleList_spec; [by apply HInv_written|done|simpl; by rewrite lookup_insert_eq|done|done].
Qed.

(** *** Searching *)

Lemma FindHole_loop_Some r size l best i h :
  FindHole_loop r size l best i = Some h ->
  (h ∈ l /\ size <= hole_size (the_hole r h)) \/ best = Some h.
Proof.
  revert best i. induction l as [|x l IH]; intros best i; simpl; [by right|].
  set (better := (size <=? hole_size (the_hole r x)) && _).
  assert (Hb : (if better then Some x else best) = Some h ->
               (h ∈ x :: l /\ size <= hole_size (the_hole r h)) \/ best = Some h).
  { destruct better eqn:E; [|by right]. intros [= ->]. left. subst better. simpl_bool. set_solver. }
  assert (Hrec : forall j, FindHole_loop r size l (if better then Some x else best) j = Some h ->
               (h ∈ x :: l /\ size <= hole_size (the_hole r h)) \/ best = Some h).
  { intros j E. apply IH in E as [[H1 H2]|E]; [left; set_solver|auto]. }
  repeat case_match; eauto.
Qed.

Lemma FindHole_loop_None r size l best i :
  FindHole_loop r size l best i = None ->
  best = None /\ forall h, h ∈ l -> hole_size (the_hole r h) < size.
Proof.
  revert best i. induction l as [|x l IH]; intros best i; simpl; [set_solver|].
  destruct best as [b|].
  - destruct ((size <=? _) && _); [destruct (hole_size (the_hole r x) =? size); simpl; [done|]|simpl];
      (destruct (64 <=? i + 1); [done|]; intros E; by apply IH in E as [? _]).
  - rewrite andb_true_r. destruct (Z.leb_spec size (hole_size (the_hole r x))); simpl.
    + destruct (_ =? size); [done|]. destruct (64 <=? i + 1); [done|].
      intros E. by apply IH in E as [? _].
    + intros E. apply IH in E as [_ E]. split; [done|]. intros h [->|Hh]%elem_of_cons; [lia|auto].
Qed.

Lemma FindHole_larger_Some r b h :
  FindHole_larger r b = Some h ->
  exists i l, (i < b)%nat /\ holes r !! i = Some l /\ h ∈ l.
Proof.
  induction b as [|b IH]; simpl; [done|].
  destruct (holes r !! b) as [[|x l]|] eqn:E.
  - intros E'. destruct (IH E') as (i & l & ? & ? & ?). exists i, l. split_and!; [lia|done|done].
  - intros [= ->]. exists b, (h :: l). split_and!; [lia|done|set_solver].
  - intros E'. destruct (IH E') as (i & l & ? & ? & ?). exists i, l. split_and!; [lia|done|done].
Qed.

Lemma FindHole_larger_None r b i l :
  FindHole_larger r b = None -> (i < b)%nat -> holes r !! i = Some l -> l = [].
Proof.
  induction b as [|b IH]; simpl; [lia|]. intros E Hi Hl.
  destruct (decide (i = b)) as [->|Hne].
  - rewrite Hl in E. by destruct l.
  - apply IH; [|lia|done]. destruct (holes r !! b) as [[|]|]; done.
Qed.

Lemma hinv_elem r G o l : HInv r G -> l ∈ holes r -> o ∈ l -> (o, the_hole r o) ∈ G.
Proof.
  intros HH Hl Ho. assert (o ∈ G.*1) as Hin.
  { rewrite <- (hinv_perm _ _ HH). apply elem_of_concat. eauto. }
  apply list_elem_of_fmap in Hin as (p & -> & Hp). rewrite (the_hole_eq r G p HH Hp). by destruct p.
Qed.

(** [FindHole()] finds a hole that is large enough, and fails only if there
    is none. *)
Lemma FindHole_spec r size G Q :
  HInv r G -> RUBBER_ALIGN <= size ->
  (forall h, (h, the_hole r h) ∈ G -> size <= hole_size (the_hole r h) -> Q (Some h) r) ->
  ((forall p, p ∈ G -> hole_size p.2 < size) -> Q None r) ->
  wp (FindHole size) Q r.
Proof.
  intros HH Hsz HS HN. unfold FindHole. wp_step. wp_step. cbv zeta.
  destruct (lookup_lt_is_Some_2 (holes r) (LookupHoleThreshold size)) as [l Hl].
  { rewrite (hinv_length _ _ HH). apply LookupHoleThreshold_lt. unfold RUBBER_ALIGN in *. lia. }
  wp_step. wp_step; [done|]. wp_step. wp_step; [by apply Z.leb_le|].
  destruct (FindHole_loop r size l None 0) as [h|] eqn:E.
  { apply FindHole_loop_Some in E as [[H1 H2]|E]; [|done]. wp_step.
    apply HS; [|done]. eapply hinv_elem; [done|by eapply list_elem_of_lookup_2|done]. }
  apply FindHole_loop_None in E as [_ E].
  destruct (FindHole_larger r _) as [h|] eqn:E2.
  - apply FindHole_larger_Some in E2 as (i & l' & Hi & Hl' & Hh).
    assert (size < hole_size (the_hole r h)).
    { apply LookupHoleThreshold_larger. by rewrite (hinv_bucket _ _ HH i l' h Hl' Hh). }
    wp_step. wp_step; [by apply Z.ltb_lt|]. wp_step. apply HS; [|lia].
    eapply hinv_elem; [done|by eapply list_elem_of_lookup_2|done].
  - wp_step. apply HN. intros p Hp.
    assert (p.1 ∈ concat (holes r)) as Hin.
    { rewrite (hinv_perm _ _ HH). apply list_elem_of_fmap. eauto. }
    apply elem_of_concat in Hin as (l' & Hl' & Hpl).
    apply list_elem_of_lookup in Hl' as [i Hl'].
    rewrite <- (the_hole_eq r G p HH Hp).
    pose proof (hinv_bucket _ _ HH i l' p.1 Hl' Hpl) as Hb.
    destruct (Nat.lt_trichotomy i (LookupHoleThreshold size)) as [Hlt|[->|Hgt]].
    + pose proof (FindHole_larger_None r _ i l' E2 Hlt Hl') as ->. set_solver.
    + rewrite Hl in Hl'. injection Hl' as <-. by apply E.
    + apply LookupHoleThreshold_larger. by rewrite Hb.
Qed.

End HInvFacts.
