(* ===== verification/RubberFacts.v ===== *)
(** * The "rubber" allocator: invariant and correctness

    The invariant [Inv] of the allocator, and for each operation the proof
    that it fails no assertion, ends, keeps the invariant, and keeps the
    contents of the objects it does not remove. *)

From S2P Require Import Prelude Rubber RubberLayout RubberHoles.

#[local] Open Scope beng_scope.

(** ** The invariant *)

Record Inv (r : Rubber) (ids fl : list Z) : Prop := {
  inv_table : TInv (table r) ids fl [];
  inv_holes : HInv r (gaps (table r) (0 :: ids));
  inv_netto : netto_size r = objects_size (table r) ids;
  inv_fits : fin (table r) (List.last ids 0) <= map_size r;
}.

(** [r'] has the same configuration as [r]. *)
Definition same_config (r r' : Rubber) : Prop :=
  map_size r' = map_size r /\ max_entries (table r') = max_entries (table r) /\
  sz (table r') 0 = sz (table r) 0.

(** The objects [ids] have the same size and the same bytes in [r'], wherever
    they are. *)
Definition keeps (r r' : Rubber) (ids : list Z) : Prop :=
  forall id, id ∈ ids ->
    sz (table r') id = sz (table r) id /\
    forall k, 0 <= k < sz (table r) id ->
      mem r' (off (table r') id + k) = mem r (off (table r) id + k).

(** Nothing outside of the bytes [lo, hi) was written. *)
Definition mem_frame (r r' : Rubber) (lo hi : Z) : Prop :=
  forall x, x < lo \/ hi <= x -> mem r' x = mem r x.

Lemma keeps_refl r ids : keeps r r ids.
Proof. by intros id _. Qed.

Lemma keeps_trans r1 r2 r3 ids : keeps r1 r2 ids -> keeps r2 r3 ids -> keeps r1 r3 ids.
Proof.
  intros H1 H2 id Hid. destruct (H1 id Hid) as [E1 M1]. destruct (H2 id Hid) as [E2 M2].
  split; [congruence|]. intros k Hk. rewrite M2 by lia. by apply M1.
Qed.

Lemma keeps_sub r r' ids ids' : keeps r r' ids -> (forall x, x ∈ ids' -> x ∈ ids) -> keeps r r' ids'.
Proof. intros H Hs id Hid. by apply H, Hs. Qed.

Lemma same_config_trans r1 r2 r3 : same_config r1 r2 -> same_config r2 r3 -> same_config r1 r3.
Proof. unfold same_config. intuition congruence. Qed.

Lemma inv_sized r ids fl : Inv r ids fl -> sized (table r) (0 :: ids).
Proof. intros HI. by apply (tinv_sized (inv_table _ _ _ HI)). Qed.

(** ** Geometry around a gap *)

Section Gap.
Context {t : RubberTable} {ids fl dang A B : list Z} {a b : Z}
  (HT : TInv t ids fl dang) (E : 0 :: ids = A ++ a :: b :: B).

(** The holes before [a] and after [b]. *)
Definition outside : list (Z * Hole) := gaps t (A ++ [a]) ++ gaps t (b :: B).

Lemma gap_orders : ordered t (A ++ [a]) /\ fin t a <= off t b /\ ordered t (b :: B) /\
  sized t (A ++ [a]) /\ sized t (b :: B) /\ 0 < sz t a /\ 0 < sz t b.
Proof.
  pose proof (tinv_ordered _ _ _ _ HT) as Ho. pose proof (tinv_sized HT) as Hs.
  rewrite E in Ho, Hs. apply ordered_app in Ho as (H1 & H2 & H3).
  split_and!; try done; try (intros x Hx; apply Hs; set_solver); apply Hs; set_solver.
Qed.

Lemma outside_notin o : off t a <= o <= off t b -> o ∉ outside.*1.
Proof using All.
  destruct gap_orders as (H1 & H2 & H3 & H4 & H5 & H6 & H7).
  intros Ho Hin. apply list_elem_of_fmap in Hin as (p & -> & Hp).
  apply elem_of_app in Hp as [Hp|Hp].
  - pose proof (gaps_before t A a p H1 H4 Hp). lia.
  - pose proof (gaps_after t b B p H3 H5 Hp). rewrite (fin_eq t b) in *. lia.
Qed.

Lemma gaps_outside : gaps t (0 :: ids) ≡ₚ gap t a b ++ outside.
Proof using All.
  rewrite E, gaps_app. unfold outside. rewrite !app_assoc. f_equiv. apply Permutation_app_comm.
Qed.

Lemma gap_disjoint x : x ∈ 0 :: ids -> fin t x <= fin t a \/ off t b <= off t x.
Proof using All.
  destruct gap_orders as (H1 & H2 & H3 & H4 & H5 & H6 & H7).
  rewrite E. intros Hx. assert (x ∈ A ++ [a] \/ x ∈ b :: B) as [Hx'|Hx'] by set_solver.
  - left. destruct (decide (x = a)) as [->|Hne]; [done|].
    pose proof (ordered_before t A a x H1 H4 Hx' Hne). rewrite (fin_eq t a). lia.
  - right. apply elem_of_cons in Hx' as [->|Hx']; [done|].
    pose proof (ordered_after t b B x H3 H5 Hx'). rewrite fin_eq in *. lia.
Qed.

Lemma gap_multiple : (RUBBER_ALIGN | off t b - fin t a).
Proof using All.
  assert (Hb : b ∈ ids).
  { destruct A as [|y A']; simpl in E; injection E as _ Eb; rewrite Eb; set_solver. }
  assert (Ha : a ∈ 0 :: ids) by (rewrite E; set_solver).
  pose proof (tinv_offset _ _ _ _ HT b Hb) as Db. rewrite fin_eq.
  apply elem_of_cons in Ha as [->|Ha].
  - rewrite (tinv_head_offset _ _ _ _ HT). by replace (off t b - (0 + sz t 0)) with (off t b - sz t 0) by lia.
  - pose proof (tinv_offset _ _ _ _ HT a Ha) as Da. destruct (tinv_size _ _ _ _ HT a Ha) as [_ Ds].
    replace (off t b - (off t a + sz t a)) with ((off t b - sz t 0) - (off t a - sz t 0) - sz t a) by lia.
    apply Z.divide_sub_r; [by apply Z.divide_sub_r|done].
Qed.

Lemma gap_room : fin t a < off t b -> RUBBER_ALIGN <= off t b - fin t a.
Proof using All. intros H. apply Z.divide_pos_le; [lia|apply gap_multiple]. Qed.

End Gap.

Arguments outside : clear implicits.

(** ** Holes between neighbours *)

Section Facts.
Context `{RubberEnvOk}.

Lemma wp_at_offset r o Q : o <= map_size r -> Q o r -> wp (at_offset o) Q r.
Proof.
  intros Ho HQ. unfold at_offset. wp_step. wp_step. wp_step. wp_step; [by apply Z.leb_le|].
  by wp_step.
Qed.

(** The state after a change of the hole lists: the same table, and nothing
    written outside of the gap. *)
Definition hole_change (r r' : Rubber) (lo hi : Z) : Prop :=
  table r' = table r /\ netto_size r' = netto_size r /\ map_size r' = map_size r /\
  mem_frame r r' lo hi.

Lemma written_change r o h H' lo hi :
  lo <= o -> o + sizeof_Hole <= hi -> hole_change r (set_holes H' (written o h r)) lo hi.
Proof.
  intros H1 H2. split_and!; try done. intros x Hx. simpl.
  destruct (Z.leb_spec o x), (Z.ltb_spec x (o + sizeof_Hole)); simpl; try done. lia.
Qed.

Lemma hole_change_holes r H' lo hi : hole_change r (set_holes H' r) lo hi.
Proof. by split_and!. Qed.

Lemma hole_change_trans r1 r2 r3 lo hi :
  hole_change r1 r2 lo hi -> hole_change r2 r3 lo hi -> hole_change r1 r3 lo hi.
Proof.
  intros (H1 & H2 & H3 & H4) (K1 & K2 & K3 & K4).
  split_and!; try congruence. intros x Hx. rewrite K4 by done. by apply H4.
Qed.

Lemma AddHole_spec r o s p n G lo hi Q :
  HInv r G -> o ∉ G.*1 -> 0 <= s -> o <= map_size r ->
  lo <= o -> o + sizeof_Hole <= hi ->
  (forall r', HInv r' ((o, mk_hole s p n) :: G) -> hole_change r r' lo hi -> Q tt r') ->
  wp (AddHole o s p n) Q r.
Proof.
  intros HH Ho Hs Hm Hlo Hhi HQ. unfold AddHole. wp_step. apply wp_at_offset; [done|].
  eapply add_hole_spec; [done|done|done|]. intros H' HH'. apply HQ; [done|].
  by apply written_change.
Qed.

(** The holes next to the bytes [ofs, ofs + s) between [a] and [b]. *)
Definition left_hole (t : RubberTable) (a nl ofs : Z) : list (Z * Hole) :=
  if fin t a <? ofs then [(fin t a, mk_hole (ofs - fin t a) a nl)] else [].

Definition right_hole (t : RubberTable) (b pr e : Z) : list (Z * Hole) :=
  if e <? off t b then [(e, mk_hole (off t b - e) pr b)] else [].

Lemma AddHoleAfter_grow_spec r t a b nl pr ofs s O Q :
  fin t a < ofs -> sizeof_Hole <= s -> ofs + s <= off t b -> off t b <= map_size r ->
  fin t a ∉ O.*1 -> ofs + s <> fin t a ->
  HInv r ((fin t a, mk_hole (ofs - fin t a) a nl) :: right_hole t b pr (ofs + s) ++ O) ->
  (forall r', HInv r' ((fin t a, mk_hole (off t b - fin t a) a b) :: O) ->
     hole_change r r' (fin t a) (off t b) -> Q tt r') ->
  wp (AddHoleAfter_grow a (fin t a) ofs s b (off t b)) Q r.
Proof.
  intros Hlo Hs Hhi Hmap HO Hne HH HQ. unfold sizeof_Hole in *.
  unfold AddHoleAfter_grow. wp_step. apply wp_at_offset; [lia|]. wp_step. wp_step.
  rewrite (the_hole_in r _ (fin t a) (mk_hole (ofs - fin t a) a nl) HH) by set_solver. simpl.
  wp_step. wp_step; [bsolve|]. wp_step. wp_step; [bsolve|].
  wp_step. eapply RemoveHole_spec; [done|]. intros H1 HH1. cbv zeta.
  wp_step. apply wp_write_hole. wp_step.
  assert (Hno : fin t a ∉ (right_hole t b pr (ofs + s) ++ O).*1).
  { rewrite fmap_app, elem_of_app. intros [Hin|Hin]; [|done].
    unfold right_hole in Hin. case_match; simpl in Hin; set_solver. }
  pose proof (HInv_written _ _ _ (mk_hole (ofs - fin t a + s) a b) HH1 Hno) as HH2.
  replace (fin t a + (ofs - fin t a + s)) with (ofs + s) by lia.
  unfold right_hole in *. destruct (Z.ltb_spec (ofs + s) (off t b)).
  - wp_step. apply wp_at_offset; [simpl; lia|]. wp_step. wp_step.
    rewrite (the_hole_in _ _ (ofs + s) (mk_hole (off t b - (ofs + s)) pr b) HH2) by set_solver.
    simpl. wp_step. wp_step; [bsolve|]. wp_step. wp_step; [bsolve|].
    wp_step. eapply RemoveHole_spec; [exact HH2|]. intros H3 HH3.
    apply wp_write_hole.
    eapply AddToHoleList_spec with
      (h := mk_hole (ofs - fin t a + s + (off t b - (ofs + s))) a b);
      [by apply HInv_written|done|simpl; by rewrite lookup_insert_eq|simpl; lia|].
    intros H4 HH4. apply HQ; [|eapply hole_change_trans; by apply written_change; unfold sizeof_Hole; lia].
    by replace (off t b - fin t a) with (ofs - fin t a + s + (off t b - (ofs + s))) by lia.
  - wp_step. eapply AddToHoleList_spec; [exact HH2|done|simpl; by rewrite lookup_insert_eq|simpl; lia|].
    intros H4 HH4. apply HQ;
      [|eapply hole_change_trans; [apply (hole_change_holes r H1)|by apply written_change; unfold sizeof_Hole; lia]].
    by replace (off t b - fin t a) with (ofs - fin t a + s) by lia.
Qed.

(** [AddHoleAfter()] turns the free bytes [ofs, ofs + s) and the holes next to
    them into the one hole between [a] and [b]. *)
Lemma AddHoleAfter_spec r ids fl dang A a b B ofs s nl pr Q :
  TInv (table r) ids fl dang -> 0 :: ids = A ++ a :: b :: B ->
  off (table r) b <= map_size r ->
  fin (table r) a <= ofs -> sizeof_Hole <= s -> ofs + s <= off (table r) b ->
  HInv r (left_hole (table r) a nl ofs ++ right_hole (table r) b pr (ofs + s) ++
          outside (table r) A B a b) ->
  (forall r', HInv r' (gaps (table r) (0 :: ids)) ->
     hole_change r r' (fin (table r) a) (off (table r) b) -> Q tt r') ->
  wp (AddHoleAfter a ofs s) Q r.
Proof.
  intros HT E Hmap Hlo Hs Hhi HH HQ. set (t := table r) in *.
  destruct (gap_orders HT E) as (_ & _ & _ & _ & _ & Sa & Sb).
  assert (Hgap : gaps t (0 :: ids) ≡ₚ (fin t a, mk_hole (off t b - fin t a) a b) :: outside t A B a b).
  { rewrite (gaps_outside HT E). unfold gap. unfold sizeof_Hole in *.
    destruct (Z.ltb_spec (fin t a) (off t b)); [done|lia]. }
  assert (Ha : a ∈ 0 :: ids) by (rewrite E; set_solver).
  assert (Hb : b ∈ ids).
  { destruct A as [|y A']; simpl in E; injection E as _ Eb; rewrite Eb; set_solver. }
  assert (Hnx : nx t a = b).
  { pose proof (tinv_path _ _ _ _ HT) as Hp. rewrite app_comm_cons, E, <- app_assoc in Hp.
    simpl in Hp. apply path_app in Hp. tauto. }
  pose proof (tinv_pos HT b Hb). unfold sizeof_Hole in *.
  assert (Hnot : forall o, fin t a <= o <= off t b -> o ∉ (outside t A B a b).*1).
  { intros o Ho. apply (outside_notin HT E). rewrite fin_eq in Ho. lia. }
  assert (Vb : valid t b) by (by apply (tinv_valid HT)).
  unfold AddHoleAfter. wp_step. apply wp_read; [by apply (tinv_valid' HT)|]. fold t.
  wp_step. wp_step; [by apply (tinv_alloc' _ _ _ _ _ HT)|].
  change (next (entry t a)) with (nx t a). change (GetEndOffset (entry t a)) with (fin t a).
  rewrite Hnx. cbv zeta.
  wp_step. wp_step; [by bsolve|]. wp_step. apply wp_read; [done|]. fold t.
  change (offset (entry t b)) with (off t b).
  wp_step. wp_step; [by apply (tinv_alloc _ _ _ _ HT)|]. 
  do 3 (wp_step; wp_step; [by bsolve|]).
  unfold left_hole in HH. destruct (Z.ltb_spec (fin t a) ofs).
  - eapply AddHoleAfter_grow_spec with (O := outside t A B a b);
      [done|done|done|done|by apply Hnot; lia|lia|exact HH|].
    intros r' HH' Hc. apply HQ; [by rewrite Hgap|done].
  - assert (ofs = fin t a) as -> by lia. simpl in HH. unfold right_hole in HH.
    destruct (Z.ltb_spec (fin t a + s) (off t b)).
    + wp_step. apply wp_at_offset; [lia|]. wp_step. wp_step.
      rewrite (the_hole_in _ _ (fin t a + s) (mk_hole (off t b - (fin t a + s)) pr b) HH) by set_solver.
      simpl. wp_step. wp_step; [bsolve|]. wp_step. wp_step; [bsolve|].
      wp_step. eapply RemoveHole_spec; [exact HH|]. intros H5 HH5.
      eapply AddHole_spec with (lo := fin t a) (hi := off t b);
        [exact HH5|by apply Hnot; lia|lia|simpl; lia|lia|unfold sizeof_Hole; lia|].
      intros r' HH' Hc. apply HQ; [|done]. rewrite Hgap.
      by replace (off t b - fin t a) with (s + (off t b - (fin t a + s))) by lia.
    + eapply AddHole_spec with (lo := fin t a) (hi := off t b);
        [exact HH|by apply Hnot; lia|lia|lia|lia|unfold sizeof_Hole; lia|].
      intros r' HH' Hc. apply HQ; [|done]. rewrite Hgap.
      by replace (off t b - fin t a) with s by lia.
Qed.

(** ** Using a hole *)

Lemma keeps_frame r r' ids lo hi :
  same_place (table r) (table r') ids -> mem_frame r r' lo hi ->
  (forall id, id ∈ ids -> fin (table r) id <= lo \/ hi <= off (table r) id) ->
  keeps r r' ids.
Proof.
  intros Hsp Hf Hd id Hid. destruct (Hsp id Hid) as [Eo Es]. split; [done|].
  intros k Hk. rewrite Eo. apply Hf. destruct (Hd id Hid); rewrite ?fin_eq in *; lia.
Qed.

(** The holes after linking [x] between the neighbours [a] and [b]. *)
Lemma gaps_insert t L1 L2 A a b B x :
  0 :: L1 = A ++ [a] -> L2 = b :: B ->
  gaps t (0 :: L1 ++ x :: L2) ≡ₚ gap t a x ++ gap t x b ++ outside t A B a b.
Proof.
  intros E1 ->. change (0 :: L1 ++ x :: b :: B) with ((0 :: L1) ++ x :: b :: B).
  rewrite E1, <- app_assoc. simpl. rewrite gaps_app.
  change (gaps t (x :: b :: B)) with (gap t x b ++ gaps t (b :: B)). unfold outside.
  rewrite !app_assoc. f_equiv. rewrite <- !app_assoc. apply Permutation_app_rot || 
  (rewrite Permutation_app_comm, <- app_assoc; done).
Qed.

Lemma linked_same_place t x p n c : x <> p -> x <> n -> same_place t (linked t x p n) c.
Proof. intros Hp Hn y _. destruct (linked_fields t x p n y Hp Hn) as (_ & _ & ? & ? & _). done. Qed.

(** [r'] is [r] with the entry [x] linked between [L1] and [L2], where only
    the bytes [lo, hi) were written. *)
Record inserted (r r' : Rubber) (L1 L2 fl : list Z) (x lo hi : Z) : Prop := {
  ins_table : TInv (table r') (L1 ++ x :: L2) fl [];
  ins_holes : HInv r' (gaps (table r') (0 :: L1 ++ x :: L2));
  ins_place : forall c, same_place (table r) (table r') c;
  ins_netto : netto_size r' = netto_size r;
  ins_map : map_size r' = map_size r;
  ins_max : max_entries (table r') = max_entries (table r);
  ins_frame : mem_frame r r' lo hi;
}.

Lemma inserted_Inv r r' L1 L2 fl x lo hi n :
  inserted r r' L1 L2 fl x lo hi -> n = objects_size (table r) (L1 ++ x :: L2) ->
  fin (table r) (List.last (L1 ++ x :: L2) 0) <= map_size r ->
  Inv (set_netto_size n r') (L1 ++ x :: L2) fl.
Proof.
  intros [HT HH Hp En Em _ _] -> Hfit. constructor; simpl; [done|by eapply (HInv_ext r')| |].
  - symmetry. apply objects_size_ext. intros y Hy. by apply (Hp _ y Hy).
  - rewrite Em. by rewrite (same_place_fin _ _ _ _ (Hp [List.last (L1 ++ x :: L2) 0])) by set_solver.
Qed.

Lemma UseHole_spec r L1 b B fl x s A Q :
  let t := table r in let a := List.last L1 0 in
  TInv t (L1 ++ b :: B) fl [x] -> 0 :: L1 = A ++ [a] ->
  alloc t x = true -> off t x = fin t a -> sz t x = s ->
  0 < s -> (RUBBER_ALIGN | s) -> fin t a + s <= off t b ->
  HInv r ((fin t a, mk_hole (off t b - fin t a) a b) :: outside t A B a b) ->
  (forall r', inserted r r' L1 (b :: B) fl x (fin t a + s) (off t b) -> Q tt r') ->
  wp (UseHole (fin t a) x s) Q r.
Proof.
  intros t a HT EA Hal Ho Hsz Hs Hd Hfit HH HQ.
  assert (E : 0 :: L1 ++ b :: B = A ++ a :: b :: B).
  { change (0 :: L1 ++ b :: B) with ((0 :: L1) ++ b :: B). by rewrite EA, <- app_assoc. }
  destruct (gap_orders HT E) as (_ & _ & _ & _ & _ & Sa & Sb).
  assert (Ha : a ∈ 0 :: L1 ++ b :: B) by (rewrite E; set_solver).
  assert (Hb : b ∈ L1 ++ b :: B) by set_solver.
  assert (Hx : 1 <= x < initialized_tail t) by (apply (tinv_range HT); set_solver).
  assert (Hxn : x ∉ 0 :: L1 ++ b :: B).
  { pose proof (tinv_NoDup HT) as Hnd. rewrite app_assoc in Hnd.
    apply NoDup_app in Hnd as (_ & Hnd & _). intros [Hin|Hin]%elem_of_cons; [lia|].
    apply (Hnd x); set_solver. }
  assert (Hxa : x <> a) by (by intros ->). assert (Hxb : x <> b) by set_solver.
  assert (Hadj : nx t a = b /\ pv t b = a).
  { pose proof (tinv_path _ _ _ _ HT) as Hp. rewrite app_comm_cons, E, <- app_assoc in Hp.
    simpl in Hp. apply path_app in Hp. tauto. }
  assert (HT' : TInv (linked t x a b) (L1 ++ x :: b :: B) fl []).
  { apply (linked_TInv t L1 (b :: B)); try done; rewrite ?Hsz; try done.
    - rewrite Ho. destruct (decide (a = 0)) as [->|]; [|].
      + rewrite fin_eq, (tinv_head_offset _ _ _ _ HT). exists 0. lia.
      + assert (Ha' : a ∈ L1 ++ b :: B) by set_solver.
        pose proof (tinv_offset _ _ _ _ HT a Ha') as D1.
        destruct (tinv_size _ _ _ _ HT a Ha') as [_ D2]. rewrite fin_eq.
        replace (off t a + sz t a - sz t 0) with (off t a - sz t 0 + sz t a) by lia.
        by apply Z.divide_add_r.
    - fold a. lia.
    - right. simpl. rewrite fin_eq, Ho, Hsz. lia. }
  pose proof (tinv_tail _ _ _ _ HT) as Htl.
  unfold UseHole. wp_step. wp_step.
  rewrite (the_hole_head _ _ _ _ HH). simpl.
  assert (Hsa : off t a < off t x) by (rewrite Ho, fin_eq; lia).
  assert (Hsb : off t x < off t b) by (rewrite Ho; lia).
  wp_step. apply wp_on_table. fold t.
  eapply Link_spec;
    [lia|done|done|unfold valid; lia|by apply (tinv_valid' HT)|by apply (tinv_valid HT)|done
    |by apply (tinv_alloc' _ _ _ _ _ HT)|tauto|tauto|done|by right|].
  assert (Hgaps : gaps (linked t x a b) (0 :: L1 ++ x :: b :: B) ≡ₚ
                  gap t x b ++ outside t A B a b).
  { rewrite (gaps_ext t) by (by apply linked_same_place).
    rewrite (gaps_insert t L1 (b :: B) A a b B x EA eq_refl).
    unfold gap at 1. rewrite Ho, Z.ltb_irrefl. done. }
  assert (Hfx : fin t x = fin t a + s) by (rewrite (fin_eq t x); lia).
  wp_step. eapply RemoveHole_spec; [eapply (HInv_ext r); [done|done|exact HH]|].
  intros H1 HH1. destruct (Z.eqb_spec s (off t b - fin t a)) as [Es|Es]; simpl.
  - wp_step. apply HQ. constructor; simpl; try done; [|by intros; apply linked_same_place].
    rewrite Hgaps. unfold gap. rewrite Hfx.
    destruct (Z.ltb_spec (fin t a + s) (off t b)); [lia|done].
  - assert (0 < RUBBER_ALIGN) by done.
    assert (Hroom : RUBBER_ALIGN <= off t b - fin t a - s).
    { apply Z.divide_pos_le; [lia|]. apply Z.divide_sub_r; [apply (gap_multiple HT E)|done]. }
    eapply add_hole_spec;
      [exact HH1|apply (outside_notin HT E); pose proof (fin_eq t a); lia|simpl; lia|].
    intros H3 HH2. apply HQ. constructor; simpl; try done; [|by intros; apply linked_same_place|].
    + rewrite Hgaps. unfold gap. rewrite Hfx.
      destruct (Z.ltb_spec (fin t a + s) (off t b)); [|lia].
      by replace (off t b - (fin t a + s)) with (off t b - fin t a - s) by lia.
    + intros y Hy. simpl. unfold sizeof_Hole, RUBBER_ALIGN in *.
      destruct (Z.leb_spec (fin t a + s) y), (Z.ltb_spec y (fin t a + s + 32)); simpl; try done. lia.
Qed.

End Facts.
