(* ===== verification/RubberOps.v ===== *)
(** * The "rubber" allocator: its operations

    For each operation of [class Rubber]: run in a state that satisfies the
    invariant, it fails no assertion, ends, keeps the invariant and the
    contents of the objects. *)

From S2P Require Import Prelude Rubber RubberLayout RubberHoles RubberFacts.

#[local] Open Scope beng_scope.

(** ** Helpers *)

Lemma split_pos (ids A B : list Z) a b :
  0 :: ids = A ++ a :: b :: B ->
  exists L1, ids = L1 ++ b :: B /\ 0 :: L1 = A ++ [a] /\ List.last L1 0 = a.
Proof.
  intros E. destruct A as [|y A]; simpl in E; injection E as <- E.
  - exists []. by rewrite E.
  - exists (A ++ [a]). split_and!; [by rewrite E, <- app_assoc|done|apply List.last_last].
Qed.

Lemma last_app_cons (L : list Z) x y M : List.last (L ++ x :: M) y = List.last (x :: M) y.
Proof.
  induction L as [|z L IH]; [done|]. simpl ((z :: L) ++ x :: M).
  rewrite <- IH. by destruct L.
Qed.

Lemma last_cons_default (L : list Z) x y : List.last (x :: L) y = List.last L x.
Proof.
  revert x y. induction L as [|z L IH]; intros x y; [done|].
  change (List.last (z :: L) y = List.last (z :: L) x). by rewrite !IH.
Qed.

Lemma objects_size_perm t l k : l ≡ₚ k -> objects_size t l = objects_size t k.
Proof. intros E. unfold objects_size. apply sum_Z_perm. by rewrite E. Qed.

Lemma objects_size_cons t x l : objects_size t (x :: l) = sz t x + objects_size t l.
Proof. done. Qed.

#[global] Instance objects_size_proper t : Proper ((≡ₚ) ==> (=)) (objects_size t).
Proof. intros l k E. by apply objects_size_perm. Qed.

Lemma same_place_entries t t' c : entries t' = entries t -> same_place t t' c.
Proof. intros E x _. unfold off, sz, entry. by rewrite E. Qed.

Lemma same_place_upd t x f c : x ∉ c -> same_place t (upd t x f) c.
Proof.
  intros Hx y Hy. unfold off, sz. rewrite entry_upd. case_decide; [by subst|done].
Qed.

Lemma same_place_trans t1 t2 t3 c :
  same_place t1 t2 c -> same_place t2 t3 c -> same_place t1 t3 c.
Proof. intros H1 H2 x Hx. destruct (H1 x Hx), (H2 x Hx). split; congruence. Qed.

Lemma same_place_sub t t' c c' :
  same_place t t' c -> (forall x, x ∈ c' -> x ∈ c) -> same_place t t' c'.
Proof. intros H Hs x Hx. by apply H, Hs. Qed.

Lemma outside_ext t t' A B a b :
  same_place t t' (A ++ a :: b :: B) -> outside t' A B a b = outside t A B a b.
Proof.
  intros H. unfold outside.
  rewrite !(gaps_ext t t'); try done; eapply same_place_sub; try done; set_solver.
Qed.

(** An object [id] of [s] bytes was added. *)
Record added (r r' : Rubber) (ids ids' : list Z) (id s : Z) : Prop := {
  added_pos : 0 < id;
  added_new : id ∉ ids;
  added_ids : ids' ≡ₚ id :: ids;
  added_size : sz (table r') id = s;
  added_keeps : keeps r r' ids;
  added_config : same_config r r';
}.

(** The objects were moved, but not changed. *)
Record moved (r r' : Rubber) (ids ids' : list Z) : Prop := {
  moved_ids : ids' ≡ₚ ids;
  moved_keeps : keeps r r' ids;
  moved_config : same_config r r';
}.

Lemma moved_refl r ids : moved r r ids ids.
Proof. constructor; [done|apply keeps_refl|by split_and!]. Qed.

Lemma moved_trans r1 r2 r3 l1 l2 l3 :
  moved r1 r2 l1 l2 -> moved r2 r3 l2 l3 -> moved r1 r3 l1 l3.
Proof.
  intros [E1 K1 C1] [E2 K2 C2]. constructor.
  - by rewrite E2.
  - eapply keeps_trans; [done|]. eapply keeps_sub; [done|]. intros x. by rewrite E1.
  - by eapply same_config_trans.
Qed.

Lemma gaps_snoc t L x : gaps t (0 :: L ++ [x]) = gaps t (0 :: L) ++ gap t (List.last L 0) x.
Proof.
  destruct (cons_last L 0) as [A EA].
  change (0 :: L ++ [x]) with ((0 :: L) ++ [x]). rewrite EA, <- app_assoc. simpl.
  rewrite gaps_app. unfold gaps at 3. by rewrite app_nil_r.
Qed.

Section Ops.
Context `{RubberEnvOk}.

(** ** Adding in a hole *)

Lemma AddInHole_at_spec r ids fl h s Q :
  Inv r ids fl -> (h, the_hole r h) ∈ gaps (table r) (0 :: ids) ->
  0 < s -> (RUBBER_ALIGN | s) -> s <= hole_size (the_hole r h) ->
  (fl = [] -> initialized_tail (table r) = max_entries (table r) -> Q 0 r) ->
  (forall id r' ids' fl', Inv r' ids' fl' -> added r r' ids ids' id s -> Q id r') ->
  wp (AddInHole_at h s) Q r.
Proof.
  intros HI Hh Hs Hd Hfit HQ0 HQ. set (t := table r) in *.
  pose proof (inv_table _ _ _ HI) as HT. fold t in HT.
  apply gaps_elem in Hh as (A & a & b & B & E & Hlt & Eh). injection Eh as -> Eh.
  rewrite Eh in Hfit. simpl in Hfit.
  destruct (split_pos ids A B a b E) as (L1 & -> & EA & Ea).
  unfold AddInHole_at. wp_step. apply wp_on_table. fold t.
  eapply AddId_spec; [done| |].
  { intros Hfl Htl. simpl. wp_step. replace (set_table t r) with r by (by destruct r). auto. }
  intros id t' fl' Hid Hv Hni HT' Hent Hmax.
  destruct (Z.eqb_spec id 0) as [|_]; [lia|].
  wp_step. apply wp_on_table. apply wp_write_entry; [done|]. simpl.
  set (t2 := upd t' id (Init (fin t a) s)).
  assert (Hni0 : id ∉ 0 :: L1 ++ b :: B) by (intros [|]%elem_of_cons; [lia|done]).
  assert (Hsp : same_place t t2 (0 :: L1 ++ b :: B)).
  { eapply same_place_trans; [by apply same_place_entries|by apply same_place_upd]. }
  assert (Ha : a ∈ 0 :: L1 ++ b :: B) by (rewrite E; set_solver).
  assert (Hb : b ∈ 0 :: L1 ++ b :: B) by set_solver.
  assert (Fa : fin t2 a = fin t a) by (by eapply same_place_fin).
  assert (Fb : off t2 b = off t b) by (by destruct (Hsp b Hb)).
  assert (Eid : entry t2 id = Init (fin t a) s (entry t' id)).
  { unfold t2. rewrite entry_upd. by case_decide. }
  wp_step. replace (fin t a) with (fin t2 (List.last L1 0)) by (by rewrite Ea).
  eapply (UseHole_spec (set_table t2 (set_table t' r)) L1 b B fl' id s A).
  - simpl. by apply TInv_upd_dangling.
  - by rewrite Ea.
  - simpl. unfold alloc. by rewrite Eid.
  - simpl. unfold off. by rewrite Eid, Ea, Fa.
  - simpl. unfold sz. by rewrite Eid.
  - done.
  - done.
  - simpl. rewrite Ea, Fa, Fb. lia.
  - simpl. rewrite Ea, Fa, Fb, (outside_ext t t2) by (by rewrite <- E).
    eapply (HInv_ext r); [done|done|].
    eapply HInv_perm; [|apply (inv_holes _ _ _ HI)]. fold t.
    rewrite (gaps_outside HT E). unfold gap. by destruct (Z.ltb_spec (fin t a) (off t b)); [|lia].
  - simpl. intros r' Hins. wp_step. wp_step. wp_step.
    pose proof (ins_place _ _ _ _ _ _ _ _ Hins) as Hsp2. simpl in Hsp2.
    assert (Eszt : sz t2 id = s) by (unfold sz; by rewrite Eid).
    eapply HQ.
    + eapply inserted_Inv; [exact Hins| |]; simpl.
      * rewrite <- (Permutation_middle L1 (b :: B) id), objects_size_cons, Eszt.
        rewrite (ins_netto _ _ _ _ _ _ _ _ Hins). simpl. rewrite (inv_netto _ _ _ HI). fold t.
        rewrite (objects_size_ext t t2); [lia|]. intros x Hx. apply Hsp. set_solver.
      * pose proof (inv_fits _ _ _ HI) as Hfits. fold t in Hfits.
        rewrite !last_app_cons in *. change (List.last (id :: b :: B) 0) with (List.last (b :: B) 0).
        rewrite (same_place_fin t t2 _ _ Hsp); [done|].
        assert (List.last (b :: B) 0 ∈ 0 :: b :: B) by apply last_elem. set_solver.
    + assert (Hsp' : same_place t (table r') (0 :: L1 ++ b :: B)) by (by eapply same_place_trans).
      constructor; simpl; try done.
      * by rewrite Permutation_middle.
      * by rewrite <- Eszt; apply (Hsp2 [id] id); set_solver.
      * eapply (keeps_frame r _ _ (fin t a) (off t b)); fold t.
        -- eapply same_place_sub; [exact Hsp'|set_solver].
        -- intros y Hy. simpl. rewrite (ins_frame _ _ _ _ _ _ _ _ Hins); [done|].
           simpl. rewrite Ea, Fa, Fb. lia.
        -- intros y Hy. apply (gap_disjoint HT E). set_solver.
      * split_and!; simpl; [apply Hins|rewrite (ins_max _ _ _ _ _ _ _ _ Hins); done|].
        apply Hsp'. set_solver.
Qed.

(** [AddInHole()] returns 0 only if there is no hole that is large enough, or
    no free entry in the table. *)
Lemma AddInHole_spec r ids fl s Q :
  Inv r ids fl -> RUBBER_ALIGN <= s -> (RUBBER_ALIGN | s) ->
  Q 0 r ->
  (forall id r' ids' fl', Inv r' ids' fl' -> added r r' ids ids' id s -> Q id r') ->
  wp (AddInHole s) Q r.
Proof.
  intros HI Hs Hd HQ0 HQ. unfold AddInHole. wp_step.
  eapply FindHole_spec; [apply (inv_holes _ _ _ HI)|done| |intros _; by wp_step].
  intros h Hh Hfit. unfold RUBBER_ALIGN in Hs. eapply AddInHole_at_spec; try done; lia.
Qed.

(** ** Moving the last object *)

(** Dropping the hole before the last object. *)
Lemma MoveLast_drop_spec {A} r L x fl (k : M Rubber A) Q :
  let t := table r in let p := List.last L 0 in
  Inv r (L ++ [x]) fl ->
  (forall H', HInv (set_holes H' r) (gaps t (0 :: L)) -> wp k Q (set_holes H' r)) ->
  wp (let! hole2 := FindHoleBetween (entry t p) (entry t x) in
      match hole2 with
      | Some h2 =>
        let! hole2 := mgets (fun r => the_hole r h2) in
        massert (previous_id hole2 =? p) ;;;
        massert (next_id hole2 =? x) ;;;
        massert (GetEndOffset (entry t p) + hole_size hole2 =? offset (entry t x)) ;;;
        RemoveHole h2
      | None => mret tt
      end ;;; k) Q r.
Proof.
  intros t p HI HQ. pose proof (inv_table _ _ _ HI) as HT. fold t in HT.
  pose proof (inv_holes _ _ _ HI) as HH. rewrite gaps_snoc in HH.
  destruct (tinv_order _ _ _ _ _ _ HT) as [Hpx _]. fold p in Hpx.
  assert (Hp : p ∈ 0 :: L ++ [x]) by (pose proof (last_elem L 0); set_solver).
  pose proof (tinv_sized HT p Hp). pose proof (fin_eq t p) as Fp.
  assert (Hfits : fin t x <= map_size r).
  { pose proof (inv_fits _ _ _ HI) as Hf. by rewrite List.last_last in Hf. }
  pose proof (tinv_sized HT x ltac:(set_solver)). pose proof (fin_eq t x) as Fx.
  unfold FindHoleBetween. wp_step. wp_step. wp_step; [bsolve|].
  change (GetEndOffset (entry t p)) with (fin t p). change (offset (entry t x)) with (off t x).
  unfold gap in HH. fold p t in HH. destruct (Z.ltb_spec (fin t p) (off t x)).
  - wp_step. apply wp_at_offset; [lia|]. wp_step. wp_step. wp_step. wp_step.
    rewrite Permutation_app_comm in HH. simpl in HH.
    rewrite (the_hole_head _ _ _ _ HH). simpl.
    do 3 (wp_step; wp_step; [bsolve|]). eapply RemoveHole_spec; [exact HH|]. done.
  - wp_step. wp_step. wp_step. rewrite app_nil_r in HH. specialize (HQ (holes r)).
    destruct r. by apply HQ.
Qed.

Lemma memcpy_spec d s n r Q :
  d + n <= s ->
  Q tt (set_mem (fun a => if (d <=? a) && (a <? d + n)
                          then mem r (s + (a - d)) else mem r a) r) ->
  wp (memcpy d s n) Q r.
Proof.
  intros Hd HQ. unfold memcpy. wp_step. wp_step; [bsolve|]. by apply wp_mod.
Qed.

Lemma Inv_mem r ids fl m : Inv r ids fl -> Inv (set_mem m r) ids fl.
Proof. intros []. constructor; simpl; try done. by eapply (HInv_ext r). Qed.

Lemma offsets_perm t l k : l ≡ₚ k -> sum_Z (map (off t) l) = sum_Z (map (off t) k).
Proof. intros E. apply sum_Z_perm. by rewrite E. Qed.

(** The last object [x] was put between [a] and [b], and its bytes copied. *)
Lemma relocated_moved r r1 r' L1 b B x a fl :
  let t := table r in let t2 := table r1 in let L := L1 ++ b :: B in
  let r2 := set_mem (fun i => if (fin t a <=? i) && (i <? fin t a + sz t x)
                              then mem r' (off t x + (i - fin t a)) else mem r' i) r' in
  Inv r (L ++ [x]) fl -> List.last L1 0 = a ->
  netto_size r1 = netto_size r -> map_size r1 = map_size r -> mem r1 = mem r ->
  max_entries t2 = max_entries t -> same_place t t2 (0 :: L) ->
  off t2 x = fin t a -> sz t2 x = sz t x -> fin t a + sz t x <= off t b ->
  fin t b <= off t x ->
  inserted r1 r' L1 (b :: B) fl x (fin t a + sz t x) (off t b) ->
  Inv r2 (L1 ++ x :: b :: B) fl /\ moved r r2 (L ++ [x]) (L1 ++ x :: b :: B) /\
  sum_Z (map (off (table r2)) (L1 ++ x :: b :: B)) < sum_Z (map (off t) (L ++ [x])).
Proof.
  intros t t2 L r2 HI Ea En Em Emem Emax Hsp Eo Es Hfit Hbx Hins.
  pose proof (inv_table _ _ _ HI) as HT. fold t in HT.
  pose proof (ins_place _ _ _ _ _ _ _ _ Hins) as Hsp2.
  assert (Hperm : L1 ++ x :: b :: B ≡ₚ L ++ [x]).
  { transitivity (x :: L); [symmetry; apply Permutation_middle|apply (Permutation_app_comm [x])]. }
  assert (Hsz : forall y, y ∈ L ++ [x] -> sz t2 y = sz t y).
  { intros y [Hy|Hy]%elem_of_app; [apply Hsp; set_solver|]. by assert (y = x) as -> by set_solver. }
  assert (Hfits : fin t x <= map_size r).
  { pose proof (inv_fits _ _ _ HI) as Hf. by rewrite List.last_last in Hf. }
  destruct (cons_last L1 0) as [A EA]. rewrite Ea in EA.
  assert (E' : 0 :: L ++ [x] = A ++ a :: b :: B ++ [x]).
  { unfold L. rewrite <- app_assoc. change (0 :: L1 ++ (b :: B) ++ [x]) with ((0 :: L1) ++ b :: B ++ [x]).
    by rewrite EA, <- app_assoc. }
  destruct (gap_orders HT E') as (_ & Hab & _ & _ & _ & _ & Sb).
  pose proof (tinv_sized HT x ltac:(set_solver)) as Sx.
  assert (Hx2 : off (table r') x = fin t a /\ sz (table r') x = sz t x).
  { rewrite <- Eo, <- Es. apply (Hsp2 [x]). set_solver. }
  split_and!.
  - apply Inv_mem. replace r' with (set_netto_size (netto_size r') r') by (by destruct r').
    eapply inserted_Inv; [exact Hins| |].
    + rewrite (ins_netto _ _ _ _ _ _ _ _ Hins), En, (inv_netto _ _ _ HI). fold t.
      rewrite Hperm. symmetry. by apply objects_size_ext.
    + rewrite last_app_cons. change (List.last (x :: b :: B) 0) with (List.last (b :: B) 0).
      fold t2. assert (Hl : List.last (b :: B) 0 ∈ 0 :: L).
      { pose proof (last_elem (b :: B) 0). unfold L. set_solver. }
      rewrite (same_place_fin t t2 _ _ Hsp Hl), Em.
      transitivity (off t x); [|rewrite (fin_eq t x) in Hfits; lia].
      assert (Hm : List.last (b :: B) 0 = List.last L 0) by (unfold L; by rewrite last_app_cons).
      rewrite Hm. by destruct (tinv_order _ _ _ _ _ _ HT).
  - constructor; [by rewrite Hperm| |].
    + intros y Hy. apply elem_of_app in Hy as [Hy|Hy].
      * assert (Hy2 : off (table r') y = off t y /\ sz (table r') y = sz t y).
        { destruct (Hsp y ltac:(set_solver)) as [<- <-]. apply (Hsp2 [y]). set_solver. }
        split; [apply Hy2|]. intros k Hk. simpl. destruct Hy2 as [-> _]. fold t in Hk |- *.
        pose proof (gap_disjoint HT E' y ltac:(set_solver)) as Hd. rewrite (fin_eq t y) in Hd.
        destruct (Z.leb_spec (fin t a) (off t y + k)), (Z.ltb_spec (off t y + k) (fin t a + sz t x));
          simpl; try lia;
          rewrite (ins_frame _ _ _ _ _ _ _ _ Hins), Emem by lia; done.
      * assert (y = x) as -> by set_solver. split; [apply Hx2|]. intros k Hk. simpl.
        destruct Hx2 as [-> _]. fold t in Hk |- *.
        destruct (Z.leb_spec (fin t a) (fin t a + k)), (Z.ltb_spec (fin t a + k) (fin t a + sz t x));
          simpl; try lia.
        rewrite (ins_frame _ _ _ _ _ _ _ _ Hins), Emem by (rewrite (fin_eq t b) in Hbx; lia).
        f_equal. fold t. lia.
    + split_and!; simpl; rewrite ?(ins_map _ _ _ _ _ _ _ _ Hins), ?(ins_max _ _ _ _ _ _ _ _ Hins); try done.
      fold t. destruct (Hsp 0 ltac:(set_solver)) as [_ <-]. apply (Hsp2 [0]). set_solver.
  - rewrite (offsets_perm _ _ _ Hperm), !map_app, !sum_Z_app. simpl. destruct Hx2 as [-> _].
    assert (map (off (table r')) L = map (off t) L) as ->; [|rewrite (fin_eq t b) in Hbx; lia].
    apply map_ext_in. intros y Hy%list_elem_of_In.
    destruct (Hsp y ltac:(set_solver)) as [<- _]. apply (Hsp2 [y]). set_solver.
Qed.

(** Re-using the hole between [a] and [b] for the last object [x], which has
    been unlinked. *)
Lemma MoveLast_reuse_spec r r1 L1 a b B x fl A Q :
  let t := table r in let L := L1 ++ b :: B in let p := List.last L 0 in
  Inv r (L ++ [x]) fl -> 0 :: L1 = A ++ [a] -> List.last L1 0 = a ->
  fin t a + sz t x <= off t b ->
  table r1 = unlinked t p 0 -> netto_size r1 = netto_size r -> map_size r1 = map_size r ->
  mem r1 = mem r -> HInv r1 (gaps t (0 :: L)) ->
  (forall r' ids', Inv r' ids' fl -> moved r r' (L ++ [x]) ids' ->
     sum_Z (map (off (table r')) ids') < sum_Z (map (off t) (L ++ [x])) -> Q true r') ->
  wp (on_table (write_entry x (set_offset (fin t a))) ;;;
      UseHole (fin t a) x (sz t x) ;;;
      let! d := at_offset (fin t a) in
      let! s := at_offset (off t x) in
      memcpy d s (sz t x) ;;;
      mret true) Q r1.
Proof.
  intros t L p HI EA Ea Hfit Et1 En1 Em1 Emem HH HQ.
  pose proof (inv_table _ _ _ HI) as HT. fold t in HT.
  assert (HT1 : TInv (unlinked t p 0) L fl [x]).
  { pose proof (unlinked_TInv t L x [] fl HT) as H1. by rewrite app_nil_r in H1. }
  set (t2 := upd (unlinked t p 0) x (set_offset (fin t a))).
  assert (Hx : x ∉ 0 :: L).
  { pose proof (tinv_NoDup0 HT) as Hnd. change (0 :: L ++ [x]) with ((0 :: L) ++ [x]) in Hnd.
    apply NoDup_app in Hnd as (_ & Hnd & _). intros Hin. apply (Hnd x Hin). set_solver. }
  assert (Hunl : forall c, same_place t (unlinked t p 0) c).
  { intros c y _. by destruct (unlinked_fields t p 0 y) as (_ & _ & ? & ? & _). }
  assert (Hsp : same_place t t2 (0 :: L)).
  { eapply same_place_trans; [apply Hunl|by apply same_place_upd]. }
  assert (Eid : entry t2 x = set_offset (fin t a) (entry (unlinked t p 0) x)).
  { unfold t2. rewrite entry_upd. by case_decide. }
  assert (Esz : sz t2 x = sz t x).
  { unfold sz at 1. rewrite Eid. apply (Hunl [x] x). set_solver. }
  assert (E : 0 :: L = A ++ a :: b :: B).
  { unfold L. change (0 :: L1 ++ b :: B) with ((0 :: L1) ++ b :: B). by rewrite EA, <- app_assoc. }
  assert (Ha : a ∈ 0 :: L) by (rewrite E; set_solver).
  assert (Hb : b ∈ 0 :: L) by (rewrite E; set_solver).
  assert (Fa : fin t2 a = fin t a) by (by eapply same_place_fin).
  assert (Fb : off t2 b = off t b) by (by destruct (Hsp b Hb)).
  assert (E' : 0 :: L ++ [x] = A ++ a :: b :: B ++ [x]).
  { change (0 :: L ++ [x]) with ((0 :: L) ++ [x]). by rewrite E, <- app_assoc. }
  destruct (gap_orders HT E') as (_ & Hab & Hob & _ & Hsb & _ & Sb).
  pose proof (ordered_after t b (B ++ [x]) x Hob Hsb ltac:(set_solver)) as Hbx.
  pose proof (fin_eq t b) as Fb'. pose proof (fin_eq t x) as Fx.
  destruct (tinv_size _ _ _ _ HT x ltac:(set_solver)) as [Sx Dx].
  assert (Hfits : fin t x <= map_size r).
  { pose proof (inv_fits _ _ _ HI) as Hf. by rewrite List.last_last in Hf. }
  wp_step. apply wp_on_table. rewrite Et1.
  apply wp_write_entry; [by apply (tinv_valid HT x); set_solver|]. fold t2.
  wp_step. replace (fin t a) with (fin t2 (List.last L1 0)) by (by rewrite Ea).
  eapply (UseHole_spec (set_table t2 r1) L1 b B fl x (sz t x) A).
  - simpl. by apply TInv_upd_dangling.
  - by rewrite Ea.
  - simpl. unfold alloc. rewrite Eid. simpl.
    destruct (unlinked_fields t p 0 x) as (_ & _ & _ & _ & Ex). unfold alloc in Ex. rewrite Ex.
    apply (tinv_alloc _ _ _ _ HT). set_solver.
  - simpl. unfold off. by rewrite Eid, Ea, Fa.
  - done.
  - done.
  - done.
  - simpl. rewrite Ea, Fa, Fb. lia.
  - simpl. rewrite Ea, Fa, Fb, (outside_ext t t2) by (by rewrite <- E).
    eapply (HInv_ext r1); [done|done|]. eapply HInv_perm; [|exact HH].
    rewrite E, gaps_app. unfold outside, gap.
    destruct (Z.ltb_spec (fin t a) (off t b)); [|lia]. symmetry. apply Permutation_middle.
  - simpl. intros r' Hins. rewrite Ea, Fa, Fb in Hins.
    pose proof (ins_place _ _ _ _ _ _ _ _ Hins) as Hsp2. simpl in Hsp2.
    pose proof (ins_map _ _ _ _ _ _ _ _ Hins) as Em. simpl in Em.
    rewrite Ea, Fa.
    wp_step. apply wp_at_offset; [lia|]. wp_step. apply wp_at_offset; [lia|].
    wp_step. apply memcpy_spec; [lia|]. wp_step.
    destruct (relocated_moved r (set_table t2 r1) r' L1 b B x a fl) as (H1 & H2 & H3); try done.
    { simpl. unfold off at 1. by rewrite Eid. }
    by eapply HQ.
Qed.

Lemma snoc_cases (l : list Z) : l = [] \/ exists L x, l = L ++ [x].
Proof. induction l using rev_ind; [by left|right; eauto]. Qed.

(** [MoveLast()] moves the last object into a hole, or changes nothing. *)
Lemma MoveLast_spec r ids fl n Q :
  Inv r ids fl -> Q false r ->
  (forall r' ids', Inv r' ids' fl -> moved r r' ids ids' ->
     sum_Z (map (off (table r')) ids') < sum_Z (map (off (table r)) ids) -> Q true r') ->
  wp (MoveLast n) Q r.
Proof.
  intros HI HQ0 HQ. set (t := table r) in *.
  pose proof (inv_table _ _ _ HI) as HT. fold t in HT.
  unfold MoveLast. wp_step. apply wp_read; [apply (tinv_valid0 HT)|]. cbv zeta. fold t.
  change (previous (entry t 0)) with (pv t 0). rewrite (tinv_last HT).
  pose proof (last_elem ids 0) as Hlast.
  wp_step. apply wp_read; [by apply (tinv_valid' HT)|]. fold t.
  set (x := List.last ids 0) in *. change (size (entry t x)) with (sz t x).
  destruct (n <? sz t x); [by wp_step|]. wp_step.
  wp_step; [bsolve; apply (tinv_nx_last HT)|].
  wp_step. eapply FindHole_spec; [apply (inv_holes _ _ _ HI)| | |intros _; by wp_step].
  { unfold RUBBER_ALIGN. apply elem_of_cons in Hlast as [->|Hx].
    - pose proof (tinv_head_size _ _ _ _ HT) as Hh. unfold sizeof_RubberTable, sizeof_RubberObject in Hh. lia.
    - destruct (tinv_size _ _ _ _ HT x Hx) as [H1 H2]. by apply Z.divide_pos_le. }
  intros h Hh Hfit. fold t in Hh. wp_step. wp_step.
  destruct (Z.eqb_spec (next_id (the_hole r h)) x) as [|Hne]; [by wp_step|].
  apply gaps_elem in Hh as (A & a & b & B0 & E & Hlt & Eh). injection Eh as -> Eh.
  rewrite Eh in Hne, Hfit. simpl in Hne, Hfit.
  destruct (split_pos ids A B0 a b E) as (L1 & Eids & EA & Ea).
  assert (Ex : x = List.last B0 b).
  { unfold x. rewrite Eids, last_app_cons. apply last_cons_default. }
  destruct (snoc_cases B0) as [->|(B & x' & ->)]; [by simpl in Ex|].
  rewrite List.last_last in Ex. subst x'.
  assert (Eids' : ids = (L1 ++ b :: B) ++ [x]) by (by rewrite Eids, <- app_assoc).
  clearbody x. clear Eids. subst ids. set (L := L1 ++ b :: B) in *.
  destruct (tinv_neighbours t L x [] fl [] HT) as (Epv & _ & Enx & _).
  change (previous (entry t x)) with (pv t x). rewrite Epv.
  wp_step. apply wp_read; [apply (tinv_valid' HT); pose proof (last_elem L 0); set_solver|]. fold t.
  destruct (tinv_order t L x [] fl [] HT) as [Hord _].
  wp_step. wp_step; [bsolve|]. wp_step. wp_step; [bsolve|].
  apply (MoveLast_drop_spec r L x fl _ _ HI). intros H1 HH1.
  wp_step. apply wp_on_table. apply (Unlink_spec t L x [] fl [] _ HT).
  eapply (MoveLast_reuse_spec r _ L1 a b B x fl A); try done; [fold t; lia|].
  eapply (HInv_ext (set_holes H1 r)); [done|done|exact HH1].
Qed.

Lemma tinv_fin_last {t ids fl dang} :
  TInv t ids fl dang -> forall x, x ∈ ids -> fin t x <= fin t (List.last ids 0).
Proof.
  intros HT x Hx. pose proof (tinv_ordered _ _ _ _ HT) as Ho. pose proof (tinv_sized HT) as Hs.
  destruct (cons_last ids 0) as [A EA].
  destruct (decide (x = List.last ids 0)) as [->|Hne]; [done|].
  rewrite EA in Ho, Hs. pose proof (ordered_before _ A _ x Ho Hs) as H1.
  rewrite <- EA in H1. specialize (H1 ltac:(set_solver) Hne).
  specialize (Hs (List.last ids 0) ltac:(set_solver)). rewrite (fin_eq _ (List.last ids 0)). lia.
Qed.

(** Every object is inside of the map, after the table. *)
Lemma inv_inside r ids fl x :
  Inv r ids fl -> x ∈ ids -> sz (table r) 0 <= off (table r) x /\ fin (table r) x <= map_size r.
Proof.
  intros HI Hx. pose proof (inv_table _ _ _ HI) as HT. pose proof (inv_fits _ _ _ HI) as Hf.
  pose proof (tinv_ordered _ _ _ _ HT) as Ho. pose proof (tinv_sized HT) as Hs. split.
  - pose proof (ordered_after _ 0 ids x Ho Hs Hx) as H1.
    rewrite fin_eq, (tinv_head_offset _ _ _ _ HT) in H1. lia.
  - etrans; [by apply (tinv_fin_last HT)|done].
Qed.

Lemma inv_map_pos r ids fl : Inv r ids fl -> sz (table r) 0 <= map_size r.
Proof.
  intros HI. pose proof (inv_table _ _ _ HI) as HT. pose proof (inv_fits _ _ _ HI) as Hf.
  pose proof (tinv_head_offset _ _ _ _ HT).
  destruct (decide (ids = [])) as [->|Hne]; [simpl in Hf; rewrite fin_eq in Hf; lia|].
  pose proof (last_elem ids 0) as Hl.
  destruct (decide (List.last ids 0 = 0)) as [E|E]; [rewrite E, fin_eq in Hf; lia|].
  destruct (inv_inside r ids fl (List.last ids 0) HI) as [H2 H3]; [set_solver|].
  pose proof (tinv_sized HT (List.last ids 0) Hl) as H4. rewrite fin_eq in *. lia.
Qed.

Lemma tinv_length {t ids fl dang} :
  TInv t ids fl dang -> Z.of_nat (length ids) <= initialized_tail t - 1.
Proof.
  intros HT. pose proof (Permutation_length (tinv_ids _ _ _ _ HT)) as E.
  rewrite !length_app, length_seqZ in E. pose proof (tinv_tail _ _ _ _ HT). lia.
Qed.

(** The objects fit in the map, so that the offsets cannot decrease for ever. *)
Lemma offsets_bound r ids fl :
  Inv r ids fl ->
  0 <= sum_Z (map (off (table r)) ids) <= map_size r * max_entries (table r).
Proof.
  intros HI. pose proof (inv_table _ _ _ HI) as HT.
  pose proof (tinv_length HT) as Hlen. pose proof (tinv_tail _ _ _ _ HT) as Htl.
  assert (Hone : forall x, x ∈ ids -> 0 <= off (table r) x <= map_size r).
  { intros x Hx. pose proof (inv_inside r ids fl x HI Hx). pose proof (inv_sized _ _ _ HI) as Hs.
    specialize (Hs x ltac:(set_solver)). pose proof (tinv_head_size _ _ _ _ HT).
    unfold sizeof_RubberTable, sizeof_RubberObject in *. rewrite fin_eq in *. lia. }
  assert (Hsum : forall l, (forall x, x ∈ l -> x ∈ ids) ->
    0 <= sum_Z (map (off (table r)) l) <= map_size r * Z.of_nat (length l)).
  { induction l as [|y l IH]; intros Hl; csimpl; [lia|].
    specialize (IH ltac:(set_solver)). specialize (Hone y ltac:(set_solver)). lia. }
  specialize (Hsum ids ltac:(done)). split; [lia|].
  pose proof (inv_map_pos r ids fl HI). pose proof (tinv_head_size _ _ _ _ HT).
  unfold sizeof_RubberTable, sizeof_RubberObject in *. nia.
Qed.

(** [while (MoveLast(size - 1)) {}] ends. *)
Lemma MoveLast_loop_spec r ids fl n Q :
  Inv r ids fl ->
  (forall r' ids', Inv r' ids' fl -> moved r r' ids ids' -> Q tt r') ->
  wp (while (MoveLast_fuel r) (MoveLast n)) Q r.
Proof.
  intros HI HQ. eapply wp_mono.
  - eapply while_wp with
      (I := fun m s => exists ids', Inv s ids' fl /\ moved r s ids ids' /\
                       m = sum_Z (map (off (table s)) ids'))
      (R := fun s => exists ids', Inv s ids' fl /\ moved r s ids ids').
    + intros m s (ids' & HI' & _ & ->). apply (offsets_bound s ids' fl HI').
    + intros m s (ids' & HI' & Hm & ->). eapply MoveLast_spec; [exact HI'|by eauto|].
      intros r2 ids2 HI2 Hm2 Hlt. eexists. split; [|exact Hlt].
      exists ids2. split_and!; [done| |done]. by eapply moved_trans.
    + exists ids. split_and!; [done|apply moved_refl|done].
    + unfold MoveLast_fuel. pose proof (offsets_bound r ids fl HI).
      rewrite Z2Pos.id; lia.
  - intros [] s' (ids' & HI' & Hm). by eapply HQ.
Qed.

(** ** Compressing *)

(** The objects [c] follow each other without a gap. *)
Fixpoint packed (t : RubberTable) (c : list Z) : Prop :=
  match c with
  | a :: c' => match c' with
               | b :: _ => fin t a = off t b /\ packed t c'
               | [] => True
               end
  | [] => True
  end.

Lemma packed_gaps t c : packed t c -> gaps t c = [].
Proof.
  induction c as [|a [|b c] IH]; [done|done|]. intros [E Hp].
  change (gap t a b ++ gaps t (b :: c) = []). rewrite IH by done.
  unfold gap. by rewrite E, Z.ltb_irrefl.
Qed.

Lemma packed_app t A a b B :
  packed t (A ++ a :: b :: B) <-> packed t (A ++ [a]) /\ fin t a = off t b /\ packed t (b :: B).
Proof.
  induction A as [|x A IH]; simpl; [tauto|].
  destruct A as [|y A]; simpl in *; [tauto|]. rewrite IH. tauto.
Qed.

Lemma packed_ext t t' c : same_place t t' c -> packed t c -> packed t' c.
Proof.
  induction c as [|a [|b c] IH]; [done|done|]. intros H1 [E Hp]. split.
  - rewrite (same_place_fin _ _ _ _ H1) by set_solver. by destruct (H1 b) as [-> _]; [set_solver|].
  - apply IH; [|done]. intros x Hx. apply H1. set_solver.
Qed.

Definition copied (r : Rubber) (d s n : Z) : Rubber :=
  set_mem (fun a => if (d <=? a) && (a <? d + n) then mem r (s + (a - d)) else mem r a) r.

Lemma MoveData_spec r L1 x L2 fl o Q :
  let t := table r in
  TInv t (L1 ++ x :: L2) fl [] -> o <= off t x -> fin t x <= map_size r ->
  (o = off t x -> Q tt r) ->
  Q tt (set_table (upd t x (set_offset o)) (copied r o (off t x) (sz t x))) ->
  wp (MoveData x o) Q r.
Proof.
  intros t HT Ho Hf HQ0 HQ. pose proof (tinv_sized HT x ltac:(set_solver)) as Sx.
  pose proof (fin_eq t x).
  unfold MoveData. wp_step. apply wp_read; [apply (tinv_valid HT); set_solver|]. fold t.
  change (offset (entry t x)) with (off t x). change (size (entry t x)) with (sz t x).
  wp_step. wp_step; [bsolve|]. wp_step. wp_step; [bsolve|].
  destruct (Z.eqb_spec (off t x) o); [wp_step; auto|].
  wp_step. apply wp_at_offset; [lia|]. wp_step. apply wp_at_offset; [lia|].
  wp_step. apply wp_mod. apply wp_on_table, wp_write_entry; [apply (tinv_valid HT); set_solver|]. done.
Qed.

(** What a step of the loop keeps. *)
Record compacting (r r' : Rubber) (ids fl : list Z) : Prop := {
  comp_table : TInv (table r') ids fl [];
  comp_keeps : keeps r r' ids;
  comp_config : same_config r r';
  comp_netto : netto_size r' = netto_size r;
  comp_holes : holes r' = holes r;
  comp_at : hole_at r' = hole_at r;
  comp_inside : forall x, x ∈ ids -> fin (table r') x <= fin (table r) x;
}.

Lemma compacting_refl r ids fl : TInv (table r) ids fl [] -> compacting r r ids fl.
Proof. intros HT. by constructor. Qed.

Lemma compacting_trans r1 r2 r3 ids fl :
  compacting r1 r2 ids fl -> compacting r2 r3 ids fl -> compacting r1 r3 ids fl.
Proof.
  intros [] []. constructor; try done; try congruence.
  - by eapply keeps_trans.
  - by eapply same_config_trans.
  - intros x Hx. etrans; eauto.
Qed.

Lemma tinv_around {t L1 x L2 fl dang} :
  TInv t (L1 ++ x :: L2) fl dang ->
  (forall y, y ∈ L1 -> fin t y <= fin t (List.last L1 0)) /\
  (forall y, y ∈ L2 -> fin t x <= off t y).
Proof.
  intros HT. destruct (cons_last L1 0) as [A EA].
  assert (E : 0 :: L1 ++ x :: L2 = A ++ List.last L1 0 :: x :: L2).
  { change (0 :: L1 ++ x :: L2) with ((0 :: L1) ++ x :: L2). by rewrite EA, <- app_assoc. }
  destruct (gap_orders HT E) as (Hoa & _ & Hox & Hsa & Hsx & Sl & _). split; intros y Hy.
  - destruct (decide (y = List.last L1 0)) as [->|Hya]; [done|].
    pose proof (ordered_before t A _ y Hoa Hsa). rewrite <- EA in H1.
    specialize (H1 ltac:(set_solver) Hya). rewrite (fin_eq t (List.last L1 0)). lia.
  - by apply (ordered_after t x L2).
Qed.

Lemma compact_keeps r L1 x L2 fl :
  let t := table r in let o := fin t (List.last L1 0) in
  TInv t (L1 ++ x :: L2) fl [] ->
  keeps r (set_table (upd t x (set_offset o)) (copied r o (off t x) (sz t x))) (L1 ++ x :: L2).
Proof.
  intros t o HT y Hy. pose proof (tinv_sized HT) as Hs.
  destruct (tinv_order _ _ _ _ _ _ HT) as [Ho _]. fold o in Ho.
  assert (Hne : y <> x -> fin t y <= o \/ fin t x <= off t y).
  { intros Hne. destruct (tinv_around HT) as [H1 H2].
    assert (y ∈ L1 \/ y ∈ L2) as [Hin|Hin] by set_solver; auto. }
  unfold off, sz. simpl. rewrite entry_upd. destruct (decide (x = y)) as [<-|Hxy]; simpl.
  - split; [done|]. intros k Hk. change (size (entry (table r) x)) with (sz t x) in Hk.
    change (offset (entry (table r) x)) with (off t x). fold (off t x) (sz t x) in *.
    destruct (Z.leb_spec o (o + k)), (Z.ltb_spec (o + k) (o + sz t x)); simpl; try lia.
    f_equal. lia.
  - split; [done|]. intros k Hk. change (size (entry (table r) y)) with (sz t y) in Hk.
    fold t. fold (off t y) (sz t y) (off t x) (sz t x) in *.
    specialize (Hne ltac:(done)). rewrite !fin_eq in Hne.
    destruct (Z.leb_spec o (off t y + k)), (Z.ltb_spec (off t y + k) (o + sz t x)); simpl; try done.
    lia.
Qed.

(** The end of the entry [a] is aligned. *)
Lemma tinv_end_multiple t ids fl dang a :
  TInv t ids fl dang -> a ∈ 0 :: ids -> (RUBBER_ALIGN | fin t a - sz t 0).
Proof.
  intros HT [->|Ha]%elem_of_cons; rewrite fin_eq.
  - rewrite (tinv_head_offset _ _ _ _ HT). exists 0. lia.
  - pose proof (tinv_offset _ _ _ _ HT a Ha) as D1. destruct (tinv_size _ _ _ _ HT a Ha) as [_ D2].
    replace (off t a + sz t a - sz t 0) with (off t a - sz t 0 + sz t a) by lia.
    by apply Z.divide_add_r.
Qed.

Lemma compact_step r L1 x L2 fl Q :
  let t := table r in let o := fin t (List.last L1 0) in
  TInv t (L1 ++ x :: L2) fl [] -> packed t (0 :: L1) -> fin t x <= map_size r ->
  (forall r', compacting r r' (L1 ++ x :: L2) fl -> packed (table r') (0 :: L1 ++ [x]) ->
     off (table r') x = o -> Q tt r') ->
  wp (MoveData x o) Q r.
Proof.
  intros t o HT Hp Hf HQ. destruct (tinv_order _ _ _ _ _ _ HT) as [Ho _]. fold o in Ho.
  destruct (cons_last L1 0) as [A EA].
  assert (Hpk : forall t', same_place t t' (0 :: L1) -> off t' x = o -> packed t' (0 :: L1 ++ [x])).
  { intros t' Hsp Ex. change (0 :: L1 ++ [x]) with ((0 :: L1) ++ [x]).
    rewrite EA, <- app_assoc. simpl. apply packed_app. rewrite <- EA.
    split_and!; [by eapply packed_ext| |done].
    rewrite (same_place_fin _ _ _ _ Hsp); [done|apply last_elem]. }
  assert (Hx : x ∉ 0 :: L1).
  { pose proof (tinv_NoDup0 HT) as Hnd. change (0 :: L1 ++ x :: L2) with ((0 :: L1) ++ x :: L2) in Hnd.
    apply NoDup_app in Hnd as (_ & Hnd & _). intros Hin. apply (Hnd x Hin). set_solver. }
  eapply MoveData_spec; [exact HT|done|done| |].
  - intros Eo. apply HQ; [by apply compacting_refl|by apply Hpk|done].
  - set (t' := upd t x (set_offset o)).
    assert (Ex : entry t' x = set_offset o (entry t x)) by (unfold t'; rewrite entry_upd; by case_decide).
    assert (Esz : forall y, sz t' y = sz t y).
    { intros y. unfold t', sz. rewrite entry_upd. by case_decide; [subst y|]. }
    destruct (tinv_size _ _ _ _ HT x ltac:(set_solver)) as [Sx Dx].
    assert (Eo : off t' x = o) by (unfold off; by rewrite Ex).
    apply HQ; [constructor; simpl; try done|by apply Hpk; [apply same_place_upd|]|done].
    + apply (TInv_place t L1 x L2 fl _ o (sz t x)); try done.
      * rewrite fin_eq. lia.
      * apply (tinv_end_multiple t _ _ _ _ HT). pose proof (last_elem L1 0). set_solver.
    + by eapply compact_keeps.
    + intros y _. rewrite (fin_eq (upd _ _ _)), (fin_eq (table r)). unfold t' in Esz. rewrite Esz.
      unfold off. rewrite entry_upd. fold t. case_decide; [subst y|lia].
      simpl. unfold off in Ho. lia.
Qed.

Lemma Compress_loop_spec L2 : forall fuel r L1 fl Q,
  let t := table r in
  TInv t (L1 ++ L2) fl [] -> packed t (0 :: L1) ->
  (forall x, x ∈ L1 ++ L2 -> fin t x <= map_size r) -> (length L2 < fuel)%nat ->
  (forall r', compacting r r' (L1 ++ L2) fl -> packed (table r') (0 :: L1 ++ L2) ->
     Q (fin (table r') (List.last (L1 ++ L2) 0)) r') ->
  wp (Compress_loop fuel (List.last L1 0) (fin t (List.last L1 0))) Q r.
Proof.
  induction L2 as [|x L2 IH]; intros [|fuel] r L1 fl Q t HT Hp Hf Hfuel HQ; simpl in Hfuel; try lia.
  - rewrite app_nil_r in *. simpl. wp_step. apply wp_read; [apply (tinv_valid' HT), last_elem|].
    fold t. change (next (entry t (List.last L1 0))) with (nx t (List.last L1 0)).
    rewrite (tinv_nx_last HT). simpl. wp_step. apply HQ; [by apply compacting_refl|done].
  - simpl. wp_step. apply wp_read; [apply (tinv_valid' HT); pose proof (last_elem L1 0); set_solver|].
    fold t. change (next (entry t (List.last L1 0))) with (nx t (List.last L1 0)).
    destruct (tinv_neighbours _ _ _ _ _ _ HT) as (_ & _ & -> & _).
    pose proof (tinv_pos HT x ltac:(set_solver)).
    destruct (Z.eqb_spec x 0); [lia|].
    wp_step. eapply compact_step; [exact HT|done|by apply Hf; set_solver|].
    intros r1 C1 P1 O1. wp_step. pose proof (comp_table _ _ _ _ C1) as HT1.
    apply wp_read; [apply (tinv_valid HT1); set_solver|].
    change (size (entry (table r1) x)) with (sz (table r1) x).
    replace (fin t (List.last L1 0) + sz (table r1) x) with (fin (table r1) x)
      by (by rewrite (fin_eq (table r1)), O1).
    replace x with (List.last (L1 ++ [x]) 0) by apply List.last_last.
    assert (Eapp : L1 ++ x :: L2 = (L1 ++ [x]) ++ L2) by (by rewrite <- app_assoc).
    rewrite Eapp in *.
    apply (IH fuel r1 (L1 ++ [x]) fl); [done|done| |lia|].
    + intros y Hy. destruct (comp_config _ _ _ _ C1) as [-> _].
      etrans; [by apply (comp_inside _ _ _ _ C1)|]. by apply Hf.
    + intros r2 C2 P2. apply HQ; [|done]. by eapply compacting_trans.
Qed.

(** ** Accounting *)

Lemma inv_brutto r ids fl :
  Inv r ids fl ->
  fin (table r) (List.last ids 0) - sz (table r) 0 =
  netto_size r + sum_Z (map (fun p => hole_size p.2) (gaps (table r) (0 :: ids))).
Proof.
  intros HI. pose proof (inv_table _ _ _ HI) as HT.
  rewrite (inv_netto _ _ _ HI), <- (gaps_total _ _ _ (tinv_ordered _ _ _ _ HT)).
  rewrite (fin_eq _ 0), (tinv_head_offset _ _ _ _ HT). lia.
Qed.

Lemma wp_brutto r ids fl Q :
  Inv r ids fl -> Q (fin (table r) (List.last ids 0) - sz (table r) 0) r -> wp GetBruttoSize Q r.
Proof.
  intros HI HQ. apply wp_on_table. eapply table_GetBruttoSize_spec; [apply HI|]. by destruct r.
Qed.

Lemma wp_accounting r ids fl Q : Inv r ids fl -> Q tt r -> wp assert_accounting Q r.
Proof.
  intros HI HQ. unfold assert_accounting. wp_step. wp_step. wp_step.
  eapply wp_brutto; [done|]. wp_step; [|done]. apply Z.eqb_eq.
  rewrite (inv_brutto r ids fl HI), (total_holes _ _ (inv_holes _ _ _ HI)). done.
Qed.

Lemma gaps_sum_nonneg t c :
  0 <= sum_Z (map (fun p => hole_size p.2) (gaps t c)) /\
  (sum_Z (map (fun p => hole_size p.2) (gaps t c)) = 0 -> gaps t c = []).
Proof.
  assert (Hp : forall p, p ∈ gaps t c -> 0 < hole_size p.2).
  { intros p (A & a & b & B & _ & Hlt & ->)%gaps_elem. simpl. lia. }
  revert Hp. generalize (gaps t c). induction l as [|p l IH]; intros Hp; csimpl; [done|].
  destruct IH as [H1 H2]; [set_solver|]. specialize (Hp p ltac:(set_solver)). split; lia.
Qed.

Lemma HInv_nil_empty r :
  HInv r [] -> forallb (fun l => match l with [] => true | _ => false end) (holes r) = true.
Proof.
  intros HH. apply forallb_forall. intros l Hl%list_elem_of_In.
  destruct l as [|o l]; [done|]. exfalso.
  assert (o ∈ concat (holes r)) as Ho by (apply elem_of_concat; exists (o :: l); set_solver).
  rewrite (hinv_perm _ _ HH) in Ho. set_solver.
Qed.

Lemma HInv_cleared r (H' : list (list Z)) :
  length H' = N_HOLE_THRESHOLDS -> holes r = map (fun _ => []) H' -> HInv r [].
Proof.
  intros Hl E. constructor; rewrite ?E.
  - clear. induction H' as [|l H' IH]; [done|exact IH].
  - constructor.
  - set_solver.
  - by rewrite length_map.
  - intros i l o Hi Ho. apply list_lookup_fmap_Some in Hi as (? & -> & _). set_solver.
Qed.

(** [Compress()] leaves no hole. *)
Lemma Compress_spec r ids fl Q :
  Inv r ids fl ->
  (forall r', Inv r' ids fl -> moved r r' ids ids -> gaps (table r') (0 :: ids) = [] -> Q tt r') ->
  wp Compress Q r.
Proof.
  intros HI HQ. pose proof (inv_table _ _ _ HI) as HT.
  pose proof (inv_brutto r ids fl HI) as Eb.
  destruct (gaps_sum_nonneg (table r) (0 :: ids)) as [Hnn Hz].
  unfold Compress. wp_step. wp_step. wp_step. eapply wp_brutto; [done|].
  wp_step. wp_step; [bsolve|]. wp_step. eapply wp_accounting; [done|].
  destruct (Z.eqb_spec (fin (table r) (List.last ids 0) - sz (table r) 0) (netto_size r)) as [E|E].
  { assert (G : gaps (table r) (0 :: ids) = []) by (apply Hz; lia).
    wp_step; [|by apply HQ; [|apply moved_refl|]]. apply HInv_nil_empty.
    rewrite <- G. apply HI. }
  wp_step. wp_step. wp_step. apply wp_read; [apply (tinv_valid0 HT)|].
  wp_step. wp_step; [bsolve; apply (tinv_head_offset _ _ _ _ HT)|]. wp_step.
  set (r1 := set_holes (map (fun _ => []) (holes r)) r).
  replace (size (entry (table r1) 0)) with (fin (table r1) (List.last [] 0)).
  2: { simpl. rewrite fin_eq, (tinv_head_offset _ _ _ _ HT). done. }
  eapply (Compress_loop_spec ids _ r1 [] fl); [done|done| | |].
  { intros x Hx. apply (inv_inside r ids fl x HI Hx). }
  { pose proof (tinv_length HT). pose proof (tinv_tail _ _ _ _ HT). lia. }
  intros r' C P. pose proof (comp_table _ _ _ _ C) as HT'.
  change ([] ++ ids) with ids in *.
  pose proof (packed_gaps _ _ P) as G. destruct (comp_config _ _ _ _ C) as (Em & Ex & Es).
  simpl in Em, Ex, Es.
  assert (HI' : Inv r' ids fl).
  { constructor; [done| | |].
    - rewrite G. eapply (HInv_cleared _ (holes r)); [apply (inv_holes _ _ _ HI)|apply C].
    - rewrite (comp_netto _ _ _ _ C). simpl. rewrite (inv_netto _ _ _ HI). symmetry.
      apply objects_size_ext. intros x Hx. by apply (comp_keeps _ _ _ _ C).
    - rewrite Em. etrans; [|apply (inv_fits _ _ _ HI)].
      pose proof (last_elem ids 0) as [->|Hl]%elem_of_cons; [|by apply (comp_inside _ _ _ _ C)].
      rewrite !fin_eq, (tinv_head_offset _ _ _ _ HT), (tinv_head_offset _ _ _ _ HT'). lia. }
  pose proof (inv_brutto r' ids fl HI') as Eb'. rewrite G in Eb'. simpl in Eb'.
  pose proof (comp_netto _ _ _ _ C) as En. simpl in En.
  wp_step. apply wp_on_table. eapply GetSize_spec; [done|].
  replace (set_table (table r') r') with r' by (by destruct r').
  wp_step. wp_step; [bsolve|]. wp_step. eapply wp_brutto; [done|].
  wp_step. wp_step; [bsolve|]. cbv zeta.
  assert (Hm : moved r r' ids ids) by (constructor; [done|apply C|done]).
  destruct (Z.ltb_spec (AlignHugePageUp (fin (table r') (List.last ids 0))) (map_size r)); [|wp_step; by apply HQ].
  wp_step. apply wp_at_offset; [lia|]. apply wp_mod. apply HQ; [by apply Inv_mem| |done].
  eapply moved_trans; [exact Hm|]. constructor; [done| |by split_and!].
  intros x Hx. split; [done|]. intros k Hk. simpl.
  pose proof (tinv_fin_last HT' x Hx). rewrite (fin_eq _ x) in *.
  pose proof (align_huge_page_ge (fin (table r') (List.last ids 0))).
  destruct (Z.leb_spec (AlignHugePageUp (fin (table r') (List.last ids 0))) (off (table r') x + k));
    simpl; [lia|done].
Qed.

End Ops.
