(* ===== verification/RubberAdd.v ===== *)
(** * The "rubber" allocator: adding, shrinking and removing objects *)

From S2P Require Import Prelude Rubber RubberLayout RubberHoles RubberFacts RubberOps.

#[local] Open Scope beng_scope.

(** No entry of the table is free. *)
Definition table_full (r : Rubber) (ids : list Z) : Prop :=
  Z.of_nat (length ids) = max_entries (table r) - 1.

(** An object of [s] bytes does not fit, even without holes. *)
Definition no_room (r : Rubber) (s : Z) : Prop :=
  map_size r < sz (table r) 0 + netto_size r + s.

Lemma set_table_id r : set_table (table r) r = r.
Proof. by destruct r. Qed.

Section Add.
Context `{RubberEnvOk}.

(** ** Appending *)

Lemma tinv_full t ids : TInv t ids [] [] -> initialized_tail t = max_entries t ->
  Z.of_nat (length ids) = max_entries t - 1.
Proof.
  intros HT E. pose proof (Permutation_length (tinv_ids _ _ _ _ HT)) as El.
  rewrite !length_app, length_seqZ in El. simpl in El. pose proof (tinv_tail _ _ _ _ HT). lia.
Qed.

Lemma table_Add_spec r ids fl s Q :
  let t := table r in let o := fin t (List.last ids 0) in
  Inv r ids fl -> 0 < s -> (RUBBER_ALIGN | s) -> o + s <= map_size r ->
  (table_full r ids -> Q 0 r) ->
  (forall id r' fl', Inv (set_netto_size (netto_size r + s) r') (ids ++ [id]) fl' ->
     added r (set_netto_size (netto_size r + s) r') ids (ids ++ [id]) id s ->
     netto_size r' = netto_size r -> Q id r') ->
  wp (on_table (table_Add o s)) Q r.
Proof.
  intros t o HI Hs Hd Hfit HQ0 HQ. pose proof (inv_table _ _ _ HI) as HT. fold t in HT.
  apply wp_on_table. unfold table_Add. fold t. wp_step. eapply AddId_spec; [done| |].
  { intros Hfl Htl. simpl. wp_step. unfold t; rewrite set_table_id.
    apply HQ0. unfold table_full. fold t. subst fl; by apply tinv_full. }
  intros id t' fl' Hid Hv Hni HT' Hent Hmax. destruct (Z.eqb_spec id 0) as [|_]; [lia|].
  wp_step. apply wp_write_entry; [done|]. set (t2 := upd t' id (Init o s)).
  pose proof (TInv_upd_dangling _ _ _ _ (Init o s) HT') as HT2. fold t2 in HT2.
  assert (Hni0 : id ∉ 0 :: ids) by (intros [|]%elem_of_cons; [lia|done]).
  assert (Hsp : same_place t t2 (0 :: ids)).
  { eapply same_place_trans; [by apply same_place_entries|by apply same_place_upd]. }
  assert (Eid : entry t2 id = Init o s (entry t' id)).
  { unfold t2. rewrite entry_upd. by case_decide. }
  pose proof (last_elem ids 0) as Hl.
  assert (Fl : fin t2 (List.last ids 0) = o) by (by eapply same_place_fin).
  assert (Ex : alloc t2 id = true /\ off t2 id = o /\ sz t2 id = s)
    by (unfold alloc, off, sz; by rewrite Eid).
  destruct Ex as (Ea & Eo & Es).
  assert (Hne : id <> List.last ids 0) by (by intros ->).
  wp_step. apply wp_read_entry; [apply (tinv_valid0 HT2)|].
  change (previous (entry t2 0)) with (pv t2 0). rewrite (tinv_last HT2).
  wp_step. pose proof (tinv_sized HT2 _ Hl).
  eapply Link_spec;
    [done|done|lia|done|by apply (tinv_valid' HT2)|apply (tinv_valid0 HT2)|done
    |by apply (tinv_alloc' _ _ _ _ _ HT2)|apply (tinv_nx_last HT2)|apply (tinv_last HT2)
    |rewrite Eo, <- Fl, fin_eq; lia|by left|].
  wp_step. set (t3 := linked t2 id (List.last ids 0) 0).
  assert (HT3 : TInv t3 (ids ++ [id]) fl' []).
  { apply (linked_TInv t2 ids [] fl' id); rewrite ?app_nil_r, ?Es, ?Eo, ?Fl; try done; [|by left].
    rewrite <- Fl. by apply (tinv_end_multiple t2 ids fl' [id]). }
  assert (Hsp3 : forall c, same_place t2 t3 c) by (intros c; apply linked_same_place; lia).
  assert (Hsp' : same_place t t3 (0 :: ids)) by (by eapply same_place_trans).
  assert (Eo3 : off t3 id = o /\ sz t3 id = s) by (rewrite <- Eo, <- Es; apply (Hsp3 [id]); set_solver).
  destruct Eo3 as [Eo3 Es3].
  apply (HQ id _ fl'); [| |done].
  - constructor; simpl; [done| | |].
    + rewrite gaps_snoc, (gaps_ext t t3) by done. unfold gap. rewrite Eo3.
      rewrite (same_place_fin t t3 _ _ Hsp' Hl). fold o. rewrite Z.ltb_irrefl, app_nil_r.
      eapply (HInv_ext r); [done|done|apply HI].
    + rewrite (inv_netto _ _ _ HI), objects_size_app. unfold objects_size at 3. simpl. rewrite Es3.
      rewrite (objects_size_ext t t3); [fold t; lia|]. intros x Hx. apply Hsp'. set_solver.
    + rewrite List.last_last, fin_eq. lia.
  - constructor; simpl; try done; [apply (Permutation_app_comm _ [id])| |].
    + intros x Hx. destruct (Hsp' x ltac:(set_solver)) as [E1 E2]. split; [done|].
      intros k _. simpl. by rewrite E1.
    + split_and!; [done|done|]. simpl. apply Hsp'. set_solver.
Qed.

Lemma moved_added r1 r2 r3 ids ids2 ids3 id s :
  moved r1 r2 ids ids2 -> added r2 r3 ids2 ids3 id s -> added r1 r3 ids ids3 id s.
Proof.
  intros [E K C] [P N I S K' C']. constructor; try done.
  - by rewrite <- E.
  - by rewrite I, E.
  - eapply keeps_trans; [done|]. eapply keeps_sub; [done|]. intros x. by rewrite E.
  - by eapply same_config_trans.
Qed.

(** ** [Add()] *)

Lemma moved_full r r' ids ids' : moved r r' ids ids' -> table_full r' ids' -> table_full r ids.
Proof.
  intros [E _ (_ & C & _)] Hf. unfold table_full in *. by rewrite <- C, <- E.
Qed.

Lemma moved_netto r r' ids ids' fl fl' :
  Inv r ids fl -> Inv r' ids' fl' -> moved r r' ids ids' -> netto_size r' = netto_size r.
Proof.
  intros HI HI' [E K _]. rewrite (inv_netto _ _ _ HI), (inv_netto _ _ _ HI'), E.
  apply objects_size_ext. intros x Hx. by apply K.
Qed.

(** The last part of [Add()]: a table entry for the object at the end. *)
Lemma Add_append_spec r ids fl s Q :
  let o := fin (table r) (List.last ids 0) in
  Inv r ids fl -> 0 < s -> (RUBBER_ALIGN | s) -> o + s <= map_size r ->
  (table_full r ids -> Q 0 r) ->
  (forall id r' ids' fl', Inv r' ids' fl' -> added r r' ids ids' id s -> Q id r') ->
  wp (let! id := on_table (table_Add o s) in
      (if 0 <? id then mmod (fun r => set_netto_size (netto_size r + s) r)
       else mret tt) ;;;
      assert_accounting ;;;
      mret id) Q r.
Proof.
  intros o HI Hs Hd Hfit HQ0 HQ. wp_step. apply (table_Add_spec r ids fl s); try done.
  - intros Hfull. simpl. wp_step. wp_step. wp_step. eapply wp_accounting; [done|]. wp_step. auto.
  - intros id r' fl' HI' Ha En. destruct (Z.ltb_spec 0 id) as [|Hle].
    2: { pose proof (added_pos _ _ _ _ _ _ Ha). lia. }
    wp_step. wp_step. wp_step. rewrite En. eapply wp_accounting; [done|]. wp_step. by eapply HQ.
Qed.

Lemma Add_tail_spec r ids fl s Q :
  Inv r ids fl -> 0 < s -> (RUBBER_ALIGN | s) ->
  (forall r' ids', Inv r' ids' fl -> moved r r' ids ids' ->
     no_room r s \/ table_full r ids -> Q 0 r') ->
  (forall id r' ids' fl', Inv r' ids' fl' -> added r r' ids ids' id s -> Q id r') ->
  wp (Add_tail s) Q r.
Proof.
  intros HI Hs Hd HQ0 HQ. unfold Add_tail. wp_step. wp_step. wp_step. eapply wp_brutto; [done|].
  set (k := fun _ : unit => _).
  assert (Hk : forall r1 ids1, Inv r1 ids1 fl -> moved r r1 ids ids1 -> wp (k tt) Q r1).
  2: { wp_step. case_match.
    - eapply Compress_spec; [done|]. intros. by eapply (Hk _ ids).
    - eapply MoveLast_loop_spec; [done|]. intros. by eapply Hk. }
  assert (Hend : forall r1 ids1, Inv r1 ids1 fl -> moved r r1 ids ids1 ->
    fin (table r1) (List.last ids1 0) + s <= map_size r ->
    wp (let! id := on_table (table_Add (fin (table r1) (List.last ids1 0)) s) in
      (if 0 <? id then mmod (fun r => set_netto_size (netto_size r + s) r) else mret tt) ;;;
      assert_accounting ;;; mret id) Q r1).
  { intros r1 ids1 HI1 M1 Hfit. destruct (moved_config _ _ _ _ M1) as (Em & _).
    eapply Add_append_spec; [exact HI1|done|done|by rewrite Em| |].
    - intros Hfull. eapply HQ0; [done..|right; by eapply moved_full].
    - intros id r' ids' fl' HI' Ha. eapply HQ; [done|by eapply moved_added]. }
  intros r1 ids1 HI1 M1. unfold k. wp_step. apply wp_on_table.
  eapply GetTailOffset_spec; [apply HI1|]. rewrite set_table_id.
  destruct (Z.ltb_spec (map_size r) (fin (table r1) (List.last ids1 0) + s)) as [Hlt|Hge].
  2: { wp_step. wp_step. by apply Hend. }
  wp_step. wp_step. eapply Compress_spec; [done|]. intros r2 HI2 M2 G2.
  assert (M : moved r r2 ids ids1) by (by eapply moved_trans).
  wp_step. apply wp_on_table. eapply GetTailOffset_spec; [apply HI2|]. rewrite set_table_id.
  destruct (Z.ltb_spec (map_size r) (fin (table r2) (List.last ids1 0) + s)) as [Hlt2|Hge2].
  - wp_step. wp_step. eapply HQ0; [done|done|left]. unfold no_room.
    pose proof (inv_brutto r2 ids1 fl HI2) as Eb. rewrite G2 in Eb. simpl in Eb.
    rewrite (moved_netto r r2 ids ids1 fl fl HI HI2 M) in Eb.
    destruct (moved_config _ _ _ _ M) as (_ & _ & Es). lia.
  - wp_step. by apply Hend.
Qed.

Lemma align_size_facts size : 0 < size ->
  RUBBER_ALIGN <= align_size size /\ (RUBBER_ALIGN | align_size size) /\
  size <= align_size size < size + RUBBER_ALIGN.
Proof.
  intros Hs. unfold align_size. pose proof (round_up_ge size). pose proof (round_up_lt size).
  pose proof (round_up_multiple size) as Hm. split_and!; try lia; [|apply Hm; lia].
  apply Z.divide_pos_le; [lia|apply Hm; lia].
Qed.

Lemma objects_nonneg t ids : sized t ids -> 0 <= objects_size t ids.
Proof.
  unfold objects_size. induction ids as [|x ids IH]; intros Hs; simpl; [done|].
  pose proof (Hs x ltac:(set_solver)). assert (sized t ids) by (intros y Hy; apply Hs; set_solver).
  specialize (IH H2). lia.
Qed.

Lemma inv_no_room r ids fl s : Inv r ids fl -> map_size r <= s -> no_room r s.
Proof.
  intros HI Hs. unfold no_room. pose proof (inv_table _ _ _ HI) as HT.
  pose proof (tinv_head_size _ _ _ _ HT). unfold sizeof_RubberTable, sizeof_RubberObject in *.
  assert (0 <= netto_size r); [|lia]. rewrite (inv_netto _ _ _ HI).
  apply objects_nonneg. intros y Hy. apply (tinv_sized HT). set_solver.
Qed.

Lemma Add_spec r ids fl size Q :
  Inv r ids fl -> 0 < size ->
  (forall r' ids', Inv r' ids' fl -> moved r r' ids ids' ->
     no_room r (align_size size) \/ table_full r ids -> Q 0 r') ->
  (forall id r' ids' fl', Inv r' ids' fl' -> added r r' ids ids' id (align_size size) -> Q id r') ->
  wp (Add size) Q r.
Proof.
  intros HI Hs HQ0 HQ. destruct (align_size_facts size Hs) as (A1 & A2 & A3).
  unfold Add. wp_step. eapply wp_accounting; [done|]. wp_step. wp_step; [bsolve|]. wp_step. wp_step.
  destruct (Z.leb_spec (map_size r) size).
  { wp_step. eapply HQ0; [done|apply moved_refl|left]. eapply inv_no_room; [done|lia]. }
  cbv zeta. wp_step. eapply wp_brutto; [done|]. unfold RUBBER_ALIGN in A1.
  wp_step. case_match.
  - eapply AddInHole_spec; [done|done|done| |].
    + simpl. eapply Add_tail_spec; try done. lia.
    + intros id r' ids' fl' HI' Ha. pose proof (added_pos _ _ _ _ _ _ Ha).
      destruct (Z.eqb_spec id 0); [lia|]. simpl. wp_step. by eapply HQ.
  - wp_step. simpl. eapply Add_tail_spec; try done. lia.
Qed.

End Add.

(** ** The "rubber" allocator: removing and shrinking objects *)

#[local] Open Scope beng_scope.

Section Remove.
Context `{RubberEnvOk}.

(** ** [Remove()] *)

(** The table after [RubberTable::Remove()]. *)
Record unlisted (t t' : RubberTable) (L1 L2 fl : list Z) (x : Z) : Prop := {
  unl_table : TInv t' (L1 ++ L2) (x :: fl) [];
  unl_place : forall c, same_place t t' c;
  unl_max : max_entries t' = max_entries t;
}.

Lemma table_Remove_spec t L1 x L2 fl Q :
  TInv t (L1 ++ x :: L2) fl [] ->
  (forall t', unlisted t t' L1 L2 fl x -> Q (sz t x) t') ->
  wp (table_Remove x) Q t.
Proof.
  intros HT HQ. assert (Hx : x ∈ L1 ++ x :: L2) by set_solver.
  pose proof (tinv_pos HT x Hx). pose proof (tinv_valid HT x Hx) as Hv.
  pose proof (tinv_head_size _ _ _ _ HT). destruct Hv as [Hv1 Hv2].
  unfold table_Remove. wp_step. wp_step. wp_step. eapply GetSize_spec; [done|].
  do 3 (wp_step; wp_step; [bsolve|]). wp_step. eapply Unlink_spec; [done|].
  pose proof (unlinked_TInv t L1 x L2 fl HT) as HT1. set (t1 := unlinked _ _ _) in *.
  assert (Ho : forall y, off t1 y = off t y /\ sz t1 y = sz t y).
  { intros y. by destruct (unlinked_fields t (List.last L1 0) (List.hd 0 L2) y) as (_ & _ & ? & ? & _). }
  set (t2 := upd t1 x (set_next (free_head t1))).
  wp_step. wp_step. wp_step. apply wp_write_entry; [done|]. fold t2. wp_step. wp_step. wp_step.
  apply wp_write_entry; [done|]. set (t3 := upd (set_free_head x t2) x (set_allocated false)).
  wp_step. apply wp_read_entry; [done|]. wp_step.
  assert (Ee : forall y, y <> x -> entry t3 y = entry t1 y).
  { intros y Hy. unfold t3, t2. rewrite entry_upd. case_decide; [done|].
    change (entry (set_free_head x (upd t1 x (set_next (free_head t1)))) y)
      with (entry (upd t1 x (set_next (free_head t1))) y). rewrite entry_upd. by case_decide. }
  assert (Ex : entry t3 x = set_allocated false (set_next (free_head t1) (entry t1 x))).
  { unfold t3. rewrite entry_upd. case_decide; [|done].
    change (entry (set_free_head x t2) x) with (entry t2 x).
    unfold t2. rewrite entry_upd. by case_decide. }
  assert (Hsp : forall c, same_place t t3 c).
  { intros c y _. destruct (Ho y) as [<- <-]. destruct (decide (y = x)) as [->|Hne].
    - unfold off, sz. by rewrite Ex.
    - unfold off, sz. by rewrite Ee. }
  replace (size (entry t3 x)) with (sz t x) by (symmetry; apply (Hsp [x]); set_solver).
  apply HQ. constructor; [|done|done].
  pose proof (TInv_upd_dangling _ _ _ _ (set_next (free_head t1)) HT1) as HT2. fold t2 in HT2.
  pose proof (TInv_upd_dangling _ _ _ _ (set_allocated false) HT2) as HT3.
  assert (Hxfl : x ∉ fl).
  { pose proof (tinv_NoDup HT1) as Hnd. rewrite app_assoc in Hnd. apply NoDup_app in Hnd as (_ & Hnd & _).
    intros Hin. apply (Hnd x); set_solver. }
  eapply TInv_same; [exact HT3|done| | | |apply (tinv_tail _ _ _ _ HT1)].
  - split; [done|]. apply (free_chain_ext t1).
    + intros y Hy. change (nx (upd t2 x (set_allocated false)) y) with (nx t3 y).
      unfold nx. rewrite Ee; [done|]. by intros ->.
    + change (nx (upd t2 x (set_allocated false)) x) with (next (entry t3 x)). rewrite Ex. simpl.
      apply HT1.
  - change (forall y, y ∈ x :: fl -> allocated (entry t3 y) = false).
    intros y [->|Hy]%elem_of_cons; [by rewrite Ex|]. rewrite Ee by (by intros ->).
    by apply (tinv_free_alloc _ _ _ _ HT1).
  - change (initialized_tail t3) with (initialized_tail t1). rewrite <- (tinv_ids _ _ _ _ HT1).
    f_equiv. rewrite app_nil_r. apply (Permutation_app_comm [x]).
Qed.

(** An object was removed: the others are kept. *)
Record removed (r r' : Rubber) (ids ids' : list Z) (id : Z) : Prop := {
  removed_ids : ids ≡ₚ id :: ids';
  removed_keeps : keeps r r' ids';
  removed_config : same_config r r';
}.

(** The state after the object [x] was taken off the table. *)
Section Replace.
Context {r : Rubber} {L1 L2 fl : list Z} {x : Z} {t' : RubberTable}
  (HI : Inv r (L1 ++ x :: L2) fl) (HU : unlisted (table r) t' L1 L2 fl x).

Let t := table r.
Let r1 := set_netto_size (netto_size r - sz t x) (set_table t' r).

Lemma unlisted_netto : netto_size r1 = objects_size t' (L1 ++ L2).
Proof using All.
  simpl. rewrite (inv_netto _ _ _ HI), <- Permutation_middle, objects_size_cons.
  rewrite (objects_size_ext t t') by (intros y Hy; by apply (unl_place _ _ _ _ _ _ HU [y]); set_solver).
  fold t. lia.
Qed.

Lemma removed_frame r' lo hi :
  table r' = t' -> map_size r' = map_size r -> mem_frame r r' lo hi ->
  (forall y, y ∈ L1 ++ L2 -> fin t y <= lo \/ hi <= off t y) ->
  removed r r' (L1 ++ x :: L2) (L1 ++ L2) x.
Proof using All.
  intros Et Em Hf Hd. pose proof (unl_place _ _ _ _ _ _ HU) as Hsp. constructor.
  - by rewrite Permutation_middle.
  - eapply keeps_frame; [rewrite Et; apply Hsp|exact Hf|exact Hd].
  - split_and!; rewrite ?Et; [done|apply HU|]. apply (Hsp [0]). set_solver.
Qed.

Lemma removed_last_Inv r' :
  L2 = [] -> table r' = t' -> netto_size r' = netto_size r1 -> map_size r' = map_size r ->
  HInv r' (gaps t (0 :: L1)) -> Inv r' (L1 ++ L2) (x :: fl).
Proof using All.
  intros E2 Et En Em HH. pose proof (unl_place _ _ _ _ _ _ HU) as Hsp.
  pose proof (inv_table _ _ _ HI) as HT. pose proof unlisted_netto as Hn.
  pose proof (inv_fits _ _ _ HI) as Hf. pose proof (unl_table _ _ _ _ _ _ HU) as HT'.
  rewrite E2 in HT, Hn, Hf, HT' |- *. rewrite app_nil_r in Hn, HT' |- *.
  constructor; rewrite ?Et; [done|by rewrite (gaps_ext t t')|congruence|].
  rewrite Em. etrans; [|exact Hf]. rewrite List.last_last.
  rewrite (same_place_fin t t' _ _ (Hsp [List.last L1 0])) by set_solver.
  destruct (tinv_order _ _ _ _ _ _ HT) as [H1 _]. fold t in H1 |- *.
  pose proof (tinv_sized HT x ltac:(set_solver)). rewrite (fin_eq t x). fold t in H2. lia.
Qed.

(** Removing the last object drops the hole before it. *)
Lemma DiscardHoleBetween_spec Q :
  let p := List.last L1 0 in
  L2 = [] ->
  (forall r', Inv r' (L1 ++ L2) (x :: fl) -> removed r r' (L1 ++ x :: L2) (L1 ++ L2) x -> Q tt r') ->
  wp (DiscardHoleBetween p (entry t' p) (entry t' x)) Q r1.
Proof using All.
  intros p E2 HQ. pose proof (unl_place _ _ _ _ _ _ HU) as Hsp.
  pose proof (inv_table _ _ _ HI) as HT. fold t in HT.
  pose proof (inv_holes _ _ _ HI) as HH. fold t in HH.
  destruct (tinv_order _ _ _ _ _ _ HT) as [Hpx _]. fold p in Hpx.
  assert (Hp : p ∈ 0 :: L1 ++ x :: L2) by (pose proof (last_elem L1 0); set_solver).
  pose proof (tinv_sized HT p Hp). pose proof (fin_eq t p) as Fp.
  destruct (inv_inside r _ fl x HI ltac:(set_solver)) as [_ Hfits]. fold t in Hfits.
  pose proof (tinv_sized HT x ltac:(set_solver)). pose proof (fin_eq t x) as Fx.
  assert (Ep : GetEndOffset (entry t' p) = fin t p) by (apply (same_place_fin t t' [p] p (Hsp [p])); set_solver).
  assert (Eop : offset (entry t' p) = off t p) by (apply (Hsp [p]); set_solver).
  assert (Eox : offset (entry t' x) = off t x) by (apply (Hsp [x]); set_solver).
  assert (Hend : forall H', HInv (set_holes H' r1) (gaps t (0 :: L1)) -> Q tt (set_holes H' r1)).
  { intros H' HH'. apply HQ.
    - by apply removed_last_Inv.
    - apply (removed_frame _ (fin t p) (fin t p)); try done. intros y Hy. left.
      destruct (tinv_around HT) as [Ha _]. apply Ha. rewrite E2, app_nil_r in Hy. done. }
  rewrite E2, gaps_snoc in HH.
  unfold DiscardHoleBetween. rewrite Ep, Eox. wp_step. wp_step; [bsolve|].
  unfold FindHoleBetween. rewrite Eop, Eox, Ep. wp_step. wp_step. wp_step; [bsolve|].
  unfold gap in HH. fold p in HH. destruct (Z.ltb_spec (fin t p) (off t x)).
  - wp_step. apply wp_at_offset; [simpl; lia|]. wp_step. wp_step. wp_step.
    rewrite Permutation_app_comm in HH. simpl in HH.
    assert (HH1 : HInv r1 ((fin t p, mk_hole (off t x - fin t p) p x) :: gaps t (0 :: L1)))
      by (by eapply (HInv_ext r)).
    rewrite (the_hole_head _ _ _ _ HH1). simpl.
    do 2 (wp_step; wp_step; [bsolve|]). by eapply RemoveHole_spec; [exact HH1|].
  - wp_step. wp_step. rewrite app_nil_r in HH. apply (Hend (holes r)). by eapply (HInv_ext r).
Qed.

(** Removing another object makes one hole of its memory and the holes next
    to it. *)
Lemma replace_middle_spec b B Q :
  L2 = b :: B ->
  (forall r', Inv r' (L1 ++ L2) (x :: fl) -> removed r r' (L1 ++ x :: L2) (L1 ++ L2) x -> Q tt r') ->
  wp (AddHoleAfter (List.last L1 0) (off t' x) (sz t' x)) Q r1.
Proof using All.
  intros E2 HQ. pose proof (unl_place _ _ _ _ _ _ HU) as Hsp.
  pose proof (inv_table _ _ _ HI) as HT. fold t in HT.
  pose proof (unl_table _ _ _ _ _ _ HU) as HT'. pose proof (inv_holes _ _ _ HI) as HH. fold t in HH.
  destruct (cons_last L1 0) as [A EA]. set (a := List.last L1 0) in *.
  assert (E : 0 :: L1 ++ L2 = A ++ a :: b :: B).
  { rewrite E2. change (0 :: L1 ++ b :: B) with ((0 :: L1) ++ b :: B). by rewrite EA, <- app_assoc. }
  assert (Hplace : forall y, off t' y = off t y /\ sz t' y = sz t y /\ fin t' y = fin t y).
  { intros y. destruct (Hsp [y] y ltac:(set_solver)) as [-> ->]. split_and!; try done.
    apply (same_place_fin t t' [y] y (Hsp [y])). set_solver. }
  destruct (Hplace x) as (-> & -> & _).
  destruct (tinv_order _ _ _ _ _ _ HT) as [Hax [Hxb|Hxb]]; [by rewrite E2 in Hxb|].
  rewrite E2 in Hxb. simpl in Hxb. fold a in Hax.
  destruct (tinv_size _ _ _ _ HT x ltac:(set_solver)) as [Sx Dx].
  assert (Hmin : sizeof_Hole <= sz t x) by (by apply Z.divide_pos_le).
  assert (Fx : fin t x = off t x + sz t x) by done.
  assert (Hb : b ∈ L1 ++ x :: L2) by (rewrite E2; set_solver).
  destruct (inv_inside r _ fl b HI Hb) as [_ Hfb]. fold t in Hfb.
  pose proof (tinv_sized HT b ltac:(set_solver)) as Sb. pose proof (fin_eq t b) as Fb.
  eapply (AddHoleAfter_spec r1 (L1 ++ L2) (x :: fl) [] A a b B (off t x) (sz t x) x x); simpl; try done.
  - destruct (Hplace b) as (-> & _). lia.
  - destruct (Hplace a) as (_ & _ & ->). done.
  - destruct (Hplace b) as (-> & _). lia.
  - eapply (HInv_ext r); [done|done|]. eapply HInv_perm; [|exact HH].
    rewrite (gaps_insert t L1 L2 A a b B x EA E2).
    rewrite (outside_ext t t') by apply Hsp. unfold gap, left_hole, right_hole.
    destruct (Hplace a) as (_ & _ & ->). destruct (Hplace b) as (-> & _). by rewrite Fx.
  - intros r' HH' (Et & En & Em & Hf). simpl in *.
    destruct (Hplace a) as (_ & _ & Fa). destruct (Hplace b) as (Fob & _). rewrite Fa, Fob in Hf.
    apply HQ.
    + constructor; rewrite ?Et; [done|done|rewrite En; apply unlisted_netto|].
      rewrite Em. etrans; [|apply (inv_fits _ _ _ HI)]. fold t.
      rewrite E2, !last_app_cons. change (List.last (x :: b :: B) 0) with (List.last (b :: B) 0).
      by destruct (Hplace (List.last (b :: B) 0)) as (_ & _ & ->).
    + apply (removed_frame _ (fin t a) (off t b)); try done. intros y Hy.
      destruct (gap_disjoint HT' E y ltac:(set_solver)) as [Hd|Hd].
      * left. destruct (Hplace y) as (_ & _ & <-). by rewrite <- Fa.
      * right. destruct (Hplace y) as (<- & _). by rewrite <- Fob.
Qed.

End Replace.

Lemma Remove_spec r ids fl x Q :
  Inv r ids fl -> x ∈ ids ->
  (forall r' ids', Inv r' ids' (x :: fl) -> removed r r' ids ids' x -> Q tt r') ->
  wp (Remove x) Q r.
Proof.
  intros HI Hx HQ. apply list_elem_of_split in Hx as (L1 & L2 & ->).
  pose proof (inv_table _ _ _ HI) as HT. assert (Hx : x ∈ L1 ++ x :: L2) by set_solver.
  pose proof (tinv_pos HT x Hx).
  unfold Remove. wp_step. wp_step; [bsolve|]. wp_step. apply wp_read; [by apply (tinv_valid HT)|].
  wp_step. wp_step; [by apply (tinv_alloc _ _ _ _ HT)|]. wp_step. wp_step.
  destruct (tinv_neighbours _ _ _ _ _ _ HT) as (Ep & En & _).
  change (previous (entry (table r) x)) with (pv (table r) x).
  change (next (entry (table r) x)) with (nx (table r) x). rewrite Ep, En.
  wp_step. apply wp_on_table. eapply table_Remove_spec; [done|]. intros t' HU.
  pose proof (unlisted_netto HI HU) as Hn. simpl in Hn.
  pose proof (unl_table _ _ _ _ _ _ HU) as HT'.
  wp_step. wp_step.
  { apply Z.leb_le. assert (0 <= objects_size t' (L1 ++ L2)); [|lia].
    apply objects_nonneg. intros y Hy. apply (tinv_sized HT'). set_solver. }
  wp_step. wp_step. wp_step. apply wp_read.
  { simpl. pose proof (tinv_valid HT x Hx) as Hv. unfold valid in *. by rewrite (unl_max _ _ _ _ _ _ HU). }
  simpl. unfold ReplaceWithHole. destruct L2 as [|b B]; simpl.
  - wp_step. apply wp_read; [simpl; apply (tinv_valid' HT'); rewrite app_nil_r; apply last_elem|].
    apply (DiscardHoleBetween_spec HI HU); [done|]. intros r'. apply HQ.
  - pose proof (tinv_pos HT b ltac:(set_solver)). destruct (Z.eqb_spec b 0); [lia|].
    apply (replace_middle_spec HI HU b B); [done|]. intros r'. apply HQ.
Qed.

(** ** [Shrink()] *)

(** The object [x] was cut off after [s] bytes; nothing was moved. *)
Record shrunk (r r' : Rubber) (ids : list Z) (x s : Z) : Prop := {
  shrunk_size : forall y, y ∈ ids -> sz (table r') y = (if decide (y = x) then s else sz (table r) y);
  shrunk_offset : forall y, y ∈ ids -> off (table r') y = off (table r) y;
  shrunk_bytes : forall y k, y ∈ ids -> 0 <= k < sz (table r') y ->
    mem r' (off (table r') y + k) = mem r (off (table r) y + k);
  shrunk_config : same_config r r';
}.

Lemma align_size_le n m : 0 < n <= m -> (RUBBER_ALIGN | m) -> align_size n <= m.
Proof.
  intros Hn [q Hq]. destruct (align_size_facts n ltac:(lia)) as (_ & [p Hp] & _ & Hlt).
  unfold RUBBER_ALIGN in *. lia.
Qed.

Section Resize.
Context {r : Rubber} {L1 L2 fl : list Z} {x n : Z}
  (HI : Inv r (L1 ++ x :: L2) fl) (Hn : 0 < n < sz (table r) x) (Hd : (RUBBER_ALIGN | n)).

Let t := table r.
Let t' := upd t x (set_size n).
Let r1 := set_netto_size (netto_size r - (sz t x - n)) (set_table t' r).

Lemma resized_fields y : off t' y = off t y /\ sz t' y = (if decide (y = x) then n else sz t y).
Proof using All.
  unfold t', off, sz. rewrite entry_upd. destruct (decide (x = y)) as [<-|Hne].
  - by destruct (decide (x = x)).
  - by destruct (decide (y = x)).
Qed.

Lemma resized_same c : x ∉ c -> same_place t t' c.
Proof using All.
  intros Hx y Hy. destruct (resized_fields y) as [-> ->]. case_decide; [by subst|done].
Qed.

Lemma resized_TInv : TInv t' (L1 ++ x :: L2) fl [].
Proof using All.
  pose proof (inv_table _ _ _ HI) as HT. fold t in HT.
  destruct (resized_fields x) as [Eo Es]. rewrite decide_True in Es by done.
  apply (TInv_place t L1 x L2 fl (set_size n) (off t x) n); try done.
  - by destruct (tinv_order _ _ _ _ _ _ HT).
  - rewrite fin_eq. fold t in Hn. lia.
  - lia.
  - apply (tinv_offset _ _ _ _ HT). set_solver.
Qed.

Lemma resized_notin : (x ∉ 0 :: L1) /\ (x ∉ L2).
Proof using All.
  pose proof (tinv_NoDup0 (inv_table _ _ _ HI)) as Hnd.
  change (0 :: L1 ++ x :: L2) with ((0 :: L1) ++ x :: L2) in Hnd.
  apply NoDup_app in Hnd as (_ & H1 & H2). apply NoDup_cons in H2 as [H2 _].
  split; [|done]. intros Hin. apply (H1 x Hin). set_solver.
Qed.

Lemma resized_gaps_before : gaps t' (0 :: L1 ++ [x]) = gaps t (0 :: L1 ++ [x]).
Proof using All.
  destruct resized_notin as [N1 _]. rewrite !gaps_snoc, (gaps_ext t t') by (by apply resized_same).
  f_equal. unfold gap. destruct (resized_fields x) as [-> _].
  rewrite (same_place_fin t t' (0 :: L1)); [done|by apply resized_same|apply last_elem].
Qed.

Lemma resized_netto : netto_size r1 = objects_size t' (L1 ++ x :: L2).
Proof using All.
  destruct resized_notin as [N1 N2]. simpl. rewrite (inv_netto _ _ _ HI). fold t.
  rewrite <- Permutation_middle, !objects_size_cons.
  rewrite (objects_size_ext t t'); [|intros y Hy; apply (resized_same [y]); set_solver].
  destruct (resized_fields x) as [_ ->]. rewrite decide_True by done. lia.
Qed.

Lemma resized_shrunk r' lo hi :
  table r' = t' -> map_size r' = map_size r -> mem_frame r r' lo hi ->
  (forall y, y ∈ L1 ++ x :: L2 -> fin t' y <= lo \/ hi <= off t' y) ->
  shrunk r r' (L1 ++ x :: L2) x n.
Proof using All.
  intros Et Em Hf Hout. constructor; rewrite ?Et.
  - intros y _. by destruct (resized_fields y).
  - intros y _. by destruct (resized_fields y).
  - intros y k Hy Hk. destruct (resized_fields y) as [Eo _]. rewrite Hf.
    + by rewrite Eo.
    + destruct (Hout y Hy) as [H1|H1]; [rewrite fin_eq in H1|]; lia.
  - split_and!; rewrite ?Et; try done. destruct (resized_fields 0) as [_ ->].
    rewrite decide_False; [done|]. destruct resized_notin as [N1 _]. set_solver.
Qed.

Lemma resized_last_spec : L2 = [] -> Inv r1 (L1 ++ x :: L2) fl /\ shrunk r r1 (L1 ++ x :: L2) x n.
Proof using All.
  intros E2. pose proof (inv_holes _ _ _ HI) as HH. pose proof (inv_fits _ _ _ HI) as Hfit. split.
  - constructor; simpl; [apply resized_TInv| |apply resized_netto|].
    + rewrite E2 in HH |- *. rewrite resized_gaps_before. by eapply (HInv_ext r).
    + rewrite E2, List.last_last in Hfit |- *. destruct (resized_fields x) as [Eo Es].
      rewrite decide_True in Es by done. rewrite fin_eq, Eo, Es. rewrite fin_eq in Hfit.
      fold t in Hfit, Hn. lia.
  - apply (resized_shrunk _ (map_size r) (map_size r)); try done. intros y Hy. left.
    destruct (inv_inside r _ fl y HI Hy) as [_ Hy2]. fold t in Hy2.
    destruct (resized_fields y) as [Eo Es]. rewrite fin_eq in Hy2 |- *. rewrite Eo, Es.
    case_decide; [subst y; fold t in Hn|]; lia.
Qed.

Lemma resized_middle_spec b B Q :
  L2 = b :: B ->
  (forall r', Inv r' (L1 ++ x :: L2) fl -> shrunk r r' (L1 ++ x :: L2) x n -> Q tt r') ->
  wp (AddHoleAfter x (off t x + n) (sz t x - n)) Q r1.
Proof using All.
  intros E2 HQ. pose proof (inv_table _ _ _ HI) as HT. fold t in HT.
  pose proof resized_TInv as HT'. destruct resized_notin as [N1 N2].
  assert (E : 0 :: L1 ++ x :: L2 = (0 :: L1) ++ x :: b :: B) by (by rewrite E2).
  destruct (resized_fields x) as [Eox Esx]. rewrite decide_True in Esx by done.
  destruct (resized_fields b) as [Eob _].
  assert (Fx : fin t' x = off t x + n) by (rewrite fin_eq, Eox, Esx; done).
  destruct (tinv_order _ _ _ _ _ _ HT) as [_ [Hxb|Hxb]]; [by rewrite E2 in Hxb|].
  rewrite E2 in Hxb. simpl in Hxb. rewrite fin_eq in Hxb.
  destruct (tinv_size _ _ _ _ HT x ltac:(set_solver)) as [_ Dx]. fold t in Hn.
  assert (Hmin : sizeof_Hole <= sz t x - n).
  { apply Z.divide_pos_le; [lia|]. by apply Z.divide_sub_r. }
  assert (Hb : b ∈ L1 ++ x :: L2) by (rewrite E2; set_solver).
  destruct (inv_inside r _ fl b HI Hb) as [_ Hfb]. fold t in Hfb.
  pose proof (tinv_sized HT b ltac:(set_solver)) as Sb. rewrite fin_eq in Hfb.
  assert (Hend : fin t' (List.last (L1 ++ x :: L2) 0) = fin t (List.last (L1 ++ x :: L2) 0)).
  { rewrite E2, last_app_cons. change (List.last (x :: b :: B) 0) with (List.last (b :: B) 0).
    rewrite last_cons_default. apply (same_place_fin t t' L2); [by apply resized_same|].
    rewrite E2. apply last_elem. }
  eapply (AddHoleAfter_spec r1 (L1 ++ x :: L2) fl [] (0 :: L1) x b B _ _ x x); simpl; try done; try lia.
  - eapply (HInv_ext r); [done|done|]. eapply HInv_perm; [|apply (inv_holes _ _ _ HI)]. fold t.
    rewrite E, gaps_app. unfold left_hole, right_hole, outside. rewrite Fx, Z.ltb_irrefl, Eob. simpl.
    rewrite resized_gaps_before, (gaps_ext t t' (b :: B)) by (apply resized_same; by rewrite <- E2).
    unfold gap. rewrite (fin_eq t x).
    replace (off t x + n + (sz t x - n)) with (off t x + sz t x) by lia.
    rewrite !app_assoc. f_equiv. apply Permutation_app_comm.
  - intros r' HH' (Et & En & Em & Hf). simpl in Et, En, Em, Hf. rewrite Fx, Eob in Hf. apply HQ.
    + constructor; rewrite ?Et; [done|done|rewrite En; apply resized_netto|].
      rewrite Em, Hend. apply HI.
    + apply (resized_shrunk _ (off t x + n) (off t b)); try done. intros y Hy.
      rewrite <- Fx, <- Eob. apply (gap_disjoint HT' E). set_solver.
Qed.

End Resize.

Lemma Shrink_spec r ids fl x n Q :
  Inv r ids fl -> x ∈ ids -> 0 < n <= sz (table r) x ->
  (forall r', Inv r' ids fl -> shrunk r r' ids x (align_size n) -> Q tt r') ->
  wp (Shrink x n) Q r.
Proof.
  intros HI Hx Hn HQ. apply list_elem_of_split in Hx as (L1 & L2 & ->).
  pose proof (inv_table _ _ _ HI) as HT. assert (Hx : x ∈ L1 ++ x :: L2) by set_solver.
  destruct (tinv_size _ _ _ _ HT x Hx) as [Sx Dx].
  destruct (align_size_facts n ltac:(lia)) as (A1 & A2 & A3 & A4).
  pose proof (align_size_le n (sz (table r) x) ltac:(lia) Dx) as A5.
  unfold Shrink. wp_step. eapply wp_accounting; [done|]. wp_step. wp_step; [bsolve|].
  wp_step. apply wp_read; [by apply (tinv_valid HT)|].
  wp_step. wp_step; [by apply (tinv_alloc _ _ _ _ HT)|]. wp_step. wp_step; [bsolve|].
  cbv zeta. change (size (entry (table r) x)) with (sz (table r) x).
  change (offset (entry (table r) x)) with (off (table r) x).
  destruct (Z.eqb_spec (align_size n) (sz (table r) x)) as [E|E].
  { wp_step. apply HQ; [done|]. constructor; [|done|done|by split_and!].
    intros y _. case_decide; [by subst|done]. }
  assert (Hn' : 0 < align_size n < sz (table r) x) by (unfold RUBBER_ALIGN in *; lia).
  wp_step. apply wp_on_table. unfold table_Shrink. wp_step.
  eapply table_GetSizeOf_spec; [done|done|]. wp_step. wp_step; [bsolve|]. wp_step.
  apply wp_write_entry; [by apply (tinv_valid HT)|]. wp_step. wp_step. wp_step. wp_step.
  destruct (tinv_neighbours _ _ _ _ _ _ HT) as (_ & En & _).
  change (next (entry (table r) x)) with (nx (table r) x). rewrite En. destruct L2 as [|b B]; simpl.
  - wp_step. destruct (resized_last_spec HI Hn' A2 eq_refl) as [HI1 HS].
    eapply wp_accounting; [exact HI1|]. by apply HQ.
  - pose proof (tinv_pos HT b ltac:(set_solver)). destruct (Z.eqb_spec b 0); [lia|]. simpl.
    apply (resized_middle_spec HI Hn' A2 b B); [done|]. intros r' HI' HS.
    eapply wp_accounting; [exact HI'|]. by apply HQ.
Qed.

(** ** [GetSizeOf()] and [Write()] *)

Lemma GetSizeOf_spec r ids fl x Q :
  Inv r ids fl -> x ∈ ids -> Q (sz (table r) x) r -> wp (GetSizeOf x) Q r.
Proof.
  intros HI Hx HQ. pose proof (inv_table _ _ _ HI) as HT. pose proof (tinv_pos HT x Hx).
  unfold GetSizeOf. wp_step. wp_step; [bsolve|]. apply wp_on_table.
  eapply table_GetSizeOf_spec; [done|done|]. by rewrite set_table_id.
Qed.

Lemma Write_spec r ids fl x Q :
  Inv r ids fl -> x ∈ ids -> Q (off (table r) x) r -> wp (Write x) Q r.
Proof.
  intros HI Hx HQ. pose proof (inv_table _ _ _ HI) as HT. pose proof (tinv_pos HT x Hx).
  destruct (inv_inside r ids fl x HI Hx) as [Hin1 Hin2].
  pose proof (tinv_sized HT x ltac:(set_solver)) as Sx. rewrite fin_eq in Hin2.
  pose proof (tinv_valid HT x Hx) as [_ Hv].
  assert (x < initialized_tail (table r)) by (apply (tinv_range HT); set_solver).
  apply list_elem_of_split in Hx as (L1 & L2 & ->).
  destruct (tinv_neighbours _ _ _ _ _ _ HT) as (Ep & En & _).
  destruct (tinv_order _ _ _ _ _ _ HT) as [Ho1 Ho2].
  pose proof (tinv_head_size _ _ _ _ HT). unfold sizeof_RubberTable, sizeof_RubberObject in *.
  assert (Hl : List.last L1 0 ∈ 0 :: L1 ++ x :: L2) by (pose proof (last_elem L1 0); set_solver).
  assert (Hh : List.hd 0 L2 ∈ 0 :: L1 ++ x :: L2) by (pose proof (hd_elem L2 0); set_solver).
  pose proof (tinv_sized HT _ Hl). rewrite fin_eq in Ho1.
  unfold Write. wp_step. apply wp_on_table. unfold GetOffsetOf. wp_step. wp_step. wp_step.
  eapply GetSize_spec; [done|]. wp_step. wp_step; [bsolve|].
  do 3 (wp_step; wp_step; [bsolve|]). wp_step. apply wp_read_entry; [unfold valid; lia|].
  do 2 (wp_step; wp_step; [bsolve|]). change (previous (entry (table r) x)) with (pv (table r) x).
  change (next (entry (table r) x)) with (nx (table r) x). rewrite Ep, En.
  wp_step. apply wp_read_entry; [by apply (tinv_valid' HT)|]. wp_step. wp_step; [bsolve|].
  wp_step. apply wp_read_entry; [by apply (tinv_valid' HT)|].
  do 2 (wp_step; wp_step;
    [bsolve; destruct Ho2 as [->|Ho2]; [by left|right];
     change (GetEndOffset (entry (table r) x)) with (fin (table r) x);
     change (offset (entry (table r) (hd 0 L2))) with (off (table r) (hd 0 L2));
     rewrite ?fin_eq in *; change (offset (entry (table r) x)) with (off (table r) x); lia|]).
  wp_step. rewrite set_table_id. wp_step. wp_step. wp_step. wp_step; [bsolve|].
  apply wp_at_offset; [|done]. change (offset (entry (table r) x)) with (off (table r) x). lia.
Qed.

End Remove.
