(* ===== verification/RubberSpec.v ===== *)
(** * The "rubber" allocator: abstract specification and refinement

    What the allocator promises to its clients (the HTTP cache and the filter
    cache, which keep their objects in it): it is a finite map from object
    ids to byte strings.  [Rep r m] relates an allocator to the map it
    implements, and the theorems show that each operation implements its
    abstract counterpart and fails no assertion, alone and in any sequence a
    client may run. *)

From S2P Require Import Prelude Rubber RubberLayout RubberHoles RubberFacts RubberOps RubberAdd.

#[local] Open Scope beng_scope.

(** ** The abstract state *)

Definition object_bytes (r : Rubber) (id : Z) : list Z :=
  map (fun k => mem r (off (table r) id + Z.of_nat k)) (seq 0 (Z.to_nat (sz (table r) id))).

(** The allocator [r] holds the objects [m]. *)
Definition Rep (r : Rubber) (m : gmap Z (list Z)) : Prop :=
  exists ids fl, Inv r ids fl /\
    forall id, m !! id = if decide (id ∈ ids) then Some (object_bytes r id) else None.

(** The objects [ids] follow each other in the map of [r], in this order. *)
Definition layout (r : Rubber) (ids : list Z) : Prop := exists fl, Inv r ids fl.

(** The sum of the sizes of the objects, and the memory they may use. *)
Definition total (m : gmap Z (list Z)) : Z :=
  map_fold (fun _ b n => Z.of_nat (length b) + n) 0 m.

Definition lengths (m : gmap Z (list Z)) : gmap Z Z := (fun b => Z.of_nat (length b)) <$> m.

(** What a client may ask for. *)
Inductive rop :=
| OAdd (size : Z)
| ORemove (id : Z)
| OShrink (id new_size : Z)
| OCompress
| OGetSizeOf (id : Z)
| OStore (id k v : Z).

(** Storing the byte [v] at position [k] of the memory that [Write()] returned. *)
Definition Store (id k v : Z) : M Rubber unit :=
  let! p := Write id in
  mmod (fun r => set_mem (fun a => if a =? p + k then v else mem r a) r).

Section Spec.
Context `{RubberEnvOk}.

Definition run_op (op : rop) : M Rubber Z :=
  match op with
  | OAdd size => Add size
  | ORemove id => Remove id ;;; mret 0
  | OShrink id new_size => Shrink id new_size ;;; mret 0
  | OCompress => Compress ;;; mret 0
  | OGetSizeOf id => GetSizeOf id
  | OStore id k v => Store id k v ;;; mret 0
  end.

(** The preconditions of the operations, on the sizes of the live objects. *)
Definition legal (live : gmap Z Z) (op : rop) : Prop :=
  match op with
  | OAdd size => 0 < size
  | ORemove id => is_Some (live !! id)
  | OShrink id n => exists s, live !! id = Some s /\ 0 < n <= s
  | OCompress => True
  | OGetSizeOf id => is_Some (live !! id)
  | OStore id k v => exists s, live !! id = Some s /\ 0 <= k < s
  end.

(** The abstract operations; [limit] and [slots] are the number of bytes and of
    objects that fit. *)
Inductive astep (limit slots : Z) (m : gmap Z (list Z)) : rop -> Z -> gmap Z (list Z) -> Prop :=
| AAdd size id b :
    0 < id -> m !! id = None -> Z.of_nat (length b) = align_size size ->
    total m + align_size size <= limit -> Z.of_nat (base.size m) < slots ->
    astep limit slots m (OAdd size) id (<[id := b]> m)
| AFull size :
    limit < total m + align_size size \/ slots <= Z.of_nat (base.size m) ->
    astep limit slots m (OAdd size) 0 m
| ARemove id : astep limit slots m (ORemove id) 0 (delete id m)
| AShrink id n b :
    m !! id = Some b ->
    astep limit slots m (OShrink id n) 0 (<[id := take (Z.to_nat (align_size n)) b]> m)
| ACompress : astep limit slots m OCompress 0 m
| AGetSizeOf id b :
    m !! id = Some b -> astep limit slots m (OGetSizeOf id) (Z.of_nat (length b)) m
| AStore id k v b :
    m !! id = Some b -> astep limit slots m (OStore id k v) 0 (<[id := <[Z.to_nat k := v]> b]> m).

(** ** From lists of ids to maps *)

Lemma map_of_ids (m : gmap Z (list Z)) (ids : list Z) (f : Z -> list Z) :
  NoDup ids -> (forall id, m !! id = if decide (id ∈ ids) then Some (f id) else None) ->
  total m = sum_Z (map (fun id => Z.of_nat (length (f id))) ids) /\
  base.size m = length ids.
Proof.
  revert m. induction ids as [|x ids IH]; intros m Hnd Hm.
  - assert (m = ∅) as ->; [|done]. apply map_eq. intros id. rewrite Hm, lookup_empty.
    by case_decide; [set_solver|].
  - apply NoDup_cons in Hnd as [Hx Hnd].
    assert (Ex : m !! x = Some (f x)) by (rewrite Hm; case_decide; [done|set_solver]).
    rewrite <- (insert_delete_id m x (f x)) by done.
    destruct (IH (delete x m) Hnd) as [E1 E2].
    { intros id. destruct (decide (id = x)) as [->|Hne].
      - rewrite lookup_delete_eq. by case_decide.
      - rewrite lookup_delete_ne, Hm by done.
        destruct (decide (id ∈ ids)), (decide (id ∈ x :: ids)); set_solver. }
    split.
    + unfold total. rewrite map_fold_insert_L; [|intros; lia|apply lookup_delete_eq].
      fold (total (delete x m)). rewrite E1. done.
    + rewrite map_size_insert_None by apply lookup_delete_eq. by rewrite E2.
Qed.

Lemma length_object_bytes r id : 0 <= sz (table r) id ->
  Z.of_nat (length (object_bytes r id)) = sz (table r) id.
Proof. intros Hs. unfold object_bytes. rewrite length_map, length_seq. lia. Qed.

Lemma object_bytes_ext r r' id :
  sz (table r') id = sz (table r) id ->
  (forall k, 0 <= k < sz (table r) id ->
     mem r' (off (table r') id + k) = mem r (off (table r) id + k)) ->
  object_bytes r' id = object_bytes r id.
Proof.
  intros E Hm. unfold object_bytes. rewrite E. apply map_ext_in. intros k Hk%in_seq.
  apply Hm. lia.
Qed.

Lemma keeps_bytes r r' ids id : keeps r r' ids -> id ∈ ids -> object_bytes r' id = object_bytes r id.
Proof. intros Hk Hid. destruct (Hk id Hid). by apply object_bytes_ext. Qed.

(** The limits of an allocator. *)
Definition limit (r : Rubber) : Z := map_size r - sz (table r) 0.
Definition slots (r : Rubber) : Z := max_entries (table r) - 1.

Lemma inv_NoDup r ids fl : Inv r ids fl -> NoDup ids.
Proof.
  intros HI. pose proof (tinv_NoDup (inv_table _ _ _ HI)) as Hnd.
  by apply NoDup_app in Hnd as (Hnd & _).
Qed.

Lemma rep_length {r ids fl} id : Inv r ids fl -> id ∈ ids ->
  Z.of_nat (length (object_bytes r id)) = sz (table r) id.
Proof.
  intros HI Hid. apply length_object_bytes.
  pose proof (tinv_sized (inv_table _ _ _ HI) id ltac:(set_solver)). lia.
Qed.

Section RepFacts.
Context {r : Rubber} {m : gmap Z (list Z)} {ids fl : list Z} (HI : Inv r ids fl)
  (Hm : forall id, m !! id = if decide (id ∈ ids) then Some (object_bytes r id) else None).

Lemma rep_total : total m = netto_size r.
Proof using All.
  destruct (map_of_ids m ids (object_bytes r) (inv_NoDup _ _ _ HI) Hm) as [-> _].
  rewrite (inv_netto _ _ _ HI). unfold objects_size. f_equal. apply map_ext_in.
  intros id Hid%list_elem_of_In. by apply (rep_length id HI).
Qed.

Lemma rep_size : Z.of_nat (base.size m) = Z.of_nat (length ids).
Proof using All. by destruct (map_of_ids m ids (object_bytes r) (inv_NoDup _ _ _ HI) Hm) as [_ ->]. Qed.

Lemma rep_lookup id b : m !! id = Some b -> id ∈ ids /\ b = object_bytes r id.
Proof using All. rewrite Hm. case_decide; [by intros [= <-]|done]. Qed.

Lemma rep_live id s : lengths m !! id = Some s -> id ∈ ids /\ s = sz (table r) id.
Proof using All.
  unfold lengths. rewrite lookup_fmap. destruct (m !! id) as [b|] eqn:E; [|done].
  apply rep_lookup in E as [Hid ->]. intros [= <-]. by rewrite (rep_length id HI).
Qed.

End RepFacts.

(** ** Refinement, operation by operation *)

Definition implements (op : rop) : Prop :=
  forall r m, Rep r m -> legal (lengths m) op ->
  wp (run_op op)
     (fun res r' => exists m', astep (limit r) (slots r) m op res m' /\ Rep r' m' /\
                               same_config r r') r.

Lemma rep_moved r r' m ids ids' fl fl' :
  Inv r ids fl -> (forall id, m !! id = if decide (id ∈ ids) then Some (object_bytes r id) else None) ->
  Inv r' ids' fl' -> moved r r' ids ids' -> Rep r' m.
Proof.
  intros HI Hm HI' [E K _]. exists ids', fl'. split; [done|]. intros id. rewrite Hm.
  destruct (decide (id ∈ ids)) as [Hin|Hin], (decide (id ∈ ids')) as [Hin'|Hin']; try done.
  - f_equal. symmetry. by eapply keeps_bytes.
  - by rewrite E in Hin'.
  - by rewrite E in Hin'.
Qed.

Lemma rep_added r r' m ids ids' fl' id s :
  (forall id, m !! id = if decide (id ∈ ids) then Some (object_bytes r id) else None) ->
  Inv r' ids' fl' -> added r r' ids ids' id s -> Rep r' (<[id := object_bytes r' id]> m).
Proof.
  intros Hm HI' [P N I S K C]. exists ids', fl'. split; [done|]. intros y.
  destruct (decide (y = id)) as [->|Hne].
  - rewrite lookup_insert_eq, decide_True; [done|]. rewrite I. set_solver.
  - rewrite lookup_insert_ne, Hm by done.
    destruct (decide (y ∈ ids)) as [Hin|Hin], (decide (y ∈ ids')) as [Hin'|Hin']; try done.
    + f_equal. symmetry. by eapply keeps_bytes.
    + rewrite I in Hin'. set_solver.
    + rewrite I in Hin'. set_solver.
Qed.

Lemma Add_implements size : implements (OAdd size).
Proof.
  intros r m (ids & fl & HI & Hm) Hs. simpl in *.
  eapply Add_spec; [done|done| |].
  - intros r' ids' HI' M Hwhy. exists m. split_and!; [|by apply (rep_moved r r' m ids ids' fl fl)|apply M].
    apply AFull. unfold limit, slots. rewrite (rep_total HI Hm), (rep_size HI Hm).
    destruct Hwhy as [Hn|Hf]; [left|right]; [unfold no_room in Hn|unfold table_full in Hf]; lia.
  - intros id r' ids' fl' HI' Ha. eexists. split_and!; [|by eapply (rep_added r r' m ids)|apply Ha].
    pose proof (inv_table _ _ _ HI') as HT'. destruct Ha as [P N I S K (C1 & C2 & C3)].
    pose proof (tinv_length HT') as Hl. pose proof (tinv_tail _ _ _ _ HT') as Ht.
    rewrite I in Hl. simpl in Hl. pose proof (inv_brutto _ _ _ HI') as Eb.
    pose proof (gaps_sum_nonneg (table r') (0 :: ids')) as [Hg _].
    pose proof (inv_fits _ _ _ HI') as Hf.
    assert (En : netto_size r' = netto_size r + align_size size).
    { rewrite (inv_netto _ _ _ HI'), (inv_netto _ _ _ HI), I, objects_size_cons, S.
      rewrite (objects_size_ext (table r) (table r')); [lia|]. intros x Hx. by apply K. }
    apply AAdd; unfold limit, slots.
    + done.
    + rewrite Hm. by rewrite decide_False.
    + rewrite (rep_length id HI'); [done|]. rewrite I. set_solver.
    + rewrite (rep_total HI Hm). lia.
    + rewrite (rep_size HI Hm). lia.
Qed.

Lemma Remove_implements id : implements (ORemove id).
Proof.
  intros r m (ids & fl & HI & Hm) [s Hs]. apply (rep_live HI Hm) in Hs as [Hid _]. simpl.
  wp_step. eapply Remove_spec; [done|done|]. intros r' ids' HI' [E K C]. wp_step.
  exists (delete id m). split_and!; [constructor| |done]. exists ids', (id :: fl). split; [done|].
  pose proof (inv_NoDup _ _ _ HI) as Hnd. rewrite E in Hnd. apply NoDup_cons in Hnd as [Hni _].
  intros y. destruct (decide (y = id)) as [->|Hne].
  - by rewrite lookup_delete_eq, decide_False.
  - rewrite lookup_delete_ne, Hm by done.
    destruct (decide (y ∈ ids)) as [Hin|Hin], (decide (y ∈ ids')) as [Hin'|Hin']; try done.
    + f_equal. symmetry. by eapply keeps_bytes.
    + rewrite E in Hin. set_solver.
    + rewrite E in Hin. set_solver.
Qed.

Lemma Compress_implements : implements OCompress.
Proof.
  intros r m (ids & fl & HI & Hm) _. simpl. wp_step. eapply Compress_spec; [done|].
  intros r' HI' M _. wp_step. exists m. split_and!; [constructor| |apply M].
  by apply (rep_moved r r' m ids ids fl fl).
Qed.

Lemma GetSizeOf_implements id : implements (OGetSizeOf id).
Proof.
  intros r m (ids & fl & HI & Hm) [s Hs]. apply (rep_live HI Hm) in Hs as [Hid _]. simpl.
  eapply GetSizeOf_spec; [done|done|]. exists m. split_and!; [|by exists ids, fl|done..].
  rewrite <- (rep_length id HI Hid). constructor. by rewrite Hm, decide_True.
Qed.

Lemma take_map_seq {A} (f : nat -> A) n k : (n <= k)%nat -> take n (map f (seq 0 k)) = map f (seq 0 n).
Proof.
  intros Hn. rewrite firstn_map. f_equal. rewrite take_seq. f_equal. lia.
Qed.

Lemma Shrink_implements id n : implements (OShrink id n).
Proof.
  intros r m (ids & fl & HI & Hm) (s & Hs & Hn). apply (rep_live HI Hm) in Hs as [Hid ->]. simpl.
  pose proof (inv_table _ _ _ HI) as HT. destruct (tinv_size _ _ _ _ HT id Hid) as [_ Hd].
  pose proof (align_size_le n (sz (table r) id) Hn Hd) as Hle.
  wp_step. eapply Shrink_spec; [done|done|done|]. intros r' HI' [E1 E2 E3 E4]. wp_step.
  eexists. split_and!; [constructor; by rewrite Hm, decide_True| |done].
  exists ids, fl. split; [done|]. intros y. specialize (E1 y). specialize (E2 y). specialize (E3 y).
  destruct (decide (y = id)) as [->|Hne].
  - rewrite lookup_insert_eq, decide_True by done. f_equal. unfold object_bytes. rewrite E1 by done.
    rewrite take_map_seq by lia. apply map_ext_in. intros k Hk%in_seq. symmetry. apply E3; [done|].
    rewrite E1 by done. lia.
  - rewrite lookup_insert_ne, Hm by done. destruct (decide (y ∈ ids)); [|done]. f_equal.
    specialize (E1 ltac:(done)). symmetry. apply object_bytes_ext; [done|]. intros k Hk.
    apply E3; [done|]. by rewrite E1.
Qed.

Lemma inv_disjoint r ids fl x y :
  Inv r ids fl -> x ∈ ids -> y ∈ ids -> x <> y ->
  fin (table r) x <= off (table r) y \/ fin (table r) y <= off (table r) x.
Proof.
  intros HI Hx Hy Hne. pose proof (inv_table _ _ _ HI) as HT.
  apply list_elem_of_split in Hx as (L1 & L2 & ->).
  destruct (tinv_around HT) as [H1 H2]. destruct (tinv_order _ _ _ _ _ _ HT) as [H3 _].
  assert (y ∈ L1 \/ y ∈ L2) as [Hin|Hin] by set_solver; [right|left]; [|by apply H2].
  specialize (H1 y Hin). lia.
Qed.

Lemma Store_implements id k v : implements (OStore id k v).
Proof.
  intros r m (ids & fl & HI & Hm) (s & Hs & Hk). apply (rep_live HI Hm) in Hs as [Hid ->]. simpl.
  wp_step. unfold Store. wp_step. eapply Write_spec; [done|done|]. apply wp_mod. wp_step.
  eexists. split_and!; [constructor; by rewrite Hm, decide_True| |done].
  exists ids, fl. split; [by apply Inv_mem|]. intros y. unfold object_bytes. simpl.
  destruct (decide (y = id)) as [->|Hne].
  - rewrite lookup_insert_eq, decide_True by done. f_equal.
    apply list_eq. intros i. destruct (decide (i = Z.to_nat k)) as [->|Hi].
    + rewrite list_lookup_insert_eq by (rewrite length_map, length_seq; lia).
      rewrite list_lookup_fmap, lookup_seq_lt by lia. simpl. 
      destruct (Z.eqb_spec (off (table r) id + Z.of_nat (Z.to_nat k)) (off (table r) id + k)); [done|lia].
    + rewrite list_lookup_insert_ne by done. rewrite !list_lookup_fmap.
      destruct (seq 0 (Z.to_nat (sz (table r) id)) !! i) as [j|] eqn:Ej; simpl; [|done].
      apply lookup_seq in Ej as [-> Hj]. simpl.
      destruct (Z.eqb_spec (off (table r) id + Z.of_nat i) (off (table r) id + k)); [lia|done].
  - rewrite lookup_insert_ne, Hm by done. destruct (decide (y ∈ ids)) as [Hy|]; [|done].
    f_equal. apply map_ext_in. intros j Hj%in_seq.
    pose proof (inv_disjoint r ids fl id y HI Hid Hy ltac:(done)) as Hd. rewrite !fin_eq in Hd.
    destruct (Z.eqb_spec (off (table r) y + Z.of_nat j) (off (table r) id + k)); [lia|done].
Qed.

Lemma implements_all op : implements op.
Proof.
  destruct op; [apply Add_implements|apply Remove_implements|apply Shrink_implements
    |apply Compress_implements|apply GetSizeOf_implements|apply Store_implements].
Qed.

(** ** The initial state *)

(** The size of the map, which has to be addressable with the [unsigned]
    numbers of table entries. *)
Definition fits (max : Z) : Prop :=
  0 < max /\ HUGE_PAGE_SIZE + AlignHugePageUp max <= 2 ^ 37.

Lemma Rubber_new_Inv base max m : fits max ->
  exists r, Rubber_new base max m = Some r /\ Inv r [] [].
Proof.
  intros [Hmax Hlim]. unfold Rubber_new. cbv zeta. set (map := HUGE_PAGE_SIZE + AlignHugePageUp max) in *.
  pose proof huge_page_size_ge as HH. pose proof (align_huge_page_ge max) as Hge.
  assert (HA : HUGE_PAGE_SIZE <= AlignHugePageUp max).
  { apply Z.divide_pos_le; [lia|]. apply align_huge_page_multiple. }
  set (n := map / 1024). assert (Hn : 2 <= n) by (apply Z.div_le_lower_bound; lia).
  assert (Hn2 : 1024 * n <= map) by (apply Z.mul_div_le; lia).
  rewrite wrap_id by lia. unfold RubberTable_new. cbv zeta.
  pose proof (align_huge_page_ge (base + RequiredSize n)) as H1.
  pose proof (align_huge_page_lt (base + RequiredSize n)) as H2.
  set (ts := AlignHugePageUp (base + RequiredSize n) - base).
  assert (Hts : sizeof_RubberTable <= ts <= map).
  { unfold ts. unfold RequiredSize, sizeof_RubberTable, sizeof_RubberObject in *. lia. }
  assert (Hcap : 1 <= Capacity ts).
  { unfold Capacity, sizeof_RubberTable, sizeof_RubberObject in *.
    assert (0 <= (ts - (16 + 32)) / 32 < 2 ^ 32 - 1).
    { split; [apply Z.div_pos; lia|apply Z.div_lt_upper_bound; lia]. }
    rewrite wrap_id by lia. lia. }
  destruct (Z.ltb_spec 1 n); [|lia]. destruct (Z.leb_spec sizeof_RubberTable ts); [|lia]. simpl.
  eexists. split; [done|]. constructor; simpl.
  - constructor; simpl; try done; try set_solver; lia.
  - constructor; simpl; try done; [constructor|set_solver|].
    intros i l o Hl Ho. apply (list_elem_of_lookup_2) in Hl. exfalso.
    repeat (apply elem_of_cons in Hl as [->|Hl]; [set_solver|]). set_solver.
  - done.
  - unfold fin, entry. simpl. rewrite lookup_singleton_eq. unfold GetEndOffset. simpl. lia.
Qed.

Lemma Rubber_new_Rep base max m : fits max -> exists r, Rubber_new base max m = Some r /\ Rep r ∅.
Proof.
  intros Hmax. destruct (Rubber_new_Inv base max m Hmax) as (r & E & HI).
  exists r. split; [done|]. exists [], []. split; [done|]. intros id.
  by rewrite lookup_empty, decide_False by set_solver.
Qed.

(** ** What a client can reach *)

(** The sizes of the live objects after an operation that returned [res]. *)
Definition live_after (live : gmap Z Z) (op : rop) (res : Z) : gmap Z Z :=
  match op with
  | OAdd size => if res =? 0 then live else <[res := align_size size]> live
  | ORemove id => delete id live
  | OShrink id n => <[id := align_size n]> live
  | _ => live
  end.

Inductive reach (base max : Z) (m0 : Z -> Z) : Rubber -> gmap Z Z -> Prop :=
| reach_new r : Rubber_new base max m0 = Some r -> reach base max m0 r ∅
| reach_step r live op res r' :
    reach base max m0 r live -> legal live op -> run_op op r = Some (res, r') ->
    reach base max m0 r' (live_after live op res).

Lemma lengths_step r m op res m' :
  (forall id b, m !! id = Some b -> (RUBBER_ALIGN | Z.of_nat (length b))) ->
  legal (lengths m) op ->
  astep (limit r) (slots r) m op res m' -> lengths m' = live_after (lengths m) op res.
Proof.
  intros Hal Hleg Hs. unfold lengths. destruct Hs; simpl.
  - destruct (Z.eqb_spec id 0); [lia|]. rewrite fmap_insert. congruence.
  - done.
  - apply fmap_delete.
  - rewrite fmap_insert. f_equal. destruct Hleg as (s & Hs & Hn). unfold lengths in Hs.
    rewrite lookup_fmap, H1 in Hs. injection Hs as <-.
    pose proof (align_size_le n _ Hn (Hal id b H1)). destruct (align_size_facts n ltac:(lia)) as (A1 & _).
    rewrite length_take. unfold RUBBER_ALIGN in *. lia.
  - done.
  - done.
  - rewrite fmap_insert, length_insert, insert_id; [done|]. by rewrite lookup_fmap, H1.
Qed.

Lemma rep_aligned r m : Rep r m -> forall id b, m !! id = Some b -> (RUBBER_ALIGN | Z.of_nat (length b)).
Proof.
  intros (ids & fl & HI & Hm) id b Hb. apply (rep_lookup HI Hm) in Hb as [Hid ->].
  rewrite (rep_length id HI Hid). by apply (tinv_size _ _ _ _ (inv_table _ _ _ HI)).
Qed.

Lemma reach_Rep base max m0 r live :
  fits max -> reach base max m0 r live -> exists m, Rep r m /\ lengths m = live.
Proof.
  intros Hmax. induction 1 as [r E|r live op res r' Hr (m & HR & <-) Hl E].
  - destruct (Rubber_new_Rep base max m0 Hmax) as (r' & E' & HR). exists ∅.
    rewrite E in E'. by injection E' as ->.
  - destruct (implements_all op r m HR Hl) as (res2 & r2 & E2 & m' & Hs & HR' & _).
    rewrite E in E2. injection E2 as <- <-. exists m'. split; [done|].
    eapply lengths_step; [by apply (rep_aligned r)|done|done].
Qed.

(** ** The theorems *)

(** C2: Refinement: run on an allocator that holds the objects [m], an
    operation whose precondition holds fails none of the assertions, ends,
    and has the result and the effect on the objects that the abstract
    allocator allows; in particular, an object keeps its bytes while others
    are added, removed and moved.  [Add()] returns 0 exactly when the object
    does not fit in the memory or the table. *)
Theorem rubber_refines r m op :
  Rep r m -> legal (lengths m) op ->
  exists res r' m', run_op op r = Some (res, r') /\
    astep (limit r) (slots r) m op res m' /\ Rep r' m' /\ same_config r r'.
Proof.
  intros HR Hl. destruct (implements_all op r m HR Hl) as (res & r' & E & m' & H1 & H2 & H3).
  by exists res, r', m'.
Qed.

(** Safety: no client that only passes ids of live objects and sizes in
    range can make the allocator fail an assertion, whatever it did before. *)
Theorem rubber_safe base max m0 r live op :
  fits max -> reach base max m0 r live -> legal live op -> is_Some (run_op op r).
Proof.
  intros Hmax Hr Hl. destruct (reach_Rep base max m0 r live Hmax Hr) as (m & HR & <-).
  destruct (implements_all op r m HR Hl) as (res & r' & E & _). rewrite E. by eexists.
Qed.

(** The pointer that [Write()] returns for a live object is aligned and
    inside of the map, after the table; [GetSizeOf()] returns the size the
    client asked for, rounded up; and the memory of two objects is disjoint. *)
Theorem rubber_objects_disjoint base max m0 r live x s :
  fits max -> reach base max m0 r live -> live !! x = Some s ->
  exists p, Write x r = Some (p, r) /\ GetSizeOf x r = Some (s, r) /\
    sz (table r) 0 <= p /\ p + s <= map_size r /\ (RUBBER_ALIGN | p - sz (table r) 0) /\
    forall y s' q, y <> x -> live !! y = Some s' -> Write y r = Some (q, r) ->
      p + s <= q \/ q + s' <= p.
Proof.
  intros Hmax Hr Hx. destruct (reach_Rep base max m0 r live Hmax Hr) as (m & (ids & fl & HI & Hm) & <-).
  assert (Hw : forall y, y ∈ ids -> Write y r = Some (off (table r) y, r)).
  { intros y Hy. destruct (Write_spec r ids fl y (fun p r' => p = off (table r) y /\ r' = r) HI Hy)
      as (p & r' & E & -> & ->); [done|done]. }
  apply (rep_live HI Hm) in Hx as [Hx ->]. exists (off (table r) x).
  destruct (inv_inside r ids fl x HI Hx) as [H1 H2]. split_and!; try done.
  - by apply Hw.
  - destruct (GetSizeOf_spec r ids fl x (fun p r' => p = sz (table r) x /\ r' = r) HI Hx)
      as (p & r' & E & -> & ->); [done|done].
  - by apply (tinv_offset _ _ _ _ (inv_table _ _ _ HI)).
  - intros y s' q Hne Hy Hq. apply (rep_live HI Hm) in Hy as [Hy ->].
    rewrite (Hw y Hy) in Hq. injection Hq as <-.
    pose proof (inv_disjoint r ids fl x y HI Hx Hy ltac:(done)) as Hd. by rewrite !fin_eq in Hd.
Qed.

(** [Compress()] leaves no hole: afterwards the memory in use is exactly
    the memory of the objects, whose bytes are kept. *)
Theorem rubber_compress r m :
  Rep r m ->
  exists r', Compress r = Some (tt, r') /\ Rep r' m /\
    GetTotalHoleSize r' = 0 /\ GetBruttoSize r' = Some (total m, r').
Proof.
  intros (ids & fl & HI & Hm).
  destruct (Compress_spec r ids fl (fun _ r' => Rep r' m /\ GetTotalHoleSize r' = 0 /\
    GetBruttoSize r' = Some (total m, r')) HI) as ([] & r' & E & HQ).
  - intros r' HI' M G. pose proof (inv_brutto r' ids fl HI') as Eb. rewrite G in Eb. simpl in Eb.
    split_and!.
    + by apply (rep_moved r r' m ids ids fl fl).
    + rewrite (total_holes _ _ (inv_holes _ _ _ HI')), G. done.
    + destruct (wp_brutto r' ids fl (fun n r2 => n = netto_size r' /\ r2 = r') HI') as (n & r2 & E & -> & ->).
      { split; [lia|done]. }
      by rewrite E, (rep_total HI Hm), (moved_netto r r' ids ids fl fl HI HI' M).
  - by exists r'.
Qed.

(** [FindHole()] returns a hole between two objects that is large
    enough, and none only if no gap between objects is large enough. *)
Theorem FindHole_complete r ids size :
  layout r ids -> RUBBER_ALIGN <= size ->
  exists res, FindHole size r = Some (res, r) /\
    match res with
    | Some h => (h, the_hole r h) ∈ gaps (table r) (0 :: ids) /\ size <= hole_size (the_hole r h)
    | None => forall p, p ∈ gaps (table r) (0 :: ids) -> hole_size p.2 < size
    end.
Proof.
  intros [fl HI] Hs. pose proof (inv_holes _ _ _ HI) as HH.
  destruct (FindHole_spec r size _ (fun res r' => r' = r /\
    match res with
    | Some h => (h, the_hole r h) ∈ gaps (table r) (0 :: ids) /\ size <= hole_size (the_hole r h)
    | None => forall p, p ∈ gaps (table r) (0 :: ids) -> hole_size p.2 < size
    end) HH Hs) as (res & r' & E & -> & Hres); [done|done|].
  by exists res.
Qed.

(** When a client has removed all of its objects, the assertions of the
    destructor hold: nothing was leaked or counted wrongly. *)
Theorem rubber_delete_ok base max m0 r :
  fits max -> reach base max m0 r ∅ -> Rubber_delete r = Some (tt, r).
Proof.
  intros Hmax Hr. destruct (reach_Rep base max m0 r ∅ Hmax Hr) as (m & (ids & fl & HI & Hm) & Hl).
  assert (ids = []) as ->.
  { destruct ids as [|x ids]; [done|]. specialize (Hm x). rewrite decide_True in Hm by set_solver.
    assert (lengths m !! x = None) as E by (by rewrite Hl). unfold lengths in E.
    by rewrite lookup_fmap, Hm in E. }
  pose proof (inv_table _ _ _ HI) as HT. pose proof (inv_netto _ _ _ HI) as En.
  pose proof (tinv_last HT) as E1. pose proof (tinv_nx_last HT) as E2. simpl in E1, E2.
  destruct (fun Q => wp_mono Rubber_delete (fun _ r' => r' = r) Q r) with (Q := fun (_ : unit) r' => r' = r)
    as ([] & r' & E & ->); [|done|done].
  unfold Rubber_delete. wp_step. apply wp_on_table. unfold IsEmpty. wp_step.
  apply wp_read_entry; [apply (tinv_valid0 HT)|]. wp_step. rewrite set_table_id.
  wp_step. wp_step; [bsolve|]. wp_step. wp_step. wp_step. wp_step; [bsolve|].
  wp_step. apply wp_read; [apply (tinv_valid0 HT)|].
  do 2 (wp_step; wp_step; [bsolve|]). wp_step; [|done]. apply (tinv_head_alloc _ _ _ _ HT).
Qed.

End Spec.

(** ** A concrete environment *)

(** Linux on x86-64: "huge pages" of 2 MB. *)
#[global] Instance LinuxRubberEnv : RubberEnv := {
  HUGE_PAGE_SIZE := 2097152;
  AlignHugePageUp x := (x + 2097151) / 2097152 * 2097152;
  RoundUpToPowerOfTwo x p := (x + p - 1) / p * p;
  hole_byte _ _ := 255;
  discarded_byte _ := 0;
}.

#[global] Instance LinuxRubberEnvOk : RubberEnvOk.
Proof.
  constructor; unfold HUGE_PAGE_SIZE, AlignHugePageUp, RoundUpToPowerOfTwo, RUBBER_ALIGN; simpl.
  - lia.
  - intros x. by exists ((x + 2097151) / 2097152).
  - intros x. pose proof (Z.div_mod (x + 2097151) 2097152 ltac:(lia)).
    pose proof (Z.mod_pos_bound (x + 2097151) 2097152 ltac:(lia)). lia.
  - intros x. pose proof (Z.div_mod (x + 2097151) 2097152 ltac:(lia)).
    pose proof (Z.mod_pos_bound (x + 2097151) 2097152 ltac:(lia)). lia.
  - intros x Hx. pose proof (Z.div_mod (x + 32 - 1) 32 ltac:(lia)).
    pose proof (Z.mod_pos_bound (x + 32 - 1) 32 ltac:(lia)). lia.
  - intros x Hx. pose proof (Z.div_mod (x + 32 - 1) 32 ltac:(lia)).
    pose proof (Z.mod_pos_bound (x + 32 - 1) 32 ltac:(lia)). lia.
  - intros x Hx. by exists ((x + 32 - 1) / 32).
Qed.

Definition empty_rubber : Rubber :=
  match Rubber_new 0 4194304 (fun _ => 0) with
  | Some r => r
  | None => mk_rubber 0 0 (mk_table 0 0 0 ∅) [] ∅ (fun _ => 0)
  end.

Lemma empty_rubber_new : Rubber_new 0 4194304 (fun _ => 0) = Some empty_rubber.
Proof. by vm_compute. Qed.

Lemma four_megabytes : fits 4194304.
Proof. split; [lia|by vm_compute]. Qed.

Lemma empty_rubber_Rep : Rep empty_rubber ∅.
Proof.
  destruct (Rubber_new_Rep 0 4194304 (fun _ => 0) four_megabytes) as (r & E & HR).
  rewrite empty_rubber_new in E. by injection E as ->.
Qed.

Lemma rubber_refines_witness :
  legal (lengths ∅) (OAdd 1000) /\
  exists res r' m', run_op (OAdd 1000) empty_rubber = Some (res, r') /\
    astep (limit empty_rubber) (slots empty_rubber) ∅ (OAdd 1000) res m' /\ Rep r' m' /\
    same_config empty_rubber r'.
Proof.
  split; [done|]. apply (rubber_refines empty_rubber ∅ (OAdd 1000)); [|done].
  apply empty_rubber_Rep.
Defined.

(** The state and the result after an operation. *)
Definition after (op : rop) (r : Rubber) : Rubber :=
  match run_op op r with Some (_, r') => r' | None => r end.

Definition result (op : rop) (r : Rubber) : Z :=
  match run_op op r with Some (res, _) => res | None => -1 end.

Lemma run_after op r : (0 <=? result op r) = true -> run_op op r = Some (result op r, after op r).
Proof. unfold result, after. by destruct (run_op op r) as [[res r']|]. Qed.

(** Two objects, the first of which is removed again. *)
Definition one_object : Rubber := after (OAdd 1000) empty_rubber.
Definition two_objects : Rubber := after (OAdd 5000) one_object.
Definition with_hole : Rubber := after (ORemove 1) two_objects.

Lemma reach_two : reach 0 4194304 (fun _ => 0) two_objects {[1 := 1024; 2 := 5024]}.
Proof.
  assert (H1 : reach 0 4194304 (fun _ => 0) one_object {[1 := 1024]}).
  { replace {[1 := 1024]} with (live_after ∅ (OAdd 1000) 1) by (by vm_compute).
    apply (reach_step 0 4194304 (fun _ => 0) empty_rubber ∅ (OAdd 1000) 1); [apply reach_new, empty_rubber_new|done|].
    apply (run_after (OAdd 1000) empty_rubber); by vm_compute. }
  replace {[1 := 1024; 2 := 5024]} with (live_after {[1 := 1024]} (OAdd 5000) 2) by (by vm_compute).
  apply (reach_step 0 4194304 (fun _ => 0) one_object _ (OAdd 5000) 2); [done|done|].
  apply (run_after (OAdd 5000) one_object); by vm_compute.
Qed.

Lemma reach_hole : reach 0 4194304 (fun _ => 0) with_hole {[2 := 5024]}.
Proof.
  replace {[2 := 5024]} with (live_after {[1 := 1024; 2 := 5024]} (ORemove 1) 0) by (by vm_compute).
  apply (reach_step 0 4194304 (fun _ => 0) two_objects _ (ORemove 1) 0); [apply reach_two|by eexists|].
  apply (run_after (ORemove 1) two_objects); by vm_compute.
Qed.

Lemma rubber_safe_witness : is_Some (run_op (OShrink 2 100) with_hole).
Proof.
  apply (rubber_safe 0 4194304 (fun _ => 0) with_hole {[2 := 5024]}); [apply four_megabytes|apply reach_hole|].
  exists 5024. split; [done|lia].
Defined.

Lemma rubber_objects_disjoint_witness :
  exists p, Write 1 two_objects = Some (p, two_objects) /\
    GetSizeOf 1 two_objects = Some (1024, two_objects) /\
    sz (table two_objects) 0 <= p /\ p + 1024 <= map_size two_objects /\
    (RUBBER_ALIGN | p - sz (table two_objects) 0) /\
    forall y s' q, y <> 1 -> ({[1 := 1024; 2 := 5024]} : gmap Z Z) !! y = Some s' ->
      Write y two_objects = Some (q, two_objects) -> p + 1024 <= q \/ q + s' <= p.
Proof.
  apply (rubber_objects_disjoint 0 4194304 (fun _ => 0) two_objects {[1 := 1024; 2 := 5024]} 1 1024);
    [apply four_megabytes|apply reach_two|done].
Defined.

Lemma rubber_compress_witness :
  exists m, Rep with_hole m /\
  exists r', Compress with_hole = Some (tt, r') /\ Rep r' m /\
    GetTotalHoleSize r' = 0 /\ GetBruttoSize r' = Some (total m, r').
Proof.
  destruct (reach_Rep 0 4194304 (fun _ => 0) with_hole _ four_megabytes reach_hole) as (m & HR & _).
  exists m. split; [exact HR|]. apply (rubber_compress with_hole m). exact HR.
Defined.

Lemma FindHole_complete_witness :
  exists ids, layout with_hole ids /\
  exists res, FindHole 512 with_hole = Some (res, with_hole) /\
    match res with
    | Some h => (h, the_hole with_hole h) ∈ gaps (table with_hole) (0 :: ids) /\
                512 <= hole_size (the_hole with_hole h)
    | None => forall p, p ∈ gaps (table with_hole) (0 :: ids) -> hole_size p.2 < 512
    end.
Proof.
  destruct (reach_Rep 0 4194304 (fun _ => 0) with_hole _ four_megabytes reach_hole)
    as (m & (ids & fl & HI & _) & _).
  exists ids. split; [by exists fl|]. apply (FindHole_complete with_hole ids 512 (ex_intro _ fl HI)).
  unfold RUBBER_ALIGN. lia.
Defined.

Lemma rubber_delete_ok_witness :
  Rubber_delete (after (ORemove 2) with_hole) = Some (tt, after (ORemove 2) with_hole).
Proof.
  apply (rubber_delete_ok 0 4194304 (fun _ => 0)); [apply four_megabytes|].
  replace ∅ with (live_after {[2 := 5024]} (ORemove 2) 0) by (by vm_compute).
  apply (reach_step 0 4194304 (fun _ => 0) with_hole _ (ORemove 2) 0); [apply reach_hole|by eexists|].
  apply (run_after (ORemove 2) with_hole); by vm_compute.
Defined.
