(* ===== verification/ObjectStore.v ===== *)
(** * Object stores

    What the response caches need of the "rubber" allocator: objects that are allocated, filled,
    shrunk, read and removed by their id.  [ObjectStore] has the operations,
    [ObjectStoreLaws] what they promise, and the allocator is an instance of both. *)

From S2P Require Import Prelude Rubber RubberLayout RubberHoles RubberFacts RubberOps RubberAdd RubberSpec.

#[local] Open Scope beng_scope.

Class ObjectStore := {
  os : Type;
  os_Add : Z -> M os Z;
  os_Remove : Z -> M os unit;
  os_Shrink : Z -> Z -> M os unit;
  os_Compress : M os unit;
  (** copies bytes to [Write(id) + position] *)
  os_store : Z -> nat -> list Z -> M os unit;
  (** the bytes at [Read(id) + position] *)
  os_load : Z -> nat -> nat -> M os (list Z) }.

(** Overwriting a part of a list. *)
Definition overwrite (pos : nat) (src b : list Z) : list Z := take pos b ++ src ++ drop (pos + length src) b.

(** [os_rep s m]: the store [s] holds the objects [m]. *)
Class ObjectStoreLaws (O : ObjectStore) := {
  os_rep : os -> gmap Z (list Z) -> Prop;
  os_Add_ok size s m : os_rep s m -> 0 < size ->
    wp (os_Add size) (fun id s' => id = 0 /\ os_rep s' m \/
      exists b, 0 < id /\ m !! id = None /\ size <= Z.of_nat (length b) /\ os_rep s' (<[id := b]> m)) s;
  os_Remove_ok id s m : os_rep s m -> is_Some (m !! id) ->
    wp (os_Remove id) (fun _ s' => os_rep s' (delete id m)) s;
  os_Shrink_ok id n b s m : os_rep s m -> m !! id = Some b -> 0 < n <= Z.of_nat (length b) ->
    wp (os_Shrink id n) (fun _ s' => exists k, (Z.to_nat n <= k)%nat /\ os_rep s' (<[id := take k b]> m)) s;
  os_Compress_ok s m : os_rep s m -> wp os_Compress (fun _ s' => os_rep s' m) s;
  os_store_ok id pos src b s m : os_rep s m -> m !! id = Some b -> (pos + length src <= length b)%nat ->
    wp (os_store id pos src) (fun _ s' => os_rep s' (<[id := overwrite pos src b]> m)) s;
  os_load_ok id pos n b s m : os_rep s m -> m !! id = Some b -> (pos + n <= length b)%nat ->
    wp (os_load id pos n) (fun r s' => r = take n (drop pos b) /\ s' = s) s }.

(** ** The allocator is an object store *)

(** Storing bytes one after the other. *)
Fixpoint Store_bytes (id : Z) (pos : nat) (src : list Z) : M Rubber unit :=
  match src with
  | [] => mret tt
  | v :: src' => Store id (Z.of_nat pos) v ;;; Store_bytes id (S pos) src'
  end.

Definition Load_bytes (id : Z) (pos n : nat) : M Rubber (list Z) :=
  let! p := Write id in
  mgets (fun r => map (fun k => mem r (p + Z.of_nat (pos + k))) (seq 0 n)).

Lemma overwrite_cons pos v src b : (pos + S (length src) <= length b)%nat ->
  overwrite (S pos) src (<[pos := v]> b) = overwrite pos (v :: src) b.
Proof.
  intros Hl. unfold overwrite. rewrite insert_take_drop by lia. simpl length.
  rewrite take_app, drop_app, length_take, Nat.min_l by lia.
  replace (S pos - pos)%nat with 1%nat by lia. cbn [take]. rewrite take_0.
  rewrite (take_ge (take pos b)) by (rewrite length_take; lia).
  rewrite (drop_ge (take pos b)) by (rewrite length_take; lia).
  replace (S pos + length src - pos)%nat with (S (length src)) by lia. cbn [drop app].
  rewrite drop_drop. rewrite <-app_assoc. cbn [app].
  by replace (S pos + length src)%nat with (pos + S (length src))%nat by lia.
Qed.

Lemma overwrite_nil pos b : (pos <= length b)%nat -> overwrite pos [] b = b.
Proof. intros Hl. unfold overwrite. rewrite Nat.add_0_r. apply take_drop. Qed.

Lemma length_overwrite pos src b : (pos + length src <= length b)%nat -> length (overwrite pos src b) = length b.
Proof. intros Hl. unfold overwrite. rewrite !length_app, length_take, length_drop. lia. Qed.

(** Appending to what was stored before. *)
Lemma take_overwrite pos src b : (pos + length src <= length b)%nat ->
  take (pos + length src) (overwrite pos src b) = take pos b ++ src.
Proof.
  intros Hl. unfold overwrite. rewrite app_assoc, take_app_le by (rewrite length_app, length_take; lia).
  apply take_ge. rewrite length_app, length_take. lia.
Qed.

Section Allocator.
Context `{RubberEnvOk}.

#[global] Instance rubber_store : ObjectStore := {
  os := Rubber;
  os_Add := Add;
  os_Remove := Remove;
  os_Shrink := Shrink;
  os_Compress := Compress;
  os_store id pos src := Write id ;;; Store_bytes id pos src;
  os_load := Load_bytes }.

(** An operation whose result does not matter. *)
Lemma wp_then {A} (m : M Rubber A) x (Q : Z -> Rubber -> Prop) r :
  wp (m ;;; mret x) Q r -> wp m (fun _ r' => Q x r') r.
Proof.
  intros (a & r' & E & HQ). unfold mbnd in E. destruct (m r) as [[b r1]|] eqn:Em; [|done].
  injection E as <- <-. by exists b, r1.
Qed.

Lemma lengths_lookup m id b : m !! id = Some b -> lengths m !! id = Some (Z.of_nat (length b)).
Proof. intros E. unfold lengths. by rewrite lookup_fmap, E. Qed.

Lemma Store_bytes_ok id src pos b r m : Rep r m -> m !! id = Some b -> (pos + length src <= length b)%nat ->
  wp (Store_bytes id pos src) (fun _ r' => Rep r' (<[id := overwrite pos src b]> m)) r.
Proof.
  revert pos b r m. induction src as [|v src IH]; intros pos b r m HR Hb Hl.
  - apply wp_ret. rewrite overwrite_nil by (simpl in Hl; lia). by rewrite insert_id.
  - apply wp_bind. simpl in Hl. eapply wp_mono.
    + apply (wp_then (Store id (Z.of_nat pos) v) 0), (Store_implements id (Z.of_nat pos) v); [exact HR|]. simpl.
      eexists. split; [by apply lengths_lookup|]. lia.
    + intros [] r' (m' & Hs & HR' & _). inversion Hs as [| | | | | |id' k' v' b' Hb' E1 E2 E3]; subst.
      rewrite Hb in Hb'. injection Hb' as <-. rewrite Nat2Z.id in HR'.
      eapply wp_mono; [eapply IH; [exact HR'|by rewrite lookup_insert_eq|rewrite length_insert; lia]|].
      intros [] r2 HR2. cbv beta in HR2. rewrite insert_insert_eq, overwrite_cons in HR2 by lia. exact HR2.
Qed.

Lemma wp_Write id r m b (Q : Z -> Rubber -> Prop) : Rep r m -> m !! id = Some b ->
  (object_bytes r id = b -> Q (off (table r) id) r) -> wp (Write id) Q r.
Proof.
  intros (ids & fl & HI & Hm) Hb HQ. apply (rep_lookup HI Hm) in Hb as [Hid Eb].
  eapply Write_spec; [done|done|]. by apply HQ.
Qed.

(** The abstract operation behind a successful run. *)
Lemma run_wp op (Q : Z -> Rubber -> Prop) r m :
  Rep r m -> legal (lengths m) op ->
  (forall res r' m', astep (limit r) (slots r) m op res m' -> Rep r' m' -> Q res r') -> wp (run_op op) Q r.
Proof.
  intros HR Hl HQ. eapply wp_mono; [by apply (implements_all op r m)|].
  intros res r' (m' & Hs & HR' & _). by eapply HQ.
Qed.

Lemma rubber_Add_ok size r m : Rep r m -> 0 < size ->
  wp (Add size) (fun id r' => id = 0 /\ Rep r' m \/
    exists b, 0 < id /\ m !! id = None /\ size <= Z.of_nat (length b) /\ Rep r' (<[id := b]> m)) r.
Proof.
  intros HR Hs. apply (run_wp (OAdd size) _ r m HR Hs). intros id r' m' Hst HR'.
  inversion Hst as [? ? b Hid Hn Hl _ _| | | | | |]; subst; [right|by left].
  exists b. split_and!; [done|done| |done]. rewrite Hl. apply round_up_ge. lia.
Qed.

Lemma rubber_Remove_ok id r m : Rep r m -> is_Some (m !! id) ->
  wp (Remove id) (fun _ r' => Rep r' (delete id m)) r.
Proof.
  intros HR [b Hb]. refine (wp_then (Remove id) 0 (fun _ r' => Rep r' (delete id m)) r _).
  apply (run_wp (ORemove id) _ r m HR); [by exists (Z.of_nat (length b)); apply lengths_lookup|].
  intros res r' m' Hst HR'. by inversion Hst; subst.
Qed.

Lemma rubber_Shrink_ok id n b r m : Rep r m -> m !! id = Some b -> 0 < n <= Z.of_nat (length b) ->
  wp (Shrink id n) (fun _ r' => exists k, (Z.to_nat n <= k)%nat /\ Rep r' (<[id := take k b]> m)) r.
Proof.
  intros HR Hb Hn. refine (wp_then (Shrink id n) 0 (fun _ r' => exists k, _ /\ Rep r' (<[id := take k b]> m)) r _).
  apply (run_wp (OShrink id n) _ r m HR); [eexists; split; [by apply lengths_lookup|lia]|].
  intros res r' m' Hst HR'. inversion Hst as [| | |? ? b' Hb'| | |]; subst.
  rewrite Hb in Hb'. injection Hb' as <-. exists (Z.to_nat (align_size n)). split; [|done].
  pose proof (round_up_ge n ltac:(lia)). unfold align_size. lia.
Qed.

Lemma rubber_Compress_ok r m : Rep r m -> wp Compress (fun _ r' => Rep r' m) r.
Proof.
  intros HR. refine (wp_then Compress 0 (fun _ r' => Rep r' m) r _).
  apply (run_wp OCompress _ r m HR); [done|]. intros res r' m' Hst HR'. by inversion Hst; subst.
Qed.

Lemma rubber_store_ok id pos src b r m : Rep r m -> m !! id = Some b -> (pos + length src <= length b)%nat ->
  wp (Write id ;;; Store_bytes id pos src) (fun _ r' => Rep r' (<[id := overwrite pos src b]> m)) r.
Proof.
  intros HR Hb Hl. apply wp_bind. eapply wp_Write; [exact HR|exact Hb|]. intros _.
  by apply (Store_bytes_ok id src pos b).
Qed.

Lemma rubber_load_ok id pos n b r m : Rep r m -> m !! id = Some b -> (pos + n <= length b)%nat ->
  wp (Load_bytes id pos n) (fun l r' => l = take n (drop pos b) /\ r' = r) r.
Proof.
  intros HR Hb Hl. apply wp_bind. eapply wp_Write; [exact HR|exact Hb|]. intros E. apply wp_gets.
  split; [|done]. subst b. unfold object_bytes in *. rewrite length_map, length_seq in Hl.
  rewrite skipn_map, firstn_map. rewrite skipn_seq, take_seq. rewrite Nat.min_l by lia. simpl.
  assert (E : seq pos n = map (Nat.add pos) (seq 0 n)) by (rewrite <-(Nat.add_0_r pos) at 1; symmetry; apply fmap_add_seq).
  by rewrite E, map_map.
Qed.

#[global] Instance rubber_store_laws : ObjectStoreLaws rubber_store := {
  os_rep := Rep;
  os_Add_ok := rubber_Add_ok;
  os_Remove_ok := rubber_Remove_ok;
  os_Shrink_ok := rubber_Shrink_ok;
  os_Compress_ok := rubber_Compress_ok;
  os_store_ok := rubber_store_ok;
  os_load_ok := rubber_load_ok }.

End Allocator.
