(* ===== verification/Chunk.v ===== *)
(** * HTTP/1.1 "chunked" transfer encoding: the incremental parser

    [src/http/ChunkParser.hxx] and [src/http/ChunkParser.cxx].  The parser is
    fed with pieces of the input; [Parse()] finds the next piece of chunk data
    in it, and the caller confirms with [Consume()] how much of it it has used.
    [dechunk] is the function a caller that uses everything computes, the
    reference for the two istreams that read and write the encoding. *)

From S2P Require Import Prelude.

(** ** The parser *)

Inductive State := NONE | SIZE | AFTER_SIZE | DATA | AFTER_DATA | TRAILER | TRAILER_DATA | END.

#[global] Instance State_eq_dec : EqDecision State.
Proof. solve_decision. Defined.

Record HttpChunkParser := mk_parser {
  state : State;
  remaining_chunk : Z;
}.

(** [remaining_chunk] is not initialized by the code; it is written before it
    is read. *)
Definition HttpChunkParser_new : HttpChunkParser := mk_parser NONE 0.

Definition set_state s p := mk_parser s (remaining_chunk p).
Definition set_remaining x p := mk_parser (state p) x.

Definition HasEnded (p : HttpChunkParser) : bool := bool_decide (state p = END).

Definition GetAvailable (p : HttpChunkParser) : Z :=
  if bool_decide (state p = DATA) then remaining_chunk p else 0.

Inductive error := chunk_length_expected | newline_expected.

(** The result of [Parse()]: the number of bytes before the data chunk and its
    size; an exception; or a failed assertion.  The parser is modified in any
    case. *)
Inductive parse_result :=
| Found (header data : Z) (p : HttpChunkParser)
| Throw (e : error) (p : HttpChunkParser)
| Failed.

Definition CR : Z := chr "013".
Definition LF : Z := chr "010".

Definition hex_digit (ch : Z) : option Z :=
  if (chr "0" <=? ch) && (ch <=? chr "9") then Some (ch - chr "0")
  else if (chr "a" <=? ch) && (ch <=? chr "f") then Some (ch - chr "a" + 10)
  else if (chr "A" <=? ch) && (ch <=? chr "F") then Some (ch - chr "A" + 10)
  else None.

(** The characters that are handled without looking at the rest of the input. *)
Definition after_size (ch : Z) (p : HttpChunkParser) : HttpChunkParser :=
  if ch =? LF then set_state (if remaining_chunk p =? 0 then TRAILER else DATA) p else p.

(** A digit in the states [NONE] and [SIZE]; [remaining_chunk] is a
    [std::size_t]. *)
Definition add_digit (digit : Z) (p : HttpChunkParser) : HttpChunkParser :=
  let p := if bool_decide (state p = NONE) then mk_parser SIZE 0 else p in
  set_remaining (wrap 64 (remaining_chunk p * 16 + digit)) p.

(** The loop of [Parse()]; [pos] is the position of the iterator.  The
    [continue] after the last digit handles the same character again, in the
    state [AFTER_SIZE]. *)
Fixpoint Parse_loop (p : HttpChunkParser) (input : list Z) (pos : Z) : parse_result :=
  match input with
  | [] => Found pos 0 p
  | ch :: rest =>
    match state p with
    | NONE | SIZE =>
      match hex_digit ch with
      | Some digit => Parse_loop (add_digit digit p) rest (pos + 1)
      | None =>
        if bool_decide (state p = SIZE)
        then Parse_loop (after_size ch (set_state AFTER_SIZE p)) rest (pos + 1)
        else Throw chunk_length_expected p
      end
    | AFTER_SIZE => Parse_loop (after_size ch p) rest (pos + 1)
    | DATA =>
      if 0 <? remaining_chunk p
      then Found pos (Z.min (Z.of_nat (length input)) (remaining_chunk p)) p
      else Failed
    | AFTER_DATA =>
      if ch =? LF then Parse_loop (set_state NONE p) rest (pos + 1)
      else if ch =? CR then Parse_loop p rest (pos + 1)
      else Throw newline_expected p
    | TRAILER =>
      if ch =? LF then Found (pos + 1) 0 (set_state END p)
      else if ch =? CR then Parse_loop p rest (pos + 1)
      else Parse_loop (set_state TRAILER_DATA p) rest (pos + 1)
    | TRAILER_DATA =>
      if ch =? LF then Parse_loop (set_state TRAILER p) rest (pos + 1)
      else Parse_loop p rest (pos + 1)
    | END => Failed
    end
  end.

Definition Parse (p : HttpChunkParser) (input : list Z) : parse_result := Parse_loop p input 0.

(** [Consume()]; [None] is a failed assertion. *)
Definition Consume (nbytes : Z) (p : HttpChunkParser) : option (bool * HttpChunkParser) :=
  if (0 <? nbytes) && bool_decide (state p = DATA) && (nbytes <=? remaining_chunk p) then
    let p := set_remaining (remaining_chunk p - nbytes) p in
    let finished := remaining_chunk p =? 0 in
    Some (finished, if finished then set_state AFTER_DATA p else p)
  else None.

(** ** The reference decoder

    What a caller reads that feeds [input] and consumes every piece of data
    completely: the data, and the part of the input after the end chunk. *)

Inductive dechunk_result :=
| Decoded (data : list Z) (p : HttpChunkParser) (rest : list Z)
| DecodeError (data : list Z) (e : error).

Definition prepend (d : list Z) (r : dechunk_result) : dechunk_result :=
  match r with
  | Decoded data p rest => Decoded (d ++ data) p rest
  | DecodeError data e => DecodeError (d ++ data) e
  end.

(** One byte at a time. *)
Definition step_byte (p : HttpChunkParser) (ch : Z) : (list Z * HttpChunkParser) + error :=
  match state p with
  | NONE | SIZE =>
    match hex_digit ch with
    | Some digit => inl ([], add_digit digit p)
    | None => if bool_decide (state p = SIZE)
              then inl ([], after_size ch (set_state AFTER_SIZE p))
              else inr chunk_length_expected
    end
  | AFTER_SIZE => inl ([], after_size ch p)
  | DATA => inl ([ch], let p := set_remaining (remaining_chunk p - 1) p in
                       if remaining_chunk p =? 0 then set_state AFTER_DATA p else p)
  | AFTER_DATA => if ch =? LF then inl ([], set_state NONE p)
                  else if ch =? CR then inl ([], p) else inr newline_expected
  | TRAILER => if ch =? LF then inl ([], set_state END p)
               else if ch =? CR then inl ([], p)
               else inl ([], set_state TRAILER_DATA p)
  | TRAILER_DATA => if ch =? LF then inl ([], set_state TRAILER p) else inl ([], p)
  | END => inl ([], p)
  end.

Fixpoint dechunk (p : HttpChunkParser) (input : list Z) : dechunk_result :=
  if bool_decide (state p = END) then Decoded [] p input
  else match input with
  | [] => Decoded [] p []
  | ch :: rest =>
    match step_byte p ch with
    | inl (d, p') => prepend d (dechunk p' rest)
    | inr e => DecodeError [] e
    end
  end.

(** The parser is never in the state [DATA] without data to come. *)
Definition parser_ok (p : HttpChunkParser) : Prop :=
  0 <= remaining_chunk p < 2 ^ 64 /\ (state p = DATA -> 0 < remaining_chunk p).

(** ** Facts *)

Lemma prepend_nil r : prepend [] r = r.
Proof. by destruct r. Qed.

Lemma prepend_app a b r : prepend a (prepend b r) = prepend (a ++ b) r.
Proof. destruct r; simpl; by rewrite app_assoc. Qed.

#[export] Hint Rewrite prepend_nil prepend_app : beng_rw.

Lemma dechunk_end p input : state p = END -> dechunk p input = Decoded [] p input.
Proof. intros E. destruct input; simpl; by rewrite E. Qed.

Lemma dechunk_nil p : dechunk p [] = Decoded [] p [].
Proof. simpl. by case_bool_decide. Qed.

Lemma dechunk_cons p ch rest :
  state p <> END ->
  dechunk p (ch :: rest) =
  match step_byte p ch with
  | inl (d, p') => prepend d (dechunk p' rest)
  | inr e => DecodeError [] e
  end.
Proof. intros E. simpl. by rewrite bool_decide_eq_false_2. Qed.

(** Decoding a stream is decoding its pieces one after the other. *)
Lemma dechunk_app p a b d p' :
  dechunk p a = Decoded d p' [] -> dechunk p (a ++ b) = prepend d (dechunk p' b).
Proof.
  revert p d. induction a as [|ch a IH]; intros p d.
  - rewrite dechunk_nil. intros [= <- <-]. by rewrite prepend_nil.
  - destruct (decide (state p = END)) as [E|E]; [by rewrite dechunk_end|].
    simpl ((ch :: a) ++ b). rewrite !dechunk_cons by done.
    destruct (step_byte p ch) as [[d1 p1]|e]; [|done].
    destruct (dechunk p1 a) as [d2 p2 rest|] eqn:E2; simpl; [|done].
    intros [= <- -> ->]. by rewrite (IH p1 d2 E2), prepend_app.
Qed.

Lemma wrap_range w x : 0 <= w -> 0 <= wrap w x < 2 ^ w.
Proof. intros Hw. apply Z.mod_pos_bound. by apply Z.pow_pos_nonneg. Qed.

Lemma step_byte_ok p ch d p' : parser_ok p -> step_byte p ch = inl (d, p') -> parser_ok p'.
Proof.
  intros [Hr Hd]. unfold step_byte, after_size, add_digit, parser_ok.
  pose proof (fun x => wrap_range 64 x ltac:(lia)) as Hw.
  destruct (state p) eqn:Es; try specialize (Hd eq_refl);
    repeat case_match; intros [= <- <-]; simpl in *; simpl_bool;
    (split; [first [done | lia | apply Hw]|]); intros; try done; try lia; congruence.
Qed.

Lemma dechunk_ok input : forall p d p' rest,
  parser_ok p -> dechunk p input = Decoded d p' rest -> parser_ok p'.
Proof.
  induction input as [|ch input IH]; intros p d p' rest Hok.
  - rewrite dechunk_nil. by intros [= _ <- _].
  - destruct (decide (state p = END)) as [E|E]; [rewrite dechunk_end by done; by intros [= _ <- _]|].
    rewrite dechunk_cons by done. destruct (step_byte p ch) as [[d1 p1]|e] eqn:E1; [|done].
    destruct (dechunk p1 input) eqn:E2; simpl; [|done]. intros [= _ <- _].
    eapply IH; [|exact E2]. by eapply step_byte_ok.
Qed.

(** What [Parse()] finds, in terms of the decoder: [pre] is the part of the
    input before the data, [post] the rest. *)
Definition found (p : HttpChunkParser) (input : list Z) (d : Z) (p' : HttpChunkParser)
    (pre post : list Z) : Prop :=
  input = pre ++ post /\ dechunk p pre = Decoded [] p' [] /\ parser_ok p' /\
  (d = 0 /\ (post = [] \/ state p' = END) \/
   0 < d /\ state p' = DATA /\ d = Z.min (Z.of_nat (length post)) (remaining_chunk p')).

Lemma found_cons p ch rest d p1 p' pre post :
  state p <> END -> step_byte p ch = inl ([], p1) -> found p1 rest d p' pre post ->
  found p (ch :: rest) d p' (ch :: pre) post.
Proof.
  intros E Es (-> & Hd & Hok & Hc). split_and!; try done.
  by rewrite dechunk_cons, Es, Hd.
Qed.

Lemma Parse_loop_spec input : forall p pos,
  parser_ok p -> state p <> END ->
  match Parse_loop p input pos with
  | Found h d p' => exists pre post, h = pos + Z.of_nat (length pre) /\ found p input d p' pre post
  | Throw e _ => dechunk p input = DecodeError [] e
  | Failed => False
  end.
Proof.
  induction input as [|ch rest IH]; intros p pos Hok HE.
  { simpl. exists [], []. split; [simpl; lia|]. split_and!; try done; [|by left; split; [|left]].
    apply dechunk_nil. }
  assert (Hgo : forall p1, step_byte p ch = inl ([], p1) -> state p1 <> END ->
    match Parse_loop p1 rest (pos + 1) with
    | Found h d p' => exists pre post, h = pos + Z.of_nat (length pre) /\ found p (ch :: rest) d p' pre post
    | Throw e _ => dechunk p (ch :: rest) = DecodeError [] e
    | Failed => False
    end).
  { intros p1 Es HE1. specialize (IH p1 (pos + 1) ltac:(by eapply step_byte_ok) HE1).
    destruct (Parse_loop p1 rest (pos + 1)) as [h d p'|e p'|]; [|by rewrite dechunk_cons, Es, IH|done].
    destruct IH as (pre & post & -> & Hf). exists (ch :: pre), post.
    split; [simpl length; lia|]. by eapply found_cons. }
  cbn [Parse_loop]. unfold step_byte in Hgo.
  destruct (state p) eqn:Es; try done.
  - destruct (hex_digit ch) eqn:Eh; [apply Hgo; [done|unfold add_digit; case_bool_decide; simpl; congruence]|].
    simpl (bool_decide _). cbv iota. rewrite dechunk_cons by (by rewrite Es).
    unfold step_byte. by rewrite Es, Eh.
  - destruct (hex_digit ch); [apply Hgo; [done|unfold add_digit; case_bool_decide; simpl; congruence]|].
    apply Hgo; [done|]. unfold after_size. repeat case_match; done.
  - apply Hgo; [done|]. unfold after_size. repeat case_match; try done. by rewrite Es.
  - destruct Hok as [Hr Hd]. specialize (Hd Es). destruct (Z.ltb_spec 0 (remaining_chunk p)); [|lia].
    exists [], (ch :: rest). split; [simpl; lia|]. split_and!; try done; [apply dechunk_nil|].
    right. split_and!; [|done|done]. simpl length. lia.
  - destruct (ch =? LF) eqn:El; [by apply Hgo|].
    destruct (ch =? CR) eqn:Ec; [apply Hgo; [done|by rewrite Es]|].
    rewrite dechunk_cons by (by rewrite Es). unfold step_byte. by rewrite Es, El, Ec.
  - destruct (ch =? LF) eqn:El.
    + exists [ch], rest. split; [simpl; lia|]. split_and!; try done.
      * rewrite dechunk_cons by (by rewrite Es). unfold step_byte. by rewrite Es, El, dechunk_nil.
      * split; [apply Hok|done].
      * left. split; [done|by right].
    + destruct (ch =? CR); apply Hgo; try done. by rewrite Es.
  - destruct (ch =? LF); apply Hgo; try done. by rewrite Es.
Qed.

(** Consuming data is decoding it. *)
Definition consumed (n : Z) (p : HttpChunkParser) : HttpChunkParser :=
  mk_parser (if remaining_chunk p - n =? 0 then AFTER_DATA else DATA) (remaining_chunk p - n).

Lemma Consume_spec n p :
  state p = DATA -> 0 < n <= remaining_chunk p ->
  Consume n p = Some (remaining_chunk p - n =? 0, consumed n p).
Proof.
  intros Es Hn. unfold Consume. rewrite Es. destruct (Z.ltb_spec 0 n); [|lia].
  destruct (Z.leb_spec n (remaining_chunk p)); [|lia]. simpl. unfold consumed, set_state, set_remaining.
  simpl. by destruct (remaining_chunk p - n =? 0); rewrite ?Es.
Qed.

Lemma dechunk_data x : forall p,
  state p = DATA -> 0 < Z.of_nat (length x) <= remaining_chunk p ->
  dechunk p x = Decoded x (consumed (Z.of_nat (length x)) p) [].
Proof.
  induction x as [|c x IH]; intros p Es Hl; simpl length in *; [lia|].
  rewrite dechunk_cons by (by rewrite Es). unfold step_byte. rewrite Es. cbv zeta. simpl remaining_chunk.
  destruct x as [|c' x].
  - rewrite dechunk_nil. unfold consumed. simpl. change (Z.of_nat 1) with 1.
    destruct (Z.eqb_spec (remaining_chunk p - 1) 0); simpl; [done|]. unfold set_remaining. by rewrite Es.
  - simpl length in *. destruct (Z.eqb_spec (remaining_chunk p - 1) 0); [lia|].
    rewrite IH; [|done|simpl; lia]. unfold consumed. simpl prepend. simpl remaining_chunk.
    by replace (remaining_chunk p - 1 - Z.of_nat (S (length x)))
      with (remaining_chunk p - Z.of_nat (S (S (length x)))) by lia.
Qed.

(** ** Clients *)

(** A caller of the parser: it has some of the input available, and consumes
    some of the data that [Parse()] has found in it. *)
Inductive client : HttpChunkParser * list Z * list Z -> HttpChunkParser * list Z * list Z -> Prop :=
| client_skip p avail rest out h d p1 :
    state p <> END -> Parse p avail = Found h d p1 ->
    client (p, avail ++ rest, out) (p1, drop (Z.to_nat h) (avail ++ rest), out)
| client_data p avail rest out h d p1 n f p2 :
    state p <> END -> Parse p avail = Found h d p1 -> n <= d -> Consume n p1 = Some (f, p2) ->
    client (p, avail ++ rest, out)
      (p2, drop (Z.to_nat (h + n)) (avail ++ rest),
       out ++ take (Z.to_nat n) (drop (Z.to_nat h) (avail ++ rest))).

Lemma Parse_Found p avail h d p1 :
  parser_ok p -> state p <> END -> Parse p avail = Found h d p1 ->
  exists pre post, h = Z.of_nat (length pre) /\ found p avail d p1 pre post.
Proof.
  intros Hok HE E. pose proof (Parse_loop_spec avail p 0 Hok HE) as Hs.
  unfold Parse in E. by rewrite E in Hs.
Qed.

Lemma client_step p input out p' input' out' :
  parser_ok p -> client (p, input, out) (p', input', out') ->
  parser_ok p' /\ exists x, out' = out ++ x /\ dechunk p input = prepend x (dechunk p' input').
Proof.
  intros Hok Hc. inversion Hc as [? avail rest ? h d ? HE E|? avail rest ? h d p1 n f ? HE E Hn Ec];
    subst; destruct (Parse_Found p avail h d _ Hok HE E) as (pre & post & -> & -> & Hd & Hok' & Hcase).
  - split; [done|]. exists []. rewrite app_nil_r. split; [done|]. rewrite Nat2Z.id, <- app_assoc.
    rewrite (dechunk_app _ _ _ _ _ Hd), drop_app_length. done.
  - assert (Hn' : 0 < n) by (unfold Consume in Ec; case_match; [simpl_bool; lia|done]).
    destruct Hcase as [[-> _]|(Hd0 & Es & ->)]; [lia|].
    assert (Hlen : (Z.to_nat n <= length post)%nat) by lia.
    rewrite Consume_spec in Ec by (done || lia). injection Ec as _ <-.
    rewrite <- app_assoc. set (x := take (Z.to_nat n) post).
    assert (Hx : Z.of_nat (length x) = n) by (unfold x; rewrite length_take; lia).
    assert (Epost : post ++ rest = x ++ drop (Z.to_nat n) post ++ rest).
    { unfold x. by rewrite app_assoc, take_drop. }
    assert (Hdx : dechunk p1 x = Decoded x (consumed n p1) []).
    { rewrite <- Hx. apply dechunk_data; [done|]. lia. }
    split; [eapply dechunk_ok; [exact Hok'|exact Hdx]|]. exists x. split.
    + f_equal. rewrite Nat2Z.id, drop_app_length, Epost.
      replace (Z.to_nat n) with (length x) by lia. by rewrite take_app_length.
    + rewrite (dechunk_app _ _ _ _ _ Hd), prepend_nil, Epost, (dechunk_app _ _ _ _ _ Hdx).
      f_equal. f_equal. rewrite <- Epost. replace (Z.to_nat (Z.of_nat (length pre) + n))
        with (length pre + length x)%nat by lia.
      rewrite Epost, <- drop_drop, drop_app_length, drop_app_length. done.
Qed.

Lemma clients_decode s s' :
  rtc client s s' -> forall p input out p' input' out',
  s = (p, input, out) -> s' = (p', input', out') -> parser_ok p ->
  parser_ok p' /\ exists x, out' = out ++ x /\ dechunk p input = prepend x (dechunk p' input').
Proof.
  induction 1 as [s|s1 [[p1 i1] o1] s3 Hc _ IH]; intros p input out p' input' out' E1 E2 Hok.
  - rewrite E1 in E2. injection E2 as <- <- <-. split; [done|]. exists []. by rewrite app_nil_r, prepend_nil.
  - subst. destruct (client_step _ _ _ _ _ _ Hok Hc) as (Hok1 & x & -> & Ed).
    destruct (IH p1 i1 (out ++ x) p' input' out' eq_refl eq_refl Hok1) as (Hok' & y & -> & Ed').
    split; [done|]. exists (x ++ y). by rewrite app_assoc, Ed, Ed', prepend_app.
Qed.

Lemma parser_new_ok : parser_ok HttpChunkParser_new.
Proof. by split. Qed.

(** ** Sizes *)

Definition hex_value (ds : list Z) (a : Z) : Z := foldl (fun a d => a * 16 + d) a ds.

Lemma add_digit_SIZE d p : state p = NONE \/ state p = SIZE -> state (add_digit d p) = SIZE.
Proof. intros Hs. unfold add_digit. case_bool_decide; simpl; [done|]. by destruct Hs. Qed.

(** The digits of a chunk size. *)
Lemma dechunk_digits ds : forall cs p,
  state p = SIZE -> map hex_digit cs = map Some ds -> 0 <= remaining_chunk p ->
  Forall (fun d => 0 <= d) ds -> hex_value ds (remaining_chunk p) < 2 ^ 64 ->
  dechunk p cs = Decoded [] (mk_parser SIZE (hex_value ds (remaining_chunk p))) [].
Proof.
  assert (Hmono : forall ds a, Forall (fun d => 0 <= d) ds -> 0 <= a -> a <= hex_value ds a).
  { intros ds'. unfold hex_value. induction ds' as [|d ds' IH]; intros a Hd Ha; simpl; [lia|].
    apply Forall_cons in Hd as [H1 H2]. specialize (IH (a * 16 + d) H2 ltac:(lia)). lia. }
  induction ds as [|d ds IH]; intros [|c cs] p Es Hm Hr Hd Hlt; try done.
  - rewrite dechunk_nil. destruct p; simpl in *. by subst.
  - simpl in Hm. injection Hm as Hc Hm. apply Forall_cons in Hd as [Hd1 Hd2].
    rewrite dechunk_cons by (by rewrite Es). unfold step_byte. rewrite Es, Hc.
    unfold hex_value in Hlt. simpl in Hlt. fold (hex_value ds (remaining_chunk p * 16 + d)) in Hlt.
    pose proof (Hmono ds (remaining_chunk p * 16 + d) Hd2 ltac:(lia)).
    assert (Ea : add_digit d p = mk_parser SIZE (remaining_chunk p * 16 + d)).
    { unfold add_digit. rewrite Es. simpl. unfold set_remaining. rewrite Es, wrap_id by lia. done. }
    rewrite Ea, (IH cs) by (simpl; done || lia). done.
Qed.

(** A chunk header: the size and an end of line. *)
Lemma dechunk_header ds cs p :
  state p = NONE -> ds <> [] -> map hex_digit cs = map Some ds ->
  Forall (fun d => 0 <= d) ds -> 0 <= hex_value ds 0 < 2 ^ 64 ->
  dechunk p (cs ++ [CR; LF]) =
  Decoded [] (mk_parser (if hex_value ds 0 =? 0 then TRAILER else DATA) (hex_value ds 0)) [].
Proof.
  intros Es Hne Hm Hd Hv. destruct ds as [|d ds]; [done|]. destruct cs as [|c cs]; [done|].
  simpl in Hm. injection Hm as Hc Hm. apply Forall_cons in Hd as [Hd1 Hd2].
  assert (Hmax : d < 16).
  { unfold hex_digit in Hc. repeat case_match; simplify_eq; simpl_bool; unfold chr in *; simpl in *; lia. }
  simpl (_ ++ _). rewrite dechunk_cons by (by rewrite Es). unfold step_byte. rewrite Es, Hc.
  assert (Ea : add_digit d p = mk_parser SIZE d).
  { unfold add_digit. rewrite Es. simpl. unfold set_remaining. simpl. rewrite wrap_id by lia. done. }
  rewrite Ea, prepend_nil. rewrite (dechunk_app _ _ _ _ _ (dechunk_digits ds cs (mk_parser SIZE d)
    eq_refl Hm ltac:(simpl; lia) Hd2 ltac:(simpl; apply Hv))).
  simpl remaining_chunk. change (hex_value ds d) with (hex_value (d :: ds) 0).
  generalize dependent (hex_value (d :: ds) 0). intros v Hv. unfold LF, CR. simpl.
  unfold after_size, set_state. simpl. by destruct (v =? 0).
Qed.

(** The end chunk without trailers. *)
Definition end_chunk : list Z := str "0" ++ [CR; LF; CR; LF].

Lemma dechunk_end_chunk p : state p = NONE -> dechunk p end_chunk = Decoded [] (mk_parser END 0) [].
Proof.
  intros Es. change end_chunk with ((str "0" ++ [CR; LF]) ++ [CR; LF]).
  rewrite (dechunk_app _ _ _ _ _ (dechunk_header [0] (str "0") p Es ltac:(done) eq_refl
    ltac:(by repeat constructor) ltac:(by vm_compute))). done.
Qed.

Lemma dechunk_crlf p : state p = AFTER_DATA -> dechunk p [CR; LF] = Decoded [] (set_state NONE p) [].
Proof. destruct p as [s r]. simpl. by intros ->. Qed.

(** ** The theorems *)

(** C8: Whatever pieces of the stream a client of the parser gets to see, and
    however much of the data it consumes at a time, the data it has consumed
    is what decoding the whole stream at once yields, up to where it is. *)
Theorem chunk_client_decodes input p' input' out :
  rtc client (HttpChunkParser_new, input, []) (p', input', out) ->
  dechunk HttpChunkParser_new input = prepend out (dechunk p' input').
Proof.
  intros Hr. destruct (clients_decode _ _ Hr _ _ _ _ _ _ eq_refl eq_refl parser_new_ok)
    as (_ & x & Ex & Ed). simpl in Ex. by subst.
Qed.

(** In every state a client can reach before the end chunk, [Parse()]
    fails no assertion and does not reach the unreachable case, and it makes
    progress: it finds data, or has looked at all of the input, or has seen
    the end chunk, or reports a malformed chunk. *)
Theorem chunk_parse_progress input0 p input out :
  rtc client (HttpChunkParser_new, input0, []) (p, input, out) -> HasEnded p = false ->
  match Parse p input with
  | Found h d p' => 0 <= h /\ 0 <= d /\ h + d <= Z.of_nat (length input) /\
      (0 < d /\ GetAvailable p' >= d \/ d = 0 /\ (h = Z.of_nat (length input) \/ HasEnded p' = true))
  | Throw e _ => dechunk p input = DecodeError [] e
  | Failed => False
  end.
Proof.
  intros Hr HE. apply bool_decide_eq_false in HE.
  destruct (clients_decode _ _ Hr _ _ _ _ _ _ eq_refl eq_refl parser_new_ok) as (Hok & _).
  pose proof (Parse_loop_spec input p 0 Hok HE) as Hs. unfold Parse.
  destruct (Parse_loop p input 0) as [h d p'|e p'|]; [|done|done].
  destruct Hs as (pre & post & -> & -> & Hd & Hok' & Hc). rewrite length_app.
  destruct Hc as [[-> Hc]|(Hd0 & Es & Hmin)]; split_and!; try lia.
  - right. split; [done|]. destruct Hc as [->|Hc]; [left; simpl; lia|right].
    by apply bool_decide_eq_true.
  - left. split; [done|]. unfold GetAvailable. rewrite Es. simpl. lia.
Qed.

(** The size of a chunk is computed modulo 2^64: a chunk that announces
    2^64 + 5 bytes is read as one of 5 bytes, and what follows is taken for
    the next chunk. *)
Theorem chunk_size_overflow :
  dechunk HttpChunkParser_new
    (str "10000000000000005" ++ [CR; LF] ++ str "hello" ++ [CR; LF] ++ end_chunk) =
  Decoded (str "hello") (mk_parser END 0) [].
Proof. by vm_compute. Qed.

(** Two reads, the second of which gets the rest of the stream. *)
Definition hello_stream : list Z := str "5" ++ [CR; LF] ++ str "hello" ++ [CR; LF] ++ end_chunk.

Lemma hello_client :
  rtc client (HttpChunkParser_new, hello_stream, [])
    (mk_parser DATA 2, drop 6 hello_stream, str "hel").
Proof.
  apply (rtc_l _ _ (mk_parser DATA 5, drop 3 hello_stream, [])).
  - by apply (client_skip HttpChunkParser_new (take 3 hello_stream) (drop 3 hello_stream) [] 3 0).
  - apply rtc_once.
    by apply (client_data (mk_parser DATA 5) (take 3 (drop 3 hello_stream)) (drop 6 hello_stream)
      [] 0 3 (mk_parser DATA 5) 3 false).
Qed.

Lemma chunk_client_decodes_witness :
  dechunk HttpChunkParser_new hello_stream =
  prepend (str "hel") (dechunk (mk_parser DATA 2) (drop 6 hello_stream)).
Proof. apply (chunk_client_decodes hello_stream). apply hello_client. Defined.

Lemma chunk_parse_progress_witness :
  match Parse (mk_parser DATA 2) (drop 6 hello_stream) with
  | Found h d p' => 0 <= h /\ 0 <= d /\ h + d <= Z.of_nat (length (drop 6 hello_stream)) /\
      (0 < d /\ GetAvailable p' >= d \/
       d = 0 /\ (h = Z.of_nat (length (drop 6 hello_stream)) \/ HasEnded p' = true))
  | Throw e _ => dechunk (mk_parser DATA 2) (drop 6 hello_stream) = DecodeError [] e
  | Failed => False
  end.
Proof.
  apply (chunk_parse_progress hello_stream (mk_parser DATA 2) (drop 6 hello_stream) (str "hel"));
    [apply hello_client|done].
Defined.
