(* ===== verification/Bucket.v ===== *)
(** * Bucket lists

    [src/istream/Bucket.hxx]: how an istream shows its data to its consumer
    without copying it: a list of at most 64 buffers, and flags that say
    whether there is more data than that. *)

From S2P Require Import Prelude.

(** [buckets] is the member [list]; the only type of bucket is a buffer. *)
Record IstreamBucketList := mk_buckets {
  buckets : list (list Z);
  more : bool;
  fallback : bool;
}.

Definition MAX_BUCKETS : nat := 64.

Definition IstreamBucketList_new : IstreamBucketList := mk_buckets [] false false.

Definition SetMore (b : IstreamBucketList) := mk_buckets (buckets b) true (fallback b).
Definition EnableFallback (b : IstreamBucketList) := mk_buckets (buckets b) true true.
Definition DisableFallback (b : IstreamBucketList) := mk_buckets (buckets b) (more b) false.
Definition HasMore (b : IstreamBucketList) : bool := more b.
Definition ShouldFallback (b : IstreamBucketList) : bool := fallback b.
Definition IsEmpty (b : IstreamBucketList) : bool := bool_decide (buckets b = []).
Definition IsFull (b : IstreamBucketList) : bool := (MAX_BUCKETS <=? length (buckets b))%nat.
Definition Clear (b : IstreamBucketList) := mk_buckets [] (more b) (fallback b).

Definition Push (x : list Z) (b : IstreamBucketList) : IstreamBucketList :=
  if IsFull b then SetMore b else mk_buckets (buckets b ++ [x]) (more b) (fallback b).

Definition GetTotalBufferSize (b : IstreamBucketList) : Z :=
  sum_Z (map (fun x => Z.of_nat (length x)) (buckets b)).

Definition IsDepleted (consumed : Z) (b : IstreamBucketList) : bool :=
  negb (HasMore b) && (consumed =? GetTotalBufferSize b).

(** [Mark()]; the flag counts as -1 in the code's unsigned arithmetic. *)
Definition Mark (b : IstreamBucketList) : Z :=
  wrap 64 (Z.of_nat (length (buckets b)) - (if HasMore b then 1 else 0)).

Definition EmptySinceMark (m : Z) (b : IstreamBucketList) : bool :=
  negb (HasMore b) && (Z.of_nat (length (buckets b)) =? m).

(** The flags of the source are copied first. *)
Definition copy_flags (src b : IstreamBucketList) : IstreamBucketList :=
  if HasMore src then
    let b := SetMore b in
    if ShouldFallback src && IsEmpty src then EnableFallback b else b
  else b.

Definition SpliceFrom (src b : IstreamBucketList) : IstreamBucketList :=
  fold_left (fun b x => Push x b) (buckets src) (copy_flags src b).

(** The loop of [SpliceBuffersFrom()] with a limit. *)
Fixpoint splice_max (src : list (list Z)) (max_size : Z) (copy_more_flag : bool)
    (b : IstreamBucketList) (total_size : Z) : Z * IstreamBucketList :=
  match src with
  | [] => (total_size, b)
  | x :: src =>
    if max_size =? 0 then (total_size, if copy_more_flag then SetMore b else b)
    else
      let cut := max_size <? Z.of_nat (length x) in
      let buffer := if cut then take (Z.to_nat max_size) x else x in
      let b := if cut && copy_more_flag then SetMore b else b in
      splice_max src (max_size - Z.of_nat (length buffer)) copy_more_flag (Push buffer b)
        (total_size + Z.of_nat (length buffer))
  end.

Definition SpliceBuffersFrom_max (src : IstreamBucketList) (max_size : Z) (copy_more_flag : bool)
    (b : IstreamBucketList) : Z * IstreamBucketList :=
  splice_max (buckets src) max_size copy_more_flag
    (if copy_more_flag then copy_flags src b else b) 0.

Fixpoint splice_all (src : list (list Z)) (b : IstreamBucketList) (total_size : Z)
  : Z * IstreamBucketList :=
  match src with
  | [] => (total_size, b)
  | x :: src => splice_all src (Push x b) (total_size + Z.of_nat (length x))
  end.

Definition SpliceBuffersFrom (src b : IstreamBucketList) : Z * IstreamBucketList :=
  splice_all (buckets src) (copy_flags src b) 0.

Fixpoint copy_buffers (skip : Z) (src : list (list Z)) (b : IstreamBucketList)
    (total_size : Z) : Z * IstreamBucketList :=
  match src with
  | [] => (total_size, b)
  | x :: src =>
    if skip <? Z.of_nat (length x) then
      let buffer := drop (Z.to_nat skip) x in
      copy_buffers 0 src (Push buffer b) (total_size + Z.of_nat (length buffer))
    else copy_buffers (skip - Z.of_nat (length x)) src b total_size
  end.

Definition CopyBuffersFrom (skip : Z) (src b : IstreamBucketList) : Z * IstreamBucketList :=
  copy_buffers skip (buckets src) (copy_flags src b) 0.

(** ** Facts *)

(** The bytes in the list. *)
Definition bytes (b : IstreamBucketList) : list Z := concat (buckets b).

Lemma bytes_size b : Z.of_nat (length (bytes b)) = GetTotalBufferSize b.
Proof.
  unfold bytes, GetTotalBufferSize. induction (buckets b) as [|x l IH]; simpl; [done|].
  rewrite length_app. lia.
Qed.

Lemma bytes_Push x b : IsFull b = false -> bytes (Push x b) = bytes b ++ x.
Proof. intros E. unfold Push, bytes. rewrite E. simpl. rewrite concat_app. simpl. by rewrite app_nil_r. Qed.

Lemma IsFull_length b : IsFull b = false <-> (length (buckets b) < MAX_BUCKETS)%nat.
Proof. unfold IsFull. rewrite Nat.leb_gt. done. Qed.

(** Once the list is full, it stays full, and nothing is added. *)
Lemma Push_full x b : IsFull b = true -> Push x b = SetMore b.
Proof. intros E. unfold Push. by rewrite E. Qed.

(** [x] was added to [b], as far as the list has room; a list that is full says
    that there is more: [k] bytes of [x] are in the list. *)
Definition extends (b b' : IstreamBucketList) (x : list Z) : Prop :=
  exists k, bytes b' = bytes b ++ take k x /\
    (more b' = false -> more b = false /\ (length x <= k)%nat) /\
    ((length x <= k)%nat \/ IsFull b' = true) /\
    (IsFull b = true -> bytes b' = bytes b /\ IsFull b' = true).

Lemma extends_refl b : extends b b [].
Proof. exists O. rewrite app_nil_r. split_and!; try done. left. simpl. lia. Qed.

Lemma extends_more b b' x : extends (SetMore b) b' x -> extends b b' x /\ more b' = true.
Proof.
  intros (k & E1 & E2 & E3 & E4). assert (Hm : more b' = true).
  { destruct (more b') eqn:E; [done|]. by destruct (E2 eq_refl). }
  split; [|done]. exists k. split_and!; try done. congruence.
Qed.

Lemma extends_Push b b' x y : extends (Push x b) b' y -> extends b b' (x ++ y).
Proof.
  destruct (IsFull b) eqn:E.
  - rewrite (Push_full x b E). intros Hx. destruct (extends_more b b' y Hx) as [_ Hm].
    destruct Hx as (k & E1 & E2 & E3 & E4). destruct (E4 E) as [E5 E6].
    exists O. rewrite app_nil_r. split_and!; try done; [congruence|by right].
  - intros (k & E1 & E2 & E3 & E4). rewrite bytes_Push in E1 by done.
    exists (length x + k)%nat. split_and!.
    + rewrite E1, <- app_assoc. f_equal. by rewrite take_app_add.
    + intros Hm. destruct (E2 Hm) as [Hm' Hk]. rewrite length_app. split; [|lia].
      unfold Push in Hm'. by rewrite E in Hm'.
    + rewrite length_app. destruct E3 as [E3|E3]; [left; lia|by right].
    + congruence.
Qed.

Lemma splice_all_spec src : forall b t,
  let '(n, b') := splice_all src b t in
  n = t + Z.of_nat (length (concat src)) /\ extends b b' (concat src).
Proof.
  induction src as [|x src IH]; intros b t; simpl.
  - split; [lia|]. apply extends_refl.
  - specialize (IH (Push x b) (t + Z.of_nat (length x))). destruct (splice_all _ _ _) as [n b'].
    destruct IH as [-> Hx]. rewrite length_app. split; [lia|]. by apply extends_Push.
Qed.

Lemma copy_flags_bytes src b : bytes (copy_flags src b) = bytes b /\
  more (copy_flags src b) = more b || more src.
Proof.
  unfold copy_flags, HasMore. destruct (more src); [|by rewrite orb_false_r].
  rewrite orb_true_r. by destruct (ShouldFallback src && IsEmpty src).
Qed.

(** With a limit, only the first [max] bytes are moved, and the list says that
    there is more if that is not everything. *)
Lemma splice_max_spec src : forall max b t, 0 <= max ->
  let '(n, b') := splice_max src max true b t in
  n = t + Z.of_nat (length (take (Z.to_nat max) (concat src))) /\
  extends b b' (take (Z.to_nat max) (concat src)) /\
  (more b' = false -> Z.of_nat (length (concat src)) <= max).
Proof.
  induction src as [|x src IH]; intros max b t Hmax; simpl.
  { rewrite take_nil. split_and!; [simpl; lia|apply extends_refl|simpl; lia]. }
  destruct (Z.eqb_spec max 0) as [->|Hz].
  { simpl. split_and!; [lia| |done]. apply extends_more, extends_refl. }
  destruct (Z.ltb_spec max (Z.of_nat (length x))) as [Hlt|Hge]; simpl.
  - assert (Hl : Z.of_nat (length (take (Z.to_nat max) x)) = max) by (rewrite length_take; lia).
    specialize (IH (max - Z.of_nat (length (take (Z.to_nat max) x)))
      (Push (take (Z.to_nat max) x) (SetMore b)) (t + Z.of_nat (length (take (Z.to_nat max) x)))
      ltac:(lia)).
    destruct (splice_max _ _ _ _ _) as [n b']. destruct IH as (-> & He & _). rewrite Hl, Z.sub_diag in *.
    simpl in *. apply extends_Push in He. rewrite app_nil_r in He.
    apply extends_more in He as [He Hm].
    rewrite take_app_le by lia. split_and!; [lia|done|congruence].
  - specialize (IH (max - Z.of_nat (length x)) (Push x b) (t + Z.of_nat (length x)) ltac:(lia)).
    destruct (splice_max _ _ _ _ _) as [n b']. destruct IH as (-> & He & Hall).
    apply extends_Push in He. rewrite take_app_ge by lia.
    replace (Z.to_nat (max - Z.of_nat (length x))) with (Z.to_nat max - length x)%nat in * by lia.
    rewrite !length_app. split_and!; [lia|done|intros Hm; specialize (Hall Hm); lia].
Qed.

Lemma copy_buffers_spec src : forall skip b t, 0 <= skip ->
  let '(n, b') := copy_buffers skip src b t in
  n = t + Z.of_nat (length (drop (Z.to_nat skip) (concat src))) /\
  extends b b' (drop (Z.to_nat skip) (concat src)).
Proof.
  induction src as [|x src IH]; intros skip b t Hs; simpl.
  { rewrite drop_nil. split; [simpl; lia|apply extends_refl]. }
  destruct (Z.ltb_spec skip (Z.of_nat (length x))).
  - specialize (IH 0 (Push (drop (Z.to_nat skip) x) b)
      (t + Z.of_nat (length (drop (Z.to_nat skip) x))) ltac:(lia)).
    destruct (copy_buffers _ _ _ _) as [n b']. destruct IH as [-> He].
    change (Z.to_nat 0) with O in *. rewrite drop_0 in *. rewrite drop_app_le by lia. rewrite length_app. split; [lia|]. by apply extends_Push.
  - specialize (IH (skip - Z.of_nat (length x)) b t ltac:(lia)).
    destruct (copy_buffers _ _ _ _) as [n b']. destruct IH as [-> He]. rewrite drop_app_ge by lia.
    by replace (Z.to_nat (skip - Z.of_nat (length x))) with (Z.to_nat skip - length x)%nat in * by lia.
Qed.

(** What [SpliceBuffersFrom()] with a limit does to a list. *)
Lemma SpliceBuffersFrom_max_spec src max b :
  0 <= max ->
  let '(n, b') := SpliceBuffersFrom_max src max true b in
  n = Z.min max (GetTotalBufferSize src) /\
  exists k, bytes b' = bytes b ++ take k (take (Z.to_nat max) (bytes src)) /\
    ((length (take (Z.to_nat max) (bytes src)) <= k)%nat \/ IsFull b' = true) /\
    (more b' = false -> more b = false /\ more src = false /\
       bytes b' = bytes b ++ bytes src /\ GetTotalBufferSize src <= max).
Proof.
  intros Hmax. unfold SpliceBuffersFrom_max.
  pose proof (splice_max_spec (buckets src) max (copy_flags src b) 0 Hmax) as Hs.
  destruct (splice_max _ _ _ _ _) as [n b']. fold (bytes src) in Hs.
  rewrite <- bytes_size. destruct Hs as (-> & (k & E1 & E2 & E3 & _) & Hall).
  destruct (copy_flags_bytes src b) as [Eb Em]. rewrite Eb in E1. split; [rewrite length_take; lia|].
  exists k. split_and!; [done|done|]. intros Hm. destruct (E2 Hm) as [Hf Hk]. rewrite Em in Hf.
  apply orb_false_iff in Hf as [-> ->]. specialize (Hall Hm). split_and!; try done.
  rewrite E1. f_equal. rewrite length_take in Hk. rewrite !take_ge by (rewrite ?length_take; lia). done.
Qed.

(** ** The theorem *)

(** Moving at most [max] bytes between lists: the result is the number of
    bytes in reach of the limit; what arrives is a prefix of these bytes, and
    if anything was left behind, because of the limit or because the list of
    64 buckets was full, the list says that there is more data. *)
Theorem splice_max_prefix src max b n b' :
  0 <= max -> SpliceBuffersFrom_max src max true b = (n, b') ->
  n = Z.min max (GetTotalBufferSize src) /\
  (exists k, bytes b' = bytes b ++ take k (bytes src) /\ Z.of_nat k <= max) /\
  (HasMore b' = false -> HasMore b = false /\ HasMore src = false /\ bytes b' = bytes b ++ bytes src).
Proof.
  intros Hmax E. pose proof (SpliceBuffersFrom_max_spec src max b Hmax) as Hs. rewrite E in Hs.
  destruct Hs as (-> & k & E1 & _ & E2). split_and!; [done| |].
  - exists (Nat.min k (Z.to_nat max)). split; [by rewrite E1, take_take|lia].
  - intros Hm. by destruct (E2 Hm) as (? & ? & ? & _).
Qed.

Lemma splice_max_prefix_witness :
  3 = Z.min 3 5 /\
  (exists k, str "hel" = [] ++ take k (str "hello") /\ Z.of_nat k <= 3) /\
  (true = false -> false = false /\ false = false /\ str "hel" = [] ++ str "hello").
Proof.
  apply (splice_max_prefix (mk_buckets [str "hello"] false false) 3 IstreamBucketList_new 3
    (mk_buckets [str "hel"] true false)); [lia|done].
Defined.
