(* ===== verification/Chunked.v ===== *)
(** * HTTP/1.1 "chunked" transfer encoding: the encoder

    [src/istream/ChunkedIstream.cxx]: a filter that receives data from its
    input and sends it, framed in chunks, to its handler.  The handler accepts
    as much as it likes of what it is offered, nothing (it blocks), or closes
    the stream in the middle of a call; its decisions are a list in the state
    of the model, over which the theorems quantify. *)

From S2P Require Import Prelude Chunk.

#[local] Open Scope beng_scope.

(** ** The state *)

(** What the handler does when it is offered data. *)
Inductive reaction :=
| Accept (n : Z)
| CloseStream.

(** Is the istream alive, or was it destroyed: at end of file, after an
    error, or by its handler? *)
Inductive phase := Alive | AtEof | AtError | Closed.

#[global] Instance phase_eq_dec : EqDecision phase.
Proof. solve_decision. Defined.

Definition BUFFER_SIZE : Z := 7.

Record ChunkedIstream := mk_chunked {
  writing_buffer : bool;
  buffer : list Z;
  buffer_sent : Z;
  missing_from_current_chunk : Z;
  has_input : bool;
  life : phase;
  handler : list reaction;
  output : list Z;
}.

Definition set_writing b c :=
  mk_chunked b (buffer c) (buffer_sent c) (missing_from_current_chunk c) (has_input c) (life c)
    (handler c) (output c).
Definition set_buffer b s c :=
  mk_chunked (writing_buffer c) b s (missing_from_current_chunk c) (has_input c) (life c)
    (handler c) (output c).
Definition set_missing m c :=
  mk_chunked (writing_buffer c) (buffer c) (buffer_sent c) m (has_input c) (life c)
    (handler c) (output c).
Definition clear_input c :=
  mk_chunked (writing_buffer c) (buffer c) (buffer_sent c) (missing_from_current_chunk c) false (life c)
    (handler c) (output c).
Definition set_life l c :=
  mk_chunked (writing_buffer c) (buffer c) (buffer_sent c) (missing_from_current_chunk c) (has_input c) l
    (handler c) (output c).
Definition set_handler h o c :=
  mk_chunked (writing_buffer c) (buffer c) (buffer_sent c) (missing_from_current_chunk c) (has_input c) (life c)
    h o.

(** [istream_chunked_new()]; the initial contents of the buffer are never
    read. *)
Definition ChunkedIstream_new (h : list reaction) : ChunkedIstream :=
  mk_chunked false (replicate 7 0) BUFFER_SIZE 0 true Alive h [].

(** [HexFormatUint16Fixed()] of libcommon: four hexadecimal digits, the most
    significant one first. *)
Class HexFormat := HexFormatUint16Fixed : Z -> list Z.

Class HexFormatOk `{HexFormat} :=
  hex_format_digits : forall x, 0 <= x < 65536 ->
    map hex_digit (HexFormatUint16Fixed x) =
    [Some (x / 4096); Some (x / 256 mod 16); Some (x / 16 mod 16); Some (x mod 16)].

Section Model.
Context `{HexFormat}.

(** ** The handler *)

(** [InvokeData()] of a living istream. *)
Definition InvokeData (src : list Z) : M ChunkedIstream Z :=
  let! c := mget in
  massert (bool_decide (life c = Alive)) ;;;
  massert (negb (bool_decide (src = []))) ;;;
  match handler c with
  | [] => mret 0
  | Accept n :: h =>
    let n := Z.max 0 (Z.min n (Z.of_nat (length src))) in
    mput (set_handler h (output c ++ take (Z.to_nat n) src) c) ;;;
    mret n
  | CloseStream :: h =>
    mput (set_life Closed (set_handler h (output c) c)) ;;;
    mret 0
  end.

Definition DestroyEof : M ChunkedIstream unit :=
  let! c := mget in
  massert (bool_decide (life c = Alive)) ;;;
  mput (set_life AtEof c).

Definition DestroyError : M ChunkedIstream unit :=
  let! c := mget in
  massert (bool_decide (life c = Alive)) ;;;
  mput (set_life AtError c).

(** ** The buffer *)

Definition IsBufferEmpty : M ChunkedIstream bool :=
  let! c := mget in
  massert (buffer_sent c <=? BUFFER_SIZE) ;;;
  mret (buffer_sent c =? BUFFER_SIZE).

(** [SetBuffer()] and the writes to the pointer it returns. *)
Definition SetBuffer (src : list Z) : M ChunkedIstream unit :=
  let! empty := IsBufferEmpty in
  massert empty ;;;
  massert (Z.of_nat (length src) <=? BUFFER_SIZE) ;;;
  mmod (fun c =>
    let sent := BUFFER_SIZE - Z.of_nat (length src) in
    set_buffer (take (Z.to_nat sent) (buffer c) ++ src) sent c).

Definition ReadBuffer (c : ChunkedIstream) : list Z := drop (Z.to_nat (buffer_sent c)) (buffer c).

Definition AppendToBuffer (src : list Z) : M ChunkedIstream unit :=
  let! c := mget in
  massert (negb (bool_decide (src = []))) ;;;
  massert (Z.of_nat (length src) <=? buffer_sent c) ;;;
  let old := ReadBuffer c in
  mmod (fun c => set_buffer (buffer c) BUFFER_SIZE c) ;;;
  SetBuffer (old ++ src).

Definition StartChunk (length : Z) : M ChunkedIstream unit :=
  massert (0 <? length) ;;;
  let! empty := IsBufferEmpty in
  massert empty ;;;
  let! c := mget in
  massert (missing_from_current_chunk c =? 0) ;;;
  let length := if 32768 <? length then 32768 else length in
  mmod (set_missing length) ;;;
  SetBuffer (HexFormatUint16Fixed (wrap 16 length) ++ [CR; LF]).

Definition ConsumeBuffer (nbytes : Z) : M ChunkedIstream Z :=
  let! c := mget in
  let size := Z.min (Z.of_nat (length (ReadBuffer c))) nbytes in
  (if 0 <? size then mmod (fun c => set_buffer (buffer c) (buffer_sent c + size) c) else mret tt) ;;;
  mret size.

Definition SendBuffer : M ChunkedIstream bool :=
  let! c := mget in
  let r := ReadBuffer c in
  if bool_decide (r = []) then mret true
  else
    let! nbytes := InvokeData r in
    (if 0 <? nbytes then mmod (fun c => set_buffer (buffer c) (buffer_sent c + nbytes) c)
     else mret tt) ;;;
    mret (nbytes =? Z.of_nat (length r)).

Definition destructed : M ChunkedIstream bool :=
  mgets (fun c => negb (bool_decide (life c = Alive))).

Definition SendBuffer2 : M ChunkedIstream bool :=
  let! c := mget in
  massert (negb (writing_buffer c)) ;;;
  mmod (set_writing true) ;;;
  let! result := SendBuffer in
  let! gone := destructed in
  (if gone then mret tt else mmod (set_writing false)) ;;;
  mret result.

(** ** Receiving data *)

(** One iteration of the loop of [Feed()]: the new [total] and whether the loop
    goes on, or the return value of the function. *)
Definition Feed_body (src : list Z) (total : Z) : M ChunkedIstream (Z + Z * bool) :=
  let! c := mget in
  massert (negb (writing_buffer c)) ;;;
  let! empty := IsBufferEmpty in
  (if empty && (missing_from_current_chunk c =? 0)
   then StartChunk (Z.of_nat (length src) - total) else mret tt) ;;;
  let! sent := SendBuffer in
  if negb sent then
    let! gone := destructed in
    mret (inl (if gone : bool then 0 else total))
  else
  let! empty := IsBufferEmpty in
  massert empty ;;;
  let! c := mget in
  if missing_from_current_chunk c =? 0 then
    mret (inr (total, total <? Z.of_nat (length src)))
  else
  let rest := Z.min (Z.of_nat (length src) - total) (missing_from_current_chunk c) in
  let! nbytes := InvokeData (take (Z.to_nat rest) (drop (Z.to_nat total) src)) in
  if nbytes =? 0 then
    let! gone := destructed in
    mret (inl (if gone : bool then 0 else total))
  else
  let total := total + nbytes in
  mmod (fun c => set_missing (missing_from_current_chunk c - nbytes) c) ;;;
  let! c := mget in
  (if missing_from_current_chunk c =? 0 then SetBuffer [CR; LF] else mret tt) ;;;
  let! empty := IsBufferEmpty in
  mret (inr (total, (negb empty || (total <? Z.of_nat (length src))) && (nbytes =? rest))).

(** Every second iteration makes progress, so that the length of the data
    bounds the number of iterations. *)
Fixpoint Feed_loop (fuel : nat) (src : list Z) (total : Z) : M ChunkedIstream Z :=
  match fuel with
  | O => mfail
  | S fuel =>
    let! r := Feed_body src total in
    match r with
    | inl result => mret result
    | inr (total, again) => if again : bool then Feed_loop fuel src total else mret total
    end
  end.

Definition Feed (src : list Z) : M ChunkedIstream Z :=
  let! c := mget in
  massert (has_input c) ;;;
  Feed_loop (2 * length src + 2) src 0.

Definition OnData (src : list Z) : M ChunkedIstream Z :=
  let! c := mget in
  if writing_buffer c then mret 0 else Feed src.

Definition OnEof : M ChunkedIstream unit :=
  let! c := mget in
  massert (has_input c) ;;;
  massert (missing_from_current_chunk c =? 0) ;;;
  mmod clear_input ;;;
  AppendToBuffer end_chunk ;;;
  let! sent := SendBuffer in
  if sent : bool then DestroyEof else mret tt.

Definition OnError : M ChunkedIstream unit :=
  let! c := mget in
  massert (has_input c) ;;;
  mmod clear_input ;;;
  DestroyError.

(** [_Read()]; [available] is what [GetAvailable(true)] of the input returns.
    The result says whether [Read()] of the input is called in the end. *)
Definition Read (available : Z) : M ChunkedIstream bool :=
  let! sent := SendBuffer2 in
  if negb sent then mret false
  else
  let! c := mget in
  if negb (has_input c) then DestroyEof ;;; mret false
  else
  let! empty := IsBufferEmpty in
  if empty && (missing_from_current_chunk c =? 0) && (0 <? available) then
    StartChunk available ;;;
    SendBuffer2
  else mret true.

(** ** The invariant *)

(** What decoding the bytes sent so far, and the buffer, leads to. *)
Definition parser_of (c : ChunkedIstream) : HttpChunkParser :=
  if negb (has_input c) then mk_parser END 0
  else if missing_from_current_chunk c =? 0 then mk_parser NONE 0
  else mk_parser DATA (missing_from_current_chunk c).

(** [fed] was received from the input, which has announced [left] more bytes;
    [w] is the value of [writing_buffer]. *)
Record CInv (w : bool) (c : ChunkedIstream) (fed : list Z) (left : Z) : Prop := {
  ci_alive : life c = Alive;
  ci_writing : writing_buffer c = w;
  ci_buffer : length (buffer c) = 7%nat;
  ci_sent : 0 <= buffer_sent c <= 7;
  ci_wire : dechunk HttpChunkParser_new (output c ++ ReadBuffer c) = Decoded fed (parser_of c) [];
  ci_missing : 0 <= missing_from_current_chunk c <= 32768;
  ci_left : missing_from_current_chunk c <= left;
  ci_room : missing_from_current_chunk c = 0 -> has_input c = true -> 5 <= buffer_sent c;
}.

Lemma ReadBuffer_length w c fed left : CInv w c fed left ->
  Z.of_nat (length (ReadBuffer c)) = 7 - buffer_sent c.
Proof.
  intros HC. unfold ReadBuffer. rewrite length_drop, (ci_buffer _ _ _ _ HC).
  pose proof (ci_sent _ _ _ _ HC). lia.
Qed.

Lemma ReadBuffer_empty w c fed left : CInv w c fed left ->
  (buffer_sent c =? BUFFER_SIZE) = bool_decide (ReadBuffer c = []).
Proof.
  intros HC. pose proof (ReadBuffer_length _ _ _ _ HC) as Hl. unfold BUFFER_SIZE.
  destruct (Z.eqb_spec (buffer_sent c) 7) as [E|E]; symmetry.
  - apply bool_decide_eq_true. apply nil_length_inv. lia.
  - apply bool_decide_eq_false. intros Hn. rewrite Hn in Hl. simpl in Hl. lia.
Qed.

Lemma wp_IsBufferEmpty w c fed left Q : CInv w c fed left ->
  Q (bool_decide (ReadBuffer c = [])) c -> wp IsBufferEmpty Q c.
Proof.
  intros HC HQ. pose proof (ci_sent _ _ _ _ HC). unfold IsBufferEmpty. wp_step. wp_step. wp_step.
  wp_step; [apply Z.leb_le; unfold BUFFER_SIZE; lia|]. wp_step.
  by rewrite (ReadBuffer_empty _ _ _ _ HC).
Qed.

(** *** Sending the buffer *)

(** The handler has accepted the first [n] bytes of what it was offered, or
    has closed the stream. *)
Lemma InvokeData_spec src c Q :
  life c = Alive -> src <> [] ->
  (forall n h, 0 <= n <= Z.of_nat (length src) ->
     Q n (set_handler h (output c ++ take (Z.to_nat n) src) c)) ->
  (forall c', life c' = Closed -> Q 0 c') ->
  wp (InvokeData src) Q c.
Proof.
  intros Hl Hs HQ HQc. unfold InvokeData. wp_step. wp_step. wp_step.
  wp_step; [by apply bool_decide_eq_true|]. wp_step.
  wp_step; [by apply negb_true_iff, bool_decide_eq_false|].
  destruct (handler c) as [|[n|] h].
  - wp_step. specialize (HQ 0 (handler c) ltac:(lia)). rewrite app_nil_r in HQ. by destruct c.
  - cbv zeta. wp_step. wp_step. wp_step. apply HQ. lia.
  - wp_step. wp_step. wp_step. by apply HQc.
Qed.

(** What sending does not change. *)
Definition same_core (c c' : ChunkedIstream) : Prop :=
  missing_from_current_chunk c' = missing_from_current_chunk c /\ has_input c' = has_input c /\
  writing_buffer c' = writing_buffer c.

Lemma SendBuffer_spec w c fed left Q :
  CInv w c fed left ->
  (forall c', CInv w c' fed left -> same_core c c' -> ReadBuffer c' = [] -> Q true c') ->
  (forall c', CInv w c' fed left -> same_core c c' -> ReadBuffer c' <> [] -> Q false c') ->
  (forall c', life c' = Closed -> Q false c') ->
  wp SendBuffer Q c.
Proof.
  intros HC HQ1 HQ2 HQ3. pose proof (ReadBuffer_length _ _ _ _ HC) as Hl.
  unfold SendBuffer. wp_step. wp_step. cbv zeta.
  case_bool_decide as Hr; [wp_step; by apply HQ1|].
  wp_step. apply InvokeData_spec; [apply HC|done| |].
  2: { intros c' Hc. change (0 <? 0) with false. cbv iota. wp_step. wp_step. wp_step.
       destruct (Z.eqb_spec 0 (Z.of_nat (length (ReadBuffer c)))) as [E|E]; [|by apply HQ3].
       destruct (ReadBuffer c); simpl in *; [done|lia]. }
  intros n h Hn.
  set (c' := set_buffer (buffer c) (buffer_sent c + n)
    (set_handler h (output c ++ take (Z.to_nat n) (ReadBuffer c)) c)).
  assert (Hr' : ReadBuffer c' = drop (Z.to_nat n) (ReadBuffer c)).
  { unfold ReadBuffer at 1. simpl. unfold ReadBuffer. rewrite drop_drop. f_equal.
    pose proof (ci_sent _ _ _ _ HC). lia. }
  assert (HC' : CInv w c' fed left).
  { destruct HC. constructor; simpl; try done; [lia| |intros; specialize (ci_room0 ltac:(done) ltac:(done)); lia].
    rewrite Hr', <- app_assoc, take_drop. done. }
  assert (Hfin : Q (n =? Z.of_nat (length (ReadBuffer c))) c').
  { destruct (Z.eqb_spec n (Z.of_nat (length (ReadBuffer c)))) as [->|Hne].
    - apply HQ1; [done|done|]. by rewrite Hr', Nat2Z.id, drop_all.
    - apply HQ2; [done|done|]. rewrite Hr'. intros Hd.
      pose proof (length_drop (ReadBuffer c) (Z.to_nat n)) as Hld. rewrite Hd in Hld. simpl in Hld. lia. }
  wp_step. destruct (Z.ltb_spec 0 n); wp_step; wp_step; [done|].
  assert (n = 0) as -> by lia. unfold c' in Hfin. rewrite Z.add_0_r in Hfin. by destruct c.
Qed.

(** *** Filling the buffer *)

Lemma SetBuffer_spec src c Q :
  length (buffer c) = 7%nat -> buffer_sent c = 7 -> (length src <= 7)%nat ->
  (forall b s, length b = 7%nat -> s = 7 - Z.of_nat (length src) -> drop (Z.to_nat s) b = src ->
     Q tt (set_buffer b s c)) ->
  wp (SetBuffer src) Q c.
Proof.
  intros Hb Hs Hl HQ. unfold SetBuffer, IsBufferEmpty. wp_step. wp_step. wp_step. wp_step.
  rewrite Hs. wp_step; [done|]. wp_step. wp_step. wp_step; [done|]. wp_step.
  wp_step; [apply Z.leb_le; unfold BUFFER_SIZE; lia|]. wp_step. unfold BUFFER_SIZE. cbv zeta.
  assert (Htake : length (take (Z.to_nat (7 - Z.of_nat (length src))) (buffer c)) =
                  Z.to_nat (7 - Z.of_nat (length src))) by (rewrite length_take; lia).
  apply HQ; [rewrite length_app; lia|done|]. apply drop_app_length'. lia.
Qed.

Lemma hex_value_fixed x : 0 <= x < 65536 ->
  hex_value [x / 4096; x / 256 mod 16; x / 16 mod 16; x mod 16] 0 = x.
Proof.
  intros Hx. unfold hex_value. simpl.
  assert (E1 : x / 256 = x / 16 / 16) by (by rewrite Z.div_div).
  assert (E2 : x / 4096 = x / 16 / 16 / 16) by (by rewrite !Z.div_div).
  rewrite E1, E2. pose proof (Z.div_mod x 16 ltac:(lia)). pose proof (Z.div_mod (x / 16) 16 ltac:(lia)).
  pose proof (Z.div_mod (x / 16 / 16) 16 ltac:(lia)). lia.
Qed.

Context `{!HexFormatOk}.

Lemma hex_format_length x : 0 <= x < 65536 -> length (HexFormatUint16Fixed x) = 4%nat.
Proof. intros Hx. rewrite <- (length_map hex_digit), hex_format_digits by done. done. Qed.

(** The header of a chunk of [x] bytes. *)
Lemma dechunk_fixed_header x : 0 < x < 65536 ->
  dechunk (mk_parser NONE 0) (HexFormatUint16Fixed x ++ [CR; LF]) = Decoded [] (mk_parser DATA x) [].
Proof.
  intros Hx. rewrite (dechunk_header [x / 4096; x / 256 mod 16; x / 16 mod 16; x mod 16]); try done.
  - rewrite hex_value_fixed by lia. destruct (Z.eqb_spec x 0); [lia|done].
  - by rewrite hex_format_digits by lia.
  - repeat constructor; try (apply Z.mod_pos_bound; lia). apply Z.div_pos; lia.
  - rewrite hex_value_fixed by lia. lia.
Qed.

Lemma StartChunk_spec w c fed left n Q :
  CInv w c fed left -> has_input c = true -> missing_from_current_chunk c = 0 -> ReadBuffer c = [] ->
  0 < n <= left ->
  (forall c', CInv w c' fed left -> has_input c' = true ->
     0 < missing_from_current_chunk c' -> handler c' = handler c -> Q tt c') ->
  wp (StartChunk n) Q c.
Proof.
  intros HC Hi Hm Hr Hn HQ. pose proof (ReadBuffer_length _ _ _ _ HC) as Hl. rewrite Hr in Hl. simpl in Hl.
  unfold StartChunk. wp_step. wp_step; [apply Z.ltb_lt; lia|]. wp_step.
  eapply wp_IsBufferEmpty; [done|]. wp_step. wp_step; [by apply bool_decide_eq_true|].
  wp_step. wp_step. wp_step. wp_step; [by apply Z.eqb_eq|]. cbv zeta.
  set (x := if 32768 <? n then 32768 else n).
  assert (Hx : 0 < x <= 32768 /\ x <= left) by (unfold x; destruct (Z.ltb_spec 32768 n); lia).
  rewrite wrap_id by lia. wp_step. wp_step.
  apply SetBuffer_spec; [apply HC|simpl; lia|rewrite length_app, hex_format_length by lia; simpl; lia|].
  intros b s Hb Hs Hd. rewrite length_app, hex_format_length in Hs by lia. simpl in Hs.
  apply HQ; simpl; try done; [|lia].
  destruct HC. constructor; simpl; try done; try lia.
  unfold ReadBuffer, parser_of in *. simpl. rewrite Hd, Hi. simpl.
  rewrite Hr, app_nil_r, Hi, Hm in ci_wire0. simpl in ci_wire0.
  rewrite (dechunk_app _ _ _ _ _ ci_wire0), dechunk_fixed_header by lia. simpl. rewrite app_nil_r.
  destruct (Z.eqb_spec x 0); [lia|done].
Qed.

Lemma CInv_writing w c fed left w' : CInv w c fed left -> CInv w' (set_writing w' c) fed left.
Proof. intros []. by constructor. Qed.

Lemma SendBuffer2_spec c fed left Q :
  CInv false c fed left ->
  (forall c', CInv false c' fed left -> same_core c c' -> ReadBuffer c' = [] -> Q true c') ->
  (forall c', CInv false c' fed left -> same_core c c' -> ReadBuffer c' <> [] -> Q false c') ->
  (forall c', life c' = Closed -> Q false c') ->
  wp SendBuffer2 Q c.
Proof.
  intros HC HQ1 HQ2 HQ3. unfold SendBuffer2. wp_step. wp_step. wp_step.
  wp_step; [by rewrite (ci_writing _ _ _ _ HC)|]. wp_step. wp_step. wp_step.
  assert (Hback : forall r c', CInv true c' fed left -> same_core (set_writing true c) c' ->
    Q r (set_writing false c') ->
    wp (let! gone := destructed in (if gone then mret tt else mmod (set_writing false)) ;;; mret r) Q c').
  { intros r c' HC' _ HQr. wp_step. unfold destructed. wp_step.
    rewrite (ci_alive _ _ _ _ HC'). simpl. wp_step. wp_step. by wp_step. }
  eapply SendBuffer_spec; [apply (CInv_writing _ _ _ _ true HC)| | |].
  - intros c' HC' Hs Hr. apply Hback; [done|done|]. apply HQ1; [by eapply CInv_writing| |done].
    destruct Hs as (? & ? & _). split_and!; try done. by rewrite (ci_writing _ _ _ _ HC).
  - intros c' HC' Hs Hr. apply Hback; [done|done|]. apply HQ2; [by eapply CInv_writing| |done].
    destruct Hs as (? & ? & _). split_and!; try done. by rewrite (ci_writing _ _ _ _ HC).
  - intros c' Hc. wp_step. unfold destructed. wp_step. rewrite Hc. simpl. wp_step. wp_step. wp_step.
    by apply HQ3.
Qed.

(** *** Receiving data *)

(** [total] bytes of [src] have been sent. *)
Record feeding (c : ChunkedIstream) (fed : list Z) (left : Z) (src : list Z) (total : Z) : Prop := {
  fd_inv : CInv false c (fed ++ take (Z.to_nat total) src) (left - total);
  fd_input : has_input c = true;
  fd_total : 0 <= total <= Z.of_nat (length src);
}.

(** The loop has something to do. *)
Definition feed_again (c : ChunkedIstream) (src : list Z) (total : Z) : Prop :=
  (total < Z.of_nat (length src) \/ ReadBuffer c <> []) /\
  (0 < missing_from_current_chunk c -> total < Z.of_nat (length src)).

Definition feed_measure (c : ChunkedIstream) (src : list Z) (total : Z) : Z :=
  2 * (Z.of_nat (length src) - total) +
  (if (missing_from_current_chunk c =? 0) && negb (bool_decide (ReadBuffer c = [])) then 1 else 0).

Lemma take_more (src : list Z) (t n : Z) :
  0 <= t -> 0 <= n ->
  take (Z.to_nat (t + n)) src = take (Z.to_nat t) src ++ take (Z.to_nat n) (drop (Z.to_nat t) src).
Proof.
  intros Ht Hn. replace (Z.to_nat (t + n)) with (Z.to_nat t + Z.to_nat n)%nat by lia.
  symmetry. apply take_take_drop.
Qed.

(** The bytes of [x] are sent as data of the current chunk. *)
Lemma send_data_spec {A} c fed left x (k0 : M ChunkedIstream A) (k : Z -> M ChunkedIstream A) Q :
  CInv false c fed left -> has_input c = true -> ReadBuffer c = [] ->
  x <> [] -> Z.of_nat (length x) <= missing_from_current_chunk c ->
  (forall n c', 0 < n <= Z.of_nat (length x) ->
     CInv false c' (fed ++ take (Z.to_nat n) x) (left - n) -> has_input c' = true ->
     ReadBuffer c' = (if missing_from_current_chunk c - n =? 0 then [CR; LF] else []) ->
     missing_from_current_chunk c' = missing_from_current_chunk c - n ->
     wp (k n) Q c') ->
  (forall c', CInv false c' fed left -> has_input c' = true -> wp k0 Q c') ->
  (forall c', life c' = Closed -> wp k0 Q c') ->
  wp (let! nbytes := InvokeData x in
      if nbytes =? 0 then k0
      else
        mmod (fun c => set_missing (missing_from_current_chunk c - nbytes) c) ;;;
        let! c := mget in
        (if missing_from_current_chunk c =? 0 then SetBuffer [CR; LF] else mret tt) ;;;
        k nbytes) Q c.
Proof.
  intros HC Hi Hr Hx Hlen HQ HQ0 HQc. wp_step. apply InvokeData_spec; [apply HC|done| |].
  2: { intros c' Hc. simpl. by apply HQc. }
  intros n h Hn. destruct (Z.eqb_spec n 0) as [->|Hn0].
  { apply HQ0; [|done]. simpl. rewrite app_nil_r. by destruct HC. }
  set (y := take (Z.to_nat n) x). assert (Hy : Z.of_nat (length y) = n) by (unfold y; rewrite length_take; lia).
  pose proof (ReadBuffer_length _ _ _ _ HC) as Hl. rewrite Hr in Hl. simpl in Hl.
  destruct HC. rewrite Hr, app_nil_r in ci_wire0. unfold parser_of in ci_wire0. rewrite Hi in ci_wire0.
  simpl in ci_wire0. destruct (Z.eqb_spec (missing_from_current_chunk c) 0) as [Em|Em]; [lia|].
  assert (Hd : dechunk HttpChunkParser_new (output c ++ y) = Decoded (fed ++ y)
    (consumed n (mk_parser DATA (missing_from_current_chunk c))) []).
  { rewrite (dechunk_app _ _ _ _ _ ci_wire0), dechunk_data by (simpl; done || lia). simpl. by rewrite Hy. }
  wp_step. wp_step. wp_step. wp_step. simpl missing_from_current_chunk. wp_step.
  destruct (Z.eqb_spec (missing_from_current_chunk c - n) 0) as [Ez|Ez].
  - apply SetBuffer_spec; [done|simpl; lia|simpl; lia|]. intros b s Hb -> Hdr.
    apply HQ; simpl; try done; [lia| |rewrite Ez; exact Hdr]. constructor; simpl; try done; try lia.
    unfold ReadBuffer, parser_of. simpl. simpl in Hdr. rewrite Hdr, Hi. simpl.
    rewrite (dechunk_app _ _ _ _ _ Hd), dechunk_crlf by (unfold consumed; simpl; by rewrite Ez).
    unfold consumed, set_state. simpl. by rewrite Ez, app_nil_r.
  - wp_step. apply HQ; simpl; try done; [lia| |by destruct (Z.eqb_spec (missing_from_current_chunk c - n) 0)].
    constructor; simpl; try done; try lia.
    unfold ReadBuffer, parser_of in *. simpl. rewrite Hr, app_nil_r, Hi. simpl. rewrite Hd.
    unfold consumed. simpl. by destruct (Z.eqb_spec (missing_from_current_chunk c - n) 0).
Qed.

Lemma Feed_body_spec c fed left src total Q :
  feeding c fed left src total -> feed_again c src total -> Z.of_nat (length src) <= left ->
  (forall r c', life c' = Closed -> Q (inl r) c') ->
  (forall c', feeding c' fed left src total -> Q (inl total) c') ->
  (forall c' total' again, feeding c' fed left src total' ->
     (again = true -> feed_again c' src total' /\
        feed_measure c' src total' < feed_measure c src total) -> Q (inr (total', again)) c') ->
  wp (Feed_body src total) Q c.
Proof.
  intros [HC Hi Ht] [Ha1 Ha2] Hleft HQc HQb HQ. unfold Feed_body.
  assert (Hgone : forall c', life c' = Closed -> wp (let! gone := destructed in
     mret (inl (if gone : bool then 0 else total))) Q c').
  { intros c' Hc. wp_step. unfold destructed. wp_step. rewrite Hc. simpl. wp_step. by apply HQc. }
  assert (Hblock : forall c', feeding c' fed left src total -> wp (let! gone := destructed in
     mret (inl (if gone : bool then 0 else total))) Q c').
  { intros c' Hf. wp_step. unfold destructed. wp_step. rewrite (ci_alive _ _ _ _ (fd_inv _ _ _ _ _ Hf)).
    simpl. wp_step. by apply HQb. }
  wp_step. wp_step. wp_step. wp_step; [by rewrite (ci_writing _ _ _ _ HC)|].
  wp_step. eapply wp_IsBufferEmpty; [exact HC|]. wp_step.
  set (k := mbnd SendBuffer _).
  assert (Hk : forall c1, feeding c1 fed left src total ->
    (0 < missing_from_current_chunk c1 -> total < Z.of_nat (length src)) ->
    (missing_from_current_chunk c1 = 0 ->
       missing_from_current_chunk c = 0 /\ ReadBuffer c <> [] \/ False) ->
    wp k Q c1).
  2: { destruct (bool_decide (ReadBuffer c = []) && (missing_from_current_chunk c =? 0)) eqn:Eb.
    - simpl_bool. destruct Ha1 as [Ha1|]; [|done].
      eapply StartChunk_spec; [exact HC|done|done|done|lia|].
      intros c1 HC1 Hi1 Hm1 _. apply Hk; [by constructor|done|lia].
    - wp_step. apply Hk; [by constructor|done|]. intros Hm. left. split; [done|].
      intros Hr. apply andb_false_iff in Eb as [Eb|Eb]; simpl_bool; done. }
  intros c1 [HC1 Hi1 _] Hm1 Hcase. unfold k. wp_step. eapply SendBuffer_spec; [exact HC1| | |].
  3: { intros c2 Hc2. simpl. by apply Hgone. }
  2: { intros c2 HC2 (_ & Hi2 & _) _. simpl. apply Hblock. constructor; [done|by rewrite Hi2|done]. }
  intros c2 HC2 (Hm2 & Hi2 & _) Hr2. simpl. rewrite Hi1 in Hi2.
  wp_step. eapply wp_IsBufferEmpty; [exact HC2|]. wp_step. wp_step; [by apply bool_decide_eq_true|].
  wp_step. wp_step. destruct (Z.eqb_spec (missing_from_current_chunk c2) 0) as [Ez|Ez].
  { wp_step. apply HQ; [by constructor|]. intros Hlt. simpl_bool. rewrite Hm2 in Ez.
    destruct (Hcase Ez) as [[E1 E2]|[]]. split; [split; [by left|rewrite Hm2; lia]|].
    unfold feed_measure. rewrite E1, Hr2. simpl. rewrite andb_false_r.
    rewrite bool_decide_eq_false_2 by done. simpl. lia. }
  pose proof (ci_missing _ _ _ _ HC2). cbv zeta. rewrite Hm2 in *.
  set (rest := Z.min (Z.of_nat (length src) - total) (missing_from_current_chunk c1)).
  assert (Hrest : 0 < rest) by (unfold rest; lia).
  set (x := take (Z.to_nat rest) (drop (Z.to_nat total) src)).
  assert (Hx : Z.of_nat (length x) = rest) by (unfold x; rewrite length_take, length_drop; lia).
  eapply send_data_spec; [exact HC2|done|done| |lia| | |].
  - intros E. rewrite E in Hx. simpl in Hx. lia.
  - intros n c3 Hn HC3 Hi3 Hr3 Hm3.
    wp_step. eapply wp_IsBufferEmpty; [exact HC3|]. wp_step.
    assert (Hf3 : feeding c3 fed left src (total + n)).
    { constructor; [|done|lia]. rewrite take_more by lia. rewrite app_assoc.
      replace (left - (total + n)) with (left - total - n) by lia.
      assert (E : take (Z.to_nat n) (drop (Z.to_nat total) src) = take (Z.to_nat n) x).
      { unfold x. rewrite take_take. f_equal. lia. }
      by rewrite E. }
    apply HQ; [done|]. intros [Hag _]%andb_true_iff.
    assert (Hag' : ReadBuffer c3 <> [] \/ total + n < Z.of_nat (length src)).
    { apply orb_true_iff in Hag as [Hag|Hag]; simpl_bool; auto. }
    split; [split; [tauto|]|].
    + intros Hm. destruct Hag' as [Hb|]; [|done]. rewrite Hr3 in Hb.
      destruct (Z.eqb_spec (missing_from_current_chunk c2 - n) 0); [lia|done].
    + unfold feed_measure. destruct (_ && _), (_ && _); lia.
  - intros c3 HC3 Hi3. apply Hblock. by constructor.
  - done.
Qed.

Lemma Feed_loop_spec fuel : forall c fed left src total Q,
  feeding c fed left src total -> feed_again c src total -> Z.of_nat (length src) <= left ->
  feed_measure c src total < Z.of_nat fuel ->
  (forall r c', life c' = Closed -> Q r c') ->
  (forall total' c', feeding c' fed left src total' -> Q total' c') ->
  wp (Feed_loop fuel src total) Q c.
Proof.
  induction fuel as [|fuel IH]; intros c fed left src total Q Hf Ha Hleft Hfuel HQc HQ.
  { assert (0 <= feed_measure c src total); [|lia].
    pose proof (fd_total _ _ _ _ _ Hf). unfold feed_measure. case_match; lia. }
  simpl. wp_step. eapply Feed_body_spec; [exact Hf|done|done| | |].
  - intros r c' Hc. wp_step. by apply HQc.
  - intros c' Hf'. wp_step. by apply HQ.
  - intros c' total' [|] Hf' Hag; [|wp_step; by apply HQ]. destruct (Hag eq_refl) as [H1 H2].
    eapply IH; [exact Hf'|done|done|lia|done|done].
Qed.

(** [OnData()] accepts some of the data. *)
Lemma OnData_spec c fed left src Q :
  CInv false c fed left -> has_input c = true -> src <> [] -> Z.of_nat (length src) <= left ->
  (forall r c', life c' = Closed -> Q r c') ->
  (forall n c', 0 <= n <= Z.of_nat (length src) -> has_input c' = true ->
     CInv false c' (fed ++ take (Z.to_nat n) src) (left - n) -> Q n c') ->
  wp (OnData src) Q c.
Proof.
  intros HC Hi Hs Hleft HQc HQ. unfold OnData, Feed. wp_step. wp_step. rewrite (ci_writing _ _ _ _ HC).
  wp_step. wp_step. wp_step. wp_step; [done|].
  assert (Hlen : 0 < Z.of_nat (length src)) by (destruct src; simpl; [done|lia]).
  eapply (Feed_loop_spec _ c fed left src 0).
  - constructor; [|done|lia]. simpl. by rewrite app_nil_r, Z.sub_0_r.
  - split; [by left|done].
  - done.
  - unfold feed_measure. case_match; lia.
  - done.
  - intros n c' [HC' Hi' Hn]. by apply HQ.
Qed.

(** ** The end of the stream *)

(** What is left to be sent after the input has ended. *)
Lemma end_room w c fed : CInv w c fed 0 -> has_input c = true ->
  missing_from_current_chunk c = 0 -> (length (ReadBuffer c ++ end_chunk) <= 7)%nat.
Proof.
  intros HC Hi Hm. pose proof (ReadBuffer_length _ _ _ _ HC). pose proof (ci_room _ _ _ _ HC Hm Hi).
  rewrite length_app. simpl. lia.
Qed.

Lemma AppendToBuffer_end_spec w c fed Q :
  CInv w c fed 0 -> has_input c = true -> missing_from_current_chunk c = 0 ->
  (forall c', CInv w c' fed 0 -> has_input c' = false -> Q tt c') ->
  wp (AppendToBuffer end_chunk) Q (clear_input c).
Proof.
  intros HC Hi Hm HQ. pose proof (end_room w c fed HC Hi Hm) as Hroom.
  pose proof (ci_room _ _ _ _ HC Hm Hi) as Hr.
  unfold AppendToBuffer. wp_step. wp_step. wp_step. wp_step; [done|]. wp_step.
  wp_step; [apply Z.leb_le; simpl; lia|]. cbv zeta. wp_step. wp_step.
  apply SetBuffer_spec; [apply HC|done|exact Hroom|]. intros b s Hb Hs Hd.
  change (ReadBuffer (clear_input c)) with (ReadBuffer c) in *.
  apply HQ; [|done]. destruct HC. constructor; simpl; try done; try lia.
  match goal with |- context [ReadBuffer ?c'] => change (ReadBuffer c') with (drop (Z.to_nat s) b) end.
  rewrite Hd. unfold parser_of in *. simpl. rewrite Hi, Hm in ci_wire0. simpl in ci_wire0.
  rewrite app_assoc, (dechunk_app _ _ _ _ _ ci_wire0), dechunk_end_chunk by done.
  simpl. by rewrite app_nil_r.
Qed.

(** The whole stream was received and sent. *)
Definition complete (c : ChunkedIstream) (fed : list Z) : Prop :=
  life c = AtEof /\ dechunk HttpChunkParser_new (output c) = Decoded fed (mk_parser END 0) [].

Lemma DestroyEof_spec w c fed left Q :
  CInv w c fed left -> has_input c = false -> ReadBuffer c = [] ->
  (forall c', complete c' fed -> Q tt c') -> wp DestroyEof Q c.
Proof.
  intros HC Hi Hr HQ. unfold DestroyEof. wp_step. wp_step. wp_step.
  wp_step; [apply bool_decide_eq_true, HC|]. wp_step. apply HQ. split; [done|]. simpl.
  pose proof (ci_wire _ _ _ _ HC) as Hw. rewrite Hr, app_nil_r in Hw. unfold parser_of in Hw.
  by rewrite Hi in Hw.
Qed.

Lemma OnEof_spec c fed Q :
  CInv false c fed 0 -> has_input c = true ->
  (forall c', life c' = Closed -> Q tt c') ->
  (forall c', complete c' fed -> Q tt c') ->
  (forall c', CInv false c' fed 0 -> has_input c' = false -> Q tt c') ->
  wp OnEof Q c.
Proof.
  intros HC Hi HQc HQe HQ. pose proof (ci_left _ _ _ _ HC). pose proof (ci_missing _ _ _ _ HC).
  assert (Hm : missing_from_current_chunk c = 0) by lia.
  unfold OnEof. wp_step. wp_step. wp_step. wp_step; [done|]. wp_step. wp_step; [by apply Z.eqb_eq|].
  wp_step. wp_step. wp_step. eapply AppendToBuffer_end_spec; [exact HC|done|done|].
  intros c1 HC1 Hi1. wp_step. eapply SendBuffer_spec; [exact HC1| | |].
  - intros c2 HC2 (_ & Hi2 & _) Hr2. eapply DestroyEof_spec; [exact HC2|congruence|done|done].
  - intros c2 HC2 (_ & Hi2 & _) _. wp_step. apply HQ; [done|congruence].
  - intros c2 Hc2. wp_step. by apply HQc.
Qed.

Lemma Read_spec c fed left a Q :
  CInv false c fed left -> a <= left ->
  (forall r c', life c' = Closed -> Q r c') ->
  (forall r c', has_input c = false -> complete c' fed -> Q r c') ->
  (forall r c', CInv false c' fed left -> has_input c' = has_input c -> Q r c') ->
  wp (Read a) Q c.
Proof.
  intros HC Ha HQc HQe HQ. unfold Read. wp_step. eapply SendBuffer2_spec; [exact HC| | |].
  - intros c1 HC1 (Hm1 & Hi1 & _) Hr1. simpl. wp_step. wp_step. destruct (has_input c1) eqn:Hi; simpl.
    + wp_step. eapply wp_IsBufferEmpty; [exact HC1|].
      case_match; [|wp_step; apply HQ; [done|congruence]]. simpl_bool.
      wp_step. eapply StartChunk_spec; [exact HC1|done|done|done|lia|].
      intros c2 HC2 Hi2 _ _. eapply SendBuffer2_spec; [exact HC2| | |].
      * intros c3 HC3 (_ & Hi3 & _) _. apply HQ; [done|congruence].
      * intros c3 HC3 (_ & Hi3 & _) _. apply HQ; [done|congruence].
      * intros c3 Hc3. by apply HQc.
    + wp_step. eapply DestroyEof_spec; [exact HC1|done|done|].
      intros c2 Hc2. wp_step. apply HQe; [congruence|done].
  - intros c1 HC1 (_ & Hi1 & _) _. simpl. wp_step. by apply HQ.
  - intros c1 Hc1. simpl. wp_step. by apply HQc.
Qed.

End Model.
