(* ===== verification/ChunkedBucket.v ===== *)
(** * HTTP/1.1 "chunked" transfer encoding: the encoder and its consumers

    The bucket interface of [src/istream/ChunkedIstream.cxx]
    ([_FillBucketList()], [_ConsumeBucketList()], [_GetAvailable()]), and what
    a consumer receives from the encoder in any sequence of calls. *)

From S2P Require Import Prelude Chunk Bucket Chunked.

#[local] Open Scope beng_scope.

Section Model.
Context `{HexFormat}.

(** ** The bucket interface *)

Definition push_nonempty (b : list Z) (l : IstreamBucketList) : IstreamBucketList :=
  if bool_decide (b = []) then l else Push b l.

(** [sub] is what [FillBucketList()] of the input returns and [available] what
    its [GetAvailable(true)] returns. *)
Definition FillBucketList (sub : IstreamBucketList) (available : Z) (l : IstreamBucketList)
  : M ChunkedIstream IstreamBucketList :=
  let! c := mget in
  if negb (has_input c) then mret (push_nonempty (ReadBuffer c) l)
  else
  (if IsEmpty sub && negb (HasMore sub) then
     mmod clear_input ;;;
     AppendToBuffer end_chunk
   else mret tt) ;;;
  let! c := mget in
  (if bool_decide (ReadBuffer c = []) && (missing_from_current_chunk c =? 0) && has_input c then
     let available := if available <? GetTotalBufferSize sub then GetTotalBufferSize sub else available in
     if 0 <? available then StartChunk available else mret tt
   else mret tt) ;;;
  let! c := mget in
  let l := push_nonempty (ReadBuffer c) l in
  if 0 <? missing_from_current_chunk c then
    massert (has_input c) ;;;
    let '(nbytes, l) := SpliceBuffersFrom_max sub (missing_from_current_chunk c) true l in
    mret (if missing_from_current_chunk c <=? nbytes
          then Push (if HasMore l then [CR; LF] else [CR; LF] ++ end_chunk) l
          else l)
  else if HasMore sub then
    mret (if ShouldFallback sub then EnableFallback (SetMore l) else SetMore l)
  else if negb (IsEmpty sub) then mret (SetMore l)
  else mret l.

(** [input_consume] is [ConsumeBucketList()] of the input. *)
Definition ConsumeBucketList (input_consume : Z -> Z * bool) (nbytes : Z)
  : M ChunkedIstream (Z * bool) :=
  let! size := ConsumeBuffer nbytes in
  let nbytes := nbytes - size in
  let total := size in
  let! c := mget in
  let size := Z.min nbytes (missing_from_current_chunk c) in
  let! total :=
    (if 0 <? size then
       massert (has_input c) ;;;
       let '(consumed, is_eof) := input_consume size in
       (if is_eof : bool then mmod clear_input else mret tt) ;;;
       let nbytes := nbytes - consumed in
       let total := total + consumed in
       mmod (set_missing (missing_from_current_chunk c - consumed)) ;;;
       let! c := mget in
       if missing_from_current_chunk c =? 0 then
         (if has_input c then SetBuffer [CR; LF] else SetBuffer ([CR; LF] ++ end_chunk)) ;;;
         let! size := ConsumeBuffer nbytes in
         mret (total + size)
       else mret total
     else mret total) in
  let! c := mget in
  let! empty := IsBufferEmpty in
  mret (total, (missing_from_current_chunk c =? 0) && empty && negb (has_input c)).

(** [available] is what [GetAvailable(partial)] of the input returns. *)
Definition GetAvailable (available : Z) (partial : bool) : M ChunkedIstream Z :=
  let! c := mget in
  let result := Z.of_nat (length (ReadBuffer c)) in
  let result := if 0 <? missing_from_current_chunk c then result + 2 else result in
  mret (if has_input c then
          if 0 <=? available then
            result + available +
            (if missing_from_current_chunk c <? available then 6 + 2 else 0) + 5
          else if negb partial then -1
          else result + 5
        else result).

(** ** What the consumer sees *)

(** The consumer has taken [x] from the bucket list. *)
Definition deliver (x : list Z) (c : ChunkedIstream) : ChunkedIstream :=
  set_handler (handler c) (output c ++ x) c.

(** What the input promises: [s] is the data it has not yet been asked to
    consume. *)
Record input_ok (s : list Z) (sub : IstreamBucketList) (available : Z) (consume : Z -> Z * bool) : Prop := {
  in_prefix : exists r, s = bytes sub ++ r;
  in_all : HasMore sub = false -> s = bytes sub;
  in_nonempty : IsEmpty sub = false -> bytes sub <> [];
  in_available : available <= Z.of_nat (length s);
  in_consume : forall k, 0 < k <= Z.of_nat (length (bytes sub)) -> exists e, consume k = (k, e) /\
    (e = true -> k = Z.of_nat (length s)) /\
    (HasMore sub = false -> k = Z.of_nat (length s) -> e = true);
}.

Context `{!HexFormatOk}.

(** The data of the current chunk, and what follows it. *)
Definition full_view (c : ChunkedIstream) (sub : IstreamBucketList) (T : list Z) : list Z :=
  ReadBuffer c ++
  (if 0 <? missing_from_current_chunk c
   then take (Z.to_nat (missing_from_current_chunk c)) (bytes sub) ++
        (if missing_from_current_chunk c <=? Z.of_nat (length (bytes sub)) then T else [])
   else []).

Definition is_prefix (x y : list Z) : Prop := exists z, y = x ++ z.

Lemma is_prefix_take (x : list Z) k : is_prefix (take k x) x.
Proof. exists (drop k x). by rewrite take_drop. Qed.

Lemma is_prefix_app (x y z : list Z) : is_prefix y z -> is_prefix (x ++ y) (x ++ z).
Proof. intros [w ->]. exists w. by rewrite app_assoc. Qed.

Lemma is_prefix_trans (x y z : list Z) : is_prefix x y -> is_prefix (x) (y ++ z).
Proof. intros [w ->]. exists (w ++ z). by rewrite app_assoc. Qed.

Lemma push_nonempty_new b : bytes (push_nonempty b IstreamBucketList_new) = b.
Proof. unfold push_nonempty. case_bool_decide; [by subst|]. unfold bytes. simpl. by rewrite app_nil_r. Qed.

(** The list after the data and the end of the chunk were pushed. *)
Lemma splice_view c sub b n l :
  0 < missing_from_current_chunk c -> b = push_nonempty (ReadBuffer c) IstreamBucketList_new ->
  SpliceBuffersFrom_max sub (missing_from_current_chunk c) true b = (n, l) ->
  let T := if HasMore l then [CR; LF] else [CR; LF] ++ end_chunk in
  let l' := if missing_from_current_chunk c <=? n then Push T l else l in
  is_prefix (bytes l') (full_view c sub T) /\
  (HasMore l = false -> HasMore sub = false /\
     Z.of_nat (length (bytes sub)) <= missing_from_current_chunk c).
Proof.
  intros Hm -> E T l'. pose proof (SpliceBuffersFrom_max_spec sub (missing_from_current_chunk c)
    (push_nonempty (ReadBuffer c) IstreamBucketList_new) ltac:(lia)) as Hs. rewrite E in Hs.
  destruct Hs as (-> & k & E1 & E2 & E3). rewrite push_nonempty_new in E1. split.
  - unfold full_view. destruct (Z.ltb_spec 0 (missing_from_current_chunk c)); [|lia].
    unfold l'. rewrite <- bytes_size.
    destruct (Z.leb_spec (missing_from_current_chunk c)
      (Z.min (missing_from_current_chunk c) (Z.of_nat (length (bytes sub))))) as [Hle|Hle].
    + destruct (Z.leb_spec (missing_from_current_chunk c) (Z.of_nat (length (bytes sub)))); [|lia].
      destruct (IsFull l) eqn:Ef.
      * rewrite Push_full by done. change (bytes (SetMore l)) with (bytes l). rewrite E1.
        apply is_prefix_app, is_prefix_trans, is_prefix_take.
      * destruct E2 as [E2|]; [|done]. rewrite bytes_Push, E1, (take_ge _ k) by done.
        rewrite <- app_assoc. exists []. by rewrite app_nil_r.
    + destruct (Z.leb_spec (missing_from_current_chunk c) (Z.of_nat (length (bytes sub)))); [lia|].
      rewrite E1, app_nil_r. apply is_prefix_app, is_prefix_take.
  - intros Hf. destruct (E3 Hf) as (_ & Hs & _ & Hl). split; [done|]. by rewrite bytes_size.
Qed.

Lemma FillBucketList_spec c fed s sub available consume Q :
  CInv false c fed (Z.of_nat (length s)) -> input_ok s sub available consume ->
  (forall l c' T, CInv false c' fed (Z.of_nat (length s)) ->
     (has_input c' = true -> has_input c = true) ->
     (has_input c = true -> has_input c' = false -> s = []) ->
     is_prefix (bytes l) (full_view c' sub T) ->
     (T = [CR; LF] \/
      T = [CR; LF] ++ end_chunk /\ HasMore sub = false /\
      missing_from_current_chunk c' = Z.of_nat (length s)) ->
     Q l c') ->
  wp (FillBucketList sub available IstreamBucketList_new) Q c.
Proof.
  intros HC [Hpre Hall Hne Hav Hcons] HQ. unfold FillBucketList. wp_step. wp_step.
  destruct (has_input c) eqn:Hi; simpl.
  2: { wp_step. eapply (HQ _ _ [CR; LF]); [done|congruence|done| |by left].
       rewrite push_nonempty_new. eexists. by unfold full_view. }
  set (k := mbnd mget _).
  assert (Hk : forall c1, CInv false c1 fed (Z.of_nat (length s)) ->
    (has_input c1 = false -> s = []) -> wp k Q c1).
  2: { wp_step. destruct (IsEmpty sub && negb (HasMore sub)) eqn:Ee.
    - apply andb_true_iff in Ee as [Ee1 Ee2]. apply bool_decide_eq_true in Ee1.
      apply negb_true_iff in Ee2.
      assert (s = []) as -> by (rewrite Hall by done; unfold bytes; by rewrite Ee1).
      wp_step. wp_step. pose proof (ci_missing _ _ _ _ HC). pose proof (ci_left _ _ _ _ HC).
      simpl in *. eapply AppendToBuffer_end_spec; [exact HC|done|lia|].
      intros c1 HC1 Hi1. by apply Hk.
    - wp_step. apply Hk; [done|congruence]. }
  intros c1 HC1 Hi1. unfold k. wp_step. wp_step. wp_step.
  set (k2 := mbnd mget _).
  assert (Hk2 : forall c2, CInv false c2 fed (Z.of_nat (length s)) ->
    has_input c2 = has_input c1 -> wp k2 Q c2).
  2: { case_match; [|wp_step; by apply Hk2]. simpl_bool. cbv zeta. case_match; [|wp_step; by apply Hk2].
       simpl_bool. eapply StartChunk_spec; [exact HC1|done|done|done| |].
       - destruct Hpre as [r Hpre]. rewrite <- bytes_size in *.
         assert (Z.of_nat (length (bytes sub)) <= Z.of_nat (length s)) by (rewrite Hpre, length_app; lia).
         split; [done|]. case_match; lia.
       - intros c2 HC2 Hi2 _ _. apply Hk2; [done|congruence]. }
  intros c2 HC2 Hi2. unfold k2. wp_step. wp_step. cbv zeta.
  assert (Hsimple : missing_from_current_chunk c2 <= 0 -> forall l,
    bytes l = ReadBuffer c2 -> wp (mret l) Q c2).
  { intros Hm l El. wp_step. eapply (HQ l c2 [CR; LF]); [done|congruence|by rewrite Hi2| |by left].
    unfold full_view. destruct (Z.ltb_spec 0 (missing_from_current_chunk c2)); [lia|].
    rewrite app_nil_r, El. exists []. by rewrite app_nil_r. }
  destruct (Z.ltb_spec 0 (missing_from_current_chunk c2)) as [Hm|Hm].
  - assert (Hi3 : has_input c2 = true).
    { destruct (has_input c2) eqn:E; [done|]. pose proof (ci_left _ _ _ _ HC2) as Hl.
      rewrite (Hi1 ltac:(congruence)) in Hl. simpl in Hl. lia. }
    wp_step. wp_step; [done|].
    destruct (SpliceBuffersFrom_max sub _ true _) as [n l] eqn:Es. wp_step.
    destruct (splice_view c2 sub _ n l Hm eq_refl Es) as [Hv Hmore].
    eapply HQ; [exact HC2|congruence|congruence|exact Hv|].
    destruct (HasMore l) eqn:El; [by left|right]. destruct (Hmore eq_refl) as [Hs1 Hs2].
    split_and!; try done. pose proof (ci_left _ _ _ _ HC2). rewrite (Hall Hs1) in *. lia.
  - case_match; [|case_match]; repeat case_match; apply Hsimple; try done;
      change (bytes (EnableFallback (SetMore ?l))) with (bytes l); try apply push_nonempty_new.
Qed.

(** *** Consuming *)

Lemma ConsumeBuffer_spec n c Q :
  length (buffer c) = 7%nat -> 0 <= buffer_sent c <= 7 -> 0 <= n ->
  (let size := Z.min (Z.of_nat (length (ReadBuffer c))) n in
   let c' := set_buffer (buffer c) (buffer_sent c + size) c in
   0 <= buffer_sent c + size <= 7 -> ReadBuffer c' = drop (Z.to_nat size) (ReadBuffer c) -> Q size c') ->
  wp (ConsumeBuffer n) Q c.
Proof.
  intros Hb Hs Hn HQ. unfold ConsumeBuffer. wp_step. wp_step. cbv zeta in *.
  set (size := Z.min (Z.of_nat (length (ReadBuffer c))) n) in *.
  assert (Hl : Z.of_nat (length (ReadBuffer c)) = 7 - buffer_sent c).
  { unfold ReadBuffer. rewrite length_drop, Hb. lia. }
  assert (Hsz : 0 <= size) by lia.
  assert (HQ' : Q size (set_buffer (buffer c) (buffer_sent c + size) c)).
  { apply HQ; [lia|]. unfold ReadBuffer. simpl. rewrite drop_drop. f_equal. lia. }
  wp_step. destruct (Z.ltb_spec 0 size); wp_step; wp_step; [done|].
  assert (size = 0) as E by lia. rewrite E in *. rewrite Z.add_0_r in HQ'. by destruct c.
Qed.

Lemma wp_empty c Q : buffer_sent c <= 7 -> (forall b, (b = true -> buffer_sent c = 7) -> Q b c) ->
  wp IsBufferEmpty Q c.
Proof.
  intros Hs HQ. unfold IsBufferEmpty. wp_step. wp_step. wp_step. wp_step; [by apply Z.leb_le|].
  wp_step. apply HQ. apply Z.eqb_eq.
Qed.

(** The end of a chunk, which is also the end of the stream if the input has
    ended. *)
Definition chunk_tail (eof : bool) : list Z := if eof then [CR; LF] ++ end_chunk else [CR; LF].

Lemma dechunk_tail p eof : state p = AFTER_DATA -> remaining_chunk p = 0 ->
  dechunk p (chunk_tail eof) = Decoded [] (mk_parser (if eof then END else NONE) 0) [].
Proof.
  intros Es Er. destruct p as [st r]. simpl in *. subst. destruct eof; simpl; by vm_compute.
Qed.

(** The part of [n] bytes that comes from the input. *)
Definition taken (c : ChunkedIstream) (n : Z) : Z :=
  Z.max 0 (Z.min (n - Z.of_nat (length (ReadBuffer c))) (missing_from_current_chunk c)).

(** The state after the consumer has taken [x], of which [d] bytes came from
    the input. *)
Definition consumed_view (c' : ChunkedIstream) (fed s x : list Z) (d : Z) : Prop :=
  CInv false (deliver x c') (fed ++ take (Z.to_nat d) s) (Z.of_nat (length s) - d) /\
  0 <= d <= Z.of_nat (length s) /\
  (has_input c' = false -> d = Z.of_nat (length s)).

Lemma consume_buffer_only c fed s n :
  CInv false c fed (Z.of_nat (length s)) -> (has_input c = false -> s = []) ->
  0 <= n <= Z.of_nat (length (ReadBuffer c)) ->
  let c' := set_buffer (buffer c) (buffer_sent c + n) c in
  ReadBuffer c' = drop (Z.to_nat n) (ReadBuffer c) ->
  consumed_view c' fed s (take (Z.to_nat n) (ReadBuffer c)) 0.
Proof.
  intros HC Hi Hn c' Hr. pose proof (ReadBuffer_length _ _ _ _ HC) as Hl.
  split; [|split; [lia|]; intros E; by rewrite (Hi E)].
  simpl. rewrite app_nil_r, Z.sub_0_r. pose proof (ci_room _ _ _ _ HC) as Hroom.
  destruct HC. constructor; simpl; try done; [lia| |].
  - change (ReadBuffer (deliver _ c')) with (ReadBuffer c'). rewrite Hr, <- app_assoc, take_drop. done.
  - intros H1 H2. specialize (Hroom H1 H2). lia.
Qed.

Lemma data_view c fed s k :
  CInv false c fed (Z.of_nat (length s)) -> has_input c = true ->
  0 < k <= missing_from_current_chunk c -> k <= Z.of_nat (length s) ->
  dechunk HttpChunkParser_new (output c ++ ReadBuffer c ++ take (Z.to_nat k) s) =
  Decoded (fed ++ take (Z.to_nat k) s) (consumed k (mk_parser DATA (missing_from_current_chunk c))) [].
Proof.
  intros HC Hi Hk Hs. pose proof (ci_wire _ _ _ _ HC) as Hw. unfold parser_of in Hw. rewrite Hi in Hw.
  simpl in Hw. destruct (Z.eqb_spec (missing_from_current_chunk c) 0); [lia|].
  assert (Hl : Z.of_nat (length (take (Z.to_nat k) s)) = k) by (rewrite length_take; lia).
  rewrite app_assoc, (dechunk_app _ _ _ _ _ Hw), dechunk_data by (simpl; done || lia). simpl. by rewrite Hl.
Qed.

(** Taking data from the middle of a chunk. *)
Lemma consume_partial c c' fed s k :
  CInv false c fed (Z.of_nat (length s)) -> has_input c = true ->
  0 < k < missing_from_current_chunk c -> k <= Z.of_nat (length s) ->
  c' = set_missing (missing_from_current_chunk c - k) (set_buffer (buffer c) 7 c) ->
  consumed_view c' fed s (ReadBuffer c ++ take (Z.to_nat k) s) k.
Proof.
  intros HC Hi Hk Hs ->. pose proof (data_view c fed s k HC Hi ltac:(lia) Hs) as Hd.
  pose proof (ci_left _ _ _ _ HC). split; [|split; [lia|simpl; congruence]].
  assert (Hr : drop (Z.to_nat 7) (buffer c) = []) by (apply drop_ge; rewrite (ci_buffer _ _ _ _ HC); done).
  destruct HC. constructor; simpl; try done; try lia.
  unfold ReadBuffer at 2, parser_of. simpl. change (Pos.to_nat 7) with 7%nat in *. simpl in Hr. rewrite Hr.
  rewrite app_nil_r, Hd, Hi. simpl. unfold consumed. simpl.
  by destruct (Z.eqb_spec (missing_from_current_chunk c - k) 0); [lia|].
Qed.

(** Taking all of the data of a chunk, and [j] bytes of what follows it. *)
Lemma consume_full c c' fed s eof b sent j :
  CInv false c fed (Z.of_nat (length s)) -> has_input c = true ->
  let m := missing_from_current_chunk c in
  0 < m <= Z.of_nat (length s) -> (eof = true -> m = Z.of_nat (length s)) ->
  length b = 7%nat -> 0 <= j <= Z.of_nat (length (chunk_tail eof)) ->
  sent = 7 - Z.of_nat (length (chunk_tail eof)) + j ->
  drop (Z.to_nat sent) b = drop (Z.to_nat j) (chunk_tail eof) ->
  c' = set_buffer b sent (set_missing 0 (if eof then clear_input c else c)) ->
  consumed_view c' fed s (ReadBuffer c ++ take (Z.to_nat m) s ++ take (Z.to_nat j) (chunk_tail eof)) m.
Proof.
  intros HC Hi m Hm He Hb Hj Hsent Hd ->.
  pose proof (data_view c fed s m HC Hi ltac:(lia) ltac:(lia)) as Hv.
  assert (Hlt : Z.of_nat (length (chunk_tail eof)) <= 7 /\
                (eof = false -> Z.of_nat (length (chunk_tail eof)) = 2)) by (by destruct eof).
  split; [|split; [lia|]].
  - set (c' := set_buffer b sent _). set (x := ReadBuffer c ++ _).
    assert (Hp : parser_of (deliver x c') = mk_parser (if eof then END else NONE) 0).
    { unfold parser_of. destruct eof; simpl; by rewrite ?Hi. }
    assert (Hw : dechunk HttpChunkParser_new (output (deliver x c') ++ ReadBuffer (deliver x c')) =
      Decoded (fed ++ take (Z.to_nat m) s) (parser_of (deliver x c')) []).
    { change (ReadBuffer (deliver x c')) with (drop (Z.to_nat sent) b).
      replace (output (deliver x c')) with (output c ++ x) by (by destruct eof).
      rewrite Hp, Hd. unfold x. rewrite <- !app_assoc, take_drop.
      rewrite !app_assoc, <- (app_assoc (output c)), (dechunk_app _ _ _ _ _ Hv).
      rewrite dechunk_tail by (unfold consumed; simpl; by rewrite Z.sub_diag). simpl.
      by rewrite app_nil_r. }
    destruct HC. constructor; try done; destruct eof; simpl; try done; try lia.
  - destruct eof; simpl; [auto|congruence].
Qed.

Lemma take_view c sub T n :
  Z.of_nat (length (ReadBuffer c)) <= n -> 0 < missing_from_current_chunk c ->
  let k := n - Z.of_nat (length (ReadBuffer c)) in
  take (Z.to_nat n) (full_view c sub T) =
  ReadBuffer c ++ take (Z.to_nat k)
    (take (Z.to_nat (missing_from_current_chunk c)) (bytes sub) ++
     (if missing_from_current_chunk c <=? Z.of_nat (length (bytes sub)) then T else [])).
Proof.
  intros Hn Hm k. unfold full_view. destruct (Z.ltb_spec 0 (missing_from_current_chunk c)); [|lia].
  rewrite take_app_ge by lia. f_equal. f_equal. lia.
Qed.

Lemma ConsumeBucketList_spec c fed s sub available consume T n Q :
  CInv false c fed (Z.of_nat (length s)) -> (has_input c = false -> s = []) ->
  input_ok s sub available consume ->
  (T = [CR; LF] \/ T = [CR; LF] ++ end_chunk /\ HasMore sub = false /\
     missing_from_current_chunk c = Z.of_nat (length s)) ->
  0 <= n <= Z.of_nat (length (full_view c sub T)) ->
  (forall c' e, consumed_view c' fed s (take (Z.to_nat n) (full_view c sub T)) (taken c n) ->
     (e = true -> has_input c' = false /\ buffer_sent c' = 7) -> Q (n, e) c') ->
  wp (ConsumeBucketList consume n) Q c.
Proof.
  intros HC Hnoin [[r Hpre] Hall Hne Hav Hcons] HT Hn HQ.
  pose proof (ReadBuffer_length _ _ _ _ HC) as Hl. pose proof (ci_missing _ _ _ _ HC) as Hmiss.
  pose proof (ci_left _ _ _ _ HC) as Hleft.
  assert (Hend : forall c' d, d = taken c n ->
    consumed_view c' fed s (take (Z.to_nat n) (full_view c sub T)) d ->
    wp (let! c := mget in let! empty := IsBufferEmpty in
        mret (n, (missing_from_current_chunk c =? 0) && empty && negb (has_input c))) Q c').
  { intros c' d -> Hv. wp_step. wp_step. wp_step. apply wp_empty.
    - destruct Hv as [Hv _]. apply (ci_sent _ _ _ _ Hv).
    - intros b Hb. wp_step. eapply HQ; [exact Hv|]. intros He. simpl_bool. auto. }
  unfold ConsumeBucketList. wp_step. eapply ConsumeBuffer_spec; [apply HC|apply HC|lia|].
  cbv zeta. intros Hs1 Hr1. wp_step. wp_step.
  set (size := Z.min (Z.of_nat (length (ReadBuffer c))) n) in *. simpl missing_from_current_chunk.
  destruct (Z.le_gt_cases n (Z.of_nat (length (ReadBuffer c)))) as [Hle|Hgt].
  { assert (size = n) as E by lia. rewrite E in *. rewrite Z.sub_diag.
    destruct (Z.ltb_spec 0 (Z.min 0 (missing_from_current_chunk c))); [lia|]. wp_step. wp_step.
    apply (Hend _ 0); [unfold taken; lia|]. unfold full_view. rewrite take_app_le by lia.
    apply consume_buffer_only; [done|done|lia|done]. }
  assert (Hsize : size = Z.of_nat (length (ReadBuffer c))) by lia.
  assert (Hm : 0 < missing_from_current_chunk c).
  { unfold full_view in Hn. destruct (Z.ltb_spec 0 (missing_from_current_chunk c)); [done|].
    rewrite app_nil_r in Hn. lia. }
  assert (Hi : has_input c = true).
  { destruct (has_input c); [done|]. rewrite Hnoin in Hleft by done. simpl in Hleft. lia. }
  rewrite Hsize in *. set (n1 := n - Z.of_nat (length (ReadBuffer c))) in *.
  set (m := missing_from_current_chunk c) in *. set (k := Z.min n1 m).
  pose proof (take_view c sub T n ltac:(lia) Hm) as Ht. fold m n1 in Ht. cbv zeta in Ht.
  assert (Hlen : Z.of_nat (length (full_view c sub T)) = Z.of_nat (length (ReadBuffer c)) +
    Z.min m (Z.of_nat (length (bytes sub))) +
    (if m <=? Z.of_nat (length (bytes sub)) then Z.of_nat (length T) else 0)).
  { unfold full_view. fold m. destruct (Z.ltb_spec 0 m); [|lia]. rewrite !length_app, length_take.
    destruct (m <=? _); simpl length; lia. }
  assert (Hk : 0 < k <= Z.of_nat (length (bytes sub))).
  { unfold k. destruct (Z.leb_spec m (Z.of_nat (length (bytes sub)))); lia. }
  assert (Hsub : Z.of_nat (length (bytes sub)) <= Z.of_nat (length s)) by (rewrite Hpre, length_app; lia).
  assert (Etake : take (Z.to_nat k) (bytes sub) = take (Z.to_nat k) s).
  { rewrite Hpre, take_app_le by lia. done. }
  destruct (Z.ltb_spec 0 k); [|lia]. wp_step. wp_step. wp_step; [done|].
  destruct (Hcons k Hk) as (e & -> & He1 & He2). 
  assert (Hsent : buffer_sent c + Z.of_nat (length (ReadBuffer c)) = 7) by lia. rewrite Hsent.
  destruct (Z.lt_ge_cases n1 m) as [Hlt|Hge].
  - assert (k = n1) as Ek by lia. destruct e; [specialize (He1 eq_refl); lia|].
    wp_step. wp_step. wp_step. wp_step. wp_step. wp_step. simpl missing_from_current_chunk.
    fold m. destruct (Z.eqb_spec (m - k) 0); [lia|]. wp_step.
    replace (Z.of_nat (length (ReadBuffer c)) + k) with n by lia.
    apply (Hend _ k); [unfold taken; fold m n1; lia|]. rewrite Ht. rewrite take_app_le by (rewrite length_take; lia).
    rewrite take_take, Nat.min_l by lia. rewrite <- Ek, Etake.
    apply (consume_partial c); [done|done|fold m; lia|lia|done].
  - assert (k = m) as Ek by lia. rewrite Ek in *.
    set (j := n1 - m) in *. destruct (Z.leb_spec m (Z.of_nat (length (bytes sub)))); [|lia].
    assert (HTe : exists z, chunk_tail e = T ++ z).
    { destruct HT as [->|(-> & HT1 & HT2)]; [|rewrite He2 by done; by exists []].
      destruct e; [by exists end_chunk|by exists []]. }
    destruct HTe as [z HTe].
    assert (Hj : 0 <= j <= Z.of_nat (length (chunk_tail e))) by (rewrite HTe, length_app; lia).
    assert (Hlt7 : (length (chunk_tail e) <= 7)%nat) by (destruct e; simpl; lia).
    assert (Hview : take (Z.to_nat n) (full_view c sub T) =
      ReadBuffer c ++ take (Z.to_nat m) s ++ take (Z.to_nat j) (chunk_tail e)).
    { rewrite Ht. f_equal. rewrite take_app_ge by (rewrite length_take; lia). rewrite Etake. f_equal.
      rewrite HTe, take_app_le by lia. f_equal. rewrite length_take. lia. }
    set (cb := set_missing 0 (if e then clear_input c else c)).
    assert (Hrest : wp (SetBuffer (chunk_tail e) ;;;
        let! size := ConsumeBuffer j in mret (Z.of_nat (length (ReadBuffer c)) + m + size))
      (fun total s' => wp (let! c := mget in let! empty := IsBufferEmpty in
        mret (total, (missing_from_current_chunk c =? 0) && empty && negb (has_input c))) Q s')
      (set_buffer (buffer c) 7 cb)).
    { wp_step. apply SetBuffer_spec; [apply HC|done|done|]. intros b sent Hb Hsn Hdrop.
      wp_step. apply ConsumeBuffer_spec; [done|simpl; lia|lia|]. cbv zeta. intros Hs2 Hr2.
      change (ReadBuffer (set_buffer b sent (set_buffer (buffer c) 7 cb)))
        with (drop (Z.to_nat sent) b) in *. rewrite Hdrop in *.
      rewrite Z.min_r in * by lia. wp_step.
      replace (Z.of_nat (length (ReadBuffer c)) + m + j) with n by lia.
      apply (Hend _ m); [unfold taken; fold m n1; lia|]. rewrite Hview. simpl buffer_sent in *.
      apply (consume_full c _ fed s e b (sent + j)); try done; try lia. }
    destruct e; do 6 wp_step; simpl missing_from_current_chunk; fold m; rewrite Z.sub_diag; simpl (0 =? 0);
      cbv iota; simpl has_input; rewrite ?Hi; cbv iota; exact Hrest.
Qed.

(** ** The encoder among its neighbours *)

(** A state of the encoder, with the data the input still has. *)
Inductive cstep : ChunkedIstream * list Z -> ChunkedIstream * list Z -> Prop :=
| step_data c src r n c' :
    life c = Alive -> has_input c = true -> src <> [] -> OnData src c = Some (n, c') ->
    cstep (c, src ++ r) (c', drop (Z.to_nat n) (src ++ r))
| step_read c s available b c' :
    life c = Alive -> available <= Z.of_nat (length s) -> Read available c = Some (b, c') ->
    cstep (c, s) (c', s)
| step_eof c c' :
    life c = Alive -> has_input c = true -> OnEof c = Some (tt, c') -> cstep (c, []) (c', [])
| step_buckets c s sub available consume l c1 n total eof c2 :
    life c = Alive -> input_ok s sub available consume ->
    FillBucketList sub available IstreamBucketList_new c = Some (l, c1) ->
    0 <= n <= Z.of_nat (length (bytes l)) ->
    ConsumeBucketList consume n c1 = Some ((total, eof), c2) ->
    cstep (c, s)
      (set_life (if eof : bool then AtEof else Alive) (deliver (take (Z.to_nat n) (bytes l)) c2),
       drop (Z.to_nat (taken c1 n)) s).

(** [S] is the whole stream. *)
Definition stream_inv (S : list Z) (st : ChunkedIstream * list Z) : Prop :=
  let '(c, s) := st in
  match life c with
  | Alive => exists fed, S = fed ++ s /\ CInv false c fed (Z.of_nat (length s)) /\
               (has_input c = false -> s = [])
  | AtEof => complete c S
  | _ => True
  end.

Lemma new_inv h S : stream_inv S (ChunkedIstream_new h, S).
Proof.
  exists []. split_and!; try done. constructor; simpl; try done; lia.
Qed.

Lemma wp_run {St A} (m : M St A) Q s a s' : wp m Q s -> m s = Some (a, s') -> Q a s'.
Proof. intros (a' & s'' & E & HQ) E'. rewrite E in E'. by injection E' as <- <-. Qed.

Lemma stream_inv_closed S c s : life c = Closed -> stream_inv S (c, s).
Proof. intros E. unfold stream_inv. by rewrite E. Qed.

Lemma stream_inv_alive S fed c s : S = fed ++ s -> CInv false c fed (Z.of_nat (length s)) ->
  (has_input c = false -> s = []) -> stream_inv S (c, s).
Proof. intros E HC Hi. unfold stream_inv. rewrite (ci_alive _ _ _ _ HC). by exists fed. Qed.

Lemma stream_inv_complete S c s : complete c S -> stream_inv S (c, s).
Proof. intros Hc. unfold stream_inv. destruct Hc as [E Hd]. by rewrite E. Qed.

Lemma is_prefix_le x y n : is_prefix x y -> n <= Z.of_nat (length x) ->
  n <= Z.of_nat (length y) /\ take (Z.to_nat n) x = take (Z.to_nat n) y.
Proof. intros [z ->] Hn. rewrite length_app. split; [lia|]. by rewrite take_app_le by lia. Qed.

Lemma cstep_inv S st st' : stream_inv S st -> cstep st st' -> stream_inv S st'.
Proof.
  intros HS Hc. destruct Hc as [c src r n c' Ha Hi Hs E|c s a b c' Ha Hav E|c c' Ha Hi E
    |c s sub a consume l c1 n total eof c2 Ha Hin E1 Hn E2]; unfold stream_inv in HS; rewrite Ha in HS;
    destruct HS as (fed & -> & HC & Hnoin).
  - rewrite length_app in HC. refine (wp_run _ (fun n c' => stream_inv _ (c', drop (Z.to_nat n) (src ++ r))) c n c' _ E).
    eapply OnData_spec; [exact HC|done|done|lia|intros; by apply stream_inv_closed|].
    intros k c2 Hk Hi2 HC2. apply (stream_inv_alive _ (fed ++ take (Z.to_nat k) src)).
    + rewrite drop_app_le by lia. rewrite <- app_assoc. f_equal. by rewrite app_assoc, take_drop.
    + rewrite length_drop, length_app. replace (Z.of_nat (length src + length r - Z.to_nat k))
        with (Z.of_nat (length src + length r) - k) by lia. done.
    + congruence.
  - refine (wp_run _ (fun _ c' => stream_inv _ (c', s)) c b c' _ E).
    eapply Read_spec; [exact HC|done|intros; by apply stream_inv_closed| |].
    + intros _ c2 Hi Hcomp. rewrite (Hnoin Hi) in *. rewrite app_nil_r. by apply stream_inv_complete.
    + intros _ c2 HC2 Hi2. by apply (stream_inv_alive _ fed); [|done|rewrite Hi2].
  - refine (wp_run _ (fun _ c' => stream_inv _ (c', [])) c tt c' _ E).
    eapply OnEof_spec; [exact HC|done|intros; by apply stream_inv_closed| |].
    + intros c2 Hcomp. rewrite app_nil_r. by apply stream_inv_complete.
    + intros c2 HC2 Hi2. by apply (stream_inv_alive _ fed).
  - pose proof (FillBucketList_spec c fed s sub a consume (fun l c1 =>
      forall n total eof c2, 0 <= n <= Z.of_nat (length (bytes l)) ->
      ConsumeBucketList consume n c1 = Some ((total, eof), c2) ->
      stream_inv (fed ++ s) (set_life (if eof : bool then AtEof else Alive)
        (deliver (take (Z.to_nat n) (bytes l)) c2), drop (Z.to_nat (taken c1 n)) s)) HC Hin) as HF.
    eapply wp_run in HF; [by apply (HF n total eof c2)| |exact E1]. clear E1 E2 Hn HF. clear n total eof c2 l c1.
    intros l c1 T HC1 Hi1 Hi2 Hpre HT n total eof c2 Hn E2.
    destruct (is_prefix_le _ _ n Hpre ltac:(lia)) as [Hn2 ->].
    refine (wp_run _ (fun te c2 => stream_inv (fed ++ s) (set_life (if te.2 : bool then AtEof else Alive)
        (deliver (take (Z.to_nat n) (full_view c1 sub T)) c2), drop (Z.to_nat (taken c1 n)) s))
        c1 (total, eof) c2 _ E2).
    eapply ConsumeBucketList_spec; [exact HC1| |exact Hin|exact HT|lia|].
    { intros E. destruct (has_input c) eqn:Hic; [by apply Hi2|by apply Hnoin]. }
    intros c3 e (HC3 & Hd & Hall) He. cbn [snd]. destruct e.
    + destruct (He eq_refl) as [Hi3 Hs3]. apply stream_inv_complete. split; [done|]. simpl.
      pose proof (ci_wire _ _ _ _ HC3) as Hw. unfold parser_of in Hw. simpl in Hw. rewrite Hi3 in Hw.
      simpl in Hw. rewrite (Hall Hi3), Nat2Z.id, (take_ge s) in Hw by lia.
      assert (Hr : ReadBuffer (deliver (take (Z.to_nat n) (full_view c1 sub T)) c3) = []).
      { apply nil_length_inv. pose proof (ReadBuffer_length _ _ _ _ HC3) as Hl. simpl in Hl. lia. }
      by rewrite Hr, app_nil_r in Hw.
    + replace (set_life Alive _) with (deliver (take (Z.to_nat n) (full_view c1 sub T)) c3).
      2: { pose proof (ci_alive _ _ _ _ HC3) as Hal. destruct c3. simpl in *. by rewrite Hal. }
      apply (stream_inv_alive _ (fed ++ take (Z.to_nat (taken c1 n)) s)).
      * by rewrite <- app_assoc, take_drop.
      * rewrite length_drop. replace (Z.of_nat (length s - Z.to_nat (taken c1 n)))
          with (Z.of_nat (length s) - taken c1 n) by lia. done.
      * intros Hi3. simpl in Hi3. apply drop_ge. specialize (Hall Hi3). lia.
Qed.

Lemma dechunk_prefix a : forall p b d p',
  dechunk p (a ++ b) = Decoded d p' [] ->
  exists d1 p1, is_prefix d1 d /\ (dechunk p a = Decoded d1 p1 [] \/ b = []).
Proof.
  induction a as [|ch a IH]; intros p b d p' E.
  - exists [], p. split; [by exists d|left; apply dechunk_nil].
  - destruct (decide (state p = END)) as [Ee|Ee]; [by rewrite dechunk_end in E|].
    simpl app in E. rewrite dechunk_cons in E |- * by done.
    destruct (step_byte p ch) as [[d1 p1]|]; [|done].
    destruct (dechunk p1 (a ++ b)) as [d2 p2 r2|] eqn:E2; simpl in E; [|done]. injection E as <- -> ->.
    destruct (IH p1 b d2 p' E2) as (d3 & p3 & Hp & Hd). exists (d1 ++ d3), p3.
    split; [by apply is_prefix_app|]. destruct Hd as [->|Hd]; [by left|by right].
Qed.

Lemma reach_inv h S c s :
  rtc cstep (ChunkedIstream_new h, S) (c, s) -> stream_inv S (c, s).
Proof.
  intros Hr. pose proof (new_inv h S) as Hn. revert Hn Hr. generalize (ChunkedIstream_new h, S) as st.
  generalize (c, s) as st'. intros st' st Hn Hr. induction Hr as [|x y z Hc _ IH]; [done|].
  apply IH. by eapply cstep_inv.
Qed.

(** ** The theorems *)

(** C25: Round trip: whatever pieces the input offers, however the consumer
    reads (by callbacks or by buckets) and however often it blocks, when the
    encoder has reported the end of the stream, decoding what the consumer
    received yields the input, up to and including the end chunk. *)
Theorem chunked_roundtrip h S c s :
  rtc cstep (ChunkedIstream_new h, S) (c, s) -> life c = AtEof ->
  dechunk HttpChunkParser_new (output c) = Decoded S (mk_parser END 0) [].
Proof.
  intros Hr Hl. pose proof (reach_inv h S c s Hr) as Hi. unfold stream_inv in Hi. rewrite Hl in Hi.
  by destruct Hi.
Qed.

(** In every state the encoder can reach, what the consumer has received
    is a well-formed beginning of the encoding: it decodes to a beginning of
    the input. *)
Theorem chunked_prefix h S c s :
  rtc cstep (ChunkedIstream_new h, S) (c, s) -> life c = Alive ->
  exists d p, is_prefix d S /\ dechunk HttpChunkParser_new (output c) = Decoded d p [].
Proof.
  intros Hr Hl. pose proof (reach_inv h S c s Hr) as Hi. unfold stream_inv in Hi. rewrite Hl in Hi.
  destruct Hi as (fed & -> & HC & _). pose proof (ci_wire _ _ _ _ HC) as Hw.
  destruct (dechunk_prefix _ _ _ _ _ Hw) as (d & p & [z ->] & [Hd|Hd]).
  - exists d, p. split; [exists (z ++ s); by rewrite app_assoc|done].
  - rewrite Hd, app_nil_r in Hw. exists (d ++ z), (parser_of c). split; [by exists s|done].
Qed.

(** In every state the encoder can reach, the calls its neighbours may
    make fail no assertion: data from the input, reading, the end of the
    input, and the bucket interface, where everything that was shown can be
    consumed. *)
Theorem chunked_safe h S c s :
  rtc cstep (ChunkedIstream_new h, S) (c, s) -> life c = Alive ->
  (has_input c = true -> forall src r, src <> [] -> s = src ++ r -> is_Some (OnData src c)) /\
  (forall a, a <= Z.of_nat (length s) -> is_Some (Read a c)) /\
  (has_input c = true -> s = [] -> is_Some (OnEof c)) /\
  (forall sub a consume, input_ok s sub a consume -> exists l c1,
     FillBucketList sub a IstreamBucketList_new c = Some (l, c1) /\
     forall n, 0 <= n <= Z.of_nat (length (bytes l)) ->
       exists eof c2, ConsumeBucketList consume n c1 = Some ((n, eof), c2)).
Proof.
  intros Hr Hl. pose proof (reach_inv h S c s Hr) as Hi. unfold stream_inv in Hi. rewrite Hl in Hi.
  destruct Hi as (fed & -> & HC & Hnoin).
  assert (Hsome : forall A (m : M ChunkedIstream A) Q, wp m Q c -> is_Some (m c)).
  { intros A m Q (a & c' & E & _). rewrite E. by eexists. }
  split_and!.
  - intros Hi src r Hs ->. rewrite length_app in HC.
    eapply (Hsome _ _ (fun _ _ => True)), OnData_spec; [exact HC|done|done|lia|done|done].
  - intros a Ha. eapply (Hsome _ _ (fun _ _ => True)), Read_spec; [exact HC|done|done|done|done].
  - intros Hi ->. eapply (Hsome _ _ (fun _ _ => True)), OnEof_spec; [exact HC|done|done|done|done].
  - intros sub a consume Hin.
    destruct (FillBucketList_spec c fed s sub a consume (fun l c1 =>
      forall n, 0 <= n <= Z.of_nat (length (bytes l)) ->
       exists eof c2, ConsumeBucketList consume n c1 = Some ((n, eof), c2)) HC Hin)
      as (l & c1 & E & Hn); [|by exists l, c1].
    intros l c1 T HC1 Hi1 Hi2 Hpre HT n Hn.
    destruct (is_prefix_le _ _ n Hpre ltac:(lia)) as [Hn2 _].
    destruct (ConsumeBucketList_spec c1 fed s sub a consume T n (fun te _ => te.1 = n))
      as ([n' e] & c2 & E & En); try done; [| |by exists e, c2; simpl in En; subst].
    + intros E. destruct (has_input c) eqn:Hic; [by apply Hi2|by apply Hnoin].
    + lia.
Qed.

End Model.

(** ** A concrete instance *)

Definition hex_char (d : Z) : Z := if d <? 10 then chr "0" + d else chr "a" + (d - 10).

#[global] Instance FixedHex : HexFormat :=
  fun x => map hex_char [x / 4096; x / 256 mod 16; x / 16 mod 16; x mod 16].

Lemma hex_digit_char d : 0 <= d < 16 -> hex_digit (hex_char d) = Some d.
Proof.
  intros Hd. assert (d ∈ seqZ 0 16) as Hin by (apply elem_of_seqZ; lia).
  vm_compute in Hin. repeat (apply elem_of_cons in Hin as [->|Hin]; [done|]). by apply elem_of_nil in Hin.
Qed.

#[global] Instance FixedHexOk : HexFormatOk.
Proof.
  intros x Hx. unfold HexFormatUint16Fixed, FixedHex. simpl.
  assert (0 <= x / 4096 < 16) by (split; [apply Z.div_pos; lia|apply Z.div_lt_upper_bound; lia]).
  rewrite !hex_digit_char; try apply Z.mod_pos_bound; try lia. done.
Qed.

(** "hello" in two pieces; the consumer blocks in the middle of the second
    header. *)
Definition hello_handler : list reaction :=
  [Accept 100; Accept 100; Accept 100; Accept 2; Accept 100; Accept 100; Accept 100; Accept 100].

Definition run {A} (m : M ChunkedIstream A) (c : ChunkedIstream) : ChunkedIstream :=
  match m c with Some (_, c') => c' | None => c end.

Definition hello1 := run (OnData (str "he")) (ChunkedIstream_new hello_handler).
Definition hello2 := run (OnData (str "llo")) hello1.
Definition hello3 := run (OnData (str "llo")) hello2.
Definition hello4 := run OnEof hello3.

Lemma hello_runs :
  rtc cstep (ChunkedIstream_new hello_handler, str "hello") (hello2, str "llo") /\
  rtc cstep (ChunkedIstream_new hello_handler, str "hello") (hello4, []).
Proof.
  assert (H1 : rtc cstep (ChunkedIstream_new hello_handler, str "hello") (hello2, str "llo")).
  { apply (rtc_l _ _ (hello1, str "llo")).
    - by apply (step_data (ChunkedIstream_new hello_handler) (str "he") (str "llo") 2).
    - apply rtc_once. by apply (step_data hello1 (str "llo") [] 0). }
  split; [exact H1|]. etrans; [exact H1|]. apply (rtc_l _ _ (hello3, [])).
  - by apply (step_data hello2 (str "llo") [] 3).
  - apply rtc_once. by apply (step_eof hello3).
Qed.

Lemma chunked_roundtrip_witness :
  dechunk HttpChunkParser_new (output hello4) = Decoded (str "hello") (mk_parser END 0) [].
Proof. apply (chunked_roundtrip hello_handler (str "hello") hello4 []); [apply hello_runs|done]. Defined.

Lemma chunked_prefix_witness :
  exists d p, is_prefix d (str "hello") /\ dechunk HttpChunkParser_new (output hello2) = Decoded d p [].
Proof. apply (chunked_prefix hello_handler (str "hello") hello2 (str "llo")); [apply hello_runs|done]. Defined.

Lemma chunked_safe_witness : is_Some (OnData (str "llo") hello2).
Proof.
  destruct (chunked_safe hello_handler (str "hello") hello2 (str "llo")) as [Hd _]; [apply hello_runs|done|].
  by apply (Hd eq_refl (str "llo") []).
Defined.

(** [GetAvailable(false)] has to return the size of the whole stream, but
    counts the framing of one chunk only: for an input of five bytes it
    returns 18, while the encoder sends 26 bytes when it receives them in two
    pieces. *)
Theorem chunked_available_wrong :
  (exists c, GetAvailable 5 false (ChunkedIstream_new hello_handler) = Some (18, c)) /\
  rtc cstep (ChunkedIstream_new hello_handler, str "hello") (hello4, []) /\
  life hello4 = AtEof /\ length (output hello4) = 26%nat.
Proof. split_and!; [exists (ChunkedIstream_new hello_handler); by vm_compute|apply hello_runs|done|done]. Qed.
