(* ===== verification/StdMap.v ===== *)
(** * std::map with string keys

    The session code keeps its widgets and realms in
    [std::map<std::string, T, std::less<>>].  Such a map is an association
    list that is sorted by key, which is also the order in which the code
    iterates over it; [emplace()] keeps an existing element, as the standard
    requires. *)

From Stdlib Require Import Sorted.
From S2P Require Import Prelude.

Definition bytes := list Z.

(** [std::char_traits<char>::compare()]: lexicographic, as unsigned bytes. *)
Fixpoint bytes_lt (a b : bytes) : bool :=
  match a, b with
  | _, [] => false
  | [], _ :: _ => true
  | x :: a', y :: b' => if x <? y then true else if y <? x then false else bytes_lt a' b'
  end.

Lemma bytes_lt_irrefl a : bytes_lt a a = false.
Proof. induction a as [|x a IH]; simpl; [done|]. by rewrite Z.ltb_irrefl. Qed.

Lemma bytes_lt_trans a b c :
  bytes_lt a b = true -> bytes_lt b c = true -> bytes_lt a c = true.
Proof.
  revert b c. induction a as [|x a IH]; intros [|y b] [|z c]; simpl; try done.
  destruct (x <? y) eqn:E1, (y <? z) eqn:E2, (y <? x) eqn:E3, (z <? y) eqn:E4, (x <? z) eqn:E5,
    (z <? x) eqn:E6; simpl_bool; try done; try lia. apply IH.
Qed.

Lemma bytes_lt_eq a b : bytes_lt a b = false -> bytes_lt b a = false -> a = b.
Proof.
  revert b. induction a as [|x a IH]; intros [|y b]; simpl; try done.
  destruct (x <? y) eqn:E1, (y <? x) eqn:E2; simpl_bool; try done.
  intros H1 H2. f_equal; [lia|by apply IH].
Qed.

Lemma bytes_lt_ne a b : bytes_lt a b = true -> a <> b.
Proof. intros H ->. by rewrite bytes_lt_irrefl in H. Qed.

Definition smap (A : Type) := list (bytes * A).

Section Ops.
Context {A : Type}.
Implicit Types m : smap A.

Fixpoint smap_find (k : bytes) m : option A :=
  match m with
  | [] => None
  | (k', v) :: m' => if decide (k = k') then Some v else smap_find k m'
  end.

Fixpoint smap_emplace (k : bytes) (v : A) m : smap A :=
  match m with
  | [] => [(k, v)]
  | (k', v') :: m' =>
      if bytes_lt k k' then (k, v) :: m
      else if bytes_lt k' k then (k', v') :: smap_emplace k v m' else m
  end.

(** Modifying the element an iterator points to. *)
Definition smap_alter (f : A -> A) (k : bytes) m : smap A :=
  map (fun '(k', v) => if decide (k = k') then (k', f v) else (k', v)) m.

Definition smap_erase (k : bytes) m : smap A :=
  List.filter (fun '(k', _) => negb (bool_decide (k = k'))) m.

Definition smap_sorted m : Prop := StronglySorted (fun a b => bytes_lt a.1 b.1 = true) m.

Lemma smap_find_Some_elem k v m : smap_find k m = Some v -> (k, v) ∈ m.
Proof.
  induction m as [|[k' v'] m IH]; simpl; [done|].
  case_decide as Hk; [intros [= ->]; subst; left|intros H; right; auto].
Qed.

Lemma smap_find_not_key k m : k ∉ m.*1 -> smap_find k m = None.
Proof.
  intros Hn. destruct (smap_find k m) as [v|] eqn:E; [|done]. destruct Hn.
  apply smap_find_Some_elem in E. apply list_elem_of_fmap. by exists (k, v).
Qed.

Lemma smap_find_above k k0 v0 m :
  smap_sorted ((k0, v0) :: m) -> bytes_lt k k0 = true -> smap_find k ((k0, v0) :: m) = None.
Proof.
  intros Hs Hlt. destruct (smap_find k _) as [v|] eqn:E; [|done]. exfalso.
  apply smap_find_Some_elem in E. apply StronglySorted_inv in Hs as [_ Hf].
  apply elem_of_cons in E as [[= -> ->]|E]; [by rewrite bytes_lt_irrefl in Hlt|].
  rewrite List.Forall_forall in Hf. apply list_elem_of_In in E. specialize (Hf _ E). simpl in Hf.
  pose proof (bytes_lt_trans _ _ _ Hlt Hf) as H. by rewrite bytes_lt_irrefl in H.
Qed.

Lemma smap_find_emplace_ne k k' v m :
  k <> k' -> smap_find k (smap_emplace k' v m) = smap_find k m.
Proof.
  intros Hne. induction m as [|[k0 v0] m IH]; simpl; [by rewrite decide_False|].
  destruct (bytes_lt k' k0), (bytes_lt k0 k'); simpl; rewrite ?IH; try done;
    by rewrite (decide_False (P := k = k')).
Qed.

Lemma smap_find_emplace k v m :
  smap_sorted m ->
  smap_find k (smap_emplace k v m) = Some (default v (smap_find k m)).
Proof.
  induction m as [|[k0 v0] m IH]; intros Hs; simpl; [by rewrite decide_True|].
  destruct (bytes_lt k k0) eqn:E1.
  - pose proof (smap_find_above k k0 v0 m Hs E1) as Hn. simpl in Hn |- *.
    rewrite Hn. by rewrite decide_True.
  - destruct (bytes_lt k0 k) eqn:E2.
    + simpl. apply bytes_lt_ne in E2. rewrite !decide_False by congruence.
      apply IH. by apply StronglySorted_inv in Hs as [? _].
    + pose proof (bytes_lt_eq _ _ E1 E2) as ->. simpl. by rewrite decide_True.
Qed.

Lemma smap_emplace_elem x k v m : x ∈ smap_emplace k v m -> x = (k, v) \/ x ∈ m.
Proof.
  induction m as [|[k0 v0] m IH]; simpl.
  - rewrite list_elem_of_singleton. auto.
  - destruct (bytes_lt k k0); [rewrite !elem_of_cons; tauto|].
    destruct (bytes_lt k0 k); rewrite !elem_of_cons; tauto.
Qed.

Lemma smap_emplace_sorted k v m : smap_sorted m -> smap_sorted (smap_emplace k v m).
Proof.
  induction m as [|[k0 v0] m IH]; intros Hs; simpl; [repeat constructor|].
  pose proof (StronglySorted_inv Hs) as [Hs' Hf].
  destruct (bytes_lt k k0) eqn:E1.
  - constructor; [done|]. constructor; [done|].
    eapply List.Forall_impl; [|exact Hf]. intros [k1 v1] H. simpl in *.
    by eapply bytes_lt_trans.
  - destruct (bytes_lt k0 k) eqn:E2; [|done].
    constructor; [by apply IH|]. rewrite List.Forall_forall in Hf |- *. intros x Hx.
    apply list_elem_of_In in Hx. apply smap_emplace_elem in Hx as [->|Hx]; [done|].
    apply Hf. by apply list_elem_of_In.
Qed.

(** Inserting in ascending order appends. *)
Lemma smap_emplace_last k v m :
  Forall (fun x => bytes_lt x.1 k = true) m -> smap_emplace k v m = m ++ [(k, v)].
Proof.
  induction 1 as [|[k0 v0] m Hx Hm IH]; simpl in *; [done|].
  destruct (bytes_lt k k0) eqn:E.
  - pose proof (bytes_lt_trans _ _ _ Hx E) as H. by rewrite bytes_lt_irrefl in H.
  - by rewrite Hx, IH.
Qed.

Lemma smap_find_alter f k m : smap_find k (smap_alter f k m) = f <$> smap_find k m.
Proof.
  induction m as [|[k0 v0] m IH]; simpl; [done|].
  destruct (decide (k = k0)) as [->|]; simpl.
  - by rewrite !decide_True.
  - by rewrite !decide_False.
Qed.

Lemma smap_find_alter_ne f k k' m :
  k <> k' -> smap_find k (smap_alter f k' m) = smap_find k m.
Proof.
  intros Hne. induction m as [|[k0 v0] m IH]; simpl; [done|].
  destruct (decide (k' = k0)) as [->|]; simpl; [|by rewrite IH].
  by rewrite IH, !decide_False.
Qed.

Lemma smap_alter_keys f k m : (smap_alter f k m).*1 = m.*1.
Proof.
  induction m as [|[k0 v0] m IH]; simpl; [done|].
  case_decide; simpl; f_equal; exact IH.
Qed.

Lemma smap_sorted_keys m m' : m.*1 = m'.*1 -> smap_sorted m -> smap_sorted m'.
Proof.
  revert m'. induction m as [|[k v] m IH]; intros [|[k' v'] m'] E Hs; simplify_eq/=; [constructor|].
  apply StronglySorted_inv in Hs as [Hs Hf]. constructor; [by apply IH|].
  simpl in *. clear -H0 Hf. revert m' H0. induction Hf as [|x m Hx Hf IHf]; intros [|y m'] E; simplify_eq/=;
    constructor; [congruence|auto].
Qed.

Lemma smap_alter_sorted f k m : smap_sorted m -> smap_sorted (smap_alter f k m).
Proof. apply smap_sorted_keys. by rewrite smap_alter_keys. Qed.

Lemma smap_find_erase k k' m :
  smap_find k (smap_erase k' m) = if decide (k = k') then None else smap_find k m.
Proof.
  induction m as [|[k0 v0] m IH]; simpl; [by case_decide|].
  destruct (decide (k' = k0)) as [->|Hn].
  - rewrite (bool_decide_eq_true_2 (k0 = k0)) by done. simpl. rewrite IH. repeat case_decide; congruence.
  - rewrite (bool_decide_eq_false_2 (k' = k0)) by done. simpl. rewrite IH. repeat case_decide; congruence.
Qed.

Lemma smap_filter_sorted (P : bytes * A -> bool) m : smap_sorted m -> smap_sorted (List.filter P m).
Proof.
  induction m as [|x m IH]; simpl; intros Hs; [done|].
  apply StronglySorted_inv in Hs as [Hs Hf]. destruct (P x); [|by apply IH].
  constructor; [by apply IH|]. rewrite List.Forall_forall in Hf |- *. intros y Hy.
  apply Hf. by apply List.filter_In in Hy as [? _].
Qed.

Lemma smap_erase_sorted k m : smap_sorted m -> smap_sorted (smap_erase k m).
Proof. apply smap_filter_sorted. Qed.

Lemma smap_sorted_nodup m : smap_sorted m -> NoDup m.*1.
Proof.
  induction 1 as [|[k v] m Hs IH Hf]; simpl; constructor; [|done].
  intros Hin. apply list_elem_of_fmap in Hin as ([k' v'] & -> & Hin).
  rewrite List.Forall_forall in Hf. apply list_elem_of_In in Hin. specialize (Hf _ Hin). simpl in Hf.
  by rewrite bytes_lt_irrefl in Hf.
Qed.

Lemma smap_sorted_app a k v b :
  smap_sorted (a ++ (k, v) :: b) -> Forall (fun x => bytes_lt x.1 k = true) a.
Proof.
  induction a as [|x a IH]; simpl; intros Hs; [constructor|].
  apply StronglySorted_inv in Hs as [Hs Hf]. constructor; [|by apply IH].
  rewrite List.Forall_forall in Hf. apply (Hf (k, v)). apply in_or_app. right. by left.
Qed.

Lemma smap_sorted_cons_find k v m :
  smap_sorted ((k, v) :: m) -> smap_sorted m /\ smap_find k m = None.
Proof.
  intros Hs. pose proof (smap_sorted_nodup _ Hs) as Hn. rewrite fmap_cons in Hn.
  apply NoDup_cons in Hn as [Hn _]. apply StronglySorted_inv in Hs as [Hs _].
  split; [done|]. by apply smap_find_not_key.
Qed.

Lemma smap_elem_find k v m : smap_sorted m -> (k, v) ∈ m -> smap_find k m = Some v.
Proof.
  intros Hs. apply smap_sorted_nodup in Hs. induction m as [|[k0 v0] m IH]; simpl in *.
  - by intros ?%elem_of_nil.
  - apply NoDup_cons in Hs as [Hn Hs]. intros [[= -> ->]|Hin]%elem_of_cons; [by rewrite decide_True|].
    rewrite decide_False; [by apply IH|]. intros ->. apply Hn. apply list_elem_of_fmap. by exists (k0, v).
Qed.

End Ops.

#[export] Hint Resolve smap_emplace_sorted smap_alter_sorted smap_erase_sorted : beng.
