(* ===== verification/Expiry.v ===== *)
(** * Expiry

    [class Expiry] (time/Expiry.hxx) is a point in time at which something
    expires.  It belongs to a library that is not part of the repository, so
    that its operations are the fields of a class here; [ExpiryLaws] states
    what its documentation promises, and [TimePoint] is one implementation. *)

From S2P Require Import Prelude.

Class ExpiryOps := {
  Expiry : Type;
  Never : Expiry;
  AlreadyExpired : Expiry;
  (** [Touched now d]: the value that [Expiry::Touched(d)] returns, and that
      [Touch(d)] assigns, at the time [now] *)
  Touched : Expiry -> Z -> Expiry;
  (** [IsExpired e now] *)
  IsExpired : Expiry -> Expiry -> bool;
  (** [operator>] *)
  later : Expiry -> Expiry -> bool;
  (** the object representation, as written to and read from files *)
  sizeof_Expiry : nat;
  expiry_bytes : Expiry -> list Z;
  expiry_of_bytes : list Z -> Expiry }.

Class ExpiryLaws `{EO : ExpiryOps} := {
  IsExpired_Never now : IsExpired Never now = false;
  IsExpired_AlreadyExpired now : IsExpired AlreadyExpired now = true;
  later_asym a b : later a b = true -> later b a = false;
  (** what does not expire later is expired, too *)
  IsExpired_mono a b now : later b a = false -> IsExpired a now = true -> IsExpired b now = true;
  expiry_bytes_length e : length (expiry_bytes e) = sizeof_Expiry;
  (** the type is trivially copyable *)
  expiry_of_to_bytes e : expiry_of_bytes (expiry_bytes e) = e }.

(** ** Little-endian integers

    The object representation of a [w]-byte unsigned integer. *)

Fixpoint le_bytes (w : nat) (x : Z) : list Z :=
  match w with
  | O => []
  | S w' => x mod 256 :: le_bytes w' (x / 256)
  end.

Fixpoint le_value (l : list Z) : Z :=
  match l with
  | [] => 0
  | b :: l' => b + 256 * le_value l'
  end.

Lemma le_bytes_length w x : length (le_bytes w x) = w.
Proof. revert x. induction w as [|w IH]; intros x; simpl; [done|]. by rewrite IH. Qed.

Lemma le_value_bytes w x : 0 <= x < 256 ^ Z.of_nat w -> le_value (le_bytes w x) = x.
Proof.
  revert x. induction w as [|w IH]; intros x Hx; simpl; [change (256 ^ Z.of_nat 0) with 1 in Hx; lia|].
  rewrite Nat2Z.inj_succ, Z.pow_succ_r in Hx by lia.
  rewrite IH by (split; [apply Z.div_pos; lia|apply Z.div_lt_upper_bound; lia]).
  pose proof (Z.div_mod x 256). lia.
Qed.

(** An [Expiry] that is a 64-bit number of seconds; zero is "expired" and the
    largest value is "never". *)
Record TimePoint := { seconds : N; seconds_bound : (seconds < 2 ^ 64)%N }.

Program Definition tp_of_Z (z : Z) : TimePoint :=
  {| seconds := Z.to_N (z mod 2 ^ 64) |}.
Next Obligation.
  intros z. pose proof (Z.mod_pos_bound z (2 ^ 64) ltac:(lia)). lia.
Qed.

Definition tp_max : Z := 2 ^ 64 - 1.

#[refine] Instance TimePointOps : ExpiryOps := {|
  Expiry := TimePoint;
  Never := tp_of_Z tp_max;
  AlreadyExpired := tp_of_Z 0;
  Touched now d := tp_of_Z (Z.min (tp_max - 1) (Z.of_N (seconds now) + d));
  IsExpired e now :=
    (Z.of_N (seconds e) =? 0) ||
    (Z.of_N (seconds e) <=? Z.of_N (seconds now)) && negb (Z.of_N (seconds e) =? tp_max);
  later a b := Z.of_N (seconds b) <? Z.of_N (seconds a);
  sizeof_Expiry := 8;
  expiry_bytes e := le_bytes 8 (Z.of_N (seconds e));
  expiry_of_bytes l := tp_of_Z (le_value l) |}.
Proof. Defined.

Lemma tp_eq (a b : TimePoint) : seconds a = seconds b -> a = b.
Proof.
  destruct a as [a Ha], b as [b Hb]. simpl. intros <-. f_equal. apply (proof_irrel (A := eq _ _)).
Qed.

#[export] Instance TimePointLaws : ExpiryLaws.
Proof.
  split.
  - intros now. cbn. by rewrite andb_false_r.
  - intros now. reflexivity.
  - intros a b. simpl. lia.
  - intros a b now. simpl. unfold tp_max. pose proof (seconds_bound a).
    destruct (Z.of_N (seconds a) =? 0) eqn:E1, (Z.of_N (seconds b) =? 0) eqn:E2; simpl; try done;
      intros; simpl_bool; [lia|]. apply andb_true_iff. split; [lia|].
    apply negb_true_iff, Z.eqb_neq. lia.
  - intros e. apply le_bytes_length.
  - intros e. apply tp_eq. pose proof (seconds_bound e).
    unfold expiry_of_bytes, expiry_bytes, TimePointOps, tp_of_Z, seconds at 1.
    rewrite (le_value_bytes 8) by lia. rewrite Z.mod_small by lia. lia.
Qed.
