(* ===== verification/SessionData.v ===== *)
(** * Sessions: the data

    Models src/bp/session/Id.hxx, Id.cxx, Session.hxx, Session.cxx and
    src/http/CookieJar.hxx, CookieJar.cxx: the session id and its cluster
    hash, the cookie jar, the tree of widget sessions, the realm session and
    the session, with all the operations that change them.

    An [AllocatedString] is the characters up to the terminating null byte,
    or [None] for [nullptr]; an [AllocatedArray<std::byte>] likewise.  A
    computation that passes a null pointer to [strcmp()] is [None]. *)

From S2P Require Import Prelude StdMap Expiry.

(** ** Strings *)

(** The characters a C string has: those before the first null byte. *)
Definition c_str (s : bytes) : bytes := fst (span_while (fun b => negb (b =? 0)) s).

Definition AllocatedString := option bytes.
Definition AllocatedArray := option bytes.

(** [StringIsEqual()] is [strcmp()], which must not be given a null pointer. *)
Definition StringIsEqual (a b : AllocatedString) : option bool :=
  match a, b with
  | Some a, Some b => Some (bool_decide (a = b))
  | _, _ => None
  end.

(** ** Session ids *)

(** [std::array<uint64_t, 2>] *)
Record SessionId := mkSessionId { id_front : Z; id_back : Z }.

#[export] Instance SessionId_eq_dec : EqDecision SessionId.
Proof. solve_decision. Defined.

Definition SessionId_IsDefined (id : SessionId) : bool :=
  negb (id_front id =? 0) || negb (id_back id =? 0).

Definition SessionId_Clear (id : SessionId) : SessionId := mkSessionId 0 0.

(** The random engine [SessionPrng]. *)
Class Prng := {
  prng_state : Type;
  prng_next : prng_state -> Z * prng_state }.

Definition SessionId_Generate `{Prng} (p : prng_state) : SessionId * prng_state :=
  let '(a, p) := prng_next p in
  let '(b, p) := prng_next p in
  (mkSessionId a b, p).

Definition SessionId_Hash (id : SessionId) : Z := id_front id.

(** [sticky_hash_t] has 32 bits. *)
Definition GetClusterHash (id : SessionId) : Z := wrap 32 (id_back id).

(** [id] is a [uint64_t]; the caller has checked [cluster_size > 0]. *)
Definition ToClusterNode (id cluster_size cluster_node : Z) : option Z :=
  let remainder := wrap 32 id mod cluster_size in
  if negb (remainder <? cluster_size) then None
  else Some (wrap 64 (wrap 64 (id - remainder) + cluster_node)).

Definition SetClusterNode (id : SessionId) (cluster_size cluster_node : Z) : option SessionId :=
  if negb (0 <? cluster_size) then None
  else if negb (cluster_node <? cluster_size) then None
  else
    let old_hash := GetClusterHash id in
    new_hash ← ToClusterNode old_hash cluster_size cluster_node;
    Some (mkSessionId (id_front id) new_hash).

(** [HttpAddress], the address of an external session manager: a session
    only keeps a copy of it. *)
Class HttpAddressType := { HttpAddress : Type }.

Section Session.
Context `{EO : ExpiryOps} `{HA : HttpAddressType}.

(** ** The cookie jar *)

Record Cookie := mkCookie {
  cookie_name : AllocatedString;
  cookie_value : AllocatedString;
  cookie_domain : AllocatedString;
  cookie_path : AllocatedString;
  cookie_expires : Expiry }.

Definition Cookie_new (name value : AllocatedString) : Cookie :=
  mkCookie name value None None Never.

(** The list of cookies, in the order of the intrusive list. *)
Definition CookieJar := list Cookie.

Definition CookieJar_Add (jar : CookieJar) (cookie : Cookie) : CookieJar := cookie :: jar.

Definition CookieJar_copy (src : CookieJar) : CookieJar := foldl CookieJar_Add [] src.

Definition CookieJar_Expire (now : Expiry) (jar : CookieJar) : CookieJar :=
  List.filter (fun cookie => negb (IsExpired (cookie_expires cookie) now)) jar.

(** The [&&] of the three comparisons, left to right. *)
Definition cookie_equals (i : Cookie) (domain path name : AllocatedString) : option bool :=
  d ← StringIsEqual (cookie_domain i) domain;
  if negb d then Some false else
  p ← StringIsEqual (cookie_path i) path;
  if negb p then Some false else
  StringIsEqual (cookie_name i) name.

(** The position of the cookie that is found. *)
Fixpoint CookieJar_Find (l : CookieJar) (domain path name : AllocatedString)
  : option (option nat) :=
  match l with
  | [] => Some None
  | i :: l' =>
      eq ← cookie_equals i domain path name;
      if eq : bool then Some (Some O)
      else r ← CookieJar_Find l' domain path name; Some (option_map S r)
  end.

Definition CookieJar_MoveOne (jar : CookieJar) (i : Cookie) : option CookieJar :=
  dest ← CookieJar_Find jar (cookie_domain i) (cookie_path i) (cookie_name i);
  let jar := match dest with Some n => list_delete n jar | None => jar end in
  Some (jar ++ [i]).

Fixpoint CookieJar_MoveFrom (jar src : CookieJar) : option CookieJar :=
  match src with
  | [] => Some jar
  | i :: src' => jar ← CookieJar_MoveOne jar i; CookieJar_MoveFrom jar src'
  end.

(** ** Widget sessions *)

Inductive WidgetSession := mkWidgetSession {
  ws_children : list (bytes * WidgetSession);
  ws_path_info : AllocatedString;
  ws_query_string : AllocatedString }.

(** Induction on the tree. *)
Lemma WidgetSession_tree_ind (P : WidgetSession -> Prop) :
  (forall c p q, (forall k w, (k, w) ∈ c -> P w) -> P (mkWidgetSession c p q)) ->
  forall w, P w.
Proof.
  intros H. fix IH 1. intros [c p q]. apply H.
  induction c as [|[k0 w0] c IHc]; intros k w Hin; [destruct (not_elem_of_nil _ Hin)|].
  pose proof (IH w0) as H0. clear IH.
  apply elem_of_cons in Hin as [E|Hin]; [by injection E as -> ->|by eapply IHc].
Qed.

Definition WidgetSession_new : WidgetSession := mkWidgetSession [] None None.

Definition is_null {A} (o : option A) : bool := match o with None => true | Some _ => false end.

(** [Attach(WidgetSession &&)]; the inner loop is [Attach(Set &, Set &&)],
    which takes the elements of the source out one after the other. *)
Fixpoint WidgetSession_Attach (this src : WidgetSession) : WidgetSession :=
  match src with
  | mkWidgetSession src_children src_path_info src_query_string =>
      let children :=
        (fix attach_set (dest src : smap WidgetSession) : smap WidgetSession :=
           match src with
           | [] => dest
           | (key, mapped) :: src' =>
               attach_set
                 (match smap_find key dest with
                  | None => smap_emplace key mapped dest
                  | Some _ => smap_alter (fun position => WidgetSession_Attach position mapped) key dest
                  end) src'
           end) (ws_children this) src_children in
      if negb (is_null src_path_info) || negb (is_null src_query_string)
      then mkWidgetSession children src_path_info src_query_string
      else mkWidgetSession children (ws_path_info this) (ws_query_string this)
  end.

Fixpoint WidgetSession_AttachSet (dest src : smap WidgetSession) : smap WidgetSession :=
  match src with
  | [] => dest
  | (key, mapped) :: src' =>
      WidgetSession_AttachSet
        (match smap_find key dest with
         | None => smap_emplace key mapped dest
         | Some _ => smap_alter (fun position => WidgetSession_Attach position mapped) key dest
         end) src'
  end.

Definition hashmap_r_get_widget_session (set : smap WidgetSession) (id : bytes) (create : bool)
  : option WidgetSession * smap WidgetSession :=
  match smap_find id set with
  | Some i => (Some i, set)
  | None => if negb create then (None, set)
            else (Some WidgetSession_new, smap_emplace id WidgetSession_new set)
  end.

Definition WidgetSession_GetChild (this : WidgetSession) (child_id : bytes) (create : bool)
  : option WidgetSession * WidgetSession :=
  let '(r, children) := hashmap_r_get_widget_session (ws_children this) child_id create in
  (r, mkWidgetSession children (ws_path_info this) (ws_query_string this)).

(** ** Realm sessions *)

(** [enum class CookieSameSite : uint8_t] *)
Definition SAME_SITE_DEFAULT : Z := 0.

Record RealmSession := mkRealmSession {
  realm_site : AllocatedString;
  realm_translate : AllocatedArray;
  realm_user : AllocatedString;
  realm_user_expires : Expiry;
  realm_widgets : smap WidgetSession;
  realm_cookies : CookieJar;
  realm_session_cookie_same_site : Z }.

Definition RealmSession_new : RealmSession :=
  mkRealmSession None None None Never [] [] SAME_SITE_DEFAULT.

(** [RealmSession(Session &, RealmSession &&)]: the members that are not in
    the initializer list have their defaults. *)
Definition RealmSession_move (src : RealmSession) : RealmSession :=
  mkRealmSession (realm_site src) None (realm_user src) (realm_user_expires src)
    (realm_widgets src) (realm_cookies src) SAME_SITE_DEFAULT.

Definition RealmSession_Attach (this other : RealmSession) : option RealmSession :=
  let site := if is_null (realm_site this) && negb (is_null (realm_site other))
              then realm_site other else realm_site this in
  let take_user := is_null (realm_user this) && negb (is_null (realm_user other)) in
  let user := if take_user then realm_user other else realm_user this in
  let user_expires := if take_user then realm_user_expires other else realm_user_expires this in
  let widgets := WidgetSession_AttachSet (realm_widgets this) (realm_widgets other) in
  cookies ← CookieJar_MoveFrom (realm_cookies this) (realm_cookies other);
  Some (mkRealmSession site (realm_translate this) user user_expires widgets cookies
          (realm_session_cookie_same_site this)).

Definition RealmSession_ClearSite (this : RealmSession) : RealmSession :=
  mkRealmSession None (realm_translate this) (realm_user this) (realm_user_expires this)
    (realm_widgets this) (realm_cookies this) (realm_session_cookie_same_site this).

Definition RealmSession_SetSite (site : bytes) (this : RealmSession) : RealmSession :=
  mkRealmSession (Some site) (realm_translate this) (realm_user this) (realm_user_expires this)
    (realm_widgets this) (realm_cookies this) (realm_session_cookie_same_site this).

(** [translate] is a non-null span; assigning an equal value is a no-op. *)
Definition RealmSession_SetTranslate (translate : bytes) (this : RealmSession) : RealmSession :=
  if bool_decide (realm_translate this = Some translate) then this
  else mkRealmSession (realm_site this) (Some translate) (realm_user this) (realm_user_expires this)
         (realm_widgets this) (realm_cookies this) (realm_session_cookie_same_site this).

Definition RealmSession_ClearTranslate (this : RealmSession) : RealmSession :=
  mkRealmSession (realm_site this) None (realm_user this) (realm_user_expires this)
    (realm_widgets this) (realm_cookies this) (realm_session_cookie_same_site this).

Definition RealmSession_SetUser (now : Expiry) (user : bytes) (max_age : Z) (this : RealmSession)
  : RealmSession :=
  mkRealmSession (realm_site this) (realm_translate this) (Some user)
    (if max_age <? 0 then Never else if max_age =? 0 then AlreadyExpired else Touched now max_age)
    (realm_widgets this) (realm_cookies this) (realm_session_cookie_same_site this).

Definition RealmSession_ClearUser (this : RealmSession) : RealmSession :=
  mkRealmSession (realm_site this) (realm_translate this) None (realm_user_expires this)
    (realm_widgets this) (realm_cookies this) (realm_session_cookie_same_site this).

Definition RealmSession_Expire (now : Expiry) (this : RealmSession) : RealmSession :=
  let this := if negb (is_null (realm_user this)) && IsExpired (realm_user_expires this) now
              then RealmSession_ClearUser this else this in
  mkRealmSession (realm_site this) (realm_translate this) (realm_user this)
    (realm_user_expires this) (realm_widgets this) (CookieJar_Expire now (realm_cookies this))
    (realm_session_cookie_same_site this).

Definition RealmSession_GetWidget (this : RealmSession) (widget_id : bytes) (create : bool)
  : option WidgetSession * RealmSession :=
  let '(r, widgets) := hashmap_r_get_widget_session (realm_widgets this) widget_id create in
  (r, mkRealmSession (realm_site this) (realm_translate this) (realm_user this)
        (realm_user_expires this) widgets (realm_cookies this) (realm_session_cookie_same_site this)).

(** ** Sessions *)

Definition SESSION_TTL_NEW : Z := 120.

(** The members [external_manager], [external_keepalive] and
    [next_external_keepalive], which are only meaningful while
    [external_manager] is not null. *)
Record ExternalManager := mkExternalManager {
  em_address : HttpAddress;
  em_keepalive : Z;
  em_next : Z }.

Record Session := mkSession {
  sess_id : SessionId;
  sess_csrf_salt : SessionId;
  sess_expires : Expiry;
  sess_counter : Z;
  sess_cookie_received : bool;
  sess_translate : AllocatedArray;
  sess_recover : AllocatedString;
  sess_attach : AllocatedArray;
  sess_language : AllocatedString;
  sess_external_manager : option ExternalManager;
  sess_realms : smap RealmSession }.

Definition Session_new (now : Expiry) (id csrf_salt : SessionId) : Session :=
  mkSession id csrf_salt (Touched now SESSION_TTL_NEW) 1 false None None None None None [].

Definition HasUser (this : Session) : bool :=
  existsb (fun '(name, realm) => negb (is_null (realm_user realm))) (sess_realms this).

Definition GetPurgeScore (this : Session) : Z :=
  if negb (sess_cookie_received this) then 50
  else if negb (HasUser this) then 20 else 1.

(** Assignments to members. *)
Definition with_translate t (s : Session) : Session :=
  mkSession (sess_id s) (sess_csrf_salt s) (sess_expires s) (sess_counter s)
    (sess_cookie_received s) t (sess_recover s) (sess_attach s) (sess_language s)
    (sess_external_manager s) (sess_realms s).
Definition with_recover r (s : Session) : Session :=
  mkSession (sess_id s) (sess_csrf_salt s) (sess_expires s) (sess_counter s)
    (sess_cookie_received s) (sess_translate s) r (sess_attach s) (sess_language s)
    (sess_external_manager s) (sess_realms s).
Definition with_attach a (s : Session) : Session :=
  mkSession (sess_id s) (sess_csrf_salt s) (sess_expires s) (sess_counter s)
    (sess_cookie_received s) (sess_translate s) (sess_recover s) a (sess_language s)
    (sess_external_manager s) (sess_realms s).
Definition with_language l (s : Session) : Session :=
  mkSession (sess_id s) (sess_csrf_salt s) (sess_expires s) (sess_counter s)
    (sess_cookie_received s) (sess_translate s) (sess_recover s) (sess_attach s) l
    (sess_external_manager s) (sess_realms s).
Definition with_external_manager em (s : Session) : Session :=
  mkSession (sess_id s) (sess_csrf_salt s) (sess_expires s) (sess_counter s)
    (sess_cookie_received s) (sess_translate s) (sess_recover s) (sess_attach s)
    (sess_language s) em (sess_realms s).
Definition with_realms rs (s : Session) : Session :=
  mkSession (sess_id s) (sess_csrf_salt s) (sess_expires s) (sess_counter s)
    (sess_cookie_received s) (sess_translate s) (sess_recover s) (sess_attach s)
    (sess_language s) (sess_external_manager s) rs.
Definition with_touched e c (s : Session) : Session :=
  mkSession (sess_id s) (sess_csrf_salt s) e c
    (sess_cookie_received s) (sess_translate s) (sess_recover s) (sess_attach s)
    (sess_language s) (sess_external_manager s) (sess_realms s).

Definition Session_ClearTranslate (this : Session) : Session := with_translate None this.

Definition Session_SetTranslate (translate : bytes) (this : Session) : Session :=
  if bool_decide (sess_translate this = Some translate) then this
  else with_translate (Some translate) this.

(** The result says whether the value was modified. *)
Definition Session_SetRecover (recover : bytes) (this : Session) : bool * Session :=
  if bool_decide (sess_recover this = Some recover) then (false, this)
  else (true, with_recover (Some recover) this).

(** A null array has the size zero. *)
Definition Session_IsAttach (this : Session) (other : bytes) : bool :=
  bool_decide (default [] (sess_attach this) = other).

Definition Session_SetLanguage (language : bytes) (this : Session) : Session :=
  with_language (Some language) this.

Definition Session_ClearLanguage (this : Session) : Session := with_language None this.

Definition Session_SetExternalManager (address : HttpAddress) (now keepalive : Z) (this : Session)
  : Session :=
  with_external_manager (Some (mkExternalManager address keepalive (now + keepalive))) this.

(** The loop of [Session::Attach()] over the realms of the other session. *)
Fixpoint Session_AttachRealms (realms other : smap RealmSession) : option (smap RealmSession) :=
  match other with
  | [] => Some realms
  | (key, mapped) :: other' =>
      match smap_find key realms with
      | None => Session_AttachRealms (smap_emplace key (RealmSession_move mapped) realms) other'
      | Some existing =>
          r ← RealmSession_Attach existing mapped;
          Session_AttachRealms (smap_alter (fun _ => r) key realms) other'
      end
  end.

Definition Session_Attach (this other : Session) : option Session :=
  let expires := if later (sess_expires other) (sess_expires this)
                 then sess_expires other else sess_expires this in
  let counter := wrap 32 (sess_counter this + 1) in
  let cookie_received := if sess_cookie_received other then true else sess_cookie_received this in
  let translate := if is_null (sess_translate this) then sess_translate other
                   else sess_translate this in
  let language := if is_null (sess_language this) then sess_language other
                  else sess_language this in
  let external_manager :=
    if is_null (sess_external_manager this) && negb (is_null (sess_external_manager other))
    then sess_external_manager other else sess_external_manager this in
  realms ← Session_AttachRealms (sess_realms this) (sess_realms other);
  Some (mkSession (sess_id this) (sess_csrf_salt this) expires counter cookie_received translate
          (sess_recover this) (sess_attach this) language external_manager realms).

Definition Session_Expire (now : Expiry) (this : Session) : Session :=
  with_realms (map (fun '(name, realm) => (name, RealmSession_Expire now realm)) (sess_realms this))
    this.

(** The realm session that the result points to, and the new value of the
    session. *)
Definition Session_GetRealm (realm_name : bytes) (this : Session) : RealmSession * Session :=
  match smap_find realm_name (sess_realms this) with
  | Some i => (i, this)
  | None =>
      (RealmSession_new, with_realms (smap_emplace realm_name RealmSession_new (sess_realms this)) this)
  end.

Definition Session_DiscardRealm (realm : bytes) (this : Session) : bool * Session :=
  match smap_find realm (sess_realms this) with
  | Some _ => (true, with_realms (smap_erase realm (sess_realms this)) this)
  | None => (false, this)
  end.

End Session.
