(* ===== verification/SessionFacts.v ===== *)
(** * Sessions: attaching one to another

    What the operations of [SessionData] do: the cluster node of a session
    id, moving cookies between jars, merging two trees of widget sessions and
    attaching a whole session to another one. *)

From Stdlib Require Import Sorted.
From S2P Require Import Prelude StdMap Expiry SessionData.

(** ** The cluster node *)

Lemma SetClusterNode_eq id size node :
  0 <= node < size -> size < 2 ^ 32 ->
  SetClusterNode id size node =
  Some (mkSessionId (id_front id) (GetClusterHash id - GetClusterHash id mod size + node)).
Proof.
  intros Hn Hs. unfold SetClusterNode, ToClusterNode.
  rewrite (proj2 (Z.ltb_lt 0 size)), (proj2 (Z.ltb_lt node size)) by lia. cbn [negb].
  assert (Hh : 0 <= GetClusterHash id < 2 ^ 32) by (apply Z.mod_pos_bound; lia).
  set (h := GetClusterHash id) in *. rewrite (wrap_id 32 h) by lia.
  pose proof (Z.mod_pos_bound h size ltac:(lia)) as Hr.
  pose proof (Z.mod_le h size ltac:(lia) ltac:(lia)) as Hle.
  rewrite (proj2 (Z.ltb_lt _ _)) by lia. cbn [negb mbind option_bind].
  by rewrite !wrap_id by (rewrite ?wrap_id; lia).
Qed.

Lemma cluster_base_mod h size node :
  0 <= node < size -> (h - h mod size + node) mod size = node.
Proof.
  intros H. replace (h - h mod size + node) with (node + (h / size) * size)
    by (pose proof (Z.div_mod h size); lia).
  rewrite Z.mod_add by lia. by apply Z.mod_small.
Qed.

(** [SessionId::SetClusterNode()] keeps the first word of the id and
    sets the second one so that [GetClusterHash()] modulo the cluster size is
    the given node, and moves the hash by less than the cluster size, whenever
    the adjusted hash still has 32 bits. *)
Theorem SetClusterNode_node id size node :
  0 <= node < size -> size < 2 ^ 32 ->
  GetClusterHash id - GetClusterHash id mod size + node < 2 ^ 32 ->
  exists id', SetClusterNode id size node = Some id' /\
    id_front id' = id_front id /\ GetClusterHash id' mod size = node /\
    Z.abs (GetClusterHash id' - GetClusterHash id) < size.
Proof.
  intros Hn Hs Hh.
  assert (Hb : 0 <= GetClusterHash id) by (apply Z.mod_pos_bound; lia).
  pose proof (Z.mod_pos_bound (GetClusterHash id) size ltac:(lia)).
  pose proof (Z.mod_le (GetClusterHash id) size ltac:(lia) ltac:(lia)).
  eexists. split; [by apply SetClusterNode_eq|]. split; [done|].
  unfold GetClusterHash at 1 4. cbn [id_back]. rewrite wrap_id by lia.
  split; [by apply cluster_base_mod|lia].
Qed.

Lemma SetClusterNode_node_witness :
  exists id', SetClusterNode (mkSessionId 7 (5 * 2 ^ 32 + 123)) 10 4 = Some id' /\
    id_front id' = 7 /\ GetClusterHash id' mod 10 = 4 /\
    Z.abs (GetClusterHash id' - GetClusterHash (mkSessionId 7 (5 * 2 ^ 32 + 123))) < 10.
Proof. apply (SetClusterNode_node (mkSessionId 7 (5 * 2 ^ 32 + 123)) 10 4); vm_compute; intuition congruence. Defined.

(** The upper half of the second word is lost, and a hash at the end of
    the 32 bit range is adjusted beyond it: then [GetClusterHash()] truncates
    the result and it is not the given node modulo the cluster size, although
    that is what [SetClusterNode()] is documented to achieve. *)
Theorem SetClusterNode_wrong_node :
  exists id id' size node,
    0 <= node < size /\ SetClusterNode id size node = Some id' /\
    GetClusterHash id' mod size <> node.
Proof.
  exists (mkSessionId 1 (2 ^ 32 - 1)), (mkSessionId 1 (2 ^ 32 + 3)), 10, 9.
  split; [lia|]. split; [reflexivity|]. vm_compute. congruence.
Qed.

Section Facts.
Context `{EO : ExpiryOps} `{HA : HttpAddressType}.

(** ** Moving cookies *)

(** What identifies a cookie in a jar. *)
Definition cookie_key (c : Cookie) : AllocatedString * AllocatedString * AllocatedString :=
  (cookie_domain c, cookie_path c, cookie_name c).

Definition cookie_complete (c : Cookie) : bool :=
  negb (is_null (cookie_domain c)) && negb (is_null (cookie_path c)) && negb (is_null (cookie_name c)).

(** No cookie lacks a part of its key, and no two have the same key. *)
Record jar_ok (jar : list Cookie) : Prop := {
  jar_complete : Forall (fun c => cookie_complete c = true) jar;
  jar_nodup : NoDup (cookie_key <$> jar) }.

Lemma cookie_equals_complete i c :
  cookie_complete i = true -> cookie_complete c = true ->
  cookie_equals i (cookie_domain c) (cookie_path c) (cookie_name c) =
  Some (bool_decide (cookie_key i = cookie_key c)).
Proof.
  destruct i as [[n|] v [d|] [p|] e], c as [[n'|] v' [d'|] [p'|] e']; try done. intros _ _.
  unfold cookie_equals, cookie_key. simpl.
  destruct (decide (d = d')) as [->|Hd].
  - rewrite (bool_decide_eq_true_2 (d' = d')) by done. simpl.
    destruct (decide (p = p')) as [->|Hp].
    + rewrite (bool_decide_eq_true_2 (p' = p')) by done. simpl. f_equal.
      apply bool_decide_ext. split; [by intros ->|congruence].
    + rewrite (bool_decide_eq_false_2 (p = p')) by done. simpl.
      by rewrite bool_decide_eq_false_2 by congruence.
  - rewrite (bool_decide_eq_false_2 (d = d')) by done. simpl.
    by rewrite bool_decide_eq_false_2 by congruence.
Qed.

Lemma CookieJar_Find_complete jar c :
  Forall (fun c => cookie_complete c = true) jar -> cookie_complete c = true ->
  CookieJar_Find jar (cookie_domain c) (cookie_path c) (cookie_name c) =
  Some (find_index (fun i => bool_decide (cookie_key i = cookie_key c)) jar).
Proof.
  intros Hj Hc. induction Hj as [|i jar Hi Hj IH]; simpl; [done|].
  rewrite cookie_equals_complete by done. cbn [mbind option_bind].
  destruct (bool_decide _); [done|]. by rewrite IH.
Qed.

(** The cookies of a jar that have none of the given keys. *)
Definition jar_without (keys : list (AllocatedString * AllocatedString * AllocatedString))
  (jar : list Cookie) : list Cookie :=
  filter (fun c => cookie_key c ∉ keys) jar.

Lemma delete_first_filter k jar :
  NoDup (cookie_key <$> jar) ->
  match find_index (fun i => bool_decide (cookie_key i = k)) jar with
  | Some n => list_delete n jar
  | None => jar
  end = jar_without [k] jar.
Proof.
  unfold jar_without. induction jar as [|c jar IH]; intros Hn; [done|]. cbn [find_index].
  rewrite fmap_cons in Hn. apply NoDup_cons in Hn as [Hc Hn]. specialize (IH Hn).
  destruct (decide (cookie_key c = k)) as [Hk|Hk].
  - rewrite (bool_decide_eq_true_2 _ Hk). rewrite filter_cons_False by set_solver. simpl. symmetry.
    apply filter_all. intros x Hx Hin.
    apply list_elem_of_singleton in Hin. apply Hc. rewrite Hk, <-Hin.
    apply list_elem_of_fmap. by exists x.
  - rewrite (bool_decide_eq_false_2 _ Hk). rewrite filter_cons_True by set_solver.
    destruct (find_index _ jar); simpl; by rewrite <-IH.
Qed.

Lemma CookieJar_MoveOne_spec jar c :
  jar_ok jar -> cookie_complete c = true ->
  CookieJar_MoveOne jar c = Some (jar_without [cookie_key c] jar ++ [c]).
Proof.
  intros [Hj Hn] Hc. unfold CookieJar_MoveOne. rewrite CookieJar_Find_complete by done.
  cbn [mbind option_bind]. by rewrite delete_first_filter.
Qed.

Lemma jar_without_app keys a b : jar_without keys (a ++ b) = jar_without keys a ++ jar_without keys b.
Proof. apply filter_app. Qed.

Lemma jar_without_cons k keys jar :
  jar_without keys (jar_without [k] jar) = jar_without (k :: keys) jar.
Proof.
  unfold jar_without. rewrite list_filter_filter. apply list_filter_iff. set_solver.
Qed.

Lemma jar_without_ok keys jar : jar_ok jar -> jar_ok (jar_without keys jar).
Proof.
  intros [Hc Hn]. split.
  - apply Forall_forall. intros c Hin. apply list_elem_of_filter in Hin as [_ Hin].
    by apply (proj1 (Forall_forall _ _) Hc).
  - eapply sublist_NoDup; [exact Hn|]. apply fmap_sublist, sublist_filter.
Qed.

Lemma jar_move_ok jar c :
  jar_ok jar -> cookie_complete c = true -> jar_ok (jar_without [cookie_key c] jar ++ [c]).
Proof.
  intros Hok Hc. apply (jar_without_ok [cookie_key c]) in Hok as Hok'. destruct Hok' as [H1 H2]. split.
  - apply Forall_app. split; [done|]. by repeat constructor.
  - rewrite fmap_app. apply NoDup_app. split; [done|]. split; [|apply NoDup_singleton].
    intros k Hk Hin. simpl in Hin. apply list_elem_of_singleton in Hin as ->.
    apply list_elem_of_fmap in Hk as (x & Hx & Hin). apply list_elem_of_filter in Hin as [Hn _].
    apply Hn. rewrite Hx. by left.
Qed.

Lemma CookieJar_MoveFrom_eq (jar src : list Cookie) :
  jar_ok jar -> jar_ok src ->
  CookieJar_MoveFrom jar src = Some (jar_without (cookie_key <$> src) jar ++ src) /\
  jar_ok (jar_without (cookie_key <$> src) jar ++ src).
Proof.
  revert jar. induction src as [|c src IH]; intros jar Hj Hs.
  - simpl. rewrite app_nil_r. unfold jar_without.
    rewrite filter_all; [done|]. intros x _. apply not_elem_of_nil.
  - destruct Hs as [Hc Hn]. apply Forall_cons in Hc as [Hc Hcs].
    rewrite fmap_cons in Hn. apply NoDup_cons in Hn as [Hnc Hn].
    cbn [CookieJar_MoveFrom]. rewrite CookieJar_MoveOne_spec by done. cbn [mbind option_bind].
    destruct (IH (jar_without [cookie_key c] jar ++ [c])) as [E Hok];
      [by apply jar_move_ok|done|].
    assert (Eq : jar_without (cookie_key <$> src) (jar_without [cookie_key c] jar ++ [c]) ++ src =
                 jar_without (cookie_key <$> c :: src) jar ++ c :: src).
    { rewrite jar_without_app, jar_without_cons.
      unfold jar_without at 2. rewrite (filter_cons_True _ c []) by done. by rewrite <-app_assoc. }
    rewrite E. rewrite Eq in *. done.
Qed.

(** Moving the cookies of one jar to another
    ([CookieJar::MoveFrom()]) always succeeds when no cookie lacks its
    domain, path or name; the result is the cookies of the destination that
    the source does not replace, in their order, followed by all cookies of
    the source, and again no two cookies have the same key. *)
Theorem CookieJar_MoveFrom_spec (jar src : list Cookie) :
  jar_ok jar -> jar_ok src ->
  exists r, CookieJar_MoveFrom jar src = Some r /\
    r = jar_without (cookie_key <$> src) jar ++ src /\ jar_ok r /\
    (forall c, c ∈ src -> c ∈ r) /\
    (forall c, c ∈ jar -> c ∈ r \/ exists c', c' ∈ src /\ cookie_key c' = cookie_key c).
Proof.
  intros Hj Hs. destruct (CookieJar_MoveFrom_eq jar src Hj Hs) as [E Hok].
  eexists. split; [exact E|]. split; [done|]. split; [done|]. split.
  - intros c Hc. apply elem_of_app. by right.
  - intros c Hc. destruct (decide (cookie_key c ∈ cookie_key <$> src)) as [Hin|Hn].
    + right. apply list_elem_of_fmap in Hin as (c' & ? & ?). by exists c'.
    + left. apply elem_of_app. left. by apply list_elem_of_filter.
Qed.

(** Two cookies of one domain without a "path" attribute, which is what
    a server that does not send that attribute creates, make [MoveFrom()]
    pass a null pointer to [strcmp()]. *)
Theorem CookieJar_MoveFrom_null_path name value name' value' domain e e' :
  CookieJar_MoveFrom [mkCookie name value (Some domain) None e]
    [mkCookie name' value' (Some domain) None e'] = None.
Proof.
  cbn. by rewrite bool_decide_eq_true_2.
Qed.

(** ** Merging widget sessions *)

(** The keys of a tree of widget sessions are sorted at every level. *)
Inductive set_wf (m : smap WidgetSession) : Prop :=
| set_wf_intro :
    smap_sorted m ->
    (forall k w, (k, w) ∈ m -> set_wf (ws_children w)) -> set_wf m.

Lemma set_wf_sorted m : set_wf m -> smap_sorted m.
Proof. by intros [? _]. Qed.

Lemma set_wf_find m k w : set_wf m -> smap_find k m = Some w -> set_wf (ws_children w).
Proof. intros [_ H] Hf. eapply H. by apply smap_find_Some_elem. Qed.

Lemma set_wf_nil : set_wf [].
Proof. constructor; [constructor|]. by intros k w ?%elem_of_nil. Qed.

(** A sorted map whose values all have well-formed children. *)
Lemma set_wf_of_find m :
  smap_sorted m -> (forall k w, smap_find k m = Some w -> set_wf (ws_children w)) -> set_wf m.
Proof. intros Hs H. constructor; [done|]. intros k w Hin. eapply H. by apply smap_elem_find. Qed.

Lemma ws_attach_children this src :
  ws_children (WidgetSession_Attach this src) =
  WidgetSession_AttachSet (ws_children this) (ws_children src).
Proof.
  assert (H : forall l d,
    (fix attach_set (dest src : smap WidgetSession) : smap WidgetSession :=
       match src with
       | [] => dest
       | (key, mapped) :: src' =>
           attach_set
             (match smap_find key dest with
              | None => smap_emplace key mapped dest
              | Some _ => smap_alter (fun position => WidgetSession_Attach position mapped) key dest
              end) src'
       end) d l = WidgetSession_AttachSet d l).
  { induction l as [|[k w] l IH]; intros d; [done|]. simpl. apply IH. }
  destruct src as [c p q]. simpl. rewrite H. by destruct (negb (is_null p) || negb (is_null q)).
Qed.

(** One step of the loop over the source. *)
Definition attach_one (dest : smap WidgetSession) (key : bytes) (mapped : WidgetSession)
  : smap WidgetSession :=
  match smap_find key dest with
  | None => smap_emplace key mapped dest
  | Some _ => smap_alter (fun position => WidgetSession_Attach position mapped) key dest
  end.

(** What the merge of two sets has under a key. *)
Definition merge_one (d s : option WidgetSession) : option WidgetSession :=
  match d, s with
  | Some e, Some w => Some (WidgetSession_Attach e w)
  | None, s => s
  | d, None => d
  end.

Lemma attach_one_sorted d k w : smap_sorted d -> smap_sorted (attach_one d k w).
Proof. unfold attach_one. destruct (smap_find k d); eauto with beng. Qed.

Lemma attach_one_find d k w k' :
  smap_sorted d ->
  smap_find k' (attach_one d k w) =
  if decide (k' = k) then merge_one (smap_find k d) (Some w) else smap_find k' d.
Proof.
  intros Hs. unfold attach_one. destruct (smap_find k d) eqn:E; case_decide; subst.
  - rewrite smap_find_alter, E. done.
  - by apply smap_find_alter_ne.
  - rewrite smap_find_emplace, E by done. done.
  - by apply smap_find_emplace_ne.
Qed.

Lemma AttachSet_sorted d s : smap_sorted d -> smap_sorted (WidgetSession_AttachSet d s).
Proof.
  revert d. induction s as [|[k w] s IH]; intros d Hd; simpl; [done|].
  apply IH. by apply attach_one_sorted.
Qed.

Lemma AttachSet_find d s k :
  smap_sorted d -> smap_sorted s ->
  smap_find k (WidgetSession_AttachSet d s) = merge_one (smap_find k d) (smap_find k s).
Proof.
  revert d. induction s as [|[k0 w] s IH]; intros d Hd Hs; cbn [WidgetSession_AttachSet].
  - simpl. by destruct (smap_find k d).
  - fold (attach_one d k0 w).
    apply smap_sorted_cons_find in Hs as [Hs Hn].
    rewrite IH by (done || by apply attach_one_sorted). rewrite attach_one_find by done. simpl.
    case_decide; subst; [|done]. rewrite Hn.
    by destruct (smap_find k0 d).
Qed.

Lemma AttachSet_wf d s : set_wf d -> set_wf s -> set_wf (WidgetSession_AttachSet d s).
Proof.
  intros Hd Hs. revert d Hd. induction Hs as [s Hs Hc IH]. intros d Hd.
  apply set_wf_of_find; [apply AttachSet_sorted; by apply set_wf_sorted|].
  intros k w. rewrite AttachSet_find by (done || by apply set_wf_sorted).
  destruct (smap_find k d) as [e|] eqn:Ed, (smap_find k s) as [x|] eqn:Es; simpl; intros [= <-].
  - rewrite ws_attach_children. apply smap_find_Some_elem in Es.
    eapply IH; [exact Es|]. by eapply set_wf_find.
  - by eapply set_wf_find.
  - apply smap_find_Some_elem in Es. by eapply Hc.
Qed.

(** The relative URI that is remembered for the widget with the given path
    in the tree. *)
Fixpoint ws_uri (path : list bytes) (set : smap WidgetSession)
  : option (AllocatedString * AllocatedString) :=
  match path with
  | [] => None
  | k :: path' =>
      match smap_find k set with
      | None => None
      | Some w => match path' with
                  | [] => Some (ws_path_info w, ws_query_string w)
                  | _ => ws_uri path' (ws_children w)
                  end
      end
  end.

(** The more recent URI wins, unless it is empty. *)
Definition merge_uri (d s : option (AllocatedString * AllocatedString)) :=
  match d, s with
  | None, s => s
  | d, None => d
  | d, Some (None, None) => d
  | _, s => s
  end.

(** Attaching one tree of widget sessions to another (both overloads of
    [WidgetSession::Attach()]) keeps the trees well-formed and merges them:
    every widget of either tree is in the result, with the URI of the attached
    tree unless that tree does not know the widget or has no URI for it. *)
Theorem WidgetSession_AttachSet_spec d s :
  set_wf d -> set_wf s ->
  set_wf (WidgetSession_AttachSet d s) /\
  forall path, ws_uri path (WidgetSession_AttachSet d s) = merge_uri (ws_uri path d) (ws_uri path s).
Proof.
  intros Hd Hs. split; [by apply AttachSet_wf|]. intros path. revert d s Hd Hs.
  induction path as [|k path IH]; intros d s Hd Hs; [done|]. cbn [ws_uri].
  rewrite AttachSet_find by (by apply set_wf_sorted).
  destruct (smap_find k d) as [e|] eqn:Ed, (smap_find k s) as [x|] eqn:Es; simpl; try done.
  - destruct path as [|k' path].
    + destruct x as [c [p|] [q|]]; done.
    + rewrite ws_attach_children. apply IH; eauto using set_wf_find.
  - destruct path; [done|]. by destruct (ws_uri _ _).
Qed.

(** ** Attaching sessions *)

Record realm_wf (r : RealmSession) : Prop := {
  realm_wf_widgets : set_wf (realm_widgets r);
  realm_wf_cookies : jar_ok (realm_cookies r) }.

Record session_wf (s : Session) : Prop := {
  session_wf_sorted : smap_sorted (sess_realms s);
  session_wf_realms : forall k r, smap_find k (sess_realms s) = Some r -> realm_wf r }.

Lemma RealmSession_move_wf r : realm_wf r -> realm_wf (RealmSession_move r).
Proof. intros [? ?]. by split. Qed.

Lemma RealmSession_Attach_ok a b :
  realm_wf a -> realm_wf b ->
  exists r, RealmSession_Attach a b = Some r /\ realm_wf r /\
    is_null (realm_user r) = is_null (realm_user a) && is_null (realm_user b).
Proof.
  intros [Ha Ca] [Hb Cb]. unfold RealmSession_Attach.
  destruct (CookieJar_MoveFrom_eq _ _ Ca Cb) as [-> Hok]. eexists. split; [reflexivity|]. split.
  - split; [by apply AttachSet_wf|done].
  - simpl. destruct (realm_user a), (realm_user b); done.
Qed.

(** What the result has as the realm of a name. *)
Definition merge_realm (a b : option RealmSession) : option RealmSession :=
  match a, b with
  | None, None => None
  | None, Some o => Some (RealmSession_move o)
  | Some r, None => Some r
  | Some r, Some o => RealmSession_Attach r o
  end.

Definition realms_wf (m : smap RealmSession) : Prop :=
  smap_sorted m /\ forall k r, smap_find k m = Some r -> realm_wf r.

Lemma merge_realm_wf a b r :
  (forall r, a = Some r -> realm_wf r) -> (forall r, b = Some r -> realm_wf r) ->
  merge_realm a b = Some r -> realm_wf r.
Proof.
  intros Ha Hb. destruct a as [x|], b as [y|]; simpl.
  - destruct (RealmSession_Attach_ok x y) as (z & -> & Hz & _); auto. by intros [= <-].
  - intros [= <-]. auto.
  - intros [= <-]. apply RealmSession_move_wf. auto.
  - done.
Qed.

Lemma realms_wf_cons k r m : realms_wf ((k, r) :: m) -> realm_wf r /\ realms_wf m /\ smap_find k m = None.
Proof.
  intros [Hs Hr]. destruct (smap_sorted_cons_find _ _ _ Hs) as [Hs' Hn]. split_and!.
  - apply (Hr k). simpl. by rewrite decide_True.
  - split; [done|]. intros k' r' Hf. apply (Hr k'). simpl. rewrite decide_False; [done|congruence].
  - done.
Qed.

(** One iteration of the loop over the realms. *)
Lemma attach_realm_one m k o :
  realms_wf m -> realm_wf o ->
  exists m', realms_wf m' /\
    (forall other, Session_AttachRealms m ((k, o) :: other) = Session_AttachRealms m' other) /\
    forall k', smap_find k' m' = if decide (k' = k) then merge_realm (smap_find k m) (Some o)
                                 else smap_find k' m.
Proof.
  intros [Hs Hm] Ho.
  assert (H : exists m', smap_sorted m' /\
    (forall other, Session_AttachRealms m ((k, o) :: other) = Session_AttachRealms m' other) /\
    forall k', smap_find k' m' = if decide (k' = k) then merge_realm (smap_find k m) (Some o)
                                 else smap_find k' m).
  { simpl. destruct (smap_find k m) as [e|] eqn:E.
    - destruct (RealmSession_Attach_ok e o) as (r & Er & Hr & _); [eauto|done|].
      exists (smap_alter (fun _ => r) k m). split; [auto with beng|]. split; [by rewrite Er|].
      intros k'. case_decide; subst; [by rewrite smap_find_alter, E; cbn [merge_realm]; rewrite Er|by apply smap_find_alter_ne].
    - exists (smap_emplace k (RealmSession_move o) m). split; [auto with beng|]. split; [done|].
      intros k'. case_decide; subst; [by rewrite smap_find_emplace, E|by apply smap_find_emplace_ne]. }
  destruct H as (m' & Hs' & Hstep & Hf). exists m'. split_and!; [|done|done].
  split; [done|]. intros k' r. rewrite Hf. case_decide; [|apply Hm].
  apply merge_realm_wf; [intros; eauto|]. by intros ? [= <-].
Qed.

Lemma Session_AttachRealms_spec m other :
  realms_wf m -> realms_wf other ->
  exists m', Session_AttachRealms m other = Some m' /\ realms_wf m' /\
    forall k, smap_find k m' = merge_realm (smap_find k m) (smap_find k other).
Proof.
  revert m. induction other as [|[k o] other IH]; intros m Hm Ho.
  - exists m. split; [done|]. split; [done|]. intros k. simpl. by destruct (smap_find k m).
  - apply realms_wf_cons in Ho as (Ho & Hos & Hn).
    destruct (attach_realm_one m k o Hm Ho) as (m1 & Hm1 & Hstep & Hf1). rewrite Hstep.
    destruct (IH m1 Hm1 Hos) as (m' & E & Hwf & Hf). exists m'. split; [done|]. split; [done|].
    intros k'. rewrite Hf, Hf1. cbn [smap_find]. case_decide; subst; [|done]. rewrite Hn.
    destruct Hm as [_ Hm]. destruct (smap_find k m) as [e|] eqn:Ek; cbn [merge_realm]; [|done].
    destruct (RealmSession_Attach_ok e o) as (r & -> & _); eauto.
Qed.

(** A user is logged in to some realm. *)
Lemma HasUser_iff s :
  smap_sorted (sess_realms s) ->
  HasUser s = true <->
  exists k r, smap_find k (sess_realms s) = Some r /\ is_null (realm_user r) = false.
Proof.
  intros Hs. unfold HasUser. rewrite existsb_exists. split.
  - intros ([k r] & Hin & Hu). exists k, r. apply negb_true_iff in Hu.
    split; [|done]. apply smap_elem_find; [done|]. by apply list_elem_of_In.
  - intros (k & r & Hf & Hu). exists (k, r). apply smap_find_Some_elem in Hf.
    split; [by apply list_elem_of_In|]. by rewrite Hu.
Qed.

Lemma merge_realm_user a b r :
  (forall r, a = Some r -> realm_wf r) -> (forall r, b = Some r -> realm_wf r) ->
  merge_realm a b = Some r ->
  is_null (realm_user r) = false <->
  (exists x, a = Some x /\ is_null (realm_user x) = false) \/
  (exists y, b = Some y /\ is_null (realm_user y) = false).
Proof.
  intros Ha Hb. destruct a as [x|], b as [y|]; simpl.
  - destruct (RealmSession_Attach_ok x y) as (z & -> & _ & Hu); auto. intros [= <-].
    rewrite Hu, andb_false_iff. naive_solver.
  - intros [= <-]. naive_solver.
  - intros [= <-]. simpl. naive_solver.
  - done.
Qed.

Lemma merge_realm_Some a b :
  (forall r, a = Some r -> realm_wf r) -> (forall r, b = Some r -> realm_wf r) ->
  is_Some a \/ is_Some b -> is_Some (merge_realm a b).
Proof.
  intros Ha Hb. destruct a as [x|], b as [y|]; simpl; try (intros; by eexists).
  - destruct (RealmSession_Attach_ok x y) as (z & -> & _); eauto.
  - by intros [[? ?]|[? ?]].
Qed.

Lemma Session_Attach_realms a b :
  session_wf a -> session_wf b ->
  exists r, Session_Attach a b = Some r /\ session_wf r /\
    forall k, smap_find k (sess_realms r) =
              merge_realm (smap_find k (sess_realms a)) (smap_find k (sess_realms b)).
Proof.
  intros [Sa Ra] [Sb Rb]. unfold Session_Attach.
  destruct (Session_AttachRealms_spec (sess_realms a) (sess_realms b)) as (m & -> & [Sm Rm] & Hf);
    [by split|by split|]. eexists. split; [reflexivity|]. by split.
Qed.

Lemma HasUser_Attach a b r :
  session_wf a -> session_wf b -> session_wf r ->
  (forall k, smap_find k (sess_realms r) =
             merge_realm (smap_find k (sess_realms a)) (smap_find k (sess_realms b))) ->
  HasUser r = HasUser a || HasUser b.
Proof.
  intros [Sa Ra] [Sb Rb] [Sr Rr] Hf. apply eq_true_iff_eq.
  rewrite orb_true_iff, !HasUser_iff by done. split.
  - intros (k & x & Hx & Hu). rewrite Hf in Hx.
    apply (merge_realm_user _ _ _ (Ra k) (Rb k) Hx) in Hu as [(y & ? & ?)|(y & ? & ?)]; eauto.
  - assert (Hk : forall k, is_Some (smap_find k (sess_realms a)) \/ is_Some (smap_find k (sess_realms b)) ->
      exists x, smap_find k (sess_realms r) = Some x /\
        (is_null (realm_user x) = false <->
         (exists x, smap_find k (sess_realms a) = Some x /\ is_null (realm_user x) = false) \/
         (exists y, smap_find k (sess_realms b) = Some y /\ is_null (realm_user y) = false))).
    { intros k Hs. destruct (merge_realm_Some _ _ (Ra k) (Rb k) Hs) as [x Hx].
      exists x. rewrite Hf. split; [done|]. exact (merge_realm_user _ _ _ (Ra k) (Rb k) Hx). }
    intros [(k & x & Hx & Hu)|(k & x & Hx & Hu)]; destruct (Hk k) as (y & Hy & Hyu).
    + left. by exists x.
    + exists k, y. split; [done|]. apply Hyu. left. by exists x.
    + right. by exists x.
    + exists k, y. split; [done|]. apply Hyu. right. by exists x.
Qed.

(** [Session::Attach()] of one well-formed session to another succeeds
    and gives a well-formed session; the realms of both are there, merged by
    [RealmSession::Attach()] where both have one; a user is logged in if one
    was in either; the session is not expired while one of the two is not;
    and it is not purged before the one of them that would be purged last. *)
Theorem Session_Attach_spec `{EL : !ExpiryLaws} a b :
  session_wf a -> session_wf b ->
  exists r, Session_Attach a b = Some r /\ session_wf r /\ sess_id r = sess_id a /\
    (forall k, smap_find k (sess_realms r) =
               merge_realm (smap_find k (sess_realms a)) (smap_find k (sess_realms b))) /\
    HasUser r = HasUser a || HasUser b /\
    GetPurgeScore r <= Z.min (GetPurgeScore a) (GetPurgeScore b) /\
    (forall now, IsExpired (sess_expires r) now =
                 IsExpired (sess_expires a) now && IsExpired (sess_expires b) now).
Proof.
  intros Ha Hb. destruct (Session_Attach_realms a b Ha Hb) as (r & E & Hr & Hf).
  pose proof (HasUser_Attach a b r Ha Hb Hr Hf) as Hu.
  exists r. split; [done|]. split; [done|].
  unfold Session_Attach in E. destruct (Session_AttachRealms _ _) as [m|]; [|done].
  simpl in E. injection E as Er. split; [by subst r|]. split; [done|]. split; [done|]. split.
  - unfold GetPurgeScore. rewrite Hu. rewrite <-Er. cbn [sess_cookie_received].
    destruct (sess_cookie_received a), (sess_cookie_received b), (HasUser a), (HasUser b); simpl; lia.
  - intros now. rewrite <-Er. cbn [sess_expires].
    destruct (later (sess_expires b) (sess_expires a)) eqn:L.
    + destruct (IsExpired (sess_expires b) now) eqn:Eb; [|by rewrite andb_false_r].
      rewrite (IsExpired_mono _ _ _ (later_asym _ _ L) Eb). done.
    + destruct (IsExpired (sess_expires a) now) eqn:Ea; [|done].
      by rewrite (IsExpired_mono _ _ _ L Ea).
Qed.

(** A realm that only the attached session has is moved "with a new
    parent", but its "translate" value (the opaque string of the translation
    server) and the "SameSite" attribute of its cookie are lost. *)
Theorem Session_Attach_loses_translate a b k o :
  session_wf a -> session_wf b ->
  smap_find k (sess_realms a) = None -> smap_find k (sess_realms b) = Some o ->
  exists r o', Session_Attach a b = Some r /\ smap_find k (sess_realms r) = Some o' /\
    realm_user o' = realm_user o /\ realm_translate o' = None /\
    realm_session_cookie_same_site o' = SAME_SITE_DEFAULT.
Proof.
  intros Ha Hb Na Nb. destruct (Session_Attach_realms a b Ha Hb) as (r & E & _ & Hf).
  exists r, (RealmSession_move o). split; [done|]. split; [|done]. by rewrite Hf, Na, Nb.
Qed.

(** ** The other operations keep sessions well-formed *)

Lemma smap_find_map {A B} (f : A -> B) k (m : smap A) :
  smap_find k (map (fun '(k, v) => (k, f v)) m) = f <$> smap_find k m.
Proof. induction m as [|[k' v] m IH]; simpl; [done|]. by case_decide. Qed.

Lemma Session_new_wf now id salt : session_wf (Session_new now id salt).
Proof. split; [constructor|done]. Qed.

Lemma jar_filter_ok (P : Cookie -> bool) jar : jar_ok jar -> jar_ok (List.filter P jar).
Proof.
  intros [Hc Hn]. induction jar as [|c jar IH]; simpl; [by split|].
  apply Forall_cons in Hc as [Hc Hcs]. rewrite fmap_cons in Hn. apply NoDup_cons in Hn as [Hnc Hn].
  destruct (IH Hcs Hn) as [Hc' Hn']. destruct (P c); [|by split]. split.
  - by constructor.
  - rewrite fmap_cons. apply NoDup_cons. split; [|done]. intros Hin. apply Hnc.
    apply list_elem_of_fmap in Hin as (x & Hx & Hin). apply list_elem_of_fmap. exists x.
    split; [done|]. apply list_elem_of_In. apply list_elem_of_In, filter_In in Hin. tauto.
Qed.

Lemma RealmSession_Expire_wf now r : realm_wf r -> realm_wf (RealmSession_Expire now r).
Proof.
  intros [Hw Hc]. unfold RealmSession_Expire.
  destruct (negb _ && _); split; simpl; try done; by apply jar_filter_ok.
Qed.

Lemma Session_Expire_wf now s : session_wf s -> session_wf (Session_Expire now s).
Proof.
  intros [Hs Hr]. split; simpl.
  - eapply smap_sorted_keys; [|exact Hs]. clear. induction (sess_realms s) as [|[k r] m IH]; simpl; [done|]. by f_equal.
  - intros k r. rewrite smap_find_map. destruct (smap_find k _) as [x|] eqn:E; [|done].
    intros [= <-]. apply RealmSession_Expire_wf. eauto.
Qed.

End Facts.

(** ** Examples *)

Module SessionExamples.

#[local] Instance StringAddress : HttpAddressType := {| HttpAddress := bytes |}.

Definition cookie (name value path : string) : Cookie :=
  mkCookie (Some (str name)) (Some (str value)) (Some (str "a.example")) (Some (str path)) Never.

Definition jar1 : list Cookie := [cookie "x" "1" "/"; cookie "y" "2" "/"].
Definition jar2 : list Cookie := [cookie "y" "3" "/"; cookie "x" "4" "/foo"].

Definition tree1 : smap WidgetSession :=
  [(str "menu", mkWidgetSession [(str "item", mkWidgetSession [] (Some (str "/a")) None)]
                  (Some (str "/b")) (Some (str "q")))].
Definition tree2 : smap WidgetSession :=
  [(str "body", mkWidgetSession [] (Some (str "/c")) None);
   (str "menu", mkWidgetSession [(str "item", mkWidgetSession [] (Some (str "/d")) None)] None None)].

Definition realm1 : RealmSession :=
  mkRealmSession (Some (str "site")) (Some (str "t")) None Never tree1 jar1 1.
Definition realm2 : RealmSession :=
  mkRealmSession None (Some (str "u")) (Some (str "joe")) Never tree2 jar2 2.

Definition session1 : Session :=
  with_realms [(str "r", realm1)] (Session_new Never (mkSessionId 1 2) (mkSessionId 3 4)).
Definition session2 : Session :=
  with_realms [(str "r", realm2); (str "s", realm2)]
    (Session_new AlreadyExpired (mkSessionId 5 6) (mkSessionId 7 8)).

Lemma jar1_ok : jar_ok jar1.
Proof. split; [by repeat constructor|]. apply (bool_decide_unpack _). by vm_compute. Qed.

Lemma jar2_ok : jar_ok jar2.
Proof. split; [by repeat constructor|]. apply (bool_decide_unpack _). by vm_compute. Qed.

Lemma set_wf_cons k w m :
  set_wf m -> set_wf (ws_children w) -> Forall (fun x => bytes_lt k x.1 = true) m ->
  set_wf ((k, w) :: m).
Proof.
  intros [Hs Hc] Hw Hf. constructor; [by constructor|].
  intros k' w' [[= -> ->]|Hin]%elem_of_cons; [done|by eapply Hc].
Qed.

Lemma tree1_wf : set_wf tree1.
Proof. repeat first [apply set_wf_nil | apply set_wf_cons | reflexivity | constructor]. Qed.

Lemma tree2_wf : set_wf tree2.
Proof. repeat first [apply set_wf_nil | apply set_wf_cons | reflexivity | constructor]. Qed.

Lemma realm1_wf : realm_wf realm1.
Proof. split; [apply tree1_wf|apply jar1_ok]. Qed.

Lemma realm2_wf : realm_wf realm2.
Proof. split; [apply tree2_wf|apply jar2_ok]. Qed.

Lemma session1_wf : session_wf session1.
Proof.
  split; [by repeat constructor|]. intros k r H. cbn in H. repeat case_decide; simplify_eq.
  apply realm1_wf.
Qed.

Lemma session2_wf : session_wf session2.
Proof.
  split; [by repeat constructor|]. intros k r H. cbn in H.
  repeat case_decide; simplify_eq; apply realm2_wf.
Qed.

Lemma CookieJar_MoveFrom_spec_witness :
  exists r, CookieJar_MoveFrom jar1 jar2 = Some r /\
    r = jar_without (cookie_key <$> jar2) jar1 ++ jar2 /\ jar_ok r /\
    (forall c, c ∈ jar2 -> c ∈ r) /\
    (forall c, c ∈ jar1 -> c ∈ r \/ exists c', c' ∈ jar2 /\ cookie_key c' = cookie_key c).
Proof. apply (CookieJar_MoveFrom_spec jar1 jar2); [apply jar1_ok|apply jar2_ok]. Defined.

Lemma WidgetSession_AttachSet_spec_witness :
  (set_wf (WidgetSession_AttachSet tree1 tree2) /\
   forall path, ws_uri path (WidgetSession_AttachSet tree1 tree2) =
                merge_uri (ws_uri path tree1) (ws_uri path tree2)) /\
  ws_uri [str "menu"; str "item"] (WidgetSession_AttachSet tree1 tree2) = Some (Some (str "/d"), None).
Proof.
  split; [|vm_compute; reflexivity].
  apply (WidgetSession_AttachSet_spec tree1 tree2); [apply tree1_wf|apply tree2_wf].
Defined.

Lemma Session_Attach_spec_witness :
  exists r, Session_Attach session1 session2 = Some r /\ session_wf r /\ sess_id r = sess_id session1 /\
    (forall k, smap_find k (sess_realms r) =
               merge_realm (smap_find k (sess_realms session1)) (smap_find k (sess_realms session2))) /\
    HasUser r = HasUser session1 || HasUser session2 /\
    GetPurgeScore r <= Z.min (GetPurgeScore session1) (GetPurgeScore session2) /\
    (forall now, IsExpired (sess_expires r) now =
                 IsExpired (sess_expires session1) now && IsExpired (sess_expires session2) now).
Proof. apply (Session_Attach_spec session1 session2); [apply session1_wf|apply session2_wf]. Defined.

Lemma Session_Attach_loses_translate_witness :
  exists r o', Session_Attach session1 session2 = Some r /\
    smap_find (str "s") (sess_realms r) = Some o' /\
    realm_user o' = realm_user realm2 /\ realm_translate o' = None /\
    realm_session_cookie_same_site o' = SAME_SITE_DEFAULT.
Proof.
  apply (Session_Attach_loses_translate session1 session2 (str "s") realm2);
    [apply session1_wf|apply session2_wf|reflexivity|reflexivity].
Defined.

End SessionExamples.
