(* ===== verification/SessionFile.v ===== *)
(** * Sessions: the session file

    Models src/bp/session/File.hxx, Write.cxx, Read.cxx and Save.cxx: how
    sessions are saved to a file and loaded again.

    Writing gives the bytes that are appended to the file, or [None] when
    [SessionSerializerError] is thrown.  Reading consumes the input and ends
    with a value or with an error.  Integers have their little-endian object
    representation. *)

From Stdlib Require Import Sorted.
From S2P Require Import Prelude StdMap Expiry SessionData.

(** ** The format (File.hxx) *)

Definition MAGIC_FILE : Z := 2461362039.
Definition MAGIC_SESSION : Z := 663845835.
Definition MAGIC_REALM_SESSION : Z := 983957474.
Definition MAGIC_REALM_SESSION_OLD : Z := 983957473.
Definition MAGIC_WIDGET_SESSION : Z := 983957472.
Definition MAGIC_COOKIE : Z := 860919820.
Definition MAGIC_END_OF_RECORD : Z := 1588449078.
Definition MAGIC_END_OF_LIST : Z := 1556616445.

Definition UINT16_MAX : Z := 65535.

(** [sizeof(Session)], which depends on the compiler. *)
Class SessionAbi := { sizeof_Session : Z }.

(** ** Writing *)

Definition Writer := option bytes.

(** One output after the other; an exception ends the whole. *)
Definition wseq (a b : Writer) : Writer := x ← a; y ← b; Some (x ++ y).
Notation "a >>> b" := (wseq a b) (at level 60, right associativity) : beng_scope.
#[global] Open Scope beng_scope.

Definition WriteBuffer (src : bytes) : Writer := Some src.
Definition WriteBool (value : bool) : Writer := Some [if value then 1 else 0].
Definition Write8 (value : Z) : Writer := Some (le_bytes 1 value).
Definition Write16 (value : Z) : Writer := Some (le_bytes 2 value).
Definition Write32 (value : Z) : Writer := Some (le_bytes 4 value).
Definition Write64 (value : Z) : Writer := Some (le_bytes 8 value).

(** The overloads for strings and for spans do the same. *)
Definition WriteSpan (s : option bytes) : Writer :=
  match s with
  | None => Write16 UINT16_MAX
  | Some s =>
      if UINT16_MAX <=? Z.of_nat (length s) then None
      else Write16 (Z.of_nat (length s)) >>> WriteBuffer s
  end.

Definition WriteId (id : SessionId) : Writer := Write64 (id_front id) >>> Write64 (id_back id).

Section Write.
Context `{EO : ExpiryOps} `{HA : HttpAddressType} `{AB : SessionAbi}.

Definition WriteExpiry (e : Expiry) : Writer := WriteBuffer (expiry_bytes e).

Definition session_write_magic (magic : Z) : Writer := Write32 magic.

Definition session_write_file_header : Writer := Write32 MAGIC_FILE >>> Write32 sizeof_Session.

Definition session_write_file_tail : Writer := session_write_magic MAGIC_END_OF_LIST.

(** [WriteWidgetSession()]; the inner loop is [WriteWidgetSessions()]. *)
Fixpoint WriteWidgetSession (session : WidgetSession) : Writer :=
  match session with
  | mkWidgetSession children path_info query_string =>
      (fix write_set (widgets : smap WidgetSession) : Writer :=
         match widgets with
         | [] => Write32 MAGIC_END_OF_LIST
         | (id, ws) :: widgets' =>
             Write32 MAGIC_WIDGET_SESSION >>> WriteSpan (Some id) >>>
             WriteWidgetSession ws >>> write_set widgets'
         end) children >>>
      WriteSpan path_info >>> WriteSpan query_string >>> Write32 MAGIC_END_OF_RECORD
  end.

Fixpoint WriteWidgetSessions (widgets : smap WidgetSession) : Writer :=
  match widgets with
  | [] => Write32 MAGIC_END_OF_LIST
  | (id, ws) :: widgets' =>
      Write32 MAGIC_WIDGET_SESSION >>> WriteSpan (Some id) >>>
      WriteWidgetSession ws >>> WriteWidgetSessions widgets'
  end.

Definition WriteCookie (cookie : Cookie) : Writer :=
  WriteSpan (cookie_name cookie) >>> WriteSpan (cookie_value cookie) >>>
  WriteSpan (cookie_domain cookie) >>> WriteSpan (cookie_path cookie) >>>
  WriteExpiry (cookie_expires cookie) >>> Write32 MAGIC_END_OF_RECORD.

Fixpoint WriteCookieJar (jar : CookieJar) : Writer :=
  match jar with
  | [] => Write32 MAGIC_END_OF_LIST
  | cookie :: jar' => Write32 MAGIC_COOKIE >>> WriteCookie cookie >>> WriteCookieJar jar'
  end.

Definition WriteRealmSession (session : RealmSession) : Writer :=
  WriteSpan (realm_site session) >>> WriteSpan (realm_translate session) >>>
  WriteSpan (realm_user session) >>> WriteExpiry (realm_user_expires session) >>>
  WriteWidgetSessions (realm_widgets session) >>> WriteCookieJar (realm_cookies session) >>>
  Write8 (realm_session_cookie_same_site session) >>> Write32 MAGIC_END_OF_RECORD.

Fixpoint WriteRealmSessions (realms : smap RealmSession) : Writer :=
  match realms with
  | [] => Write32 MAGIC_END_OF_LIST
  | (name, realm) :: realms' =>
      Write32 MAGIC_REALM_SESSION >>> WriteSpan (Some name) >>> WriteRealmSession realm >>>
      WriteRealmSessions realms'
  end.

Definition session_write (session : Session) : Writer :=
  WriteId (sess_id session) >>> WriteExpiry (sess_expires session) >>>
  Write32 (sess_counter session) >>> WriteBool (sess_cookie_received session) >>>
  WriteSpan (sess_translate session) >>> WriteSpan (sess_language session) >>>
  WriteRealmSessions (sess_realms session) >>> Write32 MAGIC_END_OF_RECORD.

Definition session_save_callback (session : Session) : Writer :=
  session_write_magic MAGIC_SESSION >>> session_write session.

(** [SessionManager::Visit()] with that callback. *)
Fixpoint session_visit_save (now : Expiry) (sessions : list Session) : Writer :=
  match sessions with
  | [] => Some []
  | session :: sessions' =>
      if negb (IsExpired (sess_expires session) now)
      then session_save_callback session >>> session_visit_save now sessions'
      else session_visit_save now sessions'
  end.

(** Without an exception the file is committed with these contents; with one
    it is left as it was. *)
Definition session_manager_save (now : Expiry) (sessions : list Session) : Writer :=
  session_write_file_header >>> session_visit_save now sessions >>> session_write_file_tail.

End Write.

(** ** Reading *)

Inductive read_error :=
| DeserializerError            (** [SessionDeserializerError] is thrown *)
| EndOfFile                    (** [BufferedReader::ReadFull()] throws *)
| NullString                   (** a null pointer is converted to [std::string_view] *)
| OutOfFuel.                   (** the model's bound on a loop was too small *)

Inductive Result (A : Type) :=
| Ok (a : A) (rest : bytes)
| Err (e : read_error).
Arguments Ok {A}.
Arguments Err {A}.

Definition Reader (A : Type) := bytes -> Result A.

Definition rret {A} (a : A) : Reader A := fun s => Ok a s.
#[export] Instance Reader_bind : MBind Reader := fun A B k m s =>
  match m s with Ok a rest => k a rest | Err e => Err e end.

Definition throw {A} (e : read_error) : Reader A := fun _ => Err e.

Definition ReadBuffer (size : nat) : Reader bytes := fun s =>
  if (length s <? size)%nat then Err EndOfFile else Ok (take size s) (drop size s).

(** [ReadT()] of a [w]-byte unsigned integer. *)
Definition ReadUint (w : nat) : Reader Z := b ← ReadBuffer w; rret (le_value b).

Definition ReadByte : Reader Z := ReadUint 1.
Definition ReadBool : Reader bool := b ← ReadByte; rret (negb (b =? 0)).
Definition Read32 : Reader Z := ReadUint 4.
Definition Read64 : Reader Z := ReadUint 8.

Definition ReadString : Reader AllocatedString :=
  length ← ReadUint 2;
  if length =? UINT16_MAX then rret None
  else data ← ReadBuffer (Z.to_nat length); rret (Some (c_str data)).

Definition ReadArray : Reader AllocatedArray :=
  size ← ReadUint 2;
  if size =? UINT16_MAX then rret None
  else a ← ReadBuffer (Z.to_nat size); rret (Some a).

Definition ReadId : Reader SessionId :=
  a ← Read64; b ← Read64; rret (mkSessionId a b).

Definition Expect32 (expected : Z) : Reader unit :=
  x ← Read32; if negb (x =? expected) then throw DeserializerError else rret tt.

(** [std::string_view{id.c_str()}] *)
Definition to_key (s : AllocatedString) : Reader bytes :=
  match s with None => throw NullString | Some s => rret s end.

(** [while (true)] loops; [inr] leaves the loop. *)
Fixpoint rloop {A} (fuel : nat) (body : A -> Reader (A + A)) (acc : A) : Reader A :=
  match fuel with
  | O => throw OutOfFuel
  | S fuel' =>
      r ← body acc;
      match r with inl acc' => rloop fuel' body acc' | inr acc' => rret acc' end
  end.

(** A loop whose iterations each consume input: its length bounds them. *)
Definition read_loop {A} (body : A -> Reader (A + A)) (acc : A) : Reader A :=
  fun s => rloop (S (length s)) body acc s.

Section Read.
Context `{EO : ExpiryOps} `{HA : HttpAddressType} `{AB : SessionAbi} `{PR : Prng}.

Definition ReadExpiry : Reader Expiry :=
  b ← ReadBuffer sizeof_Expiry; rret (expiry_of_bytes b).

Definition session_read_magic : Reader Z := Read32.

Definition session_read_file_header : Reader unit :=
  _ ← Expect32 MAGIC_FILE; Expect32 sizeof_Session.

Definition DoReadWidgetSession (read_children : Reader (smap WidgetSession))
  : Reader WidgetSession :=
  children ← read_children;
  path_info ← ReadString;
  query_string ← ReadString;
  _ ← Expect32 MAGIC_END_OF_RECORD;
  rret (mkWidgetSession children path_info query_string).

(** The loop and the recursion into the children both consume input. *)
Fixpoint ReadWidgetSessions (fuel : nat) (widgets : smap WidgetSession)
  : Reader (smap WidgetSession) :=
  match fuel with
  | O => throw OutOfFuel
  | S fuel' =>
      magic ← Read32;
      if magic =? MAGIC_END_OF_LIST then rret widgets
      else if negb (magic =? MAGIC_WIDGET_SESSION) then throw DeserializerError
      else
        id ← ReadString;
        ws ← DoReadWidgetSession (ReadWidgetSessions fuel' []);
        key ← to_key id;
        ReadWidgetSessions fuel' (smap_emplace key ws widgets)
  end.

Definition ReadWidgets : Reader (smap WidgetSession) :=
  fun s => ReadWidgetSessions (S (length s)) [] s.

Definition ReadCookie : Reader Cookie :=
  name ← ReadString;
  value ← ReadString;
  domain ← ReadString;
  path ← ReadString;
  expires ← ReadExpiry;
  _ ← Expect32 MAGIC_END_OF_RECORD;
  rret (mkCookie name value domain path expires).

Definition ReadCookieJar : Reader CookieJar :=
  read_loop (fun jar =>
    magic ← Read32;
    if magic =? MAGIC_END_OF_LIST then rret (inr jar)
    else if negb (magic =? MAGIC_COOKIE) then throw DeserializerError
    else cookie ← ReadCookie; rret (inl (CookieJar_Add jar cookie))) [].

Definition ReadRealmSession (magic : Z) : Reader RealmSession :=
  if negb ((magic =? MAGIC_REALM_SESSION) || (magic =? MAGIC_REALM_SESSION_OLD))
  then throw DeserializerError
  else
    site ← ReadString;
    translate ← (if magic =? MAGIC_REALM_SESSION then ReadArray else rret None);
    user ← ReadString;
    user_expires ← ReadExpiry;
    widgets ← ReadWidgets;
    cookies ← ReadCookieJar;
    session_cookie_same_site ← ReadByte;
    _ ← Expect32 MAGIC_END_OF_RECORD;
    rret (mkRealmSession site translate user user_expires widgets cookies session_cookie_same_site).

Definition DoReadSession (session : Session) : Reader Session :=
  expires ← ReadExpiry;
  counter ← Read32;
  cookie_received ← ReadBool;
  translate ← ReadArray;
  language ← ReadString;
  realms ← read_loop (fun realms =>
    magic ← Read32;
    if magic =? MAGIC_END_OF_LIST then rret (inr realms)
    else
      name ← ReadString;
      realm_session ← ReadRealmSession magic;
      key ← to_key name;
      rret (inl (smap_emplace key realm_session realms))) (sess_realms session);
  _ ← Expect32 MAGIC_END_OF_RECORD;
  rret (mkSession (sess_id session) (sess_csrf_salt session) expires counter cookie_received translate
          (sess_recover session) (sess_attach session) language (sess_external_manager session) realms).

Definition session_read (now : Expiry) (prng : prng_state) : Reader (Session * prng_state) :=
  id ← ReadId;
  let '(csrf_salt, prng) := SessionId_Generate prng in
  session ← DoReadSession (Session_new now id csrf_salt);
  rret (session, prng).

(** The random engine after [session_read()] has thrown. *)
Definition prng_after (prng : prng_state) (s : bytes) : prng_state :=
  match ReadId s with Ok _ _ => snd (SessionId_Generate prng) | Err _ => prng end.

(** How [SessionManager::Load()] ends. *)
Inductive load_result :=
| Loaded (result : bool)
| LoadThrown (e : read_error).

(** The loop of [Load()]: the sessions it inserts, in that order; those that
    were inserted before an exception stay. *)
Fixpoint Load_loop (fuel : nat) (now : Expiry) (prng : prng_state) (s : bytes)
  : list Session * prng_state * load_result :=
  match fuel with
  | O => ([], prng, LoadThrown OutOfFuel)
  | S fuel' =>
      match session_read_magic s with
      | Err e => ([], prng, LoadThrown e)
      | Ok magic s =>
          if magic =? MAGIC_END_OF_LIST then ([], prng, Loaded true)
          else if negb (magic =? MAGIC_SESSION) then ([], prng, Loaded false)
          else match session_read now prng s with
               | Err e => ([], prng_after prng s, LoadThrown e)
               | Ok (session, prng) s =>
                   let '(added, prng, result) := Load_loop fuel' now prng s in
                   (if IsExpired (sess_expires session) now then added else session :: added,
                    prng, result)
               end
      end
  end.

Definition Load_sessions (now : Expiry) (prng : prng_state) (s : bytes)
  : list Session * prng_state * load_result :=
  match session_read_file_header s with
  | Err e => ([], prng, LoadThrown e)
  | Ok _ s => Load_loop (S (length s)) now prng s
  end.

End Read.
