(* ===== verification/SessionFileFacts.v ===== *)
(** * Sessions: saving and loading

    The session file: what has been written is read back, reading ends on
    every input, and which errors there are. *)

From Stdlib Require Import Sorted.
From S2P Require Import Prelude StdMap Expiry SessionData SessionFile.

(** ** Writing *)

Lemma wseq_Some a b bs :
  (a >>> b) = Some bs -> exists x y, a = Some x /\ b = Some y /\ bs = x ++ y.
Proof.
  unfold wseq. destruct a as [x|], b as [y|]; simpl; intros [= <-]. by exists x, y.
Qed.

Lemma wseq_assoc a b c : ((a >>> b) >>> c) = (a >>> b >>> c).
Proof.
  unfold wseq. destruct a, b, c; simpl; try done. by rewrite app_assoc.
Qed.

Lemma wseq_is_Some a b : is_Some (a >>> b) <-> is_Some a /\ is_Some b.
Proof.
  unfold wseq. destruct a as [x|], b as [y|]; simpl; split;
    try (by intros [? ?]); try (by intros [[? ?] [? ?]]); intros; try split; by eexists.
Qed.

(** ** Reading what was written *)

(** Reader [r] gets the value [a] from what writer [w] writes, whatever
    follows it. *)
Definition reads {A} (r : Reader A) (w : Writer) (a : A) : Prop :=
  forall bs rest, w = Some bs -> r (bs ++ rest) = Ok a rest.

Lemma reads_bind {A B} (r : Reader A) (k : A -> Reader B) w w' a b :
  reads r w a -> reads (k a) w' b -> reads (x ← r; k x) (w >>> w') b.
Proof.
  intros Hr Hk bs rest H. apply wseq_Some in H as (x & y & Hx & Hy & ->).
  unfold mbind, Reader_bind. rewrite <-app_assoc, (Hr x (y ++ rest) Hx). by apply Hk.
Qed.

Lemma reads_last {A B} (r : Reader A) (f : A -> B) w a :
  reads r w a -> reads (x ← r; rret (f x)) w (f a).
Proof. intros Hr bs rest H. unfold mbind, Reader_bind. by rewrite (Hr bs rest H). Qed.

Lemma ReadBuffer_app a rest : ReadBuffer (length a) (a ++ rest) = Ok a rest.
Proof.
  unfold ReadBuffer. rewrite length_app.
  rewrite (proj2 (Nat.ltb_ge (length a + length rest) (length a))) by lia.
  by rewrite take_app_length, drop_app_length.
Qed.

Lemma reads_buffer a n : n = length a -> reads (ReadBuffer n) (WriteBuffer a) a.
Proof. intros -> bs rest [= <-]. apply ReadBuffer_app. Qed.

Lemma reads_uint w x : 0 <= x < 256 ^ Z.of_nat w -> reads (ReadUint w) (Some (le_bytes w x)) x.
Proof.
  intros Hx bs rest [= <-]. unfold ReadUint, mbind, Reader_bind.
  rewrite <-(le_bytes_length w x) at 1. rewrite ReadBuffer_app. unfold rret.
  by rewrite le_value_bytes.
Qed.

Lemma reads_expect m : 0 <= m < 2 ^ 32 -> reads (Expect32 m) (Write32 m) tt.
Proof.
  intros Hm bs rest H. unfold Expect32, mbind, Reader_bind, Read32.
  rewrite (reads_uint 4 m Hm bs rest H). by rewrite Z.eqb_refl.
Qed.

(** The magic numbers. *)
Lemma reads_magic m : (0 <=? m) && (m <? 2 ^ 32) = true -> reads Read32 (Write32 m) m.
Proof. intros H. apply reads_uint. simpl_bool. change (256 ^ Z.of_nat 4) with (2 ^ 32). lia. Qed.

Lemma reads_bool b : reads ReadBool (WriteBool b) b.
Proof. intros bs rest [= <-]. by destruct b. Qed.

(** The strings that C strings can hold. *)
Definition nul_free (s : bytes) : Prop := 0 ∉ s.
Definition cstring (o : option bytes) : Prop := from_option nul_free True o.

Lemma c_str_nul_free s : nul_free s -> c_str s = s.
Proof.
  unfold nul_free, c_str. induction s as [|b s IH]; simpl; intros H; [done|].
  apply not_elem_of_cons in H as [Hb Hs]. rewrite (proj2 (Z.eqb_neq b 0)) by congruence. simpl.
  destruct (span_while _ s). simpl in *. f_equal. auto.
Qed.

(** The two readers of length-prefixed data. *)
Lemma reads_span f s :
  (forall s', s = Some s' -> f s' = s') ->
  reads (length ← ReadUint 2;
         if length =? UINT16_MAX then rret None
         else data ← ReadBuffer (Z.to_nat length); rret (Some (f data))) (WriteSpan s) s.
Proof.
  destruct s as [s|]; intros Hf.
  - cbn [WriteSpan]. destruct (UINT16_MAX <=? Z.of_nat (length s)) eqn:E; [by intros bs rest|].
    simpl_bool. unfold UINT16_MAX in *. eapply reads_bind; [apply reads_uint; lia|].
    rewrite (proj2 (Z.eqb_neq _ _)) by lia. rewrite Nat2Z.id.
    intros bs rest H. unfold mbind, Reader_bind.
    rewrite (reads_buffer s _ eq_refl bs rest H). unfold rret. by rewrite Hf.
  - intros bs rest [= <-]. done.
Qed.

Lemma reads_string s : cstring s -> reads ReadString (WriteSpan s) s.
Proof. intros Hs. apply (reads_span c_str). intros s' ->. by apply c_str_nul_free. Qed.

Lemma reads_array s : reads ReadArray (WriteSpan s) s.
Proof. by apply (reads_span (fun s => s)). Qed.

Definition uint64 (x : Z) : Prop := 0 <= x < 2 ^ 64.

Lemma reads_id id : uint64 (id_front id) -> uint64 (id_back id) -> reads ReadId (WriteId id) id.
Proof.
  intros Hf Hb. unfold ReadId, WriteId, Read64. eapply reads_bind; [by apply reads_uint|].
  destruct id as [a b]. apply (reads_last _ (fun b => mkSessionId a b)). by apply reads_uint.
Qed.

Lemma reads_key s : reads (to_key (Some s)) (Some []) s.
Proof. by intros bs rest [= <-]. Qed.

(** A step that reads nothing. *)
Lemma reads_pure {A B} (m : Reader A) (k : A -> Reader B) w a b :
  reads m (Some []) a -> reads (k a) w b -> reads (x ← m; k x) w b.
Proof.
  intros Hm Hk bs rest H. unfold mbind, Reader_bind. pose proof (Hm [] (bs ++ rest) eq_refl) as E.
  simpl in E. rewrite E. by apply Hk.
Qed.

(** One iteration of a loop. *)
Lemma rloop_inl {A} f (body : A -> Reader (A + A)) acc acc' s rest :
  body acc s = Ok (inl acc') rest -> rloop (S f) body acc s = rloop f body acc' rest.
Proof. intros H. simpl. unfold mbind, Reader_bind. by rewrite H. Qed.

Lemma rloop_inr {A} f (body : A -> Reader (A + A)) acc acc' s rest :
  body acc s = Ok (inr acc') rest -> rloop (S f) body acc s = Ok acc' rest.
Proof. intros H. simpl. unfold mbind, Reader_bind. by rewrite H. Qed.

Lemma Write32_length x bs : Write32 x = Some bs -> length bs = 4%nat.
Proof. by intros [= <-]. Qed.

(** A list that is written element by element, each with the writer [we], up
    to an end marker is read back by a loop whose body reads an element. *)
Section Loop.
Context {A E : Type} (body : A -> Reader (A + A)) (we : E -> Writer) (wend : Writer)
  (step : A -> E -> A) (ok : A -> list E -> Prop).

Fixpoint write_all (l : list E) : Writer :=
  match l with [] => wend | e :: l' => we e >>> write_all l' end.

Lemma reads_loop acc l :
  (forall acc, reads (body acc) wend (inr acc)) ->
  (forall acc e l, ok acc (e :: l) -> reads (body acc) (we e) (inl (step acc e)) /\ ok (step acc e) l) ->
  (forall e bs, we e = Some bs -> (0 < length bs)%nat) ->
  ok acc l -> reads (read_loop body acc) (write_all l) (foldl step acc l).
Proof.
  intros Hend Hstep Hpos Hok bs rest Hw. unfold read_loop.
  assert (Hf : (length bs < S (length (bs ++ rest)))%nat) by (rewrite length_app; lia).
  revert Hf. generalize (S (length (bs ++ rest))). intros f Hf.
  revert acc f bs Hok Hw Hf. induction l as [|e l IH]; intros acc f bs Hok Hw Hf; simpl in *.
  - destruct f as [|f]; [lia|]. apply rloop_inr. by apply Hend.
  - apply wseq_Some in Hw as (x & y & Hx & Hy & ->). rewrite <-app_assoc.
    destruct (Hstep acc e l Hok) as [Hr Hok']. pose proof (Hpos e x Hx).
    destruct f as [|f]; [lia|]. rewrite (rloop_inl _ _ _ _ _ _ (Hr x (y ++ rest) Hx)).
    apply IH; [done|done|]. rewrite length_app in Hf. lia.
Qed.
End Loop.

(** ** Widget sessions *)

Section RoundTrip.
Context `{EO : ExpiryOps} `{EL : !ExpiryLaws} `{HA : HttpAddressType} `{AB : SessionAbi} `{PR : Prng}.

(** The ids are C strings at every level, and sorted. *)
Inductive widgets_ok (m : smap WidgetSession) : Prop :=
| widgets_ok_intro :
    smap_sorted m ->
    (forall k w, (k, w) ∈ m -> nul_free k) ->
    (forall k w, (k, w) ∈ m -> cstring (ws_path_info w)) ->
    (forall k w, (k, w) ∈ m -> cstring (ws_query_string w)) ->
    (forall k w, (k, w) ∈ m -> widgets_ok (ws_children w)) -> widgets_ok m.

Lemma WriteWidgetSession_eq w :
  WriteWidgetSession w =
  WriteWidgetSessions (ws_children w) >>> WriteSpan (ws_path_info w) >>>
  WriteSpan (ws_query_string w) >>> Write32 MAGIC_END_OF_RECORD.
Proof.
  by destruct w as [c p q].
Qed.

(** Like [reads], for at most [n] bytes. *)
Definition reads_upto {A} (n : nat) (r : Reader A) (w : Writer) (a : A) : Prop :=
  forall bs rest, w = Some bs -> (length bs <= n)%nat -> r (bs ++ rest) = Ok a rest.

Lemma reads_upto_bind {A B} n (r : Reader A) (k : A -> Reader B) w w' a b :
  reads_upto n r w a -> reads_upto n (k a) w' b -> reads_upto n (x ← r; k x) (w >>> w') b.
Proof.
  intros Hr Hk bs rest H Hl. apply wseq_Some in H as (x & y & Hx & Hy & ->).
  rewrite length_app in Hl. unfold mbind, Reader_bind.
  rewrite <-app_assoc, (Hr x (y ++ rest) Hx) by lia. apply Hk; [done|lia].
Qed.

Lemma reads_reads_upto {A} n (r : Reader A) w a : reads r w a -> reads_upto n r w a.
Proof. intros H bs rest Hw _. by apply H. Qed.

(** A reader of children that reads back the written children. *)
Lemma reads_widget n rc w :
  reads_upto n rc (WriteWidgetSessions (ws_children w)) (ws_children w) ->
  cstring (ws_path_info w) -> cstring (ws_query_string w) ->
  reads_upto n (DoReadWidgetSession rc) (WriteWidgetSession w) w.
Proof.
  intros Hc Hp Hq. rewrite WriteWidgetSession_eq. unfold DoReadWidgetSession.
  eapply reads_upto_bind; [exact Hc|]. apply reads_reads_upto.
  eapply reads_bind; [by apply reads_string|].
  eapply reads_bind; [by apply reads_string|]. destruct w as [c p q].
  eapply (reads_last _ (fun _ => mkWidgetSession c p q)). by apply reads_expect.
Qed.

(** One element of the loop. *)
Lemma ReadWidgetSessions_step f acc k w x y rest :
  nul_free k ->
  reads_upto (f - 1) (DoReadWidgetSession (ReadWidgetSessions f [])) (WriteWidgetSession w) w ->
  (Write32 MAGIC_WIDGET_SESSION >>> WriteSpan (Some k) >>> WriteWidgetSession w) = Some x ->
  (length x <= f)%nat ->
  ReadWidgetSessions (S f) acc (x ++ y ++ rest) =
  ReadWidgetSessions f (smap_emplace k w acc) (y ++ rest).
Proof.
  intros Hk Hw Hx Hl. cbn [ReadWidgetSessions].
  apply wseq_Some in Hx as (x1 & x' & H1 & Hx & ->). apply wseq_Some in Hx as (x2 & x3 & H2 & H3 & ->).
  rewrite !length_app in Hl. rewrite <-!app_assoc.
  pose proof (Write32_length _ _ H1).
  unfold mbind, Reader_bind.
  rewrite (reads_magic MAGIC_WIDGET_SESSION eq_refl x1 _ H1).
  change (MAGIC_WIDGET_SESSION =? MAGIC_END_OF_LIST) with false. rewrite Z.eqb_refl. cbn [negb].
  rewrite (reads_string (Some k) Hk x2 _ H2). rewrite (Hw x3 _ H3) by lia. done.
Qed.

Lemma reads_widgets_upto m f :
  widgets_ok m -> reads_upto f (ReadWidgetSessions (S f) []) (WriteWidgetSessions m) m.
Proof.
  intros Hm. revert f. induction Hm as [m Hs Hk Hp Hq _ IH]. intros f bs rest Hw Hl.
  assert (H : forall l acc f bs, acc ++ l = m -> WriteWidgetSessions l = Some bs ->
    (length bs <= f)%nat -> ReadWidgetSessions (S f) acc (bs ++ rest) = Ok m rest);
    [|by apply (H m [] f bs)].
  clear f bs Hw Hl. induction l as [|[k w] l IHl]; intros acc f bs Hm Hw Hl.
  - rewrite app_nil_r in Hm. subst. cbn [ReadWidgetSessions]. unfold mbind, Reader_bind.
    by rewrite (reads_magic MAGIC_END_OF_LIST eq_refl bs rest Hw).
  - assert (Hin : (k, w) ∈ m) by (subst; apply elem_of_app; right; left).
    cbn [WriteWidgetSessions] in Hw.
    apply wseq_Some in Hw as (x1 & y1 & H1 & Hw & ->). apply wseq_Some in Hw as (x2 & y2 & H2 & Hw & ->).
    apply wseq_Some in Hw as (x3 & y & H3 & Hy & ->).
    rewrite !length_app in Hl. pose proof (Write32_length _ _ H1) as L1.
    destruct f as [|f]; [lia|].
    replace ((x1 ++ x2 ++ x3 ++ y) ++ rest) with ((x1 ++ x2 ++ x3) ++ y ++ rest) by (by rewrite <-!app_assoc).
    rewrite (ReadWidgetSessions_step _ acc k w).
    + apply IHl; [|done|lia]. rewrite smap_emplace_last by (subst m; by eapply smap_sorted_app).
      by rewrite <-app_assoc.
    + by eapply Hk.
    + replace (S f - 1)%nat with f by lia.
      apply reads_widget; [by eapply IH|by eapply Hp|by eapply Hq].
    + by rewrite H1, H2, H3.
    + rewrite !length_app. lia.
Qed.

Lemma reads_widgets m : widgets_ok m -> reads ReadWidgets (WriteWidgetSessions m) m.
Proof.
  intros Hm bs rest Hw. unfold ReadWidgets. apply (reads_widgets_upto m _ Hm bs rest Hw).
  rewrite length_app. lia.
Qed.

(** ** Cookies *)

Record cookie_ok (c : Cookie) : Prop := {
  cookie_ok_name : cstring (cookie_name c);
  cookie_ok_value : cstring (cookie_value c);
  cookie_ok_domain : cstring (cookie_domain c);
  cookie_ok_path : cstring (cookie_path c) }.

Lemma reads_expiry e : reads ReadExpiry (WriteExpiry e) e.
Proof.
  intros bs rest H. unfold ReadExpiry, mbind, Reader_bind.
  rewrite (reads_buffer (expiry_bytes e) sizeof_Expiry (eq_sym (expiry_bytes_length e)) bs rest H).
  unfold rret. by rewrite expiry_of_to_bytes.
Qed.

Lemma reads_cookie c : cookie_ok c -> reads ReadCookie (WriteCookie c) c.
Proof.
  intros [Hn Hv Hd Hp]. unfold ReadCookie, WriteCookie. destruct c as [n v d p e].
  do 4 (eapply reads_bind; [by apply reads_string|]). eapply reads_bind; [apply reads_expiry|].
  eapply (reads_last _ (fun _ => mkCookie n v d p e)). by apply reads_expect.
Qed.

Lemma WriteCookieJar_all jar :
  WriteCookieJar jar =
  write_all (fun c => Write32 MAGIC_COOKIE >>> WriteCookie c) (Write32 MAGIC_END_OF_LIST) jar.
Proof.
  induction jar as [|c jar IH]; cbn [WriteCookieJar write_all]; [done|]. rewrite IH.
  by rewrite <-wseq_assoc.
Qed.

(** Each cookie is added to the front of the jar. *)
Lemma reads_jar jar :
  Forall cookie_ok jar -> reads ReadCookieJar (WriteCookieJar jar) (CookieJar_copy jar).
Proof.
  intros Hj. rewrite WriteCookieJar_all. unfold ReadCookieJar, CookieJar_copy.
  apply (reads_loop _ _ _ CookieJar_Add (fun _ l => Forall cookie_ok l)); [| | |done].
  - intros acc bs rest H. unfold mbind, Reader_bind.
    by rewrite (reads_magic MAGIC_END_OF_LIST eq_refl bs rest H).
  - intros acc c l Hl. apply Forall_cons in Hl as [Hc Hl]. split; [|done].
    eapply reads_bind; [by apply reads_magic|].
    change (MAGIC_COOKIE =? MAGIC_END_OF_LIST) with false. rewrite Z.eqb_refl. cbn [negb].
    apply (reads_last _ (fun c => inl (CookieJar_Add acc c))). by apply reads_cookie.
  - intros c bs (x & y & Hx & _ & ->)%wseq_Some. apply Write32_length in Hx.
    rewrite length_app. lia.
Qed.

(** ** Realms *)

Record realm_file_ok (r : RealmSession) : Prop := {
  rf_site : cstring (realm_site r);
  rf_user : cstring (realm_user r);
  rf_widgets : widgets_ok (realm_widgets r);
  rf_cookies : Forall cookie_ok (realm_cookies r);
  rf_same_site : 0 <= realm_session_cookie_same_site r < 256 }.

(** A realm as it is after loading: the cookies are in the opposite order. *)
Definition reload_realm (r : RealmSession) : RealmSession :=
  mkRealmSession (realm_site r) (realm_translate r) (realm_user r) (realm_user_expires r)
    (realm_widgets r) (CookieJar_copy (realm_cookies r)) (realm_session_cookie_same_site r).

Lemma reads_realm r :
  realm_file_ok r -> reads (ReadRealmSession MAGIC_REALM_SESSION) (WriteRealmSession r) (reload_realm r).
Proof.
  intros [Hs Hu Hw Hc Hm]. unfold ReadRealmSession, WriteRealmSession. rewrite Z.eqb_refl. cbn [orb negb].
  eapply reads_bind; [by apply reads_string|]. eapply reads_bind; [apply reads_array|].
  eapply reads_bind; [by apply reads_string|]. eapply reads_bind; [apply reads_expiry|].
  eapply reads_bind; [by apply reads_widgets|]. eapply reads_bind; [by apply reads_jar|].
  eapply reads_bind; [by apply reads_uint|]. destruct r as [s t u e w c m].
  eapply (reads_last _ (fun _ => reload_realm (mkRealmSession s t u e w c m))). by apply reads_expect.
Qed.

Lemma WriteRealmSessions_all realms :
  WriteRealmSessions realms =
  write_all (fun '(name, realm) =>
    Write32 MAGIC_REALM_SESSION >>> WriteSpan (Some name) >>> WriteRealmSession realm)
    (Write32 MAGIC_END_OF_LIST) realms.
Proof.
  induction realms as [|[k r] realms IH]; cbn [WriteRealmSessions write_all]; [done|]. rewrite IH.
  by rewrite <-!wseq_assoc.
Qed.

Definition reload_realms (m : smap RealmSession) : smap RealmSession :=
  map (fun '(k, r) => (k, reload_realm r)) m.

(** The body of the loop over the realms. *)
Definition realms_body (realms : smap RealmSession) : Reader (smap RealmSession + smap RealmSession) :=
  magic ← Read32;
  if magic =? MAGIC_END_OF_LIST then rret (inr realms)
  else
    name ← ReadString;
    realm_session ← ReadRealmSession magic;
    key ← to_key name;
    rret (inl (smap_emplace key realm_session realms)).

Definition realm_entry_ok (e : bytes * RealmSession) : Prop := nul_free e.1 /\ realm_file_ok e.2.

Definition emplace_reloaded (m : smap RealmSession) (e : bytes * RealmSession) : smap RealmSession :=
  smap_emplace e.1 (reload_realm e.2) m.

Lemma foldl_emplace_reloaded acc l :
  smap_sorted (acc ++ reload_realms l) -> foldl emplace_reloaded acc l = acc ++ reload_realms l.
Proof.
  revert acc. induction l as [|[k r] l IH]; intros acc Hs; simpl in *; [by rewrite app_nil_r|].
  unfold emplace_reloaded at 2. simpl. rewrite smap_emplace_last by (by eapply smap_sorted_app).
  rewrite IH; rewrite <-app_assoc; done.
Qed.

Lemma reads_realms m :
  smap_sorted m -> Forall realm_entry_ok m ->
  reads (read_loop realms_body []) (WriteRealmSessions m) (reload_realms m).
Proof.
  intros Hs Hm. rewrite WriteRealmSessions_all.
  change (reload_realms m) with ([] ++ reload_realms m). rewrite <-foldl_emplace_reloaded.
  2:{ simpl. eapply smap_sorted_keys; [|exact Hs]. clear. induction m as [|[k r] m IH]; simpl; [done|].
      by f_equal. }
  apply (reads_loop _ _ _ emplace_reloaded (fun _ l => Forall realm_entry_ok l)); [| | |done].
  - intros acc bs rest H. unfold realms_body, mbind, Reader_bind.
    by rewrite (reads_magic MAGIC_END_OF_LIST eq_refl bs rest H).
  - intros acc [k r] l Hl. apply Forall_cons in Hl as [[Hk Hr] Hl]. simpl in Hk, Hr. split; [|done].
    unfold realms_body. eapply reads_bind; [by apply reads_magic|].
    change (MAGIC_REALM_SESSION =? MAGIC_END_OF_LIST) with false.
    eapply reads_bind; [by apply reads_string|].
    intros bs rest H. unfold mbind, Reader_bind. by rewrite (reads_realm r Hr bs rest H).
  - intros [k r] bs (x & y & Hx & _ & ->)%wseq_Some. apply Write32_length in Hx.
    rewrite length_app. lia.
Qed.

(** ** Sessions *)

Record session_file_ok (s : Session) : Prop := {
  sf_front : uint64 (id_front (sess_id s));
  sf_back : uint64 (id_back (sess_id s));
  sf_counter : 0 <= sess_counter s < 2 ^ 32;
  sf_language : cstring (sess_language s);
  sf_sorted : smap_sorted (sess_realms s);
  sf_realms : Forall realm_entry_ok (sess_realms s) }.

(** A session as it is after loading, with a new salt. *)
Definition reload (csrf_salt : SessionId) (s : Session) : Session :=
  mkSession (sess_id s) csrf_salt (sess_expires s) (sess_counter s) (sess_cookie_received s)
    (sess_translate s) None None (sess_language s) None (reload_realms (sess_realms s)).

Lemma reads_session now prng s :
  session_file_ok s ->
  reads (session_read now prng) (session_write s)
    (reload (fst (SessionId_Generate prng)) s, snd (SessionId_Generate prng)).
Proof.
  intros [Hf Hb Hc Hl Hs Hr]. unfold session_read, session_write.
  eapply reads_bind; [by apply reads_id|]. destruct (SessionId_Generate prng) as [salt prng'].
  eapply (reads_last _ (fun s => (s, prng'))). unfold DoReadSession.
  eapply reads_bind; [apply reads_expiry|]. eapply reads_bind; [by apply reads_uint|].
  eapply reads_bind; [apply reads_bool|]. eapply reads_bind; [apply reads_array|].
  eapply reads_bind; [by apply reads_string|]. fold realms_body.
  eapply reads_bind; [by apply reads_realms|].
  eapply (reads_last _ (fun _ => reload salt s)). by apply reads_expect.
Qed.

(** A session that was written with [session_write()] is read back by
    [session_read()], whatever follows it in the file: everything but the
    members that are not part of the file ([recover], [attach] and the
    external manager are not set, the CSRF salt is new) and the order of the
    cookies, which is reversed. *)
Theorem session_roundtrip now prng s bs rest :
  session_file_ok s -> session_write s = Some bs ->
  session_read now prng (bs ++ rest) =
  Ok (reload (fst (SessionId_Generate prng)) s, snd (SessionId_Generate prng)) rest.
Proof. intros Hs Hw. by apply reads_session. Qed.

(** ** The whole file *)

(** The sessions that are saved at the time [now]. *)
Definition saved (now : Expiry) (sessions : list Session) : list Session :=
  List.filter (fun s => negb (IsExpired (sess_expires s) now)) sessions.

(** What is inserted at the time [now] when a file with these sessions is
    loaded. *)
Fixpoint loaded (now : Expiry) (prng : prng_state) (l : list Session) : list Session * prng_state :=
  match l with
  | [] => ([], prng)
  | s :: l' =>
      let '(salt, prng) := SessionId_Generate prng in
      let '(added, prng) := loaded now prng l' in
      (if IsExpired (sess_expires s) now then added else reload salt s :: added, prng)
  end.

Lemma session_visit_save_eq now sessions :
  session_visit_save now sessions =
  session_visit_save now (saved now sessions).
Proof.
  induction sessions as [|s l IH]; simpl; [done|].
  destruct (negb (IsExpired (sess_expires s) now)) eqn:E; simpl; [|done]. by rewrite E, IH.
Qed.

Lemma Load_loop_saved t now l prng f bs rest :
  Forall session_file_ok l -> Forall (fun s => IsExpired (sess_expires s) t = false) l ->
  (session_visit_save t l >>> session_write_file_tail) = Some bs -> (length bs <= f)%nat ->
  Load_loop (S f) now prng (bs ++ rest) = (loaded now prng l, Loaded true).
Proof.
  intros Hok Ht. revert prng f bs. induction l as [|s l IH]; intros prng f bs Hw Hl.
  - cbn [Load_loop]. unfold session_read_magic.
    change (session_visit_save t []) with (Some [] : Writer) in Hw.
    apply wseq_Some in Hw as (x & y & [= <-] & Hy & ->).
    pose proof (reads_magic MAGIC_END_OF_LIST eq_refl y rest Hy) as E. simpl app in E |- *.
    by rewrite E.
  - apply Forall_cons in Hok as [Hs Hok]. apply Forall_cons in Ht as [Hts Ht].
    cbn [session_visit_save] in Hw. rewrite Hts in Hw. cbn [negb] in Hw.
    unfold session_save_callback, session_write_magic in Hw. rewrite !wseq_assoc in Hw.
    apply wseq_Some in Hw as (x1 & y1 & H1 & Hw & ->). apply wseq_Some in Hw as (x2 & y2 & H2 & Hw & ->).
    rewrite !length_app in Hl. pose proof (Write32_length _ _ H1).
    destruct f as [|f']; [lia|]. remember (S f') as f eqn:Ef. rewrite <-!app_assoc.
    cbn [Load_loop]. unfold session_read_magic.
    rewrite (reads_magic MAGIC_SESSION eq_refl x1 _ H1).
    change (MAGIC_SESSION =? MAGIC_END_OF_LIST) with false. rewrite Z.eqb_refl. cbn [negb].
    rewrite (reads_session now prng s Hs x2 _ H2). cbn [loaded].
    destruct (SessionId_Generate prng) as [salt prng'] eqn:G. cbn [fst snd].
    rewrite Ef, (IH Hok Ht prng' f' y2 Hw ltac:(lia)).
    by destruct (loaded now prng' l).
Qed.

(** C13: A file that [session_save()] has committed is loaded completely by
    [SessionManager::Load()]: it inserts the sessions that were not expired
    when the file was saved and are not expired now, in the order in which
    they were saved, each one as [session_read()] restores it. *)
Theorem save_load_roundtrip t now prng sessions bs rest :
  0 <= sizeof_Session < 2 ^ 32 -> Forall session_file_ok sessions ->
  session_manager_save t sessions = Some bs ->
  Load_sessions now prng (bs ++ rest) = (loaded now prng (saved t sessions), Loaded true).
Proof.
  intros Hsz Hok Hw. unfold session_manager_save, session_write_file_header in Hw.
  rewrite !wseq_assoc, session_visit_save_eq in Hw.
  apply wseq_Some in Hw as (x1 & y1 & H1 & Hw & ->). apply wseq_Some in Hw as (x2 & y2 & H2 & Hw & ->).
  unfold Load_sessions, session_read_file_header, mbind, Reader_bind. rewrite <-!app_assoc.
  rewrite (reads_expect MAGIC_FILE ltac:(unfold MAGIC_FILE; lia) x1 _ H1), (reads_expect sizeof_Session Hsz x2 _ H2).
  eapply Load_loop_saved; [| |exact Hw|rewrite length_app; lia].
  - unfold saved. rewrite List.Forall_forall in Hok |- *. intros s Hin. apply filter_In in Hin. apply Hok. tauto.
  - apply List.Forall_forall. intros s Hin. apply filter_In in Hin as [_ Hn]. by apply negb_true_iff.
Qed.

(** ** Reading ends *)

(** On the input [s], reader [r] ends by itself, and if it returns, it has
    consumed at least [n] bytes. *)
Definition ends_at {A} (n : nat) (r : Reader A) (s : bytes) : Prop :=
  match r s with
  | Ok _ rest => (length rest + n <= length s)%nat
  | Err e => e <> OutOfFuel
  end.

Definition ends {A} (n : nat) (r : Reader A) : Prop := forall s, ends_at n r s.

Lemma ends_at_bind {A B} n m (r : Reader A) (k : A -> Reader B) s :
  ends_at n r s ->
  (forall a rest, (length rest + n <= length s)%nat -> ends_at m (k a) rest) ->
  ends_at (n + m) (x ← r; k x) s.
Proof.
  unfold ends_at, mbind, Reader_bind. intros Hr Hk. destruct (r s) as [a rest|e]; [|done].
  specialize (Hk a rest Hr). destruct (k a rest); [lia|done].
Qed.

Lemma ends_bind {A B} n m (r : Reader A) (k : A -> Reader B) :
  ends n r -> (forall a, ends m (k a)) -> ends (n + m) (x ← r; k x).
Proof. intros Hr Hk s. apply ends_at_bind; [apply Hr|]. intros a rest _. apply Hk. Qed.

Lemma ends_at_weaken {A} n m (r : Reader A) s : (m <= n)%nat -> ends_at n r s -> ends_at m r s.
Proof. unfold ends_at. intros Hle Hr. destruct (r s); [lia|done]. Qed.

Lemma ends_weaken {A} n m (r : Reader A) : (m <= n)%nat -> ends n r -> ends m r.
Proof. intros Hle Hr s. by eapply ends_at_weaken. Qed.

Lemma ends_bind0 {A B} (r : Reader A) (k : A -> Reader B) :
  ends 0 r -> (forall a, ends 0 (k a)) -> ends 0 (x ← r; k x).
Proof. apply (ends_bind 0 0). Qed.

Lemma ends_ret {A} (a : A) : ends 0 (rret a).
Proof. intros s. unfold ends_at, rret. lia. Qed.

Lemma ends_throw {A} n e : e <> OutOfFuel -> ends n (throw e : Reader A).
Proof. by intros H s. Qed.

Lemma ends_buffer n : ends n (ReadBuffer n).
Proof.
  intros s. unfold ends_at, ReadBuffer. destruct (length s <? n)%nat eqn:E; [done|].
  apply Nat.ltb_ge in E. rewrite length_drop. lia.
Qed.

Lemma ends_uint w : ends w (ReadUint w).
Proof.
  eapply (ends_weaken (w + 0)); [lia|]. apply ends_bind; [apply ends_buffer|]. intros b. apply ends_ret.
Qed.

Lemma ends_32 : ends 4 Read32.
Proof. apply ends_uint. Qed.

Lemma ends_0 {A} n (r : Reader A) : ends n r -> ends 0 r.
Proof. apply ends_weaken. lia. Qed.

Lemma ends_key s : ends 0 (to_key s).
Proof. destruct s; [apply ends_ret|by apply ends_throw]. Qed.

(** A reader that is a sequence of the above. *)
Ltac ends_auto :=
  repeat first
    [ apply ends_ret | (apply ends_throw; done) | apply ends_key
    | apply (ends_0 _ _ (ends_uint _)) | apply (ends_0 _ _ (ends_buffer _))
    | (apply ends_bind0; [|intros ?])
    | match goal with
      | |- ends _ (if ?b then _ else _) => destruct b
      | |- ends _ ReadString => unfold ReadString
      | |- ends _ ReadArray => unfold ReadArray
      | |- ends _ ReadExpiry => unfold ReadExpiry
      | |- ends _ (Expect32 _) => unfold Expect32
      | |- ends _ Read32 => unfold Read32
      | |- ends _ Read64 => unfold Read64
      | |- ends _ ReadBool => unfold ReadBool
      | |- ends _ ReadByte => unfold ReadByte
      end ].

Lemma ends_string : ends 0 ReadString.
Proof. ends_auto. Qed.

Lemma rloop_ends {A} (body : A -> Reader (A + A)) f acc s :
  (forall acc, ends 1 (body acc)) -> (length s < f)%nat -> ends_at 0 (rloop f body acc) s.
Proof.
  intros Hb. revert acc s. induction f as [|f IH]; intros acc s Hf; [lia|]. cbn [rloop].
  apply (ends_at_weaken (1 + 0)); [lia|]. apply ends_at_bind; [apply Hb|]. intros [acc'|acc'] rest Hl.
  - apply IH. lia.
  - apply ends_ret.
Qed.

Lemma read_loop_ends {A} (body : A -> Reader (A + A)) acc :
  (forall acc, ends 1 (body acc)) -> ends 0 (read_loop body acc).
Proof. intros Hb s. apply (rloop_ends body (S (length s))); [done|lia]. Qed.

(** The body of a loop reads a magic number first. *)
Lemma ends_magic {A} (k : Z -> Reader A) : (forall m, ends 0 (k m)) -> ends 1 (x ← Read32; k x).
Proof.
  intros Hk. apply (ends_weaken (4 + 0)); [lia|]. apply ends_bind; [apply ends_32|done].
Qed.

Lemma ReadWidgetSessions_ends f acc s :
  (length s < f)%nat -> ends_at 0 (ReadWidgetSessions f acc) s.
Proof.
  revert acc s. induction f as [|f IH]; intros acc s Hf; [lia|]. cbn [ReadWidgetSessions].
  apply (ends_at_weaken (4 + 0)); [lia|]. apply ends_at_bind; [apply ends_32|]. intros magic s1 L1.
  destruct (magic =? MAGIC_END_OF_LIST); [apply ends_ret|].
  destruct (negb _); [by apply ends_throw|].
  apply (ends_at_bind 0 0); [apply ends_string|]. intros id s2 L2.
  apply (ends_at_bind 0 0).
  - apply (ends_at_bind 0 0); [apply IH; lia|]. intros c s3 L3.
    assert (E : forall A (r : Reader A), ends 0 r -> ends_at 0 r s3) by (intros A r Hr; apply Hr).
    apply E. ends_auto.
  - intros ws s4 L4. apply (ends_at_bind 0 0); [apply ends_key|]. intros key s5 L5. apply IH. lia.
Qed.

Lemma ends_widgets : ends 0 ReadWidgets.
Proof. intros s. apply (ReadWidgetSessions_ends (S (length s))). lia. Qed.

Lemma ends_jar : ends 0 ReadCookieJar.
Proof.
  apply read_loop_ends. intros jar. apply ends_magic. intros m. unfold ReadCookie. ends_auto.
Qed.

Lemma ends_realm magic : ends 0 (ReadRealmSession magic).
Proof.
  unfold ReadRealmSession.
  repeat first [apply ends_widgets | apply ends_jar | progress ends_auto].
Qed.

Lemma ends_session now prng : ends 0 (session_read now prng).
Proof.
  unfold session_read, ReadId. destruct (SessionId_Generate prng) as [salt prng'].
  apply ends_bind0; [ends_auto|]. intros id. apply ends_bind0; [|intros s; apply ends_ret].
  unfold DoReadSession.
  do 5 (apply ends_bind0; [ends_auto|]; intros ?).
  apply ends_bind0; [|intros ?; ends_auto].
  apply read_loop_ends. intros realms. apply ends_magic. intros m.
  destruct (m =? MAGIC_END_OF_LIST); [apply ends_ret|].
  apply ends_bind0; [ends_auto|]. intros name. apply ends_bind0; [apply ends_realm|]. intros r.
  ends_auto.
Qed.

Lemma Load_loop_ends f now prng s :
  (length s < f)%nat -> snd (Load_loop f now prng s) <> LoadThrown OutOfFuel.
Proof.
  revert prng s. induction f as [|f IH]; intros prng s Hf; [lia|]. cbn [Load_loop].
  unfold session_read_magic.
  pose proof (ends_32 s) as H1. unfold ends_at in H1. destruct (Read32 s) as [magic s1|e]; simpl; [|congruence].
  destruct (magic =? MAGIC_END_OF_LIST); [done|]. destruct (negb _); [done|].
  pose proof (ends_session now prng s1) as H2. unfold ends_at in H2.
  destruct (session_read now prng s1) as [[session prng'] s2|e]; simpl; [|congruence].
  specialize (IH prng' s2 ltac:(lia)). destruct (Load_loop f now prng' s2) as [[added prng''] result].
  done.
Qed.

(** Loading a session file ends on every input, corrupt ones included:
    the loops and the recursion of the reader never exceed the length of the
    input, so that [Load()] returns or throws. *)
Theorem Load_ends now prng s : snd (Load_sessions now prng s) <> LoadThrown OutOfFuel.
Proof.
  unfold Load_sessions.
  assert (H : ends 0 session_read_file_header) by (unfold session_read_file_header; ends_auto).
  specialize (H s). unfold ends_at in H. destruct (session_read_file_header s) as [u s'|e].
  - apply Load_loop_ends. lia.
  - simpl. congruence.
Qed.

(** ** Errors *)

(** All strings of a widget session, a realm and a session that are written
    to the file. *)
Fixpoint widget_strings (w : WidgetSession) : list (option bytes) :=
  match w with
  | mkWidgetSession children path_info query_string =>
      (fix strings (m : smap WidgetSession) : list (option bytes) :=
         match m with [] => [] | (k, w) :: m' => Some k :: widget_strings w ++ strings m' end) children
      ++ [path_info; query_string]
  end.

Fixpoint widgets_strings (m : smap WidgetSession) : list (option bytes) :=
  match m with [] => [] | (k, w) :: m' => Some k :: widget_strings w ++ widgets_strings m' end.

Definition cookie_strings (c : Cookie) : list (option bytes) :=
  [cookie_name c; cookie_value c; cookie_domain c; cookie_path c].

Definition realm_strings (r : RealmSession) : list (option bytes) :=
  [realm_site r; realm_translate r; realm_user r] ++ widgets_strings (realm_widgets r) ++
  (realm_cookies r ≫= cookie_strings).

Definition session_strings (s : Session) : list (option bytes) :=
  [sess_translate s; sess_language s] ++
  (sess_realms s ≫= fun '(name, r) => Some name :: realm_strings r).

Definition fits (o : option bytes) : Prop :=
  from_option (fun s => Z.of_nat (length s) < UINT16_MAX) True o.

Lemma WriteSpan_Some o : is_Some (WriteSpan o) <-> fits o.
Proof.
  destruct o as [s|]; simpl; [|split; [done|by eexists]].
  destruct (UINT16_MAX <=? Z.of_nat (length s)) eqn:E; simpl_bool.
  - split; [by intros [? ?]|lia].
  - split; [done|by eexists].
Qed.

Lemma is_Some_some {A} (x : A) : is_Some (Some x) <-> True.
Proof. split; [done|by eexists]. Qed.

Lemma widget_strings_eq w :
  widget_strings w = widgets_strings (ws_children w) ++ [ws_path_info w; ws_query_string w].
Proof. by destruct w. Qed.

(** Simplifies a statement that a sequence of writes succeeds. *)
Ltac writes :=
  unfold WriteId, WriteExpiry, Write8, Write16, Write32, Write64, WriteBool, WriteBuffer;
  repeat rewrite ?wseq_is_Some, ?WriteSpan_Some, ?is_Some_some, ?Forall_cons, ?Forall_app, ?Forall_nil.

Lemma WriteWidgets_Some_of m :
  (forall k w, (k, w) ∈ m -> is_Some (WriteWidgetSession w) <-> Forall fits (widget_strings w)) ->
  is_Some (WriteWidgetSessions m) <-> Forall fits (widgets_strings m).
Proof.
  induction m as [|[k w] m IH]; intros Hm; cbn [WriteWidgetSessions widgets_strings]; writes; [tauto|].
  rewrite IH by (intros k' w' Hin; apply (Hm k' w'); by right).
  rewrite (Hm k w) by left. tauto.
Qed.

Lemma WriteWidget_Some w : is_Some (WriteWidgetSession w) <-> Forall fits (widget_strings w).
Proof.
  induction w as [c p q IH] using WidgetSession_tree_ind.
  rewrite WriteWidgetSession_eq, widget_strings_eq. cbn [ws_children ws_path_info ws_query_string].
  writes. rewrite WriteWidgets_Some_of by exact IH. tauto.
Qed.

Lemma WriteWidgets_Some m : is_Some (WriteWidgetSessions m) <-> Forall fits (widgets_strings m).
Proof. apply WriteWidgets_Some_of. intros k w _. apply WriteWidget_Some. Qed.

Lemma WriteCookieJar_Some jar :
  is_Some (WriteCookieJar jar) <-> Forall fits (jar ≫= cookie_strings).
Proof.
  induction jar as [|c jar IH]; cbn [WriteCookieJar]; [unfold Write32; writes; done|].
  rewrite bind_cons. unfold WriteCookie, cookie_strings at 1. writes. rewrite IH. tauto.
Qed.

Lemma WriteRealm_Some r : is_Some (WriteRealmSession r) <-> Forall fits (realm_strings r).
Proof.
  unfold WriteRealmSession, realm_strings. writes. rewrite WriteWidgets_Some, WriteCookieJar_Some. tauto.
Qed.

Lemma WriteRealms_Some m :
  is_Some (WriteRealmSessions m) <->
  Forall fits (m ≫= fun '(name, r) => Some name :: realm_strings r).
Proof.
  induction m as [|[k r] m IH]; cbn [WriteRealmSessions]; [writes; done|].
  rewrite bind_cons. writes. rewrite IH, WriteRealm_Some. tauto.
Qed.

Lemma session_write_Some s : is_Some (session_write s) <-> Forall fits (session_strings s).
Proof. unfold session_write, session_strings. writes. rewrite WriteRealms_Some. tauto. Qed.

(** C27: Saving is all or nothing: [session_manager_save()] throws exactly if
    one of the sessions to be saved has a string of 65535 bytes or more, and
    then no session is saved. *)
Theorem session_manager_save_Some now sessions :
  is_Some (session_manager_save now sessions) <->
  Forall (fun s => Forall fits (session_strings s)) (saved now sessions).
Proof.
  unfold session_manager_save, session_write_file_header, session_write_file_tail, session_write_magic.
  writes.
  assert (H : is_Some (session_visit_save now sessions) <->
              Forall (fun s => Forall fits (session_strings s)) (saved now sessions)); [|tauto].
  induction sessions as [|s l IH]; simpl; [writes; done|].
  destruct (negb _); simpl; [|done]. unfold session_save_callback, session_write_magic. writes.
  rewrite session_write_Some, IH. tauto.
Qed.

End RoundTrip.

(** ** Examples *)

Module FileExamples.

#[local] Instance StringAddress : HttpAddressType := {| HttpAddress := bytes |}.
#[local] Instance Abi : SessionAbi := {| sizeof_Session := 416 |}.
#[local] Instance Lcg : Prng :=
  {| prng_state := Z;
     prng_next p := (p, (p * 6364136223846793005 + 1442695040888963407) mod 2 ^ 64) |}.

Definition cookie (name value path : string) : Cookie :=
  mkCookie (Some (str name)) (Some (str value)) (Some (str "a.example")) (Some (str path)) Never.

Definition realm : RealmSession :=
  mkRealmSession (Some (str "site")) (Some [0; 1; 2]) (Some (str "joe")) Never
    [(str "body", mkWidgetSession [] None None);
     (str "menu", mkWidgetSession [(str "item", mkWidgetSession [] (Some (str "/a")) None)]
                    (Some (str "/b")) (Some (str "q")))]
    [cookie "x" "1" "/"; cookie "y" "2" "/"] 1.

Definition session : Session :=
  mkSession (mkSessionId 1 2) (mkSessionId 3 4) Never 42 true None (Some (str "recover")) None
    (Some (str "de")) None [([], realm); (str "r", RealmSession_new)].

Definition session_expired : Session :=
  Session_new AlreadyExpired (mkSessionId 5 6) (mkSessionId 7 8).

#[local] Instance cstring_dec o : Decision (cstring o).
Proof. destruct o; simpl; unfold nul_free; apply _. Defined.

Lemma widgets_ok_nil : widgets_ok [].
Proof. constructor; [constructor|..]; intros k w H; by apply elem_of_nil in H. Qed.

Lemma widgets_ok_cons k w m :
  widgets_ok m -> widgets_ok (ws_children w) -> nul_free k -> cstring (ws_path_info w) ->
  cstring (ws_query_string w) -> Forall (fun x => bytes_lt k x.1 = true) m -> widgets_ok ((k, w) :: m).
Proof.
  intros [Hs H1 H2 H3 H4] Hc Hk Hp Hq Hf. constructor; [by constructor|..];
    intros k' w' [[= -> ->]|Hin]%elem_of_cons; eauto.
Qed.

Ltac compute_dec := apply (bool_decide_unpack _); vm_compute; exact I.

Lemma realm_ok : realm_file_ok realm.
Proof.
  constructor; [compute_dec|compute_dec| | |cbn; lia].
  - repeat first [apply widgets_ok_nil | apply widgets_ok_cons | reflexivity | constructor | compute_dec].
  - repeat (apply Forall_cons; split; [constructor; compute_dec|]). constructor.
Qed.

Lemma session_ok : session_file_ok session.
Proof.
  constructor; [unfold uint64; cbn; lia|unfold uint64; cbn; lia|cbn; lia|compute_dec|by repeat constructor|].
  apply Forall_cons. split; [split; [compute_dec|apply realm_ok]|].
  apply Forall_cons. split; [split; [compute_dec|]|constructor].
  constructor; [exact I|exact I|apply widgets_ok_nil|by apply Forall_nil|cbn; unfold SAME_SITE_DEFAULT; lia].
Qed.

Lemma session_expired_ok : session_file_ok session_expired.
Proof.
  constructor; [unfold uint64; cbn; lia|unfold uint64; cbn; lia|cbn; lia|compute_dec|by repeat constructor|].
  constructor.
Qed.

Definition seed : prng_state := 1.

Definition t1 : Expiry := tp_of_Z 1000.
Definition t2 : Expiry := tp_of_Z 2000.

Definition written : bytes := Eval vm_compute in default [] (session_write session).

Definition file : bytes :=
  Eval vm_compute in default [] (session_manager_save t1 [session_expired; session]).

Lemma session_roundtrip_witness :
  session_read AlreadyExpired seed (written ++ [1; 2; 3]) =
  Ok (reload (fst (SessionId_Generate seed)) session, snd (SessionId_Generate seed)) [1; 2; 3].
Proof. apply (session_roundtrip AlreadyExpired seed session written [1; 2; 3]); [apply session_ok|reflexivity]. Defined.

Lemma save_load_roundtrip_witness :
  Load_sessions t2 seed (file ++ []) =
  (loaded t2 seed (saved t1 [session_expired; session]), Loaded true).
Proof.
  apply (save_load_roundtrip t1 t2 seed [session_expired; session] file []).
  - vm_compute. intuition congruence.
  - apply Forall_cons. split; [apply session_expired_ok|]. apply Forall_cons.
    split; [apply session_ok|constructor].
  - reflexivity.
Defined.

(** A file with a realm whose name is "null" (the length 0xffff). *)
Definition corrupt : bytes :=
  Eval vm_compute in
  default [] (session_write_file_header >>> session_write_magic MAGIC_SESSION >>>
    WriteId (mkSessionId 1 2) >>> WriteExpiry Never >>> Write32 1 >>> WriteBool true >>>
    WriteSpan None >>> WriteSpan None >>>
    Write32 MAGIC_REALM_SESSION >>> WriteSpan None >>> WriteRealmSession RealmSession_new).

End FileExamples.

(** A corrupt file can have a null string as the name of a realm (or the
    id of a widget).  The reader does not reject it like other corruptions,
    but converts the null pointer to a [std::string_view]. *)
Theorem Load_null_name now :
  snd (@Load_sessions _ FileExamples.StringAddress FileExamples.Abi FileExamples.Lcg now
         FileExamples.seed FileExamples.corrupt) = LoadThrown NullString.
Proof. vm_compute. reflexivity. Qed.

