(* ===== verification/SessionManager.v ===== *)
(** * Sessions: the session manager

    Models src/bp/session/Manager.hxx, Manager.cxx, Lease.hxx, Lease.cxx and
    [SessionManager::Load()] of Save.cxx.

    The manager owns the sessions; leases and the second index
    [sessions_by_attach] refer to them.  Each session object has an address
    here, so that a reference is an address; [None] is an access to an object
    that does not exist (any more), or a failed assertion.  [sessions] lists
    the objects in the order in which the hash set iterates over them. *)

From S2P Require Import Prelude StdMap Expiry SessionData SessionFile.

Definition MAX_SESSIONS : Z := 65536.

Definition ptr := nat.

(** A lease for a realm session is the address of the session and the name of
    the realm. *)
Abbreviation RealmLease := (ptr * bytes)%type.

Section Manager.
Context `{EO : ExpiryOps} `{HA : HttpAddressType} `{PR : Prng} `{HS : HashSetOrder}.

Record SessionManager := mkSessionManager {
  cluster_size : Z;
  cluster_node : Z;
  idle_timeout : Z;
  prng : prng_state;
  sessions : list (ptr * Session);
  sessions_by_attach : list ptr;
  (** is [cleanup_timer] pending? *)
  cleanup_timer : bool;
  (** the address of the next object *)
  next_ptr : ptr }.

Implicit Types m : SessionManager.

Definition SessionManager_new (idle_timeout cluster_size cluster_node : Z) (prng : prng_state)
  : SessionManager :=
  mkSessionManager cluster_size cluster_node idle_timeout prng [] [] false O.

(** ** Access to the fields *)

Definition with_sessions l a m : SessionManager :=
  mkSessionManager (cluster_size m) (cluster_node m) (idle_timeout m) (prng m) l a
    (cleanup_timer m) (next_ptr m).
Definition with_prng p m : SessionManager :=
  mkSessionManager (cluster_size m) (cluster_node m) (idle_timeout m) p (sessions m)
    (sessions_by_attach m) (cleanup_timer m) (next_ptr m).
Definition with_timer t m : SessionManager :=
  mkSessionManager (cluster_size m) (cluster_node m) (idle_timeout m) (prng m) (sessions m)
    (sessions_by_attach m) t (next_ptr m).

Fixpoint plookup (p : ptr) (l : list (ptr * Session)) : option Session :=
  match l with
  | [] => None
  | (q, s) :: l' => if decide (p = q) then Some s else plookup p l'
  end.

(** Dereferencing a session pointer. *)
Definition deref (m : SessionManager) (p : ptr) : option Session := plookup p (sessions m).

Definition pset (p : ptr) (s : Session) (l : list (ptr * Session)) : list (ptr * Session) :=
  map (fun '(q, t) => if decide (p = q) then (q, s) else (q, t)) l.

(** Assigning to the session object at [p]. *)
Definition assign (p : ptr) (s : Session) m : SessionManager :=
  with_sessions (pset p s (sessions m)) (sessions_by_attach m) m.

(** Disposing of objects also unlinks them from [sessions_by_attach], whose
    hook is of the mode AUTO_UNLINK. *)
Definition dispose (gone : ptr -> bool) m : SessionManager :=
  with_sessions (List.filter (fun '(p, _) => negb (gone p)) (sessions m))
    (List.filter (fun p => negb (gone p)) (sessions_by_attach m)) m.

(** ** Operations *)

Definition EnableEvents m : SessionManager := with_timer true m.
Definition DisableEvents m : SessionManager := with_timer false m.

Definition Count m : Z := Z.of_nat (length (sessions m)).

Definition EraseAndDispose (p : ptr) m : option SessionManager :=
  if is_null (deref m p) then None else Some (dispose (fun q => bool_decide (p = q)) m).

(** [seed] is the new state of the engine that [SeedPrng()] sets, or [None]
    if it throws; the timer has just fired. *)
Definition Cleanup (now : Expiry) (seed : option prng_state) m : SessionManager :=
  let m := with_timer false m in
  let m := dispose (fun p => match deref m p with
                             | Some s => IsExpired (sess_expires s) now
                             | None => false
                             end) m in
  let m := match sessions m with [] => m | _ => with_timer true m end in
  match seed with Some p => with_prng p m | None => m end.

Definition AdjustNewSessionId m (id : SessionId) : option SessionId :=
  if 0 <? cluster_size m then SetClusterNode id (cluster_size m) (cluster_node m) else Some id.

(** The address of the new object is the result. *)
Definition Insert (s : Session) m : ptr * SessionManager :=
  let p := next_ptr m in
  (p, mkSessionManager (cluster_size m) (cluster_node m) (idle_timeout m) (prng m)
        (hs_insert (p, s) (sessions m)) (sessions_by_attach m)
        (if negb (cleanup_timer m) then true else cleanup_timer m) (S p)).

(** One call of the lambda in [Purge()]: [purge_sessions] and
    [highest_score]. *)
Definition purge_visit (acc : list ptr * Z) (e : ptr * Session) : list ptr * Z :=
  let '(purge_sessions, highest_score) := acc in
  let '(p, session) := e in
  let score := GetPurgeScore session in
  let '(purge_sessions, highest_score) :=
    if highest_score <? score then ([], score) else (purge_sessions, highest_score) in
  if (score =? highest_score) && negb (256 <=? Z.of_nat (length purge_sessions))
  then (purge_sessions ++ [p], highest_score)
  else (purge_sessions, highest_score).

Fixpoint erase_all (l : list ptr) m : option SessionManager :=
  match l with
  | [] => Some m
  | p :: l' => m ← EraseAndDispose p m; erase_all l' m
  end.

(** The recursive call is repeated at most as often as there are sessions. *)
Fixpoint Purge_rec (fuel : nat) m : option (bool * SessionManager) :=
  match fuel with
  | O => None
  | S fuel' =>
      let '(purge_sessions, _) := foldl purge_visit ([], 0) (sessions m) in
      match purge_sessions with
      | [] => Some (false, m)
      | _ =>
          m ← erase_all purge_sessions m;
          let again := (Z.of_nat (length purge_sessions) <? 16) && (MAX_SESSIONS - 256 <? Count m) in
          if again then '(_, m) ← Purge_rec fuel' m; Some (true, m)
          else Some (true, m)
      end
  end.

Definition Purge m : option (bool * SessionManager) := Purge_rec (S (length (sessions m))) m.

Definition GenerateSessionId m : option (SessionId * SessionManager) :=
  let '(id, p) := SessionId_Generate (prng m) in
  let m := with_prng p m in
  id ← AdjustNewSessionId m id;
  Some (id, m).

Definition CreateSession (now : Expiry) m : option (ptr * SessionManager) :=
  m ← (if MAX_SESSIONS <=? Count m then '(_, m) ← Purge m; Some m else Some m);
  let '(csrf_salt, p) := SessionId_Generate (prng m) in
  let m := with_prng p m in
  '(id, m) ← GenerateSessionId m;
  Some (Insert (Session_new now id csrf_salt) m).

(** [sessions.find()] *)
Definition find_id (id : SessionId) m : option (ptr * Session) :=
  List.find (fun '(_, s) => bool_decide (sess_id s = id)) (sessions m).

(** The session that was found, whose expiry and counter are updated. *)
Definition Find (now : Expiry) (id : SessionId) m : option ptr * SessionManager :=
  if negb (SessionId_IsDefined id) then (None, m)
  else match find_id id m with
       | None => (None, m)
       | Some (p, s) =>
           (Some p, assign p (with_touched (Touched now (idle_timeout m)) (wrap 32 (sess_counter s + 1)) s) m)
       end.

(** [sessions_by_attach.find()] and [insert_check()] *)
Definition find_attach (attach : bytes) m : option ptr :=
  List.find (fun p => match deref m p with
                      | Some s => bool_decide (default [] (sess_attach s) = attach)
                      | None => false
                      end) (sessions_by_attach m).

(** Constructing a lease from a session lease creates the realm. *)
Definition RealmSessionLease_new (p : ptr) (realm : bytes) m : option (RealmLease * SessionManager) :=
  s ← deref m p;
  Some ((p, realm), assign p (snd (Session_GetRealm realm s)) m).

(** [RealmSessionLease(SessionManager &, SessionId, std::string_view)] *)
Definition RealmSessionLease_find (now : Expiry) (id : SessionId) (realm : bytes) m
  : option (option RealmLease * SessionManager) :=
  let '(p, m) := Find now id m in
  match p with
  | None => Some (None, m)
  | Some p => '(l, m) ← RealmSessionLease_new p realm m; Some (Some l, m)
  end.

(** The "attach" value of the leased session is cleared if it has another
    one. *)
Definition Attach_release (lease : option RealmLease) m : option SessionManager :=
  match lease with
  | None => Some m
  | Some (p, _) =>
      s ← deref m p;
      if is_null (sess_attach s) then Some m
      else if negb (bool_decide (p ∈ sessions_by_attach m)) then None
      else Some (assign p (with_attach None s)
                   (with_sessions (sessions m)
                      (List.filter (fun q => negb (bool_decide (p = q))) (sessions_by_attach m)) m))
  end.

(** Sets the "attach" value of the session at [p], which is not in
    [sessions_by_attach], and commits the insertion. *)
Definition Attach_commit (attach : bytes) (p : ptr) m : option SessionManager :=
  s ← deref m p;
  Some (assign p (with_attach (Some attach) s)
          (with_sessions (sessions m) (hs_insert p (sessions_by_attach m)) m)).

Definition Attach (now : Expiry) (lease : option RealmLease) (realm attach : bytes) m
  : option (RealmLease * SessionManager) :=
  if bool_decide (attach = []) then None
  else
    already ← (match lease with
               | None => Some false
               | Some (p, _) => s ← deref m p; Some (Session_IsAttach s attach)
               end);
    match already, lease with
    | true, Some l => Some (l, m)
    | _, _ =>
        m ← Attach_release lease m;
        match find_attach attach m, lease with
        | None, Some (p, r) => m ← Attach_commit attach p m; Some ((p, r), m)
        | None, None =>
            '(p, m) ← CreateSession now m;
            m ← Attach_commit attach p m;
            RealmSessionLease_new p realm m
        | Some existing, Some (src, _) =>
            e ← deref m existing;
            s ← deref m src;
            e ← Session_Attach e s;
            m ← EraseAndDispose src (assign existing e m);
            RealmSessionLease_new existing realm m
        | Some existing, None => RealmSessionLease_new existing realm m
        end
    end.

Definition EraseAndDispose_id (id : SessionId) m : option SessionManager :=
  match find_id id m with None => Some m | Some (p, _) => EraseAndDispose p m end.

Definition DiscardRealmSession (id : SessionId) (realm_name : bytes) m : option SessionManager :=
  match find_id id m with
  | None => Some m
  | Some (p, s) =>
      let '(found, s) := Session_DiscardRealm realm_name s in
      if negb found then Some m
      else
        let m := assign p s m in
        match sess_realms s with [] => EraseAndDispose p m | _ => Some m end
  end.

Definition DiscardAttachSession (attach : bytes) m : option SessionManager :=
  match find_attach attach m with None => Some m | Some p => EraseAndDispose p m end.

(** [Visit()] with a callback that is given each session. *)
Definition Visit (now : Expiry) m : list Session :=
  List.filter (fun s => negb (IsExpired (sess_expires s) now)) (snd <$> sessions m).

Definition Load `{AB : SessionAbi} (now : Expiry) (s : bytes) m : load_result * SessionManager :=
  let '(added, p, result) := Load_sessions now (prng m) s in
  (result, foldl (fun m s => snd (Insert s m)) (with_prng p m) added).

End Manager.
