(* ===== verification/SessionManagerFacts.v ===== *)
(** * Sessions: the manager is correct

    The invariant of the session manager, what its operations do, and that no
    sequence of them fails an assertion or uses a session that was deleted. *)

From S2P Require Import Prelude StdMap Expiry SessionData SessionFacts SessionFile SessionManager.

Section Facts.
Context `{EO : ExpiryOps} `{HA : HttpAddressType} `{PR : Prng} `{HS : HashSetOrder}.
(** Are the events of the manager enabled, i.e. was [DisableEvents()] not called, or [EnableEvents()] called after it? *)
Context (events : bool).
Implicit Types m : SessionManager.

(** ** The store *)

Definition ptrs (l : list (ptr * Session)) : list ptr := fst <$> l.

Lemma plookup_elem p s l : plookup p l = Some s -> (p, s) ∈ l.
Proof.
  induction l as [|[q t] l IH]; simpl; [done|]. case_decide; subst.
  - intros [= ->]. left.
  - intros ?. right. auto.
Qed.

Lemma elem_plookup p s l : NoDup (ptrs l) -> (p, s) ∈ l -> plookup p l = Some s.
Proof.
  unfold ptrs. induction l as [|[q t] l IH]; rewrite ?fmap_cons, ?NoDup_cons; simpl; intros Hn Hin.
  - by apply elem_of_nil in Hin.
  - destruct Hn as [Hq Hn]. apply elem_of_cons in Hin as [[= -> ->]|Hin]; [by rewrite decide_True|].
    rewrite decide_False; [auto|]. intros ->. apply Hq. apply list_elem_of_fmap. by exists (q, s).
Qed.

Lemma plookup_live p l : p ∈ ptrs l <-> is_Some (plookup p l).
Proof.
  unfold ptrs. induction l as [|[q t] l IH]; simpl.
  - rewrite elem_of_nil. split; [done|by intros [? ?]].
  - rewrite elem_of_cons. case_decide; subst; [split; [by eexists|by left]|].
    rewrite <-IH. split; [by intros [?|?]|by right].
Qed.

Lemma plookup_perm p l k : NoDup (ptrs l) -> l ≡ₚ k -> plookup p l = plookup p k.
Proof.
  intros Hn E. assert (Hk : NoDup (ptrs k)) by (unfold ptrs in *; by rewrite <-E).
  apply option_eq. intros s. split; intros H; apply plookup_elem in H; apply elem_plookup; try done;
    [by rewrite <-E|by rewrite E].
Qed.

Lemma ptrs_pset p s l : ptrs (pset p s l) = ptrs l.
Proof.
  unfold ptrs. induction l as [|[q t] l IH]; simpl; [done|]. case_decide; simpl; f_equal; exact IH.
Qed.

Lemma plookup_pset p s q l :
  plookup q (pset p s l) = if decide (q = p) then (fun _ => s) <$> plookup p l else plookup q l.
Proof.
  induction l as [|[r t] l IH]; simpl; [by case_decide|].
  destruct (decide (p = r)) as [->|Hp]; simpl; rewrite IH; repeat case_decide; congruence.
Qed.

Lemma plookup_filter (gone : ptr -> bool) p l :
  plookup p (List.filter (fun '(p, _) => negb (gone p)) l) = if gone p then None else plookup p l.
Proof.
  induction l as [|[q s] l IH]; simpl; [by destruct (gone p)|].
  destruct (gone q) eqn:E; simpl; rewrite IH.
  - destruct (decide (p = q)) as [->|]; [by rewrite E|done].
  - destruct (decide (p = q)) as [->|]; [by rewrite E|done].
Qed.

Lemma ptrs_filter (gone : ptr -> bool) l :
  ptrs (List.filter (fun '(p, _) => negb (gone p)) l) = List.filter (fun p => negb (gone p)) (ptrs l).
Proof.
  unfold ptrs. induction l as [|[q s] l IH]; simpl; [done|].
  destruct (gone q); simpl; [exact IH|f_equal; exact IH].
Qed.

Lemma NoDup_bfilter {A} (P : A -> bool) (l : list A) : NoDup l -> NoDup (List.filter P l).
Proof.
  induction 1 as [|x l Hx Hl IH]; simpl; [constructor|]. destruct (P x); [|done].
  constructor; [|done]. rewrite elem_of_bfilter. tauto.
Qed.

Lemma bfilter_none {A} (P : A -> bool) l : (forall x, x ∈ l -> P x = false) -> List.filter P l = [].
Proof.
  induction l as [|x l IH]; intros H; simpl; [done|]. rewrite H by left.
  apply IH. intros y Hy. apply H. by right.
Qed.

(** ** The invariant *)

Record MInv (m : SessionManager) : Prop := {
  mi_nodup : NoDup (ptrs (sessions m));
  mi_fresh : forall p, p ∈ ptrs (sessions m) -> (p < next_ptr m)%nat;
  (** [sessions_by_attach] contains exactly the sessions with an "attach"
      value, and those values are different *)
  mi_index_nodup : NoDup (sessions_by_attach m);
  mi_index : forall p, p ∈ sessions_by_attach m <->
               exists s, deref m p = Some s /\ sess_attach s <> None;
  mi_nonempty : forall p s, deref m p = Some s -> sess_attach s <> Some [];
  mi_unique : forall p q s t a, deref m p = Some s -> deref m q = Some t ->
                sess_attach s = Some a -> sess_attach t = Some a -> p = q;
  mi_wf : forall p s, deref m p = Some s -> session_wf s;
  mi_cluster : 0 < cluster_size m -> 0 <= cluster_node m < cluster_size m /\ cluster_size m < 2 ^ 32;
  (** a timer is pending that will delete expired sessions *)
  mi_timer : events = true -> sessions m <> [] -> cleanup_timer m = true }.

Lemma deref_dispose gone m p : deref (dispose gone m) p = if gone p then None else deref m p.
Proof. apply plookup_filter. Qed.

Lemma deref_assign p s m q :
  deref (assign p s m) q = if decide (q = p) then (fun _ => s) <$> deref m p else deref m q.
Proof. apply plookup_pset. Qed.

Lemma MInv_dispose gone m : MInv m -> MInv (dispose gone m).
Proof.
  intros [H1 H2 H3 H4 H5 H6 H7 H8 H9].
  split; cbn [dispose with_sessions sessions sessions_by_attach next_ptr cluster_size cluster_node cleanup_timer].
  - rewrite ptrs_filter. by apply NoDup_bfilter.
  - intros p. rewrite ptrs_filter, elem_of_bfilter. intros [? _]. auto.
  - by apply NoDup_bfilter.
  - intros p. rewrite elem_of_bfilter, H4, deref_dispose. destruct (gone p); simpl; naive_solver.
  - intros p s. rewrite deref_dispose. destruct (gone p); naive_solver.
  - intros p q s t a. rewrite !deref_dispose. destruct (gone p), (gone q); naive_solver.
  - intros p s. rewrite deref_dispose. destruct (gone p); naive_solver.
  - done.
  - intros He Hne. apply H9; [done|]. intros E. by rewrite E in Hne.
Qed.

Lemma MInv_assign p s s0 m :
  MInv m -> deref m p = Some s0 -> sess_attach s = sess_attach s0 -> session_wf s ->
  MInv (assign p s m).
Proof.
  intros [H1 H2 H3 H4 H5 H6 H7 H8 H9] Hp Ha Hs.
  assert (D : forall q, deref (assign p s m) q = if decide (q = p) then Some s else deref m q).
  { intros q. rewrite deref_assign, Hp. done. }
  split; cbn [assign with_sessions sessions sessions_by_attach next_ptr cluster_size cluster_node cleanup_timer];
    rewrite ?ptrs_pset; [exact H1|exact H2|exact H3| | | | |exact H8|].
  - intros q. rewrite H4, D. case_decide; subst; [|done]. rewrite Hp. split; intros (t & [= <-] & Ht).
    + exists s. by rewrite Ha.
    + exists s0. by rewrite <-Ha.
  - intros q t. rewrite D. case_decide; subst; [|eauto]. intros [= <-]. rewrite Ha. eauto.
  - intros q r t u a. rewrite !D. repeat case_decide; subst; intros E1 E2; simplify_eq; rewrite ?Ha; eauto.
  - intros q t. rewrite D. case_decide; subst; [|eauto]. by intros [= <-].
  - intros He Hne. apply H9; [done|]. intros E. by rewrite E in Hne.
Qed.

Lemma MInv_prng p m : MInv m -> MInv (with_prng p m).
Proof. by intros [? ? ? ? ? ? ? ? ?]; split. Qed.

Lemma MInv_timer t m : MInv m -> (sessions m <> [] -> t = true) -> MInv (with_timer t m).
Proof. intros [? ? ? ? ? ? ? ? ?] Ht. by split. Qed.

Lemma deref_Insert s m q :
  MInv m ->
  deref (snd (Insert s m)) q = if decide (q = next_ptr m) then Some s else deref m q.
Proof.
  intros HI. unfold deref, Insert. cbn.
  rewrite (plookup_perm q _ ((next_ptr m, s) :: sessions m)); [done| |apply hs_insert_perm].
  unfold ptrs. rewrite hs_insert_perm. rewrite fmap_cons. apply NoDup_cons. split; [|apply HI].
  intros Hin. apply (mi_fresh m HI) in Hin. simpl in Hin. lia.
Qed.

Lemma MInv_Insert s m : MInv m -> sess_attach s = None -> session_wf s -> MInv (snd (Insert s m)).
Proof.
  intros HI Ha Hs. pose proof (deref_Insert s m) as D.
  assert (Hf : deref m (next_ptr m) = None).
  { destruct (deref m (next_ptr m)) eqn:E; [|done].
    assert (next_ptr m < next_ptr m)%nat; [|lia]. apply (mi_fresh m HI), plookup_live. by eexists. }
  assert (E : ptrs (sessions (snd (Insert s m))) ≡ₚ next_ptr m :: ptrs (sessions m)).
  { unfold ptrs. cbn. by rewrite hs_insert_perm. }
  pose proof HI as [H1 H2 H3 H4 H5 H6 H7 H8 H9].
  split; [| |exact H3| | | | |exact H8|].
  - rewrite E. apply NoDup_cons. split; [|done]. intros Hin%H2. lia.
  - intros p. rewrite E, elem_of_cons. cbn. intros [->|Hin%H2]; lia.
  - intros p. rewrite D by done. cbn. rewrite H4. case_decide; subst; [|done]. rewrite Hf.
    naive_solver.
  - intros p t. rewrite D by done. case_decide; [|eauto]. intros [= <-]. by rewrite Ha.
  - intros p q t u a. rewrite !D by done. repeat case_decide; intros; simplify_eq; try congruence. eauto.
  - intros p t. rewrite D by done. case_decide; [|eauto]. by intros [= <-].
  - intros _ _. cbn. by destruct (cleanup_timer m).
Qed.

(** ** Purging *)

Definition score (e : ptr * Session) : Z := GetPurgeScore (snd e).

Definition max_score (l : list (ptr * Session)) : Z := foldr (fun e h => Z.max (score e) h) 0 l.

Lemma score_pos e : 0 < score e.
Proof. unfold score, GetPurgeScore. repeat case_match; lia. Qed.

Lemma max_score_le e l : e ∈ l -> score e <= max_score l.
Proof. induction 1 as [e l|x e l H IH]; simpl; lia. Qed.

Lemma max_score_app l k : max_score (l ++ k) = Z.max (max_score l) (max_score k).
Proof.
  induction l as [|x l IH]; simpl; [|lia]. assert (0 <= max_score k); [|lia].
  clear. induction k as [|x l IH]; simpl; [done|]. pose proof (score_pos x). lia.
Qed.

Lemma max_score_in l : l <> [] -> exists e, e ∈ l /\ score e = max_score l.
Proof.
  induction l as [|x l IH]; [done|]. intros _. simpl. pose proof (score_pos x).
  destruct l as [|y l]; [exists x; simpl; split; [left|lia]|].
  destruct IH as (e & He & Es); [done|].
  destruct (decide (max_score (y :: l) <= score x)).
  - exists x. split; [left|lia].
  - exists e. split; [by right|lia].
Qed.

(** The sessions with the highest score. *)
Definition worst (l : list (ptr * Session)) : list (ptr * Session) :=
  List.filter (fun e => score e =? max_score l) l.

Lemma purge_visit_step v h p s :
  purge_visit (v, h) (p, s) =
  let h' := Z.max h (score (p, s)) in
  let v' := if h <? score (p, s) then [] else v in
  (if (score (p, s) =? h') && (length v' <? 256)%nat then v' ++ [p] else v', h').
Proof.
  unfold purge_visit, score. cbn [snd]. set (x := GetPurgeScore s).
  assert (E : forall k : list ptr, negb (256 <=? Z.of_nat (length k)) = (length k <? 256)%nat).
  { intros k. apply eq_true_iff_eq. rewrite negb_true_iff, Z.leb_gt, Nat.ltb_lt. lia. }
  destruct (h <? x) eqn:Hx; simpl_bool; cbn zeta.
  - rewrite (Z.max_r h x), E by lia. by destruct (_ && _).
  - rewrite (Z.max_l h x), E by lia. by destruct (_ && _).
Qed.

Lemma take_snoc {A} n (l : list A) x :
  take n (l ++ [x]) = if (length (take n l) <? n)%nat then take n l ++ [x] else take n l.
Proof.
  rewrite length_take. destruct (Nat.min n (length l) <? n)%nat eqn:E.
  - apply Nat.ltb_lt in E. rewrite !take_ge; [done|lia|rewrite length_app; simpl; lia].
  - apply Nat.ltb_ge in E. rewrite take_app_le by lia. done.
Qed.

Lemma purge_collect l :
  foldl purge_visit ([], 0) l = (take 256 (ptrs (worst l)), max_score l).
Proof.
  induction l as [|[p s] l IH] using rev_ind; [done|].
  rewrite foldl_snoc, IH, purge_visit_step. cbn zeta.
  unfold worst. rewrite max_score_app, List.filter_app. cbn [max_score foldr List.filter].
  pose proof (score_pos (p, s)). rewrite (Z.max_l (score (p, s)) 0) by lia.
  destruct (max_score l <? score (p, s)) eqn:Hx; simpl_bool.
  - rewrite Z.max_r, Z.eqb_refl by lia. cbn.
    rewrite bfilter_none; [done|]. intros e He%max_score_le. apply Z.eqb_neq. lia.
  - rewrite Z.max_l by lia. unfold ptrs. rewrite fmap_app.
    destruct (score (p, s) =? max_score l) eqn:Hs; cbn [andb fmap list_fmap fst].
    + by rewrite take_snoc.
    + by rewrite app_nil_r.
Qed.

Lemma dispose_ext g g' m : (forall p, g p = g' p) -> dispose g m = dispose g' m.
Proof.
  intros E. unfold dispose. f_equal; apply filter_ext; [intros [p s]|intros p]; by rewrite E.
Qed.

Lemma dispose_none m : dispose (fun _ => false) m = m.
Proof.
  assert (F : forall A (l : list A), List.filter (fun _ => true) l = l)
    by (intros A l; induction l as [|x l IH]; simpl; congruence).
  destruct m. unfold dispose, with_sessions. simpl. f_equal; [|apply F].
  rewrite (filter_ext _ (fun _ => true)); [apply F|by intros [? ?]].
Qed.

Lemma dispose_dispose g g' m : dispose g' (dispose g m) = dispose (fun p => g p || g' p) m.
Proof.
  unfold dispose, with_sessions. cbn. f_equal.
  - induction (sessions m) as [|[p s] l IH]; simpl; [done|].
    destruct (g p); simpl; [done|]. destruct (g' p); simpl; [done|]. by rewrite IH.
  - induction (sessions_by_attach m) as [|p l IH]; simpl; [done|].
    destruct (g p); simpl; [done|]. destruct (g' p); simpl; [done|]. by rewrite IH.
Qed.

Lemma erase_all_spec l m :
  NoDup l -> (forall p, p ∈ l -> is_Some (deref m p)) ->
  erase_all l m = Some (dispose (fun p => bool_decide (p ∈ l)) m).
Proof.
  revert m. induction l as [|p l IH]; intros m Hn Hl; cbn [erase_all].
  - rewrite (dispose_ext _ (fun _ => false)); [by rewrite dispose_none|].
    intros q. apply bool_decide_eq_false. apply not_elem_of_nil.
  - apply NoDup_cons in Hn as [Hp Hn]. unfold EraseAndDispose.
    destruct (Hl p) as [s Hs]; [left|]. rewrite Hs. cbn [is_null mbind option_bind].
    rewrite IH; [|done|].
    + rewrite dispose_dispose. f_equal. apply dispose_ext. intros q.
      apply eq_true_iff_eq. rewrite orb_true_iff, !bool_decide_eq_true, elem_of_cons. naive_solver.
    + intros q Hq. rewrite deref_dispose, bool_decide_eq_false_2 by (by intros ->).
      apply Hl. by right.
Qed.

Lemma Count_dispose gone m : Count (dispose gone m) <= Count m.
Proof. unfold Count. cbn. pose proof (filter_length_le (fun '(p, _) => negb (gone p)) (sessions m)). lia. Qed.

Lemma Count_dispose_lt gone m p :
  p ∈ ptrs (sessions m) -> gone p = true -> Count (dispose gone m) < Count m.
Proof.
  unfold Count, ptrs. cbn. intros Hin Hg. apply list_elem_of_fmap in Hin as ([q s] & -> & Hin). simpl in Hg.
  apply list_elem_of_split in Hin as (l1 & l2 & ->). rewrite List.filter_app, !length_app. simpl. rewrite Hg. simpl.
  pose proof (filter_length_le (fun '(p, _) => negb (gone p)) l1).
  pose proof (filter_length_le (fun '(p, _) => negb (gone p)) l2). lia.
Qed.

Lemma Count_dispose_list l m :
  NoDup (ptrs (sessions m)) -> NoDup l -> (forall p, p ∈ l -> p ∈ ptrs (sessions m)) ->
  Count (dispose (fun p => bool_decide (p ∈ l)) m) = Count m - Z.of_nat (length l).
Proof.
  intros Hm Hl Hin. unfold Count. cbn.
  assert (E : length l = length (List.filter (fun p => bool_decide (p ∈ l)) (ptrs (sessions m)))).
  { apply Permutation_length, NoDup_Permutation; [done|by apply NoDup_bfilter|].
    intros p. rewrite elem_of_bfilter, bool_decide_eq_true. naive_solver. }
  pose proof (filter_length (fun p => bool_decide (p ∈ l)) (ptrs (sessions m))) as F.
  rewrite <-E, <-(ptrs_filter (fun p => bool_decide (p ∈ l))) in F. unfold ptrs in F.
  rewrite !length_fmap in F. lia.
Qed.

(** The first round of [Purge()]. *)
Definition purge_list (m : SessionManager) : list ptr := take 256 (ptrs (worst (sessions m))).

Lemma purge_list_nodup m : NoDup (ptrs (sessions m)) -> NoDup (purge_list m).
Proof.
  intros Hn. unfold purge_list. eapply sublist_NoDup; [exact Hn|].
  etrans; [apply sublist_take|]. unfold ptrs. apply fmap_sublist, bfilter_sub.
Qed.

Lemma purge_list_elem m p :
  p ∈ purge_list m -> exists s, (p, s) ∈ sessions m /\ score (p, s) = max_score (sessions m).
Proof.
  unfold purge_list. intros H. eapply elem_of_sublist in H; [|apply sublist_take].
  apply list_elem_of_fmap in H as ([q s] & -> & H). apply elem_of_bfilter in H as [Hin E].
  exists s. split; [done|]. by apply Z.eqb_eq.
Qed.

Lemma purge_list_nil m : purge_list m = [] <-> sessions m = [].
Proof.
  split.
  - intros H. destruct (decide (sessions m = [])) as [|Hne]; [done|].
    destruct (max_score_in (sessions m) Hne) as (e & He & Es).
    assert (Hw : e ∈ worst (sessions m)) by (apply elem_of_bfilter; split; [done|by apply Z.eqb_eq]).
    unfold purge_list in H. destruct (worst (sessions m)); [by apply elem_of_nil in Hw|done].
  - unfold purge_list. by intros ->.
Qed.

(** A round that purges few sessions purges all with the highest score. *)
Lemma purge_list_all m e :
  (length (purge_list m) < 16)%nat -> e ∈ sessions m -> score e = max_score (sessions m) ->
  fst e ∈ purge_list m.
Proof.
  unfold purge_list. rewrite length_take. intros Hl He Es. rewrite take_ge by lia.
  apply list_elem_of_fmap. exists e. split; [done|]. apply elem_of_bfilter.
  split; [done|by apply Z.eqb_eq].
Qed.

(** What [Purge()] achieves when it deletes the sessions [gone]. *)
Record purged (m : SessionManager) (gone : ptr -> bool) : Prop := {
  pg_some : sessions m <> [] -> exists p, p ∈ ptrs (sessions m) /\ gone p = true;
  pg_score : forall e e', e ∈ sessions m -> e' ∈ sessions m -> gone (fst e) = false ->
    gone (fst e') = true -> score e <= score e';
  pg_enough : Count (dispose gone m) <= MAX_SESSIONS - 256 \/
              Count (dispose gone m) + 16 <= Count m }.

Definition purge_one (m : SessionManager) : ptr -> bool := fun p => bool_decide (p ∈ purge_list m).

Lemma purge_one_live m : MInv m -> forall p, p ∈ purge_list m -> is_Some (deref m p).
Proof.
  intros HI p (s & Hin & _)%purge_list_elem. exists s. apply elem_plookup; [apply HI|done].
Qed.

Lemma purge_one_score m e e' :
  MInv m -> e ∈ sessions m -> e' ∈ sessions m -> purge_one m (fst e') = true -> score e <= score e'.
Proof.
  intros HI He He' Hg. apply bool_decide_eq_true, purge_list_elem in Hg as (s & Hin & Es).
  assert (e' = (fst e', s)) as ->.
  { destruct e' as [p t]. simpl in *. f_equal. pose proof (mi_nodup m HI) as Hn.
    apply (elem_plookup p s) in Hin; [|done]. apply (elem_plookup p t) in He'; [|done]. congruence. }
  rewrite Es. by apply max_score_le.
Qed.

Lemma purge_one_count m :
  MInv m -> Count (dispose (purge_one m) m) = Count m - Z.of_nat (length (purge_list m)).
Proof.
  intros HI. apply Count_dispose_list; [apply HI|apply purge_list_nodup, HI|].
  intros p Hp. apply plookup_live. by apply purge_one_live.
Qed.

Lemma purge_one_some m :
  MInv m -> sessions m <> [] -> exists p, p ∈ ptrs (sessions m) /\ purge_one m p = true.
Proof.
  intros HI Hne. destruct (purge_list m) as [|p l] eqn:E; [by apply purge_list_nil in E|].
  assert (Hp : p ∈ purge_list m) by (rewrite E; left). exists p. split.
  - apply plookup_live. by apply purge_one_live.
  - by apply bool_decide_eq_true.
Qed.

(** One round, and then more. *)
Lemma purged_again m gone :
  MInv m -> (length (purge_list m) < 16)%nat -> purged (dispose (purge_one m) m) gone ->
  purged m (fun p => purge_one m p || gone p).
Proof.
  intros HI Hl [_ P2 P3]. rewrite dispose_dispose in P3. split.
  - intros Hne. destruct (purge_one_some m HI Hne) as (p & Hp & Hg). exists p. by rewrite Hg.
  - intros [p s] [q t] He He' Hg Hg'. simpl in Hg, Hg'. apply orb_false_iff in Hg as [G1 G2].
    destruct (purge_one m q) eqn:Q; [by apply (purge_one_score m (p, s) (q, t))|].
    apply P2; try done; apply elem_of_bfilter; (split; [done|]); by rewrite ?G1, ?Q.
  - pose proof (Count_dispose (purge_one m) m). destruct P3; [by left|right; lia].
Qed.

Lemma Purge_rec_spec fuel m :
  MInv m -> (length (sessions m) < fuel)%nat ->
  exists gone, Purge_rec fuel m = Some (negb (bool_decide (sessions m = [])), dispose gone m) /\
    purged m gone.
Proof.
  revert m. induction fuel as [|fuel IH]; intros m HI Hf; [lia|]. cbn [Purge_rec].
  rewrite purge_collect. fold (purge_list m).
  destruct (decide (sessions m = [])) as [E|Hne].
  - rewrite (proj2 (purge_list_nil m) E). exists (fun _ => false).
    rewrite dispose_none, bool_decide_eq_true_2 by done. split; [done|]. split; [done| |].
    + intros e e' _ _ _. done.
    + left. rewrite dispose_none. unfold Count. rewrite E. unfold MAX_SESSIONS. simpl. lia.
  - rewrite (bool_decide_eq_false_2 _ Hne). cbn [negb].
    rewrite erase_all_spec; [|apply purge_list_nodup, HI|by apply purge_one_live].
    fold (purge_one m). cbn [mbind option_bind].
    assert (Hnil : purge_list m <> []) by (by rewrite purge_list_nil).
    destruct (purge_list m) as [|p0 l0] eqn:Epl; [done|]. rewrite <-Epl in *. clear Hnil.
    pose proof (purge_one_count m HI) as Hc.
    destruct ((Z.of_nat (length (purge_list m)) <? 16) && _) eqn:Again.
    + simpl_bool. destruct (IH (dispose (purge_one m) m)) as (gone & E & Hp).
      { by apply MInv_dispose. }
      { destruct (purge_one_some m HI Hne) as (p & Hp & Hg).
        pose proof (Count_dispose_lt (purge_one m) m p Hp Hg) as Hlt. unfold Count in Hlt. lia. }
      exists (fun p => purge_one m p || gone p). rewrite E. cbn [mbind option_bind].
      rewrite dispose_dispose. split; [done|]. apply purged_again; [done|lia|done].
    + exists (purge_one m). split; [done|]. split.
      * by apply purge_one_some.
      * intros e e' He He' _. by apply purge_one_score.
      * apply andb_false_iff in Again as [A|A]; simpl_bool; [right|left]; lia.
Qed.

(** C28: [Purge()] ends; it deletes at least one session if there is one, and
    only sessions that are at least as dispensable (by [GetPurgeScore()]) as
    every session that is kept; and it makes room: afterwards there are at
    most MAX_SESSIONS - 256 sessions or at least 16 less than before. *)
Theorem Purge_spec m :
  MInv m ->
  exists gone, Purge m = Some (negb (bool_decide (sessions m = [])), dispose gone m) /\
    MInv (dispose gone m) /\ purged m gone.
Proof.
  intros HI. destruct (Purge_rec_spec (S (length (sessions m))) m HI) as (gone & E & Hp); [lia|].
  exists gone. split; [exact E|]. split; [by apply MInv_dispose|done].
Qed.

(** ** Creating sessions *)

Lemma GenerateSessionId_ok m :
  MInv m -> exists id p, GenerateSessionId m = Some (id, with_prng p m).
Proof.
  intros HI. unfold GenerateSessionId. destruct (SessionId_Generate (prng m)) as [id p].
  unfold AdjustNewSessionId. cbn [with_prng cluster_size cluster_node].
  destruct (0 <? cluster_size m) eqn:E; simpl_bool.
  - destruct (mi_cluster m HI E) as [Hn Hs]. rewrite SetClusterNode_eq by done. cbn. eauto.
  - cbn. eauto.
Qed.

Lemma Count_Insert s m : Count (snd (Insert s m)) = Count m + 1.
Proof.
  unfold Count. cbn. rewrite (Permutation_length (hs_insert_perm _ _)). simpl. lia.
Qed.

(** What [CreateSession()] does: it may purge sessions before it inserts the
    new one. *)
Record created (m : SessionManager) (p : ptr) (m' : SessionManager) : Prop := {
  cr_inv : MInv m';
  cr_new : deref m p = None;
  cr_session : exists s, deref m' p = Some s /\ sess_attach s = None /\ sess_realms s = [];
  cr_index : forall q, q ∈ sessions_by_attach m' -> q ∈ sessions_by_attach m;
  cr_old : forall q s, q <> p -> deref m' q = Some s -> deref m q = Some s;
  cr_kept : Count m < MAX_SESSIONS -> forall q s, deref m q = Some s -> deref m' q = Some s;
  cr_count : Count m' <= Z.max (Count m) MAX_SESSIONS }.

Lemma created_Insert gone now id salt pr m :
  MInv m -> (MAX_SESSIONS <= Count m -> Count (dispose gone m) < Count m) ->
  (Count m < MAX_SESSIONS -> forall p, gone p = false) ->
  created m (next_ptr m) (snd (Insert (Session_new now id salt) (with_prng pr (dispose gone m)))).
Proof.
  intros HI Hc Hg. set (m1 := with_prng pr (dispose gone m)).
  assert (HI1 : MInv m1) by (apply MInv_prng; by apply MInv_dispose).
  assert (D1 : forall q, deref m1 q = if gone q then None else deref m q).
  { intros q. apply deref_dispose. }
  split.
  - apply MInv_Insert; [done|done|apply Session_new_wf].
  - destruct (deref m (next_ptr m)) eqn:E; [|done].
    assert (next_ptr m < next_ptr m)%nat; [|lia]. apply (mi_fresh m HI), plookup_live. by eexists.
  - eexists. rewrite deref_Insert by done. change (next_ptr m1) with (next_ptr m). by rewrite decide_True.
  - intros q. cbn. rewrite elem_of_bfilter. tauto.
  - intros q s Hq. rewrite deref_Insert by done. change (next_ptr m1) with (next_ptr m).
    rewrite decide_False, D1 by done. by destruct (gone q).
  - intros Hlt q s Hs. rewrite deref_Insert by done. change (next_ptr m1) with (next_ptr m).
    rewrite decide_False.
    + by rewrite D1, Hg.
    + intros ->. assert (next_ptr m < next_ptr m)%nat; [|lia].
      apply (mi_fresh m HI), plookup_live. by eexists.
  - rewrite Count_Insert. change (Count m1) with (Count (dispose gone m)).
    pose proof (Count_dispose gone m). lia.
Qed.

Lemma Purge_ok m :
  MInv m -> exists b gone, Purge m = Some (b, dispose gone m) /\ purged m gone.
Proof.
  intros HI. destruct (Purge_rec_spec (S (length (sessions m))) m HI) as (gone & E & Hp); [lia|].
  by eexists _, gone.
Qed.

Lemma CreateSession_ok now m :
  MInv m -> exists p m', CreateSession now m = Some (p, m') /\ created m p m'.
Proof.
  intros HI. unfold CreateSession.
  assert (Hp : exists gone,
    (if MAX_SESSIONS <=? Count m then '(_, m) ← Purge m; Some m else Some m) = Some (dispose gone m) /\
    (MAX_SESSIONS <= Count m -> Count (dispose gone m) < Count m) /\
    (Count m < MAX_SESSIONS -> forall p, gone p = false)).
  { destruct (MAX_SESSIONS <=? Count m) eqn:E; simpl_bool.
    - destruct (Purge_ok m HI) as (b & gone & -> & [Hs _ _]). exists gone. split; [done|]. split; [|lia].
      intros _. destruct Hs as (p & Hp & Hg); [|by eapply Count_dispose_lt].
      intros En. unfold Count in E. rewrite En in E. unfold MAX_SESSIONS in E. simpl in E. lia.
    - exists (fun _ => false). rewrite dispose_none. split; [done|]. split; [lia|done]. }
  destruct Hp as (gone & -> & Hc & Hg). cbn [mbind option_bind].
  change (prng (dispose gone m)) with (prng m). destruct (SessionId_Generate (prng m)) as [salt pr].
  destruct (GenerateSessionId_ok (with_prng pr (dispose gone m))) as (id & pr' & ->).
  { apply MInv_prng. by apply MInv_dispose. }
  cbn [mbind option_bind]. eexists _, _. split; [reflexivity|].
  by apply (created_Insert gone now id salt pr' m).
Qed.

(** ** The index of "attach" values *)

Lemma MInv_reindex p s a idx m :
  MInv m -> deref m p = Some s -> NoDup idx ->
  (forall q, q ∈ idx <-> q ∈ sessions_by_attach m /\ q <> p \/ q = p /\ a <> None) ->
  a <> Some [] ->
  (forall q t, deref m q = Some t -> q <> p -> sess_attach t = a -> a = None) ->
  MInv (assign p (with_attach a s) (with_sessions (sessions m) idx m)).
Proof.
  intros [H1 H2 H3 H4 H5 H6 H7 H8 H9] Hp Hn Hi Ha Hu.
  set (m' := assign p (with_attach a s) (with_sessions (sessions m) idx m)).
  assert (D : forall q, deref m' q = if decide (q = p) then Some (with_attach a s) else deref m q).
  { intros q. unfold m'. rewrite deref_assign. change (deref (with_sessions _ _ m)) with (deref m).
    by rewrite Hp. }
  assert (Hs : ptrs (sessions m') = ptrs (sessions m)) by apply ptrs_pset.
  split.
  - by rewrite Hs.
  - rewrite Hs. exact H2.
  - exact Hn.
  - intros q. change (sessions_by_attach m') with idx. rewrite Hi, H4, D.
    case_decide as Hq; subst; naive_solver.
  - intros q t. rewrite D. case_decide; [|eauto]. intros [= <-]. done.
  - intros q r t u b. rewrite !D. repeat case_decide; intros; simplify_eq/=; try done; try (by eauto).
    + naive_solver.
    + naive_solver.
  - intros q t. rewrite D. case_decide; [|eauto]. intros [= <-]. destruct (H7 p s Hp). by split.
  - exact H8.
  - intros He Hne. apply H9; [done|]. intros E. apply Hne. cbn. by rewrite E.
Qed.

Lemma find_attach_spec a m p :
  MInv m -> a <> [] ->
  find_attach a m = Some p -> exists s, deref m p = Some s /\ sess_attach s = Some a.
Proof.
  intros HI Ha H. apply find_some in H as [Hin H].
  apply list_elem_of_In, (mi_index m HI) in Hin as (s & Hs & Hn). rewrite Hs in H. exists s.
  split; [done|]. apply bool_decide_eq_true in H. destruct (sess_attach s); [by f_equal|done].
Qed.

Lemma find_attach_None a m q t :
  MInv m -> find_attach a m = None -> deref m q = Some t -> sess_attach t <> Some a.
Proof.
  intros HI H Hq E. assert (Hin : q ∈ sessions_by_attach m).
  { apply (mi_index m HI). exists t. rewrite E. done. }
  apply list_elem_of_In in Hin. pose proof (find_none _ _ H _ Hin) as F. cbn in F. rewrite Hq, E in F.
  by apply bool_decide_eq_false in F.
Qed.

(** ** Leases *)

Lemma RealmSession_new_wf : realm_wf RealmSession_new.
Proof. split; [apply set_wf_nil|]. split; constructor. Qed.

Lemma Session_GetRealm_spec realm s :
  session_wf s ->
  let '(r, s') := Session_GetRealm realm s in
  session_wf s' /\ smap_find realm (sess_realms s') = Some r /\ sess_attach s' = sess_attach s /\
  forall k, k <> realm -> smap_find k (sess_realms s') = smap_find k (sess_realms s).
Proof.
  intros Hs. unfold Session_GetRealm. destruct (smap_find realm (sess_realms s)) as [r|] eqn:E; [done|].
  destruct Hs as [Hs Hr]. cbn. split_and!.
  - split; cbn; [auto with beng|]. intros k r. destruct (decide (k = realm)) as [->|Hk].
    + rewrite smap_find_emplace, E by done. intros [= <-]. apply RealmSession_new_wf.
    + rewrite smap_find_emplace_ne by done. apply Hr.
  - by rewrite smap_find_emplace, E.
  - done.
  - intros k Hk. by apply smap_find_emplace_ne.
Qed.

Lemma Count_assign p s m : Count (assign p s m) = Count m.
Proof. unfold Count. cbn. unfold pset. by rewrite length_map. Qed.

(** A realm of a session is leased. *)
Definition leased (m : SessionManager) (l : RealmLease) : Prop :=
  exists s, deref m (fst l) = Some s /\ is_Some (smap_find (snd l) (sess_realms s)).

Lemma RealmSessionLease_new_ok p realm s m :
  MInv m -> deref m p = Some s ->
  exists m' s', RealmSessionLease_new p realm m = Some ((p, realm), m') /\ MInv m' /\
    (forall q, deref m' q = if decide (q = p) then Some s' else deref m q) /\
    sess_attach s' = sess_attach s /\ leased m' (p, realm) /\ Count m' = Count m.
Proof.
  intros HI Hp. unfold RealmSessionLease_new. rewrite Hp. cbn [mbind option_bind].
  pose proof (Session_GetRealm_spec realm s (mi_wf m HI p s Hp)) as H.
  destruct (Session_GetRealm realm s) as [r s']. destruct H as (Hwf & Hf & Ha & _).
  assert (D : forall q, deref (assign p s' m) q = if decide (q = p) then Some s' else deref m q).
  { intros q. rewrite deref_assign, Hp. done. }
  eexists _, s'. split; [reflexivity|]. split_and!.
  - by eapply MInv_assign.
  - exact D.
  - done.
  - exists s'. cbn [fst snd]. rewrite D, decide_True by done. split; [done|by eexists].
  - apply Count_assign.
Qed.

(** ** Attaching *)

(** What [SessionManager::Attach()] achieves: the lease that it returns is
    for a session with the given "attach" value; if that is not the session
    that was passed, the latter is deleted; other sessions are not modified,
    and if a lease was passed or there is room, not deleted either. *)
Record attached (m : SessionManager) (lease : option RealmLease) (a : bytes) (l : RealmLease)
  (m' : SessionManager) : Prop := {
  at_inv : MInv m';
  at_leased : leased m' l;
  at_attach : exists s, deref m' (fst l) = Some s /\ sess_attach s = Some a;
  at_gone : forall q r, lease = Some (q, r) -> q <> fst l -> deref m' q = None;
  at_unmodified : forall q s, q <> fst l -> (forall r, lease <> Some (q, r)) ->
    deref m' q = Some s -> deref m q = Some s;
  at_kept : forall q s, deref m q = Some s -> q <> fst l -> (forall r, lease <> Some (q, r)) ->
    Count m < MAX_SESSIONS \/ is_Some lease -> deref m' q = Some s;
  at_count : Count m' <= Z.max (Count m) MAX_SESSIONS }.

(** [Attach()] after the lease was checked. *)
Definition Attach_tail (now : Expiry) (lease : option RealmLease) (realm attach : bytes) m
  : option (RealmLease * SessionManager) :=
  match find_attach attach m, lease with
  | None, Some (p, r) => m ← Attach_commit attach p m; Some ((p, r), m)
  | None, None =>
      '(p, m) ← CreateSession now m; m ← Attach_commit attach p m; RealmSessionLease_new p realm m
  | Some existing, Some (src, _) =>
      e ← deref m existing; s ← deref m src; e ← Session_Attach e s;
      m ← EraseAndDispose src (assign existing e m); RealmSessionLease_new existing realm m
  | Some existing, None => RealmSessionLease_new existing realm m
  end.

Lemma Attach_commit_ok a p s m :
  MInv m -> a <> [] -> deref m p = Some s -> sess_attach s = None ->
  (forall q t, deref m q = Some t -> sess_attach t <> Some a) ->
  exists m', Attach_commit a p m = Some m' /\ MInv m' /\ Count m' = Count m /\
    forall q, deref m' q = if decide (q = p) then Some (with_attach (Some a) s) else deref m q.
Proof.
  intros HI Ha Hp Hs Hu. unfold Attach_commit. rewrite Hp. cbn [mbind option_bind].
  assert (Hni : p ∉ sessions_by_attach m).
  { rewrite (mi_index m HI). intros (t & Ht & Hn). congruence. }
  eexists. split; [reflexivity|]. split_and!.
  - apply MInv_reindex; try done.
    + rewrite hs_insert_perm. apply NoDup_cons. split; [done|apply HI].
    + intros q. rewrite hs_insert_perm, elem_of_cons. split.
      * intros [->|Hq]; [by right|left]. split; [done|]. by intros ->.
      * intros [[? _]|[-> _]]; [by right|by left].
    + congruence.
    + intros q t Hq _ E. by apply Hu in Hq.
  - by rewrite Count_assign.
  - intros q. rewrite deref_assign. change (deref (with_sessions _ _ m)) with (deref m). by rewrite Hp.
Qed.

(** The leased session has no "attach" value when its tail is reached. *)
Lemma Attach_tail_commit now p r realm a m s :
  MInv m -> a <> [] -> deref m p = Some s -> sess_attach s = None -> leased m (p, r) ->
  find_attach a m = None ->
  exists m', Attach_tail now (Some (p, r)) realm a m = Some ((p, r), m') /\
    attached m (Some (p, r)) a (p, r) m'.
Proof.
  intros HI Ha Hp Hs (s0 & Hs0 & Hr) Hf. unfold Attach_tail. rewrite Hf.
  destruct (Attach_commit_ok a p s m HI Ha Hp Hs) as (m' & -> & HI' & Hc & D).
  { intros q t. by apply find_attach_None. }
  cbn [mbind option_bind fst snd] in *. rewrite Hp in Hs0. injection Hs0 as <-.
  exists m'. split; [done|]. split; [done| | | | | |lia].
  - exists (with_attach (Some a) s). cbn. by rewrite D, decide_True.
  - exists (with_attach (Some a) s). cbn. by rewrite D, decide_True.
  - by intros q r' [= <- <-].
  - intros q t Hq _. cbn in Hq. by rewrite D, decide_False.
  - intros q t Hq Hne _ _. cbn in Hne. by rewrite D, decide_False.
Qed.

Lemma Attach_tail_create now realm a m :
  MInv m -> a <> [] -> find_attach a m = None ->
  exists l m', Attach_tail now None realm a m = Some (l, m') /\ attached m None a l m'.
Proof.
  intros HI Ha Hf. unfold Attach_tail. rewrite Hf.
  destruct (CreateSession_ok now m HI) as (p & m1 & -> & [C1 C2 C3 C4 C5 C6 C7]).
  destruct C3 as (s & Hs & Hsa & Hsr). cbn [mbind option_bind].
  destruct (Attach_commit_ok a p s m1 C1 Ha Hs Hsa) as (m2 & -> & HI2 & Hc2 & D2).
  { intros q t Hq. destruct (decide (q = p)) as [->|Hne]; [congruence|].
    apply C5 in Hq; [|done]. by apply (find_attach_None a m q). }
  cbn [mbind option_bind].
  destruct (RealmSessionLease_new_ok p realm (with_attach (Some a) s) m2 HI2)
    as (m3 & s3 & -> & HI3 & D3 & Ha3 & Hl3 & Hc3).
  { by rewrite D2, decide_True. }
  exists (p, realm), m3. split; [done|]. split; cbn; [done|done| |done| | |lia].
  - exists s3. rewrite D3, decide_True, Ha3 by done. done.
  - intros q t Hq _. rewrite D3, decide_False, D2, decide_False by done. by apply C5.
  - intros q t Hq Hne _ [Hlt|[? ?]]; [|done].
    rewrite D3, decide_False, D2, decide_False by done. by apply C6.
Qed.

Lemma Attach_tail_existing now realm a m p :
  MInv m -> a <> [] -> find_attach a m = Some p ->
  exists l m', Attach_tail now None realm a m = Some (l, m') /\ attached m None a l m'.
Proof.
  intros HI Ha Hf. unfold Attach_tail. rewrite Hf.
  destruct (find_attach_spec a m p HI Ha Hf) as (s & Hs & Hsa).
  destruct (RealmSessionLease_new_ok p realm s m HI Hs) as (m3 & s3 & -> & HI3 & D3 & Ha3 & Hl3 & Hc3).
  exists (p, realm), m3. split; [done|]. split; cbn; [done|done| |done| | |lia].
  - exists s3. by rewrite D3, decide_True, Ha3.
  - intros q t Hq _. by rewrite D3, decide_False.
  - intros q t Hq Hne _ _. by rewrite D3, decide_False.
Qed.

Lemma Session_Attach_attach e s r : Session_Attach e s = Some r -> sess_attach r = sess_attach e.
Proof. unfold Session_Attach. destruct (Session_AttachRealms _ _); simpl; [|done]. by intros [= <-]. Qed.

Lemma Attach_tail_merge now src r realm a m p s :
  MInv m -> a <> [] -> find_attach a m = Some p ->
  deref m src = Some s -> sess_attach s = None ->
  exists l m', Attach_tail now (Some (src, r)) realm a m = Some (l, m') /\
    attached m (Some (src, r)) a l m' /\ fst l = p.
Proof.
  intros HI Ha Hf Hs Hsa. unfold Attach_tail. rewrite Hf.
  destruct (find_attach_spec a m p HI Ha Hf) as (e & He & Hea).
  assert (Hne : src <> p) by (intros ->; congruence).
  rewrite He, Hs. cbn [mbind option_bind].
  destruct (Session_Attach_realms e s (mi_wf m HI p e He) (mi_wf m HI src s Hs)) as (x & Ex & Hx & _).
  pose proof (Session_Attach_attach e s x Ex) as Hxa. rewrite Ex. cbn [mbind option_bind].
  assert (HI1 : MInv (assign p x m)) by (by eapply MInv_assign).
  unfold EraseAndDispose. rewrite deref_assign, decide_False, Hs by done. cbn [is_null mbind option_bind].
  set (m2 := dispose (fun q => bool_decide (src = q)) (assign p x m)).
  assert (HI2 : MInv m2) by (by apply MInv_dispose).
  assert (D2 : forall q, deref m2 q = if decide (q = src) then None
                                      else if decide (q = p) then Some x else deref m q).
  { intros q. unfold m2. rewrite deref_dispose, deref_assign, He.
    destruct (decide (q = src)) as [->|Hq]; [by rewrite bool_decide_eq_true_2|].
    by rewrite bool_decide_eq_false_2. }
  destruct (RealmSessionLease_new_ok p realm x m2 HI2) as (m3 & s3 & -> & HI3 & D3 & Ha3 & Hl3 & Hc3).
  { by rewrite D2, decide_False, decide_True. }
  exists (p, realm), m3. split; [done|]. split; [|done]. split; cbn; [done|done| | | | |].
  - exists s3. rewrite D3, decide_True, Ha3, Hxa by done. done.
  - intros q r' [= <- _] Hq. by rewrite D3, decide_False, D2, decide_True.
  - intros q t Hq _. rewrite D3, decide_False, D2 by done. case_decide; [done|]. by rewrite decide_False.
  - intros q t Hq Hqp Hl _. rewrite D3, decide_False, D2 by done.
    rewrite decide_False, decide_False; [done|done|]. intros ->. by apply (Hl r).
  - pose proof (Count_dispose (fun q => bool_decide (src = q)) (assign p x m)).
    rewrite Count_assign in *. fold m2 in H. lia.
Qed.

(** Clearing another "attach" value first. *)
Lemma Attach_release_ok p r s m :
  MInv m -> deref m p = Some s ->
  exists m' s', Attach_release (Some (p, r)) m = Some m' /\ MInv m' /\ Count m' = Count m /\
    sess_attach s' = None /\ sess_realms s' = sess_realms s /\
    forall q, deref m' q = if decide (q = p) then Some s' else deref m q.
Proof.
  intros HI Hp. unfold Attach_release. rewrite Hp. cbn [mbind option_bind].
  destruct (sess_attach s) as [a|] eqn:Ea; cbn [is_null].
  - rewrite bool_decide_eq_true_2 by (apply (mi_index m HI); exists s; by rewrite Ea). cbn [negb].
    eexists _, (with_attach None s). split; [reflexivity|]. split_and!; [| |done|done|].
    + apply MInv_reindex; try done.
      * by apply NoDup_bfilter, HI.
      * intros q. rewrite elem_of_bfilter, negb_true_iff, bool_decide_eq_false. naive_solver.
    + by rewrite Count_assign.
    + intros q. rewrite deref_assign. change (deref (with_sessions _ _ m)) with (deref m). by rewrite Hp.
  - exists m, s. split_and!; try done. intros q. case_decide; by subst.
Qed.

Lemma Attach_unfold now lease realm a m :
  Attach now lease realm a m =
  if bool_decide (a = []) then None
  else already ← (match lease with
                  | None => Some false
                  | Some (p, _) => s ← deref m p; Some (Session_IsAttach s a)
                  end);
       match already, lease with
       | true, Some l => Some (l, m)
       | _, _ => m ← Attach_release lease m; Attach_tail now lease realm a m
       end.
Proof. reflexivity. Qed.

(** The session that was passed has an equal "attach" value already. *)
Lemma attached_already l a s m :
  MInv m -> a <> [] -> leased m l -> deref m (fst l) = Some s -> Session_IsAttach s a = true ->
  attached m (Some l) a l m.
Proof.
  intros HI Ha Hl Hs E. split; [done|done| | |done|done|lia].
  - exists s. split; [done|]. unfold Session_IsAttach in E. apply bool_decide_eq_true in E.
    destruct (sess_attach s); simpl in E; [by f_equal|done].
  - destruct l as [p r]. by intros q r' [= <- <-].
Qed.

(** From the state after the release to the one before. *)
Lemma attached_release p r s' a l m1 m m' :
  (forall q, deref m1 q = if decide (q = p) then Some s' else deref m q) ->
  Count m1 = Count m -> attached m1 (Some (p, r)) a l m' -> attached m (Some (p, r)) a l m'.
Proof.
  intros D Hc [A1 A2 A3 A4 A5 A6 A7].
  assert (Hq : forall q, (forall r', Some (p, r) <> Some (q, r')) -> deref m1 q = deref m q).
  { intros q H. rewrite D, decide_False; [done|]. intros ->. by apply (H r). }
  split; try done.
  - intros q t H1 H2 H3. rewrite <-Hq by done. by apply A5.
  - intros q t H1 H2 H3 H4. apply A6; try done; [by rewrite Hq|right; by eexists].
  - by rewrite <-Hc.
Qed.

Lemma Attach_ok now lease realm a m :
  MInv m -> a <> [] -> (forall l, lease = Some l -> leased m l) ->
  exists l m', Attach now lease realm a m = Some (l, m') /\ attached m lease a l m'.
Proof.
  intros HI Ha Hl. rewrite Attach_unfold, bool_decide_eq_false_2 by done.
  destruct lease as [[p r]|]; cycle 1.
  { cbn [mbind option_bind Attach_release].
    destruct (find_attach a m) as [p|] eqn:Hf;
      [by eapply Attach_tail_existing|by apply Attach_tail_create]. }
  specialize (Hl _ eq_refl). destruct Hl as (s & Hs & Hr). cbn [fst snd] in *.
  rewrite Hs. cbn [mbind option_bind].
  destruct (Session_IsAttach s a) eqn:E.
  { eexists _, m. split; [reflexivity|]. eapply attached_already; try done. by exists s. }
  destruct (Attach_release_ok p r s m HI Hs) as (m1 & s1 & -> & HI1 & Hc & Ha1 & Hr1 & D1).
  cbn [mbind option_bind].
  assert (Hs1 : deref m1 p = Some s1) by (by rewrite D1, decide_True).
  destruct (find_attach a m1) as [q|] eqn:Hf.
  - destruct (Attach_tail_merge now p r realm a m1 q s1 HI1 Ha Hf Hs1 Ha1) as (l & m' & E' & A & _).
    exists l, m'. split; [done|]. by eapply attached_release.
  - destruct (Attach_tail_commit now p r realm a m1 s1 HI1 Ha Hs1 Ha1) as (m' & E' & A); [|done|].
    + exists s1. cbn. rewrite Hr1. done.
    + eexists _, m'. split; [done|]. by eapply attached_release.
Qed.

(** [SessionManager::Attach()] with a lease for an existing realm
    session, or without a lease, succeeds, keeps the invariant and returns a
    lease for a realm of the one session that has the given "attach" value
    afterwards; the session that was passed is merged into it and deleted if
    it is another one, and no other session is modified. *)
Theorem Attach_spec now lease realm a m :
  MInv m -> a <> [] -> (forall l, lease = Some l -> leased m l) ->
  exists l m', Attach now lease realm a m = Some (l, m') /\ attached m lease a l m' /\
    forall q t, deref m' q = Some t -> sess_attach t = Some a -> q = fst l.
Proof.
  intros HI Ha Hl. destruct (Attach_ok now lease realm a m HI Ha Hl) as (l & m' & E & A).
  exists l, m'. split; [done|]. split; [done|]. intros q t Hq Ht.
  destruct (at_attach _ _ _ _ _ A) as (s & Hs & Hsa).
  exact (mi_unique m' (at_inv _ _ _ _ _ A) q (fst l) t s a Hq Hs Ht Hsa).
Qed.

(** ** Helpers *)

Lemma find_id_deref id m p s : MInv m -> find_id id m = Some (p, s) -> deref m p = Some s.
Proof.
  intros HI H. apply find_some in H as [Hin _]. apply elem_plookup; [apply HI|]. by apply list_elem_of_In.
Qed.

Lemma MInv_same_realms p s s0 m :
  MInv m -> deref m p = Some s0 -> sess_attach s = sess_attach s0 -> sess_realms s = sess_realms s0 ->
  MInv (assign p s m).
Proof.
  intros HI Hp Ha Hr. apply (MInv_assign p s s0 m HI Hp Ha).
  destruct (mi_wf m HI p s0 Hp) as [H1 H2]. split; by rewrite Hr.
Qed.

Lemma Session_DiscardRealm_wf realm s : session_wf s -> session_wf (snd (Session_DiscardRealm realm s)).
Proof.
  intros Hs. unfold Session_DiscardRealm. destruct (smap_find realm (sess_realms s)); [|done].
  destruct Hs as [H1 H2]. split; cbn; [auto with beng|].
  intros k x. rewrite smap_find_erase. case_decide; [done|apply H2].
Qed.

Lemma Session_DiscardRealm_attach realm s : sess_attach (snd (Session_DiscardRealm realm s)) = sess_attach s.
Proof. unfold Session_DiscardRealm. by destruct (smap_find realm (sess_realms s)). Qed.

Lemma good_Find now id m : MInv m ->
  let '(p, m') := Find now id m in
  MInv m' /\ Count m' = Count m /\ forall q, p = Some q -> is_Some (deref m' q).
Proof.
  intros HI. unfold Find. destruct (SessionId_IsDefined id); cbn [negb]; [|done].
  destruct (find_id id m) as [[p s]|] eqn:E; [|done].
  pose proof (find_id_deref id m p s HI E) as Hp. split_and!.
  - by eapply MInv_same_realms.
  - apply Count_assign.
  - intros q [= <-]. rewrite deref_assign, decide_True, Hp by done. by eexists.
Qed.

Lemma Cleanup_ok now seed m : MInv m -> MInv (Cleanup now seed m) /\ Count (Cleanup now seed m) <= Count m.
Proof.
  intros HI. unfold Cleanup.
  assert (H : forall g, MInv (let m1 := dispose g (with_timer false m) in
    match sessions m1 with [] => m1 | _ => with_timer true m1 end) /\
    Count (let m1 := dispose g (with_timer false m) in
      match sessions m1 with [] => m1 | _ => with_timer true m1 end) <= Count m).
  { intros g. pose proof (MInv_dispose g m HI) as Hd. cbn zeta.
    change (sessions (dispose g (with_timer false m))) with (sessions (dispose g m)).
    pose proof (Count_dispose g m) as Hc.
    destruct (sessions (dispose g m)) as [|e l] eqn:E; (split; [|exact Hc]).
    - apply (MInv_timer false (dispose g m) Hd). by rewrite E.
    - by apply (MInv_timer true (dispose g m) Hd). }
  match goal with |- context [dispose ?g (with_timer false m)] => destruct (H g) as [H1 H2] end.
  cbn zeta in H1, H2.
  destruct seed; (split; [|exact H2]); [by apply MInv_prng|exact H1].
Qed.

(** A session that can be inserted. *)
Definition insertable (s : Session) : Prop := sess_attach s = None /\ session_wf s.

Lemma Insert_all_ok l m : MInv m -> Forall insertable l ->
  MInv (foldl (fun m s => snd (Insert s m)) m l) /\
  Count (foldl (fun m s => snd (Insert s m)) m l) = Count m + Z.of_nat (length l).
Proof.
  intros HI Hl. revert m HI. induction Hl as [|s l [Ha Hs] Hl IH]; intros m HI; cbn [foldl length]; [split; [done|lia]|].
  destruct (IH (snd (Insert s m))) as [H1 H2]; [by apply MInv_Insert|]. split; [done|]. rewrite H2, Count_Insert. lia.
Qed.

End Facts.

(** ** All operations *)

Section Operations.
Context `{EO : ExpiryOps} `{HA : HttpAddressType} `{PR : Prng} `{HS : HashSetOrder} `{AB : !SessionAbi}.
Implicit Types m : SessionManager.

(** The operations that the rest of the program calls, and a modification of
    a leased session through one of its own operations. *)
Inductive mop :=
| OpCreate (now : Expiry)
| OpInsert (s : Session)
| OpLoad (now : Expiry) (file : bytes)
| OpFind (now : Expiry) (id : SessionId)
| OpLease (now : Expiry) (id : SessionId) (realm : bytes)
| OpAttach (now : Expiry) (lease : option RealmLease) (realm attach : bytes)
| OpErase (id : SessionId)
| OpDiscardRealm (id : SessionId) (realm : bytes)
| OpDiscardAttach (attach : bytes)
| OpPurge
| OpCleanup (now : Expiry) (seed : option prng_state)
| OpVisit (now : Expiry)
| OpEnableEvents
| OpDisableEvents
| OpModify (p : ptr) (s : Session).

(** [None]: an assertion fails, a session is used that does not exist, or a null string is read from the file. *)
Definition exec (op : mop) (m : SessionManager) : option SessionManager :=
  match op with
  | OpCreate now => snd <$> CreateSession now m
  | OpInsert s => Some (snd (Insert s m))
  | OpLoad now file =>
      match Load now file m with
      | (LoadThrown NullString, _) => None
      | (_, m') => Some m'
      end
  | OpFind now id => Some (snd (Find now id m))
  | OpLease now id realm => snd <$> RealmSessionLease_find now id realm m
  | OpAttach now lease realm attach => snd <$> Attach now lease realm attach m
  | OpErase id => EraseAndDispose_id id m
  | OpDiscardRealm id realm => DiscardRealmSession id realm m
  | OpDiscardAttach attach => DiscardAttachSession attach m
  | OpPurge => snd <$> Purge m
  | OpCleanup now seed => Some (Cleanup now seed m)
  | OpVisit now => Some m
  | OpEnableEvents => Some (EnableEvents m)
  | OpDisableEvents => Some (DisableEvents m)
  | OpModify p s => if is_null (deref m p) then None else Some (assign p s m)
  end.

(** The sessions that [Load()] adds. *)
Definition loaded_sessions (now : Expiry) (file : bytes) m : list Session := (Load_sessions now (prng m) file).1.1.

(** What callers have to observe. *)
Definition legal (op : mop) (m : SessionManager) : Prop :=
  match op with
  | OpInsert s => insertable s
  | OpLoad now file => Forall session_wf (loaded_sessions now file m) /\
      snd (Load_sessions now (prng m) file) <> LoadThrown NullString
  | OpAttach _ lease _ attach => attach <> [] /\ forall l, lease = Some l -> leased m l
  | OpModify p s => session_wf s /\ exists s0, deref m p = Some s0 /\ sess_attach s = sess_attach s0
  | _ => True
  end.

(** How many sessions an operation adds without looking at the limit. *)
Definition imported (op : mop) (m : SessionManager) : Z :=
  match op with
  | OpInsert _ => 1
  | OpLoad now file => Z.of_nat (length (loaded_sessions now file m))
  | _ => 0
  end.

Definition events_after (op : mop) (events : bool) : bool :=
  match op with
  | OpEnableEvents => true
  | OpDisableEvents => false
  | _ => events
  end.

(** The outcome of a step that does not fail. *)
Definition good (events : bool) (m : SessionManager) (n : Z) (r : option SessionManager) : Prop :=
  exists m', r = Some m' /\ MInv events m' /\ Count m' <= Z.max (Count m + n) MAX_SESSIONS.

Lemma good_same events m m' : MInv events m' -> Count m' <= Count m -> good events m 0 (Some m').
Proof. intros H1 H2. exists m'. split; [done|]. split; [done|lia]. Qed.

Lemma good_erase events p s m0 m :
  MInv events m -> Count m <= Count m0 -> deref m p = Some s -> good events m0 0 (EraseAndDispose p m).
Proof.
  intros HI Hc Hp. unfold EraseAndDispose. rewrite Hp. cbn [is_null].
  apply good_same; [by apply MInv_dispose|]. etrans; [apply Count_dispose|done].
Qed.

(** Sessions are read without an "attach" value. *)
Lemma DoReadSession_attach session s session' s' : DoReadSession session s = Ok session' s' ->
  sess_attach session' = sess_attach session.
Proof.
  unfold DoReadSession, mbind, Reader_bind. intros H.
  repeat (match type of H with
          | match ?r with Ok _ _ => _ | Err _ => _ end = _ => destruct r; [|done]
          end).
  by injection H as <- _.
Qed.

Lemma Load_loop_attach f now prng s : Forall (fun x => sess_attach x = None) (Load_loop f now prng s).1.1.
Proof.
  revert prng s. induction f as [|f IH]; intros prng s; simpl; [constructor|].
  destruct (session_read_magic s) as [magic s1|e]; [|constructor]. destruct (magic =? MAGIC_END_OF_LIST); [constructor|].
  destruct (negb (magic =? MAGIC_SESSION)); [constructor|].
  destruct (session_read now prng s1) as [[x prng'] s2|e] eqn:E; [|constructor].
  assert (Hx : sess_attach x = None).
  { unfold session_read, mbind, Reader_bind in E. destruct (ReadId s1) as [id s3|]; [|done].
    destruct (SessionId_Generate prng) as [salt prng3].
    destruct (DoReadSession _ s3) as [y s4|] eqn:Ey; [|done]. injection E as <- _ _.
    by apply DoReadSession_attach in Ey. }
  specialize (IH prng' s2). destruct (Load_loop f now prng' s2) as [[added p] r]. simpl in *.
  destruct (IsExpired _ _); [done|by constructor].
Qed.

Lemma loaded_insertable now file m : Forall session_wf (loaded_sessions now file m) ->
  Forall insertable (loaded_sessions now file m).
Proof.
  intros Hw. assert (Ha : Forall (fun x => sess_attach x = None) (loaded_sessions now file m)).
  { unfold loaded_sessions, Load_sessions. destruct (session_read_file_header file); [|constructor]. apply Load_loop_attach. }
  rewrite Forall_forall in Hw, Ha |- *. intros x Hx. split; [by apply Ha|by apply Hw].
Qed.

Lemma good_Load events now file m : MInv events m -> legal (OpLoad now file) m ->
  good events m (imported (OpLoad now file) m) (exec (OpLoad now file) m).
Proof.
  intros HI [Hw Hn]. pose proof (loaded_insertable now file m Hw) as Hi. cbn [exec imported]. unfold Load.
  unfold loaded_sessions in *. destruct (Load_sessions now (prng m) file) as [[added p] result]. cbn [fst snd] in *.
  destruct (Insert_all_ok events added (with_prng p m)) as [H1 H2]; [by apply MInv_prng|done|].
  exists (foldl (fun m s => snd (Insert s m)) (with_prng p m) added).
  split; [by destruct result as [|[]]|]. split; [done|]. rewrite H2. change (Count (with_prng p m)) with (Count m). lia.
Qed.

Lemma MInv_events events t m : MInv events m -> MInv t (with_timer t m).
Proof. intros [? ? ? ? ? ? ? ? ?]. split; try done. Qed.

Lemma exec_good op events m : MInv events m -> legal op m -> good (events_after op events) m (imported op m) (exec op m).
Proof.
  intros HI Hl. destruct op as [now|s|now file|now id|now id realm|now lease realm a|id|id realm|a| |now seed|now| | |p s];
    cbn [exec legal imported events_after] in *.
  - destruct (CreateSession_ok events now m HI) as (p & m' & -> & [? ? ? ? ? ? ?]). exists m'. split; [done|]. split; [done|lia].
  - destruct Hl as [Ha Hs]. eexists. split; [done|]. split; [by apply MInv_Insert|]. rewrite Count_Insert. lia.
  - by apply good_Load.
  - pose proof (good_Find events now id m HI) as H. destruct (Find now id m) as [p m'].
    destruct H as (? & ? & _). apply good_same; [done|simpl; lia].
  - unfold RealmSessionLease_find. pose proof (good_Find events now id m HI) as H.
    destruct (Find now id m) as [[p|] m1]; destruct H as (H1 & H2 & H3);
      [|apply good_same; [exact H1|cbn [snd]; lia]].
    destruct (H3 p eq_refl) as [s Hs].
    destruct (RealmSessionLease_new_ok events p realm s m1 H1 Hs) as (m2 & s2 & -> & ? & _ & _ & _ & ?).
    apply good_same; [done|cbn [snd]; lia].
  - destruct Hl as [Ha Hl]. destruct (Attach_ok events now lease realm a m HI Ha Hl) as (l & m' & -> & A).
    exists m'. split; [done|]. split; [apply A|]. pose proof (at_count _ _ _ _ _ _ A). lia.
  - unfold EraseAndDispose_id. destruct (find_id id m) as [[p s]|] eqn:E; [|by apply good_same].
    eapply good_erase; [done|done|]. by eapply find_id_deref.
  - unfold DiscardRealmSession. destruct (find_id id m) as [[p s]|] eqn:E; [|by apply good_same].
    pose proof (find_id_deref events id m p s HI E) as Hp.
    pose proof (Session_DiscardRealm_wf realm s (mi_wf events m HI p s Hp)) as Hwf.
    pose proof (Session_DiscardRealm_attach realm s) as Ha.
    destruct (Session_DiscardRealm realm s) as [found s1]. cbn [snd] in *.
    destruct found; cbn [negb]; [|by apply good_same].
    pose proof (MInv_assign events p s1 s m HI Hp Ha Hwf) as HI1. pose proof (Count_assign p s1 m).
    destruct (sess_realms s1); [|apply good_same; [done|lia]].
    eapply (good_erase events p s1); [done|lia|]. by rewrite deref_assign, decide_True, Hp.
  - unfold DiscardAttachSession. destruct (find_attach a m) as [p|] eqn:E; [|by apply good_same].
    apply find_some in E as [Hin _]. apply list_elem_of_In, (mi_index events m HI) in Hin as (s & Hs & _).
    by eapply good_erase.
  - destruct (Purge_ok events m HI) as (b & gone & -> & _). apply good_same; [by apply MInv_dispose|apply Count_dispose].
  - apply good_same; by apply (Cleanup_ok events).
  - by apply good_same.
  - apply good_same; [by apply (MInv_events events)|done].
  - apply good_same; [by apply (MInv_events events)|done].
  - destruct Hl as (Hs & s0 & Hp & Ha). rewrite Hp. cbn [is_null].
    apply good_same; [by apply (MInv_assign events p s s0)|by rewrite Count_assign].
Qed.

Lemma MInv_new timeout size node p :
  (0 < size -> 0 <= node < size /\ size < 2 ^ 32) -> MInv true (SessionManager_new timeout size node p).
Proof.
  intros Hc. split; cbn; try done; try constructor; try (by intros ? ?%elem_of_nil).
  - by intros ?%elem_of_nil.
  - by intros (? & ? & _).
Qed.

(** The managers that a program which observes the rules can have; are the events enabled, and how many sessions were
    loaded or inserted? *)
Inductive mreach (size node timeout : Z) (p : prng_state) : bool -> Z -> SessionManager -> Prop :=
| mreach_new : mreach size node timeout p true 0 (SessionManager_new timeout size node p)
| mreach_step events n m op m' :
    mreach size node timeout p events n m -> legal op m -> exec op m = Some m' ->
    mreach size node timeout p (events_after op events) (n + imported op m) m'.

(** C6: In every state that a sequence of operations (all public operations of the manager and
    modifications of leased sessions that keep them well-formed) can reach, the session manager satisfies its
    invariant: in particular, the second index contains exactly the sessions with an "attach" value, whose
    values are different, and unless the events are disabled, a cleanup timer is pending if there are
    sessions.  It has no more than MAX_SESSIONS sessions, not counting those that Load() and Insert() have
    added without looking at this limit.  Every further operation succeeds: no assertion fails and no deleted session is
    used.  Callers pass an "attach" value that is not empty and a lease of a living session; the sessions that they
    insert or load are well-formed and the file has no null string where a name is expected. *)
Theorem manager_safe size node timeout p events n m :
  (0 < size -> 0 <= node < size /\ size < 2 ^ 32) ->
  mreach size node timeout p events n m ->
  MInv events m /\ Count m <= MAX_SESSIONS + n /\ forall op, legal op m -> is_Some (exec op m).
Proof.
  intros Hc Hr.
  assert (H : MInv events m /\ Count m <= MAX_SESSIONS + n /\ 0 <= n).
  { induction Hr as [|events n m op m' Hr (IH1 & IH2 & IH3) Hl E].
    - split; [by apply MInv_new|]. split; [done|lia].
    - assert (0 <= imported op m) by (destruct op; simpl; lia).
      destruct (exec_good op events m IH1 Hl) as (m1 & E1 & HI1 & Hc1). simplify_eq. split; [done|lia]. }
  destruct H as (HI & Hm & _). split; [done|]. split; [done|]. intros op Hl.
  destruct (exec_good op events m HI Hl) as (m' & -> & _). by eexists.
Qed.

(** A session with one realm session, which has neither widgets nor cookies. *)
Definition plain (s : Session) : bool :=
  match sess_realms s with
  | [(_, r)] => match realm_widgets r, realm_cookies r with [], [] => true | _, _ => false end
  | _ => false
  end.

Lemma plain_wf s : plain s = true -> session_wf s.
Proof.
  unfold plain. destruct (sess_realms s) as [|[k r] [|? ?]] eqn:Er; try discriminate.
  destruct (realm_widgets r) eqn:Ew, (realm_cookies r) eqn:Ec; try discriminate. intros _. split; rewrite Er.
  - repeat constructor.
  - intros k' r'. simpl. case_decide; [|done]. intros [= <-]. split; rewrite ?Ew, ?Ec; [apply set_wf_nil|].
    split; constructor.
Qed.

End Operations.

(** ** Examples *)

Module ManagerExamples.

#[local] Instance StringAddress : HttpAddressType := {| HttpAddress := bytes |}.
#[local] Instance Lcg : Prng :=
  {| prng_state := Z;
     prng_next p := (p, (p * 6364136223846793005 + 1442695040888963407) mod 2 ^ 64) |}.
#[local] Instance FrontInsert : HashSetOrder :=
  {| hs_insert A x l := x :: l; hs_insert_perm A x l := reflexivity _ |}.

#[local] Instance Abi : SessionAbi := {| sizeof_Session := 416 |}.

Definition t0 : Expiry := tp_of_Z 1000.
Definition seed : prng_state := 1.

(** Two sessions with different "attach" values. *)
Definition op1 : mop := OpAttach t0 None (str "realm") (str "foo").
Definition op2 : mop := OpAttach t0 None (str "realm") (str "bar").

Definition m0 : SessionManager := SessionManager_new 1200 10 3 seed.
Definition m1 : SessionManager := default m0 (exec op1 m0).
Definition m2 : SessionManager := default m0 (exec op2 m1).

Lemma cluster_ok : 0 < 10 -> 0 <= 3 < 10 /\ 10 < 2 ^ 32.
Proof. lia. Qed.

Lemma legal1 m : legal op1 m.
Proof. by split. Qed.
Lemma legal2 m : legal op2 m.
Proof. by split. Qed.

Lemma m1_ok : exec op1 m0 = Some m1 /\ MInv true m1.
Proof.
  destruct (exec_good op1 true m0 (MInv_new _ _ _ _ cluster_ok) (legal1 m0)) as (m' & E & HI & _).
  unfold m1. rewrite E. by split.
Qed.

Lemma m2_ok : exec op2 m1 = Some m2 /\ MInv true m2.
Proof.
  destruct (exec_good op2 true m1 (proj2 m1_ok) (legal2 m1)) as (m' & E & HI & _).
  unfold m2. rewrite E. by split.
Qed.

Lemma m2_leased : leased m2 (0%nat, str "realm").
Proof.
  assert (H : match deref m2 0%nat with
              | Some s => negb (is_null (smap_find (str "realm") (sess_realms s)))
              | None => false
              end = true) by (vm_compute; reflexivity).
  unfold leased. cbn [fst snd]. destruct (deref m2 0%nat) as [s|]; [|done]. exists s.
  split; [done|]. destruct (smap_find _ _); [by eexists|done].
Qed.

Lemma Purge_spec_witness :
  exists gone, Purge m2 = Some (negb (bool_decide (sessions m2 = [])), dispose gone m2) /\
    MInv true (dispose gone m2) /\ purged m2 gone.
Proof. apply (Purge_spec true m2). exact (proj2 m2_ok). Defined.

Lemma Attach_spec_witness :
  exists l m', Attach t0 (Some (0%nat, str "realm")) (str "realm") (str "bar") m2 = Some (l, m') /\
    attached true m2 (Some (0%nat, str "realm")) (str "bar") l m' /\
    forall q t, deref m' q = Some t -> sess_attach t = Some (str "bar") -> q = fst l.
Proof.
  apply (Attach_spec true t0 (Some (0%nat, str "realm")) (str "realm") (str "bar") m2).
  - exact (proj2 m2_ok).
  - discriminate.
  - intros l [= <-]. apply m2_leased.
Defined.

(** A session file is loaded, and then the events are disabled. *)
Definition realm_session : Session :=
  mkSession (mkSessionId 1 2) (mkSessionId 3 4) Never 42 true None None None None None [(str "r", RealmSession_new)].

Definition file : bytes := Eval vm_compute in default [] (session_manager_save t0 [realm_session]).

Definition op3 : mop := OpLoad t0 file.
Definition m3 : SessionManager := default m0 (exec op3 m2).
Definition m4 : SessionManager := DisableEvents m3.

Lemma legal3 : legal op3 m2.
Proof.
  split; [|assert (E : snd (Load_sessions t0 (prng m2) file) = Loaded true) by (vm_compute; reflexivity); by rewrite E].
  assert (E : forallb plain (loaded_sessions t0 file m2) = true) by (vm_compute; reflexivity).
  rewrite forallb_forall in E. apply Forall_forall. intros s Hs. by apply plain_wf, E, list_elem_of_In.
Qed.

Lemma m3_ok : exec op3 m2 = Some m3.
Proof.
  destruct (exec_good op3 true m2 (proj2 m2_ok) legal3) as (m' & E & _). unfold m3. by rewrite E.
Qed.

Lemma manager_safe_witness :
  MInv false m4 /\ Count m4 = 3 /\ (forall op, legal op m4 -> is_Some (exec op m4)) /\
  Count m4 <= MAX_SESSIONS + 1.
Proof.
  destruct (manager_safe 10 3 1200 seed false (0 + 0 + 0 + 1 + 0) m4) as (H1 & H2 & H3); [apply cluster_ok| |].
  - assert (Ei : imported op3 m2 = 1) by (vm_compute; reflexivity).
    rewrite <-Ei. apply (mreach_step 10 3 1200 seed true _ m3 OpDisableEvents m4); [|done|done].
    apply (mreach_step 10 3 1200 seed true _ m2 op3 m3); [|exact legal3|exact m3_ok].
    apply (mreach_step 10 3 1200 seed true _ m1 op2 m2); [|apply legal2|exact (proj1 m2_ok)].
    apply (mreach_step 10 3 1200 seed true _ m0 op1 m1); [constructor|apply legal1|exact (proj1 m1_ok)].
  - split; [exact H1|]. split; [by vm_compute|]. split; [exact H3|exact H2].
Defined.

End ManagerExamples.
