(* ===== verification/Cache.v ===== *)
(** * The cache

    Models src/cache/Cache.hxx, Cache.cxx, Item.hxx and Item.cxx: a cache
    with a size limit, which evicts the items that were least recently used,
    and whose items can be leased, so that they outlive their removal.

    The items are objects with addresses; [store] has those that are not
    destroyed.  The cache itself has two containers of them: the hash set
    [items] and the list [sorted_items], oldest access first.  [None] is a
    failed assertion or an access to a destroyed item. *)

From S2P Require Import Prelude.

Record CacheItem := mkCacheItem {
  item_key : list Z;
  item_expires : Z;
  item_size : Z;
  (** the number of leases that exist *)
  item_leases : nat }.

(** ** Items *)

Definition item_ptr := nat.

Definition ToSteady (steady_now system_now t : Z) : Z :=
  if system_now <? t then steady_now + (t - system_now) else 0.

Definition CacheItem_new (key : list Z) (size expires : Z) : CacheItem :=
  mkCacheItem key expires size 0.

Definition CacheItem_new_system (key : list Z) (size now system_now expires : Z) : CacheItem :=
  CacheItem_new key size (ToSteady now system_now expires).

Definition CacheItem_new_max_age (key : list Z) (size now max_age : Z) : CacheItem :=
  CacheItem_new key size (now + max_age).

Definition IsAbandoned (item : CacheItem) : bool := (item_leases item =? 0)%nat.

Inductive cache_event := ItemAdded (p : item_ptr) | ItemDropped (p : item_ptr).

Record Cache := mkCache {
  max_size : Z;
  cache_size : Z;
  items : list item_ptr;
  sorted_items : list item_ptr;
  timer_enabled : bool;
  store : gmap item_ptr CacheItem;
  next_item : item_ptr;
  (** the calls of the [CacheHandler] *)
  handler_log : list cache_event }.

Section Ops.
Context `{HS : HashSetOrder}.
Open Scope beng_scope.

Abbreviation C := (M Cache).

Definition Cache_new (max_size : Z) : Cache := mkCache max_size 0 [] [] false ∅ O [].

(** ** Access to the fields *)

Definition set_size x (c : Cache) := mkCache (max_size c) x (items c) (sorted_items c)
  (timer_enabled c) (store c) (next_item c) (handler_log c).
Definition set_items x (c : Cache) := mkCache (max_size c) (cache_size c) x (sorted_items c)
  (timer_enabled c) (store c) (next_item c) (handler_log c).
Definition set_sorted x (c : Cache) := mkCache (max_size c) (cache_size c) (items c) x
  (timer_enabled c) (store c) (next_item c) (handler_log c).
Definition set_timer x (c : Cache) := mkCache (max_size c) (cache_size c) (items c) (sorted_items c)
  x (store c) (next_item c) (handler_log c).
Definition set_store x (c : Cache) := mkCache (max_size c) (cache_size c) (items c) (sorted_items c)
  (timer_enabled c) x (next_item c) (handler_log c).
Definition set_next x (c : Cache) := mkCache (max_size c) (cache_size c) (items c) (sorted_items c)
  (timer_enabled c) (store c) x (handler_log c).
Definition set_log x (c : Cache) := mkCache (max_size c) (cache_size c) (items c) (sorted_items c)
  (timer_enabled c) (store c) (next_item c) x.

Definition without (p : item_ptr) (l : list item_ptr) : list item_ptr := filter (fun q => q <> p) l.

Definition item (p : item_ptr) : C CacheItem := fun c =>
  match store c !! p with Some i => Some (i, c) | None => None end.

Definition linked (p : item_ptr) : C bool := mgets (fun c => bool_decide (p ∈ sorted_items c)).

(** ** Operations on items *)

(** [CacheItem::IsRemoved()] *)
Definition IsRemoved (p : item_ptr) : C bool := let! b := linked p in mret (negb b).

Definition Destroy (p : item_ptr) : C unit :=
  item p ;;; mmod (fun c => set_store (delete p (store c)) c).

Definition Release (p : item_ptr) : C unit :=
  let! i := item p in if IsAbandoned i then Destroy p else mret tt.

(** [CacheItem::SetExpires()] *)
Definition SetExpires (expires : Z) (p : item_ptr) : C unit :=
  let! i := item p in
  mmod (fun c => set_store (<[p := mkCacheItem (item_key i) expires (item_size i) (item_leases i)]> (store c)) c).

(** [validate] is the result of the virtual method [Validate()]. *)
Definition Validate (validate : item_ptr -> bool) (now : Z) (p : item_ptr) : C bool :=
  let! i := item p in mret ((now <? item_expires i) && validate p).

(** A new lease, and the end of one, which calls [OnAbandoned()] when it was
    the last. *)
Definition AddLease (p : item_ptr) : C unit :=
  let! i := item p in
  mmod (fun c => set_store (<[p := mkCacheItem (item_key i) (item_expires i) (item_size i)
                                     (S (item_leases i))]> (store c)) c).

Definition OnAbandoned (p : item_ptr) : C unit :=
  let! removed := IsRemoved p in if removed : bool then Destroy p else mret tt.

Definition DropLease (p : item_ptr) : C unit :=
  let! i := item p in
  massert (negb (item_leases i =? 0)%nat) ;;;
  mmod (fun c => set_store (<[p := mkCacheItem (item_key i) (item_expires i) (item_size i)
                                     (pred (item_leases i))]> (store c)) c) ;;;
  if (item_leases i =? 1)%nat then OnAbandoned p else mret tt.

(** ** Operations on the cache *)

Definition ItemRemoved (p : item_ptr) : C unit :=
  let! i := item p in
  massert (0 <? item_size i) ;;;
  let! removed := IsRemoved p in
  massert (negb (IsAbandoned i) || negb removed) ;;;
  let! c := mget in
  massert (item_size i <=? cache_size c) ;;;
  massert (negb removed) ;;;
  mmod (fun c => set_sorted (without p (sorted_items c)) c) ;;;
  mmod (fun c => set_size (cache_size c - item_size i) c) ;;;
  mmod (fun c => set_log (handler_log c ++ [ItemDropped p]) c) ;;;
  Release p ;;;
  let! c := mget in
  if cache_size c =? 0 then mmod (set_timer false) else mret tt.

(** Unlinks an item from the hash set and passes it to [ItemRemover]. *)
Definition erase_and_dispose (p : item_ptr) : C unit :=
  let! c := mget in
  massert (bool_decide (p ∈ items c)) ;;;
  mmod (fun c => set_items (without p (items c)) c) ;;;
  ItemRemoved p.

Definition RemoveItem (p : item_ptr) : C unit :=
  let! removed := IsRemoved p in
  massert (negb removed) ;;; erase_and_dispose p.

Definition Flush : C unit := let! c := mget in mfor (items c) erase_and_dispose.

Definition RefreshItem (p : item_ptr) : C unit :=
  let! b := linked p in
  massert b ;;; mmod (fun c => set_sorted (without p (sorted_items c) ++ [p]) c).

(** [items.find()] *)
Definition find_key (key : list Z) (c : Cache) : option item_ptr :=
  List.find (fun p => match store c !! p with
                      | Some i => bool_decide (item_key i = key)
                      | None => false
                      end) (items c).

Definition Get (validate : item_ptr -> bool) (now : Z) (key : list Z) : C (option item_ptr) :=
  let! i := mgets (find_key key) in
  match i with
  | None => mret None
  | Some p =>
      let! ok := Validate validate now p in
      if negb ok then RemoveItem p ;;; mret None
      else RefreshItem p ;;; mret (Some p)
  end.

(** [expire_find_if()]: looks at the items with the key, in the order of the
    hash set; expired ones are disposed of, and the first other one that
    matches is the result. *)
Fixpoint expire_find (validate : item_ptr -> bool) (now : Z) (match_ : item_ptr -> bool)
  (l : list item_ptr) : C (option item_ptr) :=
  match l with
  | [] => mret None
  | p :: l' =>
      let! ok := Validate validate now p in
      if negb ok then RemoveItem p ;;; expire_find validate now match_ l'
      else if match_ p then mret (Some p)
      else expire_find validate now match_ l'
  end.

(** The items with a key. *)
Definition key_items (key : list Z) (c : Cache) : list item_ptr :=
  List.filter (fun p => match store c !! p with
                        | Some i => bool_decide (item_key i = key)
                        | None => false
                        end) (items c).

Definition GetMatch (validate : item_ptr -> bool) (now : Z) (key : list Z)
  (match_ : item_ptr -> bool) : C (option item_ptr) :=
  let! l := mgets (key_items key) in
  let! i := expire_find validate now match_ l in
  match i with
  | None => mret None
  | Some p => RefreshItem p ;;; mret (Some p)
  end.

Definition DestroyOldestItem : C unit :=
  let! c := mget in
  match sorted_items c with
  | [] => mret tt
  | p :: _ => RemoveItem p
  end.

(** The loop of [NeedRoom()]; [size + _size] is a 64 bit sum. *)
Definition NeedRoom_body (size : Z) : C bool :=
  let! c := mget in
  if wrap 64 (cache_size c + size) <=? max_size c then mret false
  else DestroyOldestItem ;;; mret true.

Definition NeedRoom (size : Z) : C bool :=
  let! c := mget in
  if max_size c <? size then mret false
  else while (Pos.of_succ_nat (length (sorted_items c))) (NeedRoom_body size) ;;; mret true.

(** Links a new item; the result is its address. *)
Definition link_item (i : CacheItem) : C item_ptr :=
  let! p := mgets next_item in
  mmod (fun c => set_next (S p) (set_store (<[p := i]> (store c)) c)) ;;;
  mmod (fun c => set_items (hs_insert p (items c)) c) ;;;
  mmod (fun c => set_sorted (sorted_items c ++ [p]) c) ;;;
  mmod (fun c => set_size (wrap 64 (cache_size c + item_size i)) c) ;;;
  mmod (fun c => set_log (handler_log c ++ [ItemAdded p]) c) ;;;
  mmod (set_timer true) ;;;
  mret p.

(** The result is the address of the new item, or [None] for [false], when
    the item has been destroyed. *)
Definition Add (i : CacheItem) : C (option item_ptr) :=
  let! room := NeedRoom (item_size i) in
  if negb room then mret None
  else let! p := link_item i in mret (Some p).

Definition Put (i : CacheItem) : C (option item_ptr) :=
  massert (0 <? item_size i) ;;;
  massert (IsAbandoned i) ;;;
  let! room := NeedRoom (item_size i) in
  if negb room then mret None
  else
    let! old := mgets (find_key (item_key i)) in
    (match old with Some p => RemoveItem p | None => mret tt end) ;;;
    let! p := link_item i in mret (Some p).

Definition PutMatch (validate : item_ptr -> bool) (now : Z) (i : CacheItem)
  (match_ : item_ptr -> bool) : C (option item_ptr) :=
  let! old := GetMatch validate now (item_key i) match_ in
  massert (0 <? item_size i) ;;;
  massert (IsAbandoned i) ;;;
  (match old with Some p => RemoveItem p | None => mret tt end) ;;;
  Add i.

Definition RemoveKey (key : list Z) : C unit :=
  let! l := mgets (key_items key) in mfor l erase_and_dispose.

Definition RemoveKeyIf (key : list Z) (pred : item_ptr -> bool) : C unit :=
  let! l := mgets (key_items key) in mfor (List.filter pred l) erase_and_dispose.

(** [Remove(CacheItem &)]: the caller has a lease for an item that may have
    been removed. *)
Definition Remove (p : item_ptr) : C unit :=
  let! i := item p in
  let! removed := IsRemoved p in
  if removed : bool then massert (negb (IsAbandoned i)) else RemoveItem p.

(** The loop looks at the items in the order of [sorted_items]. *)
Definition RemoveAllMatch (match_ : item_ptr -> bool) : C Z :=
  let! c := mget in
  let gone := List.filter match_ (sorted_items c) in
  mfor gone erase_and_dispose ;;; mret (Z.of_nat (length gone)).

(** The result decides whether the timer stays enabled. *)
Definition ExpireCallback (now : Z) : C bool :=
  let! c := mget in
  mfor (sorted_items c) (fun p =>
    let! i := item p in
    if now <? item_expires i then mret tt else RemoveItem p) ;;;
  let! c := mget in
  let again := 0 <? cache_size c in
  mmod (set_timer again) ;;; mret again.

(** The destructor. *)
Definition Cache_delete : C unit :=
  let! c := mget in
  mfor (items c) (fun p =>
    let! i := item p in
    massert (IsAbandoned i) ;;;
    let! c := mget in
    massert (item_size i <=? cache_size c) ;;;
    let! b := linked p in
    massert b ;;;
    mmod (fun c => set_items (without p (items c)) c) ;;;
    mmod (fun c => set_size (cache_size c - item_size i) c) ;;;
    mmod (fun c => set_sorted (without p (sorted_items c)) c) ;;;
    Destroy p) ;;;
  let! c := mget in
  massert (cache_size c =? 0) ;;;
  massert (bool_decide (sorted_items c = [])).

End Ops.
