(* ===== verification/CacheFacts.v ===== *)
(** * The cache is correct

    The invariant of the cache, the effect of removing items, eviction, and
    that no sequence of operations destroys a leased item or an item that is
    still in the cache. *)

From S2P Require Import Prelude Cache.

(** ** Sizes *)

Definition sz (c : Cache) (p : item_ptr) : Z := from_option item_size 0 (store c !! p).
Definition total (c : Cache) (l : list item_ptr) : Z := sum_Z (sz c <$> l).

Lemma total_app c l k : total c (l ++ k) = total c l + total c k.
Proof. unfold total. rewrite fmap_app. apply sum_Z_app. Qed.

Lemma total_cons c p l : total c (p :: l) = sz c p + total c l.
Proof. done. Qed.

Lemma total_perm c l k : l ≡ₚ k -> total c l = total c k.
Proof. unfold total. intros E. by rewrite E. Qed.

Lemma total_ext c c' l : (forall p, p ∈ l -> sz c p = sz c' p) -> total c l = total c' l.
Proof.
  unfold total. induction l as [|p l IH]; intros H; simpl; [done|].
  rewrite H by left. f_equal. apply IH. intros q Hq. apply H. by right.
Qed.

Lemma without_not_in p l : p ∉ l -> without p l = l.
Proof. intros H. apply filter_all. intros q Hq ->. done. Qed.

Lemma without_perm p l : NoDup l -> p ∈ l -> l ≡ₚ p :: without p l.
Proof.
  intros Hn Hin. unfold without. apply NoDup_Permutation; [done| |].
  - apply NoDup_cons. split; [|by apply NoDup_filter]. rewrite list_elem_of_filter. naive_solver.
  - intros q. rewrite elem_of_cons, list_elem_of_filter. destruct (decide (q = p)); naive_solver.
Qed.

Lemma total_without c p l : NoDup l -> p ∈ l -> total c (without p l) = total c l - sz c p.
Proof. intros Hn Hin. rewrite (total_perm c l _ (without_perm p l Hn Hin)). rewrite total_cons. lia. Qed.

Lemma elem_of_without p q l : q ∈ without p l <-> q ∈ l /\ q <> p.
Proof. unfold without. rewrite list_elem_of_filter. tauto. Qed.

(** ** The invariant *)

Record CacheInv (c : Cache) : Prop := {
  ci_nodup : NoDup (sorted_items c);
  ci_items : items c ≡ₚ sorted_items c;
  ci_live : forall p, p ∈ sorted_items c -> exists i, store c !! p = Some i /\ 0 < item_size i;
  ci_size : cache_size c = total c (sorted_items c);
  ci_limit : cache_size c <= max_size c;
  ci_max : 0 <= max_size c < 2 ^ 63;
  (** an item that is not in the cache any more exists only while leased *)
  ci_detached : forall p i, store c !! p = Some i -> p ∉ sorted_items c -> item_leases i <> O;
  ci_fresh : forall (p : item_ptr) i, store c !! p = Some i -> (p < next_item c)%nat;
  ci_timer : sorted_items c <> [] -> timer_enabled c = true }.

Lemma total_nonneg c l :
  (forall p, p ∈ l -> exists i, store c !! p = Some i /\ 0 < item_size i) -> 0 <= total c l.
Proof.
  induction l as [|p l IH]; intros H; [done|]. rewrite total_cons.
  destruct (H p) as (i & Hi & Hs); [left|]. unfold sz. rewrite Hi. simpl.
  assert (0 <= total c l); [|lia]. apply IH. intros q Hq. apply H. by right.
Qed.

Lemma total_pos c l p :
  (forall p, p ∈ l -> exists i, store c !! p = Some i /\ 0 < item_size i) -> p ∈ l ->
  sz c p <= total c l.
Proof.
  intros H Hp. apply list_elem_of_split in Hp as (l1 & l2 & ->).
  rewrite total_app, total_cons. assert (0 <= total c l1) by (apply total_nonneg; set_solver).
  assert (0 <= total c l2) by (apply total_nonneg; set_solver).
  lia.
Qed.

(** The cache after the item [i] at [p] has been removed. *)
Definition dropped (p : item_ptr) (i : CacheItem) (c : Cache) : Cache :=
  mkCache (max_size c) (cache_size c - item_size i) (without p (items c))
    (without p (sorted_items c))
    (if cache_size c - item_size i =? 0 then false else timer_enabled c)
    (if IsAbandoned i then delete p (store c) else store c) (next_item c)
    (handler_log c ++ [ItemDropped p]).

Section Facts.
Context `{HS : HashSetOrder}.

Lemma dropped_store p i c q : q <> p -> store (dropped p i c) !! q = store c !! q.
Proof. intros Hq. cbn. destruct (IsAbandoned i); [|done]. by rewrite lookup_delete_ne. Qed.

Lemma dropped_total p i c :
  CacheInv c -> p ∈ sorted_items c -> store c !! p = Some i ->
  total (dropped p i c) (without p (sorted_items c)) = cache_size c - item_size i.
Proof.
  intros HI Hp Hi. rewrite (total_ext _ c).
  - rewrite total_without by (done || apply HI). rewrite (ci_size c HI). unfold sz. by rewrite Hi.
  - intros q [_ Hq]%elem_of_without. unfold sz. by rewrite dropped_store.
Qed.

Lemma dropped_inv p i c :
  CacheInv c -> p ∈ sorted_items c -> store c !! p = Some i -> CacheInv (dropped p i c).
Proof.
  intros HI Hp Hi. pose proof (dropped_total p i c HI Hp Hi) as Ht.
  destruct (ci_live c HI p Hp) as (i' & Hi' & Hs). assert (i' = i) as -> by congruence.
  assert (Hl : forall q, q ∈ without p (sorted_items c) ->
    exists j, store (dropped p i c) !! q = Some j /\ 0 < item_size j).
  { intros q [Hq Hne]%elem_of_without. rewrite dropped_store by done. by apply HI. }
  split; cbn [dropped sorted_items items max_size cache_size timer_enabled next_item].
  - apply NoDup_filter, HI.
  - unfold without. by rewrite (ci_items c HI).
  - exact Hl.
  - by rewrite Ht.
  - pose proof (ci_limit c HI). lia.
  - apply HI.
  - intros q j Hq Hn. destruct (decide (q = p)) as [->|Hne].
    + cbn in Hq. unfold IsAbandoned in Hq. destruct (item_leases i =? 0)%nat eqn:E.
      * by rewrite lookup_delete_eq in Hq.
      * apply Nat.eqb_neq in E. congruence.
    + rewrite dropped_store in Hq by done. eapply (ci_detached c HI); [exact Hq|].
      intros Hin. apply Hn. by apply elem_of_without.
  - intros q j Hq. cbn in Hq. apply (ci_fresh c HI q j).
    destruct (IsAbandoned i); [by apply lookup_delete_Some in Hq as [_ ?]|done].
  - intros Hne. destruct (cache_size c - item_size i =? 0) eqn:E; simpl_bool.
    + destruct (without p (sorted_items c)) as [|q l] eqn:Ew; [done|].
      pose proof (total_pos _ _ q Hl ltac:(left)) as Hq.
      destruct (Hl q ltac:(left)) as (j & Hj & Hjs). unfold sz in Hq. rewrite Hj in Hq. simpl in Hq. lia.
    + apply (ci_timer c HI). intros En. by rewrite En in Hp; apply elem_of_nil in Hp.
Qed.

Lemma erase_and_dispose_eq p i c :
  CacheInv c -> p ∈ sorted_items c -> store c !! p = Some i ->
  erase_and_dispose p c = Some (tt, dropped p i c).
Proof.
  intros HI Hp Hi. destruct (ci_live c HI p Hp) as (i' & Hi' & Hs).
  assert (i' = i) as -> by congruence.
  assert (Hle : item_size i <= cache_size c).
  { rewrite (ci_size c HI). pose proof (total_pos c _ p (ci_live c HI) Hp) as H.
    unfold sz in H. by rewrite Hi in H. }
  assert (Hit : p ∈ items c) by (by rewrite (ci_items c HI)).
  unfold erase_and_dispose, ItemRemoved, IsRemoved, linked, item, mbnd, mget, mgets, mmod, mret, massert.
  rewrite bool_decide_eq_true_2 by done. unfold mret. cbn [set_items store].
  rewrite Hi. rewrite (proj2 (Z.ltb_lt 0 (item_size i))) by done. cbn [sorted_items cache_size].
  rewrite (bool_decide_eq_true_2 (p ∈ sorted_items c)) by done. cbn [negb]. rewrite orb_true_r.
  rewrite (proj2 (Z.leb_le _ _)) by done. cbn [sorted_items].
  unfold Release, Destroy, item, mbnd, mmod, mret. cbn. rewrite Hi. unfold dropped.
  destruct (IsAbandoned i); cbn; rewrite ?Hi; cbn; by destruct (cache_size c - item_size i =? 0).
Qed.

(** ** What operations may change *)

(** Leased items stay as they are, no item is modified, and an address is
    used only once. *)
Record evolves (c c' : Cache) : Prop := {
  ev_max : max_size c' = max_size c;
  ev_next : (next_item c <= next_item c')%nat;
  ev_leased : forall p i, store c !! p = Some i -> item_leases i <> O -> store c' !! p = Some i;
  ev_same : forall (p : item_ptr) i, (p < next_item c)%nat -> store c' !! p = Some i -> store c !! p = Some i;
  ev_sorted : forall (p : item_ptr), (p < next_item c)%nat -> p ∈ sorted_items c' -> p ∈ sorted_items c }.

#[export] Instance evolves_preorder : PreOrder evolves.
Proof.
  split.
  - intros c. by split.
  - intros a b c [A1 A2 A3 A4 A5] [B1 B2 B3 B4 B5]. split; [congruence|lia|auto| |].
    + intros p i Hp Hi. apply A4; [done|]. apply B4; [lia|done].
    + intros p Hp Hi. apply A5; [done|]. apply B5; [lia|done].
Qed.

Lemma dropped_evolves p i c : store c !! p = Some i -> evolves c (dropped p i c).
Proof.
  intros Hi. split; cbn; [done|done| | |].
  - intros q j Hj Hl. destruct (IsAbandoned i) eqn:E; [|done].
    rewrite lookup_delete_ne; [done|]. intros ->. unfold IsAbandoned in E. apply Nat.eqb_eq in E. congruence.
  - intros q j _ Hj. destruct (IsAbandoned i); [by apply lookup_delete_Some in Hj as [_ ?]|done].
  - intros q _ Hq. by apply elem_of_without in Hq as [? _].
Qed.

(** A step of a larger operation: the invariant holds again, the changes are
    allowed. *)
Definition step_ok (c c' : Cache) : Prop := CacheInv c' /\ evolves c c'.

Lemma wp_erase (Q : unit -> Cache -> Prop) p c :
  CacheInv c -> p ∈ sorted_items c ->
  (forall i, store c !! p = Some i -> step_ok c (dropped p i c) -> Q tt (dropped p i c)) ->
  wp (erase_and_dispose p) Q c.
Proof.
  intros HI Hp HQ. destruct (ci_live c HI p Hp) as (i & Hi & _).
  exists tt, (dropped p i c). split; [by apply erase_and_dispose_eq|]. apply HQ; [done|].
  split; [by apply dropped_inv|by apply dropped_evolves].
Qed.

Lemma wp_RemoveItem (Q : unit -> Cache -> Prop) p c :
  CacheInv c -> p ∈ sorted_items c ->
  (forall i, store c !! p = Some i -> step_ok c (dropped p i c) -> Q tt (dropped p i c)) ->
  wp (RemoveItem p) Q c.
Proof.
  intros HI Hp HQ. unfold RemoveItem, IsRemoved, linked. repeat wp_step.
  - by rewrite bool_decide_eq_true_2.
  - by apply wp_erase.
Qed.

Lemma wp_item p i c (Q : CacheItem -> Cache -> Prop) :
  store c !! p = Some i -> Q i c -> wp (item p) Q c.
Proof. intros Hi HQ. exists i, c. unfold item. by rewrite Hi. Qed.

(** Removing a list of items. *)
Lemma wp_remove_all l c :
  CacheInv c -> NoDup l -> (forall p, p ∈ l -> p ∈ sorted_items c) ->
  wp (mfor l erase_and_dispose)
    (fun _ c' => step_ok c c' /\ sorted_items c' = filter (fun p => p ∉ l) (sorted_items c)) c.
Proof.
  intros HI Hn Hl.
  eapply wp_mono.
  - apply (wp_mfor (fun l' c' => step_ok c c' /\ NoDup l' /\ (forall p, p ∈ l' -> p ∈ sorted_items c') /\
      filter (fun p => p ∉ l') (sorted_items c') = filter (fun p => p ∉ l) (sorted_items c))).
    + intros p l' c' ((HI' & He) & Hn' & Hl' & Hf). apply NoDup_cons in Hn' as [Hp Hn'].
      apply wp_erase; [done|apply Hl'; left|]. intros i Hi [HI2 He2]. split_and!.
      * split; [done|by etrans].
      * done.
      * intros q Hq. cbn. apply elem_of_without. split; [apply Hl'; by right|]. by intros ->.
      * rewrite <-Hf. cbn. unfold without. rewrite list_filter_filter. apply list_filter_iff. set_solver.
    + split_and!; [split; [done|reflexivity]|done|done|done].
  - intros [] c' (Hs & _ & _ & Hf). split; [done|]. rewrite <-Hf. symmetry. apply filter_all. set_solver.
Qed.

(** ** Eviction *)

Lemma cache_size_nonneg c : CacheInv c -> 0 <= cache_size c.
Proof. intros HI. rewrite (ci_size c HI). apply total_nonneg, HI. Qed.

Lemma wrap_sum c size : CacheInv c -> 0 <= size <= max_size c ->
  wrap 64 (cache_size c + size) = cache_size c + size.
Proof.
  intros HI Hs. pose proof (ci_limit c HI). pose proof (ci_max c HI).
  pose proof (cache_size_nonneg c HI). apply wrap_id. lia.
Qed.

(** The first [k] items of the list are evicted, and each of them was
    necessary. *)
Definition evicted (c c' : Cache) (size : Z) (k : nat) : Prop :=
  sorted_items c' = drop k (sorted_items c) /\
  (forall j, (j < k)%nat -> max_size c < total c (drop j (sorted_items c)) + size) /\
  forall p, p ∈ sorted_items c' -> store c' !! p = store c !! p.

Lemma evicted_total c c' size k : CacheInv c' -> evicted c c' size k ->
  cache_size c' = total c (drop k (sorted_items c)).
Proof.
  intros HI (E & _ & Hp). rewrite (ci_size c' HI), <-E. apply total_ext.
  intros p Hin. unfold sz. by rewrite Hp.
Qed.

Lemma wp_NeedRoom c size :
  CacheInv c -> 0 <= size ->
  wp (NeedRoom size) (fun room c' =>
    step_ok c c' /\ room = (size <=? max_size c) /\
    if room : bool then cache_size c' + size <= max_size c /\ exists k, evicted c c' size k
    else c' = c) c.
Proof.
  intros HI Hs. unfold NeedRoom. repeat wp_step.
  destruct (max_size c <? size) eqn:E; simpl_bool.
  { apply wp_ret. split; [split; [done|reflexivity]|]. split; [|done]. symmetry. apply Z.leb_gt. lia. }
  apply wp_bind.
  eapply wp_mono.
  - apply (while_wp (NeedRoom_body size)
      (fun n c' => step_ok c c' /\ exists k, evicted c c' size k /\
                   n = Z.of_nat (length (sorted_items c')))
      (fun c' => step_ok c c' /\ cache_size c' + size <= max_size c /\ exists k, evicted c c' size k))
      with (m := Z.of_nat (length (sorted_items c))).
    + intros n c' (_ & k & _ & ->). lia.
    + intros n c' ([HI' He] & k & Hk & ->). unfold NeedRoom_body. repeat wp_step.
      pose proof (evicted_total c c' size k HI' Hk) as Ht.
      rewrite wrap_sum by (done || rewrite (ev_max _ _ He); lia). rewrite (ev_max _ _ He).
      destruct (cache_size c' + size <=? max_size c) eqn:F; simpl_bool.
      { apply wp_ret. split; [done|]. split; [lia|by exists k]. }
      unfold DestroyOldestItem. repeat wp_step.
      destruct (sorted_items c') as [|p l] eqn:Es.
      { pose proof (ci_size c' HI') as H0. rewrite Es in H0. change (total c' []) with 0 in H0. lia. }
      apply wp_RemoveItem; [done|rewrite Es; left|]. intros i Hi [HI2 He2].
      apply wp_ret. exists (Z.of_nat (length l)). split; [|simpl; lia].
      assert (Hl : sorted_items (dropped p i c') = l).
      { cbn. rewrite Es. pose proof (ci_nodup c' HI') as Hn. rewrite Es in Hn. apply NoDup_cons in Hn as [Hn _].
        unfold without. rewrite filter_cons_False by naive_solver. by apply without_not_in. }
      split; [split; [done|by etrans]|]. exists (S k). rewrite Hl. split; [|done].
      destruct Hk as (K1 & K2 & K3). rewrite Es in K1. split_and!.
      * rewrite Hl. replace (S k) with (k + 1)%nat by lia. by rewrite <-drop_drop, <-K1.
      * intros j Hj. destruct (decide (j = k)) as [->|]; [lia|apply K2; lia].
      * intros q Hq. rewrite dropped_store; [apply K3; rewrite Es; right; by rewrite Hl in Hq|].
        intros ->. cbn in Hq. by apply elem_of_without in Hq as [_ ?].
    + split; [split; [done|reflexivity]|]. exists 0%nat. split; [|done]. split; [done|]. split; [lia|done].
    + lia.
  - intros [] c' (H1 & H2 & H3). apply wp_ret. split; [done|]. split; [|done]. symmetry. apply Z.leb_le. lia.
Qed.

(** ** Inserting *)

Lemma fresh_None c : CacheInv c -> store c !! next_item c = None.
Proof.
  intros HI. destruct (store c !! next_item c) as [i|] eqn:E; [|done].
  apply (ci_fresh c HI) in E. lia.
Qed.

Lemma fresh_not_linked c : CacheInv c -> next_item c ∉ sorted_items c.
Proof.
  intros HI Hin. destruct (ci_live c HI _ Hin) as (i & Hi & _). by rewrite fresh_None in Hi.
Qed.

(** The cache after the new item [i] has been linked. *)
Definition linked_item (i : CacheItem) (c : Cache) : Cache :=
  mkCache (max_size c) (wrap 64 (cache_size c + item_size i)) (hs_insert (next_item c) (items c))
    (sorted_items c ++ [next_item c]) true (<[next_item c := i]> (store c)) (S (next_item c))
    (handler_log c ++ [ItemAdded (next_item c)]).

Lemma link_item_eq i c : link_item i c = Some (next_item c, linked_item i c).
Proof. reflexivity. Qed.

Definition new_item_ok (i : CacheItem) : Prop := 0 < item_size i /\ item_leases i = O.

Lemma linked_item_ok i c :
  CacheInv c -> new_item_ok i -> cache_size c + item_size i <= max_size c ->
  step_ok c (linked_item i c).
Proof.
  intros HI [Hi Hl] Hs. pose proof (cache_size_nonneg c HI). pose proof (fresh_not_linked c HI) as Hn. pose proof (fresh_None c HI) as Hf.
  assert (Hother : forall q, q ∈ sorted_items c -> <[next_item c := i]> (store c) !! q = store c !! q).
  { intros q Hq. apply lookup_insert_ne. by intros <-. }
  split; [split|split]; cbn [linked_item max_size cache_size items sorted_items timer_enabled store next_item].
  - apply NoDup_app. split; [apply HI|]. split; [|apply NoDup_singleton].
    intros q Hq. rewrite list_elem_of_singleton. by intros ->.
  - rewrite hs_insert_perm, (ci_items c HI). by rewrite Permutation_app_comm.
  - intros q [Hq|Hq]%elem_of_app.
    + rewrite Hother by done. by apply HI.
    + apply list_elem_of_singleton in Hq as ->. rewrite lookup_insert_eq. by exists i.
  - rewrite wrap_sum by (done || lia). rewrite total_app, total_cons, (ci_size c HI).
    change (total _ []) with 0. f_equal.
    + apply total_ext. intros q Hq. unfold sz. cbn. by rewrite Hother.
    + unfold sz. cbn. rewrite lookup_insert_eq. simpl. lia.
  - rewrite wrap_sum by (done || lia). done.
  - apply HI.
  - intros q j Hq Hnq. rewrite not_elem_of_app, list_elem_of_singleton in Hnq. destruct Hnq as [H1 H2].
    rewrite lookup_insert_ne in Hq by done. by eapply (ci_detached c HI).
  - intros q j Hq. apply lookup_insert_Some in Hq as [[<- _]|[_ Hq]]; [lia|].
    apply (ci_fresh c HI) in Hq. lia.
  - done.
  - done.
  - lia.
  - intros q j Hq _. rewrite lookup_insert_ne; [done|]. by intros <-; rewrite Hf in Hq.
  - intros q j Hq. rewrite lookup_insert_ne by lia. done.
  - intros q Hq [?|?]%elem_of_app; [done|]. set_solver by lia.
Qed.

Lemma wp_link i c (Q : item_ptr -> Cache -> Prop) :
  CacheInv c -> new_item_ok i -> cache_size c + item_size i <= max_size c ->
  (step_ok c (linked_item i c) -> Q (next_item c) (linked_item i c)) -> wp (link_item i) Q c.
Proof.
  intros HI Hi Hs HQ. exists (next_item c), (linked_item i c). split; [apply link_item_eq|].
  by apply HQ, linked_item_ok.
Qed.

(** What [Add()], [Put()] and [PutMatch()] return. *)
Definition added (c : Cache) (i : CacheItem) (r : option item_ptr) (c' : Cache) : Prop :=
  step_ok c c' /\
  match r with
  | Some p => (next_item c <= p)%nat /\ store c' !! p = Some i /\ last (sorted_items c') = Some p
  | None => max_size c < item_size i
  end.

Lemma added_trans c c1 i r c' : step_ok c c1 -> added c1 i r c' -> added c i r c'.
Proof.
  intros [H1 He] [[H2 He'] Hr]. split; [split; [done|by etrans]|]. destruct r.
  - destruct Hr as (Hn & ? & ?). split; [|done]. pose proof (ev_next _ _ He). lia.
  - by rewrite <-(ev_max _ _ He).
Qed.

Lemma added_link c c1 i :
  step_ok c c1 -> step_ok c1 (linked_item i c1) -> added c i (Some (next_item c1)) (linked_item i c1).
Proof.
  intros [H1 He] [H2 He']. split; [split; [done|by etrans]|]. split_and!.
  - apply (ev_next _ _ He).
  - cbn. apply lookup_insert_eq.
  - cbn. apply last_snoc.
Qed.

Lemma wp_Add i c : CacheInv c -> new_item_ok i -> wp (Add i) (added c i) c.
Proof.
  intros HI Hi. unfold Add. apply wp_bind. eapply wp_mono; [apply wp_NeedRoom; [done|destruct Hi; lia]|].
  intros room c1 ([HI1 He1] & Hr & Hroom). destruct room; cbn [negb].
  - destruct Hroom as [Hs _]. apply wp_bind, wp_link; [done|done|by rewrite (ev_max _ _ He1)|].
    intros Hok. apply wp_ret. by apply added_link.
  - subst c1. apply wp_ret. split; [done|]. symmetry in Hr. simpl_bool. lia.
Qed.

Lemma find_key_Some key c p :
  CacheInv c -> find_key key c = Some p ->
  p ∈ sorted_items c /\ exists i, store c !! p = Some i /\ item_key i = key.
Proof.
  intros HI H. apply find_some in H as [Hin H]. apply list_elem_of_In in Hin.
  rewrite (ci_items c HI) in Hin. split; [done|]. destruct (store c !! p) as [i|]; [|done].
  exists i. split; [done|by apply bool_decide_eq_true in H].
Qed.

Lemma dropped_size p i c : 0 <= item_size i -> cache_size (dropped p i c) <= cache_size c.
Proof. cbn. lia. Qed.

Lemma wp_Put i c : CacheInv c -> new_item_ok i -> wp (Put i) (added c i) c.
Proof.
  intros HI Hi. destruct Hi as [Hs Hl] eqn:E. clear E. unfold Put, IsAbandoned.
  repeat wp_step; [by apply Z.ltb_lt|by rewrite Hl|].
  eapply wp_mono; [apply wp_NeedRoom; [done|lia]|].
  intros room c1 ([HI1 He1] & Hr & Hroom). destruct room; cbn [negb].
  - destruct Hroom as [Hroom _]. repeat wp_step.
    destruct (find_key (item_key i) c1) as [p|] eqn:Ef.
    + destruct (find_key_Some _ _ _ HI1 Ef) as [Hp _].
      apply wp_RemoveItem; [done|done|]. intros j' Hj' [HI2 He2].
      destruct (ci_live c1 HI1 p Hp) as (j & Hj & Hjs). rewrite Hj' in Hj. injection Hj as <-.
      repeat wp_step. apply wp_link; [done|done| |].
      * pose proof (dropped_size p j' c1 ltac:(lia)). cbn [max_size dropped].
        rewrite (ev_max _ _ He1). lia.
      * intros Hok. repeat wp_step. apply added_link; [split; [done|by etrans]|done].
    + repeat wp_step. apply wp_link; [done|done|by rewrite (ev_max _ _ He1)|].
      intros Hok. repeat wp_step. by apply added_link.
  - subst c1. apply wp_ret. split; [done|]. symmetry in Hr. simpl_bool. lia.
Qed.

(** ** Looking up *)

Lemma CacheInv_reorder l c : CacheInv c -> l ≡ₚ sorted_items c -> CacheInv (set_sorted l c).
Proof.
  intros [H1 H2 H3 H4 H5 H6 H7 H8 H9] E. split; cbn; try done.
  - by rewrite E.
  - by rewrite E.
  - intros p. rewrite E. apply H3.
  - transitivity (total c l); [|reflexivity]. rewrite H4. symmetry. by apply total_perm.
  - intros p i Hp Hn. apply (H7 p i Hp). by rewrite <-E.
  - intros Hne. apply H9. intros En. rewrite En in E. symmetry in E. by apply Permutation_nil in E.
Qed.

Lemma evolves_reorder l c : l ≡ₚ sorted_items c -> evolves c (set_sorted l c).
Proof. intros E. split; cbn; try done. intros p _. by rewrite E. Qed.

(** The cache after an item was used. *)
Definition refreshed (p : item_ptr) (c : Cache) : Cache :=
  set_sorted (without p (sorted_items c) ++ [p]) c.

Lemma wp_Refresh (Q : unit -> Cache -> Prop) p c :
  CacheInv c -> p ∈ sorted_items c ->
  (step_ok c (refreshed p c) -> Q tt (refreshed p c)) -> wp (RefreshItem p) Q c.
Proof.
  intros HI Hp HQ. unfold RefreshItem, linked. repeat wp_step; [by apply bool_decide_eq_true_2|].
  apply HQ. assert (E : without p (sorted_items c) ++ [p] ≡ₚ sorted_items c).
  { rewrite Permutation_app_comm. simpl. symmetry. apply without_perm; [apply HI|done]. }
  split; [by apply CacheInv_reorder|by apply evolves_reorder].
Qed.

(** A successful lookup: the item has the key, is valid, and is now the most
    recently used one. *)
Definition got (c : Cache) (ok : item_ptr -> CacheItem -> Prop) (r : option item_ptr) (c' : Cache) : Prop :=
  step_ok c c' /\
  match r with
  | Some p => (exists i, store c !! p = Some i /\ store c' !! p = Some i /\ ok p i) /\
              p ∈ sorted_items c /\ last (sorted_items c') = Some p
  | None => True
  end.

Lemma got_refreshed c c1 ok p i :
  CacheInv c -> step_ok c c1 -> step_ok c1 (refreshed p c1) ->
  p ∈ sorted_items c -> store c1 !! p = Some i -> ok p i ->
  got c ok (Some p) (refreshed p c1).
Proof.
  intros HI [H1 He] [H2 He2] Hp Hi Hok. split; [split; [done|by etrans]|]. split_and!.
  - exists i. split; [|done]. eapply (ev_same _ _ He); [|exact Hi].
    destruct (ci_live c HI p Hp) as (j & Hj & _). by apply (ci_fresh c HI) in Hj.
  - done.
  - cbn. apply last_snoc.
Qed.

Definition valid_item (validate : item_ptr -> bool) (now : Z) (key : list Z) (p : item_ptr) (i : CacheItem)
  : Prop := item_key i = key /\ now < item_expires i /\ validate p = true.

Lemma wp_Validate validate now p i c (Q : bool -> Cache -> Prop) :
  store c !! p = Some i -> Q ((now <? item_expires i) && validate p) c -> wp (Validate validate now p) Q c.
Proof.
  intros Hi HQ. unfold Validate. apply wp_bind. apply (wp_item p i); [done|]. by apply wp_ret.
Qed.

Lemma wp_Get validate now key c :
  CacheInv c -> wp (Get validate now key) (got c (valid_item validate now key)) c.
Proof.
  intros HI. unfold Get. repeat wp_step. destruct (find_key key c) as [p|] eqn:E; [|by apply wp_ret].
  destruct (find_key_Some key c p HI E) as (Hp & i & Hi & Hk). apply wp_bind.
  apply (wp_Validate validate now p i); [done|].
  destruct ((now <? item_expires i) && validate p) eqn:Ev; cbn [negb]; apply wp_bind.
  - apply wp_Refresh; [done|done|]. intros Hok. apply wp_ret. simpl_bool.
    by eapply got_refreshed.
  - apply wp_RemoveItem; [done|done|]. intros j Hj Hok. by apply wp_ret.
Qed.

(** The items that [expire_find_if()] looks at. *)
Definition candidates (c : Cache) (key : list Z) (l : list item_ptr) : Prop :=
  NoDup l /\ forall p, p ∈ l -> p ∈ sorted_items c /\ exists i, store c !! p = Some i /\ item_key i = key.

Lemma candidates_dropped p i c key l :
  candidates c key (p :: l) -> candidates (dropped p i c) key l.
Proof.
  intros [Hn Hl]. apply NoDup_cons in Hn as [Hp Hn]. split; [done|]. intros q Hq.
  assert (q <> p) by (by intros ->). destruct (Hl q) as [H1 H2]; [by right|].
  rewrite dropped_store by done. split; [|done]. cbn. by apply elem_of_without.
Qed.

Lemma wp_expire_find validate now match_ key l c :
  CacheInv c -> candidates c key l ->
  wp (expire_find validate now match_ l) (fun r c' => step_ok c c' /\
    match r with
    | Some p => p ∈ sorted_items c /\ p ∈ sorted_items c' /\
        exists i, store c' !! p = Some i /\ valid_item validate now key p i /\ match_ p = true
    | None => True
    end) c.
Proof.
  revert c. induction l as [|p l IH]; intros c HI Hc; cbn [expire_find]; [by apply wp_ret|].
  destruct Hc as [Hn Hl] eqn:Ec. destruct (Hl p) as (Hp & i & Hi & Hk); [left|]. clear Ec.
  apply wp_bind. apply (wp_Validate validate now p i); [done|].
  destruct ((now <? item_expires i) && validate p) eqn:Ev; cbn [negb].
  - simpl_bool. destruct (match_ p) eqn:Em.
    + apply wp_ret. split; [done|]. split; [done|]. split; [done|]. by exists i.
    + apply IH; [done|]. apply NoDup_cons in Hn as [_ Hn]. split; [done|]. intros q Hq. apply Hl. by right.
  - apply wp_bind, wp_RemoveItem; [done|done|]. intros j Hj [HI2 He2].
    eapply wp_mono; [apply IH; [done|by apply candidates_dropped]|].
    intros r c' ([HI3 He3] & Hr). split; [split; [done|by etrans]|].
    destruct r as [q|]; [|done]. destruct Hr as (H1 & H2 & H3). split; [|done].
    cbn in H1. by apply elem_of_without in H1 as [? _].
Qed.

Lemma key_items_candidates key c : CacheInv c -> candidates c key (key_items key c).
Proof.
  intros HI. unfold candidates, key_items. split.
  - eapply sublist_NoDup; [|apply bfilter_sub]. rewrite (ci_items c HI). apply HI.
  - intros p Hp. apply list_elem_of_In, filter_In in Hp as [Hin Hk].
    apply list_elem_of_In in Hin. rewrite (ci_items c HI) in Hin. split; [done|].
    destruct (store c !! p) as [i|]; [|done]. exists i. split; [done|]. by apply bool_decide_eq_true in Hk.
Qed.

Lemma wp_GetMatch validate now key match_ c :
  CacheInv c ->
  wp (GetMatch validate now key match_)
    (got c (fun p i => valid_item validate now key p i /\ match_ p = true)) c.
Proof.
  intros HI. unfold GetMatch. repeat wp_step.
  eapply wp_mono; [apply wp_expire_find; [done|by apply key_items_candidates]|].
  intros [p|] c1 ([HI1 He1] & Hr); [|by apply wp_ret].
  destruct Hr as (Hp & Hp1 & i & Hi & Hv). apply wp_bind, wp_Refresh; [done|done|].
  intros Hok. apply wp_ret. by eapply got_refreshed.
Qed.

Lemma wp_PutMatch validate now i match_ c :
  CacheInv c -> new_item_ok i -> wp (PutMatch validate now i match_) (added c i) c.
Proof.
  intros HI Hi. destruct Hi as [Hs Hl] eqn:E. clear E. unfold PutMatch, IsAbandoned. apply wp_bind.
  eapply wp_mono; [by apply wp_GetMatch|]. intros old c1 [[HI1 He1] Hr].
  repeat wp_step; [by apply Z.ltb_lt|by rewrite Hl|].
  destruct old as [p|].
  - destruct Hr as (_ & _ & Hlast).
    assert (Hp : p ∈ sorted_items c1).
    { apply last_Some in Hlast as [l ->]. apply elem_of_app. right. left. }
    apply wp_RemoveItem; [done|done|]. intros j Hj [HI2 He2].
    eapply wp_mono; [by apply wp_Add|]. intros r c' Ha. eapply added_trans; [|exact Ha].
    split; [done|by etrans].
  - apply wp_ret. eapply wp_mono; [by apply wp_Add|]. intros r c' Ha. by eapply added_trans.
Qed.

(** ** Removing *)

Lemma wp_remove_some (P : item_ptr -> bool) l c :
  CacheInv c -> NoDup l -> (forall p, p ∈ l -> p ∈ sorted_items c) ->
  wp (mfor (List.filter P l) erase_and_dispose) (fun _ c' => step_ok c c') c.
Proof.
  intros HI Hn Hl. eapply wp_mono; [apply wp_remove_all; [done| |]|].
  - by eapply sublist_NoDup, bfilter_sub.
  - intros p Hp%elem_of_bfilter. naive_solver.
  - intros [] c' [H _]. done.
Qed.

Lemma items_linked c : CacheInv c -> NoDup (items c) /\ forall p, p ∈ items c -> p ∈ sorted_items c.
Proof. intros HI. split; [|intros p]; rewrite (ci_items c HI); [apply HI|done]. Qed.

Lemma wp_Flush c :
  CacheInv c -> wp Flush (fun _ c' => step_ok c c' /\ sorted_items c' = []) c.
Proof.
  intros HI. unfold Flush. repeat wp_step. destruct (items_linked c HI) as [Hn Hl].
  eapply wp_mono; [by apply wp_remove_all|]. intros [] c' [H E]. split; [done|].
  rewrite E. apply filter_none. intros p Hp Hx. apply Hx. by rewrite (ci_items c HI).
Qed.

Lemma wp_RemoveKeyIf key P c : CacheInv c -> wp (RemoveKeyIf key P) (fun _ c' => step_ok c c') c.
Proof.
  intros HI. unfold RemoveKeyIf. repeat wp_step.
  destruct (key_items_candidates key c HI) as [Hn Hl].
  apply wp_remove_some; [done|done|]. intros p Hp. by apply Hl.
Qed.

Lemma wp_RemoveKey key c :
  CacheInv c ->
  wp (RemoveKey key) (fun _ c' => step_ok c c' /\
    forall p i, p ∈ sorted_items c' -> store c' !! p = Some i -> item_key i <> key) c.
Proof.
  intros HI. unfold RemoveKey. repeat wp_step.
  destruct (key_items_candidates key c HI) as [Hn Hl].
  eapply wp_mono; [apply wp_remove_all; [done|done|intros p Hp; by apply Hl]|].
  intros [] c' [[HI' He] E]. split; [done|]. intros p i Hp Hi Hk.
  rewrite E in Hp. apply list_elem_of_filter in Hp as [Hnk Hp]. apply Hnk.
  destruct (ci_live c HI p Hp) as (j & Hj & _).
  pose proof (ev_same _ _ He p i (ci_fresh c HI p j Hj) Hi) as Hi0.
  unfold key_items. apply elem_of_bfilter. split; [by rewrite (ci_items c HI)|].
  rewrite Hi0. by apply bool_decide_eq_true.
Qed.

Lemma filter_notin_bfilter (P : item_ptr -> bool) l :
  filter (fun p => p ∉ List.filter P l) l = List.filter (fun p => negb (P p)) l.
Proof.
  assert (H : forall k, (forall p, p ∈ k -> p ∈ l) ->
    filter (fun p => p ∉ List.filter P l) k = List.filter (fun p => negb (P p)) k).
  { induction k as [|p k IH]; intros Hk; [done|]. cbn [List.filter].
    destruct (P p) eqn:E; cbn [negb].
    - rewrite filter_cons_False; [apply IH; set_solver|]. intros Hn. apply Hn.
      apply elem_of_bfilter. split; [apply Hk; left|done].
    - rewrite filter_cons_True; [f_equal; apply IH; set_solver|].
      rewrite elem_of_bfilter. intros [_ ?]. congruence. }
  by apply H.
Qed.

Lemma wp_RemoveAllMatch P c :
  CacheInv c ->
  wp (RemoveAllMatch P) (fun n c' => step_ok c c' /\
    sorted_items c' = List.filter (fun p => negb (P p)) (sorted_items c) /\
    n + Z.of_nat (length (sorted_items c')) = Z.of_nat (length (sorted_items c))) c.
Proof.
  intros HI. unfold RemoveAllMatch. repeat wp_step.
  eapply wp_mono; [apply wp_remove_all; [done| |]|].
  - eapply sublist_NoDup; [apply HI|apply bfilter_sub].
  - intros p Hp%elem_of_bfilter. naive_solver.
  - intros [] c' [H E]. apply wp_ret. rewrite filter_notin_bfilter in E. split; [done|]. split; [done|].
    rewrite E. pose proof (filter_length P (sorted_items c)). lia.
Qed.

Lemma wp_Remove p c :
  CacheInv c -> is_Some (store c !! p) -> wp (Remove p) (fun _ c' => step_ok c c') c.
Proof.
  intros HI [i Hi]. unfold Remove, IsRemoved, linked. apply wp_bind. apply (wp_item p i); [done|].
  repeat wp_step. destruct (bool_decide (p ∈ sorted_items c)) eqn:E; simpl_bool; cbn [negb].
  - apply wp_RemoveItem; [done|done|]. by intros j Hj Hok.
  - apply wp_assert; [|done]. unfold IsAbandoned. apply negb_true_iff, Nat.eqb_neq.
    by eapply (ci_detached c HI).
Qed.

(** ** Expiry *)

Lemma step_ok_trans a b c : step_ok a b -> step_ok b c -> step_ok a c.
Proof. intros [_ H1] [H2 H3]. split; [done|by etrans]. Qed.

Lemma step_ok_refl c : CacheInv c -> step_ok c c.
Proof. by split. Qed.

Lemma wp_ExpireCallback now c :
  CacheInv c ->
  wp (ExpireCallback now) (fun again c' => step_ok c c' /\ again = timer_enabled c' /\
    forall p i, p ∈ sorted_items c' -> store c' !! p = Some i -> now < item_expires i) c.
Proof.
  intros HI. unfold ExpireCallback. repeat wp_step.
  eapply wp_mono.
  - apply (wp_mfor (fun l c' => step_ok c c' /\ NoDup l /\ (forall p, p ∈ l -> p ∈ sorted_items c') /\
      forall p i, p ∈ sorted_items c' -> p ∉ l -> store c' !! p = Some i -> now < item_expires i)).
    + intros p l c' (Hok & Hn & Hl & Hx). apply NoDup_cons in Hn as [Hp Hn].
      assert (Hpc : p ∈ sorted_items c') by (apply Hl; left).
      destruct (ci_live c' (proj1 Hok) p Hpc) as (i & Hi & _).
      apply wp_bind. apply (wp_item p i); [done|]. destruct (now <? item_expires i) eqn:E; simpl_bool.
      * apply wp_ret. split_and!; [done|done|set_solver|]. intros q j Hq Hql Hj.
        destruct (decide (q = p)) as [->|]; [congruence|]. eapply Hx; [done| |done]. set_solver.
      * apply wp_RemoveItem; [apply Hok|done|]. intros j Hj Hok2. split_and!.
        -- by eapply step_ok_trans.
        -- done.
        -- intros q Hq. cbn. apply elem_of_without. split; [apply Hl; by right|]. by intros ->.
        -- intros q k Hq Hql Hk. cbn in Hq. apply elem_of_without in Hq as [Hq Hne].
           rewrite dropped_store in Hk by done. eapply Hx; [done| |done]. set_solver.
    + split_and!; [by apply step_ok_refl|apply HI|done|]. intros p i Hp Hn. done.
  - intros [] c' (Hok & _ & _ & Hx). repeat wp_step. cbn [timer_enabled set_timer]. split_and!.
    + eapply step_ok_trans; [exact Hok|]. destruct Hok as [HI' _]. split.
      * destruct HI' as [H1 H2 H3 H4 H5 H6 H7 H8 H9] eqn:EI. clear EI. split; cbn; try done.
        intros Hne. apply Z.ltb_lt. destruct (sorted_items c') as [|p l] eqn:Es; [done|].
        destruct (H3 p ltac:(left)) as (i & Hi & Hsz).
        pose proof (total_pos c' (p :: l) p H3 ltac:(left)) as Hpos. unfold sz in Hpos.
        rewrite Hi in Hpos. simpl in Hpos. lia.
      * by split.
    + done.
    + intros p i Hp Hi. eapply Hx; [done|set_solver|done].
Qed.

(** ** Leases *)

(** Changing the number of leases or the expiry of an item. *)
Lemma CacheInv_update p i j c :
  CacheInv c -> store c !! p = Some i -> item_size j = item_size i ->
  (p ∉ sorted_items c -> item_leases j <> O) -> CacheInv (set_store (<[p := j]> (store c)) c).
Proof.
  intros [H1 H2 H3 H4 H5 H6 H7 H8 H9] Hi Hsz Hl. split; cbn; try done.
  - intros q Hq. destruct (decide (q = p)) as [->|Hne].
    + rewrite lookup_insert_eq. destruct (H3 p Hq) as (i' & Hi' & ?). exists j. split; [done|].
      rewrite Hsz. congruence.
    + rewrite lookup_insert_ne by done. auto.
  - rewrite H4. apply total_ext. intros q Hq. unfold sz. cbn.
    destruct (decide (q = p)) as [->|]; [by rewrite lookup_insert_eq, Hi; simpl|].
    by rewrite lookup_insert_ne.
  - intros q k Hq Hn. destruct (decide (q = p)) as [->|].
    + rewrite lookup_insert_eq in Hq. injection Hq as <-. auto.
    + rewrite lookup_insert_ne in Hq by done. eauto.
  - intros q k Hq. destruct (decide (q = p)) as [->|]; [eauto|].
    rewrite lookup_insert_ne in Hq by done. eauto.
Qed.

Lemma wp_AddLease p i c :
  CacheInv c -> store c !! p = Some i -> wp (AddLease p) (fun _ c' => CacheInv c' /\ max_size c' = max_size c) c.
Proof.
  intros HI Hi. unfold AddLease. apply wp_bind. apply (wp_item p i); [done|]. repeat wp_step.
  split; [by eapply CacheInv_update|done].
Qed.

Lemma wp_SetExpires e p i c :
  CacheInv c -> store c !! p = Some i -> wp (SetExpires e p) (fun _ c' => CacheInv c' /\ max_size c' = max_size c) c.
Proof.
  intros HI Hi. unfold SetExpires. apply wp_bind. apply (wp_item p i); [done|]. repeat wp_step.
  split; [|done]. eapply CacheInv_update; [done|exact Hi|done|]. exact (ci_detached c HI p i Hi).
Qed.

(** The last lease of a removed item destroys it. *)
Lemma CacheInv_destroy p j c :
  CacheInv c -> p ∉ sorted_items c ->
  CacheInv (set_store (delete p (<[p := j]> (store c))) c).
Proof.
  intros [H1 H2 H3 H4 H5 H6 H7 H8 H9] Hp. rewrite delete_insert_eq. split; cbn; try done.
  - intros q Hq. rewrite lookup_delete_ne by (by intros ->). auto.
  - rewrite H4. apply total_ext. intros q Hq. unfold sz. cbn.
    by rewrite lookup_delete_ne by (by intros ->).
  - intros q k [_ Hq]%lookup_delete_Some. eauto.
  - intros q k [_ Hq]%lookup_delete_Some. eauto.
Qed.

Lemma wp_DropLease p i c :
  CacheInv c -> store c !! p = Some i -> item_leases i <> O ->
  wp (DropLease p) (fun _ c' => CacheInv c' /\ max_size c' = max_size c /\
    sorted_items c' = sorted_items c /\
    (store c' !! p = None <-> p ∉ sorted_items c /\ item_leases i = 1%nat)) c.
Proof.
  intros HI Hi Hl. unfold DropLease, OnAbandoned, IsRemoved, linked.
  apply wp_bind. apply (wp_item p i); [done|]. repeat wp_step; [by apply negb_true_iff, Nat.eqb_neq|].
  destruct (item_leases i =? 1)%nat eqn:E1.
  - apply Nat.eqb_eq in E1. repeat wp_step. cbn [sorted_items set_store].
    destruct (bool_decide (p ∈ sorted_items c)) eqn:Ep; simpl_bool; cbn [negb].
    + apply wp_ret. split_and!; [by eapply CacheInv_update|done|done|]. cbn. rewrite lookup_insert_eq.
      split; [done|tauto].
    + unfold Destroy. apply wp_bind. eapply wp_item; [cbn; apply lookup_insert_eq|]. repeat wp_step.
      split_and!; [exact (CacheInv_destroy p _ c HI Ep)|done|done|]. cbn. rewrite lookup_delete_eq. tauto.
  - apply Nat.eqb_neq in E1. apply wp_ret. split_and!; [|done|done|].
    + eapply CacheInv_update; [done|done|done|]. simpl. lia.
    + cbn. rewrite lookup_insert_eq. split; [done|tauto].
Qed.

(** ** The destructor *)

(** The cache after the destructor's loop has destroyed the item [i]. *)
Definition deleted (p : item_ptr) (i : CacheItem) (c : Cache) : Cache :=
  mkCache (max_size c) (cache_size c - item_size i) (without p (items c)) (without p (sorted_items c))
    (timer_enabled c) (delete p (store c)) (next_item c) (handler_log c).

Lemma deleted_inv p i c :
  CacheInv c -> p ∈ sorted_items c -> store c !! p = Some i -> item_leases i = O -> CacheInv (deleted p i c).
Proof.
  intros HI Hp Hi Hl. pose proof (dropped_inv p i c HI Hp Hi) as H.
  unfold dropped, IsAbandoned in H. rewrite Hl in H. cbn in H.
  destruct H as [H1 H2 H3 H4 H5 H6 H7 H8 H9]. split; try done.
  intros _. apply (ci_timer c HI). intros E. rewrite E in Hp. by apply elem_of_nil in Hp.
Qed.

Lemma wp_Cache_delete c :
  CacheInv c -> (forall p i, store c !! p = Some i -> item_leases i = O) ->
  wp Cache_delete (fun _ c' => store c' = ∅) c.
Proof.
  intros HI Hl. unfold Cache_delete. repeat wp_step. destruct (items_linked c HI) as [Hn Hin].
  eapply wp_mono.
  - apply (wp_mfor (fun l c' => CacheInv c' /\ NoDup l /\ (forall p, p ∈ l <-> p ∈ sorted_items c') /\
      forall p i, store c' !! p = Some i -> item_leases i = O)).
    + intros p l c' (HI' & Hn' & Hl' & Ha). apply NoDup_cons in Hn' as [Hp Hn'].
      assert (Hps : p ∈ sorted_items c') by (apply Hl'; left).
      destruct (ci_live c' HI' p Hps) as (i & Hi & Hsz).
      pose proof (Ha p i Hi) as Hi0.
      apply wp_bind. apply (wp_item p i); [done|]. unfold linked, Destroy. repeat wp_step.
      * unfold IsAbandoned. by rewrite Hi0.
      * apply Z.leb_le. rewrite (ci_size c' HI').
        pose proof (total_pos c' _ p (ci_live c' HI') Hps) as H. unfold sz in H. by rewrite Hi in H.
      * by apply bool_decide_eq_true.
      * apply (wp_item p i); [done|]. repeat wp_step.
        pose proof (deleted_inv p i c' HI' Hps Hi Hi0) as HI2. split_and!; [exact HI2|done| |].
        -- intros q. change (q ∈ l <-> q ∈ without p (sorted_items c')).
           rewrite elem_of_without, <-Hl', elem_of_cons.
           split; [intros Hq; split; [by right|by intros ->]|naive_solver].
        -- intros q k. cbn. intros [_ Hk]%lookup_delete_Some. eauto.
    + split_and!; [done|done| |done]. intros p. by rewrite (ci_items c HI).
  - intros [] c' (HI' & _ & Hl' & Ha).
    assert (E : sorted_items c' = []).
    { destruct (sorted_items c') as [|p l] eqn:E; [done|]. assert (p ∈ @nil item_ptr) as H.
      { apply Hl'. left. } by apply elem_of_nil in H. }
    repeat wp_step.
    + apply Z.eqb_eq. by rewrite (ci_size c' HI'), E.
    + by apply bool_decide_eq_true.
    + apply map_empty. intros p. destruct (store c' !! p) as [i|] eqn:Hi; [|done].
      destruct (ci_detached c' HI' p i Hi); [rewrite E; apply not_elem_of_nil|eauto].
Qed.

(** ** All operations *)

Inductive cop :=
| OpGet (validate : item_ptr -> bool) (now : Z) (key : list Z)
| OpGetMatch (validate : item_ptr -> bool) (now : Z) (key : list Z) (match_ : item_ptr -> bool)
| OpAdd (i : CacheItem)
| OpPut (i : CacheItem)
| OpPutMatch (validate : item_ptr -> bool) (now : Z) (i : CacheItem) (match_ : item_ptr -> bool)
| OpRemoveKey (key : list Z)
| OpRemoveKeyIf (key : list Z) (pred : item_ptr -> bool)
| OpRemove (p : item_ptr)
| OpRemoveAllMatch (match_ : item_ptr -> bool)
| OpFlush
| OpExpire (now : Z)
| OpAddLease (p : item_ptr)
| OpDropLease (p : item_ptr)
| OpSetExpires (expires : Z) (p : item_ptr).

Definition exec_cop (op : cop) : M Cache unit :=
  (match op with
   | OpGet validate now key => Get validate now key ;;; mret tt
   | OpGetMatch validate now key match_ => GetMatch validate now key match_ ;;; mret tt
   | OpAdd i => Add i ;;; mret tt
   | OpPut i => Put i ;;; mret tt
   | OpPutMatch validate now i match_ => PutMatch validate now i match_ ;;; mret tt
   | OpRemoveKey key => RemoveKey key
   | OpRemoveKeyIf key pred => RemoveKeyIf key pred
   | OpRemove p => Remove p
   | OpRemoveAllMatch match_ => RemoveAllMatch match_ ;;; mret tt
   | OpFlush => Flush
   | OpExpire now => ExpireCallback now ;;; mret tt
   | OpAddLease p => AddLease p
   | OpDropLease p => DropLease p
   | OpSetExpires expires p => SetExpires expires p
   end)%beng.

(** What the callers have to observe: new items have a size and no leases, an
    item that is used exists, and only existing leases are dropped. *)
Definition legal_cop (op : cop) (c : Cache) : Prop :=
  match op with
  | OpAdd i | OpPut i | OpPutMatch _ _ i _ => new_item_ok i
  | OpRemove p | OpAddLease p | OpSetExpires _ p => is_Some (store c !! p)
  | OpDropLease p => exists i, store c !! p = Some i /\ item_leases i <> O
  | _ => True
  end.

(** Operations that do not change items themselves. *)
Definition cache_only (op : cop) : bool :=
  match op with OpAddLease _ | OpDropLease _ | OpSetExpires _ _ => false | _ => true end.

Lemma exec_cop_ok op c :
  CacheInv c -> legal_cop op c ->
  wp (exec_cop op) (fun _ c' => CacheInv c' /\ max_size c' = max_size c /\
    (cache_only op = true -> evolves c c')) c.
Proof.
  intros HI Hl.
  assert (W : forall A (m : M Cache A) Q, wp m Q c -> (forall a c', Q a c' -> step_ok c c') ->
    wp (m ;;; mret tt)%beng (fun _ c' => CacheInv c' /\ max_size c' = max_size c /\ (true = true -> evolves c c')) c).
  { intros A m Q Hm HQ. apply wp_bind. eapply wp_mono; [exact Hm|]. intros a c' H. apply wp_ret.
    destruct (HQ a c' H) as [? He]. split; [done|]. split; [apply (ev_max _ _ He)|done]. }
  assert (U : forall (m : M Cache unit) Q, wp m Q c -> (forall a c', Q a c' -> step_ok c c') ->
    wp m (fun _ c' => CacheInv c' /\ max_size c' = max_size c /\ (true = true -> evolves c c')) c).
  { intros m Q Hm HQ. eapply wp_mono; [exact Hm|]. intros a c' H. destruct (HQ a c' H) as [? He].
    split; [done|]. split; [apply (ev_max _ _ He)|done]. }
  destruct op; cbn [exec_cop legal_cop cache_only] in *.
  - eapply W; [by apply wp_Get|]. by intros a c' [? _].
  - eapply W; [by apply wp_GetMatch|]. by intros a c' [? _].
  - eapply W; [by apply wp_Add|]. by intros a c' [? _].
  - eapply W; [by apply wp_Put|]. by intros a c' [? _].
  - eapply W; [by apply wp_PutMatch|]. by intros a c' [? _].
  - eapply U; [by apply wp_RemoveKey|]. by intros a c' [? _].
  - eapply U; [by apply wp_RemoveKeyIf|]. done.
  - eapply U; [by apply wp_Remove|]. done.
  - eapply W; [by apply wp_RemoveAllMatch|]. by intros a c' [? _].
  - eapply U; [by apply wp_Flush|]. by intros a c' [? _].
  - eapply W; [by apply wp_ExpireCallback|]. by intros a c' [? _].
  - destruct Hl as [i Hi]. eapply wp_mono; [by eapply wp_AddLease|]. by intros a c' [? ?].
  - destruct Hl as (i & Hi & Hn). eapply wp_mono; [by eapply wp_DropLease|]. by intros a c' (? & ? & _).
  - destruct Hl as [i Hi]. eapply wp_mono; [by eapply wp_SetExpires|]. by intros a c' [? ?].
Qed.

Inductive creach (max : Z) : Cache -> Prop :=
| creach_new : creach max (Cache_new max)
| creach_step c op c' : creach max c -> legal_cop op c -> exec_cop op c = Some (tt, c') -> creach max c'.

Lemma Cache_new_inv max : 0 <= max < 2 ^ 63 -> CacheInv (Cache_new max).
Proof.
  intros Hm. split; cbn; try done; try (by intros p ?%elem_of_nil); try lia. constructor.
Qed.


Lemma creach_inv max c : 0 <= max < 2 ^ 63 -> creach max c -> CacheInv c /\ max_size c = max.
Proof.
  intros Hm Hr. induction Hr as [|c op c' Hr [HI Hmax] Hl E]; [by split; [apply Cache_new_inv|]|].
  destruct (exec_cop_ok op c HI Hl) as ([] & c1 & E1 & HI1 & Hmax1 & _).
  rewrite E in E1. injection E1 as <-. split; [done|congruence].
Qed.

(** C7: In every state that a sequence of operations can reach, the cache is
    consistent: its two containers have the same items, none of which is
    destroyed; [size] is the sum of their sizes and not above the limit; an
    item that was removed exists exactly while it is leased; the cleanup timer
    is enabled if there are items.  Every further operation succeeds, and
    those of the cache never destroy or modify a leased item. *)
Theorem cache_safe max c :
  0 <= max < 2 ^ 63 -> creach max c ->
  CacheInv c /\ cache_size c = total c (sorted_items c) /\ cache_size c <= max /\
  forall op, legal_cop op c -> exists c', exec_cop op c = Some (tt, c') /\ CacheInv c' /\
    (cache_only op = true -> forall p i, store c !! p = Some i -> item_leases i <> O ->
       store c' !! p = Some i).
Proof.
  intros Hm Hr. destruct (creach_inv max c Hm Hr) as [HI Hmax]. split; [done|].
  split; [apply HI|]. split; [rewrite <-Hmax; apply HI|]. intros op Hl.
  destruct (exec_cop_ok op c HI Hl) as ([] & c1 & E & HI1 & _ & He).
  exists c1. split; [done|]. split; [done|]. intros Ho. apply (ev_leased _ _ (He Ho)).
Qed.

(** [NeedRoom()] ends.  It fails only for an item that is larger than
    the whole cache; otherwise it evicts the least recently used items, as
    many as necessary and not one more, and then there is room. *)
Theorem NeedRoom_spec c size :
  CacheInv c -> 0 <= size ->
  exists c', NeedRoom size c = Some (size <=? max_size c, c') /\ CacheInv c' /\
    if size <=? max_size c then
      cache_size c' + size <= max_size c /\
      exists k, sorted_items c' = drop k (sorted_items c) /\
        forall j, (j < k)%nat -> max_size c < total c (drop j (sorted_items c)) + size
    else c' = c.
Proof.
  intros HI Hs. destruct (wp_NeedRoom c size HI Hs) as (room & c' & E & [HI' _] & -> & H).
  exists c'. split; [done|]. split; [done|]. destruct (size <=? max_size c); [|done].
  destruct H as (H1 & k & H2 & H3 & _). split; [done|]. by exists k.
Qed.

(** The destructor of a cache without leases destroys all items and
    fails none of its assertions. *)
Theorem Cache_delete_spec max c :
  0 <= max < 2 ^ 63 -> creach max c -> (forall p i, store c !! p = Some i -> item_leases i = O) ->
  exists c', Cache_delete c = Some (tt, c') /\ store c' = ∅.
Proof.
  intros Hm Hr Hl. destruct (creach_inv max c Hm Hr) as [HI _].
  destruct (wp_Cache_delete c HI Hl) as ([] & c' & E & H). by exists c'.
Qed.

(** ** Lookup after insertion *)

(** At most one item has the key. *)
Definition unique_key (key : list Z) (c : Cache) : Prop :=
  forall p q i j, p ∈ sorted_items c -> q ∈ sorted_items c ->
    store c !! p = Some i -> store c !! q = Some j -> item_key i = key -> item_key j = key -> p = q.

Lemma find_key_unique key c p i :
  CacheInv c -> unique_key key c -> p ∈ sorted_items c -> store c !! p = Some i -> item_key i = key ->
  find_key key c = Some p.
Proof.
  intros HI Hu Hp Hi Hk. destruct (find_key key c) as [q|] eqn:E.
  - destruct (find_key_Some key c q HI E) as (Hq & j & Hj & Hjk). f_equal. by eapply Hu.
  - exfalso. rewrite <-(ci_items c HI) in Hp. apply list_elem_of_In in Hp.
    pose proof (find_none _ _ E p Hp) as F. cbv beta in F. rewrite Hi in F.
    by apply bool_decide_eq_false in F.
Qed.

Definition no_key (key : list Z) (c : Cache) : Prop :=
  forall p i, p ∈ sorted_items c -> store c !! p = Some i -> item_key i <> key.

Lemma unique_key_dropped key c p i :
  unique_key key c -> p ∈ sorted_items c -> store c !! p = Some i -> item_key i = key ->
  no_key key (dropped p i c).
Proof.
  intros Hu Hp Hi Hk q j Hq Hj Hjk. cbn [dropped sorted_items] in Hq.
  apply elem_of_without in Hq as [Hq Hne]. rewrite dropped_store in Hj by done.
  apply Hne. by apply (Hu q p j i).
Qed.

Lemma find_key_no_key key c : CacheInv c -> find_key key c = None -> no_key key c.
Proof.
  intros HI E p i Hp Hi Hk. rewrite <-(ci_items c HI) in Hp. apply list_elem_of_In in Hp.
  pose proof (find_none _ _ E p Hp) as F. cbv beta in F. rewrite Hi in F.
  by apply bool_decide_eq_false in F.
Qed.

Lemma linked_item_unique i c : no_key (item_key i) c -> unique_key (item_key i) (linked_item i c).
Proof.
  intros Hn.
  assert (H : forall p j, p ∈ sorted_items (linked_item i c) -> store (linked_item i c) !! p = Some j ->
    item_key j = item_key i -> p = next_item c).
  { intros p j Hp Hj Hk. cbn [linked_item sorted_items store] in Hp, Hj.
    apply elem_of_app in Hp as [Hp|Hp]; [|by apply list_elem_of_singleton in Hp].
    destruct (decide (p = next_item c)) as [|Hne]; [done|].
    rewrite lookup_insert_ne in Hj by done. by destruct (Hn p j). }
  intros p q j k Hp Hq Hj Hk Ej Ek. rewrite (H p j Hp Hj Ej). symmetry. by apply (H q k).
Qed.

Lemma unique_key_evicted key c c1 size k :
  unique_key key c -> evicted c c1 size k -> unique_key key c1.
Proof.
  intros Hu (E & _ & Hs) p q i j Hp Hq Hi Hj. rewrite Hs in Hi, Hj by done.
  assert (Hd : forall x, x ∈ sorted_items c1 -> x ∈ sorted_items c).
  { intros x. rewrite E. intros Hx. eapply elem_of_sublist; [exact Hx|apply sublist_drop]. }
  apply Hu; auto.
Qed.

Lemma wp_Put_unique i c :
  CacheInv c -> new_item_ok i -> unique_key (item_key i) c ->
  wp (Put i) (fun r c' => added c i r c' /\ (is_Some r -> unique_key (item_key i) c')) c.
Proof.
  intros HI Hi Hu. destruct (wp_Put i c HI Hi) as (r & c' & E & Ha). exists r, c'.
  split; [done|]. split; [done|]. revert r c' E Ha.
  assert (W : wp (Put i) (fun r c' => is_Some r -> unique_key (item_key i) c') c).
  { destruct Hi as [Hs Hl]. unfold Put, IsAbandoned. repeat wp_step; [by apply Z.ltb_lt|by rewrite Hl|].
    eapply wp_mono; [apply wp_NeedRoom; [done|lia]|].
    intros room c1 ([HI1 He1] & Hr & Hroom).
    destruct room; cbn [negb]; [|apply wp_ret; by intros [? ?]].
    destruct Hroom as (_ & k & Hk). pose proof (unique_key_evicted _ _ _ _ _ Hu Hk) as Hu1.
    repeat wp_step. destruct (find_key (item_key i) c1) as [p|] eqn:Ef.
    - destruct (find_key_Some _ _ _ HI1 Ef) as (Hp & j & Hj & Hjk).
      apply wp_RemoveItem; [done|done|]. intros j' Hj' _. rewrite Hj in Hj'. injection Hj' as <-.
      repeat wp_step. eexists _, _. split; [apply link_item_eq|]. repeat wp_step. intros _.
      by apply linked_item_unique, unique_key_dropped.
    - repeat wp_step. eexists _, _. split; [apply link_item_eq|]. repeat wp_step. intros _.
      by apply linked_item_unique, find_key_no_key. }
  destruct W as (r0 & c0 & E0 & H0). intros r c' E _. rewrite E in E0. by injection E0 as <- <-.
Qed.

(** After [Put()] has succeeded, [Get()] for the key of the item returns
    that item as long as it is valid (provided the key was unique before,
    which [Put()] preserves), and it is the last one that will be evicted. *)
Theorem Put_Get validate now i c :
  CacheInv c -> new_item_ok i -> unique_key (item_key i) c -> item_size i <= max_size c ->
  now < item_expires i -> (forall p, validate p = true) ->
  exists p c1 c2, Put i c = Some (Some p, c1) /\ unique_key (item_key i) c1 /\
    Get validate now (item_key i) c1 = Some (Some p, c2) /\ store c2 !! p = Some i /\
    last (sorted_items c2) = Some p.
Proof.
  intros HI Hi Hu Hsz Hnow Hv.
  destruct (wp_Put_unique i c HI Hi Hu) as (r & c1 & E & [[HI1 He1] Hr] & Hu1).
  destruct r as [p|]; [|lia]. destruct Hr as (_ & Hp & Hlast). specialize (Hu1 ltac:(by eexists)).
  assert (Hin : p ∈ sorted_items c1).
  { apply last_Some in Hlast as [l ->]. apply elem_of_app. right. left. }
  assert (G : wp (Get validate now (item_key i)) (fun r c2 => r = Some p /\
    store c2 !! p = Some i /\ last (sorted_items c2) = Some p) c1).
  { unfold Get. repeat wp_step. rewrite (find_key_unique _ _ p i) by done. apply wp_bind.
    apply (wp_Validate validate now p i); [done|].
    rewrite (proj2 (Z.ltb_lt now (item_expires i))), Hv by done. cbn [andb negb].
    apply wp_bind, wp_Refresh; [done|done|]. intros _. apply wp_ret. split_and!; [done|done|].
    cbn. apply last_snoc. }
  destruct G as (r & c2 & E2 & -> & H1 & H2). by exists p, c1, c2.
Qed.

End Facts.

(** ** Examples *)

Module CacheExamples.

#[local] Instance FrontInsert : HashSetOrder :=
  {| hs_insert A x l := x :: l; hs_insert_perm A x l := reflexivity _ |}.

Definition a : CacheItem := CacheItem_new (str "a") 40 1000.
Definition b : CacheItem := CacheItem_new (str "b") 50 1000.
Definition d : CacheItem := CacheItem_new (str "d") 30 1000.

(** Two items, the first of which is leased. *)
Definition run (ops : list cop) (c : Cache) : option Cache :=
  foldl (fun r op => c ← r; snd <$> exec_cop op c) (Some c) ops.

Definition c2 : Cache := default (Cache_new 100) (run [OpPut a; OpPut b] (Cache_new 100)).
Definition c1 : Cache := default (Cache_new 100) (run [OpPut a] (Cache_new 100)).

Lemma a_ok : new_item_ok a. Proof. done. Qed.
Lemma b_ok : new_item_ok b. Proof. done. Qed.
Lemma d_ok : new_item_ok d. Proof. done. Qed.

Lemma c2_reach : creach 100 c2.
Proof.
  apply (creach_step 100 c1 (OpPut b)); [|exact b_ok|vm_compute; reflexivity].
  apply (creach_step 100 (Cache_new 100) (OpPut a)); [constructor|exact a_ok|vm_compute; reflexivity].
Qed.

Lemma c2_inv : CacheInv c2.
Proof. apply (creach_inv 100 c2); [lia|apply c2_reach]. Qed.

Lemma cache_safe_witness :
  CacheInv c2 /\ cache_size c2 = total c2 (sorted_items c2) /\ cache_size c2 <= 100 /\
  forall op, legal_cop op c2 -> exists c', exec_cop op c2 = Some (tt, c') /\ CacheInv c' /\
    (cache_only op = true -> forall p i, store c2 !! p = Some i -> item_leases i <> O ->
       store c' !! p = Some i).
Proof. apply (cache_safe 100 c2); [lia|apply c2_reach]. Defined.

Lemma NeedRoom_spec_witness :
  exists c', NeedRoom 30 c2 = Some (30 <=? max_size c2, c') /\ CacheInv c' /\
    if 30 <=? max_size c2 then
      cache_size c' + 30 <= max_size c2 /\
      exists k, sorted_items c' = drop k (sorted_items c2) /\
        forall j, (j < k)%nat -> max_size c2 < total c2 (drop j (sorted_items c2)) + 30
    else c' = c2.
Proof. apply (NeedRoom_spec c2 30); [apply c2_inv|lia]. Defined.

Lemma c2_no_leases p i : store c2 !! p = Some i -> item_leases i = O.
Proof.
  assert (H : map_Forall (fun _ i => item_leases i = O) (store c2)).
  { apply (bool_decide_unpack _). vm_compute. exact I. }
  intros Hi. by apply (H p i).
Qed.

Lemma Cache_delete_spec_witness : exists c', Cache_delete c2 = Some (tt, c') /\ store c' = ∅.
Proof. apply (Cache_delete_spec 100 c2); [lia|apply c2_reach|exact c2_no_leases]. Defined.

Lemma Put_Get_witness :
  exists p c1 c3, Put d c2 = Some (Some p, c1) /\ unique_key (item_key d) c1 /\
    Get (fun _ => true) 5 (item_key d) c1 = Some (Some p, c3) /\ store c3 !! p = Some d /\
    last (sorted_items c3) = Some p.
Proof.
  apply (Put_Get (fun _ => true) 5 d c2); [apply c2_inv|apply d_ok| |vm_compute; discriminate|reflexivity|done].
  intros p q i j Hp Hq Hi Hj Ki Kj. exfalso.
  assert (H : map_Forall (fun _ i => item_key i <> item_key d) (store c2)).
  { apply (bool_decide_unpack _). vm_compute. exact I. }
  by apply (H p i).
Defined.

End CacheExamples.
