(* ===== verification/GrowingBuffer.v ===== *)
(** * Growing buffers

    Models src/memory/GrowingBuffer.hxx, GrowingBuffer.cxx and istream_gb.cxx:
    a byte queue that consists of chunks of equal capacity, the reader that
    takes over its chunks, and the istream that sends them.

    A chunk is the list of the bytes that have been written to it (its [fill]
    is the length); the linked list with its [tail] pointer is a list of
    chunks, whose last element is the tail.  [None] is a failed assertion, a
    null pointer dereference or an unsigned subtraction that would wrap. *)

From S2P Require Import Prelude Bucket.

(** The capacity of a chunk: the size of the allocator's chunks without the
    chunk header. *)
Class ChunkSize := { chunk_capacity : nat; chunk_capacity_pos : (0 < chunk_capacity)%nat }.

Record GrowingBuffer := mkGB {
  chunks : list (list Z);
  position : nat }.

Section Ops.
Context `{CS : ChunkSize}.
Open Scope beng_scope.

Abbreviation G := (M GrowingBuffer).

Definition GrowingBuffer_new : GrowingBuffer := mkGB [] 0.

Definition GB_IsEmpty (gb : GrowingBuffer) : bool := bool_decide (chunks gb = []).

(** [Buffer::Check()] *)
Definition Check (c : list Z) : bool := (length c <=? chunk_capacity)%nat.

(** [head.Check()] and [tail->Check()] *)
Definition CheckHead : G unit :=
  let! gb := mget in massert (match head (chunks gb) with Some c => Check c | None => true end).
Definition CheckTail : G unit :=
  let! gb := mget in massert (match last (chunks gb) with Some c => Check c | None => true end).

Definition GB_Clear : G unit := mput GrowingBuffer_new.

(** ** Writing *)

Definition AppendBuffer : G unit := mmod (fun gb => mkGB (chunks gb ++ [[]]) (position gb)).

(** Appends to the last chunk. *)
Definition append_tail (data : list Z) (l : list (list Z)) : list (list Z) :=
  match last l with
  | Some c => take (pred (length l)) l ++ [c ++ data]
  | None => l
  end.

(** [BeginWrite(size)]: the caller writes to the end of the last chunk. *)
Definition BeginWrite_size (size : nat) : G unit :=
  let! gb := mget in
  massert (match last (chunks gb) with Some _ => (size <=? chunk_capacity)%nat | None => true end) ;;;
  CheckHead ;;; CheckTail ;;;
  (match last (chunks gb) with
   | Some c => if (chunk_capacity <? length c + size)%nat then AppendBuffer else mret tt
   | None => AppendBuffer
   end) ;;;
  let! gb := mget in
  massert (match last (chunks gb) with
           | Some c => (length c + size <=? chunk_capacity)%nat
           | None => false
           end).

(** [BeginWrite()]: the result is the size of the writable range. *)
Definition BeginWrite : G nat :=
  CheckHead ;;; CheckTail ;;;
  let! gb := mget in
  (match last (chunks gb) with
   | Some c => if (length c =? chunk_capacity)%nat then AppendBuffer else mret tt
   | None => AppendBuffer
   end) ;;;
  let! gb := mget in
  match last (chunks gb) with
  | Some c => massert (negb (length c =? chunk_capacity)%nat) ;;; massert (Check c) ;;;
              mret (chunk_capacity - length c)%nat
  | None => mfail
  end.

(** [CommitWrite()]; [data] is what the caller has written. *)
Definition CommitWrite (data : list Z) : G unit :=
  let! gb := mget in
  match last (chunks gb) with
  | Some c => massert (length c + length data <=? chunk_capacity)%nat ;;;
              mput (mkGB (append_tail data (chunks gb)) (position gb))
  | None => mfail
  end.

(** [Write(length)], whose caller fills the returned memory with [data]. *)
Definition Write_reserve (data : list Z) : G unit :=
  BeginWrite_size (length data) ;;; CommitWrite data.

Definition WriteSome (src : list Z) : G nat :=
  let! gb := mget in
  (match last (chunks gb) with
   | Some c => if (length c =? chunk_capacity)%nat then AppendBuffer else mret tt
   | None => AppendBuffer
   end) ;;;
  let! gb := mget in
  match last (chunks gb) with
  | Some c =>
      massert (Check c) ;;;
      let nbytes := Nat.min (chunk_capacity - length c) (length src) in
      mput (mkGB (append_tail (take nbytes src) (chunks gb)) (position gb)) ;;;
      mret nbytes
  | None => mfail
  end.

(** Every iteration writes something. *)
Fixpoint Write_loop (fuel : nat) (src : list Z) : G unit :=
  match fuel with
  | O => mfail
  | S fuel' =>
      match src with
      | [] => mret tt
      | _ => let! nbytes := WriteSome src in Write_loop fuel' (drop nbytes src)
      end
  end.

Definition GB_Write (src : list Z) : G unit := Write_loop (S (length src)) src.

(** [text] is the formatted text. *)
Definition VFmt (text : list Z) : G unit :=
  let! room := BeginWrite in
  (if (room <? length text)%nat then BeginWrite_size (length text) else mret tt) ;;;
  CommitWrite text.

(** The result is the new value of the moved-from buffer. *)
Definition AppendMoveFrom (src : GrowingBuffer) : G GrowingBuffer :=
  if GB_IsEmpty src then mret src
  else
    let! gb := mget in
    massert (negb (GB_IsEmpty gb)) ;;;
    mput (mkGB (chunks gb ++ chunks src) (position gb)) ;;;
    mret (mkGB [] (position src)).

(** [Reserve()]; the reserved bytes have indeterminate values [junk]. *)
Definition Reserve (junk : list Z) : G unit :=
  let! gb := mget in
  massert (GB_IsEmpty gb) ;;;
  massert (position gb =? 0)%nat ;;;
  BeginWrite_size (length junk) ;;;
  CommitWrite junk ;;;
  mmod (fun gb => mkGB (chunks gb) (length junk)).

(** [Prepend()], whose caller fills the returned memory with [data]. *)
Definition Prepend (data : list Z) : G unit :=
  let! gb := mget in
  massert (length data <=? position gb)%nat ;;;
  match chunks gb with
  | [] => mfail
  | c :: rest =>
      massert (position gb <=? length c)%nat ;;;
      let p := (position gb - length data)%nat in
      mput (mkGB ((take p c ++ data ++ drop (position gb) c) :: rest) p)
  end.

(** ** Reading *)

(** The spans that [BufferPtr::ForEachBuffer()] passes to its function. *)
Fixpoint ForEachBuffer (skip : nat) (l : list (list Z)) : list (list Z) :=
  match l with
  | [] => []
  | b :: l' =>
      if (0 <? skip)%nat then
        if (length b <=? skip)%nat then ForEachBuffer (skip - length b) l'
        else drop skip b :: ForEachBuffer 0 l'
      else b :: ForEachBuffer 0 l'
  end.

Definition GB_GetSize (gb : GrowingBuffer) : nat :=
  fold_left (fun result b => (result + length b)%nat) (ForEachBuffer (position gb) (chunks gb)) 0%nat.

Definition CopyTo (gb : GrowingBuffer) : list Z := concat (ForEachBuffer (position gb) (chunks gb)).

Definition Dup (gb : GrowingBuffer) : list Z :=
  if (GB_GetSize gb =? 0)%nat then [] else CopyTo gb.

Definition GB_Read : G (list Z) :=
  let! gb := mget in
  match chunks gb with
  | [] => mret []
  | c :: _ =>
      massert (Check c) ;;;
      massert (position gb <? chunk_capacity)%nat ;;;
      massert (position gb <=? length c)%nat ;;;
      mret (drop (position gb) c)
  end.

Definition GB_Consume (n : nat) : G unit :=
  if (n =? 0)%nat then mret tt
  else
    let! gb := mget in
    match chunks gb with
    | [] => mfail
    | c :: rest =>
        massert (Check c) ;;;
        let p := (position gb + n)%nat in
        massert (p <=? length c)%nat ;;;
        mput (if (length c <=? p)%nat then mkGB rest 0 else mkGB (c :: rest) p)
    end.

(** [Skip()] on the list of chunks; the same loop is in the reader, without
    the [check] of the chunk. *)
Fixpoint skip_chunks (check : list Z -> bool) (l : list (list Z)) (p n : nat) : option (list (list Z) * nat) :=
  if (n =? 0)%nat then Some (l, p)
  else
    match l with
    | [] => None
    | c :: rest =>
        if negb (check c) then None
        else if negb (p <=? length c)%nat then None
        else
          let remaining := (length c - p)%nat in
          if (n <? remaining)%nat then Some (l, (p + n)%nat)
          else skip_chunks check rest 0 (n - remaining)
    end.

Definition GB_Skip (n : nat) : G unit :=
  let! gb := mget in
  let! r := mopt (skip_chunks Check (chunks gb) (position gb) n) in
  mput (mkGB (fst r) (snd r)).

(** The loop of [ConsumeBucketList()]: the bytes consumed, the remaining
    chunks and the position; the same loop is in the reader, without the
    [check] of the chunk. *)
Fixpoint consume_chunks (check : list Z -> bool) (l : list (list Z)) (p n result : nat) : option (nat * list (list Z) * nat) :=
  if (n =? 0)%nat then Some (result, l, p)
  else
    match l with
    | [] => Some (result, [], p)
    | c :: rest =>
        if negb (check c) then None
        else if negb (p <=? length c)%nat then None
        else
          let available := (length c - p)%nat in
          if (n <? available)%nat then Some ((result + n)%nat, l, (p + n)%nat)
          else consume_chunks check rest 0 (n - available) (result + available)
    end.

Definition GB_ConsumeBucketList (n : nat) : G nat :=
  let! gb := mget in
  let! r := mopt (consume_chunks Check (chunks gb) (position gb) n 0) in
  let '(result, l, p) := r in
  mput (mkGB l p) ;;; mret result.

(** The lambda of [FillBucketList()], for all the spans. *)
Fixpoint fill_buckets (skip : nat) (l : list (list Z)) (list : IstreamBucketList) : IstreamBucketList :=
  match l with
  | [] => list
  | b :: l' =>
      if (length b <=? skip)%nat then fill_buckets (skip - length b) l' list
      else if (0 <? skip)%nat then fill_buckets 0 l' (Push (drop skip b) list)
      else fill_buckets 0 l' (Push b list)
  end.

Definition GB_FillBucketList (skip : nat) (gb : GrowingBuffer) (list : IstreamBucketList)
  : IstreamBucketList :=
  fill_buckets skip (ForEachBuffer (position gb) (chunks gb)) list.

(** ** The reader *)

Record GrowingBufferReader := mkReader {
  r_chunks : list (list Z);
  r_position : nat }.

Definition GrowingBufferReader_new (gb : GrowingBuffer) : option GrowingBufferReader :=
  match chunks gb with
  | [] => Some (mkReader [] (position gb))
  | c :: rest =>
      if negb (0 <? length c)%nat then None
      else if negb (position gb <=? length c)%nat then None
      else if (length c <=? position gb)%nat then Some (mkReader rest (position gb))
      else Some (mkReader (c :: rest) (position gb))
  end.

Definition R_IsEOF (r : GrowingBufferReader) : option bool :=
  match r_chunks r with
  | [] => Some true
  | c :: _ =>
      if negb (r_position r <=? length c)%nat then None
      else Some (r_position r =? length c)%nat
  end.

Definition Available (r : GrowingBufferReader) : nat :=
  fold_left (fun result b => (result + length b)%nat) (ForEachBuffer (r_position r) (r_chunks r)) 0%nat.

Definition R_Read (r : GrowingBufferReader) : option (list Z) :=
  match r_chunks r with
  | [] => Some []
  | c :: _ =>
      if negb (r_position r <? length c)%nat then None else Some (drop (r_position r) c)
  end.

Definition R_Consume (n : nat) (r : GrowingBufferReader) : option GrowingBufferReader :=
  match r_chunks r with
  | [] => None
  | c :: rest =>
      if (n =? 0)%nat then Some r
      else
        let p := (r_position r + n)%nat in
        if negb (p <=? length c)%nat then None
        else if (length c <=? p)%nat then Some (mkReader rest 0)
        else Some (mkReader (c :: rest) p)
  end.

Definition R_Skip (n : nat) (r : GrowingBufferReader) : option GrowingBufferReader :=
  '(l, p) ← skip_chunks (fun _ => true) (r_chunks r) (r_position r) n; Some (mkReader l p).

Definition R_FillBucketList (r : GrowingBufferReader) (list : IstreamBucketList) : IstreamBucketList :=
  fold_left (fun list b => Push b list) (ForEachBuffer (r_position r) (r_chunks r)) list.

Definition R_ConsumeBucketList (n : nat) (r : GrowingBufferReader) : option (nat * GrowingBufferReader) :=
  '(result, l, p) ← consume_chunks (fun _ => true) (r_chunks r) (r_position r) n 0; Some (result, mkReader l p).

(** ** The istream *)

Definition GB_GetAvailable (r : GrowingBufferReader) : nat := Available r.

Definition GB_istream_Skip (n : nat) (r : GrowingBufferReader) : option (nat * GrowingBufferReader) :=
  let nbytes := if (Available r <? n)%nat then Available r else n in
  r ← R_Skip nbytes r; Some (nbytes, r).

(** How [_Read()] ends. *)
Inductive read_end := Eof | Closed | Blocking.

(** The loop of [_Read()]: [answer] is what [InvokeData()] returns for a
    span, zero if the handler has closed the istream.  The result has the
    bytes that the handler has consumed. *)
Fixpoint GB_istream_Read (fuel : nat) (answer : list Z -> nat) (r : GrowingBufferReader)
  : option (list Z * GrowingBufferReader * read_end) :=
  match fuel with
  | O => None
  | S fuel' =>
      src ← R_Read r;
      eof ← R_IsEOF r;
      match src with
      | [] => if eof : bool then Some ([], r, Eof) else None
      | _ =>
          if eof : bool then None
          else
            let nbytes := answer src in
            if negb (nbytes <=? length src)%nat then None
            else if (nbytes =? 0)%nat then Some ([], r, Closed)
            else
              r ← R_Consume nbytes r;
              if (nbytes <? length src)%nat then Some (take nbytes src, r, Blocking)
              else
                '(out, r, e) ← GB_istream_Read fuel' answer r;
                Some (src ++ out, r, e)
      end
  end.

Definition GB_istream_ConsumeBucketList (n : nat) (r : GrowingBufferReader)
  : option (nat * bool * GrowingBufferReader) :=
  '(consumed, r) ← R_ConsumeBucketList n r;
  eof ← R_IsEOF r;
  Some (consumed, eof, r).

End Ops.
