(* ===== verification/GrowingBufferFacts.v ===== *)
(** * Growing buffers: proofs

    A growing buffer is a queue of bytes: every operation has the effect that
    the same operation has on the list of the bytes that are still to be read,
    and neither the reader nor the istream loses a byte. *)

From S2P Require Import Prelude Bucket GrowingBuffer.

Section Facts.
Context `{CS : ChunkSize}.

(** The bytes that are still to be read. *)
Definition unread (p : nat) (l : list (list Z)) : list Z := drop p (concat l).
Definition contents (gb : GrowingBuffer) : list Z := unread (position gb) (chunks gb).

Definition chunk_ok (c : list Z) : Prop := (length c <= chunk_capacity)%nat.
Definition head_ok (p : nat) (l : list (list Z)) : Prop :=
  match l with [] => p = 0%nat | c :: _ => (p <= length c)%nat end.

Record WF (gb : GrowingBuffer) : Prop := mkWF {
  wf_chunks : Forall chunk_ok (chunks gb);
  wf_head : head_ok (position gb) (chunks gb);
  wf_position : (position gb < chunk_capacity)%nat }.

Lemma WF_new : WF GrowingBuffer_new.
Proof. split; simpl; [constructor|done|apply chunk_capacity_pos]. Qed.

Lemma Check_true c : Check c = true <-> chunk_ok c.
Proof. unfold Check, chunk_ok. apply Nat.leb_le. Qed.

(** ** Lists of chunks *)

Lemma unread_cons p c l : (p <= length c)%nat -> unread p (c :: l) = drop p c ++ concat l.
Proof. intros Hp. unfold unread. simpl. by rewrite drop_app_le. Qed.

Lemma append_tail_snoc data l c : append_tail data (l ++ [c]) = l ++ [c ++ data].
Proof.
  unfold append_tail. rewrite last_snoc, length_app. simpl.
  replace (pred (length l + 1)) with (length l) by lia. by rewrite take_app_length.
Qed.

Lemma head_ok_app p l k : head_ok p l -> head_ok p (l ++ k) \/ (l = [] /\ p = 0%nat).
Proof. destruct l; simpl; auto. Qed.

Lemma head_ok_snoc p l c data : head_ok p (l ++ [c]) -> head_ok p (l ++ [c ++ data]).
Proof. destruct l; simpl; [rewrite length_app; lia|done]. Qed.

Lemma unread_app p l data : head_ok p l -> unread p (l ++ [data]) = unread p l ++ data.
Proof.
  unfold unread. intros Hp. rewrite concat_app. simpl. rewrite app_nil_r.
  destruct l as [|c l]; simpl in *; [by rewrite Hp|]. apply drop_app_le. rewrite length_app. lia.
Qed.

Lemma unread_snoc p l c data : head_ok p (l ++ [c]) ->
  unread p (l ++ [c ++ data]) = unread p (l ++ [c]) ++ data.
Proof.
  unfold unread. intros Hp. rewrite !concat_app. simpl. rewrite !app_nil_r, !app_assoc.
  apply drop_app_le. rewrite length_app. destruct l; simpl in *; [lia|]. rewrite length_app. lia.
Qed.

(** ** Writing *)

(** The last chunk has room for [n] bytes. *)
Definition tail_room (n : nat) (gb : GrowingBuffer) : Prop :=
  exists l c, chunks gb = l ++ [c] /\ (length c + n <= chunk_capacity)%nat.

(** What preparing a write does: nothing that a reader would see. *)
Definition prepared (gb gb' : GrowingBuffer) : Prop :=
  WF gb' /\ contents gb' = contents gb /\ position gb' = position gb.

Lemma AppendBuffer_wp gb : WF gb ->
  wp AppendBuffer (fun _ gb' => prepared gb gb' /\ tail_room chunk_capacity gb') gb.
Proof.
  intros [H1 H2 H3]. unfold AppendBuffer. wp_step. split; [split_and!|].
  - split; simpl; [|by destruct (chunks gb); simpl in *; [lia|]|done].
    apply Forall_app. split; [done|]. repeat constructor. unfold chunk_ok. simpl. lia.
  - unfold contents. simpl. rewrite unread_app by done. by rewrite app_nil_r.
  - done.
  - exists (chunks gb), []. simpl. split; [done|lia].
Qed.

Lemma check_ends gb : WF gb ->
  match head (chunks gb) with Some c => Check c | None => true end = true /\
  match last (chunks gb) with Some c => Check c | None => true end = true.
Proof.
  intros [H1 _ _]. rewrite Forall_forall in H1. split.
  - destruct (head (chunks gb)) eqn:E; [|done]. apply Check_true, H1.
    destruct (chunks gb); [done|]. injection E as ->. by left.
  - destruct (last (chunks gb)) as [c|] eqn:E; [|done]. apply Check_true, H1.
    apply last_Some in E as (l' & ->). apply elem_of_app. right. by left.
Qed.

Lemma prepared_refl gb : WF gb -> prepared gb gb.
Proof. by intros; split_and!. Qed.

(** Both overloads of [BeginWrite()] and [WriteSome()] start like this. *)
Lemma ensure_room (b : list Z -> bool) (P : list Z -> Prop) gb :
  WF gb ->
  (forall c, b c = false -> chunk_ok c -> P c) -> P [] ->
  wp (match last (chunks gb) with
      | Some c => if b c then AppendBuffer else mret tt
      | None => AppendBuffer
      end) (fun _ gb' => prepared gb gb' /\ exists l c, chunks gb' = l ++ [c] /\ P c) gb.
Proof.
  intros Hwf Hb HP.
  assert (Happ : wp AppendBuffer
    (fun _ gb' => prepared gb gb' /\ exists l c, chunks gb' = l ++ [c] /\ P c) gb).
  { destruct (AppendBuffer_wp gb Hwf) as (u & gb' & E & Hp & _). exists u, gb'.
    split; [done|]. split; [done|]. injection E as _ <-. by exists (chunks gb), []. }
  destruct (last (chunks gb)) as [c|] eqn:E; [|done]. destruct (b c) eqn:Eb; [done|].
  wp_step. split; [by apply prepared_refl|]. apply last_Some in E as (l & E). exists l, c.
  split; [done|]. apply Hb; [done|]. destruct Hwf as [H1 _ _]. rewrite E in H1.
  apply Forall_app in H1 as [_ H1]. by apply Forall_cons in H1 as [].
Qed.

Lemma BeginWrite_size_wp n gb : WF gb -> (n <= chunk_capacity)%nat ->
  wp (BeginWrite_size n) (fun _ gb' => prepared gb gb' /\ tail_room n gb') gb.
Proof.
  intros Hwf Hn. destruct (check_ends gb Hwf) as [Hh Ht]. unfold BeginWrite_size, CheckHead, CheckTail.
  repeat wp_step; [by destruct (last _); [apply Nat.leb_le|]|done|done|].
  eapply wp_mono.
  { apply (ensure_room _ (fun c => (length c + n <= chunk_capacity)%nat)); [done| |simpl; lia].
    intros c Hc _. by apply Nat.ltb_ge in Hc. }
  intros _ gb' [Hp (l & c & E & Hc)]. repeat wp_step.
  - rewrite E, last_snoc. by apply Nat.leb_le.
  - split; [done|]. by exists l, c.
Qed.

Lemma CommitWrite_wp data gb : WF gb -> tail_room (length data) gb ->
  wp (CommitWrite data)
    (fun _ gb' => WF gb' /\ contents gb' = contents gb ++ data /\ position gb' = position gb /\
       exists l c, chunks gb = l ++ [c] /\ chunks gb' = l ++ [c ++ data]) gb.
Proof.
  intros [H1 H2 H3] (l & c & E & Hc). unfold CommitWrite. repeat wp_step. rewrite E, last_snoc.
  repeat wp_step; [by apply Nat.leb_le|]. rewrite append_tail_snoc. unfold contents. rewrite E in *.
  apply Forall_app in H1 as [H1 _]. split_and!; simpl.
  - split; simpl; [|by apply head_ok_snoc|done]. apply Forall_app. split; [done|].
    repeat constructor. unfold chunk_ok. rewrite length_app. lia.
  - by apply unread_snoc.
  - done.
  - by exists l, c.
Qed.

(** What a write does. *)
Definition written (data : list Z) (gb gb' : GrowingBuffer) : Prop :=
  WF gb' /\ contents gb' = contents gb ++ data.

Lemma Write_reserve_wp data gb : WF gb -> (length data <= chunk_capacity)%nat ->
  wp (Write_reserve data) (fun _ gb' => written data gb gb') gb.
Proof.
  intros Hwf Hn. unfold Write_reserve. wp_step.
  eapply wp_mono; [by apply BeginWrite_size_wp|]. intros _ gb1 [(Hwf1 & Hc1 & _) Hr].
  eapply wp_mono; [by apply CommitWrite_wp|]. intros _ gb2 (Hwf2 & Hc2 & _).
  split; [done|]. by rewrite Hc2, Hc1.
Qed.

Lemma BeginWrite_wp gb : WF gb ->
  wp BeginWrite (fun n gb' => prepared gb gb' /\ (0 < n)%nat /\ tail_room n gb') gb.
Proof.
  intros Hwf. destruct (check_ends gb Hwf) as [Hh Ht]. unfold BeginWrite, CheckHead, CheckTail.
  repeat wp_step; [done|done|]. eapply wp_mono.
  { apply (ensure_room _ (fun c => (length c < chunk_capacity)%nat)); [done| |simpl; apply chunk_capacity_pos].
    intros c Hc Hok. apply Nat.eqb_neq in Hc. unfold chunk_ok in Hok. lia. }
  intros _ gb' [Hp (l & c & E & Hc)]. repeat wp_step. rewrite E, last_snoc. repeat wp_step.
  - apply negb_true_iff, Nat.eqb_neq. lia.
  - apply Check_true. unfold chunk_ok. lia.
  - split_and!; [apply Hp..|lia|]. exists l, c. split; [done|lia].
Qed.

(** The text has to fit into one chunk, which [BeginWrite()] asserts. *)
Lemma VFmt_wp text gb : WF gb -> (length text <= chunk_capacity)%nat ->
  wp (VFmt text) (fun _ gb' => written text gb gb') gb.
Proof.
  intros Hwf Hn. unfold VFmt. wp_step. eapply wp_mono; [by apply BeginWrite_wp|].
  intros room gb1 [(Hwf1 & Hc1 & _) [Hr0 Hr]].
  assert (Hmid : wp (if (room <? length text)%nat then BeginWrite_size (length text) else mret tt)
    (fun _ gb' => prepared gb1 gb' /\ tail_room (length text) gb') gb1).
  { destruct (Nat.ltb_spec room (length text)); [by apply BeginWrite_size_wp|].
    wp_step. split; [by apply prepared_refl|]. destruct Hr as (l & c & E & Hc). exists l, c.
    split; [done|lia]. }
  wp_step. eapply wp_mono; [exact Hmid|]. intros _ gb2 [(Hwf2 & Hc2 & _) Hr2].
  eapply wp_mono; [by apply CommitWrite_wp|]. intros _ gb3 (Hwf3 & Hc3 & _).
  split; [done|]. by rewrite Hc3, Hc2, Hc1.
Qed.

Lemma WriteSome_wp src gb : WF gb -> src <> [] ->
  wp (WriteSome src) (fun n gb' => (0 < n <= length src)%nat /\ written (take n src) gb gb') gb.
Proof.
  intros Hwf Hne. unfold WriteSome. wp_step. wp_step. wp_step. eapply wp_mono.
  { apply (ensure_room _ (fun c => (length c < chunk_capacity)%nat)); [done| |simpl; apply chunk_capacity_pos].
    intros c Hc Hok. apply Nat.eqb_neq in Hc. unfold chunk_ok in Hok. lia. }
  intros _ gb1 [(Hwf1 & Hc1 & _) (l & c & E & Hc)]. wp_step. wp_step. rewrite E, last_snoc.
  repeat wp_step; [apply Check_true; unfold chunk_ok; lia|].
  set (n := Nat.min (chunk_capacity - length c) (length src)).
  assert (Hl : (0 < length src)%nat) by (destruct src; simpl; [done|lia]).
  split; [lia|]. rewrite <- E.
  destruct (CommitWrite_wp (take n src) gb1 Hwf1) as (u & gb' & Hrun & Hw & Hcont & _).
  { exists l, c. split; [done|]. rewrite length_take. lia. }
  unfold CommitWrite, mbnd, mget in Hrun. rewrite E, last_snoc in Hrun.
  destruct (_ <=? chunk_capacity)%nat in Hrun; [|done]. injection Hrun as _ <-.
  rewrite E. split; [done|]. by rewrite Hcont, Hc1.
Qed.

(** [Write()] ends, as every iteration makes the rest shorter. *)
Lemma Write_wp src gb : WF gb -> wp (GB_Write src) (fun _ gb' => written src gb gb') gb.
Proof.
  unfold GB_Write.
  assert (H : forall fuel src gb, (length src < fuel)%nat -> WF gb ->
    wp (Write_loop fuel src) (fun _ gb' => written src gb gb') gb); [|apply H; lia].
  clear src gb. induction fuel as [|fuel IH]; intros src gb Hf Hwf; [lia|]. simpl.
  destruct src as [|x src']; [wp_step; split; [done|by rewrite app_nil_r]|].
  set (src := x :: src') in *. wp_step. eapply wp_mono; [by apply WriteSome_wp|].
  intros n gb1 [Hn [Hwf1 Hc1]]. eapply wp_mono; [apply IH; [rewrite length_drop; lia|done]|].
  intros _ gb2 [Hwf2 Hc2]. split; [done|]. by rewrite Hc2, Hc1, <- app_assoc, take_drop.
Qed.

(** Two buffers are joined, if the target is not empty and nothing has been
    read from the source. *)
Lemma AppendMoveFrom_wp src gb : WF gb -> WF src -> chunks gb <> [] -> position src = 0%nat ->
  wp (AppendMoveFrom src) (fun src' gb' => written (contents src) gb gb' /\ chunks src' = []) gb.
Proof.
  intros [H1 H2 H3] [S1 S2 S3] Hne Hp. unfold AppendMoveFrom, GB_IsEmpty.
  case_bool_decide as Hs.
  { wp_step. split; [|done]. split; [done|]. unfold contents, unread. rewrite Hs. simpl.
    by rewrite drop_nil, app_nil_r. }
  repeat wp_step; [by rewrite bool_decide_eq_false_2 by done|]. split; [|done]. split.
  - split; simpl; [by apply Forall_app| |done]. destruct (chunks gb); [done|]. done.
  - unfold contents, unread. simpl. rewrite concat_app, Hp, drop_0. apply drop_app_le.
    destruct (chunks gb); simpl in *; [done|]. rewrite length_app. lia.
Qed.

(** [Reserve()] and [Prepend()]: room is reserved in front of the data. *)
Lemma Reserve_run junk : (length junk <= chunk_capacity)%nat ->
  Reserve junk GrowingBuffer_new = Some (tt, mkGB [junk] (length junk)).
Proof.
  intros Hn. apply Nat.leb_le in Hn.
  unfold Reserve, BeginWrite_size, CommitWrite, mbnd, massert, mget, mmod, mput; simpl. rewrite !Hn. simpl. by rewrite Hn.
Qed.

Lemma Prepend_wp data gb : WF gb -> chunks gb <> [] -> (length data <= position gb)%nat ->
  wp (Prepend data)
    (fun _ gb' => WF gb' /\ contents gb' = data ++ contents gb /\
                  position gb' = (position gb - length data)%nat) gb.
Proof.
  intros [H1 H2 H3] Hne Hn. unfold Prepend. repeat wp_step; [by apply Nat.leb_le|].
  unfold contents. destruct (chunks gb) as [|c l]; [done|]. simpl in H2.
  repeat wp_step; [by apply Nat.leb_le|]. apply Forall_cons in H1 as [Hc Hl].
  set (p := (position gb - length data)%nat). unfold chunk_ok in Hc.
  assert (Hlen : length (take p c) = p) by (rewrite length_take; lia). simpl. split_and!; [|..|done].
  - split; simpl; [constructor; [|done]| |lia]; unfold chunk_ok;
      rewrite !length_app, Hlen, length_drop; lia.
  - rewrite !unread_cons by (rewrite ?length_app, ?Hlen; lia).
    rewrite drop_app_length' by done. by rewrite app_assoc.
Qed.

(** ** Reading *)

Lemma ForEachBuffer_concat l : forall p, concat (ForEachBuffer p l) = unread p l.
Proof.
  unfold unread. induction l as [|c l IH]; intros p; simpl; [by rewrite drop_nil|].
  destruct (Nat.ltb_spec 0 p); simpl.
  - destruct (Nat.leb_spec (length c) p); [by rewrite IH, drop_app_ge|].
    simpl. rewrite IH, drop_0. by rewrite drop_app_le by lia.
  - replace p with 0%nat by lia. by rewrite IH, !drop_0.
Qed.

Lemma span_sizes l : forall n,
  fold_left (fun result (b : list Z) => (result + length b)%nat) l n = (n + length (concat l))%nat.
Proof. induction l as [|c l IH]; intros n; simpl; [lia|]. rewrite IH, length_app. lia. Qed.

Lemma GetSize_contents gb : GB_GetSize gb = length (contents gb).
Proof. unfold GB_GetSize. rewrite span_sizes, ForEachBuffer_concat. done. Qed.

Lemma Dup_contents gb : Dup gb = contents gb.
Proof.
  unfold Dup. rewrite GetSize_contents. destruct (Nat.eqb_spec (length (contents gb)) 0) as [E|E].
  - symmetry. by apply nil_length_inv.
  - apply ForEachBuffer_concat.
Qed.

(** [Read()] shows the first bytes; it shows some if there is
    anything left of the first chunk. *)
Lemma GB_Read_wp gb : WF gb ->
  wp GB_Read (fun b gb' => gb' = gb /\ b `prefix_of` contents gb /\
    ((position gb < length (hd [] (chunks gb)))%nat -> b <> [])) gb.
Proof.
  intros [H1 H2 H3]. unfold GB_Read. repeat wp_step. unfold contents.
  destruct (chunks gb) as [|c l]; [wp_step; split_and!; [done|apply prefix_nil|simpl; lia]|].
  simpl in H2. apply Forall_cons in H1 as [Hc _].
  repeat wp_step; [by apply Check_true|by apply Nat.ltb_lt|by apply Nat.leb_le|].
  split_and!; [done| |].
  - rewrite unread_cons by done. by eexists.
  - simpl. intros Hlt E. apply (f_equal length) in E. rewrite length_drop in E. simpl in E. lia.
Qed.

Lemma drop_contents n p l : drop n (unread p l) = unread (p + n) l.
Proof. unfold unread. apply drop_drop. Qed.

Lemma unread_next p c l n : (p <= length c)%nat -> (length c - p <= n)%nat ->
  unread 0 l = drop (length c - p) (unread p (c :: l)).
Proof.
  intros Hp Hn. rewrite unread_cons by done. unfold unread.
  rewrite drop_app_length' by (rewrite length_drop; lia). by rewrite drop_0.
Qed.

Lemma GB_Consume_wp n gb : WF gb ->
  (n = 0 \/ position gb + n <= length (hd [] (chunks gb)))%nat ->
  wp (GB_Consume n) (fun _ gb' => WF gb' /\ contents gb' = drop n (contents gb)) gb.
Proof.
  intros Hwf Hn. unfold GB_Consume. destruct (Nat.eqb_spec n 0) as [->|Hz].
  { wp_step. by rewrite drop_0. }
  destruct Hwf as [H1 H2 H3]. repeat wp_step. unfold contents.
  destruct (chunks gb) as [|c l]; simpl in Hn, H2; [lia|].
  apply Forall_cons in H1 as [Hc Hl]. pose proof Hc as Hc'. unfold chunk_ok in Hc'.
  repeat wp_step; [by apply Check_true|apply Nat.leb_le; lia|].
  destruct (Nat.leb_spec (length c) (position gb + n)); simpl.
  - split; [split; simpl; [done|by destruct l; simpl; [|lia]|apply chunk_capacity_pos]|].
    rewrite (unread_next (position gb) c l n) by lia. f_equal. lia.
  - split; [split; simpl; [by constructor|lia|lia]|]. by rewrite drop_contents.
Qed.

(** What is left of a list of chunks from which [n] bytes were taken. *)
Record advanced (l : list (list Z)) (p n : nat) (l' : list (list Z)) (p' : nat) : Prop := {
  adv_suffix : l' `suffix_of` l;
  adv_head : head_ok p' l';
  adv_unread : unread p' l' = drop n (unread p l);
  adv_bound : forall cap, (p < cap)%nat -> Forall (fun c => length c <= cap)%nat l -> (p' < cap)%nat;
  adv_inside : (n = 0 /\ p' = p \/ p' = 0 \/ p' < length (hd [] l'))%nat }.

Lemma advanced_0 l p : head_ok p l -> advanced l p 0 l p.
Proof. intros Hp. split; auto. Qed.

Lemma advanced_inside c l p n : (n < length c - p)%nat -> advanced (c :: l) p n (c :: l) (p + n).
Proof.
  intros Hn. split; simpl; [done|lia|by rewrite drop_contents| |lia].
  intros cap _ Hc. apply Forall_cons in Hc as [Hc _]. lia.
Qed.

Lemma advanced_next c l p n l' p' : (p <= length c)%nat -> (length c - p <= n)%nat ->
  advanced l 0 (n - (length c - p)) l' p' -> advanced (c :: l) p n l' p'.
Proof.
  intros Hp Hge [H1 H2 H3 H4 H5]. pose proof (unread_next p c l n Hp Hge) as E. split; auto.
  - by apply suffix_cons_r.
  - rewrite H3, E, drop_drop. f_equal. lia.
  - intros cap Hcap Hc. apply Forall_cons in Hc as [_ Hc]. apply H4; [lia|done].
  - lia.
Qed.

(** [Skip()] of at most everything. *)
Lemma skip_chunks_spec check l : forall p n,
  Forall (fun c => check c = true) l -> head_ok p l -> (n <= length (unread p l))%nat ->
  exists l' p', skip_chunks check l p n = Some (l', p') /\ advanced l p n l' p'.
Proof.
  induction l as [|c l IH]; intros p n Hl Hp Hn.
  { unfold unread in *. simpl in *. rewrite ?drop_nil in *. simpl in *. replace n with 0%nat by lia.
    exists [], p. split; [done|]. by apply advanced_0. }
  simpl. destruct (Nat.eqb_spec n 0) as [->|Hz]; [exists (c :: l), p; split; [done|by apply advanced_0]|].
  simpl in Hp. apply Forall_cons in Hl as [Hc Hl]. rewrite Hc, (proj2 (Nat.leb_le _ _) Hp). simpl.
  destruct (Nat.ltb_spec n (length c - p)) as [Hlt|Hge].
  - exists (c :: l), (p + n)%nat. split; [done|by apply advanced_inside].
  - destruct (IH 0%nat (n - (length c - p))%nat Hl) as (l' & p' & E' & Ha).
    { by destruct l; simpl; [|lia]. }
    { rewrite (unread_next p c l n Hp Hge), length_drop. lia. }
    exists l', p'. split; [done|]. by apply advanced_next.
Qed.

(** [ConsumeBucketList()] takes what there is, at most [n] bytes. *)
Lemma consume_chunks_spec check l : forall p n r,
  Forall (fun c => check c = true) l -> head_ok p l ->
  exists l' p', let m := Nat.min n (length (unread p l)) in
    consume_chunks check l p n r = Some ((r + m)%nat, l', p') /\ advanced l p m l' p'.
Proof.
  induction l as [|c l IH]; intros p n r Hl Hp.
  { unfold unread in *. simpl in *. rewrite ?drop_nil in *. simpl in *. exists [], p. rewrite Nat.min_0_r, Nat.add_0_r.
    split; [by destruct (n =? 0)%nat|]. by apply advanced_0. }
  simpl. destruct (Nat.eqb_spec n 0) as [->|Hz].
  { exists (c :: l), p. rewrite Nat.add_0_r. split; [done|by apply advanced_0]. }
  simpl in Hp. apply Forall_cons in Hl as [Hc Hl]. rewrite Hc, (proj2 (Nat.leb_le _ _) Hp). simpl.
  assert (Hlen : length (unread p (c :: l)) = (length c - p + length (unread 0 l))%nat).
  { rewrite unread_cons by done. unfold unread. by rewrite drop_0, length_app, length_drop. }
  destruct (Nat.ltb_spec n (length c - p)) as [Hlt|Hge].
  - exists (c :: l), (p + n)%nat. replace (Nat.min _ _) with n by lia.
    split; [done|by apply advanced_inside].
  - destruct (IH 0%nat (n - (length c - p))%nat (r + (length c - p))%nat Hl) as (l' & p' & E' & Ha).
    { by destruct l; simpl; [|lia]. }
    exists l', p'. rewrite Hlen. split; [rewrite E'; do 3 f_equal; lia|].
    apply advanced_next; [done|lia|].
    by replace (Nat.min n _ - _)%nat with (Nat.min (n - (length c - p)) (length (unread 0 l))) by lia.
Qed.

Lemma all_checked gb : WF gb -> Forall (fun c => Check c = true) (chunks gb).
Proof. intros [H _ _]. eapply Forall_impl; [exact H|]. intros c. by rewrite Check_true. Qed.

Lemma advanced_WF gb n l p : WF gb -> advanced (chunks gb) (position gb) n l p ->
  WF (mkGB l p) /\ contents (mkGB l p) = drop n (contents gb).
Proof.
  intros [H1 H2 H3] [A1 A2 A3 A4 _]. split; [|done]. split; simpl; [|done|by apply A4].
  destruct A1 as [k E]. rewrite E in H1. by apply Forall_app in H1 as [_ ?].
Qed.

Lemma GB_Skip_wp n gb : WF gb -> (n <= length (contents gb))%nat ->
  wp (GB_Skip n) (fun _ gb' => WF gb' /\ contents gb' = drop n (contents gb)) gb.
Proof.
  intros Hwf Hn. unfold GB_Skip. do 3 wp_step.
  destruct (skip_chunks_spec Check (chunks gb) (position gb) n) as (l & p & E & Ha);
    [by apply all_checked|apply Hwf|done|].
  eapply wp_opt; [exact E|]. wp_step. by apply advanced_WF.
Qed.

Lemma GB_ConsumeBucketList_wp n gb : WF gb ->
  wp (GB_ConsumeBucketList n) (fun m gb' => WF gb' /\ m = Nat.min n (length (contents gb)) /\
    contents gb' = drop m (contents gb)) gb.
Proof.
  intros Hwf. unfold GB_ConsumeBucketList. do 3 wp_step.
  destruct (consume_chunks_spec Check (chunks gb) (position gb) n 0) as (l & p & E & Ha);
    [by apply all_checked|apply Hwf|].
  eapply wp_opt; [exact E|]. simpl. repeat wp_step.
  destruct (advanced_WF _ _ _ _ Hwf Ha) as [H1 H2]. by split_and!.
Qed.

(** The bucket list shows everything after the first [skip] bytes. *)
Lemma fill_buckets_spec l : forall skip b,
  extends b (fill_buckets skip l b) (drop skip (concat l)).
Proof.
  induction l as [|c l IH]; intros skip b; simpl; [rewrite drop_nil; apply extends_refl|].
  destruct (Nat.leb_spec (length c) skip); [rewrite drop_app_ge by done; apply IH|].
  rewrite drop_app_le by lia. specialize (IH 0%nat). rewrite drop_0 in IH.
  destruct (Nat.ltb_spec 0 skip).
  - apply extends_Push, IH.
  - replace skip with 0%nat by lia. rewrite drop_0. apply extends_Push, IH.
Qed.

Lemma GB_FillBucketList_spec skip gb b :
  extends b (GB_FillBucketList skip gb b) (drop skip (contents gb)).
Proof. unfold GB_FillBucketList, contents. rewrite <- ForEachBuffer_concat. apply fill_buckets_spec. Qed.


Lemma drop_min n (l : list Z) : drop (Nat.min n (length l)) l = drop n l.
Proof. destruct (Nat.min_spec n (length l)) as [[? ->]|[? ->]]; [done|]. by rewrite !drop_ge by lia. Qed.

(** ** The byte queue

    The operations that change a buffer, with what they return, and the
    same operations on a list of bytes; [None] if the caller must not call
    the operation. *)

Inductive op :=
  | OpWrite (src : list Z)
  | OpWriteReserve (data : list Z)
  | OpFmt (text : list Z)
  | OpConsumeBuckets (n : nat)
  | OpSkip (n : nat)
  | OpClear.

Definition run_op (o : op) : M GrowingBuffer nat :=
  match o with
  | OpWrite src => GB_Write src ;;; mret (length src)
  | OpWriteReserve data => Write_reserve data ;;; mret (length data)
  | OpFmt text => VFmt text ;;; mret (length text)
  | OpConsumeBuckets n => GB_ConsumeBucketList n
  | OpSkip n => GB_Skip n ;;; mret n
  | OpClear => GB_Clear ;;; mret 0%nat
  end%beng.

Definition queue_op (o : op) (q : list Z) : option (nat * list Z) :=
  match o with
  | OpWrite src => Some (length src, q ++ src)
  | OpWriteReserve data | OpFmt data =>
      if decide (length data <= chunk_capacity)%nat then Some (length data, q ++ data) else None
  | OpConsumeBuckets n => Some (Nat.min n (length q), drop n q)
  | OpSkip n => if decide (n <= length q)%nat then Some (n, drop n q) else None
  | OpClear => Some (0%nat, [])
  end.

Fixpoint run_ops (os : list op) : M GrowingBuffer (list nat) :=
  match os with
  | [] => mret []
  | o :: os => let! n := run_op o in let! ns := run_ops os in mret (n :: ns)
  end%beng.

Fixpoint queue_ops (os : list op) (q : list Z) : option (list nat * list Z) :=
  match os with
  | [] => Some ([], q)
  | o :: os => '(n, q) ← queue_op o q; '(ns, q) ← queue_ops os q; Some (n :: ns, q)
  end.

Lemma run_op_refines o gb n q : WF gb -> queue_op o (contents gb) = Some (n, q) ->
  wp (run_op o) (fun m gb' => m = n /\ WF gb' /\ contents gb' = q) gb.
Proof.
  intros Hwf E. destruct o as [src|data|text|k|k|]; simpl in *; try case_decide; simplify_eq;
    [wp_step|wp_step|wp_step| |wp_step|].
  - eapply wp_mono; [by apply Write_wp|]. intros _ gb' [? ?]. by wp_step.
  - eapply wp_mono; [by apply Write_reserve_wp|]. intros _ gb' [? ?]. by wp_step.
  - eapply wp_mono; [by apply VFmt_wp|]. intros _ gb' [? ?]. by wp_step.
  - eapply wp_mono; [by apply GB_ConsumeBucketList_wp|]. intros m gb' (? & -> & Hc).
    split_and!; [done|done|]. rewrite Hc. apply drop_min.
  - eapply wp_mono; [by apply GB_Skip_wp|]. intros _ gb' [? ?]. by wp_step.
  - unfold GB_Clear. repeat wp_step. split_and!; [done|apply WF_new|done].
Qed.

Lemma run_ops_refines os : forall gb ns q,
  WF gb -> queue_ops os (contents gb) = Some (ns, q) ->
  wp (run_ops os) (fun ms gb' => ms = ns /\ WF gb' /\ contents gb' = q) gb.
Proof.
  induction os as [|o os IH]; intros gb ns q Hwf E; simpl in *; [simplify_eq; by wp_step|].
  destruct (queue_op o (contents gb)) as [[n q1]|] eqn:E1; simplify_eq/=.
  destruct (queue_ops os q1) as [[ns' q2]|] eqn:E2; simplify_eq/=.
  wp_step. eapply wp_mono; [by apply (run_op_refines o gb n q1)|]. intros m gb1 (-> & Hwf1 & Hc1).
  wp_step. rewrite <- Hc1 in E2. eapply wp_mono; [by apply (IH gb1 ns' q)|].
  intros ms gb2 (-> & ? & ?). by wp_step.
Qed.

(** C15: A growing buffer implements a byte queue: for every sequence of
    operations that is allowed on the queue, the operations on the buffer fail no
    assertion, return the same numbers, keep the buffer well-formed and leave
    the contents of the queue; and [GetSize()], [Dup()] and
    [FillBucketList()] show these contents. *)
Theorem growing_buffer_refines_queue os ns q :
  queue_ops os [] = Some (ns, q) ->
  exists gb, run_ops os GrowingBuffer_new = Some (ns, gb) /\ WF gb /\
    GB_GetSize gb = length q /\ Dup gb = q /\
    forall skip b, extends b (GB_FillBucketList skip gb b) (drop skip q).
Proof.
  intros E. destruct (run_ops_refines os GrowingBuffer_new ns q WF_new E) as (? & gb & Hr & -> & Hwf & <-).
  exists gb. split_and!; [done|done|apply GetSize_contents|apply Dup_contents|].
  intros skip b. apply GB_FillBucketList_spec.
Qed.

(** ** The reader and the istream *)

Definition r_contents (r : GrowingBufferReader) : list Z := unread (r_position r) (r_chunks r).

(** No chunk is empty, and the first one has not been consumed. *)
Record RWF (r : GrowingBufferReader) : Prop := {
  rwf_chunks : Forall (fun c => c <> []) (r_chunks r);
  rwf_head : match r_chunks r with
             | [] => True
             | c :: _ => (r_position r < length c)%nat
             end }.

Lemma Available_contents r : Available r = length (r_contents r).
Proof. unfold Available. rewrite span_sizes, ForEachBuffer_concat. done. Qed.

Lemma push_all_spec l : forall b,
  extends b (fold_left (fun list b => Push b list) l b) (concat l).
Proof. induction l as [|c l IH]; intros b; simpl; [apply extends_refl|]. apply extends_Push, IH. Qed.

Lemma R_FillBucketList_spec r b : extends b (R_FillBucketList r b) (r_contents r).
Proof. unfold R_FillBucketList, r_contents. rewrite <- ForEachBuffer_concat. apply push_all_spec. Qed.

Lemma nonempty_length (c : list Z) : c <> [] <-> (0 < length c)%nat.
Proof. destruct c; simpl; split; intros; [done|lia|lia|done]. Qed.

Lemma R_IsEOF_spec r : RWF r -> R_IsEOF r = Some (bool_decide (r_contents r = [])).
Proof.
  intros [_ H]. unfold R_IsEOF, r_contents. destruct (r_chunks r) as [|c l].
  { unfold unread. simpl. rewrite drop_nil. done. }
  rewrite unread_cons, (proj2 (Nat.leb_le _ _)) by lia. simpl. f_equal.
  assert (Hne : drop (r_position r) c ++ concat l <> []).
  { rewrite nonempty_length, length_app, length_drop. lia. }
  rewrite bool_decide_eq_false_2 by done. apply Nat.eqb_neq. lia.
Qed.

(** The reader may start at any buffer whose chunks have data, unless
    the reserved room is all that the first chunk has, but not the last. *)
Lemma GrowingBufferReader_new_spec gb :
  WF gb -> Forall (fun c => c <> []) (chunks gb) ->
  (position gb < length (hd [] (chunks gb)) \/ length (chunks gb) <= 1)%nat ->
  exists r, GrowingBufferReader_new gb = Some r /\ RWF r /\ r_contents r = contents gb.
Proof.
  intros [_ H2 _] Hne Hp. unfold GrowingBufferReader_new, r_contents, contents.
  destruct (chunks gb) as [|c l] eqn:E; simpl in *.
  { eexists. split; [done|]. split; [by split|done]. }
  pose proof (Forall_inv Hne) as Hc. apply nonempty_length in Hc.
  rewrite (proj2 (Nat.ltb_lt _ _) Hc), (proj2 (Nat.leb_le _ _) H2). simpl.
  destruct (Nat.leb_spec (length c) (position gb)) as [Hge|Hlt].
  - destruct l; [|simpl in *; lia]. eexists. split; [done|]. split; [by split|].
    unfold unread. simpl. rewrite drop_nil, app_nil_r. symmetry. by apply drop_ge.
  - eexists. split; [done|]. split; [|done]. split; simpl; [done|lia].
Qed.

Lemma advanced_RWF r n l p : RWF r -> (0 < n)%nat -> advanced (r_chunks r) (r_position r) n l p ->
  RWF (mkReader l p) /\ r_contents (mkReader l p) = drop n (r_contents r).
Proof.
  intros [H1 H2] Hn [A1 A2 A3 _ A5]. split; [|done]. destruct A1 as [k E]. rewrite E in H1.
  apply Forall_app in H1 as [_ H1]. split; simpl; [done|]. destruct l as [|c l]; [done|]. simpl in *.
  pose proof (Forall_inv H1) as Hc. apply nonempty_length in Hc. lia.
Qed.

Lemma r_head_ok r : RWF r -> r_chunks r <> [] -> head_ok (r_position r) (r_chunks r).
Proof. intros [_ H] Hne. destruct (r_chunks r); [done|]. simpl. lia. Qed.

Lemma r_contents_nil r : RWF r -> r_chunks r = [] <-> r_contents r = [].
Proof.
  intros Hr. unfold r_contents. split; [intros ->; apply drop_nil|]. destruct Hr as [_ H].
  destruct (r_chunks r) as [|c l]; [done|]. rewrite unread_cons by lia. intros E.
  apply (f_equal length) in E. rewrite length_app, length_drop in E. simpl in E. lia.
Qed.

Lemma R_Read_spec r : RWF r -> exists src, R_Read r = Some src /\
  r_contents r = src ++ concat (tl (r_chunks r)) /\ (src = [] <-> r_contents r = []) /\
  length src = (length (hd [] (r_chunks r)) - r_position r)%nat.
Proof.
  intros Hr. pose proof (r_contents_nil r Hr) as Hnil. unfold R_Read, r_contents in *. destruct Hr as [_ H].
  destruct (r_chunks r) as [|c l].
  { exists []. unfold unread. simpl. rewrite drop_nil. by split_and!. }
  rewrite (proj2 (Nat.ltb_lt _ _) H). simpl. exists (drop (r_position r) c).
  rewrite unread_cons in * by lia. split_and!; [done|done| |by rewrite length_drop].
  split; [|by intros E; apply app_nil in E as [-> _]]. intros E. apply (f_equal length) in E.
  rewrite length_drop in E. simpl in E. lia.
Qed.

Lemma R_Consume_spec r n : RWF r -> (0 < n <= length (hd [] (r_chunks r)) - r_position r)%nat ->
  exists r', R_Consume n r = Some r' /\ RWF r' /\ r_contents r' = drop n (r_contents r).
Proof.
  intros Hr Hn. destruct (r_chunks r) as [|c l] eqn:E; simpl in Hn; [lia|].
  unfold R_Consume. rewrite E, (proj2 (Nat.eqb_neq n 0)), (proj2 (Nat.leb_le _ _)) by lia. simpl.
  destruct (Nat.leb_spec (length c) (r_position r + n)).
  - eexists. split; [done|]. apply (advanced_RWF r n l 0); [done|lia|]. rewrite E.
    apply advanced_next; [lia|lia|]. replace (n - _)%nat with 0%nat by lia. apply advanced_0.
    by destruct l; simpl; [|lia].
  - eexists. split; [done|]. apply (advanced_RWF r n); [done|lia|]. rewrite E.
    apply advanced_inside. lia.
Qed.

Lemma R_Consume_chunk r n r' : RWF r -> R_Consume n r = Some r' ->
  (0 < n)%nat -> n = (length (hd [] (r_chunks r)) - r_position r)%nat -> r_chunks r' = tl (r_chunks r).
Proof.
  intros [_ H] E Hn0 Hn. unfold R_Consume in E. destruct (r_chunks r) as [|c l]; [done|]. simpl in *.
  rewrite (proj2 (Nat.eqb_neq n 0)), !(proj2 (Nat.leb_le _ _)) in E by lia. simpl in E. by simplify_eq.
Qed.

(** How the handler's answers and the end of [_Read()] belong together. *)
Definition end_ok (answer : list Z -> nat) (rest : list Z) (e : read_end) : Prop :=
  match e with
  | Eof => rest = []
  | Closed => exists src, src `prefix_of` rest /\ src <> [] /\ answer src = 0%nat
  | Blocking => rest <> []
  end.

Lemma istream_Read_loop answer : (forall src, (answer src <= length src)%nat) ->
  forall fuel r, RWF r -> (length (r_chunks r) < fuel)%nat ->
  exists out r' e, GB_istream_Read fuel answer r = Some (out, r', e) /\ RWF r' /\
    r_contents r = out ++ r_contents r' /\ end_ok answer (r_contents r') e.
Proof.
  intros Ha. induction fuel as [|fuel IH]; intros r Hr Hf; [lia|]. simpl.
  destruct (R_Read_spec r Hr) as (src & -> & Hc & Hnil & Hlen). rewrite (R_IsEOF_spec r Hr). simpl.
  destruct src as [|x src'] eqn:Es.
  { rewrite bool_decide_eq_true_2 by (by apply Hnil). exists [], r, Eof. split_and!; try done. by apply Hnil. }
  assert (Hne : src <> []) by (by rewrite Es). rewrite <- Es in *. clear x src' Es. pose proof (Ha src) as Ha'.
  assert (Hrne : r_contents r <> []) by tauto. rewrite bool_decide_eq_false_2 by done.
  rewrite (proj2 (Nat.leb_le _ _) Ha'). simpl. destruct (Nat.eqb_spec (answer src) 0) as [Hz|Hz].
  { exists [], r, Closed. split_and!; try done. exists src. split_and!; [by rewrite Hc; eexists|done|done]. }
  destruct (R_Consume_spec r (answer src) Hr) as (r1 & E1 & Hr1 & Hc1); [lia|]. rewrite E1. simpl.
  destruct (Nat.ltb_spec (answer src) (length src)) as [Hlt|Hge].
  - exists (take (answer src) src), r1, Blocking. rewrite Hc in Hc1. rewrite drop_app_le in Hc1 by lia.
    split_and!; [done|done|by rewrite Hc1, app_assoc, take_drop, <- Hc|]. simpl. rewrite Hc1.
    apply nonempty_length. rewrite length_app, length_drop. lia.
  - pose proof (R_Consume_chunk r _ r1 Hr E1 ltac:(lia) ltac:(lia)) as Hch.
    destruct (IH r1 Hr1) as (out & r' & e & E & Hr' & Hc' & He).
    { rewrite Hch. destruct (r_chunks r); simpl in *; [|lia]. apply nonempty_length in Hne. lia. }
    rewrite E. exists (src ++ out), r', e. split_and!; try done.
    rewrite <- app_assoc, <- Hc', Hc1, Hc. by rewrite drop_app_length' by lia.
Qed.

Lemma GrowingBufferReader_new_chunks gb r :
  GrowingBufferReader_new gb = Some r -> (length (r_chunks r) <= length (chunks gb))%nat.
Proof.
  unfold GrowingBufferReader_new. intros E. destruct (chunks gb); simplify_eq/=; [done|].
  repeat case_match; simplify_eq/=; lia.
Qed.

Lemma istream_Skip_spec n r : RWF r ->
  exists r', GB_istream_Skip n r = Some (Nat.min n (length (r_contents r)), r') /\
    r_contents r' = drop n (r_contents r).
Proof.
  intros Hr. unfold GB_istream_Skip. rewrite Available_contents.
  replace (if (length (r_contents r) <? n)%nat then length (r_contents r) else n)
    with (Nat.min n (length (r_contents r)))
    by (destruct (Nat.ltb_spec (length (r_contents r)) n); lia).
  rewrite <- drop_min. unfold R_Skip. destruct (decide (r_chunks r = [])) as [En|En].
  - assert (Hz : r_contents r = []) by (by apply r_contents_nil). rewrite Hz, En. simpl.
    rewrite Nat.min_0_r. simpl. eexists. split; [done|]. unfold r_contents. simpl. apply drop_nil.
  - destruct (skip_chunks_spec (fun _ => true) (r_chunks r) (r_position r) (Nat.min n (length (r_contents r))))
      as (l & p & E & Hadv); [by apply Forall_forall|by apply r_head_ok|unfold r_contents; lia|].
    rewrite E. simpl. eexists. split; [done|]. apply Hadv.
Qed.

Lemma istream_Consume_spec n r : RWF r ->
  exists r', GB_istream_ConsumeBucketList n r =
      Some (Nat.min n (length (r_contents r)), bool_decide (drop n (r_contents r) = []), r') /\
    r_contents r' = drop n (r_contents r).
Proof.
  intros Hr. rewrite <- drop_min. unfold GB_istream_ConsumeBucketList, R_ConsumeBucketList.
  set (m := Nat.min n (length (r_contents r))).
  assert (Hc : exists l p, consume_chunks (fun _ => true) (r_chunks r) (r_position r) n 0 = Some (m, l, p) /\
    RWF (mkReader l p) /\ r_contents (mkReader l p) = drop m (r_contents r)).
  { destruct (decide (m = 0)%nat) as [Hz|Hz].
    - exists (r_chunks r), (r_position r). rewrite Hz, drop_0. split; [|by destruct r].
      destruct (r_chunks r) as [|c l] eqn:En; [by simpl; destruct (n =? 0)%nat|].
      assert (Hne : r_contents r <> []) by (rewrite <- r_contents_nil by done; by rewrite En).
      apply nonempty_length in Hne. simpl. by replace n with 0%nat by lia.
    - assert (Hne : r_chunks r <> []).
      { rewrite r_contents_nil by done. apply nonempty_length. lia. }
      destruct (consume_chunks_spec (fun _ => true) (r_chunks r) (r_position r) n 0)
        as (l & p & E & Hadv); [by apply Forall_forall|by apply r_head_ok|].
      exists l, p. split; [exact E|]. apply advanced_RWF; [done|lia|done]. }
  destruct Hc as (l & p & E & Hr' & Hc'). rewrite E. simpl. rewrite (R_IsEOF_spec _ Hr'). simpl.
  rewrite Hc'. by eexists.
Qed.

(** The istream that sends a growing buffer loses, duplicates and
    reorders nothing: [_Read()] ends, passes a prefix of the bytes and keeps the
    rest, and reports end of file when nothing is left; the bucket list shows
    all bytes (as far as it has room), [_ConsumeBucketList()] removes as many
    as there are and [_Skip()] as well; what they report is the number of bytes removed. *)
Theorem istream_gb_spec gb answer n :
  WF gb -> Forall (fun c => c <> []) (chunks gb) ->
  (position gb < length (hd [] (chunks gb)) \/ length (chunks gb) <= 1)%nat ->
  (forall src, (answer src <= length src)%nat) ->
  exists r, GrowingBufferReader_new gb = Some r /\ GB_GetAvailable r = length (contents gb) /\
    (forall b, extends b (R_FillBucketList r b) (contents gb)) /\
    (exists out r' e, GB_istream_Read (S (length (chunks gb))) answer r = Some (out, r', e) /\
       contents gb = out ++ r_contents r' /\ end_ok answer (r_contents r') e) /\
    (exists r', GB_istream_Skip n r = Some (Nat.min n (length (contents gb)), r') /\
       r_contents r' = drop n (contents gb)) /\
    (exists r', GB_istream_ConsumeBucketList n r =
         Some (Nat.min n (length (contents gb)), bool_decide (drop n (contents gb) = []), r') /\
       r_contents r' = drop n (contents gb)).
Proof.
  intros Hwf Hne Hp Ha. destruct (GrowingBufferReader_new_spec gb Hwf Hne Hp) as (r & E & Hr & Hc).
  exists r. rewrite <- Hc. split_and!; [done|apply Available_contents|apply R_FillBucketList_spec|..].
  - destruct (istream_Read_loop answer Ha (S (length (chunks gb))) r Hr) as (out & r' & e & H); [|naive_solver].
    apply GrowingBufferReader_new_chunks in E. lia.
  - by apply istream_Skip_spec.
  - by apply istream_Consume_spec.
Qed.

End Facts.

(** ** Examples *)

Module GrowingBufferExamples.

(** Chunks of four bytes. *)
#[local] Instance small : ChunkSize := { chunk_capacity := 4; chunk_capacity_pos := ltac:(lia) }.

Definition some_ops : list op :=
  [OpWrite [1; 2; 3; 4; 5; 6]; OpSkip 3; OpFmt [7; 8; 9]; OpConsumeBuckets 2; OpWriteReserve [10]].

Lemma growing_buffer_refines_queue_witness :
  queue_ops some_ops [] = Some ([6; 3; 3; 2; 1]%nat, [6; 7; 8; 9; 10]) /\
  exists gb, run_ops some_ops GrowingBuffer_new = Some ([6; 3; 3; 2; 1]%nat, gb) /\ WF gb /\
    GB_GetSize gb = 5%nat /\ Dup gb = [6; 7; 8; 9; 10] /\
    forall skip b, extends b (GB_FillBucketList skip gb b) (drop skip [6; 7; 8; 9; 10]).
Proof.
  split; [reflexivity|]. apply (growing_buffer_refines_queue some_ops [6; 3; 3; 2; 1]%nat [6; 7; 8; 9; 10]). reflexivity.
Defined.

Definition two_chunks : GrowingBuffer := mkGB [[1; 2; 3; 4]; [5; 6]] 1.

Lemma istream_gb_spec_witness :
  exists r, GrowingBufferReader_new two_chunks = Some r /\
    GB_GetAvailable r = length (contents two_chunks) /\
    (forall b, extends b (R_FillBucketList r b) (contents two_chunks)) /\
    (exists out r' e, GB_istream_Read 3 (fun src => Nat.min 3 (length src)) r = Some (out, r', e) /\
       contents two_chunks = out ++ r_contents r' /\
       end_ok (fun src => Nat.min 3 (length src)) (r_contents r') e) /\
    (exists r', GB_istream_Skip 4 r = Some (Nat.min 4 (length (contents two_chunks)), r') /\
       r_contents r' = drop 4 (contents two_chunks)) /\
    (exists r', GB_istream_ConsumeBucketList 4 r =
         Some (Nat.min 4 (length (contents two_chunks)), bool_decide (drop 4 (contents two_chunks) = []), r') /\
       r_contents r' = drop 4 (contents two_chunks)).
Proof.
  apply (istream_gb_spec two_chunks (fun src => Nat.min 3 (length src)) 4).
  - split; simpl; [repeat constructor; unfold chunk_ok; simpl; lia|lia|lia].
  - repeat constructor; discriminate.
  - left. simpl. lia.
  - intros src. lia.
Defined.

(** The reader of a buffer whose first chunk has nothing but reserved room:
    the chunk is removed, but the position is kept, and the first bytes of
    the next chunk are lost. *)
Lemma reader_position_kept :
  (exists gb, (Reserve [0; 0; 0] ;;; Write_reserve [1; 2; 3; 4])%beng GrowingBuffer_new = Some (tt, gb) /\
   contents gb = [1; 2; 3; 4] /\
   exists r, GrowingBufferReader_new gb = Some r /\ R_Read r = Some [4] /\ Available r = 1%nat).
Proof. eexists. split; [reflexivity|]. split; [reflexivity|]. eexists. split; [reflexivity|]. done. Qed.

(** A buffer cannot be appended to an empty one. *)
Lemma append_to_empty_fails : AppendMoveFrom two_chunks GrowingBuffer_new = None.
Proof. reflexivity. Qed.

End GrowingBufferExamples.
