(* ===== verification/CharUtil.v ===== *)
(** * Character classes

    The character functions of the library that the parsers use
    (util/CharUtil.hxx, util/StringStrip.hxx) are parameters; the instance is what they do with
    ASCII characters, for the examples.  On top of them are the classes of
    src/parser/HtmlSyntax.hxx and CssSyntax.hxx. *)

From S2P Require Import Prelude.

Class CharUtil := {
  IsASCII : Z -> bool;
  IsWhitespaceOrNull : Z -> bool;
  IsDigitASCII : Z -> bool;
  IsAlphaASCII : Z -> bool;
  IsAlphaNumericASCII : Z -> bool;
  ToLowerASCII : Z -> Z;
  (** the characters that [StripLeft()] removes *)
  IsStripped : Z -> bool }.

Definition in_range (a b : ascii) (c : Z) : bool := (chr a <=? c) && (c <=? chr b).

Definition AsciiChars : CharUtil := {|
  IsASCII c := c <? 128;
  IsWhitespaceOrNull c := c <=? 32;
  IsDigitASCII c := in_range "0" "9" c;
  IsAlphaASCII c := in_range "a" "z" c || in_range "A" "Z" c;
  IsAlphaNumericASCII c := in_range "a" "z" c || in_range "A" "Z" c || in_range "0" "9" c;
  ToLowerASCII c := if in_range "A" "Z" c then c + 32 else c;
  IsStripped c := c <=? 32 |}.

Section Classes.
Context `{CU : CharUtil}.

Definition is_html_name_start_char (ch : Z) : bool :=
  IsAlphaASCII ch || (ch =? chr ":") || (ch =? chr "_").

Definition is_html_name_char (ch : Z) : bool :=
  is_html_name_start_char ch || IsDigitASCII ch || (ch =? chr "-") || (ch =? chr ".").

Definition is_css_nonascii (ch : Z) : bool := negb (IsASCII ch).

Definition is_css_nmstart (ch : Z) : bool :=
  (ch =? chr "_") || IsAlphaASCII ch || is_css_nonascii ch || (ch =? chr "\").

Definition is_css_nmchar (ch : Z) : bool := is_css_nmstart ch || IsDigitASCII ch || (ch =? chr "-").

Definition is_css_ident_start (ch : Z) : bool := (ch =? chr "-") || is_css_nmstart ch.

Definition is_css_ident_char (ch : Z) : bool := is_css_nmchar ch.

End Classes.
