(* ===== verification/ExpansibleBuffer.v ===== *)
(** * Expansible buffers

    Models src/memory/ExpansibleBuffer.hxx and ExpansibleBuffer.cxx: a
    contiguous buffer that grows in steps of 1 kB up to a hard limit.

    The bytes in use are a list ([size] is its length); the memory that is
    allocated is only a number.  Sizes of objects in memory are below 2^63, so
    that the sum of two of them does not wrap. *)

From S2P Require Import Prelude.

Record ExpansibleBuffer := mkEB {
  eb_data : list Z;
  eb_max_size : Z;
  eb_hard_limit : Z }.

Definition EB_size (b : ExpansibleBuffer) : Z := Z.of_nat (length (eb_data b)).

Definition ExpansibleBuffer_new (initial_size hard_limit : Z) : option ExpansibleBuffer :=
  if (0 <? initial_size) && (initial_size <=? hard_limit) then Some (mkEB [] initial_size hard_limit)
  else None.

Definition EB_Clear (b : ExpansibleBuffer) : ExpansibleBuffer := mkEB [] (eb_max_size b) (eb_hard_limit b).

(** [None] is a failed assertion, the boolean is the result. *)
Definition Resize (new_max_size : Z) (b : ExpansibleBuffer) : option (bool * ExpansibleBuffer) :=
  if negb (eb_max_size b <? new_max_size) then None
  else if eb_hard_limit b <? new_max_size then Some (false, b)
  else Some (true, mkEB (eb_data b) new_max_size (eb_hard_limit b)).

(** The size that is allocated for [n] bytes. *)
Definition round_up (n : Z) : Z := Z.lor (n - 1) 1023 + 1.

Definition EB_BeginWrite (add_size : Z) (b : ExpansibleBuffer) : option (bool * ExpansibleBuffer) :=
  let new_size := EB_size b + add_size in
  if eb_max_size b <? new_size then Resize (round_up new_size) b else Some (true, b).

(** [CommitWrite()], after [src] has been copied to the pointer that
    [BeginWrite()] has returned. *)
Definition EB_CommitWrite (src : list Z) (b : ExpansibleBuffer) : ExpansibleBuffer :=
  mkEB (eb_data b ++ src) (eb_max_size b) (eb_hard_limit b).

Definition EB_Write (src : list Z) (b : ExpansibleBuffer) : option (bool * ExpansibleBuffer) :=
  '(ok, b) ← EB_BeginWrite (Z.of_nat (length src)) b;
  if ok : bool then Some (true, EB_CommitWrite src b) else Some (false, b).

Definition EB_Set (src : list Z) (b : ExpansibleBuffer) : option (bool * ExpansibleBuffer) :=
  let n := Z.of_nat (length src) in
  '(ok, b) ← (if eb_max_size b <? n then Resize (round_up n) b else Some (true, b));
  if ok : bool then Some (true, mkEB src (eb_max_size b) (eb_hard_limit b)) else Some (false, b).

Definition EB_Read (b : ExpansibleBuffer) : list Z := eb_data b.
Definition ReadStringView (b : ExpansibleBuffer) : list Z := eb_data b.

(** The result is the buffer, whose bytes are supposed to be a C string. *)
Definition EB_ReadString (b : ExpansibleBuffer) : option ExpansibleBuffer :=
  match last (eb_data b) with
  | Some 0 => Some b
  | _ => '(_, b) ← EB_Write [0] b; Some b
  end.

Definition EB_Dup (b : ExpansibleBuffer) : list Z := eb_data b.
Definition StringDup (b : ExpansibleBuffer) : list Z := eb_data b ++ [0].

(** ** Facts *)

(** The data fits into the memory, which is within the limit. *)
Record EB_WF (b : ExpansibleBuffer) : Prop := {
  eb_fits : EB_size b <= eb_max_size b;
  eb_pos : 0 < eb_max_size b;
  eb_limit : eb_max_size b <= eb_hard_limit b }.

Lemma EB_new_WF i l b : ExpansibleBuffer_new i l = Some b -> EB_WF b /\ eb_data b = [].
Proof.
  unfold ExpansibleBuffer_new. destruct (_ && _) eqn:E; [|done]. intros [= <-]. simpl_bool.
  split; [|done]. split; unfold EB_size; simpl; lia.
Qed.

(** The smallest multiple of 1024 that is not less than [n]. *)
Lemma round_up_spec n : 0 < n -> round_up n = ((n - 1) / 1024 + 1) * 1024.
Proof.
  intros Hn. unfold round_up. change 1023 with (Z.ones 10).
  set (x := Z.shiftl (Z.shiftr (n - 1) 10) 10).
  assert (H0 : Z.land x (Z.ones 10) = 0).
  { rewrite Z.land_ones by lia. unfold x. rewrite Z.shiftl_mul_pow2 by lia. apply Z.mod_mul. lia. }
  assert (H : Z.lor (n - 1) (Z.ones 10) = x + Z.ones 10).
  { rewrite Z.add_nocarry_lxor, Z.lxor_lor by done. apply Z.bits_inj'. intros k Hk.
    rewrite !Z.lor_spec. destruct (Z.ltb_spec k 10).
    - rewrite Z.ones_spec_low by lia. by rewrite !orb_true_r.
    - unfold x. rewrite Z.shiftl_spec_high, Z.shiftr_spec by lia. by replace (k - 10 + 10) with k by lia. }
  unfold x in H.
  rewrite H, Z.shiftl_mul_pow2, Z.shiftr_div_pow2 by lia. change (Z.ones 10) with 1023. change (2 ^ 10) with 1024. lia.
Qed.

(** [lia] that knows about division. *)
Ltac dlia := Z.div_mod_to_equations; lia.

Lemma round_up_bounds n : 0 < n -> n <= round_up n < n + 1024.
Proof. intros Hn. rewrite round_up_spec by done. dlia. Qed.

Lemma round_up_mid a b : 0 < a -> a <= b -> b <= round_up a -> round_up b = round_up a.
Proof. intros Ha Hab Hb. rewrite round_up_spec in Hb by done. rewrite !round_up_spec by lia. f_equal. f_equal. dlia. Qed.

(** If the limit is a multiple of 1024, then nothing is refused below it. *)
Lemma round_up_limit n l : 0 < n -> l mod 1024 = 0 -> n <= l <-> round_up n <= l.
Proof.
  intros Hn Hl. rewrite round_up_spec by done. split; dlia.
Qed.

(** What is allocated for a buffer that gets [n] bytes. *)
Definition grown (b : ExpansibleBuffer) (n : Z) : Z := if eb_max_size b <? n then round_up n else eb_max_size b.

(** [Write()] appends, or it refuses and changes nothing. *)
Lemma EB_Write_spec src b : EB_WF b ->
  exists ok b', EB_Write src b = Some (ok, b') /\ EB_WF b' /\
    (ok = true -> b' = mkEB (eb_data b ++ src) (grown b (EB_size b + Z.of_nat (length src))) (eb_hard_limit b)) /\
    (ok = false -> b' = b) /\
    (ok = true <-> grown b (EB_size b + Z.of_nat (length src)) <= eb_hard_limit b).
Proof.
  intros [H1 H2 H3]. unfold EB_Write, EB_BeginWrite, grown.
  set (n := EB_size b + Z.of_nat (length src)).
  assert (Hsz : forall m, EB_size (mkEB (eb_data b ++ src) m (eb_hard_limit b)) = n).
  { intros m. unfold EB_size, n. simpl. rewrite length_app. unfold EB_size. lia. }
  destruct (Z.ltb_spec (eb_max_size b) n) as [Hlt|Hge]; simpl.
  - pose proof (round_up_bounds n ltac:(lia)). unfold Resize.
    rewrite (proj2 (Z.ltb_lt _ _)) by lia. simpl. destruct (Z.ltb_spec (eb_hard_limit b) (round_up n)); simpl.
    + exists false, b. split_and!; try done; split; try done; lia.
    + exists true, (mkEB (eb_data b ++ src) (round_up n) (eb_hard_limit b)).
      split_and!; try done. split; rewrite ?Hsz; simpl; lia.
  - exists true, (mkEB (eb_data b ++ src) (eb_max_size b) (eb_hard_limit b)).
    split_and!; try done. split; rewrite ?Hsz; simpl; lia.
Qed.

(** Two writes are as good as one. *)
Lemma EB_Write_app s t b b' : EB_WF b -> EB_Write (s ++ t) b = Some (true, b') <->
  exists b1, EB_Write s b = Some (true, b1) /\ EB_Write t b1 = Some (true, b').
Proof.
  intros Hwf. pose proof Hwf as [H1 H2 H3].
  destruct (EB_Write_spec s b Hwf) as (ok1 & b1 & E1 & Hwf1 & Ht1 & Hf1 & Hi1).
  destruct (EB_Write_spec (s ++ t) b Hwf) as (ok & b2 & E & Hwf2 & Ht & Hf & Hi).
  destruct (EB_Write_spec t b1 Hwf1) as (ok2 & b3 & E2 & Hwf3 & Ht2 & Hf2 & Hi2).
  rewrite E, E1. rewrite length_app in *.
  assert (Hstep : ok1 = true -> grown b1 (EB_size b1 + Z.of_nat (length t)) = grown b (EB_size b + Z.of_nat (length s + length t))).
  { intros Hok. rewrite (Ht1 Hok). unfold grown, EB_size in *. simpl. rewrite length_app.
    set (m := Z.of_nat (length (eb_data b))) in *.
    replace (Z.of_nat (length (eb_data b) + length s) + Z.of_nat (length t))
      with (m + Z.of_nat (length s + length t)) by lia.
    destruct (Z.ltb_spec (eb_max_size b) (m + Z.of_nat (length s))) as [Hlt|Hge]; [|done].
    pose proof (round_up_bounds (m + Z.of_nat (length s)) ltac:(lia)).
    rewrite (proj2 (Z.ltb_lt (eb_max_size b) _)) by lia.
    destruct (Z.ltb_spec (round_up (m + Z.of_nat (length s))) (m + Z.of_nat (length s + length t))); [done|].
    symmetry. apply round_up_mid; lia. }
  assert (Hmono : ok = true -> ok1 = true).
  { rewrite Hi, Hi1. unfold grown. intros Hle.
    destruct (Z.ltb_spec (eb_max_size b) (EB_size b + Z.of_nat (length s))); [|lia].
    rewrite (proj2 (Z.ltb_lt (eb_max_size b) _)) in Hle by lia.
    revert Hle. rewrite !round_up_spec by (unfold EB_size in *; lia). dlia. }
  split.
  - intros [= -> ->]. specialize (Hmono eq_refl). exists b1. split; [by rewrite Hmono|]. rewrite E2.
    assert (Hok2 : ok2 = true).
    { apply Hi2. rewrite Hstep by done. rewrite (Ht1 Hmono). simpl. by apply Hi. }
    rewrite Hok2. f_equal. f_equal. rewrite (Ht2 Hok2), Hstep, (Ht eq_refl), (Ht1 Hmono) by done. simpl.
    by rewrite app_assoc.
  - intros (b1' & [= -> <-] & E3). rewrite E2 in E3. injection E3 as -> ->. specialize (Hstep eq_refl).
    assert (Hok : ok = true).
    { apply Hi. rewrite <- Hstep. replace (eb_hard_limit b) with (eb_hard_limit b1); [by apply Hi2|].
      by rewrite (Ht1 eq_refl). }
    rewrite Hok. f_equal. f_equal. rewrite (Ht2 eq_refl), Hstep, (Ht Hok), (Ht1 eq_refl). simpl.
    by rewrite app_assoc.
Qed.

(** With a limit that is a multiple of 1024, exactly the writes that exceed
    it are refused. *)
Lemma EB_Write_iff src b : EB_WF b -> eb_hard_limit b mod 1024 = 0 ->
  exists ok b', EB_Write src b = Some (ok, b') /\
    ok = (EB_size b + Z.of_nat (length src) <=? eb_hard_limit b).
Proof.
  intros Hwf Hl. destruct (EB_Write_spec src b Hwf) as (ok & b' & E & _ & _ & _ & Hi). exists ok, b'.
  split; [done|]. apply eq_bool_prop_intro. rewrite !Is_true_true, Hi, Z.leb_le. unfold grown.
  destruct Hwf as [H1 H2 H3]. destruct (Z.ltb_spec (eb_max_size b) (EB_size b + Z.of_nat (length src))); [|lia].
  symmetry. apply round_up_limit; [lia|done].
Qed.

Lemma EB_Clear_WF b : EB_WF b -> EB_WF (EB_Clear b).
Proof. intros [H1 H2 H3]. split; unfold EB_size in *; simpl; lia. Qed.

Lemma EB_Write_WF src b ok b' : EB_WF b -> EB_Write src b = Some (ok, b') -> EB_WF b'.
Proof. intros Hb E. destruct (EB_Write_spec src b Hb) as (? & ? & E' & ? & _). by simplify_eq. Qed.

#[export] Hint Resolve EB_Clear_WF EB_Write_WF : beng.
