(* ===== verification/XmlParser.v ===== *)
(** * The XML parser

    Models src/parser/XmlParser.hxx and XmlParser.cxx, the parser that feeds
    the template processor: a state machine that reads its input in pieces of
    any size and calls a handler.

    A name buffer is the list of its bytes, so that its length variable is the
    length of the list.  In a call of [Feed()], [off] is [buffer - start] and [rest] is
    the input from [buffer] to [end]. *)

From S2P Require Import Prelude CharUtil ExpansibleBuffer.

Inductive XmlParserTagType := OPEN | CLOSE | SHORT | PI.

Record XmlParserTag := mkTag {
  tag_start : Z;
  tag_end : Z;
  tag_name : list Z;
  tag_type : XmlParserTagType }.

Record XmlParserAttribute := mkAttr {
  name_start : Z;
  value_start : Z;
  value_end : Z;
  attr_end : Z;
  attr_name : list Z;
  attr_value : list Z }.

(** What happens in [OnXmlTagFinished()]: the parser is closed, or it goes
    on, perhaps after a call of [Script()]. *)
Inductive tag_finished := TagClosed | TagGoOn (script : bool).

(** A handler with a state [H]. *)
Record XmlParserHandler (H : Type) := mkHandler {
  OnXmlTagStart : XmlParserTag -> H -> bool * H;
  OnXmlTagFinished : XmlParserTag -> H -> tag_finished * H;
  OnXmlAttributeFinished : XmlParserAttribute -> H -> H;
  OnXmlCdata : list Z -> bool -> Z -> H -> nat * H }.
#[global] Arguments OnXmlTagStart {H}.
#[global] Arguments OnXmlTagFinished {H}.
#[global] Arguments OnXmlAttributeFinished {H}.
#[global] Arguments OnXmlCdata {H}.

Inductive State :=
  | S_NONE | S_SCRIPT | S_SCRIPT_ELEMENT_NAME | S_ELEMENT_NAME | S_ELEMENT_TAG | S_ELEMENT_BORING
  | S_ATTR_NAME | S_AFTER_ATTR_NAME | S_BEFORE_ATTR_VALUE | S_ATTR_VALUE | S_ATTR_VALUE_COMPAT
  | S_SHORT | S_INSIDE | S_DECLARATION_NAME | S_CDATA_SECTION | S_COMMENT.

Record XmlParser := mkXml {
  position : Z;
  state : State;
  tag : XmlParserTag;
  tag_name_buffer : list Z;
  attr_name_buffer : list Z;
  attr_value_delimiter : Z;
  attr_value_buffer : ExpansibleBuffer;
  attr : XmlParserAttribute;
  cdend_match : nat;
  minus_count : nat }.

(** Assignments to members. *)
Definition set_position v x := mkXml v (state x) (tag x) (tag_name_buffer x) (attr_name_buffer x)
  (attr_value_delimiter x) (attr_value_buffer x) (attr x) (cdend_match x) (minus_count x).
Definition set_state v x := mkXml (position x) v (tag x) (tag_name_buffer x) (attr_name_buffer x)
  (attr_value_delimiter x) (attr_value_buffer x) (attr x) (cdend_match x) (minus_count x).
Definition set_tag v x := mkXml (position x) (state x) v (tag_name_buffer x) (attr_name_buffer x)
  (attr_value_delimiter x) (attr_value_buffer x) (attr x) (cdend_match x) (minus_count x).
Definition set_tag_name v x := mkXml (position x) (state x) (tag x) v (attr_name_buffer x)
  (attr_value_delimiter x) (attr_value_buffer x) (attr x) (cdend_match x) (minus_count x).
Definition set_attr_name v x := mkXml (position x) (state x) (tag x) (tag_name_buffer x) v
  (attr_value_delimiter x) (attr_value_buffer x) (attr x) (cdend_match x) (minus_count x).
Definition set_delimiter v x := mkXml (position x) (state x) (tag x) (tag_name_buffer x) (attr_name_buffer x)
  v (attr_value_buffer x) (attr x) (cdend_match x) (minus_count x).
Definition set_value v x := mkXml (position x) (state x) (tag x) (tag_name_buffer x) (attr_name_buffer x)
  (attr_value_delimiter x) v (attr x) (cdend_match x) (minus_count x).
Definition set_attr v x := mkXml (position x) (state x) (tag x) (tag_name_buffer x) (attr_name_buffer x)
  (attr_value_delimiter x) (attr_value_buffer x) v (cdend_match x) (minus_count x).
Definition set_cdend v x := mkXml (position x) (state x) (tag x) (tag_name_buffer x) (attr_name_buffer x)
  (attr_value_delimiter x) (attr_value_buffer x) (attr x) v (minus_count x).
Definition set_minus v x := mkXml (position x) (state x) (tag x) (tag_name_buffer x) (attr_name_buffer x)
  (attr_value_delimiter x) (attr_value_buffer x) (attr x) (cdend_match x) v.

Definition set_tag_start v x := set_tag (mkTag v (tag_end (tag x)) (tag_name (tag x)) (tag_type (tag x))) x.
Definition set_tag_end v x := set_tag (mkTag (tag_start (tag x)) v (tag_name (tag x)) (tag_type (tag x))) x.
Definition set_tag_type v x := set_tag (mkTag (tag_start (tag x)) (tag_end (tag x)) (tag_name (tag x)) v) x.

Definition set_name_start v x := let a := attr x in
  set_attr (mkAttr v (value_start a) (value_end a) (attr_end a) (attr_name a) (attr_value a)) x.
Definition set_value_start v x := let a := attr x in
  set_attr (mkAttr (name_start a) v (value_end a) (attr_end a) (attr_name a) (attr_value a)) x.
Definition set_value_end v x := let a := attr x in
  set_attr (mkAttr (name_start a) (value_start a) v (attr_end a) (attr_name a) (attr_value a)) x.
Definition set_attr_end v x := let a := attr x in
  set_attr (mkAttr (name_start a) (value_start a) (value_end a) v (attr_name a) (attr_value a)) x.

Section Parser.
Context `{CU : CharUtil} {H : Type} (handler : XmlParserHandler H).

(** The members without an initial value are zero. *)
Definition XmlParser_new : option XmlParser :=
  b ← ExpansibleBuffer_new 512 8192;
  Some (mkXml 0 S_NONE (mkTag 0 0 [] OPEN) [] [] 0 b (mkAttr 0 0 0 0 [] []) 0 0).

Definition Script (x : XmlParser) : option XmlParser :=
  match state x with
  | S_NONE | S_INSIDE => Some (set_state S_SCRIPT x)
  | _ => None
  end.

(** What an iteration of the loop of [Feed()] leads to: another iteration,
    a return of [Feed()], the destruction of the parser (zero is
    returned), or a failed assertion. *)
Inductive outcome :=
  | Next (x : XmlParser) (h : H) (off : nat) (rest : list Z)
  | Ret (x : XmlParser) (h : H) (nbytes : nat)
  | Destroyed (h : H)
  | Failed.

Definition pos (x : XmlParser) (off : nat) : Z := position x + Z.of_nat off.

Definition return_ (x : XmlParser) (h : H) (nbytes : nat) : outcome :=
  Ret (set_position (position x + Z.of_nat nbytes) x) h nbytes.

(** Pass text to the handler; [k] goes on if the handler has consumed
    everything.  The text begins at the offset [off]. *)
Definition cdata (x : XmlParser) (h : H) (off : nat) (text : list Z) (escaped : bool)
    (k : H -> outcome) : outcome :=
  let '(nbytes, h) := OnXmlCdata handler text escaped (pos x off) h in
  if negb (nbytes <=? length text)%nat then Failed
  else if (nbytes <? length text)%nat then return_ x h (off + nbytes)
  else k h.

Definition InvokeAttributeFinished (x : XmlParser) (h : H) : XmlParser * H :=
  let a := attr x in
  let x := set_attr (mkAttr (name_start a) (value_start a) (value_end a) (attr_end a)
             (attr_name_buffer x) (ReadStringView (attr_value_buffer x))) x in
  (x, OnXmlAttributeFinished handler (attr x) h).

(** The call of [OnXmlTagFinished()]; [k] gets the parser after a possible
    call of [Script()]. *)
Definition finish_tag (x : XmlParser) (h : H) (k : XmlParser -> H -> outcome) : outcome :=
  match OnXmlTagFinished handler (tag x) h with
  | (TagClosed, h) => Destroyed h
  | (TagGoOn script, h) =>
      if script then match Script x with Some x => k x h | None => Failed end else k x h
  end.

Definition feed_none (x : XmlParser) (h : H) (off : nat) (rest : list Z) : outcome :=
  let '(text, r) := span_while (fun c => negb (c =? chr "<")) rest in
  let found h :=
    let p := (off + length text)%nat in
    Next (set_tag_type OPEN (set_tag_name []
           (set_state (match state x with S_NONE => S_ELEMENT_NAME | _ => S_SCRIPT_ELEMENT_NAME end)
             (set_tag_start (pos x p) x)))) h (S p) (tl r) in
  match r with
  | [] => cdata x h off text true (fun h => return_ x h (off + length text))
  | _ => match text with [] => found h | _ => cdata x h off text true found end
  end.

Definition feed_script_element_name (x : XmlParser) (h : H) (off : nat) (c : Z) (r : list Z) : outcome :=
  if c =? chr "/" then Next (set_tag_type CLOSE (set_state S_ELEMENT_NAME x)) h (S off) r
  else
    let '(nbytes, h) := OnXmlCdata handler (str "<") true (pos x off) h in
    if negb (nbytes <=? S (length r))%nat then Failed
    else if (nbytes =? 0)%nat then return_ x h off
    else Next (set_state S_SCRIPT x) h off (c :: r).

(** [sizeof(tag_name)] and [sizeof(attr_name)] *)
Definition NAME_SIZE : nat := 64.

Fixpoint feed_element_name (x : XmlParser) (h : H) (off : nat) (rest : list Z) : outcome :=
  match rest with
  | [] => Next x h off []
  | c :: r =>
      let empty := (length (tag_name_buffer x) =? 0)%nat in
      if is_html_name_char c then
        if (length (tag_name_buffer x) =? NAME_SIZE)%nat then Next (set_state S_NONE x) h off rest
        else feed_element_name (set_tag_name (tag_name_buffer x ++ [ToLowerASCII c]) x) h (S off) r
      else if (c =? chr "/") && empty then feed_element_name (set_tag_type CLOSE x) h (S off) r
      else if (c =? chr "?") && empty then feed_element_name (set_tag_type PI x) h (S off) r
      else if (IsWhitespaceOrNull c || (c =? chr "/") || (c =? chr "?") || (c =? chr ">")) && negb empty then
        let t := tag x in
        let x := set_tag (mkTag (tag_start t) (tag_end t) (tag_name_buffer x) (tag_type t)) x in
        let '(interesting, h) := OnXmlTagStart handler (tag x) h in
        Next (set_state (if interesting : bool then S_ELEMENT_TAG else S_ELEMENT_BORING) x) h off rest
      else if (c =? chr "!") && empty then Next (set_state S_DECLARATION_NAME x) h (S off) r
      else Next (set_state S_NONE x) h off rest
  end.

Fixpoint feed_element_tag (x : XmlParser) (h : H) (off : nat) (rest : list Z) : outcome :=
  match rest with
  | [] => Next x h off []
  | c :: r =>
      if IsWhitespaceOrNull c then feed_element_tag x h (S off) r
      else if (c =? chr "/") && match tag_type (tag x) with OPEN => true | _ => false end then
        Next (set_state S_SHORT (set_tag_type SHORT x)) h (S off) r
      else if (c =? chr "?") && match tag_type (tag x) with PI => true | _ => false end then
        Next (set_state S_SHORT x) h (S off) r
      else if c =? chr ">" then
        finish_tag (set_tag_end (pos x (S off)) (set_state S_INSIDE x)) h (fun x h => Next x h (S off) r)
      else if is_html_name_start_char c then
        Next (set_value (EB_Clear (attr_value_buffer x)) (set_attr_name []
               (set_name_start (pos x off) (set_state S_ATTR_NAME x)))) h off rest
      else
        finish_tag (set_state S_INSIDE (set_tag_end (pos x off) x)) h
          (fun x h => Next (set_state S_NONE x) h off rest)
  end.

Definition feed_element_boring (x : XmlParser) (h : H) (off : nat) (rest : list Z) : outcome :=
  let '(skipped, r) := span_while (fun c => negb (c =? chr ">")) rest in
  match r with
  | [] => Next x h (off + length skipped) []
  | _ :: r => Next (set_state S_NONE x) h (S (off + length skipped)) r
  end.

Fixpoint feed_attr_name (x : XmlParser) (h : H) (off : nat) (rest : list Z) : outcome :=
  match rest with
  | [] => Next x h off []
  | c :: r =>
      if is_html_name_char c then
        if (length (attr_name_buffer x) =? NAME_SIZE)%nat then Next (set_state S_ELEMENT_TAG x) h off rest
        else feed_attr_name (set_attr_name (attr_name_buffer x ++ [ToLowerASCII c]) x) h (S off) r
      else Next (set_state S_AFTER_ATTR_NAME x) h off rest
  end.

Fixpoint feed_after_attr_name (x : XmlParser) (h : H) (off : nat) (rest : list Z) : outcome :=
  match rest with
  | [] => Next x h off []
  | c :: r =>
      if c =? chr "=" then Next (set_state S_BEFORE_ATTR_VALUE x) h (S off) r
      else if IsWhitespaceOrNull c then feed_after_attr_name x h (S off) r
      else
        let '(x, h) := InvokeAttributeFinished
          (set_value_start (pos x off) (set_value_end (pos x off) x)) h in
        Next (set_state S_ELEMENT_TAG x) h off rest
  end.

Fixpoint feed_before_attr_value (x : XmlParser) (h : H) (off : nat) (rest : list Z) : outcome :=
  match rest with
  | [] => Next x h off []
  | c :: r =>
      if (c =? 34) || (c =? 39) then
        Next (set_value_start (pos x (S off)) (set_delimiter c (set_state S_ATTR_VALUE x))) h (S off) r
      else if IsWhitespaceOrNull c then feed_before_attr_value x h (S off) r
      else Next (set_value_start (pos x off) (set_state S_ATTR_VALUE_COMPAT x)) h off rest
  end.

Definition feed_attr_value (x : XmlParser) (h : H) (off : nat) (rest : list Z) : outcome :=
  let '(value, r) := span_while (fun c => negb (c =? attr_value_delimiter x)) rest in
  match EB_Write value (attr_value_buffer x) with
  | None => Failed
  | Some (false, b) => Next (set_state S_ELEMENT_TAG (set_value b x)) h off rest
  | Some (true, b) =>
      let x := set_value b x in
      let off := (off + length value)%nat in
      match r with
      | [] => Next x h off []
      | _ :: r =>
          let off := S off in
          let '(x, h) := InvokeAttributeFinished
            (set_value_end (pos x off - 1) (set_attr_end (pos x off) x)) h in
          Next (set_state S_ELEMENT_TAG x) h off r
      end
  end.

Fixpoint feed_attr_value_compat (x : XmlParser) (h : H) (off : nat) (rest : list Z) : outcome :=
  match rest with
  | [] => Next x h off []
  | c :: r =>
      if negb (IsWhitespaceOrNull c) && negb (c =? chr ">") then
        match EB_Write [c] (attr_value_buffer x) with
        | None => Failed
        | Some (false, b) => Next (set_state S_ELEMENT_TAG (set_value b x)) h off rest
        | Some (true, b) => feed_attr_value_compat (set_value b x) h (S off) r
        end
      else
        let '(x, h) := InvokeAttributeFinished
          (set_value_end (pos x off) (set_attr_end (pos x off) x)) h in
        Next (set_state S_ELEMENT_TAG x) h off rest
  end.

Fixpoint feed_short (x : XmlParser) (h : H) (off : nat) (rest : list Z) : outcome :=
  match rest with
  | [] => Next x h off []
  | c :: r =>
      if IsWhitespaceOrNull c then feed_short x h (S off) r
      else if c =? chr ">" then
        finish_tag (set_tag_end (pos x (S off)) (set_state S_NONE x)) h (fun x h => Next x h (S off) r)
      else
        finish_tag (set_state S_INSIDE (set_tag_end (pos x off) x)) h
          (fun x h => Next (set_state S_NONE x) h off rest)
  end.

Fixpoint feed_declaration_name (x : XmlParser) (h : H) (off : nat) (rest : list Z) : outcome :=
  match rest with
  | [] => Next x h off []
  | c :: r =>
      if IsAlphaNumericASCII c || (c =? chr ":") || (c =? chr "-") || (c =? chr "_") || (c =? chr "[") then
        if (length (tag_name_buffer x) =? NAME_SIZE)%nat then Next (set_state S_NONE x) h off rest
        else
          let name := tag_name_buffer x ++ [ToLowerASCII c] in
          let x := set_tag_name name x in
          if bool_decide (name = str "[cdata[") then
            Next (set_cdend 0 (set_state S_CDATA_SECTION x)) h (S off) r
          else if bool_decide (name = str "--") then
            Next (set_minus 0 (set_state S_COMMENT x)) h (S off) r
          else feed_declaration_name x h (S off) r
      else Next (set_state S_NONE x) h off rest
  end.

(** The bytes from [p] to [buffer] are flushed; they end at [off]. *)
Definition flush (x : XmlParser) (h : H) (off : nat) (pending : list Z) (k : H -> outcome) : outcome :=
  match pending with
  | [] => k h
  | _ => cdata x h (off - length pending) pending false k
  end.

(** [pending] is the input from [p] to [buffer]. *)
Fixpoint feed_cdata_section (x : XmlParser) (h : H) (off : nat) (pending rest : list Z) : outcome :=
  match rest with
  | [] => flush x h off pending (fun h => Next x h off [])
  | c :: r =>
      if (c =? chr "]") && (cdend_match x <? 2)%nat then
        flush x h off pending (fun h =>
          feed_cdata_section (set_cdend (S (cdend_match x)) x) h (S off) [] r)
      else if (c =? chr ">") && (cdend_match x =? 2)%nat then
        Next (set_state S_NONE x) h (S off) r
      else if (0 <? cdend_match x)%nat then
        if negb (cdend_match x <? 3)%nat then Failed
        else
          let '(nbytes, h) := OnXmlCdata handler (take (cdend_match x) (str "]]")) false (pos x off) h in
          if negb (nbytes <=? cdend_match x)%nat then Failed
          else
            let x := set_cdend (cdend_match x - nbytes) x in
            if (0 <? cdend_match x)%nat then return_ x h off
            else feed_cdata_section x h (S off) [c] r
      else feed_cdata_section x h (S off) (pending ++ [c]) r
  end.

Definition feed_comment (x : XmlParser) (h : H) (off : nat) (c : Z) (r : list Z) : outcome :=
  match minus_count x with
  | 0%nat =>
      let '(skipped, r') := span_while (fun c => negb (c =? chr "-")) (c :: r) in
      match r' with
      | [] => Next x h (off + length skipped) []
      | _ :: r' => Next (set_minus 1 x) h (S (off + length skipped)) r'
      end
  | 1%nat => Next (set_minus (if c =? chr "-" then 2%nat else 0%nat) x) h (S off) r
  | 2%nat =>
      if c =? chr ">" then Next (set_state S_NONE x) h off (c :: r)
      else if c =? chr "-" then Next x h (S off) r
      else Next (set_minus 0 x) h off (c :: r)
  | _ => Next x h off (c :: r)
  end.

(** One iteration of the loop, for the input [c :: r]. *)
Definition feed_step (x : XmlParser) (h : H) (off : nat) (c : Z) (r : list Z) : outcome :=
  let rest := c :: r in
  match state x with
  | S_NONE | S_SCRIPT => feed_none x h off rest
  | S_SCRIPT_ELEMENT_NAME => feed_script_element_name x h off c r
  | S_ELEMENT_NAME => feed_element_name x h off rest
  | S_ELEMENT_TAG => feed_element_tag x h off rest
  | S_ELEMENT_BORING => feed_element_boring x h off rest
  | S_ATTR_NAME => feed_attr_name x h off rest
  | S_AFTER_ATTR_NAME => feed_after_attr_name x h off rest
  | S_BEFORE_ATTR_VALUE => feed_before_attr_value x h off rest
  | S_ATTR_VALUE => feed_attr_value x h off rest
  | S_ATTR_VALUE_COMPAT => feed_attr_value_compat x h off rest
  | S_SHORT => feed_short x h off rest
  | S_INSIDE => Next (set_state S_NONE x) h off rest
  | S_DECLARATION_NAME => feed_declaration_name x h off rest
  | S_CDATA_SECTION => feed_cdata_section x h off [] rest
  | S_COMMENT => feed_comment x h off c r
  end.

Fixpoint feed_loop (fuel : nat) (x : XmlParser) (h : H) (off : nat) (rest : list Z) : outcome :=
  match rest with
  | [] => return_ x h off
  | c :: r =>
      match fuel with
      | O => Next x h off rest
      | S fuel =>
          match feed_step x h off c r with
          | Next x h off rest => feed_loop fuel x h off rest
          | result => result
          end
      end
  end.

(** No more than six iterations are necessary for a byte of the input; the
    result is never [Next]. *)
Definition xml_fuel (n : nat) : nat := 6 * S n.

Definition Feed (x : XmlParser) (h : H) (input : list Z) : outcome :=
  match input with
  | [] => Failed
  | _ => feed_loop (xml_fuel (length input)) x h 0 input
  end.

End Parser.
