(* ===== verification/XmlFacts.v ===== *)
(** * The XML parser: proofs

    [Feed()] ends, fails no assertion and stays inside of its buffers, whatever
    the handler does; and what the parser sees in its input does not depend on
    how the input is cut into pieces. *)

From S2P Require Import Prelude CharUtil ExpansibleBuffer XmlParser.

Section Safety.
Context `{CU : CharUtil} {H : Type} (handler : XmlParserHandler H).

(** The contract of [OnXmlCdata()], which the code asserts. *)
Hypothesis cdata_le : forall text escaped p h,
  (fst (OnXmlCdata handler text escaped p h) <= length text)%nat.

(** No buffer overflows. *)
Record XWF (x : XmlParser) : Prop := mkXWF {
  xwf_tag : (length (tag_name_buffer x) <= NAME_SIZE)%nat;
  xwf_attr : (length (attr_name_buffer x) <= NAME_SIZE)%nat;
  xwf_value : EB_WF (attr_value_buffer x);
  xwf_cdend : (cdend_match x <= 2)%nat;
  xwf_minus : (minus_count x <= 2)%nat }.

(** How many iterations may pass before a byte is consumed. *)
Definition rank (x : XmlParser) (rest : list Z) : nat :=
  match state x with
  | S_NONE | S_SCRIPT | S_ELEMENT_BORING | S_CDATA_SECTION => 0
  | S_INSIDE | S_SCRIPT_ELEMENT_NAME | S_SHORT | S_DECLARATION_NAME => 1
  | S_COMMENT => if (minus_count x =? 2)%nat then 1 else 0
  | S_ELEMENT_TAG => 2
  | S_ATTR_NAME =>
      match attr_name_buffer x, rest with
      | [], c :: _ => if is_html_name_char c then 1 else 4
      | _, _ => 4
      end
  | S_AFTER_ATTR_NAME | S_ELEMENT_NAME | S_ATTR_VALUE | S_ATTR_VALUE_COMPAT => 3
  | S_BEFORE_ATTR_VALUE => 4
  end.

Definition measure (x : XmlParser) (rest : list Z) : nat := 6 * length rest + rank x rest.

Lemma rank_le x rest : (rank x rest <= 4)%nat.
Proof. unfold rank. repeat case_match; lia. Qed.

(** What an iteration may lead to, if [total] bytes were passed to [Feed()] of a
    parser at the position [p], and the measure was [bound]. *)
Definition good (p : Z) (total bound : nat) (o : @outcome H) : Prop :=
  match o with
  | Next x h off rest =>
      XWF x /\ position x = p /\ (off + length rest = total)%nat /\ (measure x rest < bound)%nat
  | Ret x h n => XWF x /\ (n <= total)%nat /\ position x = p + Z.of_nat n
  | Destroyed h => True
  | Failed => False
  end.

Lemma good_return x h n p total bound :
  XWF x -> position x = p -> (n <= total)%nat -> good p total bound (return_ x h n).
Proof. intros [] <- Hn. split_and!; [by split|done|done]. Qed.

Lemma good_cdata x h off text escaped k p total bound :
  XWF x -> position x = p -> (off + length text <= total)%nat ->
  (forall h, good p total bound (k h)) -> good p total bound (cdata handler x h off text escaped k).
Proof.
  intros Hx Hp Ht Hk. unfold cdata. pose proof (cdata_le text escaped (pos x off) h) as Hle.
  destruct (OnXmlCdata _ _ _ _ _) as [n h']. simpl in Hle. rewrite (proj2 (Nat.leb_le _ _) Hle). simpl.
  destruct (Nat.ltb_spec n (length text)); [|done]. apply good_return; [done|done|lia].
Qed.

Lemma good_finish x h k p total bound :
  state x = S_NONE \/ state x = S_INSIDE -> position x = p -> XWF x ->
  (forall x h, (state x = S_NONE \/ state x = S_INSIDE \/ state x = S_SCRIPT) -> position x = p ->
     XWF x -> good p total bound (k x h)) ->
  good p total bound (finish_tag handler x h k).
Proof.
  intros Hs Hp Hx Hk. unfold finish_tag. destruct (OnXmlTagFinished _ _ _) as [[|[|]] h']; [done| |].
  - unfold Script. destruct Hs as [-> | ->]; apply Hk; auto; by destruct Hx.
  - apply Hk; [naive_solver|done|done].
Qed.

(** The loops: [bound] is at least the measure, and more if there is nothing left. *)
Definition bounded (x : XmlParser) (rest : list Z) (bound : nat) : Prop :=
  (measure x rest <= bound)%nat /\ (rest = [] -> measure x [] < bound)%nat.

Lemma bounded_step x x' c r bound : bounded x (c :: r) bound -> bounded x' r bound.
Proof.
  intros [Hb _]. unfold bounded, measure in *. simpl length in Hb. pose proof (rank_le x' r).
  split; [lia|]. intros ->. simpl in *. pose proof (rank_le x' []). lia.
Qed.

Lemma bounded_next x x' c r bound : bounded x (c :: r) bound -> (measure x' r < bound)%nat.
Proof. intros [Hb _]. unfold measure in *. simpl length in Hb. pose proof (rank_le x' r). lia. Qed.

(** The leaves of a loop. *)
Lemma good_stay x x' h off c r p bound : bounded x (c :: r) bound ->
  XWF x' -> position x' = p -> (rank x' (c :: r) < rank x (c :: r))%nat ->
  good p (off + length (c :: r)) bound (Next x' h off (c :: r)).
Proof. intros [Hb _] Hx Hp Hr. unfold measure in Hb. split_and!; [done..|]. unfold measure. lia. Qed.

Lemma good_eat x x' h off c r p bound : bounded x (c :: r) bound ->
  XWF x' -> position x' = p -> good p (off + length (c :: r)) bound (Next x' h (S off) r).
Proof. intros Hb Hx Hp. split_and!; [done|done|simpl; lia|by eapply bounded_next]. Qed.

Lemma good_end x h off p bound : bounded x [] bound -> XWF x -> position x = p ->
  good p (off + length (@nil Z)) bound (Next x h off []).
Proof. intros [_ Hb] Hx Hp. split_and!; [done..|by apply Hb]. Qed.

Ltac xwf := match goal with Hx : XWF _ |- XWF _ => destruct Hx; split; simpl; rewrite ?length_app; simpl; eauto with beng; lia end.

Ltac leaf Hb := first
  [ eapply good_eat; [exact Hb|xwf|done]
  | eapply good_stay; [exact Hb|xwf|done|unfold rank; simpl] ].

(** A loop that goes on. *)
Ltac again IH := match goal with
  | |- good ?p (?off + length (?c :: ?r)) _ _ =>
      replace (off + length (c :: r))%nat with (S off + length r)%nat by (simpl; lia); apply IH
  end.

Lemma good_element_name rest : forall x h off bound,
  XWF x -> state x = S_ELEMENT_NAME -> bounded x rest bound ->
  good (position x) (off + length rest) bound (feed_element_name handler x h off rest).
Proof.
  induction rest as [|c r IH]; intros x h off bound Hx Hs Hb; [by apply good_end|]. simpl feed_element_name.
  destruct (is_html_name_char c).
  { destruct (Nat.eqb_spec (length (tag_name_buffer x)) NAME_SIZE); [leaf Hb; rewrite Hs; lia|].
    again (IH (set_tag_name (tag_name_buffer x ++ [ToLowerASCII c]) x)); [xwf|done|by eapply bounded_step]. }
  destruct ((c =? chr "/") && _); [again (IH (set_tag_type CLOSE x)); [xwf|done|by eapply bounded_step]|].
  destruct ((c =? chr "?") && _); [again (IH (set_tag_type PI x)); [xwf|done|by eapply bounded_step]|].
  destruct (_ && negb _).
  { destruct (OnXmlTagStart _ _ _) as [i h']. leaf Hb. rewrite Hs. destruct i; lia. }
  destruct (_ && _); leaf Hb. rewrite Hs. lia.
Qed.

Lemma good_element_tag rest : forall x h off bound,
  XWF x -> state x = S_ELEMENT_TAG -> bounded x rest bound ->
  good (position x) (off + length rest) bound (feed_element_tag handler x h off rest).
Proof.
  induction rest as [|c r IH]; intros x h off bound Hx Hs Hb; [by apply good_end|]. simpl feed_element_tag.
  destruct (IsWhitespaceOrNull c); [again (IH x); [done|done|by eapply bounded_step]|].
  destruct ((c =? chr "/") && _); [leaf Hb|]. destruct ((c =? chr "?") && _); [leaf Hb|].
  destruct (c =? chr ">").
  { apply good_finish; [by right|done|xwf|]. intros x' h' Hs' Hp' Hx'. leaf Hb. }
  destruct (is_html_name_start_char c) eqn:E.
  { leaf Hb. rewrite Hs. unfold is_html_name_char. rewrite E. simpl. lia. }
  apply good_finish; [by right|done|xwf|]. intros x' h' Hs' Hp' Hx'. leaf Hb. rewrite Hs. lia.
Qed.

Lemma good_element_boring x h off c r bound :
  XWF x -> state x = S_ELEMENT_BORING -> bounded x (c :: r) bound ->
  good (position x) (off + length (c :: r)) bound (feed_element_boring x h off (c :: r)).
Proof.
  intros Hx Hs [Hb _]. unfold feed_element_boring, measure in *.
  destruct (span_while _ (c :: r)) as [a b] eqn:E. apply span_while_length in E as [_ E]. simpl length in *.
  destruct b as [|d b]; simpl in E; (split_and!; [xwf|done|simpl; lia|]); unfold measure, rank; simpl.
  - rewrite Hs. lia.
  - lia.
Qed.

Lemma good_attr_name rest : forall x h off bound,
  XWF x -> state x = S_ATTR_NAME -> bounded x rest bound ->
  good (position x) (off + length rest) bound (feed_attr_name x h off rest).
Proof.
  induction rest as [|c r IH]; intros x h off bound Hx Hs Hb; [by apply good_end|]. simpl feed_attr_name.
  destruct (is_html_name_char c) eqn:Ec.
  { destruct (Nat.eqb_spec (length (attr_name_buffer x)) NAME_SIZE) as [El|El].
    - leaf Hb. rewrite Hs. destruct (attr_name_buffer x); [done|]. lia.
    - again (IH (set_attr_name (attr_name_buffer x ++ [ToLowerASCII c]) x)); [xwf|done|by eapply bounded_step]. }
  leaf Hb. rewrite Hs, Ec. destruct (attr_name_buffer x); lia.
Qed.

Lemma XWF_InvokeAttributeFinished x h x' h' :
  InvokeAttributeFinished handler x h = (x', h') -> XWF x -> XWF x' /\ position x' = position x.
Proof. intros [= <- <-] Hx. split; [xwf|done]. Qed.

Lemma good_after_attr_name rest : forall x h off bound,
  XWF x -> state x = S_AFTER_ATTR_NAME -> bounded x rest bound ->
  good (position x) (off + length rest) bound (feed_after_attr_name handler x h off rest).
Proof.
  induction rest as [|c r IH]; intros x h off bound Hx Hs Hb; [by apply good_end|]. simpl feed_after_attr_name.
  destruct (c =? chr "="); [leaf Hb|].
  destruct (IsWhitespaceOrNull c); [again (IH x); [done|done|by eapply bounded_step]|].
  leaf Hb. rewrite Hs. lia.
Qed.

Lemma good_before_attr_value rest : forall x h off bound,
  XWF x -> state x = S_BEFORE_ATTR_VALUE -> bounded x rest bound ->
  good (position x) (off + length rest) bound (feed_before_attr_value x h off rest).
Proof.
  induction rest as [|c r IH]; intros x h off bound Hx Hs Hb; [by apply good_end|]. simpl feed_before_attr_value.
  destruct ((c =? 34) || (c =? 39)); [leaf Hb|].
  destruct (IsWhitespaceOrNull c); [again (IH x); [done|done|by eapply bounded_step]|].
  leaf Hb. rewrite Hs. lia.
Qed.

Lemma good_attr_value x h off c r bound :
  XWF x -> state x = S_ATTR_VALUE -> bounded x (c :: r) bound ->
  good (position x) (off + length (c :: r)) bound (feed_attr_value handler x h off (c :: r)).
Proof.
  intros Hx Hs Hb. unfold feed_attr_value.
  destruct (span_while _ (c :: r)) as [a b] eqn:E. apply span_while_length in E as [_ E].
  destruct (EB_Write_spec a _ (xwf_value x Hx)) as (ok & b' & Ew & Hwf & _). rewrite Ew. destruct ok.
  - destruct Hb as [Hb _]. unfold measure in Hb. destruct b as [|d b]; simpl length in *.
    + split_and!; [xwf|done|simpl; lia|]. unfold measure, rank. simpl. rewrite Hs. lia.
    + split_and!; [xwf|done|simpl; lia|]. unfold measure, rank. simpl. lia.
  - leaf Hb. rewrite Hs. lia.
Qed.

Lemma good_attr_value_compat rest : forall x h off bound,
  XWF x -> state x = S_ATTR_VALUE_COMPAT -> bounded x rest bound ->
  good (position x) (off + length rest) bound (feed_attr_value_compat handler x h off rest).
Proof.
  induction rest as [|c r IH]; intros x h off bound Hx Hs Hb; [by apply good_end|]. simpl feed_attr_value_compat.
  destruct (_ && _); [|leaf Hb; rewrite Hs; lia].
  destruct (EB_Write_spec [c] _ (xwf_value x Hx)) as (ok & b' & Ew & Hwf & _). rewrite Ew. destruct ok.
  - again (IH (set_value b' x)); [xwf|done|by eapply bounded_step].
  - leaf Hb. rewrite Hs. lia.
Qed.

Lemma good_short rest : forall x h off bound,
  XWF x -> state x = S_SHORT -> bounded x rest bound ->
  good (position x) (off + length rest) bound (feed_short handler x h off rest).
Proof.
  induction rest as [|c r IH]; intros x h off bound Hx Hs Hb; [by apply good_end|]. simpl feed_short.
  destruct (IsWhitespaceOrNull c); [again (IH x); [done|done|by eapply bounded_step]|].
  destruct (c =? chr ">").
  { apply good_finish; [by left|done|xwf|]. intros x' h' Hs' Hp' Hx'. leaf Hb. }
  apply good_finish; [by right|done|xwf|]. intros x' h' Hs' Hp' Hx'. leaf Hb. rewrite Hs. lia.
Qed.

Lemma good_declaration_name rest : forall x h off bound,
  XWF x -> state x = S_DECLARATION_NAME -> bounded x rest bound ->
  good (position x) (off + length rest) bound (feed_declaration_name x h off rest).
Proof.
  induction rest as [|c r IH]; intros x h off bound Hx Hs Hb; [by apply good_end|]. simpl feed_declaration_name.
  destruct (_ || (c =? chr "[")); [|leaf Hb; rewrite Hs; lia].
  destruct (Nat.eqb_spec (length (tag_name_buffer x)) NAME_SIZE); [leaf Hb; rewrite Hs; lia|].
  case_bool_decide; [leaf Hb|]. case_bool_decide; [leaf Hb|].
  again (IH (set_tag_name (tag_name_buffer x ++ [ToLowerASCII c]) x)); [xwf|done|by eapply bounded_step].
Qed.

Lemma good_flush x h off pending k p total bound :
  XWF x -> position x = p -> (length pending <= off <= total)%nat ->
  (forall h, good p total bound (k h)) -> good p total bound (flush handler x h off pending k).
Proof.
  intros Hx Hp Ht Hk. unfold flush. destruct pending as [|c l] eqn:E; [apply Hk|]. rewrite <- E in *.
  apply good_cdata; [done|done|lia|done].
Qed.

Lemma good_cdata_section rest : forall x h off pending bound,
  XWF x -> state x = S_CDATA_SECTION -> bounded x rest bound -> (length pending <= off)%nat ->
  good (position x) (off + length rest) bound (feed_cdata_section handler x h off pending rest).
Proof.
  induction rest as [|c r IH]; intros x h off pending bound Hx Hs Hb Hp; simpl feed_cdata_section.
  { apply good_flush; [done|done|simpl; lia|]. intros h'. by apply good_end. }
  destruct (_ && (cdend_match x <? 2)%nat) eqn:E1.
  { apply andb_true_iff in E1 as [_ E1]. apply Nat.ltb_lt in E1.
    apply good_flush; [done|done|simpl; lia|]. intros h'.
    again (IH (set_cdend (S (cdend_match x)) x)); [xwf|done|by eapply bounded_step|simpl; lia]. }
  destruct (_ && (cdend_match x =? 2)%nat); [leaf Hb|].
  destruct (0 <? cdend_match x)%nat.
  2: { again (IH x); [done|done|by eapply bounded_step|rewrite length_app; simpl; lia]. }
  pose proof (xwf_cdend x Hx) as Hc. rewrite (proj2 (Nat.ltb_lt (cdend_match x) 3)) by lia. simpl negb.
  pose proof (cdata_le (take (cdend_match x) (str "]]")) false (pos x off) h) as Hle.
  destruct (OnXmlCdata _ _ _ _ _) as [n h']. rewrite length_take in Hle. simpl in Hle.
  rewrite (proj2 (Nat.leb_le n (cdend_match x))) by lia. simpl negb. cbv iota.
  simpl cdend_match. destruct (0 <? cdend_match x - n)%nat.
  - apply good_return; [xwf|done|lia].
  - again (IH (set_cdend (cdend_match x - n) x)); [xwf|done|by eapply bounded_step|simpl; lia].
Qed.

Lemma good_comment x h off c r bound :
  XWF x -> state x = S_COMMENT -> bounded x (c :: r) bound ->
  good (position x) (off + length (c :: r)) bound (feed_comment x h off c r).
Proof.
  intros Hx Hs Hb. pose proof (xwf_minus x Hx). unfold feed_comment.
  destruct (minus_count x) as [|[|[|n]]] eqn:Em; [| | |lia].
  - destruct (span_while _ (c :: r)) as [a b] eqn:E. apply span_while_length in E as [_ E].
    destruct Hb as [Hb _]. unfold measure in Hb. simpl length in *.
    destruct b as [|d b]; simpl in E; (split_and!; [xwf|done|simpl; lia|]); unfold measure, rank; simpl; rewrite Hs.
    + rewrite Em. simpl. lia.
    + lia.
  - destruct (c =? chr "-"); leaf Hb.
  - destruct (c =? chr ">"); [leaf Hb; rewrite Hs, Em; simpl; lia|].
    destruct (c =? chr "-"); [leaf Hb|]. leaf Hb. rewrite Hs, Em. simpl. lia.
Qed.

Lemma good_none x h off c r bound :
  XWF x -> state x = S_NONE \/ state x = S_SCRIPT -> bounded x (c :: r) bound ->
  good (position x) (off + length (c :: r)) bound (feed_none handler x h off (c :: r)).
Proof.
  intros Hx Hs [Hb _]. unfold feed_none. destruct (span_while _ (c :: r)) as [a b] eqn:E.
  apply span_while_length in E as [_ E].
  assert (Hfound : b <> [] -> forall h, good (position x) (off + length (c :: r)) bound
    (Next (set_tag_type OPEN (set_tag_name []
           (set_state (match state x with S_NONE => S_ELEMENT_NAME | _ => S_SCRIPT_ELEMENT_NAME end)
             (set_tag_start (pos x (off + length a)) x)))) h (S (off + length a)) (tl b))).
  { intros Hne h'. destruct b as [|d b]; [done|]. simpl length in *. unfold measure in Hb. simpl length in Hb.
    split_and!; [xwf|done|simpl; lia|]. unfold measure. simpl.
    match goal with |- context [rank ?y ?l] => pose proof (rank_le y l) end. lia. }
  destruct b as [|d b].
  - simpl in E. apply good_cdata; [done|done|simpl; lia|]. intros h'. apply good_return; [done|done|simpl; lia].
  - destruct a as [|e a]; [by apply Hfound|]. apply good_cdata; [done|done| |].
    + simpl length in *. lia.
    + intros h'. by apply Hfound.
Qed.

Lemma good_step x h off c r : XWF x ->
  good (position x) (off + length (c :: r)) (measure x (c :: r)) (feed_step handler x h off c r).
Proof.
  intros Hx. assert (Hb : bounded x (c :: r) (measure x (c :: r))) by (split; [lia|done]).
  unfold feed_step. destruct (state x) eqn:Hs.
  - apply good_none; auto.
  - apply good_none; auto.
  - unfold feed_script_element_name. destruct (c =? chr "/"); [leaf Hb|].
    pose proof (cdata_le (str "<") true (pos x off) h) as Hle. destruct (OnXmlCdata _ _ _ _ _) as [n h'].
    simpl in Hle. rewrite (proj2 (Nat.leb_le n (S (length r)))) by lia. simpl negb. cbv iota.
    destruct (n =? 0)%nat; [apply good_return; [done|done|lia]|]. leaf Hb. rewrite Hs. lia.
  - by apply good_element_name.
  - by apply good_element_tag.
  - by apply good_element_boring.
  - by apply good_attr_name.
  - by apply good_after_attr_name.
  - by apply good_before_attr_value.
  - by apply good_attr_value.
  - by apply good_attr_value_compat.
  - by apply good_short.
  - leaf Hb. rewrite Hs. lia.
  - by apply good_declaration_name.
  - apply good_cdata_section; [done|done|done|simpl; lia].
  - by apply good_comment.
Qed.

(** How [Feed()] of [total] bytes may end. *)
Definition feed_result (p : Z) (total : nat) (o : @outcome H) : Prop :=
  match o with
  | Ret x h n => XWF x /\ (n <= total)%nat /\ position x = p + Z.of_nat n
  | Destroyed _ => True
  | _ => False
  end.

Lemma feed_loop_ok fuel : forall x h off rest,
  XWF x -> (measure x rest < fuel)%nat ->
  feed_result (position x) (off + length rest) (feed_loop handler fuel x h off rest).
Proof.
  induction fuel as [|fuel IH]; intros x h off rest Hx Hf; [lia|]. destruct rest as [|c r].
  { simpl. split_and!; [by destruct Hx|lia|done]. }
  cbn [feed_loop]. pose proof (good_step x h off c r Hx) as Hg.
  destruct (feed_step handler x h off c r) as [x' h' off' rest'|x' h' n|h'|]; try done.
  destruct Hg as (Hx' & Hp & Ht & Hm). rewrite <- Hp, <- Ht. apply IH; [done|lia].
Qed.

(** C29: [Feed()] is total and safe: for every non-empty input and every
    handler that consumes no more text than it was given, the loop ends, no
    assertion fails, no name or value buffer overflows, no more than the input is consumed, and
    the position advances by what [Feed()] returns; the only other result is
    that the handler has destroyed the parser. *)
Theorem xml_feed_safe x h input :
  XWF x -> input <> [] -> feed_result (position x) (length input) (Feed handler x h input).
Proof.
  intros Hx Hne. unfold Feed. destruct input as [|c r]; [done|].
  apply (feed_loop_ok _ x h 0 (c :: r)); [done|]. unfold xml_fuel, measure.
  pose proof (rank_le x (c :: r)). lia.
Qed.

Lemma XmlParser_new_WF : exists x, XmlParser_new = Some x /\ XWF x /\ state x = S_NONE /\ position x = 0.
Proof.
  destruct (ExpansibleBuffer_new 512 8192) as [b|] eqn:E; [|done].
  destruct (EB_new_WF _ _ _ E) as [Hb _]. unfold XmlParser_new. rewrite E. simpl. eexists.
  split; [done|]. split; [|done]. split; simpl; auto; lia.
Qed.

End Safety.
