(* ===== verification/XmlSplit.v ===== *)
(** * The XML parser reads a stream

    A reference machine that reads one character after the other, and
    the proof that [Feed()] does the same, however the input is cut into
    pieces: its inner loops and its [memchr()] searches are optimisations. *)

From S2P Require Import Prelude CharUtil ExpansibleBuffer XmlParser XmlFacts.

Create Rewrite HintDb xml_at.

Section Reference.
Context `{CU : CharUtil} {H : Type} (handler : XmlParserHandler H).

(** ** The reference machine

    [xml_char x h c] looks at the character [c], which is at the position
    of the parser; the boolean result says whether it was consumed.
    [None]: the handler has closed the parser, or a value was too long. *)

Definition text_h (text : list Z) (escaped : bool) (p : Z) (h : H) : H :=
  snd (OnXmlCdata handler text escaped p h).

Definition ref_finish (x : XmlParser) (h : H) : option (XmlParser * H) :=
  match OnXmlTagFinished handler (tag x) h with
  | (TagClosed, _) => None
  | (TagGoOn true, h) => Some (set_state S_SCRIPT x, h)
  | (TagGoOn false, h) => Some (x, h)
  end.

Definition ref_value (c : Z) (x : XmlParser) : option XmlParser :=
  match EB_Write [c] (attr_value_buffer x) with
  | Some (true, b) => Some (set_value b x)
  | _ => None
  end.

Definition ref_attribute (x : XmlParser) (h : H) : XmlParser * H :=
  let '(x, h) := InvokeAttributeFinished handler x h in (set_state S_ELEMENT_TAG x, h).

Definition eat {A} (r : A * H) : option (bool * A * H) := Some (true, fst r, snd r).
Definition look {A} (r : A * H) : option (bool * A * H) := Some (false, fst r, snd r).

Definition xml_char (x : XmlParser) (h : H) (c : Z) : option (bool * XmlParser * H) :=
  let here := position x in
  match state x with
  | S_NONE | S_SCRIPT =>
      if c =? chr "<" then
        eat (set_tag_type OPEN (set_tag_name [] (set_state
          (match state x with S_NONE => S_ELEMENT_NAME | _ => S_SCRIPT_ELEMENT_NAME end)
          (set_tag_start here x))), h)
      else eat (x, text_h [c] true here h)
  | S_SCRIPT_ELEMENT_NAME =>
      if c =? chr "/" then eat (set_tag_type CLOSE (set_state S_ELEMENT_NAME x), h)
      else look (set_state S_SCRIPT x, text_h (str "<") true here h)
  | S_ELEMENT_NAME =>
      let empty := (length (tag_name_buffer x) =? 0)%nat in
      if is_html_name_char c then
        if (length (tag_name_buffer x) =? NAME_SIZE)%nat then look (set_state S_NONE x, h)
        else eat (set_tag_name (tag_name_buffer x ++ [ToLowerASCII c]) x, h)
      else if (c =? chr "/") && empty then eat (set_tag_type CLOSE x, h)
      else if (c =? chr "?") && empty then eat (set_tag_type PI x, h)
      else if (IsWhitespaceOrNull c || (c =? chr "/") || (c =? chr "?") || (c =? chr ">")) && negb empty then
        let t := tag x in
        let x := set_tag (mkTag (tag_start t) (tag_end t) (tag_name_buffer x) (tag_type t)) x in
        let '(interesting, h) := OnXmlTagStart handler (tag x) h in
        look (set_state (if interesting : bool then S_ELEMENT_TAG else S_ELEMENT_BORING) x, h)
      else if (c =? chr "!") && empty then eat (set_state S_DECLARATION_NAME x, h)
      else look (set_state S_NONE x, h)
  | S_ELEMENT_TAG =>
      if IsWhitespaceOrNull c then eat (x, h)
      else if (c =? chr "/") && match tag_type (tag x) with OPEN => true | _ => false end then
        eat (set_state S_SHORT (set_tag_type SHORT x), h)
      else if (c =? chr "?") && match tag_type (tag x) with PI => true | _ => false end then
        eat (set_state S_SHORT x, h)
      else if c =? chr ">" then
        r ← ref_finish (set_tag_end (here + 1) (set_state S_INSIDE x)) h; eat r
      else if is_html_name_start_char c then
        look (set_value (EB_Clear (attr_value_buffer x)) (set_attr_name []
               (set_name_start here (set_state S_ATTR_NAME x))), h)
      else
        '(x, h) ← ref_finish (set_state S_INSIDE (set_tag_end here x)) h;
        look (set_state S_NONE x, h)
  | S_ELEMENT_BORING => eat (if c =? chr ">" then set_state S_NONE x else x, h)
  | S_ATTR_NAME =>
      if is_html_name_char c then
        if (length (attr_name_buffer x) =? NAME_SIZE)%nat then look (set_state S_ELEMENT_TAG x, h)
        else eat (set_attr_name (attr_name_buffer x ++ [ToLowerASCII c]) x, h)
      else look (set_state S_AFTER_ATTR_NAME x, h)
  | S_AFTER_ATTR_NAME =>
      if c =? chr "=" then eat (set_state S_BEFORE_ATTR_VALUE x, h)
      else if IsWhitespaceOrNull c then eat (x, h)
      else look (ref_attribute (set_value_start here (set_value_end here x)) h)
  | S_BEFORE_ATTR_VALUE =>
      if (c =? 34) || (c =? 39) then
        eat (set_value_start (here + 1) (set_delimiter c (set_state S_ATTR_VALUE x)), h)
      else if IsWhitespaceOrNull c then eat (x, h)
      else look (set_value_start here (set_state S_ATTR_VALUE_COMPAT x), h)
  | S_ATTR_VALUE =>
      if c =? attr_value_delimiter x then
        eat (ref_attribute (set_value_end here (set_attr_end (here + 1) x)) h)
      else x ← ref_value c x; eat (x, h)
  | S_ATTR_VALUE_COMPAT =>
      if negb (IsWhitespaceOrNull c) && negb (c =? chr ">") then x ← ref_value c x; eat (x, h)
      else look (ref_attribute (set_value_end here (set_attr_end here x)) h)
  | S_SHORT =>
      if IsWhitespaceOrNull c then eat (x, h)
      else if c =? chr ">" then
        r ← ref_finish (set_tag_end (here + 1) (set_state S_NONE x)) h; eat r
      else
        '(x, h) ← ref_finish (set_state S_INSIDE (set_tag_end here x)) h;
        look (set_state S_NONE x, h)
  | S_INSIDE => look (set_state S_NONE x, h)
  | S_DECLARATION_NAME =>
      if IsAlphaNumericASCII c || (c =? chr ":") || (c =? chr "-") || (c =? chr "_") || (c =? chr "[") then
        if (length (tag_name_buffer x) =? NAME_SIZE)%nat then look (set_state S_NONE x, h)
        else
          let name := tag_name_buffer x ++ [ToLowerASCII c] in
          let x := set_tag_name name x in
          if bool_decide (name = str "[cdata[") then eat (set_cdend 0 (set_state S_CDATA_SECTION x), h)
          else if bool_decide (name = str "--") then eat (set_minus 0 (set_state S_COMMENT x), h)
          else eat (x, h)
      else look (set_state S_NONE x, h)
  | S_CDATA_SECTION =>
      if (c =? chr "]") && (cdend_match x <? 2)%nat then eat (set_cdend (S (cdend_match x)) x, h)
      else if (c =? chr ">") && (cdend_match x =? 2)%nat then eat (set_state S_NONE x, h)
      else if (0 <? cdend_match x)%nat then
        eat (set_cdend 0 x, text_h [c] false here (text_h (take (cdend_match x) (str "]]")) false here h))
      else eat (x, text_h [c] false here h)
  | S_COMMENT =>
      match minus_count x with
      | 0%nat => eat (if c =? chr "-" then set_minus 1 x else x, h)
      | 1%nat => eat (set_minus (if c =? chr "-" then 2%nat else 0%nat) x, h)
      | _ =>
          if c =? chr ">" then look (set_state S_NONE x, h)
          else if c =? chr "-" then eat (x, h)
          else look (set_minus 0 x, h)
      end
  end.

(** [runs x h input x' h']: reading [input] leads from [x] and [h] to [x']
    and [h']. *)
Inductive runs : XmlParser -> H -> list Z -> XmlParser -> H -> Prop :=
  | runs_nil x h : runs x h [] x h
  | runs_eat x h c r x1 h1 x' h' :
      xml_char x h c = Some (true, x1, h1) ->
      runs (set_position (position x1 + 1) x1) h1 r x' h' -> runs x h (c :: r) x' h'
  | runs_look x h c r x1 h1 x' h' :
      xml_char x h c = Some (false, x1, h1) ->
      runs x1 h1 (c :: r) x' h' -> runs x h (c :: r) x' h'.

Lemma runs_cons x h c r x' h' : runs x h (c :: r) x' h' ->
  match xml_char x h c with
  | Some (true, x1, h1) => runs (set_position (position x1 + 1) x1) h1 r x' h'
  | Some (false, x1, h1) => runs x1 h1 (c :: r) x' h'
  | None => False
  end.
Proof. inversion 1 as [|? ? ? ? ? ? ? ? E|? ? ? ? ? ? ? ? E]; subst; by rewrite E. Qed.

Lemma runs_app x h a b x' h' : runs x h (a ++ b) x' h' ->
  exists x1 h1, runs x h a x1 h1 /\ runs x1 h1 b x' h'.
Proof.
  destruct a as [|a0 a]; [intros Hr; exists x, h; split; [constructor|done]|].
  remember ((a0 :: a) ++ b) as l eqn:El. intros Hr. revert a0 a El.
  induction Hr as [x h|x h c r x1 h1 x' h' E Hr IH|x h c r x1 h1 x' h' E Hr IH]; intros a0 a El; simplify_eq/=.
  - destruct a as [|a1 a].
    + exists (set_position (position x1 + 1) x1), h1. split; [|done]. eapply runs_eat; [done|constructor].
    + destruct (IH a1 a eq_refl) as (x2 & h2 & H1 & H2). exists x2, h2. split; [|done]. by eapply runs_eat.
  - destruct (IH a0 a eq_refl) as (x2 & h2 & H1 & H2). exists x2, h2. split; [|done]. by eapply runs_look.
Qed.

(** ** [Feed()] implements it

    The handler consumes all text, and does not depend on how the text
    is cut into pieces. *)

Hypothesis cdata_all : forall text escaped p h,
  fst (OnXmlCdata handler text escaped p h) = length text.
Hypothesis cdata_app : forall a b escaped p h, a <> [] -> b <> [] ->
  text_h (a ++ b) escaped p h = text_h b escaped (p + Z.of_nat (length a)) (text_h a escaped p h).

(** The parser in the middle of [Feed()], as the reference sees it. *)
Definition at_ (x : XmlParser) (off : nat) : XmlParser := set_position (pos x off) x.

(** [o] goes on to the same result. *)
Definition follows (x' : XmlParser) (h' : H) (o : @outcome H) : Prop :=
  match o with
  | Next x h off rest => runs (at_ x off) h rest x' h'
  | Ret x h n => x = x' /\ h = h'
  | _ => False
  end.

Lemma at_adv x off : set_position (position (at_ x off) + 1) (at_ x off) = at_ x (S off).
Proof. unfold at_, set_position, pos; simpl. f_equal. lia. Qed.
Lemma pos_next x off : pos x off + 1 = pos x (S off).
Proof. unfold pos. lia. Qed.

(** Looking at the parser and changing it commutes with the position. *)
Lemma at_state x off : state (at_ x off) = state x. Proof. done. Qed.
Lemma at_position x off : position (at_ x off) = pos x off. Proof. done. Qed.
Lemma at_tag x off : tag (at_ x off) = tag x. Proof. done. Qed.
Lemma at_tag_name x off : tag_name_buffer (at_ x off) = tag_name_buffer x. Proof. done. Qed.
Lemma at_attr_name x off : attr_name_buffer (at_ x off) = attr_name_buffer x. Proof. done. Qed.
Lemma at_delimiter x off : attr_value_delimiter (at_ x off) = attr_value_delimiter x. Proof. done. Qed.
Lemma at_value x off : attr_value_buffer (at_ x off) = attr_value_buffer x. Proof. done. Qed.
Lemma at_cdend x off : cdend_match (at_ x off) = cdend_match x. Proof. done. Qed.
Lemma at_minus x off : minus_count (at_ x off) = minus_count x. Proof. done. Qed.
Lemma at_set_state v x off : set_state v (at_ x off) = at_ (set_state v x) off. Proof. done. Qed.
Lemma at_set_tag v x off : set_tag v (at_ x off) = at_ (set_tag v x) off. Proof. done. Qed.
Lemma at_set_tag_start v x off : set_tag_start v (at_ x off) = at_ (set_tag_start v x) off. Proof. done. Qed.
Lemma at_set_tag_end v x off : set_tag_end v (at_ x off) = at_ (set_tag_end v x) off. Proof. done. Qed.
Lemma at_set_tag_type v x off : set_tag_type v (at_ x off) = at_ (set_tag_type v x) off. Proof. done. Qed.
Lemma at_set_tag_name v x off : set_tag_name v (at_ x off) = at_ (set_tag_name v x) off. Proof. done. Qed.
Lemma at_set_attr_name v x off : set_attr_name v (at_ x off) = at_ (set_attr_name v x) off. Proof. done. Qed.
Lemma at_set_delimiter v x off : set_delimiter v (at_ x off) = at_ (set_delimiter v x) off. Proof. done. Qed.
Lemma at_set_value v x off : set_value v (at_ x off) = at_ (set_value v x) off. Proof. done. Qed.
Lemma at_set_cdend v x off : set_cdend v (at_ x off) = at_ (set_cdend v x) off. Proof. done. Qed.
Lemma at_set_minus v x off : set_minus v (at_ x off) = at_ (set_minus v x) off. Proof. done. Qed.
Lemma at_set_name_start v x off : set_name_start v (at_ x off) = at_ (set_name_start v x) off. Proof. done. Qed.
Lemma at_set_value_start v x off : set_value_start v (at_ x off) = at_ (set_value_start v x) off. Proof. done. Qed.
Lemma at_set_value_end v x off : set_value_end v (at_ x off) = at_ (set_value_end v x) off. Proof. done. Qed.
Lemma at_set_attr_end v x off : set_attr_end v (at_ x off) = at_ (set_attr_end v x) off. Proof. done. Qed.
Lemma at_attribute x off h : ref_attribute (at_ x off) h =
  let '(x', h') := InvokeAttributeFinished handler x h in (at_ (set_state S_ELEMENT_TAG x') off, h').
Proof. done. Qed.

Lemma at_finish x off h : state x = S_NONE \/ state x = S_INSIDE ->
  forall k x' h', (forall x1 h1, ref_finish (at_ x off) h = Some (at_ x1 off, h1) -> follows x' h' (k x1 h1)) ->
  ref_finish (at_ x off) h <> None -> follows x' h' (finish_tag handler x h k).
Proof.
  intros Hs k x' h' Hk Hne. unfold finish_tag, ref_finish in *. rewrite at_tag in *.
  destruct (OnXmlTagFinished handler (tag x) h) as [[|[|]] h1]; [done| |by apply Hk].
  unfold Script. destruct Hs as [-> | ->]; by apply Hk.
Qed.

Lemma cdata_run x h off text escaped k x' h' :
  follows x' h' (k (text_h text escaped (pos x off) h)) ->
  follows x' h' (cdata handler x h off text escaped k).
Proof.
  intros Hk. unfold cdata, text_h in *. pose proof (cdata_all text escaped (pos x off) h) as Ha.
  destruct (OnXmlCdata _ _ _ _ _) as [n h1]. simpl in *. subst n. by rewrite Nat.leb_refl, Nat.ltb_irrefl.
Qed.

#[local] Hint Rewrite at_state at_position at_tag at_tag_name at_attr_name at_delimiter at_value at_cdend at_minus
  at_set_state at_set_tag at_set_tag_start at_set_tag_end at_set_tag_type at_set_tag_name at_set_attr_name
  at_set_delimiter at_set_value at_set_cdend at_set_minus at_set_name_start at_set_value_start
  at_set_value_end at_set_attr_end at_attribute at_adv pos_next : xml_at.

(** Look at the next character of a run from a parser in a known state. *)
Ltac look_at Hr Hs :=
  apply runs_cons in Hr; unfold xml_char in Hr; rewrite at_state, Hs in Hr;
  autorewrite with xml_at in Hr.

(** The loops that read names and white space end in the same way. *)
Ltac settle Hr := unfold eat, look in Hr; cbn [fst snd mbind option_bind] in Hr; rewrite ?at_adv in Hr; try exact Hr.

Lemma run_element_name x' h' rest : forall x h off,
  state x = S_ELEMENT_NAME -> runs (at_ x off) h rest x' h' ->
  follows x' h' (feed_element_name handler x h off rest).
Proof.
  induction rest as [|c r IH]; intros x h off Hs Hr; [done|]. simpl feed_element_name. look_at Hr Hs.
  destruct (is_html_name_char c).
  { destruct (length (tag_name_buffer x) =? NAME_SIZE)%nat; settle Hr. by apply IH. }
  destruct ((c =? chr "/") && _); [settle Hr; by apply IH|].
  destruct ((c =? chr "?") && _); [settle Hr; by apply IH|].
  destruct (_ && negb _).
  { change (set_tag ?a (at_ ?y off)) with (at_ (set_tag a y) off) in Hr.
    destruct (OnXmlTagStart _ _ _) as [i h1]. by settle Hr. }
  destruct (_ && _); settle Hr.
Qed.

Lemma run_element_tag x' h' rest : forall x h off,
  state x = S_ELEMENT_TAG -> runs (at_ x off) h rest x' h' ->
  follows x' h' (feed_element_tag handler x h off rest).
Proof.
  induction rest as [|c r IH]; intros x h off Hs Hr; [done|]. simpl feed_element_tag. look_at Hr Hs.
  destruct (IsWhitespaceOrNull c); [settle Hr; by apply IH|].
  destruct ((c =? chr "/") && _); [by settle Hr|]. destruct ((c =? chr "?") && _); [by settle Hr|].
  destruct (c =? chr ">").
  { apply (at_finish _ off); [by right| |by destruct (ref_finish _ _)].
    intros x1 h1 E. rewrite E in Hr. by settle Hr. }
  destruct (is_html_name_start_char c); [by settle Hr|].
  apply (at_finish _ off); [by right| |by destruct (ref_finish _ _)].
  intros x1 h1 E. rewrite E in Hr. cbn in Hr. exact Hr.
Qed.

Lemma run_attr_name x' h' rest : forall x h off,
  state x = S_ATTR_NAME -> runs (at_ x off) h rest x' h' ->
  follows x' h' (feed_attr_name x h off rest).
Proof.
  induction rest as [|c r IH]; intros x h off Hs Hr; [done|]. simpl feed_attr_name. look_at Hr Hs.
  destruct (is_html_name_char c); [|by settle Hr].
  destruct (length (attr_name_buffer x) =? NAME_SIZE)%nat; settle Hr. by apply IH.
Qed.

Lemma run_after_attr_name x' h' rest : forall x h off,
  state x = S_AFTER_ATTR_NAME -> runs (at_ x off) h rest x' h' ->
  follows x' h' (feed_after_attr_name handler x h off rest).
Proof.
  induction rest as [|c r IH]; intros x h off Hs Hr; [done|]. simpl feed_after_attr_name. look_at Hr Hs.
  destruct (c =? chr "="); [by settle Hr|].
  destruct (IsWhitespaceOrNull c); settle Hr. by apply IH.
Qed.

Lemma run_before_attr_value x' h' rest : forall x h off,
  state x = S_BEFORE_ATTR_VALUE -> runs (at_ x off) h rest x' h' ->
  follows x' h' (feed_before_attr_value x h off rest).
Proof.
  induction rest as [|c r IH]; intros x h off Hs Hr; [done|]. simpl feed_before_attr_value. look_at Hr Hs.
  destruct ((c =? 34) || (c =? 39)); [by settle Hr|].
  destruct (IsWhitespaceOrNull c); settle Hr. by apply IH.
Qed.

Lemma run_short x' h' rest : forall x h off,
  state x = S_SHORT -> runs (at_ x off) h rest x' h' ->
  follows x' h' (feed_short handler x h off rest).
Proof.
  induction rest as [|c r IH]; intros x h off Hs Hr; [done|]. simpl feed_short. look_at Hr Hs.
  destruct (IsWhitespaceOrNull c); [settle Hr; by apply IH|].
  destruct (c =? chr ">").
  { apply (at_finish _ off); [by left| |by destruct (ref_finish _ _)].
    intros x1 h1 E. rewrite E in Hr. by settle Hr. }
  apply (at_finish _ off); [by right| |by destruct (ref_finish _ _)].
  intros x1 h1 E. rewrite E in Hr. cbn in Hr. exact Hr.
Qed.

Lemma run_declaration_name x' h' rest : forall x h off,
  state x = S_DECLARATION_NAME -> runs (at_ x off) h rest x' h' ->
  follows x' h' (feed_declaration_name x h off rest).
Proof.
  induction rest as [|c r IH]; intros x h off Hs Hr; [done|]. simpl feed_declaration_name. look_at Hr Hs.
  destruct (_ || (c =? chr "[")); [|by settle Hr].
  destruct (length (tag_name_buffer x) =? NAME_SIZE)%nat; [by settle Hr|].
  case_bool_decide; [by settle Hr|]. case_bool_decide; settle Hr. by apply IH.
Qed.

Lemma run_attr_value_compat x' h' rest : forall x h off,
  state x = S_ATTR_VALUE_COMPAT -> runs (at_ x off) h rest x' h' ->
  follows x' h' (feed_attr_value_compat handler x h off rest).
Proof.
  induction rest as [|c r IH]; intros x h off Hs Hr; [done|]. simpl feed_attr_value_compat. look_at Hr Hs.
  destruct (_ && _); [|by settle Hr]. unfold ref_value in Hr. rewrite at_value in Hr.
  destruct (EB_Write [c] (attr_value_buffer x)) as [[[|] b]|]; [|done|done].
  cbn [mbind option_bind] in Hr. rewrite at_set_value in Hr. settle Hr. by apply IH.
Qed.

(** Text that is skipped by [memchr()]. *)
Lemma run_boring_text x h off a r x' h' :
  state x = S_ELEMENT_BORING -> Forall (fun c => negb (c =? chr ">") = true) a ->
  runs (at_ x off) h (a ++ r) x' h' -> runs (at_ x (off + length a)) h r x' h'.
Proof.
  intros Hs Ha. revert off. induction Ha as [|c a Hc Ha IH]; intros off Hr; simpl in *.
  { by rewrite Nat.add_0_r. }
  look_at Hr Hs. apply negb_true_iff in Hc. rewrite Hc in Hr. settle Hr.
  rewrite <- Nat.add_succ_comm. by apply IH.
Qed.

Lemma run_element_boring x' h' x h off rest :
  state x = S_ELEMENT_BORING -> runs (at_ x off) h rest x' h' ->
  follows x' h' (feed_element_boring x h off rest).
Proof.
  intros Hs Hr. unfold feed_element_boring. destruct (span_while _ rest) as [a b] eqn:E.
  apply span_while_cons in E as (-> & Ha & Hb). apply run_boring_text in Hr; [|done|done].
  destruct b as [|d b]; [done|]. look_at Hr Hs. apply negb_false_iff in Hb. rewrite Hb in Hr. by settle Hr.
Qed.

Lemma run_comment_text x h off a r x' h' :
  state x = S_COMMENT -> minus_count x = 0%nat -> Forall (fun c => negb (c =? chr "-") = true) a ->
  runs (at_ x off) h (a ++ r) x' h' -> runs (at_ x (off + length a)) h r x' h'.
Proof.
  intros Hs Hm Ha. revert off. induction Ha as [|c a Hc Ha IH]; intros off Hr; simpl in *.
  { by rewrite Nat.add_0_r. }
  look_at Hr Hs. rewrite Hm in Hr. apply negb_true_iff in Hc. rewrite Hc in Hr. settle Hr.
  rewrite <- Nat.add_succ_comm. by apply IH.
Qed.

Lemma run_comment x' h' x h off c r :
  state x = S_COMMENT -> XWF x -> runs (at_ x off) h (c :: r) x' h' ->
  follows x' h' (feed_comment x h off c r).
Proof.
  intros Hs Hx Hr. pose proof (xwf_minus x Hx) as Hle. unfold feed_comment.
  destruct (minus_count x) as [|[|[|n]]] eqn:Hm; [| | |lia].
  - destruct (span_while _ (c :: r)) as [a b] eqn:E. apply span_while_cons in E as (E & Ha & Hb).
    rewrite E in Hr. apply run_comment_text in Hr; [|done..]. destruct b as [|d b]; [done|].
    look_at Hr Hs. rewrite Hm in Hr. apply negb_false_iff in Hb. rewrite Hb in Hr. by settle Hr.
  - look_at Hr Hs. rewrite Hm in Hr. by settle Hr.
  - look_at Hr Hs. rewrite Hm in Hr. destruct (c =? chr ">"); [by settle Hr|].
    destruct (c =? chr "-"); by settle Hr.
Qed.

(** Text that is passed to the handler at once. *)
Lemma run_text x h off a r x' h' :
  state x = S_NONE \/ state x = S_SCRIPT -> a <> [] -> Forall (fun c => negb (c =? chr "<") = true) a ->
  runs (at_ x off) h (a ++ r) x' h' ->
  runs (at_ x (off + length a)) (text_h a true (pos x off) h) r x' h'.
Proof.
  intros Hs Hne Ha. revert off h. induction Ha as [|c a Hc Ha IH]; intros off h Hr; [done|]. simpl in Hr.
  assert (Hr' : runs (at_ x (S off)) (text_h [c] true (pos x off) h) (a ++ r) x' h').
  { apply negb_true_iff in Hc. destruct Hs as [Hs|Hs]; look_at Hr Hs; rewrite Hc in Hr; by settle Hr. }
  simpl length. rewrite <- Nat.add_succ_comm. destruct a as [|d a].
  { by rewrite Nat.add_0_r. }
  specialize (IH ltac:(done) (S off) _ Hr'). change (c :: d :: a) with ([c] ++ d :: a).
  rewrite cdata_app by done. by rewrite <- pos_next in IH.
Qed.

Lemma run_none x' h' x h off c r :
  state x = S_NONE \/ state x = S_SCRIPT -> runs (at_ x off) h (c :: r) x' h' ->
  follows x' h' (feed_none handler x h off (c :: r)).
Proof.
  intros Hs Hr. unfold feed_none. destruct (span_while _ (c :: r)) as [a b] eqn:E.
  apply span_while_cons in E as (E & Ha & Hb). rewrite E in Hr.
  assert (Hfound : forall h d b, (d =? chr "<") = true -> runs (at_ x (off + length a)) h (d :: b) x' h' ->
    runs (at_ (set_tag_type OPEN (set_tag_name []
           (set_state (match state x with S_NONE => S_ELEMENT_NAME | _ => S_SCRIPT_ELEMENT_NAME end)
             (set_tag_start (pos x (off + length a)) x)))) (S (off + length a))) h b x' h').
  { clear - Hs. intros h d b Hd Hr. destruct Hs as [Hs|Hs]; look_at Hr Hs; rewrite Hd in Hr; settle Hr;
      rewrite Hs; exact Hr. }
  destruct b as [|d b].
  - rewrite app_nil_r in E. rewrite app_nil_r in Hr. rewrite <- (app_nil_r a) in Hr.
    apply run_text in Hr; [|done|by rewrite <- E|done]. apply cdata_run.
    inversion Hr; subst. by split.
  - apply negb_false_iff in Hb. destruct a as [|e a].
    { apply (Hfound h d b); [done|]. simpl. by rewrite Nat.add_0_r. }
    apply run_text in Hr; [|done|done|done]. apply cdata_run. by apply (Hfound _ d b).
Qed.

(** A quoted value is written in one piece. *)
Lemma run_value x h off a r x' h' :
  state x = S_ATTR_VALUE -> EB_WF (attr_value_buffer x) ->
  Forall (fun c => negb (c =? attr_value_delimiter x) = true) a ->
  runs (at_ x off) h (a ++ r) x' h' ->
  exists b, EB_Write a (attr_value_buffer x) = Some (true, b) /\
    runs (at_ (set_value b x) (off + length a)) h r x' h'.
Proof.
  intros Hs Hb Ha. revert x off Hs Hb Ha. induction a as [|c a IH]; intros x off Hs Hb Ha Hr.
  { exists (attr_value_buffer x). rewrite Nat.add_0_r. split; [|by destruct x].
    unfold EB_Write, EB_BeginWrite. destruct Hb as [Hb _ _]. simpl. rewrite Z.add_0_r.
    rewrite (proj2 (Z.ltb_ge _ _) Hb). unfold EB_CommitWrite. simpl. rewrite app_nil_r.
    by destruct (attr_value_buffer x). }
  apply Forall_cons in Ha as [Hc Ha]. simpl in Hr. look_at Hr Hs. apply negb_true_iff in Hc. rewrite Hc in Hr.
  unfold ref_value in Hr. rewrite at_value in Hr.
  destruct (EB_Write [c] (attr_value_buffer x)) as [[[|] b1]|] eqn:E; [|done|done].
  cbn [mbind option_bind] in Hr. rewrite at_set_value in Hr. settle Hr.
  destruct (IH (set_value b1 x) (S off) Hs) as (b & Ew & Hr'); [by eapply EB_Write_WF|done|done|].
  exists b. simpl length. rewrite <- Nat.add_succ_comm. split; [|done].
  change (c :: a) with ([c] ++ a). apply EB_Write_app; [done|]. by exists b1.
Qed.

Lemma run_attr_value x' h' x h off rest :
  state x = S_ATTR_VALUE -> EB_WF (attr_value_buffer x) -> runs (at_ x off) h rest x' h' ->
  follows x' h' (feed_attr_value handler x h off rest).
Proof.
  intros Hs Hb Hr. unfold feed_attr_value. destruct (span_while _ rest) as [a r] eqn:E.
  apply span_while_cons in E as (-> & Ha & Hd). apply run_value in Hr as (b & -> & Hr); [|done..].
  destruct r as [|d r]; [done|].
  assert (Hs' : state (set_value b x) = S_ATTR_VALUE) by done. look_at Hr Hs'.
  apply negb_false_iff in Hd. change (attr_value_delimiter (set_value b x)) with (attr_value_delimiter x) in Hr.
  rewrite Hd in Hr. cbv zeta.
  replace (pos (set_value b x) (S (off + length a)) - 1) with (pos (set_value b x) (off + length a))
    by (unfold pos; lia).
  destruct (InvokeAttributeFinished _ _ _) as [x1 h1]. by settle Hr.
Qed.

(** What has been collected of a CDATA section. *)
Definition flushed (x : XmlParser) (off : nat) (pending : list Z) (h : H) : H :=
  match pending with [] => h | _ => text_h pending false (pos x (off - length pending)) h end.

Lemma run_flush x h off pending k x' h' :
  follows x' h' (k (flushed x off pending h)) -> follows x' h' (flush handler x h off pending k).
Proof. intros Hk. unfold flush, flushed in *. destruct pending; [done|]. by apply cdata_run. Qed.

Lemma flushed_snoc x off pending c h : (length pending <= off)%nat ->
  text_h [c] false (pos x off) (flushed x off pending h) = flushed x (S off) (pending ++ [c]) h.
Proof.
  intros Hp. unfold flushed. destruct pending as [|d l] eqn:E.
  { simpl. by rewrite Nat.sub_0_r. }
  rewrite <- E in *. assert (Hne : pending <> []) by (by rewrite E).
  destruct (pending ++ [c]) as [|e m] eqn:E2; [by destruct pending|]. rewrite <- E2.
  rewrite cdata_app by done. rewrite length_app. simpl.
  replace (S off - (length pending + 1))%nat with (off - length pending)%nat by lia.
  f_equal. unfold pos. lia.
Qed.

Lemma run_cdata_section x' h' rest : forall x h off pending,
  state x = S_CDATA_SECTION -> (cdend_match x <= 2)%nat -> (length pending <= off)%nat ->
  (0 < cdend_match x -> pending = [])%nat ->
  runs (at_ x off) (flushed x off pending h) rest x' h' ->
  follows x' h' (feed_cdata_section handler x h off pending rest).
Proof.
  induction rest as [|c r IH]; intros x h off pending Hs Hc Hp He Hr; [by apply run_flush|].
  simpl feed_cdata_section. look_at Hr Hs.
  destruct (_ && (cdend_match x <? 2)%nat) eqn:E1.
  { settle Hr. apply run_flush. apply andb_true_iff in E1 as [_ E1]. apply Nat.ltb_lt in E1.
    apply IH; simpl; [done|lia|lia|done|done]. }
  destruct (_ && (cdend_match x =? 2)%nat) eqn:E2.
  { apply andb_true_iff in E2 as [_ E2]. apply Nat.eqb_eq in E2. rewrite He in Hr by lia. by settle Hr. }
  destruct (Nat.ltb_spec 0 (cdend_match x)) as [Hlt|Hge].
  - rewrite (proj2 (Nat.ltb_lt _ 3)) by lia. simpl negb. cbv iota. rewrite He in Hr by done. simpl flushed in Hr.
    unfold text_h at 2 in Hr.
    pose proof (cdata_all (take (cdend_match x) (str "]]")) false (pos x off) h) as Ha.
    destruct (OnXmlCdata _ _ _ _ _) as [n h1]. simpl in Ha. rewrite length_take in Ha.
    assert (Hn : n = cdend_match x) by (simpl in Ha; lia). rewrite Hn, Nat.leb_refl, Nat.sub_diag. simpl.
    settle Hr. apply IH; simpl; [done|lia|lia|lia|]. by rewrite Nat.sub_0_r.
  - settle Hr. rewrite flushed_snoc in Hr by done.
    apply IH; [done|done|rewrite length_app; simpl; lia|lia|done].
Qed.

Lemma run_step x' h' x h off c r : XWF x -> runs (at_ x off) h (c :: r) x' h' ->
  follows x' h' (feed_step handler x h off c r).
Proof.
  intros Hx Hr. unfold feed_step. destruct (state x) eqn:Hs.
  - apply run_none; auto.
  - apply run_none; auto.
  - look_at Hr Hs. unfold feed_script_element_name. destruct (c =? chr "/"); [by settle Hr|].
    unfold text_h in Hr. pose proof (cdata_all (str "<") true (pos x off) h) as Ha.
    destruct (OnXmlCdata _ _ _ _ _) as [n h1]. simpl in Ha. subst n. by settle Hr.
  - by apply run_element_name.
  - by apply run_element_tag.
  - by apply run_element_boring.
  - by apply run_attr_name.
  - by apply run_after_attr_name.
  - by apply run_before_attr_value.
  - apply run_attr_value; [done|apply Hx|done].
  - by apply run_attr_value_compat.
  - by apply run_short.
  - look_at Hr Hs. by settle Hr.
  - by apply run_declaration_name.
  - apply run_cdata_section; [done|apply Hx|simpl; lia|done|done].
  - by apply run_comment.
Qed.

Lemma cdata_le_all text escaped p h : (fst (OnXmlCdata handler text escaped p h) <= length text)%nat.
Proof. by rewrite cdata_all. Qed.

Lemma run_loop x' h' fuel : forall x h off rest,
  XWF x -> (measure x rest < fuel)%nat -> runs (at_ x off) h rest x' h' ->
  exists n, feed_loop handler fuel x h off rest = Ret x' h' n.
Proof.
  induction fuel as [|fuel IH]; intros x h off rest Hx Hf Hr; [lia|]. destruct rest as [|c r].
  { inversion Hr; subst. by exists off. }
  cbn [feed_loop]. pose proof (good_step handler cdata_le_all x h off c r Hx) as Hg.
  pose proof (run_step x' h' x h off c r Hx Hr) as Ho.
  destruct (feed_step handler x h off c r) as [x1 h1 off1 rest1|x1 h1 n|h1|]; [|..|done|done].
  - destruct Hg as (Hx1 & _ & _ & Hm). apply IH; [done|lia|done].
  - destruct Ho as [-> ->]. by exists n.
Qed.

(** The position advances by the number of characters. *)
Lemma xml_char_stays x h c b x1 h1 : xml_char x h c = Some (b, x1, h1) -> position x1 = position x.
Proof.
  unfold xml_char, eat, look, ref_finish, ref_value, ref_attribute, InvokeAttributeFinished.
  intros E. repeat case_match; simplify_option_eq; repeat case_match; simplify_eq/=; done.
Qed.

Lemma runs_position x h input x' h' : runs x h input x' h' ->
  position x' = position x + Z.of_nat (length input).
Proof.
  induction 1 as [x h|x h c r x1 h1 x' h' E Hr IH|x h c r x1 h1 x' h' E Hr IH]; simpl length;
    [lia|..]; apply xml_char_stays in E; simpl in *; lia.
Qed.

(** ** The reference is total *)

Hypothesis never_closes : forall t h, fst (OnXmlTagFinished handler t h) <> TagClosed.

Lemma ref_finish_total x h : exists x1 h1, ref_finish x h = Some (x1, h1) /\
  position x1 = position x /\ attr_value_buffer x1 = attr_value_buffer x /\ (XWF x -> XWF x1).
Proof.
  unfold ref_finish. pose proof (never_closes (tag x) h) as Hn.
  destruct (OnXmlTagFinished _ _ _) as [[|[|]] h1]; [done|..]; eexists _, _;
    (split; [done|]); split_and!; try done. by intros [].
Qed.

(** A value can be extended up to the limit. *)
Definition room (x : XmlParser) : Z := eb_hard_limit (attr_value_buffer x) - EB_size (attr_value_buffer x).
Definition limit_ok (x : XmlParser) : Prop := eb_hard_limit (attr_value_buffer x) mod 1024 = 0.

Lemma ref_value_total c x : XWF x -> limit_ok x -> 0 < room x ->
  exists x1, ref_value c x = Some x1 /\ position x1 = position x /\ XWF x1 /\
    limit_ok x1 /\ room x1 = room x - 1.
Proof.
  intros Hx Hl Hr. unfold ref_value. destruct (EB_Write_iff [c] _ (xwf_value x Hx) Hl) as (ok & b & E & Hok).
  destruct (EB_Write_spec [c] _ (xwf_value x Hx)) as (ok' & b' & E' & Hwf & Ht & _). rewrite E in E'.
  injection E' as <- <-. rewrite E. unfold room in Hr. simpl in Hok. rewrite (proj2 (Z.leb_le _ _)) in Hok by lia.
  rewrite Hok. eexists. split; [done|]. specialize (Ht Hok).
  split_and!; [done|by destruct Hx; split|by rewrite Ht|]. unfold room. simpl. rewrite Ht.
  unfold EB_size. simpl. rewrite length_app. simpl. lia.
Qed.

(** What one look at a character does to the things that termination and the limit depend on. *)
Definition char_ok (x : XmlParser) (c : Z) (b : bool) (x1 : XmlParser) : Prop :=
  position x1 = position x /\ XWF x1 /\ limit_ok x1 /\ room x - (if b then 1 else 0) <= room x1 /\
  (b = false -> forall r, rank x1 (c :: r) < rank x (c :: r))%nat.

Ltac char_leaf Hx Hl Hs :=
  left; eexists _, _, _; (split; [reflexivity|]); split_and!; simpl;
  [ first [done | congruence]
  | destruct Hx; split; simpl; rewrite ?length_app; simpl; eauto with beng; lia
  | exact Hl
  | unfold room, EB_size; simpl; lia
  | first [discriminate | intros _ ?; unfold rank; simpl; rewrite ?Hs; try lia] ].

(** The attribute value that is being read is full. *)
Definition value_full (x : XmlParser) : Prop :=
  (state x = S_ATTR_VALUE \/ state x = S_ATTR_VALUE_COMPAT) /\ room x <= 0.

Lemma ref_value_full c x : XWF x -> limit_ok x -> room x <= 0 -> ref_value c x = None.
Proof.
  intros Hx Hl Hr. unfold ref_value. destruct (EB_Write_iff [c] _ (xwf_value x Hx) Hl) as (ok & b & -> & Hok).
  unfold room in Hr. simpl in Hok. rewrite (proj2 (Z.leb_gt _ _)) in Hok by lia. by rewrite Hok.
Qed.

Lemma xml_char_cases x h c : XWF x -> limit_ok x ->
  (exists b x1 h1, xml_char x h c = Some (b, x1, h1) /\ char_ok x c b x1) \/
  (xml_char x h c = None /\ value_full x).
Proof.
  intros Hx Hl. unfold xml_char, eat, look, char_ok. destruct (state x) eqn:Hs.
  - destruct (c =? chr "<"); char_leaf Hx Hl Hs.
  - destruct (c =? chr "<"); char_leaf Hx Hl Hs.
  - destruct (c =? chr "/"); char_leaf Hx Hl Hs.
  - destruct (is_html_name_char c).
    { destruct (Nat.eqb_spec (length (tag_name_buffer x)) NAME_SIZE); char_leaf Hx Hl Hs. }
    destruct (_ && _); [char_leaf Hx Hl Hs|]. destruct (_ && _); [char_leaf Hx Hl Hs|].
    destruct (_ && _).
    { destruct (OnXmlTagStart _ _ _) as [i h1]. char_leaf Hx Hl Hs. destruct i; lia. }
    destruct (_ && _); char_leaf Hx Hl Hs.
  - destruct (IsWhitespaceOrNull c); [char_leaf Hx Hl Hs|].
    destruct (_ && _); [char_leaf Hx Hl Hs|]. destruct (_ && _); [char_leaf Hx Hl Hs|].
    destruct (c =? chr ">").
    { destruct (ref_finish_total (set_tag_end (position x + 1) (set_state S_INSIDE x)) h)
        as (x1 & h1 & -> & Hp & Hv & Hw). simpl in *. left. eexists _, _, _. split; [reflexivity|].
      unfold limit_ok, room. simpl. rewrite Hv. split_and!; [done|apply Hw; by destruct Hx|done|lia|done]. }
    destruct (is_html_name_start_char c) eqn:E.
    { char_leaf Hx Hl Hs. unfold is_html_name_char. rewrite E. simpl. lia. }
    destruct (ref_finish_total (set_state S_INSIDE (set_tag_end (position x) x)) h)
      as (x1 & h1 & -> & Hp & Hv & Hw). simpl in *. left. eexists _, _, _. split; [reflexivity|].
    unfold limit_ok, room. simpl. rewrite Hv. split_and!; [done| |done|lia|].
    + assert (Hw' : XWF x1) by (apply Hw; by destruct Hx). by destruct Hw'.
    + intros _ r. unfold rank. simpl. rewrite Hs. lia.
  - destruct (c =? chr ">"); char_leaf Hx Hl Hs.
  - destruct (is_html_name_char c) eqn:E.
    { destruct (Nat.eqb_spec (length (attr_name_buffer x)) NAME_SIZE) as [El|El]; char_leaf Hx Hl Hs.
      destruct (attr_name_buffer x); [done|lia]. }
    char_leaf Hx Hl Hs. rewrite E. destruct (attr_name_buffer x); lia.
  - destruct (c =? chr "="); [char_leaf Hx Hl Hs|].
    destruct (IsWhitespaceOrNull c); char_leaf Hx Hl Hs.
  - destruct (_ || _); [char_leaf Hx Hl Hs|]. destruct (IsWhitespaceOrNull c); char_leaf Hx Hl Hs.
  - destruct (c =? attr_value_delimiter x); [char_leaf Hx Hl Hs|].
    destruct (Z.lt_ge_cases 0 (room x)) as [Hr|Hr].
    + destruct (ref_value_total c x Hx Hl Hr) as (x1 & -> & Hp & Hx1 & Hl1 & Hr1). simpl.
      left. eexists _, _, _. split; [reflexivity|]. split_and!; [done..|lia|done].
    + right. rewrite (ref_value_full c x Hx Hl Hr). split; [done|]. split; [tauto|done].
  - destruct (_ && _); [|char_leaf Hx Hl Hs].
    destruct (Z.lt_ge_cases 0 (room x)) as [Hr|Hr].
    + destruct (ref_value_total c x Hx Hl Hr) as (x1 & -> & Hp & Hx1 & Hl1 & Hr1). simpl.
      left. eexists _, _, _. split; [reflexivity|]. split_and!; [done..|lia|done].
    + right. rewrite (ref_value_full c x Hx Hl Hr). split; [done|]. split; [tauto|done].
  - destruct (IsWhitespaceOrNull c); [char_leaf Hx Hl Hs|].
    destruct (c =? chr ">").
    { destruct (ref_finish_total (set_tag_end (position x + 1) (set_state S_NONE x)) h)
        as (x1 & h1 & -> & Hp & Hv & Hw). simpl in *. left. eexists _, _, _. split; [reflexivity|].
      unfold limit_ok, room. simpl. rewrite Hv. split_and!; [done|apply Hw; by destruct Hx|done|lia|done]. }
    destruct (ref_finish_total (set_state S_INSIDE (set_tag_end (position x) x)) h)
      as (x1 & h1 & -> & Hp & Hv & Hw). simpl in *. left. eexists _, _, _. split; [reflexivity|].
    unfold limit_ok, room. simpl. rewrite Hv. split_and!; [done| |done|lia|].
    + assert (Hw' : XWF x1) by (apply Hw; by destruct Hx). by destruct Hw'.
    + intros _ r. unfold rank. simpl. rewrite Hs. lia.
  - char_leaf Hx Hl Hs.
  - destruct (_ || (c =? chr "[")); [|char_leaf Hx Hl Hs].
    destruct (Nat.eqb_spec (length (tag_name_buffer x)) NAME_SIZE); [char_leaf Hx Hl Hs|].
    case_bool_decide; [char_leaf Hx Hl Hs|]. case_bool_decide; char_leaf Hx Hl Hs.
  - destruct (_ && (cdend_match x <? 2)%nat) eqn:E.
    { apply andb_true_iff in E as [_ E]. apply Nat.ltb_lt in E. char_leaf Hx Hl Hs. }
    destruct ((c =? chr ">") && _); [char_leaf Hx Hl Hs|]. destruct (0 <? cdend_match x)%nat; char_leaf Hx Hl Hs.
  - destruct (minus_count x) as [|[|n]] eqn:Em.
    + destruct (c =? chr "-"); char_leaf Hx Hl Hs.
    + destruct (c =? chr "-"); char_leaf Hx Hl Hs.
    + pose proof (xwf_minus x Hx). assert (n = 0%nat) as -> by lia.
      destruct (c =? chr ">"); [char_leaf Hx Hl Hs; rewrite Em; simpl; lia|].
      destruct (c =? chr "-"); char_leaf Hx Hl Hs. rewrite Em. simpl. lia.
Qed.

Lemma xml_char_total x h c : XWF x -> limit_ok x -> 0 < room x ->
  exists b x1 h1, xml_char x h c = Some (b, x1, h1) /\ char_ok x c b x1.
Proof. intros Hx Hl Hr. destruct (xml_char_cases x h c Hx Hl) as [?|[_ [_ ?]]]; [done|lia]. Qed.

Lemma xml_char_position x h c b x1 h1 : XWF x -> limit_ok x -> 0 < room x ->
  xml_char x h c = Some (b, x1, h1) -> char_ok x c b x1.
Proof.
  intros Hx Hl Hr E. destruct (xml_char_total x h c Hx Hl Hr) as (b' & x1' & h1' & E' & Hok).
  rewrite E in E'. by simplify_eq.
Qed.

(** Reading comes to a character of an attribute value that is already full. *)
Inductive overflows : XmlParser -> H -> list Z -> Prop :=
  | over_here x h c r : xml_char x h c = None -> value_full x -> overflows x h (c :: r)
  | over_eat x h c r x1 h1 : xml_char x h c = Some (true, x1, h1) ->
      overflows (set_position (position x1 + 1) x1) h1 r -> overflows x h (c :: r)
  | over_look x h c r x1 h1 : xml_char x h c = Some (false, x1, h1) ->
      overflows x1 h1 (c :: r) -> overflows x h (c :: r).

Lemma overflows_not_runs x h input x' h' : runs x h input x' h' -> ~ overflows x h input.
Proof. induction 1; inversion 1; subst; congruence || (simplify_eq; auto; congruence). Qed.

(** The reference reads every input, unless a value is too long. *)
Lemma runs_or_overflows n : forall x h input, XWF x -> limit_ok x -> (measure x input < n)%nat ->
  (exists x' h', runs x h input x' h') \/ overflows x h input.
Proof.
  induction n as [|n IH]; intros x h input Hx Hl Hn; [lia|].
  destruct input as [|c r]; [left; exists x, h; constructor|].
  destruct (xml_char_cases x h c Hx Hl) as [(b & x1 & h1 & E & Hp & Hx1 & Hl1 & Hr1 & Hk)|[E Hf]];
    [|right; by constructor].
  unfold measure in Hn. simpl length in Hn. destruct b.
  - destruct (IH (set_position (position x1 + 1) x1) h1 r) as [(x' & h' & Hrun)|Ho].
    + by destruct Hx1.
    + done.
    + unfold measure. pose proof (rank_le (set_position (position x1 + 1) x1) r). lia.
    + left. exists x', h'. by eapply runs_eat.
    + right. by eapply over_eat.
  - destruct (IH x1 h1 (c :: r)) as [(x' & h' & Hrun)|Ho]; [done|done| | |].
    + unfold measure. simpl length. specialize (Hk eq_refl r). lia.
    + left. exists x', h'. by eapply runs_look.
    + right. by eapply over_look.
Qed.

(** A value cannot become longer than the input. *)
Lemma overflows_long x h input : overflows x h input -> XWF x -> limit_ok x ->
  room x < Z.of_nat (length input).
Proof.
  induction 1 as [x h c r E [_ Hf]|x h c r x1 h1 E Ho IH|x h c r x1 h1 E Ho IH]; intros Hx Hl; simpl length in *; [lia|..];
    (destruct (Z.lt_ge_cases 0 (room x)) as [Hr|Hr]; [|lia]);
    destruct (xml_char_position x h c _ x1 h1 Hx Hl Hr E) as (Hp & Hx1 & Hl1 & Hr1 & _).
  - assert (H1 : room (set_position (position x1 + 1) x1) < Z.of_nat (length r)) by (apply IH; [by destruct Hx1|done]).
    change (room (set_position (position x1 + 1) x1)) with (room x1) in H1. lia.
  - specialize (IH Hx1 Hl1). lia.
Qed.

End Reference.

(** Feed the pieces of the input one after the other; all of it has to be consumed. *)
Fixpoint feed_all `{CU : CharUtil} {H} (handler : XmlParserHandler H) (pieces : list (list Z)) (x : XmlParser) (h : H)
  : option (XmlParser * H) :=
  match pieces with
  | [] => Some (x, h)
  | p :: ps =>
      match Feed handler x h p with
      | Ret x h n => if (n =? length p)%nat then feed_all handler ps x h else None
      | _ => None
      end
  end.

Section Split.
Context `{CU : CharUtil} {H : Type} (handler : XmlParserHandler H).

(** What the proofs need to know of a handler: it consumes all text, does
    not depend on how the text is cut into pieces, and never closes the parser. *)
Record well_behaved : Prop := {
  wb_all : forall text escaped p h, fst (OnXmlCdata handler text escaped p h) = length text;
  wb_app : forall a b escaped p h, a <> [] -> b <> [] ->
    text_h handler (a ++ b) escaped p h =
    text_h handler b escaped (p + Z.of_nat (length a)) (text_h handler a escaped p h);
  wb_open : forall t h, fst (OnXmlTagFinished handler t h) <> TagClosed }.

Hypothesis Hwb : well_behaved.

Lemma feed_runs x h p x' h' : XWF x -> p <> [] -> runs handler x h p x' h' ->
  Feed handler x h p = Ret x' h' (length p) /\ XWF x'.
Proof.
  intros Hx Hne Hr. pose proof (runs_position handler x h p x' h' Hr) as Hp. unfold Feed. destruct p as [|c r]; [done|].
  assert (Hf : (measure x (c :: r) < xml_fuel (length (c :: r)))%nat).
  { unfold xml_fuel, measure. pose proof (rank_le x (c :: r)). lia. }
  assert (Hat : runs handler (at_ x 0) h (c :: r) x' h').
  { replace (at_ x 0) with x; [done|]. unfold at_, pos, set_position. rewrite Z.add_0_r. by destruct x. }
  destruct (run_loop handler (wb_all Hwb) (wb_app Hwb) x' h' _ x h 0 (c :: r) Hx Hf Hat) as (n & E).
  pose proof (feed_loop_ok handler (cdata_le_all handler (wb_all Hwb)) _ x h 0 (c :: r) Hx Hf) as Hok.
  rewrite E in Hok. destruct Hok as (Hx' & Hn & Hp'). rewrite E. split; [|done]. f_equal. lia.
Qed.

Lemma runs_pieces pieces : forall x h x' h',
  XWF x -> Forall (fun p => p <> []) pieces -> runs handler x h (concat pieces) x' h' ->
  feed_all handler pieces x h = Some (x', h').
Proof.
  induction pieces as [|p ps IH]; intros x h x' h' Hx Hne Hrun; simpl in *.
  { by inversion Hrun. }
  apply Forall_cons in Hne as [Hp Hps]. apply runs_app in Hrun as (x1 & h1 & H1 & H2).
  destruct (feed_runs x h p x1 h1 Hx Hp H1) as [-> Hx1]. rewrite Nat.eqb_refl. by apply IH.
Qed.

(** C16: What the parser makes of a document does not depend on the pieces
    in which it arrives.  For a handler that consumes all text, does not
    depend on how text is cut and does not close the parser: if the reference machine, which reads
    character by character, reads the document to its end, then feeding it in any pieces leads to the same parser
    (its position included) and the same handler state; and it reads every document to its end in which no attribute value gets longer than
    its buffer (8192 bytes), in particular every document that fits in the buffer.  (With a
    longer value, [Feed()] stops reading the attribute at a place that depends on the pieces.) *)
Theorem xml_split_independent x h input :
  XWF x -> limit_ok x ->
  (forall x' h', runs handler x h input x' h' ->
     forall pieces, concat pieces = input -> Forall (fun p => p <> []) pieces ->
       feed_all handler pieces x h = Some (x', h')) /\
  ((exists x' h', runs handler x h input x' h') <-> ~ overflows handler x h input) /\
  (Z.of_nat (length input) <= room x -> ~ overflows handler x h input).
Proof.
  intros Hx Hl. split_and!.
  - intros x' h' Hrun pieces <- Hne. by apply runs_pieces.
  - split; [intros (x' & h' & Hrun); by eapply overflows_not_runs|]. intros Ho.
    by destruct (runs_or_overflows handler (wb_open Hwb) (S (measure x input)) x h input Hx Hl ltac:(lia)).
  - intros Hr Ho. pose proof (overflows_long handler (wb_open Hwb) x h input Ho Hx Hl). lia.
Qed.

End Split.
