(* ===== verification/XmlElement.v ===== *)
(** * What the XML parser reports

    The offsets and names that the handler gets for an element with an
    attribute, and examples. *)

From S2P Require Import Prelude CharUtil ExpansibleBuffer XmlParser XmlFacts XmlSplit.

Lemma XmlParser_ext x y : position x = position y -> state x = state y -> tag x = tag y ->
  tag_name_buffer x = tag_name_buffer y -> attr_name_buffer x = attr_name_buffer y ->
  attr_value_delimiter x = attr_value_delimiter y -> attr_value_buffer x = attr_value_buffer y ->
  name_start (attr x) = name_start (attr y) -> value_start (attr x) = value_start (attr y) ->
  value_end (attr x) = value_end (attr y) -> attr_end (attr x) = attr_end (attr y) ->
  attr_name (attr x) = attr_name (attr y) -> attr_value (attr x) = attr_value (attr y) ->
  cdend_match x = cdend_match y -> minus_count x = minus_count y -> x = y.
Proof. destruct x as [? ? ? ? ? ? ? [] ? ?], y as [? ? ? ? ? ? ? [] ? ?]. simpl. intros. by subst. Qed.

Section Element.
Context `{CU : CharUtil} {H : Type} (handler : XmlParserHandler H).

(** What has to be known of the character classes. *)
Record plain_chars : Prop := {
  pc_space : IsWhitespaceOrNull 32 = true;
  pc_name : forall c, is_html_name_char c = true -> IsWhitespaceOrNull c = false;
  pc_other : forall c, c ∈ str "=/>?" -> is_html_name_char c = false;
  pc_gt : IsWhitespaceOrNull (chr ">") = false }.

Hypothesis Hpc : plain_chars.

Definition move (n : nat) (x : XmlParser) : XmlParser := set_position (position x + Z.of_nat n) x.

Lemma move_S n x : move (S n) x = set_position (position (move n x) + 1) (move n x).
Proof. unfold move, set_position. simpl. f_equal. lia. Qed.

Lemma move_1 x : set_position (position x + 1) x = move 1 x.
Proof. done. Qed.

Lemma move_move n m x : move n (move m x) = move (m + n) x.
Proof. unfold move, set_position. simpl. f_equal. lia. Qed.

(** A step does not depend on where the parser is. *)
Lemma shift_tag_name n v w x :
  move n (set_tag_name v (move 1 (set_tag_name w x))) = move (S n) (set_tag_name v x).
Proof. unfold move, set_position, set_tag_name. simpl. f_equal. lia. Qed.
Lemma shift_attr_name n v w x :
  move n (set_attr_name v (move 1 (set_attr_name w x))) = move (S n) (set_attr_name v x).
Proof. unfold move, set_position, set_attr_name. simpl. f_equal. lia. Qed.
Lemma shift_value n v w x : move n (set_value v (move 1 (set_value w x))) = move (S n) (set_value v x).
Proof. unfold move, set_position, set_value. simpl. f_equal. lia. Qed.

Lemma runs_eat1 x h c r x1 h1 x' h' : xml_char handler x h c = Some (true, x1, h1) ->
  runs handler (move 1 x1) h1 r x' h' -> runs handler x h (c :: r) x' h'.
Proof. intros E Hr. by eapply runs_eat. Qed.

Definition lower (s : list Z) : list Z := map ToLowerASCII s.

Lemma runs_element_name name : forall x h r x' h',
  state x = S_ELEMENT_NAME -> Forall (fun c => is_html_name_char c = true) name ->
  (length (tag_name_buffer x) + length name <= NAME_SIZE)%nat ->
  runs handler (move (length name) (set_tag_name (tag_name_buffer x ++ lower name) x)) h r x' h' ->
  runs handler x h (name ++ r) x' h'.
Proof.
  induction name as [|c name IH]; intros x h r x' h' Hs Hn Hl Hr; simpl in *.
  { rewrite app_nil_r in Hr. replace x with (move 0 (set_tag_name (tag_name_buffer x) x)); [done|].
    unfold move, set_position. simpl. rewrite Z.add_0_r. by destruct x. }
  apply Forall_cons in Hn as [Hc Hn].
  eapply runs_eat1 with (x1 := set_tag_name (tag_name_buffer x ++ [ToLowerASCII c]) x) (h1 := h).
  { unfold xml_char. rewrite Hs, Hc, (proj2 (Nat.eqb_neq _ _)) by lia. done. }
  apply IH; [done|done|simpl; rewrite length_app; simpl; lia|].
  rewrite shift_tag_name. cbn [tag_name_buffer attr_name_buffer set_tag_name set_attr_name move set_position].
  rewrite <- app_assoc. exact Hr.
Qed.

Lemma runs_attr_name name : forall x h r x' h',
  state x = S_ATTR_NAME -> Forall (fun c => is_html_name_char c = true) name ->
  (length (attr_name_buffer x) + length name <= NAME_SIZE)%nat ->
  runs handler (move (length name) (set_attr_name (attr_name_buffer x ++ lower name) x)) h r x' h' ->
  runs handler x h (name ++ r) x' h'.
Proof.
  induction name as [|c name IH]; intros x h r x' h' Hs Hn Hl Hr; simpl in *.
  { rewrite app_nil_r in Hr. replace x with (move 0 (set_attr_name (attr_name_buffer x) x)); [done|].
    unfold move, set_position. simpl. rewrite Z.add_0_r. by destruct x. }
  apply Forall_cons in Hn as [Hc Hn].
  eapply runs_eat1 with (x1 := set_attr_name (attr_name_buffer x ++ [ToLowerASCII c]) x) (h1 := h).
  { unfold xml_char. rewrite Hs, Hc, (proj2 (Nat.eqb_neq _ _)) by lia. done. }
  apply IH; [done|done|simpl; rewrite length_app; simpl; lia|].
  rewrite shift_attr_name. cbn [tag_name_buffer attr_name_buffer set_tag_name set_attr_name move set_position].
  rewrite <- app_assoc. exact Hr.
Qed.

Lemma runs_value value : forall x h r x' h' b,
  state x = S_ATTR_VALUE -> EB_WF (attr_value_buffer x) ->
  Forall (fun c => c <> attr_value_delimiter x) value ->
  EB_Write value (attr_value_buffer x) = Some (true, b) ->
  runs handler (move (length value) (set_value b x)) h r x' h' ->
  runs handler x h (value ++ r) x' h'.
Proof.
  induction value as [|c value IH]; intros x h r x' h' b Hs Hb Hv Hw Hr; simpl in *.
  { unfold EB_Write, EB_BeginWrite in Hw. simpl in Hw. rewrite Z.add_0_r in Hw.
    rewrite (proj2 (Z.ltb_ge _ _) (eb_fits _ Hb)) in Hw. simpl in Hw. unfold EB_CommitWrite in Hw.
    rewrite app_nil_r in Hw. injection Hw as <-. replace x with (move 0 (set_value (attr_value_buffer x) x)).
    - by destruct (attr_value_buffer x).
    - unfold move, set_position. simpl. rewrite Z.add_0_r. by destruct x. }
  apply Forall_cons in Hv as [Hc Hv]. change (c :: value) with ([c] ++ value) in Hw.
  apply EB_Write_app in Hw as (b1 & Hw1 & Hw2); [|done].
  eapply runs_eat1 with (x1 := set_value b1 x) (h1 := h).
  { unfold xml_char. rewrite Hs, (proj2 (Z.eqb_neq _ _) Hc). unfold ref_value. by rewrite Hw1. }
  apply (IH _ _ _ _ _ b); [done|by eapply EB_Write_WF|done|done|].
  rewrite shift_value. exact Hr.
Qed.

(** [<name aname="value">] *)
Definition element (name aname value : list Z) : list Z :=
  [60] ++ name ++ [32] ++ aname ++ [61] ++ [34] ++ value ++ [34] ++ [62].

(** The handler's calls for this element at the position [p]. *)
Definition element_calls (p e : Z) (name aname value : list Z) (h : H) : H :=
  let n := Z.of_nat (length name) in
  let m := Z.of_nat (length aname) in
  let v := Z.of_nat (length value) in
  let h := snd (OnXmlTagStart handler (mkTag p e (lower name) OPEN) h) in
  let h := OnXmlAttributeFinished handler
             (mkAttr (p + n + 2) (p + n + m + 4) (p + n + m + 4 + v) (p + n + m + 5 + v)
                (lower aname) value) h in
  snd (OnXmlTagFinished handler (mkTag p (p + n + m + 6 + v) (lower name) OPEN) h).

Lemma runs_eat_nil x h c x1 h1 : xml_char handler x h c = Some (true, x1, h1) ->
  runs handler x h [c] (move 1 x1) h1.
Proof. intros E. eapply runs_eat1; [done|constructor]. Qed.

(** Compare known characters. *)
Ltac chars := repeat match goal with |- context [?a =? chr ?b] =>
  let v := eval vm_compute in (a =? chr b) in
  match v with true => idtac | false => idtac end; change (a =? chr b) with v end.

Lemma ref_finish_go x h : fst (OnXmlTagFinished handler (tag x) h) = TagGoOn false ->
  ref_finish handler x h = Some (x, snd (OnXmlTagFinished handler (tag x) h)).
Proof. unfold ref_finish. destruct (OnXmlTagFinished _ _ _) as [f h1]. simpl. by intros ->. Qed.

(** The end of the attribute and of the tag. *)
Lemma runs_tag_end x h : state x = S_ATTR_VALUE -> attr_value_delimiter x = 34 ->
  (forall t h, fst (OnXmlTagFinished handler t h) = TagGoOn false) ->
  exists x', runs handler x h ([34] ++ [62]) x'
    (snd (OnXmlTagFinished handler (mkTag (tag_start (tag x)) (position x + 2) (tag_name (tag x)) (tag_type (tag x)))
       (OnXmlAttributeFinished handler
         (mkAttr (name_start (attr x)) (value_start (attr x)) (position x) (position x + 1)
           (attr_name_buffer x) (eb_data (attr_value_buffer x))) h))) /\
    state x' = S_INSIDE.
Proof.
  intros Hs Hd Hgo. eexists. split.
  - eapply runs_eat1. { unfold xml_char. rewrite Hs, Hd. simpl. reflexivity. }
    eapply runs_eat_nil.
    assert (Hgt : IsWhitespaceOrNull 62 = false) by exact (pc_gt Hpc). unfold xml_char. simpl. rewrite Hgt.
    chars. simpl. rewrite ref_finish_go by apply Hgo. simpl.
    replace (position x + Z.of_nat 1 + 1) with (position x + 2) by lia. reflexivity.
  - done.
Qed.

(** From the white space to the quoted value. *)
Lemma runs_attribute x h aname r x' h' : state x = S_ELEMENT_TAG -> aname <> [] ->
  is_html_name_start_char (hd 0 aname) = true -> Forall (fun c => is_html_name_char c = true) aname ->
  (length aname <= NAME_SIZE)%nat ->
  (let s := position x + 1 in
   let x1 := set_name_start s (set_state S_ATTR_VALUE x) in
   let x2 := set_value (EB_Clear (attr_value_buffer x)) (set_attr_name (lower aname) x1) in
   let e := s + Z.of_nat (length aname) + 2 in
   runs handler (set_position e (set_value_start e (set_delimiter 34 x2))) h r x' h') ->
  runs handler x h ([32] ++ aname ++ [61] ++ [34] ++ r) x' h'.
Proof.
  intros Hs Hne Hst Hn Hl Hr. cbv zeta in Hr.
  eapply runs_eat1. { unfold xml_char. rewrite Hs, (pc_space Hpc). reflexivity. } cbn [fst snd].
  destruct aname as [|c name]; [done|]. simpl in Hst. set (aname := c :: name) in *.
  assert (Hc : is_html_name_char c = true) by (unfold is_html_name_char; by rewrite Hst).
  assert (Hno : forall d, d ∈ str "=/>?" -> (c =? d) = false).
  { intros d Hd. apply Z.eqb_neq. intros ->. by rewrite (pc_other Hpc) in Hc. }
  assert (Heq : is_html_name_char 61 = false) by (apply (pc_other Hpc), list_elem_of_In; vm_compute; tauto).
  eapply runs_look.
  { unfold xml_char. cbn [state move set_position]. rewrite Hs, (pc_name Hpc c Hc).
    rewrite (Hno (chr "/")), (Hno (chr "?")), (Hno (chr ">")) by (apply list_elem_of_In; vm_compute; tauto).
    rewrite Hst. reflexivity. }
  change (c :: ?l) with ([c] ++ l). rewrite app_assoc. change ([c] ++ name) with aname. cbn [fst snd].
  apply runs_attr_name; [done|done|exact Hl|].
  eapply runs_look. { unfold xml_char. simpl. rewrite Heq. reflexivity. } cbn [fst snd].
  eapply runs_eat1. { unfold xml_char. simpl. chars. reflexivity. } cbn [fst snd].
  eapply runs_eat1. { unfold xml_char. simpl. reflexivity. } cbn [fst snd].
  match goal with |- runs _ ?y _ _ _ _ => match type of Hr with runs _ ?z _ _ _ _ =>
    replace y with z; [exact Hr|] end end.
  apply XmlParser_ext; try reflexivity; simpl; lia.
Qed.

Definition valid_name (name : list Z) : Prop :=
  name <> [] /\ is_html_name_start_char (hd 0 name) = true /\
  Forall (fun c => is_html_name_char c = true) name /\ (length name <= NAME_SIZE)%nat.

(** A value that is not too long can be written to the buffer. *)
Lemma value_fits x value : XWF x -> limit_ok x ->
  Z.of_nat (length value) <= eb_hard_limit (attr_value_buffer x) ->
  exists b, EB_Write value (EB_Clear (attr_value_buffer x)) = Some (true, b) /\ eb_data b = value.
Proof.
  intros Hx Hl Hv. pose proof (EB_Clear_WF _ (xwf_value x Hx)) as Hb.
  destruct (EB_Write_iff value _ Hb Hl) as (ok & b & E & Hok).
  destruct (EB_Write_spec value _ Hb) as (ok' & b' & E' & _ & Ht & _). rewrite E in E'. injection E' as <- <-.
  unfold EB_size in Hok. simpl in Hok. rewrite (proj2 (Z.leb_le _ _)) in Hok by lia. subst ok.
  exists b. split; [done|]. by rewrite Ht.
Qed.

(** The name of the element is complete. *)
Lemma look_tag_start x h : state x = S_ELEMENT_NAME -> tag_name_buffer x <> [] ->
  (forall t h, fst (OnXmlTagStart handler t h) = true) ->
  let t := mkTag (tag_start (tag x)) (tag_end (tag x)) (tag_name_buffer x) (tag_type (tag x)) in
  xml_char handler x h 32 =
    Some (false, set_state S_ELEMENT_TAG (set_tag t x), snd (OnXmlTagStart handler t h)).
Proof.
  intros Hs Hne Hint t. unfold xml_char. rewrite Hs.
  assert (Hsp : is_html_name_char 32 = false).
  { destruct (is_html_name_char 32) eqn:E; [|done]. apply (pc_name Hpc) in E. by rewrite (pc_space Hpc) in E. }
  assert (Hl : (length (tag_name_buffer x) =? 0)%nat = false) by (destruct (tag_name_buffer x); done).
  rewrite Hsp, Hl, (pc_space Hpc). chars. cbn [andb orb negb tag set_tag]. fold t.
  specialize (Hint t h). destruct (OnXmlTagStart handler t h) as [i h1]. simpl in Hint. by subst i.
Qed.

Lemma runs_element x h name aname value : XWF x -> limit_ok x -> state x = S_NONE ->
  valid_name name -> valid_name aname -> Forall (fun c => c <> 34) value ->
  Z.of_nat (length value) <= eb_hard_limit (attr_value_buffer x) ->
  (forall t h, fst (OnXmlTagStart handler t h) = true) ->
  (forall t h, fst (OnXmlTagFinished handler t h) = TagGoOn false) ->
  exists x', runs handler x h (element name aname value) x'
    (element_calls (position x) (tag_end (tag x)) name aname value h) /\ state x' = S_INSIDE.
Proof.
  intros Hx Hl Hs (Hn1 & _ & Hn3 & Hn4) (Ha1 & Ha2 & Ha3 & Ha4) Hv Hlv Hint Hgo. unfold element.
  destruct (value_fits x value Hx Hl Hlv) as (b & Hw & Hbd).
  set (x1 := move 1 (set_tag_type OPEN (set_tag_name [] (set_state S_ELEMENT_NAME (set_tag_start (position x) x))))).
  set (x2 := move (length name) (set_tag_name (lower name) x1)).
  set (t := mkTag (position x) (tag_end (tag x)) (lower name) OPEN).
  set (h1 := snd (OnXmlTagStart handler t h)).
  set (x3 := set_state S_ELEMENT_TAG (set_tag t x2)).
  set (s := position x3 + 1). set (e := s + Z.of_nat (length aname) + 2).
  set (x4 := set_position e (set_value_start e (set_delimiter 34 (set_value (EB_Clear (attr_value_buffer x3))
    (set_attr_name (lower aname) (set_name_start s (set_state S_ATTR_VALUE x3))))))).
  set (x5 := move (length value) (set_value b x4)).
  destruct (runs_tag_end x5 h1 eq_refl eq_refl Hgo) as (x' & Hend & Hs').
  exists x'. split; [|done].
  assert (Hh : element_calls (position x) (tag_end (tag x)) name aname value h =
    snd (OnXmlTagFinished handler (mkTag (tag_start (tag x5)) (position x5 + 2) (tag_name (tag x5)) (tag_type (tag x5)))
       (OnXmlAttributeFinished handler
         (mkAttr (name_start (attr x5)) (value_start (attr x5)) (position x5) (position x5 + 1)
           (attr_name_buffer x5) (eb_data (attr_value_buffer x5))) h1))).
  { unfold element_calls. fold t. fold h1. cbn -[Z.add Z.of_nat lower]. rewrite Hbd. unfold e, s. cbn -[Z.add Z.of_nat lower].
    apply f_equal. apply f_equal2; [|apply f_equal2; [|done]]; (f_equal; lia). }
  rewrite Hh. clear Hh.
  eapply runs_eat1. { unfold xml_char. rewrite Hs. chars. reflexivity. }
  change (runs handler x1 h (name ++ [32] ++ aname ++ [61] ++ [34] ++ value ++ [34] ++ [62]) x'
    (snd (OnXmlTagFinished handler (mkTag (tag_start (tag x5)) (position x5 + 2) (tag_name (tag x5)) (tag_type (tag x5)))
       (OnXmlAttributeFinished handler
         (mkAttr (name_start (attr x5)) (value_start (attr x5)) (position x5) (position x5 + 1)
           (attr_name_buffer x5) (eb_data (attr_value_buffer x5))) h1)))).
  apply runs_element_name; [done|done|exact Hn4|]. change (move _ _) with x2.
  assert (Hne : tag_name_buffer x2 <> []) by (simpl; by destruct name).
  eapply (runs_look _ x2 h 32 _ x3 h1); [exact (look_tag_start x2 h eq_refl Hne Hint)|].
  apply runs_attribute; [done..|]. cbv zeta. fold s e x4.
  apply (runs_value value _ _ _ _ _ b); [done|by apply EB_Clear_WF, Hx|exact Hv|exact Hw|]. exact Hend.
Qed.

(** What the parser reports of an element with an attribute: the names in
    lower case, the value as it is, and the offsets of the tag, of the
    attribute and of its value in the stream, which the template processor uses to
    replace them.  All of it is consumed, and the parser is inside of the
    element. *)
Theorem xml_element x h name aname value :
  well_behaved handler -> XWF x -> limit_ok x -> state x = S_NONE ->
  valid_name name -> valid_name aname -> Forall (fun c => c <> 34) value ->
  Z.of_nat (length value) <= eb_hard_limit (attr_value_buffer x) ->
  (forall t h, fst (OnXmlTagStart handler t h) = true) ->
  (forall t h, fst (OnXmlTagFinished handler t h) = TagGoOn false) ->
  exists x', Feed handler x h (element name aname value) =
      Ret x' (element_calls (position x) (tag_end (tag x)) name aname value h)
        (length (element name aname value)) /\ state x' = S_INSIDE.
Proof.
  intros Hwb Hx Hl Hs Hn Ha Hv Hlv Hint Hgo.
  destruct (runs_element x h name aname value Hx Hl Hs Hn Ha Hv Hlv Hint Hgo) as (x' & Hr & Hs').
  exists x'. split; [|done]. by apply feed_runs.
Qed.

End Element.

(** ** Examples *)

Module XmlExamples.

#[local] Existing Instance AsciiChars.

Inductive call :=
  | CallStart (t : XmlParserTag)
  | CallFinished (t : XmlParserTag)
  | CallAttribute (a : XmlParserAttribute)
  | CallText (p : Z) (text : list Z).

(** A log that joins adjacent text. *)
Definition add_text (text : list Z) (p : Z) (log : list call) : list call :=
  match log with
  | CallText q t :: log' =>
      if (q + Z.of_nat (length t) =? p) && negb (bool_decide (t = [])) then CallText q (t ++ text) :: log'
      else CallText p text :: log
  | _ => CallText p text :: log
  end.

Definition logger : XmlParserHandler (list call) := mkHandler _
  (fun t h => (true, CallStart t :: h))
  (fun t h => (TagGoOn false, CallFinished t :: h))
  (fun a h => CallAttribute a :: h)
  (fun text escaped p h => (length text, add_text text p h)).

Lemma logger_well_behaved : well_behaved logger.
Proof.
  split; [done| |done]. intros a b escaped p h Ha Hb. unfold text_h. simpl.
  assert (Hj : forall q t l, t <> [] -> q + Z.of_nat (length t) = p + Z.of_nat (length a) ->
    add_text b (p + Z.of_nat (length a)) (CallText q t :: l) = CallText q (t ++ b) :: l).
  { intros q t l Ht E. simpl. rewrite E, Z.eqb_refl, bool_decide_eq_false_2 by done. done. }
  destruct h as [|[t|t|at_|q t] h]; unfold add_text at 1 3; rewrite ?Hj by done; try done.
  destruct (_ && _) eqn:E; rewrite Hj; try done.
  - by rewrite app_assoc.
  - by destruct t.
  - apply andb_true_iff in E as [E _]. apply Z.eqb_eq in E. rewrite length_app. lia.
Qed.

Lemma ascii_plain : plain_chars.
Proof.
  split; [done| | |done].
  - intros c. unfold is_html_name_char, is_html_name_start_char. simpl. unfold in_range.
    repeat match goal with |- context [chr ?a] => let v := eval vm_compute in (chr a) in change (chr a) with v end.
    intros E. apply Z.leb_gt. rewrite !orb_true_iff, !andb_true_iff, !Z.leb_le, !Z.eqb_eq in E. lia.
  - intros c Hc. apply list_elem_of_In in Hc. vm_compute in Hc. by destruct Hc as [<-|[<-|[<-|[<-|[]]]]].
Qed.

Definition new_parser : XmlParser :=
  mkXml 0 S_NONE (mkTag 0 0 [] OPEN) [] [] 0 (mkEB [] 512 8192) (mkAttr 0 0 0 0 [] []) 0 0.

Lemma new_parser_WF : XmlParser_new = Some new_parser /\ XWF new_parser.
Proof. destruct XmlParser_new_WF as (x & E & Hx & _). rewrite E. injection E as <-. done. Qed.

Definition document : list Z := str "x<a B='1' c>y</a><![CDATA[z]]>".

Lemma xml_feed_safe_witness :
  XWF new_parser /\ feed_result 0 30 (Feed logger new_parser [] document).
Proof.
  split; [apply new_parser_WF|].
  apply (xml_feed_safe logger (cdata_le_all logger (wb_all logger logger_well_behaved)) new_parser []);
    [apply new_parser_WF|discriminate].
Defined.

Lemma xml_split_independent_witness :
  exists x' h', runs logger new_parser [] document x' h' /\
    forall pieces, concat pieces = document -> Forall (fun p => p <> []) pieces ->
      feed_all logger pieces new_parser [] = Some (x', h').
Proof.
  destruct (xml_split_independent logger logger_well_behaved new_parser [] document) as (H1 & H2 & H3).
  - apply new_parser_WF.
  - reflexivity.
  - destruct (proj2 H2 (H3 ltac:(vm_compute; discriminate))) as (x' & h' & Hr).
    exists x', h'. split; [exact Hr|]. exact (H1 x' h' Hr).
Defined.

Lemma xml_element_witness :
  exists x', Feed logger new_parser [] (element (str "Img") (str "src") (str "a b")) =
      Ret x' (element_calls logger 0 0 (str "Img") (str "src") (str "a b") []) 15 /\ state x' = S_INSIDE.
Proof.
  apply (xml_element logger ascii_plain new_parser [] (str "Img") (str "src") (str "a b") logger_well_behaved).
  - apply new_parser_WF.
  - reflexivity.
  - reflexivity.
  - split; [discriminate|]. split; [reflexivity|]. split; [|vm_compute; lia]. vm_compute. by repeat constructor.
  - split; [discriminate|]. split; [reflexivity|]. split; [|vm_compute; lia]. vm_compute. by repeat constructor.
  - vm_compute. by repeat constructor.
  - vm_compute. discriminate.
  - reflexivity.
  - reflexivity.
Defined.

(** What the log of the document is. *)
Example document_log :
  match Feed logger new_parser [] document with
  | Ret x h n => Some (state x, n, rev h)
  | _ => None
  end = Some (S_NONE, 30%nat,
    [CallText 0 (str "x"); CallStart (mkTag 1 0 (str "a") OPEN);
     CallAttribute (mkAttr 4 7 8 9 (str "b") (str "1"));
     CallAttribute (mkAttr 10 11 11 9 (str "c") []);
     CallFinished (mkTag 1 12 (str "a") OPEN); CallText 12 (str "y");
     CallStart (mkTag 13 12 (str "a") CLOSE); CallFinished (mkTag 13 17 (str "a") CLOSE);
     CallText 26 (str "z")]).
Proof. vm_compute. reflexivity. Qed.

(** The end of an attribute without a value is not set: the handler gets that of
    another attribute. *)
Lemma attribute_end_stale :
  exists x n h, Feed logger new_parser [] (str "<a b='1' c>") =
    Ret x (CallFinished (mkTag 0 11 (str "a") OPEN) ::
           CallAttribute (mkAttr 9 10 10 8 (str "c") []) :: h) n.
Proof. eexists _, _, _. vm_compute. reflexivity. Qed.

(** A CDATA section that ends with three brackets is not closed. *)
Lemma cdata_end_missed :
  exists x n, Feed logger new_parser [] (str "<![CDATA[z]]]>y") =
    Ret x [CallText 12 (str "]>y"); CallText 12 (str "]]"); CallText 9 (str "z")] n /\ state x = S_CDATA_SECTION.
Proof. eexists _, _. vm_compute. split; reflexivity. Qed.

(** The last character of a comment is passed as text. *)
Lemma comment_end_is_text :
  exists x n, Feed logger new_parser [] (str "<!--c-->") = Ret x [CallText 7 (str ">")] n.
Proof. eexists _, _. vm_compute. reflexivity. Qed.

End XmlExamples.
