(* ===== verification/CssParser.v ===== *)
(** * The CSS parser

    Models src/parser/CssParser.hxx and CssParser.cxx: a state machine that
    looks for class names, ids, properties and URLs in a style sheet.

    The arrays of the parser are lists with a capacity, which is the argument of
    their template.  As in the XML parser, [off] is [buffer - start] and [rest] is the
    input from [buffer] to [end]. *)

From S2P Require Import Prelude CharUtil.

Module Css.

Record CssParserValue := mkValue {
  value_start : Z;
  value_end : Z;
  value : list Z }.

(** The methods are optional; those for URLs return whether they have
    destroyed the parser. *)
Record CssParserHandler (H : Type) := mkHandler {
  class_name : option (CssParserValue -> H -> H);
  xml_id : option (CssParserValue -> H -> H);
  on_block : option (H -> H);
  property_keyword : option (list Z -> list Z -> Z -> Z -> H -> H);
  url : option (CssParserValue -> H -> bool * H);
  import : option (CssParserValue -> H -> bool * H) }.
#[global] Arguments class_name {H}.
#[global] Arguments xml_id {H}.
#[global] Arguments on_block {H}.
#[global] Arguments property_keyword {H}.
#[global] Arguments url {H}.
#[global] Arguments import {H}.

Inductive State :=
  | NONE | BLOCK | CLASS_NAME | XML_ID | DISCARD_QUOTED | PROPERTY | POST_PROPERTY | PRE_VALUE | VALUE
  | PRE_URL | URL | AT | PRE_IMPORT | IMPORT.

Record CssParser := mkCss {
  block : bool;
  position : Z;
  state : State;
  quote : Z;
  name_start : Z;
  name_buffer : list Z;
  value_buffer : list Z;
  url_start : Z;
  url_buffer : list Z }.

Definition NAME_CAPACITY : nat := 64.
Definition VALUE_CAPACITY : nat := 64.
Definition URL_CAPACITY : nat := 1024.

(** Assignments to members. *)
Definition set_position v x := mkCss (block x) v (state x) (quote x) (name_start x) (name_buffer x)
  (value_buffer x) (url_start x) (url_buffer x).
Definition set_state v x := mkCss (block x) (position x) v (quote x) (name_start x) (name_buffer x)
  (value_buffer x) (url_start x) (url_buffer x).
Definition set_quote v x := mkCss (block x) (position x) (state x) v (name_start x) (name_buffer x)
  (value_buffer x) (url_start x) (url_buffer x).
Definition set_name_start v x := mkCss (block x) (position x) (state x) (quote x) v (name_buffer x)
  (value_buffer x) (url_start x) (url_buffer x).
Definition set_name v x := mkCss (block x) (position x) (state x) (quote x) (name_start x) v
  (value_buffer x) (url_start x) (url_buffer x).
Definition set_value v x := mkCss (block x) (position x) (state x) (quote x) (name_start x) (name_buffer x)
  v (url_start x) (url_buffer x).
Definition set_url_start v x := mkCss (block x) (position x) (state x) (quote x) (name_start x) (name_buffer x)
  (value_buffer x) v (url_buffer x).
Definition set_url v x := mkCss (block x) (position x) (state x) (quote x) (name_start x) (name_buffer x)
  (value_buffer x) (url_start x) v.

(** The other members get no initial value. *)
Definition CssParser_new (b : bool) : CssParser :=
  mkCss b 0 (if b then BLOCK else NONE) 0 0 [] [] 0 [].

Section Parser.
Context `{CU : CharUtil} {H : Type} (handler : CssParserHandler H).

Definition at_url_start (p : list Z) : bool :=
  (4 <=? length p)%nat && bool_decide (drop (length p - 4) p = str "url(") &&
  ((length p =? 4)%nat || IsWhitespaceOrNull (nth (length p - 5) p 0)).

(** [AppendTruncated()] *)
Definition AppendTruncated (p buffer : list Z) : list Z := buffer ++ take (URL_CAPACITY - length buffer) p.

(** The same, if [nbytes] bytes were announced of which only [p] are there;
    [None] if memory after them is read. *)
Definition AppendTruncated_from (p : list Z) (nbytes : nat) (buffer : list Z) : option (list Z) :=
  if (Nat.min nbytes (URL_CAPACITY - length buffer) <=? length p)%nat
  then Some (buffer ++ take (Nat.min nbytes (URL_CAPACITY - length buffer)) p)
  else None.

(** What an iteration of the loop of [Feed()] leads to. *)
Inductive outcome :=
  | Next (x : CssParser) (h : H) (off : nat) (rest : list Z)
  | Ret (x : CssParser) (h : H) (nbytes : nat)
  | Destroyed (h : H)
  | OverRead
  | Failed.

Definition pos (x : CssParser) (off : nat) : Z := position x + Z.of_nat off.

Definition return_ (x : CssParser) (h : H) (nbytes : nat) : outcome :=
  Ret (set_position (position x + Z.of_nat nbytes) x) h nbytes.

Definition defined {A} (o : option A) : bool := match o with Some _ => true | None => false end.

Fixpoint feed_none (x : CssParser) (h : H) (off : nat) (rest : list Z) : outcome :=
  match rest with
  | [] => Next x h off []
  | c :: r =>
      let start_name st := set_name [] (set_name_start (pos x off + 1) (set_state st x)) in
      if c =? chr "{" then
        Next (set_state BLOCK x) (match on_block handler with Some f => f h | None => h end) (S off) r
      else if (c =? chr ".") && defined (class_name handler) then Next (start_name CLASS_NAME) h (S off) r
      else if (c =? chr "#") && defined (xml_id handler) then Next (start_name XML_ID) h (S off) r
      else if (c =? chr "@") && defined (import handler) then Next (set_name [] (set_state AT x)) h (S off) r
      else feed_none x h (S off) r
  end.

(** A character that is added as long as there is room for one more. *)
Definition push_name (c : Z) (x : CssParser) : CssParser :=
  if (length (name_buffer x) <? NAME_CAPACITY - 1)%nat then set_name (name_buffer x ++ [c]) x else x.

(** [CLASS_NAME] and [XML_ID], with the handler method [f]. *)
Fixpoint feed_name (f : option (CssParserValue -> H -> H)) (x : CssParser) (h : H) (off : nat) (rest : list Z)
  : outcome :=
  match rest with
  | [] => Next x h off []
  | c :: r =>
      if negb (is_css_nmchar c) then
        match name_buffer x with
        | [] => Next (set_state NONE x) h off rest
        | name =>
            match f with
            | Some f => Next (set_state NONE x) (f (mkValue (name_start x) (pos x off) name) h) off rest
            | None => Failed
            end
        end
      else feed_name f (push_name c x) h (S off) r
  end.

Fixpoint feed_block (x : CssParser) (h : H) (off : nat) (rest : list Z) : outcome :=
  match rest with
  | [] => Next x h off []
  | c :: r =>
      if c =? chr "}" then
        if block x then feed_block x h (S off) r else Next (set_state NONE x) h (S off) r
      else if c =? chr ":" then Next (set_name [] (set_state PRE_VALUE x)) h (S off) r
      else if (c =? 39) || (c =? 34) then Next (set_quote c (set_state DISCARD_QUOTED x)) h (S off) r
      else if is_css_ident_start c && defined (property_keyword handler) then
        Next (set_name [c] (set_name_start (pos x off) (set_state PROPERTY x))) h (S off) r
      else feed_block x h (S off) r
  end.

Definition feed_discard_quoted (x : CssParser) (h : H) (off : nat) (rest : list Z) : outcome :=
  let '(skipped, r) := span_while (fun c => negb (c =? quote x)) rest in
  match r with
  | [] => return_ x h (off + length rest)
  | _ :: r => Next (set_state BLOCK x) h (S (off + length skipped)) r
  end.

Fixpoint feed_property (x : CssParser) (h : H) (off : nat) (rest : list Z) : outcome :=
  match rest with
  | [] => Next x h off []
  | c :: r =>
      if negb (is_css_ident_char c) then Next (set_state POST_PROPERTY x) h off rest
      else feed_property (push_name c x) h (S off) r
  end.

(** The inner loop ends after one character, since its condition asks for
    another state. *)
Definition feed_post_property (x : CssParser) (h : H) (off : nat) (c : Z) (r : list Z) : outcome :=
  let x' :=
    if c =? chr "}" then if block x then x else set_state NONE x
    else if c =? chr ":" then set_state PRE_VALUE x
    else if (c =? 39) || (c =? 34) then set_quote c (set_state DISCARD_QUOTED x)
    else x in
  Next x' h (S off) r.

(** [StripLeft()] *)
Definition strip_left (rest : list Z) : nat * list Z :=
  let '(a, b) := span_while IsStripped rest in (length a, b).

Definition feed_pre_value (x : CssParser) (h : H) (off : nat) (rest : list Z) : outcome :=
  let '(n, r) := strip_left rest in
  let off := (off + n)%nat in
  match r with
  | [] => Next x h off []
  | c :: r' =>
      if c =? chr "}" then
        if block x then Next x h off r else Next (set_state NONE x) h (S off) r'
      else if c =? chr ";" then Next (set_state BLOCK x) h (S off) r'
      else Next (set_value [] (set_state VALUE x)) h off r
  end.

Fixpoint feed_value (x : CssParser) (h : H) (off : nat) (rest : list Z) : outcome :=
  match rest with
  | [] => Next x h off []
  | c :: r =>
      if c =? chr "}" then
        if block x then feed_value x h (S off) r else Next (set_state NONE x) h (S off) r
      else if c =? chr ";" then
        match name_buffer x with
        | [] => Next (set_state BLOCK x) h (S off) r
        | name =>
            match property_keyword handler with
            | None => Failed
            | Some f =>
                if (NAME_CAPACITY <=? length name)%nat then Failed
                else Next (set_state BLOCK (set_name (name ++ [0]) x))
                       (f name (value_buffer x) (name_start x) (pos x off + 1) h) (S off) r
            end
        end
      else if (c =? 39) || (c =? 34) then Next (set_quote c (set_state DISCARD_QUOTED x)) h (S off) r
      else if (VALUE_CAPACITY - 1 <=? length (value_buffer x))%nat then feed_value x h (S off) r
      else
        let x := set_value (value_buffer x ++ [c]) x in
        if defined (url handler) && at_url_start (value_buffer x) then
          Next (set_state PRE_URL x) h (S off) r
        else feed_value x h (S off) r
  end.

Definition feed_pre_url (x : CssParser) (h : H) (off : nat) (rest : list Z) : outcome :=
  let '(n, r) := strip_left rest in
  let off := (off + n)%nat in
  match r with
  | [] => Next x h off []
  | c :: r' =>
      if c =? chr "}" then
        if block x then Next x h off r else Next (set_state NONE x) h (S off) r'
      else if (c =? 39) || (c =? 34) then
        Next (set_url [] (set_url_start (pos x (S off)) (set_quote c (set_state URL x)))) h (S off) r'
      else Next (set_state BLOCK x) h off r
  end.

(** [URL] and [IMPORT], with the handler method [f], the character [q] that ends
    the URL and the state [st] that follows.  If the URL does not end, the code
    passes the size of the whole input with the pointer to its rest. *)
Definition feed_url (f : option (CssParserValue -> H -> bool * H)) (q : Z) (st : State)
    (x : CssParser) (h : H) (off : nat) (rest : list Z) : outcome :=
  let '(part, r) := span_while (fun c => negb (c =? q)) rest in
  match r with
  | [] =>
      let nbytes := (off + length rest)%nat in
      match AppendTruncated_from rest nbytes (url_buffer x) with
      | Some b => return_ (set_url b x) h nbytes
      | None => OverRead
      end
  | _ :: r =>
      let p := (off + length part)%nat in
      let x := set_state st (set_url (AppendTruncated part (url_buffer x)) x) in
      match f with
      | None => Failed
      | Some f =>
          match f (mkValue (url_start x) (pos x p) (url_buffer x)) h with
          | (true, h) => Destroyed h
          | (false, h) => Next x h (S p) r
          end
      end
  end.

Fixpoint feed_at (x : CssParser) (h : H) (off : nat) (rest : list Z) : outcome :=
  match rest with
  | [] => Next x h off []
  | c :: r =>
      if negb (is_css_nmchar c) then
        Next (set_state (if bool_decide (name_buffer x = str "import") then PRE_IMPORT else NONE) x) h off rest
      else feed_at (push_name c x) h (S off) r
  end.

Fixpoint feed_pre_import (x : CssParser) (h : H) (off : nat) (rest : list Z) : outcome :=
  match rest with
  | [] => Next x h off []
  | c :: r =>
      if negb (IsWhitespaceOrNull c) then
        if c =? 34 then
          Next (set_url [] (set_url_start (pos x (S off)) (set_state IMPORT x))) h (S off) r
        else Next (set_state NONE x) h off rest
      else feed_pre_import x h (S off) r
  end.

(** One iteration of the loop, for the input [c :: r]. *)
Definition feed_step (x : CssParser) (h : H) (off : nat) (c : Z) (r : list Z) : outcome :=
  let rest := c :: r in
  match state x with
  | NONE => feed_none x h off rest
  | CLASS_NAME => feed_name (class_name handler) x h off rest
  | XML_ID => feed_name (xml_id handler) x h off rest
  | BLOCK => feed_block x h off rest
  | DISCARD_QUOTED => feed_discard_quoted x h off rest
  | PROPERTY => feed_property x h off rest
  | POST_PROPERTY => feed_post_property x h off c r
  | PRE_VALUE => feed_pre_value x h off rest
  | VALUE => feed_value x h off rest
  | PRE_URL => feed_pre_url x h off rest
  | URL => feed_url (url handler) (quote x) BLOCK x h off rest
  | AT => feed_at x h off rest
  | PRE_IMPORT => feed_pre_import x h off rest
  | IMPORT => feed_url (import handler) 34 NONE x h off rest
  end.

Fixpoint feed_loop (fuel : nat) (x : CssParser) (h : H) (off : nat) (rest : list Z) : outcome :=
  match rest with
  | [] => return_ x h off
  | c :: r =>
      match fuel with
      | O => Next x h off rest
      | S fuel =>
          match feed_step x h off c r with
          | Next x h off rest => feed_loop fuel x h off rest
          | result => result
          end
      end
  end.

(** Three iterations are enough for a byte of the input, unless the loop does not end. *)
Definition css_fuel (n : nat) : nat := 3 * S n.

Definition Feed (x : CssParser) (h : H) (input : list Z) : outcome :=
  match input with
  | [] => Failed
  | _ => feed_loop (css_fuel (length input)) x h 0 input
  end.

End Parser.

End Css.
