(* ===== verification/CssFacts.v ===== *)
(** * The CSS parser: proofs

    In a style sheet (not in the attribute of an element), [Feed()] ends and
    stays inside of its buffers. *)

From S2P Require Import Prelude CharUtil CssParser.
Import Css.

Section Safety.
Context `{CU : CharUtil} {H : Type} (handler : CssParserHandler H).

(** What the state says about the handler and the name. *)
Definition state_ok (x : CssParser) : Prop :=
  match state x with
  | CLASS_NAME => defined (class_name handler) = true /\ (length (name_buffer x) < NAME_CAPACITY)%nat
  | XML_ID => defined (xml_id handler) = true /\ (length (name_buffer x) < NAME_CAPACITY)%nat
  | PROPERTY | POST_PROPERTY =>
      defined (property_keyword handler) = true /\ (length (name_buffer x) < NAME_CAPACITY)%nat
  | PRE_VALUE | VALUE =>
      (name_buffer x = [] \/ defined (property_keyword handler) = true) /\
      (length (name_buffer x) < NAME_CAPACITY)%nat
  | PRE_URL | URL => defined (url handler) = true
  | AT | PRE_IMPORT | IMPORT => defined (import handler) = true
  | _ => True
  end.

Record CWF (x : CssParser) : Prop := mkCWF {
  cwf_name : (length (name_buffer x) <= NAME_CAPACITY)%nat;
  cwf_value : (length (value_buffer x) < VALUE_CAPACITY)%nat;
  cwf_url : (length (url_buffer x) <= URL_CAPACITY)%nat;
  cwf_state : state_ok x }.

Definition rank (x : CssParser) : nat :=
  match state x with
  | AT => 2
  | CLASS_NAME | XML_ID | PROPERTY | PRE_VALUE | PRE_URL | PRE_IMPORT => 1
  | _ => 0
  end.

Lemma css_rank_le x : (rank x <= 2)%nat.
Proof. unfold rank. case_match; lia. Qed.

(** Are there methods for URLs? *)
Definition wants_urls : bool := defined (url handler) || defined (import handler).

Definition good (x0 : CssParser) (total bound : nat) (o : @outcome H) : Prop :=
  match o with
  | Next x h off rest =>
      CWF x /\ block x = block x0 /\ position x = position x0 /\ (off + length rest = total)%nat /\
      (3 * length rest + rank x < bound)%nat
  | Ret x h n => CWF x /\ block x = block x0 /\ n = total /\ position x = position x0 + Z.of_nat n
  | Destroyed h => wants_urls = true
  | OverRead => wants_urls = true
  | Failed => False
  end.

(** The loops: [bound] is at least the measure, and more if there is nothing left. *)
Definition bounded (x : CssParser) (rest : list Z) (bound : nat) : Prop :=
  (3 * length rest + rank x <= bound)%nat /\ (rest = [] -> rank x < bound)%nat.

Lemma css_bounded_step x x' c r bound : bounded x (c :: r) bound -> bounded x' r bound.
Proof.
  intros [Hb _]. unfold bounded in *. simpl length in Hb. pose proof (css_rank_le x'). split; [lia|].
  intros ->. simpl in *. lia.
Qed.

Lemma css_good_stay x0 x x' h off c r bound : bounded x (c :: r) bound -> CWF x' ->
  block x' = block x0 -> position x' = position x0 -> (rank x' < rank x)%nat ->
  good x0 (off + length (c :: r)) bound (Next x' h off (c :: r)).
Proof. intros [Hb _] Hx Hbl Hp Hr. split_and!; [done..|]. lia. Qed.

Lemma css_good_eat x0 x x' h off c r bound : bounded x (c :: r) bound -> CWF x' ->
  block x' = block x0 -> position x' = position x0 ->
  good x0 (off + length (c :: r)) bound (Next x' h (S off) r).
Proof.
  intros [Hb _] Hx Hbl Hp. pose proof (css_rank_le x'). simpl length in *. split_and!; [done..|lia|lia].
Qed.

Lemma css_good_end x h off bound : bounded x [] bound -> CWF x ->
  good x (off + length (@nil Z)) bound (Next x h off []).
Proof. intros [_ Hb] Hx. split_and!; [done..|by apply Hb]. Qed.

Lemma css_good_same x0 x1 total bound o : block x0 = block x1 -> position x0 = position x1 ->
  good x0 total bound o -> good x1 total bound o.
Proof. intros E1 E2. unfold good. destruct o; rewrite ?E1, ?E2; done. Qed.

(** A loop that goes on with the parser [y]. *)
Ltac again IH y Hb := match goal with
  | |- good _ (?off + length (?c :: ?r)) _ _ =>
      replace (off + length (c :: r))%nat with (S off + length r)%nat by (simpl; lia);
      apply (css_good_same y);
        [first [done|unfold push_name; by case_match]|first [done|unfold push_name; by case_match]|apply IH]; try (by eapply css_bounded_step, Hb)
  end.

Ltac cwf := match goal with Hx : CWF _ |- CWF _ =>
  destruct Hx as [? ? ? Hst]; split; unfold state_ok in *; simpl in *; unfold NAME_CAPACITY, VALUE_CAPACITY, URL_CAPACITY in *;
  simpl; try lia; auto end.

Ltac leaf Hb := first
  [ eapply css_good_eat; [exact Hb|cwf|done|done]
  | eapply css_good_stay; [exact Hb|cwf|done|done|unfold rank; simpl] ].

Lemma push_name_length c x : (length (name_buffer x) <= length (name_buffer (push_name c x)))%nat /\
  (length (name_buffer x) < NAME_CAPACITY -> length (name_buffer (push_name c x)) < NAME_CAPACITY)%nat.
Proof.
  unfold push_name, NAME_CAPACITY. destruct (Nat.ltb_spec (length (name_buffer x)) (64 - 1)); simpl; [|lia].
  rewrite length_app. simpl. lia.
Qed.

Lemma push_name_other c x : block (push_name c x) = block x /\ position (push_name c x) = position x /\
  state (push_name c x) = state x /\ value_buffer (push_name c x) = value_buffer x /\
  url_buffer (push_name c x) = url_buffer x.
Proof. unfold push_name. by destruct (_ <? _)%nat. Qed.

Lemma push_name_WF c x : state x = CLASS_NAME \/ state x = XML_ID \/ state x = PROPERTY ->
  CWF x -> CWF (push_name c x).
Proof.
  intros Hs [H1 H2 H3 H4]. destruct (push_name_other c x) as (_ & _ & E1 & E2 & E3).
  destruct (push_name_length c x) as [_ Hl].
  assert (Hlt : (length (name_buffer x) < NAME_CAPACITY)%nat).
  { unfold state_ok in H4. destruct Hs as [Hs|[Hs|Hs]]; rewrite Hs in H4; apply H4. }
  split; rewrite ?E2, ?E3; [specialize (Hl Hlt); lia|done|done|].
  unfold state_ok in *. rewrite E1. destruct Hs as [Hs|[Hs|Hs]]; rewrite Hs in *; split; try apply H4; by apply Hl.
Qed.

Lemma push_name_WF_at c x : state x = AT -> CWF x -> CWF (push_name c x).
Proof.
  intros Hs [H1 H2 H3 H4]. destruct (push_name_other c x) as (_ & _ & E1 & E2 & E3).
  split; rewrite ?E2, ?E3; [|done|done|].
  - unfold push_name. destruct (Nat.ltb_spec (length (name_buffer x)) (NAME_CAPACITY - 1)); simpl; [|done].
    rewrite length_app. simpl. unfold NAME_CAPACITY in *. lia.
  - unfold state_ok in *. by rewrite E1, Hs in *.
Qed.

Lemma css_good_none rest : forall x h off bound, CWF x -> state x = NONE -> bounded x rest bound ->
  good x (off + length rest) bound (feed_none handler x h off rest).
Proof.
  induction rest as [|c r IH]; intros x h off bound Hx Hs Hb; [by apply css_good_end|]. simpl feed_none.
  destruct (c =? chr "{"); [leaf Hb|].
  destruct ((c =? chr ".") && _) eqn:E1; [apply andb_true_iff in E1 as [_ E1]; leaf Hb; split; [done|lia]|].
  destruct ((c =? chr "#") && _) eqn:E2; [apply andb_true_iff in E2 as [_ E2]; leaf Hb; split; [done|lia]|].
  destruct ((c =? chr "@") && _) eqn:E3; [apply andb_true_iff in E3 as [_ E3]; leaf Hb|].
  again IH x Hb; done.
Qed.

Lemma good_name f rest : forall x h off bound, CWF x ->
  (state x = CLASS_NAME /\ f = class_name handler) \/ (state x = XML_ID /\ f = xml_id handler) ->
  bounded x rest bound -> good x (off + length rest) bound (feed_name f x h off rest).
Proof.
  induction rest as [|c r IH]; intros x h off bound Hx Hs Hb; [by apply css_good_end|]. simpl feed_name.
  assert (Hf : defined f = true).
  { destruct Hx as [_ _ _ Hst]. unfold state_ok in Hst. destruct Hs as [[Hs ->]|[Hs ->]]; rewrite Hs in Hst; apply Hst. }
  destruct (negb (is_css_nmchar c)).
  - destruct f as [f|]; [|done]. destruct (name_buffer x); (leaf Hb; destruct Hs as [[-> _]|[-> _]]; lia).
  - again IH (push_name c x) Hb.
    + apply push_name_WF; [naive_solver|done].
    + destruct (push_name_other c x) as (_ & _ & -> & _). done.
Qed.

Lemma good_block rest : forall x h off bound, CWF x -> state x = BLOCK -> bounded x rest bound ->
  good x (off + length rest) bound (feed_block handler x h off rest).
Proof.
  induction rest as [|c r IH]; intros x h off bound Hx Hs Hb; [by apply css_good_end|]. simpl feed_block.
  destruct (c =? chr "}"); [destruct (block x); [again IH x Hb; done|leaf Hb]|].
  destruct (c =? chr ":"); [leaf Hb; split; [by left|lia]|].
  destruct ((c =? 39) || (c =? 34)); [leaf Hb|].
  destruct (_ && _) eqn:E; [apply andb_true_iff in E as [_ E]; leaf Hb; split; [done|lia]|].
  again IH x Hb; done.
Qed.

Lemma css_good_return x x0 h n total bound : CWF x -> block x = block x0 -> position x = position x0 -> n = total ->
  good x0 total bound (return_ x h n).
Proof. intros [H1 H2 H3 H4] Hb Hp ->. split_and!; [by split|done|done|simpl; by rewrite Hp]. Qed.

Lemma good_discard_quoted x h off c r bound : CWF x -> state x = DISCARD_QUOTED -> bounded x (c :: r) bound ->
  good x (off + length (c :: r)) bound (feed_discard_quoted x h off (c :: r)).
Proof.
  intros Hx Hs [Hb _]. unfold feed_discard_quoted. destruct (span_while _ _) as [a b] eqn:E.
  apply span_while_length in E as [_ E]. destruct b as [|d b]; [by apply css_good_return|].
  simpl in E, Hb. split_and!; [cwf|done|done|simpl; lia|unfold rank; simpl; lia].
Qed.

Lemma good_property rest : forall x h off bound, CWF x -> state x = PROPERTY -> bounded x rest bound ->
  good x (off + length rest) bound (feed_property x h off rest).
Proof.
  induction rest as [|c r IH]; intros x h off bound Hx Hs Hb; [by apply css_good_end|]. simpl feed_property.
  destruct (negb (is_css_ident_char c)); [leaf Hb; [by rewrite Hs in Hst|rewrite Hs; lia]|].
  again IH (push_name c x) Hb.
  - apply push_name_WF; [auto|done].
  - by destruct (push_name_other c x) as (_ & _ & -> & _).
Qed.

Lemma good_post_property x h off c r bound : CWF x -> state x = POST_PROPERTY -> bounded x (c :: r) bound ->
  good x (off + length (c :: r)) bound (feed_post_property x h off c r).
Proof.
  intros Hx Hs Hb. unfold feed_post_property.
  repeat (case_match; try (eapply css_good_eat; [exact Hb|cwf; rewrite Hs in Hst; tauto|done|done]);
          try (eapply css_good_eat; [exact Hb|done|done|done])).
Qed.

Lemma strip_left_length rest n r : strip_left rest = (n, r) -> (n + length r = length rest)%nat.
Proof.
  unfold strip_left. destruct (span_while _ _) as [a b] eqn:E. intros [= <- <-].
  by apply span_while_length in E as [_ E].
Qed.

Lemma good_pre_value x h off c r bound : CWF x -> state x = PRE_VALUE -> block x = false ->
  bounded x (c :: r) bound -> good x (off + length (c :: r)) bound (feed_pre_value x h off (c :: r)).
Proof.
  intros Hx Hs Hbl [Hb _]. unfold feed_pre_value. destruct (strip_left _) as [n r1] eqn:E.
  apply strip_left_length in E. rewrite Hbl. unfold rank in Hb. rewrite Hs in Hb. simpl length in *.
  destruct r1 as [|d r1]; [split_and!; [done..|simpl in *; lia|unfold rank; rewrite Hs; simpl; lia]|]. simpl in E.
  destruct (d =? chr "}"); [|destruct (d =? chr ";")].
  - split_and!; [cwf|done|done|simpl; lia|unfold rank; simpl; lia].
  - split_and!; [cwf|done|done|simpl; lia|unfold rank; simpl; lia].
  - split_and!; [cwf|done|done|simpl; lia|unfold rank; simpl; lia]. by rewrite Hs in Hst.
Qed.

Lemma good_value rest : forall x h off bound, CWF x -> state x = VALUE -> block x = false -> bounded x rest bound ->
  good x (off + length rest) bound (feed_value handler x h off rest).
Proof.
  induction rest as [|c r IH]; intros x h off bound Hx Hs Hbl Hb; [by apply css_good_end|]. cbn [feed_value].
  rewrite Hbl. destruct (c =? chr "}"); [leaf Hb|].
  destruct (c =? chr ";").
  { pose proof (cwf_state x Hx) as Hpk. unfold state_ok in Hpk. rewrite Hs in Hpk. destruct Hpk as [Hpk Hl].
    destruct (name_buffer x) as [|n0 name] eqn:En; [leaf Hb|].
    destruct (property_keyword handler) as [f|]; [|by destruct Hpk].
    rewrite (proj2 (Nat.leb_gt _ _) Hl). eapply css_good_eat; [exact Hb| |done|done].
    destruct Hx as [H1 H2 H3 _]. split; [|done|done|done]. cbn [name_buffer set_state set_name]. rewrite length_app. simpl. simpl in Hl. lia. }
  destruct ((c =? 39) || (c =? 34)); [leaf Hb|].
  destruct (Nat.leb_spec (VALUE_CAPACITY - 1) (length (value_buffer x))) as [Hge|Hlt]; [again IH x Hb; done|].
  assert (Hx' : CWF (set_value (value_buffer x ++ [c]) x)).
  { destruct Hx as [H1 H2 H3 H4]. split; simpl; [done|rewrite length_app; simpl; lia|done|].
    unfold state_ok in *. simpl in *. by rewrite Hs in *. }
  destruct (_ && at_url_start _) eqn:E.
  - apply andb_true_iff in E as [E _]. eapply css_good_eat; [exact Hb| |done|done].
    destruct Hx' as [H1 H2 H3 _]. by split.
  - again IH (set_value (value_buffer x ++ [c]) x) Hb; done.
Qed.

Lemma good_pre_url x h off c r bound : CWF x -> state x = PRE_URL -> block x = false ->
  bounded x (c :: r) bound -> good x (off + length (c :: r)) bound (feed_pre_url x h off (c :: r)).
Proof.
  intros Hx Hs Hbl [Hb _]. unfold feed_pre_url. destruct (strip_left _) as [n r1] eqn:E.
  apply strip_left_length in E. rewrite Hbl. unfold rank in Hb. rewrite Hs in Hb. simpl length in *.
  destruct r1 as [|d r1]; [split_and!; [done..|simpl in *; lia|unfold rank; rewrite Hs; simpl; lia]|]. simpl in E.
  destruct (d =? chr "}"); [|destruct ((d =? 39) || (d =? 34))].
  - split_and!; [cwf|done|done|simpl; lia|unfold rank; simpl; lia].
  - split_and!; [cwf|done|done|simpl; lia|unfold rank; simpl; lia]. by rewrite Hs in Hst.
  - split_and!; [cwf|done|done|simpl; lia|unfold rank; simpl; lia].
Qed.

Lemma good_url f q st x h off c r bound : CWF x ->
  (state x = URL /\ st = BLOCK /\ f = url handler) \/ (state x = IMPORT /\ st = NONE /\ f = import handler) ->
  bounded x (c :: r) bound -> good x (off + length (c :: r)) bound (feed_url f q st x h off (c :: r)).
Proof.
  intros Hx Hs [Hb _]. unfold feed_url. destruct (span_while _ _) as [a b] eqn:E.
  apply span_while_length in E as [_ E].
  assert (Hf : defined f = true /\ wants_urls = true).
  { destruct Hx as [_ _ _ Hst]. unfold state_ok, wants_urls in *. destruct Hs as [(Hs & _ & ->)|(Hs & _ & ->)];
      rewrite Hs in Hst; rewrite Hst; by rewrite ?orb_true_r. }
  destruct Hf as [Hf Hw]. destruct Hx as [H1 H2 H3 H4].
  assert (Hst : forall y, state_ok (set_state st y)) by (intros y; by destruct Hs as [(_ & -> & _)|(_ & -> & _)]).
  destruct b as [|d b].
  - unfold AppendTruncated_from. destruct (_ <=? _)%nat eqn:El; [|done]. apply css_good_return; [|done..].
    split; simpl; [done|done| |done]. rewrite length_app, length_take. lia.
  - destruct f as [f|]; [|done]. destruct (f _ h) as [[|] h']; [done|]. simpl in E, Hb.
    split_and!; [|done|done|simpl; lia|].
    + split; simpl; [done|done| |by apply Hst]. unfold AppendTruncated. rewrite length_app, length_take. lia.
    + destruct Hs as [(_ & -> & _)|(_ & -> & _)]; unfold rank; simpl; lia.
Qed.

Lemma good_at rest : forall x h off bound, CWF x -> state x = AT -> bounded x rest bound ->
  good x (off + length rest) bound (feed_at x h off rest).
Proof.
  induction rest as [|c r IH]; intros x h off bound Hx Hs Hb; [by apply css_good_end|]. simpl feed_at.
  destruct (negb (is_css_nmchar c)).
  - eapply css_good_stay; [exact Hb| |done|done|].
    + destruct Hx as [H1 H2 H3 H4]. split; simpl; [done..|]. unfold state_ok in *. rewrite Hs in H4.
      simpl. by case_bool_decide.
    + unfold rank. rewrite Hs. simpl. case_bool_decide; lia.
  - again IH (push_name c x) Hb; [by apply push_name_WF_at|].
    by destruct (push_name_other c x) as (_ & _ & -> & _).
Qed.

Lemma good_pre_import rest : forall x h off bound, CWF x -> state x = PRE_IMPORT -> bounded x rest bound ->
  good x (off + length rest) bound (feed_pre_import x h off rest).
Proof.
  induction rest as [|c r IH]; intros x h off bound Hx Hs Hb; [by apply css_good_end|]. simpl feed_pre_import.
  destruct (negb (IsWhitespaceOrNull c)); [|again IH x Hb; done].
  destruct (c =? 34); [leaf Hb; by rewrite Hs in Hst|]. leaf Hb. rewrite Hs. lia.
Qed.

Lemma css_good_step x h off c r : CWF x -> block x = false ->
  good x (off + length (c :: r)) (3 * length (c :: r) + rank x) (feed_step handler x h off c r).
Proof.
  intros Hx Hbl. assert (Hb : bounded x (c :: r) (3 * length (c :: r) + rank x)) by (split; [lia|done]).
  unfold feed_step. destruct (state x) eqn:Hs.
  - by apply css_good_none.
  - by apply good_block.
  - apply good_name; auto.
  - apply good_name; auto.
  - by apply good_discard_quoted.
  - by apply good_property.
  - by apply good_post_property.
  - by apply good_pre_value.
  - by apply good_value.
  - by apply good_pre_url.
  - apply good_url; auto.
  - by apply good_at.
  - by apply good_pre_import.
  - apply good_url; auto.
Qed.

(** How [Feed()] of [total] bytes may end. *)
Definition feed_result (x0 : CssParser) (total : nat) (o : @outcome H) : Prop :=
  match o with
  | Ret x h n => CWF x /\ block x = block x0 /\ n = total /\ position x = position x0 + Z.of_nat n
  | Destroyed _ | OverRead => wants_urls = true
  | _ => False
  end.

Lemma css_feed_loop_ok fuel : forall x0 x h off rest,
  CWF x -> block x = false -> block x = block x0 -> position x = position x0 ->
  (3 * length rest + rank x < fuel)%nat ->
  feed_result x0 (off + length rest) (feed_loop handler fuel x h off rest).
Proof.
  induction fuel as [|fuel IH]; intros x0 x h off rest Hx Hbl Hb Hp Hf; [lia|]. destruct rest as [|c r].
  { simpl. destruct Hx. split_and!; [by split|done|lia|simpl; lia]. }
  cbn [feed_loop]. pose proof (css_good_step x h off c r Hx Hbl) as Hg.
  destruct (feed_step handler x h off c r) as [x' h' off' rest'|x' h' n|h'| |]; try done.
  - destruct Hg as (Hx' & Hb' & Hp' & Ht & Hm). rewrite <- Ht. apply IH; [done|congruence|congruence|congruence|lia].
  - destruct Hg as (Hx' & Hb' & Hn & Hp'). split_and!; [done|congruence|done|congruence].
Qed.

(** In a style sheet, [Feed()] ends for every input, no assertion fails and
    no buffer overflows, only methods are called that the handler has, all of the input
    is consumed and the position advances by it.  Only for a handler with
    methods for URLs there are other results: the handler has
    destroyed the parser, or memory after the input is read. *)
Theorem css_feed_safe x h input :
  CWF x -> block x = false -> input <> [] -> feed_result x (length input) (Feed handler x h input).
Proof.
  intros Hx Hbl Hne. unfold Feed. destruct input as [|c r]; [done|].
  apply (css_feed_loop_ok _ x x h 0 (c :: r)); [done|done|done|done|]. unfold css_fuel. pose proof (css_rank_le x). lia.
Qed.

End Safety.

(** ** Examples *)

Module CssExamples.

#[local] Existing Instance AsciiChars.

(** A handler that collects the names and URLs. *)
Definition collect (v : CssParserValue) (h : list (list Z)) : list (list Z) := value v :: h.

Definition names : CssParserHandler (list (list Z)) :=
  Css.mkHandler _ (Some collect) (Some collect) None (Some (fun n v _ _ h => v :: n :: h)) None None.

Definition urls : CssParserHandler (list (list Z)) :=
  Css.mkHandler _ None None None None (Some (fun v h => (false, collect v h))) None.

Definition sheet : list Z := str ".a_b #c { color: red; }".

Lemma css_feed_safe_witness :
  CWF names (CssParser_new false) /\
  feed_result names (CssParser_new false) 23 (Feed names (CssParser_new false) [] sheet).
Proof.
  assert (Hwf : CWF names (CssParser_new false)).
  { split; simpl; unfold NAME_CAPACITY, VALUE_CAPACITY, URL_CAPACITY; try lia. done. }
  split; [exact Hwf|]. apply (css_feed_safe names (CssParser_new false) [] sheet); [exact Hwf|reflexivity|discriminate].
Defined.

Example sheet_names :
  match Feed names (CssParser_new false) [] sheet with
  | Ret x h n => Some (state x, n, rev h)
  | _ => None
  end = Some (NONE, 23%nat, [str "a_b"; str "c"; str "color"; str "red"]).
Proof. vm_compute. reflexivity. Qed.

(** In the attribute of an element, [Feed()] does not end if a closing brace
    follows a colon: the brace is not consumed and the state is not changed, however
    many iterations there are. *)
Lemma css_block_hangs h : forall fuel, (1 < fuel)%nat ->
  feed_loop names fuel (CssParser_new true) h 0 (str ":}") =
  Next (set_state PRE_VALUE (CssParser_new true)) h 1 (str "}").
Proof.
  assert (Hl : forall fuel, feed_loop names fuel (set_state PRE_VALUE (CssParser_new true)) h 1 (str "}") =
    Next (set_state PRE_VALUE (CssParser_new true)) h 1 (str "}")).
  { induction fuel as [|fuel IH]; [done|]. exact IH. }
  intros [|fuel] Hf; [lia|]. exact (Hl fuel).
Qed.

(** If the input ends inside of a URL, as many bytes after its end are
    copied as are before the URL. *)
Lemma css_url_over_read : Feed urls (CssParser_new true) [] (str "a:url('b") = OverRead.
Proof. vm_compute. reflexivity. Qed.

End CssExamples.
