(* ===== verification/ConcurrencyQueue.v ===== *)
(** * Limited concurrency

    Models src/util/LimitedConcurrencyQueue.hxx and LimitedConcurrencyQueue.cxx:
    jobs are started at once as long as few enough are running, and wait otherwise;
    when a running job goes away, a deferred event starts the next one.

    A job is a number.  Both places that call the callback of a job do it as the
    last thing, so that whatever the callback does to the queue is a
    sequence of operations that follow; the calls are collected in [started]. *)

From S2P Require Import Prelude.

Module LCQ.

Inductive JobState := NONE | WAITING | RUNNING.
#[global] Instance JobState_eq : EqDecision JobState. Proof. solve_decision. Defined.

Record Queue := mkQueue {
  waiting : list nat;
  running : list nat;
  defer_start : bool;
  concurrency_limit : nat;
  job_state : gmap nat JobState;
  started : list nat }.

Definition Queue_new (limit : nat) : Queue := mkQueue [] [] false limit ∅ [].

Definition state_of (j : nat) (q : Queue) : JobState := default NONE (job_state q !! j).

Definition set_job (j : nat) (s : JobState) (q : Queue) : Queue :=
  mkQueue (waiting q) (running q) (defer_start q) (concurrency_limit q) (<[j := s]> (job_state q)) (started q).

(** [push_back()] of a list, and the call of the callback *)
Definition push_waiting (j : nat) (q : Queue) : Queue :=
  mkQueue (waiting q ++ [j]) (running q) (defer_start q) (concurrency_limit q) (job_state q) (started q).
Definition push_running (j : nat) (q : Queue) : Queue :=
  mkQueue (waiting q) (running q ++ [j]) (defer_start q) (concurrency_limit q) (job_state q) (started q).
Definition callback (j : nat) (q : Queue) : Queue :=
  mkQueue (waiting q) (running q) (defer_start q) (concurrency_limit q) (job_state q) (started q ++ [j]).
Definition set_defer (b : bool) (q : Queue) : Queue :=
  mkQueue (waiting q) (running q) b (concurrency_limit q) (job_state q) (started q).

(** [erase(iterator_to(job))]; the job has to be in the list. *)
Definition erase_waiting (j : nat) (q : Queue) : option Queue :=
  if decide (j ∈ waiting q) then
    Some (mkQueue (List.filter (fun i => negb (i =? j)%nat) (waiting q)) (running q) (defer_start q)
            (concurrency_limit q) (job_state q) (started q))
  else None.
Definition erase_running (j : nat) (q : Queue) : option Queue :=
  if decide (j ∈ running q) then
    Some (mkQueue (waiting q) (List.filter (fun i => negb (i =? j)%nat) (running q)) (defer_start q)
            (concurrency_limit q) (job_state q) (started q))
  else None.

Definition Add (j : nat) (q : Queue) : Queue :=
  if bool_decide (waiting q = []) && (length (running q) <? concurrency_limit q)%nat
  then callback j (push_running j (set_job j RUNNING q))
  else push_waiting j (set_job j WAITING q).

Definition Remove (j : nat) (q : Queue) : option Queue :=
  match state_of j q with
  | NONE => Some q
  | WAITING => q ← erase_waiting j q; Some (set_job j NONE q)
  | RUNNING =>
      let q := if (length (running q) =? concurrency_limit q)%nat then set_defer true q else q in
      q ← erase_running j q; Some (set_job j NONE q)
  end.

Definition OnDeferredStart (q : Queue) : option Queue :=
  if bool_decide (waiting q = []) || (concurrency_limit q <=? length (running q))%nat then Some q
  else
    match waiting q with
    | [] => None
    | j :: w =>
        if negb (bool_decide (state_of j q = WAITING)) then None
        else
          let q := set_job j RUNNING q in
          let q := push_running j (mkQueue w (running q) (defer_start q) (concurrency_limit q) (job_state q) (started q)) in
          let q := if negb (bool_decide (waiting q = [])) && (length (running q) <? concurrency_limit q)%nat
                   then set_defer true q else q in
          Some (callback j q)
    end.

Definition Schedule (j : nat) (q : Queue) : option Queue :=
  if bool_decide (state_of j q = NONE) then Some (Add j q) else None.

Definition Cancel (j : nat) (q : Queue) : option Queue :=
  q ← Remove j q; if bool_decide (state_of j q = NONE) then Some q else None.

(** The event loop runs the deferred event, if it is scheduled; it is not any more
    when the callback is called. *)
Definition run_deferred (q : Queue) : option Queue :=
  if defer_start q then OnDeferredStart (set_defer false q) else Some q.

(** The assertions of the destructor. *)
Definition Queue_delete (q : Queue) : bool := bool_decide (waiting q = []) && bool_decide (running q = []).

(** ** Facts *)

Record QWF (q : Queue) : Prop := mkQWF {
  q_waiting : forall j, j ∈ waiting q <-> state_of j q = WAITING;
  q_running : forall j, j ∈ running q <-> state_of j q = RUNNING;
  q_nodup_w : NoDup (waiting q);
  q_nodup_r : NoDup (running q);
  q_limit : (length (running q) <= concurrency_limit q)%nat;
  (** nobody waits although there is room, unless the event will start the next one *)
  q_work : waiting q <> [] -> (length (running q) < concurrency_limit q)%nat -> defer_start q = true }.

Lemma state_of_set i j s q : state_of i (set_job j s q) = if decide (i = j) then s else state_of i q.
Proof.
  unfold state_of, set_job. simpl. destruct (decide (i = j)) as [->|Hne].
  - by rewrite lookup_insert_eq.
  - by rewrite lookup_insert_ne by congruence.
Qed.

Lemma QWF_new limit : QWF (Queue_new limit).
Proof.
  split; simpl; try done; try constructor; try lia; try (by intros ?%elem_of_nil);
    intros E; unfold state_of in E; simpl in E; by rewrite lookup_empty in E.
Qed.

Definition without (j : nat) (l : list nat) : list nat := List.filter (fun i => negb (i =? j)%nat) l.

Lemma elem_of_without_job i j l : i ∈ without j l <-> i ∈ l /\ i <> j.
Proof. unfold without. rewrite elem_of_bfilter, negb_true_iff, Nat.eqb_neq. done. Qed.

Lemma NoDup_without j l : NoDup l -> NoDup (without j l).
Proof. intros H. eapply sublist_NoDup; [exact H|apply bfilter_sub]. Qed.

Lemma without_notin j l : j ∉ l -> without j l = l.
Proof.
  induction l as [|i l IH]; intros Hj; simpl; [done|]. apply not_elem_of_cons in Hj as [Hne Hj].
  rewrite (proj2 (Nat.eqb_neq i j)) by done. simpl. f_equal. by apply IH.
Qed.

Lemma without_length j l : NoDup l -> j ∈ l -> S (length (without j l)) = length l.
Proof.
  induction 1 as [|i l Hi Hl IH]; intros Hj; [by apply elem_of_nil in Hj|]. simpl.
  destruct (Nat.eqb_spec i j) as [->|Hne]; simpl; [by rewrite without_notin|].
  f_equal. apply IH. by apply elem_of_cons in Hj as [->|].
Qed.

(** [Schedule()] of a job that is not scheduled. *)
Lemma Schedule_ok j q : QWF q -> state_of j q = NONE ->
  exists q', Schedule j q = Some q' /\ QWF q' /\ concurrency_limit q' = concurrency_limit q /\
    waiting q `prefix_of` waiting q'.
Proof.
  intros Hq Hj. pose proof Hq as [Hw Hr Nw Nr Hl Hwork]. unfold Schedule. rewrite bool_decide_eq_true_2 by done.
  eexists. split; [done|]. unfold Add.
  assert (Hjw : j ∉ waiting q) by (rewrite Hw; congruence). assert (Hjr : j ∉ running q) by (rewrite Hr; congruence).
  destruct (_ && _) eqn:E.
  - apply andb_true_iff in E as [E1 E2]. apply bool_decide_eq_true in E1. apply Nat.ltb_lt in E2.
    split_and!; [split; simpl|done|simpl; by exists []; rewrite app_nil_r].
    + intros i. change (state_of i _) with (state_of i (set_job j RUNNING q)). rewrite state_of_set, Hw.
      destruct (decide (i = j)) as [->|Hne]; naive_solver.
    + intros i. change (state_of i _) with (state_of i (set_job j RUNNING q)). rewrite state_of_set, elem_of_app, Hr, list_elem_of_singleton.
      destruct (decide (i = j)) as [->|Hne]; naive_solver.
    + done.
    + apply NoDup_app. split_and!; [done| |apply NoDup_singleton]. intros i Hi ->%list_elem_of_singleton. done.
    + rewrite length_app. simpl. lia.
    + intros Hne. by rewrite E1 in Hne.
  - split_and!; [split; simpl|done|simpl; by eexists].
    + intros i. change (state_of i _) with (state_of i (set_job j WAITING q)). rewrite state_of_set, elem_of_app, Hw, list_elem_of_singleton.
      destruct (decide (i = j)) as [->|Hne]; naive_solver.
    + intros i. change (state_of i _) with (state_of i (set_job j WAITING q)). rewrite state_of_set, Hr.
      destruct (decide (i = j)) as [->|Hne]; naive_solver.
    + apply NoDup_app. split_and!; [done| |apply NoDup_singleton]. intros i Hi ->%list_elem_of_singleton. done.
    + done.
    + done.
    + intros _ Hlt. apply Hwork; [|done]. intros E1. rewrite bool_decide_eq_true_2, (proj2 (Nat.ltb_lt _ _) Hlt) in E by done. done.
Qed.

(** [Cancel()] in any state. *)
Lemma Cancel_ok j q : QWF q ->
  exists q', Cancel j q = Some q' /\ QWF q' /\ concurrency_limit q' = concurrency_limit q /\
    waiting q' = without j (waiting q) /\ running q' = without j (running q) /\ started q' = started q /\
    state_of j q' = NONE.
Proof.
  intros Hq. pose proof Hq as [Hw Hr Nw Nr Hl Hwork]. unfold Cancel, Remove. destruct (state_of j q) eqn:Ej.
  - exists q. simpl. rewrite bool_decide_eq_true_2 by done.
    rewrite !without_notin by (rewrite ?Hw, ?Hr; congruence). by split_and!.
  - assert (Hj : j ∈ waiting q) by (by apply Hw). unfold erase_waiting. rewrite decide_True by done. simpl.
    rewrite bool_decide_eq_true_2 by (rewrite state_of_set; by case_decide).
    eexists. split; [done|]. simpl. fold (without j (waiting q)).
    split_and!; [split; simpl|done|done|by rewrite without_notin by (rewrite Hr; congruence)|done|
                 rewrite state_of_set; by case_decide].
    + intros i. rewrite state_of_set, elem_of_without_job. specialize (Hw i). unfold state_of in *; simpl in *. destruct (decide (i = j)) as [->|Hne]; intuition congruence.
    + intros i. rewrite state_of_set. specialize (Hr i). unfold state_of in *; simpl in *. destruct (decide (i = j)) as [->|Hne]; intuition congruence.
    + by apply NoDup_without.
    + done.
    + done.
    + intros Hne. apply Hwork. intros E. by rewrite E in Hj; apply elem_of_nil in Hj.
  - assert (Hj : j ∈ running q) by (by apply Hr). pose proof (without_length j (running q) Nr Hj) as Hlen.
    set (q1 := if (length (running q) =? concurrency_limit q)%nat then set_defer true q else q).
    assert (Hq1 : waiting q1 = waiting q /\ running q1 = running q /\ concurrency_limit q1 = concurrency_limit q /\
      job_state q1 = job_state q /\ started q1 = started q /\
      (defer_start q = true \/ length (running q) = concurrency_limit q -> defer_start q1 = true)).
    { unfold q1. destruct (Nat.eqb_spec (length (running q)) (concurrency_limit q)); simpl; split_and!; try done. naive_solver. }
    destruct Hq1 as (E1 & E2 & E3 & E4 & E5 & E6). unfold erase_running. rewrite E2, decide_True by done. simpl.
    rewrite bool_decide_eq_true_2 by (rewrite state_of_set; by case_decide).
    eexists. split; [done|]. simpl. fold (without j (running q)).
    assert (Hst : forall i m w r d l s, state_of i (mkQueue w r d l m s) = default NONE (m !! i)) by done.
    split_and!; [split; simpl|exact E3|rewrite without_notin by (rewrite Hw; congruence); exact E1|done|exact E5|
                 rewrite state_of_set; by case_decide].
    + intros i. rewrite state_of_set, E1, Hw, Hst, E4. unfold state_of in *.
      destruct (decide (i = j)) as [->|Hne]; intuition congruence.
    + intros i. rewrite state_of_set, elem_of_without_job, Hr, Hst, E4. unfold state_of in *.
      destruct (decide (i = j)) as [->|Hne]; intuition congruence.
    + by rewrite E1.
    + by apply NoDup_without.
    + rewrite E3. lia.
    + rewrite E1. intros Hne _. apply E6. destruct (decide (length (running q) = concurrency_limit q)); [by right|].
      left. apply Hwork; [done|lia].
Qed.

(** The deferred event starts the job that waits longest, if there is room. *)
Lemma run_deferred_ok q : QWF q ->
  exists q', run_deferred q = Some q' /\ QWF q' /\ concurrency_limit q' = concurrency_limit q /\
    match waiting q with
    | j :: w =>
        if defer_start q && (length (running q) <? concurrency_limit q)%nat
        then waiting q' = w /\ running q' = running q ++ [j] /\ started q' = started q ++ [j]
        else waiting q' = waiting q /\ running q' = running q /\ started q' = started q
    | [] => waiting q' = [] /\ running q' = running q /\ started q' = started q
    end.
Proof.
  intros Hq. pose proof Hq as [Hw Hr Nw Nr Hl Hwork]. unfold run_deferred. destruct (defer_start q) eqn:Ed.
  2: { exists q. split_and!; try done. by destruct (waiting q). }
  unfold OnDeferredStart. simpl.
  destruct (waiting q) as [|j w] eqn:Ew; simpl.
  { eexists. split; [done|]. split_and!; try done. split; simpl; rewrite ?Ew; try done. }
  destruct (Nat.leb_spec (concurrency_limit q) (length (running q))) as [Hfull|Hroom]; simpl.
  { rewrite (proj2 (Nat.ltb_ge _ _) Hfull). eexists. split; [done|]. split_and!; try done.
    split; simpl; rewrite ?Ew; try done. lia. }
  assert (Hj : state_of j q = WAITING) by (apply Hw; left).
  change (state_of j (set_defer false q)) with (state_of j q). rewrite bool_decide_eq_true_2 by done. simpl.
  rewrite (proj2 (Nat.ltb_lt _ _) Hroom). apply NoDup_cons in Nw as [Njw Nw].
  assert (Hjr : j ∉ running q) by (rewrite Hr; congruence).
  set (q1 := if _ && _ then _ else _).
  assert (E : waiting q1 = w /\ running q1 = running q ++ [j] /\ concurrency_limit q1 = concurrency_limit q /\
    started q1 = started q /\ (forall i, state_of i q1 = if decide (i = j) then RUNNING else state_of i q) /\
    (w <> [] -> (length (running q ++ [j]) < concurrency_limit q)%nat -> defer_start q1 = true)).
  { assert (Hst : forall i, default NONE (<[j := RUNNING]> (job_state q) !! i) = if decide (i = j) then RUNNING else state_of i q).
    { intros i. exact (state_of_set i j RUNNING q). }
    unfold q1. destruct (_ && _) eqn:E; simpl; split_and!; try done.
    intros Hne Hlt. rewrite bool_decide_eq_false_2, (proj2 (Nat.ltb_lt _ _) Hlt) in E by done. done. }
  destruct E as (E1 & E2 & E3 & E4 & E5 & E6). eexists. split; [done|].
  change (waiting (callback j q1)) with (waiting q1). change (running (callback j q1)) with (running q1).
  change (started (callback j q1)) with (started q1 ++ [j]). rewrite E1, E2, E4.
  split_and!; [|exact E3|done..].
  split; change (waiting (callback j q1)) with (waiting q1); change (running (callback j q1)) with (running q1);
    change (concurrency_limit (callback j q1)) with (concurrency_limit q1); rewrite ?E1, ?E2, ?E3.
  - intros i. change (state_of i (callback j q1)) with (state_of i q1). rewrite E5. specialize (Hw i).
    rewrite elem_of_cons in Hw. destruct (decide (i = j)) as [->|Hne]; intuition congruence.
  - intros i. change (state_of i (callback j q1)) with (state_of i q1). rewrite E5, elem_of_app, list_elem_of_singleton, Hr.
    destruct (decide (i = j)) as [->|Hne]; intuition congruence.
  - done.
  - apply NoDup_app. split_and!; [done| |apply NoDup_singleton]. intros i Hi ->%list_elem_of_singleton. done.
  - rewrite length_app. simpl. lia.
  - exact E6.
Qed.

(** ** Executions *)

Inductive op := OpSchedule (j : nat) | OpCancel (j : nat) | OpDeferred.

(** A job is scheduled only while it is neither waiting nor running. *)
Definition allowed (o : op) (q : Queue) : Prop :=
  match o with OpSchedule j => state_of j q = NONE | _ => True end.

Definition step (o : op) (q : Queue) : option Queue :=
  match o with OpSchedule j => Schedule j q | OpCancel j => Cancel j q | OpDeferred => run_deferred q end.

Inductive reachable (limit : nat) : Queue -> Prop :=
  | reach_new : reachable limit (Queue_new limit)
  | reach_step q o q' : reachable limit q -> allowed o q -> step o q = Some q' -> reachable limit q'.

Lemma step_ok o q : QWF q -> allowed o q ->
  exists q', step o q = Some q' /\ QWF q' /\ concurrency_limit q' = concurrency_limit q.
Proof.
  intros Hq Ho. destruct o as [j|j|]; simpl in *.
  - destruct (Schedule_ok j q Hq Ho) as (q' & ? & ? & ? & _). by exists q'.
  - destruct (Cancel_ok j q Hq) as (q' & ? & ? & ? & _). by exists q'.
  - destruct (run_deferred_ok q Hq) as (q' & ? & ? & ? & _). by exists q'.
Qed.

Lemma reachable_WF limit q : reachable limit q -> QWF q /\ concurrency_limit q = limit.
Proof.
  induction 1 as [|q o q' Hr [IH IHl] Ho E]; [split; [apply QWF_new|done]|].
  destruct (step_ok o q IH Ho) as (q1 & E1 & H1 & Hl). rewrite E in E1. injection E1 as <-. split; [done|congruence].
Qed.

(** Let the oldest running job end if all places are taken, and run the event. *)
Definition drain (q : Queue) : option Queue :=
  q ← match running q with
      | j :: _ => if (length (running q) =? concurrency_limit q)%nat then Cancel j q else Some q
      | [] => Some q
      end;
  run_deferred q.

Fixpoint drain_n (n : nat) (q : Queue) : option Queue :=
  match n with O => Some q | S n => q ← drain q; drain_n n q end.

(** One round starts the first job that waits. *)
Lemma drain_ok j w q : QWF q -> (0 < concurrency_limit q)%nat -> waiting q = j :: w ->
  exists q', drain q = Some q' /\ QWF q' /\ concurrency_limit q' = concurrency_limit q /\
    waiting q' = w /\ started q' = started q ++ [j] /\ j ∈ running q'.
Proof.
  intros Hq Hl Ew. unfold drain.
  assert (Hroom : exists q1, match running q with
      | i :: _ => if (length (running q) =? concurrency_limit q)%nat then Cancel i q else Some q
      | [] => Some q
      end = Some q1 /\ QWF q1 /\ concurrency_limit q1 = concurrency_limit q /\ waiting q1 = j :: w /\
      started q1 = started q /\ (length (running q1) < concurrency_limit q1)%nat).
  { pose proof Hq as [Hw Hr Nw Nr Hle _]. destruct (running q) as [|i r] eqn:Er.
    { exists q. rewrite Er. by split_and!. }
    rewrite <- Er in *. destruct (Nat.eqb_spec (length (running q)) (concurrency_limit q)) as [E|E].
    - destruct (Cancel_ok i q Hq) as (q1 & E1 & Hq1 & Hl1 & Hw1 & Hr1 & Hs1 & _). exists q1.
      assert (Hi : i ∈ running q) by (rewrite Er; left).
      assert (Hiw : i ∉ waiting q) by (rewrite Hw; apply Hr in Hi; congruence).
      split_and!; [done|done|done|by rewrite Hw1, without_notin, Ew|done|].
      rewrite Hr1, Hl1. pose proof (without_length i (running q) Nr Hi). lia.
    - exists q. split_and!; try done. lia. }
  destruct Hroom as (q1 & -> & Hq1 & Hl1 & Hw1 & Hs1 & Hlt). simpl.
  destruct (run_deferred_ok q1 Hq1) as (q2 & E2 & Hq2 & Hl2 & Hm). rewrite Hw1 in Hm.
  rewrite (q_work q1 Hq1) in Hm; [|by rewrite Hw1|done]. rewrite (proj2 (Nat.ltb_lt _ _) Hlt) in Hm.
  destruct Hm as (A & B & C). exists q2. split_and!; [done|done|congruence|done|congruence|].
  rewrite B. apply elem_of_app. right. by left.
Qed.

Lemma drain_n_ok pre : forall q j post, QWF q -> (0 < concurrency_limit q)%nat -> waiting q = pre ++ j :: post ->
  exists q', drain_n (S (length pre)) q = Some q' /\ QWF q' /\ waiting q' = post /\
    started q' = started q ++ pre ++ [j] /\ j ∈ running q'.
Proof.
  induction pre as [|i pre IH]; intros q j post Hq Hl Ew.
  - destruct (drain_ok j post q Hq Hl Ew) as (q' & E & Hq' & _ & Hw & Hs & Hj). exists q'. simpl. rewrite E. by split_and!.
  - destruct (drain_ok i (pre ++ j :: post) q Hq Hl Ew) as (q1 & E & Hq1 & Hl1 & Hw1 & Hs1 & _).
    destruct (IH q1 j post Hq1 ltac:(lia) Hw1) as (q' & E' & Hq' & Hw' & Hs' & Hj'). exists q'.
    cbn [drain_n length]. rewrite E. simpl. rewrite Hs', Hs1, <- app_assoc. by split_and!.
Qed.

(** ** Any schedule *)

(** A sequence of operations, in whatever order their callers have them. *)
Fixpoint run (ops : list op) (q : Queue) : option Queue :=
  match ops with [] => Some q | o :: ops => q ← step o q; run ops q end.

(** How often the event loop comes to the event of the queue while a place is free. *)
Fixpoint chances (ops : list op) (q : Queue) : nat :=
  match ops with
  | [] => 0
  | o :: ops =>
      (match o with
       | OpDeferred => if (length (running q) <? concurrency_limit q)%nat then 1 else 0
       | _ => 0
       end + match step o q with Some q => chances ops q | None => 0 end)%nat
  end.

Lemma step_Some_allowed o q q' : step o q = Some q' -> allowed o q.
Proof. destruct o as [j|j|]; simpl; [|done..]. unfold Schedule. by case_bool_decide. Qed.

Lemma step_WF o q q' : QWF q -> step o q = Some q' -> QWF q' /\ concurrency_limit q' = concurrency_limit q.
Proof.
  intros Hq E. destruct (step_ok o q Hq (step_Some_allowed _ _ _ E)) as (q1 & E1 & ?).
  rewrite E in E1. by injection E1 as <-.
Qed.

(** The callbacks that were called stay called. *)
Lemma step_started o q q' : QWF q -> step o q = Some q' -> exists l, started q' = started q ++ l.
Proof.
  intros Hq E. destruct o as [k|k|]; simpl in E.
  - unfold Schedule in E. case_bool_decide; [|done]. injection E as <-. unfold Add.
    destruct (_ && _); simpl; [by eexists|exists []; by rewrite app_nil_r].
  - destruct (Cancel_ok k q Hq) as (q1 & E1 & _ & _ & _ & _ & Hs & _). rewrite E in E1. injection E1 as <-.
    exists []. by rewrite app_nil_r.
  - destruct (run_deferred_ok q Hq) as (q1 & E1 & _ & _ & Hm). rewrite E in E1. injection E1 as <-.
    destruct (waiting q) as [|j w]; [|destruct (_ && _)]; destruct Hm as (_ & _ & ->); try by eexists.
    all: exists []; by rewrite app_nil_r.
Qed.

Lemma run_started ops : forall q q', QWF q -> run ops q = Some q' -> exists l, started q' = started q ++ l.
Proof.
  induction ops as [|o ops IH]; intros q q' Hq E; simpl in E.
  { injection E as <-. exists []. by rewrite app_nil_r. }
  apply bind_Some in E as (q1 & E1 & E). destruct (step_started o q q1 Hq E1) as (l1 & H1).
  destruct (step_WF o q q1 Hq E1) as [Hq1 _]. destruct (IH q1 q' Hq1 E) as (l & H). exists (l1 ++ l).
  by rewrite H, H1, app_assoc.
Qed.

(** One operation while [j] waits behind [pre]: either [j] starts, or it waits behind
    [pre'], after [front] was started. *)
Lemma step_waiting o q q' pre j post : QWF q -> waiting q = pre ++ j :: post -> o <> OpCancel j ->
  step o q = Some q' ->
  (pre = [] /\ started q' = started q ++ [j]) \/
  exists front pre' post', waiting q' = pre' ++ j :: post' /\ started q' = started q ++ front /\
    front ++ pre' `sublist_of` pre /\
    (forall i, i ∈ pre -> i ∈ front \/ i ∈ pre' \/ o = OpCancel i) /\
    (match o with OpDeferred => if (length (running q) <? concurrency_limit q)%nat then 1 else 0 | _ => 0 end
       + length pre' <= length pre)%nat.
Proof.
  intros Hq Ew Ho E. destruct o as [k|k|]; simpl in E.
  - right. exists [], pre, (post ++ [k]). unfold Schedule in E. case_bool_decide; [|done]. injection E as <-.
    unfold Add. rewrite bool_decide_eq_false_2 by (by rewrite Ew; destruct pre). simpl.
    rewrite Ew, <- app_assoc, app_nil_r. split_and!; try done. by intros i Hi; right; left.
  - right. exists [], (without k pre), (without k post).
    destruct (Cancel_ok k q Hq) as (q1 & E1 & _ & _ & Hw & _ & Hs & _). rewrite E in E1. injection E1 as <-.
    assert (Hkj : j <> k) by (intros ->; done).
    split_and!; [|by rewrite app_nil_r|apply bfilter_sub| |].
    + rewrite Hw, Ew. unfold without. rewrite List.filter_app. simpl. by rewrite (proj2 (Nat.eqb_neq j k)) by done.
    + intros i Hi. right. destruct (decide (i = k)) as [->|Hne]; [by right|left]. by apply elem_of_without_job.
    + simpl. apply (sublist_length (without k pre) pre), bfilter_sub.
  - destruct (run_deferred_ok q Hq) as (q1 & E1 & _ & _ & Hm). rewrite E in E1. injection E1 as <-.
    destruct (length (running q) <? concurrency_limit q)%nat eqn:Eroom; simpl.
    + rewrite (q_work q Hq) in Hm; [|by rewrite Ew; destruct pre|by apply Nat.ltb_lt].
      rewrite Ew in Hm. destruct pre as [|i pre]; simpl in Hm; destruct Hm as (Hw & _ & Hs); [by left|].
      right. exists [i], pre, post. split_and!; try done. intros i' [->|?]%elem_of_cons; [left; by left|by right; left].
    + right. exists [], pre, post. rewrite andb_false_r in Hm. rewrite app_nil_r.
      destruct (waiting q) as [|j' w']; [by destruct pre|]. destruct Hm as (-> & _ & ->).
      split_and!; try done. by intros i Hi; right; left.
Qed.

(** With more chances than jobs in front of it, [j] is started. *)
Lemma run_starts ops : forall q q' pre j post, QWF q -> waiting q = pre ++ j :: post -> OpCancel j ∉ ops ->
  run ops q = Some q' -> (length pre < chances ops q)%nat ->
  exists front rest, started q' = started q ++ front ++ j :: rest /\ front `sublist_of` pre /\
    (forall i, i ∈ pre -> i ∈ front \/ OpCancel i ∈ ops).
Proof.
  induction ops as [|o ops IH]; intros q q' pre j post Hq Ew Hj E Hc; [simpl in Hc; lia|].
  apply not_elem_of_cons in Hj as [Ho Hj]. cbn [run] in E. apply bind_Some in E as (q1 & E1 & E).
  cbn [chances] in Hc. rewrite E1 in Hc. destruct (step_WF o q q1 Hq E1) as [Hq1 _].
  destruct (step_waiting o q q1 pre j post Hq Ew (not_eq_sym Ho) E1)
    as [[-> Hs]|(front & pre' & post' & Hw & Hs & Hsub & Hin & Hlen)].
  - destruct (run_started ops q1 q' Hq1 E) as (rest & Hr). exists [], rest. rewrite Hr, Hs, <- app_assoc.
    split_and!; try done. by intros i ?%elem_of_nil.
  - destruct (IH q1 q' pre' j post' Hq1 Hw Hj E ltac:(lia)) as (f & rest & Hr & Hf & Hi). exists (front ++ f), rest.
    split_and!; [by rewrite Hr, Hs, <- !app_assoc| |].
    + transitivity (front ++ pre'); [by apply sublist_app|done].
    + intros i Hp. rewrite elem_of_app. destruct (Hin i Hp) as [?|[Hp'| ->]]; [by left; left| |right; by left].
      destruct (Hi i Hp'); [left; by right|right; by right].
Qed.

(** C17: No job is forgotten, the limit is kept.  In every state that a queue can
    reach by scheduling, cancelling and running its event: at most [limit] jobs run;
    every operation that its caller may use succeeds; when a job waits and a place is
    free, the event is scheduled; and a job [j] that waits behind [pre] and is not
    cancelled starts in every sequence of operations in which the event loop comes to
    the event more often with a place free than there are jobs in front: before it
    start only jobs of [pre], in their order, and all of them that are not cancelled.
    If the limit is not 0, letting the oldest running job end and running the event in turn
    is such a sequence. *)
Theorem waiting_job_starts limit q : reachable limit q ->
  (length (running q) <= limit)%nat /\
  (forall o, allowed o q -> exists q', step o q = Some q') /\
  (waiting q <> [] -> (length (running q) < limit)%nat -> defer_start q = true) /\
  forall pre j post, waiting q = pre ++ j :: post ->
    (forall ops q', run ops q = Some q' -> OpCancel j ∉ ops -> (length pre < chances ops q)%nat ->
       exists front rest, started q' = started q ++ front ++ j :: rest /\ front `sublist_of` pre /\
         (forall i, i ∈ pre -> i ∈ front \/ OpCancel i ∈ ops)) /\
    ((0 < limit)%nat -> exists q', drain_n (S (length pre)) q = Some q' /\ waiting q' = post /\
       started q' = started q ++ pre ++ [j] /\ j ∈ running q').
Proof.
  intros Hr. destruct (reachable_WF limit q Hr) as [Hq Hlim]. split_and!.
  - rewrite <- Hlim. apply Hq.
  - intros o Ho. destruct (step_ok o q Hq Ho) as (q' & E & _). by exists q'.
  - rewrite <- Hlim. apply (q_work q Hq).
  - intros pre j post Ew. split.
    + intros ops q' E Hj Hc. by apply (run_starts ops q q' pre j post).
    + intros Hl. destruct (drain_n_ok pre q j post Hq ltac:(lia) Ew) as (q' & ? & _ & ?). by exists q'.
Qed.

Definition three_jobs : Queue :=
  default (Queue_new 1) (q ← Schedule 1 (Queue_new 1); q ← Schedule 2 q; Schedule 3 q).

(** Job 1 ends, job 4 comes, the event starts job 2; it is cancelled, and 3 starts. *)
Definition some_ops : list op := [OpCancel 1; OpSchedule 4; OpDeferred; OpDeferred; OpCancel 2; OpDeferred].

Lemma three_jobs_reachable : reachable 1 three_jobs.
Proof.
  apply (reach_step 1 (default (Queue_new 1) (q ← Schedule 1 (Queue_new 1); Schedule 2 q)) (OpSchedule 3));
    [|reflexivity|reflexivity].
  apply (reach_step 1 (default (Queue_new 1) (Schedule 1 (Queue_new 1))) (OpSchedule 2)); [|reflexivity|reflexivity].
  apply (reach_step 1 (Queue_new 1) (OpSchedule 1)); [apply reach_new|reflexivity|reflexivity].
Qed.

Lemma waiting_job_starts_witness :
  (exists q', run some_ops three_jobs = Some q' /\ started q' = [1; 2; 3]%nat /\ waiting q' = [4%nat]) /\
  (exists front rest, [1; 2; 3]%nat = [1%nat] ++ front ++ 3%nat :: rest /\ front `sublist_of` [2%nat] /\
     (forall i, i ∈ [2%nat] -> i ∈ front \/ OpCancel i ∈ some_ops)) /\
  exists q', drain_n 2 three_jobs = Some q' /\ waiting q' = [] /\ started q' = [1; 2; 3]%nat /\ 3%nat ∈ running q'.
Proof.
  destruct (waiting_job_starts 1 three_jobs three_jobs_reachable) as (_ & _ & _ & H).
  destruct (H [2%nat] 3%nat [] eq_refl) as [H1 H2]. split_and!.
  - eexists. split; [vm_compute; reflexivity|by vm_compute].
  - apply (H1 some_ops (default (Queue_new 1) (run some_ops three_jobs))).
    + vm_compute. reflexivity.
    + unfold some_ops. rewrite !elem_of_cons, elem_of_nil. naive_solver.
    + vm_compute. lia.
  - apply H2. lia.
Defined.

End LCQ.
