(* ===== verification/Failure.v ===== *)
(** * Failures of nodes

    Models src/net/FailureStatus.hxx, FailureInfo.hxx, FailureInfo.cxx,
    FailureRef.hxx and FailureManager.cxx: what is known about the health of a
    node, and the table of the nodes.

    The table holds a reference to each of its objects and never
    removes one, so that a node's object is found under its address as long as the
    table exists. *)

From S2P Require Import Prelude Expiry.

Inductive FailureStatus := OK | FADE | PROTOCOL | CONNECT | MONITOR.
#[global] Instance FailureStatus_eq : EqDecision FailureStatus. Proof. solve_decision. Defined.

Section Failure.
Context `{EO : ExpiryOps}.

Record FailureInfo := mkFailureInfo {
  fade_expires : Expiry;
  protocol_expires : Expiry;
  connect_expires : Expiry;
  protocol_counter : Z;
  monitor : bool }.

Definition FailureInfo_new : FailureInfo := mkFailureInfo AlreadyExpired AlreadyExpired AlreadyExpired 0 false.

Definition CheckFade (now : Expiry) (i : FailureInfo) : bool := IsExpired (fade_expires i) now.
Definition CheckProtocol (now : Expiry) (i : FailureInfo) : bool :=
  IsExpired (protocol_expires i) now || (protocol_counter i <? 8).
Definition CheckConnect (now : Expiry) (i : FailureInfo) : bool := IsExpired (connect_expires i) now.
Definition CheckMonitor (i : FailureInfo) : bool := negb (monitor i).

Definition GetStatus (now : Expiry) (i : FailureInfo) : FailureStatus :=
  if negb (CheckMonitor i) then MONITOR
  else if negb (CheckConnect now i) then CONNECT
  else if negb (CheckProtocol now i) then PROTOCOL
  else if negb (CheckFade now i) then FADE
  else OK.

Definition FI_Check (now : Expiry) (allow_fade : bool) (i : FailureInfo) : bool :=
  CheckMonitor i && CheckConnect now i && CheckProtocol now i && (allow_fade || CheckFade now i).

Definition SetFade (now : Expiry) (d : Z) (i : FailureInfo) : FailureInfo :=
  mkFailureInfo (Touched now d) (protocol_expires i) (connect_expires i) (protocol_counter i) (monitor i).
Definition UnsetFade (i : FailureInfo) : FailureInfo :=
  mkFailureInfo AlreadyExpired (protocol_expires i) (connect_expires i) (protocol_counter i) (monitor i).

(** The counter is an [unsigned]. *)
Definition SetProtocol (now : Expiry) (d : Z) (i : FailureInfo) : FailureInfo :=
  mkFailureInfo (fade_expires i) (Touched now d) (connect_expires i) (wrap 32 (protocol_counter i + 1)) (monitor i).
Definition UnsetProtocol (i : FailureInfo) : FailureInfo :=
  mkFailureInfo (fade_expires i) AlreadyExpired (connect_expires i) 0 (monitor i).

Definition SetConnect (now : Expiry) (d : Z) (i : FailureInfo) : FailureInfo :=
  mkFailureInfo (fade_expires i) (protocol_expires i) (Touched now d) (protocol_counter i) (monitor i).
Definition UnsetConnect (i : FailureInfo) : FailureInfo :=
  mkFailureInfo (fade_expires i) (protocol_expires i) AlreadyExpired (protocol_counter i) (monitor i).

Definition SetMonitor (i : FailureInfo) : FailureInfo :=
  mkFailureInfo (fade_expires i) (protocol_expires i) (connect_expires i) (protocol_counter i) true.
Definition UnsetMonitor (i : FailureInfo) : FailureInfo :=
  mkFailureInfo (fade_expires i) (protocol_expires i) (connect_expires i) (protocol_counter i) false.

Definition UnsetAll (i : FailureInfo) : FailureInfo :=
  mkFailureInfo AlreadyExpired AlreadyExpired AlreadyExpired 0 false.

Definition FI_Set (now : Expiry) (new_status : FailureStatus) (d : Z) (i : FailureInfo) : FailureInfo :=
  match new_status with
  | OK => i
  | FADE => SetFade now d i
  | PROTOCOL => SetProtocol now d i
  | CONNECT => SetConnect now d i
  | MONITOR => SetMonitor i
  end.

Definition FI_Unset (unset_status : FailureStatus) (i : FailureInfo) : FailureInfo :=
  match unset_status with
  | OK => UnsetAll i
  | FADE => UnsetFade i
  | PROTOCOL => UnsetProtocol i
  | CONNECT => UnsetConnect i
  | MONITOR => UnsetMonitor i
  end.

(** ** The table *)

Context {Address : Type} `{Countable Address}.

(** [ReferencedFailureInfo] *)
Record Failure := mkFailure { failure_info : FailureInfo; refs : nat }.

Abbreviation FailureManager := (gmap Address Failure).

Definition Make (a : Address) (m : FailureManager) : FailureManager :=
  match m !! a with
  | Some _ => m
  | None => <[a := mkFailure FailureInfo_new 1]> m
  end.

Definition FM_Get (now : Expiry) (a : Address) (m : FailureManager) : FailureStatus :=
  match m !! a with
  | None => OK
  | Some f => GetStatus now (failure_info f)
  end.

Definition FM_Check (now : Expiry) (a : Address) (allow_fade : bool) (m : FailureManager) : bool :=
  match m !! a with
  | None => true
  | Some f => FI_Check now allow_fade (failure_info f)
  end.

(** [FailureRef] and [FailurePtr] count their references; the object is
    destroyed with the last one. *)
Definition Ref (f : Failure) : Failure := mkFailure (failure_info f) (S (refs f)).
Definition Unref (f : Failure) : option Failure :=
  match refs f with
  | O => None
  | S n => Some (mkFailure (failure_info f) n)
  end.

(** What a client does through its reference to the object of [a]. *)
Definition update_failure (a : Address) (g : FailureInfo -> FailureInfo) (m : FailureManager) : FailureManager :=
  alter (fun f => mkFailure (g (failure_info f)) (refs f)) a m.

(** ** Facts *)

Context `{EL : !ExpiryLaws}.

(** Is there a failure of the kind [s]? *)
Definition failed (now : Expiry) (s : FailureStatus) (i : FailureInfo) : bool :=
  match s with
  | OK => false
  | FADE => negb (CheckFade now i)
  | PROTOCOL => negb (CheckProtocol now i)
  | CONNECT => negb (CheckConnect now i)
  | MONITOR => negb (CheckMonitor i)
  end.

Definition severity (s : FailureStatus) : nat :=
  match s with OK => 0 | FADE => 1 | PROTOCOL => 2 | CONNECT => 3 | MONITOR => 4 end.

(** The status is the most severe failure there is. *)
Lemma GetStatus_worst now i :
  (GetStatus now i <> OK -> failed now (GetStatus now i) i = true) /\
  forall s, failed now s i = true -> (severity s <= severity (GetStatus now i))%nat.
Proof.
  unfold GetStatus, failed. destruct (CheckMonitor i), (CheckConnect now i), (CheckProtocol now i), (CheckFade now i);
    simpl; (split; [done|]); intros []; simpl; try done; lia.
Qed.

(** [Check()] and [GetStatus()] agree, for the object of a node and
    in the table: a node may be used if and only if its status is [OK], or it is
    [FADE] and that is allowed; the status is the most severe of the failures
    that have been set and are neither expired nor unset; setting a failure or unsetting one
    does not touch the others, and unsetting [OK] removes all. *)
Theorem failure_status_spec now a allow_fade (m : FailureManager) i s s' d :
  FM_Check now a allow_fade m =
    bool_decide (FM_Get now a m = OK \/ (allow_fade = true /\ FM_Get now a m = FADE)) /\
  (failed now s i = true -> (severity s <= severity (GetStatus now i))%nat) /\
  (GetStatus now i <> OK -> failed now (GetStatus now i) i = true) /\
  (s <> s' -> failed now s (FI_Set now s' d i) = failed now s i /\
              (s' <> OK -> failed now s (FI_Unset s' i) = failed now s i)) /\
  failed now s (FI_Unset s i) = false /\ GetStatus now (FI_Unset OK i) = OK.
Proof.
  split_and!.
  - unfold FM_Check, FM_Get. destruct (m !! a) as [f|]; [|by rewrite bool_decide_eq_true_2 by auto].
    unfold FI_Check, GetStatus. destruct (CheckMonitor _), (CheckConnect _ _), (CheckProtocol _ _), (CheckFade _ _), allow_fade;
      reflexivity.
  - apply GetStatus_worst.
  - apply GetStatus_worst.
  - intros Hne. by destruct s, s'.
  - destruct s; simpl; unfold CheckFade, CheckProtocol, CheckConnect, CheckMonitor; simpl;
      by rewrite ?IsExpired_AlreadyExpired.
  - unfold GetStatus, CheckFade, CheckProtocol, CheckConnect, CheckMonitor. simpl. by rewrite !IsExpired_AlreadyExpired.
Qed.

(** The objects in the table keep the table's reference. *)
Lemma Make_lookup a m : exists f, Make a m !! a = Some f /\ (m !! a = None -> failure_info f = FailureInfo_new).
Proof.
  unfold Make. destruct (m !! a) as [f|] eqn:E; [exists f; by rewrite E|].
  eexists. by rewrite lookup_insert_eq.
Qed.

End Failure.
