(* ===== verification/Balancer.v ===== *)
(** * Load balancing

    Models src/cluster/PickFailover.hxx, PickModulo.hxx, PickGeneric.hxx and
    RoundRobinBalancer.cxx: how a node of a cluster is chosen.  The list is that of
    the addresses of the nodes; pointers to its elements are their
    indices.  [check a allow_fade] is the list's method [Check()] at the time of the
    call; src/cluster/FailureManagerProxy.cxx forwards it to the table of
    failures.  [None] is a failed assertion. *)

From S2P Require Import Prelude Expiry Failure.

Inductive StickyMode :=
  | SM_NONE | SM_FAILOVER | SM_SOURCE_IP | SM_HOST | SM_XHOST | SM_SESSION_MODULO | SM_COOKIE | SM_JVM_ROUTE.

Section Pick.
Context {A : Type} (check : A -> bool -> bool).

Definition PickFailover (l : list A) : option A :=
  match l with
  | [] => None
  | first :: _ =>
      match List.find (fun a => check a true) l with
      | Some a => Some a
      | None => Some first
      end
  end.

(** The next index, cyclically. *)
Definition cyclic_next (n i : nat) : nat := if (n <=? S i)%nat then 0%nat else S i.

(** The loop of [PickModulo()]; the result is the index. *)
Fixpoint PickModulo_loop (fuel : nat) (l : list A) (selected i : nat) (allow_fade : bool) : option nat :=
  match fuel with
  | O => None
  | S fuel =>
      a ← l !! i;
      if check a allow_fade then Some i
      else
        let i := cyclic_next (length l) i in
        if (i =? selected)%nat then Some i else PickModulo_loop fuel l selected i false
  end.

Definition PickModulo (l : list A) (sticky_hash : Z) : option A :=
  if (length l <? 2)%nat then None
  else
    let modulo := Z.to_nat (sticky_hash mod Z.of_nat (length l)) in
    i ← PickModulo_loop (length l) l modulo modulo true; l !! i.

(** [next] is the state of the [RoundRobinBalancer]; the result has the index
    of the element and the new state. *)
Definition RR_Next (l : list A) (next : nat) : option (nat * nat) :=
  if (length l <? 2)%nat then None
  else if negb (next <? length l)%nat then None
  else Some (next, cyclic_next (length l) next).

Fixpoint RR_Get_loop (fuel : nat) (l : list A) (allow_fade : bool) (first ret next : nat) : option (nat * nat) :=
  match fuel with
  | O => None
  | S fuel =>
      a ← l !! ret;
      if check a allow_fade then Some (ret, next)
      else
        '(ret, next) ← RR_Next l next;
        if (ret =? first)%nat then Some (first, next) else RR_Get_loop fuel l allow_fade first ret next
  end.

Definition RR_Get (l : list A) (allow_fade : bool) (next : nat) : option (A * nat) :=
  '(first, next) ← RR_Next l next;
  '(i, next) ← RR_Get_loop (length l) l allow_fade first first next;
  a ← l !! i; Some (a, next).

(** The address and the new state of the round-robin balancer. *)
Definition PickGeneric (mode : StickyMode) (l : list A) (sticky_hash : Z) (next : nat) : option (A * nat) :=
  let round_robin := RR_Get l (match mode with SM_NONE => true | _ => false end) next in
  match l with
  | [a] => Some (a, next)
  | _ =>
      match mode with
      | SM_NONE => round_robin
      | SM_FAILOVER => a ← PickFailover l; Some (a, next)
      | _ => if negb (sticky_hash =? 0) then a ← PickModulo l sticky_hash; Some (a, next) else round_robin
      end
  end.

(** ** The reference: the first usable address of the rotated list *)

(** The list, beginning with the index [s]. *)
Definition rot (s : nat) (l : list A) : list A := drop s l ++ take s l.

Definition cyc (n s k : nat) : nat := if (s + k <? n)%nat then (s + k)%nat else (s + k - n)%nat.

Lemma rot_length s l : length (rot s l) = length l.
Proof. unfold rot. rewrite length_app, length_drop, length_take. lia. Qed.

Lemma rot_lookup s k l : (s < length l)%nat -> (k < length l)%nat -> rot s l !! k = l !! cyc (length l) s k.
Proof.
  intros Hs Hk. unfold rot, cyc. destruct (Nat.ltb_spec (s + k) (length l)).
  - rewrite lookup_app_l by (rewrite length_drop; lia). by rewrite lookup_drop.
  - rewrite lookup_app_r by (rewrite length_drop; lia). rewrite length_drop, lookup_take_lt by lia.
    f_equal. lia.
Qed.

Lemma cyc_next n s k : (s < n)%nat -> (k < n)%nat -> cyclic_next n (cyc n s k) = cyc n s (S k).
Proof.
  intros Hs Hk. unfold cyclic_next, cyc.
  destruct (Nat.ltb_spec (s + k) n), (Nat.ltb_spec (s + S k) n);
    match goal with |- (if (?a <=? ?b)%nat then _ else _) = _ => destruct (Nat.leb_spec a b) end; lia.
Qed.

Lemma cyc_lt n s k : (s < n)%nat -> (k < n)%nat -> (cyc n s k < n)%nat.
Proof. intros Hs Hk. unfold cyc. destruct (Nat.ltb_spec (s + k) n); lia. Qed.

Lemma cyc_back n s k : (s < n)%nat -> (k <= n)%nat -> cyc n s k = s <-> (k = 0 \/ k = n)%nat.
Proof. intros Hs Hk. unfold cyc. destruct (Nat.ltb_spec (s + k) n); lia. Qed.

Lemma cyc_0 n s : (s < n)%nat -> cyc n s 0 = s.
Proof. intros Hs. apply cyc_back; lia. Qed.

(** The index of the first usable address at or after [k], or [n]. *)
Fixpoint first_at (P : A -> bool) (l : list A) : nat :=
  match l with [] => 0%nat | a :: l => if P a then 0%nat else S (first_at P l) end.

Lemma first_at_le P l : (first_at P l <= length l)%nat.
Proof. induction l as [|a l IH]; simpl; [lia|]. destruct (P a); lia. Qed.

Lemma first_at_find P l : List.find P l = l !! first_at P l.
Proof. induction l as [|a l IH]; simpl; [done|]. by destruct (P a). Qed.

(** What the loops do after [k] steps, [P] being their test. *)
Lemma modulo_loop_spec l s : (s < length l)%nat -> forall fuel k,
  (0 < k < length l)%nat -> (length l <= k + fuel)%nat ->
  PickModulo_loop fuel l s (cyc (length l) s k) false =
    Some (cyc (length l) s (let j := (k + first_at (fun a => check a false) (drop k (rot s l)))%nat in
                            if (j =? length l)%nat then 0%nat else j)).
Proof.
  intros Hs. induction fuel as [|fuel IH]; intros k Hk Hf; [lia|]. simpl PickModulo_loop.
  rewrite <- rot_lookup by lia. destruct (rot s l !! k) as [a|] eqn:E.
  2: { apply lookup_ge_None in E. rewrite rot_length in E. lia. }
  rewrite (drop_S _ a) by done. simpl. destruct (check a false) eqn:Ec.
  { rewrite Nat.add_0_r, (proj2 (Nat.eqb_neq _ _)) by lia. done. }
  rewrite cyc_next by lia. destruct (Nat.eqb_spec (cyc (length l) s (S k)) s) as [E'|E'].
  - apply cyc_back in E' as [E'|E']; [lia| |lia|lia]. rewrite (drop_ge (rot s l)) by (rewrite rot_length; lia). simpl.
    rewrite Nat.add_1_r, E', Nat.eqb_refl. f_equal. unfold cyc. destruct (Nat.ltb_spec (s + length l) (length l)), (Nat.ltb_spec (s + 0) (length l)); lia.
  - assert (Hk' : (S k < length l)%nat).
    { destruct (decide (S k = length l)) as [Hn|Hn]; [|lia]. exfalso. apply E'. apply cyc_back; lia. }
    rewrite IH by lia. by rewrite Nat.add_succ_r.
Qed.

(** The first address of the rotated list may be fading, the others not; if
    all have failed, the first one is used. *)
Definition modulo_ref (l : list A) : option A :=
  match l with
  | [] => None
  | a :: rest => if check a true then Some a else
      match List.find (fun a => check a false) rest with Some b => Some b | None => Some a end
  end.

Definition failover_ref (l : list A) (allow_fade : bool) : option A :=
  match List.find (fun a => check a allow_fade) l with Some a => Some a | None => head l end.

Lemma PickModulo_ref l h : (2 <= length l)%nat -> 0 <= h ->
  PickModulo l h = modulo_ref (rot (Z.to_nat (h mod Z.of_nat (length l))) l).
Proof.
  intros Hl Hh. unfold PickModulo. rewrite (proj2 (Nat.ltb_ge _ _) Hl).
  set (s := Z.to_nat (h mod Z.of_nat (length l))).
  assert (Hs : (s < length l)%nat) by (pose proof (Z.mod_pos_bound h (Z.of_nat (length l))); unfold s; lia).
  destruct (rot s l) as [|a rest] eqn:E.
  { apply (f_equal length) in E. rewrite rot_length in E. simpl in E. lia. }
  destruct (length l) as [|n] eqn:Hn; [lia|]. rewrite <- Hn in *. simpl PickModulo_loop.
  assert (Ha : l !! s = Some a).
  { pose proof (rot_lookup s 0 l ltac:(lia) ltac:(lia)) as Hr. rewrite E, cyc_0 in Hr by lia. by simpl in Hr. }
  rewrite Hn at 1. simpl PickModulo_loop. rewrite Ha. simpl. destruct (check a true); [done|].
  assert (Hnext : cyclic_next (length l) s = cyc (length l) s 1).
  { rewrite <- (cyc_next (length l) s 0), cyc_0 by lia. done. }
  rewrite Hnext. destruct (Nat.eqb_spec (cyc (length l) s 1) s) as [E'|E'].
  { apply cyc_back in E'; lia. }
  rewrite modulo_loop_spec by lia. cbn [mbind option_bind]. cbv zeta. rewrite E.
  change (drop 1 (a :: rest)) with rest. change (1 + ?f)%nat with (S f). rewrite first_at_find.
  pose proof (first_at_le (fun a => check a false) rest) as Hle.
  assert (Hr : length rest = n).
  { apply (f_equal length) in E. rewrite rot_length in E. simpl in E. lia. }
  destruct (Nat.eqb_spec (S (first_at (fun a => check a false) rest)) (length l)) as [Ef|Ef].
  - rewrite cyc_0, Ha by lia. rewrite (proj2 (lookup_ge_None rest _)) by lia. done.
  - rewrite <- rot_lookup by lia. rewrite E. simpl.
    destruct (rest !! _) eqn:El; [done|]. apply lookup_ge_None in El. lia.
Qed.

Lemma rr_loop_spec l s allow_fade : (2 <= length l)%nat -> (s < length l)%nat -> forall fuel k,
  (k < length l)%nat -> (length l <= k + fuel)%nat ->
  let j := (k + first_at (fun a => check a allow_fade) (drop k (rot s l)))%nat in
  RR_Get_loop fuel l allow_fade s (cyc (length l) s k) (cyclic_next (length l) (cyc (length l) s k)) =
    Some (let i := if (j =? length l)%nat then s else cyc (length l) s j in
          (i, cyclic_next (length l) i)).
Proof.
  intros Hl Hs. induction fuel as [|fuel IH]; intros k Hk Hf; [lia|]. simpl RR_Get_loop.
  rewrite <- rot_lookup by lia. destruct (rot s l !! k) as [a|] eqn:E.
  2: { apply lookup_ge_None in E. rewrite rot_length in E. lia. }
  rewrite (drop_S _ a) by done. cbn [mbind option_bind first_at]. destruct (check a allow_fade) eqn:Ec.
  { rewrite Nat.add_0_r, (proj2 (Nat.eqb_neq _ _)) by lia. done. }
  rewrite cyc_next by lia. unfold RR_Next. rewrite (proj2 (Nat.ltb_ge _ _) Hl).
  assert (Hlt : (cyc (length l) s (S k) < length l)%nat).
  { rewrite <- cyc_next by lia. unfold cyclic_next. destruct (Nat.leb_spec (length l) (S (cyc (length l) s k))); lia. }
  rewrite (proj2 (Nat.ltb_lt _ _) Hlt). cbn [negb mbind option_bind].
  destruct (Nat.eqb_spec (cyc (length l) s (S k)) s) as [E'|E'].
  - rewrite E'. apply cyc_back in E' as [E'|E']; [lia| |lia|lia].
    rewrite (drop_ge (rot s l)) by (rewrite rot_length; lia). simpl first_at.
    replace (k + 1)%nat with (length l) by lia. rewrite Nat.eqb_refl. done.
  - assert (Hk' : (S k < length l)%nat).
    { destruct (decide (S k = length l)) as [Hn|Hn]; [|lia]. exfalso. apply E'. apply cyc_back; lia. }
    rewrite IH by lia. by rewrite Nat.add_succ_r.
Qed.

(** [Get()] of the round-robin balancer returns the first usable address after the
    one it returned last, and goes on after that. *)
Lemma RR_Get_ref l allow_fade s : (2 <= length l)%nat -> (s < length l)%nat ->
  exists a i, RR_Get l allow_fade s = Some (a, cyclic_next (length l) i) /\ l !! i = Some a /\
    failover_ref (rot s l) allow_fade = Some a /\ (check a allow_fade = false -> i = s) /\
    (forall b, l !! s = Some b -> check b allow_fade = true -> i = s).
Proof.
  intros Hl Hs. unfold RR_Get, RR_Next. rewrite (proj2 (Nat.ltb_ge _ _) Hl), (proj2 (Nat.ltb_lt _ _) Hs).
  cbn [negb mbind option_bind]. pose proof (rr_loop_spec l s allow_fade Hl Hs (length l) 0 ltac:(lia) ltac:(lia)) as Hloop.
  cbv zeta in Hloop. rewrite cyc_0 in Hloop by lia. rewrite Hloop. cbn [mbind option_bind].
  rewrite drop_0, Nat.add_0_l. unfold failover_ref. rewrite first_at_find.
  set (P := fun a => check a allow_fade). set (j := first_at P (rot s l)).
  pose proof (first_at_le P (rot s l)) as Hle. fold j in Hle. rewrite rot_length in Hle.
  assert (Hhd : head (rot s l) = l !! s).
  { rewrite <- (cyc_0 (length l) s) at 2 by lia. rewrite <- rot_lookup by lia. by destruct (rot s l). }
  destruct (lookup_lt_is_Some_2 l s Hs) as [b Hb].
  destruct (Nat.eqb_spec j (length l)) as [Ej|Ej].
  - exists b, s. rewrite Hb. cbn [mbind option_bind]. rewrite (proj2 (lookup_ge_None (rot s l) j)) by (rewrite rot_length; lia).
    rewrite Hhd. by split_and!.
  - assert (Hj : (j < length l)%nat) by lia. rewrite <- rot_lookup by lia.
    destruct (rot s l !! j) as [a|] eqn:Ea; [|apply lookup_ge_None in Ea; rewrite rot_length in Ea; lia].
    cbn [mbind option_bind]. exists a, (cyc (length l) s j). split_and!; [done|by rewrite <- rot_lookup| done| |].
    + intros Hc. exfalso. pose proof (first_at_find P (rot s l)) as Hf. fold j in Hf. rewrite Ea in Hf.
      apply find_some in Hf as [_ Hf]. unfold P in Hf. congruence.
    + intros b' Hb' Hc. rewrite Hb in Hb'. injection Hb' as <-. rewrite Hb in Hhd. unfold j.
      destruct (rot s l) as [|b0 r] eqn:Er; [done|]. injection Hhd as ->. simpl. unfold P. rewrite Hc. apply cyc_0. lia.
Qed.

Lemma elem_of_drop_sub n (x : A) l : x ∈ drop n l -> x ∈ l.
Proof. intros Hx. rewrite <- (take_drop n l). apply elem_of_app. by right. Qed.
Lemma elem_of_take_sub n (x : A) l : x ∈ take n l -> x ∈ l.
Proof. intros Hx. rewrite <- (take_drop n l). apply elem_of_app. by left. Qed.

Lemma find_elem P l (a : A) : List.find P l = Some a -> a ∈ l.
Proof. intros E. apply find_some in E as [E _]. by apply list_elem_of_In. Qed.

Lemma modulo_ref_elem l : l <> [] -> exists a, modulo_ref l = Some a /\ a ∈ l.
Proof.
  destruct l as [|a l]; [done|]. intros _. simpl. destruct (check a true); [exists a; split; [done|left]|].
  destruct (List.find _ l) as [b|] eqn:E; [exists b; split; [done|right; by eapply find_elem]|exists a; split; [done|left]].
Qed.

Lemma failover_elem l allow_fade : l <> [] -> exists a, failover_ref l allow_fade = Some a /\ a ∈ l.
Proof.
  intros Hne. unfold failover_ref. destruct (List.find _ l) as [b|] eqn:E; [exists b; split; [done|by eapply find_elem]|].
  destruct l as [|a l]; [done|]. exists a. split; [done|left].
Qed.

(** If there is a usable address, a usable one is chosen. *)
Lemma failover_usable l allow_fade a b : failover_ref l allow_fade = Some a ->
  b ∈ l -> check b allow_fade = true -> check a allow_fade = true.
Proof.
  unfold failover_ref. intros E Hb Hc. destruct (List.find _ l) as [c|] eqn:Ef.
  - injection E as <-. by apply find_some in Ef as [_ Ef].
  - apply list_elem_of_In in Hb. by rewrite (find_none _ _ Ef b Hb) in Hc.
Qed.

Lemma modulo_usable l a b : (forall c, check c false = true -> check c true = true) ->
  modulo_ref l = Some a -> b ∈ l -> check b false = true -> check a true = true.
Proof.
  intros Hmono E Hb Hc. destruct l as [|x l]; [done|]. simpl in E. destruct (check x true) eqn:Ex; [by simplify_eq|].
  apply elem_of_cons in Hb as [->|Hb]; [by rewrite (Hmono x Hc) in Ex|].
  destruct (List.find _ l) as [c|] eqn:Ef.
  - injection E as <-. apply find_some in Ef as [_ Ef]. by apply Hmono.
  - apply list_elem_of_In in Hb. by rewrite (find_none _ _ Ef b Hb) in Hc.
Qed.

Lemma elem_of_rot s x l : x ∈ rot s l <-> x ∈ l.
Proof.
  unfold rot. rewrite elem_of_app. split; [intros [Hx|Hx]; [by eapply elem_of_drop_sub|by eapply elem_of_take_sub]|].
  intros Hx. rewrite <- (take_drop s l) in Hx. apply elem_of_app in Hx. tauto.
Qed.

(** [n] calls of [Get()]. *)
Fixpoint RR_Gets (n : nat) (l : list A) (allow_fade : bool) (next : nat) : option (list A * nat) :=
  match n with
  | O => Some ([], next)
  | S n => '(a, next) ← RR_Get l allow_fade next; '(r, next) ← RR_Gets n l allow_fade next; Some (a :: r, next)
  end.

Lemma RR_Gets_spec l allow_fade s : (2 <= length l)%nat -> (s < length l)%nat ->
  (forall a, a ∈ l -> check a allow_fade = true) -> forall n k, (k + n <= length l)%nat -> (k < length l)%nat ->
  RR_Gets n l allow_fade (cyc (length l) s k) =
    Some (take n (drop k (rot s l)), if (k + n =? length l)%nat then s else cyc (length l) s (k + n)).
Proof.
  intros Hl Hs Hall. induction n as [|n IH]; intros k Hk Hk'.
  { simpl. rewrite Nat.add_0_r, (proj2 (Nat.eqb_neq _ _)) by lia. done. }
  cbn [RR_Gets]. pose proof (cyc_lt (length l) s k Hs Hk') as Hc.
  destruct (RR_Get_ref l allow_fade _ Hl Hc) as (a & i & E & Hi & _ & _ & Hsame).
  destruct (lookup_lt_is_Some_2 l _ Hc) as [b Hb].
  assert (i = cyc (length l) s k) as -> by (apply (Hsame b Hb), Hall, list_elem_of_lookup; by eexists).
  rewrite E. cbn [mbind option_bind]. rewrite cyc_next by lia.
  rewrite Hb in Hi. injection Hi as ->. rewrite <- rot_lookup in Hb by lia. rewrite (drop_S _ a) by done. simpl take.
  destruct (decide (S k = length l)) as [Ek|Ek].
  - assert (n = 0%nat) as -> by lia. simpl. rewrite Nat.add_1_r, (proj2 (Nat.eqb_eq _ _) Ek).
    do 2 f_equal. apply cyc_back; lia.
  - rewrite IH by lia. cbn [mbind option_bind]. by rewrite <- Nat.add_succ_comm.
Qed.

(** C31: The round-robin balancer is fair: while all nodes are usable, as many
    calls of [Get()] as there are nodes return every node once, in their
    order, and then it begins again. *)
Theorem round_robin_fair l allow_fade next : (2 <= length l)%nat -> (next < length l)%nat ->
  (forall a, a ∈ l -> check a allow_fade = true) ->
  RR_Gets (length l) l allow_fade next = Some (rot next l, next).
Proof.
  intros Hl Hs Hall. rewrite <- (cyc_0 (length l) next) at 1 by done.
  rewrite (RR_Gets_spec l allow_fade next Hl Hs Hall) by lia.
  rewrite drop_0, Nat.add_0_l, Nat.eqb_refl, take_ge by (rewrite rot_length; lia). done.
Qed.

Lemma PickFailover_ref l : l <> [] -> PickFailover l = failover_ref l true.
Proof. by destruct l. Qed.

End Pick.

(** ** The nodes of a cluster *)

Section Cluster.
Context `{EO : ExpiryOps} {Address : Type} `{Countable Address}.
Variables (now : Expiry) (failures : gmap Address Failure).

Definition node_check (a : Address) (allow_fade : bool) : bool := FM_Check now a allow_fade failures.

(** Where the reference begins, and whether a fading node is acceptable. *)
Definition hashed (mode : StickyMode) : bool :=
  match mode with SM_NONE | SM_FAILOVER => false | _ => true end.

Definition pick_ref (mode : StickyMode) (l : list Address) (hash : Z) (next : nat) : option Address :=
  match mode with
  | SM_FAILOVER => failover_ref node_check l true
  | SM_NONE => failover_ref node_check (rot next l) true
  | _ => if hash =? 0 then failover_ref node_check (rot next l) false
         else modulo_ref node_check (rot (Z.to_nat (hash mod Z.of_nat (length l))) l)
  end.

Lemma node_check_mono c : node_check c false = true -> node_check c true = true.
Proof.
  unfold node_check, FM_Check. destruct (failures !! c) as [f|]; [|done]. unfold FI_Check. simpl.
  intros E. apply andb_true_iff in E as [E _]. by rewrite E.
Qed.

Lemma pick_ref_usable mode l hash next a b : pick_ref mode l hash next = Some a ->
  b ∈ l -> node_check b false = true -> node_check a true = true.
Proof.
  intros E Hb Hc. pose proof (node_check_mono b Hc) as Hc'. pose proof node_check_mono as Hmono. unfold pick_ref in E.
  assert (Hs : (if hash =? 0 then failover_ref node_check (rot next l) false
         else modulo_ref node_check (rot (Z.to_nat (hash mod Z.of_nat (length l))) l)) = Some a -> node_check a true = true).
  { intros E'. destruct (hash =? 0).
    - apply Hmono. eapply failover_usable; [exact E'|by apply elem_of_rot|done].
    - eapply modulo_usable; [exact Hmono|exact E'|by apply elem_of_rot|done]. }
  destruct mode; try (by apply Hs).
  - eapply failover_usable; [exact E|by apply elem_of_rot|done].
  - by eapply failover_usable.
Qed.

(** Picking a node: with more than one node, [PickGeneric()] returns the first usable
    node of the list, where the list begins with the node that belongs to the
    hash, with the next node of the round-robin balancer, or with the first
    node, according to the mode; in the round-robin case, the balancer goes on
    behind the returned node, and its index stays inside of the list.  Whenever one of the nodes has no failure, the
    chosen one has none either, except that it may be fading.  A single node is returned
    unconditionally. *)
Theorem PickGeneric_spec mode (l : list Address) hash next :
  (next < length l)%nat -> 0 <= hash ->
  exists a next', PickGeneric node_check mode l hash next = Some (a, next') /\
    a ∈ l /\ (next' < length l)%nat /\
    ((2 <= length l)%nat -> pick_ref mode l hash next = Some a) /\
    ((exists b, b ∈ l /\ node_check b false = true) -> (2 <= length l)%nat -> node_check a true = true).
Proof.
  intros Hn Hh. assert (Hmono : forall c, node_check c false = true -> node_check c true = true) by apply node_check_mono.
  enough (exists a next', PickGeneric node_check mode l hash next = Some (a, next') /\
    a ∈ l /\ (next' < length l)%nat /\ ((2 <= length l)%nat -> pick_ref mode l hash next = Some a)) as (a & next' & E & Hin & Hn' & Hr).
  { exists a, next'. split_and!; [done..|]. intros (b & Hb & Hc) Hl. by apply (pick_ref_usable mode l hash next a b (Hr Hl)). }
  destruct l as [|a [|b l]]; [simpl in Hn; lia| |].
  { exists a, next. split_and!; [done|by left|done|simpl; lia]. }
  set (l' := a :: b :: l) in *. assert (Hl : (2 <= length l')%nat) by (simpl; lia).
  assert (Hrr : forall af, exists c next', RR_Get node_check l' af next = Some (c, next') /\
    c ∈ l' /\ (next' < length l')%nat /\ failover_ref node_check (rot next l') af = Some c).
  { intros af. destruct (RR_Get_ref node_check l' af next Hl Hn) as (c & i & E & Hi & Hf & _).
    exists c, (cyclic_next (length l') i). split_and!; [done|by apply list_elem_of_lookup; exists i| |done].
    unfold cyclic_next. destruct (Nat.leb_spec (length l') (S i)); lia. }
  assert (Hmod : forall m, hashed m = true -> exists c next',
    (if negb (hash =? 0) then c ← PickModulo node_check l' hash; Some (c, next) else RR_Get node_check l' false next)
      = Some (c, next') /\ c ∈ l' /\ (next' < length l')%nat /\
    ((2 <= length l')%nat -> (if hash =? 0 then failover_ref node_check (rot next l') false
         else modulo_ref node_check (rot (Z.to_nat (hash mod Z.of_nat (length l'))) l')) = Some c)).
  { intros m _. destruct (hash =? 0); simpl negb; cbv iota.
    - destruct (Hrr false) as (c & n' & ? & ? & ? & ?). by exists c, n'.
    - rewrite PickModulo_ref by done. set (s := Z.to_nat _).
      destruct (modulo_ref_elem node_check (rot s l')) as (c & Hc & Hin).
      { intros E. apply (f_equal length) in E. rewrite rot_length in E. simpl in E. lia. }
      exists c, next. rewrite Hc. split_and!; [done| |done|done].
      unfold rot in Hin. apply elem_of_app in Hin as [Hin|Hin]; [by apply elem_of_drop_sub in Hin|by apply elem_of_take_sub in Hin]. }
  destruct mode; try (apply (Hmod SM_HOST eq_refl)).
  - destruct (Hrr true) as (c & n' & ? & ? & ? & ?). by exists c, n'.
  - destruct (failover_elem node_check l' true ltac:(done)) as (c & Hc & Hin). exists c, next.
    unfold PickGeneric. change (PickFailover node_check l') with (failover_ref node_check l' true). rewrite Hc. by split_and!.
Qed.

End Cluster.

(** ** Examples *)

Module BalancerExamples.

Definition t0 : @Expiry TimePointOps := tp_of_Z 5.

(** Three nodes, the second of which has failed. *)
Definition failures : gmap nat (@Failure TimePointOps) :=
  {[ 2%nat := mkFailure (SetMonitor FailureInfo_new) 1 ]}.

Definition nodes : list nat := [1; 2; 3]%nat.

Lemma PickGeneric_spec_witness :
  exists a next', PickGeneric (node_check t0 failures) SM_NONE nodes 0 1 = Some (a, next') /\
    a ∈ nodes /\ (next' < 3)%nat /\
    ((2 <= 3)%nat -> pick_ref t0 failures SM_NONE nodes 0 1 = Some a) /\
    ((exists b, b ∈ nodes /\ node_check t0 failures b false = true) -> (2 <= 3)%nat ->
     node_check t0 failures a true = true).
Proof. apply (PickGeneric_spec t0 failures SM_NONE nodes 0 1); [simpl; lia|lia]. Defined.

Example pick_skips_failed :
  PickGeneric (node_check t0 failures) SM_NONE nodes 0 1 = Some (3%nat, 0%nat).
Proof. vm_compute. reflexivity. Qed.

Lemma round_robin_fair_witness :
  RR_Gets (fun _ _ => true) 3 nodes true 1 = Some ([2; 3; 1]%nat, 1%nat).
Proof. apply (round_robin_fair (fun _ _ => true) nodes true 1); [simpl; lia|simpl; lia|reflexivity]. Defined.

Lemma failure_status_spec_witness :
  FM_Check t0 2%nat true failures =
    bool_decide (FM_Get t0 2%nat failures = OK \/ (true = true /\ FM_Get t0 2%nat failures = FADE)) /\
  (failed t0 FADE FailureInfo_new = true ->
   (severity FADE <= severity (GetStatus t0 FailureInfo_new))%nat) /\
  (GetStatus t0 FailureInfo_new <> OK -> failed t0 (GetStatus t0 FailureInfo_new) FailureInfo_new = true) /\
  (FADE <> CONNECT -> failed t0 FADE (FI_Set t0 CONNECT 9 FailureInfo_new) = failed t0 FADE FailureInfo_new /\
              (CONNECT <> OK -> failed t0 FADE (FI_Unset CONNECT FailureInfo_new) = failed t0 FADE FailureInfo_new)) /\
  failed t0 FADE (FI_Unset FADE FailureInfo_new) = false /\ GetStatus t0 (FI_Unset OK FailureInfo_new) = OK.
Proof. apply (failure_status_spec t0 2%nat true failures FailureInfo_new FADE CONNECT 9). Defined.

End BalancerExamples.
