(* ===== verification/StrMap.v ===== *)
(** * String maps

    Models src/strmap.hxx and strmap.cxx: the multimap from strings to strings that holds HTTP
    headers, arguments and cookies.  The items are kept in a hash trie, which belongs to a library; a
    [StringMap] is the list of its items in the order of the trie's iterator, and what the
    library decides (where an item is inserted, which one of several items with a key is
    found) is the parameter [TrieOrder].

    The theorem at the end relates the operations to a map from keys to multisets of values. *)

From S2P Require Import Prelude.

Definition StringMap := list (list Z * list Z).

(** The items with a key. *)
Definition has_key (key : list Z) (i : list Z * list Z) : bool := bool_decide (fst i = key).

(** [trie_find] is the position of the item that [find()] returns, [trie_range] the items that
    [equal_range()], [for_each()] and [remove_and_dispose_key()] visit, in this order. *)
Class TrieOrder := {
  trie_find : list Z -> StringMap -> option nat;
  trie_range : list Z -> StringMap -> list (list Z * list Z) }.

Class TrieLaws `{TO : TrieOrder} := {
  trie_find_Some key m i : trie_find key m = Some i -> exists v, m !! i = Some (key, v);
  trie_find_None key m : trie_find key m = None -> List.filter (has_key key) m = [];
  trie_range_perm key m : trie_range key m ≡ₚ List.filter (has_key key) m }.

Section StringMap.
Context `{HS : HashSetOrder} `{TO : TrieOrder}.

Definition StringMap_Add (key value : list Z) (m : StringMap) : StringMap :=
  hs_insert (key, value) m.

(** The constructors which copy the items of a map or of an initializer list. *)
Definition StringMap_copy (src : StringMap) : StringMap :=
  fold_left (fun m i => StringMap_Add (fst i) (snd i) m) src [].

Definition StringMap_copy_checked (src : option StringMap) : StringMap :=
  match src with Some src => StringMap_copy src | None => [] end.

(** [operator=(StringMap &&)] exchanges the items. *)
Definition StringMap_swap (m src : StringMap) : StringMap * StringMap := (src, m).

Definition StringMap_IsEmpty (m : StringMap) : bool := match m with [] => true | _ => false end.

Definition StringMap_Clear (m : StringMap) : StringMap := [].

(** The results of the operations below are the new map and what they return. *)
Definition StringMap_Set (key value : list Z) (m : StringMap) : StringMap * option (list Z) :=
  match trie_find key m with
  | Some i => (alter (fun it => (fst it, value)) i m, snd <$> m !! i)
  | None => (StringMap_Add key value m, None)
  end.

Definition StringMap_Remove (key : list Z) (m : StringMap) : StringMap * option (list Z) :=
  match trie_find key m with
  | Some i => (delete i m, snd <$> m !! i)
  | None => (m, None)
  end.

(** Unlinks all items with a key. *)
Definition remove_key (key : list Z) (m : StringMap) : StringMap :=
  List.filter (fun i => negb (has_key key i)) m.

(** The value of the last item that is disposed of is returned. *)
Definition StringMap_RemoveAll (key : list Z) (m : StringMap) : StringMap * option (list Z) :=
  (remove_key key m, snd <$> last (trie_range key m)).

(** The last item that is disposed of is reused. *)
Definition StringMap_SecureSet (key : list Z) (value : option (list Z)) (m : StringMap) : StringMap :=
  let item := last (trie_range key m) in
  let m := remove_key key m in
  match value with
  | None => m
  | Some value => hs_insert (from_option fst key item, value) m
  end.

Definition StringMap_Get (key : list Z) (m : StringMap) : option (list Z) :=
  i ← trie_find key m; snd <$> m !! i.

Definition StringMap_Contains (key : list Z) (m : StringMap) : bool :=
  bool_decide (is_Some (StringMap_Get key m)).

Definition StringMap_EqualRange (key : list Z) (m : StringMap) : list (list Z * list Z) :=
  trie_range key m.

Definition StringMap_ForEach {A} (key : list Z) (f : A -> list Z -> A) (m : StringMap) (a : A) : A :=
  fold_left (fun a i => f a (snd i)) (trie_range key m) a.

Definition StringMap_CopyFrom (src : StringMap) (key : list Z) (m : StringMap) : StringMap :=
  StringMap_ForEach key (fun m value => StringMap_Add key value m) src m.

Definition StringMap_ListCopyFrom (src : StringMap) (keys : list (list Z)) (m : StringMap) : StringMap :=
  fold_left (fun m key => StringMap_CopyFrom src key m) keys m.

(** [None]: the prefix must not be empty. *)
Definition StringMap_PrefixCopyFrom (src : StringMap) (prefix : list Z) (m : StringMap) : option StringMap :=
  match prefix with
  | [] => None
  | _ => Some (fold_left (fun m i => if bool_decide (prefix `prefix_of` fst i)
                                     then StringMap_Add (fst i) (snd i) m else m) src m)
  end.

(** The result is the merged map and what is left of the other one. *)
Definition StringMap_Merge (m src : StringMap) : StringMap * StringMap :=
  (fold_left (fun m i => hs_insert i m) src m, []).

Definition strmap_new : StringMap := [].
Definition strmap_dup (src : StringMap) : StringMap := StringMap_copy src.

Definition strmap_get_checked (m : option StringMap) (key : list Z) : option (list Z) :=
  match m with Some m => StringMap_Get key m | None => None end.

End StringMap.

(** ** Multimaps *)

(** The values of a key; their order does not matter. *)
Definition values (key : list Z) (m : StringMap) : list (list Z) := snd <$> List.filter (has_key key) m.

Lemma has_key_true key i : has_key key i = true <-> fst i = key.
Proof. apply bool_decide_eq_true. Qed.

Lemma has_key_false key i : has_key key i = false <-> fst i <> key.
Proof. apply bool_decide_eq_false. Qed.

#[export] Instance values_proper key : Proper ((≡ₚ) ==> (≡ₚ)) (values key).
Proof.
  intros m m' H. unfold values. apply fmap_Permutation.
  induction H as [|x l l' H IH|x y l|l1 l2 l3 H1 IH1 H2 IH2]; simpl; [done| | |by etrans].
  - destruct (has_key key x); [by apply perm_skip|done].
  - destruct (has_key key x), (has_key key y); try reflexivity. apply perm_swap.
Qed.

Lemma values_cons key k v m :
  values key ((k, v) :: m) = if decide (k = key) then v :: values key m else values key m.
Proof.
  unfold values, has_key. simpl.
  by destruct (decide (k = key)); [rewrite bool_decide_eq_true_2|rewrite bool_decide_eq_false_2].
Qed.

Lemma values_app key m m' : values key (m ++ m') = values key m ++ values key m'.
Proof. unfold values. by rewrite List.filter_app, fmap_app. Qed.

Lemma values_nil_filter key m : values key m = [] <-> List.filter (has_key key) m = [].
Proof. unfold values. split; [apply fmap_nil_inv|by intros ->]. Qed.

Lemma elem_of_values key v m : v ∈ values key m <-> (key, v) ∈ m.
Proof.
  unfold values. rewrite list_elem_of_fmap. split.
  - intros ([k w] & -> & H). apply elem_of_bfilter in H as [H E]. apply has_key_true in E. simpl in *. by subst.
  - intros H. exists (key, v). split; [done|]. apply elem_of_bfilter. split; [done|]. by apply has_key_true.
Qed.

Lemma values_remove_key key k m : values k (remove_key key m) = if decide (k = key) then [] else values k m.
Proof.
  unfold remove_key. induction m as [|[k' v] m IH]; [by destruct (decide (k = key))|].
  simpl. rewrite values_cons. unfold has_key at 1. simpl.
  destruct (decide (k' = key)) as [->|Hk];
    [rewrite bool_decide_eq_true_2 by done|rewrite bool_decide_eq_false_2 by done]; simpl;
    [rewrite IH|rewrite values_cons, IH].
  - destruct (decide (k = key)) as [->|Hne]; [done|]. by rewrite decide_False by congruence.
  - destruct (decide (k' = k)) as [->|Hk']; [by rewrite !decide_False by congruence|done].
Qed.

(** A map from keys to the values that they have. *)
Definition multimap := list Z -> list (list Z).

Definition mm_set (key : list Z) (vs : list (list Z)) (a : multimap) : multimap :=
  fun k => if decide (k = key) then vs else a k.

Definition holds (m : StringMap) (a : multimap) : Prop := forall k, values k m ≡ₚ a k.

Inductive smop :=
| SmClear
| SmAdd (key value : list Z)
| SmSet (key value : list Z)
| SmRemove (key : list Z)
| SmRemoveAll (key : list Z)
| SmSecureSet (key : list Z) (value : option (list Z))
| SmCopyFrom (src : StringMap) (key : list Z)
| SmListCopyFrom (src : StringMap) (keys : list (list Z))
| SmPrefixCopyFrom (src : StringMap) (prefix : list Z)
| SmMerge (src : StringMap)
(** [operator=] with a map that is moved *)
| SmSwap (src : StringMap)
| SmIsEmpty
| SmGet (key : list Z)
| SmContains (key : list Z)
| SmEqualRange (key : list Z)
(** what the callback of [ForEach()] is called with *)
| SmForEach (key : list Z)
(** the constructors that copy a map, and [strmap_dup()] *)
| SmCopy
| SmDup.

Inductive smresult :=
| RUnit
| RValue (value : option (list Z))
| RBool (b : bool)
| RItems (items : list (list Z * list Z))
| RValues (vs : list (list Z))
| RMap (m : StringMap).

(** All copies of the values of a key, once for each time that it is in the list. *)
Fixpoint copies (key : list Z) (keys : list (list Z)) (vs : list (list Z)) : list (list Z) :=
  match keys with
  | [] => []
  | k :: keys' => if decide (k = key) then vs ++ copies key keys' vs else copies key keys' vs
  end.

(** What the operations do to a multimap, and what they may return. *)
Inductive smstep (a : multimap) : smop -> smresult -> multimap -> Prop :=
| StClear : smstep a SmClear RUnit (fun _ => [])
| StAdd k v : smstep a (SmAdd k v) RUnit (mm_set k (v :: a k) a)
| StSet k v old rest : a k ≡ₚ old :: rest -> smstep a (SmSet k v) (RValue (Some old)) (mm_set k (v :: rest) a)
| StSet_new k v : a k = [] -> smstep a (SmSet k v) (RValue None) (mm_set k [v] a)
| StRemove k old rest : a k ≡ₚ old :: rest -> smstep a (SmRemove k) (RValue (Some old)) (mm_set k rest a)
| StRemove_none k : a k = [] -> smstep a (SmRemove k) (RValue None) a
| StRemoveAll k v : v ∈ a k -> smstep a (SmRemoveAll k) (RValue (Some v)) (mm_set k [] a)
| StRemoveAll_none k : a k = [] -> smstep a (SmRemoveAll k) (RValue None) a
| StSecureSet k v : smstep a (SmSecureSet k v) RUnit (mm_set k (option_list v) a)
| StCopyFrom src k : smstep a (SmCopyFrom src k) RUnit (mm_set k (values k src ++ a k) a)
| StListCopyFrom src keys : smstep a (SmListCopyFrom src keys) RUnit (fun k => copies k keys (values k src) ++ a k)
| StPrefixCopyFrom src prefix : prefix <> [] -> smstep a (SmPrefixCopyFrom src prefix) RUnit
    (fun k => if decide (prefix `prefix_of` k) then values k src ++ a k else a k)
| StMerge src : smstep a (SmMerge src) (RMap []) (fun k => values k src ++ a k)
| StSwap src m : holds m a -> smstep a (SmSwap src) (RMap m) (fun k => values k src)
| StIsEmpty b : b = true <-> (forall k, a k = []) -> smstep a SmIsEmpty (RBool b) a
| StGet k v : v ∈ a k -> smstep a (SmGet k) (RValue (Some v)) a
| StGet_none k : a k = [] -> smstep a (SmGet k) (RValue None) a
| StContains k b : b = true <-> a k <> [] -> smstep a (SmContains k) (RBool b) a
| StEqualRange k items : items ≡ₚ map (pair k) (a k) -> smstep a (SmEqualRange k) (RItems items) a
| StForEach k vs : vs ≡ₚ a k -> smstep a (SmForEach k) (RValues vs) a
| StCopy m : holds m a -> smstep a SmCopy (RMap m) a
| StDup m : holds m a -> smstep a SmDup (RMap m) a.

Section Facts.
Context `{HS : HashSetOrder} `{TL : TrieLaws}.

(** [None]: the prefix is empty. *)
Definition run_smop (op : smop) (m : StringMap) : option (StringMap * smresult) :=
  match op with
  | SmClear => Some (StringMap_Clear m, RUnit)
  | SmAdd k v => Some (StringMap_Add k v m, RUnit)
  | SmSet k v => let '(m', r) := StringMap_Set k v m in Some (m', RValue r)
  | SmRemove k => let '(m', r) := StringMap_Remove k m in Some (m', RValue r)
  | SmRemoveAll k => let '(m', r) := StringMap_RemoveAll k m in Some (m', RValue r)
  | SmSecureSet k v => Some (StringMap_SecureSet k v m, RUnit)
  | SmCopyFrom src k => Some (StringMap_CopyFrom src k m, RUnit)
  | SmListCopyFrom src keys => Some (StringMap_ListCopyFrom src keys m, RUnit)
  | SmPrefixCopyFrom src prefix => m' ← StringMap_PrefixCopyFrom src prefix m; Some (m', RUnit)
  | SmMerge src => let '(m', src') := StringMap_Merge m src in Some (m', RMap src')
  | SmSwap src => let '(m', src') := StringMap_swap m src in Some (m', RMap src')
  | SmIsEmpty => Some (m, RBool (StringMap_IsEmpty m))
  | SmGet k => Some (m, RValue (StringMap_Get k m))
  | SmContains k => Some (m, RBool (StringMap_Contains k m))
  | SmEqualRange k => Some (m, RItems (StringMap_EqualRange k m))
  | SmForEach k => Some (m, RValues (StringMap_ForEach k (fun l value => l ++ [value]) m []))
  | SmCopy => Some (m, RMap (StringMap_copy m))
  | SmDup => Some (m, RMap (strmap_dup m))
  end.

Lemma values_Add k key v m :
  values k (StringMap_Add key v m) ≡ₚ if decide (key = k) then v :: values k m else values k m.
Proof. unfold StringMap_Add. by rewrite hs_insert_perm, values_cons. Qed.

Lemma Get_Some key m v : StringMap_Get key m = Some v -> v ∈ values key m.
Proof.
  unfold StringMap_Get. destruct (trie_find key m) as [i|] eqn:E; [|done]. simpl.
  apply trie_find_Some in E as [w E]. rewrite E. intros [= <-]. apply elem_of_values.
  by apply list_elem_of_lookup_2 in E.
Qed.

Lemma Get_None key m : StringMap_Get key m = None <-> values key m = [].
Proof.
  unfold StringMap_Get. rewrite values_nil_filter. destruct (trie_find key m) as [i|] eqn:E; simpl.
  - apply trie_find_Some in E as [w E]. rewrite E. split; [done|]. intros F.
    assert (H : (key, w) ∈ List.filter (has_key key) m).
    { apply elem_of_bfilter. split; [by apply list_elem_of_lookup_2 in E|by apply has_key_true]. }
    rewrite F in H. by apply elem_of_nil in H.
  - split; [|done]. intros _. by apply trie_find_None.
Qed.

(** The item that [find()] returns splits the map. *)
Lemma find_split key m i : trie_find key m = Some i ->
  exists v m1 m2, m !! i = Some (key, v) /\ m = m1 ++ (key, v) :: m2 /\ i = length m1 /\
    values key m ≡ₚ v :: values key (m1 ++ m2).
Proof.
  intros E. apply trie_find_Some in E as [v E]. pose proof E as El.
  apply list_elem_of_split_length in E as (m1 & m2 & -> & ->).
  exists v, m1, m2. split; [done|]. split; [done|]. split; [done|]. rewrite !values_app, values_cons, decide_True by done.
  by rewrite Permutation_middle.
Qed.

Lemma fold_Add l m k :
  values k (fold_left (fun m i => StringMap_Add (fst i) (snd i) m) l m) ≡ₚ values k l ++ values k m.
Proof.
  revert m. induction l as [|[k' v] l IH]; intros m; simpl; [done|].
  rewrite IH, values_Add, values_cons. destruct (decide (k' = k)); [|done].
  by rewrite <-Permutation_middle.
Qed.

Lemma values_copy k src : values k (StringMap_copy src) ≡ₚ values k src.
Proof. unfold StringMap_copy. rewrite fold_Add. by rewrite app_nil_r. Qed.

Lemma values_CopyFrom k src key m :
  values k (StringMap_CopyFrom src key m) ≡ₚ
    if decide (k = key) then values k src ++ values k m else values k m.
Proof.
  unfold StringMap_CopyFrom, StringMap_ForEach.
  assert (H : forall (l : StringMap) m, values k (fold_left (fun m i => StringMap_Add key (snd i) m) l m) ≡ₚ
    if decide (k = key) then (snd <$> l) ++ values k m else values k m).
  { intros l. induction l as [|i l IH]; intros m'; simpl; [by destruct (decide _)|].
    rewrite IH. destruct (decide (k = key)) as [->|Hk]; rewrite values_Add.
    - rewrite decide_True by done. by rewrite <-Permutation_middle.
    - by rewrite decide_False by congruence. }
  rewrite H. destruct (decide (k = key)) as [->|]; [|done]. unfold values at 2. by rewrite trie_range_perm.
Qed.

Lemma values_Remove k key m :
  values k (fst (StringMap_Remove key m)) ≡ₚ if decide (k = key) then values k (fst (StringMap_Remove key m)) else values k m.
Proof.
  unfold StringMap_Remove. destruct (trie_find key m) as [i|] eqn:E; simpl; [|by destruct (decide _)].
  destruct (decide (k = key)); [done|]. destruct (find_split key m i E) as (w & m1 & m2 & _ & -> & -> & _).
  rewrite (delete_middle m1). by rewrite !values_app, values_cons, decide_False by congruence.
Qed.

(** What [Remove] returns is one of the values, and the one that is gone. *)
Lemma Remove_result key m : match snd (StringMap_Remove key m) with
  | Some old => values key m ≡ₚ old :: values key (fst (StringMap_Remove key m))
  | None => values key m = [] /\ fst (StringMap_Remove key m) = m
  end.
Proof.
  unfold StringMap_Remove. destruct (trie_find key m) as [i|] eqn:E; simpl.
  - destruct (find_split key m i E) as (w & m1 & m2 & El & -> & -> & Hp).
    rewrite El. by rewrite (delete_middle m1).
  - split; [|done]. by apply values_nil_filter, trie_find_None.
Qed.

Lemma alter_middle {A} (f : A -> A) (l1 l2 : list A) x :
  alter f (length l1) (l1 ++ x :: l2) = l1 ++ f x :: l2.
Proof. rewrite alter_app_r_alt by lia. by rewrite Nat.sub_diag. Qed.

(** [Set] removes a value and adds the new one. *)
Lemma Set_Remove key v m : snd (StringMap_Set key v m) = snd (StringMap_Remove key m) /\
  fst (StringMap_Set key v m) ≡ₚ (key, v) :: fst (StringMap_Remove key m).
Proof.
  unfold StringMap_Set, StringMap_Remove. destruct (trie_find key m) as [i|] eqn:E; simpl.
  - split; [done|]. destruct (find_split key m i E) as (w & m1 & m2 & _ & -> & -> & _).
    rewrite (delete_middle m1). etransitivity; [apply reflexive_eq, alter_middle|].
    by rewrite Permutation_middle.
  - split; [done|]. apply hs_insert_perm.
Qed.

Lemma values_Set k key v m : values k (fst (StringMap_Set key v m)) ≡ₚ
  if decide (k = key) then v :: values k (fst (StringMap_Remove key m)) else values k m.
Proof.
  rewrite (proj2 (Set_Remove key v m)), values_cons. destruct (decide (k = key)) as [->|Hk].
  - by rewrite decide_True.
  - rewrite decide_False by congruence. by rewrite values_Remove, decide_False.
Qed.

Lemma values_SecureSet k key v m :
  values k (StringMap_SecureSet key v m) ≡ₚ if decide (k = key) then option_list v else values k m.
Proof.
  unfold StringMap_SecureSet.
  assert (Hk : from_option fst key (last (trie_range key m)) = key).
  { destruct (last (trie_range key m)) as [i|] eqn:E; [|done]. simpl. apply last_Some_elem_of in E.
    rewrite trie_range_perm in E. apply elem_of_bfilter in E as [_ E]. by apply has_key_true. }
  rewrite Hk. destruct v as [v|]; simpl; [|by rewrite values_remove_key].
  rewrite hs_insert_perm, values_cons, values_remove_key.
  destruct (decide (k = key)) as [->|Hne]; [by rewrite decide_True by done|].
  by rewrite decide_False by congruence.
Qed.

Lemma values_Merge k m src : values k (fst (StringMap_Merge m src)) ≡ₚ values k src ++ values k m.
Proof.
  unfold StringMap_Merge. simpl. rewrite <-fold_Add. apply values_proper. clear.
  revert m. induction src as [|[k v] src IH]; intros m; simpl; [done|]. apply IH.
Qed.

Lemma RemoveAll_result key m : StringMap_RemoveAll key m = (remove_key key m, None) /\ values key m = [] \/
  exists v, StringMap_RemoveAll key m = (remove_key key m, Some v) /\ v ∈ values key m.
Proof.
  unfold StringMap_RemoveAll. destruct (last (trie_range key m)) as [[k v]|] eqn:E; simpl.
  - right. exists v. split; [done|]. apply last_Some_elem_of in E. rewrite trie_range_perm in E.
    unfold values. apply list_elem_of_fmap. by exists (k, v).
  - left. split; [done|]. apply last_None in E. apply values_nil_filter.
    pose proof (trie_range_perm key m) as H. rewrite E in H. by apply Permutation_nil_l in H.
Qed.

Lemma holds_set m m' a key vs : holds m a -> values key m' ≡ₚ vs ->
  (forall k, k <> key -> values k m' ≡ₚ values k m) -> holds m' (mm_set key vs a).
Proof.
  intros H H1 H2 k. unfold mm_set. destruct (decide (k = key)) as [->|Hk]; [done|].
  rewrite H2 by done. apply H.
Qed.

Lemma holds_nil m a k : holds m a -> values k m = [] -> a k = [].
Proof. intros H E. specialize (H k). rewrite E in H. by apply Permutation_nil_l in H. Qed.

Lemma values_ListCopyFrom k src keys m :
  values k (StringMap_ListCopyFrom src keys m) ≡ₚ copies k keys (values k src) ++ values k m.
Proof.
  unfold StringMap_ListCopyFrom. revert m. induction keys as [|key keys IH]; intros m; simpl; [done|].
  rewrite IH, values_CopyFrom. destruct (decide (key = k)) as [->|Hk].
  - rewrite decide_True by done. rewrite app_assoc. by rewrite (Permutation_app_comm (copies k keys _)).
  - by rewrite decide_False by congruence.
Qed.

Lemma values_PrefixCopyFrom k src prefix m m' : StringMap_PrefixCopyFrom src prefix m = Some m' ->
  values k m' ≡ₚ if decide (prefix `prefix_of` k) then values k src ++ values k m else values k m.
Proof.
  unfold StringMap_PrefixCopyFrom. destruct prefix as [|x p]; [done|]. set (prefix := x :: p). intros [= <-].
  revert m. induction src as [|[k' v] src IH]; intros m; simpl; [by destruct (decide _)|].
  rewrite IH, values_cons. destruct (decide (k' = k)) as [->|Hk].
  - destruct (decide (prefix `prefix_of` k)); [rewrite bool_decide_eq_true_2 by done|by rewrite bool_decide_eq_false_2 by done].
    rewrite values_Add, decide_True by done. by rewrite <-Permutation_middle.
  - destruct (bool_decide (prefix `prefix_of` k')); [|done]. destruct (decide (prefix `prefix_of` k)); rewrite values_Add; by rewrite (decide_False (P := k' = k)).
Qed.

Lemma range_values k m : snd <$> trie_range k m ≡ₚ values k m.
Proof. unfold values. by rewrite trie_range_perm. Qed.

(** The items with a key, and their values. *)
Lemma range_items k m : trie_range k m ≡ₚ map (pair k) (values k m).
Proof.
  rewrite trie_range_perm. apply reflexive_eq. unfold values. induction m as [|[k' v] m IH]; simpl; [done|].
  destruct (has_key k (k', v)) eqn:E; [|exact IH]. apply has_key_true in E. simpl in E. subst k'. simpl. f_equal. exact IH.
Qed.

Lemma ForEach_values k m : StringMap_ForEach k (fun l value => l ++ [value]) m [] = snd <$> trie_range k m.
Proof.
  unfold StringMap_ForEach. assert (H : forall (l : StringMap) acc, fold_left (fun (a : list (list Z)) i => a ++ [snd i]) l acc = acc ++ (snd <$> l)).
  { induction l as [|i l IH]; intros acc; simpl; [by rewrite app_nil_r|]. by rewrite IH, <-app_assoc. }
  apply H.
Qed.

Lemma IsEmpty_holds m a : holds m a -> StringMap_IsEmpty m = true <-> forall k, a k = [].
Proof.
  intros H. split.
  - destruct m; [|done]. intros _ k. by apply (holds_nil [] a k H).
  - intros Hk. destruct m as [|[k v] m]; [done|]. specialize (H k). rewrite Hk, values_cons, decide_True in H by done.
    symmetry in H. by apply Permutation_nil_cons in H.
Qed.

Lemma Contains_holds k m a : holds m a -> StringMap_Contains k m = true <-> a k <> [].
Proof.
  intros H. unfold StringMap_Contains. rewrite bool_decide_eq_true, <-not_eq_None_Some, Get_None.
  specialize (H k). split; intros Hn E; apply Hn; [|by rewrite E in H; apply Permutation_nil_l in H].
  rewrite E in H. symmetry in H. by apply Permutation_nil_l in H.
Qed.

(** C33: Refinement: a string map implements a map from keys to multisets of values: the operations that modify it change
    the values of the given keys only, [Set] replaces exactly one of them, [SecureSet] all of them, the copying
    operations add exactly the values of the keys (with the prefix) that they name; what the lookups return are these
    values, and a copied map has the same ones.  The only failure is the assertion about an empty prefix. *)
Theorem strmap_refines m a op : holds m a ->
  match run_smop op m with
  | Some (m', r) => exists a', smstep a op r a' /\ holds m' a'
  | None => exists src, op = SmPrefixCopyFrom src []
  end.
Proof.
  intros Hm. destruct op as [|k v|k v|k|k|k v|src k|src keys|src prefix|src|src| |k|k|k|k| |]; cbn [run_smop].
  - exists (fun _ => []). split; [apply StClear|]. intros k. done.
  - eexists. split; [constructor|]. eapply holds_set; [done| |]; intros; rewrite values_Add.
    + rewrite decide_True by done. by rewrite (Hm k).
    + by rewrite decide_False by congruence.
  - rewrite (surjective_pairing (StringMap_Set k v m)), (proj1 (Set_Remove k v m)). pose proof (Remove_result k m) as Hr.
    destruct (snd (StringMap_Remove k m)) as [old|].
    + eexists. split; [apply StSet; rewrite <-(Hm k); exact Hr|].
      eapply holds_set; [done| |]; intros; rewrite values_Set; [by rewrite decide_True|by rewrite decide_False].
    + destruct Hr as [E Hr]. eexists. split; [apply StSet_new; by eapply holds_nil|].
      eapply holds_set; [done| |]; intros; rewrite values_Set;
        [by rewrite decide_True, Hr, E|by rewrite decide_False].
  - rewrite (surjective_pairing (StringMap_Remove k m)). pose proof (Remove_result k m) as Hr.
    destruct (snd (StringMap_Remove k m)) as [old|].
    + eexists. split; [apply StRemove; rewrite <-(Hm k); exact Hr|]. eapply holds_set; [done|done|].
      intros k' Hk. by rewrite values_Remove, decide_False.
    + destruct Hr as [E ->]. exists a. split; [apply StRemove_none; by eapply holds_nil|done].
  - destruct (RemoveAll_result k m) as [[-> E]|(v & -> & Hv)].
    + exists a. split; [apply StRemoveAll_none; by eapply holds_nil|]. intros k'.
      rewrite values_remove_key. destruct (decide (k' = k)) as [->|]; [|done]. by rewrite <-(Hm k), E.
    + eexists. split; [apply (StRemoveAll _ _ v); by rewrite <-(Hm k)|]. eapply holds_set; [done| |];
        intros; rewrite values_remove_key; [by rewrite decide_True|by rewrite decide_False].
  - eexists. split; [constructor|]. eapply holds_set; [done| |]; intros; rewrite values_SecureSet;
      [by rewrite decide_True|by rewrite decide_False].
  - eexists. split; [constructor|]. eapply holds_set; [done| |]; intros; rewrite values_CopyFrom;
      [by rewrite decide_True, (Hm k)|by rewrite decide_False].
  - eexists. split; [constructor|]. intros k. by rewrite values_ListCopyFrom, (Hm k).
  - destruct (StringMap_PrefixCopyFrom src prefix m) as [m'|] eqn:E; cbn [mbind option_bind].
    + eexists. split; [apply StPrefixCopyFrom; by intros ->|]. intros k.
      rewrite (values_PrefixCopyFrom k src prefix m m' E). destruct (decide _); by rewrite (Hm k).
    + exists src. by destruct prefix.
  - eexists. split; [constructor|]. intros k. etransitivity; [apply (values_Merge k m src)|]. by rewrite (Hm k).
  - exists (fun k => values k src). split; [by apply StSwap|]. intros k. reflexivity.
  - exists a. split; [constructor; by apply IsEmpty_holds|done].
  - exists a. split; [|done]. destruct (StringMap_Get k m) as [v|] eqn:E.
    + apply StGet. rewrite <-(Hm k). by apply Get_Some.
    + apply StGet_none. apply Get_None in E. by eapply holds_nil.
  - exists a. split; [constructor; by apply Contains_holds|done].
  - exists a. split; [constructor|done]. unfold StringMap_EqualRange. by rewrite range_items, (Hm k).
  - exists a. split; [constructor|done]. by rewrite ForEach_values, range_values, (Hm k).
  - exists a. split; [constructor|done]. intros k. by rewrite values_copy, (Hm k).
  - exists a. split; [constructor|done]. intros k. unfold strmap_dup. by rewrite values_copy, (Hm k).
Qed.

End Facts.

(** ** A concrete trie *)

Module ListTrie.

#[export] Instance front : HashSetOrder := {
  hs_insert A x l := x :: l;
  hs_insert_perm A x l := reflexivity _ }.

#[export] Instance first_match : TrieOrder := {
  trie_find key := find_index (has_key key);
  trie_range key := List.filter (has_key key) }.

#[export] Instance first_match_laws : TrieLaws.
Proof.
  split.
  - intros key m i E. apply find_index_Some in E as ([k v] & El & Hk & _).
    apply has_key_true in Hk. simpl in Hk. subst. by exists v.
  - intros key m E. destruct (List.filter (has_key key) m) as [|x l] eqn:F; [done|].
    assert (H : x ∈ List.filter (has_key key) m) by (rewrite F; left).
    apply elem_of_bfilter in H as [Hx Hk]. by rewrite (find_index_None _ _ E x Hx) in Hk.
  - reflexivity.
Defined.

(** Replacing the two values of a header that a client has sent, and copying those with a prefix. *)
Definition headers : StringMap := [(str "a", str "1"); (str "x", str "2"); (str "a", str "3")].

Definition more : StringMap := [(str "x-1", str "4"); (str "y", str "5"); (str "x-2", str "6")].

Lemma strmap_refines_witness :
  (exists a', smstep (fun k => values k headers) (SmSecureSet (str "a") (Some (str "4"))) RUnit a' /\
    holds [(str "a", str "4"); (str "x", str "2")] a') /\
  (exists a', smstep (fun k => values k headers) (SmPrefixCopyFrom more (str "x-")) RUnit a' /\
    holds ([(str "x-2", str "6"); (str "x-1", str "4")] ++ headers) a').
Proof.
  split.
  - pose proof (strmap_refines headers (fun k => values k headers) (SmSecureSet (str "a") (Some (str "4")))) as H.
    apply H. intros k. reflexivity.
  - pose proof (strmap_refines headers (fun k => values k headers) (SmPrefixCopyFrom more (str "x-"))) as H.
    apply H. intros k. reflexivity.
Defined.

End ListTrie.
