(* ===== verification/Uri.v ===== *)
(** * Operations on URIs

    The functions of src/uri/: splitting and recomposing request URIs (Dissect.cxx,
    Recompose.cxx), path compression (PRelative.cxx, PNormalize.cxx), relative and base URIs
    (Relative.cxx, Base.cxx), query strings (PEdit.cxx), the arguments of beng-proxy URIs
    (Args.cxx, PEscape.cxx), relocation of redirects (Relocate.cxx) and the comparison with an
    escaped suffix (Compare.cxx).

    A C string is the list of its bytes without the terminator, so that reading at its end
    yields 0; a pointer into it is an offset.  A [std::string_view] that may be null is an
    [option].  The string and URI functions of the library are the class [UriLib]; what is
    documented about them is [UriLaws]. *)

From Stdlib Require Import String.
From S2P Require Import Prelude StrMap.

Class UriLib := {
  (** util/StringSplit.hxx: what is before and after the first separator; the second part is
      null if there is none *)
  Split : list Z -> Z -> list Z * option (list Z);
  Partition : list Z -> nat -> list Z * list Z;
  (** util/IterableSplitString.hxx *)
  IterableSplitString : list Z -> Z -> list (list Z);
  (** util/StringCompare.hxx *)
  StringEndsWith : list Z -> list Z -> bool;
  StringAfterPrefix : list Z -> list Z -> option (list Z);
  RemoveSuffix : list Z -> list Z -> option (list Z);
  (** util/HexParse.hxx *)
  ParseHexDigit : Z -> Z;
  (** uri/Verify.hxx, uri/Extract.hxx *)
  uri_path_verify : list Z -> bool;
  UriHasScheme : list Z -> bool;
  UriAfterScheme : list Z -> option (list Z);
  UriPathQueryFragment : list Z -> option nat;
  UriHostAndPort : list Z -> option (nat * nat);
  (** uri/Escape.hxx, uri/Unescape.hxx: what is written to the destination *)
  UriEscape : list Z -> Z -> list Z;
  UriUnescape : list Z -> Z -> option (list Z) }.

Class UriLaws `{UL : UriLib} := {
  Split_found a c b : c ∉ a -> Split (a ++ c :: b) c = (a, Some b);
  Split_missing s c : c ∉ s -> Split s c = (s, None);
  Partition_spec s n : Partition s n = (take n s, drop n s);
  StringEndsWith_spec s suffix : StringEndsWith s suffix = bool_decide (suffix `suffix_of` s);
  StringAfterPrefix_found p s : StringAfterPrefix (p ++ s) p = Some s;
  StringAfterPrefix_missing s p : ~ p `prefix_of` s -> StringAfterPrefix s p = None;
  IterableSplit_one s c : c ∉ s -> IterableSplitString s c = [s];
  IterableSplit_cons a c b :
    c ∉ a -> IterableSplitString (a ++ c :: b) c = a :: IterableSplitString b c;
  UriEscape_length s c : (length (UriEscape s c) <= 3 * length s)%nat;
  UriEscape_safe s : chr "&" ∉ UriEscape s (chr "$");
  UriUnescape_escape s :
    Forall is_byte s -> UriUnescape (UriEscape s (chr "$")) (chr "$") = Some s }.

(** ** Strings of the C library *)

(** The character at an offset, where the end of the string is the null byte. *)
Definition cstr_at (s : list Z) (i : nat) : Z := default 0 (s !! i).

Fixpoint starts_with (s p : list Z) {struct p} : bool :=
  match p, s with
  | [], _ => true
  | _ :: _, [] => false
  | x :: p', y :: s' => (x =? y) && starts_with s' p'
  end.

Fixpoint strstr (s p : list Z) : option nat :=
  if starts_with s p then Some O
  else match s with [] => None | _ :: s' => S <$> strstr s' p end.

Definition strchr (s : list Z) (c : Z) : option nat := find_index (Z.eqb c) s.

Fixpoint strrchr (s : list Z) (c : Z) : option nat :=
  match s with
  | [] => None
  | x :: s' => match strrchr s' c with
               | Some i => Some (S i)
               | None => if x =? c then Some O else None
               end
  end.

(** [memmove(s + i, s + j, strlen(s + j) + 1)] with [i <= j]. *)
Definition move_down (s : list Z) (i j : nat) : list Z := take i s ++ drop j s.

Section Uri.
Context `{UL : UriLib}.

(** ** Dissect.cxx, Recompose.cxx *)

Record DissectedUri := mkDissected {
  base : list Z;
  args : option (list Z);
  path_info : option (list Z);
  query : option (list Z) }.

(** [None] is the return value [false]. *)
Definition Parse (src : list Z) : option DissectedUri :=
  let '(before_query, _query) := Split src (chr "?") in
  let '(before_args, args_and_path_info) := Split before_query (chr ";") in
  if negb (uri_path_verify before_args) then None
  else
    match strchr (default [] args_and_path_info) (chr "/") with
    | Some slash =>
        let '(_args, _path_info) := Partition (default [] args_and_path_info) slash in
        Some (mkDissected before_args (Some _args) (Some _path_info) _query)
    | None => Some (mkDissected before_args args_and_path_info None _query)
    end.

Definition RecomposeUri (uri : DissectedUri) : list Z :=
  base uri ++ (match args uri with None => [] | Some _ => str ";" end) ++ default [] (args uri) ++
  default [] (path_info uri) ++ (match query uri with None => [] | Some _ => str "?" end) ++
  default [] (query uri).

(** ** PRelative.cxx, PNormalize.cxx *)

(** [while (uri[0] == '.' && uri[1] == '/') uri += 2;] *)
Fixpoint skip_dot_slash (uri : list Z) : list Z :=
  match uri with
  | x :: (y :: uri') as uri1 =>
      if (x =? chr ".") && (y =? chr "/") then skip_dot_slash uri' else uri
  | _ => uri
  end.

(** [while ((p = strstr(dest, pattern)) != nullptr)
      memmove(p + 1, p + k, strlen(p + k) + 1);] *)
Fixpoint eliminate (fuel : nat) (pattern : list Z) (k : nat) (dest : list Z) : list Z :=
  match fuel with
  | O => dest
  | S fuel' =>
      match strstr dest pattern with
      | None => dest
      | Some p => eliminate fuel' pattern k (move_down dest (p + 1) (p + k))
      end
  end.

(** [do { --q; } while (q >= dest && *q != '/');] the result is [q + 1]. *)
Fixpoint backtrack (dest : list Z) (q : nat) : nat :=
  match q with
  | O => O
  | S q' => if cstr_at dest q' =? chr "/" then S q' else backtrack dest q'
  end.

(** The loop that eliminates "/../"; [None] is [return nullptr]. *)
Fixpoint eliminate_parent (fuel : nat) (dest : list Z) : option (list Z) :=
  match fuel with
  | O => Some dest
  | S fuel' =>
      match strstr dest (str "/../") with
      | None => Some dest
      | Some O => None
      | Some p => eliminate_parent fuel' (move_down dest (backtrack dest p) (p + 4))
      end
  end.

Definition uri_compress_tail (dest : list Z) : option (list Z) :=
  let finish dest := Some (if bool_decide (dest = str ".") then [] else dest) in
  match strrchr dest (chr "/") with
  | None => finish dest
  | Some p =>
      if (cstr_at dest (p + 1) =? chr ".") && (cstr_at dest (p + 2) =? 0) then finish (take (p + 1) dest)
      else if (cstr_at dest (p + 1) =? chr ".") && (cstr_at dest (p + 2) =? chr ".")
              && (cstr_at dest (p + 3) =? 0) then
        match p with
        | O => None
        | _ =>
            let dest := take p dest in
            match strrchr dest (chr "/") with
            | None => Some []
            | Some p => finish (take (p + 1) dest)
            end
        end
      else finish dest
  end.

Definition uri_compress (uri : list Z) : option (list Z) :=
  let uri := skip_dot_slash uri in
  if (cstr_at uri 0 =? chr ".") && (cstr_at uri 1 =? chr ".") &&
     ((cstr_at uri 2 =? chr "/") || (cstr_at uri 2 =? 0)) then None
  else if bool_decide (strstr uri (str "//") = None) &&
          bool_decide (strstr uri (str "/./") = None) &&
          bool_decide (strstr uri (str "/..") = None) &&
          negb (StringEndsWith uri (str "/.")) then Some uri
  else
    let dest := eliminate (length uri) (str "//") 2 uri in
    let dest := eliminate (length dest) (str "/./") 3 dest in
    match eliminate_parent (length dest) dest with
    | None => None
    | Some dest => uri_compress_tail dest
    end.

Definition NormalizeUriPath (uri : list Z) : list Z :=
  let uri := skip_dot_slash uri in
  if bool_decide (uri = str ".") then []
  else if bool_decide (strstr uri (str "//") = None) &&
          bool_decide (strstr uri (str "/./") = None) &&
          negb (StringEndsWith uri (str "/.")) then uri
  else
    let dest := eliminate (length uri) (str "//") 2 uri in
    let dest := eliminate (length dest) (str "/./") 3 dest in
    let dest := match strrchr dest (chr "/") with
                | None => dest
                | Some p =>
                    if (cstr_at dest (p + 1) =? chr ".") && (cstr_at dest (p + 2) =? 0)
                    then take (p + 1) dest else dest
                end in
    if bool_decide (dest = str ".") then [] else dest.

Definition uri_after_last_slash (uri : list Z) : option nat :=
  match UriPathQueryFragment uri with
  | None => None
  | Some path => (fun i => path + i + 1)%nat <$> strrchr (drop path uri) (chr "/")
  end.

Definition uri_absolute (base uri : list Z) : list Z :=
  if bool_decide (uri = []) then base
  else if UriHasScheme uri then uri
  else if starts_with uri (str "//") then
    take (match strstr base (str "://") with Some colon => colon + 1 | None => 0 end)%nat base ++ uri
  else if cstr_at uri 0 =? chr "/" then
    if (cstr_at base 0 =? chr "/") && negb (cstr_at base 1 =? chr "/") then uri
    else match UriPathQueryFragment base with
         | None => base ++ uri
         | Some base_path => take base_path base ++ uri
         end
  else if cstr_at uri 0 =? chr "?" then
    take (match strchr base (chr "?") with Some qmark => qmark | None => length base end) base ++ uri
  else match uri_after_last_slash base with
       | None => base ++ str "/" ++ uri
       | Some base_length => take base_length base ++ uri
       end.

(** ** Relative.cxx, Base.cxx *)

Definition ends_with_char (s : list Z) (c : Z) : bool := bool_decide (last s = Some c).

(** [None] is the null view. *)
Definition uri_relative (base uri : list Z) : option (list Z) :=
  if bool_decide (base = []) || bool_decide (uri = []) then None
  else match StringAfterPrefix uri base with
       | Some rest => Some rest
       | None =>
           if Nat.eqb (length uri) (length base - 1) && starts_with base uri &&
              ends_with_char base (chr "/") &&
              match UriAfterScheme uri with
              | None => false
              | Some rest => bool_decide (strchr rest (chr "/") = None)
              end
           then Some [] else None
       end.

Definition is_base (uri : list Z) : bool := ends_with_char uri (chr "/").

Definition base_tail (uri base : list Z) : option (list Z) :=
  if negb (is_base base) then None else StringAfterPrefix uri base.

(** [None] is a failed assertion. *)
Definition require_base_tail (uri base : list Z) : option (list Z) :=
  if is_base base && starts_with uri base then Some (drop (length base) uri) else None.

(** [None] is [(std::size_t)-1]. *)
Definition base_string (uri tail : list Z) : option nat :=
  if Nat.eqb (length uri) (length tail) then if bool_decide (uri = tail) then Some O else None
  else if Nat.ltb (length tail) (length uri) &&
          (cstr_at uri (length uri - length tail - 1) =? chr "/") &&
          bool_decide (drop (length uri - length tail) uri = tail)
  then Some (length uri - length tail)%nat else None.

(** ** PEdit.cxx *)

Definition uri_insert_query_string (uri query_string : list Z) : list Z :=
  match strchr uri (chr "?") with
  | Some qmark => take (qmark + 1) uri ++ query_string ++ str "&" ++ drop (qmark + 1) uri
  | None => uri ++ str "?" ++ query_string
  end.

Definition uri_append_query_string_n (uri query_string : list Z) : list Z :=
  uri ++ (match strchr uri (chr "?") with None => str "?" | Some _ => str "&" end) ++ query_string.

Definition query_string_begins_with (query_string needle : list Z) : nat :=
  match StringAfterPrefix query_string needle with
  | None => O
  | Some rest =>
      if cstr_at rest 0 =? chr "&" then (length needle + 1)%nat
      else if cstr_at rest 0 =? 0 then length needle
      else O
  end.

Definition uri_delete_query_string (uri needle : list Z) : list Z :=
  match strchr uri (chr "?") with
  | None => uri
  | Some q =>
      let p := (q + 1)%nat in
      match query_string_begins_with (drop p uri) needle with
      | O => uri
      | delete_length =>
          if cstr_at uri (p + delete_length) =? 0 then
            let p := (p - 1)%nat in
            let delete_length := (delete_length + 1)%nat in
            take p uri ++ drop (p + delete_length) uri
          else take p uri ++ drop (p + delete_length) uri
      end
  end.

Definition uri_insert_args (uri args path : list Z) : list Z :=
  let q := match strchr uri (chr "?") with Some q => q | None => length uri end in
  take q uri ++ str ";" ++ args ++ path ++ drop q uri.

(** ** Relocate.cxx *)

Definition MatchUriHost (uri : list Z) (host : option (list Z)) : option (list Z) :=
  let path uri := if negb (cstr_at uri 0 =? chr "/") then None else Some uri in
  match UriHostAndPort uri with
  | Some (start, len) =>
      match host with
      | None => None
      | Some host =>
          if bool_decide (take len (drop start uri) = host) then path (drop (start + len) uri)
          else None
      end
  | None => path uri
  end.

Definition UriBaseTail (uri base : list Z) : option (list Z) := StringAfterPrefix uri base.

Definition UriPrefixBeforeTail (uri tail : list Z) : option (list Z) :=
  match RemoveSuffix uri tail with
  | Some uri => if ends_with_char uri (chr "/") then Some uri else None
  | None => None
  end.

Definition RelocateUri (uri : list Z) (internal_host : option (list Z)) (internal_path
    external_scheme external_host external_path base : list Z) : option (list Z) :=
  match MatchUriHost uri internal_host with
  | None => None
  | Some path =>
      match UriBaseTail external_path base with
      | None => None
      | Some tail =>
          match UriPrefixBeforeTail internal_path tail with
          | None => None
          | Some prefix =>
              match UriBaseTail path prefix with
              | None => None
              | Some tail2 =>
                  Some (external_scheme ++ str "://" ++ external_host ++ base ++ tail2)
              end
          end
      end
  end.

(** ** Compare.cxx

    The loop walks backwards through both strings, which are given reversed; the result is
    the offset of the iterator in the URI. *)
Fixpoint find_unescaped_suffix (ruri rsuffix : list Z) : option nat :=
  match rsuffix with
  | [] => Some (length ruri)
  | suffix_ch :: rsuffix' =>
      match ruri with
      | [] => None
      | uri_ch :: ruri' =>
          if suffix_ch =? chr "%" then None
          else
            let plain := if uri_ch =? suffix_ch then find_unescaped_suffix ruri' rsuffix'
                         else None in
            match rsuffix' with
            | ch2 :: pct :: rest =>
                if pct =? chr "%" then
                  let digit1 := ParseHexDigit suffix_ch in
                  let digit2 := ParseHexDigit ch2 in
                  if digit1 <? 0 then None
                  else if digit2 <? 0 then None
                  else if uri_ch =? wrap 8 (Z.lor (Z.shiftl digit2 4) digit1)
                  then find_unescaped_suffix ruri' rest else None
                else plain
            | _ => plain
            end
      end
  end.

Definition UriFindUnescapedSuffix (uri_start suffix_start : list Z) : option nat :=
  find_unescaped_suffix (rev uri_start) (rev suffix_start).

(** ** PEscape.cxx, Args.cxx

    [None] is a write beyond the allocated memory. *)
Definition put (size : nat) (dest src : list Z) : option (list Z) :=
  if Nat.leb (length dest + length src) size then Some (dest ++ src) else None.

Definition uri_escape_dup (src : list Z) (escape_char : Z) : option (list Z) :=
  put (length src * 3) [] (UriEscape src escape_char).

(** [None] is [nullptr]. *)
Definition uri_unescape_dup (src : list Z) (escape_char : Z) : option (list Z) :=
  UriUnescape src escape_char.

Definition uri_unescape_concat (uri escaped_tail : list Z) : option (list Z) :=
  (fun tail => uri ++ tail) <$> UriUnescape escaped_tail (chr "%").

Definition ARGS_ESCAPE_CHAR : Z := chr "$".

Context `{HS : HashSetOrder}.

(** One iteration of the loop in [args_parse()]. *)
Definition parse_arg (args : StringMap) (s : list Z) : StringMap :=
  let '(name, escaped_value) := Split s (chr "=") in
  match name, escaped_value with
  | _ :: _, Some escaped_value =>
      match uri_unescape_dup escaped_value ARGS_ESCAPE_CHAR with
      | Some value => StringMap_Add name value args
      | None => args
      end
  | _, _ => args
  end.

Definition args_parse (p : list Z) : StringMap :=
  fold_left parse_arg (IterableSplitString p (chr "&")) [].

(** One [key=value] with the separator. *)
Definition put_arg (size : nat) (dest : list Z) (key value : list Z) : option (list Z) :=
  dest ← (match dest with [] => Some [] | _ => put size dest (str "&") end);
  dest ← put size dest key;
  dest ← put size dest (str "=");
  put size dest (UriEscape value ARGS_ESCAPE_CHAR).

Definition arg_length (key value : list Z) : nat := (length key + 1 + length value * 3 + 1)%nat.

Definition replace_length (r : option (list Z * list Z)) : nat :=
  match r with None => O | Some (key, value) => arg_length key value end.

Definition is_key (key : list Z) (r : option (list Z)) : bool :=
  match r with None => false | Some k => bool_decide (key = k) end.

(** The items of the map that are skipped in the output. *)
Definition skipped (r1 r2 r3 : option (list Z * list Z)) (remove_key : option (list Z))
    (key : list Z) : bool :=
  is_key key (fst <$> r1) || is_key key (fst <$> r2) || is_key key (fst <$> r3) ||
  is_key key remove_key.

Fixpoint put_args (size : nat) (skip : list Z -> bool) (items : StringMap) (dest : list Z)
    : option (list Z) :=
  match items with
  | [] => Some dest
  | (key, value) :: items' =>
      if skip key then put_args size skip items' dest
      else dest ← put_arg size dest key value; put_args size skip items' dest
  end.

Definition put_replace (size : nat) (r : option (list Z * list Z)) (dest : list Z)
    : option (list Z) :=
  match r with None => Some dest | Some (key, value) => put_arg size dest key value end.

(** [r1], [r2] and [r3] are the replaced keys with their values. *)
Definition args_format_n (args : option StringMap) (r1 r2 r3 : option (list Z * list Z))
    (remove_key : option (list Z)) : option (list Z) :=
  let items := default [] args in
  let size := (foldr (fun kv n => arg_length kv.1 kv.2 + n) 0 items +
               replace_length r1 + replace_length r2 + replace_length r3)%nat in
  dest ← put_args size (skipped r1 r2 r3 remove_key) items [];
  dest ← put_replace size r1 dest;
  dest ← put_replace size r2 dest;
  put_replace size r3 dest.

Definition args_format (args : option StringMap) (r1 r2 : option (list Z * list Z))
    (remove_key : option (list Z)) : option (list Z) :=
  args_format_n args r1 r2 None remove_key.

End Uri.
