(* ===== verification/HttpCacheRFC.v ===== *)
(** * The decisions of the HTTP cache

    Models src/http/cache/RFC.cxx, Age.cxx, Info.cxx and Document.cxx, and the functions on headers
    that they use (src/http/PList.cxx, PHeaderUtil.cxx): which requests may be answered from the
    cache, which responses may be stored, for how long, and for which requests a
    stored response fits ("Vary").

    Time points and durations are numbers of nanoseconds.  The functions of the library are the class
    [HttpLib]. *)

From Stdlib Require Import String.
From S2P Require Import Prelude CharUtil StrMap Uri.

(** The methods that the code names; the others are numbers. *)
Inductive HttpMethod := GET | PUT | DELETE | POST | OTHER_METHOD (n : Z).

#[export] Instance HttpMethod_eq_dec : EqDecision HttpMethod.
Proof. solve_decision. Defined.

Definition HttpStatus := Z.

Class HttpLib := {
  (** http/Date.hxx: a negative second on error *)
  http_date_parse : list Z -> Z;
  (** http/List.hxx *)
  http_list_contains : list Z -> list Z -> bool;
  (** util/StringStrip.hxx *)
  Strip : list Z -> list Z;
  StripLeft : list Z -> list Z;
  StripRight : list Z -> list Z;
  (** util/StringCompare.hxx: what follows the prefix *)
  SkipPrefix : list Z -> list Z -> option (list Z);
  (** http/Method.hxx, http/Status.hxx *)
  IsSafeMethod : HttpMethod -> bool;
  http_status_is_valid : HttpStatus -> bool;
  http_status_is_error : HttpStatus -> bool }.

Inductive AddressType := A_NONE | A_LOCAL | A_HTTP | A_LHTTP | A_PIPE | A_CGI | A_FASTCGI | A_WAS.

#[export] Instance AddressType_eq_dec : EqDecision AddressType.
Proof. solve_decision. Defined.

(** What the cache uses of a [ResourceAddress]: its type, its id, and whether there is a
    query string. *)
Record ResourceAddress := mkAddress {
  a_type : AddressType;
  a_id : list Z;
  a_query : bool }.

Record HttpCacheRequestInfo := mkRequestInfo {
  if_match : option (list Z);
  if_none_match : option (list Z);
  if_modified_since : option (list Z);
  if_unmodified_since : option (list Z);
  is_remote : bool;
  no_cache : bool;
  only_if_cached : bool;
  has_query_string : bool }.

Record HttpCacheResponseInfo := mkResponseInfo {
  r_expires : Z;
  r_last_modified : option (list Z);
  r_etag : option (list Z);
  r_vary : option (list Z) }.

Record HttpCacheDocument := mkDocument {
  d_info : HttpCacheResponseInfo;
  d_vary : StringMap;
  d_status : HttpStatus;
  d_headers : StringMap }.

(** ** Time *)

Definition seconds (n : Z) : Z := n * 1000000000.
Definition minutes (n : Z) : Z := seconds (60 * n).
Definition hours (n : Z) : Z := minutes (60 * n).

(** [from_time_t(-1)] and [duration::min()]. *)
Definition no_time : Z := seconds (-1).
Definition duration_min : Z := - 2 ^ 63.

Definition cacheable_size_limit : Z := 512 * 1024.

(** ** [atoi()]

    The value of the leading digits, stored in a 32 bit integer. *)
Definition is_space (c : Z) : bool := (c =? 32) || ((9 <=? c) && (c <=? 13)).
Definition is_digit (c : Z) : bool := (48 <=? c) && (c <=? 57).

Definition digits_value (l : list Z) : Z := fold_left (fun n c => 10 * n + (c - 48)) l 0.

Definition strtol (s : list Z) : Z :=
  match snd (span_while is_space s) with
  | [] => 0
  | c :: s' =>
      let n := digits_value (fst (span_while is_digit (if (c =? chr "-") || (c =? chr "+") then s' else c :: s'))) in
      Z.max (- 2 ^ 63) (Z.min (2 ^ 63 - 1) (if c =? chr "-" then - n else n))
  end.

Definition atoi (s : list Z) : Z := (strtol s + 2 ^ 31) mod 2 ^ 32 - 2 ^ 31.

Section RFC.
Context `{CU : CharUtil} `{UL : UriLib} `{HL : HttpLib}.
Context `{HS : HashSetOrder} `{TO : TrieOrder}.

(** ** Requests *)

(** The loop over the "Cache-Control" directives; the result is [no_cache] and
    [only_if_cached], or [None] for a request that must not be cached. *)
Fixpoint request_directives (obey_no_cache : bool) (l : list (list Z)) (nc oic : bool) : option (bool * bool) :=
  match l with
  | [] => Some (nc, oic)
  | s :: l' =>
      let s := Strip s in
      if bool_decide (s = str "only-if-cached") then request_directives obey_no_cache l' nc true
      else if obey_no_cache then
        if bool_decide (s = str "no-cache") then request_directives obey_no_cache l' true oic
        else if bool_decide (s = str "no-store") then None
        else request_directives obey_no_cache l' nc oic
      else request_directives obey_no_cache l' nc oic
  end.

Definition http_cache_request_evaluate (method : HttpMethod) (address : ResourceAddress)
    (headers : StringMap) (obey_no_cache has_request_body : bool) : option HttpCacheRequestInfo :=
  if negb (bool_decide (method = GET)) || has_request_body then None
  else if StringMap_Contains (str "range") headers then None
  else if StringMap_Contains (str "authorization") headers then None
  else
    flags ← match StringMap_Get (str "cache-control") headers with
            | Some cache_control =>
                request_directives obey_no_cache (IterableSplitString cache_control (chr ",")) false false
            | None =>
                if obey_no_cache && bool_decide (StringMap_Get (str "pragma") headers = Some (str "no-cache"))
                then None else Some (false, false)
            end;
    Some (mkRequestInfo
      (StringMap_Get (str "if-match") headers)
      (StringMap_Get (str "if-none-match") headers)
      (StringMap_Get (str "if-modified-since") headers)
      (StringMap_Get (str "if-unmodified-since") headers)
      (bool_decide (a_type address = A_HTTP)) (fst flags) (snd flags) (a_query address)).

Definition http_cache_vary_fits (vary headers : StringMap) : bool :=
  forallb (fun i => bool_decide (snd i = default [] (StringMap_Get (fst i) headers))) vary.

Definition http_cache_vary_fits_checked (vary : option StringMap) (headers : StringMap) : bool :=
  match vary with None => true | Some vary => http_cache_vary_fits vary headers end.

Definition http_cache_request_invalidate (method : HttpMethod) : bool :=
  bool_decide (method = PUT) || bool_decide (method = DELETE) || bool_decide (method = POST).

(** ** Responses *)

(** The sum is an unbounded integer here; the code adds to a 64-bit time point. *)
Definition parse_translate_time (p : option (list Z)) (offset : Z) : Z :=
  match p with
  | None => no_time
  | Some p => let t := http_date_parse p in if t =? no_time then t else t + offset
  end.

Definition http_status_cacheable (status : HttpStatus) : bool :=
  (status =? 200) || (status =? 203) || (status =? 206) || (status =? 300) || (status =? 301) || (status =? 410).

Definition GetServerDate (response_headers : StringMap) : Z :=
  match StringMap_Get (str "date") response_headers with
  | None => no_time
  | Some p => http_date_parse p
  end.

Definition http_client_accepts_encoding (request_headers : StringMap) (coding : list Z) : bool :=
  match StringMap_Get (str "accept-encoding") request_headers with
  | None => false
  | Some accept_encoding => http_list_contains accept_encoding coding
  end.

Definition GetServerDateOffset (request_info : HttpCacheRequestInfo) (now : Z) (response_headers : StringMap) : Z :=
  if negb (is_remote request_info) then 0
  else let server_date := GetServerDate response_headers in
       if server_date =? no_time then duration_min else now - server_date.

(** The loop over the "Cache-Control" directives of a response; [clock] has the
    results of the calls of [system_clock::now()], the first [n] of which have happened.  The result is [expires]
    and the new [n]. *)
Fixpoint response_directives (clock : nat -> Z) (l : list (list Z)) (expires : Z) (n : nat) : option (Z * nat) :=
  match l with
  | [] => Some (expires, n)
  | s :: l' =>
      let s := Strip s in
      if starts_with s (str "private") || bool_decide (s = str "no-cache") || bool_decide (s = str "no-store")
      then None
      else match SkipPrefix s (str "max-age=") with
      | None => response_directives clock l' expires n
      | Some s =>
          if (16 <=? length s)%nat then response_directives clock l' expires n
          else let secs := atoi s in
               if 0 <? secs then response_directives clock l' (clock n + seconds secs) (S n)
               else response_directives clock l' expires n
      end
  end.

(** The loop over the "Vary" headers. *)
Fixpoint collect_vary (l : list (list Z * list Z)) (vary : option (list Z)) : option (option (list Z)) :=
  match l with
  | [] => Some vary
  | (_, value) :: l' =>
      if bool_decide (value = []) then collect_vary l' vary
      else if bool_decide (value = str "*") then None
      else collect_vary l' (Some (match vary with
                                  | None => value
                                  | Some vary => vary ++ str ", " ++ value
                                  end))
  end.

Definition http_cache_response_evaluate (clock : nat -> Z) (request_info : HttpCacheRequestInfo)
    (eager_cache : bool) (status : HttpStatus) (headers : StringMap) (body_available : Z)
    : option HttpCacheResponseInfo :=
  if negb (http_status_cacheable status) then None
  else if negb (body_available =? -1) && (cacheable_size_limit <? body_available) then None
  else
    cc ← match StringMap_Get (str "cache-control") headers with
         | Some cache_control => response_directives clock (IterableSplitString cache_control (chr ",")) no_time 0
         | None => Some (no_time, O)
         end;
    let '(expires, n) := cc in
    let now := clock n in
    let n := S n in
    let offset := GetServerDateOffset request_info now headers in
    if offset =? duration_min then None
    else
      let expires := if expires =? no_time
                     then parse_translate_time (StringMap_Get (str "expires") headers) offset
                     else expires in
      if has_query_string request_info && negb eager_cache && (expires =? no_time) then None
      else
        let last_modified := StringMap_Get (str "last-modified") headers in
        let etag := StringMap_Get (str "etag") headers in
        vary ← collect_vary (StringMap_EqualRange (str "vary") headers) None;
        if (expires =? no_time) && bool_decide (last_modified = None) && bool_decide (etag = None) then
          if eager_cache then Some (mkResponseInfo (clock n + hours 1) last_modified etag vary)
          else None
        else Some (mkResponseInfo expires last_modified etag vary).

(** ** "Vary" *)

(** The part of a C string before a character, and what follows it ([strchr()]). *)
Definition split_char (c : Z) (p : list Z) : list Z * option (list Z) :=
  match span_while (fun x => negb (x =? c)) p with
  | (a, []) => (a, None)
  | (a, _ :: b) => (a, Some b)
  end.

Definition DupToLower (s : list Z) : list Z := map ToLowerASCII s.

Definition MAX_ITEMS : nat := 64.

(** [n] is the number of items that fit. *)
Fixpoint list_split (n : nat) (p : list Z) : list (list Z) :=
  match n with
  | O => []
  | S n' =>
      let p := StripLeft p in
      match p with
      | [] => []
      | _ =>
          let '(item, rest) := split_char (chr ",") p in
          DupToLower (StripRight item) ::
          match rest with None => [] | Some p => list_split n' p end
      end
  end.

Definition http_list_split (p : list Z) : list (list Z) := list_split MAX_ITEMS p.

Definition http_cache_copy_vary (vary : list Z) (request_headers : StringMap) : StringMap :=
  fold_left (fun dest name => fst (StringMap_Set name (default [] (StringMap_Get name request_headers)) dest))
    (http_list_split vary) [].

Definition http_cache_prefer_cached (document : HttpCacheDocument) (response_headers : StringMap) : bool :=
  match r_etag (d_info document) with
  | None => false
  | Some e => bool_decide (StringMap_Get (str "etag") response_headers = Some e)
  end.

(** ** Documents *)

(** The copy of the info; [MoveToPool()] makes the same copies in place. *)
Definition HttpCacheResponseInfo_copy (src : HttpCacheResponseInfo) : HttpCacheResponseInfo :=
  mkResponseInfo (r_expires src) (r_last_modified src) (r_etag src) (r_vary src).

(** [None]: the status must be valid. *)
Definition HttpCacheDocument_new (info : HttpCacheResponseInfo) (request_headers : StringMap)
    (status : HttpStatus) (response_headers : StringMap) : option HttpCacheDocument :=
  if http_status_is_valid status then
    Some (mkDocument (HttpCacheResponseInfo_copy info)
            (match r_vary info with Some vary => http_cache_copy_vary vary request_headers | None => [] end)
            status (StringMap_copy response_headers))
  else None.

Definition VaryFits (document : HttpCacheDocument) (request_headers : StringMap) : bool :=
  http_cache_vary_fits (d_vary document) request_headers.

(** ** The age of documents *)

Definition HOUR : Z := hours 1.
Definition DAY : Z := 24 * HOUR.
Definition WEEK : Z := 7 * DAY.

Definition http_cache_age_limit (vary : StringMap) : Z :=
  if StringMap_IsEmpty vary then WEEK
  else if StringMap_Contains (str "x-cm4all-beng-user") vary || StringMap_Contains (str "cookie") vary ||
          StringMap_Contains (str "cookie2") vary then minutes 5
  else if StringMap_Contains (str "x-widgetid") vary || StringMap_Contains (str "x-widgethref") vary
  then minutes 30
  else hours 1.

Definition http_cache_calc_expires (steady_now system_now expires : Z) (vary : StringMap) : Z :=
  let age_limit := http_cache_age_limit vary in
  let clip max_age := if age_limit <? max_age then age_limit else max_age in
  if expires =? no_time then steady_now + clip (hours 1)
  else if expires <=? system_now then 0
  else steady_now + clip (expires - system_now).

End RFC.
