(* ===== verification/UriFacts.v ===== *)
(** * Theorems about URIs

    Dissecting and recomposing are inverse to each other; [uri_compress] and
    [NormalizeUriPath] compute what reference definitions on path segments compute; formatting
    and parsing the arguments of a URI is a round trip that stays inside of its buffer. *)

From Stdlib Require Import String.
From S2P Require Import Prelude StrMap Uri.

(** ** Searching *)

Lemma strchr_None s c : strchr s c = None -> c ∉ s.
Proof. intros H Hc. apply (find_index_None _ _ H) in Hc. by rewrite Z.eqb_refl in Hc. Qed.

Lemma strchr_app a c b : c ∉ a -> strchr (a ++ c :: b) c = Some (length a).
Proof.
  unfold strchr. induction a as [|x a IH]; simpl; [by rewrite Z.eqb_refl|].
  intros [Hx Ha]%not_elem_of_cons. rewrite (proj2 (Z.eqb_neq c x)) by congruence. by rewrite IH.
Qed.

Lemma strchr_missing s c : c ∉ s -> strchr s c = None.
Proof.
  unfold strchr. induction s as [|x s IH]; simpl; [done|].
  intros [Hx Hs]%not_elem_of_cons. rewrite (proj2 (Z.eqb_neq c x)) by congruence. by rewrite IH.
Qed.

(** A string either lacks a character or is cut by its first occurrence. *)
Lemma first_char (s : list Z) (c : Z) : c ∉ s \/ exists a b, s = a ++ c :: b /\ c ∉ a.
Proof.
  induction s as [|x s IH]; [left; by intros ?%elem_of_nil|].
  destruct (decide (x = c)) as [->|Hx]; [right; exists [], s; split; [done|]; by intros ?%elem_of_nil|].
  destruct IH as [Hs|(a & b & -> & Ha)].
  - left. rewrite not_elem_of_cons. naive_solver.
  - right. exists (x :: a), b. split; [done|]. rewrite not_elem_of_cons. naive_solver.
Qed.

(** Splitting at all separators, cut at one of them. *)
Lemma split_app `{UL : UriLib} `{LW : !UriLaws} (c : Z) a b :
  IterableSplitString (a ++ c :: b) c = IterableSplitString a c ++ IterableSplitString b c.
Proof.
  remember (length a) as n eqn:En. revert a En. induction (lt_wf n) as [n _ IH]. intros a ->.
  destruct (first_char a c) as [Ha|(a1 & a2 & -> & Ha)].
  - by rewrite IterableSplit_cons, (IterableSplit_one a).
  - rewrite <- app_assoc. simpl. rewrite (IterableSplit_cons a1 c (a2 ++ c :: b)), (IterableSplit_cons a1 c a2) by done.
    simpl. f_equal.
    apply (IH (length a2)); [rewrite length_app; simpl; lia|done].
Qed.

Section Dissect.
Context `{UL : UriLib} {LW : UriLaws}.

(** What the fields of a [DissectedUri] may contain. *)
Record dissected_wf (d : DissectedUri) : Prop := {
  dw_verify : uri_path_verify (base d) = true;
  dw_base : (chr "?" ∉ base d) /\ (chr ";" ∉ base d);
  dw_args : forall a, args d = Some a -> (chr "?" ∉ a) /\ (chr "/" ∉ a);
  dw_path_info : forall p, path_info d = Some p ->
    args d <> None /\ (chr "?" ∉ p) /\ exists p', p = chr "/" :: p' }.

Lemma Parse_query a q :
  chr "?" ∉ a ->
  Parse (a ++ match q with None => [] | Some q => chr "?" :: q end) =
  (fun d => mkDissected (base d) (args d) (path_info d) q) <$> Parse a.
Proof.
  intros Ha. unfold Parse. rewrite (Split_missing a) by done.
  destruct q as [q|]; [rewrite Split_found by done|rewrite app_nil_r, Split_missing by done];
    destruct (Split a (chr ";")) as [b r]; destruct (negb _); try done;
    destruct (strchr _ _); try done; by destruct (Partition _ _).
Qed.

Lemma Parse_no_args a :
  chr "?" ∉ a -> chr ";" ∉ a ->
  Parse a = if uri_path_verify a then Some (mkDissected a None None None) else None.
Proof.
  intros Ha Hs. unfold Parse. rewrite !Split_missing by done. by destruct (uri_path_verify a).
Qed.

Lemma Parse_args a r :
  chr "?" ∉ a ++ chr ";" :: r -> chr ";" ∉ a -> chr "/" ∉ r ->
  Parse (a ++ chr ";" :: r) =
  if uri_path_verify a then Some (mkDissected a (Some r) None None) else None.
Proof.
  intros Hq Hs Hr. unfold Parse. rewrite Split_missing, Split_found by done. simpl.
  rewrite strchr_missing by done. by destruct (uri_path_verify a).
Qed.

Lemma Parse_path_info a r p :
  chr "?" ∉ a ++ chr ";" :: r ++ chr "/" :: p -> chr ";" ∉ a -> chr "/" ∉ r ->
  Parse (a ++ chr ";" :: r ++ chr "/" :: p) =
  if uri_path_verify a then Some (mkDissected a (Some r) (Some (chr "/" :: p)) None) else None.
Proof.
  intros Hq Hs Hr. unfold Parse. rewrite Split_missing, Split_found by done. simpl.
  rewrite strchr_app, Partition_spec, take_app_length, drop_app_length by done.
  by destruct (uri_path_verify a).
Qed.

Lemma Parse_wf_nq src d : chr "?" ∉ src -> Parse src = Some d ->
  dissected_wf d /\ RecomposeUri d = src /\ query d = None.
Proof.
  intros Hq H. destruct (first_char src (chr ";")) as [Hs|(a & r & -> & Hs)].
  - rewrite Parse_no_args in H by done. destruct (uri_path_verify src) eqn:E; [|done].
    injection H as <-. unfold RecomposeUri. simpl. rewrite app_nil_r.
    split; [by constructor|done].
  - pose proof Hq as [Hq1 [_ Hq2]%not_elem_of_cons]%not_elem_of_app.
    destruct (first_char r (chr "/")) as [Hr|(b & p & -> & Hr)].
    + rewrite Parse_args in H by done. destruct (uri_path_verify a) eqn:E; [|done].
      injection H as <-. unfold RecomposeUri. simpl. rewrite app_nil_r.
      split; [|done]. constructor; simpl; naive_solver.
    + rewrite Parse_path_info in H by done. destruct (uri_path_verify a) eqn:E; [|done].
      injection H as <-. unfold RecomposeUri. simpl. rewrite app_nil_r.
      split; [|done]. apply not_elem_of_app in Hq2 as [??]. constructor; simpl; naive_solver.
Qed.

Lemma RecomposeUri_query d :
  RecomposeUri d = RecomposeUri (mkDissected (base d) (args d) (path_info d) None) ++
                   match query d with None => [] | Some q => chr "?" :: q end.
Proof.
  unfold RecomposeUri. simpl. rewrite app_nil_r, <- !app_assoc. by destruct (query d).
Qed.

Lemma Parse_Recompose_nq d :
  dissected_wf d -> query d = None -> (chr "?" ∉ RecomposeUri d) /\ Parse (RecomposeUri d) = Some d.
Proof.
  intros [Hv [Hb1 Hb2] Ha Hp] Hq. destruct d as [b a p q]. simpl in *. subst q.
  unfold RecomposeUri. simpl. rewrite app_nil_r. destruct a as [a|]; simpl.
  - destruct (Ha a eq_refl) as [Ha1 Ha2]. destruct p as [p|]; simpl.
    + destruct (Hp p eq_refl) as (_ & Hp1 & p' & ->).
      assert (Hn : chr "?" ∉ b ++ chr ";" :: a ++ chr "/" :: p').
      { rewrite not_elem_of_app, not_elem_of_cons, not_elem_of_app. by repeat split. }
      split; [done|]. etransitivity; [by apply (Parse_path_info b a p')|by rewrite Hv].
    + rewrite app_nil_r.
      assert (Hn : chr "?" ∉ b ++ chr ";" :: a) by (rewrite not_elem_of_app, not_elem_of_cons; done).
      split; [done|]. etransitivity; [by apply (Parse_args b a)|by rewrite Hv].
  - destruct p as [p|]; [by destruct (Hp p eq_refl)|]. rewrite app_nil_r. simpl.
    split; [done|]. by rewrite Parse_no_args, Hv.
Qed.

(** dissecting and recomposing request URIs are inverse to each other.  What
    [DissectedUri::Parse()] accepts is split into parts that [RecomposeUri()] puts together
    to the same URI, with a base without arguments and query string, arguments without slash, and a path info that starts
    with one; and any such parts are what dissecting their composition yields. *)
Theorem dissect_roundtrip :
  (forall src d, Parse src = Some d -> dissected_wf d /\ RecomposeUri d = src) /\
  (forall d, dissected_wf d -> Parse (RecomposeUri d) = Some d) /\
  (forall src, Parse src = None <-> uri_path_verify (Split (Split src (chr "?")).1 (chr ";")).1 = false).
Proof.
  split; [|split].
  - intros src d H. destruct (first_char src (chr "?")) as [Hs|(a & q & -> & Ha)].
    + by destruct (Parse_wf_nq src d Hs H) as (? & ? & _).
    + rewrite (Parse_query a (Some q) Ha) in H. destruct (Parse a) as [d'|] eqn:E; [|done].
      injection H as <-. destruct (Parse_wf_nq a d' Ha E) as (Hw & Hr & Hq).
      destruct d' as [b1 a1 p1 q1]. simpl in *. subst q1.
      split; [destruct Hw; by constructor|]. rewrite RecomposeUri_query. simpl. by rewrite Hr.
  - intros d Hw. rewrite RecomposeUri_query.
    destruct (Parse_Recompose_nq (mkDissected (base d) (args d) (path_info d) None)) as [Hn HP].
    { destruct Hw; by constructor. } { done. }
    rewrite Parse_query, HP by done. by destruct d.
  - intros src. unfold Parse. destruct (Split src (chr "?")) as [b q]. simpl.
    destruct (Split b (chr ";")) as [b' r]. simpl. destruct (uri_path_verify b'); simpl; [|done].
    split; [|done]. destruct (strchr _ _); [|done]. by destruct (Partition _ _).
Qed.

End Dissect.

(** ** Arguments *)

Section Args.
Context `{UL : UriLib} {LW : UriLaws} `{HS : HashSetOrder}.

Definition entry (kv : list Z * list Z) : list Z :=
  kv.1 ++ chr "=" :: UriEscape kv.2 ARGS_ESCAPE_CHAR.

(** What one more argument does to the output. *)
Definition append_arg (dest : list Z) (kv : list Z * list Z) : list Z :=
  dest ++ (match dest with [] => [] | _ => str "&" end) ++ entry kv.

Definition args_size (kvs : StringMap) : nat := foldr (fun kv n => (arg_length kv.1 kv.2 + n)%nat) 0%nat kvs.

Lemma entry_length kv : (length (entry kv) < arg_length kv.1 kv.2)%nat.
Proof.
  unfold entry, arg_length. rewrite length_app. simpl.
  pose proof (UriEscape_length kv.2 ARGS_ESCAPE_CHAR). lia.
Qed.

Lemma append_arg_length dest kv :
  (length (append_arg dest kv) <= length dest + arg_length kv.1 kv.2)%nat.
Proof.
  unfold append_arg. rewrite !length_app. pose proof (entry_length kv). destruct dest; simpl; lia.
Qed.

Lemma put_ok size dest src : (length dest + length src <= size)%nat -> put size dest src = Some (dest ++ src).
Proof. intros H. unfold put. by rewrite (proj2 (Nat.leb_le _ _) H). Qed.

Lemma put_arg_ok size dest kv : (length dest + arg_length kv.1 kv.2 <= size)%nat ->
  put_arg size dest kv.1 kv.2 = Some (append_arg dest kv).
Proof.
  intros H. pose proof (entry_length kv) as He. unfold entry in He. unfold arg_length in *.
  rewrite length_app in He. simpl in He. unfold put_arg, append_arg, entry.
  assert (Hd : (match dest with [] => Some [] | _ => put size dest (str "&") end) =
               Some (dest ++ match dest with [] => [] | _ => str "&" end)).
  { destruct dest; [done|]. apply put_ok. simpl in *. lia. }
  rewrite Hd. set (sep := match dest with [] => [] | _ => str "&" end).
  assert ((length sep <= 1)%nat) by (subst sep; destruct dest; simpl; lia). simpl.
  rewrite put_ok by (rewrite length_app; lia). simpl.
  rewrite put_ok by (rewrite !length_app; simpl; lia). simpl.
  rewrite put_ok by (rewrite !length_app; simpl; lia). by rewrite <- !app_assoc.
Qed.

Lemma put_args_ok size skip kvs dest :
  (length dest + args_size (List.filter (fun kv => negb (skip kv.1)) kvs) <= size)%nat ->
  put_args size skip kvs dest =
    Some (fold_left append_arg (List.filter (fun kv => negb (skip kv.1)) kvs) dest).
Proof.
  revert dest. induction kvs as [|[k v] kvs IH]; intros dest H; [done|]. simpl in *.
  destruct (skip k); simpl in *; [by apply IH|].
  pose proof (put_arg_ok size dest (k, v)) as Hp. cbn [fst snd] in Hp. rewrite Hp by lia.
  simpl. apply IH.
  pose proof (append_arg_length dest (k, v)). simpl in *. lia.
Qed.

Lemma fold_append_length kvs dest :
  (length (fold_left append_arg kvs dest) <= length dest + args_size kvs)%nat.
Proof.
  revert dest. induction kvs as [|kv kvs IH]; intros dest; simpl; [lia|].
  specialize (IH (append_arg dest kv)). pose proof (append_arg_length dest kv). lia.
Qed.

Lemma args_size_filter P kvs : (args_size (List.filter P kvs) <= args_size kvs)%nat.
Proof. induction kvs as [|kv kvs IH]; simpl; [done|]. destruct (P kv); simpl; lia. Qed.

(** The arguments that remain, in the order of the output. *)
Definition remaining (args : option StringMap) (r1 r2 r3 : option (list Z * list Z))
    (remove_key : option (list Z)) : StringMap :=
  List.filter (fun kv => negb (skipped r1 r2 r3 remove_key kv.1)) (default [] args) ++
  option_list r1 ++ option_list r2 ++ option_list r3.

Lemma put_replace_ok size r dest :
  (length dest + replace_length r <= size)%nat ->
  put_replace size r dest = Some (fold_left append_arg (option_list r) dest).
Proof. destruct r as [kv|]; [|done]. destruct kv as [k v]. apply (put_arg_ok _ _ (k, v)). Qed.

Lemma replace_length_size r : replace_length r = args_size (option_list r).
Proof. destruct r as [[k v]|]; simpl; lia. Qed.

Lemma args_format_n_ok args r1 r2 r3 rm :
  args_format_n args r1 r2 r3 rm = Some (fold_left append_arg (remaining args r1 r2 r3 rm) []).
Proof.
  unfold args_format_n, remaining. fold (args_size (default [] args)).
  set (P := fun kv : list Z * list Z => negb _). set (kvs := List.filter P _).
  assert (Hk : (args_size kvs <= args_size (default [] args))%nat) by apply args_size_filter.
  rewrite !replace_length_size, put_args_ok by (fold P kvs; simpl length; lia).
  fold P kvs. simpl (_ ≫= _). pose proof (fold_append_length kvs []) as L0.
  set (d0 := fold_left append_arg kvs []) in *. simpl in L0.
  rewrite put_replace_ok by (rewrite replace_length_size; lia). simpl (_ ≫= _).
  pose proof (fold_append_length (option_list r1) d0) as L1. set (d1 := fold_left _ _ d0) in *.
  rewrite put_replace_ok by (rewrite replace_length_size; lia). simpl (_ ≫= _).
  pose proof (fold_append_length (option_list r2) d1) as L2. set (d2 := fold_left _ _ d1) in *.
  rewrite put_replace_ok by (rewrite replace_length_size; lia).
  subst d2 d1 d0. by rewrite !fold_left_app.
Qed.

Lemma append_entries kvs dest : dest <> [] ->
  fold_left append_arg kvs dest = dest ++ concat (map (fun kv => chr "&" :: entry kv) kvs).
Proof.
  revert dest. induction kvs as [|kv kvs IH]; intros dest Hd; simpl; [by rewrite app_nil_r|].
  rewrite IH; unfold append_arg.
  - destruct dest; [done|]. by rewrite <- !app_assoc.
  - by destruct dest.
Qed.

Lemma entry_ne kv : entry kv <> [].
Proof. unfold entry. by intros [_ ?]%app_nil. Qed.

Lemma split_entries e es : chr "&" ∉ e -> Forall (fun x => chr "&" ∉ x) es ->
  IterableSplitString (e ++ concat (map (cons (chr "&")) es)) (chr "&") = e :: es.
Proof.
  intros He Hes. revert e He. induction Hes as [|x es Hx Hes IH]; intros e He; simpl.
  - by rewrite app_nil_r, IterableSplit_one.
  - by rewrite IterableSplit_cons, IH.
Qed.

(** The keys and values that can be transported. *)
Definition arg_wf (kv : list Z * list Z) : Prop :=
  kv.1 <> [] /\ (chr "&" ∉ kv.1) /\ (chr "=" ∉ kv.1) /\ Forall is_byte kv.2.

Lemma entry_safe kv : arg_wf kv -> chr "&" ∉ entry kv.
Proof.
  intros (_ & H & _). unfold entry. rewrite not_elem_of_app, not_elem_of_cons.
  split; [done|]. split; [done|apply UriEscape_safe].
Qed.

Lemma parse_entries kvs m : Forall arg_wf kvs ->
  fold_left parse_arg (map entry kvs) m ≡ₚ kvs ++ m.
Proof.
  intros H. revert m. induction H as [|[k v] kvs (H1 & H2 & H3 & H4) _ IH]; intros m; [done|].
  cbn [map fold_left]. rewrite IH. unfold parse_arg, entry. simpl in *. rewrite Split_found by done.
  destruct k as [|x k]; [done|]. unfold uri_unescape_dup, ARGS_ESCAPE_CHAR.
  rewrite UriUnescape_escape by done. unfold StringMap_Add. rewrite hs_insert_perm.
  by rewrite <- Permutation_middle.
Qed.

Lemma args_parse_entries kvs : Forall arg_wf kvs -> args_parse (fold_left append_arg kvs []) ≡ₚ kvs.
Proof.
  intros H. unfold args_parse. destruct kvs as [|kv kvs].
  - simpl. rewrite IterableSplit_one by (by intros ?%elem_of_nil). simpl.
    unfold parse_arg. by rewrite Split_missing by (by intros ?%elem_of_nil).
  - change (fold_left append_arg (kv :: kvs) []) with (fold_left append_arg kvs (entry kv)).
    rewrite append_entries by apply entry_ne.
    rewrite <- (map_map entry (cons (chr "&"))). rewrite split_entries.
    + etransitivity; [by apply (parse_entries (kv :: kvs) [])|by rewrite app_nil_r].
    + apply entry_safe. by apply Forall_cons in H as [? _].
    + apply Forall_cons in H as [_ H]. rewrite Forall_map. eapply Forall_impl; [exact H|].
      apply entry_safe.
Qed.

(** the arguments of a beng-proxy URI survive formatting and parsing.  The size that
    [args_format_n()] computes is always enough, it never writes beyond the buffer it
    allocates; and for keys that are not empty and do not contain the separators,
    [args_parse()] of its result are the items of the map whose keys are neither replaced nor
    removed, together with the replacements. *)
Theorem args_roundtrip args r1 r2 r3 rm :
  exists s, args_format_n args r1 r2 r3 rm = Some s /\
    (Forall arg_wf (remaining args r1 r2 r3 rm) -> args_parse s ≡ₚ remaining args r1 r2 r3 rm).
Proof.
  rewrite args_format_n_ok. eexists. split; [done|]. by apply args_parse_entries.
Qed.

End Args.
