(* ===== verification/UriCompress.v ===== *)
(** * Path compression

    [uri_compress] edits the string in place, pattern by pattern.  Here it is compared with a
    reference definition that walks over the segments of the path with a stack. *)

From Stdlib Require Import String.
From S2P Require Import Prelude Uri.

Abbreviation segment := (list Z) (only parsing).

Fixpoint segments (s : list Z) : list segment :=
  match s with
  | [] => [[]]
  | c :: s' =>
      if c =? chr "/" then [] :: segments s'
      else match segments s' with
           | [] => [[c]]
           | g :: gs => (c :: g) :: gs
           end
  end.

Fixpoint join (gs : list segment) : list Z :=
  match gs with
  | [] => []
  | [g] => g
  | g :: gs' => g ++ chr "/" :: join gs'
  end.

(** A segment is empty or a dot, the parent, or ordinary. *)
Definition is_dot (g : segment) : bool := bool_decide (g = []) || bool_decide (g = str ".").
Definition is_parent (g : segment) : bool := bool_decide (g = str "..").
Definition ordinary (g : segment) : bool := negb (is_dot g) && negb (is_parent g).

Definition push (st : list segment) (g : segment) : option (list segment) :=
  if is_dot g then Some st
  else if is_parent g then match st with [] => None | _ :: st' => Some st' end
  else Some (g :: st).

Fixpoint pushes (st : list segment) (gs : list segment) : option (list segment) :=
  match gs with
  | [] => Some st
  | g :: gs' => st ← push st g; pushes st gs'
  end.

(** The reference: a path with a dot segment at its end denotes a directory, and too many
    parents are an error. *)
Definition remove_dot_segments (uri : list Z) : option (list Z) :=
  st ← pushes [] (segments uri);
  Some (chr "/" :: join (rev (if ordinary (List.last (segments uri) []) then st else [] :: st))).

(** The segments between the first and the last slash. *)
Definition inner (s : list Z) : list segment := List.removelast (tail (segments s)).

(** ** Segments *)

Lemma segments_ne s : segments s <> [].
Proof. destruct s as [|c s]; simpl; [done|]. case_match; [done|]. by case_match. Qed.

Lemma segments_app a b : segments (a ++ chr "/" :: b) = segments a ++ segments b.
Proof.
  induction a as [|c a IH]; [done|]. cbn [app segments]. rewrite IH.
  destruct (c =? chr "/"); [done|]. destruct (segments a) eqn:E; [|done].
  by apply segments_ne in E.
Qed.

Lemma segments_flat g : chr "/" ∉ g -> segments g = [g].
Proof.
  induction g as [|c g IH]; [done|]. intros [Hc Hg]%not_elem_of_cons. cbn [segments].
  rewrite (proj2 (Z.eqb_neq c _)) by congruence. by rewrite IH.
Qed.

Lemma segments_slash s : segments (chr "/" :: s) = [] :: segments s.
Proof. done. Qed.

Lemma join_cons g gs : gs <> [] -> join (g :: gs) = g ++ chr "/" :: join gs.
Proof. by destruct gs. Qed.

Lemma join_app a b : a <> [] -> b <> [] -> join (a ++ b) = join a ++ chr "/" :: join b.
Proof.
  intros Ha Hb. induction a as [|g a IH]; [done|]. destruct a as [|g' a].
  - simpl. by destruct b.
  - change ((g :: g' :: a) ++ b) with (g :: (g' :: a) ++ b).
    rewrite !join_cons, IH by done. by rewrite <- app_assoc.
Qed.

Lemma join_snoc gs g : chr "/" :: join (gs ++ [g]) = join ([] :: gs) ++ chr "/" :: g.
Proof.
  etransitivity; [symmetry; apply (join_cons [] (gs ++ [g])); by intros [_ ?]%app_nil|].
  by apply (join_app ([] :: gs) [g]).
Qed.

Lemma join_segments s : join (segments s) = s.
Proof.
  induction s as [|c s IH]; [done|]. cbn [segments]. pose proof (segments_ne s) as Hn.
  destruct (Z.eqb_spec c (chr "/")) as [->|Hc].
  - by rewrite join_cons, IH.
  - destruct (segments s) as [|g gs]; [done|]. rewrite <- IH. by destruct gs.
Qed.

Lemma segments_join gs : gs <> [] -> Forall (fun g => chr "/" ∉ g) gs -> segments (join gs) = gs.
Proof.
  intros Hn Hf. induction Hf as [|g gs Hg Hf IH]; [done|].
  destruct gs as [|g' gs]; [by apply segments_flat|].
  rewrite join_cons, segments_app, segments_flat, IH; done.
Qed.

Lemma segments_chars s : Forall (fun g => (chr "/" ∉ g) /\ forall x, x ∈ g -> x ∈ s) (segments s).
Proof.
  assert (Hnil : forall x : Z, x ∉ []) by (by intros x ?%elem_of_nil).
  induction s as [|c s IH]; cbn [segments]; [constructor; [|done]; set_solver|].
  assert (IH' : Forall (fun g => (chr "/" ∉ g) /\ forall x, x ∈ g -> x ∈ c :: s) (segments s)).
  { eapply Forall_impl; [exact IH|]. set_solver. }
  destruct (Z.eqb_spec c (chr "/")) as [->|Hc]; [constructor; [set_solver|done]|].
  pose proof (segments_ne s). destruct (segments s) as [|g gs]; [done|].
  apply Forall_cons in IH' as [[? ?] ?]. constructor; [|done]. set_solver.
Qed.

Lemma inner_app a g b : inner (a ++ chr "/" :: g ++ chr "/" :: b) =
  tail (segments a) ++ segments g ++ List.removelast (segments b).
Proof.
  unfold inner. rewrite !segments_app. pose proof (segments_ne a). pose proof (segments_ne b).
  destruct (segments a) as [|x sa]; [done|]. simpl.
  by rewrite !List.removelast_app by (try done; by destruct (segments g)).
Qed.

Lemma inner_app1 a b : inner (a ++ chr "/" :: b) = tail (segments a) ++ List.removelast (segments b).
Proof.
  unfold inner. rewrite segments_app. pose proof (segments_ne a). pose proof (segments_ne b).
  destruct (segments a) as [|x sa]; [done|]. simpl. by rewrite List.removelast_app.
Qed.

Lemma elem_of_removelast {A} (x : A) l :
  x ∈ List.removelast l -> exists a b, l = a ++ x :: b /\ b <> [].
Proof.
  induction l as [|y l IH]; simpl; [by intros ?%elem_of_nil|].
  destruct l as [|z l]; [by intros ?%elem_of_nil|].
  intros [->|H]%elem_of_cons; [by exists [], (z :: l)|].
  destruct (IH H) as (a & b & -> & Hb). by exists (y :: a), b.
Qed.

(** An inner segment stands between two slashes. *)
Lemma inner_infix s g : g ∈ inner s -> exists a b, s = a ++ chr "/" :: g ++ chr "/" :: b.
Proof.
  unfold inner. intros (sa & sb & E & Hb)%elem_of_removelast.
  rewrite <- (join_segments s). pose proof (segments_ne s).
  destruct (segments s) as [|x gs]; [done|]. simpl in E. subst gs.
  exists (join (x :: sa)), (join sb).
  change (x :: sa ++ g :: sb) with ((x :: sa) ++ g :: sb).
  by rewrite join_app, (join_cons g sb).
Qed.

(** ** Searching *)

Lemma starts_with_spec s p : starts_with s p = true <-> exists r, s = p ++ r.
Proof.
  revert s. induction p as [|x p IH]; intros s; simpl; [split; intros; [by exists s|done]|].
  destruct s as [|y s]; [split; [done|by intros [r ?]]|].
  rewrite andb_true_iff, Z.eqb_eq, IH. split.
  - intros [-> [r ->]]. by exists r.
  - intros [r [= -> ->]]. split; [done|by exists r].
Qed.

Lemma strstr_Some s p i : strstr s p = Some i ->
  exists a b, s = a ++ p ++ b /\ length a = i /\
    forall a' b', s = a' ++ p ++ b' -> (i <= length a')%nat.
Proof.
  revert i. induction s as [|c s IH]; intros i; cbn [strstr];
    destruct (starts_with _ p) eqn:E.
  - intros [= <-]. apply starts_with_spec in E as [r Hr]. exists [], r. split; [done|].
    split; [done|]. intros. lia.
  - done.
  - intros [= <-]. apply starts_with_spec in E as [r Hr]. exists [], r. split; [done|].
    split; [done|]. intros. lia.
  - destruct (strstr s p) as [j|] eqn:Ej; [|done]. intros [= <-].
    destruct (IH j eq_refl) as (a & b & -> & <- & Hmin). exists (c :: a), b.
    split; [done|]. split; [done|]. intros [|x a'] b' H.
    + simpl in H. assert (starts_with (c :: a ++ p ++ b) p = true) by (apply starts_with_spec; eauto).
      congruence.
    + injection H as <- H. apply Hmin in H. simpl. lia.
Qed.

Lemma strstr_None s p a b : strstr s p = None -> s <> a ++ p ++ b.
Proof.
  revert a. induction s as [|c s IH]; intros a; cbn [strstr]; destruct (starts_with _ p) eqn:E;
    try done; intros H Hs.
  - by destruct a, p.
  - destruct (strstr s p) eqn:Es; [done|]. destruct a as [|x a]; simpl in Hs.
    + assert (starts_with (c :: s) p = true) by (apply starts_with_spec; eauto). congruence.
    + injection Hs as -> Hs. by apply (IH a).
Qed.

Lemma strrchr_spec s c :
  match strrchr s c with
  | None => c ∉ s
  | Some p => exists a l, s = a ++ c :: l /\ length a = p /\ c ∉ l
  end.
Proof.
  induction s as [|x s IH]; simpl; [by intros ?%elem_of_nil|].
  destruct (strrchr s c) as [p|].
  - destruct IH as (a & l & -> & <- & Hl). by exists (x :: a), l.
  - destruct (Z.eqb_spec x c) as [->|Hx]; [by exists [], s|].
    rewrite not_elem_of_cons. split; [congruence|done].
Qed.

Lemma strrchr_app a c l : c ∉ l -> strrchr (a ++ c :: l) c = Some (length a).
Proof.
  intros Hl. pose proof (strrchr_spec l c) as H. induction a as [|x a IH]; simpl; [|by rewrite IH].
  destruct (strrchr l c) as [p|]; [|by rewrite Z.eqb_refl].
  destruct H as (a & l' & -> & _). destruct Hl. set_solver.
Qed.

Lemma cstr_at_app a l i : cstr_at (a ++ l) (length a + i) = cstr_at l i.
Proof. unfold cstr_at. by rewrite lookup_app_r, Nat.add_comm, Nat.add_sub by lia. Qed.

Lemma backtrack_app a l b : chr "/" ∉ l ->
  backtrack (a ++ chr "/" :: l ++ b) (length a + 1 + length l) = (length a + 1)%nat.
Proof.
  intros Hl. revert b. induction l as [|x l IH] using rev_ind; intros b.
  - rewrite Nat.add_0_r, Nat.add_1_r. simpl.
    rewrite <- (Nat.add_0_r (length a)) at 1. by rewrite cstr_at_app.
  - apply not_elem_of_app in Hl as [Hl Hx]. rewrite length_app. simpl (length [x]).
    replace (length a + 1 + (length l + 1))%nat with (S (length a + 1 + length l)) by lia.
    cbn [backtrack]. rewrite <- app_assoc. rewrite <- Nat.add_assoc.
    rewrite cstr_at_app. simpl (cstr_at _ (1 + _)). change (chr "/" :: l ++ [x] ++ b) with ((chr "/" :: l) ++ x :: b).
    replace (cstr_at _ _) with x.
    + rewrite (proj2 (Z.eqb_neq x _)) by (intros ->; apply Hx; by left).
      rewrite Nat.add_assoc. by apply (IH Hl).
    + symmetry. pose proof (cstr_at_app (chr "/" :: l) (x :: b) 0) as E.
      rewrite Nat.add_0_r in E. exact E.
Qed.

(** ** The reference definition *)

Lemma pushes_app st a b : pushes st (a ++ b) = (st ← pushes st a; pushes st b).
Proof.
  revert st. induction a as [|g a IH]; intros st; [done|]. simpl.
  destruct (push st g); [apply IH|done].
Qed.

Lemma last_app_ne {A} (a b : list A) d : b <> [] -> List.last (a ++ b) d = List.last b d.
Proof.
  intros Hb. induction a as [|x a IH]; [done|]. simpl. rewrite IH.
  destruct (a ++ b) eqn:E; [by apply app_nil in E as [_ ?]|done].
Qed.

(** Segments in the middle that push nothing may be left out. *)
Lemma rds_drop a gs b :
  (forall st, pushes st (segments a ++ segments gs) = pushes st (segments a)) ->
  remove_dot_segments (a ++ chr "/" :: gs ++ chr "/" :: b) = remove_dot_segments (a ++ chr "/" :: b).
Proof.
  intros H. unfold remove_dot_segments. rewrite !segments_app.
  rewrite !last_app_ne by (first [apply segments_ne|intros [_ E]%app_nil; by apply segments_ne in E]).
  by rewrite app_assoc, !(pushes_app _ _ (segments b)), H.
Qed.

Lemma rds_dot a g b : is_dot g = true -> chr "/" ∉ g ->
  remove_dot_segments (a ++ chr "/" :: g ++ chr "/" :: b) = remove_dot_segments (a ++ chr "/" :: b).
Proof.
  intros Hg Hs. apply rds_drop. intros st. rewrite pushes_app, segments_flat by done.
  destruct (pushes st (segments a)) as [st'|]; [|done]. simpl. unfold push. by rewrite Hg.
Qed.

Lemma rds_parent a c b : ordinary c = true -> chr "/" ∉ c ->
  remove_dot_segments (a ++ chr "/" :: (c ++ chr "/" :: str "..") ++ chr "/" :: b) =
  remove_dot_segments (a ++ chr "/" :: b).
Proof.
  intros Hc Hs. apply rds_drop. intros st. rewrite pushes_app, segments_app, (segments_flat c) by done.
  destruct (pushes st (segments a)) as [st'|]; [|done]. simpl. unfold push.
  unfold ordinary in Hc. simpl_bool. by rewrite H, H0.
Qed.

Lemma pushes_ordinary st gs : Forall (fun g => ordinary g = true) gs -> pushes st gs = Some (rev gs ++ st).
Proof.
  intros H. revert st. induction H as [|g gs Hg _ IH]; intros st; [done|].
  simpl. unfold push. unfold ordinary in Hg. simpl_bool. rewrite H, H0. simpl.
  by rewrite IH, <- app_assoc.
Qed.

(** ** The passes of [uri_compress]

    [stage P uri dest]: the edited string [dest] is still an absolute path with the same
    meaning as [uri], and its inner segments satisfy [P]. *)
Record stage (P : segment -> Prop) (uri dest : list Z) : Prop := {
  st_head : exists s, dest = chr "/" :: s;
  st_null : 0 ∉ dest;
  st_ref : remove_dot_segments dest = remove_dot_segments uri;
  st_inner : Forall P (inner dest) }.

Lemma stage_step (P : segment -> Prop) uri a g b :
  remove_dot_segments (a ++ chr "/" :: g ++ chr "/" :: b) = remove_dot_segments (a ++ chr "/" :: b) ->
  stage P uri (a ++ chr "/" :: g ++ chr "/" :: b) -> stage P uri (a ++ chr "/" :: b).
Proof.
  intros Hr [[s Hs] Hn He Hi]. constructor.
  - destruct a as [|x a]; simpl in *; [by eexists|]. injection Hs as -> _. by eexists.
  - set_solver.
  - by rewrite <- Hr.
  - rewrite inner_app in Hi. rewrite inner_app1.
    apply Forall_app in Hi as [? [? ?]%Forall_app]. by apply Forall_app.
Qed.

Lemma stage_weaken (P Q : segment -> Prop) uri dest :
  (forall g, g ∈ inner dest -> P g -> Q g) -> stage P uri dest -> stage Q uri dest.
Proof.
  intros HPQ [? ? ? Hi]. constructor; try done.
  rewrite Forall_forall in Hi |- *. auto.
Qed.

Lemma strstr_inner s g : strstr s (chr "/" :: g ++ [chr "/"]) = None -> g ∉ inner s.
Proof.
  intros H (a & b & ->)%inner_infix. eapply (strstr_None _ _ a b H).
  simpl. by rewrite <- app_assoc.
Qed.

Lemma eliminate_spec (P : segment -> Prop) uri g fuel dest :
  is_dot g = true -> chr "/" ∉ g -> (length dest <= fuel)%nat -> stage P uri dest ->
  stage (fun x => P x /\ x <> g) uri
    (eliminate fuel (chr "/" :: g ++ [chr "/"]) (length g + 2) dest).
Proof.
  intros Hd Hg. revert dest. induction fuel as [|fuel IH]; intros dest Hl Hst.
  - destruct (st_head _ _ _ Hst) as [s ->]. simpl in Hl. lia.
  - cbn [eliminate]. destruct (strstr dest _) as [p|] eqn:E.
    + apply strstr_Some in E as (a & b & -> & <- & _). unfold move_down.
      simpl. rewrite <- app_assoc. simpl.
      replace (take _ _) with (a ++ [chr "/"]); [|by rewrite take_app_add].
      rewrite drop_app_add. replace (drop _ _) with b.
      * rewrite <- app_assoc. apply IH.
        { rewrite !length_app in Hl |- *. simpl in *. rewrite !length_app in Hl. simpl in Hl. lia. }
        eapply stage_step; [by apply rds_dot|]. simpl in Hst. by rewrite <- app_assoc in Hst.
      * replace (length g + 2)%nat with (S (length g + 1)) by lia. simpl.
        by rewrite drop_app_add.
    + eapply stage_weaken; [|exact Hst]. intros x Hx HP. split; [done|]. intros ->.
      by apply strstr_inner in E.
Qed.

Lemma eliminate_parent_spec uri fuel dest :
  (length dest <= fuel)%nat -> stage (fun g => is_dot g = false) uri dest ->
  match eliminate_parent fuel dest with
  | None => remove_dot_segments uri = None
  | Some r => stage (fun g => ordinary g = true) uri r
  end.
Proof.
  revert dest. induction fuel as [|fuel IH]; intros dest Hl Hst.
  { destruct (st_head _ _ _ Hst) as [s ->]. simpl in Hl. lia. }
  cbn [eliminate_parent]. destruct (strstr dest _) as [p|] eqn:E.
  - apply strstr_Some in E as (a & b & -> & <- & Hmin). destruct a as [|x a].
    { simpl. by rewrite <- (st_ref _ _ _ Hst). }
    simpl (length (x :: a)) at 1. cbv iota beta.
    destruct (st_head _ _ _ Hst) as [s Hs]. injection Hs as -> _.
    pose proof (strrchr_spec (chr "/" :: a) (chr "/")) as Hr.
    destruct (strrchr _ _) as [q|]; [|destruct Hr; by left].
    destruct Hr as (a' & c & Ha & _ & Hc). rewrite Ha in Hst, Hl, Hmin |- *.
    rewrite <- app_assoc in Hst, Hl, Hmin |- *. cbn [app] in Hst, Hl, Hmin |- *.
    assert (Hbt : length (a' ++ chr "/" :: c) = (length a' + 1 + length c)%nat).
    { rewrite length_app. simpl. lia. }
    rewrite Hbt in Hmin |- *. rewrite backtrack_app by done. unfold move_down.
    replace (take _ _) with (a' ++ [chr "/"]); [|by rewrite take_app_add].
    replace (drop _ _) with b;
      [|by rewrite <- !Nat.add_assoc, drop_app_add; simpl; rewrite drop_app_add].
    rewrite <- app_assoc. apply IH.
    { rewrite !length_app in Hl |- *. simpl in *. rewrite !length_app in Hl. simpl in Hl. lia. }
    assert (E : c ++ str "/../" ++ b = (c ++ chr "/" :: str "..") ++ chr "/" :: b)
      by (by rewrite <- app_assoc).
    rewrite E in Hst. eapply stage_step; [|exact Hst]. apply rds_parent; [|done].
    pose proof (st_inner _ _ _ Hst) as Hi. rewrite inner_app in Hi.
    apply Forall_app in Hi as [_ [Hi _]%Forall_app]. rewrite segments_app, (segments_flat c) in Hi by done.
    apply Forall_cons in Hi as [Hi _]. unfold ordinary. rewrite Hi. simpl.
    unfold is_parent. apply negb_true_iff, bool_decide_eq_false. intros ->.
    specialize (Hmin a' (str "../" ++ b) eq_refl). simpl in Hmin. lia.
  - eapply stage_weaken; [|exact Hst]. simpl. intros g Hg Hd. unfold ordinary. rewrite Hd. simpl.
    unfold is_parent. apply negb_true_iff, bool_decide_eq_false. intros ->.
    by apply (strstr_inner dest (str "..")) in E.
Qed.

(** The meaning of a path whose inner segments are ordinary is determined by its last one. *)
Lemma rds_ordinary a l :
  (exists s, a ++ chr "/" :: l = chr "/" :: s) -> chr "/" ∉ l ->
  Forall (fun g => ordinary g = true) (inner (a ++ chr "/" :: l)) ->
  remove_dot_segments (a ++ chr "/" :: l) =
  if is_dot l then Some (a ++ str "/")
  else if is_parent l then
    match strrchr a (chr "/") with
    | None => None
    | Some p => Some (take (p + 1) a)
    end
  else Some (a ++ chr "/" :: l).
Proof.
  intros [s Hs] Hl Hi. rewrite inner_app1, (segments_flat l) in Hi by done. simpl in Hi.
  rewrite app_nil_r in Hi.
  unfold remove_dot_segments. rewrite segments_app, (segments_flat l), last_app_ne by done.
  assert (Ha : exists t, segments a = [] :: t).
  { destruct a as [|x a]; [by eexists|]. injection Hs as -> _. by eexists. }
  destruct Ha as [t Ht]. pose proof (join_segments a) as Hj. rewrite Ht in Hi, Hj |- *. simpl in Hi.
  assert (Hp : pushes [] ([] :: t) = Some (rev t)).
  { change (pushes [] t = Some (rev t)). by rewrite pushes_ordinary, app_nil_r. }
  assert (Hjoin : forall g, chr "/" :: join (t ++ [g]) = a ++ chr "/" :: g).
  { intros g. by rewrite <- Hj, <- join_snoc. }
  rewrite pushes_app, Hp. simpl. unfold push, ordinary. destruct (is_dot l) eqn:Hdot; simpl.
  { by rewrite rev_involutive, Hjoin. }
  destruct (is_parent l) eqn:Hpar; simpl; [|by rewrite rev_involutive, Hjoin].
  pose proof (strrchr_spec a (chr "/")) as Hr. destruct (strrchr a (chr "/")) as [p|].
  - destruct Hr as (a2 & c & -> & <- & Hc). rewrite segments_app, (segments_flat c) in Ht by done.
    destruct (segments a2) as [|x t'] eqn:E2; [by apply segments_ne in E2|].
    injection Ht as -> <-. rewrite rev_app_distr. simpl. rewrite rev_involutive.
    rewrite take_app_add. simpl. pose proof (join_segments a2) as Hj2. rewrite E2 in Hj2.
    by rewrite <- Hj2, <- join_snoc.
  - rewrite segments_flat in Ht by done. by injection Ht as _ <-.
Qed.

Lemma is_dot_test l : 0 ∉ l ->
  (cstr_at l 0 =? chr ".") && (cstr_at l 1 =? 0) = bool_decide (l = str ".").
Proof.
  intros Hn. unfold cstr_at. destruct l as [|x [|y l]]; try done; simpl.
  - rewrite andb_true_r. apply eq_bool_prop_intro. rewrite bool_decide_spec, Is_true_true, Z.eqb_eq.
    split; [by intros ->|by intros [= ->]].
  - rewrite (bool_decide_eq_false_2 (_ = _)) by done.
    rewrite (proj2 (Z.eqb_neq y 0)); [by rewrite andb_false_r|]. set_solver.
Qed.

Lemma is_parent_test l : 0 ∉ l ->
  (cstr_at l 0 =? chr ".") && (cstr_at l 1 =? chr ".") && (cstr_at l 2 =? 0) = is_parent l.
Proof.
  intros Hn. unfold cstr_at, is_parent. destruct l as [|x [|y [|z l]]]; try done; simpl.
  - rewrite andb_false_r. by rewrite bool_decide_eq_false_2.
  - rewrite andb_true_r. apply eq_bool_prop_intro.
    rewrite bool_decide_spec, Is_true_true, andb_true_iff, !Z.eqb_eq.
    split; [by intros [-> ->]|by intros [= -> ->]].
  - rewrite (bool_decide_eq_false_2 (_ = _)) by done.
    rewrite (proj2 (Z.eqb_neq z 0)); [by rewrite andb_false_r|]. set_solver.
Qed.

(** An absolute path is cut by its last slash. *)
Lemma absolute_cut dest : (exists s, dest = chr "/" :: s) ->
  exists a l, dest = a ++ chr "/" :: l /\ (chr "/" ∉ l) /\ strrchr dest (chr "/") = Some (length a) /\
    (a = [] \/ exists s, a = chr "/" :: s).
Proof.
  intros [s ->]. pose proof (strrchr_spec (chr "/" :: s) (chr "/")) as H.
  destruct (strrchr _ _) as [p|]; [|destruct H; by left].
  destruct H as (a & l & E & <- & Hl). exists a, l. repeat split; [done|done|].
  destruct a as [|x a]; [by left|]. injection E as <- _. right. by exists a.
Qed.

Lemma not_dot_string dest : (exists s, dest = chr "/" :: s) -> bool_decide (dest = str ".") = false.
Proof. intros [s ->]. by apply bool_decide_eq_false_2. Qed.

Lemma uri_compress_tail_spec uri dest :
  stage (fun g => ordinary g = true) uri dest -> uri_compress_tail dest = remove_dot_segments uri.
Proof.
  intros [Hh Hn <- Hi]. destruct (absolute_cut dest Hh) as (a & l & -> & Hl & Hr & Ha).
  rewrite rds_ordinary by done. unfold uri_compress_tail. rewrite Hr.
  assert (Hnl : 0 ∉ l) by set_solver.
  rewrite !cstr_at_app. change (cstr_at (chr "/" :: l) 1) with (cstr_at l 0).
  change (cstr_at (chr "/" :: l) 2) with (cstr_at l 1). change (cstr_at (chr "/" :: l) 3) with (cstr_at l 2).
  rewrite is_dot_test, is_parent_test by done. rewrite (not_dot_string (a ++ _)) by done.
  rewrite take_app_add. simpl (take 1 _). rewrite (not_dot_string (a ++ [_])).
  2: { destruct Ha as [->|[s ->]]; by eexists. }
  unfold is_dot. rewrite take_app_length. destruct (decide (l = [])) as [->|Hne]; [done|].
  rewrite (bool_decide_eq_false_2 (l = [])) by done. simpl.
  destruct (bool_decide (l = str ".")); [done|]. destruct (is_parent l); [|done].
  destruct Ha as [->|[s ->]]; [done|]. simpl (length (_ :: _)). cbv iota.
  destruct (absolute_cut (chr "/" :: s)) as (a2 & l2 & E & _ & Hr2 & Ha2); [by eexists|].
  rewrite Hr2. rewrite not_dot_string; [done|]. rewrite E, take_app_add. simpl.
  destruct Ha2 as [->|[s2 ->]]; by eexists.
Qed.

(** ** The theorem *)

(** An absolute path without dot segments. *)
Definition canonical (r : list Z) : Prop :=
  (exists s, r = chr "/" :: s) /\ Forall (fun g => ordinary g = true) (inner r) /\
  let l := List.last (segments r) [] in l = [] \/ ordinary l = true.

Lemma pushes_Forall (P : segment -> Prop) gs st st' :
  Forall P gs -> Forall (fun g => ordinary g = true /\ P g) st -> pushes st gs = Some st' ->
  Forall (fun g => ordinary g = true /\ P g) st'.
Proof.
  intros Hgs. revert st. induction Hgs as [|g gs Hg Hgs IH]; intros st Hst; simpl.
  - by intros [= <-].
  - destruct (push st g) as [st1|] eqn:E; [|done]. apply IH. unfold push in E.
    destruct (is_dot g) eqn:E1; [by injection E as <-|]. destruct (is_parent g) eqn:E2.
    + destruct st as [|x st]; [done|]. injection E as <-. by apply Forall_cons in Hst as [_ ?].
    + injection E as <-. constructor; [|done]. split; [|done]. unfold ordinary. by rewrite E1, E2.
Qed.

Lemma join_not_elem x gs : Forall (fun g => x ∉ g) gs -> x <> chr "/" -> x ∉ join gs.
Proof.
  intros H Hx. induction H as [|g gs Hg H IH]; [by intros ?%elem_of_nil|].
  destruct gs as [|g' gs]; [done|]. rewrite join_cons by done.
  rewrite not_elem_of_app, not_elem_of_cons. by split.
Qed.

Lemma canonical_join gs l :
  Forall (fun g => ordinary g = true /\ (chr "/" ∉ g) /\ 0 ∉ g) gs ->
  (chr "/" ∉ l) -> (0 ∉ l) -> l = [] \/ ordinary l = true ->
  canonical (chr "/" :: join (gs ++ [l])) /\ (0 ∉ chr "/" :: join (gs ++ [l])).
Proof.
  intros Hgs Hs Hn Ho.
  assert (Hseg : segments (chr "/" :: join (gs ++ [l])) = [] :: gs ++ [l]).
  { rewrite segments_slash, segments_join; [done|by intros [_ ?]%app_nil|].
    apply Forall_app. split; [|by constructor]. eapply Forall_impl; [exact Hgs|naive_solver]. }
  split.
  - split; [by eexists|]. unfold inner. rewrite Hseg. split.
    + simpl. rewrite List.removelast_last. eapply Forall_impl; [exact Hgs|naive_solver].
    + change ([] :: gs ++ [l]) with (([] :: gs) ++ [l]). by rewrite last_app_ne.
  - rewrite not_elem_of_cons. split; [done|]. apply join_not_elem; [|done].
    apply Forall_app. split; [|by constructor]. eapply Forall_impl; [exact Hgs|naive_solver].
Qed.

Lemma pushes_last st gs l st' :
  ordinary l = true -> pushes st (gs ++ [l]) = Some st' -> exists st0, st' = l :: st0.
Proof.
  intros Ho. rewrite pushes_app. destruct (pushes st gs) as [st1|]; [|done]. simpl. unfold push.
  unfold ordinary in Ho. simpl_bool. rewrite H, H0. intros [= <-]. by eexists.
Qed.

Lemma rds_canonical uri r : 0 ∉ uri -> remove_dot_segments uri = Some r -> canonical r /\ (0 ∉ r).
Proof.
  intros Hn. unfold remove_dot_segments.
  destruct (pushes [] (segments uri)) as [st|] eqn:E; [|done].
  pose proof (pushes_Forall (fun g => (chr "/" ∉ g) /\ 0 ∉ g) (segments uri) [] st) as HF.
  specialize (HF ltac:(eapply Forall_impl; [exact (segments_chars uri)|naive_solver])
                 ltac:(done) E).
  assert (Hnil : forall x : Z, x ∉ []) by (by intros x ?%elem_of_nil).
  destruct (ordinary _) eqn:Ho; intros [= <-].
  - rewrite (List.app_removelast_last [] (segments_ne uri)) in E.
    destruct (pushes_last _ _ _ _ Ho E) as [st0 ->]. simpl.
    apply Forall_cons in HF as [(? & ? & ?) HF]. apply canonical_join; auto. by apply Forall_rev.
  - simpl. apply canonical_join; auto. by apply Forall_rev.
Qed.

Lemma canonical_fixed r : canonical r -> remove_dot_segments r = Some r.
Proof.
  intros (Hh & Hi & Hlast). destruct (absolute_cut r Hh) as (a & l & -> & Hl & _ & _).
  rewrite rds_ordinary by done.
  rewrite segments_app, (segments_flat l), last_app_ne in Hlast by done. simpl in Hlast.
  destruct Hlast as [->|Ho]; [done|]. unfold ordinary in Ho. simpl_bool. by rewrite H, H0.
Qed.

Section Compress.
Context `{UL : UriLib} {LW : UriLaws}.

Lemma ends_with_dot a l : chr "/" ∉ l ->
  StringEndsWith (a ++ chr "/" :: l) (str "/.") = false -> l <> str ".".
Proof.
  intros Hl. rewrite StringEndsWith_spec. intros H%bool_decide_eq_false ->. apply H. by exists a.
Qed.

(** The cheap route is right: a path without any of the patterns is in its final form. *)
Lemma cheap_route_canonical uri :
  (exists s, uri = chr "/" :: s) -> strstr uri (str "//") = None -> strstr uri (str "/./") = None ->
  strstr uri (str "/..") = None -> StringEndsWith uri (str "/.") = false -> canonical uri.
Proof.
  intros Hh H1 H2 H3 H4. split; [done|].
  assert (Hp : forall a b, uri <> a ++ chr "/" :: str ".." ++ b)
    by (intros a b; exact (strstr_None _ _ a b H3)).
  split.
  - rewrite Forall_forall. intros g Hg. unfold ordinary, is_dot, is_parent.
    apply andb_true_iff. split; apply negb_true_iff.
    + apply orb_false_iff. split; apply bool_decide_eq_false_2; intros ->.
      * by apply (strstr_inner uri []) in H1.
      * by apply (strstr_inner uri (str ".")) in H2.
    + apply bool_decide_eq_false_2. intros ->. apply inner_infix in Hg as (a & b & ->).
      by eapply Hp.
  - destruct (absolute_cut uri Hh) as (a & l & -> & Hl & _ & _).
    rewrite segments_app, (segments_flat l), last_app_ne by done. simpl.
    destruct (decide (l = [])) as [->|Hne]; [by left|right].
    unfold ordinary, is_dot, is_parent. apply (ends_with_dot a) in H4; [|done].
    rewrite !bool_decide_eq_false_2; try done. intros ->. by eapply (Hp a []).
Qed.

Lemma uri_compress_absolute uri :
  (exists s, uri = chr "/" :: s) -> 0 ∉ uri -> uri_compress uri = remove_dot_segments uri.
Proof.
  intros Hh Hn. assert (Hskip : skip_dot_slash uri = uri) by (destruct Hh as [[|y s] ->]; done).
  unfold uri_compress. rewrite Hskip.
  replace (cstr_at uri 0 =? chr ".") with false by (by destruct Hh as [s ->]). cbn [andb].
  destruct (_ && _) eqn:E.
  - simpl_bool. rewrite canonical_fixed; [done|]. by apply cheap_route_canonical.
  - clear E. set (d1 := eliminate (length uri) _ _ _).
    set (d2 := eliminate (length d1) _ _ _).
    assert (S1 : stage (fun g => True /\ g <> []) uri d1).
    { apply (eliminate_spec (fun _ => True) uri []); [done|by intros ?%elem_of_nil|done|].
      constructor; try done. by apply Forall_true. }
    assert (S2 : stage (fun g => (True /\ g <> []) /\ g <> str ".") uri d2).
    { apply (eliminate_spec _ uri (str ".")); try done. by rewrite <- (bool_decide_spec (_ ∉ _)). }
    pose proof (eliminate_parent_spec uri (length d2) d2) as S3.
    destruct (eliminate_parent (length d2) d2) as [d3|].
    + apply uri_compress_tail_spec, S3; [done|]. eapply stage_weaken; [|exact S2].
      intros g _ [[_ H1] H2]. unfold is_dot. by rewrite !bool_decide_eq_false_2.
    + symmetry. apply S3; [done|]. eapply stage_weaken; [|exact S2].
      intros g _ [[_ H1] H2]. unfold is_dot. by rewrite !bool_decide_eq_false_2.
Qed.

(** C32: for every absolute path, [uri_compress()] computes what the reference definition
    computes, a walk over the segments with a stack: empty segments and dots are dropped, a
    parent removes the segment before it, and [nullptr] is returned exactly if a parent would
    leave the root.  The result is an absolute path without any empty inner segments or dot
    segments, and compressing it again changes nothing. *)
Theorem uri_compress_spec uri :
  (exists s, uri = chr "/" :: s) -> 0 ∉ uri ->
  uri_compress uri = remove_dot_segments uri /\
  forall r, uri_compress uri = Some r -> canonical r /\ uri_compress r = Some r.
Proof.
  intros Hh Hn. rewrite uri_compress_absolute by done. split; [done|]. intros r Hr.
  destruct (rds_canonical uri r Hn Hr) as [Hc Hn']. split; [done|].
  rewrite uri_compress_absolute by (done || apply Hc). by apply canonical_fixed.
Qed.

End Compress.
