(* ===== verification/UriInstance.v ===== *)
(** * The library functions of URIs on concrete strings

    An instance of [UriLib] with its laws, for the examples and witnesses: the string functions as
    they are documented, and an escaping that keeps letters and digits.  The URI functions that no
    law mentions accept everything. *)

From Stdlib Require Import String.
From S2P Require Import Prelude StrMap Uri UriFacts UriCompress.

Definition cut (s : list Z) (c : Z) : list Z * option (list Z) :=
  match strchr s c with
  | Some i => (take i s, Some (drop (S i) s))
  | None => (s, None)
  end.

Fixpoint cut_all (s : list Z) (c : Z) : list (list Z) :=
  match s with
  | [] => [[]]
  | x :: s' =>
      if x =? c then [] :: cut_all s' c
      else match cut_all s' c with [] => [[x]] | g :: gs => (x :: g) :: gs end
  end.

Definition to_hex_digit (d : Z) : Z := if d <? 10 then d + 48 else d + 87.

Definition parse_hex (c : Z) : Z :=
  if (48 <=? c) && (c <=? 57) then c - 48
  else if (97 <=? c) && (c <=? 102) then c - 87
  else if (65 <=? c) && (c <=? 70) then c - 55 else -1.

Definition unreserved (c : Z) : bool :=
  ((48 <=? c) && (c <=? 57)) || ((97 <=? c) && (c <=? 122)) || ((65 <=? c) && (c <=? 90)).

Definition escape_char1 (esc c : Z) : list Z :=
  if unreserved c then [c] else [esc; to_hex_digit ((c / 16) mod 16); to_hex_digit (c mod 16)].

Definition escape_ (s : list Z) (esc : Z) : list Z := concat (map (escape_char1 esc) s).

Fixpoint unescape_ (s : list Z) (esc : Z) : option (list Z) :=
  match s with
  | [] => Some []
  | x :: s' =>
      if x =? esc then
        match s' with
        | a :: b :: s'' =>
            if (parse_hex a <? 0) || (parse_hex b <? 0) then None
            else cons (parse_hex a * 16 + parse_hex b) <$> unescape_ s'' esc
        | _ => None
        end
      else cons x <$> unescape_ s' esc
  end.

#[global] Instance ConcreteUriLib : UriLib := {|
  Split := cut;
  Partition s n := (take n s, drop n s);
  IterableSplitString := cut_all;
  StringEndsWith s suffix := bool_decide (suffix `suffix_of` s);
  StringAfterPrefix s p := if starts_with s p then Some (drop (length p) s) else None;
  RemoveSuffix s suffix :=
    if bool_decide (suffix `suffix_of` s) then Some (take (length s - length suffix) s) else None;
  ParseHexDigit := parse_hex;
  uri_path_verify s := starts_with s (str "/");
  UriHasScheme s := false;
  UriAfterScheme s := None;
  UriPathQueryFragment s := Some O;
  UriHostAndPort s := None;
  UriEscape := escape_;
  UriUnescape := unescape_ |}.

Lemma cut_all_one s c : c ∉ s -> cut_all s c = [s].
Proof.
  induction s as [|x s IH]; [done|]. intros [Hx Hs]%not_elem_of_cons. simpl.
  rewrite (proj2 (Z.eqb_neq x c)) by congruence. by rewrite IH.
Qed.

Lemma cut_all_cons a c b : c ∉ a -> cut_all (a ++ c :: b) c = a :: cut_all b c.
Proof.
  induction a as [|x a IH]; simpl; [by rewrite Z.eqb_refl|].
  intros [Hx Ha]%not_elem_of_cons. rewrite (proj2 (Z.eqb_neq x c)) by congruence. by rewrite IH.
Qed.

Lemma to_hex_digit_range d : 0 <= d < 16 ->
  48 <= to_hex_digit d <= 102 /\ parse_hex (to_hex_digit d) = d /\ to_hex_digit d <> 61.
Proof.
  intros Hd. unfold parse_hex, to_hex_digit. destruct (d <? 10) eqn:E; simpl_bool.
  - rewrite (proj2 (Z.leb_le 48 _)), (proj2 (Z.leb_le _ 57)) by lia. simpl. lia.
  - rewrite (proj2 (Z.leb_gt (d + 87) 57)), andb_false_r by lia.
    rewrite (proj2 (Z.leb_le 97 _)), (proj2 (Z.leb_le _ 102)) by lia. simpl. lia.
Qed.

Lemma unreserved_range c : unreserved c = true -> 48 <= c <= 122.
Proof. unfold unreserved. intros H. simpl_bool. destruct H as [H|H]; simpl_bool; [|lia]. destruct H; simpl_bool; lia. Qed.

Lemma escape_char1_safe c : 38 ∉ escape_char1 36 c.
Proof.
  pose proof (to_hex_digit_range ((c / 16) mod 16) (Z.mod_pos_bound _ 16 eq_refl)) as H1.
  pose proof (to_hex_digit_range (c mod 16) (Z.mod_pos_bound _ 16 eq_refl)) as H2.
  unfold escape_char1. destruct (unreserved c) eqn:E.
  - intros <-%list_elem_of_singleton. apply unreserved_range in E. lia.
  - rewrite !elem_of_cons. intros [H|[H|[H|H]]]; try lia. by apply elem_of_nil in H.
Qed.

Lemma unescape_char1 c s : is_byte c ->
  unescape_ (escape_char1 36 c ++ s) 36 = cons c <$> unescape_ s 36.
Proof.
  intros Hc. unfold escape_char1. destruct (unreserved c) eqn:E.
  - simpl. rewrite (proj2 (Z.eqb_neq c 36)); [done|]. apply unreserved_range in E. lia.
  - cbn [app unescape_]. rewrite Z.eqb_refl.
    destruct (to_hex_digit_range ((c / 16) mod 16) (Z.mod_pos_bound _ 16 eq_refl)) as (_ & -> & _).
    destruct (to_hex_digit_range (c mod 16) (Z.mod_pos_bound _ 16 eq_refl)) as (_ & -> & _).
    pose proof (Z.mod_pos_bound (c / 16) 16 eq_refl). pose proof (Z.mod_pos_bound c 16 eq_refl).
    rewrite (proj2 (Z.ltb_ge _ 0)), (proj2 (Z.ltb_ge _ 0)) by lia. simpl orb. cbv iota.
    unfold is_byte in Hc. rewrite (Z.mod_small (c / 16)).
    + by rewrite (Z.mul_comm (c / 16)), <- Z.div_mod.
    + split; [by apply Z.div_pos; lia|]. apply Z.div_lt_upper_bound; lia.
Qed.

#[global] Instance ConcreteUriLaws : UriLaws.
Proof.
  constructor; simpl.
  - intros a c b H. unfold cut. rewrite strchr_app by done. rewrite take_app_length.
    replace (S (length a)) with (length a + 1)%nat by lia. by rewrite drop_app_add.
  - intros s c H. unfold cut. by rewrite strchr_missing.
  - done.
  - done.
  - intros p s. rewrite (proj2 (starts_with_spec _ _)) by eauto. by rewrite drop_app_length.
  - intros s p H. destruct (starts_with s p) eqn:E; [|done].
    apply starts_with_spec in E. done.
  - apply cut_all_one.
  - apply cut_all_cons.
  - intros s c. unfold escape_. induction s as [|x s IH]; simpl; [done|]. rewrite length_app.
    assert ((length (escape_char1 c x) <= 3)%nat) by (unfold escape_char1; destruct (unreserved x); simpl; lia).
    lia.
  - intros s. unfold escape_. induction s as [|x s IH]; simpl; [by intros ?%elem_of_nil|].
    rewrite not_elem_of_app. split; [apply escape_char1_safe|done].
  - intros s H. change (chr "$") with 36. unfold escape_.
    induction H as [|x s Hx _ IH]; [done|]. cbn [map concat]. by rewrite unescape_char1, IH.
Qed.

(** ** Examples: the unit tests of the program *)

Example uri_compress_tests :
  map uri_compress (map str ["/foo/bar"; "/./foo/bar"; "./foo/bar/"; "/foo///bar/"; "/1/2/../../3/";
    "foo/../bar"; "foo//../bar"; "foo/.."; "foo/."; "foo/../."; "/1/2/.."; "/1/2/../../../3/"; "/../";
    "/a/../../"; "/.."; ".."]%string) =
  map (fmap str) [Some "/foo/bar"; Some "/foo/bar"; Some "foo/bar/"; Some "/foo/bar/"; Some "/3/";
    Some "bar"; Some "bar"; Some ""; Some "foo/"; Some ""; Some "/1/"; None; None; None; None; None]%string.
Proof. vm_compute. reflexivity. Qed.

Example NormalizeUriPath_tests :
  map NormalizeUriPath (map str ["/foo/./bar"; "./foo//bar/."; "."; "/../x"]%string) =
  map str ["/foo/bar"; "foo/bar/"; ""; "/../x"]%string.
Proof. vm_compute. reflexivity. Qed.

Example UriFindUnescapedSuffix_tests :
  map (UriFindUnescapedSuffix (str "/foo"))
    (map str ["bar"; "foo"; "/foo"; " /foo"; "%6f%6f"; "%2f%66%6f%6f"; "%6f%6"; "%%6f"]%string) =
  [None; Some 1; Some 0; None; Some 2; Some 0; None; None]%nat.
Proof. vm_compute. reflexivity. Qed.

Example uri_absolute_tests :
  map (fun '(b, u) => uri_absolute (str b) (str u))
    [("/", "foo"); ("/bar", "foo"); ("/bar/", "/foo"); ("/bar", "?foo"); ("/foo/", "//example.com/bar")]%string =
  map str ["/foo"; "/foo"; "/foo"; "/bar?foo"; "//example.com/bar"]%string.
Proof. vm_compute. reflexivity. Qed.

#[local] Instance AppendOrder : HashSetOrder :=
  {| hs_insert A x l := l ++ [x]; hs_insert_perm A x l := Permutation_app_comm l [x] |}.

Example args_parse_test :
  args_parse (str "a=foo&b=bar&c=$20&=&=xyz&d=&e") =
  map (fun '(k, v) => (str k, str v)) [("a", "foo"); ("b", "bar"); ("c", " "); ("d", "")]%string.
Proof. vm_compute. reflexivity. Qed.

(** The comment on [args_format_n()] says that a null replacement value removes the key; the
    code writes the key with an empty value. *)
Example args_format_null_value :
  args_format_n (Some [(str "a", str "1"); (str "b", str "2")]) (Some (str "a", [])) None None None =
  Some (str "b=2&a=").
Proof. vm_compute. reflexivity. Qed.

(** A path that does not start with a slash may leave its base: ".." is only refused at the
    beginning, before other segments have been eliminated. *)
Example uri_compress_relative_escape :
  uri_compress (str "a/../../b") = Some (str "../b") /\ uri_compress (str "a/../..") = Some (str "..").
Proof. vm_compute. done. Qed.

(** ** Witnesses *)

Lemma dissect_roundtrip_witness :
  dissected_wf (mkDissected (str "/a") (Some (str "x=1")) (Some (str "/b")) (Some (str "q"))) /\
  RecomposeUri (mkDissected (str "/a") (Some (str "x=1")) (Some (str "/b")) (Some (str "q"))) =
    str "/a;x=1/b?q".
Proof. apply (proj1 dissect_roundtrip). vm_compute. reflexivity. Defined.

Lemma uri_compress_spec_witness :
  canonical (str "/1/") /\ uri_compress (str "/1/") = Some (str "/1/").
Proof.
  apply (uri_compress_spec (str "/1/./2/..")).
  - exists (str "1/./2/.."). vm_compute. reflexivity.
  - apply (bool_decide_unpack _). vm_compute. exact I.
  - vm_compute. reflexivity.
Defined.

Lemma args_roundtrip_witness :
  exists s,
    args_format_n (Some [(str "a", str "x&y"); (str "b", [])]) (Some (str "b", str "=")) None None None =
      Some s /\
    args_parse s ≡ₚ [(str "a", str "x&y"); (str "b", str "=")].
Proof.
  destruct (args_roundtrip (Some [(str "a", str "x&y"); (str "b", [])]) (Some (str "b", str "="))
    None None None) as (s & H1 & H2).
  exists s. split; [exact H1|]. apply H2. unfold arg_wf, is_byte. vm_compute remaining.
  repeat constructor; try (apply (bool_decide_unpack _); vm_compute; exact I); simpl; try done; lia.
Defined.
