(* ===== verification/HttpCacheRFCFacts.v ===== *)
(** * The decisions of the HTTP cache: theorems

    What may be stored, for how long, and which requests a stored response fits; with concrete
    library functions for the examples at the end. *)

From Stdlib Require Import String.
From S2P Require Import Prelude CharUtil StrMap Uri UriInstance HttpCacheRFC.

Section Facts.
Context `{CU : CharUtil} `{UL : UriLib} `{HL : HttpLib}.
Context `{HS : HashSetOrder} `{TL : TrieLaws}.

(** ** "Vary" *)

(** The value of a request header, where a missing header counts as empty. *)
Definition header_value (headers : StringMap) (name : list Z) : list Z :=
  default [] (StringMap_Get name headers).

Lemma Set_elem key v k w m :
  (k, w) ∈ fst (StringMap_Set key v m) -> (k, w) = (key, v) \/ (k, w) ∈ m.
Proof.
  rewrite <-elem_of_values. rewrite values_Set. destruct (decide (k = key)) as [->|Hk].
  - intros [->|H]%elem_of_cons; [by left|]. right. apply elem_of_values.
    pose proof (Remove_result key m) as Hr. destruct (snd (StringMap_Remove key m)).
    + rewrite Hr. by right.
    + by destruct Hr as [_ <-].
  - intros H. right. by apply elem_of_values.
Qed.

Lemma Set_found key v m : (key, v) ∈ fst (StringMap_Set key v m).
Proof. apply elem_of_values. rewrite values_Set, decide_True by done. left. Qed.

Lemma Set_keeps key v k w m : k <> key -> (k, w) ∈ m -> (k, w) ∈ fst (StringMap_Set key v m).
Proof. intros Hk H. apply elem_of_values. rewrite values_Set, decide_False by done. by apply elem_of_values. Qed.

(** The items of the copy are the listed headers with their values. *)
Lemma copy_vary_elem vary headers k v :
  (k, v) ∈ http_cache_copy_vary vary headers <->
  k ∈ http_list_split vary /\ v = header_value headers k.
Proof.
  unfold http_cache_copy_vary. fold header_value.
  assert (H : forall names dest seen,
    (forall k v, (k, v) ∈ dest <-> k ∈ seen /\ v = header_value headers k) ->
    (k, v) ∈ fold_left (fun dest name => fst (StringMap_Set name (header_value headers name) dest)) names dest
    <-> (k ∈ seen ++ names) /\ v = header_value headers k).
  { intros names. induction names as [|name names IH]; intros dest seen Hd; simpl.
    - by rewrite app_nil_r.
    - rewrite (IH _ (seen ++ [name])); [by rewrite <-app_assoc|]. intros k' v'. split.
      + intros [[= -> ->]|H]%Set_elem; [split; [|done]; set_solver|].
        apply Hd in H as [? ?]. split; [set_solver|done].
      + intros [H ->]. destruct (decide (k' = name)) as [->|Hk]; [apply Set_found|].
        apply Set_keeps; [done|]. apply Hd. split; [|done].
        apply elem_of_app in H as [H|H%list_elem_of_singleton]; done. }
  apply (H _ [] []). intros k' v'. rewrite !elem_of_nil. tauto.
Qed.

Lemma vary_fits_spec vary headers :
  http_cache_vary_fits vary headers = true <-> forall k v, (k, v) ∈ vary -> v = header_value headers k.
Proof.
  unfold http_cache_vary_fits. rewrite forallb_forall. split.
  - intros H k v Hi. apply list_elem_of_In, H, bool_decide_eq_true in Hi. exact Hi.
  - intros H [k v] Hi. apply bool_decide_eq_true. apply H. by apply list_elem_of_In.
Qed.

(** A document fits exactly the requests that agree, in all the headers which the "Vary" of the response
    names, with the request for which it was stored (and so it fits that request). *)
Theorem document_fits info rh status resp d headers :
  HttpCacheDocument_new info rh status resp = Some d ->
  VaryFits d headers = true <->
  forall vary name, r_vary info = Some vary -> name ∈ http_list_split vary ->
    header_value headers name = header_value rh name.
Proof.
  unfold HttpCacheDocument_new, VaryFits. destruct (http_status_is_valid status); [|done].
  intros [= <-]. simpl. rewrite vary_fits_spec. destruct (r_vary info) as [vary|]; simpl.
  - split.
    + intros H v name [= <-] Hn. symmetry. apply H. by apply copy_vary_elem.
    + intros H k v Hi. apply copy_vary_elem in Hi as [Hk ->]. symmetry. by apply (H vary).
  - split; [done|]. intros _ k v Hi. by apply elem_of_nil in Hi.
Qed.

(** ** The age of documents *)

Lemma age_limit_bounds vary : minutes 5 <= http_cache_age_limit vary <= WEEK.
Proof.
  unfold http_cache_age_limit, WEEK, DAY, HOUR, hours, minutes, seconds.
  repeat match goal with |- context [if ?b then _ else _] => destruct b end; lia.
Qed.

(** The response depends on the user. *)
Definition per_user (vary : StringMap) : Prop :=
  exists k v, (k, v) ∈ vary /\ k ∈ [str "x-cm4all-beng-user"; str "cookie"; str "cookie2"].

Lemma Contains_spec key m : StringMap_Contains key m = true <-> exists v, (key, v) ∈ m.
Proof.
  unfold StringMap_Contains. rewrite bool_decide_eq_true. split.
  - intros [v Hv]. exists v. by apply elem_of_values, Get_Some.
  - intros [v Hv]. destruct (StringMap_Get key m) eqn:E; [done|]. apply Get_None in E.
    apply elem_of_values in Hv. rewrite E in Hv. by apply elem_of_nil in Hv.
Qed.

Lemma age_limit_user vary : per_user vary -> http_cache_age_limit vary = minutes 5.
Proof.
  intros (k & v & Hi & Hk). unfold http_cache_age_limit.
  destruct vary as [|i vary]; [by apply elem_of_nil in Hi|]. cbn [StringMap_IsEmpty].
  assert (Hc : StringMap_Contains k (i :: vary) = true) by (apply Contains_spec; eauto).
  rewrite !elem_of_cons in Hk. destruct Hk as [->|[->|[->|Hk]]]; [..|by apply elem_of_nil in Hk];
    rewrite Hc, ?orb_true_r; done.
Qed.

(** C35: Bounds: a document that is stored is kept for more than no time and at most for a week, never
    after the server's expiry time, at most an hour if there is none, and at most five
    minutes if it depends on the user. *)
Theorem calc_expires_bounds steady_now system_now expires vary :
  let e := http_cache_calc_expires steady_now system_now expires vary in
  if negb (expires =? no_time) && (expires <=? system_now) then e = 0
  else steady_now < e <= steady_now + WEEK /\
    (expires <> no_time -> e - steady_now <= expires - system_now) /\
    (expires = no_time -> e - steady_now <= hours 1) /\
    (per_user vary -> e - steady_now <= minutes 5).
Proof.
  cbv zeta. unfold http_cache_calc_expires. pose proof (age_limit_bounds vary) as Hb.
  pose proof (age_limit_user vary) as Hu.
  assert (Hm : minutes 5 = 300000000000) by done. assert (Hh : hours 1 = 3600000000000) by done.
  destruct (expires =? no_time) eqn:E; simpl_bool; cbn [negb andb].
  - destruct (http_cache_age_limit vary <? hours 1) eqn:F; simpl_bool; split_and!; try lia;
      try (intros H; specialize (Hu H); lia).
  - destruct (expires <=? system_now) eqn:G; [done|]. simpl_bool.
    destruct (http_cache_age_limit vary <? expires - system_now) eqn:F; simpl_bool; split_and!; try lia;
      try (intros H; specialize (Hu H); lia).
Qed.

(** ** What may be stored *)

Definition directives (headers : StringMap) : list (list Z) :=
  match StringMap_Get (str "cache-control") headers with
  | Some cache_control => Strip <$> IterableSplitString cache_control (chr ",")
  | None => []
  end.

Definition forbidden (s : list Z) : bool :=
  starts_with s (str "private") || bool_decide (s = str "no-cache") || bool_decide (s = str "no-store").

(** The ages of the "max-age" directives that count. *)
Definition max_age (s : list Z) : option Z :=
  s ← SkipPrefix s (str "max-age=");
  if (length s <? 16)%nat && (0 <? atoi s) then Some (atoi s) else None.

Definition max_ages (l : list (list Z)) : list Z := omap max_age l.

(** The expiry time after the ages [ages] were seen, when the clock was read [n] times before. *)
Definition age_expires (clock : nat -> Z) (expires : Z) (n : nat) (ages : list Z) : Z :=
  match last ages with Some a => clock (n + length ages - 1)%nat + seconds a | None => expires end.

Lemma age_expires_cons clock expires n a ages :
  age_expires clock expires n (a :: ages) = age_expires clock (clock n + seconds a) (S n) ages.
Proof.
  unfold age_expires. rewrite last_cons. destruct (last ages) as [b|] eqn:E.
  - destruct ages as [|c ages]; [done|]. cbn [length].
    by replace (n + S (S (length ages)) - 1)%nat with (S n + S (length ages) - 1)%nat by lia.
  - apply last_None in E as ->. simpl. by replace (n + 1 - 1)%nat with n by lia.
Qed.

Lemma max_ages_cons s l : max_ages (s :: l) =
  match max_age s with Some a => a :: max_ages l | None => max_ages l end.
Proof. reflexivity. Qed.

Lemma response_directives_spec clock l expires n :
  response_directives clock l expires n =
  if existsb forbidden (Strip <$> l) then None
  else Some (age_expires clock expires n (max_ages (Strip <$> l)), (n + length (max_ages (Strip <$> l)))%nat).
Proof.
  revert expires n. induction l as [|s l IH]; intros expires n; [cbn; by rewrite Nat.add_0_r|].
  cbn [response_directives fmap list_fmap existsb]. cbv zeta. fold (forbidden (Strip s)).
  destruct (forbidden (Strip s)); [done|]. cbn [orb]. rewrite max_ages_cons. unfold max_age.
  destruct (SkipPrefix (Strip s) (str "max-age=")) as [v|]; cbn [mbind option_bind]; [|apply IH].
  rewrite Nat.ltb_antisym. destruct (16 <=? length v)%nat; cbn [negb andb]; [apply IH|].
  destruct (0 <? atoi v); [|apply IH]. rewrite IH, age_expires_cons. cbn [length].
  by rewrite Nat.add_succ_r.
Qed.

Lemma collect_vary_None l vary : collect_vary l vary = None <-> str "*" ∈ (snd <$> l).
Proof.
  revert vary. induction l as [|[k v] l IH]; intros vary; simpl; [by rewrite elem_of_nil|].
  rewrite elem_of_cons. destruct (bool_decide (v = [])) eqn:E1; simpl_bool.
  - rewrite IH. subst v. split; [by right|]. intros [H|H]; [by vm_compute in H|done].
  - destruct (bool_decide (v = str "*")) eqn:E2; simpl_bool; [split; [by left|done]|].
    rewrite IH. naive_solver.
Qed.

(** The expiry time that the response states, and how often the clock was read before. *)
Definition stated_expires (clock : nat -> Z) (ri : HttpCacheRequestInfo) (headers : StringMap) : Z :=
  let ages := max_ages (directives headers) in
  match last ages with
  | Some a => clock (length ages - 1)%nat + seconds a
  | None => parse_translate_time (StringMap_Get (str "expires") headers)
              (GetServerDateOffset ri (clock O) headers)
  end.

(** The conditions under which a response is stored. *)
Record storable (clock : nat -> Z) (ri : HttpCacheRequestInfo) (eager : bool) (status : HttpStatus)
    (headers : StringMap) (available : Z) : Prop := {
  st_status : status ∈ [200; 203; 206; 300; 301; 410];
  st_size : available = -1 \/ available <= 512 * 1024;
  st_control : forall s, s ∈ directives headers -> forbidden s = false;
  st_date : GetServerDateOffset ri (clock (length (max_ages (directives headers)))) headers <> duration_min;
  st_query : has_query_string ri = true -> eager = true \/ stated_expires clock ri headers <> no_time;
  st_vary : str "*" ∉ values (str "vary") headers;
  st_validator : eager = true \/ stated_expires clock ri headers <> no_time \/
    is_Some (StringMap_Get (str "last-modified") headers) \/ is_Some (StringMap_Get (str "etag") headers) }.

(** The result of the first part of [http_cache_response_evaluate()]. *)
Lemma control_spec clock headers :
  match StringMap_Get (str "cache-control") headers with
  | Some cc => response_directives clock (IterableSplitString cc (chr ",")) no_time 0
  | None => Some (no_time, O)
  end = if existsb forbidden (directives headers) then None
        else Some (age_expires clock no_time 0 (max_ages (directives headers)), length (max_ages (directives headers))).
Proof.
  unfold directives. destruct (StringMap_Get _ _) as [cc|]; [|done]. apply response_directives_spec.
Qed.

Lemma positive_ages l a : last (max_ages l) = Some a -> 0 < a.
Proof.
  intros H%last_Some_elem_of. apply list_elem_of_omap in H as (s & _ & H). unfold max_age in H.
  destruct (SkipPrefix s _) as [v|]; simpl in H; [|done].
  destruct ((length v <? 16)%nat && (0 <? atoi v)) eqn:E; [|done]. injection H as <-. simpl_bool. lia.
Qed.

(** The two ways in which the code obtains the stated expiry time agree with its definition. *)
Lemma expires_spec clock ri headers : (forall n, 0 <= clock n) ->
  let ages := max_ages (directives headers) in
  let e := age_expires clock no_time 0 ages in
  (if e =? no_time then parse_translate_time (StringMap_Get (str "expires") headers)
      (GetServerDateOffset ri (clock (length ages)) headers) else e) = stated_expires clock ri headers.
Proof.
  intros Hc ages e. unfold stated_expires. fold ages. subst e. unfold age_expires.
  destruct (last ages) as [a|] eqn:E; simpl.
  - assert (Ha : 0 < a) by (subst ages; by apply positive_ages in E). pose proof (Hc (length ages - 1)%nat).
    rewrite (proj2 (Z.eqb_neq _ _)); [done|]. unfold no_time, seconds. lia.
  - apply last_None in E. rewrite E. done.
Qed.

Lemma status_cacheable_spec status :
  http_status_cacheable status = true <-> status ∈ [200; 203; 206; 300; 301; 410].
Proof.
  unfold http_status_cacheable. rewrite !orb_true_iff, !Z.eqb_eq, !elem_of_cons, elem_of_nil. tauto.
Qed.

Lemma existsb_false {A} (P : A -> bool) l : existsb P l = false <-> forall x, x ∈ l -> P x = false.
Proof.
  induction l as [|x l IH]; simpl; [split; [intros _ x Hx; by apply elem_of_nil in Hx|done]|].
  rewrite orb_false_iff, IH. setoid_rewrite elem_of_cons. naive_solver.
Qed.

(** The expiry time of the document: an eager cache keeps for an hour what states none. *)
Definition document_expires (clock : nat -> Z) (ri : HttpCacheRequestInfo) (headers : StringMap) : Z :=
  if (stated_expires clock ri headers =? no_time) &&
     bool_decide (StringMap_Get (str "last-modified") headers = None) &&
     bool_decide (StringMap_Get (str "etag") headers = None)
  then clock (S (length (max_ages (directives headers)))) + hours 1
  else stated_expires clock ri headers.

(** C34: A response is stored exactly under the conditions [storable]: a cacheable status, a body that is
    not too large, no "private", "no-cache" or "no-store" directive, a known clock of a remote
    server, no "Vary: *", and something to expire or revalidate it by.  The last "max-age" wins over
    "Expires". *)
Theorem response_evaluate_spec clock ri eager status headers available :
  (forall n, 0 <= clock n) ->
  match http_cache_response_evaluate clock ri eager status headers available with
  | Some info =>
      storable clock ri eager status headers available /\
      r_expires info = document_expires clock ri headers /\
      r_last_modified info = StringMap_Get (str "last-modified") headers /\
      r_etag info = StringMap_Get (str "etag") headers
  | None => ~ storable clock ri eager status headers available
  end.
Proof.
  intros Hc. unfold http_cache_response_evaluate. rewrite control_spec.
  destruct (http_status_cacheable status) eqn:Es; cbn [negb];
    [|intros [H _]; apply status_cacheable_spec in H; congruence].
  destruct (negb (available =? -1) && (cacheable_size_limit <? available)) eqn:Ea;
    [intros [_ H]; unfold cacheable_size_limit in Ea; simpl_bool; lia|].
  assert (Hsize : available = -1 \/ available <= 512 * 1024).
  { unfold cacheable_size_limit in Ea. simpl_bool. destruct Ea; simpl_bool; lia. }
  destruct (existsb forbidden (directives headers)) eqn:Ef.
  { intros H. apply not_false_iff_true in Ef. apply Ef, existsb_false, H. }
  cbn [mbind option_bind]. cbv zeta. rewrite (expires_spec clock ri headers Hc).
  destruct (_ =? duration_min) eqn:Ed; [intros [_ _ _ H]; simpl_bool; congruence|].
  destruct (has_query_string ri && negb eager && _) eqn:Eq.
  { intros [_ _ _ _ H]. simpl_bool. destruct (H ltac:(done)); congruence. }
  destruct (collect_vary _ None) as [vary|] eqn:Ev; cbn [mbind option_bind].
  2: { intros [_ _ _ _ _ H]. apply H. apply collect_vary_None in Ev. unfold values, StringMap_EqualRange in *.
       by rewrite trie_range_perm in Ev. }
  assert (Hv : str "*" ∉ values (str "vary") headers).
  { intros H. assert (Hn : collect_vary (StringMap_EqualRange (str "vary") headers) None = None); [|congruence].
    apply collect_vary_None. unfold StringMap_EqualRange. by rewrite trie_range_perm. }
  unfold document_expires.
  destruct ((stated_expires clock ri headers =? no_time) && _ && _) eqn:Ex; [destruct eager eqn:Ee|].
  - split_and!; [|done..]. split; [by apply status_cacheable_spec|exact Hsize|by apply existsb_false|
      by apply Z.eqb_neq|by left|done|by left].
  - intros [_ _ _ _ _ _ [H|[H|[H|H]]]]; simpl_bool; [done|congruence|..];
      destruct H as [? H]; congruence.
  - split_and!; [|done..]. split; [by apply status_cacheable_spec|exact Hsize|by apply existsb_false|
      by apply Z.eqb_neq| |done|].
    + intros Hq. rewrite Hq in Eq. destruct eager; [by left|]. right. simpl_bool. by destruct Eq as [?|Eq]; [|simpl_bool].
    + right. destruct (StringMap_Get (str "etag") headers); [by eauto|].
      destruct (StringMap_Get (str "last-modified") headers); [by eauto|]. left.
      rewrite !bool_decide_eq_true_2, !andb_true_r in Ex by done. by apply Z.eqb_neq.
Qed.

End Facts.

(** ** Concrete library functions

    Dates are decimal numbers of seconds. *)

Module HttpExamples.

Export ListTrie.
#[export] Existing Instance AsciiChars.

Definition strip_left (s : list Z) : list Z := snd (span_while is_space s).
Definition strip_right (s : list Z) : list Z := rev (strip_left (rev s)).

#[export] Instance ConcreteHttpLib : HttpLib := {|
  http_date_parse s := match s with c :: _ => if is_digit c then seconds (strtol s) else no_time | [] => no_time end;
  http_list_contains l s := bool_decide (s ∈ strip_left ∘ strip_right <$> cut_all l (chr ","));
  Strip s := strip_left (strip_right s);
  StripLeft := strip_left;
  StripRight := strip_right;
  SkipPrefix s p := if starts_with s p then Some (drop (length p) s) else None;
  IsSafeMethod m := bool_decide (m = GET);
  http_status_is_valid s := (100 <=? s) && (s <? 600);
  http_status_is_error s := 400 <=? s |}.

Definition now : nat -> Z := fun _ => seconds 1000000.

Definition client : StringMap := [(str "accept-language", str "de"); (str "cookie", str "a=b")].

Definition answer : StringMap :=
  [(str "cache-control", str "public, max-age=60"); (str "date", str "1000000"); (str "etag", str "xyz");
   (str "vary", str "Accept-Language, Host")].

Definition remote : HttpCacheRequestInfo := mkRequestInfo None None None None true false false false.

Definition answer_info : HttpCacheResponseInfo :=
  mkResponseInfo (seconds 1000060) None (Some (str "xyz")) (Some (str "Accept-Language, Host")).

Example evaluate_answer :
  http_cache_response_evaluate now remote false 200 answer 100 = Some answer_info.
Proof. vm_compute. reflexivity. Qed.

Lemma response_evaluate_witness : storable now remote false 200 answer 100.
Proof.
  assert (Hc : forall n, 0 <= now n) by (intros n; unfold now, seconds; lia).
  pose proof (response_evaluate_spec now remote false 200 answer 100 Hc) as H.
  assert (E : http_cache_response_evaluate now remote false 200 answer 100 = Some answer_info)
    by (vm_compute; reflexivity).
  rewrite E in H. apply H.
Defined.

Definition answer_document : HttpCacheDocument :=
  mkDocument answer_info [(str "host", []); (str "accept-language", str "de")] 200 (rev answer).

(** The document fits a request with another cookie, but none in another language. *)
Lemma document_fits_witness :
  VaryFits answer_document client = true /\ VaryFits answer_document [(str "accept-language", str "en")] = false.
Proof.
  assert (E : HttpCacheDocument_new answer_info client 200 answer = Some answer_document)
    by (vm_compute; reflexivity).
  split.
  - apply (document_fits answer_info client 200 answer answer_document client E). intros. reflexivity.
  - vm_compute. reflexivity.
Defined.

Lemma calc_expires_witness :
  seconds 500 < http_cache_calc_expires (seconds 500) (seconds 1000000) (seconds 1000060) [] <= seconds 560.
Proof.
  destruct (calc_expires_bounds (seconds 500) (seconds 1000000) (seconds 1000060) []) as (H1 & H2 & _).
  specialize (H2 ltac:(done)). unfold seconds in *. lia.
Defined.

(** A "max-age" that is larger than an [int] is reduced modulo [2^32]: 4294967297 seconds
    are one second. *)
Example max_age_overflow :
  max_age (str "max-age=4294967297") = Some 1 /\ max_age (str "max-age=2147483648") = None.
Proof. split; vm_compute; reflexivity. Qed.

(** The asterisk is only recognized when it is the whole value of the header. *)
Example vary_star_in_list :
  http_cache_response_evaluate now remote false 200
    [(str "cache-control", str "max-age=60"); (str "date", str "1000000"); (str "vary", str "host, *")] 100 =
  Some (mkResponseInfo (seconds 1000060) None None (Some (str "host, *"))) /\
  http_cache_vary_fits (http_cache_copy_vary (str "host, *") client) client = true.
Proof. split; vm_compute; reflexivity. Qed.

(** The names after the 64th are ignored. *)
Definition many_names : list Z := concat (repeat (str "a,") 64) ++ str "cookie".

Example vary_65th_name :
  http_cache_vary_fits (http_cache_copy_vary many_names client) [] = true.
Proof. vm_compute. reflexivity. Qed.

End HttpExamples.
