(* ===== verification/Escape.v ===== *)
(** * Escaping

    src/escape/: the classes of escaping functions for HTML (HTML.cxx) and CSS (CSS.cxx), the
    functions that apply them to buffers (Class.hxx, Pool.cxx, Static.cxx), and the istream
    that escapes what it forwards (Istream.cxx).

    An [escape_class] is a record of functions as in Class.hxx.  A function that writes to an
    output buffer returns the bytes that it writes.  Unescaping may be done in place, where
    source and destination are the same memory; that is a second definition, on one buffer with
    a read and a write position. *)

From Stdlib Require Import String.
From S2P Require Import Prelude CharUtil Chunked Uri.

(** util/UTF8.hxx: the bytes that are written for a code point. *)
Class Utf8Lib := UnicodeToUTF8 : Z -> list Z.

Class Utf8Laws `{U8 : Utf8Lib} := {
  UnicodeToUTF8_length c : 0 < c <= 0x10ffff -> (length (UnicodeToUTF8 c) <= 4)%nat }.

(** ** Class.hxx *)

(** [None] as the result of a function is a failed assertion; for [escape_size], whose first
    argument is the number of iterations it may do, also that it has not returned. *)
Record escape_class := mkClass {
  cls_unescape_find : list Z -> option nat;
  cls_unescape : list Z -> option (list Z);
  cls_unescape_inplace : list Z -> option (list Z * nat);
  cls_escape_find : list Z -> option nat;
  cls_escape_char : Z -> option (list Z);
  cls_escape_size : nat -> list Z -> option nat;
  cls_escape : list Z -> list Z }.

Definition unescape_find (cls : escape_class) (p : list Z) : option nat := cls_unescape_find cls p.

Definition unescape_buffer (cls : escape_class) (p : list Z) : option (list Z) :=
  q ← cls_unescape cls p;
  if Nat.leb (length q) (length p) then Some q else None.

(** The contents of the buffer and the new length. *)
Definition unescape_inplace (cls : escape_class) (p : list Z) : option (list Z * nat) :=
  r ← cls_unescape_inplace cls p;
  if Nat.leb r.2 (length p) then Some r else None.

Definition escape_find (cls : escape_class) (p : list Z) : option nat := cls_escape_find cls p.

Definition escape_size (cls : escape_class) (fuel : nat) (p : list Z) : option nat :=
  cls_escape_size cls fuel p.

Definition escape_char (cls : escape_class) (ch : Z) : option (list Z) := cls_escape_char cls ch.

Definition escape_buffer (cls : escape_class) (p : list Z) : option (list Z) :=
  let q := cls_escape cls p in
  if Nat.leb (length p) (length q) then Some q else None.

(** ** The loops that unescape

    Both formats copy what is before the next special character ([cut]) and then handle
    what follows it: [handle] returns the bytes it writes and the rest of the source. *)
Section Unescape.
Context (cut : list Z -> list Z * option (list Z)).
Context (handle : list Z -> option (list Z * list Z)).

Fixpoint unescape_loop (fuel : nat) (src : list Z) : option (list Z) :=
  match fuel with
  | O => None
  | S fuel' =>
      let '(before, after) := cut src in
      match after with
      | None => Some before
      | Some after =>
          r ← handle after;
          q ← unescape_loop fuel' r.2;
          Some (before ++ r.1 ++ q)
      end
  end.

Definition write_at (buf : list Z) (q : nat) (data : list Z) : list Z :=
  take q buf ++ data ++ drop (q + length data) buf.

(** The same with one buffer: a view of the source is the rest of the buffer from a
    position on, and it is read again after every write. *)
Fixpoint inplace_loop (fuel : nat) (buf : list Z) (p q : nat) : option (list Z * nat) :=
  match fuel with
  | O => None
  | S fuel' =>
      let '(before, after) := cut (drop p buf) in
      let buf := write_at buf q before in
      let q := (q + length before)%nat in
      match after with
      | None => Some (buf, q)
      | Some after =>
          let pa := (length buf - length after)%nat in
          r ← handle (drop pa buf);
          let buf := write_at buf q r.1 in
          inplace_loop fuel' buf (length buf - length r.2) (q + length r.1)
      end
  end.
End Unescape.

(** ** HTML.cxx *)

Section Html.
Context `{CU : CharUtil} `{UL : UriLib} `{U8 : Utf8Lib}.

Definition html_unescape_find (p : list Z) : option nat := strchr p (chr "&").

Fixpoint ParseDecimal_loop (value : Z) (s : list Z) : Z * list Z :=
  match s with
  | [] => (value, [])
  | ch :: s' =>
      if negb (IsDigitASCII ch) then (value, s)
      else ParseDecimal_loop (wrap 32 (value * 10 + (ch - chr "0"))) s'
  end.

Definition ParseDecimal (s : list Z) : Z * list Z := ParseDecimal_loop 0 s.

Fixpoint ParseHex_loop (value : Z) (s : list Z) : Z * list Z :=
  match s with
  | [] => (value, [])
  | ch :: s' =>
      let d := ParseHexDigit ch in
      if d <? 0 then (value, s) else ParseHex_loop (wrap 32 (value * 0x10 + d)) s'
  end.

Definition ParseHex (s : list Z) : Z * list Z := ParseHex_loop 0 s.

Definition ParseNumericEntity (entity : list Z) : option (Z * list Z) :=
  match entity with
  | [] => None
  | c :: rest => Some (if c =? chr "x" then ParseHex rest else ParseDecimal entity)
  end.

(** One iteration of the loop of [html_unescape()], after the ampersand. *)
Definition html_entity (after_ampersand : list Z) : option (list Z * list Z) :=
  let literal := Some (str "&", after_ampersand) in
  let '(entity, rest) := Split after_ampersand (chr ";") in
  match rest, entity with
  | None, _ => literal
  | _, [] => literal
  | Some rest, front :: entity1 =>
      if bool_decide (entity = str "amp") then Some (str "&", rest)
      else if bool_decide (entity = str "quot") then Some ([34], rest)
      else if bool_decide (entity = str "lt") then Some (str "<", rest)
      else if bool_decide (entity = str "gt") then Some (str ">", rest)
      else if bool_decide (entity = str "apos") then Some (str "'", rest)
      else if front =? chr "#" then
        match entity1 with
        | [] => literal
        | _ =>
            r ← ParseNumericEntity entity1;
            let '(value, unparsed) := r in
            if (value <=? 0) || (0x10ffff <? value) || negb (bool_decide (unparsed = []))
            then literal
            else Some (UnicodeToUTF8 value, rest)
        end
      else literal
  end.

Definition html_cut (src : list Z) : list Z * option (list Z) := Split src (chr "&").

Definition html_unescape (src : list Z) : option (list Z) :=
  unescape_loop html_cut html_entity (S (length src)) src.

Definition html_unescape_inplace (buf : list Z) : option (list Z * nat) :=
  inplace_loop html_cut html_entity (S (length buf)) buf 0 0.

Fixpoint html_escape_size (p : list Z) : nat :=
  match p with
  | [] => O
  | ch :: p' =>
      let n := if ch =? chr "&" then 5%nat
               else if (ch =? 34) || (ch =? chr "'") then 6%nat
               else if (ch =? chr "<") || (ch =? chr ">") then 4%nat
               else 1%nat in
      (n + html_escape_size p')%nat
  end.

Definition html_special (ch : Z) : bool :=
  (ch =? chr "&") || (ch =? 34) || (ch =? chr "'") || (ch =? chr "<") || (ch =? chr ">").

Definition html_escape_find (p : list Z) : option nat := find_index html_special p.

Definition html_escape_char (ch : Z) : option (list Z) :=
  if ch =? chr "&" then Some (str "&amp;")
  else if ch =? 34 then Some (str "&quot;")
  else if ch =? chr "'" then Some (str "&apos;")
  else if ch =? chr "<" then Some (str "&lt;")
  else if ch =? chr ">" then Some (str "&gt;")
  else None.

Fixpoint html_escape (p : list Z) : list Z :=
  match p with
  | [] => []
  | ch :: p' =>
      (if ch =? chr "&" then str "&amp;"
       else if ch =? 34 then str "&quot;"
       else if ch =? chr "'" then str "&apos;"
       else if ch =? chr "<" then str "&lt;"
       else if ch =? chr ">" then str "&gt;"
       else [ch]) ++ html_escape p'
  end.

Definition html_escape_class : escape_class :=
  mkClass html_unescape_find html_unescape html_unescape_inplace html_escape_find html_escape_char
    (fun _ p => Some (html_escape_size p)) html_escape.

End Html.

(** ** CSS.cxx *)

Definition css_unescape_find (p : list Z) : option nat := strchr p (chr "\").

Definition need_simple_escape (ch : Z) : bool :=
  (ch =? chr "\") || (ch =? 34) || (ch =? chr "'").

(** [memchr(p, '\\', p_end - p)] *)
Definition css_cut (p : list Z) : list Z * option (list Z) :=
  match strchr p (chr "\") with
  | Some bs => (take bs p, Some (drop (bs + 1) p))
  | None => (p, None)
  end.

Definition css_backslash (p : list Z) : option (list Z * list Z) :=
  match p with
  | ch :: p' => if need_simple_escape ch then Some ([ch], p') else Some (str "\", p)
  | [] => Some (str "\", p)
  end.

Definition css_unescape (p : list Z) : option (list Z) :=
  unescape_loop css_cut css_backslash (S (length p)) p.

Definition css_unescape_inplace (buf : list Z) : option (list Z * nat) :=
  inplace_loop css_cut css_backslash (S (length buf)) buf 0 0.

(** The pointer [p] is not advanced in the loop. *)
Fixpoint css_escape_size (fuel : nat) (p : list Z) (size : nat) : option nat :=
  match fuel with
  | O => None
  | S fuel' =>
      match p with
      | [] => Some size
      | ch :: _ => css_escape_size fuel' p (if need_simple_escape ch then size + 2 else size + 1)%nat
      end
  end.

Definition css_escape_find (p : list Z) : option nat := find_index need_simple_escape p.

Definition css_escape_char (ch : Z) : option (list Z) :=
  if ch =? chr "\" then Some (str "\\")
  else if ch =? 34 then Some [chr "\"; 34]
  else if ch =? chr "'" then Some (str "\'")
  else None.

Fixpoint css_escape (p : list Z) : list Z :=
  match p with
  | [] => []
  | ch :: p' => (if need_simple_escape ch then [chr "\"; ch] else [ch]) ++ css_escape p'
  end.

Definition css_escape_class : escape_class :=
  mkClass css_unescape_find css_unescape css_unescape_inplace css_escape_find css_escape_char
    (fun fuel p => css_escape_size fuel p 0) css_escape.

(** ** Pool.cxx, Static.cxx *)

Definition escape_dup (cls : escape_class) (fuel : nat) (p : list Z) : option (list Z) :=
  size ← cls_escape_size cls fuel p;
  if Nat.eqb size 0 then Some p else put size [] (cls_escape cls p).

(** The allocated size is the size of the source. *)
Definition unescape_dup (cls : escape_class) (src : list Z) : option (list Z) :=
  q ← unescape_buffer cls src;
  put (length src) [] q.

Definition static_buffer_size : nat := 4096.

(** [Some None] is [nullptr]; the buffer also holds the null terminator. *)
Definition unescape_static (cls : escape_class) (p : list Z) : option (option (list Z)) :=
  if Nat.leb static_buffer_size (length p) then Some None
  else
    q ← unescape_buffer cls p;
    q ← put (static_buffer_size - 1) [] q;
    Some (Some q).

Definition escape_static (cls : escape_class) (fuel : nat) (p : list Z) : option (option (list Z)) :=
  l ← escape_size cls fuel p;
  if Nat.leb static_buffer_size l then Some None
  else
    q ← escape_buffer cls p;
    q ← put (static_buffer_size - 1) [] q;
    Some (Some q).
