(* ===== verification/EscapeIstream.v ===== *)
(** * The escaping istream

    src/escape/Istream.cxx: a filter that forwards data to its handler and replaces special
    characters.  The handler is as in [Chunked]: a list of decisions about what it accepts.
    The theorem is about every order of calls of the input and of the handler. *)

From Stdlib Require Import String.
From S2P Require Import Prelude CharUtil Chunked Uri UriFacts Escape.

#[local] Open Scope beng_scope.

Record EscapeIstream := mkEI {
  escaped : list Z;
  ei_input : bool;
  ei_life : phase;
  ei_handler : list reaction;
  ei_output : list Z }.

Definition ei_set_escaped e s := mkEI e (ei_input s) (ei_life s) (ei_handler s) (ei_output s).
Definition ei_clear_input s := mkEI (escaped s) false (ei_life s) (ei_handler s) (ei_output s).
Definition ei_set_life l s := mkEI (escaped s) (ei_input s) l (ei_handler s) (ei_output s).
Definition ei_set_handler h o s := mkEI (escaped s) (ei_input s) (ei_life s) h o.

(** [istream_escape_new()] *)
Definition istream_escape_new (h : list reaction) : EscapeIstream := mkEI [] true Alive h [].

Definition ei_alive (s : EscapeIstream) : bool := bool_decide (ei_life s = Alive).

(** [InvokeData()], [DestroyEof()] and [DestroyError()] of a living istream. *)
Definition EI_InvokeData (src : list Z) : M EscapeIstream Z :=
  let! s := mget in
  massert (ei_alive s) ;;;
  massert (negb (bool_decide (src = []))) ;;;
  match ei_handler s with
  | [] => mret 0
  | Accept n :: h =>
    let n := Z.max 0 (Z.min n (Z.of_nat (length src))) in
    mput (ei_set_handler h (ei_output s ++ take (Z.to_nat n) src) s) ;;;
    mret n
  | CloseStream :: h =>
    mput (ei_set_life Closed (ei_set_handler h (ei_output s) s)) ;;;
    mret 0
  end.

Definition EI_Destroy (l : phase) : M EscapeIstream unit :=
  let! s := mget in
  massert (ei_alive s) ;;;
  mput (ei_set_life l s).

Definition SendEscaped : M EscapeIstream bool :=
  let! s := mget in
  massert (negb (bool_decide (escaped s = []))) ;;;
  let! nbytes := EI_InvokeData (escaped s) in
  if nbytes =? 0 then mret false
  else
    mmod (fun s => ei_set_escaped (drop (Z.to_nat nbytes) (escaped s)) s) ;;;
    let! s := mget in
    if negb (bool_decide (escaped s = [])) then mret false
    else if negb (ei_input s) then EI_Destroy AtEof ;;; mret false
    else mret true.

Section Istream.
Context (cls : escape_class).

(** The end of an iteration of the loop in [OnData()], at a special character; [again] is the
    next iteration.  The observer [destructed] is true if the istream is not alive. *)
Definition EI_insert (again : list Z -> Z -> M EscapeIstream Z) (data : list Z) (control : nat)
    (total : Z) : M EscapeIstream Z :=
  let rest := drop (control + 1) data in
  let total := total + 1 in
  let! e := mopt (escape_char cls (cstr_at data control)) in
  mmod (ei_set_escaped e) ;;;
  let! sent := SendEscaped in
  if negb sent then
    let! s := mget in
    if negb (ei_alive s) then mret 0 else mret total
  else if bool_decide (rest = []) then mret total
  else again rest total.

Fixpoint EI_OnData_loop (fuel : nat) (data : list Z) (total : Z) : M EscapeIstream Z :=
  match fuel with
  | O => mfail
  | S fuel' =>
      match escape_find cls data with
      | None =>
          let! nbytes := EI_InvokeData data in
          let! s := mget in
          if negb (ei_alive s) then mret 0 else mret (total + nbytes)
      | Some control =>
          if (0 <? control)%nat then
            let! nbytes := EI_InvokeData (take control data) in
            let! s := mget in
            if negb (ei_alive s) then mret 0
            else if nbytes <? Z.of_nat control then mret (total + nbytes)
            else EI_insert (EI_OnData_loop fuel') data control (total + nbytes)
          else EI_insert (EI_OnData_loop fuel') data control total
      end
  end.

Definition EI_OnData (src : list Z) : M EscapeIstream Z :=
  let! s := mget in
  let! go := if negb (bool_decide (escaped s = [])) then SendEscaped else mret true in
  if negb go then mret 0 else EI_OnData_loop (length src) src 0.

Definition EI_OnEof : M EscapeIstream unit :=
  mmod ei_clear_input ;;;
  let! s := mget in
  if bool_decide (escaped s = []) then EI_Destroy AtEof else mret tt.

Definition EI_OnError : M EscapeIstream unit :=
  mmod ei_clear_input ;;; EI_Destroy AtError.

(** [_Read()]; the result is whether it calls [input.Read()], which requires an input. *)
Definition EI_Read : M EscapeIstream bool :=
  let! s := mget in
  let! go := if negb (bool_decide (escaped s = [])) then SendEscaped else mret true in
  if negb go then mret false
  else let! s := mget in massert (ei_input s) ;;; mret true.

Definition EI_Close : M EscapeIstream unit := EI_Destroy Closed.

(** [_GetAvailable()], given the answer of the input for [partial]; [-1] is unknown. *)
Definition EI_GetAvailable (partial : bool) (input_available : Z) (s : EscapeIstream) : Z :=
  if negb (ei_input s) then Z.of_nat (length (escaped s))
  else if partial then Z.of_nat (length (escaped s)) + input_available
  else -1.

(** ** Any order of calls *)

Inductive ei_event :=
| EvData (n : nat)   (* the input offers its next n bytes *)
| EvRead
| EvEof
| EvError
| EvClose.

(** The input has the bytes [input], of which the first [pos] have been consumed.  An event that
    cannot happen in a state (the istream is destroyed, the input is gone or at another
    position) is ignored. *)
Definition ei_step (input : list Z) (ev : ei_event) (w : EscapeIstream * nat) : option (EscapeIstream * nat) :=
  let '(s, pos) := w in
  if negb (ei_alive s) then Some w
  else match ev with
  | EvData n =>
      let data := take n (drop pos input) in
      if negb (ei_input s) || bool_decide (data = []) then Some w
      else '(k, s') ← EI_OnData data s; Some (s', pos + Z.to_nat k)%nat
  | EvRead => '(_, s') ← EI_Read s; Some (s', pos)
  | EvEof => if ei_input s && Nat.eqb pos (length input)
             then '(_, s') ← EI_OnEof s; Some (s', pos) else Some w
  | EvError => if ei_input s then '(_, s') ← EI_OnError s; Some (s', pos) else Some w
  | EvClose => '(_, s') ← EI_Close s; Some (s', pos)
  end.

Fixpoint ei_run (input : list Z) (evs : list ei_event) (w : EscapeIstream * nat) : option (EscapeIstream * nat) :=
  match evs with
  | [] => Some w
  | ev :: evs' => w ← ei_step input ev w; ei_run input evs' w
  end.

End Istream.

(** ** What the istream requires of its class *)

(** The replacement of one character. *)
Definition escape1 (cls : escape_class) (c : Z) : list Z := default [c] (cls_escape_char cls c).

Class EscapeOk (cls : escape_class) (special : Z -> bool) := {
  eo_find p : cls_escape_find cls p = find_index special p;
  eo_special c : special c = true -> exists e, cls_escape_char cls c = Some e /\ e <> [];
  eo_plain c : special c = false -> cls_escape_char cls c = None;
  eo_escape p : cls_escape cls p = concat (map (escape1 cls) p) }.

#[global] Instance html_escape_ok `{CU : CharUtil} `{UL : UriLib} `{U8 : Utf8Lib} :
  EscapeOk html_escape_class html_special.
Proof.
  constructor; simpl.
  - done.
  - intros c. unfold html_special, html_escape_char.
    repeat (destruct (_ =? _); [by eexists|]). done.
  - intros c. unfold html_special, html_escape_char. intros H. simpl_bool.
    repeat match goal with H : ~ _ |- _ => apply Z.eqb_neq in H end.
    by repeat match goal with H : (c =? _) = false |- _ => rewrite H; clear H end.
  - induction p as [|c p IH]; [done|]. cbn [html_escape map concat]. rewrite IH. f_equal.
    unfold escape1. simpl. unfold html_escape_char. by repeat case_match.
Qed.

#[global] Instance css_escape_ok : EscapeOk css_escape_class need_simple_escape.
Proof.
  constructor; simpl.
  - done.
  - intros c. unfold need_simple_escape, css_escape_char.
    repeat (destruct (_ =? _); [by eexists|]). done.
  - intros c. unfold need_simple_escape, css_escape_char. intros H. simpl_bool.
    repeat match goal with H : ~ _ |- _ => apply Z.eqb_neq in H end.
    by repeat match goal with H : (c =? _) = false |- _ => rewrite H; clear H end.
  - induction p as [|c p IH]; [done|]. cbn [css_escape map concat]. rewrite IH. f_equal.
    unfold escape1. simpl. unfold css_escape_char, need_simple_escape.
    destruct (Z.eqb_spec c (chr "\")) as [->|]; [done|].
    destruct (Z.eqb_spec c 34) as [->|]; [done|]. destruct (Z.eqb_spec c (chr "'")) as [->|]; done.
Qed.

(** ** The invariant *)

Section Facts.
Context {cls : escape_class} {special : Z -> bool} {EO : EscapeOk cls special}.

Abbreviation esc p := (cls_escape cls p).

Lemma escape_nil : esc [] = [].
Proof. by rewrite (eo_escape (EscapeOk := EO)). Qed.

Lemma escape_app a b : esc (a ++ b) = esc a ++ esc b.
Proof. by rewrite !(eo_escape (EscapeOk := EO)), map_app, concat_app. Qed.

Lemma escape_prefix a b : esc a `prefix_of` esc (a ++ b).
Proof. rewrite escape_app. by apply prefix_app_r. Qed.

Lemma escape_plain p : Forall (fun c => special c = false) p -> esc p = p.
Proof.
  rewrite (eo_escape (EscapeOk := EO)). induction 1 as [|c p Hc _ IH]; [done|]. cbn [map concat].
  rewrite IH. unfold escape1. by rewrite (eo_plain (EscapeOk := EO)).
Qed.

Lemma escape_find_None p n : escape_find cls p = None -> esc (take n p) = take n p.
Proof.
  unfold escape_find. rewrite (eo_find (EscapeOk := EO)). intros H. apply escape_plain, Forall_take.
  rewrite Forall_forall. by apply find_index_None.
Qed.

Lemma escape_find_Some p i : escape_find cls p = Some i ->
  exists c e rest, p = take i p ++ c :: rest /\ (i < length p)%nat /\
    (forall n, esc (take n (take i p)) = take n (take i p)) /\
    cstr_at p i = c /\ escape_char cls c = Some e /\ e <> [] /\ rest = drop (i + 1) p /\
    forall x, esc (c :: x) = e ++ esc x.
Proof.
  unfold escape_find. rewrite (eo_find (EscapeOk := EO)). intros H.
  assert (Hs : exists c, p !! i = Some c /\ special c = true /\
            Forall (fun c => special c = false) (take i p)).
  { revert i H. induction p as [|x p IH]; intros i H; [done|]. simpl in H.
    destruct (special x) eqn:E; [injection H as <-; by exists x|].
    destruct (find_index special p) as [j|]; [|done]. injection H as <-.
    destruct (IH j eq_refl) as (c & ? & ? & ?). exists c. simpl. by repeat split; [| |constructor]. }
  destruct Hs as (c & Hc & Hsp & Hpl). destruct (eo_special (EscapeOk := EO) c Hsp) as (e & He & Hne).
  exists c, e, (drop (S i) p). rewrite Nat.add_1_r. repeat split; try done.
  - symmetry. by apply take_drop_middle.
  - by eapply lookup_lt_Some.
  - intros n. by apply escape_plain, Forall_take.
  - unfold cstr_at. by rewrite Hc.
  - intros x. rewrite !(eo_escape (EscapeOk := EO)). cbn [map concat]. unfold escape1 at 1. by rewrite He.
Qed.

(** [holds L s]: the handler has received a beginning of [L], and as long as the stream was not
    aborted, what it has not received is in [escaped]. *)
Definition holds (L : list Z) (s : EscapeIstream) : Prop :=
  ei_output s `prefix_of` L /\
  match ei_life s with
  | Alive => ei_output s ++ escaped s = L
  | AtEof => ei_output s = L
  | _ => True
  end.

(** The handler accepts something the next time it is asked. *)
Definition willing (s : EscapeIstream) : Prop := exists n h, ei_handler s = Accept n :: h /\ 1 <= n.

Definition grows (s s' : EscapeIstream) : Prop :=
  ei_output s `prefix_of` ei_output s' /\
  (willing s -> (length (ei_output s) < length (ei_output s'))%nat).

Lemma grows_trans s s1 s2 : grows s s1 -> ei_output s1 `prefix_of` ei_output s2 -> grows s s2.
Proof.
  intros [H1 H2] H. split; [by transitivity (ei_output s1)|]. intros Hw%H2.
  apply prefix_length in H. lia.
Qed.

Lemma EI_InvokeData_wp src s :
  ei_life s = Alive -> src <> [] ->
  wp (EI_InvokeData src) (fun n s' =>
    0 <= n <= Z.of_nat (length src) /\ escaped s' = escaped s /\ ei_input s' = ei_input s /\
    ei_output s' = ei_output s ++ take (Z.to_nat n) src /\
    (ei_life s' = Alive \/ n = 0 /\ ei_life s' = Closed) /\ grows s s') s.
Proof.
  intros Hl Hne. unfold EI_InvokeData. do 2 wp_step. wp_step. wp_step; [by apply bool_decide_eq_true|].
  wp_step. wp_step; [by rewrite bool_decide_eq_false_2|].
  unfold grows, willing. destruct (ei_handler s) as [|[n|] h]; repeat wp_step; simpl.
  - rewrite take_0, app_nil_r. split; [lia|]. do 3 (split; [done|]). split; [by left|].
    split; [done|]. naive_solver.
  - split; [lia|]. do 3 (split; [done|]). split; [by left|]. split; [by apply prefix_app_r|].
    intros (m & h' & [= <- <-] & Hn). destruct src; [done|]. rewrite length_app, length_take. simpl. lia.
  - rewrite take_0, app_nil_r. split; [lia|]. do 3 (split; [done|]). split; [by right|].
    split; [done|]. naive_solver.
Qed.

Lemma SendEscaped_wp L s :
  ei_life s = Alive -> escaped s <> [] -> ei_output s ++ escaped s = L ->
  wp SendEscaped (fun sent s' =>
    holds L s' /\ ei_input s' = ei_input s /\
    (sent = true -> ei_life s' = Alive /\ escaped s' = [] /\ ei_input s = true) /\
    (sent = false -> ei_life s' = Alive -> escaped s' <> []) /\
    (ei_life s' = AtEof -> ei_input s = false) /\
    ei_life s' <> AtError /\ grows s s') s.
Proof.
  intros Hl Hne HL. unfold SendEscaped. do 2 wp_step. wp_step.
  wp_step; [by rewrite bool_decide_eq_false_2|]. wp_step.
  eapply wp_mono; [by apply EI_InvokeData_wp|]. simpl. intros n s1 (Hn & He & Hi & Ho & Hlf & Hg).
  assert (Hp : ei_output s1 `prefix_of` L).
  { rewrite Ho, <- HL. apply prefix_app, prefix_take. }
  destruct (Z.eqb_spec n 0) as [->|Hn0].
  { wp_step. simpl in Ho. rewrite take_0, app_nil_r in Ho. unfold holds. destruct Hlf as [Hlf|[_ Hlf]]; rewrite Hlf;
      repeat split; try done; try congruence; by apply Hg. }
  destruct Hlf as [Hlf|[? _]]; [|done].
  do 3 wp_step. wp_step. cbn [escaped ei_set_escaped]. rewrite He.
  assert (HL' : ei_output s1 ++ drop (Z.to_nat n) (escaped s) = L).
  { rewrite Ho, <- app_assoc, take_drop. done. }
  destruct (bool_decide (drop (Z.to_nat n) (escaped s) = [])) eqn:Eb; simpl_bool; simpl.
  - rewrite Eb, app_nil_r in HL'. rewrite Hi. destruct (ei_input s) eqn:Ei; simpl.
    + wp_step. unfold holds. simpl. rewrite Hlf, Eb, Hi, HL', app_nil_r. repeat split; try done; by apply Hg.
    + unfold EI_Destroy. do 4 wp_step. wp_step; [unfold ei_alive; simpl; by rewrite Hlf|].
      do 2 wp_step. unfold holds. simpl. repeat split; try done; by apply Hg.
  - wp_step. unfold holds. simpl. rewrite Hlf. repeat split; try done; by apply Hg.
Qed.

(** What [OnData()] has done when it returns: it has consumed the first [j] bytes. *)
Definition consumed (L data : list Z) (total k : Z) (s : EscapeIstream) : Prop :=
  ei_input s = true /\ ei_output s `prefix_of` L ++ esc data /\
  (ei_life s = Closed \/
   ei_life s = Alive /\ exists j, k = total + Z.of_nat j /\ (j <= length data)%nat /\
     ei_output s ++ escaped s = L ++ esc (take j data)).

Lemma prefix_consumed L data j s :
  ei_output s ++ escaped s = L ++ esc (take j data) -> ei_output s `prefix_of` L ++ esc data.
Proof.
  intros H. transitivity (ei_output s ++ escaped s); [by apply prefix_app_r|]. rewrite H. apply prefix_app.
  rewrite <- (take_drop j data) at 2. apply escape_prefix.
Qed.

(** Sending a plain piece of the data. *)
Lemma EI_InvokeData_consumed L data n total s :
  ei_life s = Alive -> ei_input s = true -> escaped s = [] -> ei_output s = L -> take n data <> [] ->
  (forall m, esc (take m (take n data)) = take m (take n data)) ->
  wp (EI_InvokeData (take n data)) (fun k s' =>
    0 <= k <= Z.of_nat (length (take n data)) /\ escaped s' = [] /\
    consumed L data total (total + k) s' /\
    (ei_life s' = Alive -> ei_output s' = L ++ take (Z.to_nat k) data) /\ grows s s') s.
Proof.
  intros Hl Hi He Ho Hne Hp. eapply wp_mono; [by apply EI_InvokeData_wp|]. simpl.
  intros k s' (Hk & He' & Hi' & Ho' & Hlf & Hg). rewrite He in He'.
  assert (Ht : take (Z.to_nat k) (take n data) = take (Z.to_nat k) data).
  { rewrite take_take. f_equal. rewrite length_take in Hk. lia. }
  assert (Hc : ei_output s' ++ escaped s' = L ++ esc (take (Z.to_nat k) data)).
  { by rewrite He', app_nil_r, Ho', Ho, <- Ht, Hp. }
  split; [done|]. split; [done|]. split; [|split; [by rewrite Ho', Ho, Ht|done]].
  split; [congruence|]. split; [by eapply prefix_consumed|].
  destruct Hlf as [Hlf|[_ Hlf]]; [right|by left]. split; [done|]. exists (Z.to_nat k).
  rewrite length_take in Hk. split; [lia|]. split; [lia|done].
Qed.

(** Replacing the special character after a plain piece that was sent. *)
Lemma EI_insert_wp again data control total L s :
  escape_find cls data = Some control ->
  ei_life s = Alive -> ei_input s = true -> ei_output s = L ++ take control data ->
  (forall rest total L s, ei_life s = Alive -> ei_input s = true -> escaped s = [] ->
     ei_output s = L -> rest <> [] -> (length rest < length data)%nat ->
     wp (again rest total) (fun k s' => consumed L rest total k s' /\ grows s s') s) ->
  wp (EI_insert cls again data control (total + Z.of_nat control)) (fun k s' => consumed L data total k s' /\ grows s s') s.
Proof.
  intros Ef Hl Hi Ho Hagain.
  destruct (escape_find_Some _ _ Ef) as (c & e & rest & Hd & Hlt & Hpl & Hat & Hch & Hen & Hrest & Hesc).
  set (L1 := L ++ esc (take (control + 1) data)).
  assert (HL1 : (ei_output s ++ e) = L1).
  { subst L1. rewrite Ho, <- app_assoc. f_equal. rewrite Hd at 2.
    replace (control + 1)%nat with (length (take control data) + 1)%nat by (rewrite length_take; lia).
    rewrite take_app_add. simpl. rewrite take_0, escape_app, Hesc, escape_nil, app_nil_r.
    pose proof (Hpl control) as E. rewrite take_take, Nat.min_id in E. by rewrite E. }
  assert (Hsplit : forall x, L1 ++ esc x = L ++ esc (take (control + 1) data ++ x)).
  { intros x. subst L1. by rewrite escape_app, <- app_assoc. }
  unfold EI_insert. rewrite Hat, <- Hrest. wp_step. wp_step; [exact Hch|]. do 3 wp_step.
  eapply wp_mono; [apply (SendEscaped_wp L1); done|]. simpl.
  intros sent s1 ((Hp1 & Hh1) & Hi1 & Htrue & Hfalse & Heof & Herr & Hg1).
  assert (Hpre : ei_output s1 `prefix_of` L ++ esc data).
  { transitivity L1; [done|]. subst L1. apply prefix_app.
    rewrite <- (take_drop (control + 1) data) at 2. apply escape_prefix. }
  destruct sent; simpl.
  - destruct (Htrue eq_refl) as (Hl1 & He1 & _). rewrite Hl1, He1, app_nil_r in Hh1.
    case_bool_decide as Hr.
    + wp_step. split; [|done]. split; [congruence|]. split; [done|]. right. split; [done|].
      exists (control + 1)%nat. split; [lia|]. split; [lia|]. by rewrite He1, app_nil_r.
    + eapply wp_mono; [apply (Hagain rest _ L1); try done; [congruence|]|].
      { rewrite Hrest, length_drop. lia. }
      intros k s2 [(Hi2 & Hp2 & H2) Hg2]. split; [|by eapply grows_trans, Hg2].
      split; [done|].
      rewrite Hsplit, Hrest, take_drop in Hp2. split; [done|].
      destruct H2 as [?|(Hl2 & j & -> & Hj & HL2)]; [by left|right]. split; [done|].
      exists (control + 1 + j)%nat. rewrite Hrest, length_drop in Hj. split; [lia|]. split; [lia|].
      rewrite HL2, Hsplit, Hrest. by rewrite take_take_drop.
  - wp_step. wp_step. destruct (negb (ei_alive s1)) eqn:Ea; wp_step;
      (split; [|done]); unfold ei_alive in Ea; simpl_bool.
    + split; [congruence|]. split; [done|]. left.
      destruct (ei_life s1) eqn:E1; try done. by rewrite Heof in Hi.
    + rewrite Ea in Hh1. split; [congruence|]. split; [done|]. right. split; [done|].
      exists (control + 1)%nat. split; [lia|]. split; [lia|done].
Qed.

Lemma EI_OnData_loop_wp fuel data total L s :
  ei_life s = Alive -> ei_input s = true -> escaped s = [] -> ei_output s = L -> data <> [] ->
  (length data <= fuel)%nat ->
  wp (EI_OnData_loop cls fuel data total) (fun k s' => consumed L data total k s' /\ grows s s') s.
Proof.
  revert data total L s. induction fuel as [|fuel IH]; intros data total L s Hl Hi He Ho Hne Hf.
  { by destruct data; simpl in Hf; [|lia]. }
  cbn [EI_OnData_loop]. destruct (escape_find cls data) as [control|] eqn:Ef.
  - assert (Hagain : forall rest total L s, ei_life s = Alive -> ei_input s = true -> escaped s = [] ->
      ei_output s = L -> rest <> [] -> (length rest < length data)%nat ->
      wp (EI_OnData_loop cls fuel rest total) (fun k s' => consumed L rest total k s' /\ grows s s') s).
    { intros. apply IH; try done. lia. }
    destruct (escape_find_Some _ _ Ef) as (c & e & rest & Hd & Hlt & Hpl & _).
    destruct (Nat.ltb_spec 0 control) as [Hc|Hc].
    + wp_step. eapply wp_mono; [apply (EI_InvokeData_consumed L data control total); try done|].
      { destruct data; [done|]. destruct control; [lia|done]. }
      simpl. intros k s1 (Hk & He1 & Hcons & Ho1 & Hg1). wp_step. wp_step.
      destruct Hcons as (Hi1 & Hp1 & [Hlf|[Hlf Hj]]).
      { unfold ei_alive. rewrite Hlf. simpl. wp_step. split; [|done]. split; [done|]. split; [done|]. by left. }
      unfold ei_alive. rewrite bool_decide_eq_true_2 by done. cbn [negb].
      rewrite length_take in Hk.
      destruct (Z.ltb_spec k (Z.of_nat control)) as [Hlt1|Hge].
      { wp_step. split; [|done]. split; [done|]. split; [done|]. right. by split. }
      replace k with (Z.of_nat control) in * by lia.
      eapply wp_mono; [apply (EI_insert_wp _ data control total L s1); try done|].
      { rewrite (Ho1 Hlf). by rewrite Nat2Z.id. }
      simpl. intros k2 s2 [H2 [Hp2 _]]. split; [done|]. by eapply grows_trans.
    + assert (control = 0%nat) as -> by lia. rewrite <- (Z.add_0_r total) at 1.
      apply (EI_insert_wp _ _ 0); try done. by rewrite take_0, app_nil_r.
  - wp_step. rewrite <- (take_ge data (length data)) at 1 by lia.
    eapply wp_mono; [apply (EI_InvokeData_consumed L data (length data) total); try done|].
    { by rewrite take_ge. }
    { intros m. rewrite take_take. by apply escape_find_None. }
    simpl. intros k s1 (Hk & He1 & Hcons & _ & Hg1). wp_step. wp_step.
    destruct (negb (ei_alive s1)) eqn:Ea; wp_step; (split; [|done]); [|done].
    destruct Hcons as (? & ? & [?|[Hlf _]]); [split; [done|]; split; [done|by left]|].
    unfold ei_alive in Ea. by rewrite Hlf in Ea.
Qed.

(** The istream and its input, which has been consumed up to [pos]. *)
Definition ei_inv (input : list Z) (w : EscapeIstream * nat) : Prop :=
  let '(s, pos) := w in
  ei_output s `prefix_of` esc input /\
  match ei_life s with
  | Alive => (pos <= length input)%nat /\ ei_output s ++ escaped s = esc (take pos input) /\
             (ei_input s = false -> pos = length input /\ escaped s <> [])
  | AtEof => ei_output s = esc input
  | _ => True
  end.

Lemma prefix_take_input input pos L : L `prefix_of` esc (take pos input) -> L `prefix_of` esc input.
Proof.
  intros H. transitivity (esc (take pos input)); [done|].
  rewrite <- (take_drop pos input) at 2. apply escape_prefix.
Qed.

(** [SendEscaped()] in any reachable state. *)
Lemma SendEscaped_inv input s pos :
  ei_inv input (s, pos) -> ei_life s = Alive -> escaped s <> [] ->
  wp SendEscaped (fun sent s' => ei_inv input (s', pos) /\ grows s s' /\
    (sent = true -> ei_life s' = Alive /\ escaped s' = [] /\ ei_input s' = true)) s.
Proof.
  intros [Hp HI] Hl Hne. rewrite Hl in HI. destruct HI as (Hpos & HL & Hin).
  eapply wp_mono; [by apply (SendEscaped_wp (esc (take pos input)))|]. simpl.
  intros sent s1 ((Hp1 & Hh1) & Hi1 & Htrue & Hfalse & Heof & Herr & Hg).
  split; [|split; [done|intros Hs; destruct (Htrue Hs) as (?&?&?); by rewrite Hi1]].
  split; [by eapply prefix_take_input|].
  destruct (ei_life s1) eqn:E; try done.
  - split; [done|]. split; [done|]. rewrite Hi1. intros Hi. split; [by apply Hin|].
    destruct sent; [by destruct (Htrue eq_refl) as (_ & _ & ?); congruence|by apply Hfalse].
  - rewrite Hh1. destruct (Hin (Heof eq_refl)) as [-> _]. by rewrite firstn_all.
Qed.

Lemma EI_OnData_inv input s pos data :
  ei_inv input (s, pos) -> ei_life s = Alive -> ei_input s = true -> data <> [] ->
  data `prefix_of` drop pos input ->
  wp (EI_OnData cls data) (fun k s' => ei_inv input (s', (pos + Z.to_nat k)%nat) /\ grows s s') s.
Proof.
  intros HI Hl Hi Hne [more Hmore]. unfold EI_OnData. wp_step. wp_step. wp_step.
  assert (Hloop : forall s1, ei_inv input (s1, pos) -> ei_life s1 = Alive -> ei_input s1 = true ->
    escaped s1 = [] ->
    wp (EI_OnData_loop cls (length data) data 0)
      (fun k s' => ei_inv input (s', (pos + Z.to_nat k)%nat) /\ grows s1 s') s1).
  { intros s1 [Hp HI1] Hl1 Hi1 He1. rewrite Hl1, He1, app_nil_r in HI1.
    destruct HI1 as (Hpos & HL & _).
    eapply wp_mono; [by apply (EI_OnData_loop_wp _ _ _ (ei_output s1))|].
    intros k s2 [(Hi2 & Hp2 & H2) Hg2]. split; [|done].
    assert (Hlen : (pos + length data <= length input)%nat).
    { pose proof (f_equal length Hmore) as E. rewrite length_drop, length_app in E.
      destruct data; [done|]. simpl in *. lia. }
    assert (Htk : forall j, (j <= length data)%nat ->
              esc (take pos input) ++ esc (take j data) = esc (take (pos + j) input)).
    { intros j Hj. rewrite <- escape_app, <- take_take_drop, Hmore. by rewrite take_app_le. }
    assert (Hp2' : ei_output s2 `prefix_of` esc input).
    { rewrite HL in Hp2. rewrite <- (firstn_all data), Htk in Hp2 by done.
      by eapply prefix_take_input. }
    destruct H2 as [Hl2|(Hl2 & j & -> & Hj & HL2)].
    - split; [done|]. by rewrite Hl2.
    - replace (Z.to_nat (0 + Z.of_nat j)) with j by lia.
      split; [done|]. rewrite Hl2, HL2, HL, Htk by done. split; [lia|]. split; [done|congruence]. }
  destruct (bool_decide (escaped s = [])) eqn:Eb; simpl_bool; cbn [negb].
  - wp_step. cbn [negb]. by apply Hloop.
  - eapply wp_mono; [by eapply SendEscaped_inv|]. simpl. intros sent s1 (HI1 & Hg1 & Ht1).
    destruct sent; cbn [negb].
    + destruct (Ht1 eq_refl) as (? & ? & ?). eapply wp_mono; [by apply Hloop|].
      intros k s2 [H2 [Hg2 _]]. split; [done|]. by eapply grows_trans.
    + wp_step. simpl. by rewrite Nat.add_0_r.
Qed.

(** Every event keeps the invariant, and no assertion fails. *)
Lemma ei_step_inv input ev w : ei_inv input w -> exists w', ei_step cls input ev w = Some w' /\ ei_inv input w'.
Proof.
  destruct w as [s pos]. intros HI. unfold ei_step, ei_alive.
  destruct (bool_decide (ei_life s = Alive)) eqn:Hl; simpl_bool; cbn [negb]; [|by eexists].
  pose proof HI as [Hp HA]. rewrite Hl in HA. destruct HA as (Hpos & HL & Hin).
  assert (Hal : ei_alive s = true) by (by apply bool_decide_eq_true).
  destruct ev as [n| | | |].
  - destruct (negb (ei_input s) || bool_decide (take n (drop pos input) = [])) eqn:Eb; [by eexists|].
    simpl_bool. destruct (EI_OnData_inv input s pos (take n (drop pos input)) HI Hl) as (k & s' & E & HI' & _);
      [done|done|apply prefix_take|].
    rewrite E. simpl. by eexists.
  - assert (HR : wp EI_Read (fun _ s' => ei_inv input (s', pos)) s).
    { unfold EI_Read. do 3 wp_step. destruct (bool_decide (escaped s = [])) eqn:Eb; simpl_bool; cbn [negb].
      - wp_step. cbn [negb]. do 3 wp_step. wp_step; [|by wp_step].
        destruct (ei_input s) eqn:Ei; [done|]. by destruct (Hin eq_refl).
      - eapply wp_mono; [by eapply SendEscaped_inv|]. simpl. intros [] s1 (HI1 & _ & Ht); cbn [negb].
        + do 3 wp_step. wp_step; [|by wp_step]. by destruct (Ht eq_refl) as (_ & _ & ?).
        + by wp_step. }
    destruct HR as (b & s' & E & HI'). rewrite E. simpl. by eexists.
  - destruct (ei_input s && _) eqn:Eb; [|by eexists]. simpl_bool.
    apply Nat.eqb_eq in H0. subst pos. rewrite firstn_all in HL.
    unfold EI_OnEof, EI_Destroy, mbnd, mmod, mget, massert, mret, mput. simpl.
    destruct (bool_decide (escaped s = [])) eqn:Ee; simpl_bool; simpl.
    + unfold ei_alive in *. simpl. rewrite Hal. simpl. eexists. split; [done|]. simpl.
      rewrite Ee, app_nil_r in HL. by rewrite HL.
    + eexists. split; [done|]. simpl. rewrite Hl, firstn_all. by repeat split.
  - destruct (ei_input s); [|by eexists]. unfold EI_OnError, EI_Destroy, mbnd, mmod, mget, massert, mret, mput.
    unfold ei_alive in *. simpl. rewrite Hal. simpl. eexists. split; [done|]. by split.
  - unfold EI_Close, EI_Destroy, mbnd, mget, massert, mret, mput. rewrite Hal. simpl. eexists. split; [done|]. by split.
Qed.

Lemma ei_run_inv input evs w : ei_inv input w -> exists w', ei_run cls input evs w = Some w' /\ ei_inv input w'.
Proof.
  revert w. induction evs as [|ev evs IH]; intros w HI; simpl; [by eexists|].
  destruct (ei_step_inv input ev w HI) as (w1 & -> & HI1). simpl. by apply IH.
Qed.

Lemma ei_inv_new input h : ei_inv input (istream_escape_new h, 0%nat).
Proof.
  split; [apply prefix_nil|]. simpl. rewrite take_0, escape_nil. split; [lia|]. by split.
Qed.

(** The calls that ask the handler for more make progress when it is willing. *)
Definition asks (input : list Z) (ev : ei_event) (w : EscapeIstream * nat) : Prop :=
  let '(s, pos) := w in
  match ev with
  | EvData n => ei_input s = true /\ take n (drop pos input) <> []
  | EvRead => escaped s <> []
  | _ => False
  end.

Lemma ei_step_grows input ev s pos s' pos' :
  ei_inv input (s, pos) -> ei_life s = Alive -> asks input ev (s, pos) ->
  ei_step cls input ev (s, pos) = Some (s', pos') -> grows s s'.
Proof.
  intros HI Hl Hask. unfold ei_step, ei_alive. rewrite bool_decide_eq_true_2 by done. cbn [negb].
  destruct ev as [n| | | |]; simpl in Hask; try done.
  - destruct Hask as [Hi Hne]. rewrite Hi, bool_decide_eq_false_2 by done. cbn [negb orb].
    destruct (EI_OnData_inv input s pos (take n (drop pos input)) HI Hl Hi Hne) as (k & s1 & E & _ & Hg);
      [apply prefix_take|].
    rewrite E. simpl. by intros [= <- <-].
  - assert (HR : wp EI_Read (fun _ s' => grows s s') s).
    { unfold EI_Read. do 3 wp_step. rewrite bool_decide_eq_false_2 by done. cbn [negb].
      eapply wp_mono; [by eapply SendEscaped_inv|]. simpl. intros [] s1 (HI1 & Hg & Ht); cbn [negb].
      + do 3 wp_step. wp_step; [|by wp_step]. by destruct (Ht eq_refl) as (_ & _ & ?).
      + by wp_step. }
    destruct HR as (b & s1 & E & Hg). rewrite E. simpl. by intros [= <- <-].
Qed.

(** C30: the escaping istream delivers the escaped input.  Whatever the input and the handler
    do, in any order of calls, no assertion fails; the handler has received a beginning of the
    escaped input, all of it when the end of the stream has been reported, and while the stream is alive, exactly
    what belongs to the consumed part of the input except for the
    rest of the current entity.  A call that sends data makes progress if the handler accepts
    anything; and when the input has ended and the last entity was sent, the end is reported. *)
Theorem escape_istream_spec input h evs :
  exists s pos, ei_run cls input evs (istream_escape_new h, 0%nat) = Some (s, pos) /\
    ei_output s `prefix_of` esc input /\
    (ei_life s = AtEof -> ei_output s = esc input) /\
    (ei_life s = Alive -> ei_output s ++ escaped s = esc (take pos input) /\
       (ei_input s = false -> pos = length input /\ escaped s <> []) /\
       forall ev, asks input ev (s, pos) ->
         exists s' pos', ei_step cls input ev (s, pos) = Some (s', pos') /\ grows s s').
Proof.
  destruct (ei_run_inv input evs _ (ei_inv_new input h)) as ([s pos] & E & HI).
  exists s, pos. split; [done|]. pose proof HI as [Hp HA]. split; [done|].
  split; [intros Hl; by rewrite Hl in HA|]. intros Hl. rewrite Hl in HA.
  destruct HA as (_ & HL & Hin). split; [done|]. split; [done|]. intros ev Hask.
  destruct (ei_step_inv input ev _ HI) as ([s' pos'] & E' & _). exists s', pos'. split; [done|].
  by eapply ei_step_grows.
Qed.

End Facts.
