(* ===== verification/EscapeFacts.v ===== *)
(** * Theorems about escaping

    Unescaping ends for every source, stays within the size of its source, gives the same
    result in place, and is the inverse of escaping. *)

From Stdlib Require Import String.
From S2P Require Import Prelude CharUtil Uri UriFacts UriInstance Escape EscapeIstream.

(** ** Writing into a buffer *)

Lemma write_at_length buf q data :
  (q + length data <= length buf)%nat -> length (write_at buf q data) = length buf.
Proof. intros H. unfold write_at. rewrite !length_app, length_take, length_drop. lia. Qed.

Lemma drop_write_at buf q data k :
  (q + length data <= k)%nat -> (k <= length buf)%nat -> drop k (write_at buf q data) = drop k buf.
Proof.
  intros H1 H2. unfold write_at. rewrite app_assoc, drop_app_ge by (rewrite length_app, length_take; lia).
  rewrite drop_drop. f_equal. rewrite length_app, length_take. lia.
Qed.

Lemma take_write_at buf q data :
  (q + length data <= length buf)%nat -> take (q + length data) (write_at buf q data) = take q buf ++ data.
Proof.
  intros H. unfold write_at. rewrite app_assoc. apply take_app_length'.
  rewrite length_app, length_take. lia.
Qed.

(** ** The loops *)

Section Loops.
Context (d : Z) (cut : list Z -> list Z * option (list Z)) (handle : list Z -> option (list Z * list Z)).
Context (cut_found : forall a b, d ∉ a -> cut (a ++ d :: b) = (a, Some b)).
Context (cut_missing : forall s, d ∉ s -> cut s = (s, None)).
Context (handle_ok : forall after, exists out pre rest,
  handle after = Some (out, rest) /\ after = pre ++ rest /\ (length out <= 1 + length pre)%nat).

Lemma unescape_loop_total fuel src : (length src < fuel)%nat ->
  exists q, (forall fuel', (length src < fuel')%nat -> unescape_loop cut handle fuel' src = Some q) /\
    (length q <= length src)%nat.
Proof.
  revert src. induction fuel as [|fuel IH]; intros src Hf; [lia|].
  destruct (first_char src d) as [Hs|(a & b & -> & Ha)].
  - exists src. split; [|done]. intros [|fuel'] Hf'; [lia|]. simpl. by rewrite cut_missing.
  - destruct (handle_ok b) as (out & pre & rest & Hh & -> & Ho).
    rewrite !length_app in Hf. simpl in Hf. rewrite length_app in Hf.
    destruct (IH rest) as (q & Hq & Hl); [lia|]. exists (a ++ out ++ q). split.
    + intros [|fuel'] Hf'; [lia|]. simpl. rewrite cut_found, Hh by done. simpl.
      rewrite !length_app in Hf'. simpl in Hf'. rewrite length_app in Hf'.
      by rewrite Hq by lia.
    + rewrite !length_app. simpl. rewrite length_app. lia.
Qed.

Lemma inplace_loop_spec fuel buf p q :
  (length (drop p buf) < fuel)%nat -> (q <= p)%nat -> (p <= length buf)%nat ->
  exists out buf', unescape_loop cut handle fuel (drop p buf) = Some out /\
    inplace_loop cut handle fuel buf p q = Some (buf', (q + length out)%nat) /\
    length buf' = length buf /\ take (q + length out) buf' = take q buf ++ out.
Proof.
  revert buf p q. induction fuel as [|fuel IH]; intros buf p q Hf Hqp Hp; [lia|].
  pose proof (length_drop buf p) as Hlen. cbn [unescape_loop inplace_loop].
  destruct (first_char (drop p buf) d) as [Hs|(a & b & E & Ha)].
  - rewrite cut_missing by done. exists (drop p buf). eexists. split; [done|]. split; [done|].
    rewrite write_at_length, take_write_at by lia. done.
  - destruct (handle_ok b) as (out & pre & rest & Hh & -> & Ho).
    assert (Hb : drop (p + length a + 1) buf = pre ++ rest).
    { rewrite <- Nat.add_assoc, <- drop_drop, E, drop_app_add. done. }
    pose proof (f_equal length E) as El. rewrite length_app in El. simpl in El. rewrite length_app in El.
    rewrite E, cut_found by done. cbn zeta.
    assert (Hpa : (length (write_at buf q a) - length (pre ++ rest))%nat = (p + length a + 1)%nat).
    { rewrite write_at_length, length_app by lia. lia. }
    rewrite Hpa, drop_write_at, Hb, Hh by lia. simpl (Some _ ≫= _). cbn zeta.
    set (buf1 := write_at buf q a). set (buf2 := write_at buf1 (q + length a) out).
    assert (L1 : length buf1 = length buf) by (apply write_at_length; lia).
    assert (L2 : length buf2 = length buf) by (subst buf2; rewrite write_at_length; lia).
    assert (Hrest : drop (length buf2 - length rest) buf2 = rest).
    { subst buf2. rewrite drop_write_at by lia. subst buf1. rewrite drop_write_at by lia.
      replace (length _ - _)%nat with (p + length a + 1 + length pre)%nat by lia.
      rewrite <- drop_drop, Hb. by rewrite drop_app_length. }
    destruct (IH buf2 (length buf2 - length rest)%nat (q + length a + length out)%nat)
      as (o & buf' & Hu & Hi & Hl & Ht); [rewrite Hrest; lia|lia|lia|].
    rewrite Hrest in Hu. rewrite Hu. simpl (Some o ≫= _). rewrite Hi.
    exists (a ++ out ++ o), buf'. split; [done|]. rewrite !length_app.
    replace (q + (length a + (length out + length o)))%nat with (q + length a + length out + length o)%nat by lia.
    split; [done|]. split; [lia|]. rewrite Ht. subst buf2. rewrite take_write_at by lia.
    subst buf1. rewrite take_write_at by lia. by rewrite <- !app_assoc.
Qed.

Definition unescape_all (src : list Z) : option (list Z) := unescape_loop cut handle (S (length src)) src.

Lemma unescape_all_fuel fuel src :
  (length src < fuel)%nat -> unescape_loop cut handle fuel src = unescape_all src.
Proof.
  intros H. destruct (unescape_loop_total (S (length src)) src) as (q & Hq & _); [lia|].
  unfold unescape_all. by rewrite !Hq by lia.
Qed.

Lemma unescape_all_special x out rest : handle x = Some (out, rest) ->
  unescape_all (d :: x) = (q ← unescape_all rest; Some (out ++ q)).
Proof.
  intros Hh. unfold unescape_all at 1. remember (length (d :: x)) as n eqn:En. cbn [unescape_loop].
  change (d :: x) with ([] ++ d :: x). rewrite cut_found, Hh by (by intros ?%elem_of_nil). simpl.
  destruct (handle_ok x) as (out' & pre & rest' & Hh' & -> & _). rewrite Hh' in Hh. injection Hh as -> ->.
  rewrite unescape_all_fuel; [done|]. simpl in En. rewrite length_app in En. lia.
Qed.

Lemma unescape_all_plain c x : c <> d -> unescape_all (c :: x) = (q ← unescape_all x; Some (c :: q)).
Proof.
  intros Hc. unfold unescape_all. remember (length (c :: x)) as n eqn:En.
  remember (length x) as m eqn:Em. destruct (first_char x d) as [Hs|(a & b & -> & Ha)].
  - cbn [unescape_loop]. rewrite !cut_missing; [done|done|]. rewrite not_elem_of_cons. by split.
  - cbn [unescape_loop].
    rewrite (cut_found a b Ha). change (c :: a ++ d :: b) with ((c :: a) ++ d :: b).
    rewrite (cut_found (c :: a)) by (rewrite not_elem_of_cons; by split).
    destruct (handle_ok b) as (out & pre & rest & -> & -> & _). simpl.
    simpl in En. rewrite length_app in En, Em. simpl in En, Em. rewrite length_app in En, Em.
    rewrite !unescape_all_fuel by lia. by destruct (unescape_all rest).
Qed.

End Loops.

(** ** HTML *)

Section Html.
Context `{CU : CharUtil} `{UL : UriLib} {LW : UriLaws} `{U8 : Utf8Lib} {U8L : Utf8Laws}.

Lemma html_cut_found a b : chr "&" ∉ a -> html_cut (a ++ chr "&" :: b) = (a, Some b).
Proof. apply Split_found. Qed.

Lemma html_cut_missing s : chr "&" ∉ s -> html_cut s = (s, None).
Proof. apply Split_missing. Qed.

Lemma ParseNumericEntity_ok c e : exists v u, ParseNumericEntity (c :: e) = Some (v, u).
Proof. simpl. destruct (if c =? chr "x" then _ else _) as [v u]. by eexists _, _. Qed.

Lemma html_entity_ok after : exists out pre rest,
  html_entity after = Some (out, rest) /\ after = pre ++ rest /\ (length out <= 1 + length pre)%nat.
Proof.
  assert (Hlit : exists out pre rest, Some (str "&", after) = Some (out, rest) /\ after = pre ++ rest /\
    (length out <= 1 + length pre)%nat) by (exists (str "&"), [], after; simpl; split; [done|]; split; [done|lia]).
  unfold html_entity. destruct (first_char after (chr ";")) as [Hs|(e & r & -> & He)].
  { by rewrite Split_missing. }
  rewrite Split_found by done. destruct e as [|f e]; [done|].
  assert (Hone : forall c : Z, exists out pre rest : list Z, Some ([c], r) = Some (out, rest) /\
    (f :: e) ++ chr ";" :: r = pre ++ rest /\ (length out <= 1 + length pre)%nat).
  { intros c. exists [c], ((f :: e) ++ [chr ";"]), r. split; [done|]. rewrite <- app_assoc.
    split; [done|]. simpl. lia. }
  repeat (case_bool_decide; [apply Hone|]). destruct (f =? chr "#"); [|done].
  destruct e as [|c e]; [done|]. destruct (ParseNumericEntity_ok c e) as (v & u & ->). simpl (_ ≫= _).
  destruct ((v <=? 0) || _ || _) eqn:Ev; [done|]. simpl_bool.
  exists (UnicodeToUTF8 v), ((f :: c :: e) ++ [chr ";"]), r. split; [done|]. rewrite <- app_assoc.
  split; [done|]. pose proof (UnicodeToUTF8_length v). rewrite length_app. simpl. lia.
Qed.

Lemma html_unescape_plain c x : c <> chr "&" -> html_unescape (c :: x) = (q ← html_unescape x; Some (c :: q)).
Proof. exact (unescape_all_plain _ _ _ html_cut_found html_cut_missing html_entity_ok c x). Qed.

Lemma html_unescape_entity x out rest : html_entity x = Some (out, rest) ->
  html_unescape (chr "&" :: x) = (q ← html_unescape rest; Some (out ++ q)).
Proof. exact (unescape_all_special _ _ _ html_cut_found html_cut_missing html_entity_ok x out rest). Qed.

Lemma html_entity_named e c y :
  (e, c) ∈ [(str "amp", chr "&"); (str "quot", 34); (str "apos", chr "'"); (str "lt", chr "<");
            (str "gt", chr ">")] ->
  html_entity (e ++ chr ";" :: y) = Some ([c], y).
Proof.
  intros H. unfold html_entity. rewrite Split_found.
  - rewrite !elem_of_cons in H. destruct H as [[= -> ->]|[[= -> ->]|[[= -> ->]|[[= -> ->]|[[= -> ->]|H]]]]];
      [reflexivity..|by apply elem_of_nil in H].
  - rewrite !elem_of_cons in H. destruct H as [[= -> ->]|[[= -> ->]|[[= -> ->]|[[= -> ->]|[[= -> ->]|H]]]]];
      [apply (bool_decide_unpack _); vm_compute; exact I..|by apply elem_of_nil in H].
Qed.

Lemma html_unescape_escape s : html_unescape (html_escape s) = Some s.
Proof.
  induction s as [|c s IH].
  { unfold html_unescape. simpl. by rewrite html_cut_missing by (by intros ?%elem_of_nil). }
  assert (Hent : forall e, (e, c) ∈ [(str "amp", chr "&"); (str "quot", 34); (str "apos", chr "'");
      (str "lt", chr "<"); (str "gt", chr ">")] ->
    html_unescape (chr "&" :: e ++ chr ";" :: html_escape s) = Some (c :: s)).
  { intros e He. rewrite (html_unescape_entity _ _ _ (html_entity_named e c _ He)). by rewrite IH. }
  cbn [html_escape].
  destruct (Z.eqb_spec c (chr "&")) as [->|H1]; [apply (Hent (str "amp")); set_solver|].
  destruct (Z.eqb_spec c 34) as [->|H2]; [apply (Hent (str "quot")); set_solver|].
  destruct (Z.eqb_spec c (chr "'")) as [->|H3]; [apply (Hent (str "apos")); set_solver|].
  destruct (Z.eqb_spec c (chr "<")) as [->|H4]; [apply (Hent (str "lt")); set_solver|].
  destruct (Z.eqb_spec c (chr ">")) as [->|H5]; [apply (Hent (str "gt")); set_solver|].
  simpl. by rewrite html_unescape_plain, IH.
Qed.

Lemma html_escape_size_ok s : length (html_escape s) = html_escape_size s.
Proof.
  induction s as [|c s IH]; [done|]. cbn [html_escape html_escape_size]. cbv zeta.
  rewrite length_app, IH.
  destruct (c =? chr "&"); [done|]. destruct (c =? 34); [done|]. destruct (c =? chr "'"); [done|].
  destruct (c =? chr "<"); [done|]. by destruct (c =? chr ">").
Qed.

End Html.

(** ** CSS *)

Lemma css_cut_found a b : chr "\" ∉ a -> css_cut (a ++ chr "\" :: b) = (a, Some b).
Proof.
  intros H. unfold css_cut. rewrite strchr_app by done. by rewrite take_app_length, drop_app_add.
Qed.

Lemma css_cut_missing s : chr "\" ∉ s -> css_cut s = (s, None).
Proof. intros H. unfold css_cut. by rewrite strchr_missing. Qed.

Lemma css_backslash_ok after : exists out pre rest,
  css_backslash after = Some (out, rest) /\ after = pre ++ rest /\ (length out <= 1 + length pre)%nat.
Proof.
  destruct after as [|c p]; simpl; [by exists (str "\"), [], []; simpl; split; [|split; [|lia]]|].
  destruct (need_simple_escape c).
  - exists [c], [c], p. split; [done|]. split; [done|]. simpl. lia.
  - exists (str "\"), [], (c :: p). split; [done|]. split; [done|]. simpl. lia.
Qed.

Lemma css_unescape_escape s : css_unescape (css_escape s) = Some s.
Proof.
  induction s as [|c s IH]; [done|].
  cbn [css_escape]. destruct (need_simple_escape c) eqn:E; cbn [app].
  - etransitivity; [apply (unescape_all_special _ _ _ css_cut_found css_cut_missing css_backslash_ok _ [c] (css_escape s))|].
    + simpl. by rewrite E.
    + unfold unescape_all. unfold css_unescape in IH. by rewrite IH.
  - etransitivity; [apply (unescape_all_plain _ _ _ css_cut_found css_cut_missing css_backslash_ok)|].
    + unfold need_simple_escape in E. by simpl_bool.
    + unfold unescape_all. unfold css_unescape in IH. by rewrite IH.
Qed.

(** The loop of [css_escape_size()] does not end, because it does not advance: no number
    of iterations is enough for any string that is not empty. *)
Lemma css_escape_size_hangs fuel c p size : css_escape_size fuel (c :: p) size = None.
Proof. revert size. induction fuel as [|fuel IH]; intros size; [done|]. apply IH. Qed.

(** ** The theorems *)

Section Theorems.
Context `{CU : CharUtil} `{UL : UriLib} {LW : UriLaws} `{U8 : Utf8Lib} {U8L : Utf8Laws}.

(** unescaping reverts escaping, for HTML and for CSS, for every string; and copying an
    escaped or unescaped string never exceeds the buffer that is allocated: the size that
    [html_escape_size()] computes is exact, and what is unescaped fits in the size of its source. *)
Theorem escape_roundtrip s :
  html_unescape (html_escape s) = Some s /\ css_unescape (css_escape s) = Some s /\
  (forall fuel, escape_dup html_escape_class fuel s = Some (html_escape s)) /\
  unescape_dup html_escape_class (html_escape s) = Some s /\
  unescape_dup css_escape_class (css_escape s) = Some s.
Proof.
  split; [apply html_unescape_escape|]. split; [apply css_unescape_escape|]. split; [|split].
  - intros fuel. unfold escape_dup. simpl. rewrite <- html_escape_size_ok.
    destruct s as [|c s]; [done|]. destruct (Nat.eqb_spec (length (html_escape (c :: s))) 0) as [E|E].
    + rewrite html_escape_size_ok in E. cbn [html_escape_size] in E. cbv zeta in E.
      repeat case_match; lia.
    + unfold put. by rewrite Nat.leb_refl.
  - unfold unescape_dup, unescape_buffer, put. simpl. rewrite html_unescape_escape. simpl.
    destruct (unescape_loop_total _ _ _ html_cut_found html_cut_missing html_entity_ok
      (S (length (html_escape s))) (html_escape s)) as (q & Hq & Hl); [lia|].
    pose proof (html_unescape_escape s) as E. unfold html_unescape in E. rewrite Hq in E by lia.
    injection E as ->. rewrite (proj2 (Nat.leb_le _ _) Hl). simpl. by rewrite (proj2 (Nat.leb_le _ _) Hl).
  - unfold unescape_dup, unescape_buffer, put. simpl. rewrite css_unescape_escape. simpl.
    destruct (unescape_loop_total _ _ _ css_cut_found css_cut_missing css_backslash_ok
      (S (length (css_escape s))) (css_escape s)) as (q & Hq & Hl); [lia|].
    pose proof (css_unescape_escape s) as E. unfold css_unescape in E. rewrite Hq in E by lia.
    injection E as ->. rewrite (proj2 (Nat.leb_le _ _) Hl). simpl. by rewrite (proj2 (Nat.leb_le _ _) Hl).
Qed.

(** Unescaping in place is unescaping into another buffer. *)
Definition inplace_correct (cls : escape_class) : Prop :=
  forall buf, exists q buf', unescape_buffer cls buf = Some q /\
    unescape_inplace cls buf = Some (buf', length q) /\
    length buf' = length buf /\ take (length q) buf' = q.

Lemma inplace_correct_loop d cut handle cls :
  (forall a b, d ∉ a -> cut (a ++ d :: b) = (a, Some b)) -> (forall s, d ∉ s -> cut s = (s, None)) ->
  (forall after, exists out pre rest,
     handle after = Some (out, rest) /\ after = pre ++ rest /\ (length out <= 1 + length pre)%nat) ->
  (forall s, cls_unescape cls s = unescape_loop cut handle (S (length s)) s) ->
  (forall s, cls_unescape_inplace cls s = inplace_loop cut handle (S (length s)) s 0 0) ->
  inplace_correct cls.
Proof.
  intros H1 H2 H3 Hu Hi buf.
  destruct (inplace_loop_spec d cut handle H1 H2 H3 (S (length buf)) buf 0 0) as (q & buf' & E1 & E2 & E3 & E4);
    [rewrite drop_0; lia|lia|lia|].
  destruct (unescape_loop_total d cut handle H1 H2 H3 (S (length buf)) buf) as (q' & Hq & Hl); [lia|].
  rewrite drop_0 in E1. rewrite Hq in E1 by lia. injection E1 as ->. rewrite Nat.add_0_l in E2, E4.
  exists q, buf'. unfold unescape_buffer, unescape_inplace. rewrite Hu, Hi, Hq, E2 by lia. simpl.
  rewrite (proj2 (Nat.leb_le _ _) Hl). by rewrite take_0 in E4.
Qed.

(** unescaping ends for every source, well-formed or not, and its result is not longer than
    the source, as its callers assert; and when it is done in place, with reads and writes in
    the same buffer, the buffer begins with the same result. *)
Theorem unescape_inplace_spec : inplace_correct html_escape_class /\ inplace_correct css_escape_class.
Proof.
  split.
  - by apply (inplace_correct_loop _ _ _ _ html_cut_found html_cut_missing html_entity_ok).
  - by apply (inplace_correct_loop _ _ _ _ css_cut_found css_cut_missing css_backslash_ok).
Qed.

End Theorems.

(** ** Examples and witnesses *)

(** UTF-8. *)
#[global] Instance ConcreteUtf8 : Utf8Lib := fun c =>
  if c <? 0x80 then [c]
  else if c <? 0x800 then [0xc0 + c / 64; 0x80 + c mod 64]
  else if c <? 0x10000 then [0xe0 + c / 4096; 0x80 + c / 64 mod 64; 0x80 + c mod 64]
  else [0xf0 + c / 262144; 0x80 + c / 4096 mod 64; 0x80 + c / 64 mod 64; 0x80 + c mod 64].

#[global] Instance ConcreteUtf8Laws : Utf8Laws.
Proof.
  constructor. intros c _. unfold UnicodeToUTF8, ConcreteUtf8. repeat case_match; simpl; lia.
Qed.

#[local] Existing Instance AsciiChars.

Example html_unescape_tests :
  map html_unescape (map str ["foo&amp;bar"; "&amp;amp;"; "&gt&lt;&apos;"; "&#10;"; "&#xfc;"; "&#;&;"]%string) =
  map Some [str "foo&bar"; str "&amp;"; str "&gt<'"; [10]; [0xc3; 0xbc]; str "&#;&;"].
Proof. vm_compute. reflexivity. Qed.

Example css_escape_tests :
  (css_escape (str "foo\bar"), css_escape (str "foo'bar"), css_unescape (str "foo\\")) =
  (str "foo\\bar", str "foo\'bar", Some (str "foo\")).
Proof. vm_compute. reflexivity. Qed.

Lemma escape_roundtrip_witness : html_unescape (str "a&lt;b&amp;") = Some (str "a<b&").
Proof. apply (proj1 (escape_roundtrip (str "a<b&"))). Defined.

Lemma unescape_inplace_spec_witness :
  exists q buf', unescape_buffer html_escape_class (str "a&#x10ffff;") = Some q /\
    unescape_inplace html_escape_class (str "a&#x10ffff;") = Some (buf', length q) /\
    length buf' = 11%nat /\ take (length q) buf' = q.
Proof. apply (proj1 unescape_inplace_spec (str "a&#x10ffff;")). Defined.

Lemma escape_istream_spec_witness :
  exists s pos,
    ei_run css_escape_class (str "a'b") [EvData 3; EvRead; EvData 1; EvEof]
      (istream_escape_new [Chunked.Accept 9; Chunked.Accept 1; Chunked.Accept 9; Chunked.Accept 9], 0%nat) =
      Some (s, pos) /\
    ei_output s `prefix_of` str "a\'b" /\ (ei_life s = Chunked.AtEof -> ei_output s = str "a\'b").
Proof.
  destruct (escape_istream_spec (cls := css_escape_class) (str "a'b")
    [Chunked.Accept 9; Chunked.Accept 1; Chunked.Accept 9; Chunked.Accept 9]
    [EvData 3; EvRead; EvData 1; EvEof]) as (s & pos & H1 & H2 & H3 & _).
  exists s, pos. split; [exact H1|]. split; [exact H2|exact H3].
Defined.

Example escape_istream_run :
  option_map (fun w => (ei_output w.1, ei_life w.1))
    (ei_run css_escape_class (str "a'b") [EvData 3; EvRead; EvData 1; EvEof]
      (istream_escape_new [Chunked.Accept 9; Chunked.Accept 1; Chunked.Accept 9; Chunked.Accept 9], 0%nat)) =
  Some (str "a\'b", Chunked.AtEof).
Proof. vm_compute. reflexivity. Qed.
