(* ===== verification/Sink.v ===== *)
(** * The handler of an istream

    What the filter istreams share: the handler ([IstreamHandler]) that receives the data.  It
    accepts as much as it likes of what it is offered, blocks, or closes the istream in the
    middle of a call; its decisions are a list, as in [Chunked]. *)

From S2P Require Import Prelude Chunked.

Record Sink := mkSink {
  k_life : phase;
  k_handler : list reaction;
  k_output : list Z }.

Definition Sink_new (h : list reaction) : Sink := mkSink Alive h [].

Definition alive (k : Sink) : bool := bool_decide (k_life k = Alive).

Definition set_k_life (l : phase) (k : Sink) : Sink := mkSink l (k_handler k) (k_output k).

(** [Istream::InvokeData()]; [None] is a failed assertion: the istream must not have been
    destroyed, and there must be data. *)
Definition Invoke (src : list Z) (k : Sink) : option (nat * Sink) :=
  if negb (alive k) || bool_decide (src = []) then None
  else match k_handler k with
  | [] => Some (0%nat, k)
  | Accept n :: h =>
      let n := Z.to_nat (Z.max 0 (Z.min n (Z.of_nat (length src)))) in
      Some (n, mkSink (k_life k) h (k_output k ++ take n src))
  | CloseStream :: h => Some (0%nat, mkSink Closed h (k_output k))
  end.

(** [DestroyEof()], [DestroyError()] and [Destroy()]. *)
Definition DestroySink (l : phase) (k : Sink) : option Sink :=
  if alive k then Some (set_k_life l k) else None.

Lemma alive_true k : alive k = true <-> k_life k = Alive.
Proof. apply bool_decide_eq_true. Qed.

Lemma Invoke_spec src k : alive k = true -> src <> [] ->
  exists n k', Invoke src k = Some (n, k') /\ (n <= length src)%nat /\
    k_output k' = k_output k ++ take n src /\ (alive k' = true \/ n = 0%nat /\ k_life k' = Closed).
Proof.
  intros Ha Hne. unfold Invoke. rewrite Ha, bool_decide_eq_false_2 by done. simpl.
  destruct (k_handler k) as [|[n|] h]; eexists _, _; (split; [done|]).
  - rewrite take_0, app_nil_r. split; [lia|]. split; [done|by left].
  - split; [lia|]. split; [done|]. left. exact Ha.
  - rewrite take_0, app_nil_r. split; [lia|]. split; [done|by right].
Qed.
