(* ===== verification/RubberSink.v ===== *)
(** * Storing streams in the allocator, and reading them again

    Models src/memory/sink_rubber.cxx, the istream handler that copies its input into an object of
    the "rubber" allocator, src/memory/istream_rubber.cxx, the istream that reads such an object,
    and [RubberAllocation] of src/memory/Rubber.hxx, against the interface [ObjectStore].

    A [RubberAllocation] is the id of the object that it owns, or 0.  [None] is a failed
    assertion. *)

From S2P Require Import Prelude Bucket Chunked Sink ObjectStore.

#[local] Open Scope beng_scope.

(** How a sink ends: the method of the [RubberSinkHandler] that is called, if any. *)
Inductive sink_event :=
| RubberDone (id size : Z)
| RubberOutOfMemory
| RubberTooLarge
| RubberError
| RubberCancelled.

Record RubberSink := mkRubberSink {
  s_allocation : Z;
  s_max_size : Z;
  s_position : Z }.

Inductive sink_state := Receiving (s : RubberSink) | Ended (e : sink_event).

(** What [fd_read()] returns. *)
Inductive fd_result := FdBytes (l : list Z) | FdEnd | FdErrno.

Inductive IstreamDirectResult := D_CLOSED | D_ERRNO | D_END | D_OK.

Section Sink.
Context `{O : ObjectStore}.

(** The destructor of [RubberAllocation]; [allocation = {}] runs it for the old value. *)
Definition RubberAllocation_delete (id : Z) : M os unit :=
  if id =? 0 then mret tt else os_Remove id.

Definition RubberAllocation_Shrink (id new_size : Z) : M os unit :=
  massert (negb (id =? 0)) ;;; os_Shrink id new_size.

(** Copying to [Write() + position]. *)
Definition RubberAllocation_store (id position : Z) (src : list Z) : M os unit :=
  massert (negb (id =? 0)) ;;; os_store id (Z.to_nat position) src.

Definition FailTooLarge (s : RubberSink) : M os sink_state :=
  RubberAllocation_delete (s_allocation s) ;;; mret (Ended RubberTooLarge).

Definition RubberSink_DestroyEof (s : RubberSink) : M os sink_state :=
  if s_position s =? 0 then
    RubberAllocation_delete (s_allocation s) ;;; mret (Ended (RubberDone 0 0))
  else
    RubberAllocation_Shrink (s_allocation s) (s_position s) ;;;
    mret (Ended (RubberDone (s_allocation s) (s_position s))).

Definition advance_sink (n : Z) (s : RubberSink) : RubberSink :=
  mkRubberSink (s_allocation s) (s_max_size s) (s_position s + n).

Definition RubberSink_OnData (src : list Z) (s : RubberSink) : M os (Z * sink_state) :=
  let size := Z.of_nat (length src) in
  massert (s_position s <=? s_max_size s) ;;;
  if s_max_size s <? wrap 64 (s_position s + size) then
    let! st := FailTooLarge s in mret (0, st)
  else
    RubberAllocation_store (s_allocation s) (s_position s) src ;;;
    mret (size, Receiving (advance_sink size s)).

(** [fd_read n] is the result of reading at most [n] bytes from the file descriptor. *)
Definition RubberSink_OnDirect (fd_read : Z -> fd_result) (max_length : Z) (s : RubberSink)
    : M os (IstreamDirectResult * sink_state) :=
  massert (s_position s <=? s_max_size s) ;;;
  let length_ := s_max_size s - s_position s in
  if length_ =? 0 then
    match fd_read 1 with
    | FdBytes _ => let! st := FailTooLarge s in mret (D_CLOSED, st)
    | FdEnd => let! st := RubberSink_DestroyEof s in mret (D_CLOSED, st)
    | FdErrno => mret (D_ERRNO, Receiving s)
    end
  else
    let length_ := if max_length <? length_ then max_length else length_ in
    match fd_read length_ with
    | FdBytes l =>
        RubberAllocation_store (s_allocation s) (s_position s) l ;;;
        mret (D_OK, Receiving (advance_sink (Z.of_nat (length l)) s))
    | FdEnd => RubberAllocation_store (s_allocation s) (s_position s) [] ;;; mret (D_END, Receiving s)
    | FdErrno => RubberAllocation_store (s_allocation s) (s_position s) [] ;;; mret (D_ERRNO, Receiving s)
    end.

Definition RubberSink_OnEof (s : RubberSink) : M os sink_state := RubberSink_DestroyEof s.

Definition RubberSink_OnError (s : RubberSink) : M os sink_state :=
  RubberAllocation_delete (s_allocation s) ;;; mret (Ended RubberError).

Definition RubberSink_Cancel (s : RubberSink) : M os sink_state :=
  RubberAllocation_delete (s_allocation s) ;;; mret (Ended RubberCancelled).

(** [available] and [size] are what the input returns for [GetAvailable(true)] and
    [GetAvailable(false)]. *)
Definition sink_rubber_new (available size max_size : Z) : M os sink_state :=
  if max_size <? available then mret (Ended RubberTooLarge)
  else
    massert ((size =? -1) || (available <=? size)) ;;;
    massert (size <=? max_size) ;;;
    if size =? 0 then mret (Ended (RubberDone 0 0))
    else
      let allocate := if size =? -1 then max_size else size in
      let! rubber_id := os_Add allocate in
      if rubber_id =? 0 then mret (Ended RubberOutOfMemory)
      else mret (Receiving (mkRubberSink rubber_id allocate 0)).

(** ** The istream *)

Record RubberIstream := mkRubberIstream {
  i_id : Z;
  i_auto_remove : bool;
  i_position : Z;
  i_end : Z }.

(** [None]: the id must be valid. *)
Definition istream_rubber_new (id start end_ : Z) (auto_remove : bool) : option RubberIstream :=
  if (0 <? id) && (start <=? end_) then Some (mkRubberIstream id auto_remove start end_) else None.

Definition RubberIstream_GetAvailable (i : RubberIstream) : Z := i_end i - i_position i.

Definition advance_istream (n : Z) (i : RubberIstream) : RubberIstream :=
  mkRubberIstream (i_id i) (i_auto_remove i) (i_position i + n) (i_end i).

Definition RubberIstream_Skip (nbytes : Z) (i : RubberIstream) : option (Z * RubberIstream) :=
  if i_end i <? i_position i then None
  else
    let remaining := i_end i - i_position i in
    let nbytes := if remaining <? nbytes then remaining else nbytes in
    Some (nbytes, advance_istream nbytes i).

(** The destructor. *)
Definition RubberIstream_delete (i : RubberIstream) : M os unit :=
  if i_auto_remove i then os_Remove (i_id i) else mret tt.

(** A call of the handler. *)
Definition invoke (src : list Z) (k : Sink) : M os (nat * Sink) := mopt (Invoke src k).

(** [DestroyEof()] calls the destructor, and so does a handler that closes the istream. *)
Definition RubberIstream_Read (i : RubberIstream) (k : Sink) : M os (RubberIstream * Sink) :=
  massert (i_position i <=? i_end i) ;;;
  let remaining := i_end i - i_position i in
  let! data := os_load (i_id i) (Z.to_nat (i_position i)) (Z.to_nat remaining) in
  let! r := (if 0 <? remaining
             then let! nk := invoke data k in mret (Some nk)
             else mret None) in
  match r with
  | Some (0%nat, k) =>
      (if alive k then mret tt else RubberIstream_delete i) ;;; mret (i, k)
  | _ =>
      let i := match r with Some (n, _) => advance_istream (Z.of_nat n) i | None => i end in
      let k := match r with Some (_, k) => k | None => k end in
      if i_position i =? i_end i then
        let! k := mopt (DestroySink AtEof k) in
        RubberIstream_delete i ;;; mret (i, k)
      else mret (i, k)
  end.

Definition RubberIstream_FillBucketList (i : RubberIstream) (list : IstreamBucketList)
    : M os IstreamBucketList :=
  let remaining := i_end i - i_position i in
  let! data := os_load (i_id i) (Z.to_nat (i_position i)) (Z.to_nat remaining) in
  mret (if 0 <? remaining then Push data list else list).

(** The result is the number of bytes that were consumed, and whether the istream is at its end. *)
Definition RubberIstream_ConsumeBucketList (nbytes : Z) (i : RubberIstream) : Z * bool * RubberIstream :=
  let remaining := i_end i - i_position i in
  let consumed := Z.min nbytes remaining in
  let i := advance_istream consumed i in
  (consumed, i_position i =? i_end i, i).

End Sink.

(** ** What may happen to a sink *)

(** [InDirect l n]: the file descriptor has [l] to be read ([None] is an error, [[]] its end), and [n] is the
    [max_length]. *)
Inductive sink_input :=
| InData (l : list Z)
| InDirect (l : option (list Z)) (max_length : Z)
| InEof
| InError
| InCancel.

Definition read_from (l : option (list Z)) (n : Z) : fd_result :=
  match l with
  | None => FdErrno
  | Some [] => FdEnd
  | Some l => FdBytes (take (Z.to_nat n) l)
  end.

Definition sink_step `{O : ObjectStore} (i : sink_input) (st : sink_state) : M os sink_state :=
  match st with
  | Ended _ => mret st
  | Receiving s =>
      match i with
      | InData l => let! r := RubberSink_OnData l s in mret (snd r)
      | InDirect l n => let! r := RubberSink_OnDirect (read_from l) n s in mret (snd r)
      | InEof => RubberSink_OnEof s
      | InError => RubberSink_OnError s
      | InCancel => RubberSink_Cancel s
      end
  end.

Fixpoint sink_run `{O : ObjectStore} (l : list sink_input) (st : sink_state) : M os sink_state :=
  match l with
  | [] => mret st
  | i :: l' => let! st := sink_step i st in sink_run l' st
  end.

(** The abstract sink: a string of limited length that grows, until it is complete or the
    sink has failed. *)
Inductive asink := Growing (data : list Z) | Complete (data : list Z) | Failed (e : sink_event).

Definition asink_step (limit : Z) (i : sink_input) (a : asink) : asink :=
  match a with
  | Growing data =>
      let n := Z.of_nat (length data) in
      match i with
      | InData l => if limit <? n + Z.of_nat (length l) then Failed RubberTooLarge else Growing (data ++ l)
      | InDirect None _ => Growing data
      | InDirect (Some []) _ => if n =? limit then Complete data else Growing data
      | InDirect (Some l) max =>
          if n =? limit then Failed RubberTooLarge
          else Growing (data ++ take (Z.to_nat (Z.min max (limit - n))) l)
      | InEof => Complete data
      | InError => Failed RubberError
      | InCancel => Failed RubberCancelled
      end
  | _ => a
  end.

Definition legal_input (i : sink_input) : Prop :=
  match i with InData l => Z.of_nat (length l) < 2 ^ 62 | InDirect _ n => 0 < n | _ => True end.

(** ** What a sink has stored *)

Section SinkFacts.
Context `{OL : ObjectStoreLaws}.

(** The sink has received [data]; [m] are all objects, its own included. *)
Definition sink_holds (m : gmap Z (list Z)) (s : RubberSink) (data : list Z) : Prop :=
  exists b, m !! s_allocation s = Some b /\ 0 < s_allocation s /\
    s_position s = Z.of_nat (length data) /\ s_position s <= s_max_size s /\ 0 < s_max_size s < 2 ^ 62 /\
    s_max_size s <= Z.of_nat (length b) /\ take (length data) b = data.

(** The objects of the others. *)
Definition same_others (id : Z) (m m' : gmap Z (list Z)) : Prop := delete id m' = delete id m.

Lemma same_others_insert id b m : same_others id m (<[id := b]> m).
Proof. unfold same_others. by rewrite delete_insert_eq. Qed.

Lemma same_others_trans id m1 m2 m3 : same_others id m1 m2 -> same_others id m2 m3 -> same_others id m1 m3.
Proof. unfold same_others. congruence. Qed.

Lemma RubberAllocation_delete_ok id st m : os_rep st m -> (id = 0 \/ is_Some (m !! id)) -> m !! 0 = None ->
  wp (RubberAllocation_delete id) (fun _ st' => os_rep st' (delete id m)) st.
Proof.
  intros HR Hid H0. unfold RubberAllocation_delete. destruct (Z.eqb_spec id 0) as [->|Hne].
  - apply wp_ret. by rewrite delete_id.
  - apply os_Remove_ok; [done|]. by destruct Hid.
Qed.

Lemma delete_sink_ok s data st m (Q : unit -> os -> Prop) : os_rep st m -> sink_holds m s data ->
  (forall st', os_rep st' (delete (s_allocation s) m) -> Q tt st') ->
  wp (RubberAllocation_delete (s_allocation s)) Q st.
Proof.
  intros HR (b & Hb & Hid & _) HQ. unfold RubberAllocation_delete. rewrite (proj2 (Z.eqb_neq _ 0)) by lia.
  eapply wp_mono; [by apply os_Remove_ok; [exact HR|eexists]|]. intros [] st' H. by apply HQ.
Qed.

Lemma store_sink_ok s data src st m (Q : unit -> os -> Prop) : os_rep st m -> sink_holds m s data ->
  s_position s + Z.of_nat (length src) <= s_max_size s ->
  (forall st' m', os_rep st' m' -> sink_holds m' (advance_sink (Z.of_nat (length src)) s) (data ++ src) ->
     same_others (s_allocation s) m m' -> Q tt st') ->
  wp (RubberAllocation_store (s_allocation s) (s_position s) src) Q st.
Proof.
  intros HR (b & Hb & Hid & Hp & Hpm & Hmax & Hl & Hd) Hs HQ. unfold RubberAllocation_store. apply wp_bind, wp_assert.
  { by rewrite (proj2 (Z.eqb_neq _ 0)) by lia. }
  rewrite Hp, Nat2Z.id.
  eapply wp_mono; [apply (os_store_ok (s_allocation s) (length data) src b st m HR Hb); lia|].
  intros [] st' H. eapply HQ; [exact H| |apply same_others_insert].
  exists (overwrite (length data) src b). cbn [advance_sink s_allocation s_position s_max_size].
  rewrite lookup_insert_eq, length_app, length_overwrite, take_overwrite, Hd by lia. split_and!; done || lia.
Qed.

(** The state after some data has arrived. *)
Definition received (m : gmap Z (list Z)) (s : RubberSink) (data : list Z) (st : sink_state) (s' : os) : Prop :=
  match st with
  | Receiving s1 => s_allocation s1 = s_allocation s /\ s_max_size s1 = s_max_size s /\
      exists m', os_rep s' m' /\ sink_holds m' s1 data /\ same_others (s_allocation s) m m'
  | Ended e => e = RubberTooLarge /\ s_max_size s < Z.of_nat (length data) /\ os_rep s' (delete (s_allocation s) m)
  end.

Lemma OnData_ok s data src st m : os_rep st m -> sink_holds m s data -> Z.of_nat (length src) < 2 ^ 62 ->
  wp (RubberSink_OnData src s) (fun r st' => received m s (data ++ src) (snd r) st' /\
    match snd r with Receiving _ => fst r = Z.of_nat (length src) | Ended _ => fst r = 0 end) st.
Proof.
  intros HR Hh Hsrc. pose proof Hh as (b & Hb & Hid & Hp & Hpm & Hmax & Hl & Hd).
  unfold RubberSink_OnData. apply wp_bind, wp_assert; [by apply Z.leb_le|]. rewrite wrap_id by lia.
  destruct (s_max_size s <? s_position s + Z.of_nat (length src)) eqn:E; simpl_bool.
  - unfold FailTooLarge. repeat apply wp_bind. eapply delete_sink_ok; [done|done|]. intros st' HR'.
    repeat wp_step. simpl. rewrite length_app. split; [|done]. split; [done|]. split; [lia|done].
  - apply wp_bind. eapply store_sink_ok; [done|done|lia|]. intros st' m' HR' Hh' Hs.
    apply wp_ret. simpl. split; [|done]. split; [done|]. split; [done|]. by exists m'.
Qed.

(** The end of the input: the object holds what was received, or there is none if this is nothing. *)
Lemma DestroyEof_ok s data st m : os_rep st m -> sink_holds m s data ->
  wp (RubberSink_DestroyEof s) (fun r st' => exists id m', r = Ended (RubberDone id (Z.of_nat (length data))) /\
    os_rep st' m' /\ same_others (s_allocation s) m m' /\
    if decide (data = []) then id = 0 /\ m' !! s_allocation s = None
    else id = s_allocation s /\ exists b, m' !! id = Some b /\ data `prefix_of` b) st.
Proof.
  intros HR Hh. pose proof Hh as (b & Hb & Hid & Hp & Hpm & Hmax & Hl & Hd). unfold RubberSink_DestroyEof.
  destruct (s_position s =? 0) eqn:E; simpl_bool.
  - apply wp_bind. eapply delete_sink_ok; [done|done|]. intros st' HR'. apply wp_ret.
    assert (data = []) as -> by (apply length_zero_iff_nil; lia).
    exists 0, (delete (s_allocation s) m). split; [done|]. split; [done|]. split; [|by rewrite lookup_delete_eq].
    unfold same_others. apply delete_delete_eq.
  - unfold RubberAllocation_Shrink. repeat apply wp_bind. apply wp_assert; [by rewrite (proj2 (Z.eqb_neq _ 0)) by lia|].
    eapply wp_mono; [apply (os_Shrink_ok _ (s_position s) b st m HR Hb); lia|].
    intros [] st' (k & Hk & HR'). apply wp_ret. exists (s_allocation s), (<[s_allocation s := take k b]> m).
    rewrite Hp. split; [done|]. split; [done|]. split; [apply same_others_insert|].
    rewrite decide_False by (intros ->; simpl in *; lia). split; [done|]. exists (take k b).
    rewrite lookup_insert_eq. split; [done|]. rewrite <-Hd. exists (drop (length data) (take k b)).
    replace (take (length data) b) with (take (length data) (take k b)); [by rewrite take_drop|].
    rewrite take_take. f_equal. lia.
Qed.

(** How the two kinds of sinks correspond; [m] are the objects before the sink was created. *)
Definition sink_matches (m : gmap Z (list Z)) (limit : Z) (a : asink) (c : sink_state) (st : os) : Prop :=
  match a, c with
  | Growing data, Receiving s => s_max_size s = limit /\ m !! s_allocation s = None /\
      exists m', os_rep st m' /\ sink_holds m' s data /\ delete (s_allocation s) m' = m
  | Complete data, Ended (RubberDone id n) => n = Z.of_nat (length data) /\
      if decide (data = []) then id = 0 /\ os_rep st m
      else 0 < id /\ m !! id = None /\ exists m' b, os_rep st m' /\ delete id m' = m /\ m' !! id = Some b /\ data `prefix_of` b
  | Failed e, Ended e' => e = e' /\ os_rep st m
  | _, _ => False
  end.

Lemma sink_matches_received m m1 limit s data st c : m !! s_allocation s = None ->
  delete (s_allocation s) m1 = m -> s_max_size s = limit -> received m1 s data c st ->
  sink_matches m limit (if limit <? Z.of_nat (length data) then Failed RubberTooLarge else Growing data) c st.
Proof.
  intros Hn Hm Hl. destruct c as [s1|e]; simpl.
  - intros (E1 & E2 & m' & HR & Hh & Hs). pose proof Hh as (b & _ & _ & H1 & H2 & _).
    rewrite (proj2 (Z.ltb_ge _ _)) by lia. simpl. rewrite E1. split; [congruence|]. split; [done|].
    exists m'. split; [done|]. split; [done|]. unfold same_others in Hs. congruence.
  - intros (-> & E & HR). rewrite (proj2 (Z.ltb_lt _ _)) by lia. simpl. split; [done|]. congruence.
Qed.

Lemma complete_matches m m1 limit s data st c : m !! s_allocation s = None ->
  delete (s_allocation s) m1 = m -> sink_holds m1 s data ->
  (exists id m', c = Ended (RubberDone id (Z.of_nat (length data))) /\
    os_rep st m' /\ same_others (s_allocation s) m1 m' /\
    if decide (data = []) then id = 0 /\ m' !! s_allocation s = None
    else id = s_allocation s /\ exists b, m' !! id = Some b /\ data `prefix_of` b) ->
  sink_matches m limit (Complete data) c st.
Proof.
  intros Hn Hm (b0 & _ & Hid & _) (id & m' & -> & HR & Hs & H). simpl. split; [done|]. unfold same_others in Hs.
  destruct (decide (data = [])); destruct H as [-> H].
  - split; [done|]. rewrite <-Hm, <-Hs. by rewrite delete_id.
  - destruct H as (b & Hb & Hp). split; [done|]. split; [done|]. exists m', b. split_and!; [done|congruence|done|done].
Qed.

Lemma failed_matches s data e st m m1 limit : os_rep st m1 -> sink_holds m1 s data ->
  delete (s_allocation s) m1 = m ->
  wp (RubberAllocation_delete (s_allocation s) ;;; mret (Ended e)) (sink_matches m limit (Failed e)) st.
Proof.
  intros HR Hh Hm. apply wp_bind. eapply delete_sink_ok; [done|done|]. intros st' HR'. apply wp_ret.
  simpl. split; [done|]. congruence.
Qed.

Lemma store_matches {A} (res : A) s data src st m m1 : os_rep st m1 -> sink_holds m1 s data ->
  m !! s_allocation s = None -> delete (s_allocation s) m1 = m ->
  s_position s + Z.of_nat (length src) <= s_max_size s ->
  wp (RubberAllocation_store (s_allocation s) (s_position s) src ;;;
      mret (res, Receiving (advance_sink (Z.of_nat (length src)) s)))
    (fun r => sink_matches m (s_max_size s) (Growing (data ++ src)) (snd r)) st.
Proof.
  intros HR Hh Hnone Hm Hs. apply wp_bind. eapply store_sink_ok; [done|done|done|]. intros st' m' HR' Hh' Hsm.
  apply wp_ret. simpl. split; [done|]. split; [done|]. exists m'. split; [done|]. split; [done|].
  unfold same_others in Hsm. congruence.
Qed.

Lemma keep_matches {A} (res : A) s data st m m1 : os_rep st m1 -> sink_holds m1 s data ->
  m !! s_allocation s = None -> delete (s_allocation s) m1 = m ->
  wp (RubberAllocation_store (s_allocation s) (s_position s) [] ;;; mret (res, Receiving s))
    (fun r => sink_matches m (s_max_size s) (Growing data) (snd r)) st.
Proof.
  intros HR Hh Hnone Hm. pose proof Hh as (b & _ & _ & _ & Hpm & _).
  pose proof (store_matches res s data [] st m m1 HR Hh Hnone Hm ltac:(simpl; lia)) as H.
  unfold advance_sink in H. simpl in H. rewrite Z.add_0_r, app_nil_r in H. by destruct s.
Qed.

Lemma OnDirect_ok s data l n st m m1 : os_rep st m1 -> sink_holds m1 s data -> 0 < n ->
  m !! s_allocation s = None -> delete (s_allocation s) m1 = m ->
  wp (RubberSink_OnDirect (read_from l) n s)
    (fun r => sink_matches m (s_max_size s) (asink_step (s_max_size s) (InDirect l n) (Growing data)) (snd r)) st.
Proof.
  intros HR Hh Hn Hnone Hm. pose proof Hh as (b & Hb & Hid & Hp & Hpm & Hmax & Hl & Hd).
  unfold RubberSink_OnDirect. apply wp_bind, wp_assert; [by apply Z.leb_le|]. cbn [asink_step].
  assert (Ez : (s_max_size s - s_position s =? 0) = (Z.of_nat (length data) =? s_max_size s)).
  { rewrite Hp. apply eq_bool_prop_intro. rewrite !Is_true_true, !Z.eqb_eq. lia. }
  rewrite Ez. destruct (Z.of_nat (length data) =? s_max_size s) eqn:Ef; simpl_bool.
  - destruct l as [[|x l]|]; simpl read_from.
    + apply wp_bind. eapply wp_mono; [by apply DestroyEof_ok|]. intros c st' Hc. apply wp_ret.
      by eapply complete_matches.
    + apply wp_bind. eapply wp_mono; [eapply failed_matches; done|]. intros c st' Hc. by apply wp_ret.
    + apply wp_ret. simpl. split; [done|]. split; [done|]. by exists m1.
  - destruct l as [[|x l]|]; cbn [read_from].
    + by eapply keep_matches.
    + replace (if n <? s_max_size s - s_position s then n else s_max_size s - s_position s)
        with (Z.min n (s_max_size s - Z.of_nat (length data))).
      2: { rewrite Hp. destruct (n <? _) eqn:E; simpl_bool; lia. }
      eapply store_matches; [done|done|done|done|]. rewrite length_take. simpl length. lia.
    + by eapply keep_matches.
Qed.

Lemma sink_step_matches i m limit a c st : legal_input i -> sink_matches m limit a c st ->
  wp (sink_step i c) (sink_matches m limit (asink_step limit i a)) st.
Proof.
  intros Hi H. destruct c as [s|e].
  2: { apply wp_ret. by destruct a; [destruct H| |]. }
  destruct a as [data|data|e]; [|by destruct H..]. destruct H as (Hl & Hnone & m1 & HR & Hh & Hm). simpl sink_step.
  destruct i as [l|l n| | |]; cbn [asink_step].
  - apply wp_bind. eapply wp_mono; [by apply OnData_ok|]. intros r st' [Hr _]. apply wp_ret.
    apply (sink_matches_received m m1 limit) in Hr; [|done..]. by rewrite length_app, Nat2Z.inj_add in Hr.
  - apply wp_bind. eapply wp_mono; [eapply (OnDirect_ok s data l n st m m1); done|]. intros r st' Hr. apply wp_ret.
    by rewrite Hl in Hr.
  - eapply wp_mono; [by apply DestroyEof_ok|]. intros r st' Hr. by eapply complete_matches.
  - by eapply failed_matches.
  - by eapply failed_matches.
Qed.

(** What [GetAvailable(true)] and [GetAvailable(false)] return: each one may be unknown ([-1]), the first one is a
    minimum estimate, the second one is exact. *)
Definition known_size (available size : Z) : Prop := -1 <= available /\ (size = -1 \/ 0 <= size /\ available <= size).

(** An input whose size is known to exceed the limit says so in its estimate, too. *)
Definition honest_estimate (max_size available size : Z) : Prop := max_size < available \/ size <= max_size.

(** The abstract sink at the beginning. *)
Definition sink_limit (size max_size : Z) : Z := if size =? -1 then max_size else size.

Lemma sink_new_matches available size max_size st m :
  os_rep st m -> known_size available size -> honest_estimate max_size available size -> 0 < max_size < 2 ^ 62 ->
  wp (sink_rubber_new available size max_size) (fun c st' => exists a,
    sink_matches m (sink_limit size max_size) a c st' /\
    (a = Failed RubberTooLarge /\ max_size < available \/ a = Complete [] /\ size = 0 \/
     a = Failed RubberOutOfMemory \/ a = Growing [])) st.
Proof.
  intros HR [Ha Hs] Hest Hmax. unfold honest_estimate in Hest. unfold sink_rubber_new, sink_limit.
  destruct (max_size <? available) eqn:E; simpl_bool.
  { apply wp_ret. exists (Failed RubberTooLarge). split; [done|]. by left. }
  apply wp_bind, wp_assert.
  { rewrite orb_true_iff, Z.eqb_eq, Z.leb_le. lia. }
  apply wp_bind, wp_assert; [apply Z.leb_le; lia|].
  destruct (size =? 0) eqn:E0; simpl_bool.
  { apply wp_ret. exists (Complete []). split; [done|]. right. left. done. }
  apply wp_bind. eapply wp_mono; [apply (os_Add_ok _ _ m); [done|]|].
  { destruct (size =? -1) eqn:E1; simpl_bool; lia. }
  intros id st' [[-> HR']|(b & Hid & Hn & Hl & HR')].
  - rewrite Z.eqb_refl. apply wp_ret. exists (Failed RubberOutOfMemory). split; [done|]. auto.
  - rewrite (proj2 (Z.eqb_neq id 0)) by lia. apply wp_ret. exists (Growing []). split; [|auto].
    simpl. split; [done|]. split; [done|]. exists (<[id := b]> m). split; [done|].
    split; [|by rewrite delete_insert_id]. exists b. cbn. rewrite lookup_insert_eq, take_0.
    destruct (size =? -1) eqn:E1; simpl_bool; split_and!; done || lia.
Qed.

Lemma sink_run_matches l m limit a c st : Forall legal_input l -> sink_matches m limit a c st ->
  wp (sink_run l c) (sink_matches m limit (fold_left (fun a i => asink_step limit i a) l a)) st.
Proof.
  revert a c st. induction l as [|i l IH]; intros a c st Hl H; [by apply wp_ret|].
  apply Forall_cons in Hl as [Hi Hl]. apply wp_bind. eapply wp_mono; [by apply sink_step_matches|].
  intros c' st' H'. by apply IH.
Qed.

(** The assertion [size <= max_size] fails if the size is known to exceed the limit, but the estimate does not. *)
Lemma sink_new_dishonest available size max_size st : known_size available size -> 0 < max_size ->
  ~ honest_estimate max_size available size -> sink_rubber_new available size max_size st = None.
Proof.
  unfold known_size, honest_estimate. intros [Ha Hs] Hmax Hn. unfold sink_rubber_new.
  rewrite (proj2 (Z.ltb_ge _ _)) by lia. unfold massert at 1. simpl.
  destruct ((size =? -1) || (available <=? size)); [|done]. simpl. by rewrite (proj2 (Z.leb_gt size max_size)) by lia.
Qed.

(** C36: Refinement: for all sizes that [GetAvailable()] may report (unknown, a minimum estimate, or exact), and whatever
    the input delivers, and in which way, the sink behaves like a string of limited length: when it is complete, the new
    object starts with what was received, and in all other cases its object has been freed; other objects never
    change, and no assertion fails.  The only exception is an input which knows that its size exceeds the limit
    while its minimum estimate does not: for it, the assertion in [sink_rubber_new()] fails. *)
Theorem rubber_sink_refines available size max_size l st m :
  os_rep st m -> known_size available size -> 0 < max_size < 2 ^ 62 -> Forall legal_input l ->
  (honest_estimate max_size available size ->
    wp (let! c := sink_rubber_new available size max_size in sink_run l c) (fun c st' => exists a,
      (a = Failed RubberTooLarge /\ max_size < available \/ a = Complete [] /\ size = 0 \/
       a = Failed RubberOutOfMemory \/ a = Growing []) /\
      sink_matches m (sink_limit size max_size)
        (fold_left (fun a i => asink_step (sink_limit size max_size) i a) l a) c st') st) /\
  (~ honest_estimate max_size available size -> sink_rubber_new available size max_size st = None).
Proof.
  intros HR Hk Hmax Hl. split; [intros Hest|intros Hn; by apply sink_new_dishonest; [|lia|]].
  apply wp_bind. eapply wp_mono; [by apply (sink_new_matches available size max_size st m)|].
  intros c st' (a & Hm & Ha). eapply wp_mono; [by apply sink_run_matches|]. intros c' st2 H. by exists a.
Qed.

(** ** Reading *)

(** The istream shows the rest of the bytes [data] of its object. *)
Definition istream_shows (m : gmap Z (list Z)) (i : RubberIstream) (data : list Z) : Prop :=
  exists b, m !! i_id i = Some b /\ 0 <= i_position i <= i_end i /\ i_end i <= Z.of_nat (length b) /\
    data = take (Z.to_nat (i_end i - i_position i)) (drop (Z.to_nat (i_position i)) b).

Lemma istream_shows_length m i data : istream_shows m i data -> Z.of_nat (length data) = i_end i - i_position i.
Proof. intros (b & _ & H1 & H2 & ->). rewrite length_take, length_drop. lia. Qed.

Lemma istream_shows_advance m i data n : istream_shows m i data -> (n <= length data)%nat ->
  istream_shows m (advance_istream (Z.of_nat n) i) (drop n data).
Proof.
  intros Hs Hn. pose proof (istream_shows_length m i data Hs) as Hl. destruct Hs as (b & Hb & H1 & H2 & ->).
  exists b. cbn [advance_istream i_id i_position i_end]. split; [done|]. split; [lia|]. split; [lia|].
  rewrite skipn_firstn_comm, drop_drop. f_equal; [lia|]. f_equal. lia.
Qed.

Lemma advance_istream_0 i : advance_istream 0 i = i.
Proof. unfold advance_istream. rewrite Z.add_0_r. by destruct i. Qed.

(** [Read()] passes the next bytes to the handler; the istream ends when it has taken all of them. *)
Lemma RubberIstream_Read_ok i k data st m : os_rep st m -> istream_shows m i data ->
  alive k = true -> i_auto_remove i = false ->
  wp (RubberIstream_Read i k) (fun r st' => st' = st /\ exists n, (n <= length data)%nat /\
    fst r = advance_istream (Z.of_nat n) i /\ k_output (snd r) = k_output k ++ take n data /\
    (k_life (snd r) = AtEof <-> n = length data)) st.
Proof.
  intros HR Hs Hk Hauto. pose proof (istream_shows_length m i data Hs) as Hl.
  pose proof Hs as (b & Hb & H1 & H2 & Ed). unfold RubberIstream_Read. apply wp_bind, wp_assert; [apply Z.leb_le; lia|].
  apply wp_bind. eapply wp_mono; [apply (os_load_ok _ _ _ b st m HR Hb); lia|]. intros x st' [-> ->]. rewrite <-Ed.
  assert (Ek : k_life k <> AtEof) by (apply alive_true in Hk; by rewrite Hk).
  assert (Edel : forall j, i_auto_remove j = false -> RubberIstream_delete j = mret tt).
  { intros j Hj. unfold RubberIstream_delete. by rewrite Hj. }
  destruct (0 <? i_end i - i_position i) eqn:E; simpl_bool.
  - destruct (Invoke_spec data k Hk) as (n & k' & Ei & Hn & Ho & Hlife); [intros ->; simpl in Hl; lia|].
    unfold invoke. repeat apply wp_bind. eapply wp_opt; [exact Ei|]. apply wp_ret. destruct n as [|n].
    + apply wp_bind. rewrite (Edel i) by done. assert (Hl' : k_life k' <> AtEof).
      { destruct Hlife as [Hlife|[_ Hlife]]; [apply alive_true in Hlife|]; by rewrite Hlife. }
      assert (E1 : wp (if alive k' then mret tt else mret tt) (fun _ s => s = st) st) by (destruct (alive k'); by apply wp_ret).
      eapply wp_mono; [exact E1|]. intros [] ? ->. apply wp_ret. split; [done|]. exists 0%nat. simpl.
      split; [lia|]. split; [by rewrite advance_istream_0|]. split; [done|]. split; [done|]. lia.
    + cbn [advance_istream i_position i_end]. destruct Hlife as [Hlife|[? _]]; [|lia].
      destruct (i_position i + Z.of_nat (S n) =? i_end i) eqn:F; simpl_bool.
      * apply wp_bind. eapply wp_opt; [unfold DestroySink; by rewrite Hlife|]. apply wp_bind. rewrite Edel by done.
        repeat apply wp_ret. split; [done|]. exists (S n). simpl. split_and!; [lia|done|done|]. split; [lia|done].
      * apply wp_ret. split; [done|]. exists (S n). split_and!; [lia|done|done|]. apply alive_true in Hlife.
        simpl. rewrite Hlife. split; [done|]. lia.
  - apply wp_bind, wp_ret. rewrite (proj2 (Z.eqb_eq _ _)) by lia. apply wp_bind.
    eapply wp_opt; [unfold DestroySink; by rewrite Hk|]. apply wp_bind. rewrite Edel by done.
    repeat apply wp_ret. split; [done|]. exists 0%nat. simpl. rewrite app_nil_r.
    split_and!; [lia|by rewrite advance_istream_0|done|]. split; [lia|done].
Qed.

(** The bucket list shows all that is left. *)
Lemma RubberIstream_Fill_ok i l data st m : os_rep st m -> istream_shows m i data ->
  wp (RubberIstream_FillBucketList i l) (fun l' st' => st' = st /\ extends l l' data) st.
Proof.
  intros HR Hs. pose proof (istream_shows_length m i data Hs) as Hl. pose proof Hs as (b & Hb & H1 & H2 & Ed).
  unfold RubberIstream_FillBucketList. apply wp_bind.
  eapply wp_mono; [apply (os_load_ok _ _ _ b st m HR Hb); lia|]. intros x st' [-> ->]. rewrite <-Ed. apply wp_ret.
  split; [done|]. destruct (0 <? i_end i - i_position i) eqn:E; simpl_bool.
  - rewrite <-(app_nil_r data) at 2. apply extends_Push, extends_refl.
  - assert (data = []) as -> by (apply length_zero_iff_nil; lia). apply extends_refl.
Qed.

End SinkFacts.
