(* ===== verification/Dechunk.v ===== *)
(** * HTTP/1.1 "chunked" transfer encoding: the decoding istream

    src/istream/DechunkIstream.cxx: a filter that removes the chunk headers from its input.
    It parses ahead of what its handler has accepted and remembers the boundaries in an array
    of eight chunks.  Data leaves it through [OnData()] or through bucket lists.

    Sizes are natural numbers.  A subtraction that must not wrap around is an assertion of
    the model, so that the theorem includes that it does not. *)

From S2P Require Import Prelude Chunk Bucket Chunked Sink.

#[local] Open Scope beng_scope.

(** ** Reading from a bucket list *)

(** [IstreamBucketReader]: the remaining buckets and the position in the first one. *)
Definition BucketReader : Type := list (list Z) * nat.

(** [Skip()]; the result is the number of bytes and the new position.  The loop does not
    subtract what it has skipped from [size]. *)
Fixpoint Skip (i : list (list Z)) (position size result : nat) : option (nat * BucketReader) :=
  match size, i with
  | O, _ | _, [] => Some (result, (i, position))
  | _, x :: i' =>
      let b := drop position x in
      if bool_decide (b = []) then None
      else if (length b <=? size)%nat then Skip i' 0 size (result + length b)
      else Some ((result + size)%nat, (i, (position + size)%nat))
  end.

Definition ReadSome (size : nat) (r : BucketReader) : option (list Z * BucketReader) :=
  let '(i, position) := r in
  match size, i with
  | O, _ => None
  | _, [] => Some ([], r)
  | _, x :: i' =>
      let b := drop position x in
      if bool_decide (b = []) then None
      else if (length b <=? size)%nat then Some (b, (i', 0%nat))
      else Some (take size b, (i, (position + size)%nat))
  end.

(** ** The istream *)

Inductive DechunkInputAction := ABANDON | CLOSE | DESTROYED.

#[global] Instance DechunkInputAction_eq_dec : EqDecision DechunkInputAction.
Proof. solve_decision. Defined.

(** [d_action] is what [DechunkHandler::OnDechunkEnd()] is going to answer; [d_end_seen] counts
    the calls of [OnDechunkEndSeen()]. *)
Record DechunkIstream := mkDechunk {
  d_parser : HttpChunkParser;
  d_parsed_input : nat;
  d_pending_header : nat;
  d_chunks : list (nat * nat);
  d_eof_pending : bool;
  d_input : bool;
  d_action : DechunkInputAction;
  d_end_seen : nat;
  d_sink : Sink }.

Definition MAX_CHUNKS : nat := 8.

(** [istream_dechunk_new()] *)
Definition istream_dechunk_new (a : DechunkInputAction) (h : list reaction) : DechunkIstream :=
  mkDechunk HttpChunkParser_new 0 0 [] false true a 0 (Sink_new h).

Definition set_d_parser p s := mkDechunk p (d_parsed_input s) (d_pending_header s) (d_chunks s)
  (d_eof_pending s) (d_input s) (d_action s) (d_end_seen s) (d_sink s).
Definition set_parsed_input n s := mkDechunk (d_parser s) n (d_pending_header s) (d_chunks s)
  (d_eof_pending s) (d_input s) (d_action s) (d_end_seen s) (d_sink s).
Definition set_pending_header n s := mkDechunk (d_parser s) (d_parsed_input s) n (d_chunks s)
  (d_eof_pending s) (d_input s) (d_action s) (d_end_seen s) (d_sink s).
Definition set_chunks c s := mkDechunk (d_parser s) (d_parsed_input s) (d_pending_header s) c
  (d_eof_pending s) (d_input s) (d_action s) (d_end_seen s) (d_sink s).
Definition set_eof_pending b s := mkDechunk (d_parser s) (d_parsed_input s) (d_pending_header s)
  (d_chunks s) b (d_input s) (d_action s) (d_end_seen s) (d_sink s).
Definition set_d_input b s := mkDechunk (d_parser s) (d_parsed_input s) (d_pending_header s)
  (d_chunks s) (d_eof_pending s) b (d_action s) (d_end_seen s) (d_sink s).
Definition set_end_seen n s := mkDechunk (d_parser s) (d_parsed_input s) (d_pending_header s)
  (d_chunks s) (d_eof_pending s) (d_input s) (d_action s) n (d_sink s).
Definition set_d_sink k s := mkDechunk (d_parser s) (d_parsed_input s) (d_pending_header s)
  (d_chunks s) (d_eof_pending s) (d_input s) (d_action s) (d_end_seen s) k.

Definition D_InvokeData (src : list Z) : M DechunkIstream nat :=
  let! s := mget in
  let! r := mopt (Invoke src (d_sink s)) in
  mput (set_d_sink r.2 s) ;;; mret r.1.

Definition D_Destroy (l : phase) : M DechunkIstream unit :=
  let! s := mget in
  let! k := mopt (DestroySink l (d_sink s)) in
  mput (set_d_sink k s).

Definition d_alive (s : DechunkIstream) : bool := alive (d_sink s).

(** [parsed_input -= n] *)
Definition sub_parsed_input (n : nat) : M DechunkIstream unit :=
  let! s := mget in
  massert (n <=? d_parsed_input s)%nat ;;;
  mput (set_parsed_input (d_parsed_input s - n) s).

(** The last element of the array and the ones before it. *)
Definition back (cs : list (nat * nat)) : option (list (nat * nat) * (nat * nat)) :=
  match last cs with Some c => Some (removelast cs, c) | None => None end.

Definition AddHeader (size : nat) : M DechunkIstream bool :=
  massert (0 <? size)%nat ;;;
  let! s := mget in
  let grow := if (length (d_chunks s) <? MAX_CHUNKS)%nat
              then mput (set_chunks (d_chunks s ++ [(size, 0%nat)]) s) ;;; mret true
              else mret false in
  match back (d_chunks s) with
  | Some (front, (header, O)) =>
      mput (set_chunks (front ++ [(header + size, 0)%nat]) s) ;;; mret true
  | _ => grow
  end.

Definition AddData (size : nat) : M DechunkIstream bool :=
  massert (0 <? size)%nat ;;;
  let! s := mget in
  match back (d_chunks s) with
  | Some (front, (header, data)) =>
      mput (set_chunks (front ++ [(header, data + size)%nat]) s) ;;; mret true
  | None =>
      if (length (d_chunks s) <? MAX_CHUNKS)%nat
      then mput (set_chunks (d_chunks s ++ [(0%nat, size)]) s) ;;; mret true
      else mret false
  end.

(** The results of [ParseInput()]: true, false or an exception. *)
Inductive parse_input_result := PMore | PStop | PThrow (e : error).

Fixpoint ParseInput_loop (fuel : nat) (src : list Z) : M DechunkIstream parse_input_result :=
  match src with
  | [] => mret PMore
  | _ =>
    match fuel with
    | O => mfail
    | S fuel' =>
      let! s := mget in
      match Parse (d_parser s) src with
      | Failed => mfail
      | Throw e p => mput (set_d_parser p s) ;;; mret (PThrow e)
      | Found h d p =>
          mput (set_d_parser p s) ;;;
          (if HasEnded p then mmod (fun s => set_end_seen (S (d_end_seen s)) s) else mret tt) ;;;
          let header_size := Z.to_nat h in
          let data_size := Z.to_nat d in
          mmod (fun s => set_parsed_input (d_parsed_input s + header_size) s) ;;;
          mmod (fun s => set_pending_header (d_pending_header s + header_size) s) ;;;
          let! s := mget in
          let! ok := if (0 <? d_pending_header s)%nat then AddHeader (d_pending_header s)
                     else mret true in
          if negb ok then mret PStop
          else
            mmod (set_pending_header 0) ;;;
            let! ok :=
              (if (0 <? data_size)%nat then
                 let! ok := AddData data_size in
                 if negb ok then mret false
                 else
                   mmod (fun s => set_parsed_input (d_parsed_input s + data_size) s) ;;;
                   let! s := mget in
                   let! r := mopt (Consume (Z.of_nat data_size) (d_parser s)) in
                   mput (set_d_parser r.2 s) ;;; mret true
               else mret true) in
            if negb ok then mret PStop
            else
              let! s := mget in
              if HasEnded (d_parser s) then mret PStop
              else ParseInput_loop fuel' (drop (header_size + data_size) src)
      end
    end
  end.

Definition ParseInput (src : list Z) : M DechunkIstream parse_input_result :=
  let! s := mget in
  if HasEnded (d_parser s) then mret PStop else ParseInput_loop (length src) src.

(** [InvokeDechunkEnd()] and [EofDetected()]. *)
Definition InvokeDechunkEnd : M DechunkIstream DechunkInputAction :=
  let! s := mget in
  massert (d_input s) ;;;
  massert (HasEnded (d_parser s)) ;;;
  mput (set_d_input false s) ;;;
  mret (d_action s).

Definition EofDetected : M DechunkIstream DechunkInputAction :=
  mmod (set_eof_pending true) ;;; InvokeDechunkEnd.

(** How the loop over the chunks in [OnData()] ends: all chunks are done ([again] as in the
    code), there is not enough data, the handler blocks, or the istream was destroyed. *)
Inductive submit_result := SDone (again : bool) | SWait | SBlocked | SDestroyed.

Fixpoint submit (cs : list (nat * nat)) (src : list Z) (again : bool)
  : M DechunkIstream (submit_result * list Z) :=
  match cs with
  | [] => mmod (set_chunks []) ;;; mret (SDone again, src)
  | (header, data) :: cs' =>
      massert ((0 <? header)%nat || (0 <? data)%nat) ;;;
      if (length src <? header)%nat then
        mmod (set_chunks ((header - length src, data)%nat :: cs')) ;;;
        sub_parsed_input (length src) ;;;
        mret (SWait, [])
      else
        sub_parsed_input header ;;;
        let src := drop header src in
        let data_size := Nat.min (length src) data in
        if (0 <? data_size)%nat then
          let! n := D_InvokeData (take data_size src) in
          let! s := mget in
          if (n =? 0)%nat && negb (d_alive s) then mret (SDestroyed, src)
          else
            sub_parsed_input n ;;;
            let src := drop n src in
            let data := (data - n)%nat in
            if (n <? data_size)%nat then
              mmod (set_chunks ((0%nat, data) :: cs')) ;;; mret (SBlocked, src)
            else if (0 <? data)%nat then
              mmod (set_chunks ((0%nat, data) :: cs')) ;;; mret (SWait, src)
            else submit cs' src true
        else if (0 <? data)%nat then
          mmod (set_chunks ((0%nat, data) :: cs')) ;;; mret (SWait, src)
        else submit cs' src true
  end.

(** The [do] loop of [OnData()]; [None] as the rest of the source is [return 0]. *)
Fixpoint OnData_loop (fuel : nat) (src : list Z) : M DechunkIstream (submit_result * option (list Z)) :=
  match fuel with
  | O => mfail
  | S fuel' =>
      let! s := mget in
      (if (0 <? d_pending_header s)%nat then
         let! ok := AddHeader (d_pending_header s) in
         if ok then mmod (set_pending_header 0) else mret tt
       else mret tt) ;;;
      let! s := mget in
      let! r := (if (d_parsed_input s <? length src)%nat
                 then let! r := ParseInput (drop (d_parsed_input s) src) in mret (Some r)
                 else mret None) in
      match r with
      | Some (PThrow _) => D_Destroy AtError ;;; mret (SDestroyed, None)
      | _ =>
          let! s := mget in
          let again := match r with None => false | Some _ => negb (HasEnded (d_parser s)) end in
          let! r := submit (d_chunks s) src again in
          match r with
          | (SDestroyed, _) => mret (SDestroyed, None)
          | (SDone true, src) => OnData_loop fuel' src
          | (q, src) => mret (q, Some src)
          end
      end
  end.

Definition D_OnData (src : list Z) : M DechunkIstream nat :=
  let! r := OnData_loop (S (length src)) src in
  match r with
  | (_, None) => mret 0%nat
  | (SBlocked, Some rest) => mret (length src - length rest)%nat
  | (_, Some rest) =>
      let! s := mget in
      let! keep := (if bool_decide (d_chunks s = []) && HasEnded (d_parser s)
                    then let! action := EofDetected in mret (bool_decide (action = ABANDON))
                    else mret true) in
      mret (if keep then (length src - length rest)%nat else 0%nat)
  end.

Definition DeferredEof : M DechunkIstream unit :=
  let! s := mget in
  massert (HasEnded (d_parser s)) ;;;
  massert (negb (d_input s)) ;;;
  D_Destroy AtEof.

(** [OnEof()] and [OnError()]. *)
Definition D_OnEnd : M DechunkIstream unit :=
  mmod (set_d_input false) ;;;
  let! s := mget in
  if d_eof_pending s then mret tt else D_Destroy AtError.

Definition D_GetAvailable (partial : bool) (s : DechunkIstream) : Z :=
  if negb partial && negb (HasEnded (d_parser s)) then -1
  else GetAvailable (d_parser s) + Z.of_nat (list_sum (map snd (d_chunks s))).

(** ** Bucket lists *)

(** The loop that parses the buckets of the input from [skip] on; [inr] is an exception. *)
Fixpoint fill_parse (tmp : list (list Z)) (skip : nat) (list : IstreamBucketList)
  : M DechunkIstream (IstreamBucketList + error) :=
  match tmp with
  | [] => mret (inl list)
  | b :: tmp' =>
      if (length b <=? skip)%nat then fill_parse tmp' (skip - length b) list
      else
        let! r := ParseInput (drop skip b) in
        match r with
        | PThrow e => mret (inr e)
        | PStop =>
            let! s := mget in
            mret (inl (if HasEnded (d_parser s) then list else SetMore list))
        | PMore => fill_parse tmp' 0 list
        end
  end.

Fixpoint fill_data (fuel remaining : nat) (r : BucketReader) (list : IstreamBucketList)
  : option (BucketReader * IstreamBucketList) :=
  match remaining, fuel with
  | O, _ => Some (r, list)
  | _, O => None
  | _, S fuel' =>
      match ReadSome remaining r with
      | None => None
      | Some ([], r) => Some (r, list)
      | Some (data, r) => fill_data fuel' (remaining - length data) r (Push data list)
      end
  end.

Fixpoint fill_chunks (cs : list (nat * nat)) (r : BucketReader) (list : IstreamBucketList)
  : option IstreamBucketList :=
  match cs with
  | [] => Some list
  | (header, data) :: cs' =>
      if negb ((0 <? header)%nat || (0 <? data)%nat) then None
      else
        match Skip r.1 r.2 header 0 with
        | None => None
        | Some (skipped, r) =>
            if (skipped <? header)%nat then Some list
            else match fill_data data data r list with
                 | None => None
                 | Some (r, list) => fill_chunks cs' r list
                 end
        end
  end.

(** The exceptions of [_FillBucketList()]. *)
Inductive fill_error := FillParse (e : error) | FillPremature.

(** [_FillBucketList()], given the list [tmp] that was filled by the input. *)
Definition D_FillBucketList (tmp list : IstreamBucketList)
  : M DechunkIstream (IstreamBucketList + fill_error) :=
  let! s := mget in
  if d_eof_pending s then mret (inl list)
  else
    let list := if ShouldFallback tmp then EnableFallback list else list in
    let! r := fill_parse (buckets tmp) (d_parsed_input s) list in
    match r with
    | inr e => D_Destroy AtError ;;; mret (inr (FillParse e))
    | inl list =>
        let! s := mget in
        if negb (HasEnded (d_parser s)) && negb (HasMore tmp) && negb (HasMore list)
        then mret (inr FillPremature)
        else
          let list := if HasEnded (d_parser s) then list else SetMore list in
          let! list := mopt (fill_chunks (d_chunks s) (buckets tmp, 0%nat) list) in
          mret (inl list)
    end.

(** The loop of [_ConsumeBucketList()]: the headers and the data that are consumed, and
    the chunks that are left. *)
Fixpoint consume_parsed (cs : list (nat * nat)) (nbytes headers consumed : nat)
  : option (nat * nat * list (nat * nat)) :=
  match cs with
  | [] => Some (headers, consumed, [])
  | (header, data) :: cs' =>
      if negb ((0 <? header)%nat || (0 <? data)%nat) then None
      else
        let headers := (headers + header)%nat in
        if (nbytes <? data)%nat
        then Some (headers, (consumed + nbytes)%nat, (0%nat, (data - nbytes)%nat) :: cs')
        else consume_parsed cs' (nbytes - data) headers (consumed + data)
  end.

(** [_ConsumeBucketList()]; the result is the number of bytes taken from the input, the number of
    bytes consumed, and whether this is the end. *)
Definition D_ConsumeBucketList (nbytes : nat) : M DechunkIstream (nat * nat * bool) :=
  let! s := mget in
  if d_eof_pending s then mret (0%nat, 0%nat, true)
  else
    let! r := mopt (consume_parsed (d_chunks s) nbytes 0 0) in
    let '(headers, consumed, cs) := r in
    mmod (set_chunks cs) ;;;
    let! s := mget in
    let headers := if bool_decide (cs = []) then (headers + d_pending_header s)%nat else headers in
    (if bool_decide (cs = []) then mmod (set_pending_header 0) else mret tt) ;;;
    sub_parsed_input (headers + consumed) ;;;
    let! s := mget in
    let at_eof := bool_decide (d_chunks s = []) && HasEnded (d_parser s) in
    (if at_eof then let! _ := InvokeDechunkEnd in mret tt else mret tt) ;;;
    mret ((headers + consumed)%nat, consumed, at_eof).
