(* ===== verification/DechunkFacts.v ===== *)
(** * Theorems about the decoding istream

    [core] is the invariant: the remembered chunks describe what the parser has found in the
    part of the input that is parsed but not yet consumed. *)

From S2P Require Import Prelude Chunk Bucket Chunked Sink Dechunk.

#[local] Open Scope beng_scope.

(** ** Chunk boundaries *)

Definition csum (cs : list (nat * nat)) : nat := list_sum (map (fun c => c.1 + c.2)%nat cs).

(** The data that the boundaries select. *)
Fixpoint picks (cs : list (nat * nat)) (s : list Z) : list Z :=
  match cs with
  | [] => []
  | (h, d) :: cs' => take d (drop h s) ++ picks cs' (drop (h + d) s)
  end.

Lemma csum_app a b : csum (a ++ b) = (csum a + csum b)%nat.
Proof. unfold csum. by rewrite map_app, list_sum_app. Qed.

Lemma picks_app a b s : picks (a ++ b) s = picks a s ++ picks b (drop (csum a) s).
Proof.
  revert s. induction a as [|[h d] a IH]; intros s; cbn [picks app]; [by rewrite drop_0|].
  rewrite IH, <- app_assoc, drop_drop. unfold csum. simpl. do 4 f_equal; lia.
Qed.

Lemma picks_prefix cs s x : (csum cs <= length s)%nat -> picks cs (s ++ x) = picks cs s.
Proof.
  revert s. induction cs as [|[h d] cs IH]; intros s H; cbn [picks]; [done|].
  unfold csum in H. simpl in H. rewrite (drop_app_le s x h), (drop_app_le s x (h + d)) by lia.
  rewrite take_app_le by (rewrite length_drop; lia). f_equal. apply IH.
  rewrite length_drop. unfold csum. lia.
Qed.

(** [AddHeader()] and [AddData()] append a segment. *)
Definition extends_header (n : nat) (cs cs' : list (nat * nat)) : Prop :=
  csum cs' = (csum cs + n)%nat /\ (forall s, picks cs' s = picks cs s).

Definition extends_data (n : nat) (cs cs' : list (nat * nat)) : Prop :=
  csum cs' = (csum cs + n)%nat /\ (forall s, picks cs' s = picks cs s ++ take n (drop (csum cs) s)).

Definition chunks_ok (cs : list (nat * nat)) : Prop :=
  Forall (fun c => (0 < c.1 + c.2)%nat) cs /\ (length cs <= MAX_CHUNKS)%nat.

Lemma back_spec cs :
  match back cs with
  | Some (front, c) => cs = front ++ [c]
  | None => cs = []
  end.
Proof.
  unfold back. destruct (last cs) as [c|] eqn:E.
  - apply last_Some in E as [l ->]. by rewrite List.removelast_last.
  - by apply last_None in E.
Qed.

Lemma chunks_ok_snoc front c : chunks_ok (front ++ [c]) <->
  Forall (fun c => (0 < c.1 + c.2)%nat) front /\ (0 < c.1 + c.2)%nat /\ (length front < MAX_CHUNKS)%nat.
Proof.
  unfold chunks_ok. rewrite Forall_app, Forall_singleton, length_app. simpl. intuition lia.
Qed.

Lemma AddHeader_wp n s : (0 < n)%nat -> chunks_ok (d_chunks s) ->
  wp (AddHeader n) (fun ok s' => exists cs, s' = set_chunks cs s /\ chunks_ok cs /\
    if ok : bool then extends_header n (d_chunks s) cs /\ cs <> [] else
      cs = d_chunks s /\ length cs = MAX_CHUNKS) s.
Proof.
  intros Hn Hok. unfold AddHeader. wp_step. wp_step; [by apply Nat.ltb_lt|]. wp_step. wp_step.
  assert (Hgrow : wp (if (length (d_chunks s) <? MAX_CHUNKS)%nat
              then mput (set_chunks (d_chunks s ++ [(n, 0%nat)]) s) ;;; mret true
              else mret false) (fun ok s' => exists cs, s' = set_chunks cs s /\ chunks_ok cs /\
    if ok : bool then extends_header n (d_chunks s) cs /\ cs <> [] else
      cs = d_chunks s /\ length cs = MAX_CHUNKS) s).
  { destruct (Nat.ltb_spec (length (d_chunks s)) MAX_CHUNKS).
    - do 3 wp_step. eexists. split; [done|]. split; [|split; [|by intros [_ ?]%app_nil]].
      + apply chunks_ok_snoc. simpl. split; [apply Hok|]. split; [lia|done].
      + split; [rewrite csum_app; unfold csum; simpl; lia|]. intros x. rewrite picks_app. simpl.
        by rewrite ?take_0, ?app_nil_r.
    - wp_step. exists (d_chunks s). split; [by destruct s|]. split; [done|]. split; [done|].
      destruct Hok. lia. }
  pose proof (back_spec (d_chunks s)) as Hb. destruct (back (d_chunks s)) as [[front [h [|d]]]|]; try done.
  do 3 wp_step. eexists. split; [done|]. rewrite Hb in Hok |- *. apply chunks_ok_snoc in Hok as (? & ? & ?).
  split; [apply chunks_ok_snoc; simpl in *; split; [done|]; split; [lia|done]|].
  split; [|by intros [_ ?]%app_nil].
  split; [rewrite !csum_app; unfold csum; simpl; lia|]. intros x. rewrite !picks_app. simpl.
  by rewrite ?take_0, ?app_nil_r.
Qed.

Lemma AddData_wp n s : (0 < n)%nat -> chunks_ok (d_chunks s) ->
  wp (AddData n) (fun ok s' => exists cs, s' = set_chunks cs s /\ chunks_ok cs /\
    ok = true /\ extends_data n (d_chunks s) cs) s.
Proof.
  intros Hn Hok. unfold AddData. wp_step. wp_step; [by apply Nat.ltb_lt|]. wp_step. wp_step.
  pose proof (back_spec (d_chunks s)) as Hb. destruct (back (d_chunks s)) as [[front [h d]]|].
  - do 3 wp_step. eexists. split; [done|]. rewrite Hb in Hok |- *. apply chunks_ok_snoc in Hok as (? & ? & ?).
    split; [apply chunks_ok_snoc; simpl in *; split; [done|]; split; [lia|done]|]. split; [done|].
    split; [rewrite !csum_app; unfold csum; simpl; lia|]. intros x. rewrite !picks_app, csum_app. simpl.
    rewrite !app_nil_r, <- app_assoc. f_equal. rewrite <- take_take_drop, !drop_drop.
    do 3 f_equal. unfold csum at 3. simpl. lia.
  - rewrite Hb. simpl. do 3 wp_step. eexists. split; [done|].
    split; [by apply (chunks_ok_snoc []); simpl; split; [|split; [lia|unfold MAX_CHUNKS; lia]]|]. split; [done|].
    split; [unfold csum; simpl; lia|]. intros x. simpl. by rewrite app_nil_r, !drop_0.
Qed.

(** ** The invariant *)

Section Stream.
(** The chunked stream that the input delivers. *)
Context (raw : list Z).

(** The first [fed] bytes of the stream have been parsed: they contain the data [D]. *)
Definition sem (fed : nat) (D : list Z) (p : HttpChunkParser) : Prop :=
  (fed <= length raw)%nat /\ dechunk HttpChunkParser_new (take fed raw) = Decoded D p [] /\ parser_ok p.

Lemma sem_advance fed D p x d p' :
  sem fed D p -> x `prefix_of` drop fed raw -> dechunk p x = Decoded d p' [] ->
  sem (fed + length x) (D ++ d) p'.
Proof.
  intros (Hf & Hd & Hok) [y Hy] Hx. pose proof (f_equal length Hy) as Hl.
  rewrite length_drop, length_app in Hl. split; [lia|]. split; [|by eapply dechunk_ok].
  rewrite <- take_take_drop, Hy, take_app_length, (dechunk_app _ _ _ _ _ Hd), Hx. done.
Qed.

Lemma dechunk_error_app p a b d e : dechunk p a = DecodeError d e -> dechunk p (a ++ b) = DecodeError d e.
Proof.
  revert p d. induction a as [|ch a IH]; intros p d.
  { by rewrite dechunk_nil. }
  destruct (decide (state p = END)) as [E|E]; [by rewrite dechunk_end|].
  simpl ((ch :: a) ++ b). rewrite !dechunk_cons by done.
  destruct (step_byte p ch) as [[d1 p1]|]; [|done].
  destruct (dechunk p1 a) eqn:E2; simpl; [done|]. intros [= <- <-]. by rewrite (IH _ _ E2).
Qed.

Lemma sem_error fed D p x e : sem fed D p -> x `prefix_of` drop fed raw -> dechunk p x = DecodeError [] e ->
  dechunk HttpChunkParser_new raw = DecodeError D e.
Proof.
  intros (Hf & Hd & Hok) [y Hy] Hx. rewrite <- (take_drop fed raw), Hy, (dechunk_app _ _ _ _ _ Hd).
  rewrite (dechunk_error_app _ _ _ _ _ Hx). simpl. by rewrite app_nil_r.
Qed.

Definition output (s : DechunkIstream) : list Z := k_output (d_sink s).

Record core (s : DechunkIstream) (pos : nat) : Prop := {
  c_sum : (csum (d_chunks s) + d_pending_header s = d_parsed_input s)%nat;
  c_chunks : chunks_ok (d_chunks s);
  c_sem : sem (pos + d_parsed_input s) (output s ++ picks (d_chunks s) (drop pos raw)) (d_parser s) }.

(** What parsing does not change. *)
Definition same (s s' : DechunkIstream) : Prop :=
  d_sink s' = d_sink s /\ d_input s' = d_input s /\ d_eof_pending s' = d_eof_pending s /\
  d_action s' = d_action s.

Lemma same_refl s : same s s.
Proof. by repeat split. Qed.

Lemma same_trans s s1 s2 : same s s1 -> same s1 s2 -> same s s2.
Proof. intros (? & ? & ? & ?) (? & ? & ? & ?). repeat split; congruence. Qed.

Definition ended (s : DechunkIstream) : Prop := state (d_parser s) = END.

Definition full (s : DechunkIstream) : Prop := length (d_chunks s) = MAX_CHUNKS.

(** The chunks are extended by a header, as far as there is room; otherwise it is pending. *)
Lemma core_header s s' pos x p' :
  core s pos -> x `prefix_of` drop (pos + d_parsed_input s) raw ->
  dechunk (d_parser s) x = Decoded [] p' [] ->
  d_parser s' = p' -> d_parsed_input s' = (d_parsed_input s + length x)%nat -> d_sink s' = d_sink s ->
  chunks_ok (d_chunks s') ->
  (d_chunks s' = d_chunks s /\ d_pending_header s' = (d_pending_header s + length x)%nat \/
   d_pending_header s' = 0%nat /\ extends_header (d_pending_header s + length x) (d_chunks s) (d_chunks s')) ->
  core s' pos.
Proof.
  intros [Hs Hc Hm] Hx Hd <- Hp Hk Hok Hcase. pose proof (sem_advance _ _ _ _ _ _ Hm Hx Hd) as Hm'.
  rewrite app_nil_r in Hm'. unfold output in *. constructor; [|done|].
  - rewrite Hp. destruct Hcase as [[-> ->]|[-> [-> _]]]; lia.
  - unfold output. rewrite Hp, Hk, Nat.add_assoc. destruct Hcase as [[-> _]|[_ [_ ->]]]; done.
Qed.

Lemma core_data s s' pos x p' :
  core s pos -> d_pending_header s = 0%nat -> x `prefix_of` drop (pos + d_parsed_input s) raw ->
  dechunk (d_parser s) x = Decoded x p' [] ->
  d_parser s' = p' -> d_parsed_input s' = (d_parsed_input s + length x)%nat -> d_sink s' = d_sink s ->
  chunks_ok (d_chunks s') -> d_pending_header s' = 0%nat ->
  extends_data (length x) (d_chunks s) (d_chunks s') -> core s' pos.
Proof.
  intros [Hs Hc Hm] Hp0 Hx Hd <- Hp Hk Hok Hp' [Hsum Hpicks].
  pose proof (sem_advance _ _ _ _ _ _ Hm Hx Hd) as Hm'. unfold output in *. constructor; [lia|done|].
  unfold output. rewrite Hp, Hk, Nat.add_assoc, Hpicks, app_assoc.
  replace (csum (d_chunks s)) with (d_parsed_input s) by lia. rewrite drop_drop.
  destruct Hx as [y Hy]. rewrite Hy, take_app_length. done.
Qed.

(** What [ParseInput()] does with [n] bytes. *)
Definition parsed (s : DechunkIstream) (pos n : nat) (r : parse_input_result) (s' : DechunkIstream) : Prop :=
  same s s' /\
  match r with
  | PMore => core s' pos /\ ~ ended s' /\ d_parsed_input s' = (d_parsed_input s + n)%nat /\
             (d_pending_header s' = 0%nat \/ n = 0%nat /\ s' = s)
  | PStop => core s' pos /\ (d_parsed_input s' <= d_parsed_input s + n)%nat /\
             (full s' \/ ended s' /\ d_pending_header s' = 0%nat /\ (d_parsed_input s < d_parsed_input s')%nat)
  | PThrow e => exists D, dechunk HttpChunkParser_new raw = DecodeError D e /\ output s `prefix_of` D
  end.

Lemma parsed_chunks s pos n r s' : parsed s pos n r s' -> n <> 0%nat ->
  match r with PThrow _ => True | _ => d_chunks s' <> [] end.
Proof.
  intros [_ H] Hn. destruct r; [| |done].
  - destruct H as (Hc & _ & Hp & [Hz|[? _]]); [|done]. pose proof (c_sum _ _ Hc) as Hs. intros E.
    rewrite E in Hs. unfold csum in Hs. simpl in Hs. lia.
  - destruct H as (Hc & _ & [Hf|(_ & Hz & Hp)]); intros E.
    + unfold full in Hf. by rewrite E in Hf.
    + pose proof (c_sum _ _ Hc) as Hs. rewrite E in Hs. unfold csum in Hs. simpl in Hs. lia.
Qed.

(** The header part of an iteration: the state after [AddHeader()]. *)
Definition headed (s : DechunkIstream) (n : nat) (p' : HttpChunkParser) (ok : bool) (s' : DechunkIstream) : Prop :=
  same s s' /\ d_parser s' = p' /\ d_parsed_input s' = (d_parsed_input s + n)%nat /\
  d_pending_header s' = (d_pending_header s + n)%nat /\ chunks_ok (d_chunks s') /\
  if ok then extends_header (d_pending_header s + n) (d_chunks s) (d_chunks s')
  else d_chunks s' = d_chunks s /\ full s'.

Lemma AddHeader_headed s s1 n p' :
  chunks_ok (d_chunks s) -> same s s1 -> d_parser s1 = p' ->
  d_parsed_input s1 = (d_parsed_input s + n)%nat -> d_pending_header s1 = (d_pending_header s + n)%nat ->
  d_chunks s1 = d_chunks s ->
  wp (if (0 <? d_pending_header s1)%nat then AddHeader (d_pending_header s1) else mret true)
    (headed s n p') s1.
Proof.
  intros Hok Hs Hp H1 H2 H3. destruct (Nat.ltb_spec 0 (d_pending_header s1)).
  - eapply wp_mono; [apply AddHeader_wp; [done|by rewrite H3]|]. simpl.
    intros ok s2 (cs & -> & Hcs & Hc). unfold headed. simpl. rewrite H3 in Hc. rewrite H2 in Hc.
    split; [exact Hs|]. do 4 (split; [done|]). destruct ok; [apply Hc|]. destruct Hc as [-> ?]. by split.
  - wp_step. unfold headed. rewrite H3. split; [done|]. do 4 (split; [done|]).
    split; [lia|done].
Qed.

(** The data part of an iteration. *)
Definition dated (s : DechunkIstream) (pos n : nat) (p' : HttpChunkParser) (ok : bool) (s' : DechunkIstream) : Prop :=
  ok = true /\ same s s' /\ core s' pos /\ d_parsed_input s' = (d_parsed_input s + n)%nat /\
  d_pending_header s' = 0%nat /\ (if (n =? 0)%nat then d_parser s' = p' else ~ ended s').

Lemma AddData_dated s pos post d :
  core s pos -> d_pending_header s = 0%nat -> post `prefix_of` drop (pos + d_parsed_input s) raw ->
  (d = 0 \/ 0 < d /\ state (d_parser s) = DATA /\
            d = Z.min (Z.of_nat (length post)) (remaining_chunk (d_parser s))) ->
  wp (if (0 <? Z.to_nat d)%nat then
        let! ok := AddData (Z.to_nat d) in
        if negb ok then mret false
        else
          mmod (fun s => set_parsed_input (d_parsed_input s + Z.to_nat d) s) ;;;
          let! s := mget in
          let! r := mopt (Consume (Z.of_nat (Z.to_nat d)) (d_parser s)) in
          mput (set_d_parser r.2 s) ;;; mret true
      else mret true) (dated s pos (Z.to_nat d) (d_parser s)) s.
Proof.
  intros Hcore Hp0 Hpost Hcase. destruct (Nat.ltb_spec 0 (Z.to_nat d)) as [Hd|Hd].
  - destruct Hcase as [->|(Hd0 & Hst & Hmin)]; [simpl in Hd; lia|].
    set (x := take (Z.to_nat d) post).
    assert (Hx : length x = Z.to_nat d) by (unfold x; rewrite length_take; lia).
    assert (Hxd : dechunk (d_parser s) x = Decoded x (Chunk.consumed (Z.of_nat (length x)) (d_parser s)) []).
    { apply dechunk_data; [done|]. lia. }
    wp_step. eapply wp_mono; [apply AddData_wp; [done|apply Hcore]|]. simpl.
    intros ok s2 (cs & -> & Hcs & -> & Hext). cbn [negb]. do 5 wp_step. wp_step.
    { simpl. apply Consume_spec; [done|]. lia. }
    do 3 wp_step. unfold dated. simpl. split; [done|]. split; [by repeat split|]. split; [|split; [done|]].
    + eapply (core_data s _ pos x); try done; simpl; rewrite ?Hx; try done.
      * transitivity post; [apply prefix_take|done].
    + split; [done|]. replace (Z.to_nat d =? 0)%nat with false by (symmetry; apply Nat.eqb_neq; lia).
      unfold ended, Chunk.consumed. simpl. by destruct (_ =? 0).
  - wp_step. replace (Z.to_nat d) with 0%nat by lia. unfold dated. simpl.
    split; [done|]. split; [apply same_refl|]. split; [done|]. split; [lia|]. done.
Qed.

Lemma parsed_nil s pos : core s pos -> ~ ended s -> parsed s pos 0 PMore s.
Proof.
  intros Hc He. split; [apply same_refl|]. split; [done|]. split; [done|]. split; [lia|by right].
Qed.

Lemma ParseInput_loop_wp fuel src s pos :
  core s pos -> ~ ended s -> src `prefix_of` drop (pos + d_parsed_input s) raw ->
  (length src <= fuel)%nat -> wp (ParseInput_loop fuel src) (parsed s pos (length src)) s.
Proof.
  revert src s. induction fuel as [|fuel IH]; intros src s Hcore He Hsrc Hf;
    (destruct src as [|ch src0]; [simpl; wp_step; by apply parsed_nil|]).
  { simpl in Hf. lia. }
  set (src := ch :: src0) in *. cbn [ParseInput_loop]. unfold src at 1. cbn iota.
  do 2 wp_step. pose proof (c_sem _ _ Hcore) as (_ & _ & Hpok).
  pose proof (Parse_loop_spec src (d_parser s) 0 Hpok He) as HP. fold (Parse (d_parser s) src) in HP.
  destruct (Parse (d_parser s) src) as [h d p'|e p'|] eqn:EP; [|do 3 wp_step|done].
  2: { split; [by repeat split|]. eexists.
       split; [eapply sem_error; [apply Hcore|exact Hsrc|done]|]. by apply prefix_app_r. }
  destruct HP as (pre & post & -> & Hsplit & Hdpre & Hok' & Hcase).
  rewrite Z.add_0_l, Nat2Z.id.
  assert (Hpre : pre `prefix_of` drop (pos + d_parsed_input s) raw).
  { etransitivity; [|exact Hsrc]. rewrite Hsplit. by apply prefix_app_r. }
  assert (Hpost : post `prefix_of` drop (pos + (d_parsed_input s + length pre)) raw).
  { rewrite Nat.add_assoc, <- drop_drop. destruct Hsrc as [y Hy]. rewrite Hy, Hsplit, <- app_assoc, drop_app_length.
    by apply prefix_app_r. }
  pose proof (f_equal length Hsplit) as Hlen. rewrite length_app in Hlen.
  do 3 wp_step. apply wp_mono with (Q := fun _ x => d_parser x = p' /\ d_chunks x = d_chunks s /\
    d_parsed_input x = d_parsed_input s /\ d_pending_header x = d_pending_header s /\ same s x).
  { destruct (HasEnded p'); wp_step; by repeat split. }
  intros _ x (E1 & E2 & E3 & E4 & E5). do 7 wp_step.
  eapply wp_mono; [apply (AddHeader_headed s _ (length pre) p'); simpl; rewrite ?E3, ?E4; try done; apply Hcore|].
  intros ok s2 (Hs2 & P2 & I2 & N2 & K2 & Hc2). destruct ok; cbn [negb].
  2: { wp_step. destruct Hc2 as [Hc2 Hfull]. split; [done|]. split; [|split; [lia|by left]].
       eapply (core_header s s2); try done; [apply Hs2|]. left. by rewrite N2. }
  do 3 wp_step. set (s3 := set_pending_header 0 s2).
  assert (C3 : core s3 pos).
  { eapply (core_header s s3); try done; [apply Hs2|]. right. by split. }
  assert (Hcase3 : d = 0 \/ 0 < d /\ state (d_parser s3) = DATA /\
            d = Z.min (Z.of_nat (length post)) (remaining_chunk (d_parser s3))).
  { simpl. rewrite P2. destruct Hcase as [[? _]|?]; [by left|by right]. }
  assert (I3 : d_parsed_input s3 = (d_parsed_input s + length pre)%nat) by exact I2.
  eapply wp_mono; [apply (AddData_dated s3 pos post d); try done; by rewrite I3|].
  intros ok s5 (-> & Hs5 & C5 & I5 & N5 & E6). cbn [negb]. do 2 wp_step.
  assert (Hsame : same s s5) by (eapply same_trans; [|exact Hs5]; exact Hs2).
  assert (Hdle : (Z.to_nat d <= length post)%nat) by (destruct Hcase as [[-> _]|(? & ? & ?)]; lia).
  assert (Hprog : (0 < length pre + Z.to_nat d)%nat).
  { destruct Hcase as [[-> [->|Hend]]|(? & _)]; [simpl in *; lia| |lia].
    destruct pre; [|simpl; lia]. rewrite dechunk_nil in Hdpre. by injection Hdpre as <-. }
  unfold HasEnded. case_bool_decide as Hend.
  { wp_step. split; [done|]. split; [done|]. split; [lia|]. right. split; [done|]. split; [done|]. lia. }
  replace (drop (length pre + Z.to_nat d) src) with (drop (Z.to_nat d) post)
    by (rewrite Hsplit, <- drop_drop, drop_app_length; done).
  assert (Hrest : drop (Z.to_nat d) post `prefix_of` drop (pos + d_parsed_input s5) raw).
  { rewrite I5, I3, (Nat.add_assoc pos), <- drop_drop. destruct Hpost as [y Hy]. rewrite Hy, drop_app_le by lia.
    by apply prefix_app_r. }
  eapply wp_mono; [apply (IH (drop (Z.to_nat d) post) s5 C5 Hend Hrest); rewrite length_drop; lia|].
  intros r s6 [Hs6 Hr]. split; [by eapply same_trans|]. rewrite length_drop in Hr.
  destruct r as [| |e].
  - destruct Hr as (? & ? & ? & Hz). split; [done|]. split; [done|]. split; [lia|]. left.
    destruct Hz as [?|[_ ->]]; done.
  - destruct Hr as (? & ? & Hz). split; [done|]. split; [lia|]. destruct Hz as [?|(? & ? & ?)]; [by left|right].
    split; [done|]. split; [done|]. lia.
  - destruct Hr as (D & ? & ?). exists D. split; [done|]. unfold output in *. destruct Hsame as [<- _]. done.
Qed.

Lemma ParseInput_wp src s pos :
  core s pos -> src `prefix_of` drop (pos + d_parsed_input s) raw ->
  wp (ParseInput src) (fun r s' => if HasEnded (d_parser s) then r = PStop /\ s' = s
                                   else parsed s pos (length src) r s') s.
Proof.
  intros Hcore Hsrc. unfold ParseInput. do 2 wp_step. destruct (HasEnded (d_parser s)) eqn:E.
  - wp_step. done.
  - apply ParseInput_loop_wp; try done. unfold HasEnded in E. by simpl_bool.
Qed.

(** ** Submitting data to the handler *)

(** A handler that accepts everything at least [m] times. *)
Definition generous (m : nat) (k : Sink) : Prop :=
  exists l r, k_handler k = l ++ r /\ (m <= length l)%nat /\
    Forall (fun x => exists n, x = Accept n /\ Z.of_nat (length raw) <= n) l.

Lemma generous_le m m' k : (m' <= m)%nat -> generous m k -> generous m' k.
Proof. intros H (l & r & ? & ? & ?). exists l, r. split; [done|]. split; [lia|done]. Qed.

Lemma Invoke_generous src k n k' m :
  Invoke src k = Some (n, k') -> (length src <= length raw)%nat -> generous (Datatypes.S m) k ->
  n = length src /\ alive k' = true /\ generous m k'.
Proof.
  unfold Invoke. destruct (alive k) eqn:Ha; simpl; [|done]. case_bool_decide; [done|].
  intros E Hl ([|x l] & r & Hk & Hm & Hf); [simpl in Hm; lia|]. rewrite Hk in E. simpl in E.
  apply Forall_cons in Hf as [(a & -> & Hge) Hf]. injection E as <- <-.
  split; [lia|]. split; [exact Ha|]. exists l, r. split; [done|]. simpl in Hm. split; [lia|done].
Qed.

Definition unchanged (s s' : DechunkIstream) : Prop :=
  d_parser s' = d_parser s /\ d_pending_header s' = d_pending_header s /\ d_input s' = d_input s /\
  d_eof_pending s' = d_eof_pending s /\ d_action s' = d_action s.

(** The chunks in the state are only updated when the loop ends. *)
Abbreviation corec cs s pos := (core (set_chunks cs s) pos).

Definition submitted (cs : list (nat * nat)) (src : list Z) (again : bool) (s : DechunkIstream) (pos : nat)
    (r : submit_result * list Z) (s' : DechunkIstream) : Prop :=
  let '(q, src') := r in
  let used := (length src - length src')%nat in
  unchanged s s' /\ src' = drop used src /\
  match q with
  | SDestroyed => k_life (d_sink s') = Closed /\
      output s' `prefix_of` output s ++ picks cs (drop pos raw)
  | SDone b => core s' (pos + used) /\ d_alive s' = true /\ d_chunks s' = [] /\
      (cs = [] /\ b = again /\ src' = src \/ b = true /\ (length src' < length src)%nat)
  | SWait => core s' (pos + used) /\ d_alive s' = true /\ d_chunks s' <> [] /\ src' = []
  | SBlocked => core s' (pos + used) /\ d_alive s' = true /\ d_chunks s' <> []
  end /\
  (forall m, generous (length src + m) (d_sink s) ->
   generous (length src' + m) (d_sink s') /\ q <> SBlocked /\ q <> SDestroyed).

Lemma submitted_step cs cs' src again s s1 pos n r s' :
  submitted cs' (drop n src) true s1 (pos + n) r s' -> (0 < n <= length src)%nat -> unchanged s s1 ->
  output s1 ++ picks cs' (drop (pos + n) raw) = output s ++ picks cs (drop pos raw) ->
  (forall m, generous (length src + m) (d_sink s) -> generous (length (drop n src) + m) (d_sink s1)) ->
  submitted cs src again s pos r s'.
Proof.
  destruct r as [q src']. intros (Hu & Hsrc & Hq & Hg) Hn Hu1 Ho Hgen.
  rewrite length_drop in Hsrc, Hq, Hg. assert (Hle : (length src' <= length src - n)%nat).
  { rewrite Hsrc, !length_drop. lia. }
  assert (Hused : (n + (length src - n - length src') = length src - length src')%nat) by lia.
  split; [|split; [|split]].
  - destruct Hu as (? & ? & ? & ? & ?), Hu1 as (? & ? & ? & ? & ?). repeat split; congruence.
  - rewrite Hsrc at 1. by rewrite drop_drop, Hused.
  - rewrite <- Nat.add_assoc, Hused in Hq. destruct q as [b'| | |]; try done.
    + destruct Hq as (? & ? & ? & Hc). split; [done|]. split; [done|]. split; [done|]. right.
      split; [|lia]. by destruct Hc as [(_ & -> & _)|[-> _]].
    + destruct Hq as [? Hp]. split; [done|]. by rewrite <- Ho.
  - rewrite length_drop in Hgen. auto.
Qed.

Lemma sub_parsed_input_wp n s (Q : unit -> DechunkIstream -> Prop) :
  (n <= d_parsed_input s)%nat -> Q tt (set_parsed_input (d_parsed_input s - n) s) ->
  wp (sub_parsed_input n) Q s.
Proof.
  intros Hn HQ. unfold sub_parsed_input. do 3 wp_step. wp_step; [by apply Nat.leb_le|]. by wp_step.
Qed.

(** Consuming [n] bytes of the input that belong to the first chunks. *)
Lemma core_move cs cs' s s' pos n :
  corec cs s pos -> (csum cs' + n = csum cs)%nat -> chunks_ok cs' ->
  d_parser s' = d_parser s -> d_pending_header s' = d_pending_header s ->
  d_parsed_input s' = (d_parsed_input s - n)%nat ->
  output s' ++ picks cs' (drop (pos + n) raw) = output s ++ picks cs (drop pos raw) ->
  corec cs' s' (pos + n).
Proof.
  intros [Hs _ Hm] Hsum Hok Hp Hpe Hi Ho. simpl in *. constructor; simpl; [lia|done|].
  unfold output in *. simpl in *. rewrite Hi, Hp, Ho.
  by replace (pos + n + (d_parsed_input s - n))%nat with (pos + d_parsed_input s)%nat by lia.
Qed.

Lemma picks_skip h d n cs s : (n <= h)%nat -> picks ((h - n, d)%nat :: cs) (drop n s) = picks ((h, d) :: cs) s.
Proof. intros H. cbn [picks]. rewrite !drop_drop. do 2 f_equal; [f_equal|]; f_equal; lia. Qed.

Lemma picks_take d n cs s : (n <= d)%nat ->
  take n s ++ picks ((0, d - n)%nat :: cs) (drop n s) = picks ((0%nat, d) :: cs) s.
Proof.
  intros H. cbn [picks]. rewrite !drop_0, app_assoc, take_take_drop, drop_drop. do 2 f_equal; f_equal; lia.
Qed.

Lemma picks_zero cs s : picks ((0, 0)%nat :: cs) s = picks cs s.
Proof. cbn [picks]. by rewrite take_0, drop_0. Qed.

Lemma chunks_ok_cons c cs : chunks_ok (c :: cs) <-> (0 < c.1 + c.2)%nat /\ (length cs < MAX_CHUNKS)%nat /\
  Forall (fun c => (0 < c.1 + c.2)%nat) cs.
Proof. unfold chunks_ok. rewrite Forall_cons. simpl. intuition lia. Qed.

Lemma corec_parsed c cs s pos : corec (c :: cs) s pos -> (c.1 + c.2 <= d_parsed_input s)%nat.
Proof. intros [H _ _]. simpl in H. unfold csum in H. simpl in H. lia. Qed.

Lemma prefix_drop_raw (src : list Z) n pos :
  src `prefix_of` drop pos raw -> (n <= length src)%nat -> drop n src `prefix_of` drop (pos + n) raw.
Proof.
  intros [y Hy] Hn. replace (drop (pos + n) raw) with (drop n (drop pos raw)) by (by rewrite drop_drop).
  rewrite Hy, drop_app_le by lia. by apply prefix_app_r.
Qed.

(** The end of the loop, with the chunks that are left. *)
Lemma submitted_exit cs cs' src again q s s1 pos n :
  corec cs s pos -> corec cs' s1 (pos + n) -> (n <= length src)%nat -> cs' <> [] -> unchanged s s1 ->
  d_alive s1 = true -> q = SWait /\ (length src <= n)%nat \/ q = SBlocked ->
  (forall m, generous (length src + m) (d_sink s) -> generous (length src - n + m) (d_sink s1) /\ q <> SBlocked) ->
  wp (mmod (set_chunks cs') ;;; mret (q, drop n src)) (submitted cs src again s pos) s1.
Proof.
  intros Hc Hc' Hn Hne Hu Ha Hq Hg. do 3 wp_step. unfold submitted. cbv zeta. rewrite length_drop.
  replace (length src - (length src - n))%nat with n by lia.
  split; [exact Hu|]. split; [done|]. split.
  - destruct Hq as [[-> Hl]| ->]; (split; [done|]; split; [done|]); [|done]. split; [done|]. by apply drop_ge.
  - intros m H. destruct (Hg m H) as [? ?]. split; [done|]. split; [done|]. by destruct Hq as [[-> _]| ->].
Qed.

Lemma submit_wp cs src again s pos :
  corec cs s pos -> d_alive s = true -> src `prefix_of` drop pos raw ->
  wp (submit cs src again) (submitted cs src again s pos) s.
Proof.
  revert src again s pos. induction cs as [|[h d] cs IH]; intros src again s pos Hc Ha Hsrc.
  { cbn [submit]. do 3 wp_step. unfold submitted. cbv zeta. rewrite Nat.sub_diag, Nat.add_0_r.
    split; [by repeat split|]. split; [by rewrite drop_0|]. split; [|done].
    split; [done|]. split; [done|]. split; [done|]. by left. }
  pose proof (c_chunks _ _ Hc) as Hok. simpl in Hok. apply chunks_ok_cons in Hok as (H0 & Hlen & Hcs). simpl in H0.
  pose proof (corec_parsed _ _ _ _ Hc) as Hpi. simpl in Hpi.
  cbn [submit]. wp_step. wp_step.
  { apply orb_true_iff. rewrite !Nat.ltb_lt. lia. }
  destruct (Nat.ltb_spec (length src) h) as [Hlt|Hge].
  { do 3 wp_step. apply sub_parsed_input_wp; [simpl; lia|]. wp_step.
    unfold submitted. cbv zeta. simpl. rewrite Nat.sub_0_r. split; [by repeat split|].
    split; [by rewrite drop_ge|]. split; [|intros m Hg; split; [by apply (generous_le (length src + m)); [lia|]|done]].
    split; [|done]. apply (core_move ((h, d) :: cs) ((h - length src, d)%nat :: cs) s
      (set_parsed_input (d_parsed_input s - length src) s) pos (length src)); try done.
    - unfold csum. simpl. lia.
    - apply chunks_ok_cons. simpl. split; [lia|done].
    - unfold output. simpl. f_equal. rewrite <- drop_drop. apply picks_skip. lia. }
  wp_step. apply sub_parsed_input_wp; [lia|]. set (s1 := set_parsed_input (d_parsed_input s - h) s).
  assert (Hc1 : forall d', (0 < d')%nat -> d' = d -> corec ((0%nat, d') :: cs) s1 (pos + h)).
  { intros d' Hd' ->. apply (core_move ((h, d) :: cs) ((0%nat, d) :: cs) s); try done.
    - unfold csum. simpl. lia.
    - apply chunks_ok_cons. simpl. split; [lia|done].
    - apply (f_equal (app (output s))). rewrite <- drop_drop, <- (picks_skip h d h) by lia.
      by rewrite Nat.sub_diag. }
  assert (Hrest : drop h src `prefix_of` drop (pos + h) raw).
  { by apply prefix_drop_raw. }
  assert (Hnext : forall s2, unchanged s s2 -> d_alive s2 = true ->
    d_parsed_input s2 = (d_parsed_input s - (h + d))%nat -> (h + d <= length src)%nat ->
    output s2 = output s ++ take d (drop (pos + h) raw) ->
    (forall m, generous (length src + m) (d_sink s) -> generous (length src - (h + d) + m) (d_sink s2)) ->
    wp (submit cs (drop (h + d) src) true) (submitted ((h, d) :: cs) src again s pos) s2).
  { intros s2 Hu2 Ha2 Hi2 Hl2 Ho2 Hg2.
    assert (Hout : output s2 ++ picks cs (drop (pos + (h + d)) raw) = output s ++ picks ((h, d) :: cs) (drop pos raw)).
    { rewrite Ho2. cbn [picks]. rewrite !drop_drop, <- app_assoc. done. }
    eapply wp_mono; [apply (IH (drop (h + d) src) true s2 (pos + (h + d))%nat)|].
    - apply (core_move ((h, d) :: cs) cs s); try done; try apply Hu2; [unfold csum; simpl; lia|].
      split; [done|lia].
    - done.
    - by apply prefix_drop_raw.
    - intros r s3 Hr. eapply submitted_step; [exact Hr|lia|done|done|].
      rewrite length_drop. done. }
  cbv zeta. rewrite length_drop.
  destruct (Nat.ltb_spec 0 (Nat.min (length src - h) d)) as [Hds|Hds].
  2: { destruct (Nat.ltb_spec 0 d) as [Hd|Hd].
       - apply (submitted_exit _ _ _ _ _ s s1 pos h); try done; [by apply Hc1|left; split; [done|lia]|].
         intros m Hg. split; [|done]. by apply (generous_le (length src + m)); [lia|].
       - assert (d = 0%nat) as -> by lia. rewrite Nat.add_0_r, take_0, app_nil_r in Hnext.
         apply Hnext; try done. intros m Hg. by apply (generous_le (length src + m)); [lia|]. }
  assert (Htl : length (take (Nat.min (length src - h) d) (drop h src)) = Nat.min (length src - h) d).
  { rewrite length_take, length_drop. lia. }
  assert (Hraw : (length src <= length raw)%nat).
  { destruct Hsrc as [y Hy]. pose proof (f_equal length Hy) as El. rewrite length_drop, length_app in El. lia. }
  destruct (Invoke_spec (take (Nat.min (length src - h) d) (drop h src)) (d_sink s1)) as (n & k & Ei & Hn & Ho & Hl);
    [exact Ha|intros E; rewrite E in Htl; simpl in Htl; lia|].
  pose proof (fun m => Invoke_generous _ _ _ _ (length src - h - 1 + m) Ei) as Hgen. rewrite Htl in Hn, Hgen.
  wp_step. unfold D_InvokeData. do 3 wp_step. wp_step; [exact Ei|]. do 3 wp_step. do 2 wp_step. simpl.
  set (s2 := set_d_sink k s1).
  assert (Hgs : forall m, generous (length src + m) (d_sink s) -> n = Nat.min (length src - h) d /\ alive k = true /\
                generous (length src - h - 1 + m) k).
  { intros m Hg. apply Hgen; [lia|]. eapply generous_le; [|exact Hg]. lia. }
  destruct ((n =? 0)%nat && negb (d_alive s2)) eqn:Eb.
  { simpl_bool. apply Nat.eqb_eq in H. wp_step. unfold submitted. cbv zeta. rewrite length_drop.
    replace (length src - (length src - h))%nat with h by lia. split; [by repeat split|]. split; [done|].
    destruct Hl as [Hl|[_ Hl]]; [unfold d_alive in H1; simpl in H1; congruence|]. split; [split; [done|]|].
    - unfold output at 1. simpl. rewrite Ho, H, take_0, app_nil_r. by apply prefix_app_r.
    - intros m Hg. destruct (Hgs m Hg) as (? & ? & ?). lia. }
  assert (Hal : d_alive s2 = true).
  { destruct Hl as [Hl|[-> Hl]]; [done|]. simpl in Eb. by apply negb_false_iff in Eb. }
  assert (Hraw2 : take n (drop h src) = take n (drop (pos + h) raw)).
  { destruct Hrest as [y Hy]. rewrite Hy, take_app_le; [done|]. rewrite length_drop. lia. }
  assert (Hout : output s2 = output s ++ take n (drop (pos + h) raw)).
  { unfold output. simpl. rewrite Ho, take_take, <- Hraw2. by replace (Nat.min n _) with n by lia. }
  wp_step. apply sub_parsed_input_wp; [simpl; lia|]. simpl (d_parsed_input s2). rewrite drop_drop.
  set (s3 := set_parsed_input (d_parsed_input s - h - n) s2).
  assert (Hc3 : (n < d)%nat -> corec ((0, d - n)%nat :: cs) s3 (pos + (h + n))).
  { intros Hnd. apply (core_move ((h, d) :: cs) _ s s3); try done.
    - unfold csum. simpl. lia.
    - apply chunks_ok_cons. simpl. split; [lia|done].
    - simpl. lia.
    - change (output s3) with (output s2). rewrite Hout, <- app_assoc. f_equal.
      rewrite <- (picks_skip h d h), Nat.sub_diag, <- (picks_take d n) by lia.
      rewrite !drop_drop. by rewrite (Nat.add_assoc pos). }
  assert (Hu3 : unchanged s s3) by (by repeat split).
  destruct (Nat.ltb_spec n (Nat.min (length src - h) d)) as [Hlt|Hge2].
  { apply (submitted_exit _ _ _ _ _ s s3 pos (h + n)); try done; [apply Hc3; lia|lia|by right|].
    intros m Hg. destruct (Hgs m Hg) as (? & ? & ?). lia. }
  destruct (Nat.ltb_spec 0 (d - n)) as [Hd|Hd].
  { apply (submitted_exit _ _ _ _ _ s s3 pos (h + n)); try done; [apply Hc3; lia|lia|left; split; [done|lia]|].
    intros m Hg. destruct (Hgs m Hg) as (? & ? & ?). split; [|done].
    eapply generous_le; [|done]. lia. }
  assert (n = d) as -> by lia. apply Hnext; simpl; try done; try lia.
  intros m Hg. destruct (Hgs m Hg) as (? & ? & ?). eapply generous_le; [|done]. lia.
Qed.

(** ** [OnData()] *)

(** All data in the stream, up to its end or to the first error. *)
Definition decoded : list Z :=
  match dechunk HttpChunkParser_new raw with Decoded d _ _ => d | DecodeError d _ => d end.

Definition malformed : Prop := exists D e, dechunk HttpChunkParser_new raw = DecodeError D e.

Lemma sem_prefix fed D p : sem fed D p -> D `prefix_of` decoded.
Proof.
  intros (_ & Hd & _). unfold decoded. rewrite <- (take_drop fed raw), (dechunk_app _ _ _ _ _ Hd).
  destruct (dechunk p (drop fed raw)); simpl; by apply prefix_app_r.
Qed.

Lemma core_prefix s pos : core s pos -> output s `prefix_of` decoded.
Proof.
  intros Hc. etransitivity; [|eapply sem_prefix, Hc]. by apply prefix_app_r.
Qed.

Definition same_env (s s' : DechunkIstream) : Prop :=
  d_input s' = d_input s /\ d_eof_pending s' = d_eof_pending s /\ d_action s' = d_action s.

(** How the loop of [OnData()] ends. *)
Definition received (src : list Z) (s : DechunkIstream) (pos : nat)
    (r : submit_result * option (list Z)) (s' : DechunkIstream) : Prop :=
  let '(q, o) := r in
  same_env s s' /\ output s' `prefix_of` decoded /\
  match o with
  | None => (k_life (d_sink s') = Closed \/ k_life (d_sink s') = AtError /\ malformed) /\
            (forall m, generous (length src + m) (d_sink s) -> malformed)
  | Some src' =>
      let used := (length src - length src')%nat in
      src' = drop used src /\ core s' (pos + used) /\ d_alive s' = true /\
      (q = SBlocked /\ d_chunks s' <> [] \/
       q <> SBlocked /\ (d_chunks s' <> [] /\ src' = [] \/
         d_chunks s' = [] /\ d_pending_header s' = 0%nat /\ (src' = [] \/ ended s'))) /\
      (forall m, generous (length src + m) (d_sink s) -> q <> SBlocked /\ generous (length src' + m) (d_sink s'))
  end.

(** The first step of an iteration: the pending header is added if there is room. *)
Lemma apply_pending_wp s pos : core s pos ->
  wp (if (0 <? d_pending_header s)%nat then
         let! ok := AddHeader (d_pending_header s) in
         if ok then mmod (set_pending_header 0) else mret tt
       else mret tt)
    (fun _ s' => core s' pos /\ same s s' /\ d_parsed_input s' = d_parsed_input s /\
       (d_pending_header s' = 0%nat \/ full s')) s.
Proof.
  intros Hc. destruct (Nat.ltb_spec 0 (d_pending_header s)).
  - wp_step. eapply wp_mono; [apply AddHeader_wp; [done|apply Hc]|]. simpl.
    intros ok s1 (cs & -> & Hcs & He). destruct ok; wp_step; simpl.
    + destruct He as [[He1 He2] _]. split; [|split; [by repeat split|split; [done|by left]]].
      destruct Hc as [Hs _ Hm]. constructor; simpl; [lia|done|]. unfold output in *. simpl. by rewrite He2.
    + destruct He as [-> Hf]. split; [|split; [by repeat split|split; [done|by right]]].
      destruct Hc as [Hs Hk Hm]. by constructor.
  - wp_step. split; [done|]. split; [apply same_refl|]. split; [done|]. left. lia.
Qed.

Lemma D_Destroy_wp l s (Q : unit -> DechunkIstream -> Prop) :
  d_alive s = true -> Q tt (set_d_sink (set_k_life l (d_sink s)) s) -> wp (D_Destroy l) Q s.
Proof.
  intros Ha HQ. unfold D_Destroy. do 3 wp_step. wp_step; [|by wp_step].
  unfold DestroySink. unfold d_alive in Ha. by rewrite Ha.
Qed.

Lemma set_chunks_id s : set_chunks (d_chunks s) s = s.
Proof. by destruct s. Qed.

(** After submitting: the next iteration, or the end of the loop. *)
Lemma received_next fuel src s s2 pos again q src' s3 :
  (forall src s pos, core s pos -> d_alive s = true -> src `prefix_of` drop pos raw -> (length src < fuel)%nat ->
     wp (OnData_loop fuel src) (received src s pos) s) ->
  (length src < Datatypes.S fuel)%nat -> src `prefix_of` drop pos raw -> core s2 pos ->
  same_env s s2 -> d_sink s2 = d_sink s ->
  (d_chunks s2 = [] -> d_pending_header s2 = 0%nat /\ again = false /\ (src = [] \/ ended s2)) ->
  submitted (d_chunks s2) src again s2 pos (q, src') s3 ->
  wp (match (q, src') with
      | (SDestroyed, _) => mret (SDestroyed, None)
      | (SDone true, src) => OnData_loop fuel src
      | (q, src) => mret (q, Some src)
      end) (received src s pos) s3.
Proof.
  intros IH Hf Hsrc Hc2 Henv Hk2 Hempty (Hu & Hs' & Hq & Hgen).
  assert (Henv3 : same_env s s3).
  { destruct Hu as (_ & _ & ? & ? & ?), Henv as (? & ? & ?). repeat split; congruence. }
  assert (Hle : (length src' <= length src)%nat) by (rewrite Hs', length_drop; lia).
  destruct q as [[]| | |].
  - destruct Hq as (Hc3 & Ha3 & Hch & Hcase).
    destruct Hcase as [(E & <- & _)|[_ Hlt]]; [by destruct (Hempty E) as (_ & ? & _)|].
    eapply wp_mono; [apply (IH src' s3 (pos + (length src - length src'))%nat); try done; [|lia]|].
    { pose proof (prefix_drop_raw src (length src - length src') pos Hsrc) as Hd.
      rewrite <- Hs' in Hd. apply Hd. lia. }
    intros [q o] s4 (He4 & Ho4 & H4). unfold received. rewrite <- Hk2.
    split; [|split; [done|]].
    { destruct He4 as (? & ? & ?), Henv3 as (? & ? & ?). repeat split; congruence. }
    destruct o as [src4|].
    + cbv zeta in H4. destruct H4 as (E4 & C4 & A4 & D4 & G4).
      assert ((length src4 <= length src')%nat) by (rewrite E4, length_drop; lia).
      replace (pos + (length src - length src') + (length src' - length src4))%nat
        with (pos + (length src - length src4))%nat in C4 by lia.
      cbv zeta. split; [|split; [done|split; [done|split; [done|]]]].
      * rewrite E4 at 1. rewrite Hs' at 2. rewrite drop_drop. f_equal. lia.
      * intros m Hg. by apply G4, Hgen.
    + destruct H4 as [H4 G4]. split; [done|]. intros m Hg. by apply (G4 m), Hgen.
  - destruct Hq as (Hc3 & Ha3 & Hch & Hcase). wp_step. unfold received. rewrite <- Hk2. cbv zeta.
    split; [done|]. split; [by eapply core_prefix|]. split; [done|]. split; [done|]. split; [done|].
    destruct Hcase as [(E & _ & ->)|[? _]]; [|done]. destruct (Hempty E) as (Hp & _ & Hend).
    destruct Hu as (Hup & Hupe & _). split; [|intros m Hg; by destruct (Hgen m Hg)].
    right. split; [done|]. right. split; [done|].
    rewrite Hupe. split; [done|]. unfold ended in *. by rewrite Hup.
  - destruct Hq as (Hc3 & Ha3 & Hch & ->). wp_step. unfold received. rewrite <- Hk2. cbv zeta.
    split; [done|]. split; [by eapply core_prefix|]. split; [done|]. split; [done|]. split; [done|].
    split; [|intros m Hg; by destruct (Hgen m Hg)]. right. split; [done|]. by left.
  - destruct Hq as (Hc3 & Ha3 & Hch). wp_step. unfold received. rewrite <- Hk2. cbv zeta.
    split; [done|]. split; [by eapply core_prefix|]. split; [done|]. split; [done|]. split; [done|].
    split; [by left|]. intros m Hg. by destruct (Hgen m Hg) as (? & ? & _).
  - destruct Hq as (Hl3 & Hp3). wp_step. unfold received. rewrite <- Hk2.
    split; [done|]. split.
    + etransitivity; [exact Hp3|]. eapply sem_prefix, Hc2.
    + split; [by left|]. intros m Hg. by destruct (Hgen m Hg) as (_ & _ & ?).
Qed.

Lemma OnData_loop_wp fuel src s pos :
  core s pos -> d_alive s = true -> src `prefix_of` drop pos raw -> (length src < fuel)%nat ->
  wp (OnData_loop fuel src) (received src s pos) s.
Proof.
  revert src s pos. induction fuel as [|fuel IH]; intros src s pos Hcore Ha Hsrc Hf; [lia|].
  cbn [OnData_loop]. do 3 wp_step. eapply wp_mono; [by apply apply_pending_wp|].
  simpl. intros _ s1 (Hc1 & Hs1 & Hi1 & Hp1). do 3 wp_step.
  set (again0 := fun (r : option parse_input_result) s =>
    match r with None => false | Some _ => negb (HasEnded (d_parser s)) end).
  apply wp_mono with (Q := fun r s2 => same s s2 /\
    match r with
    | Some (PThrow e) => exists D, dechunk HttpChunkParser_new raw = DecodeError D e /\ output s `prefix_of` D
    | _ => core s2 pos /\ (d_chunks s2 = [] -> d_pending_header s2 = 0%nat /\ again0 r s2 = false /\
             (src = [] \/ ended s2))
    end).
  { destruct (Nat.ltb_spec (d_parsed_input s1) (length src)) as [Hlt|Hge].
    - wp_step. eapply wp_mono; [apply (ParseInput_wp _ s1 pos Hc1)|].
      { apply prefix_drop_raw; [done|lia]. }
      intros r s2 Hr. wp_step. unfold again0. destruct (HasEnded (d_parser s1)) eqn:Ee.
      + destruct Hr as [-> ->]. split; [done|]. split; [done|]. rewrite Ee. intros E.
        split; [|split; [done|right]].
        * destruct Hp1 as [?|Hfull]; [done|]. unfold full in Hfull. by rewrite E in Hfull.
        * by apply bool_decide_eq_true in Ee.
      + pose proof (parsed_chunks _ _ _ _ _ Hr) as Hne. destruct Hr as [Hs2 Hr].
        assert (Hnz : length (drop (d_parsed_input s1) src) <> 0%nat) by (rewrite length_drop; lia).
        specialize (Hne Hnz). split; [by eapply same_trans|]. destruct r; [| |].
        * split; [apply Hr|done].
        * split; [apply Hr|done].
        * destruct Hr as (D & ? & ?). exists D. split; [done|]. unfold output in *. destruct Hs1 as [<- _]. done.
    - wp_step. split; [done|]. split; [done|]. intros E. simpl.
      assert (d_pending_header s1 = 0%nat) as Hz.
      { destruct Hp1 as [?|Hfull]; [done|]. unfold full in Hfull. by rewrite E in Hfull. }
      split; [done|]. split; [done|]. left. pose proof (c_sum _ _ Hc1) as Hsum. rewrite E in Hsum.
      unfold csum in Hsum. simpl in Hsum. destruct src; [done|]. simpl in Hge. lia. }
  intros r s2 [Hs2 Hr].
  assert (Hk2 : d_sink s2 = d_sink s) by apply Hs2.
  assert (Henv : same_env s s2) by (by destruct Hs2 as (_ & ? & ? & ?)).
  assert (Hal2 : d_alive s2 = true) by (unfold d_alive; by rewrite Hk2).
  destruct r as [[| |e]|]; [..|].
  3: { destruct Hr as (D & HD & Hpre). wp_step. apply D_Destroy_wp; [done|]. wp_step. unfold received. simpl.
       split; [done|]. unfold output. simpl. rewrite Hk2. split; [|split; [right; split; [done|]|]].
       - unfold decoded. by rewrite HD.
       - by exists D, e.
       - intros _ _. by exists D, e. }
  all: destruct Hr as [Hc2 Hempty]; do 3 wp_step;
    (eapply wp_mono; [eapply submit_wp; [by rewrite set_chunks_id|done|done]|]);
    intros [q src'] s3; apply (received_next fuel src s s2); try done.
Qed.
End Stream.
