(* ===== verification/DechunkStream.v ===== *)
(** * The decoding istream in its environment

    The input of the istream owns a chunked stream.  It offers pieces of it through [OnData()] or
    as a bucket, ends or fails; the consumer blocks, consumes some of the bucket list or
    closes the istream.  [D_step] is one such event. *)

From S2P Require Import Prelude Chunk Bucket Chunked ChunkedBucket Sink Dechunk DechunkFacts.

#[local] Open Scope beng_scope.

(** ** Events *)

Inductive dechunk_event :=
  | DvData (n : nat)
  | DvBuckets (ns : list nat) (more fb : bool) (k : option nat)
  | DvDefer
  | DvEof
  | DvError
  | DvClose.

#[global] Instance dechunk_event_eq_dec : EqDecision dechunk_event.
Proof. solve_decision. Defined.

(** The istream, and how much of the stream has been consumed. *)
Definition dechunk_world : Type := DechunkIstream * nat.

(** [x] in buckets of these sizes. *)
Fixpoint cut (ns : list nat) (x : list Z) : list (list Z) :=
  match ns with [] => [] | n :: ns => take n x :: cut ns (drop n x) end.

(** The reader at the offset [o] of a list of buckets. *)
Fixpoint reader_at (bs : list (list Z)) (o : nat) : BucketReader :=
  match bs with
  | [] => ([], 0%nat)
  | b :: bs' => if (length b <=? o)%nat then reader_at bs' (o - length b) else (bs, o)
  end.

(** No header of a chunk of the table goes to the end of its bucket, unless it is the last one. *)
Fixpoint headers_inside (cs : list (nat * nat)) (bs : list (list Z)) (o : nat) : bool :=
  match cs with
  | [] => true
  | (h, d) :: cs =>
      match reader_at bs o with
      | (b :: bs', p) => (h =? 0)%nat || (p + h <? length b)%nat || bool_decide (bs' = [])
      | ([], _) => true
      end && headers_inside cs bs (o + h + d)
  end.

Definition receive (x : list Z) (l : phase) (s : DechunkIstream) : DechunkIstream :=
  let k := d_sink s in set_d_sink (mkSink l (k_handler k) (k_output k ++ x)) s.

(** The consumer asks for buckets and then consumes [k] bytes of them, if it consumes at all.  It
    regards the istream as destroyed after an exception and after the end.  [None] is a failed
    assertion: the input has fewer bytes than the istream wants to consume, or the istream
    has consumed another number of bytes than it was asked to. *)
Definition bucket_step (bs : list (list Z)) (more fb : bool) (k : option nat) (w : dechunk_world)
  : option dechunk_world :=
  let '(s, pos) := w in
  match D_FillBucketList (mk_buckets bs more fb) IstreamBucketList_new s with
  | None => None
  | Some (inr _, s) => Some (set_d_sink (set_k_life AtError (d_sink s)) s, pos)
  | Some (inl list, s) =>
      match k with
      | None => Some (s, pos)
      | Some k =>
          let k := Nat.min k (length (concat (buckets list))) in
          match D_ConsumeBucketList k s with
          | None => None
          | Some ((taken, consumed, eof), s) =>
              if (taken <=? length (concat bs))%nat && (consumed =? k)%nat
              then Some (receive (take k (concat (buckets list))) (if eof then AtEof else Alive) s,
                         (pos + taken)%nat)
              else None
          end
      end
  end.

Section Stream.
Context (raw : list Z).

(** One event; an event that cannot happen is ignored.  The input offers again what it
    has offered before and was not consumed, and it only says that there is no more
    when it offers everything. *)
Definition D_step (e : dechunk_event) (w : dechunk_world) : option dechunk_world :=
  let '(s, pos) := w in
  if negb (d_alive s) then Some w
  else match e with
  | DvData n =>
      if d_input s && (0 <? n)%nat && (pos + n <=? length raw)%nat then
        match D_OnData (take n (drop pos raw)) s with
        | Some (r, s) => Some (s, (pos + r)%nat)
        | None => None
        end
      else Some w
  | DvBuckets ns more fb k =>
      let n := list_sum ns in
      if d_eof_pending s ||
         d_input s && forallb (fun n => 0 <? n)%nat ns && (d_parsed_input s <=? n)%nat &&
         (pos + n <=? length raw)%nat && (more || (pos + n =? length raw)%nat) && implb fb more
      then bucket_step (cut ns (drop pos raw)) more fb k w
      else Some w
  | DvDefer => if d_eof_pending s then option_map (fun r => (r.2, pos)) (DeferredEof s) else Some w
  | DvEof => if d_input s && (pos =? length raw)%nat
             then option_map (fun r => (r.2, pos)) (D_OnEnd s) else Some w
  | DvError => if d_input s then option_map (fun r => (r.2, pos)) (D_OnEnd s) else Some w
  | DvClose => option_map (fun r => (r.2, pos)) (D_Destroy Closed s)
  end.

Fixpoint D_run (es : list dechunk_event) (w : dechunk_world) : option dechunk_world :=
  match es with
  | [] => Some w
  | e :: es => match D_step e w with Some w => D_run es w | None => None end
  end.

(** The lists of several buckets for which [IstreamBucketReader::Skip()] is right: after the new
    buckets are parsed, no header ends where a bucket ends, nor goes on in the next one. *)
Definition skips_right (ns : list nat) (more fb : bool) (w : dechunk_world) : Prop :=
  let '(s, pos) := w in
  let bs := cut ns (drop pos raw) in
  match fill_parse bs (d_parsed_input s) (if fb then EnableFallback IstreamBucketList_new else IstreamBucketList_new) s with
  | Some (inl _, s1) => headers_inside (d_chunks s1) bs 0 = true
  | _ => True
  end.

Fixpoint tidy (es : list dechunk_event) (w : dechunk_world) : Prop :=
  match es with
  | [] => True
  | e :: es =>
      match e with DvBuckets ns more fb _ => skips_right ns more fb w | _ => True end /\
      match D_step e w with Some w => tidy es w | None => True end
  end.

Lemma D_run_app es es' w :
  D_run (es ++ es') w = match D_run es w with Some w => D_run es' w | None => None end.
Proof. revert w. induction es as [|e es IH]; intros w; [done|]. cbn [D_run app]. by destruct (D_step e w). Qed.

(** ** The invariant *)

(** The stream ends before its end chunk. *)
Definition premature : Prop :=
  exists D p rest, dechunk HttpChunkParser_new raw = Decoded D p rest /\ state p <> END.

(** What the [DechunkHandler] is going to answer at the end. *)
Context (a : DechunkInputAction).

(** The end chunk was found, all data was delivered, and an input that is given back is
    positioned right behind the end chunk. *)
Definition finished (s : DechunkIstream) (pos : nat) : Prop :=
  exists p rest, dechunk HttpChunkParser_new raw = Decoded (output s) p rest /\ state p = END /\
    (a = ABANDON -> rest = drop pos raw).

(** The istream reports the end as soon as it has submitted the last chunk. *)
Definition live (s : DechunkIstream) (pos : nat) : Prop :=
  core raw s pos /\ (ended s -> d_chunks s <> []) /\ d_action s = a.

Definition good (err : bool) (s : DechunkIstream) (pos : nat) : Prop :=
  output s `prefix_of` decoded raw /\
  match k_life (d_sink s) with
  | Alive =>
      if d_input s then live s pos /\ d_eof_pending s = false
      else d_eof_pending s = true /\ ended s /\ finished s pos
  | AtEof => finished s pos
  | AtError => err = true \/ malformed raw \/ premature
  | Closed => True
  end.

Lemma core_finished s pos : core raw s pos -> d_chunks s = [] -> d_pending_header s = 0%nat -> ended s ->
  dechunk HttpChunkParser_new raw = Decoded (output s) (d_parser s) (drop pos raw).
Proof.
  intros [Hs _ (Hf & Hd & _)] Hc Hp He. rewrite Hc, Hp in Hs. unfold csum in Hs. simpl in Hs.
  rewrite <- Hs, Nat.add_0_r, Hc in Hd. simpl in Hd. rewrite app_nil_r in Hd.
  rewrite <- (take_drop pos raw) at 1. rewrite (dechunk_app _ _ _ _ _ Hd), dechunk_end by done. simpl.
  by rewrite app_nil_r.
Qed.

(** All of the stream has been parsed. *)
Lemma core_premature s pos : core raw s pos -> (length raw <= pos + d_parsed_input s)%nat -> ~ ended s -> premature.
Proof.
  intros [_ _ (_ & Hd & _)] Hl He. rewrite take_ge in Hd by lia. by eexists _, _, _.
Qed.

Lemma live_good s pos : live s pos -> d_alive s = true -> d_input s = true -> d_eof_pending s = false ->
  forall err, good err s pos.
Proof.
  intros Hc Ha Hi He err. split; [eapply core_prefix, Hc|]. apply alive_true in Ha. rewrite Ha, Hi. done.
Qed.

(** ** [OnData()] *)

Lemma D_OnData_wp src s pos err :
  live s pos -> d_alive s = true -> d_input s = true -> d_eof_pending s = false ->
  src `prefix_of` drop pos raw ->
  wp (D_OnData src) (fun r s' => good err s' (pos + r) /\ (r <= length src)%nat /\
    forall m, generous raw (length src + m) (d_sink s) ->
      malformed raw \/ d_alive s' = true /\ generous raw m (d_sink s') /\ (d_input s' = true -> r = length src)) s.
Proof.
  intros (Hc & _ & Hact) Ha Hi He Hsrc. unfold D_OnData. wp_step.
  eapply wp_mono; [apply (OnData_loop_wp raw); [exact Hc|done|done|lia]|].
  intros [q o] s' ((Hi' & He' & Ha') & Hpre & Ho). rewrite Hi in Hi'. rewrite He in He'. rewrite Hact in Ha'.
  destruct o as [src'|].
  2: { destruct Ho as [Hl Hg]. assert (G : good err s' (pos + 0)).
       { split; [done|]. destruct Hl as [->|[-> ?]]; [done|]. by right; left. }
       destruct q; wp_step; (split; [done|]; split; [lia|]; intros m Hm; left; by eapply Hg). }
  cbv zeta in Ho. destruct Ho as (Hs' & Hc' & Hal & Hcase & Hg).
  assert (Hle : (length src - length src' <= length src)%nat) by lia.
  pose proof (fun H => live_good _ _ (conj Hc' (conj H Ha')) Hal Hi' He' err) as Hgood.
  assert (Hgen : forall m, generous raw (length src + m) (d_sink s) -> generous raw m (d_sink s')).
  { intros m Hm. destruct (Hg m Hm) as [_ ?]. by eapply generous_le; [|done]; lia. }
  destruct Hcase as [[-> ?]|[Hq Hcase]].
  { wp_step. split; [by apply Hgood|]. split; [done|]. intros m Hm. by destruct (Hg m Hm). }
  apply wp_mono with (Q := fun r s'' => good err s'' (pos + r) /\ (r <= length src)%nat /\
     d_alive s'' = true /\ d_sink s'' = d_sink s' /\ (d_input s'' = true -> r = length src)).
  2: { intros r s'' (? & ? & ? & Hk & ?). split; [done|]. split; [done|]. intros m Hm. right.
       split; [done|]. split; [rewrite Hk; by apply Hgen|done]. }
  assert (Hrest : wp (let! s := mget in
      let! keep := (if bool_decide (d_chunks s = []) && HasEnded (d_parser s)
                    then let! action := EofDetected in mret (bool_decide (action = ABANDON))
                    else mret true) in
      mret (if keep then (length src - length src')%nat else 0%nat))
    (fun r s'' => good err s'' (pos + r) /\ (r <= length src)%nat /\
     d_alive s'' = true /\ d_sink s'' = d_sink s' /\ (d_input s'' = true -> r = length src)) s').
  { do 3 wp_step. destruct (bool_decide (d_chunks s' = []) && HasEnded (d_parser s')) eqn:Eb.
    - apply andb_true_iff in Eb as [Ech Eend]. apply bool_decide_eq_true in Ech.
      assert (ended s') by (by apply bool_decide_eq_true in Eend). destruct Hcase as [[? _]|(_ & Hp & _)]; [done|]. unfold EofDetected, InvokeDechunkEnd.
      do 6 wp_step. wp_step; [done|]. wp_step. wp_step; [done|].
      do 5 wp_step. split; [|split; [case_bool_decide; lia|done]].
      split; [done|]. simpl. apply alive_true in Hal. rewrite Hal. split; [done|]. split; [done|].
      eexists _, _. split; [by eapply (core_finished s')|]. split; [done|]. simpl. rewrite Ha'. by intros ->.
    - do 2 wp_step. assert (Hlive : ended s' -> d_chunks s' <> []).
      { intros H1 H2. rewrite H2, bool_decide_eq_true_2 in Eb by done. by apply bool_decide_eq_false in Eb. }
      split; [by apply Hgood|]. split; [done|]. split; [done|]. split; [done|]. intros _.
      destruct Hcase as [[_ ->]|(E & _ & [->|Hend])]; [simpl; lia|simpl; lia|]. by apply Hlive in E. }
  destruct q; done.
Qed.

(** ** Bucket lists *)

(** A bucket is not empty. *)
Definition filled (bs : list (list Z)) : Prop := Forall (fun b => b <> []) bs.

Lemma cut_concat ns : forall x, concat (cut ns x) = take (list_sum ns) x.
Proof.
  induction ns as [|n ns IH]; intros x; [by rewrite take_0|]. cbn [cut concat list_sum fold_right].
  rewrite IH, <- (take_take_drop x n). done.
Qed.

Lemma cut_filled ns : forall x, Forall (fun n => (0 < n)%nat) ns -> (list_sum ns <= length x)%nat -> filled (cut ns x).
Proof.
  induction ns as [|n ns IH]; intros x Hn Hl; [constructor|]. apply Forall_cons in Hn as [H0 Hn]. simpl in Hl.
  constructor; [|apply IH; [done|rewrite length_drop; lia]]. intros E. apply (f_equal length) in E.
  rewrite length_take in E. simpl in E. lia.
Qed.

Lemma drop_ne x o : (o < length x)%nat -> drop o x <> ([] : list Z).
Proof. intros H E. apply (f_equal length) in E. rewrite length_drop in E. simpl in E. lia. Qed.

Lemma filled_length b bs : filled (b :: bs) -> (0 < length b)%nat.
Proof. intros [H _]%Forall_cons. destruct b; [done|simpl; lia]. Qed.

Lemma reader_at_0 bs : filled bs -> reader_at bs 0 = (bs, 0%nat).
Proof.
  intros H. destruct bs as [|b bs]; [done|]. apply filled_length in H. cbn [reader_at].
  by rewrite (proj2 (Nat.leb_gt _ _)) by lia.
Qed.

(** The bucket [b] in which the offset lies, and how the reader goes on from it. *)
Lemma reader_at_spec bs : forall o, filled bs -> (o < length (concat bs))%nat ->
  exists b bs' p, reader_at bs o = (b :: bs', p) /\ (p < length b)%nat /\ filled bs' /\
    drop o (concat bs) = drop p b ++ concat bs' /\
    forall n, reader_at bs (o + n) = if (length b <=? p + n)%nat then reader_at bs' (p + n - length b) else (b :: bs', (p + n)%nat).
Proof.
  induction bs as [|b bs IH]; intros o Hb Ho; [simpl in Ho; lia|]. pose proof Hb as [Hb0 Hbs]%Forall_cons.
  cbn [reader_at concat] in *. rewrite length_app in Ho. destruct (Nat.leb_spec (length b) o) as [Hge|Hlt].
  - destruct (IH (o - length b)%nat Hbs ltac:(lia)) as (b1 & bs1 & p & E & Hp & Hf & Hd & Hn). exists b1, bs1, p.
    split_and!; [done..| |].
    + rewrite drop_app_ge by lia. exact Hd.
    + intros n. rewrite (proj2 (Nat.leb_le _ _)) by lia. rewrite <- Hn. f_equal. lia.
  - exists b, bs, o. split_and!; try done. by rewrite drop_app_le by lia.
Qed.

Lemma Skip_at bs o n : filled bs -> (o + n <= length (concat bs))%nat ->
  match reader_at bs o with
  | (b :: bs', p) => (n =? 0)%nat || (p + n <? length b)%nat || bool_decide (bs' = [])
  | ([], _) => true
  end = true ->
  Skip (reader_at bs o).1 (reader_at bs o).2 n 0 = Some (n, reader_at bs (o + n)).
Proof.
  intros Hb Hl Hi. destruct n as [|n].
  { rewrite Nat.add_0_r. by destruct (reader_at bs o) as [[|] ?]. }
  destruct (reader_at_spec bs o Hb ltac:(lia)) as (b & bs' & p & E & Hp & _ & Hd & Hn). rewrite E in *. rewrite Hn. simpl.
  rewrite bool_decide_eq_false_2 by (by apply drop_ne). rewrite length_drop.
  assert (Hlen : length (drop o (concat bs)) = (length b - p + length (concat bs'))%nat)
    by (by rewrite Hd, length_app, length_drop).
  rewrite length_drop in Hlen. simpl in Hi. apply orb_true_iff in Hi as [Hi|Hi].
  - apply Nat.ltb_lt in Hi. rewrite !(proj2 (Nat.leb_gt _ _)) by lia. done.
  - apply bool_decide_eq_true in Hi as ->. simpl in Hlen. destruct (Nat.leb_spec (length b - p) (S n)).
    + rewrite (proj2 (Nat.leb_le _ _)) by lia. simpl. do 2 f_equal. lia.
    + rewrite (proj2 (Nat.leb_gt _ _)) by lia. done.
Qed.

Lemma ReadSome_at bs o n : filled bs -> (o < length (concat bs))%nat -> (0 < n)%nat ->
  exists d, ReadSome n (reader_at bs o) = Some (d, reader_at bs (o + length d)) /\ (0 < length d <= n)%nat /\
    take (length d) (drop o (concat bs)) = d.
Proof.
  intros Hb Hl Hn. destruct n as [|n]; [lia|].
  destruct (reader_at_spec bs o Hb Hl) as (b & bs' & p & E & Hp & Hf & Hd & Ha). rewrite E. simpl ReadSome.
  rewrite bool_decide_eq_false_2 by (by apply drop_ne). rewrite length_drop.
  destruct (Nat.leb_spec (length b - p) (S n)).
  - exists (drop p b). rewrite Ha, Hd, length_drop, (proj2 (Nat.leb_le _ _)) by lia.
    replace (p + (length b - p) - length b)%nat with 0%nat by lia. rewrite reader_at_0 by done. split_and!; [done|lia|lia|].
    rewrite take_app_le by (rewrite length_drop; lia). by rewrite take_ge by (rewrite length_drop; lia).
  - exists (take (S n) (drop p b)).
    assert (El : length (take (S n) (drop p b)) = S n) by (rewrite length_take, length_drop; lia).
    rewrite El, Ha, Hd, (proj2 (Nat.leb_gt _ _)) by lia. split_and!; [done|lia|lia|].
    by rewrite take_app_le by (rewrite length_drop; lia).
Qed.

(** [y] is pushed, as far as there is room in the list. *)
Definition pushed (l : IstreamBucketList) (y : list Z) (l' : IstreamBucketList) : Prop :=
  exists z, concat (buckets l') = concat (buckets l) ++ z /\ z `prefix_of` y /\ (z = y \/ IsFull l' = true) /\
    (IsFull l = true -> buckets l' = buckets l).

Lemma pushed_nil l : pushed l [] l.
Proof. exists []. rewrite app_nil_r. split_and!; try done. by left. Qed.

Lemma pushed_app l y l1 y' l' : pushed l y l1 -> pushed l1 y' l' -> pushed l (y ++ y') l'.
Proof.
  intros (z & E & Hz & Hc & Hf) (z' & E' & Hz' & Hc' & Hf').
  assert (Hfull : IsFull l = true -> buckets l' = buckets l).
  { intros Hl. rewrite <- (Hf Hl). apply Hf'. unfold IsFull in *. by rewrite (Hf Hl). }
  destruct Hc as [->|Hc].
  - exists (y ++ z'). split_and!; [by rewrite E', E, app_assoc|by apply prefix_app| |done].
    destruct Hc' as [->|?]; [by left|by right].
  - specialize (Hf' Hc). exists z. split_and!; [by rewrite Hf'|by apply prefix_app_r| |done].
    right. unfold IsFull in *. by rewrite Hf'.
Qed.

Lemma Push_pushed d l : pushed l d (Push d l).
Proof.
  unfold pushed, Push. destruct (IsFull l) eqn:E.
  - exists []. rewrite app_nil_r. split_and!; try done; [apply prefix_nil|by right].
  - exists d. simpl. rewrite concat_app. simpl. rewrite app_nil_r. split_and!; try done. by left.
Qed.

Lemma fill_data_at bs fuel : forall o n l, filled bs -> (n <= fuel)%nat -> (o + n <= length (concat bs))%nat ->
  exists l', fill_data fuel n (reader_at bs o) l = Some (reader_at bs (o + n), l') /\
    pushed l (take n (drop o (concat bs))) l'.
Proof.
  induction fuel as [|fuel IH]; intros o n l Hb Hf Hl; (destruct n as [|n]; [|try lia]).
  1,2: exists l; rewrite Nat.add_0_r, take_0; split; [done|apply pushed_nil].
  destruct (ReadSome_at bs o (S n) Hb ltac:(lia) ltac:(lia)) as (d & E & Hd & Ht).
  cbn [fill_data]. rewrite E. destruct (IH (o + length d)%nat (S n - length d)%nat (Push d l)) as (l' & E' & Hp); [done|lia|lia|].
  exists l'. destruct d as [|z d]; [simpl in Hd; lia|]. rewrite E'. split; [do 3 f_equal; lia|].
  replace (S n) with (length (z :: d) + (S n - length (z :: d)))%nat at 1 by lia.
  rewrite <- (take_take_drop (drop o (concat bs)) (length (z :: d))), Ht, drop_drop.
  eapply pushed_app; [apply Push_pushed|done].
Qed.

Lemma fill_chunks_at bs cs : forall o l, filled bs -> Forall (fun c => (0 < c.1 + c.2)%nat) cs ->
  (o + csum cs <= length (concat bs))%nat -> headers_inside cs bs o = true ->
  exists l', fill_chunks cs (reader_at bs o) l = Some l' /\ pushed l (picks cs (drop o (concat bs))) l'.
Proof.
  induction cs as [|[h d] cs IH]; intros o l Hb Hcs Hl Hi.
  { exists l. split; [done|apply pushed_nil]. }
  apply Forall_cons in Hcs as [H0 Hcs]. unfold csum in Hl. simpl in H0, Hl. fold (csum cs) in Hl.
  cbn [headers_inside] in Hi. apply andb_true_iff in Hi as [Hh Hi].
  cbn [fill_chunks]. replace ((0 <? h)%nat || (0 <? d)%nat) with true
    by (symmetry; apply orb_true_iff; rewrite !Nat.ltb_lt; lia). cbn [negb].
  rewrite (Skip_at bs o h Hb ltac:(lia) Hh), Nat.ltb_irrefl.
  destruct (fill_data_at bs d (o + h) d l Hb) as (l2 & -> & Hp2); [lia|lia|].
  destruct (IH (o + h + d)%nat l2) as (l3 & -> & Hp3); [done|done|unfold csum in *; lia|done|].
  exists l3. split; [done|]. cbn [picks]. rewrite !drop_drop, (Nat.add_assoc o). by eapply pushed_app.
Qed.

Lemma consume_parsed_spec x cs n H C : chunks_ok cs -> (csum cs <= length x)%nat -> (n <= length (picks cs x))%nat ->
  exists h cs', consume_parsed cs n H C = Some ((H + h)%nat, (C + n)%nat, cs') /\ chunks_ok cs' /\
    (csum cs' + (h + n) = csum cs)%nat /\ picks cs x = take n (picks cs x) ++ picks cs' (drop (h + n) x).
Proof.
  revert x n H C. induction cs as [|[h d] cs IH]; intros x n H C Hok Hl Hn.
  { exists 0%nat, []. simpl in Hn |- *. assert (n = 0%nat) as -> by lia. rewrite !Nat.add_0_r. done. }
  pose proof Hok as Hok2. apply chunks_ok_cons in Hok as (H0 & Hlen & Hcs). simpl in H0.
  unfold csum in Hl. simpl in Hl. fold (csum cs) in Hl.
  cbn [consume_parsed]. replace ((0 <? h)%nat || (0 <? d)%nat) with true
    by (symmetry; apply orb_true_iff; rewrite !Nat.ltb_lt; lia). cbn [negb].
  assert (Hd : length (take d (drop h x)) = d) by (rewrite length_take, length_drop; lia).
  destruct (Nat.ltb_spec n d) as [Hlt|Hge].
  - exists h, ((0, d - n)%nat :: cs). split; [done|]. split; [apply chunks_ok_cons; simpl; split; [lia|done]|].
    split; [unfold csum; simpl; lia|]. rewrite <- (drop_drop x n h). rewrite <- (picks_skip h d h) by lia.
    rewrite Nat.sub_diag, <- (picks_take d n) at 1 by lia. f_equal.
    cbn [picks]. rewrite take_app_le by (rewrite length_take, !length_drop; lia).
    rewrite Nat.sub_diag, drop_0, take_take. by replace (Nat.min n d) with n by lia.
  - destruct (IH (drop (h + d) x) (n - d)%nat (H + h)%nat (C + d)%nat) as (h' & cs' & -> & Hok' & Hs' & Hp').
    + split; [done|lia].
    + rewrite length_drop. unfold csum in *. lia.
    + cbn [picks] in Hn. rewrite length_app, Hd in Hn. lia.
    + exists (h + h')%nat, cs'. split; [do 3 f_equal; lia|]. split; [done|]. split; [unfold csum in *; simpl; lia|].
      cbn [picks]. rewrite take_app, Hd, (take_ge (take d (drop h x))) by lia. rewrite <- app_assoc. f_equal.
      rewrite Hp' at 1. f_equal. rewrite drop_drop. do 2 f_equal. lia.
Qed.

(** What [_FillBucketList()] relies on: the bucket begins with what has been parsed. *)
Definition offered (x : list Z) (s : DechunkIstream) (pos : nat) : Prop :=
  live s pos /\ x `prefix_of` drop pos raw /\ (d_parsed_input s <= length x)%nat.

Lemma fill_parse_wp x tmp : forall m s pos l, offered x s pos -> drop m x = concat tmp ->
  (m <= d_parsed_input s)%nat ->
  wp (fill_parse tmp (d_parsed_input s - m) l)
    (fun r s' => same s s' /\ match r with
     | inr e => malformed raw
     | inl l' => offered x s' pos /\ buckets l' = buckets l /\
                 (HasMore l' = false -> ended s' \/ d_parsed_input s' = length x)
     end) s.
Proof.
  induction tmp as [|b tmp IH]; intros m s pos l (Hc & Hx & Hl) Hm Hle; cbn [fill_parse].
  { wp_step. split; [apply same_refl|]. split; [done|]. split; [done|]. right.
    apply (f_equal length) in Hm. rewrite length_drop in Hm. simpl in Hm. lia. }
  cbn [concat] in Hm. assert (Hlen : (length x - m = length b + length (concat tmp))%nat)
    by (rewrite <- length_drop, Hm, length_app; done).
  assert (Hm' : drop (m + length b) x = concat tmp) by (by rewrite <- drop_drop, Hm, drop_app_length).
  destruct (Nat.leb_spec (length b) (d_parsed_input s - m)) as [Hge|Hlt].
  { rewrite <- Nat.sub_add_distr. apply IH; [done|done|lia]. }
  set (skip := (d_parsed_input s - m)%nat) in *.
  wp_step. eapply wp_mono; [apply (ParseInput_wp raw); [apply Hc|]|].
  { rewrite <- drop_drop. destruct Hx as [y ->]. rewrite drop_app_le by done.
    replace (d_parsed_input s) with (m + skip)%nat by lia. rewrite <- drop_drop, Hm, drop_app_le by lia.
    rewrite <- app_assoc. by eexists. }
  intros r s1 Hr. rewrite length_drop in Hr. destruct (HasEnded (d_parser s)) eqn:Ee.
  { destruct Hr as [-> ->]. do 3 wp_step. rewrite Ee. split; [apply same_refl|]. split; [done|]. split; [done|].
    left. by apply bool_decide_eq_true in Ee. }
  pose proof (parsed_chunks _ _ _ _ _ _ Hr) as Hne. destruct Hr as [Hs Hr].
  assert (Hnz : (length b - skip)%nat <> 0%nat) by lia. specialize (Hne Hnz).
  assert (d_action s1 = d_action s) by apply Hs. assert (d_action s = a) by apply Hc.
  destruct r as [| |e].
  - destruct Hr as (? & ? & Hp & _). replace 0%nat with (d_parsed_input s1 - (m + length b))%nat by lia.
    eapply wp_mono; [apply (IH (m + length b)%nat s1 pos l)|]; [|done|lia|].
    + split; [split; [done|split; [done|congruence]]|split; [done|lia]].
    + intros r s2 [Hs2 Hr]. split; [by eapply same_trans|done].
  - destruct Hr as (? & ? & _). do 3 wp_step. split; [done|]. split; [split; [split; [done|split; [done|congruence]]|split; [done|lia]]|].
    destruct (HasEnded (d_parser s1)) eqn:E1; (split; [done|]); [|done].
    left. by apply bool_decide_eq_true in E1.
  - wp_step. split; [done|]. destruct Hr as (D & ? & _). by exists D, e.
Qed.

Lemma D_FillBucketList_wp ns more0 fb s pos : let bs := cut ns (drop pos raw) in
  offered (concat bs) s pos -> filled bs -> skips_right ns more0 fb (s, pos) -> d_eof_pending s = false ->
  d_alive s = true -> (more0 = true \/ (length raw <= pos + length (concat bs))%nat) ->
  wp (D_FillBucketList (mk_buckets bs more0 fb) IstreamBucketList_new)
    (fun r s' => match r with
     | inr _ => (malformed raw \/ premature) /\ output s' = output s
     | inl l => same s s' /\ offered (concat bs) s' pos /\ concat (buckets l) `prefix_of` picks (d_chunks s') (drop pos raw)
     end) s.
Proof.
  intros bs Hof Hf Hskip He Ha Hmore. unfold D_FillBucketList. do 2 wp_step. rewrite He. wp_step.
  unfold skips_right in Hskip. fold bs in Hskip. cbn [buckets ShouldFallback fallback].
  set (l0 := if fb then _ else _) in *.
  destruct (fill_parse_wp (concat bs) bs 0 s pos l0 Hof eq_refl ltac:(lia)) as (r & s1 & E & Hs & H).
  rewrite Nat.sub_0_r in E. rewrite E in Hskip. exists r, s1. split; [exact E|]. destruct r as [l|e].
  2: { do 1 wp_step. apply D_Destroy_wp; [unfold d_alive; destruct Hs as [-> _]; done|]. wp_step.
       split; [by left|]. unfold output. simpl. by destruct Hs as [-> _]. }
  destruct H as (Hof1 & Hb & Hp). do 2 wp_step.
  destruct (_ && negb (HasMore l)) eqn:E0.
  { wp_step. apply andb_true_iff in E0 as [[E1 E2]%andb_true_iff E3]. apply negb_true_iff in E1, E2, E3.
    assert (Hend : ~ ended s1) by (by apply bool_decide_eq_false in E1).
    split; [|unfold output; by destruct Hs as [-> _]]. right.
    apply (core_premature s1 pos); [apply Hof1| |done]. simpl in E2. subst more0.
    destruct Hmore as [?|Hm]; [done|]. destruct (Hp E3) as [?| ->]; done. }
  wp_step. pose proof Hof1 as ([Hc1 _] & Hx & Hl). pose proof (c_sum _ _ _ Hc1) as Hsum.
  pose proof (c_chunks _ _ _ Hc1) as [Hcs _].
  match goal with |- context [fill_chunks _ _ ?l1] =>
    destruct (fill_chunks_at bs (d_chunks s1) 0 l1 Hf Hcs ltac:(lia) Hskip) as (l' & El & z & Hcat & Hz & _);
    replace (concat (buckets l1)) with (@nil Z) in Hcat
      by (destruct (HasEnded _); simpl; rewrite Hb; unfold l0; by destruct fb)
  end.
  rewrite reader_at_0 in El by done. wp_step; [exact El|]. wp_step. split; [done|]. split; [done|].
  rewrite Hcat, drop_0 in *. destruct Hx as [y ->]. simpl. by rewrite picks_prefix by lia.
Qed.

(** [_ConsumeBucketList()] after [_FillBucketList()]. *)
Lemma D_ConsumeBucketList_wp x s pos k : offered x s pos -> d_eof_pending s = false -> d_input s = true ->
  let D := picks (d_chunks s) (drop pos raw) in
  (k <= length D)%nat ->
  wp (D_ConsumeBucketList k)
    (fun r s' => let '(taken, consumed, eof) := r in
       (taken <= length x)%nat /\ consumed = k /\ d_sink s' = d_sink s /\ d_eof_pending s' = false /\
       forall l, let s2 := receive (take k D) l s' in
       core raw s2 (pos + taken) /\
       if eof : bool then finished s2 (pos + taken) else d_input s' = true /\ live s2 (pos + taken)) s.
Proof.
  intros ((Hc & _ & Hact) & Hx & Hl) He Hi D Hk. unfold D_ConsumeBucketList. do 2 wp_step. rewrite He. wp_step.
  pose proof Hc as [Hsum Hok Hsem].
  assert (Hraw : (d_parsed_input s <= length (drop pos raw))%nat).
  { destruct Hsem as [Hf _]. rewrite length_drop. lia. }
  destruct (consume_parsed_spec (drop pos raw) (d_chunks s) k 0 0) as (h & cs & E & Hok' & Hs' & Hp'); [done|lia|done|].
  wp_step; [exact E|]. simpl. do 5 wp_step.
  set (ph := if bool_decide (cs = []) then d_pending_header s else 0%nat).
  apply wp_mono with (Q := fun _ s1 => s1 = set_pending_header (d_pending_header s - ph) (set_chunks cs s)).
  { unfold ph. case_bool_decide; wp_step; destruct s; unfold set_pending_header, set_chunks; simpl;
      rewrite ?Nat.sub_diag, ?Nat.sub_0_r; done. }
  intros _ s1 ->. simpl.
  replace (if bool_decide (cs = []) then (h + d_pending_header s)%nat else h) with (h + ph)%nat
    by (unfold ph; case_bool_decide; lia).
  assert (Hph : (ph <= d_pending_header s)%nat) by (unfold ph; case_bool_decide; lia).
  wp_step. apply sub_parsed_input_wp; [simpl; lia|]. do 2 wp_step. simpl.
  set (s2 := set_parsed_input _ _).
  assert (Hcore : forall l s3, d_parser s3 = d_parser s2 -> d_parsed_input s3 = d_parsed_input s2 ->
     d_pending_header s3 = d_pending_header s2 -> d_chunks s3 = cs -> d_sink s3 = d_sink s ->
     core raw (receive (take k D) l s3) (pos + (h + ph + k))).
  { intros l s3 E1 E2 E3 E4 E5. constructor; simpl; rewrite ?E1, ?E2, ?E3, ?E4; simpl; [lia|done|].
    unfold output in *. simpl. rewrite E5, <- app_assoc.
    replace (take k D ++ picks cs (drop (pos + (h + ph + k)) raw)) with D.
    - by replace (pos + (h + ph + k) + (d_parsed_input s - (h + ph + k)))%nat with (pos + d_parsed_input s)%nat by lia.
    - unfold D. rewrite Hp' at 1. f_equal. rewrite drop_drop. unfold ph. case_bool_decide as Ecs; [by rewrite Ecs|].
      do 2 f_equal. lia. }
  destruct (bool_decide (cs = []) && HasEnded (d_parser s)) eqn:Eb.
  - apply andb_true_iff in Eb as [Ech Eend]. unfold InvokeDechunkEnd. do 5 wp_step.
    wp_step; [done|]. wp_step. wp_step; [done|]. do 5 wp_step. simpl.
    split; [lia|]. split; [done|]. split; [done|]. split; [done|]. intros l.
    assert (C : core raw (receive (take k D) l (set_d_input false s2)) (pos + (h + ph + k))) by (by apply Hcore).
    split; [done|]. apply bool_decide_eq_true in Ech, Eend. exists (d_parser s), (drop (pos + (h + ph + k)) raw).
    split; [|by split]. apply (core_finished _ _ C); [done| |done]. simpl. unfold ph.
    rewrite bool_decide_eq_true_2 by exact Ech. lia.
  - do 3 wp_step. simpl. split; [lia|]. split; [done|]. split; [done|]. split; [done|]. intros l.
    split; [by apply Hcore|]. split; [done|]. split; [by apply Hcore|]. split; [|done]. intros H1 H2. simpl in H2.
    rewrite H2, bool_decide_eq_true_2 in Eb by done. by apply bool_decide_eq_false in Eb.
Qed.

(** ** Runs *)

Lemma wp_Some {A} (m : M DechunkIstream A) Q s : wp m Q s -> exists a s', m s = Some (a, s') /\ Q a s'.
Proof. done. Qed.

Lemma bucket_step_good ns more0 fb k s pos err : let bs := cut ns (drop pos raw) in
  offered (concat bs) s pos -> filled bs -> skips_right ns more0 fb (s, pos) -> d_eof_pending s = false -> d_input s = true ->
  d_alive s = true -> (more0 = true \/ (length raw <= pos + length (concat bs))%nat) ->
  exists s' pos', bucket_step bs more0 fb k (s, pos) = Some (s', pos') /\ good err s' pos'.
Proof.
  intros bs Hof Hf Hskip He Hi Ha Hm. unfold bucket_step.
  destruct (D_FillBucketList_wp ns more0 fb s pos) as ([l|e] & s1 & E1 & H1); try done; fold bs in E1; rewrite E1; clear E1.
  2: { eexists _, _. split; [done|]. destruct H1 as [H1 Ho]. unfold good. simpl. split; [|by right].
       unfold output in *. simpl. rewrite Ho. destruct Hof as [[Hc _] _]. by apply core_prefix in Hc. }
  destruct H1 as ((Hk & Hi1 & He1 & _) & Hof1 & Hcat). rewrite Hi in Hi1. rewrite He in He1.
  assert (Ha1 : d_alive s1 = true) by (unfold d_alive; by rewrite Hk).
  destruct k as [k|].
  2: { eexists _, _. split; [done|]. by apply live_good; [apply Hof1|..]. }
  set (n := Nat.min k (length (concat (buckets l)))).
  set (D := picks (d_chunks s1) (drop pos raw)) in *. pose proof (prefix_length _ _ Hcat) as HlD.
  assert (Htake : take n (concat (buckets l)) = take n D).
  { destruct Hcat as [y ->]. by rewrite take_app_le by lia. }
  rewrite Htake. destruct (D_ConsumeBucketList_wp (concat bs) s1 pos n) as ([[taken consumed] eof] & s2 & E & H2); try done.
  { unfold n. fold D. lia. }
  rewrite E. destruct H2 as (Ht & -> & Hk2 & He2 & H2). fold bs.
  apply Nat.leb_le in Ht. rewrite Ht, Nat.eqb_refl. simpl. eexists _, _. split; [done|].
  destruct (H2 (if eof then AtEof else Alive)) as [Hcore Hfin]. split; [by eapply core_prefix|].
  destruct eof; simpl; [done|]. by destruct Hfin as [-> ?].
Qed.

Lemma core_at_end s pos : core raw s pos -> pos = length raw -> d_chunks s = [].
Proof.
  intros [Hs [Hok _] (Hf & _)] ->. destruct (d_chunks s) as [|c cs]; [done|]. apply Forall_cons in Hok as [H0 _].
  unfold csum in Hs. simpl in Hs. lia.
Qed.

(** Errors of the input count as errors from that event on. *)
Definition is_error (e : dechunk_event) : bool := bool_decide (e = DvError).

Lemma OnEnd_good err s pos : good err s pos -> d_alive s = true -> d_input s = true ->
  err = true \/ pos = length raw ->
  exists s', D_OnEnd s = Some (tt, s') /\ good err s' pos.
Proof.
  intros [Hp Hg] Ha Hi Hend. pose proof Ha as Ha'. apply alive_true in Ha'. rewrite Ha', Hi in Hg.
  destruct Hg as [(Hc & Hne & _) He].
  cut (wp D_OnEnd (fun _ s' => good err s' pos) s).
  { intros ([] & s' & E & H). by exists s'. }
  unfold D_OnEnd. do 4 wp_step. simpl. rewrite He. apply D_Destroy_wp; [done|]. split; [done|]. simpl.
  destruct Hend as [->|Hpos]; [by left|]. right.
  right. apply (core_premature s pos Hc); [lia|]. intros Hend. by apply (Hne Hend), (core_at_end _ pos Hc).
Qed.

Lemma good_mono err b s pos : good err s pos -> good (err || b) s pos.
Proof.
  intros [Hp Hg]. split; [done|]. destruct (k_life (d_sink s)); try done. destruct Hg as [->|?]; [by left|by right].
Qed.

Lemma take_prefix_raw n pos : take n (drop pos raw) `prefix_of` drop pos raw.
Proof. exists (drop n (drop pos raw)). by rewrite take_drop. Qed.

Lemma DeferredEof_good err s pos : good err s pos -> d_alive s = true -> d_eof_pending s = true ->
  exists s', DeferredEof s = Some (tt, s') /\ good err s' pos.
Proof.
  intros [Hp Hg] Ha He. cut (wp DeferredEof (fun _ s' => good err s' pos) s).
  { intros ([] & s' & E & H). by exists s'. }
  pose proof Ha as Ha'. apply alive_true in Ha'. rewrite Ha' in Hg.
  destruct (d_input s) eqn:Ei; [destruct Hg as [_ Hg]; congruence|]. destruct Hg as (_ & Hend & Hfin).
  unfold DeferredEof. do 3 wp_step. wp_step; [by apply bool_decide_eq_true|]. wp_step.
  wp_step; [by rewrite Ei|]. apply D_Destroy_wp; [done|]. split; [done|]. exact Hfin.
Qed.

Lemma DeferredEof_life s s' : DeferredEof s = Some (tt, s') -> k_life (d_sink s') = AtEof.
Proof.
  unfold DeferredEof, D_Destroy, DestroySink, mbnd, mget, massert, mopt, mret, mput. intros H.
  repeat case_match; simplify_eq; done.
Qed.

(** While the end is pending, the bucket list is empty, and consuming it is the end. *)
Lemma bucket_step_pending x more0 fb k err s pos : good err s pos -> d_alive s = true -> d_eof_pending s = true ->
  exists s' pos', bucket_step x more0 fb k (s, pos) = Some (s', pos') /\ good err s' pos'.
Proof.
  intros Hg Ha He. unfold bucket_step, D_FillBucketList, mbnd, mget. rewrite He. unfold mret.
  destruct k as [k|]; [|by eexists _, _].
  simpl. rewrite Nat.min_0_r. unfold D_ConsumeBucketList, mbnd, mget. rewrite He. unfold mret. simpl.
  eexists _, _. split; [done|]. rewrite Nat.add_0_r. destruct Hg as [Hp Hg].
  apply alive_true in Ha. rewrite Ha in Hg. destruct (d_input s) eqn:Ei; [destruct Hg as [_ ?]; congruence|].
  destruct Hg as (_ & _ & p & rest & Hf). unfold good, receive, finished, output in *. simpl.
  rewrite app_nil_r. split; [done|]. by exists p, rest.
Qed.

Lemma D_step_good e err s pos : good err s pos ->
  match e with DvBuckets ns more fb _ => skips_right ns more fb (s, pos) | _ => True end ->
  exists s' pos', D_step e (s, pos) = Some (s', pos') /\ good (err || is_error e) s' pos'.
Proof.
  intros Hg Hskip. pose proof (good_mono err (is_error e) s pos Hg) as Hgm. unfold D_step.
  destruct (d_alive s) eqn:Ha; cbn [negb]; [|by eexists _, _].
  assert (Hlive : d_input s = true -> live s pos /\ d_eof_pending s = false).
  { intros Hi. destruct Hg as [_ Hg]. pose proof Ha as Ha'. apply alive_true in Ha'. by rewrite Ha', Hi in Hg. }
  destruct e as [n|ns more0 fb k| | | |].
  - destruct (_ && _) eqn:E; [|by eexists _, _]. apply andb_true_iff in E as [[Hi Hn]%andb_true_iff Hl].
    destruct (Hlive Hi) as [Hc He].
    destruct (D_OnData_wp _ s pos err Hc Ha Hi He (take_prefix_raw n pos)) as (r & s' & -> & H & _).
    eexists _, _. split; [done|]. by apply good_mono.
  - match goal with |- context [if ?b then bucket_step _ _ _ _ _ else _] => destruct b eqn:E end; [|by eexists _, _].
    assert (exists s' pos', bucket_step (cut ns (drop pos raw)) more0 fb k (s, pos) = Some (s', pos') /\ good err s' pos')
      as (s' & pos' & -> & H); [|eexists _, _; split; [done|by apply good_mono]].
    destruct (d_eof_pending s) eqn:He; [by apply bucket_step_pending|]. simpl in E.
    apply andb_true_iff in E as [[[[[Hi Hpos]%andb_true_iff Hn]%andb_true_iff Hl]%andb_true_iff Hm]%andb_true_iff _].
    apply Nat.leb_le in Hn, Hl. apply orb_true_iff in Hm. rewrite Nat.eqb_eq in Hm.
    assert (Hlen : length (concat (cut ns (drop pos raw))) = list_sum ns) by (rewrite cut_concat, length_take, length_drop; lia).
    apply bucket_step_good; try done.
    + split; [by apply Hlive|]. split; [rewrite cut_concat; apply take_prefix_raw|]. lia.
    + apply cut_filled; [|rewrite length_drop; lia]. apply Forall_forall. intros n Hin. rewrite forallb_forall in Hpos.
      apply Nat.ltb_lt, Hpos. by apply list_elem_of_In.
    + rewrite Hlen. destruct Hm as [?|?]; [by left|right; lia].
  - destruct (d_eof_pending s) eqn:He; [|by eexists _, _].
    destruct (DeferredEof_good err s pos Hg Ha He) as (s' & -> & H). eexists _, _. split; [done|]. by apply good_mono.
  - destruct (_ && _) eqn:E; [|by eexists _, _]. apply andb_true_iff in E as [Hi Hn]. apply Nat.eqb_eq in Hn.
    destruct (OnEnd_good _ s pos Hgm Ha Hi) as (s' & -> & H); [by right|]. by eexists _, _.
  - destruct (d_input s) eqn:Hi; [|by eexists _, _].
    destruct (OnEnd_good _ s pos Hgm Ha Hi) as (s' & -> & H); [left; by rewrite orb_true_r|]. by eexists _, _.
  - destruct (D_Destroy_wp Closed s (fun _ s' => good err s' pos) Ha) as ([] & s' & -> & H).
    { destruct Hg as [Hp _]. by split. }
    eexists _, _. split; [done|]. by apply good_mono.
Qed.

Lemma D_run_good es err s pos : good err s pos -> tidy es (s, pos) ->
  exists s' pos', D_run es (s, pos) = Some (s', pos') /\ good (err || existsb is_error es) s' pos'.
Proof.
  revert err s pos. induction es as [|e es IH]; intros err s pos Hg Ht.
  { eexists _, _. split; [done|]. by rewrite orb_false_r. }
  cbn [tidy] in Ht. destruct Ht as [Hskip Ht].
  destruct (D_step_good e err s pos Hg Hskip) as (s1 & pos1 & E & H1). cbn [D_run existsb]. rewrite E in *.
  destruct (IH _ _ _ H1 Ht) as (s2 & pos2 & -> & H2). eexists _, _. split; [done|]. by rewrite orb_assoc.
Qed.

Lemma istream_dechunk_new_good h : good false (istream_dechunk_new a h) 0.
Proof.
  split; [by exists (decoded raw)|]. split; [|done]. split; [|done].
  constructor; [done|split; [constructor|unfold MAX_CHUNKS; simpl; lia]|].
  split; [simpl; lia|]. split; [done|]. by split.
Qed.

(** ** Theorems *)

(** With lists of at most one bucket, nothing can be skipped too far. *)
Definition one_bucket (e : dechunk_event) : Prop :=
  match e with DvBuckets ns _ _ _ => (length ns <= 1)%nat | _ => True end.

Lemma headers_inside_one cs b : forall o, headers_inside cs [b] o = true.
Proof.
  induction cs as [|[h d] cs IH]; intros o; [done|]. cbn [headers_inside]. rewrite IH, andb_true_r. simpl.
  destruct (_ <=? _)%nat; [done|]. by rewrite orb_true_r.
Qed.

Lemma one_bucket_tidy es : forall w, Forall one_bucket es -> tidy es w.
Proof.
  induction es as [|e es IH]; intros w H; [done|]. apply Forall_cons in H as [He H]. cbn [tidy]. split.
  2: { destruct (D_step e w); [by apply IH|done]. }
  destruct e as [|ns more fb k| | | |]; try done. destruct w as [s pos]. unfold skips_right.
  destruct (fill_parse _ _ _ s) as [[[l|?] s1]|]; try done.
  destruct ns as [|n [|]]; [|apply headers_inside_one|simpl in He; lia].
  generalize 0%nat. induction (d_chunks s1) as [|[h d] cs IHc]; intros o; [done|]. simpl. apply IHc.
Qed.

(** C9: Refinement: however the input cuts its data into pieces, whichever way the consumer reads,
    by data or by bucket lists, and however often it blocks, no assertion of DechunkIstream.cxx fails and no size
    underflows; what it delivers is a beginning of the data that [dechunk] finds in
    the stream; if it reports the end, then the end chunk was found and everything was delivered, and an
    input that is given back continues right behind the end chunk; and it only fails when the
    stream is malformed, ends before its end chunk, or the input fails.

    The input shows again what it has shown and was not consumed, says that it has no more only when it shows everything,
    and ends when everything was consumed; [D_step] ignores other events.  In a list of several buckets, no header may end
    where a bucket ends or go on in the next one ([tidy]; lists of one bucket always are, see
    [one_bucket_tidy]): there [IstreamBucketReader::Skip()] is wrong, see [Skip_too_much].
    After an exception of [_FillBucketList()], the consumer regards the istream as destroyed. *)
Theorem dechunk_istream_refines h es : tidy es (istream_dechunk_new a h, 0%nat) ->
  exists s pos, D_run es (istream_dechunk_new a h, 0%nat) = Some (s, pos) /\
    output s `prefix_of` decoded raw /\
    (k_life (d_sink s) = AtEof -> finished s pos) /\
    (k_life (d_sink s) = AtError -> DvError ∈ es \/ malformed raw \/ premature).
Proof.
  intros Ht. destruct (D_run_good es false (istream_dechunk_new a h) 0) as (s & pos & E & Hp & Hg); [|done|].
  { apply istream_dechunk_new_good. }
  exists s, pos. split; [done|]. split; [done|]. split; intros Hl; rewrite Hl in Hg; [done|].
  destruct Hg as [Hg|?]; [left|by right]. simpl in Hg. apply existsb_exists in Hg as (e & Hin & He).
  apply bool_decide_eq_true in He as ->. by apply list_elem_of_In.
Qed.

(** A stream with an end chunk, fed to a handler that never blocks. *)
Lemma D_run_feed ns s pos : ~ malformed raw -> good false s pos -> d_alive s = true -> Forall (fun n => (0 < n)%nat) ns ->
  (d_input s = true -> pos + list_sum ns = length raw)%nat -> generous raw (list_sum ns) (d_sink s) ->
  exists s' pos', D_run (map DvData ns) (s, pos) = Some (s', pos') /\ good false s' pos' /\ d_alive s' = true /\
    (d_input s' = true -> pos' = length raw).
Proof.
  intros Hw. revert s pos. induction ns as [|n ns IH]; intros s pos Hg Ha Hns Hi Hgen.
  { exists s, pos. do 3 (split; [done|]). intros H. specialize (Hi H). simpl in Hi. lia. }
  apply Forall_cons in Hns as [Hn Hns]. cbn [map D_run]. unfold D_step. rewrite Ha. cbn [negb].
  simpl in Hgen. destruct (d_input s) eqn:Ei; cbn [andb].
  2: { apply IH; try done; [by rewrite Ei|]. by eapply generous_le; [|done]; lia. }
  specialize (Hi eq_refl). simpl in Hi.
  replace (0 <? n)%nat with true by (symmetry; by apply Nat.ltb_lt).
  replace (pos + n <=? length raw)%nat with true by (symmetry; apply Nat.leb_le; lia). cbn [andb].
  destruct Hg as [_ Hg]. pose proof Ha as Ha'. apply alive_true in Ha'. rewrite Ha', Ei in Hg. destruct Hg as [Hl He].
  destruct (D_OnData_wp _ s pos false Hl Ha Ei He (take_prefix_raw n pos)) as (r & s' & -> & H & _ & H3).
  assert (Hlen : length (take n (drop pos raw)) = n) by (rewrite length_take, length_drop; lia).
  rewrite Hlen in H3. destruct (H3 _ Hgen) as [?|(Ha1 & Hg1 & Hr)]; [done|].
  apply IH; try done. intros H1. rewrite (Hr H1). lia.
Qed.

Lemma D_run_delivers h ns D p rest :
  dechunk HttpChunkParser_new raw = Decoded D p rest -> state p = END ->
  Forall (fun n => (0 < n)%nat) ns -> list_sum ns = length raw -> generous raw (length raw) (Sink_new h) ->
  exists s pos, D_run (map DvData ns ++ [DvDefer]) (istream_dechunk_new a h, 0%nat) = Some (s, pos) /\
    k_life (d_sink s) = AtEof /\ output s = D /\ (a = ABANDON -> drop pos raw = rest).
Proof.
  intros Hd Hp Hns Hsum Hgen. assert (Hw : ~ malformed raw) by (intros (? & ? & E); congruence).
  destruct (D_run_feed ns (istream_dechunk_new a h) 0) as (s & pos & E & Hg & Ha & Hend); try done.
  { apply istream_dechunk_new_good. }
  { by rewrite Hsum. }
  rewrite D_run_app, E. cbn [D_run]. unfold D_step. rewrite Ha. cbn [negb].
  destruct (d_input s) eqn:Ei.
  { exfalso. destruct Hg as [_ Hg]. apply alive_true in Ha. rewrite Ha, Ei in Hg. destruct Hg as [(Hc & Hne & _) _].
    specialize (Hend eq_refl). destruct (core_premature s pos Hc) as (D' & p' & rest' & E' & Hp'); [lia| |congruence].
    intros He. by apply (Hne He), (core_at_end s pos). }
  assert (He : d_eof_pending s = true).
  { destruct Hg as [_ Hg]. apply alive_true in Ha. rewrite Ha, Ei in Hg. apply Hg. }
  rewrite He. destruct (DeferredEof_good false s pos Hg Ha He) as (s' & E' & _ & Hg'). rewrite E'. simpl.
  assert (Hl : k_life (d_sink s') = AtEof) by (by eapply DeferredEof_life).
  rewrite Hl in Hg'. destruct Hg' as (p' & rest' & Hd' & _ & Hr). eexists _, _. split; [done|]. split; [done|].
  split; [congruence|]. intros H. rewrite <- (Hr H). congruence.
Qed.

(** C26: Liveness: whenever the stream has an end chunk and the handler does not block, feeding the stream
    in pieces of any size delivers all of its data and then reports the end. *)
Theorem dechunk_istream_delivers h ns D p rest :
  dechunk HttpChunkParser_new raw = Decoded D p rest -> state p = END ->
  Forall (fun n => (0 < n)%nat) ns -> list_sum ns = length raw -> generous raw (length raw) (Sink_new h) ->
  exists s pos, D_run (map DvData ns ++ [DvDefer]) (istream_dechunk_new a h, 0%nat) = Some (s, pos) /\
    k_life (d_sink s) = AtEof /\ output s = D /\ (a = ABANDON -> drop pos raw = rest).
Proof. apply D_run_delivers. Qed.
End Stream.

(** C10: Composition: what the encoding istream has written when it reports the end, sent in pieces of
    any size to the decoding istream, arrives as the input of the encoder, whatever that
    encoder's input offered and however its consumer read. *)
Theorem chunked_transfer h S c rest0 a h' ns :
  rtc cstep (ChunkedIstream_new h, S) (c, rest0) -> life c = AtEof ->
  Forall (fun n => (0 < n)%nat) ns -> list_sum ns = length (Chunked.output c) ->
  generous (Chunked.output c) (length (Chunked.output c)) (Sink_new h') ->
  exists s pos, D_run (Chunked.output c) (map DvData ns ++ [DvDefer]) (istream_dechunk_new a h', 0%nat) = Some (s, pos) /\
    k_life (d_sink s) = AtEof /\ output s = S /\ (a = ABANDON -> drop pos (Chunked.output c) = []).
Proof.
  intros Hr Hl Hns Hsum Hgen. pose proof (reach_inv h S c rest0 Hr) as Hi. unfold stream_inv in Hi. rewrite Hl in Hi.
  apply (D_run_delivers (Chunked.output c) a h' ns S (mk_parser END 0) []); try done. by destruct Hi.
Qed.

(** ** Examples *)

Definition crlf : list Z := [13; 10].

(** Two chunks, the end chunk and the beginning of another message. *)
Definition two_chunks : list Z :=
  str "3" ++ crlf ++ str "foo" ++ crlf ++ str "2" ++ crlf ++ str "ba" ++ crlf ++ str "0" ++ crlf ++ crlf ++ str "HTTP".

Definition eager : list reaction := repeat (Accept 1000) 30.

Lemma eager_generous : generous two_chunks (length two_chunks) (Sink_new eager).
Proof.
  exists eager, []. split; [done|]. split; [vm_compute; lia|]. apply Forall_forall. intros x Hx.
  apply list_elem_of_In, repeat_spec in Hx as ->. exists 1000. split; [done|]. vm_compute. congruence.
Qed.

Lemma dechunk_istream_delivers_witness :
  exists s pos, D_run two_chunks (map DvData [4; 7; 13]%nat ++ [DvDefer])
      (istream_dechunk_new ABANDON eager, 0%nat) = Some (s, pos) /\
    k_life (d_sink s) = AtEof /\ output s = str "fooba" /\ (ABANDON = ABANDON -> drop pos two_chunks = str "HTTP").
Proof.
  apply (dechunk_istream_delivers two_chunks ABANDON eager [4; 7; 13]%nat (str "fooba") (mk_parser END 0) (str "HTTP")).
  - vm_compute. reflexivity.
  - reflexivity.
  - repeat constructor.
  - vm_compute. reflexivity.
  - exact eager_generous.
Defined.

Lemma hello4_generous : generous (Chunked.output hello4) (length (Chunked.output hello4)) (Sink_new eager).
Proof.
  exists eager, []. split; [done|]. split; [vm_compute; lia|]. apply Forall_forall. intros x Hx.
  apply list_elem_of_In, repeat_spec in Hx as ->. exists 1000. split; [done|]. vm_compute. congruence.
Qed.

Lemma chunked_transfer_witness :
  exists s pos, D_run (Chunked.output hello4) (map DvData [10; length (Chunked.output hello4) - 10]%nat ++ [DvDefer])
      (istream_dechunk_new CLOSE eager, 0%nat) = Some (s, pos) /\
    k_life (d_sink s) = AtEof /\ output s = str "hello" /\
    (CLOSE = ABANDON -> drop pos (Chunked.output hello4) = []).
Proof.
  apply (chunked_transfer hello_handler (str "hello") hello4 []).
  - apply hello_runs.
  - reflexivity.
  - vm_compute. repeat constructor.
  - vm_compute. reflexivity.
  - exact hello4_generous.
Defined.

(** Reading by buckets: consuming the data also consumes the header that follows it.  The first list has two buckets, the
    first of which ends inside of the data of the first chunk. *)
Definition bucket_events : list dechunk_event := [DvBuckets [4; 8] true false (Some 2); DvBuckets [19] false false (Some 9)]%nat.

Example buckets_run :
  match D_run two_chunks bucket_events (istream_dechunk_new ABANDON [], 0%nat) with
  | Some (s, pos) => k_life (d_sink s) = AtEof /\ output s = str "fooba" /\ drop pos two_chunks = str "HTTP"
  | None => False
  end.
Proof. vm_compute. auto. Qed.

Lemma dechunk_istream_refines_witness :
  exists s pos, D_run two_chunks bucket_events (istream_dechunk_new ABANDON [], 0%nat) = Some (s, pos) /\
    output s `prefix_of` decoded two_chunks /\
    (k_life (d_sink s) = AtEof -> finished two_chunks ABANDON s pos) /\
    (k_life (d_sink s) = AtError -> DvError ∈ bucket_events \/ malformed two_chunks \/ premature two_chunks).
Proof. apply (dechunk_istream_refines two_chunks ABANDON [] bucket_events). vm_compute. auto. Defined.

(** [IstreamBucketReader::Skip()] goes on skipping after a header that ends where a bucket ends: the
    bucket list does not contain the data of the chunk. *)
Lemma Skip_too_much : forall tmp, buckets tmp = [str "5" ++ crlf; str "hello" ++ crlf ++ str "0" ++ crlf ++ crlf] ->
  match D_FillBucketList tmp IstreamBucketList_new (istream_dechunk_new CLOSE []) with
  | Some (inl l, s) => buckets l <> [str "hello"] /\ picks (d_chunks s) (concat (buckets tmp)) = str "hello"
  | _ => False
  end.
Proof. intros [b m f] Hb. simpl in Hb. subst b. destruct m, f; vm_compute; split; congruence. Qed.

(** After the exception for a premature end, the istream has not been destroyed. *)
Example premature_not_destroyed :
  match D_FillBucketList (mk_buckets [str "5"] false false) IstreamBucketList_new (istream_dechunk_new CLOSE []) with
  | Some (inr FillPremature, s) => d_alive s
  | _ => false
  end = true.
Proof. reflexivity. Qed.
