(* ===== verification/ByteQueue.v ===== *)
(** * Byte queues

    What the istreams need of a [GrowingBuffer]: a queue of bytes whose first bytes can be looked
    at, consumed, skipped and shown as buckets.  [ByteQueue] has the operations,
    [ByteQueueLaws] what they promise, and the growing buffer is an instance of both. *)

From S2P Require Import Prelude Bucket GrowingBuffer GrowingBufferFacts.

Class ByteQueue := {
  bq : Type;
  bq_new : bq;
  bq_write : list Z -> bq -> option bq;
  bq_read : bq -> option (list Z);
  bq_consume : nat -> bq -> option bq;
  bq_skip : nat -> bq -> option bq;
  bq_fill : nat -> bq -> IstreamBucketList -> IstreamBucketList }.

(** [bq_holds q l]: the queue holds the bytes [l]. *)
Class ByteQueueLaws (Q : ByteQueue) := {
  bq_holds : bq -> list Z -> Prop;
  bq_new_ok : bq_holds bq_new [];
  bq_write_ok x q l : bq_holds q l -> exists q', bq_write x q = Some q' /\ bq_holds q' (l ++ x);
  bq_read_ok q l : bq_holds q l ->
    exists b, bq_read q = Some b /\ b `prefix_of` l /\ (l <> [] -> b <> []) /\
      forall n, (n <= length b)%nat -> exists q', bq_consume n q = Some q' /\ bq_holds q' (drop n l);
  bq_skip_ok n q l : bq_holds q l -> (n <= length l)%nat ->
    exists q', bq_skip n q = Some q' /\ bq_holds q' (drop n l);
  bq_fill_ok n q l b : bq_holds q l -> extends b (bq_fill n q b) (drop n l) }.

(** ** Growing buffers are byte queues *)

Section Growing.
Context `{CS : ChunkSize}.

Definition run_state {A} (m : M GrowingBuffer A) (gb : GrowingBuffer) : option GrowingBuffer :=
  match m gb with Some (_, gb') => Some gb' | None => None end.

#[global] Instance growing_byte_queue : ByteQueue := {
  bq := GrowingBuffer;
  bq_new := GrowingBuffer_new;
  bq_write x := run_state (GB_Write x);
  bq_read gb := match GB_Read gb with Some (b, _) => Some b | None => None end;
  bq_consume n := run_state (GB_Consume n);
  bq_skip n := run_state (GB_Skip n);
  bq_fill := GB_FillBucketList }.

Lemma run_state_wp {A} (m : M GrowingBuffer A) (Q : A -> GrowingBuffer -> Prop) gb :
  wp m Q gb -> exists a gb', run_state m gb = Some gb' /\ Q a gb'.
Proof. intros (a & gb' & E & H). exists a, gb'. unfold run_state. by rewrite E. Qed.

(** No chunk is empty, and the first one has unread bytes: otherwise [Read()] would
    show nothing although there is data. *)
Definition tight (gb : GrowingBuffer) : Prop :=
  Forall (fun c => c <> []) (chunks gb) /\
  match chunks gb with [] => True | c :: _ => (position gb < length c)%nat end.

Definition gb_holds (gb : GrowingBuffer) (l : list Z) : Prop := WF gb /\ tight gb /\ contents gb = l.

Lemma tight_snoc l p c : Forall (fun c => c <> []) l -> c <> [] ->
  match l with [] => p = 0%nat | c :: _ => (p < length c)%nat end -> tight (mkGB (l ++ [c]) p).
Proof.
  intros Hl Hc Hp. split; simpl; [apply Forall_app; by rewrite Forall_singleton|].
  destruct l as [|d l]; simpl; [|done]. destruct c; [done|]. simpl. lia.
Qed.

Lemma WriteSome_tight src gb n gb' : WF gb -> tight gb -> src <> [] -> WriteSome src gb = Some (n, gb') -> tight gb'.
Proof.
  intros Hwf [Ht Hh] Hs. pose proof (wf_head _ Hwf) as Hp. pose proof chunk_capacity_pos as Hcap.
  unfold WriteSome, mbnd, mget, mret, mput, massert, AppendBuffer, mmod.
  destruct (last (chunks gb)) as [c|] eqn:El.
  - apply last_Some in El as [l El]. destruct (Nat.eqb_spec (length c) chunk_capacity) as [Ec|Ec]; simpl.
    + rewrite El, last_snoc, append_tail_snoc. destruct (Check _); simpl; [|done]. intros [= _ <-].
      apply tight_snoc.
      * by rewrite El in Ht.
      * simpl. rewrite Nat.sub_0_r. destruct src; [done|]. destruct chunk_capacity; [lia|]. done.
      * rewrite El in Hh. destruct l; done.
    + rewrite El, last_snoc, append_tail_snoc. destruct (Check _); simpl; [|done]. intros [= _ <-].
      rewrite El in Ht, Hh. apply Forall_app in Ht as [Ht Hc]. apply Forall_cons in Hc as [Hc _].
      split; simpl.
      * apply Forall_app. split; [done|]. constructor; [|done]. intros E. apply app_nil in E as [E _]. by apply Hc.
      * destruct l; simpl in *; [rewrite length_app; lia|done].
  - apply last_None in El. simpl. rewrite El in *. simpl. intros [= _ <-].
    unfold append_tail. simpl. apply (tight_snoc []); [done| |done].
    rewrite Nat.sub_0_r. destruct src; [done|]. destruct chunk_capacity; [lia|]. done.
Qed.

Lemma Write_loop_tight fuel src gb u gb' : WF gb -> tight gb -> Write_loop fuel src gb = Some (u, gb') -> tight gb'.
Proof.
  revert src gb. induction fuel as [|fuel IH]; intros src gb Hwf Ht; [done|]. cbn [Write_loop].
  destruct src as [|z src]; [by intros [= _ <-]|]. unfold mbnd.
  destruct (WriteSome (z :: src) gb) as [[n gb1]|] eqn:E; [|done]. apply IH.
  - destruct (WriteSome_wp (z :: src) gb Hwf) as (a & s & E' & H); [done|]. rewrite E in E'. injection E' as <- <-.
    by destruct H as (_ & ? & _).
  - by apply (WriteSome_tight (z :: src) gb n).
Qed.

Lemma advanced_tight gb n l p : tight gb -> advanced (chunks gb) (position gb) n l p -> (0 < n)%nat -> tight (mkGB l p).
Proof.
  intros [Ht Hh] [[k Hk] A2 A3 A4 A5] Hn. rewrite Hk in Ht. apply Forall_app in Ht as [_ Ht]. split; [done|]. simpl.
  destruct l as [|c l]; [done|]. apply Forall_cons in Ht as [Hc _].
  assert (0 < length c)%nat by (destruct c; [done|simpl; lia]). simpl in A5. lia.
Qed.

Lemma GB_Skip_holds n gb l : gb_holds gb l -> (n <= length l)%nat ->
  exists gb', run_state (GB_Skip n) gb = Some gb' /\ gb_holds gb' (drop n l).
Proof.
  intros (Hwf & Ht & <-) Hn. destruct (skip_chunks_spec Check (chunks gb) (position gb) n) as (l & p & E & Ha);
    [by apply all_checked|apply Hwf|done|].
  exists (mkGB l p). unfold run_state, GB_Skip, mbnd, mget, mopt, mput. rewrite E. split; [done|].
  destruct (advanced_WF gb n l p Hwf Ha) as [H1 H2]. split; [done|]. split; [|done].
  destruct (decide (n = 0%nat)) as [->|]; [|apply (advanced_tight gb n); [done|done|lia]].
  assert (E0 : skip_chunks Check (chunks gb) (position gb) 0 = Some (chunks gb, position gb)) by (by destruct (chunks gb)).
  rewrite E0 in E. injection E as <- <-. by destruct gb.
Qed.

#[global] Instance growing_byte_queue_laws : ByteQueueLaws growing_byte_queue.
Proof.
  refine {| bq_holds := (gb_holds : @bq growing_byte_queue -> _) |}.
  - split; [apply WF_new|]. split; [|done]. split; [constructor|done].
  - intros x q l (Hwf & Ht & <-). destruct (Write_wp x q Hwf) as (u & q' & E & [Hw Hc]).
    exists q'. simpl. unfold run_state. rewrite E. split; [done|]. split; [done|].
    split; [by apply (Write_loop_tight (S (length x)) x q u)|done].
  - intros q l (Hwf & Ht & <-). destruct (GB_Read_wp q Hwf) as (b & q' & E & -> & Hp & Hne).
    exists b. simpl. rewrite E. split; [done|]. split; [done|].
    assert (Hb : b = drop (position q) (hd [] (chunks q))).
    { revert E. unfold GB_Read, mbnd, mget, mret, massert. destruct (chunks q); simpl; [intros [= <-]; by rewrite drop_nil|].
      repeat case_match; try done. by intros [= <-]. }
    split.
    + intros Hc. apply Hne. destruct Ht as [_ Hh]. destruct (chunks q) as [|c l] eqn:Eq; [|done].
      unfold contents in Hc. rewrite Eq in Hc. unfold unread in Hc. simpl in Hc. by rewrite drop_nil in Hc.
    + intros n Hn. destruct (GB_Consume_wp n q Hwf) as (u & q' & E2 & Hw2 & Hc2).
      { rewrite Hb, length_drop in Hn. lia. }
      exists q'. unfold run_state. rewrite E2. split; [done|]. split; [done|]. split; [|done].
      destruct Ht as [Ht Hh]. revert E2. unfold GB_Consume, mbnd, mget, mret, mput, massert.
      destruct (Nat.eqb_spec n 0) as [->|Hz]; [by intros [= _ <-]|].
      destruct (chunks q) as [|c rest] eqn:Eq; [done|]. destruct (Check c); simpl; [|done].
      destruct (position q + n <=? length c)%nat eqn:El; simpl; [|done]. intros [= _ <-]. apply Nat.leb_le in El.
      apply Forall_cons in Ht as [Hc0 Hrest]. destruct (Nat.leb_spec (length c) (position q + n)).
      * split; simpl; [done|]. destruct rest as [|d rest]; [done|]. apply Forall_cons in Hrest as [Hd _].
        destruct d; [done|]. simpl. lia.
      * split; simpl; [by constructor|lia].
  - intros n q l. apply GB_Skip_holds.
  - intros n q l b (_ & _ & <-). apply GB_FillBucketList_spec.
Qed.

End Growing.
