(* ===== verification/Replace.v ===== *)
(** * Replacing parts of a stream

    src/istream/ReplaceIstream.cxx: the filter below the template processors.  It buffers its
    input and lets a subclass parse it; the subclass registers substitutions, which replace a
    range of the input by the data of another istream, and declares how much of the input is
    settled.  The filter delivers the settled input, interleaved with the substitutions.

    Offsets and sizes are natural numbers; [None] is a failed assertion, or an
    unsigned subtraction that would wrap. *)

From S2P Require Import Prelude Bucket Chunked Sink ByteQueue.

#[local] Open Scope beng_scope.

(** ** Data *)

(** [u_input] is what the istream of the substitution is still going to deliver; [u_shown] and
    [u_all] describe the bucket list that it has filled last: the number of bytes, and whether
    there was nothing more.  [u_id] is the identity of the object. *)
Record Substitution := mkSubst {
  u_id : nat;
  u_start : nat;
  u_end : nat;
  u_input : option (list Z);
  u_shown : nat;
  u_all : bool }.

(** What a subclass does in [Parse()] and [ParseEnd()], and whether it throws in the end. *)
Inductive client_op :=
  | OpAdd (start end_ : nat) (contents : option (list Z))
  | OpExtend (start end_ : nat)
  | OpSettle (offset : nat)
  | OpFinish.

Definition answer : Type := list client_op * bool.

(** What the istream of a substitution does when it has the opportunity. *)
Inductive feed := FData (n : nat) | FEof | FError.

(** The results of [InvokeReady()]. *)
Inductive ready_result := ReadyOk | ReadyFallback | ReadyClosed.

Section Replace.
Context {Q : ByteQueue}.

(** [r_substitutions] is the linked list with both of its pointers; [r_reads] is what the istreams
    of substitutions are going to do when they are read; [r_trace] is a log of the input that was
    parsed and of what the subclass did with it. *)
Record ReplaceIstream := mkReplace {
  r_defer_read : bool;
  r_finished : bool;
  r_had_input : bool;
  r_had_output : bool;
  r_buffer : bq;
  r_source_length : nat;
  r_position : nat;
  r_settled_position : nat;
  r_substitutions : list Substitution;
  r_last_substitution_end : nat;
  r_input : bool;
  r_next_id : nat;
  r_reads : list (list feed);
  r_trace : list (list Z * list client_op);
  r_sink : Sink }.

Definition ReplaceIstream_new (reads : list (list feed)) (h : list reaction) : ReplaceIstream :=
  mkReplace false false false false bq_new 0 0 0 [] 0 true 0 reads [] (Sink_new h).

Definition set_defer_read b r := mkReplace b (r_finished r) (r_had_input r) (r_had_output r) (r_buffer r)
  (r_source_length r) (r_position r) (r_settled_position r) (r_substitutions r) (r_last_substitution_end r)
  (r_input r) (r_next_id r) (r_reads r) (r_trace r) (r_sink r).
Definition set_finished b r := mkReplace (r_defer_read r) b (r_had_input r) (r_had_output r) (r_buffer r)
  (r_source_length r) (r_position r) (r_settled_position r) (r_substitutions r) (r_last_substitution_end r)
  (r_input r) (r_next_id r) (r_reads r) (r_trace r) (r_sink r).
Definition set_had_input b r := mkReplace (r_defer_read r) (r_finished r) b (r_had_output r) (r_buffer r)
  (r_source_length r) (r_position r) (r_settled_position r) (r_substitutions r) (r_last_substitution_end r)
  (r_input r) (r_next_id r) (r_reads r) (r_trace r) (r_sink r).
Definition set_had_output b r := mkReplace (r_defer_read r) (r_finished r) (r_had_input r) b (r_buffer r)
  (r_source_length r) (r_position r) (r_settled_position r) (r_substitutions r) (r_last_substitution_end r)
  (r_input r) (r_next_id r) (r_reads r) (r_trace r) (r_sink r).
Definition set_buffer q r := mkReplace (r_defer_read r) (r_finished r) (r_had_input r) (r_had_output r) q
  (r_source_length r) (r_position r) (r_settled_position r) (r_substitutions r) (r_last_substitution_end r)
  (r_input r) (r_next_id r) (r_reads r) (r_trace r) (r_sink r).
Definition set_source_length n r := mkReplace (r_defer_read r) (r_finished r) (r_had_input r) (r_had_output r)
  (r_buffer r) n (r_position r) (r_settled_position r) (r_substitutions r) (r_last_substitution_end r)
  (r_input r) (r_next_id r) (r_reads r) (r_trace r) (r_sink r).
Definition set_r_position n r := mkReplace (r_defer_read r) (r_finished r) (r_had_input r) (r_had_output r)
  (r_buffer r) (r_source_length r) n (r_settled_position r) (r_substitutions r) (r_last_substitution_end r)
  (r_input r) (r_next_id r) (r_reads r) (r_trace r) (r_sink r).
Definition set_settled n r := mkReplace (r_defer_read r) (r_finished r) (r_had_input r) (r_had_output r)
  (r_buffer r) (r_source_length r) (r_position r) n (r_substitutions r) (r_last_substitution_end r)
  (r_input r) (r_next_id r) (r_reads r) (r_trace r) (r_sink r).
Definition set_substitutions l r := mkReplace (r_defer_read r) (r_finished r) (r_had_input r) (r_had_output r)
  (r_buffer r) (r_source_length r) (r_position r) (r_settled_position r) l (r_last_substitution_end r)
  (r_input r) (r_next_id r) (r_reads r) (r_trace r) (r_sink r).
Definition set_last_end n r := mkReplace (r_defer_read r) (r_finished r) (r_had_input r) (r_had_output r)
  (r_buffer r) (r_source_length r) (r_position r) (r_settled_position r) (r_substitutions r) n
  (r_input r) (r_next_id r) (r_reads r) (r_trace r) (r_sink r).
Definition set_r_input b r := mkReplace (r_defer_read r) (r_finished r) (r_had_input r) (r_had_output r)
  (r_buffer r) (r_source_length r) (r_position r) (r_settled_position r) (r_substitutions r)
  (r_last_substitution_end r) b (r_next_id r) (r_reads r) (r_trace r) (r_sink r).
Definition set_next_id n r := mkReplace (r_defer_read r) (r_finished r) (r_had_input r) (r_had_output r)
  (r_buffer r) (r_source_length r) (r_position r) (r_settled_position r) (r_substitutions r)
  (r_last_substitution_end r) (r_input r) n (r_reads r) (r_trace r) (r_sink r).
Definition set_reads l r := mkReplace (r_defer_read r) (r_finished r) (r_had_input r) (r_had_output r)
  (r_buffer r) (r_source_length r) (r_position r) (r_settled_position r) (r_substitutions r)
  (r_last_substitution_end r) (r_input r) (r_next_id r) l (r_trace r) (r_sink r).
Definition set_r_sink k r := mkReplace (r_defer_read r) (r_finished r) (r_had_input r) (r_had_output r)
  (r_buffer r) (r_source_length r) (r_position r) (r_settled_position r) (r_substitutions r)
  (r_last_substitution_end r) (r_input r) (r_next_id r) (r_reads r) (r_trace r) k.
Definition set_trace t r := mkReplace (r_defer_read r) (r_finished r) (r_had_input r) (r_had_output r)
  (r_buffer r) (r_source_length r) (r_position r) (r_settled_position r) (r_substitutions r)
  (r_last_substitution_end r) (r_input r) (r_next_id r) (r_reads r) t (r_sink r).

Abbreviation R := (M ReplaceIstream).

Definition r_alive (r : ReplaceIstream) : bool := alive (r_sink r).

Definition R_InvokeData (src : list Z) : R nat :=
  let! r := mget in
  let! x := mopt (Invoke src (r_sink r)) in
  mput (set_r_sink x.2 r) ;;; mret x.1.

Definition R_Destroy (l : phase) : R unit :=
  let! r := mget in
  let! k := mopt (DestroySink l (r_sink r)) in
  mput (set_r_sink k r).

Definition buffer_op (f : bq -> option bq) : R unit :=
  let! r := mget in
  let! q := mopt (f (r_buffer r)) in
  mput (set_buffer q r).

(** ** The header *)

Definition IsBufferAtEOF (r : ReplaceIstream) : bool := (r_position r =? r_source_length r)%nat.

Definition RI_IsEOF (r : ReplaceIstream) : bool :=
  negb (r_input r) && r_finished r && bool_decide (r_substitutions r = []) && IsBufferAtEOF r.

(** [None] is -1. *)
Definition GetBufferEndOffsetUntil (position : nat) (s : option Substitution) (r : ReplaceIstream) : option nat :=
  match s with
  | Some s => Some (Nat.min (u_start s) (r_source_length r))
  | None =>
      if r_finished r then Some (r_source_length r)
      else if (position <? r_settled_position r)%nat then Some (r_settled_position r)
      else None
  end.

Definition first_substitution (r : ReplaceIstream) : option Substitution := head (r_substitutions r).

(** ** Substitutions *)

(** The [i]th substitution of the list. *)
Definition IsActive (i : nat) : R bool :=
  let! r := mget in
  let! f := mopt (first_substitution r) in
  let! s := mopt (r_substitutions r !! i) in
  massert (u_start f <=? u_start s)%nat ;;;
  massert (r_position r <=? u_start s)%nat ;;;
  mret ((i =? 0)%nat && (r_position r =? u_start s)%nat).

(** [ToNextSubstitution(first_substitution)] *)
Definition ToNextSubstitution : R unit :=
  let! active := IsActive 0 in
  massert active ;;;
  let! r := mget in
  match r_substitutions r with
  | [] => mfail
  | s :: rest =>
      massert (u_start s <=? u_end s)%nat ;;;
      buffer_op (bq_skip (u_end s - u_start s)) ;;;
      mmod (set_r_position (u_end s)) ;;;
      mmod (set_substitutions rest) ;;;
      massert (match rest with [] => true | t :: _ => (u_end s <=? u_start t)%nat end)
  end.

Definition set_contents (c : option (list Z)) (s : Substitution) : Substitution :=
  mkSubst (u_id s) (u_start s) (u_end s) c (u_shown s) (u_all s).

Definition update_substitution (i : nat) (f : Substitution -> Substitution) (r : ReplaceIstream) : ReplaceIstream :=
  set_substitutions (alter f i (r_substitutions r)) r.

Definition Substitution_OnData (i : nat) (src : list Z) : R nat :=
  let! active := IsActive i in
  if active then mmod (set_had_output true) ;;; R_InvokeData src
  else mret 0%nat.

Definition Substitution_OnEof (i : nat) : R unit :=
  mmod (update_substitution i (set_contents None)) ;;;
  let! active := IsActive i in
  if active then
    ToNextSubstitution ;;;
    let! r := mget in
    if RI_IsEOF r then R_Destroy AtEof else mmod (set_defer_read true)
  else mret tt.

Definition Substitution_OnError (i : nat) : R unit :=
  mmod (update_substitution i (set_contents None)) ;;; R_Destroy AtError.

(** The istream of the [i]th substitution calls its handler; the result says whether it
    goes on. *)
Definition feed_one (i : nat) (f : feed) : R bool :=
  let! r := mget in
  match r_substitutions r !! i with
  | None => mret false
  | Some s =>
      match f, u_input s with
      | FData n, Some (z :: data) =>
          let src := take (S n) (z :: data) in
          let! c := Substitution_OnData i src in
          let! r := mget in
          if negb (r_alive r) then mret false
          else
            mmod (update_substitution i (set_contents (Some (drop c (z :: data))))) ;;;
            mret (c =? length src)%nat
      | FEof, Some [] => Substitution_OnEof i ;;; mret false
      | FError, Some _ => Substitution_OnError i ;;; mret false
      | _, _ => mret true
      end
  end.

Fixpoint feed_all (i : nat) (fs : list feed) : R unit :=
  match fs with
  | [] => mret tt
  | f :: fs => let! go := feed_one i f in if go then feed_all i fs else mret tt
  end.

(** [Substitution::Read()] of the first substitution. *)
Definition Substitution_Read : R unit :=
  let! r := mget in
  match r_reads r with
  | [] => mret tt
  | fs :: reads => mput (set_reads reads r) ;;; feed_all 0 fs
  end.

(** ** Reading *)

Fixpoint ReadSubstitution_loop (fuel : nat) : R bool :=
  match fuel with
  | O => mfail
  | S fuel' =>
      let! r := mget in
      match r_substitutions r with
      | [] => mret true
      | s :: _ =>
          let! active := IsActive 0 in
          if negb active then mret true
          else match u_input s with
          | Some _ =>
              Substitution_Read ;;;
              let! r := mget in
              if negb (r_alive r) then mret false
              else if bool_decide (u_id <$> first_substitution r = Some (u_id s)) then mret false
              else ReadSubstitution_loop fuel'
          | None =>
              ToNextSubstitution ;;;
              let! r := mget in
              if RI_IsEOF r then R_Destroy AtEof ;;; mret false
              else ReadSubstitution_loop fuel'
          end
      end
  end.

Definition ReadSubstitution : R bool :=
  let! r := mget in ReadSubstitution_loop (S (length (r_substitutions r))).

Definition ReadFromBuffer (max_length : nat) : R nat :=
  massert (0 <? max_length)%nat ;;;
  let! r := mget in
  let! src := mopt (bq_read (r_buffer r)) in
  massert (negb (bool_decide (src = []))) ;;;
  let src := take max_length src in
  mmod (set_had_output true) ;;;
  let! nbytes := R_InvokeData src in
  massert (nbytes <=? length src)%nat ;;;
  if (nbytes =? 0)%nat then mret (length src)
  else
    buffer_op (bq_consume nbytes) ;;;
    mmod (fun r => set_r_position (r_position r + nbytes) r) ;;;
    let! r := mget in
    massert (r_position r <=? r_source_length r)%nat ;;;
    mret (length src - nbytes)%nat.

Fixpoint ReadFromBufferLoop (fuel end_ : nat) : R bool :=
  let! r := mget in
  if (r_position r <? end_)%nat then
    match fuel with
    | O => mfail
    | S fuel' =>
        let! n := ReadFromBuffer (end_ - r_position r) in
        if (0 <? n)%nat then mret false
        else
          let! r := mget in
          massert (r_position r <=? end_)%nat ;;;
          ReadFromBufferLoop fuel' end_
    end
  else mret true.

Definition TryReadFromBuffer : R bool :=
  let! r := mget in
  massert (r_position r <=? r_source_length r)%nat ;;;
  match GetBufferEndOffsetUntil (r_position r) (first_substitution r) r with
  | None => mret true
  | Some end_ =>
      massert (r_position r <=? end_)%nat ;;;
      massert (end_ <=? r_source_length r)%nat ;;;
      let! ok := ReadFromBufferLoop (end_ - r_position r) end_ in
      if negb ok then mret false
      else
        let! r := mget in
        massert (r_position r =? end_)%nat ;;;
        if (r_position r =? r_source_length r)%nat && bool_decide (r_substitutions r = []) && negb (r_input r)
        then R_Destroy AtEof ;;; mret false
        else mret true
  end.

(** The loop of [TryRead()]: every iteration but the first one has removed a substitution. *)
Fixpoint TryRead_loop (fuel : nat) : R bool :=
  match fuel with
  | O => mfail
  | S fuel' =>
      let! ok := ReadSubstitution in
      if negb ok then mret false
      else
        let! ok := TryReadFromBuffer in
        if negb ok then mret false
        else
          let! r := mget in
          match first_substitution r with
          | Some s => if (u_start s <=? r_source_length r)%nat then TryRead_loop fuel' else mret true
          | None => mret true
          end
  end.

Definition TryRead : R bool :=
  let! r := mget in
  massert (r_position r <=? r_source_length r)%nat ;;;
  TryRead_loop (S (S (length (r_substitutions r)))).

Definition DeferredRead (res : ready_result) : R unit :=
  mmod (set_defer_read false) ;;;
  match res with
  | ReadyOk => mret tt
  | ReadyFallback => let! _ := TryRead in mret tt
  | ReadyClosed => R_Destroy Closed
  end.

(** ** What the subclass may do *)

Definition R_Add (start end_ : nat) (contents : option (list Z)) : R unit :=
  let! r := mget in
  massert (negb (r_finished r)) ;;;
  massert (start <=? end_)%nat ;;;
  massert (r_settled_position r <=? start)%nat ;;;
  massert (r_last_substitution_end r <=? start)%nat ;;;
  if bool_decide (contents = None) && (start =? end_)%nat then mret tt
  else
    let s := mkSubst (r_next_id r) start end_ contents 0 false in
    mmod (set_next_id (S (r_next_id r))) ;;;
    mmod (set_settled end_) ;;;
    mmod (set_last_end end_) ;;;
    mmod (set_substitutions (r_substitutions r ++ [s])) ;;;
    mmod (set_defer_read true).

Definition GetLastSubstitution : R Substitution :=
  let! r := mget in
  let! s := mopt (last (r_substitutions r)) in
  massert (u_end s <=? r_settled_position r)%nat ;;;
  massert (u_end s =? r_last_substitution_end r)%nat ;;;
  mret s.

Definition set_end (end_ : nat) (s : Substitution) : Substitution :=
  mkSubst (u_id s) (u_start s) end_ (u_input s) (u_shown s) (u_all s).

Definition R_Extend (start end_ : nat) : R unit :=
  let! r := mget in
  massert (negb (r_finished r)) ;;;
  let! s := GetLastSubstitution in
  massert (u_start s =? start)%nat ;;;
  massert (u_end s =? r_settled_position r)%nat ;;;
  massert (u_end s =? r_last_substitution_end r)%nat ;;;
  massert (u_end s <=? end_)%nat ;;;
  mmod (update_substitution (pred (length (r_substitutions r))) (set_end end_)) ;;;
  mmod (set_settled end_) ;;;
  mmod (set_last_end end_).

Definition R_Settle (offset : nat) : R unit :=
  let! r := mget in
  massert (negb (r_finished r)) ;;;
  massert (r_settled_position r <=? offset)%nat ;;;
  mmod (set_settled offset) ;;;
  mmod (set_defer_read true).

Definition R_Finish : R unit :=
  let! r := mget in
  massert (negb (r_finished r)) ;;;
  mmod (set_finished true) ;;;
  mmod (set_defer_read true).

Definition run_op (o : client_op) : R unit :=
  match o with
  | OpAdd start end_ contents => R_Add start end_ contents
  | OpExtend start end_ => R_Extend start end_
  | OpSettle offset => R_Settle offset
  | OpFinish => R_Finish
  end.

Fixpoint run_ops (os : list client_op) : R unit :=
  match os with [] => mret tt | o :: os => run_op o ;;; run_ops os end.

(** [Parse(src)], or [ParseEnd()] with an empty [src]; the result is true if there was an exception. *)
Definition R_Parse (src : list Z) (a : answer) : R bool :=
  run_ops a.1 ;;;
  mmod (fun r => set_trace (r_trace r ++ [(src, a.1)]) r) ;;;
  mret a.2.

(** ** The input *)

Definition SOURCE_LIMIT : Z := 8 * 1024 * 1024.

(** True is an exception. *)
Definition RI_AppendToBuffer (src : list Z) (a : answer) : R bool :=
  let! r := mget in
  if SOURCE_LIMIT <=? Z.of_nat (r_source_length r) then mret true
  else
    buffer_op (bq_write src) ;;;
    mmod (fun r => set_source_length (r_source_length r + length src) r) ;;;
    R_Parse src a.

Definition R_OnData (src : list Z) (a : answer) : R nat :=
  mmod (set_had_input true) ;;;
  let! r := mget in
  let old_source_length := r_source_length r in
  let! ex := RI_AppendToBuffer src a in
  if ex then R_Destroy AtError ;;; mret 0%nat
  else
    let! r := mget in
    (match GetBufferEndOffsetUntil (r_position r) (first_substitution r) r with
     | Some end_ => if (old_source_length <? end_)%nat
                    then mmod (set_defer_read true) ;;; mmod (set_had_output true) else mret tt
     | None => mret tt
     end) ;;;
    mret (length src).

Definition R_OnEof (a : answer) : R unit :=
  mmod (set_r_input false) ;;;
  let! ex := R_Parse [] a in
  if ex then R_Destroy AtError
  else
    let! r := mget in
    massert (r_finished r) ;;;
    if RI_IsEOF r then R_Destroy AtEof else mmod (set_defer_read true).

Definition R_OnError : R unit := mmod (set_r_input false) ;;; R_Destroy AtError.

(** [_GetAvailable()]; the arguments are what the input and the istreams of the substitutions
    answer, -1 if they do not know. *)
Fixpoint available_substitutions (partial : bool) (avail : Substitution -> Z) (l : list Substitution)
    (position : nat) (available : Z) : option (Z * nat) :=
  match l with
  | [] => Some (available, position)
  | s :: l =>
      let available := available + (Z.of_nat (u_start s) - Z.of_nat position) in
      match u_input s with
      | None => available_substitutions partial avail l (u_end s) available
      | Some _ =>
          if negb (avail s =? -1) then available_substitutions partial avail l (u_end s) (available + avail s)
          else if negb partial then None
          else available_substitutions partial avail l (u_end s) available
      end
  end.

Definition R_GetAvailable (partial : bool) (input : Z) (avail : Substitution -> Z) (r : ReplaceIstream) : Z :=
  if negb partial && negb (r_finished r) then -1
  else
    let use := r_input r && r_finished r in
    if use && (input =? -1) && negb partial then -1
    else
      let input := if use && negb (input =? -1) then input else 0 in
      match available_substitutions partial avail (r_substitutions r) (r_position r) input with
      | None => -1
      | Some (available, position2) =>
          if r_finished r then available + (Z.of_nat (r_source_length r) - Z.of_nat position2)
          else if (position2 <? r_settled_position r)%nat
               then available + (Z.of_nat (r_settled_position r) - Z.of_nat position2)
          else available
      end.

(** ** The protocol *)

(** The range of a substitution has either been received completely, or not at all. *)
Definition whole (L start end_ : nat) : bool := (end_ <=? L)%nat || (L <? start)%nat.

(** What the subclass can know about the istream: whether it has finished, the settled position, the
    range of the last substitution if that is still pending, and the size of the source. *)
Record client_view := mkView {
  v_finished : bool;
  v_settled : nat;
  v_last : option (nat * nat);
  v_length : nat }.

Definition view_of (r : ReplaceIstream) : client_view :=
  mkView (r_finished r) (r_settled_position r)
    ((fun s => (u_start s, u_end s)) <$> last (r_substitutions r)) (r_source_length r).

(** What the subclass has to respect: the assertions, and that only input that has been received is
    settled. *)
Definition op_ok (o : client_op) (v : client_view) : bool :=
  negb (v_finished v) &&
  match o with
  | OpAdd start end_ _ => (start <=? end_)%nat && (v_settled v <=? start)%nat && whole (v_length v) start end_
  | OpExtend start end_ => bool_decide (v_last v = Some (start, v_settled v)) &&
                           (v_settled v <=? end_)%nat && (end_ <=? v_length v)%nat
  | OpSettle offset => (v_settled v <=? offset)%nat && (offset <=? v_length v)%nat
  | OpFinish => true
  end.

Definition op_next (o : client_op) (v : client_view) : client_view :=
  match o with
  | OpAdd start end_ c =>
      if bool_decide (c = None) && (start =? end_)%nat then v
      else mkView (v_finished v) end_ (Some (start, end_)) (v_length v)
  | OpExtend start end_ => mkView (v_finished v) end_ (Some (start, end_)) (v_length v)
  | OpSettle offset => mkView (v_finished v) offset (v_last v) (v_length v)
  | OpFinish => mkView true (v_settled v) (v_last v) (v_length v)
  end.

(** The view after the operations, if all of them are allowed. *)
Fixpoint ops_result (os : list client_op) (v : client_view) : option client_view :=
  match os with
  | [] => Some v
  | o :: os => if op_ok o v then ops_result os (op_next o v) else None
  end.

Definition add_length (n : nat) (v : client_view) : client_view :=
  mkView (v_finished v) (v_settled v) (v_last v) (v_length v + n).

(** What the input does when it is read. *)
Inductive input_action := IData (x : list Z) (a : answer) | IEof (a : answer) | IError.

Definition data_ok (x : list Z) (a : answer) (r : ReplaceIstream) : bool :=
  negb (bool_decide (x = [])) &&
  forallb (fun s => whole (r_source_length r + length x) (u_start s) (u_end s)) (r_substitutions r) &&
  match ops_result a.1 (add_length (length x) (view_of r)) with Some _ => true | None => false end.

(** [ParseEnd()] has to call [Finish()] or to throw. *)
Definition end_ok (a : answer) (r : ReplaceIstream) : bool :=
  match ops_result a.1 (view_of r) with Some v => a.2 || v_finished v | None => false end.

Definition input_ok (i : input_action) (r : ReplaceIstream) : bool :=
  r_alive r && r_input r &&
  match i with IData x a => data_ok x a r | IEof a => end_ok a r | IError => true end.

(** The input calls its handler, as long as the protocol is respected. *)
Definition run_input (i : input_action) : R unit :=
  let! r := mget in
  if input_ok i r then
    match i with
    | IData x a => let! _ := R_OnData x a in mret tt
    | IEof a => R_OnEof a
    | IError => R_OnError
    end
  else mret tt.

Definition run_inputs (l : list input_action) : R unit := mfor l run_input.

(** The loop of [_Read()]; each element of [plans] is what one [input.Read()] does, and after the
    last one it does nothing. *)
Fixpoint R_Read_loop (plans : list (list input_action)) : R unit :=
  mmod (set_had_input false) ;;;
  match plans with
  | [] => mret tt
  | p :: plans =>
      run_inputs p ;;;
      let! r := mget in
      if r_alive r && r_had_input r && negb (r_had_output r) && r_input r then R_Read_loop plans else mret tt
  end.

Definition RI_Read (plans : list (list input_action)) : R unit :=
  let! ok := TryRead in
  if negb ok then mret tt
  else
    let! r := mget in
    if negb (r_input r) then mret tt
    else mmod (set_had_output false) ;;; R_Read_loop plans.

(** ** Bucket lists *)

(** The input fills a bucket list; with each bucket comes the answer of [Parse()].  The result is
    true if there was an exception. *)
Fixpoint append_buckets (bs : list (list Z * answer)) : R bool :=
  match bs with
  | [] => mret false
  | (b, a) :: bs =>
      let! ex := RI_AppendToBuffer b a in
      if ex then R_Destroy AtError ;;; mret true else append_buckets bs
  end.

(** The part of [_FillBucketList()] that reads the input; [a] is the answer of [ParseEnd()].  The
    bytes of the buckets are consumed from the input. *)
Definition fill_input (bs : list (list Z * answer)) (more fb : bool) (a : answer) (list : IstreamBucketList)
  : R (option IstreamBucketList) :=
  let! r := mget in
  if negb (r_input r) then mret (Some list)
  else
    let list := if fb then EnableFallback list else list in
    let! ex := append_buckets bs in
    if ex then mret None
    else if negb more then
      mmod (set_r_input false) ;;;
      let! ex := R_Parse [] a in
      if ex then R_Destroy AtError ;;; mret None else mret (Some list)
    else mret (Some list).

(** How the istream of a substitution fills a bucket list: the sizes of the buckets and whether there
    may be more, or an exception. *)
Inductive show := Show (sizes : list nat) (more : bool) | ShowError.

Fixpoint cut (sizes : list nat) (data : list Z) : list (list Z) :=
  match sizes with
  | [] => []
  | n :: sizes =>
      match take (S n) data with
      | [] => []
      | b => b :: cut sizes (drop (S n) data)
      end
  end.

(** There is more if not everything is shown. *)
Definition show_buckets (sizes : list nat) (more : bool) (data : list Z) : IstreamBucketList :=
  let l := fold_left (fun l b => Push b l) (cut sizes data) IstreamBucketList_new in
  if more || (length (concat (buckets l)) <? length data)%nat then SetMore l else l.

Definition set_shown (l : IstreamBucketList) (s : Substitution) : Substitution :=
  mkSubst (u_id s) (u_start s) (u_end s) (u_input s) (length (concat (buckets l))) (negb (HasMore l)).

(** [Substitution::FillBucketList()]; [None] is an exception. *)
Definition Substitution_FillBucketList (w : show) (s : Substitution) : option (IstreamBucketList * Substitution) :=
  match u_input s with
  | None => Some (IstreamBucketList_new, s)
  | Some data =>
      match w with
      | Show sizes more => let l := show_buckets sizes more data in Some (l, set_shown l s)
      | ShowError => None
      end
  end.

(** The data in the buffer up to [end_]; the flag says that all of it is in the list. *)
Definition fill_buffer (fill_position end_ : nat) (list : IstreamBucketList) (r : ReplaceIstream)
  : bool * IstreamBucketList :=
  if (fill_position <? end_)%nat then
    let before_size := (end_ - fill_position)%nat in
    let tmp := bq_fill (fill_position - r_position r) (r_buffer r) IstreamBucketList_new in
    let '(nbytes, list) := SpliceBuffersFrom_max tmp (Z.of_nat before_size) false list in
    if nbytes <? Z.of_nat before_size then (false, SetMore list) else (true, list)
  else (true, list).

(** The loop over the substitutions; [shows] are the answers of their istreams, and an
    istream without one shows nothing.  The result is the list, or an exception, and the
    substitutions. *)
Fixpoint fill_substitutions (subs : list Substitution) (shows : list show) (fill_position : nat)
    (list : IstreamBucketList) (r : ReplaceIstream)
  : option (option IstreamBucketList * Datatypes.list Substitution) :=
  match GetBufferEndOffsetUntil fill_position (head subs) r with
  | None => Some (Some (SetMore list), subs)
  | Some end_ =>
      if negb ((fill_position <=? end_)%nat && (end_ <=? r_source_length r)%nat) then None
      else
        let '(ok, list) := fill_buffer fill_position end_ list r in
        if negb ok then Some (Some list, subs)
        else match subs with
        | [] => Some (Some (if r_input r || negb (r_finished r) then SetMore list else list), [])
        | s :: subs =>
            if (end_ <? u_start s)%nat then Some (Some (SetMore list), s :: subs)
            else match Substitution_FillBucketList (hd (Show [] true) shows) s with
            | None => Some (None, s :: subs)
            | Some (tmp, s) =>
                let list := (SpliceBuffersFrom tmp list).2 in
                if HasMore tmp then Some (Some list, s :: subs)
                else match fill_substitutions subs (tl shows) (u_end s) list r with
                | None => None
                | Some (res, subs) => Some (res, s :: subs)
                end
            end
        end
  end.

(** The previous bucket list is void. *)
Definition forget_shown (r : ReplaceIstream) : ReplaceIstream :=
  set_substitutions (map (fun s => mkSubst (u_id s) (u_start s) (u_end s) (u_input s) 0 false) (r_substitutions r)) r.

(** [_FillBucketList()]; [None] is an exception. *)
Definition RI_FillBucketList (bs : list (list Z * answer)) (more fb : bool) (a : answer) (shows : list show)
    (list : IstreamBucketList) : R (option IstreamBucketList) :=
  massert (negb (HasMore list)) ;;;
  let! o := fill_input bs more fb a list in
  match o with
  | None => mret None
  | Some list =>
      mmod forget_shown ;;;
      let! r := mget in
      let! x := mopt (fill_substitutions (r_substitutions r) shows (r_position r) list r) in
      mput (set_substitutions x.2 r) ;;;
      match x.1 with
      | None => R_Destroy AtError ;;; mret None
      | Some list => mret (Some list)
      end
  end.

(** [Substitution::ConsumeBucketList()]: the number of bytes, and whether this was the end. *)
Definition Substitution_ConsumeBucketList (nbytes : nat) (s : Substitution) : nat * bool * Substitution :=
  match u_input s with
  | None => (0%nat, true, s)
  | Some data =>
      let c := Nat.min nbytes (u_shown s) in
      (c, u_all s && (c =? length data)%nat,
       mkSubst (u_id s) (u_start s) (u_end s) (Some (drop c data)) (u_shown s - c) (u_all s))
  end.

Definition advance_buffer (n : nat) : R unit :=
  mmod (fun r => set_r_position (r_position r + n) r) ;;; buffer_op (bq_skip n).

(** The loop of [_ConsumeBucketList()]: every iteration but the last one removes a substitution. *)
Fixpoint consume_loop (fuel nbytes total : nat) : R nat :=
  match fuel with
  | O => mfail
  | S fuel' =>
      let! r := mget in
      let! end_ := mopt (GetBufferEndOffsetUntil (r_position r) (first_substitution r) r) in
      let before_size := (end_ - r_position r)%nat in
      if (r_position r <? end_)%nat && (nbytes <=? before_size)%nat then
        advance_buffer nbytes ;;; mret (total + nbytes)%nat
      else
        let nbytes := (nbytes - before_size)%nat in
        let total := (total + before_size)%nat in
        (if (r_position r <? end_)%nat then advance_buffer before_size else mret tt) ;;;
        match first_substitution r with
        | None => mret total
        | Some s =>
            let! active := IsActive 0 in
            massert active ;;;
            let '(c, eof, s) := Substitution_ConsumeBucketList nbytes s in
            mmod (update_substitution 0 (fun _ => s)) ;;;
            let total := (total + c)%nat in
            let nbytes := (nbytes - c)%nat in
            (if eof then ToNextSubstitution else mret tt) ;;;
            if (nbytes =? 0)%nat then mret total
            else massert eof ;;; consume_loop fuel' nbytes total
        end
  end.

(** [_ConsumeBucketList()]: the number of bytes, and whether this is the end. *)
Definition RI_ConsumeBucketList (nbytes : nat) : R (nat * bool) :=
  let! r := mget in
  let! total := consume_loop (S (length (r_substitutions r))) nbytes 0 in
  let! r := mget in
  mret (total, RI_IsEOF r).

End Replace.
