(* ===== verification/ReplaceFacts.v ===== *)
(** * Theorems about replacing parts of a stream

    [replaced] is the specification: the source with all substitutions applied.  The invariant [inv]
    says that what was delivered, together with what the remaining substitutions and the
    rest of the source still have to contribute, is that text. *)

From S2P Require Import Prelude Bucket Chunked Sink ByteQueue Replace.

#[local] Open Scope beng_scope.

(** ** The specification *)

(** A substitution: the range and the text that replaces it. *)
Definition piece : Type := nat * nat * list Z.

(** The source from [p] on, with substitutions. *)
Fixpoint replaced (p : nat) (l : list piece) (src : list Z) : list Z :=
  match l with
  | [] => drop p src
  | (start, end_, c) :: l => take (start - p) (drop p src) ++ c ++ replaced end_ l src
  end.

(** The part of it between [p] and [q]. *)
Fixpoint upto (p : nat) (l : list piece) (q : nat) (src : list Z) : list Z :=
  match l with
  | [] => take (q - p) (drop p src)
  | (start, end_, c) :: l => take (start - p) (drop p src) ++ c ++ upto end_ l q src
  end.

(** The ranges are ordered between [p] and [q]. *)
Fixpoint chain (p : nat) (l : list piece) (q : nat) : Prop :=
  match l with
  | [] => (p <= q)%nat
  | (start, end_, _) :: l => (p <= start)%nat /\ (start <= end_)%nat /\ chain end_ l q
  end.

Lemma chain_le p l q : chain p l q -> (p <= q)%nat.
Proof.
  revert p. induction l as [|[[st en] c] l IH]; intros p; simpl; [done|].
  intros (? & ? & H%IH). lia.
Qed.

Lemma chain_mono p l q q' : chain p l q -> (q <= q')%nat -> chain p l q'.
Proof.
  revert p. induction l as [|[[st en] c] l IH]; intros p; simpl; [lia|].
  intros (? & ? & H) Hq. split; [done|]. split; [done|]. by apply IH.
Qed.

Lemma chain_lower p p' l q : chain p l q -> (p' <= p)%nat -> chain p' l q.
Proof. destruct l as [|[[st en] c] l]; simpl; intros H Hp; [lia|]. destruct H as (? & ? & ?). split; [lia|done]. Qed.

Lemma chain_app p l l' q q' : chain p l q -> chain q l' q' -> chain p (l ++ l') q'.
Proof.
  revert p. induction l as [|[[st en] c] l IH]; intros p; simpl.
  - intros Hp Hc. by eapply chain_lower.
  - intros (? & ? & H) H'. split; [done|]. split; [done|]. by apply IH.
Qed.

Lemma chain_ends p l q n : chain p l q -> (p <= n)%nat -> Forall (fun x => x.1.2 <= n)%nat l -> chain p l n.
Proof.
  revert p. induction l as [|[[st en] c] l IH]; intros p; simpl; [done|].
  intros (? & ? & H) Hp Hf. apply Forall_cons in Hf as [? Hf]. split; [done|]. split; [done|]. by apply IH.
Qed.

Lemma slice_split p q r (s : list Z) : (p <= q)%nat -> (q <= r)%nat ->
  take (r - p) (drop p s) = take (q - p) (drop p s) ++ take (r - q) (drop q s).
Proof.
  intros Hp Hq. replace (drop q s) with (drop (q - p) (drop p s)) by (rewrite drop_drop; f_equal; lia).
  rewrite take_take_drop. f_equal. lia.
Qed.

Lemma slice_prefix p q (s x : list Z) : (q <= length s)%nat -> take (q - p) (drop p (s ++ x)) = take (q - p) (drop p s).
Proof.
  intros Hq. destruct (le_lt_dec p q) as [Hp|Hp].
  - rewrite drop_app_le by lia. apply take_app_le. rewrite length_drop. lia.
  - replace (q - p)%nat with 0%nat by lia. by rewrite !take_0.
Qed.

Lemma upto_extend p l q q' src : chain p l q -> (q <= q')%nat ->
  upto p l q' src = upto p l q src ++ take (q' - q) (drop q src).
Proof.
  revert p. induction l as [|[[st en] c] l IH]; intros p; simpl; intros H Hq.
  - by apply slice_split.
  - destruct H as (_ & _ & H). by rewrite (IH en H Hq), !app_assoc.
Qed.

Lemma upto_snoc p l start end_ c src : chain p l start ->
  upto p (l ++ [(start, end_, c)]) end_ src = upto p l start src ++ c.
Proof.
  revert p. induction l as [|[[st en] d] l IH]; intros p; simpl; intros H.
  - by rewrite Nat.sub_diag, take_0, app_nil_r.
  - destruct H as (_ & _ & H). by rewrite (IH en H), !app_assoc.
Qed.

Lemma upto_source p l q src x : chain p l q -> (q <= length src)%nat -> upto p l q (src ++ x) = upto p l q src.
Proof.
  revert p. induction l as [|[[st en] c] l IH]; intros p; simpl; intros H Hq.
  - by apply slice_prefix.
  - destruct H as (_ & Hse & H). pose proof (chain_le _ _ _ H). rewrite slice_prefix by lia. by rewrite IH.
Qed.

Lemma replaced_split p l q l' src r : chain p l q -> chain q l' r ->
  replaced p (l ++ l') src = upto p l q src ++ replaced q l' src.
Proof.
  revert p. induction l as [|[[st en] c] l IH]; intros p; simpl; intros H H'.
  - destruct l' as [|[[st' en'] c'] l']; simpl in *.
    + replace (drop q src) with (drop (q - p) (drop p src)) by (rewrite drop_drop; f_equal; lia). by rewrite take_drop.
    + destruct H' as (Hq & _). by rewrite (slice_split p q st'), <- app_assoc by done.
  - destruct H as (_ & _ & H). by rewrite (IH en H H'), <- !app_assoc.
Qed.

(** The first substitution has already delivered [c]. *)
Definition prepend (c : list Z) (l : list piece) : list piece :=
  match l with [] => [] | (start, end_, d) :: l => (start, end_, c ++ d) :: l end.

Lemma prepend_pieces_nil l : prepend [] l = l.
Proof. by destruct l as [|[[st en] c] l]. Qed.

Lemma prepend_pieces_app c l l' : l <> [] -> prepend c (l ++ l') = prepend c l ++ l'.
Proof. by destruct l as [|[[st en] d] l]. Qed.

Lemma chain_prepend c p l q : chain p (prepend c l) q <-> chain p l q.
Proof. by destruct l as [|[[st en] d] l]. Qed.

(** ** The invariant *)

Section Facts.
Context {Q : ByteQueue} {QL : ByteQueueLaws Q}.

Definition piece_of (s : Substitution) : piece := (u_start s, u_end s, default [] (u_input s)).

Definition pieces (r : ReplaceIstream) : list piece := map piece_of (r_substitutions r).

Definition out (r : ReplaceIstream) : list Z := k_output (r_sink r).

(** What was delivered, by the substitutions [added] to the source [src]. *)
Definition delivered (r : ReplaceIstream) (src : list Z) (added : list piece) : Prop :=
  exists done consumed, added = done ++ prepend consumed (pieces r) /\ chain 0 done (r_position r) /\
    out r = upto 0 done (r_position r) src ++ consumed /\
    (consumed = [] \/ (fun p => p.1.1) <$> head (pieces r) = Some (r_position r)).

Record inv (r : ReplaceIstream) (src : list Z) (added : list piece) : Prop := {
  i_len : r_source_length r = length src;
  i_buf : bq_holds (r_buffer r) (drop (r_position r) src);
  i_pos : (r_position r <= length src)%nat;
  i_chain : chain (r_position r) (pieces r) (Nat.max (r_position r) (r_settled_position r));
  i_whole : Forall (fun p => whole (length src) p.1.1 p.1.2 = true) (pieces r);
  i_settled : r_finished r = true \/ (r_position r <= r_settled_position r)%nat /\
                ((r_settled_position r <= length src)%nat \/
                 exists p, p ∈ pieces r /\ r_settled_position r = p.1.2);
  i_last : (r_last_substitution_end r <= r_settled_position r)%nat /\
           match last (pieces r) with Some p => p.1.2 = r_last_substitution_end r | None => True end;
  i_out : delivered r src added }.

Lemma delivered_prefix r src added q : delivered r src added -> chain (r_position r) (pieces r) q ->
  out r `prefix_of` replaced 0 added src.
Proof.
  intros (dn & c & -> & Hd & -> & Hc) Hch.
  rewrite (replaced_split 0 dn (r_position r) _ _ q) by (try done; by apply chain_prepend).
  apply prefix_app. destruct (pieces r) as [|[[st en] d] l]; simpl in *.
  - destruct Hc as [->|?]; [apply prefix_nil|done].
  - destruct Hc as [->|Hs]; [apply prefix_nil|]. injection Hs as ->. rewrite Nat.sub_diag, take_0. simpl.
    rewrite <- app_assoc. by apply prefix_app_r.
Qed.

Lemma inv_prefix r src added : inv r src added -> out r `prefix_of` replaced 0 added src.
Proof. intros H. eapply delivered_prefix; [apply H|apply H]. Qed.

(** What is still to be delivered. *)
Lemma inv_rest r src added : inv r src added ->
  out r ++ replaced (r_position r) (pieces r) src = replaced 0 added src.
Proof.
  intros H. destruct (i_out _ _ _ H) as (dn & c & -> & Hd & -> & Hc).
  rewrite (replaced_split 0 dn (r_position r) _ _ _ Hd (proj2 (chain_prepend c _ _ _) (i_chain _ _ _ H))).
  rewrite <- app_assoc. f_equal. destruct (pieces r) as [|[[st en] d] l]; simpl in *.
  - destruct Hc as [->|?]; done.
  - destruct Hc as [->|Hs]; [done|]. injection Hs as ->. rewrite Nat.sub_diag, take_0. simpl. by rewrite <- app_assoc.
Qed.

Lemma inv_eof r src added : inv r src added -> r_substitutions r = [] -> r_position r = length src ->
  out r = replaced 0 added src.
Proof.
  intros H Hs Hp. rewrite <- (inv_rest _ _ _ H). unfold pieces. rewrite Hs. simpl.
  by rewrite drop_ge, app_nil_r by lia.
Qed.

(** What holds in every state, also after the end. *)
Definition good (r : ReplaceIstream) (src : list Z) (added : list piece) : Prop :=
  out r `prefix_of` replaced 0 added src /\
  match k_life (r_sink r) with
  | Alive => inv r src added /\ (r_input r = false -> r_finished r = true)
  | AtEof => out r = replaced 0 added src
  | _ => True
  end.

Lemma good_alive r src added : good r src added -> r_alive r = true ->
  inv r src added /\ (r_input r = false -> r_finished r = true).
Proof. intros [_ Hg] Ha. apply alive_true in Ha. by rewrite Ha in Hg. Qed.

Lemma good_intro r src added : inv r src added -> r_alive r = true -> (r_input r = false -> r_finished r = true) ->
  good r src added.
Proof. intros Hi Ha Hf. split; [by apply inv_prefix|]. apply alive_true in Ha. by rewrite Ha. Qed.

(** The order of the substitutions. *)
Lemma chain_lookup p l q i s : chain p (map piece_of l) q -> l !! i = Some s ->
  (p <= u_start s <= u_end s)%nat /\ (u_end s <= q)%nat.
Proof.
  revert p i. induction l as [|t l IH]; intros p i; simpl; [done|].
  intros (H1 & H2 & H3) Hi. destruct i as [|i]; simpl in Hi.
  - injection Hi as ->. split; [done|]. by apply chain_le in H3.
  - destruct (IH _ _ H3 Hi). lia.
Qed.

Lemma chain_first p l q f i s : chain p (map piece_of l) q -> head l = Some f -> l !! i = Some s ->
  (u_start f <= u_start s)%nat.
Proof.
  destruct l as [|t l]; simpl; [done|]. intros (H1 & H2 & H3) [= ->] Hi. destruct i as [|i]; simpl in Hi.
  - by injection Hi as ->.
  - pose proof (chain_lookup _ _ _ _ _ H3 Hi). lia.
Qed.

Lemma IsActive_chain i s r q (P : bool -> ReplaceIstream -> Prop) :
  chain (r_position r) (pieces r) q -> r_substitutions r !! i = Some s ->
  P ((i =? 0)%nat && (r_position r =? u_start s)%nat) r -> wp (IsActive i) P r.
Proof.
  intros Hc Hs HP. unfold IsActive. do 3 wp_step.
  assert (exists f, first_substitution r = Some f) as [f Hf].
  { unfold first_substitution. destruct (r_substitutions r); [done|]. by eexists. }
  wp_step; [done|]. wp_step. wp_step; [done|]. wp_step. wp_step.
  { apply Nat.leb_le. by eapply chain_first. }
  wp_step. wp_step; [|by wp_step]. apply Nat.leb_le. apply (chain_lookup _ _ _ i s) in Hc; [lia|done].
Qed.

Lemma IsActive_wp i s r src added (P : bool -> ReplaceIstream -> Prop) :
  inv r src added -> r_substitutions r !! i = Some s ->
  P ((i =? 0)%nat && (r_position r =? u_start s)%nat) r -> wp (IsActive i) P r.
Proof. intros Hi. eapply IsActive_chain, Hi. Qed.

(** The invariant only depends on these parts of the state. *)
Definition view (r : ReplaceIstream) :=
  (r_source_length r, r_settled_position r, r_last_substitution_end r, r_finished r, r_trace r).

Lemma inv_frame r r' src added : inv r src added -> view r' = view r -> pieces r' = pieces r ->
  r_position r' = r_position r -> r_buffer r' = r_buffer r -> out r' = out r -> inv r' src added.
Proof.
  intros [] Hv Hp Hpos Hb Ho. unfold view in Hv. injection Hv as E1 E2 E3 E4 E5.
  constructor; rewrite ?E1, ?E2, ?E3, ?E4, ?Hp, ?Hpos, ?Hb; try done.
  unfold delivered in *. by rewrite Hp, Hpos, Ho.
Qed.

(** The active substitution delivers some of its data. *)
Lemma inv_send r r' src added data c st en l :
  inv r src added -> pieces r = (st, en, data) :: l -> r_position r = st ->
  pieces r' = (st, en, drop c data) :: l -> view r' = view r -> r_position r' = st -> r_buffer r' = r_buffer r ->
  out r' = out r ++ take c data -> inv r' src added.
Proof.
  intros [] Hp Hpos Hp' Hv Hpos' Hb Ho. unfold view in Hv. injection Hv as E1 E2 E3 E4 E5.
  rewrite Hp, Hpos in *. simpl in *. unfold delivered in *. rewrite Hp, Hpos in *.
  constructor; rewrite ?E1, ?E2, ?E3, ?E4, ?Hp', ?Hpos', ?Hb; try done.
  - apply Forall_cons in i_whole0 as [??]. by apply Forall_cons.
  - destruct i_settled0 as [?|[? [?|(p & Hin & Hps)]]]; [by left|by right; split; [|left]|].
    right. split; [done|right]. apply elem_of_cons in Hin as [->|Hin]; [by eexists; split; [left|]|].
    exists p. split; [by right|done].
  - destruct i_last0 as [? Hl]. split; [done|]. destruct l as [|p l]; simpl in *; [done|]. by destruct (last (p :: l)).
  - destruct i_out0 as (dn & co & E & Hd & Hout & _). exists dn, (co ++ take c data). rewrite Hp', Hpos'. simpl in *.
    split; [rewrite E; by rewrite <- (app_assoc co), take_drop|]. split; [done|].
    split; [by rewrite Ho, Hout, <- app_assoc|]. by right.
Qed.

(** The active substitution has delivered all of its data. *)
Lemma inv_pop r r' src added st en l :
  inv r src added -> pieces r = (st, en, []) :: l -> r_position r = st ->
  pieces r' = l -> view r' = view r -> r_position r' = en -> bq_holds (r_buffer r') (drop en src) ->
  out r' = out r -> inv r' src added.
Proof.
  intros [] Hp Hpos Hp' Hv Hpos' Hb Ho. unfold view in Hv. injection Hv as E1 E2 E3 E4 E5.
  rewrite Hp, Hpos in *. simpl in *. unfold delivered in *. rewrite Hp, Hpos in *.
  destruct i_chain0 as (_ & Hse & Hch). pose proof (chain_le _ _ _ Hch) as Hen.
  apply Forall_cons in i_whole0 as [Hw Hws]. simpl in Hw. unfold whole in Hw.
  assert (Hlen : (en <= length src)%nat).
  { apply orb_true_iff in Hw as [?%Nat.leb_le|?%Nat.ltb_lt]; lia. }
  constructor; rewrite ?E1, ?E2, ?E3, ?E4, ?Hp', ?Hpos'; try done.
  - eapply chain_mono; [exact Hch|]. lia.
  - destruct i_settled0 as [?|[? Hs]]; [by left|right]. split; [lia|].
    destruct Hs as [?|(p & Hin & Hps)]; [by left|]. apply elem_of_cons in Hin as [->|Hin]; [left; simpl in *; lia|].
    right. by exists p.
  - destruct i_last0 as [? Hl]. split; [done|]. by destruct l.
  - destruct i_out0 as (dn & co & E & Hd & Hout & _). exists (dn ++ [(st, en, co)]), [].
    rewrite Hp', Hpos', prepend_pieces_nil. simpl in E. rewrite app_nil_r in E.
    split; [by rewrite E, <- app_assoc|]. split; [|split; [|by left]].
    + apply (chain_app _ _ _ st); [done|]. simpl. lia.
    + by rewrite app_nil_r, upto_snoc, Ho.
Qed.

(** Some of the settled source is delivered. *)
Lemma inv_advance r r' src added n :
  inv r src added -> pieces r' = pieces r -> view r' = view r -> r_position r' = (r_position r + n)%nat ->
  bq_holds (r_buffer r') (drop (r_position r + n) src) ->
  (r_position r + n <= length src)%nat ->
  match pieces r with p :: _ => (r_position r + n <= p.1.1)%nat
  | [] => r_finished r = true \/ (r_position r + n <= r_settled_position r)%nat end ->
  out r' = out r ++ take n (drop (r_position r) src) -> inv r' src added.
Proof.
  intros [] Hp Hv Hpos Hb Hlen Hbound Ho. unfold view in Hv. injection Hv as E1 E2 E3 E4 E5.
  constructor; rewrite ?E1, ?E2, ?E3, ?E4, ?Hp, ?Hpos; try done.
  - destruct (pieces r) as [|[[st en] d] l]; simpl in *; [lia|]. destruct i_chain0 as (? & ? & Hch).
    split; [done|]. split; [done|]. eapply chain_mono; [exact Hch|]. lia.
  - destruct i_settled0 as [?|[H1 H2]]; [by left|]. destruct (r_finished r); [by left|right]. split; [|done].
    destruct (pieces r) as [|[[st en] d] l]; [by destruct Hbound|]. simpl in *. destruct i_chain0 as (? & ? & Hch).
    apply chain_le in Hch. lia.
  - destruct i_out0 as (dn & co & E & Hd & Hout & Hc). unfold delivered. rewrite Hp, Hpos.
    destruct (decide (n = 0%nat)) as [->|Hn].
    { exists dn, co. rewrite Nat.add_0_r, Ho, take_0, app_nil_r. done. }
    assert (co = []) as ->.
    { destruct Hc as [?|Hc]; [done|]. destruct (pieces r) as [|p l]; [done|]. injection Hc as Hc. lia. }
    exists dn, []. split; [done|]. split; [eapply chain_mono; [exact Hd|lia]|]. split; [|by left].
    rewrite Ho, Hout, !app_nil_r, (upto_extend 0 dn (r_position r) (r_position r + n)) by (try done; lia).
    do 2 f_equal. lia.
Qed.

(** ** Substitutions *)

(** What reading does not change. *)
Definition shrinks (r r' : ReplaceIstream) : Prop :=
  r_input r' = r_input r /\ view r' = view r /\
  map u_id (r_substitutions r') `suffix_of` map u_id (r_substitutions r).

Lemma shrinks_refl r : shrinks r r.
Proof. by repeat split. Qed.

Lemma shrinks_trans r r1 r2 : shrinks r r1 -> shrinks r1 r2 -> shrinks r r2.
Proof.
  intros (? & ? & ?) (? & ? & ?). split; [congruence|]. split; [congruence|]. by etransitivity.
Qed.

Lemma R_InvokeData_wp x r (P : nat -> ReplaceIstream -> Prop) :
  r_alive r = true -> x <> [] ->
  (forall n k, (n <= length x)%nat -> k_output k = k_output (r_sink r) ++ take n x ->
     alive k = true \/ n = 0%nat /\ k_life k = Closed -> P n (set_r_sink k r)) ->
  wp (R_InvokeData x) P r.
Proof.
  intros Ha Hx HP. destruct (Invoke_spec x (r_sink r)) as (n & k & E & Hn & Ho & Hl); [exact Ha|done|].
  unfold R_InvokeData. do 3 wp_step. wp_step; [exact E|]. do 3 wp_step. by apply HP.
Qed.

Lemma R_Destroy_wp l r (P : unit -> ReplaceIstream -> Prop) :
  r_alive r = true -> P tt (set_r_sink (set_k_life l (r_sink r)) r) -> wp (R_Destroy l) P r.
Proof.
  intros Ha HP. unfold R_Destroy. do 3 wp_step. wp_step; [|by wp_step].
  unfold DestroySink. unfold r_alive in Ha. by rewrite Ha.
Qed.

Lemma buffer_op_wp f r q (P : unit -> ReplaceIstream -> Prop) :
  f (r_buffer r) = Some q -> P tt (set_buffer q r) -> wp (buffer_op f) P r.
Proof. intros E HP. unfold buffer_op. do 3 wp_step. wp_step; [exact E|]. by wp_step. Qed.

(** The pieces determine that the next substitution can be activated; [r0] is the state that the
    invariant speaks of. *)
Lemma ToNextSubstitution_run r r0 src added s rest :
  inv r0 src added -> r_buffer r0 = r_buffer r -> r_substitutions r0 = r_substitutions r -> r_position r0 = r_position r ->
  r_substitutions r = s :: rest -> r_position r = u_start s -> default [] (u_input s) = [] ->
  exists q, ToNextSubstitution r = Some (tt, set_substitutions rest (set_r_position (u_end s) (set_buffer q r))) /\
    forall r', view r' = view r0 -> r_substitutions r' = rest -> r_position r' = u_end s -> r_buffer r' = q ->
      out r' = out r0 -> inv r' src added.
Proof.
  intros Hi Eb Es Ep Hs Hp Hd. pose proof Hi as [].
  assert (Hps : pieces r0 = (u_start s, u_end s, []) :: map piece_of rest).
  { unfold pieces. rewrite Es, Hs. simpl. unfold piece_of at 1. by rewrite Hd. }
  rewrite Hps, Eb, Ep, Hp in *. simpl in *. destruct i_chain0 as (_ & Hse & Hch).
  apply Forall_cons in i_whole0 as [Hw _]. unfold whole in Hw. simpl in Hw.
  assert (Hlen : (u_end s <= length src)%nat).
  { apply orb_true_iff in Hw as [?%Nat.leb_le|?%Nat.ltb_lt]; lia. }
  destruct (bq_skip_ok (u_end s - u_start s) _ _ i_buf0) as (q & Eq & Hq); [rewrite length_drop; lia|].
  exists q. split.
  - unfold ToNextSubstitution, IsActive, first_substitution, buffer_op, mbnd, mget, mopt, massert, mret, mmod, mput.
    rewrite Hs. simpl. rewrite Nat.leb_refl, Hp, Nat.leb_refl, Nat.eqb_refl, Hs, (proj2 (Nat.leb_le _ _) Hse), Eq.
    simpl. destruct rest as [|t rest]; [done|]. simpl in Hch. destruct Hch as [Ht _]. by rewrite (proj2 (Nat.leb_le _ _) Ht).
  - intros r' Hv Hs' Hp' Hb' Ho'. apply (inv_pop r0 r' src added (u_start s) (u_end s) (map piece_of rest)); try done.
    + unfold pieces. by rewrite Hs'.
    + rewrite Hb'. rewrite drop_drop in Hq. by replace (u_start s + _)%nat with (u_end s) in Hq by lia.
Qed.

Lemma ToNextSubstitution_wp r src added s rest :
  inv r src added -> r_substitutions r = s :: rest -> r_position r = u_start s -> default [] (u_input s) = [] ->
  wp ToNextSubstitution (fun _ r' => inv r' src added /\ shrinks r r' /\ r_sink r' = r_sink r /\
    r_substitutions r' = rest) r.
Proof.
  intros Hi Hs Hp Hd. destruct (ToNextSubstitution_run r r src added s rest) as (q & E & Hinv); try done.
  eexists tt, _. split; [exact E|]. split; [by apply Hinv|]. split; [|done].
  split; [done|]. split; [done|]. simpl. rewrite Hs. by exists [u_id s].
Qed.

(** [DestroyEof()] at the end, and what follows a substitution. *)
Lemma DestroyEof_wp r src added (P : unit -> ReplaceIstream -> Prop) :
  inv r src added -> r_alive r = true -> r_substitutions r = [] -> r_position r = length src ->
  (forall r', good r' src added -> shrinks r r' -> r_alive r' = false -> P tt r') -> wp (R_Destroy AtEof) P r.
Proof.
  intros Hi Ha Hs Hp HP. apply R_Destroy_wp; [done|]. apply HP; [|by repeat split|done].
  split; [by apply inv_prefix in Hi|]. simpl. by apply inv_eof in Hi.
Qed.

Lemma RI_IsEOF_true r src added : inv r src added -> RI_IsEOF r = true ->
  r_substitutions r = [] /\ r_position r = length src.
Proof.
  intros Hi. unfold RI_IsEOF, IsBufferAtEOF. rewrite !andb_true_iff, bool_decide_eq_true, Nat.eqb_eq, (i_len _ _ _ Hi).
  tauto.
Qed.

Lemma alter_id_ids f i (l : list Substitution) : (forall s, u_id (f s) = u_id s) -> map u_id (alter f i l) = map u_id l.
Proof.
  intros Hf. revert i. induction l as [|s l IH]; intros [|i]; simpl; [done|done|by rewrite Hf|].
  f_equal. apply IH.
Qed.

Lemma alter_pieces f i (l : list Substitution) s : l !! i = Some s -> piece_of (f s) = piece_of s ->
  map piece_of (alter f i l) = map piece_of l.
Proof.
  revert i. induction l as [|t l IH]; intros [|i]; simpl; [done|done|by intros [= ->] ->|].
  intros Hi Hf. f_equal. by apply (IH i).
Qed.

(** A change of a substitution that does not affect the text. *)
Lemma inv_update r src added i f s : inv r src added -> r_substitutions r !! i = Some s ->
  piece_of (f s) = piece_of s -> inv (update_substitution i f r) src added.
Proof.
  intros Hi Hs Hf. apply (inv_frame r); try done. unfold pieces. simpl. by eapply alter_pieces.
Qed.

Lemma shrinks_update r i f : (forall s, u_id (f s) = u_id s) -> shrinks r (update_substitution i f r).
Proof. intros Hf. split; [done|]. split; [done|]. simpl. by rewrite alter_id_ids. Qed.

Lemma Substitution_OnEof_wp i r src added s : good r src added -> r_alive r = true ->
  r_substitutions r !! i = Some s -> u_input s = Some [] ->
  wp (Substitution_OnEof i) (fun _ r' => good r' src added /\ shrinks r r') r.
Proof.
  intros Hg Ha Hs Hd. destruct (good_alive _ _ _ Hg Ha) as [Hi Hf]. unfold Substitution_OnEof. do 2 wp_step.
  set (r1 := update_substitution i (set_contents None) r).
  assert (Hi1 : inv r1 src added).
  { eapply inv_update; [done|exact Hs|]. unfold piece_of. simpl. by rewrite Hd. }
  assert (H1 : shrinks r r1) by (by apply shrinks_update).
  set (s1 := set_contents None s).
  assert (Hs1 : r_substitutions r1 !! i = Some s1) by (simpl; by rewrite list_lookup_alter_eq, Hs).
  wp_step. eapply (IsActive_wp i s1); [done|done|].
  destruct ((i =? 0)%nat && _) eqn:Eb; [|wp_step; split; [by apply good_intro|done]].
  apply andb_true_iff in Eb as [->%Nat.eqb_eq Hpos%Nat.eqb_eq].
  destruct (r_substitutions r1) as [|s2 rest] eqn:Er; [done|]. simpl in Hs1. injection Hs1 as ->.
  wp_step. eapply wp_mono; [by apply (ToNextSubstitution_wp r1 src added s1 rest)|].
  intros _ r2 (Hi2 & H2 & Hk & Hr2). simpl. do 2 wp_step.
  assert (Ha2 : r_alive r2 = true) by (unfold r_alive; by rewrite Hk).
  assert (H02 : shrinks r r2) by (by eapply shrinks_trans).
  destruct (RI_IsEOF r2) eqn:Ee.
  - destruct (RI_IsEOF_true _ _ _ Hi2 Ee). eapply DestroyEof_wp; try done. intros r3 ? ? _. split; [done|].
    by eapply shrinks_trans.
  - wp_step. split; [|done]. apply good_intro; [by apply (inv_frame r2)|done|].
    destruct H02 as (E1 & E2 & _). simpl. rewrite E1. unfold view in E2. injection E2 as _ _ _ -> _. done.
Qed.

Lemma Substitution_OnError_wp i r src added : good r src added -> r_alive r = true ->
  wp (Substitution_OnError i) (fun _ r' => good r' src added /\ shrinks r r') r.
Proof.
  intros [Hp _] Ha. unfold Substitution_OnError. do 2 wp_step. apply R_Destroy_wp; [done|].
  split; [by split|]. by apply shrinks_update.
Qed.

Lemma feed_one_wp i f r src added : good r src added -> r_alive r = true ->
  wp (feed_one i f) (fun go r' => good r' src added /\ shrinks r r' /\ (go = true -> r_alive r' = true)) r.
Proof.
  intros Hg Ha. destruct (good_alive _ _ _ Hg Ha) as [Hi Hf]. unfold feed_one. do 2 wp_step.
  assert (Hnop : forall go, wp (mret go) (fun go r' => good r' src added /\ shrinks r r' /\ (go = true -> r_alive r' = true)) r).
  { intros go. wp_step. split; [done|]. split; [apply shrinks_refl|done]. }
  destruct (r_substitutions r !! i) as [s|] eqn:Hs; [|done].
  destruct f as [n| |], (u_input s) as [[|z data]|] eqn:Hd; try done.
  - wp_step. unfold Substitution_OnData. wp_step. eapply IsActive_wp; [exact Hi|exact Hs|].
    destruct ((i =? 0)%nat && _) eqn:Eb.
    2: { do 3 wp_step. rewrite Ha. cbn [negb]. do 3 wp_step. rewrite drop_0.
         split; [|split; [by apply shrinks_update|done]]. apply good_intro; [|done|done].
         eapply inv_update; [exact Hi|exact Hs|]. unfold piece_of. simpl. by rewrite Hd. }
    apply andb_true_iff in Eb as [->%Nat.eqb_eq Hpos%Nat.eqb_eq]. do 2 wp_step.
    apply R_InvokeData_wp; [done|done|]. intros c k Hc Ho Hl. do 2 wp_step.
    destruct (r_alive (set_r_sink k _)) eqn:Ea; cbn [negb].
    2: { wp_step. split; [|split; [by repeat split|done]].
         destruct Hl as [Hl|[-> Hl]]; [unfold r_alive in Ea; simpl in Ea; congruence|].
         split; [|simpl; by rewrite Hl]. unfold out. simpl. rewrite Ho, take_0, app_nil_r. apply Hg. }
    do 3 wp_step. split; [|split; [by apply (shrinks_update r 0)|done]]. apply good_intro; [|done|done].
    destruct (r_substitutions r) as [|s0 rest] eqn:Er; [done|]. simpl in Hs. injection Hs as ->.
    apply (inv_send r _ src added (z :: data) c (u_start s) (u_end s) (map piece_of rest)); try done.
    + unfold pieces. rewrite Er. simpl. unfold piece_of at 1. by rewrite Hd.
    + unfold pieces, update_substitution. simpl. rewrite Er. done.
    + unfold out. simpl. rewrite Ho, take_take. do 2 f_equal. rewrite length_take in Hc. simpl in *. lia.
  - wp_step. eapply wp_mono; [by eapply Substitution_OnEof_wp|]. intros _ r' [? ?]. by wp_step.
  - wp_step. eapply wp_mono; [by apply Substitution_OnError_wp|]. intros _ r' [? ?]. by wp_step.
  - wp_step. eapply wp_mono; [by apply Substitution_OnError_wp|]. intros _ r' [? ?]. by wp_step.
Qed.

Lemma feed_all_wp i fs r src added : good r src added -> r_alive r = true ->
  wp (feed_all i fs) (fun _ r' => good r' src added /\ shrinks r r') r.
Proof.
  revert r. induction fs as [|f fs IH]; intros r Hg Ha; cbn [feed_all].
  { wp_step. split; [done|apply shrinks_refl]. }
  wp_step. eapply wp_mono; [by apply feed_one_wp|]. intros go r1 (Hg1 & H1 & Ha1). destruct go.
  - eapply wp_mono; [by apply IH; [|apply Ha1]|]. intros _ r2 [? ?]. split; [done|]. by eapply shrinks_trans.
  - by wp_step.
Qed.

(** ** Reading *)

Definition active (r : ReplaceIstream) : Prop := u_start <$> first_substitution r = Some (r_position r).

Lemma suffix_shorter {A} (l l' : list A) : l' `suffix_of` l -> head l' <> head l -> (length l' < length l)%nat.
Proof.
  intros [k ->] H. destruct k as [|x k]; [done|]. simpl. rewrite length_app. lia.
Qed.

Lemma shrinks_length r r' : shrinks r r' -> (length (r_substitutions r') <= length (r_substitutions r))%nat.
Proof. intros (_ & _ & H). apply suffix_length in H. by rewrite !length_map in H. Qed.

Lemma shrinks_fin r r' : shrinks r r' -> (r_input r = false -> r_finished r = true) ->
  r_input r' = false -> r_finished r' = true.
Proof. intros (-> & Hv & _) Hf. unfold view in Hv. by injection Hv as _ _ _ -> _. Qed.

Definition read_ok (r : ReplaceIstream) (ok : bool) (r' : ReplaceIstream) : Prop :=
  ok = true -> r_alive r' = true /\ ~ active r' /\
    (active r -> length (r_substitutions r') < length (r_substitutions r))%nat.

Lemma ReadSubstitution_loop_wp fuel r src added : good r src added -> r_alive r = true ->
  (length (r_substitutions r) < fuel)%nat ->
  wp (ReadSubstitution_loop fuel) (fun ok r' => good r' src added /\ shrinks r r' /\ read_ok r ok r') r.
Proof.
  revert r. induction fuel as [|fuel IH]; intros r Hg Ha Hl; [lia|]. destruct (good_alive _ _ _ Hg Ha) as [Hi Hf].
  cbn [ReadSubstitution_loop]. do 2 wp_step. destruct (r_substitutions r) as [|s rest] eqn:Hs.
  { wp_step. split; [done|]. split; [apply shrinks_refl|]. intros _. split; [done|].
    unfold active, first_substitution. by rewrite Hs. }
  assert (Hrec : forall r1, good r1 src added -> shrinks r r1 -> r_alive r1 = true ->
    (length (r_substitutions r1) < length (r_substitutions r))%nat ->
    wp (ReadSubstitution_loop fuel) (fun ok r' => good r' src added /\ shrinks r r' /\ read_ok r ok r') r1).
  { intros r1 Hg1 H1 Ha1 Hl1. rewrite Hs in Hl1. simpl in Hl, Hl1. eapply wp_mono; [apply IH; [done|done|lia]|].
    intros ok r2 (Hg2 & H2 & Hr2). split; [done|]. split; [by eapply shrinks_trans|]. intros Hok.
    destruct (Hr2 Hok) as (? & ? & _). split; [done|]. split; [done|]. intros _. apply shrinks_length in H2.
    rewrite Hs. simpl. lia. }
  wp_step. eapply (IsActive_wp 0 s); [exact Hi|by rewrite Hs|]. simpl.
  destruct (Nat.eqb_spec (r_position r) (u_start s)) as [Hp|Hp]; cbn [negb].
  2: { wp_step. split; [done|]. split; [apply shrinks_refl|]. intros _. split; [done|].
       assert (~ active r); [|done]. unfold active, first_substitution. rewrite Hs. simpl. congruence. }
  destruct (u_input s) as [data|] eqn:Hd.
  - wp_step. apply wp_mono with (Q := fun _ r1 => good r1 src added /\ shrinks r r1).
    { unfold Substitution_Read. do 2 wp_step. destruct (r_reads r) as [|fs reads]; [wp_step; split; [done|apply shrinks_refl]|].
      do 2 wp_step. eapply wp_mono; [apply feed_all_wp; [|done]|].
      - apply good_intro; [by apply (inv_frame r)|done|done].
      - intros _ r1 [? H1]. split; [done|]. exact H1. }
    intros _ r1 [Hg1 H1]. do 2 wp_step. destruct (r_alive r1) eqn:Ha1; cbn [negb]; [|by wp_step].
    case_bool_decide as Hid; [by wp_step|]. apply Hrec; try done.
    destruct H1 as (_ & _ & H1). apply suffix_shorter in H1; [by rewrite !length_map in H1|].
    unfold first_substitution in Hid. rewrite Hs. simpl. destruct (r_substitutions r1); simpl in *; congruence.
  - wp_step. eapply wp_mono; [eapply (ToNextSubstitution_wp r src added s rest); try done; by rewrite Hd|].
    intros _ r1 (Hi1 & H1 & Hk & Hs1). simpl. do 2 wp_step.
    assert (Ha1 : r_alive r1 = true) by (unfold r_alive; by rewrite Hk).
    destruct (RI_IsEOF r1) eqn:Ee.
    + destruct (RI_IsEOF_true _ _ _ Hi1 Ee). wp_step. eapply DestroyEof_wp; try done. intros r2 ? ? _. wp_step.
      split; [done|]. split; [by eapply shrinks_trans|done].
    + apply Hrec; try done; [|rewrite Hs1, Hs; simpl; lia]. apply good_intro; [done|done|]. by apply (shrinks_fin r).
Qed.

Lemma ReadSubstitution_wp r src added : good r src added -> r_alive r = true ->
  wp ReadSubstitution (fun ok r' => good r' src added /\ shrinks r r' /\ read_ok r ok r') r.
Proof. intros. unfold ReadSubstitution. do 2 wp_step. apply ReadSubstitution_loop_wp; [done|done|lia]. Qed.

(** The source may be delivered up to [n]. *)
Definition ready_until (r : ReplaceIstream) (src : list Z) (n : nat) : Prop :=
  (n <= length src)%nat /\
  match pieces r with p :: _ => (n <= p.1.1)%nat
  | [] => r_finished r = true \/ (n <= r_settled_position r)%nat end.

(** What delivering source data does not change. *)
Definition same_subs (r r' : ReplaceIstream) : Prop :=
  r_input r' = r_input r /\ view r' = view r /\ r_substitutions r' = r_substitutions r.

Lemma same_subs_shrinks r r' : same_subs r r' -> shrinks r r'.
Proof. intros (? & ? & E). split; [done|]. split; [done|]. by rewrite E. Qed.

Lemma ReadFromBuffer_wp r src added n : good r src added -> r_alive r = true -> (0 < n)%nat ->
  ready_until r src (r_position r + n) ->
  wp (ReadFromBuffer n) (fun rest r' => good r' src added /\ same_subs r r' /\
    (rest = 0%nat -> r_alive r' = true /\ (r_position r < r_position r' <= r_position r + n)%nat)) r.
Proof.
  intros Hg Ha Hn [Hlen Hb]. destruct (good_alive _ _ _ Hg Ha) as [Hi Hf]. unfold ReadFromBuffer.
  wp_step. wp_step; [by apply Nat.ltb_lt|]. do 3 wp_step.
  destruct (bq_read_ok _ _ (i_buf _ _ _ Hi)) as (b & Eb & Hpre & Hne & Hcons).
  assert (Hb0 : b <> []).
  { apply Hne. intros E. apply (f_equal length) in E. rewrite length_drop in E. simpl in E. lia. }
  wp_step; [exact Eb|]. wp_step. wp_step; [by rewrite bool_decide_eq_false_2|]. do 2 wp_step. wp_step.
  assert (Hl0 : (0 < length (take n b))%nat) by (destruct b; [done|]; destruct n; [lia|]; simpl; lia).
  apply R_InvokeData_wp; [done|intros E; rewrite E in Hl0; simpl in Hl0; lia|]. intros c k Hc Ho Hl. simpl in Ho.
  wp_step. wp_step; [by apply Nat.leb_le|].
  destruct (Nat.eqb_spec c 0) as [->|Hc0].
  { wp_step. rewrite take_0, app_nil_r in Ho. split; [|split; [by repeat split|lia]].
    destruct Hl as [Hl|[_ Hl]]; [apply good_intro; [by apply (inv_frame r)|done|done]|].
    split; [|simpl; by rewrite Hl]. unfold out. simpl. rewrite Ho. apply Hg. }
  destruct Hl as [Hl|[? _]]; [|done]. rewrite length_take in Hc.
  destruct (Hcons c) as (q & Eq & Hq); [lia|]. wp_step. eapply buffer_op_wp; [exact Eq|]. do 5 wp_step. wp_step.
  { simpl. apply Nat.leb_le. rewrite (i_len _ _ _ Hi). lia. }
  wp_step. assert (Hi' : inv (set_r_position (r_position r + c) (set_buffer q (set_r_sink k (set_had_output true r)))) src added).
  { apply (inv_advance r _ src added c); try done.
    - simpl. by rewrite drop_drop in Hq.
    - lia.
    - destruct (pieces r); [destruct Hb as [?|?]; [by left|right; lia]|lia].
    - unfold out. simpl. rewrite Ho, take_take. f_equal. destruct Hpre as [y ->].
      rewrite take_app_le by lia. f_equal. lia. }
  split; [by apply good_intro|]. split; [by repeat split|]. intros _. simpl. split; [done|]. lia.
Qed.

Lemma ready_until_same r r' src n : same_subs r r' -> ready_until r src n -> ready_until r' src n.
Proof. intros (_ & Hv & Hs). unfold view in Hv. injection Hv as E1 E2 E3 E4 E5. unfold ready_until, pieces. by rewrite E2, E4, Hs. Qed.

Lemma same_subs_trans r r1 r2 : same_subs r r1 -> same_subs r1 r2 -> same_subs r r2.
Proof. intros (? & ? & ?) (? & ? & ?). repeat split; congruence. Qed.

Lemma ReadFromBufferLoop_wp fuel r src added e : good r src added -> r_alive r = true ->
  ready_until r src e -> (r_position r <= e)%nat -> (e - r_position r <= fuel)%nat ->
  wp (ReadFromBufferLoop fuel e) (fun ok r' => good r' src added /\ same_subs r r' /\
    (ok = true -> r_alive r' = true /\ r_position r' = e)) r.
Proof.
  revert r. induction fuel as [|fuel IH]; intros r Hg Ha Hr Hp Hf; cbn [ReadFromBufferLoop]; do 2 wp_step;
    destruct (Nat.ltb_spec (r_position r) e); try lia; try (wp_step; split; [done|]; split; [by repeat split|]; intros _; split; [done|lia]).
  wp_step. eapply wp_mono; [apply ReadFromBuffer_wp; try done; [lia|]|].
  { by replace (r_position r + (e - r_position r))%nat with e by lia. }
  intros n r1 (Hg1 & H1 & Hn). destruct (Nat.ltb_spec 0 n); [by wp_step|].
  destruct Hn as [Ha1 Hp1]; [lia|]. do 3 wp_step. wp_step; [apply Nat.leb_le; lia|].
  eapply wp_mono; [apply IH; try done; [by apply (ready_until_same r)|lia|lia]|].
  intros ok r2 (? & ? & ?). split; [done|]. split; [by eapply same_subs_trans|done].
Qed.

Lemma TryReadFromBuffer_wp r src added : good r src added -> r_alive r = true ->
  wp TryReadFromBuffer (fun ok r' => good r' src added /\ same_subs r r' /\
    (ok = true -> r_alive r' = true /\
     match r_substitutions r with s :: _ => r_position r' = Nat.min (u_start s) (length src) | [] => True end)) r.
Proof.
  intros Hg Ha. destruct (good_alive _ _ _ Hg Ha) as [Hi Hf]. unfold TryReadFromBuffer. do 3 wp_step.
  pose proof (i_len _ _ _ Hi) as HL. pose proof (i_pos _ _ _ Hi) as HP. pose proof (i_chain _ _ _ Hi) as HC.
  wp_step; [apply Nat.leb_le; lia|].
  destruct (GetBufferEndOffsetUntil (r_position r) (first_substitution r) r) as [e|] eqn:Ee.
  2: { wp_step. split; [done|]. split; [by repeat split|]. intros _. split; [done|].
       revert Ee. unfold first_substitution. by destruct (r_substitutions r). }
  assert (He : ready_until r src e /\ (r_position r <= e)%nat /\
    match r_substitutions r with s :: _ => e = Nat.min (u_start s) (length src) | [] => True end).
  { revert Ee. unfold GetBufferEndOffsetUntil, first_substitution, ready_until. unfold pieces in *. rewrite HL.
    destruct (r_substitutions r) as [|s l] eqn:Es; simpl.
    - destruct (r_finished r) eqn:Efin; [intros [= <-]; split; [split; [lia|by left]|split; [lia|done]]|].
      destruct (Nat.ltb_spec (r_position r) (r_settled_position r)); [|done]. intros [= <-].
      destruct (i_settled _ _ _ Hi) as [?|[_ [Hs|(p & Hin & _)]]]; [congruence| |].
      + split; [split; [done|by right]|]. split; [lia|done].
      + unfold pieces in Hin. rewrite Es in Hin. by apply elem_of_nil in Hin.
    - intros [= <-]. destruct HC as (? & _). split; [split; lia|]. split; [lia|done]. }
  destruct He as (Hr & Hpe & Hs). wp_step. wp_step; [by apply Nat.leb_le|].
  wp_step. wp_step; [apply Nat.leb_le; rewrite HL; apply Hr|]. wp_step.
  eapply wp_mono; [apply ReadFromBufferLoop_wp; try done|]. intros ok r1 (Hg1 & H1 & Hok). simpl.
  destruct ok; cbn [negb]; [|by wp_step]. destruct (Hok eq_refl) as [Ha1 Hp1]. do 3 wp_step.
  wp_step; [by apply Nat.eqb_eq|]. destruct (_ && _) eqn:Eb.
  - wp_step. rewrite !andb_true_iff, bool_decide_eq_true, Nat.eqb_eq in Eb. destruct Eb as [[Eb1 Eb2] _].
    destruct (good_alive _ _ _ Hg1 Ha1) as [Hi1 _]. rewrite (i_len _ _ _ Hi1) in Eb1.
    eapply R_Destroy_wp; [done|]. wp_step. split; [|split; [exact H1|done]].
    split; [by apply inv_prefix in Hi1|]. by apply inv_eof in Hi1.
  - wp_step. split; [done|]. split; [done|]. intros _. split; [done|]. destruct (r_substitutions r); [done|]. by rewrite Hp1.
Qed.

Lemma TryRead_loop_wp fuel r src added : good r src added -> r_alive r = true ->
  (length (r_substitutions r) + 1 < fuel)%nat \/ active r /\ (length (r_substitutions r) < fuel)%nat ->
  wp (TryRead_loop fuel) (fun ok r' => good r' src added /\ shrinks r r' /\ (ok = true -> r_alive r' = true)) r.
Proof.
  revert r. induction fuel as [|fuel IH]; intros r Hg Ha Hl; [lia|]. cbn [TryRead_loop]. wp_step.
  eapply wp_mono; [by apply ReadSubstitution_wp|]. intros ok r1 (Hg1 & H1 & Hr1). simpl.
  destruct ok; cbn [negb]; [|by wp_step]. destruct (Hr1 eq_refl) as (Ha1 & _ & Hlt).
  wp_step. eapply wp_mono; [by apply TryReadFromBuffer_wp|]. intros ok r2 (Hg2 & H2 & Hr2). simpl.
  assert (H02 : shrinks r r2) by (eapply shrinks_trans; [exact H1|]; by apply same_subs_shrinks).
  destruct ok; cbn [negb]; [|by wp_step]. destruct (Hr2 eq_refl) as (Ha2 & Hp2). do 2 wp_step.
  destruct (first_substitution r2) as [s|] eqn:Es; [|by wp_step].
  destruct (Nat.leb_spec (u_start s) (r_source_length r2)) as [Hle|Hgt]; [|by wp_step].
  destruct (good_alive _ _ _ Hg2 Ha2) as [Hi2 _]. rewrite (i_len _ _ _ Hi2) in Hle.
  assert (Hact : active r2).
  { unfold active. rewrite Es. simpl. f_equal. unfold first_substitution in Es. destruct H2 as (_ & _ & H2).
    rewrite H2 in Es. destruct (r_substitutions r1); [done|]. injection Es as ->. rewrite Hp2. lia. }
  eapply wp_mono; [apply IH; [done|done|right; split; [done|]]|].
  - pose proof (shrinks_length _ _ H1). destruct H2 as (_ & _ & ->). destruct Hl as [?|[Hac ?]]; [lia|].
    specialize (Hlt Hac). lia.
  - intros ok r3 (? & ? & ?). split; [done|]. split; [by eapply shrinks_trans|done].
Qed.

Lemma TryRead_wp r src added : good r src added -> r_alive r = true ->
  wp TryRead (fun ok r' => good r' src added /\ shrinks r r' /\ (ok = true -> r_alive r' = true)) r.
Proof.
  intros Hg Ha. destruct (good_alive _ _ _ Hg Ha) as [Hi _]. unfold TryRead. do 3 wp_step.
  wp_step; [apply Nat.leb_le; rewrite (i_len _ _ _ Hi); apply Hi|]. apply TryRead_loop_wp; [done|done|]. left. lia.
Qed.

Lemma DeferredRead_view res r src added : good r src added -> r_alive r = true ->
  wp (DeferredRead res) (fun _ r' => good r' src added /\ view r' = view r) r.
Proof.
  intros Hg Ha. destruct (good_alive _ _ _ Hg Ha) as [Hi Hf]. unfold DeferredRead. do 2 wp_step.
  assert (Hg1 : good (set_defer_read false r) src added) by (apply good_intro; [by apply (inv_frame r)|done|done]).
  destruct res; [by wp_step| |].
  - wp_step. eapply wp_mono; [by apply TryRead_wp|]. intros ok r1 (? & (_ & Hv & _) & _). by wp_step.
  - apply R_Destroy_wp; [done|]. split; [|done]. split; [apply Hg1|done].
Qed.

(** ** The subclass *)

(** The specification of the operations. *)
Definition extend_last (end_ : nat) (l : list piece) : list piece :=
  match last l with Some p => removelast l ++ [(p.1.1, end_, p.2)] | None => [] end.

Definition spec_op (o : client_op) (added : list piece) : list piece :=
  match o with
  | OpAdd start end_ c =>
      if bool_decide (c = None) && (start =? end_)%nat then added else added ++ [(start, end_, default [] c)]
  | OpExtend _ end_ => extend_last end_ added
  | _ => added
  end.

Definition spec_ops (os : list client_op) (added : list piece) : list piece :=
  fold_left (fun l o => spec_op o l) os added.

Lemma extend_last_snoc e l p : extend_last e (l ++ [p]) = l ++ [(p.1.1, e, p.2)].
Proof. unfold extend_last. by rewrite last_snoc, List.removelast_last. Qed.

Lemma chain_snoc p l x q : chain p (l ++ [x]) q <-> chain p l x.1.1 /\ (x.1.1 <= x.1.2)%nat /\ (x.1.2 <= q)%nat.
Proof.
  revert p. induction l as [|[[st en] c] l IH]; intros p; simpl.
  - destruct x as [[st en] c]. simpl. lia.
  - rewrite IH. tauto.
Qed.

Lemma prepend_snoc co l x : exists l' x', prepend co (l ++ [x]) = l' ++ [x'] /\ x'.1 = x.1 /\
  forall e, prepend co (l ++ [(x.1.1, e, x.2)]) = l' ++ [(x'.1.1, e, x'.2)].
Proof.
  destruct l as [|[[st en] c] l]; destruct x as [[sx ex] cx]; simpl.
  - by exists [], (sx, ex, co ++ cx).
  - by exists ((st, en, co ++ c) :: l), (sx, ex, cx).
Qed.

(** The list of substitutions, and what the next one does to it. *)
Lemma delivered_snoc r r' src added p :
  delivered r src added -> r_position r' = r_position r -> out r' = out r -> pieces r' = pieces r ++ [p] ->
  delivered r' src (added ++ [p]).
Proof.
  intros (dn & co & -> & Hd & Ho & Hc) Hp Hout Hps. exists dn, co. rewrite Hp, Hout, Hps, <- app_assoc.
  destruct (pieces r) as [|x l] eqn:Ex; simpl in *.
  - destruct Hc as [->|?]; [|done]. destruct p as [[? ?] ?]. split; [done|]. split; [done|]. split; [done|by left].
  - destruct x as [[? ?] ?]. by split_and!.
Qed.

Lemma delivered_extend r r' src added l x e :
  delivered r src added -> r_position r' = r_position r -> out r' = out r -> pieces r = l ++ [x] ->
  pieces r' = l ++ [(x.1.1, e, x.2)] -> delivered r' src (extend_last e added).
Proof.
  intros (dn & co & -> & Hd & Ho & Hc) Hp Hout Hps Hps'. exists dn, co. rewrite Hp, Hout, Hps', Hps in *.
  destruct (prepend_snoc co l x) as (l' & x' & -> & _ & ->). rewrite app_assoc, extend_last_snoc, <- app_assoc.
  split; [done|]. split; [done|]. split; [done|]. destruct Hc as [?|Hc]; [by left|right]. by destruct l.
Qed.

Definition client_ok (r : ReplaceIstream) (src : list Z) (added : list piece) (v : client_view) (r' : ReplaceIstream) : Prop :=
  inv r' src added /\ r_sink r' = r_sink r /\ r_input r' = r_input r /\ view_of r' = v /\
  r_source_length r' = r_source_length r /\ r_position r' = r_position r /\ r_trace r' = r_trace r.

Lemma pieces_last r : last (pieces r) = piece_of <$> last (r_substitutions r).
Proof. unfold pieces. apply fmap_last. Qed.

Lemma op_settled r src added : inv r src added -> r_finished r = false ->
  (r_position r <= r_settled_position r)%nat /\
  chain (r_position r) (pieces r) (r_settled_position r).
Proof.
  intros Hi Hf. destruct (i_settled _ _ _ Hi) as [?|[Hs _]]; [congruence|]. split; [done|].
  pose proof (i_chain _ _ _ Hi) as Hc. by rewrite Nat.max_r in Hc.
Qed.

Lemma R_Add_wp start end_ c r src added : inv r src added -> op_ok (OpAdd start end_ c) (view_of r) = true ->
  wp (R_Add start end_ c) (fun _ => client_ok r src (spec_op (OpAdd start end_ c) added)
    (op_next (OpAdd start end_ c) (view_of r))) r.
Proof.
  intros Hi Hok. unfold op_ok in Hok. simpl in Hok. rewrite !andb_true_iff, !Nat.leb_le, negb_true_iff in Hok.
  destruct Hok as (Hf & (Hse & Hst) & Hw). destruct (op_settled _ _ _ Hi Hf) as [Hps Hch].
  destruct (i_last _ _ _ Hi) as [Hle _]. unfold R_Add. do 3 wp_step. wp_step; [by rewrite Hf|].
  wp_step. wp_step; [by apply Nat.leb_le|]. wp_step. wp_step; [by apply Nat.leb_le|].
  wp_step. wp_step; [apply Nat.leb_le; lia|]. simpl. destruct (bool_decide (c = None) && _) eqn:Ec.
  { wp_step. by split. }
  do 9 wp_step. split; [|split_and!; try done; simpl; unfold view_of; simpl; by rewrite last_snoc].
  pose proof Hi as []. assert (Hpn : forall r', r_substitutions r' = r_substitutions r ++ [mkSubst (r_next_id r) start end_ c 0 false] ->
    pieces r' = pieces r ++ [(start, end_, default [] c)]).
  { intros r' E. unfold pieces. by rewrite E, map_app. }
  constructor; rewrite ?Hpn by done; simpl; try done.
  - apply chain_snoc. simpl. split; [eapply chain_mono; [exact Hch|lia]|]. split; [done|]. lia.
  - apply Forall_app. split; [done|]. apply Forall_cons. split; [|done]. simpl. by rewrite <- i_len0.
  - right. split; [lia|right]. exists (start, end_, default [] c). split; [|done]. apply elem_of_app. right. by left.
  - rewrite last_snoc. simpl. lia.
  - apply (delivered_snoc r); try done. by apply Hpn.
Qed.

Lemma alter_last_snoc {A} (f : A -> A) l x : alter f (pred (length (l ++ [x]))) (l ++ [x]) = l ++ [f x].
Proof.
  rewrite length_app. simpl. replace (pred (length l + 1)) with (length l + 0)%nat by lia.
  by rewrite alter_app_r.
Qed.

Lemma R_Extend_wp start end_ r src added : inv r src added -> op_ok (OpExtend start end_) (view_of r) = true ->
  wp (R_Extend start end_) (fun _ => client_ok r src (spec_op (OpExtend start end_) added)
    (op_next (OpExtend start end_) (view_of r))) r.
Proof.
  intros Hi Hok. unfold op_ok in Hok. simpl in Hok.
  rewrite !andb_true_iff, bool_decide_eq_true, !Nat.leb_le, negb_true_iff in Hok.
  destruct Hok as (Hf & (Hl & Hse) & Hlen). destruct (op_settled _ _ _ Hi Hf) as [Hps Hch].
  destruct (i_last _ _ _ Hi) as [Hle Hlast].
  destruct (last (r_substitutions r)) as [s|] eqn:El; [|done]. simpl in Hl. injection Hl as Hs1 Hs2.
  apply last_Some in El as [l El]. rewrite pieces_last, El, last_snoc in Hlast. simpl in Hlast.
  unfold R_Extend. do 3 wp_step. wp_step; [by rewrite Hf|]. wp_step. unfold GetLastSubstitution. do 3 wp_step.
  wp_step; [by rewrite El, last_snoc|]. wp_step. wp_step; [apply Nat.leb_le; lia|].
  wp_step. wp_step; [by apply Nat.eqb_eq|]. wp_step. wp_step. wp_step; [by apply Nat.eqb_eq|].
  wp_step. wp_step; [by apply Nat.eqb_eq|]. wp_step. wp_step; [by apply Nat.eqb_eq|].
  wp_step. wp_step; [apply Nat.leb_le; lia|]. do 5 wp_step.
  assert (Hp : pieces r = map piece_of l ++ [piece_of s]) by (unfold pieces; by rewrite El, map_app).
  set (r' := set_last_end _ _).
  assert (Hs' : r_substitutions r' = l ++ [set_end end_ s]) by (simpl; rewrite El; apply alter_last_snoc).
  assert (Hp' : pieces r' = map piece_of l ++ [((piece_of s).1.1, end_, (piece_of s).2)]).
  { unfold pieces. by rewrite Hs', map_app. }
  split; [|split_and!; try done; unfold view_of; rewrite Hs', last_snoc; simpl; by rewrite Hs1].
  pose proof Hi as []. rewrite Hp in *. apply chain_snoc in Hch as (Hc1 & Hc2 & Hc3). simpl in Hc2, Hc3.
  apply Forall_app in i_whole0 as [Hw _].
  constructor; rewrite ?Hp'; simpl; try done.
  - apply chain_snoc. simpl. split; [done|]. lia.
  - apply Forall_app. split; [done|]. apply Forall_cons. split; [|done]. simpl. unfold whole.
    apply orb_true_iff. left. apply Nat.leb_le. lia.
  - right. split; [lia|]. left. lia.
  - rewrite last_snoc. simpl. split; [lia|done].
  - by eapply (delivered_extend r r').
Qed.

Lemma run_op_wp o r src added : inv r src added -> op_ok o (view_of r) = true ->
  wp (run_op o) (fun _ => client_ok r src (spec_op o added) (op_next o (view_of r))) r.
Proof.
  intros Hi Hok. destruct o as [start end_ c|start end_|offset|]; [by apply R_Add_wp|by apply R_Extend_wp| |].
  - unfold op_ok in Hok. simpl in Hok. rewrite !andb_true_iff, !Nat.leb_le, negb_true_iff in Hok.
    destruct Hok as (Hf & Hs & Hl). destruct (op_settled _ _ _ Hi Hf) as [Hps Hch].
    unfold run_op, R_Settle. do 3 wp_step. wp_step; [by rewrite Hf|]. wp_step. wp_step; [by apply Nat.leb_le|].
    do 3 wp_step. split; [|done]. pose proof Hi as []. constructor; simpl; try done.
    + eapply chain_mono; [exact Hch|]. lia.
    + right. split; [lia|]. left. lia.
    + destruct i_last0. split; [lia|done].
  - unfold op_ok in Hok. rewrite andb_true_r, negb_true_iff in Hok. simpl in Hok. unfold run_op, R_Finish. do 3 wp_step.
    wp_step; [by rewrite Hok|]. do 3 wp_step. split; [|done]. pose proof Hi as []. constructor; simpl; try done. by left.
Qed.

Lemma run_ops_wp os r src added v : inv r src added -> ops_result os (view_of r) = Some v ->
  wp (run_ops os) (fun _ => client_ok r src (spec_ops os added) v) r.
Proof.
  revert r added. induction os as [|o os IH]; intros r added Hi Hv; cbn [run_ops ops_result] in *.
  { injection Hv as <-. wp_step. by split. }
  destruct (op_ok o (view_of r)) eqn:Ho; [|done]. wp_step. eapply wp_mono; [by apply run_op_wp|].
  intros _ r1 (Hi1 & K1 & I1 & V1 & L1 & P1 & T1). eapply wp_mono; [by apply (IH r1 (spec_op o added)); [|rewrite V1]|].
  intros _ r2 (Hi2 & K2 & I2 & V2 & L2 & P2 & T2). split; [done|]. split_and!; congruence.
Qed.

(** ** The input *)

Lemma inv_append r r' src added x : inv r src added ->
  forallb (fun s => whole (r_source_length r + length x) (u_start s) (u_end s)) (r_substitutions r) = true ->
  r_substitutions r' = r_substitutions r -> r_source_length r' = (r_source_length r + length x)%nat ->
  r_settled_position r' = r_settled_position r -> r_last_substitution_end r' = r_last_substitution_end r ->
  r_finished r' = r_finished r -> r_position r' = r_position r -> out r' = out r ->
  bq_holds (r_buffer r') (drop (r_position r) src ++ x) -> inv r' (src ++ x) added.
Proof.
  intros [] Hw Hs HL Hse Hla Hfi Hpo Ho Hb. assert (Hp : pieces r' = pieces r) by (unfold pieces; by rewrite Hs).
  constructor; rewrite ?HL, ?Hse, ?Hla, ?Hfi, ?Hpo, ?Hp, ?length_app; try done.
  - lia.
  - by rewrite drop_app_le.
  - lia.
  - rewrite i_len0 in Hw. unfold pieces. apply Forall_map, Forall_forall. intros s Hin.
    rewrite forallb_forall in Hw. by apply Hw, list_elem_of_In.
  - destruct i_settled0 as [?|[? [?|?]]]; [by left|right; split; [done|left; lia]|right; split; [done|by right]].
  - destruct i_out0 as (dn & co & E & Hd & Hout & Hc). exists dn, co. rewrite Hp, Hpo, Ho, upto_source by done. by split_and!.
Qed.
End Facts.
