(* ===== verification/ReplaceStream.v ===== *)
(** * The replacing istream in its environment

    The input, the subclass, the istreams of the substitutions and the consumer act in any order;
    [R_step] is one event.  The theorems say that no assertion fails and that
    what is delivered is the source with all substitutions.  The second half is about the bucket
    lists. *)

From S2P Require Import Prelude Bucket Chunked GrowingBuffer Sink ByteQueue Replace ReplaceFacts.

#[local] Open Scope beng_scope.

Section Stream.
Context {Q : ByteQueue} {QL : ByteQueueLaws Q}.

(** ** The input *)

(** The source that was parsed and the substitutions that were made, according to the log. *)
Definition source_of (r : ReplaceIstream) : list Z := concat (map fst (r_trace r)).
Definition added_of (r : ReplaceIstream) : list piece := spec_ops (concat (map snd (r_trace r))) [].

(** No input is accepted after the limit. *)
Definition limited (r : ReplaceIstream) : Prop :=
  forall t x os t', r_trace r = t ++ (x, os) :: t' -> x <> [] ->
    Z.of_nat (length (concat (map fst t))) < SOURCE_LIMIT.

Definition sound (r : ReplaceIstream) : Prop := good r (source_of r) (added_of r) /\ limited r.

Definition invr (r : ReplaceIstream) : Prop := inv r (source_of r) (added_of r) /\ limited r.

Lemma sound_alive r : sound r -> r_alive r = true -> invr r /\ (r_input r = false -> r_finished r = true).
Proof. intros [Hg Hl] Ha. destruct (good_alive _ _ _ Hg Ha). by split. Qed.

Lemma sound_intro r : invr r -> r_alive r = true -> (r_input r = false -> r_finished r = true) -> sound r.
Proof. intros [Hi Hl] Ha Hf. split; [by apply good_intro|done]. Qed.

Lemma invr_prefix r r' : invr r -> r_trace r' = r_trace r -> out r' = out r ->
  out r' `prefix_of` replaced 0 (added_of r') (source_of r') /\ limited r'.
Proof. intros [Hi Hl] Ht Ho. unfold added_of, source_of, limited. rewrite Ht, Ho. split; [by apply inv_prefix in Hi|done]. Qed.

(** Reading does not change the log. *)
Lemma sound_view r r' : view r' = view r -> limited r -> good r' (source_of r) (added_of r) -> sound r'.
Proof.
  intros Hv Hl Hg. unfold view in Hv. injection Hv as _ _ _ _ Ht. unfold sound, source_of, added_of, limited. by rewrite Ht.
Qed.

Lemma R_Parse_wp x a r v : inv r (source_of r ++ x) (added_of r) -> ops_result a.1 (view_of r) = Some v ->
  limited r -> (x <> [] -> Z.of_nat (length (source_of r)) < SOURCE_LIMIT) ->
  wp (R_Parse x a) (fun ex r' => ex = a.2 /\ invr r' /\ view_of r' = v /\ r_sink r' = r_sink r /\
    r_input r' = r_input r /\ r_position r' = r_position r) r.
Proof.
  intros Hi Hv Hlim Hx. unfold R_Parse. wp_step. eapply wp_mono; [by apply run_ops_wp|].
  intros _ r1 (Hi1 & K1 & I1 & V1 & L1 & P1 & T1). do 3 wp_step. split; [done|]. split; [|by split_and!].
  assert (Es : source_of (set_trace (r_trace r1 ++ [(x, a.1)]) r1) = source_of r ++ x).
  { unfold source_of. simpl. by rewrite map_app, concat_app, T1; simpl; rewrite app_nil_r. }
  assert (Ea : added_of (set_trace (r_trace r1 ++ [(x, a.1)]) r1) = spec_ops a.1 (added_of r)).
  { unfold added_of. simpl. rewrite map_app, concat_app, T1. simpl. rewrite app_nil_r.
    unfold spec_ops. by rewrite fold_left_app. }
  split.
  - rewrite Es, Ea. pose proof Hi1 as []. by constructor.
  - intros t y os t' Ht Hy. simpl in Ht. rewrite T1 in Ht.
    destruct (exists_last (l := (y, os) :: t')) as (l & z & El); [done|]. rewrite El, app_assoc in Ht.
    apply app_inj_tail in Ht as [Ht <-]. destruct l as [|w l].
    + simpl in El. injection El as -> _ _. rewrite app_nil_r in Ht. subst t. by apply Hx.
    + injection El as <- El. by apply (Hlim t y os l).
Qed.

Lemma RI_AppendToBuffer_wp x a r : invr r -> data_ok x a r = true ->
  wp (RI_AppendToBuffer x a) (fun _ r' => invr r' /\ r_sink r' = r_sink r /\ r_input r' = r_input r /\
    r_position r' = r_position r) r.
Proof.
  intros [Hi Hlim] Hd. unfold data_ok in Hd. rewrite !andb_true_iff, negb_true_iff, bool_decide_eq_false in Hd.
  destruct Hd as ((Hx & Hw) & Hv). destruct (ops_result a.1 _) as [v|] eqn:Ev; [|done].
  unfold RI_AppendToBuffer. do 2 wp_step. destruct (Z.leb_spec SOURCE_LIMIT (Z.of_nat (r_source_length r))) as [|Hlt].
  { wp_step. by split. }
  wp_step. destruct (bq_write_ok x _ _ (i_buf _ _ _ Hi)) as (q & Eq & Hq). eapply buffer_op_wp; [exact Eq|]. do 2 wp_step.
  eapply wp_mono; [apply (R_Parse_wp x a _ v)|].
  - apply (inv_append r); try done.
  - exact Ev.
  - done.
  - intros _. rewrite (i_len _ _ _ Hi) in Hlt. exact Hlt.
  - intros ex r1 (_ & ? & _ & ? & ? & ?). by split_and!.
Qed.

Lemma invr_frame r r' : invr r -> view r' = view r -> r_substitutions r' = r_substitutions r ->
  r_position r' = r_position r -> r_buffer r' = r_buffer r -> out r' = out r -> invr r'.
Proof.
  intros [Hi Hl] Hv Hs Hp Hb Ho. pose proof Hv as Hv'. unfold view in Hv'. injection Hv' as _ _ _ _ Ht.
  unfold invr, source_of, added_of, limited. rewrite Ht. split; [|done].
  apply (inv_frame r); try done. unfold pieces. by rewrite Hs.
Qed.

Lemma destroyed_sound l r : invr r -> r_alive r = true -> l <> AtEof -> l <> Alive ->
  sound (set_r_sink (set_k_life l (r_sink r)) r).
Proof.
  intros Hi Ha H1 H2. destruct (invr_prefix r (set_r_sink (set_k_life l (r_sink r)) r) Hi) as [Hp Hl]; [done|done|].
  split; [|done]. split; [done|]. by destruct l.
Qed.

Lemma R_OnData_wp x a r : invr r -> r_alive r = true -> r_input r = true -> data_ok x a r = true ->
  wp (R_OnData x a) (fun _ => sound) r.
Proof.
  intros Hi Ha Hin Hd. unfold R_OnData. do 5 wp_step.
  eapply wp_mono; [apply RI_AppendToBuffer_wp; [by apply (invr_frame r)|done]|].
  intros ex r1 (Hi1 & K1 & I1 & _). simpl in K1, I1.
  assert (Ha1 : r_alive r1 = true) by (unfold r_alive; by rewrite K1).
  destruct ex. { wp_step. apply R_Destroy_wp; [done|]. wp_step. by apply destroyed_sound. }
  assert (Hs1 : sound r1) by (apply sound_intro; [done|done|congruence]).
  do 2 wp_step. wp_step. apply wp_mono with (Q := fun _ => sound); [|intros _ r2 ?; by wp_step].
  destruct (GetBufferEndOffsetUntil _ _ _) as [e|]; [|by wp_step]. destruct (_ <? e)%nat; [|by wp_step].
  do 3 wp_step. apply sound_intro; [|done|simpl; congruence]. by apply (invr_frame r1).
Qed.

Lemma R_OnEof_wp a r : invr r -> r_alive r = true -> end_ok a r = true -> wp (R_OnEof a) (fun _ => sound) r.
Proof.
  intros [Hi Hlim] Ha He. unfold end_ok in He. destruct (ops_result a.1 (view_of r)) as [v|] eqn:Ev; [|done].
  unfold R_OnEof. do 3 wp_step. eapply wp_mono; [apply (R_Parse_wp [] a _ v)|].
  - rewrite app_nil_r. by apply (inv_frame r).
  - exact Ev.
  - done.
  - done.
  - intros ex r1 (-> & Hi1 & V1 & K1 & I1 & _). simpl in K1, I1.
    assert (Ha1 : r_alive r1 = true) by (unfold r_alive; by rewrite K1).
    destruct a.2; [apply R_Destroy_wp; [done|]; by apply destroyed_sound|].
    assert (Hf : r_finished r1 = true) by (by rewrite <- V1 in He). do 3 wp_step. wp_step; [done|].
    destruct (RI_IsEOF r1) eqn:Ee.
    + destruct Hi1 as [Hi1 Hl1]. destruct (RI_IsEOF_true _ _ _ Hi1 Ee). eapply DestroyEof_wp; try done.
      intros r2 Hg (_ & Hv & _) _. by apply (sound_view r1).
    + wp_step. apply sound_intro; [|done|done]. by apply (invr_frame r1).
Qed.

Lemma run_input_wp i r : sound r -> wp (run_input i) (fun _ => sound) r.
Proof.
  intros Hs. unfold run_input. do 2 wp_step. destruct (input_ok i r) eqn:Ei; [|by wp_step].
  unfold input_ok in Ei. rewrite !andb_true_iff in Ei. destruct Ei as ((Ha & Hin) & Hok).
  destruct (sound_alive r Hs Ha) as [Hi Hf]. destruct i as [x a|a|].
  - wp_step. eapply wp_mono; [by apply R_OnData_wp|]. intros n r1 ?. by wp_step.
  - by apply R_OnEof_wp.
  - unfold R_OnError. do 2 wp_step. apply R_Destroy_wp; [done|]. apply destroyed_sound; [|done|done|done].
    by apply (invr_frame r).
Qed.

Lemma run_inputs_wp l r : sound r -> wp (run_inputs l) (fun _ => sound) r.
Proof.
  intros Hs. unfold run_inputs. eapply wp_mono; [apply (wp_mfor (fun _ => sound)); [|exact Hs]|done].
  intros x l' r1 Hs1. by apply run_input_wp.
Qed.

(** Flags that do not matter. *)
Lemma sound_flag r r' : sound r -> r_alive r = true -> view r' = view r -> r_substitutions r' = r_substitutions r ->
  r_position r' = r_position r -> r_buffer r' = r_buffer r -> r_sink r' = r_sink r -> r_input r' = r_input r -> sound r'.
Proof.
  intros Hs Ha Hv Hsub Hp Hb Hk Hin. destruct (sound_alive r Hs Ha) as [[Hi Hl] Hf]. apply (sound_view r); [done|done|].
  apply good_intro.
  - apply (inv_frame r); try done; [unfold pieces; by rewrite Hsub|unfold out; by rewrite Hk].
  - unfold r_alive. by rewrite Hk.
  - rewrite Hin. unfold view in Hv. injection Hv as _ _ _ -> _. done.
Qed.

Lemma R_Read_loop_wp plans r : sound r -> r_alive r = true -> wp (R_Read_loop plans) (fun _ => sound) r.
Proof.
  revert r. induction plans as [|p plans IH]; intros r Hs Ha; cbn [R_Read_loop]; do 2 wp_step;
    assert (Hs1 : sound (set_had_input false r)) by (by apply (sound_flag r)).
  { by wp_step. }
  wp_step. eapply wp_mono; [by apply run_inputs_wp|]. intros ? r2 Hs2. simpl. do 2 wp_step.
  destruct (r_alive r2) eqn:Ha2; simpl; [|by wp_step].
  destruct (_ && r_input r2); [by apply IH|by wp_step].
Qed.

Lemma RI_Read_wp plans r : sound r -> r_alive r = true -> wp (RI_Read plans) (fun _ => sound) r.
Proof.
  intros Hs Ha. destruct Hs as [Hg Hl]. unfold RI_Read. wp_step. eapply wp_mono; [by apply TryRead_wp|].
  intros ok r1 (Hg1 & (_ & Hv & _) & Ha1). assert (Hs1 : sound r1) by (by apply (sound_view r)). simpl.
  destruct ok; cbn [negb]; [|by wp_step]. specialize (Ha1 eq_refl). do 2 wp_step.
  destruct (r_input r1); cbn [negb]; [|by wp_step]. do 2 wp_step. apply R_Read_loop_wp; [|done]. by apply (sound_flag r1).
Qed.
End Stream.

(** ** The replacing istream: bucket lists

    What [_FillBucketList()] shows is a part of the text that is still to be delivered, and
    [_ConsumeBucketList()] consumes exactly as much as it is asked to. *)

#[local] Open Scope beng_scope.

(** ** Bucket lists that grow *)

(** A beginning of [x] was added, and all of it unless the list says that there is more. *)
Definition grows (b b' : IstreamBucketList) (x : list Z) : Prop :=
  bytes b' `prefix_of` bytes b ++ x /\
  (more b' = false -> more b = false /\ bytes b' = bytes b ++ x) /\
  (IsFull b = true -> bytes b' = bytes b).

Lemma grows_refl b : grows b b [].
Proof. split; [|split]; rewrite ?app_nil_r; done. Qed.

Lemma grows_more b b' x y : grows b b' x -> grows b (SetMore b') (x ++ y).
Proof.
  intros (H1 & _ & H3). split; [|split; [done|done]]. rewrite app_assoc.
  etransitivity; [exact H1|]. by apply prefix_app_r.
Qed.

Lemma grows_app b b' x y : grows b b' x -> more b' = true -> grows b b' (x ++ y).
Proof.
  intros (H1 & _ & H3) Hm. split; [|split; [congruence|done]]. rewrite app_assoc.
  etransitivity; [exact H1|]. by apply prefix_app_r.
Qed.

Lemma extends_grows a b c x y : extends a b x -> grows b c y -> grows a c (x ++ y).
Proof.
  intros (k & E1 & E2 & E3 & E4) (H1 & H2 & H3). split; [|split].
  - destruct E3 as [E3|E3].
    + rewrite take_ge in E1 by done. by rewrite app_assoc, <- E1.
    + rewrite (H3 E3), E1, app_assoc. apply prefix_app_r, prefix_app. by apply prefix_take.
  - intros Hm. destruct (H2 Hm) as [Hb ->]. destruct (E2 Hb) as [Ha Hk]. rewrite E1, take_ge by done.
    by rewrite <- app_assoc.
  - intros Ha. destruct (E4 Ha) as [Eb Hf]. by rewrite (H3 Hf).
Qed.

Lemma extends_as_grows a b x : extends a b x -> grows a b x.
Proof. intros H. rewrite <- (app_nil_r x). eapply extends_grows; [exact H|]. apply grows_refl. Qed.

(** Without the flag, the limit alone does not mean that there is more. *)
Lemma splice_max_noflag src : forall max b t, 0 <= max ->
  let '(n, b') := splice_max src max false b t in
  n = t + Z.of_nat (length (take (Z.to_nat max) (concat src))) /\
  extends b b' (take (Z.to_nat max) (concat src)).
Proof.
  induction src as [|x src IH]; intros max b t Hmax; simpl.
  { rewrite take_nil. split; [simpl; lia|apply extends_refl]. }
  destruct (Z.eqb_spec max 0) as [->|Hz]; [simpl; split; [lia|apply extends_refl]|].
  destruct (Z.ltb_spec max (Z.of_nat (length x))) as [Hlt|Hge]; simpl.
  - assert (Hl : Z.of_nat (length (take (Z.to_nat max) x)) = max) by (rewrite length_take; lia).
    rewrite Hl, Z.sub_diag. specialize (IH 0 (Push (take (Z.to_nat max) x) b) (t + max) ltac:(lia)).
    destruct (splice_max _ _ _ _ _) as [n b']. simpl in IH. destruct IH as [-> He]. apply extends_Push in He.
    rewrite app_nil_r in He. rewrite take_app_le by lia. split; [lia|done].
  - specialize (IH (max - Z.of_nat (length x)) (Push x b) (t + Z.of_nat (length x)) ltac:(lia)).
    destruct (splice_max _ _ _ _ _) as [n b']. destruct IH as [-> He].
    apply extends_Push in He. rewrite take_app_ge by lia.
    replace (Z.to_nat (max - Z.of_nat (length x))) with (Z.to_nat max - length x)%nat in * by lia.
    rewrite !length_app. split; [lia|done].
Qed.

Lemma copy_flags_full src b : IsFull (copy_flags src b) = IsFull b.
Proof. unfold copy_flags. destruct (HasMore src); [|done]. by destruct (ShouldFallback src && IsEmpty src). Qed.

Lemma SpliceBuffersFrom_extends src b :
  extends b (SpliceBuffersFrom src b).2 (bytes src) /\
  (more (SpliceBuffersFrom src b).2 = false -> more src = false).
Proof.
  unfold SpliceBuffersFrom. pose proof (splice_all_spec (buckets src) (copy_flags src b) 0) as Hs.
  destruct (splice_all _ _ _) as [n b']. destruct Hs as [_ (k & E1 & E2 & E3 & E4)]. simpl.
  destruct (copy_flags_bytes src b) as [Eb Em]. rewrite Eb, copy_flags_full in *. rewrite Em in E2. split.
  - exists k. split; [done|]. split; [|done]. intros Hm. destruct (E2 Hm) as [[? _]%orb_false_iff ?]. done.
  - intros Hm. by destruct (E2 Hm) as [[_ ?]%orb_false_iff _].
Qed.

Section Buckets.
Context {Q : ByteQueue} {QL : ByteQueueLaws Q}.

(** ** What the istreams of the substitutions show *)

Lemma cut_prefix sizes data : concat (cut sizes data) `prefix_of` data.
Proof.
  revert data. induction sizes as [|n sizes IH]; intros data; cbn [cut]; [apply prefix_nil|].
  destruct (take (S n) data) as [|z x] eqn:E; [apply prefix_nil|]. cbn [concat].
  rewrite <- E. etransitivity; [apply prefix_app, IH|]. by rewrite take_drop.
Qed.

Lemma push_all_extends l : forall b, extends b (fold_left (fun l b => Push b l) l b) (concat l).
Proof. induction l as [|c l IH]; intros b; simpl; [apply extends_refl|]. apply extends_Push, IH. Qed.

Lemma show_buckets_spec sizes more0 data : let l := show_buckets sizes more0 data in
  bytes l `prefix_of` data /\ (HasMore l = false -> bytes l = data).
Proof.
  unfold show_buckets. set (l := fold_left _ _ _).
  assert (Hp : bytes l `prefix_of` data).
  { destruct (push_all_extends (cut sizes data) IstreamBucketList_new) as (k & E & _). unfold l. rewrite E. simpl.
    etransitivity; [apply prefix_take|apply cut_prefix]. }
  fold (bytes l). destruct (more0 || _) eqn:Em; [done|]. split; [done|]. intros _.
  apply orb_false_iff in Em as [_ Hl]. apply Nat.ltb_ge in Hl. destruct Hp as [y Hy].
  pose proof (f_equal length Hy) as Hlen. rewrite length_app in Hlen.
  destruct y; [by rewrite app_nil_r in Hy|]. simpl in Hlen. lia.
Qed.

(** The bytes that were shown are a part of the data, and all of it if there was no more. *)
Definition shown_ok (s : Substitution) : Prop :=
  match u_input s with
  | Some data => (u_shown s <= length data)%nat /\ (u_all s = true -> u_shown s = length data)
  | None => True
  end.

(** What the bucket list shows from [p] on. *)
Fixpoint visible (p : nat) (subs : list Substitution) (r : ReplaceIstream) (src : list Z) : list Z :=
  match GetBufferEndOffsetUntil p (head subs) r with
  | None => []
  | Some e =>
      take (e - p) (drop p src) ++
      match subs with
      | [] => []
      | s :: subs =>
          if (e <? u_start s)%nat then []
          else match u_input s with
          | None => visible (u_end s) subs r src
          | Some data => take (u_shown s) data ++ (if u_all s then visible (u_end s) subs r src else [])
          end
      end
  end.

(** The part of the state that the loops over the substitutions look at. *)
Record fillable (p : nat) (subs : list Substitution) (r : ReplaceIstream) (src : list Z) : Prop := {
  f_len : r_source_length r = length src;
  f_pos : (p <= length src)%nat;
  f_chain : exists q, chain p (map piece_of subs) q;
  f_whole : Forall (fun p => whole (length src) p.1.1 p.1.2 = true) (map piece_of subs);
  f_settled : r_finished r = true \/ (r_settled_position r <= length src)%nat \/
              exists p, p ∈ map piece_of subs /\ r_settled_position r = p.1.2 }.

Lemma fillable_first p s subs r src : fillable p (s :: subs) r src ->
  (p <= u_start s)%nat /\ (u_start s <= u_end s)%nat /\
  ((u_start s <= length src)%nat -> fillable (u_end s) subs r src).
Proof.
  intros [Hl Hp [q (H1 & H2 & H3)] Hw Hs]. split; [done|]. split; [done|]. intros Hst. simpl in *.
  apply Forall_cons in Hw as [Hw Hws]. unfold whole in Hw. simpl in Hw.
  assert (Hen : (u_end s <= length src)%nat).
  { apply orb_true_iff in Hw as [?%Nat.leb_le|?%Nat.ltb_lt]; lia. }
  split; try done; [by exists q|]. destruct Hs as [?|[?|(x & Hin & Hx)]]; [by left|by right; left|].
  right. apply elem_of_cons in Hin as [->|Hin]; [left; simpl in Hx; lia|right; by exists x].
Qed.

Lemma fillable_end p subs r src e : fillable p subs r src -> GetBufferEndOffsetUntil p (head subs) r = Some e ->
  (p <= e)%nat /\ (e <= length src)%nat.
Proof.
  intros Hf. unfold GetBufferEndOffsetUntil. destruct subs as [|s subs]; simpl.
  - destruct Hf as [Hl Hp _ _ Hs]. rewrite Hl. destruct (r_finished r); [intros [= <-]; lia|].
    destruct (Nat.ltb_spec p (r_settled_position r)); [|done]. intros [= <-]. split; [lia|].
    destruct Hs as [?|[?|(x & Hin & _)]]; [done|done|]. by apply elem_of_nil in Hin.
  - destruct (fillable_first _ _ _ _ _ Hf) as (? & _). destruct Hf as [Hl Hp _ _ _]. rewrite Hl. intros [= <-]. lia.
Qed.

(** [p] may lie ahead of the position, which is where the buffer begins. *)
Lemma fill_buffer_spec p e l r src : bq_holds (r_buffer r) (drop (r_position r) src) ->
  (r_position r <= p)%nat -> (p <= e)%nat -> (e <= length src)%nat ->
  let '(ok, l') := fill_buffer p e l r in
  if ok : bool then extends l l' (take (e - p) (drop p src)) else grows l l' (take (e - p) (drop p src)) /\ more l' = true.
Proof.
  intros Hb Hp Hpe Hel. unfold fill_buffer. destruct (Nat.ltb_spec p e) as [Hlt|Hge].
  2: { replace (e - p)%nat with 0%nat by lia. rewrite take_0. apply extends_refl. }
  pose proof (bq_fill_ok (p - r_position r) _ _ IstreamBucketList_new Hb) as Hfill.
  rewrite drop_drop in Hfill. replace (r_position r + (p - r_position r))%nat with p in Hfill by lia.
  set (tmp := bq_fill _ _ _) in *. destruct Hfill as (k & Ek & _). simpl in Ek.
  unfold SpliceBuffersFrom_max. pose proof (splice_max_noflag (buckets tmp) (Z.of_nat (e - p)) l 0 ltac:(lia)) as Hs.
  destruct (splice_max _ _ _ _ _) as [n l']. fold (bytes tmp) in Hs. rewrite Ek, Nat2Z.id in Hs. destruct Hs as [-> Hx].
  set (T := take (e - p) (drop p src)). assert (HT : length T = (e - p)%nat) by (unfold T; rewrite length_take, length_drop; lia).
  rewrite take_take in Hx |- *. replace (take (Nat.min (e - p) k) (drop p src)) with (take k T) in *
    by (unfold T; rewrite take_take; f_equal; lia).
  rewrite length_take, HT. destruct (Z.ltb_spec (0 + Z.of_nat (Nat.min k (e - p))) (Z.of_nat (e - p))).
  - split; [|done]. rewrite <- (take_drop k T). apply grows_more. by apply extends_as_grows.
  - by rewrite take_ge in Hx by lia.
Qed.

Lemma fill_substitutions_spec subs : forall shows p l r src,
  fillable p subs r src -> bq_holds (r_buffer r) (drop (r_position r) src) -> (r_position r <= p)%nat ->
  Forall shown_ok subs ->
  exists o subs', fill_substitutions subs shows p l r = Some (o, subs') /\
    map piece_of subs' = map piece_of subs /\ map u_id subs' = map u_id subs /\ Forall shown_ok subs' /\
    match o with
    | None => True
    | Some l' => grows l l' (visible p subs' r src) /\
                 (more l' = false -> r_input r = false /\ r_finished r = true /\
                    visible p subs' r src = replaced p (map piece_of subs) src)
    end.
Proof.
  induction subs as [|s subs IH]; intros shows p l r src Hf Hb Hp Hok.
  - cbn [fill_substitutions]. destruct (GetBufferEndOffsetUntil p (head []) r) as [e|] eqn:Ee.
    2: { eexists _, _. split; [done|]. do 3 (split; [done|]). unfold head in Ee; cbn [visible head]; rewrite Ee. split; [|done].
         apply (grows_more l l []), grows_refl. }
    destruct (fillable_end _ _ _ _ _ Hf Ee) as [Hpe Hel]. rewrite (f_len _ _ _ _ Hf).
    rewrite (proj2 (Nat.leb_le _ _) Hpe), (proj2 (Nat.leb_le _ _) Hel). cbn [andb negb].
    pose proof (fill_buffer_spec p e l r src Hb Hp Hpe Hel) as Hfb. destruct (fill_buffer p e l r) as [ok l1].
    unfold head in Ee.
    assert (Hvis : visible p [] r src = take (e - p) (drop p src)).
    { cbn [visible head]. by rewrite Ee, app_nil_r. }
    destruct ok; cbn [negb].
    2: { eexists _, _. split; [done|]. do 3 (split; [done|]). rewrite Hvis. split; [apply Hfb|].
         destruct Hfb as [_ Hm]. congruence. }
    eexists _, _. split; [done|]. do 3 (split; [done|]). rewrite Hvis. apply extends_as_grows in Hfb.
    destruct (r_input r || negb (r_finished r)) eqn:Eb.
    + split; [|done]. rewrite <- (app_nil_r (take _ _)). by apply grows_more.
    + apply orb_false_iff in Eb as [Ei Efin]. apply negb_false_iff in Efin. split; [done|]. intros _. split; [done|].
      split; [done|]. unfold GetBufferEndOffsetUntil in Ee. simpl in Ee. rewrite Efin in Ee. injection Ee as <-.
      rewrite (f_len _ _ _ _ Hf). simpl. apply take_ge. rewrite length_drop. lia.
  - cbn [fill_substitutions]. destruct (GetBufferEndOffsetUntil p (head (s :: subs)) r) as [e|] eqn:Ee; [|done].
    destruct (fillable_end _ _ _ _ _ Hf Ee) as [Hpe Hel]. rewrite (f_len _ _ _ _ Hf).
    rewrite (proj2 (Nat.leb_le _ _) Hpe), (proj2 (Nat.leb_le _ _) Hel). cbn [andb negb].
    destruct (fillable_first _ _ _ _ _ Hf) as (Hps & Hse & Hnext).
    assert (He : e = Nat.min (u_start s) (length src)) by (simpl in Ee; rewrite (f_len _ _ _ _ Hf) in Ee; congruence).
    pose proof (fill_buffer_spec p e l r src Hb Hp Hpe Hel) as Hfb. destruct (fill_buffer p e l r) as [ok l1].
    destruct ok; cbn [negb].
    2: { eexists _, _. split; [done|]. do 3 (split; [done|]). destruct Hfb as [Hfb Hm]. split; [|congruence].
         unfold head in Ee; cbn [visible head]; rewrite Ee. by apply grows_app. }
    destruct (Nat.ltb_spec e (u_start s)) as [Hlt|Hge].
    { eexists _, _. split; [done|]. do 3 (split; [done|]). split; [|done]. unfold head in Ee; cbn [visible head]; rewrite Ee.
      rewrite (proj2 (Nat.ltb_lt _ _) Hlt). apply grows_more. by apply extends_as_grows. }
    assert (e = u_start s) as -> by lia. specialize (Hnext ltac:(lia)).
    apply Forall_cons in Hok as [Hok Hoks].
    unfold Substitution_FillBucketList. destruct (u_input s) as [data|] eqn:Ed.
    2: { unfold HasMore. cbn [IstreamBucketList_new more].
         destruct (SpliceBuffersFrom_extends IstreamBucketList_new l1) as [Hx _].
         destruct (IH (tl shows) (u_end s) (SpliceBuffersFrom IstreamBucketList_new l1).2 r src) as (o & subs' & -> & P1 & P2 & P3 & P4);
           [done|done|lia|done|].
         eexists _, _. split; [done|]. simpl map. rewrite P1, P2. do 2 (split; [done|]). split; [by constructor|].
         destruct o as [l2|]; [|done]. destruct P4 as [G4 M4]. unfold head in Ee; cbn [visible head]; rewrite Ee, Nat.ltb_irrefl, Ed.
         split; [|intros Hm; destruct (M4 Hm) as (? & ? & ->); split; [done|]; split; [done|]; simpl; by rewrite Ed].
         eapply extends_grows; [exact Hfb|]. apply (extends_grows l1 _ l2 [] _ Hx G4). }
    destruct (hd (Show [] true) shows) as [sizes more0|].
    2: { eexists _, _. split; [done|]. do 2 (split; [done|]). split; [by constructor|done]. }
    destruct (show_buckets_spec sizes more0 data) as [Hsp Hsm]. set (tmp := show_buckets sizes more0 data) in *.
    assert (Hok' : shown_ok (set_shown tmp s)).
    { unfold shown_ok. simpl. rewrite Ed. fold (bytes tmp). split; [by apply prefix_length|].
      intros Hm. apply negb_true_iff in Hm. by rewrite (Hsm Hm). }
    assert (Hsh : take (u_shown (set_shown tmp s)) data = bytes tmp).
    { simpl. fold (bytes tmp). destruct Hsp as [y Hy]. rewrite Hy. apply take_app_length. }
    destruct (SpliceBuffersFrom_extends tmp l1) as [Hx Hxm].
    destruct (HasMore tmp) eqn:Em.
    { eexists _, _. split; [done|]. do 2 (split; [done|]). split; [by constructor|].
      split; [|intros Hm; specialize (Hxm Hm); unfold HasMore in Em; congruence].
      cbn [visible head]. change (u_input (set_shown tmp s)) with (u_input s). rewrite Ed.
      change (u_all (set_shown tmp s)) with (negb (HasMore tmp)). rewrite Em, Hsh.
      cbn [negb]. change (GetBufferEndOffsetUntil p (Some (set_shown tmp s)) r) with (GetBufferEndOffsetUntil p (Some s) r).
      cbn [head] in Ee. rewrite Ee. change (u_start (set_shown tmp s)) with (u_start s). rewrite Nat.ltb_irrefl, app_nil_r.
      eapply extends_grows; [exact Hfb|]. by apply extends_as_grows. }
    destruct (IH (tl shows) (u_end s) (SpliceBuffersFrom tmp l1).2 r src) as (o & subs' & E4 & P1 & P2 & P3 & P4);
      [done|done|lia|done|].
    change (u_end (set_shown tmp s)) with (u_end s). rewrite E4.
    eexists _, _. split; [done|]. simpl map. rewrite P1, P2. do 2 (split; [done|]). split; [by constructor|].
    destruct o as [l2|]; [|done]. destruct P4 as [G4 M4].
    cbn [visible head]. change (u_input (set_shown tmp s)) with (u_input s). rewrite Ed.
    change (u_all (set_shown tmp s)) with (negb (HasMore tmp)). rewrite Em, Hsh.
    cbn [negb]. change (GetBufferEndOffsetUntil p (Some (set_shown tmp s)) r) with (GetBufferEndOffsetUntil p (Some s) r).
    cbn [head] in Ee. rewrite Ee. change (u_start (set_shown tmp s)) with (u_start s). rewrite Nat.ltb_irrefl.
    change (u_end (set_shown tmp s)) with (u_end s).
    split; [eapply extends_grows; [exact Hfb|]; by eapply extends_grows|].
    intros Hm. destruct (M4 Hm) as (? & ? & ->). split; [done|]. split; [done|]. rewrite (Hsm eq_refl). simpl. by rewrite Ed.
Qed.

(** ** Consuming *)

(** The consumer has taken [x]. *)
Definition recv (x : list Z) (l : phase) (r : ReplaceIstream) : ReplaceIstream :=
  set_r_sink (mkSink l (k_handler (r_sink r)) (k_output (r_sink r) ++ x)) r.

Abbreviation took x r := (recv x (k_life (r_sink r)) r).

Lemma visible_view p subs r r' src : view r' = view r -> visible p subs r' src = visible p subs r src.
Proof.
  intros Hv. unfold view in Hv. injection Hv as E1 E2 E3 E4 E5. revert p. induction subs as [|s subs IH]; intros p;
    cbn [visible head]; unfold GetBufferEndOffsetUntil; rewrite ?E1, ?E2, ?E4; [done|]. by rewrite IH.
Qed.

Lemma inv_fillable r src added : inv r src added -> fillable (r_position r) (r_substitutions r) r src.
Proof.
  intros Hi. constructor; [apply Hi|apply Hi|eexists; apply Hi|apply Hi|].
  destruct (i_settled _ _ _ Hi) as [?|[_ ?]]; [by left|by right].
Qed.

(** What consuming does not change. *)
Definition consumes (r r' : ReplaceIstream) : Prop :=
  r_sink r' = r_sink r /\ r_input r' = r_input r /\ view r' = view r.

Lemma consumes_trans r r1 r2 : consumes r r1 -> consumes r1 r2 -> consumes r r2.
Proof. intros (? & ? & ?) (? & ? & ?). repeat split; congruence. Qed.

Lemma advance_buffer_wp n x r src added : inv (took x r) src added -> ready_until r src (r_position r + n) ->
  wp (advance_buffer n) (fun _ r' => inv (took (x ++ take n (drop (r_position r) src)) r') src added /\ consumes r r' /\
    r_substitutions r' = r_substitutions r /\ r_position r' = (r_position r + n)%nat) r.
Proof.
  intros Hi [Hl Hb]. unfold advance_buffer. do 2 wp_step.
  destruct (bq_skip_ok n _ _ (i_buf _ _ _ Hi)) as (q & Eq & Hq); [simpl; rewrite length_drop; lia|].
  eapply buffer_op_wp; [exact Eq|]. split; [|by repeat split].
  eapply (inv_advance (took x r) _ src added n); try done.
  - simpl in *. by rewrite drop_drop in Hq.
  - unfold out. simpl. by rewrite app_assoc.
Qed.

Lemma ToNext_consumes r x src added s rest :
  inv (took x r) src added -> r_substitutions r = s :: rest -> r_position r = u_start s -> default [] (u_input s) = [] ->
  wp ToNextSubstitution (fun _ r' => inv (took x r') src added /\ consumes r r' /\ r_substitutions r' = rest /\
    r_position r' = u_end s) r.
Proof.
  intros Hi Hs Hp Hd. destruct (ToNextSubstitution_run r (took x r) src added s rest) as (q & E & Hinv); try done.
  eexists tt, _. split; [exact E|]. split; [by apply Hinv|]. by repeat split.
Qed.

Definition consumed (n total : nat) (x : list Z) (r : ReplaceIstream) (src : list Z) (added : list piece)
    (res : nat) (r' : ReplaceIstream) : Prop :=
  res = (total + n)%nat /\ consumes r r' /\
  inv (took (x ++ take n (visible (r_position r) (r_substitutions r) r src)) r') src added.

(** The first substitution, when the source before it has been consumed. *)
Lemma consume_substitution_wp fuel n total x r src added s rest :
  (forall x r n total, inv (took x r) src added -> Forall shown_ok (r_substitutions r) ->
     (0 < n <= length (visible (r_position r) (r_substitutions r) r src))%nat ->
     (length (r_substitutions r) < fuel)%nat -> wp (consume_loop fuel n total) (consumed n total x r src added) r) ->
  inv (took x r) src added -> r_substitutions r = s :: rest -> r_position r = u_start s -> shown_ok s ->
  Forall shown_ok rest -> (length rest < fuel)%nat -> (0 < n)%nat ->
  let V := match u_input s with
           | None => visible (u_end s) rest r src
           | Some data => take (u_shown s) data ++ (if u_all s then visible (u_end s) rest r src else [])
           end in
  (n <= length V)%nat ->
  wp (let! active := IsActive 0 in
      massert active ;;;
      let '(c, eof, s) := Substitution_ConsumeBucketList n s in
      mmod (update_substitution 0 (fun _ => s)) ;;;
      let total := (total + c)%nat in
      let nbytes := (n - c)%nat in
      (if eof then ToNextSubstitution else mret tt) ;;;
      if (nbytes =? 0)%nat then mret total
      else massert eof ;;; consume_loop fuel nbytes total)
    (fun res r' => res = (total + n)%nat /\ consumes r r' /\ inv (took (x ++ take n V) r') src added) r.
Proof.
  intros IH Hi Hs Hp Hok Hoks Hf Hn V HV. wp_step.
  assert (Hact : wp (IsActive 0) (fun b r' => b = true /\ r' = r) r).
  { eapply (IsActive_chain 0 s r); [exact (i_chain _ _ _ Hi)|by rewrite Hs|]. split; [|done]. by apply Nat.eqb_eq. }
  eapply wp_mono; [exact Hact|]. intros b r1 [-> ->]. wp_step. wp_step; [done|].
  unfold Substitution_ConsumeBucketList. unfold V in HV |- *. unfold shown_ok in Hok. destruct (u_input s) as [data|] eqn:Ed.
  2: { do 3 wp_step. rewrite Nat.sub_0_r, Nat.add_0_r.
       assert (Hsub : r_substitutions (update_substitution 0 (fun _ => s) r) = s :: rest) by (simpl; by rewrite Hs).
       assert (Hi0 : inv (took x (update_substitution 0 (fun _ => s) r)) src added).
       { apply (inv_frame (took x r)); try done. unfold pieces. simpl. by rewrite Hs. }
       eapply wp_mono; [eapply (ToNext_consumes _ x src added s rest); [exact Hi0|done|done|by rewrite Ed]|].
       simpl. intros _ r1 (Hi1 & H1 & S1 & P1). destruct (Nat.eqb_spec n 0); [lia|]. do 2 wp_step.
       assert (Hvis : visible (r_position r1) (r_substitutions r1) r1 src = visible (u_end s) rest r src).
       { rewrite S1, P1. apply visible_view, H1. }
       eapply wp_mono; [apply (IH x r1 n total Hi1); [by rewrite S1|rewrite Hvis; lia|by rewrite S1]|].
       unfold consumed. rewrite Hvis. intros res r2 (-> & H2 & Hi2). split; [done|]. split; [|done].
       eapply consumes_trans; [|exact H2]. exact H1. }
  destruct Hok as [Hsl Hall]. set (c := Nat.min n (u_shown s)). set (eof := u_all s && _).
  rewrite length_app, length_take in HV.
  assert (Hc : (n - c <> 0)%nat -> u_all s = true /\ c = u_shown s).
  { intros Hne. split; [|unfold c; lia]. destruct (u_all s); [done|]. simpl in HV. unfold c in Hne. lia. }
  assert (Heof : (n - c <> 0)%nat -> eof = true).
  { intros Hne. destruct (Hc Hne) as [Ha ->]. unfold eof. rewrite Ha, (Hall Ha). simpl. by apply Nat.eqb_refl. }
  do 2 wp_step. set (s' := mkSubst _ _ _ _ _ _). set (r1 := update_substitution 0 (fun _ => s') r).
  assert (S1 : r_substitutions r1 = s' :: rest) by (simpl; by rewrite Hs).
  assert (Hi1 : inv (took (x ++ take c data) r1) src added).
  { eapply (inv_send (took x r) _ src added data c (u_start s) (u_end s) (map piece_of rest)); try done.
    - unfold pieces. simpl. rewrite Hs. simpl. unfold piece_of at 1. by rewrite Ed.
    - unfold pieces. simpl. by rewrite Hs.
    - unfold out. simpl. by rewrite app_assoc. }
  assert (Hcd : (c <= length data)%nat) by (unfold c; lia).
  wp_step. apply wp_mono with (Q := fun _ r2 => consumes r r2 /\ inv (took (x ++ take c data) r2) src added /\
    (eof = true -> r_substitutions r2 = rest /\ r_position r2 = u_end s)).
  { destruct eof eqn:Ee.
    - eapply wp_mono; [eapply (ToNext_consumes r1 _ src added s' rest Hi1 S1 Hp)|].
      + simpl. apply andb_true_iff in Ee as [_ Ee]. apply Nat.eqb_eq in Ee. by rewrite drop_ge by lia.
      + simpl. intros _ r2 (? & ? & ? & ?). split; [|done]. done.
    - wp_step. split; [by repeat split|done]. }
  simpl. intros _ r2 (H2 & Hi2 & Hn2). destruct (Nat.eqb_spec (n - c) 0) as [Hz|Hz].
  - wp_step. split; [unfold c in *; lia|]. split; [done|].
    rewrite take_app_le, take_take by (rewrite length_take; unfold c in *; lia).
    by replace (Nat.min n (u_shown s)) with c.
  - destruct (Hc Hz) as [Ha Hcs]. destruct (Hn2 (Heof Hz)) as [S2 P2]. wp_step. wp_step; [by apply Heof|].
    rewrite Ha in HV |- *.
    assert (Hvis : visible (r_position r2) (r_substitutions r2) r2 src = visible (u_end s) rest r src).
    { rewrite S2, P2. apply visible_view, H2. }
    eapply wp_mono; [apply (IH _ r2 (n - c)%nat (total + c)%nat Hi2); [by rewrite S2|rewrite Hvis; lia|by rewrite S2]|].
    unfold consumed. rewrite Hvis. intros res r3 (-> & H3 & Hi3). split; [lia|]. split; [by eapply consumes_trans|].
    rewrite <- app_assoc in Hi3. rewrite (take_app_ge _ _ n) by (rewrite length_take; lia). rewrite length_take.
    replace (Nat.min (u_shown s) (length data)) with c by lia. by rewrite <- Hcs.
Qed.

Lemma consume_loop_wp fuel : forall x r n total src added, inv (took x r) src added -> Forall shown_ok (r_substitutions r) ->
  (0 < n <= length (visible (r_position r) (r_substitutions r) r src))%nat ->
  (length (r_substitutions r) < fuel)%nat -> wp (consume_loop fuel n total) (consumed n total x r src added) r.
Proof.
  induction fuel as [|fuel IH]; intros x r n total src added Hi Hok Hn Hf; [lia|].
  assert (Hfill : fillable (r_position r) (r_substitutions r) r src) by (by destruct (inv_fillable _ _ _ Hi)).
  cbn [consume_loop]. do 3 wp_step. destruct (GetBufferEndOffsetUntil (r_position r) (first_substitution r) r) as [e|] eqn:Ee.
  2: { exfalso. destruct (r_substitutions r) eqn:Es; unfold first_substitution in Ee; rewrite Es in Ee; [|done].
       cbn [visible] in Hn. unfold head in *. rewrite Ee in Hn. simpl in Hn. lia. }
  wp_step; [done|]. pose proof Ee as Ee'. unfold first_substitution in Ee'.
  assert (Hfe : (r_position r <= e)%nat /\ (e <= length src)%nat).
  { by eapply fillable_end. }
  destruct Hfe as [Hpe Hel].
  assert (Hready : forall m, (m <= e)%nat -> ready_until r src m).
  { intros m Hm. split; [lia|]. unfold pieces. revert Ee'. unfold GetBufferEndOffsetUntil.
    rewrite (f_len _ _ _ _ Hfill). destruct (r_substitutions r); simpl; [|intros [= <-]; lia].
    destruct (r_finished r); [by left|]. destruct (_ <? _)%nat; [|done]. intros [= <-]. by right. }
  set (b := (e - r_position r)%nat). set (S := take b (drop (r_position r) src)).
  assert (HS : length S = b) by (unfold S; rewrite length_take, length_drop; unfold b; lia).
  assert (Hvis : visible (r_position r) (r_substitutions r) r src = S ++
    match r_substitutions r with
    | [] => []
    | s :: subs =>
        if (e <? u_start s)%nat then []
        else match u_input s with
        | None => visible (u_end s) subs r src
        | Some data => take (u_shown s) data ++ (if u_all s then visible (u_end s) subs r src else [])
        end
    end).
  { destruct (r_substitutions r); cbn [visible]; by rewrite Ee'. }
  destruct ((r_position r <? e)%nat && (n <=? b)%nat) eqn:Eb.
  { apply andb_true_iff in Eb as [_ Eb]. apply Nat.leb_le in Eb. wp_step.
    eapply wp_mono; [eapply (advance_buffer_wp n x); [exact Hi|apply Hready; unfold b in Eb; lia]|].
    simpl. intros _ r1 (Hi1 & H1 & _). wp_step. split; [done|]. split; [done|]. rewrite Hvis, take_app_le by lia.
    unfold S. rewrite take_take. by rewrite Nat.min_l. }
  assert (Hb : (b < n)%nat).
  { apply andb_false_iff in Eb as [Eb|Eb]; [apply Nat.ltb_ge in Eb; unfold b; lia|by apply Nat.leb_gt in Eb]. }
  wp_step. apply wp_mono with (Q := fun _ r1 => inv (took (x ++ S) r1) src added /\ consumes r r1 /\
    r_substitutions r1 = r_substitutions r /\ r_position r1 = e).
  { destruct (Nat.ltb_spec (r_position r) e) as [Hlt|Hge].
    - eapply wp_mono; [eapply (advance_buffer_wp b x); [exact Hi|apply Hready; unfold b; lia]|].
      intros _ r1 (? & ? & ? & ?). split; [done|]. split; [done|]. split; [done|]. unfold b in *. lia.
    - wp_step. assert (S = []) as -> by (apply nil_length_inv; rewrite HS; unfold b; lia).
      rewrite app_nil_r. split; [done|]. split; [by repeat split|]. split; [done|]. lia. }
  intros _ r1 (Hi1 & H1 & S1 & P1). simpl. unfold first_substitution. rewrite Hvis, length_app, HS in Hn.
  destruct (r_substitutions r) as [|s rest] eqn:Hs; [simpl in Hn; lia|]. simpl head.
  destruct (Nat.ltb_spec e (u_start s)) as [Hlt|Hge]; [simpl in Hn; lia|].
  assert (He : e = u_start s).
  { simpl in Ee'. rewrite (f_len _ _ _ _ Hfill) in Ee'. injection Ee' as <-. lia. }
  apply Forall_cons in Hok as [Hok Hoks]. simpl in Hf.
  eapply wp_mono; [eapply (consume_substitution_wp fuel (n - b) (total + b) (x ++ S) r1 src added s rest)|].
  - intros x' r' n' total'. by apply IH.
  - exact Hi1.
  - done.
  - congruence.
  - done.
  - done.
  - lia.
  - lia.
  - rewrite (visible_view _ _ r r1) by apply H1. lia.
  - cbv beta. rewrite (visible_view _ _ r r1) by apply H1. intros res r2 (-> & H2 & Hi2).
    split; [lia|]. split; [by eapply consumes_trans|]. rewrite Hs, Hvis. rewrite (take_app_ge S) by lia. rewrite HS.
    by rewrite app_assoc.
Qed.
End Buckets.
