(* ===== verification/ReplaceRun.v ===== *)
(** * The replacing istream: all events

    The theorems about the replacing istream, for every sequence of events. *)

From S2P Require Import Prelude GrowingBuffer Bucket Chunked Sink ByteQueue Replace ReplaceFacts ReplaceStream.

#[local] Open Scope beng_scope.

Section Run.
Context {Q : ByteQueue} {QL : ByteQueueLaws Q}.

(** ** Events *)

(** The protocol for the buckets of the input. *)
Fixpoint buckets_ok (bs : list (list Z * answer)) (more : bool) (a : answer) (r : ReplaceIstream) : bool :=
  match bs with
  | [] => more || end_ok a r
  | (b, x) :: bs =>
      data_ok b x r &&
      match RI_AppendToBuffer b x r with Some (false, r) => buckets_ok bs more a r | _ => true end
  end.

(** The consumer asks for buckets and then consumes up to [k] bytes of them.  An empty
    list without more data is the end.  [None] is a failed assertion, or a number of bytes other than
    the one that was asked for. *)
Definition R_bucket_step (bs : list (list Z * answer)) (more fb : bool) (a : answer) (shows : list show)
    (k : nat) (r : ReplaceIstream) : option ReplaceIstream :=
  match RI_FillBucketList bs more fb a shows IstreamBucketList_new r with
  | None => None
  | Some (None, r) => Some r
  | Some (Some l, r) =>
      let k := Nat.min k (length (bytes l)) in
      if (k =? 0)%nat then
        Some (if bool_decide (bytes l = []) && negb (HasMore l) then recv [] AtEof r else r)
      else
        match RI_ConsumeBucketList k r with
        | None => None
        | Some ((n, eof), r) =>
            if (n =? k)%nat then Some (recv (take k (bytes l)) (if eof then AtEof else Alive) r) else None
        end
  end.

Inductive replace_event :=
  | RvInput (i : input_action)
  | RvFeed (i : nat) (f : feed)
  | RvRead (plans : list (list input_action))
  | RvDefer (res : ready_result)
  | RvBuckets (bs : list (list Z * answer)) (more fb : bool) (a : answer) (shows : list show) (k : nat)
  | RvClose.

Definition exec {A} (m : M ReplaceIstream A) (r : ReplaceIstream) : option ReplaceIstream :=
  match m r with Some (_, r) => Some r | None => None end.

(** An event that cannot happen is ignored. *)
Definition R_step (e : replace_event) (r : ReplaceIstream) : option ReplaceIstream :=
  if negb (r_alive r) then Some r
  else match e with
  | RvInput i => exec (run_input i) r
  | RvFeed i f => exec (feed_one i f) r
  | RvRead plans => exec (RI_Read plans) r
  | RvDefer res => if r_defer_read r then exec (DeferredRead res) r else Some r
  | RvBuckets bs more fb a shows k =>
      if negb (r_input r) || buckets_ok bs more a r then R_bucket_step bs more fb a shows k r else Some r
  | RvClose => exec (R_Destroy Closed) r
  end.

Fixpoint R_run (es : list replace_event) (r : ReplaceIstream) : option ReplaceIstream :=
  match es with
  | [] => Some r
  | e :: es => match R_step e r with Some r => R_run es r | None => None end
  end.

(** ** Filling a bucket list *)

Lemma exec_wp {A} (m : M ReplaceIstream A) (P : ReplaceIstream -> Prop) r :
  wp m (fun _ => P) r -> exists r', exec m r = Some r' /\ P r'.
Proof. intros (a & r' & E & H). exists r'. unfold exec. by rewrite E. Qed.

Lemma append_buckets_wp bs more0 a r : invr r -> r_alive r = true -> buckets_ok bs more0 a r = true ->
  wp (append_buckets bs) (fun ex r' => r_input r' = r_input r /\
    if ex : bool then sound r' /\ r_alive r' = false
    else invr r' /\ r_alive r' = true /\ (more0 || end_ok a r') = true) r.
Proof.
  revert r. induction bs as [|[b x] bs IH]; intros r Hi Ha Hok; cbn [append_buckets buckets_ok] in *; [by wp_step|].
  apply andb_true_iff in Hok as [Hd Hok]. wp_step.
  destruct (RI_AppendToBuffer_wp b x r Hi Hd) as (ex & r1 & E & Hi1 & K1 & I1 & _). exists ex, r1. split; [exact E|].
  assert (Ha1 : r_alive r1 = true) by (unfold r_alive; by rewrite K1). rewrite E in Hok. destruct ex.
  - wp_step. apply R_Destroy_wp; [done|]. wp_step. split; [done|]. split; [by apply destroyed_sound|done].
  - eapply wp_mono; [by apply IH|]. intros ex r2 [I2 H2]. split; [congruence|done].
Qed.

Lemma fill_input_wp bs more0 fb a l r : invr r -> r_alive r = true -> (r_input r = false -> r_finished r = true) ->
  negb (r_input r) || buckets_ok bs more0 a r = true ->
  wp (fill_input bs more0 fb a l) (fun o r' => match o with
    | None => sound r' /\ r_alive r' = false
    | Some l' => invr r' /\ r_alive r' = true /\ (r_input r' = false -> r_finished r' = true) /\
                 bytes l' = bytes l /\ (IsFull l' = IsFull l) /\ (more l' = false -> more l = false)
    end) r.
Proof.
  intros Hi Ha Hf Hok. unfold fill_input. do 2 wp_step. destruct (r_input r) eqn:Hin; cbn [negb] in *.
  2: { wp_step. split_and!; try done. intros _. by apply Hf. }
  simpl in Hok. wp_step. eapply wp_mono; [by apply (append_buckets_wp bs more0 a)|].
  intros ex r1 [I1 H1]. destruct ex; [by wp_step|]. destruct H1 as (Hi1 & Ha1 & He1).
  assert (Hl : forall l', l' = (if fb then EnableFallback l else l) -> bytes l' = bytes l /\ IsFull l' = IsFull l /\
    (more l' = false -> more l = false)) by (intros l' ->; by destruct fb).
  destruct more0; cbn [negb].
  { wp_step. split; [done|]. split; [done|]. split; [congruence|]. by apply Hl. }
  simpl in He1. unfold end_ok in He1. destruct (ops_result a.1 (view_of r1)) as [v|] eqn:Ev; [|done].
  do 2 wp_step. wp_step. eapply wp_mono; [apply (R_Parse_wp [] a _ v)|].
  - rewrite app_nil_r. destruct Hi1 as [Hi1 _]. by apply (inv_frame r1).
  - exact Ev.
  - apply Hi1.
  - done.
  - intros ex r2 (-> & Hi2 & V2 & K2 & I2 & _). simpl in K2.
    assert (Ha2 : r_alive r2 = true) by (unfold r_alive; by rewrite K2).
    destruct a.2; [wp_step; apply R_Destroy_wp; [done|]; wp_step; split; [by apply destroyed_sound|done]|].
    wp_step. split; [done|]. split; [done|]. split; [|by apply Hl]. intros _. simpl in He1. by rewrite <- V2 in He1.
Qed.

Lemma forget_invr r : invr r -> invr (forget_shown r).
Proof.
  intros [Hi Hl]. split; [|done]. apply (inv_frame r); try done. unfold pieces. simpl. rewrite map_map. done.
Qed.

Lemma RI_FillBucketList_wp bs more0 fb a shows r : invr r -> r_alive r = true -> (r_input r = false -> r_finished r = true) ->
  negb (r_input r) || buckets_ok bs more0 a r = true ->
  wp (RI_FillBucketList bs more0 fb a shows IstreamBucketList_new) (fun o r' => match o with
    | None => sound r' /\ r_alive r' = false
    | Some l => invr r' /\ r_alive r' = true /\ (r_input r' = false -> r_finished r' = true) /\
                bytes l `prefix_of` visible (r_position r') (r_substitutions r') r' (source_of r') /\
                (HasMore l = false -> out r' ++ bytes l = replaced 0 (added_of r') (source_of r')) /\
                Forall shown_ok (r_substitutions r')
    end) r.
Proof.
  intros Hi Ha Hf Hok. unfold RI_FillBucketList. wp_step. wp_step; [done|]. wp_step.
  eapply wp_mono; [by apply fill_input_wp|].
  intros [l|] r1; [|intros [? ?]; by wp_step]. intros (Hi1 & Ha1 & Hf1 & Hb & Hfull & Hm). do 5 wp_step.
  apply forget_invr in Hi1. set (r2 := forget_shown r1) in *. destruct Hi1 as [Hi1 Hlim1].
  assert (Hsh : Forall shown_ok (r_substitutions r2)).
  { simpl. apply Forall_map, Forall_forall. intros s _. unfold shown_ok. simpl. destruct (u_input s); [|done]. split; [lia|done]. }
  destruct (fill_substitutions_spec (r_substitutions r2) shows (r_position r2) l r2 (source_of r2))
    as (o & subs' & E & P1 & P2 & P3 & P4); [by eapply inv_fillable|apply Hi1|done|done|].
  wp_step; [exact E|]. do 2 wp_step. simpl.
  assert (Hi3 : invr (set_substitutions subs' r2)).
  { split; [|done]. by apply (inv_frame r2). }
  destruct o as [l'|].
  2: { wp_step. apply R_Destroy_wp; [done|]. wp_step. split; [by apply destroyed_sound|done]. }
  wp_step. destruct P4 as [(G1 & G2 & G3) M4]. rewrite Hb in *. simpl in G1.
  split; [done|]. split; [done|]. split; [done|]. split; [|split; [|done]].
  - rewrite (visible_view _ _ r2) by done. exact G1.
  - intros Hm'. destruct (G2 Hm') as [_ ->]. destruct (M4 Hm') as (_ & _ & Hv). rewrite Hv.
    change (bytes IstreamBucketList_new) with ([] : list Z). rewrite app_nil_l.
    change (source_of (set_substitutions subs' r2)) with (source_of r2).
    change (added_of (set_substitutions subs' r2)) with (added_of r2). change (out (set_substitutions subs' r2)) with (out r2).
    by apply inv_rest.
Qed.

(** ** Runs *)

Lemma recv_alive x r : r_alive r = true -> recv x Alive r = recv x (k_life (r_sink r)) r.
Proof. intros Ha. apply alive_true in Ha. by rewrite Ha. Qed.

Lemma RI_ConsumeBucketList_wp n r : invr r -> Forall shown_ok (r_substitutions r) ->
  (0 < n <= length (visible (r_position r) (r_substitutions r) r (source_of r)))%nat ->
  wp (RI_ConsumeBucketList n) (fun res r' => res.1 = n /\ consumes r r' /\ res.2 = RI_IsEOF r' /\
    invr (recv (take n (visible (r_position r) (r_substitutions r) r (source_of r))) (k_life (r_sink r')) r')) r.
Proof.
  intros [Hi Hlim] Hok Hn. unfold RI_ConsumeBucketList. do 3 wp_step.
  eapply wp_mono; [apply (consume_loop_wp _ [] r n 0 (source_of r) (added_of r)); [|done|done|lia]|].
  { apply (inv_frame r); try done. unfold out. simpl. by rewrite app_nil_r. }
  intros res r1 (-> & H1 & Hi1). do 3 wp_step. simpl. split; [done|]. split; [done|]. split; [done|].
  destruct H1 as (_ & _ & Hv). unfold view in Hv. injection Hv as _ _ _ _ Ht.
  unfold invr, source_of, added_of, limited in *. simpl. by rewrite Ht.
Qed.

Lemma R_bucket_step_sound bs more0 fb a shows k r : sound r -> r_alive r = true ->
  negb (r_input r) || buckets_ok bs more0 a r = true ->
  exists r', R_bucket_step bs more0 fb a shows k r = Some r' /\ sound r'.
Proof.
  intros Hs Ha Hok. destruct (sound_alive r Hs Ha) as [Hi Hf]. unfold R_bucket_step.
  destruct (RI_FillBucketList_wp bs more0 fb a shows r Hi Ha Hf Hok) as ([l|] & r1 & -> & H1).
  2: { eexists. split; [done|]. apply H1. }
  destruct H1 as (Hi1 & Ha1 & Hf1 & Hpre & Hmore & Hsh).
  set (n := Nat.min k (length (bytes l))). destruct (Nat.eqb_spec n 0) as [Hn|Hn].
  - eexists. split; [done|]. destruct (bool_decide (bytes l = []) && negb (HasMore l)) eqn:Eb; [|by apply sound_intro].
    apply andb_true_iff in Eb as [Eb1 Eb2]. apply bool_decide_eq_true in Eb1. apply negb_true_iff in Eb2.
    specialize (Hmore Eb2). rewrite Eb1, app_nil_r in Hmore.
    split; [|apply Hi1]. unfold good, out. simpl. rewrite app_nil_r. split; [|exact Hmore].
    destruct Hi1 as [Hi1 _]. by apply inv_prefix in Hi1.
  - destruct (RI_ConsumeBucketList_wp n r1 Hi1 Hsh) as ([m eof] & r2 & -> & Hm & H2 & He & Hi2).
    { apply prefix_length in Hpre. lia. }
    simpl in Hm, He. rewrite Hm, Nat.eqb_refl. eexists. split; [done|].
    assert (Htake : take n (visible (r_position r1) (r_substitutions r1) r1 (source_of r1)) = take n (bytes l)).
    { destruct Hpre as [y ->]. rewrite take_app_le; [done|lia]. }
    rewrite Htake in Hi2. destruct H2 as (K2 & I2 & V2).
    assert (Ha2 : r_alive r2 = true) by (unfold r_alive; by rewrite K2).
    destruct eof.
    + symmetry in He. set (r3 := recv (take n (bytes l)) (k_life (r_sink r2)) r2) in *.
      destruct Hi2 as [Hi2 Hl2]. destruct (RI_IsEOF_true r3 _ _ Hi2 He) as [? ?].
      split; [|done]. split; [by apply inv_prefix in Hi2|]. simpl. by apply inv_eof in Hi2.
    + rewrite recv_alive by done. apply sound_intro; [done|done|].
      simpl. rewrite I2. unfold view in V2. injection V2 as _ _ _ -> _. done.
Qed.

Lemma R_step_sound e r : sound r -> exists r', R_step e r = Some r' /\ sound r'.
Proof.
  intros Hs. unfold R_step. destruct (r_alive r) eqn:Ha; cbn [negb]; [|by eexists].
  assert (Hread : forall r', good r' (source_of r) (added_of r) -> view r' = view r -> sound r').
  { intros r' Hg Hv. apply (sound_view r); [done|apply Hs|done]. }
  destruct e as [i|i f|plans|res|bs more0 fb a shows k|].
  - apply exec_wp. by apply run_input_wp.
  - apply exec_wp. eapply wp_mono; [apply feed_one_wp; [apply Hs|done]|]. intros go r' (Hg & (_ & Hv & _) & _). auto.
  - apply exec_wp. by apply RI_Read_wp.
  - destruct (r_defer_read r); [|by eexists]. apply exec_wp. eapply wp_mono; [apply DeferredRead_view; [apply Hs|done]|].
    intros _ r' [Hg Hv]. auto.
  - destruct (negb (r_input r) || buckets_ok bs more0 a r) eqn:Eb; [|by eexists]. by apply R_bucket_step_sound.
  - apply exec_wp. apply R_Destroy_wp; [done|]. apply destroyed_sound; [by apply sound_alive|done|done|done].
Qed.

Lemma R_run_sound es r : sound r -> exists r', R_run es r = Some r' /\ sound r'.
Proof.
  revert r. induction es as [|e es IH]; intros r Hs; cbn [R_run]; [by eexists|].
  destruct (R_step_sound e r Hs) as (r1 & -> & Hs1). by apply IH.
Qed.

Lemma ReplaceIstream_new_sound reads h : sound (ReplaceIstream_new reads h).
Proof.
  apply sound_intro; [|done|done]. split.
  - constructor; try done; simpl; try lia; [apply bq_new_ok|].
    exists [], []. split; [done|]. split; [simpl; lia|]. split; [done|by left].
  - intros t x os t' H. by destruct t.
Qed.

(** ** The available size *)

Lemma available_exact avail l : forall p acc src,
  (exists q, chain p (map piece_of l) q /\ (q <= length src)%nat) ->
  (forall s data, s ∈ l -> u_input s = Some data -> avail s = Z.of_nat (length data)) ->
  exists n p', available_substitutions false avail l p acc = Some (n, p') /\
    n + (Z.of_nat (length src) - Z.of_nat p') = acc + Z.of_nat (length (replaced p (map piece_of l) src)).
Proof.
  induction l as [|s l IH]; intros p acc src (q & Hc & Hq) Hav; cbn [available_substitutions].
  - eexists _, _. split; [done|]. simpl in *. rewrite length_drop. lia.
  - simpl in Hc. destruct Hc as (H1 & H2 & H3). pose proof (chain_le _ _ _ H3) as H4.
    assert (Hl : forall acc, exists n p', available_substitutions false avail l (u_end s) acc = Some (n, p') /\
      n + (Z.of_nat (length src) - Z.of_nat p') = acc + Z.of_nat (length (replaced (u_end s) (map piece_of l) src))).
    { intros acc'. apply IH; [by exists q|]. intros t data Ht. apply Hav. by right. }
    simpl map. simpl replaced. rewrite !length_app, length_take, length_drop.
    destruct (u_input s) as [data|] eqn:Ed; simpl default.
    + pose proof (Hav s data (list_elem_of_here _ _) Ed) as Ha. rewrite Ha.
      replace (Z.of_nat (length data) =? -1) with false by (symmetry; apply Z.eqb_neq; lia). cbn [negb].
      destruct (Hl (acc + (Z.of_nat (u_start s) - Z.of_nat p) + Z.of_nat (length data))) as (n & p' & -> & Hn).
      eexists _, _. split; [done|]. simpl in *. lia.
    + destruct (Hl (acc + (Z.of_nat (u_start s) - Z.of_nat p))) as (n & p' & -> & Hn).
      eexists _, _. split; [done|]. simpl in *. lia.
Qed.

(** ** Theorems *)

(** [GetAvailable(false)] is exact: at the end of the input, if the istreams of the substitutions know
    their sizes and no substitution lies behind the end of the source, it returns the number of bytes that
    are still to be delivered. *)
Theorem replace_available_exact reads h es r input avail :
  R_run es (ReplaceIstream_new reads h) = Some r -> r_alive r = true -> r_input r = false ->
  Forall (fun s => (u_end s <= r_source_length r)%nat) (r_substitutions r) ->
  (forall s data, s ∈ r_substitutions r -> u_input s = Some data -> avail s = Z.of_nat (length data)) ->
  Z.of_nat (length (out r)) + R_GetAvailable false input avail r =
    Z.of_nat (length (replaced 0 (added_of r) (source_of r))).
Proof.
  intros E Ha Hin Hends Hav. destruct (R_run_sound es _ (ReplaceIstream_new_sound reads h)) as (r0 & E' & Hs).
  rewrite E in E'. injection E' as <-. destruct (sound_alive r Hs Ha) as [[Hi _] Hf]. specialize (Hf Hin).
  rewrite <- (inv_rest _ _ _ Hi), length_app. unfold R_GetAvailable. rewrite Hf, Hin. cbn [negb andb].
  destruct (available_exact avail (r_substitutions r) (r_position r) 0 (source_of r)) as (n & p' & -> & Hn).
  - exists (length (source_of r)). split; [|done]. rewrite (i_len _ _ _ Hi) in Hends.
    eapply chain_ends; [apply Hi|apply Hi|]. unfold pieces. by apply Forall_map.
  - done.
  - rewrite (i_len _ _ _ Hi). unfold pieces. lia.
Qed.

(** C14: Refinement: whatever the input, the subclass, the istreams of the substitutions and the consumer
    do, in any order and as long as they keep the protocol ([data_ok], [end_ok], [input_ok], [buckets_ok]; an event
    that breaks it is ignored), no assertion of ReplaceIstream.cxx fails and the istream never
    runs out of its buffer; what it has delivered is a beginning of the
    source with all substitutions applied, and when it reports the end, it is all of it.

    The assertions of istream.hxx are not part of the model: the one in [ConsumeBucketList()] about the end fails when
    empty substitutions follow the last byte that is consumed, see [trailing_deletion_not_eof]. *)
Theorem replace_istream_refines reads h es :
  exists r, R_run es (ReplaceIstream_new reads h) = Some r /\
    out r `prefix_of` replaced 0 (added_of r) (source_of r) /\
    (k_life (r_sink r) = AtEof -> out r = replaced 0 (added_of r) (source_of r)).
Proof.
  destruct (R_run_sound es _ (ReplaceIstream_new_sound reads h)) as (r & E & (Hp & Hg) & _).
  exists r. split; [done|]. split; [done|]. intros Hl. by rewrite Hl in Hg.
Qed.

(** Bound: the source that the replacing istream has accepted is smaller than 8 MB plus the size of the
    last piece, as no input is accepted after the limit. *)
Theorem replace_source_limit reads h es r :
  R_run es (ReplaceIstream_new reads h) = Some r ->
  forall t x os t', r_trace r = t ++ (x, os) :: t' -> x <> [] ->
    Z.of_nat (length (concat (map fst t))) < SOURCE_LIMIT.
Proof.
  intros E. destruct (R_run_sound es _ (ReplaceIstream_new_sound reads h)) as (r' & E' & _ & Hl).
  rewrite E in E'. injection E' as <-. exact Hl.
Qed.

(** A bucket list that does not say that there is more is the complete rest of the text. *)
Theorem replace_buckets_complete reads h es r bs more0 fb a shows l r' :
  R_run es (ReplaceIstream_new reads h) = Some r -> r_alive r = true ->
  negb (r_input r) || buckets_ok bs more0 a r = true ->
  RI_FillBucketList bs more0 fb a shows IstreamBucketList_new r = Some (Some l, r') -> HasMore l = false ->
  out r' ++ bytes l = replaced 0 (added_of r') (source_of r').
Proof.
  intros E Ha Hok El Hm. destruct (R_run_sound es _ (ReplaceIstream_new_sound reads h)) as (r0 & E' & Hs).
  rewrite E in E'. injection E' as <-. destruct (sound_alive r Hs Ha) as [Hi Hf].
  destruct (RI_FillBucketList_wp bs more0 fb a shows r Hi Ha Hf Hok) as (o & r1 & E1 & H1).
  rewrite El in E1. injection E1 as <- <-. destruct H1 as (_ & _ & _ & _ & Hmore & _). by apply Hmore.
Qed.
End Run.

(** ** Examples *)

Module ReplaceExamples.

(** Chunks of four bytes. *)
#[local] Instance tiny : ChunkSize := { chunk_capacity := 4; chunk_capacity_pos := ltac:(lia) }.

Definition eager : list reaction := repeat (Accept 1000) 10.

(** "bc" is replaced by "XYZ", which arrives in two parts, the first one read on demand. *)
Definition some_events : list replace_event :=
  [RvInput (IData (str "abcd") ([OpAdd 1 3 (Some (str "XYZ")); OpSettle 4], false));
   RvDefer ReadyFallback;
   RvFeed 0 (FData 1);
   RvInput (IData (str "efgh") ([OpSettle 6], false));
   RvFeed 0 FEof;
   RvDefer ReadyFallback;
   RvInput (IEof ([OpFinish], false));
   RvDefer ReadyFallback].

Definition some_run : option ReplaceIstream :=
  R_run some_events (ReplaceIstream_new [[FData 0]] eager).

Example some_output : (fun r => (out r, k_life (r_sink r))) <$> some_run = Some (str "aXYZdefgh", AtEof).
Proof. vm_compute. reflexivity. Qed.

(** The same text through bucket lists. *)
Example some_buckets :
  (fun r => (out r, k_life (r_sink r))) <$>
  R_run [RvBuckets [(str "abcd", ([OpAdd 1 3 (Some (str "XYZ")); OpSettle 4], false))] true false ([], false)
           [Show [1%nat] false] 3;
         RvBuckets [(str "efgh", ([OpSettle 6], false))] false false ([OpFinish], false) [Show [5%nat] false] 20]
    (ReplaceIstream_new [] []) = Some (str "aXYZdefgh", AtEof).
Proof. vm_compute. reflexivity. Qed.

(** The substitutions are known before the source arrives, as in [css_rewrite_block_uris()]. *)
Example known_before :
  (fun r => (out r, k_life (r_sink r))) <$>
  (match exec (run_ops [OpAdd 4 7 (Some (str "/new")); OpFinish]) (ReplaceIstream_new [[FData 9; FEof]] eager) with
   | Some r => R_run [RvRead [[IData (str "url(old)") ([], false); IEof ([], false)]]; RvDefer ReadyFallback] r
   | None => None
   end) = Some (str "url(/new)", AtEof).
Proof. vm_compute. reflexivity. Qed.

Definition some_state : ReplaceIstream :=
  match some_run with Some r => r | None => ReplaceIstream_new [] [] end.

Lemma replace_source_limit_witness :
  Z.of_nat (length (concat (map fst [(str "abcd", [OpAdd 1 3 (Some (str "XYZ")); OpSettle 4])]))) < SOURCE_LIMIT.
Proof.
  apply (replace_source_limit [[FData 0]] eager some_events some_state) with (x := str "efgh") (os := [OpSettle 6])
    (t' := [([], [OpFinish])]).
  - vm_compute. reflexivity.
  - vm_compute. reflexivity.
  - discriminate.
Defined.

(** The last character is deleted. *)
Definition trailing : list replace_event :=
  [RvInput (IData (str "abc") ([OpAdd 2 3 None], false)); RvInput (IEof ([OpFinish], false))].

Definition trailing_state : ReplaceIstream :=
  match R_run trailing (ReplaceIstream_new [] []) with Some r => r | None => ReplaceIstream_new [] [] end.

Definition filled_state : ReplaceIstream :=
  match RI_FillBucketList [] false false ([], false) [] IstreamBucketList_new trailing_state with
  | Some (_, r) => r
  | None => trailing_state
  end.

Lemma replace_buckets_complete_witness :
  out filled_state ++ str "ab" = replaced 0 [(2, 3, [])%nat] (str "abc").
Proof.
  apply (replace_buckets_complete [] [] trailing trailing_state [] false false ([], false) []
    (mk_buckets [str "ab"] false false) filled_state); vm_compute; reflexivity.
Defined.

Lemma replace_available_exact_witness :
  Z.of_nat (length (out trailing_state)) + R_GetAvailable false 0 (fun _ => 0) trailing_state =
    Z.of_nat (length (replaced 0 (added_of trailing_state) (source_of trailing_state))).
Proof.
  apply (replace_available_exact [] [] trailing).
  - vm_compute. reflexivity.
  - reflexivity.
  - reflexivity.
  - vm_compute. repeat constructor.
  - intros s data Hs Hd. vm_compute in Hs. apply list_elem_of_singleton in Hs. subst s. discriminate Hd.
Defined.

(** All of the last bucket list is consumed, but [_ConsumeBucketList()] does not report the end, because the
    substitution after the last byte of the source remains; only the next list is the end. *)
Lemma trailing_deletion_not_eof :
  match RI_FillBucketList [] false false ([], false) [] IstreamBucketList_new trailing_state with
  | Some (Some l, r) =>
      HasMore l = false /\ bytes l = str "ab" /\ exists r', RI_ConsumeBucketList 2 r = Some ((2%nat, false), r')
  | _ => False
  end.
Proof. vm_compute. split; [done|]. split; [done|]. eexists. reflexivity. Qed.

End ReplaceExamples.
