(* ===== verification/HttpCacheHeap.v ===== *)
(** * The HTTP cache's documents in memory

    Models src/http/cache/Heap.cxx and Item.cxx: the documents of the HTTP cache are items of a
    [Cache], their bodies are objects of an [ObjectStore], and a lookup table finds the items with
    a tag.

    [docs] has the part of an item that belongs to the class [HttpCacheItem], for each item of the
    cache's [store].  When the cache has destroyed items, the destructors of their bodies and of their
    hooks in the lookup table run in [reap]; their order cannot be observed. *)

From S2P Require Import Prelude CharUtil StrMap Uri HttpCacheRFC Cache ObjectStore RubberSink.

#[local] Open Scope beng_scope.

Record HttpCacheItem := mkHttpItem {
  hi_document : HttpCacheDocument;
  hi_tag : option (list Z);
  hi_size : Z;
  hi_body : Z }.

Section Heap.
Context `{CU : CharUtil} `{UL : UriLib} `{HL : HttpLib}.
Context `{HS : HashSetOrder} `{TO : TrieOrder} `{O : ObjectStore}.

Record HttpCacheHeap := mkHeap {
  hh_cache : Cache;
  hh_docs : gmap item_ptr HttpCacheItem;
  hh_per_tag : list item_ptr;
  hh_rubber : os }.

Abbreviation H := (M HttpCacheHeap).

(** The allocator exists already; 12.5% of it are left empty. *)
Definition HttpCacheHeap_new (max_size : Z) (rubber : os) : HttpCacheHeap :=
  mkHeap (Cache_new (wrap 64 (max_size * 7) / 8)) ∅ [] rubber.

Definition set_docs x (h : HttpCacheHeap) := mkHeap (hh_cache h) x (hh_per_tag h) (hh_rubber h).
Definition set_per_tag x (h : HttpCacheHeap) := mkHeap (hh_cache h) (hh_docs h) x (hh_rubber h).

Definition on_rubber {A} (m : M os A) : H A := fun h =>
  match m (hh_rubber h) with
  | Some (a, r) => Some (a, mkHeap (hh_cache h) (hh_docs h) (hh_per_tag h) r)
  | None => None
  end.

Definition on_cache_raw {A} (m : M Cache A) : H A := fun h =>
  match m (hh_cache h) with
  | Some (a, c) => Some (a, mkHeap c (hh_docs h) (hh_per_tag h) (hh_rubber h))
  | None => None
  end.

(** The destructor of an [HttpCacheItem]: frees the body and unlinks it from the lookup table. *)
Definition HttpCacheItem_delete (p : item_ptr) : H unit :=
  let! h := mget in
  let! it := mopt (hh_docs h !! p) in
  on_rubber (RubberAllocation_delete (hi_body it)) ;;;
  mmod (fun h => set_per_tag (without p (hh_per_tag h)) (set_docs (delete p (hh_docs h)) h)).

(** The items that the cache has destroyed. *)
Definition dead_items (h : HttpCacheHeap) : list item_ptr :=
  List.filter (fun p => bool_decide (store (hh_cache h) !! p = None)) (elements (dom (hh_docs h))).

Definition reap : H unit := let! h := mget in mfor (dead_items h) HttpCacheItem_delete.

Definition on_cache {A} (m : M Cache A) : H A :=
  let! a := on_cache_raw m in reap ;;; mret a.

(** [http_cache_item_match()] *)
Definition http_cache_item_match (headers : StringMap) (h : HttpCacheHeap) (p : item_ptr) : bool :=
  match hh_docs h !! p with
  | Some it => VaryFits (hi_document it) headers
  | None => false
  end.

(** [now] is [cache.SteadyNow()]; items do not override [Validate()]. *)
Definition Heap_Get (now : Z) (key : list Z) (request_headers : StringMap) : H (option item_ptr) :=
  let! h := mget in
  on_cache (GetMatch (fun _ => true) now key (http_cache_item_match request_headers h)).

(** The constructor: the document, and the expiry time of the item. *)
Definition HttpCacheItem_new (pool_size : Z) (key : list Z) (now system_now : Z) (tag : option (list Z))
    (info : HttpCacheResponseInfo) (request_headers : StringMap) (status : HttpStatus)
    (response_headers : StringMap) (size : Z) (body : Z) : option (HttpCacheItem * CacheItem) :=
  doc ← HttpCacheDocument_new info request_headers status response_headers;
  Some (mkHttpItem doc tag size body,
        CacheItem_new key (pool_size + size)
          (http_cache_calc_expires now system_now (r_expires info) (d_vary doc))).

(** [pool_size] is the memory that the new item has allocated from its pool. *)
Definition Heap_Put (pool_size : Z) (now system_now : Z) (key : list Z) (tag : option (list Z))
    (info : HttpCacheResponseInfo) (request_headers : StringMap) (status : HttpStatus)
    (response_headers : StringMap) (body size : Z) : H (option item_ptr) :=
  let! it := mopt (HttpCacheItem_new pool_size key now system_now tag info request_headers status
                     response_headers size body) in
  let! h := mget in
  let p := next_item (hh_cache h) in
  mmod (set_docs (<[p := fst it]> (hh_docs h))) ;;;
  (match tag with
   | Some _ => mmod (fun h => set_per_tag (hs_insert p (hh_per_tag h)) h)
   | None => mret tt
   end) ;;;
  on_cache (PutMatch (fun _ => true) now (snd it) (http_cache_item_match request_headers h)).

Definition Heap_Remove (p : item_ptr) : H unit := on_cache (Remove p).

Definition Heap_RemoveKey (key : list Z) (headers : StringMap) : H unit :=
  let! h := mget in on_cache (RemoveKeyIf key (http_cache_item_match headers h)).

Definition Heap_Compress : H unit := on_rubber os_Compress.

Definition Heap_Flush : H unit := on_cache Flush ;;; on_rubber os_Compress.

(** The items of the lookup table with a tag. *)
Definition tagged (tag : list Z) (h : HttpCacheHeap) : list item_ptr :=
  List.filter (fun p => match hh_docs h !! p with
                        | Some it => bool_decide (hi_tag it = Some tag)
                        | None => false
                        end) (hh_per_tag h).

Definition Heap_FlushTag (tag : list Z) : H unit :=
  let! l := mgets (tagged tag) in
  mfor l (fun p =>
    mmod (fun h => set_per_tag (without p (hh_per_tag h)) h) ;;;
    on_cache (Remove p)).

Definition Heap_Lock (p : item_ptr) : H unit := on_cache (AddLease p).

(** The end of a lease. *)
Definition Heap_Unlock (p : item_ptr) : H unit := on_cache (DropLease p).

Definition HasBody (it : HttpCacheItem) : bool := negb (hi_body it =? 0).

(** The istream holds a lease. *)
Definition Heap_OpenStream (p : item_ptr) : H (option RubberIstream) :=
  let! h := mget in
  let! it := mopt (hh_docs h !! p) in
  if negb (HasBody it) then mret None
  else
    let! i := mopt (istream_rubber_new (hi_body it) 0 (hi_size it) false) in
    Heap_Lock p ;;; mret (Some i).

(** [HttpCacheItem::SetExpires()] *)
Definition Item_SetExpires (p : item_ptr) (steady_now system_now expires : Z) : H unit :=
  let! h := mget in
  let! it := mopt (hh_docs h !! p) in
  let d := hi_document it in
  let info := mkResponseInfo expires (r_last_modified (d_info d)) (r_etag (d_info d)) (r_vary (d_info d)) in
  mmod (set_docs (<[p := mkHttpItem (mkDocument info (d_vary d) (d_status d) (d_headers d))
                           (hi_tag it) (hi_size it) (hi_body it)]> (hh_docs h))) ;;;
  on_cache (SetExpires (http_cache_calc_expires steady_now system_now expires (d_vary d)) p).

(** Assignments to the headers of a document. *)
Definition Doc_SetHeaders (p : item_ptr) (f : StringMap -> StringMap) : H unit :=
  let! h := mget in
  let! it := mopt (hh_docs h !! p) in
  let d := hi_document it in
  mmod (set_docs (<[p := mkHttpItem (mkDocument (d_info d) (d_vary d) (d_status d) (f (d_headers d)))
                           (hi_tag it) (hi_size it) (hi_body it)]> (hh_docs h))).

(** The timer of the cache. *)
Definition Heap_Expire (now : Z) : H bool := on_cache (ExpireCallback now).

End Heap.
