(* ===== verification/HttpCacheHeapFacts.v ===== *)
(** * The HTTP cache's documents in memory: invariant and theorems

    Every item of the cache has a document, whose body is an object of the store that nobody else uses;
    items that the cache destroys free their bodies; whatever is not owned by an item is never touched.
    The proofs use the theorems of [Cache] and the interface [ObjectStoreLaws] only. *)

From S2P Require Import Prelude CharUtil StrMap Uri HttpCacheRFC HttpCacheRFCFacts Cache CacheFacts ObjectStore.
From S2P Require Import RubberSink HttpCacheHeap.

#[local] Open Scope beng_scope.

Section Facts.
Context `{CU : CharUtil} `{UL : UriLib} `{HL : HttpLib}.
Context `{HS : HashSetOrder} `{TL : TrieLaws} `{OL : ObjectStoreLaws}.

(** ** The invariant *)

(** The body of an item: there is none, or it is an object. *)
Definition body_ok (m : gmap Z (list Z)) (it : HttpCacheItem) : Prop :=
  0 <= hi_size it /\
  (hi_body it = 0 \/ 0 < hi_body it /\ exists b, m !! hi_body it = Some b /\ hi_size it <= Z.of_nat (length b)).

(** An item owns an object. *)
Definition owner (docs : gmap item_ptr HttpCacheItem) (p : item_ptr) (id : Z) : Prop :=
  id <> 0 /\ exists it, docs !! p = Some it /\ hi_body it = id.

(** What holds while the destructors of destroyed items have not run yet. *)
Record HeapPre (h : HttpCacheHeap) (m : gmap Z (list Z)) : Prop := {
  hp_cache : CacheInv (hh_cache h);
  hp_rep : os_rep (hh_rubber h) m;
  hp_zero : m !! 0 = None;
  hp_live : forall p, is_Some (store (hh_cache h) !! p) -> is_Some (hh_docs h !! p);
  hp_tags : NoDup (hh_per_tag h) /\ forall p, p ∈ hh_per_tag h -> is_Some (hh_docs h !! p);
  hp_tagged : forall p it t, p ∈ sorted_items (hh_cache h) -> hh_docs h !! p = Some it -> hi_tag it = Some t ->
    p ∈ hh_per_tag h;
  hp_body : forall p it, hh_docs h !! p = Some it -> body_ok m it;
  hp_inj : forall p q id, owner (hh_docs h) p id -> owner (hh_docs h) q id -> p = q }.

Definition HeapInv (h : HttpCacheHeap) (m : gmap Z (list Z)) : Prop :=
  HeapPre h m /\ forall p, is_Some (hh_docs h !! p) -> is_Some (store (hh_cache h) !! p).

(** ** Running the parts *)

Lemma wp_on_rubber {A} (mm : M os A) (Q : A -> HttpCacheHeap -> Prop) h :
  wp mm (fun a r => Q a (mkHeap (hh_cache h) (hh_docs h) (hh_per_tag h) r)) (hh_rubber h) -> wp (on_rubber mm) Q h.
Proof. intros (a & r & E & HQ). eexists a, _. unfold on_rubber. rewrite E. by split. Qed.

Lemma wp_on_cache_raw {A} (mm : M Cache A) (Q : A -> HttpCacheHeap -> Prop) h :
  wp mm (fun a c => Q a (mkHeap c (hh_docs h) (hh_per_tag h) (hh_rubber h))) (hh_cache h) -> wp (on_cache_raw mm) Q h.
Proof. intros (a & r & E & HQ). eexists a, _. unfold on_cache_raw. rewrite E. by split. Qed.

(** ** Destructors *)

(** What is left of the documents and of the objects when items have been destroyed: the items [keep] and
    their bodies, and all objects which no item owned. *)
Record reaped (h : HttpCacheHeap) (m : gmap Z (list Z)) (h' : HttpCacheHeap) (m' : gmap Z (list Z)) : Prop := {
  re_cache : hh_cache h' = hh_cache h;
  re_docs : forall p it, hh_docs h' !! p = Some it -> hh_docs h !! p = Some it;
  re_live : forall p, is_Some (store (hh_cache h) !! p) -> hh_docs h' !! p = hh_docs h !! p;
  re_kept : forall id, (exists p, owner (hh_docs h') p id) \/ (forall p, ~ owner (hh_docs h) p id) -> m' !! id = m !! id;
  re_gone : forall id, is_Some (m' !! id) -> is_Some (m !! id) /\ forall p, owner (hh_docs h) p id -> owner (hh_docs h') p id }.

Lemma reaped_refl h m : reaped h m h m.
Proof. by split. Qed.

Lemma owner_sub (d d' : gmap item_ptr HttpCacheItem) p id :
  (forall p it, d' !! p = Some it -> d !! p = Some it) -> owner d' p id -> owner d p id.
Proof. intros H (Hne & it & Hit & E). split; [done|]. exists it. auto. Qed.

Lemma reaped_trans h1 m1 h2 m2 h3 m3 : reaped h1 m1 h2 m2 -> reaped h2 m2 h3 m3 -> reaped h1 m1 h3 m3.
Proof.
  intros [A1 A2 A3 A4 A5] [B1 B2 B3 B4 B5]. split.
  - congruence.
  - auto.
  - intros p Hp. rewrite B3 by (by rewrite A1). by apply A3.
  - intros id Hid. rewrite B4, A4; [done| |].
    + destruct Hid as [[p Hp]|Hid]; [left; exists p; by eapply owner_sub|by right].
    + destruct Hid as [Hid|Hid]; [by left|right]. intros p Hp. apply (Hid p). by eapply owner_sub.
  - intros id Hid. destruct (B5 id Hid) as [H2 H3]. destruct (A5 id H2) as [H4 H5]. auto.
Qed.

(** The destructor of an item that the cache has destroyed. *)
Lemma HttpCacheItem_delete_ok p h m : HeapPre h m -> is_Some (hh_docs h !! p) -> store (hh_cache h) !! p = None ->
  wp (HttpCacheItem_delete p) (fun _ h' => exists m', HeapPre h' m' /\ reaped h m h' m' /\
    hh_docs h' = delete p (hh_docs h)) h.
Proof.
  intros HP [it Hit] Hdead. destruct HP as [H1 H2 H3 H4 [H5 H5'] H6 H7 H8].
  assert (Hb : hi_body it = 0 \/ is_Some (m !! hi_body it)).
  { destruct (H7 p it Hit) as [_ [?|(_ & b & Hb & _)]]; [by left|right; by eexists]. }
  unfold HttpCacheItem_delete. apply wp_bind, wp_get, wp_bind. eapply wp_opt; [exact Hit|].
  apply wp_bind, wp_on_rubber. eapply wp_mono; [by apply (RubberAllocation_delete_ok _ _ m)|].
  intros [] r Hr. apply wp_mod. exists (delete (hi_body it) m).
  assert (Hother : forall q jt, delete p (hh_docs h) !! q = Some jt -> hh_docs h !! q = Some jt /\ q <> p).
  { intros q jt Hq. apply lookup_delete_Some in Hq as [? ?]. split; congruence. }
  assert (Hids : forall q id, owner (delete p (hh_docs h)) q id -> id <> hi_body it).
  { intros q id (Hne & jt & Hq & <-) E. destruct (Hother q jt Hq) as [Hq' Hqp]. apply Hqp.
    apply (H8 q p (hi_body jt)); (split; [done|]); eauto. }
  split; [|split; [|done]].
  - split; cbn; try done.
    + apply lookup_delete_None. by right.
    + intros q Hq. rewrite lookup_delete_ne; [by apply H4|]. intros <-. rewrite Hdead in Hq. by destruct Hq.
    + split; [by apply NoDup_filter|]. intros q [Hq Hqp]%elem_of_without. rewrite lookup_delete_ne by done. by apply H5'.
    + intros q jt t Hq Hj Ht. apply Hother in Hj as [Hj Hqp]. apply elem_of_without. split; [by eapply H6|done].
    + intros q jt Hj. destruct (Hother q jt Hj) as [Hj' Hqp]. destruct (H7 q jt Hj') as [Hs [?|(Hpos & b & Hb' & Hl)]].
      * split; [done|by left].
      * split; [done|right]. split; [done|]. exists b. split; [|done]. rewrite lookup_delete_ne; [done|].
        intros E. apply (Hids q (hi_body jt)); [|done]. split; [lia|eauto].
    + intros q1 q2 id Ho1 Ho2. apply (H8 q1 q2 id); (eapply owner_sub; [|done]); intros ? ? ?%Hother; tauto.
  - split; cbn; try done.
    + intros q jt Hj. by apply Hother in Hj as [? _].
    + intros q [i Hi]. apply lookup_delete_ne. intros <-. congruence.
    + intros id Hid. destruct (decide (id = 0)) as [->|Hne]; [by rewrite H3, lookup_delete_None; right|].
      apply lookup_delete_ne. intros E. destruct Hid as [[q Hq]|Hid]; [by apply (Hids q id Hq)|].
      apply (Hid p); split; [done|eauto].
    + intros id [b Hid]. apply lookup_delete_Some in Hid as [Hne Hid]. split; [by eexists|].
      intros q (Hz & jt & Hq & Hbody). split; [done|]. exists jt. split; [|done]. rewrite lookup_delete_ne; [done|].
      intros <-. congruence.
Qed.

Lemma reap_ok h m : HeapPre h m ->
  wp reap (fun _ h' => exists m', HeapInv h' m' /\ reaped h m h' m') h.
Proof.
  intros HP. unfold reap. apply wp_bind, wp_get. eapply wp_mono.
  - apply (wp_mfor (fun l h' => exists m', HeapPre h' m' /\ reaped h m h' m' /\ NoDup l /\
      (forall p, p ∈ l -> is_Some (hh_docs h' !! p) /\ store (hh_cache h') !! p = None) /\
      forall p, is_Some (hh_docs h' !! p) -> p ∈ l \/ is_Some (store (hh_cache h') !! p))).
    + intros p l h' (m' & HP' & Hr & Hnd & Hl & Hall). apply NoDup_cons in Hnd as [Hp Hnd].
      destruct (Hl p ltac:(left)) as [Hd Hs].
      eapply wp_mono; [by apply (HttpCacheItem_delete_ok p h' m')|]. intros [] h2 (m2 & HP2 & Hr2 & Ed).
      exists m2. split; [done|]. split; [by eapply reaped_trans|]. split; [done|].
      rewrite Ed, (re_cache _ _ _ _ Hr2). split.
      * intros q Hq. rewrite lookup_delete_ne by (by intros <-). apply Hl. by right.
      * intros q [it Hq]. apply lookup_delete_Some in Hq as [Hne Hq]. destruct (Hall q ltac:(eauto)) as [Hin|]; [|by right].
        apply elem_of_cons in Hin as [->|Hin]; [done|by left].
    + exists m. split; [done|]. split; [apply reaped_refl|]. unfold dead_items. split.
      { eapply sublist_NoDup; [apply (NoDup_elements (dom (hh_docs h)))|apply bfilter_sub]. }
      split.
      * intros p Hp. apply elem_of_bfilter in Hp as [Hp Hs]. simpl_bool. split; [|done]. by apply elem_of_dom, elem_of_elements.
      * intros p Hp. destruct (store (hh_cache h) !! p) eqn:E; [right; by eexists|left].
        apply elem_of_bfilter. split; [by apply elem_of_elements, elem_of_dom|]. by apply bool_decide_eq_true.
  - intros [] h' (m' & HP' & Hr & _ & _ & Hall). exists m'. split; [|done]. split; [done|].
    intros p Hp. destruct (Hall p Hp) as [Hin|]; [by apply elem_of_nil in Hin|done].
Qed.

(** ** Operations of the cache *)

(** An operation of the cache keeps the documents of the items that it keeps; objects that no item owned do
    not change. *)
Record heap_evolves (h : HttpCacheHeap) (m : gmap Z (list Z)) (h' : HttpCacheHeap) (m' : gmap Z (list Z)) : Prop := {
  he_docs : forall p it, hh_docs h' !! p = Some it -> hh_docs h !! p = Some it;
  he_kept : forall p it, hh_docs h' !! p = Some it -> m' !! hi_body it = m !! hi_body it;
  he_others : forall id, (forall p, ~ owner (hh_docs h) p id) -> m' !! id = m !! id;
  he_gone : forall id, is_Some (m' !! id) ->
    is_Some (m !! id) /\ forall p, owner (hh_docs h) p id -> owner (hh_docs h') p id }.

Lemma reaped_evolves h m h' m' : reaped h m h' m' -> m !! 0 = None -> m' !! 0 = None -> heap_evolves h m h' m'.
Proof.
  intros [A1 A2 A3 A4 A5] H0 H0'. split; [done| |intros id Hid; apply A4; by right|done].
  intros p it Hp. destruct (decide (hi_body it = 0)) as [->|Hne]; [congruence|].
  apply A4. left. exists p. split; [done|eauto].
Qed.

(** The lookup table is [T] when the operation starts. *)
Lemma wp_on_cache {A} (mm : M Cache A) (P : A -> Cache -> Prop) T h m :
  HeapPre h m -> NoDup T -> (forall p, p ∈ T -> is_Some (hh_docs h !! p)) -> wp mm P (hh_cache h) ->
  (forall a c, P a c -> CacheInv c /\ (forall p, is_Some (store c !! p) -> is_Some (hh_docs h !! p)) /\
     forall p it t, p ∈ sorted_items c -> hh_docs h !! p = Some it -> hi_tag it = Some t -> p ∈ T) ->
  wp (on_cache mm) (fun a h' => exists m', HeapInv h' m' /\ P a (hh_cache h') /\ heap_evolves h m h' m')
    (set_per_tag T h).
Proof.
  intros HP HT1 HT2 Hmm Hok. unfold on_cache. apply wp_bind, wp_on_cache_raw. eapply wp_mono; [exact Hmm|].
  intros a c HPa. destruct (Hok a c HPa) as (Hc & Hl & Ht). destruct HP as [H1 H2 H3 H4 H5 H6 H7 H8]. apply wp_bind.
  eapply wp_mono; [apply (reap_ok _ m); by split|].
  intros [] h' (m' & HI & Hr). apply wp_ret. exists m'. split; [done|]. rewrite (re_cache _ _ _ _ Hr). split; [done|].
  apply (reaped_evolves _ _ _ _) in Hr; [|done|apply HI]. destruct Hr. by split.
Qed.

(** Operations that create no item. *)
Definition creates_none {A} (mm : M Cache A) : Prop := forall c a c', mm c = Some (a, c') -> next_item c' = next_item c.

Lemma none_ret {A} (a : A) : creates_none (mret a).
Proof. by intros c a' c' [= <- <-]. Qed.

Lemma none_bind {A B} (mm : M Cache A) (k : A -> M Cache B) :
  creates_none mm -> (forall a, creates_none (k a)) -> creates_none (mbnd mm k).
Proof.
  intros Hm Hk c b c' E. unfold mbnd in E. destruct (mm c) as [[a c1]|] eqn:Em; [|done].
  rewrite (Hk a c1 b c' E). by eapply Hm.
Qed.

Lemma none_gets {A} (f : Cache -> A) : creates_none (mgets f).
Proof. by intros c a' c' [= <- <-]. Qed.

Lemma none_get : creates_none mget.
Proof. by intros c a' c' [= <- <-]. Qed.

Lemma none_mod f : (forall c, next_item (f c) = next_item c) -> creates_none (mmod f).
Proof. intros H c a' c' [= <- <-]. apply H. Qed.

Lemma none_assert b : creates_none (massert b).
Proof. intros c a c' E. destruct b; [by injection E as <- <-|done]. Qed.

Lemma none_item p : creates_none (item p).
Proof. intros c a c' E. unfold item in E. by destruct (store c !! p); [injection E as <- <-|]. Qed.

Lemma none_mfor {A} (l : list A) f : (forall x, creates_none (f x)) -> creates_none (mfor l f).
Proof. intros H. induction l as [|x l IH]; simpl; [apply none_ret|]. by apply none_bind. Qed.

Create HintDb none.
#[local] Hint Resolve none_ret none_gets none_get none_assert none_item none_mfor : none.

(** Follows the structure of a computation. *)
Ltac none_tac :=
  repeat match goal with
  | |- creates_none (mbnd _ _) => apply none_bind; [|intros ?]
  | |- creates_none (mmod _) => apply none_mod; reflexivity
  | |- creates_none (match ?x with _ => _ end) => destruct x
  | |- creates_none (let '(_, _) := ?x in _) => destruct x
  | _ => progress auto with none
  end.

Lemma none_erase p : creates_none (erase_and_dispose p).
Proof. unfold erase_and_dispose, ItemRemoved, IsRemoved, linked, Release, Destroy. none_tac. Qed.
#[local] Hint Resolve none_erase : none.

Lemma none_RemoveItem p : creates_none (RemoveItem p).
Proof. unfold RemoveItem, IsRemoved, linked. none_tac. Qed.
#[local] Hint Resolve none_RemoveItem : none.

Lemma none_expire_find validate now match_ l : creates_none (expire_find validate now match_ l).
Proof.
  induction l as [|p l IH]; simpl; unfold Validate; none_tac.
Qed.
#[local] Hint Resolve none_expire_find : none.

Lemma none_GetMatch validate now key match_ : creates_none (GetMatch validate now key match_).
Proof. unfold GetMatch, RefreshItem, linked. none_tac. Qed.

Lemma none_Remove p : creates_none (Remove p).
Proof. unfold Remove, IsRemoved, linked. none_tac. Qed.

Lemma none_RemoveKeyIf key P : creates_none (RemoveKeyIf key P).
Proof. unfold RemoveKeyIf. none_tac. Qed.

Lemma none_Flush : creates_none Flush.
Proof. unfold Flush. none_tac. Qed.

Lemma none_ExpireCallback now : creates_none (ExpireCallback now).
Proof. unfold ExpireCallback. none_tac. apply none_mfor. intros p. none_tac. Qed.

Lemma none_AddLease p : creates_none (AddLease p).
Proof. unfold AddLease. none_tac. Qed.

Lemma none_SetExpires e p : creates_none (SetExpires e p).
Proof. unfold SetExpires. none_tac. Qed.

Lemma none_DropLease p : creates_none (DropLease p).
Proof. unfold DropLease, OnAbandoned, IsRemoved, linked, Destroy. none_tac. Qed.

(** ** Operations of the heap *)

Record heap_step (h : HttpCacheHeap) (m : gmap Z (list Z)) (h' : HttpCacheHeap) (m' : gmap Z (list Z)) : Prop := {
  hs_inv : HeapInv h' m';
  hs_evolves : heap_evolves h m h' m';
  hs_cache : evolves (hh_cache h) (hh_cache h') }.

Lemma wp_with {S A} (mm : M S A) (Q R : A -> S -> Prop) s :
  wp mm Q s -> (forall a s', mm s = Some (a, s') -> R a s') -> wp mm (fun a s' => Q a s' /\ R a s') s.
Proof. intros (a & s' & E & HQ) HR. exists a, s'. auto. Qed.

(** A lookup table from which items that get unlinked were removed. *)
Definition table_ok (T : list item_ptr) (h : HttpCacheHeap) (c : Cache) : Prop :=
  NoDup T /\ (forall p, p ∈ T -> p ∈ hh_per_tag h) /\ forall p, p ∈ hh_per_tag h -> p ∈ sorted_items c -> p ∈ T.

Lemma wp_cache_step_table {A} (mm : M Cache A) (P : A -> Cache -> Prop) T h m :
  HeapInv h m -> creates_none mm ->
  wp mm (fun a c => (step_ok (hh_cache h) c /\ P a c) /\ table_ok T h c) (hh_cache h) ->
  wp (on_cache mm) (fun a h' => exists m', heap_step h m h' m' /\ P a (hh_cache h')) (set_per_tag T h).
Proof.
  intros [HP Hd] Hn Hmm.
  assert (HT : NoDup T /\ forall p, p ∈ T -> p ∈ hh_per_tag h) by (destruct Hmm as (? & ? & _ & _ & ? & ? & _); done).
  eapply wp_mono; [apply (wp_on_cache mm (fun a c =>
    ((step_ok (hh_cache h) c /\ P a c) /\ table_ok T h c) /\ next_item c = next_item (hh_cache h)) T h m); [done|apply HT| | |]|].
  - intros p Hp. apply (hp_tags h m HP). by apply HT.
  - apply wp_with; [done|]. intros a c' E. by eapply Hn.
  - intros a c [[[[HI He] _] (_ & _ & Ht)] En]. split; [done|].
    assert (Hs : forall p i, store c !! p = Some i -> store (hh_cache h) !! p = Some i).
    { intros p i Hp. apply (ev_same _ _ He); [|done]. rewrite <-En. by eapply (ci_fresh c HI). }
    split; [intros p [i Hp]; apply (hp_live h m HP); eauto|].
    intros p it t Hp Hit Hti. apply Ht; [|done]. apply (hp_tagged h m HP p it t); [|done..].
    apply (ev_sorted _ _ He); [|done]. destruct (ci_live c HI p Hp) as (i & Hi & _). rewrite <-En. by eapply (ci_fresh c HI).
  - intros a h' (m' & HI & [[[[_ He] HPa] _] _] & Hev). exists m'. by split.
Qed.

Lemma set_per_tag_id h : set_per_tag (hh_per_tag h) h = h.
Proof. by destruct h. Qed.

Lemma wp_cache_step {A} (mm : M Cache A) (P : A -> Cache -> Prop) h m :
  HeapInv h m -> creates_none mm -> wp mm (fun a c => step_ok (hh_cache h) c /\ P a c) (hh_cache h) ->
  wp (on_cache mm) (fun a h' => exists m', heap_step h m h' m' /\ P a (hh_cache h')) h.
Proof.
  intros HI Hn Hmm.
  cut (wp (on_cache mm) (fun a h' => exists m', heap_step h m h' m' /\ P a (hh_cache h')) (set_per_tag (hh_per_tag h) h));
    [by rewrite set_per_tag_id|].
  apply wp_cache_step_table; [done|done|].
  eapply wp_mono; [exact Hmm|]. intros a c Hc. split; [done|]. split; [apply HI|done].
Qed.

(** What [Get] returns. *)
Definition hit (now : Z) (key : list Z) (headers : StringMap) (h : HttpCacheHeap) (p : item_ptr) : Prop :=
  exists it i, hh_docs h !! p = Some it /\ VaryFits (hi_document it) headers = true /\
    store (hh_cache h) !! p = Some i /\ item_key i = key /\ now < item_expires i /\ p ∈ sorted_items (hh_cache h).

Lemma heap_step_doc h m h' m' p it : heap_step h m h' m' -> hh_docs h !! p = Some it ->
  is_Some (store (hh_cache h') !! p) -> hh_docs h' !! p = Some it.
Proof.
  intros [[HP _] He _] Hit Hs. destruct (hp_live _ _ HP p Hs) as [it' Hit'].
  pose proof (he_docs _ _ _ _ He p it' Hit'). congruence.
Qed.

Lemma wp_Heap_Get now key headers h m : HeapInv h m ->
  wp (Heap_Get now key headers) (fun r h' => exists m', heap_step h m h' m' /\
    match r with Some p => hit now key headers h' p | None => True end) h.
Proof.
  intros HI. unfold Heap_Get. apply wp_bind, wp_get. eapply wp_mono.
  - apply (wp_cache_step _ (fun r c => match r with Some p => http_cache_item_match headers h p = true /\
      p ∈ sorted_items c /\ exists i, store c !! p = Some i /\ item_key i = key /\ now < item_expires i
      | None => True end) h m HI); [apply none_GetMatch|].
    eapply wp_mono; [apply wp_GetMatch, HI|]. intros r c [Hs Hr]. split; [done|]. destruct r as [p|]; [|done].
    destruct Hr as ((i & _ & Hi & (Hk & He & _) & Hm) & _ & Hl). split; [done|].
    split; [by apply last_Some_elem_of in Hl|]. eauto.
  - intros r h' (m' & Hst & Hr). exists m'. split; [done|]. destruct r as [p|]; [|done].
    destruct Hr as (Hm & Hp & i & Hi & Hk & He). unfold http_cache_item_match in Hm.
    destruct (hh_docs h !! p) as [it|] eqn:Hit; [|done]. exists it, i.
    split; [eapply heap_step_doc; eauto|]. done.
Qed.

(** [Remove()] unlinks one item; the others stay. *)
Definition removed_only (p : item_ptr) (c c' : Cache) : Prop :=
  (p ∉ sorted_items c') /\ forall q, q <> p -> store c' !! q = store c !! q /\ (q ∈ sorted_items c' <-> q ∈ sorted_items c).

Lemma wp_Remove_only p c : CacheInv c -> is_Some (store c !! p) ->
  wp (Remove p) (fun _ c' => step_ok c c' /\ removed_only p c c') c.
Proof.
  intros HC [i Hi]. unfold Remove, IsRemoved, linked. apply wp_bind. apply (wp_item p i); [done|]. repeat wp_step.
  destruct (bool_decide (p ∈ sorted_items c)) eqn:E; simpl_bool; cbn [negb].
  - apply wp_RemoveItem; [done|done|]. intros j Hj Hs. split; [done|]. split; [cbn; by intros [_ ?]%elem_of_without|].
    intros q Hq. split; [by apply dropped_store|]. cbn. rewrite elem_of_without. tauto.
  - apply wp_assert; [|split; [by apply step_ok_refl|by split]].
    pose proof (ci_detached _ HC p i Hi E). unfold IsAbandoned. by destruct (item_leases i).
Qed.

Lemma wp_Heap_Remove p h m : HeapInv h m -> is_Some (hh_docs h !! p) ->
  wp (Heap_Remove p) (fun _ h' => exists m', heap_step h m h' m' /\ p ∉ sorted_items (hh_cache h')) h.
Proof.
  intros HI Hp. unfold Heap_Remove.
  eapply wp_mono; [apply (wp_cache_step _ (fun _ c => removed_only p (hh_cache h) c) h m HI (none_Remove p))|].
  - apply wp_Remove_only; [apply HI|by apply HI].
  - intros [] h' (m' & Hs & Hn & _). by exists m'.
Qed.

Lemma wp_Heap_RemoveKey key headers h m : HeapInv h m ->
  wp (Heap_RemoveKey key headers) (fun _ h' => exists m', heap_step h m h' m') h.
Proof.
  intros HI. unfold Heap_RemoveKey. apply wp_bind, wp_get. eapply wp_mono.
  - apply (wp_cache_step _ (fun _ _ => True) h m HI); [apply none_RemoveKeyIf|].
    eapply wp_mono; [apply wp_RemoveKeyIf, HI|]. by intros [] c Hs.
  - intros [] h' (m' & Hs & _). by exists m'.
Qed.

Lemma wp_Heap_Compress h m : HeapInv h m ->
  wp Heap_Compress (fun _ h' => heap_step h m h' m /\ hh_cache h' = hh_cache h /\ hh_docs h' = hh_docs h) h.
Proof.
  intros [HP Hd]. destruct HP as [H1 H2 H3 H4 H5 H6 H7 H8].
  unfold Heap_Compress. apply wp_on_rubber. eapply wp_mono; [by apply os_Compress_ok|]. intros [] r Hr.
  split; [|done]. split; [|by split|done]. split; [by split|done].
Qed.

Lemma heap_evolves_refl h m : heap_evolves h m h m.
Proof. split; auto. Qed.

Lemma heap_evolves_trans h1 m1 h2 m2 h3 m3 : heap_evolves h1 m1 h2 m2 -> heap_evolves h2 m2 h3 m3 ->
  heap_evolves h1 m1 h3 m3.
Proof.
  intros [A1 A2 A3 A4] [B1 B2 B3 B4]. split.
  - auto.
  - intros p it Hp. rewrite (B2 p it Hp). by eapply A2, B1.
  - intros id Hid. rewrite B3; [by apply A3|]. intros p Hp. apply (Hid p). by eapply owner_sub.
  - intros id Hid. destruct (B4 id Hid) as [H1 H2]. destruct (A4 id H1) as [H3 H4]. auto.
Qed.

Lemma heap_step_trans h1 m1 h2 m2 h3 m3 : heap_step h1 m1 h2 m2 -> heap_step h2 m2 h3 m3 -> heap_step h1 m1 h3 m3.
Proof.
  intros [A1 A2 A3] [B1 B2 B3]. split; [done|by eapply heap_evolves_trans|by etrans].
Qed.

Lemma heap_step_refl h m : HeapInv h m -> heap_step h m h m.
Proof. intros HI. split; [done|by split|reflexivity]. Qed.

Lemma wp_Heap_Flush h m : HeapInv h m ->
  wp Heap_Flush (fun _ h' => exists m', heap_step h m h' m' /\ sorted_items (hh_cache h') = []) h.
Proof.
  intros HI. unfold Heap_Flush. apply wp_bind. eapply wp_mono.
  - apply (wp_cache_step _ (fun _ c => sorted_items c = []) h m HI none_Flush). apply wp_Flush, HI.
  - intros [] h' (m' & Hs & E). eapply wp_mono; [apply (wp_Heap_Compress h' m'), Hs|].
    intros [] h2 (Hs2 & Ec & _). exists m'. split; [by eapply heap_step_trans|]. by rewrite Ec.
Qed.

Lemma wp_Heap_Expire now h m : HeapInv h m ->
  wp (Heap_Expire now) (fun _ h' => exists m', heap_step h m h' m') h.
Proof.
  intros HI. unfold Heap_Expire. eapply wp_mono.
  - apply (wp_cache_step _ (fun _ _ => True) h m HI (none_ExpireCallback now)).
    eapply wp_mono; [apply wp_ExpireCallback, HI|]. by intros a c [Hs _].
  - intros a h' (m' & Hs & _). by exists m'.
Qed.

(** One iteration of the loop in [FlushTag()]. *)
Lemma wp_flush_one p h m : HeapInv h m -> is_Some (hh_docs h !! p) ->
  wp (mmod (fun h => set_per_tag (without p (hh_per_tag h)) h) ;;; on_cache (Remove p))
    (fun _ h' => exists m', heap_step h m h' m' /\ removed_only p (hh_cache h) (hh_cache h')) h.
Proof.
  intros HI Hp. apply wp_bind, wp_mod.
  apply (wp_cache_step_table _ (fun _ c => removed_only p (hh_cache h) c) _ h m HI (none_Remove p)).
  eapply wp_mono; [apply wp_Remove_only; [apply HI|by apply HI]|]. intros [] c [Hs [Hn Hr]].
  split; [by split|]. split; [apply NoDup_filter, HI|]. split; [by intros q [? _]%elem_of_without|].
  intros q Hq Hl. apply elem_of_without. split; [done|]. by intros ->.
Qed.

(** Flushing a tag removes all the items with this tag, and no others. *)
Lemma wp_Heap_FlushTag tag h m : HeapInv h m ->
  wp (Heap_FlushTag tag) (fun _ h' => exists m', heap_step h m h' m' /\
    forall p it, hh_docs h !! p = Some it ->
      (p ∈ sorted_items (hh_cache h') <-> p ∈ sorted_items (hh_cache h) /\ hi_tag it <> Some tag)) h.
Proof.
  intros HI. unfold Heap_FlushTag. apply wp_bind, wp_gets.
  assert (Hl : forall p, p ∈ tagged tag h -> exists it, hh_docs h !! p = Some it /\ hi_tag it = Some tag).
  { intros p Hp. apply elem_of_bfilter in Hp as [_ Hp]. destruct (hh_docs h !! p) as [it|]; [|done].
    simpl_bool. eauto. }
  eapply wp_mono.
  - apply (wp_mfor (fun l h' => exists m', heap_step h m h' m' /\ NoDup l /\ (forall p, p ∈ l -> p ∈ tagged tag h) /\
      (forall p, p ∈ l -> is_Some (hh_docs h' !! p)) /\
      forall p, p ∈ sorted_items (hh_cache h') <-> p ∈ sorted_items (hh_cache h) /\ (p ∈ tagged tag h -> p ∈ l))).
    + intros p l h' (m' & Hs & Hnd & Hin & Hd & Hall). apply NoDup_cons in Hnd as [Hp Hnd].
      eapply wp_mono; [apply (wp_flush_one p h' m'); [apply Hs|apply Hd; left]|].
      intros [] h2 (m2 & Hs2 & Hn & Hr). exists m2. split; [by eapply heap_step_trans|]. split; [done|].
      split; [intros q Hq; apply Hin; by right|]. split.
      * intros q Hq. assert (q <> p) by (by intros ->). apply (hp_live _ _ (proj1 (hs_inv _ _ _ _ Hs2))).
        rewrite (proj1 (Hr q ltac:(done))). apply (proj2 (hs_inv _ _ _ _ Hs)). apply Hd. by right.
      * intros q. destruct (decide (q = p)) as [->|Hq].
        -- split; [done|]. intros [_ H]. exfalso. apply Hp, H, Hin. left.
        -- rewrite (proj2 (Hr q Hq)), Hall, elem_of_cons. naive_solver.
    + exists m. split; [by apply heap_step_refl|]. split.
      { eapply sublist_NoDup; [apply (hp_tags h m (proj1 HI))|apply bfilter_sub]. }
      split; [done|]. split; [|naive_solver]. intros p Hp. destruct (Hl p Hp) as (it & Hit & _). by eexists.
  - intros [] h' (m' & Hs & _ & _ & _ & Hall). exists m'. split; [done|]. intros p it Hit. rewrite Hall.
    assert (E : p ∈ sorted_items (hh_cache h) -> p ∈ tagged tag h <-> hi_tag it = Some tag).
    { intros Hp. split; [intros Ht; destruct (Hl p Ht) as (it' & ? & ?); congruence|]. intros Ht.
      apply elem_of_bfilter. split; [by eapply (hp_tagged h m (proj1 HI))|]. rewrite Hit. by apply bool_decide_eq_true. }
    split; (intros [H1 H2]; split; [done|]); intros H3; [|exfalso]; apply E in H3; try done.
    apply H2 in H3. by apply elem_of_nil in H3.
Qed.

End Facts.
