(* ===== verification/HttpCacheHeapOps.v ===== *)
(** * Storing documents, and leases

    The rest of the operations of [HttpCacheHeap]: [Put], leases, opening streams and updating
    documents. *)

From S2P Require Import Prelude CharUtil StrMap Uri HttpCacheRFC HttpCacheRFCFacts Cache CacheFacts ObjectStore.
From S2P Require Import RubberSink HttpCacheHeap HttpCacheHeapFacts.

#[local] Open Scope beng_scope.

Section Ops.
Context `{CU : CharUtil} `{UL : UriLib} `{HL : HttpLib}.
Context `{HS : HashSetOrder} `{TL : TrieLaws} `{OL : ObjectStoreLaws}.

(** ** [Put()] *)

Lemma none_ploop p (body : M Cache bool) : creates_none body -> creates_none (ploop p body).
Proof.
  intros Hb. induction p as [q IH|q IH|]; simpl.
  - apply none_bind; [done|]. intros []; [|apply none_ret]. apply none_bind; [done|].
    intros []; [apply none_ret|done].
  - apply none_bind; [done|]. intros []; [apply none_ret|done].
  - apply none_bind; [done|]. intros b. apply none_ret.
Qed.

Lemma none_NeedRoom size : creates_none (NeedRoom size).
Proof.
  unfold NeedRoom, while. apply none_bind; [apply none_get|]. intros c. destruct (_ <? _); [apply none_ret|].
  apply none_bind; [|intros; apply none_ret]. apply none_bind; [|intros; apply none_assert].
  apply none_ploop. unfold NeedRoom_body, DestroyOldestItem. apply none_bind; [apply none_get|]. intros c'.
  destruct (_ <=? _); [apply none_ret|]. apply none_bind; [|intros; apply none_ret].
  apply none_bind; [apply none_get|]. intros c2. destruct (sorted_items c2); [apply none_ret|apply none_RemoveItem].
Qed.

(** The address of the item that [PutMatch()] creates. *)
Definition created (c : Cache) (r : option item_ptr) (c' : Cache) : Prop :=
  match r with
  | Some p => p = next_item c /\ next_item c' = S p
  | None => next_item c' = next_item c
  end.

(** The first part of a computation creates no item. *)
Lemma created_bind {A} (mm : M Cache A) (k : A -> M Cache (option item_ptr)) c r c' :
  creates_none mm -> (forall a c1, k a c1 = Some (r, c') -> created c1 r c') -> mbnd mm k c = Some (r, c') ->
  created c r c'.
Proof.
  intros Hm Hk E. unfold mbnd in E. destruct (mm c) as [[a c1]|] eqn:Em; [|done].
  specialize (Hk a c1 E). unfold created in *. by rewrite <-(Hm _ _ _ Em).
Qed.

Lemma PutMatch_created validate now i match_ c r c' :
  PutMatch validate now i match_ c = Some (r, c') -> created c r c'.
Proof.
  unfold PutMatch, Add. apply created_bind; [apply none_GetMatch|]. intros old c1.
  apply created_bind; [apply none_assert|]. intros _ c2. apply created_bind; [apply none_assert|]. intros _ c3.
  apply created_bind; [destruct old; [apply none_RemoveItem|apply none_ret]|]. intros _ c4.
  apply created_bind; [apply none_NeedRoom|]. intros [] c5; simpl; [|by intros [= <- <-]].
  intros E. unfold mbnd in E. rewrite link_item_eq in E. injection E as <- <-. done.
Qed.

(** The body that is passed to [Put()]: nobody owns it yet. *)
Definition free_body (h : HttpCacheHeap) (m : gmap Z (list Z)) (body size : Z) : Prop :=
  0 <= size /\ (body = 0 \/ 0 < body /\ (forall p, ~ owner (hh_docs h) p body) /\
    exists b, m !! body = Some b /\ size <= Z.of_nat (length b)).

Lemma new_item_pre h m it T : HeapInv h m -> free_body h m (hi_body it) (hi_size it) ->
  NoDup T -> (forall q, q ∈ T -> q = next_item (hh_cache h) \/ q ∈ hh_per_tag h) ->
  (forall q, q ∈ hh_per_tag h -> q ∈ T) ->
  HeapPre (set_per_tag T (set_docs (<[next_item (hh_cache h) := it]> (hh_docs h)) h)) m.
Proof.
  intros [HP Hd] [Hsz Hb] HT1 HT2 HT3. destruct HP as [H1 H2 H3 H4 [H5 H5'] H6 H7 H8].
  pose proof (fresh_None _ H1) as Hf. set (p := next_item (hh_cache h)) in *.
  assert (Hnew : hh_docs h !! p = None).
  { destruct (hh_docs h !! p) eqn:E; [|done]. destruct (Hd p ltac:(eauto)) as [? ?]. congruence. }
  assert (Hother : forall q jt, <[p := it]> (hh_docs h) !! q = Some jt -> q = p /\ jt = it \/ q <> p /\ hh_docs h !! q = Some jt).
  { intros q jt. destruct (decide (q = p)) as [->|Hq].
    - rewrite lookup_insert_eq. intros [= <-]. by left.
    - rewrite lookup_insert_ne by done. by right. }
  split; cbn; try done.
  - intros q Hq. destruct (decide (q = p)) as [->|]; [by rewrite lookup_insert_eq|].
    rewrite lookup_insert_ne by done. by apply H4.
  - split; [done|]. intros q Hq. destruct (HT2 q Hq) as [->|Hq']; [by rewrite lookup_insert_eq|].
    destruct (decide (q = p)) as [->|]; [by rewrite lookup_insert_eq|]. rewrite lookup_insert_ne by done. by apply H5'.
  - intros q jt t Hq Hj Ht. apply Hother in Hj as [[-> ->]|[Hne Hj]].
    + by apply (fresh_not_linked _ H1) in Hq.
    + by eapply HT3, H6.
  - intros q jt Hj. apply Hother in Hj as [[-> ->]|[Hne Hj]]; [|by eapply H7].
    split; [done|]. destruct Hb as [?|(? & _ & ?)]; [by left|by right].
  - intros q1 q2 id (Hz & j1 & Hj1 & E1) (_ & j2 & Hj2 & E2).
    apply Hother in Hj1 as [[-> ->]|[N1 Hj1]], Hj2 as [[-> ->]|[N2 Hj2]]; [done| | |].
    + exfalso. destruct Hb as [Hb|(_ & Hb & _)]; [congruence|]. apply (Hb q2). split; [congruence|]. exists j2. split; [done|congruence].
    + exfalso. destruct Hb as [Hb|(_ & Hb & _)]; [congruence|]. apply (Hb q1). split; [congruence|]. exists j1. split; [done|congruence].
    + apply (H8 q1 q2 id); split; eauto.
Qed.

(** What [Put()] does: the new document is stored, or its body is freed. *)
Record put_ok (h : HttpCacheHeap) (m : gmap Z (list Z)) (it : HttpCacheItem) (i : CacheItem) (r : option item_ptr)
    (h' : HttpCacheHeap) (m' : gmap Z (list Z)) : Prop := {
  pu_inv : HeapInv h' m';
  pu_cache : evolves (hh_cache h) (hh_cache h');
  pu_new : match r with
           | Some p => p = next_item (hh_cache h) /\ hh_docs h' !! p = Some it /\ store (hh_cache h') !! p = Some i /\
                       p ∈ sorted_items (hh_cache h')
           | None => max_size (hh_cache h) < item_size i /\ hh_docs h' !! next_item (hh_cache h) = None
           end;
  pu_docs : forall p jt, hh_docs h' !! p = Some jt -> p <> next_item (hh_cache h) -> hh_docs h !! p = Some jt;
  pu_kept : forall p jt, hh_docs h' !! p = Some jt -> m' !! hi_body jt = m !! hi_body jt;
  pu_others : forall id, (forall p, ~ owner (hh_docs h) p id) -> id <> hi_body it -> m' !! id = m !! id;
  pu_gone : forall id, is_Some (m' !! id) -> is_Some (m !! id) /\
    (forall p, owner (hh_docs h) p id -> owner (hh_docs h') p id) /\ (id = hi_body it -> id <> 0 -> is_Some r) }.

(** The part of [Put()] that runs in the cache. *)
Lemma wp_put_item now it i match_ T h m :
  HeapInv h m -> free_body h m (hi_body it) (hi_size it) -> new_item_ok i -> NoDup T ->
  (forall q, q ∈ T -> q = next_item (hh_cache h) \/ q ∈ hh_per_tag h) ->
  (forall q, q ∈ hh_per_tag h -> q ∈ T) ->
  (is_Some (hi_tag it) -> next_item (hh_cache h) ∈ T) ->
  wp (on_cache (PutMatch (fun _ => true) now i match_)) (fun r h' => exists m', put_ok h m it i r h' m')
    (set_per_tag T (set_docs (<[next_item (hh_cache h) := it]> (hh_docs h)) h)).
Proof.
  intros HI Hb Hi HT1 HT2 HT3 HT4. pose proof (new_item_pre h m it T HI Hb HT1 HT2 HT3) as HP.
  set (p := next_item (hh_cache h)) in *. set (docs := <[p := it]> (hh_docs h)) in *.
  assert (Hnew : hh_docs h !! p = None).
  { destruct (hh_docs h !! p) eqn:E; [|done]. destruct (proj2 HI p ltac:(eauto)) as [? Hs].
    pose proof (fresh_None _ (hp_cache _ _ (proj1 HI))) as Hf. fold p in Hf. congruence. }
  assert (Hdp : docs !! p = Some it) by apply lookup_insert_eq.
  assert (Hold : forall q, q <> p -> docs !! q = hh_docs h !! q) by (intros q Hq; by apply lookup_insert_ne).
  eapply wp_mono.
  - apply (wp_on_cache _ (fun r c => added (hh_cache h) i r c /\ created (hh_cache h) r c) T _ m HP); [done| | |].
    + intros q Hq. by apply (hp_tags _ _ HP).
    + apply wp_with; [apply wp_PutMatch; [apply HI|done]|]. intros r c' E. by eapply PutMatch_created.
    + intros r c [[[HC He] Hr] Hcr]. split; [done|].
      assert (Hlt : forall q, (q < next_item c)%nat -> q <> p -> (q < next_item (hh_cache h))%nat).
      { intros q Hq Hne. unfold created in Hcr. destruct r; [destruct Hcr as [-> E]; rewrite E in Hq; fold p in Hq|]; lia. }
      cbn [hh_docs set_docs set_per_tag]. split.
      * intros q [j Hj]. destruct (decide (q = p)) as [->|Hne]; [by rewrite Hdp|].
        rewrite Hold by done. apply (hp_live _ _ (proj1 HI)). exists j. apply (ev_same _ _ He); [|done].
        apply Hlt; [by eapply (ci_fresh c HC)|done].
      * intros q jt t Hq Hj Ht. destruct (decide (q = p)) as [->|Hne].
        -- rewrite Hdp in Hj. injection Hj as <-. apply HT4. by eexists.
        -- rewrite Hold in Hj by done. apply HT3. eapply (hp_tagged _ _ (proj1 HI)); [|done|done].
           apply (ev_sorted _ _ He); [|done]. apply Hlt; [|done].
           destruct (ci_live c HC q Hq) as (j & Hqj & _). by eapply (ci_fresh c HC).
  - intros r h' (m' & HI' & [[[HC He] Hr] Hcr] & [E1 E2 E3 E4]). exists m'.
    cbn [hh_docs set_docs set_per_tag] in *. fold docs in E1, E3, E4.
    assert (Hpn : match r with Some q => q = p | None => hh_docs h' !! p = None end).
    { unfold created in Hcr. destruct r as [q|]; [by destruct Hcr|].
      destruct (hh_docs h' !! p) as [jt|] eqn:E; [|done]. destruct (proj2 HI' p ltac:(eauto)) as [j Hj].
      apply (ci_fresh _ HC) in Hj. rewrite Hcr in Hj. fold p in Hj. lia. }
    split; [done|done| | |done| |].
    + destruct r as [q|]; [subst q|by split]. destruct Hr as (_ & Hst & Hl). split; [done|]. split; [|split; [done|by apply last_Some_elem_of in Hl]].
      destruct (hp_live _ _ (proj1 HI') p ltac:(eauto)) as [jt Hj]. pose proof (E1 p jt Hj) as E. congruence.
    + intros q jt Hq Hne. rewrite <-Hold by done. by apply E1.
    + intros id Hid Hne. apply E3. intros q (Hz & jt & Hq & Hbody).
      destruct (decide (q = p)) as [->|Hqp]; [congruence|].
      apply (Hid q). split; [done|]. rewrite Hold in Hq by done. eauto.
    + intros id Hid. destruct (E4 id Hid) as [H1 H2]. split; [done|]. split.
      * intros q (Hz & jt & Hq & Hbody). apply H2. split; [done|]. exists jt. split; [|done].
        rewrite Hold; [done|]. intros ->. congruence.
      * intros -> Hz. destruct r; [by eexists|]. destruct (H2 p) as (_ & jt & Hj & _).
        -- split; [done|]. by exists it.
        -- congruence.
Qed.

(** The new item is valid, if its pool uses memory. *)
Lemma wp_Heap_Put pool_size now system_now key tag info rh status resp body size h m :
  HeapInv h m -> free_body h m body size -> 0 < pool_size -> http_status_is_valid status = true ->
  exists it i, HttpCacheItem_new pool_size key now system_now tag info rh status resp size body = Some (it, i) /\
  wp (Heap_Put pool_size now system_now key tag info rh status resp body size)
    (fun r h' => exists m', put_ok h m it i r h' m') h.
Proof.
  intros HI Hb Hpool Hst.
  destruct (HttpCacheItem_new pool_size key now system_now tag info rh status resp size body) as [[it i]|] eqn:E.
  2: { unfold HttpCacheItem_new, HttpCacheDocument_new in E. by rewrite Hst in E. }
  exists it, i. split; [done|]. unfold Heap_Put. apply wp_bind. eapply wp_opt; [exact E|]. apply wp_bind, wp_get.
  apply wp_bind, wp_mod. simpl fst. simpl snd.
  unfold HttpCacheItem_new in E. destruct (HttpCacheDocument_new info rh status resp) as [doc|]; [|done].
  injection E as <- <-.
  assert (Hi : new_item_ok (CacheItem_new key (pool_size + size)
    (http_cache_calc_expires now system_now (r_expires info) (d_vary doc)))).
  { split; cbn; [|done]. destruct Hb as [Hs _]. lia. }
  pose proof (hp_tags _ _ (proj1 HI)) as [Ht1 Ht2].
  assert (Hfresh : next_item (hh_cache h) ∉ hh_per_tag h).
  { intros Hin. destruct (proj2 HI _ (Ht2 _ Hin)) as [j Hj]. by rewrite (fresh_None _ (hp_cache _ _ (proj1 HI))) in Hj. }
  destruct tag as [tag|].
  - apply wp_bind, wp_mod. apply wp_put_item; [done|done|done| | | |].
    + cbn. rewrite hs_insert_perm. by constructor.
    + intros q. cbn. rewrite hs_insert_perm. by intros [?|?]%elem_of_cons; [left|right].
    + intros q Hq. cbn. rewrite hs_insert_perm. by right.
    + intros _. cbn. rewrite hs_insert_perm. left.
  - apply wp_bind, wp_ret.
    pose proof (wp_put_item now (mkHttpItem doc None size body) (CacheItem_new key (pool_size + size)
      (http_cache_calc_expires now system_now (r_expires info) (d_vary doc))) (http_cache_item_match rh h)
      (hh_per_tag h) h m HI Hb Hi Ht1 ltac:(auto) ltac:(auto)) as H. apply H. by intros [? ?].
Qed.

(** ** Leases *)

(** The item [p] has become [x], or was destroyed; nothing else happens in the cache. *)
Record item_changed (p : item_ptr) (x : option CacheItem) (c c' : Cache) : Prop := {
  ic_max : max_size c' = max_size c;
  ic_next : next_item c' = next_item c;
  ic_sorted : sorted_items c' = sorted_items c;
  ic_store : store c' = match x with Some j => <[p := j]> (store c) | None => delete p (store c) end }.

Lemma live_doc h m h' m' p : heap_evolves h m h' m' -> HeapInv h' m' -> is_Some (store (hh_cache h') !! p) ->
  hh_docs h' !! p = hh_docs h !! p.
Proof.
  intros He HI Hp. destruct (hp_live _ _ (proj1 HI) p Hp) as [it Hit]. rewrite Hit. symmetry. by apply (he_docs _ _ _ _ He).
Qed.

Lemma wp_item_op (mm : M Cache unit) p i x h m :
  HeapInv h m -> store (hh_cache h) !! p = Some i ->
  wp mm (fun _ c => CacheInv c /\ item_changed p x (hh_cache h) c) (hh_cache h) ->
  wp (on_cache mm) (fun _ h' => exists m', HeapInv h' m' /\ heap_evolves h m h' m' /\
    item_changed p x (hh_cache h) (hh_cache h')) h.
Proof.
  intros HI Hi Hmm. pose proof (hp_tags _ _ (proj1 HI)) as [Ht1 Ht2].
  cut (wp (on_cache mm) (fun _ h' => exists m', HeapInv h' m' /\ heap_evolves h m h' m' /\
    item_changed p x (hh_cache h) (hh_cache h')) (set_per_tag (hh_per_tag h) h)); [by rewrite set_per_tag_id|].
  eapply wp_mono; [apply (wp_on_cache mm _ (hh_per_tag h) h m (proj1 HI) Ht1 Ht2 Hmm)|].
  - intros [] c [HC [E1 E2 E3 E4]]. split; [done|]. rewrite E3, E4. split; [|apply (hp_tagged _ _ (proj1 HI))].
    intros q Hq. apply (hp_live _ _ (proj1 HI)). destruct (decide (q = p)) as [->|Hne]; [by eexists|].
    destruct x; [by rewrite lookup_insert_ne in Hq by done|by rewrite lookup_delete_ne in Hq by done].
  - intros [] h' (m' & HI' & [_ Hc] & Hev). by exists m'.
Qed.

Definition with_leases (n : nat) (i : CacheItem) : CacheItem :=
  mkCacheItem (item_key i) (item_expires i) (item_size i) n.

Lemma wp_Heap_Lock p i h m : HeapInv h m -> store (hh_cache h) !! p = Some i ->
  wp (Heap_Lock p) (fun _ h' => exists m', HeapInv h' m' /\ heap_evolves h m h' m' /\
    item_changed p (Some (with_leases (S (item_leases i)) i)) (hh_cache h) (hh_cache h')) h.
Proof.
  intros HI Hi. apply (wp_item_op _ p i _ h m HI Hi). unfold AddLease. apply wp_bind, (wp_item p i); [done|].
  apply wp_mod. split; [|by split]. eapply CacheInv_update; [apply HI|done|done|]. done.
Qed.

(** What is left of an item when a lease ends. *)
Definition after_unlock (c : Cache) (p : item_ptr) (i : CacheItem) : option CacheItem :=
  if (item_leases i =? 1)%nat && bool_decide (p ∉ sorted_items c) then None
  else Some (with_leases (pred (item_leases i)) i).

Lemma wp_Heap_Unlock p i h m : HeapInv h m -> store (hh_cache h) !! p = Some i -> item_leases i <> O ->
  wp (Heap_Unlock p) (fun _ h' => exists m', HeapInv h' m' /\ heap_evolves h m h' m' /\
    item_changed p (after_unlock (hh_cache h) p i) (hh_cache h) (hh_cache h')) h.
Proof.
  intros HI Hi Hl. apply (wp_item_op _ p i _ h m HI Hi). pose proof (hp_cache _ _ (proj1 HI)) as HC.
  unfold DropLease, after_unlock. apply wp_bind, (wp_item p i); [done|].
  apply wp_bind, wp_assert; [by apply negb_true_iff, Nat.eqb_neq|]. apply wp_bind, wp_mod.
  set (c1 := set_store _ (hh_cache h)).
  destruct (item_leases i =? 1)%nat eqn:E1; simpl_bool; cbn [andb].
  - unfold OnAbandoned, IsRemoved, linked. repeat wp_step. cbn [c1 set_store sorted_items].
    destruct (bool_decide (p ∈ sorted_items (hh_cache h))) eqn:E2; simpl_bool; cbn [negb].
    + rewrite bool_decide_eq_false_2 by naive_solver. apply wp_ret. split; [|by split].
      eapply CacheInv_update; [done|done|done|]. done.
    + rewrite bool_decide_eq_true_2 by done. unfold Destroy.
      apply wp_bind, (wp_item p (with_leases (pred (item_leases i)) i)); [by unfold c1; cbn; rewrite lookup_insert_eq|].
      apply wp_mod. split; [exact (CacheInv_destroy p _ (hh_cache h) HC E2)|]. split; try done. cbn. apply delete_insert_eq.
  - apply wp_ret. split; [|by split]. eapply CacheInv_update; [done|done|done|]. intros _. simpl.
    apply Nat.eqb_neq in E1. lia.
Qed.

(** ** Updating documents *)

(** Another document with the same tag and body. *)
Definition set_document (d : HttpCacheDocument) (it : HttpCacheItem) : HttpCacheItem :=
  mkHttpItem d (hi_tag it) (hi_size it) (hi_body it).

Definition with_document (p : item_ptr) (it : HttpCacheItem) (d : HttpCacheDocument) (h : HttpCacheHeap) : HttpCacheHeap :=
  set_docs (<[p := set_document d it]> (hh_docs h)) h.

Lemma with_document_lookup p it d h q jt : hh_docs h !! p = Some it ->
  hh_docs (with_document p it d h) !! q = Some jt ->
  exists jt0, hh_docs h !! q = Some jt0 /\ hi_tag jt = hi_tag jt0 /\ hi_size jt = hi_size jt0 /\ hi_body jt = hi_body jt0.
Proof.
  intros Hp. cbn. destruct (decide (q = p)) as [->|Hq].
  - rewrite lookup_insert_eq. intros [= <-]. by exists it.
  - rewrite lookup_insert_ne by done. intros Hj. by exists jt.
Qed.

Lemma with_document_some p it d h q : hh_docs h !! p = Some it ->
  is_Some (hh_docs (with_document p it d h) !! q) <-> is_Some (hh_docs h !! q).
Proof.
  intros Hp. cbn. destruct (decide (q = p)) as [->|Hq].
  - rewrite lookup_insert_eq, Hp. split; by eexists.
  - by rewrite lookup_insert_ne by done.
Qed.

Lemma with_document_owner p it d h q id : hh_docs h !! p = Some it ->
  owner (hh_docs (with_document p it d h)) q id <-> owner (hh_docs h) q id.
Proof.
  intros Hp. unfold owner. split; intros (Hz & jt & Hj & Hb); (split; [done|]).
  - apply (with_document_lookup p it d h q jt Hp) in Hj as (jt0 & Hj0 & _ & _ & E). exists jt0. split; [done|congruence].
  - cbn. destruct (decide (q = p)) as [->|Hq].
    + exists (set_document d it). rewrite lookup_insert_eq. split; [done|]. simpl. congruence.
    + exists jt. by rewrite lookup_insert_ne by done.
Qed.

Lemma with_document_inv p it d h m : HeapInv h m -> hh_docs h !! p = Some it -> HeapInv (with_document p it d h) m.
Proof.
  intros [HP Hd] Hp. destruct HP as [H1 H2 H3 H4 [H5 H5'] H6 H7 H8].
  split; [split; try done|].
  - intros q Hq. apply with_document_some; [done|]. by apply H4.
  - split; [done|]. intros q Hq. apply with_document_some; [done|]. by apply H5'.
  - intros q jt t Hq Hj Ht. apply with_document_lookup in Hj as (j0 & Hj & E & _); [|done]. eapply H6; [done|done|by rewrite <-E].
  - intros q jt Hj. apply with_document_lookup in Hj as (j0 & Hj & _ & E2 & E3); [|done].
    unfold body_ok. rewrite E2, E3. by eapply H7.
  - intros q1 q2 id Ho1 Ho2. apply with_document_owner in Ho1, Ho2; [|done..]. by eapply H8.
  - intros q Hq. apply with_document_some in Hq; [|done]. by apply Hd.
Qed.

Lemma wp_Doc_SetHeaders p it f h m : HeapInv h m -> hh_docs h !! p = Some it ->
  wp (Doc_SetHeaders p f) (fun _ h' => HeapInv h' m /\ h' = with_document p it
    (mkDocument (d_info (hi_document it)) (d_vary (hi_document it)) (d_status (hi_document it)) (f (d_headers (hi_document it)))) h) h.
Proof.
  intros HI Hp. unfold Doc_SetHeaders. apply wp_bind, wp_get, wp_bind. eapply wp_opt; [exact Hp|]. apply wp_mod.
  split; [|done]. by apply with_document_inv.
Qed.

Definition set_info_expires (e : Z) (d : HttpCacheDocument) : HttpCacheDocument :=
  mkDocument (mkResponseInfo e (r_last_modified (d_info d)) (r_etag (d_info d)) (r_vary (d_info d)))
    (d_vary d) (d_status d) (d_headers d).

Lemma wp_Item_SetExpires p it i steady system e h m : HeapInv h m -> hh_docs h !! p = Some it ->
  store (hh_cache h) !! p = Some i ->
  wp (Item_SetExpires p steady system e) (fun _ h' => exists m', HeapInv h' m' /\
    heap_evolves (with_document p it (set_info_expires e (hi_document it)) h) m h' m' /\
    item_changed p (Some (mkCacheItem (item_key i) (http_cache_calc_expires steady system e (d_vary (hi_document it)))
        (item_size i) (item_leases i))) (hh_cache h) (hh_cache h')) h.
Proof.
  intros HI Hp Hi. unfold Item_SetExpires. apply wp_bind, wp_get, wp_bind. eapply wp_opt; [exact Hp|].
  apply wp_bind, wp_mod.
  pose proof (with_document_inv p it (set_info_expires e (hi_document it)) h m HI Hp) as HI2.
  apply (wp_item_op _ p i _ _ m HI2); [done|]. unfold SetExpires. apply wp_bind, (wp_item p i); [done|]. apply wp_mod.
  split; [|by split]. pose proof (hp_cache _ _ (proj1 HI)) as HC.
  eapply CacheInv_update; [done|done|done|]. exact (ci_detached _ HC p i Hi).
Qed.

(** ** Opening the body of a document *)

Lemma wp_Heap_OpenStream p it i h m : HeapInv h m -> hh_docs h !! p = Some it -> store (hh_cache h) !! p = Some i ->
  wp (Heap_OpenStream p) (fun r h' => exists m', HeapInv h' m' /\ heap_evolves h m h' m' /\
    match r with
    | None => hi_body it = 0 /\ h' = h
    | Some s => item_changed p (Some (with_leases (S (item_leases i)) i)) (hh_cache h) (hh_cache h') /\
        s = mkRubberIstream (hi_body it) false 0 (hi_size it) /\
        exists b, m' !! hi_body it = Some b /\ m !! hi_body it = Some b /\ istream_shows m' s (take (Z.to_nat (hi_size it)) b)
    end) h.
Proof.
  intros HI Hp Hi. unfold Heap_OpenStream. apply wp_bind, wp_get, wp_bind. eapply wp_opt; [exact Hp|]. unfold HasBody.
  destruct (hi_body it =? 0) eqn:E; simpl_bool; cbn [negb].
  { apply wp_ret. exists m. split; [done|]. split; [apply heap_evolves_refl|done]. }
  destruct (hp_body _ _ (proj1 HI) p it Hp) as [Hs [?|(Hpos & b & Hb & Hl)]]; [done|].
  apply wp_bind. eapply wp_opt.
  { unfold istream_rubber_new. rewrite (proj2 (Z.ltb_lt 0 _)), (proj2 (Z.leb_le 0 _)) by done. reflexivity. }
  apply wp_bind. eapply wp_mono; [by apply (wp_Heap_Lock p i h m)|]. intros [] h' (m' & HI' & Hev & Hc). apply wp_ret.
  exists m'. split; [done|]. split; [done|]. split; [done|]. split; [done|]. exists b.
  assert (Hp' : hh_docs h' !! p = Some it).
  { rewrite (live_doc h m h' m' p Hev HI'); [done|]. rewrite (ic_store _ _ _ _ Hc), lookup_insert_eq. by eexists. }
  assert (Hb' : m' !! hi_body it = Some b) by (rewrite (he_kept _ _ _ _ Hev p it Hp'); done).
  split; [done|]. split; [done|]. exists b. cbn. split; [done|]. split; [lia|]. split; [done|].
  by rewrite Z.sub_0_r, drop_0.
Qed.

End Ops.
