(* ===== verification/HttpCache.v ===== *)
(** * The HTTP cache

    Models src/http/cache/Public.cxx: the cache answers requests from its documents, revalidates them, or
    forwards the requests to the next [ResourceLoader], stores the responses, and removes documents which
    requests invalidate.

    A [HttpCacheRequest] is an object with an address; while it saves a response body, it owns a
    [RubberSink].  [streams] are the bodies of documents that were opened and not closed yet.  What the
    cache tells its callers and the next loader, and what these tell the cache, is collected in a log.
    The time of the event loop ([SteadyNow()], [SystemNow()]) is an argument of the operations. *)

From Stdlib Require Import String.
From S2P Require Import Prelude CharUtil StrMap Uri HttpCacheRFC Cache ObjectStore RubberSink HttpCacheHeap.

#[local] Open Scope beng_scope.

(** What the cache uses of [ResourceRequestParams]. *)
Record ResourceRequestParams := mkParams {
  p_ignore_no_cache : bool;
  p_eager_cache : bool;
  p_auto_flush_cache : bool;
  p_address_id : option (list Z);
  p_cache_tag : option (list Z) }.

Record HttpCacheRequest := mkRequest {
  q_cache_tag : option (list Z);
  q_key : list Z;
  q_request_headers : StringMap;
  q_request_info : HttpCacheRequestInfo;
  q_document : option item_ptr;
  q_eager_cache : bool;
  (** [cancel_ptr] is set *)
  q_cancel : bool;
  (** [info] and [response] of a response that is being stored *)
  q_response : option (HttpCacheResponseInfo * HttpStatus * StringMap);
  q_sink : option RubberSink }.

Definition req_ptr := nat.

(** The body of a response that is passed to a caller: none, that of the next loader, or that of a document, which may be
    empty (then the caller gets no body). *)
Inductive response_body := NoBody | Upstream | Cached (p : item_ptr) (s : RubberIstream) | CachedEmpty (p : item_ptr).

Inductive cache_log :=
(** a request of a caller that is passed to the next loader, whose response is passed to the caller *)
| Forward (method : HttpMethod) (headers : StringMap) (has_body : bool)
(** the same, with [AutoFlushHttpCacheRequest] *)
| ForwardFlush (tag : option (list Z)) (method : HttpMethod) (headers : StringMap) (has_body : bool)
(** a new [HttpCacheRequest] for a caller's request, and what it sends to the next loader *)
| Begin (r : req_ptr) (key : list Z) (headers : StringMap)
| Send (r : req_ptr) (method : HttpMethod) (headers : StringMap)
(** what the next loader has answered, and what its body has delivered *)
| Answer (r : req_ptr) (status : HttpStatus) (headers : StringMap) (body : option (Z * Z))
| Input (r : req_ptr) (i : sink_input)
(** the answer of the cache to a caller *)
| Respond (status : HttpStatus) (headers : StringMap) (body : response_body)
| RespondError.

Record CacheStats := mkStats { st_skips : Z; st_misses : Z; st_stores : Z; st_hits : Z }.

(** Two more functions of the library and of [PDigestHeader.cxx]: the base 32 representation of the hash of a string, and
    the value of the "Digest" header. *)
Class HttpCacheEnv := {
  hash_base32 : list Z -> list Z;
  GenerateDigestHeader : list Z -> list Z }.

(** ** Decisions *)

Section Decisions.
Context `{CU : CharUtil} `{UL : UriLib} `{HL : HttpLib} `{HE : HttpCacheEnv}.
Context `{HS : HashSetOrder} `{TO : TrieOrder}.

Definition IsModifyingMethod (method : HttpMethod) : bool := negb (IsSafeMethod method).

Definition http_cache_key (address : ResourceAddress) (id : option (list Z)) : option (list Z) :=
  match a_type address with
  | A_NONE | A_LOCAL | A_PIPE => None
  | A_HTTP | A_LHTTP | A_CGI | A_FASTCGI | A_WAS =>
      Some (match id with None => a_id address | Some id => id end)
  end.

Definition IsHTTPS (headers : StringMap) : bool :=
  bool_decide (StringMap_Get (str "x-cm4all-https") headers = Some (str "on")).

(** The special case for Local HTTP in [Start()]. *)
Definition lhttp_key (address : ResourceAddress) (headers : StringMap) (key : list Z) : list Z :=
  if bool_decide (a_type address = A_LHTTP) then
    let https := IsHTTPS headers in
    match StringMap_Get (str "x-cm4all-docroot") headers with
    | Some docroot => (if https then str "https;" else []) ++ hash_base32 docroot ++ str "=dr;" ++ key
    | None => if https then str "https;" ++ key else key
    end
  else key.

Definition UpdateHeader (src : StringMap) (name : list Z) (dest : StringMap) : StringMap :=
  match StringMap_Get name src with
  | Some value => StringMap_SecureSet name (Some value) dest
  | None => dest
  end.

Definition CheckETagList (list : list Z) (response_headers : StringMap) : bool :=
  if bool_decide (list = str "*") then true
  else match StringMap_Get (str "etag") response_headers with
       | Some etag => http_list_contains list etag
       | None => false
       end.

(** The response that is sent instead of the document: [None] is the result [true]. *)
Definition CheckCacheRequest (info : HttpCacheRequestInfo) (document : HttpCacheDocument)
    : option (HttpStatus * StringMap) :=
  let headers := d_headers document in
  let not_modified := Some (304, StringMap_copy headers) in
  let last_modified := StringMap_Get (str "last-modified") headers in
  let valid t := negb (t =? no_time) in
  let check_unmodified :=
    match if_unmodified_since info, last_modified with
    | Some iums, Some lm =>
        let iums := http_date_parse iums in
        let lm := http_date_parse lm in
        if valid iums && valid lm && (iums <? lm) then Some (412, []) else None
    | _, _ => None
    end in
  let check_modified :=
    match if_modified_since info, last_modified with
    | Some since, Some lm =>
        if bool_decide (since = lm) then not_modified
        else
          let ims := http_date_parse since in
          let lm := http_date_parse lm in
          if valid ims && valid lm && (lm <=? ims) then not_modified else check_unmodified
    | _, _ => check_unmodified
    end in
  let check_none_match :=
    match if_none_match info with
    | Some l => if CheckETagList l headers then not_modified else check_unmodified
    | None => check_modified
    end in
  match if_match info with
  | Some l => if negb (CheckETagList l headers) then Some (412, []) else check_none_match
  | None => check_none_match
  end.

Definition http_cache_may_serve (system_now : Z) (info : HttpCacheRequestInfo) (document : HttpCacheDocument) : bool :=
  only_if_cached info || (negb (no_cache info) && (system_now <=? r_expires (d_info document))).

(** The conditional headers of [Revalidate()]. *)
Definition revalidate_headers (document : HttpCacheDocument) (headers : StringMap) : StringMap :=
  let headers := match r_last_modified (d_info document) with
                 | Some lm => fst (StringMap_Set (str "if-modified-since") lm headers)
                 | None => headers
                 end in
  match r_etag (d_info document) with
  | Some etag => fst (StringMap_Set (str "if-none-match") etag headers)
  | None => headers
  end.

End Decisions.

(** ** The cache *)

(** Removes one occurrence of an element. *)
Fixpoint remove_one (p : item_ptr) (l : list item_ptr) : list item_ptr :=
  match l with
  | [] => []
  | q :: l' => if (q =? p)%nat then l' else q :: remove_one p l'
  end.

Section HttpCache.
Context `{CU : CharUtil} `{UL : UriLib} `{HL : HttpLib} `{HE : HttpCacheEnv}.
Context `{HS : HashSetOrder} `{TO : TrieOrder} `{O : ObjectStore}.

Record HttpCache := mkHttpCache {
  hc_heap : HttpCacheHeap;
  (** the list of requests that save their response *)
  hc_requests : list req_ptr;
  hc_stats : CacheStats;
  hc_obey_no_cache : bool;
  (** all requests, by their address *)
  hc_objects : gmap req_ptr HttpCacheRequest;
  hc_next : req_ptr;
  hc_streams : list item_ptr;
  hc_log : list cache_log }.

Abbreviation K := (M HttpCache).

Definition set_heap x k := mkHttpCache x (hc_requests k) (hc_stats k) (hc_obey_no_cache k) (hc_objects k) (hc_next k) (hc_streams k) (hc_log k).
Definition set_requests x k := mkHttpCache (hc_heap k) x (hc_stats k) (hc_obey_no_cache k) (hc_objects k) (hc_next k) (hc_streams k) (hc_log k).
Definition set_stats x k := mkHttpCache (hc_heap k) (hc_requests k) x (hc_obey_no_cache k) (hc_objects k) (hc_next k) (hc_streams k) (hc_log k).
Definition set_objects x k := mkHttpCache (hc_heap k) (hc_requests k) (hc_stats k) (hc_obey_no_cache k) x (hc_next k) (hc_streams k) (hc_log k).
Definition set_hc_next x k := mkHttpCache (hc_heap k) (hc_requests k) (hc_stats k) (hc_obey_no_cache k) (hc_objects k) x (hc_streams k) (hc_log k).
Definition set_streams x k := mkHttpCache (hc_heap k) (hc_requests k) (hc_stats k) (hc_obey_no_cache k) (hc_objects k) (hc_next k) x (hc_log k).
Definition set_hc_log x k := mkHttpCache (hc_heap k) (hc_requests k) (hc_stats k) (hc_obey_no_cache k) (hc_objects k) (hc_next k) (hc_streams k) x.

Definition on_heap {A} (m : M HttpCacheHeap A) : K A := fun k =>
  match m (hc_heap k) with
  | Some (a, h) => Some (a, set_heap h k)
  | None => None
  end.

Definition log (e : cache_log) : K unit := mmod (fun k => set_hc_log (hc_log k ++ [e]) k).

Definition count_skip : K unit := mmod (fun k => let s := hc_stats k in
  set_stats (mkStats (wrap 64 (st_skips s + 1)) (st_misses s) (st_stores s) (st_hits s)) k).
Definition count_miss : K unit := mmod (fun k => let s := hc_stats k in
  set_stats (mkStats (st_skips s) (wrap 64 (st_misses s + 1)) (st_stores s) (st_hits s)) k).
Definition count_store : K unit := mmod (fun k => let s := hc_stats k in
  set_stats (mkStats (st_skips s) (st_misses s) (wrap 64 (st_stores s + 1)) (st_hits s)) k).
Definition count_hit : K unit := mmod (fun k => let s := hc_stats k in
  set_stats (mkStats (st_skips s) (st_misses s) (st_stores s) (wrap 64 (st_hits s + 1))) k).

(** [None]: the size must be positive. *)
Definition HttpCache_new (max_size : Z) (obey_no_cache : bool) (rubber : os) : option HttpCache :=
  if 0 <? max_size then
    Some (mkHttpCache (HttpCacheHeap_new max_size rubber) [] (mkStats 0 0 0 0) obey_no_cache ∅ 0%nat [] [])
  else None.

Definition request (r : req_ptr) : K HttpCacheRequest := fun k =>
  match hc_objects k !! r with Some q => Some (q, k) | None => None end.

Definition document (p : item_ptr) : K HttpCacheDocument := fun k =>
  match hh_docs (hc_heap k) !! p with Some it => Some (hi_document it, k) | None => None end.

Definition set_request (r : req_ptr) (q : HttpCacheRequest) : K unit :=
  mmod (fun k => set_objects (<[r := q]> (hc_objects k)) k).

(** The destructor ends the lease. *)
Definition Request_Destroy (r : req_ptr) : K unit :=
  let! q := request r in
  mmod (fun k => set_objects (delete r (hc_objects k)) k) ;;;
  match q_document q with
  | Some p => on_heap (Heap_Unlock p)
  | None => mret tt
  end.

(** The constructor, and [Start()], which sets [cancel_ptr]. *)
Definition Request_new (params : ResourceRequestParams) (key : list Z) (headers : StringMap)
    (info : HttpCacheRequestInfo) (document : option item_ptr) : K req_ptr :=
  let! r := mgets hc_next in
  mmod (set_hc_next (S r)) ;;;
  (match document with Some p => on_heap (Heap_Lock p) | None => mret tt end) ;;;
  set_request r (mkRequest (p_cache_tag params) key (StringMap_copy headers) info document
                   (p_eager_cache params) true None None) ;;;
  log (Begin r key headers) ;;;
  mret r.

(** [HttpCache::Put()] and [HttpCacheRequest::Put()]; [pool_size] is the memory that the new item uses. *)
Definition Request_Put (pool_size steady_now system_now : Z) (r : req_ptr) (body size : Z) : K unit :=
  let! q := request r in
  let! x := mopt (q_response q) in
  let '(info, status, headers) := x in
  count_store ;;;
  on_heap (Heap_Put pool_size steady_now system_now (q_key q) (q_cache_tag q) info (q_request_headers q)
             status headers body size) ;;;
  mret tt.

(** [HttpCache::Serve()] *)
Definition HttpCache_Serve (p : item_ptr) : K unit :=
  let! body := on_heap (Heap_OpenStream p) in
  let! d := document p in
  match body with
  | Some s =>
      mmod (fun k => set_streams (p :: hc_streams k) k) ;;;
      log (Respond (d_status d) (StringMap_copy (d_headers d)) (Cached p s))
  | None => log (Respond (d_status d) (StringMap_copy (d_headers d)) (CachedEmpty p))
  end.

(** The caller closes the body of a document. *)
Definition CloseStream (p : item_ptr) : K unit :=
  let! k := mget in
  massert (bool_decide (p ∈ hc_streams k)) ;;;
  mmod (set_streams (remove_one p (hc_streams k))) ;;;
  on_heap (Heap_Unlock p).

(** Sends the response that [CheckCacheRequest()] has chosen; the result is its result. *)
Definition check_request (info : HttpCacheRequestInfo) (p : item_ptr) : K bool :=
  let! d := document p in
  match CheckCacheRequest info d with
  | Some (status, headers) => log (Respond status headers NoBody) ;;; mret false
  | None => mret true
  end.

(** [HttpCacheRequest::Serve()] *)
Definition Request_Serve (r : req_ptr) : K unit :=
  let! q := request r in
  let! p := mopt (q_document q) in
  let! ok := check_request (q_request_info q) p in
  if ok : bool then HttpCache_Serve p else mret tt.

(** ** Requests *)

Definition HttpCache_Miss (params : ResourceRequestParams) (key : list Z) (info : HttpCacheRequestInfo)
    (method : HttpMethod) (headers : StringMap) : K unit :=
  count_miss ;;;
  if only_if_cached info then log (Respond 504 [] NoBody)
  else
    let! r := Request_new params key headers info None in
    log (Send r method headers).

Definition HttpCache_Revalidate (params : ResourceRequestParams) (key : list Z) (info : HttpCacheRequestInfo)
    (p : item_ptr) (method : HttpMethod) (headers : StringMap) : K unit :=
  let! r := Request_new params key headers info (Some p) in
  let! d := document p in
  log (Send r method (revalidate_headers d headers)).

Definition HttpCache_Found (system_now : Z) (params : ResourceRequestParams) (key : list Z)
    (info : HttpCacheRequestInfo) (p : item_ptr) (method : HttpMethod) (headers : StringMap) : K unit :=
  count_hit ;;;
  let! ok := (if no_cache info then mret true else check_request info p) in
  if negb ok then mret tt
  else
    let! d := document p in
    if http_cache_may_serve system_now info d then HttpCache_Serve p
    else HttpCache_Revalidate params key info p method headers.

Definition HttpCache_Use (steady_now system_now : Z) (params : ResourceRequestParams) (key : list Z)
    (method : HttpMethod) (headers : StringMap) (info : HttpCacheRequestInfo) : K unit :=
  let! found := on_heap (Heap_Get steady_now key headers) in
  match found with
  | None => HttpCache_Miss params key info method headers
  | Some p => HttpCache_Found system_now params key info p method headers
  end.

Definition HttpCache_Start (steady_now system_now : Z) (params : ResourceRequestParams) (method : HttpMethod)
    (address : ResourceAddress) (headers : StringMap) (has_body : bool) : K unit :=
  match http_cache_key address (p_address_id params) with
  | None => log (Forward method headers has_body)
  | Some key =>
      if 8192 <? Z.of_nat (length key) then log (Forward method headers has_body)
      else
        let key := lhttp_key address headers key in
        let! obey := mgets hc_obey_no_cache in
        match http_cache_request_evaluate method address headers (obey && negb (p_ignore_no_cache params)) has_body with
        | Some info =>
            massert (negb has_body) ;;;
            HttpCache_Use steady_now system_now params key method headers info
        | None =>
            if p_auto_flush_cache params && IsModifyingMethod method then
              count_skip ;;;
              on_heap (Heap_RemoveKey key headers) ;;;
              log (ForwardFlush (p_cache_tag params) method headers has_body)
            else
              (if http_cache_request_invalidate method then on_heap (Heap_RemoveKey key headers) else mret tt) ;;;
              count_skip ;;;
              log (Forward method headers has_body)
        end
  end.

(** ** Storing a response *)

Definition RubberStoreFinished (r : req_ptr) : K unit :=
  let! q := request r in
  massert (q_cancel q) ;;;
  set_request r (mkRequest (q_cache_tag q) (q_key q) (q_request_headers q) (q_request_info q) (q_document q)
                   (q_eager_cache q) false (q_response q) None) ;;;
  let! k := mget in
  massert (bool_decide (r ∈ hc_requests k)) ;;;
  mmod (set_requests (List.filter (fun x => negb (x =? r)%nat) (hc_requests k))).

(** [ToSpan()] *)
Definition ToSpan (id size : Z) : M os (list Z) :=
  if size =? 0 then mret []
  else massert (negb (id =? 0)) ;;; os_load id 0 (Z.to_nat size).

Definition Request_RubberDone (pool_size steady_now system_now : Z) (r : req_ptr) (id size : Z) : K unit :=
  RubberStoreFinished r ;;;
  let! q := request r in
  let! x := mopt (q_response q) in
  let '(info, status, headers) := x in
  (if q_eager_cache q && negb (StringMap_Contains (str "digest") headers) then
     let! body := on_heap (on_rubber (ToSpan id size)) in
     set_request r (mkRequest (q_cache_tag q) (q_key q) (q_request_headers q) (q_request_info q) (q_document q)
       (q_eager_cache q) (q_cancel q)
       (Some (info, status, StringMap_Add (str "digest") (GenerateDigestHeader body) headers)) (q_sink q))
   else mret tt) ;;;
  Request_Put pool_size steady_now system_now r id size ;;;
  Request_Destroy r.

(** [RubberOutOfMemory()], [RubberTooLarge()] and [RubberError()]. *)
Definition Request_RubberFailed (r : req_ptr) : K unit :=
  RubberStoreFinished r ;;; Request_Destroy r.

(** The sink calls its handler when it ends. *)
Definition sink_result (pool_size steady_now system_now : Z) (r : req_ptr) (st : sink_state) : K unit :=
  match st with
  | Receiving s =>
      let! q := request r in
      set_request r (mkRequest (q_cache_tag q) (q_key q) (q_request_headers q) (q_request_info q) (q_document q)
                       (q_eager_cache q) true (q_response q) (Some s))
  | Ended (RubberDone id size) => Request_RubberDone pool_size steady_now system_now r id size
  | Ended RubberCancelled => mret tt
  | Ended _ => Request_RubberFailed r
  end.

(** The body delivers data to the sink of a request. *)
Definition Request_Input (pool_size steady_now system_now : Z) (r : req_ptr) (i : sink_input) : K unit :=
  let! q := request r in
  let! s := mopt (q_sink q) in
  log (Input r i) ;;;
  let! st := on_heap (on_rubber (sink_step i (Receiving s))) in
  sink_result pool_size steady_now system_now r st.

(** ** Responses *)

Definition respond_cached (r : req_ptr) : K unit := Request_Serve r ;;; Request_Destroy r.

(** A "304 Not Modified" response. *)
Definition not_modified (clock : nat -> Z) (steady_now system_now : Z) (q : HttpCacheRequest) (p : item_ptr)
    (headers : StringMap) : K unit :=
  match http_cache_response_evaluate clock (q_request_info q) (q_eager_cache q) 200 headers (-1) with
  | Some info =>
      if system_now <=? r_expires info then
        on_heap (Item_SetExpires p steady_now system_now (r_expires info) ;;;
                 Doc_SetHeaders p (UpdateHeader headers (str "expires")) ;;;
                 Doc_SetHeaders p (UpdateHeader headers (str "cache-control")))
      else mret tt
  | None => mret tt
  end.

(** What [GetAvailable(true)] and [GetAvailable(false)] return for a body. *)
Definition body_size := option (Z * Z).

(** The rest of [OnHttpResponse()], for a response that did not confirm the document. *)
Definition store_response (clock : nat -> Z) (pool_size steady_now system_now : Z) (r : req_ptr)
    (q : HttpCacheRequest) (status : HttpStatus) (headers : StringMap) (body : body_size) : K unit :=
  let available := match body with Some (available, _) => available | None => 0 end in
  match http_cache_response_evaluate clock (q_request_info q) (q_eager_cache q) status headers available with
  | None =>
      log (match body with
           | Some _ => Respond status headers Upstream
           | None => Respond status (StringMap_copy headers) NoBody
           end) ;;;
      Request_Destroy r
  | Some info =>
      set_request r (mkRequest (q_cache_tag q) (q_key q) (q_request_headers q) (q_request_info q) (q_document q)
                       (q_eager_cache q) (q_cancel q) (Some (info, status, strmap_dup headers)) None) ;;;
      match body with
      | None =>
          Request_Put pool_size steady_now system_now r 0 0 ;;;
          log (Respond status (StringMap_copy headers) NoBody) ;;;
          Request_Destroy r
      | Some (available, size) =>
          mmod (fun k => set_requests (r :: hc_requests k) k) ;;;
          let! st := on_heap (on_rubber (sink_rubber_new available size cacheable_size_limit)) in
          sink_result pool_size steady_now system_now r st ;;;
          log (Respond status headers Upstream)
      end
  end.

Definition Request_OnHttpResponse (clock : nat -> Z) (pool_size steady_now system_now : Z) (r : req_ptr)
    (status : HttpStatus) (headers : StringMap) (body : body_size) : K unit :=
  let! q := request r in
  log (Answer r status headers body) ;;;
  match q_document q with
  | None => store_response clock pool_size steady_now system_now r q status headers body
  | Some p =>
      if status =? 304 then
        massert (bool_decide (body = None)) ;;;
        not_modified clock steady_now system_now q p headers ;;;
        respond_cached r
      else
        let! d := document p in
        if http_cache_prefer_cached d headers then respond_cached r
        else
          on_heap (Heap_Remove p) ;;;
          store_response clock pool_size steady_now system_now r q status headers body
  end.

Definition Request_OnHttpError (r : req_ptr) : K unit := Request_Destroy r ;;; log RespondError.

Definition Request_Cancel (r : req_ptr) : K unit := Request_Destroy r.

(** [AutoFlushHttpCacheRequest::OnHttpResponse()] *)
Definition AutoFlush_OnHttpResponse (tag : option (list Z)) (status : HttpStatus) (headers : StringMap)
    (has_body : bool) : K unit :=
  let! tag := mopt tag in
  (if negb (http_status_is_error status) then on_heap (Heap_FlushTag tag) else mret tt) ;;;
  log (Respond status headers (if has_body then Upstream else NoBody)).

(** [AbortRubberStore()] *)
Definition AbortRubberStore (r : req_ptr) : K unit :=
  let! q := request r in
  let! s := mopt (q_sink q) in
  on_heap (on_rubber (RubberSink_Cancel s)) ;;;
  Request_Destroy r.

(** The destructor of the cache aborts the requests that are in its list. *)
Definition HttpCache_close : K unit :=
  let! k := mget in
  mmod (set_requests []) ;;;
  mfor (hc_requests k) AbortRubberStore.

Definition HttpCache_Flush : K unit := on_heap Heap_Flush.
Definition HttpCache_FlushTag (tag : list Z) : K unit := on_heap (Heap_FlushTag tag).
Definition OnCompressTimer : K unit := on_heap Heap_Compress.

End HttpCache.
