(* ===== verification/HttpCacheInv.v ===== *)
(** * The HTTP cache: invariant

    The invariant of [HttpCache] ties its parts together: each document stems from a response which the
    next loader has sent for the same key, every object of the store is the body of a document or is being
    filled by a request, and the leases of the items are exactly those of the requests and of the open streams. *)

From Stdlib Require Import String.
From S2P Require Import Prelude CharUtil StrMap Uri HttpCacheRFC HttpCacheRFCFacts Cache CacheFacts ObjectStore.
From S2P Require Import RubberSink HttpCacheHeap HttpCacheHeapFacts HttpCacheHeapOps HttpCache.

#[local] Open Scope beng_scope.

(** ** Where documents come from *)

(** What the body of the response to a request has delivered. *)
Definition inputs_of (r : req_ptr) (l : list cache_log) : list sink_input :=
  omap (fun e => match e with Input r' i => if (r' =? r)%nat then Some i else None | _ => None end) l.

#[global] Arguments inputs_of : simpl never.

(** The sink with a limit after these inputs. *)
Definition sunk (limit : Z) (l : list sink_input) : asink := fold_left (fun a i => asink_step limit i a) l (Growing []).

(** The body of the response to the request [r]: there is none, it is empty, or it was received completely. *)
Definition body_received (l : list cache_log) (r : req_ptr) (body : option (Z * Z)) (data : list Z) : Prop :=
  match body with
  | None => data = []
  | Some (available, size) => size = 0 /\ data = [] \/
      exists limit, sunk limit (inputs_of r l) = Complete data
  end.

Lemma sunk_complete limit l l' data : sunk limit l = Complete data -> sunk limit (l ++ l') = Complete data.
Proof.
  unfold sunk. rewrite fold_left_app. intros ->. by induction l'.
Qed.

Lemma inputs_of_app r l l' : inputs_of r (l ++ l') = inputs_of r l ++ inputs_of r l'.
Proof. apply omap_app. Qed.

Lemma body_received_app l l' r body data : body_received l r body data -> body_received (l ++ l') r body data.
Proof.
  unfold body_received. destruct body as [[available size]|]; [|done]. intros [H|[limit H]]; [by left|right].
  exists limit. rewrite inputs_of_app. by apply sunk_complete.
Qed.

Section Inv.
Context `{CU : CharUtil} `{UL : UriLib} `{HL : HttpLib} `{HE : HttpCacheEnv}.
Context `{HS : HashSetOrder} `{TL : TrieLaws} `{OL : ObjectStoreLaws}.

(** The headers of a request which a document fits. *)
Definition vary_of (info : HttpCacheResponseInfo) (headers : StringMap) : StringMap :=
  match r_vary info with Some vary => http_cache_copy_vary vary headers | None => [] end.

(** Where the values of the header [name] come from: they are those of the response [resp] with the body [data]; or the
    cache has added the digest of the body; or a later "304 Not Modified" response has replaced them. *)
Definition header_from (l : list cache_log) (data : list Z) (resp : StringMap) (name : list Z) (vs : list (list Z)) : Prop :=
  vs ≡ₚ values name resp \/
  name = str "digest" /\ values name resp = [] /\ vs = [GenerateDigestHeader data] \/
  (name = str "expires" \/ name = str "cache-control") /\
    exists r resp' v, Answer r 304 resp' None ∈ l /\ v ∈ values name resp' /\ vs = [v].

Definition headers_from (l : list cache_log) (data : list Z) (resp headers : StringMap) : Prop :=
  forall name, header_from l data resp name (values name headers).

Lemma headers_from_app l l' data resp headers : headers_from l data resp headers -> headers_from (l ++ l') data resp headers.
Proof.
  intros H name. destruct (H name) as [?|[?|(Hn & r & resp' & v & Hin & Hv)]]; [by left|by right; left|right; right].
  split; [done|]. exists r, resp', v. split; [apply elem_of_app; by left|done].
Qed.

Lemma headers_from_perm1 l data resp headers headers' name : values name headers' ≡ₚ values name headers ->
  headers_from l data resp headers -> header_from l data resp name (values name headers').
Proof.
  intros E H. destruct (H name) as [Hp|[(? & ? & Ev)|(Hn & r & resp' & v & Hin & Hv & Ev)]].
  - left. by rewrite E.
  - right. left. split_and!; try done. rewrite Ev in E. by apply Permutation_singleton_r in E.
  - right. right. split; [done|]. exists r, resp', v. split_and!; try done. rewrite Ev in E.
    by apply Permutation_singleton_r in E.
Qed.

Lemma headers_from_perm l data resp headers headers' : (forall name, values name headers' ≡ₚ values name headers) ->
  headers_from l data resp headers -> headers_from l data resp headers'.
Proof. intros E H name. exact (headers_from_perm1 _ _ _ headers _ name (E name) H). Qed.

Lemma headers_from_same l data resp headers : (forall name, values name headers ≡ₚ values name resp) ->
  headers_from l data resp headers.
Proof. intros E name. by left. Qed.

Lemma headers_from_copy l data resp headers : headers_from l data resp headers -> headers_from l data resp (StringMap_copy headers).
Proof. apply headers_from_perm. intros name. apply values_copy. Qed.

(** The cache adds a digest. *)
Lemma headers_from_digest l data resp headers : headers_from l data resp headers ->
  StringMap_Contains (str "digest") headers = false ->
  headers_from l data resp (StringMap_Add (str "digest") (GenerateDigestHeader data) headers).
Proof.
  intros H Hc name. pose proof (values_Add name (str "digest") (GenerateDigestHeader data) headers) as Ha.
  destruct (decide (str "digest" = name)) as [<-|Hne].
  - assert (En : values (str "digest") headers = []).
    { apply Get_None. apply bool_decide_eq_false in Hc. by apply eq_None_not_Some. }
    rewrite En in Ha. apply Permutation_singleton_r in Ha. right. left. split_and!; try done.
    destruct (H (str "digest")) as [Hp|[(_ & _ & Ev)|(_ & r & resp' & v & _ & _ & Ev)]]; rewrite En in *; [|done|done].
    by apply Permutation_nil_l in Hp.
  - by apply (headers_from_perm1 _ _ _ headers).
Qed.

(** A header is copied from a "304 Not Modified" response. *)
Lemma headers_from_update l data resp headers r resp' name : headers_from l data resp headers ->
  name = str "expires" \/ name = str "cache-control" -> Answer r 304 resp' None ∈ l ->
  headers_from l data resp (UpdateHeader resp' name headers).
Proof.
  intros H Hn Hin. unfold UpdateHeader. destruct (StringMap_Get name resp') as [v|] eqn:Eg; [|done].
  intros k. pose proof (values_SecureSet k name (Some v) headers) as Hv. destruct (decide (k = name)) as [->|Hne].
  - simpl in Hv. apply Permutation_singleton_r in Hv. right. right. split; [done|].
    exists r, resp', v. split; [done|]. split; [by apply Get_Some|done].
  - by apply (headers_from_perm1 _ _ _ headers).
Qed.

(** The expiry time is that of the response, or that of a later "304 Not Modified" response. *)
Definition expires_from (l : list cache_log) (info : HttpCacheResponseInfo) (e : Z) : Prop :=
  e = r_expires info \/ exists r resp clock ri eager info', Answer r 304 resp None ∈ l /\
    http_cache_response_evaluate clock ri eager 200 resp (-1) = Some info' /\ e = r_expires info'.

Lemma expires_from_app l l' info e : expires_from l info e -> expires_from (l ++ l') info e.
Proof.
  intros [?|(r & resp & clock & ri & eager & info' & Hin & H)]; [by left|right].
  exists r, resp, clock, ri, eager, info'. split; [apply elem_of_app; by left|done].
Qed.

(** A document with the key [key] and the body [data] stems from a response that was received completely, and
    that may be stored; its headers and its expiry time are those of the response. *)
Definition origin (l : list cache_log) (key : list Z) (d : HttpCacheDocument) (data : list Z) : Prop :=
  exists r headers resp body info clock ri eager available,
    Begin r key headers ∈ l /\ Answer r (d_status d) resp body ∈ l /\ body_received l r body data /\
    http_cache_response_evaluate clock ri eager (d_status d) resp available = Some info /\
    r_vary (d_info d) = r_vary info /\ d_vary d = vary_of info (StringMap_copy headers) /\
    headers_from l data resp (d_headers d) /\ expires_from l info (r_expires (d_info d)).

Lemma origin_app l l' key d data : origin l key d data -> origin (l ++ l') key d data.
Proof.
  intros (r & headers & resp & body & info & clock & ri & eager & av & H1 & H2 & H3 & H4 & H5 & H6 & H7 & H8).
  exists r, headers, resp, body, info, clock, ri, eager, av. split_and!; try done.
  - apply elem_of_app. by left.
  - apply elem_of_app. by left.
  - by apply body_received_app.
  - by apply headers_from_app.
  - by apply expires_from_app.
Qed.

(** The body that is stored for an item. *)
Definition stored_body (m : gmap Z (list Z)) (it : HttpCacheItem) : list Z :=
  take (Z.to_nat (hi_size it)) (default [] (m !! hi_body it)).

(** ** Leases *)

Definition holders (k : HttpCache) : list item_ptr :=
  omap q_document (map snd (map_to_list (hc_objects k))) ++ hc_streams k.

Fixpoint count (p : item_ptr) (l : list item_ptr) : nat :=
  match l with [] => O | q :: l' => if (q =? p)%nat then S (count p l') else count p l' end.

Lemma count_app p l l' : count p (l ++ l') = (count p l + count p l')%nat.
Proof. induction l as [|q l IH]; simpl; [done|]. destruct (q =? p)%nat; lia. Qed.

#[export] Instance count_proper p : Proper ((≡ₚ) ==> eq) (count p).
Proof.
  intros l l' H. induction H as [|q l l' H IH|q q' l|l1 l2 l3 H1 IH1 H2 IH2]; simpl; [done| | |congruence].
  - by rewrite IH.
  - by destruct (q =? p)%nat, (q' =? p)%nat.
Qed.

Lemma count_zero p l : count p l = O <-> p ∉ l.
Proof.
  induction l as [|q l IH]; simpl; [split; [intros _; apply not_elem_of_nil|done]|].
  rewrite not_elem_of_cons. destruct (q =? p)%nat eqn:E; [apply Nat.eqb_eq in E|apply Nat.eqb_neq in E];
    [naive_solver|rewrite IH; naive_solver].
Qed.

Lemma remove_one_perm p l : p ∈ l -> l ≡ₚ p :: remove_one p l.
Proof.
  induction l as [|q l IH]; simpl; [by intros ?%elem_of_nil|].
  destruct (q =? p)%nat eqn:E; [apply Nat.eqb_eq in E as ->; done|]. apply Nat.eqb_neq in E.
  intros [->|H]%elem_of_cons; [done|]. rewrite (IH H) at 1. apply perm_swap.
Qed.

(** The leases of an item are those of the holders, and what is held exists. *)
Definition leases_ok (c : Cache) (l : list item_ptr) : Prop :=
  (forall p i, store c !! p = Some i -> item_leases i = count p l) /\ forall p, p ∈ l -> is_Some (store c !! p).

(** ** The invariant

    [cur] is the request that is being worked on, and [fl] the object that it has received but not stored
    yet (or 0). *)

(** The object that a request is filling. *)
Definition sinks (k : HttpCache) (cur : option req_ptr) (r : req_ptr) (s : RubberSink) : Prop :=
  cur <> Some r /\ exists q, hc_objects k !! r = Some q /\ q_sink q = Some s.

(** A request knows its caller's request and the answer. *)
Definition request_ok (l : list cache_log) (r : req_ptr) (q : HttpCacheRequest) : Prop :=
  q_cancel q = true /\
  exists headers, Begin r (q_key q) headers ∈ l /\ q_request_headers q = StringMap_copy headers.

(** The response that a request stores; [H] relates the headers of the answer to those that are stored. *)
Definition response_with (H : StringMap -> StringMap -> Prop) (l : list cache_log) (r : req_ptr) (q : HttpCacheRequest)
    (body : option (Z * Z)) : Prop :=
  exists info status headers resp clock ri eager available,
    q_response q = Some (info, status, headers) /\ http_status_is_valid status = true /\
    Answer r status resp body ∈ l /\ http_cache_response_evaluate clock ri eager status resp available = Some info /\
    H resp headers.

Definition same_values (resp headers : StringMap) : Prop := forall name, values name headers ≡ₚ values name resp.

Definition response_ok := response_with same_values.

Lemma response_with_mono (H H' : StringMap -> StringMap -> Prop) l l' r q body :
  (forall resp headers, H resp headers -> H' resp headers) -> response_with H l r q body -> response_with H' (l ++ l') r q body.
Proof.
  intros HH (x1 & x2 & x3 & x4 & x5 & x6 & x7 & x8 & E1 & E2 & E3 & E4 & E5).
  exists x1, x2, x3, x4, x5, x6, x7, x8. split_and!; try done; [apply elem_of_app; by left|by apply HH].
Qed.

Lemma response_ok_app l l' r q body : response_ok l r q body -> response_ok (l ++ l') r q body.
Proof. by apply response_with_mono. Qed.

Lemma response_ok_from l r q body l' data : response_ok l r q body -> response_with (headers_from l' data) l r q body.
Proof.
  intros H. rewrite <-(app_nil_r l). eapply response_with_mono; [|exact H]. intros resp headers. apply headers_from_same.
Qed.

Record Inv (k : HttpCache) (m : gmap Z (list Z)) (cur : option req_ptr) (fl : Z) : Prop := {
  iv_heap : HeapInv (hc_heap k) m;
  iv_fresh : forall r q, hc_objects k !! r = Some q -> (r < hc_next k)%nat;
  iv_requests : NoDup (hc_requests k) /\
    forall r, cur <> Some r -> r ∈ hc_requests k <-> exists s, sinks k cur r s;
  iv_request : forall r q, hc_objects k !! r = Some q -> cur <> Some r -> request_ok (hc_log k) r q /\
    (q_sink q = None -> q_response q = None /\ inputs_of r (hc_log k) = []);
  iv_sink : forall r s, sinks k cur r s -> (forall p, ~ owner (hh_docs (hc_heap k)) p (s_allocation s)) /\
    exists data, sink_holds m s data /\ sunk (s_max_size s) (inputs_of r (hc_log k)) = Growing data;
  iv_response : forall r q s, hc_objects k !! r = Some q -> q_sink q = Some s -> cur <> Some r ->
    exists body, response_ok (hc_log k) r q (Some body);
  iv_sinks : forall r r' s s', sinks k cur r s -> sinks k cur r' s' -> s_allocation s = s_allocation s' -> r = r';
  iv_owned : forall id, is_Some (m !! id) ->
    (exists p, owner (hh_docs (hc_heap k)) p id) \/ (exists r s, sinks k cur r s /\ s_allocation s = id) \/ id = fl;
  iv_floating : fl <> 0 -> 0 < fl /\ is_Some (m !! fl) /\ (forall p, ~ owner (hh_docs (hc_heap k)) p fl) /\
    forall r s, sinks k cur r s -> s_allocation s <> fl;
  iv_log : forall e r, e ∈ hc_log k -> (match e with Begin r' _ _ | Answer r' _ _ _ | Input r' _ => r' = r | _ => False end) ->
    (r < hc_next k)%nat;
  iv_origin : forall p it i, hh_docs (hc_heap k) !! p = Some it -> store (hh_cache (hc_heap k)) !! p = Some i ->
    origin (hc_log k) (item_key i) (hi_document it) (stored_body m it) }.

(** ** Steps of the heap *)

Lemma holds_same (m m' : gmap Z (list Z)) s data : m' !! s_allocation s = m !! s_allocation s ->
  sink_holds m s data -> sink_holds m' s data.
Proof. intros E. unfold sink_holds. by rewrite E. Qed.

(** The documents and objects evolve, and items keep their keys. *)
Lemma Inv_evolves k m cur fl h' m' : Inv k m cur fl -> HeapInv h' m' -> heap_evolves (hc_heap k) m h' m' ->
  (forall p i', store (hh_cache h') !! p = Some i' ->
     exists i, store (hh_cache (hc_heap k)) !! p = Some i /\ item_key i' = item_key i) ->
  Inv (set_heap h' k) m' cur fl.
Proof.
  intros [H1 H3 H4 H5 H6 H7 H8 H9 H10 H11 H12] HI' [E1 E2 E3 E4] Hkeys.
  assert (Hown : forall p id, owner (hh_docs h') p id -> owner (hh_docs (hc_heap k)) p id).
  { intros p id. by apply owner_sub. }
  assert (Hsame : forall r s, sinks k cur r s -> m' !! s_allocation s = m !! s_allocation s).
  { intros r s Hs. apply E3. by destruct (H6 r s Hs). }
  split; cbn; try done.
  - intros r s Hs. destruct (H6 r s Hs) as (Hn & data & Hd & Hi). split; [intros p Hp; by apply (Hn p), Hown|].
    exists data. split; [|done]. eapply holds_same; [by eapply Hsame|done].
  - intros id Hid. destruct (E4 id Hid) as [Hm Ho]. destruct (H9 id Hm) as [[p Hp]|[?|?]]; [left; exists p; auto|auto..].
  - intros Hfl. destruct (H10 Hfl) as (Hpos & Hm & Hn & Hs). split; [done|]. split; [by rewrite (E3 fl Hn)|].
    split; [intros p Hp; by apply (Hn p), Hown|done].
  - intros p it i' Hp Hi'. destruct (Hkeys p i' Hi') as (i & Hi & ->).
    unfold stored_body. rewrite (E2 p it Hp). by apply (H12 p it i); [apply E1|].
Qed.

Lemma leases_evolves h m l h' m' : HeapInv h m -> leases_ok (hh_cache h) l -> heap_step h m h' m' ->
  leases_ok (hh_cache h') l.
Proof.
  intros HI [L1 L2] [HI' Hev He].
  assert (Hs : forall p i, store (hh_cache h') !! p = Some i -> store (hh_cache h) !! p = Some i).
  { intros p i Hp. apply (ev_same _ _ He); [|done]. destruct (hp_live _ _ (proj1 HI') p ltac:(eauto)) as [it Hit].
    apply (he_docs _ _ _ _ Hev) in Hit. destruct (proj2 HI p ltac:(eauto)) as [j Hj].
    by eapply (ci_fresh _ (hp_cache _ _ (proj1 HI))). }
  split; [intros p i Hp; by apply L1, Hs|]. intros p Hp. destruct (L2 p Hp) as [i Hi]. exists i.
  apply (ev_leased _ _ He); [done|]. rewrite (L1 p i Hi). intros E. by apply count_zero in E.
Qed.

Lemma Inv_heap_step k m cur fl h' m' : Inv k m cur fl -> heap_step (hc_heap k) m h' m' -> Inv (set_heap h' k) m' cur fl.
Proof.
  intros HI [HI' Hev He]. pose proof (iv_heap _ _ _ _ HI) as HH. apply (Inv_evolves k m); [done..|].
  intros p i Hp. exists i. split; [|done]. apply (ev_same _ _ He); [|done].
  destruct (hp_live _ _ (proj1 HI') p ltac:(eauto)) as [it Hit]. apply (he_docs _ _ _ _ Hev) in Hit.
  destruct (proj2 HH p ltac:(eauto)) as [j Hj]. by eapply (ci_fresh _ (hp_cache _ _ (proj1 HH))).
Qed.

(** One item changes. *)
Lemma Inv_item_changed k m cur fl h' m' p x i : Inv k m cur fl -> HeapInv h' m' -> heap_evolves (hc_heap k) m h' m' ->
  item_changed p x (hh_cache (hc_heap k)) (hh_cache h') -> store (hh_cache (hc_heap k)) !! p = Some i ->
  (forall j, x = Some j -> item_key j = item_key i) -> Inv (set_heap h' k) m' cur fl.
Proof.
  intros HI HI' Hev Hc Hi Hx. apply (Inv_evolves k m); [done..|]. intros q j Hq. rewrite (ic_store _ _ _ _ Hc) in Hq.
  destruct (decide (q = p)) as [->|Hne].
  - exists i. split; [done|]. destruct x as [y|]; [|by rewrite lookup_delete_eq in Hq].
    rewrite lookup_insert_eq in Hq. injection Hq as <-. by apply Hx.
  - exists j. split; [|done]. destruct x; [by rewrite lookup_insert_ne in Hq by done|by rewrite lookup_delete_ne in Hq by done].
Qed.

(** ** Steps of the cache itself *)

(** The parts of the state that the invariant does not mention, and the log. *)
Lemma Inv_log k m cur fl e : Inv k m cur fl ->
  match e with
  | Begin r _ _ | Answer r _ _ _ => (r < hc_next k)%nat
  | Input r _ => cur = Some r /\ (r < hc_next k)%nat
  | _ => True
  end -> Inv (set_hc_log (hc_log k ++ [e]) k) m cur fl.
Proof.
  intros [H1 H3 H4 H5 H6 H7 H8 H9 H10 H11 H12] He.
  assert (Hin : forall r, cur <> Some r -> inputs_of r (hc_log k ++ [e]) = inputs_of r (hc_log k)).
  { intros r Hr. rewrite inputs_of_app. destruct e as [| | | | |r' i| |]; try apply app_nil_r. unfold inputs_of at 2. simpl.
    destruct (r' =? r)%nat eqn:E; [apply Nat.eqb_eq in E as ->; by destruct He|apply app_nil_r]. }
  split; cbn; try done.
  - intros r q Hq Hr. destruct (H5 r q Hq Hr) as [(Hc & hd & Hb & Hh) Hn]. split.
    + split; [done|]. exists hd. split; [apply elem_of_app; by left|done].
    + intros Hs. rewrite Hin by done. by apply Hn.
  - intros r s Hs. destruct (H6 r s Hs) as (Hn & data & Hd & Hi). split; [done|]. exists data. split; [done|].
    rewrite Hin by apply Hs. done.
  - intros r q s Hq Hs Hr. destruct (H7 r q s Hq Hs Hr) as [body Hb]. exists body. by apply response_ok_app.
  - intros e' r [Hin'|Hin']%elem_of_app Hr; [by eapply H11|]. apply list_elem_of_singleton in Hin' as ->.
    destruct e; try done; [by subst|by subst|by destruct He; subst].
  - intros p it i Hp Hi. by apply origin_app, (H12 p it i).
Qed.

Lemma Inv_stats k m cur fl x : Inv k m cur fl -> Inv (set_stats x k) m cur fl.
Proof. by intros [H1 H3 H4 H5 H6 H7 H8 H9 H10 H11 H12]. Qed.

Lemma Inv_streams k m cur fl x : Inv k m cur fl -> Inv (set_streams x k) m cur fl.
Proof. by intros [H1 H3 H4 H5 H6 H7 H8 H9 H10 H11 H12]. Qed.

(** The request that is being worked on may change. *)
Lemma sinks_objects k r x cur r' s : cur = Some r -> (forall q, q <> r -> x !! q = hc_objects k !! q) ->
  sinks (set_objects x k) cur r' s <-> sinks k cur r' s.
Proof.
  intros -> Hx. unfold sinks. cbn. split; intros (Hne & q & Hq & Hs); (split; [done|]); exists q; split; try done.
  - rewrite <-Hx; [done|congruence].
  - rewrite Hx; [done|congruence].
Qed.

Lemma Inv_objects k m r fl x : Inv k m (Some r) fl -> (forall q, q <> r -> x !! q = hc_objects k !! q) ->
  (r < hc_next k)%nat -> Inv (set_objects x k) m (Some r) fl.
Proof.
  intros [H1 H3 H4 H5 H6 H7 H8 H9 H10 H11 H12] Hx Hr.
  assert (Hs : forall r' s, sinks (set_objects x k) (Some r) r' s <-> sinks k (Some r) r' s).
  { intros r' s. by apply (sinks_objects k r x). }
  split; cbn; try done.
  - intros r' q Hq. destruct (decide (r' = r)) as [->|Hne]; [done|]. rewrite Hx in Hq by done. by eapply H3.
  - split; [apply H4|]. intros r' Hne. setoid_rewrite Hs. by apply H4.
  - intros r' q Hq Hne. rewrite Hx in Hq by congruence. by apply H5.
  - intros r' s Hr'. apply Hs in Hr'. by apply H6.
  - intros r' q s Hq Hsi Hne. rewrite Hx in Hq by congruence. by eapply H7.
  - intros r1 r2 s1 s2 Hs1 Hs2. apply Hs in Hs1, Hs2. by apply H8.
  - intros id Hid. destruct (H9 id Hid) as [?|[(r' & s & Hr' & E)|?]]; [by left| |by right; right].
    right. left. exists r', s. by rewrite Hs.
  - intros Hfl. destruct (H10 Hfl) as (A & B & C & D). split_and!; try done. intros r' s Hr'. apply Hs in Hr'. by apply (D r').
Qed.

(** The list of requests may gain or lose the current request. *)
Lemma Inv_set_requests k m r fl l : Inv k m (Some r) fl -> NoDup l ->
  (forall q, q <> r -> q ∈ l <-> q ∈ hc_requests k) -> Inv (set_requests l k) m (Some r) fl.
Proof.
  intros [H1 H3 H4 H5 H6 H7 H8 H9 H10 H11 H12] Hl Hq. split; cbn; try done.
  split; [done|]. intros r' Hne. rewrite Hq by congruence. by apply H4.
Qed.

(** ** The current request *)

(** Starting to work on a request which stores nothing. *)
Lemma Inv_focus k m r q : Inv k m None 0 -> hc_objects k !! r = Some q -> q_sink q = None ->
  Inv k m (Some r) 0 /\ (r ∉ hc_requests k).
Proof.
  intros [H1 H3 H4 H5 H6 H7 H8 H9 H10 H11 H12] Hq Hs.
  assert (Hsk : forall r' s, sinks k None r' s <-> sinks k (Some r) r' s).
  { intros r' s. unfold sinks. split; intros (Hne & q' & Hq' & Hs'); split; eauto; try congruence. }
  split.
  - split; try done.
    + split; [apply H4|]. intros r' Hne. setoid_rewrite <-Hsk. by apply H4.
    + intros r' q' Hq' _. by apply H5.
    + intros r' s Hr'. apply Hsk in Hr'. by apply H6.
    + intros r' q' s Hq' Hs' _. by eapply H7.
    + intros r1 r2 s1 s2 Hs1 Hs2. apply Hsk in Hs1, Hs2. by apply H8.
    + intros id Hid. destruct (H9 id Hid) as [?|[(r' & s & Hr' & E)|?]]; [by left| |by right; right].
      right. left. exists r', s. by rewrite <-Hsk.
  - intros Hin. apply (proj2 H4) in Hin as [s (_ & q' & Hq' & Hs')]; [|done]. congruence.
Qed.

(** Starting to work on a request whose sink has received something or has ended: its object floats. *)
Lemma Inv_focus_sink k m r q s : Inv k m None 0 -> hc_objects k !! r = Some q -> q_sink q = Some s ->
  Inv k m (Some r) (s_allocation s) /\ r ∈ hc_requests k.
Proof.
  intros [H1 H3 H4 H5 H6 H7 H8 H9 H10 H11 H12] Hq Hs.
  assert (Hrs : sinks k None r s) by (split; eauto).
  assert (Hsk : forall r' s', sinks k (Some r) r' s' <-> sinks k None r' s' /\ r' <> r).
  { intros r' s'. unfold sinks. split; [intros (Hne & ?)|intros ((_ & ?) & Hne)]; split; eauto; try congruence. }
  split; [|apply (proj2 H4); [done|by exists s]].
  split; try done.
  - split; [apply H4|]. intros r' Hne. setoid_rewrite Hsk. rewrite (proj2 H4) by done.
    split; intros [s' Hs']; exists s'; [|by apply Hs']. split; [done|congruence].
  - intros r' q' Hq' _. by apply H5.
  - intros r' s' Hr'. apply Hsk in Hr' as [Hr' _]. by apply H6.
  - intros r' q' s' Hq' Hs' _. by eapply H7.
  - intros r1 r2 s1 s2 Hs1 Hs2. apply Hsk in Hs1 as [Hs1 _], Hs2 as [Hs2 _]. by apply H8.
  - intros id Hid. destruct (H9 id Hid) as [?|[(r' & s' & Hr' & E)|E]]; [by left| |].
    + right. destruct (decide (r' = r)) as [->|Hne]; [right|left; exists r', s'; by rewrite Hsk].
      destruct Hr' as (_ & q' & Hq' & Hs'). rewrite Hq in Hq'. injection Hq' as <-. rewrite Hs in Hs'. by injection Hs' as ->.
    + subst id. destruct Hid as [b Hb]. by rewrite (hp_zero _ _ (proj1 H1)) in Hb.
  - intros Hz. destruct (H6 r s Hrs) as (Hn & data & (b & Hb & Hpos & _) & _). split; [done|]. split; [by eexists|].
    split; [done|]. intros r' s' [Hs' Hne]%Hsk E. apply Hne. by eapply H8.
Qed.

(** The current request is gone. *)
Lemma Inv_unfocus k m r : Inv k m (Some r) 0 -> hc_objects k !! r = None -> (r ∉ hc_requests k) -> Inv k m None 0.
Proof.
  intros [H1 H3 H4 H5 H6 H7 H8 H9 H10 H11 H12] Hq Hr.
  assert (Hne : forall r' q, hc_objects k !! r' = Some q -> Some r <> Some r') by (intros r' q Hr' [= <-]; congruence).
  assert (Hsk : forall r' s, sinks k None r' s <-> sinks k (Some r) r' s).
  { intros r' s. unfold sinks. split; intros (? & q' & Hq' & Hs'); split; eauto; done. }
  split; try done.
  - split; [apply H4|]. intros r' _. setoid_rewrite Hsk. destruct (decide (r' = r)) as [->|Hn]; [|apply H4; congruence].
    split; [done|]. intros (s & Hs & _). done.
  - intros r' q' Hq' _. apply H5; [done|by eapply Hne].
  - intros r' s Hr'. apply Hsk in Hr'. by apply H6.
  - intros r' q' s Hq' Hs' _. eapply H7; [done|done|by eapply Hne].
  - intros r1 r2 s1 s2 Hs1 Hs2. apply Hsk in Hs1, Hs2. by apply H8.
  - intros id Hid. destruct (H9 id Hid) as [?|[(r' & s & Hr' & E)|?]]; [by left| |by right; right].
    right. left. exists r', s. by rewrite Hsk.
Qed.

(** The current request has (again) a sink, which owns the floating object. *)
Lemma Inv_unfocus_sink k m r q s data body : Inv k m (Some r) (s_allocation s) -> hc_objects k !! r = Some q ->
  q_sink q = Some s -> r ∈ hc_requests k -> request_ok (hc_log k) r q -> response_ok (hc_log k) r q (Some body) ->
  sink_holds m s data -> sunk (s_max_size s) (inputs_of r (hc_log k)) = Growing data -> Inv k m None 0.
Proof.
  intros [H1 H3 H4 H5 H6 H7 H8 H9 H10 H11 H12] Hq Hs Hr Hok Hresp Hd Hsunk.
  pose proof Hd as (b & Hb & Hpos & _). destruct H10 as (_ & _ & Hno & Hns); [lia|].
  assert (Hsk : forall r' s', sinks k None r' s' <-> sinks k (Some r) r' s' \/ r' = r /\ s' = s).
  { intros r' s'. unfold sinks. split.
    - intros (_ & q' & Hq' & Hs'). destruct (decide (r' = r)) as [->|Hne]; [right|left; split; [congruence|eauto]].
      split; [done|]. congruence.
    - intros [(_ & q' & Hq' & Hs')|[-> ->]]; split; eauto; done. }
  split; try done.
  - split; [apply H4|]. intros r' _. setoid_rewrite Hsk. destruct (decide (r' = r)) as [->|Hne].
    + split; [|done]. intros _. exists s. by right.
    + rewrite (proj2 H4) by congruence. split; intros [s' Hs']; exists s'; [by left|]. by destruct Hs' as [?|[? _]].
  - intros r' q' Hq' _. destruct (decide (r' = r)) as [->|Hne]; [|apply H5; congruence].
    rewrite Hq in Hq'. injection Hq' as <-. split; [done|]. congruence.
  - intros r' s' [Hs'|[-> ->]]%Hsk; [by apply H6|]. split; [done|]. by exists data.
  - intros r' q' s' Hq' Hs' _. destruct (decide (r' = r)) as [->|Hne]; [|eapply H7; [done|done|congruence]].
    rewrite Hq in Hq'. injection Hq' as <-. by exists body.
  - intros r1 r2 s1 s2 [Hs1|[-> ->]]%Hsk [Hs2|[-> ->]]%Hsk E; [by eapply H8| | |done].
    + by destruct (Hns r1 s1 Hs1).
    + by destruct (Hns r2 s2 Hs2).
  - intros id Hid. destruct (H9 id Hid) as [?|[(r' & s' & Hr' & E)|E]]; [by left| |]; right; left.
    + exists r', s'. split; [|done]. apply Hsk. by left.
    + exists r, s. split; [|done]. apply Hsk. by right.
Qed.

(** ** The floating object *)

Definition with_rubber (x : os) (h : HttpCacheHeap) : HttpCacheHeap := mkHeap (hh_cache h) (hh_docs h) (hh_per_tag h) x.

(** Only the floating object changes; it may be freed, or allocated. *)
Lemma Inv_rubber k m r fl m' fl' x : Inv k m (Some r) fl -> os_rep x m' ->
  (forall id, id <> fl -> id <> fl' -> m' !! id = m !! id) -> (fl <> fl' -> m' !! fl = None) ->
  (fl' = 0 \/ 0 < fl' /\ is_Some (m' !! fl') /\ (fl' = fl \/ m !! fl' = None)) -> m' !! 0 = None ->
  Inv (set_heap (with_rubber x (hc_heap k)) k) m' (Some r) fl'.
Proof.
  intros [H1 H3 H4 H5 H6 H7 H8 H9 H10 H11 H12] Hrep Hsame Hgone Hfl' Hzero.
  destruct H1 as [[P1 P2 P3 P4 P5 P6 P7 P8] Hd].
  assert (Hfl : fl <> 0 -> (forall p, ~ owner (hh_docs (hc_heap k)) p fl) /\ forall r' s, sinks k (Some r) r' s -> s_allocation s <> fl).
  { intros Hz. by destruct (H10 Hz) as (_ & _ & ? & ?). }
  assert (Hown : forall p id, owner (hh_docs (hc_heap k)) p id -> m' !! id = m !! id).
  { intros p id Ho. pose proof Ho as (Hz & it & Hit & E). apply Hsame.
    - intros ->. by apply (proj1 (Hfl Hz) p).
    - intros ->. destruct Hfl' as [?|(_ & _ & [->|Hn])]; [done|by apply (proj1 (Hfl Hz) p)|].
      destruct (P7 p it Hit) as [_ [?|(_ & b & Hb & _)]]; congruence. }
  assert (Hsk : forall r' s, sinks k (Some r) r' s -> m' !! s_allocation s = m !! s_allocation s /\ s_allocation s <> fl').
  { intros r' s Hs. destruct (H6 r' s Hs) as (Hn & data & (b & Hb & Hpos & _) & _).
    assert (N : s_allocation s <> fl) by (intros E; by apply (proj2 (Hfl ltac:(lia)) r' s Hs)).
    assert (N' : s_allocation s <> fl').
    { intros E. destruct Hfl' as [?|(_ & _ & [?|Hn'])]; [lia|congruence|]. rewrite <-E in Hn'. congruence. }
    split; [by apply Hsame|done]. }
  split; cbn; try done.
  - split; [split; try done|done]. intros p it Hit. destruct (P7 p it Hit) as [Hsz Hb]. split; [done|].
    destruct Hb as [?|(Hpos & b & Hb & Hl)]; [by left|right]. split; [done|]. exists b. split; [|done].
    rewrite (Hown p); [done|]. split; [lia|eauto].
  - intros r' s Hs. destruct (H6 r' s Hs) as (Hn & data & Hdat & Hi). split; [done|]. exists data. split; [|done].
    eapply holds_same; [by apply (Hsk r' s)|done].
  - intros id [b Hb]. destruct (decide (id = fl')) as [->|N']; [by right; right|].
    destruct (decide (id = fl)) as [->|N]; [rewrite Hgone in Hb by congruence; done|].
    rewrite Hsame in Hb by done. destruct (H9 id ltac:(eauto)) as [?|[?|?]]; auto. done.
  - intros Hz. destruct Hfl' as [?|(Hpos & Hm & Hor)]; [done|]. split; [done|]. split; [done|]. split.
    + intros p Ho. destruct Hor as [->|Hn]; [by apply (proj1 (Hfl Hz) p)|]. destruct Ho as (_ & it & Hit & E).
      destruct (P7 p it Hit) as [_ [?|(_ & b & Hb & _)]]; congruence.
    + intros r' s Hs. by apply (Hsk r' s).
  - intros p it i Hp Hi. replace (stored_body m' it) with (stored_body m it); [by apply (H12 p)|].
    unfold stored_body. destruct (decide (hi_body it = 0)) as [->|Hz]; [congruence|].
    rewrite (Hown p (hi_body it)); [done|]. split; eauto.
Qed.

(** ** Storing a document *)

Lemma Inv_put k m r fl it i res h' m' : Inv k m (Some r) fl -> put_ok (hc_heap k) m it i res h' m' -> hi_body it = fl ->
  origin (hc_log k) (item_key i) (hi_document it) (stored_body m it) -> Inv (set_heap h' k) m' (Some r) 0.
Proof.
  intros [H1 H3 H4 H5 H6 H7 H8 H9 H10 H11 H12] [U1 U2 U3 U4 U5 U6 U7] Ebody Horig.
  set (h := hc_heap k) in *. set (p := next_item (hh_cache h)) in *.
  assert (Hpit : forall jt, hh_docs h' !! p = Some jt -> jt = it).
  { intros jt Hj. destruct res as [p'|]; [destruct U3 as (E & U3 & _); rewrite E in U3|destruct U3 as [_ U3]]; congruence. }
  assert (Hfl : fl <> 0 -> (forall q, ~ owner (hh_docs h) q fl) /\ forall r' s, sinks k (Some r) r' s -> s_allocation s <> fl).
  { intros Hz. by destruct (H10 Hz) as (_ & _ & ? & ?). }
  assert (Hsk : forall r' s, sinks k (Some r) r' s -> m' !! s_allocation s = m !! s_allocation s /\
    forall q, ~ owner (hh_docs h') q (s_allocation s)).
  { intros r' s Hs. destruct (H6 r' s Hs) as (Hn & data & (b & Hb & Hpos & _) & _).
    assert (N : s_allocation s <> fl) by (intros E; by apply (proj2 (Hfl ltac:(lia)) r' s Hs)).
    split; [apply U6; [done|congruence]|]. intros q (Hz & jt & Hj & E). destruct (decide (q = p)) as [->|Hq].
    - apply Hpit in Hj as ->. congruence.
    - apply (Hn q). split; [done|]. exists jt. split; [by apply U4|done]. }
  split; cbn; try done.
  - intros r' s Hs. destruct (H6 r' s Hs) as (_ & data & Hdat & Hi). split; [by apply (Hsk r' s)|]. exists data.
    split; [|done]. eapply holds_same; [by apply (Hsk r' s)|done].
  - intros id Hid. destruct (U7 id Hid) as (Hm & Ho & Hnew). destruct (H9 id Hm) as [[q Hq]|[?|E]].
    + left. exists q. auto.
    + auto.
    + destruct (decide (id = 0)) as [->|Hz]; [by right; right|]. left. destruct (Hnew ltac:(congruence) Hz) as [p' Er].
      rewrite Er in U3. destruct U3 as (E' & Hit & _). rewrite E' in Hit. exists p. split; [done|]. exists it. split; [done|congruence].
  - intros q jt j Hq Hj. destruct (decide (q = p)) as [->|Hne].
    + assert (jt = it) as -> by (by apply Hpit). destruct res as [p'|]; [|destruct U3 as [_ U3]; congruence].
      destruct U3 as (E & _ & Hst & _). rewrite E, Hj in Hst. injection Hst as ->. unfold stored_body. by rewrite (U5 p it Hq).
    + pose proof (U4 q jt Hq Hne) as Hq0. unfold stored_body. rewrite (U5 q jt Hq). apply (H12 q); [done|].
      apply (ev_same _ _ U2); [|done]. destruct (proj2 H1 q ltac:(eauto)) as [j0 Hj0].
      by eapply (ci_fresh _ (hp_cache _ _ (proj1 H1))).
Qed.

Lemma leases_put h m it i res h' m' l : HeapInv h m -> put_ok h m it i res h' m' -> item_leases i = O ->
  leases_ok (hh_cache h) l -> leases_ok (hh_cache h') l.
Proof.
  intros HI [U1 U2 U3 U4 U5 U6 U7] Hi [L1 L2]. pose proof (fresh_None _ (hp_cache _ _ (proj1 HI))) as Hf. split.
  - intros p j Hj. destruct (decide (p = next_item (hh_cache h))) as [->|Hne].
    + destruct res as [p'|].
      * destruct U3 as (E & _ & Hst & _). rewrite E, Hj in Hst. injection Hst as ->. rewrite Hi. symmetry.
        apply count_zero. intros Hin. destruct (L2 _ Hin) as [? ?]. congruence.
      * destruct U3 as [_ U3]. destruct (hp_live _ _ (proj1 U1) _ ltac:(eauto)) as [? ?]. congruence.
    + apply L1. apply (ev_same _ _ U2); [|done]. destruct (hp_live _ _ (proj1 U1) p ltac:(eauto)) as [jt Hjt].
      destruct (proj2 HI p ltac:(eauto)) as [j0 Hj0]. by eapply (ci_fresh _ (hp_cache _ _ (proj1 HI))).
  - intros p Hp. destruct (L2 p Hp) as [j Hj]. exists j. apply (ev_leased _ _ U2); [done|]. rewrite (L1 p j Hj).
    intros E. by apply count_zero in E.
Qed.

(** ** Leases *)

Lemma leases_lock c c' p i l : leases_ok c l -> store c !! p = Some i ->
  item_changed p (Some (with_leases (S (item_leases i)) i)) c c' -> leases_ok c' (p :: l).
Proof.
  intros [L1 L2] Hi [_ _ _ E]. split.
  - intros q j Hj. rewrite E in Hj. simpl. destruct (Nat.eqb_spec p q) as [->|Hne].
    + rewrite lookup_insert_eq in Hj. injection Hj as <-. simpl. f_equal. by apply L1.
    + rewrite lookup_insert_ne in Hj by done. by apply L1.
  - intros q Hq. rewrite E. destruct (decide (q = p)) as [->|Hne]; [by rewrite lookup_insert_eq|].
    rewrite lookup_insert_ne by done. apply elem_of_cons in Hq as [?|Hq]; [done|by apply L2].
Qed.

Lemma leases_unlock c c' p i l : leases_ok c (p :: l) -> store c !! p = Some i ->
  item_changed p (after_unlock c p i) c c' -> leases_ok c' l.
Proof.
  intros [L1 L2] Hi [_ _ _ E]. pose proof (L1 p i Hi) as Hl. simpl in Hl. rewrite Nat.eqb_refl in Hl.
  assert (Hother : forall q, q <> p -> store c' !! q = store c !! q).
  { intros q Hq. rewrite E. destruct (after_unlock c p i); [by rewrite lookup_insert_ne|by rewrite lookup_delete_ne]. }
  split.
  - intros q j Hj. destruct (decide (q = p)) as [->|Hne].
    + rewrite E in Hj. unfold after_unlock in Hj. destruct ((_ =? 1)%nat && _); [by rewrite lookup_delete_eq in Hj|].
      rewrite lookup_insert_eq in Hj. injection Hj as <-. simpl. by rewrite Hl.
    + rewrite Hother in Hj by done. rewrite (L1 q j Hj). simpl. by rewrite (proj2 (Nat.eqb_neq p q)) by done.
  - intros q Hq. destruct (decide (q = p)) as [->|Hne].
    + rewrite E. unfold after_unlock. destruct (Nat.eqb_spec (item_leases i) 1) as [E1|]; simpl.
      * exfalso. rewrite E1 in Hl. assert (E0 : count p l = O) by lia. by apply count_zero in E0.
      * rewrite lookup_insert_eq. by eexists.
    + rewrite Hother by done. apply L2. by right.
Qed.

Lemma leases_perm c l l' : l ≡ₚ l' -> leases_ok c l -> leases_ok c l'.
Proof. intros E [L1 L2]. split; [intros p i Hi; rewrite <-E; by apply L1|]. intros p Hp. apply L2. by rewrite E. Qed.

End Inv.
