(* ===== verification/HttpCacheSteps.v ===== *)
(** * The HTTP cache: its operations keep the invariant

    [CacheOk] holds between operations; [Work] while a request is being worked on.  The lemmas run the
    operations of [HttpCache] and also say what they add to the log. *)

From Stdlib Require Import String.
From S2P Require Import Prelude CharUtil StrMap Uri HttpCacheRFC HttpCacheRFCFacts Cache CacheFacts ObjectStore.
From S2P Require Import RubberSink HttpCacheHeap HttpCacheHeapFacts HttpCacheHeapOps HttpCache HttpCacheInv.

#[local] Open Scope beng_scope.

Section Steps.
Context `{CU : CharUtil} `{UL : UriLib} `{HL : HttpLib} `{HE : HttpCacheEnv}.
Context `{HS : HashSetOrder} `{TL : TrieLaws} `{OL : ObjectStoreLaws}.

(** ** Documents that requests hold *)

(** The document of a request has its key and fits the headers of its caller. *)
Definition held_doc (h : HttpCacheHeap) (l : list cache_log) (r : req_ptr) (q : HttpCacheRequest) (p : item_ptr) : Prop :=
  exists it i headers, hh_docs h !! p = Some it /\ store (hh_cache h) !! p = Some i /\ item_key i = q_key q /\
    Begin r (q_key q) headers ∈ l /\ VaryFits (hi_document it) headers = true.

Definition held_docs (k : HttpCache) : Prop :=
  forall r q p, hc_objects k !! r = Some q -> q_document q = Some p -> held_doc (hc_heap k) (hc_log k) r q p.

Definition Held (k : HttpCache) : Prop := leases_ok (hh_cache (hc_heap k)) (holders k) /\ held_docs k.

Definition AllOk (k : HttpCache) (m : gmap Z (list Z)) : Prop := Inv k m None 0 /\ Held k.

Definition Work (k : HttpCache) (m : gmap Z (list Z)) (r : req_ptr) (fl : Z) (q : HttpCacheRequest) : Prop :=
  Inv k m (Some r) fl /\ Held k /\ hc_objects k !! r = Some q.

(** An item as the invariant of the holders sees it. *)
Definition same_item (h h' : HttpCacheHeap) (p : item_ptr) : Prop :=
  forall it i, hh_docs h !! p = Some it -> store (hh_cache h) !! p = Some i ->
    exists it' i', hh_docs h' !! p = Some it' /\ d_vary (hi_document it') = d_vary (hi_document it) /\
      store (hh_cache h') !! p = Some i' /\ item_key i' = item_key i.

Lemma holder_of_request k r q p : hc_objects k !! r = Some q -> q_document q = Some p -> p ∈ holders k.
Proof.
  intros Hq Hp. apply elem_of_app. left. apply list_elem_of_omap. exists q. split; [|done].
  apply list_elem_of_In, in_map_iff. exists (r, q). split; [done|]. by apply list_elem_of_In, elem_of_map_to_list.
Qed.

Lemma Held_heap k h' : held_docs k -> leases_ok (hh_cache h') (holders k) ->
  (forall p, p ∈ holders k -> same_item (hc_heap k) h' p) -> Held (set_heap h' k).
Proof.
  intros Hd Hl Hs. split; [done|]. intros r q p Hq Hp. cbn in *.
  destruct (Hd r q p Hq Hp) as (it & i & hd & Hit & Hi & Hk & Hb & Hf).
  destruct (Hs p (holder_of_request k r q p Hq Hp) it i Hit Hi) as (it' & i' & Hit' & Ev & Hi' & Ek).
  exists it', i', hd. split; [done|]. split; [done|]. split; [congruence|]. split; [done|].
  unfold VaryFits in *. by rewrite Ev.
Qed.

(** A leased item survives the steps of the heap. *)
Lemma same_item_step h m h' m' l p : leases_ok (hh_cache h) l -> heap_step h m h' m' -> p ∈ l -> same_item h h' p.
Proof.
  intros [L1 L2] Hst Hp it i Hit Hi. exists it, i.
  assert (Hi' : store (hh_cache h') !! p = Some i).
  { apply (ev_leased _ _ (hs_cache _ _ _ _ Hst)); [done|]. rewrite (L1 p i Hi). intros E. by apply count_zero in E. }
  split; [by eapply heap_step_doc; eauto|done].
Qed.

Lemma Held_step k m h' m' : Inv k m None 0 \/ (exists r fl, Inv k m (Some r) fl) -> Held k ->
  heap_step (hc_heap k) m h' m' -> Held (set_heap h' k).
Proof.
  intros HI Hh Hst. assert (HH : HeapInv (hc_heap k) m) by (destruct HI as [[]|(r & fl & [])]; done).
  apply Held_heap; [apply Hh|by eapply leases_evolves; [|apply Hh|]|].
  intros p Hp. by eapply same_item_step; [apply Hh| |].
Qed.

Lemma Held_log k e : Held k -> Held (set_hc_log (hc_log k ++ [e]) k).
Proof.
  intros [Hl Hd]. split; [done|]. intros r q p Hq Hp. cbn in *.
  destruct (Hd r q p Hq Hp) as (it & i & hd & H1 & H2 & H3 & H4 & H5). exists it, i, hd.
  split_and!; try done. apply elem_of_app. by left.
Qed.

(** ** The objects of requests *)

Definition docs_held (x : gmap req_ptr HttpCacheRequest) : list item_ptr :=
  omap q_document (map snd (map_to_list x)).

Lemma omap_perm {A B} (f : A -> option B) l l' : l ≡ₚ l' -> omap f l ≡ₚ omap f l'.
Proof.
  induction 1 as [|x l l' H IH|x y l|l1 l2 l3 H1 IH1 H2 IH2]; simpl; [done| | |by etrans].
  - by destruct (f x); rewrite IH.
  - destruct (f x), (f y); try reflexivity. apply perm_swap.
Qed.

Lemma docs_held_insert x r q : x !! r = None -> docs_held (<[r := q]> x) ≡ₚ option_list (q_document q) ++ docs_held x.
Proof.
  intros Hr. unfold docs_held. rewrite (omap_perm _ (map snd (map_to_list (<[r:=q]> x))) (map snd ((r, q) :: map_to_list x))).
  - simpl. by destruct (q_document q).
  - apply Permutation_map. by apply map_to_list_insert.
Qed.

Lemma docs_held_delete x r q : x !! r = Some q -> docs_held x ≡ₚ option_list (q_document q) ++ docs_held (delete r x).
Proof. intros Hr. rewrite <-(insert_delete_id x r q Hr) at 1. apply docs_held_insert, lookup_delete_eq. Qed.

Lemma docs_held_update x r q q' : x !! r = Some q -> q_document q' = q_document q -> docs_held (<[r := q']> x) ≡ₚ docs_held x.
Proof.
  intros Hr E. rewrite (docs_held_delete x r q Hr), <-E. rewrite <-(insert_delete_eq x r q').
  rewrite docs_held_insert by apply lookup_delete_eq. done.
Qed.

(** ** What is added to the log *)

Definition from_cache (b : response_body) : bool :=
  match b with Cached _ _ | CachedEmpty _ => true | _ => false end.

(** An entry that does not say that something is served from the cache. *)
Definition silent (e : cache_log) : Prop :=
  match e with
  | Respond _ _ b => from_cache b = false
  | _ => True
  end.

(** Each request with [AutoFlushHttpCacheRequest] has a tag. *)
Definition has_tag (e : cache_log) : Prop := match e with ForwardFlush tag _ _ _ => is_Some tag | _ => True end.

(** Nothing is served from the cache. *)
Definition quiet (k k' : HttpCache) : Prop :=
  exists l, hc_log k' = hc_log k ++ l /\ Forall silent l /\ Forall has_tag l.

#[export] Instance quiet_preorder : PreOrder quiet.
Proof.
  split.
  - intros k. exists []. split; [by rewrite app_nil_r|by split].
  - intros k1 k2 k3 (l1 & E1 & H1 & H1') (l2 & E2 & H2 & H2'). exists (l1 ++ l2). split; [by rewrite E2, E1, app_assoc|].
    by rewrite !Forall_app.
Qed.

Lemma quiet_log k e : silent e -> has_tag e -> quiet k (set_hc_log (hc_log k ++ [e]) k).
Proof. intros He Ht. exists [e]. split; [done|]. by rewrite !Forall_singleton. Qed.

Lemma quiet_same k k' : hc_log k' = hc_log k -> quiet k k'.
Proof. intros E. exists []. split; [by rewrite app_nil_r|by split]. Qed.

(** ** Running parts *)

Lemma wp_on_heap {A} (mm : M HttpCacheHeap A) (Q : A -> HttpCache -> Prop) k :
  wp mm (fun a h => Q a (set_heap h k)) (hc_heap k) -> wp (on_heap mm) Q k.
Proof. intros (a & h & E & HQ). eexists a, _. unfold on_heap. rewrite E. by split. Qed.

Lemma wp_request r q k (Q : HttpCacheRequest -> HttpCache -> Prop) :
  hc_objects k !! r = Some q -> Q q k -> wp (request r) Q k.
Proof. intros Hq HQ. exists q, k. unfold request. by rewrite Hq. Qed.

Lemma wp_document p it k (Q : HttpCacheDocument -> HttpCache -> Prop) :
  hh_docs (hc_heap k) !! p = Some it -> Q (hi_document it) k -> wp (document p) Q k.
Proof. intros Hp HQ. exists (hi_document it), k. unfold document. by rewrite Hp. Qed.

(** ** Working on a request *)

Lemma Work_next k m r fl q : Work k m r fl q -> (r < hc_next k)%nat.
Proof. intros (HI & _ & Hq). by eapply (iv_fresh _ _ _ _ HI). Qed.

(** The request changes, but neither its document nor its key. *)
Lemma Work_update k m r fl q q' : Work k m r fl q -> q_document q' = q_document q -> q_key q' = q_key q ->
  Work (set_objects (<[r := q']> (hc_objects k)) k) m r fl q'.
Proof.
  intros HW Ed Ek. pose proof (Work_next _ _ _ _ _ HW) as Hn. destruct HW as (HI & [Hl Hd] & Hq). split_and!.
  - apply Inv_objects; [done| |done]. intros r' Hr. by apply lookup_insert_ne.
  - split.
    + cbn. eapply leases_perm; [|exact Hl]. unfold holders. cbn. fold (docs_held (hc_objects k)).
      fold (docs_held (<[r := q']> (hc_objects k))). by rewrite (docs_held_update _ r q q').
    + intros r' q2 p Hq2 Hp. cbn in *. destruct (decide (r' = r)) as [->|Hne].
      * rewrite lookup_insert_eq in Hq2. injection Hq2 as <-.
        destruct (Hd r q p Hq ltac:(congruence)) as (it & i & hd & H). exists it, i, hd. by rewrite Ek.
      * rewrite lookup_insert_ne in Hq2 by done. by apply Hd.
  - cbn. by rewrite lookup_insert_eq.
Qed.

Lemma Work_log k m r fl q e : Work k m r fl q ->
  match e with Begin r' _ _ | Answer r' _ _ _ => (r' < hc_next k)%nat | Input r' _ => r' = r | _ => True end ->
  Work (set_hc_log (hc_log k ++ [e]) k) m r fl q.
Proof.
  intros HW He. pose proof (Work_next _ _ _ _ _ HW) as Hn. destruct HW as (HI & Hh & Hq). split_and!; [|by apply Held_log|done].
  apply Inv_log; [done|]. destruct e; try done. by subst.
Qed.

Lemma Work_step k m r fl q h' m' : Work k m r fl q -> heap_step (hc_heap k) m h' m' -> Work (set_heap h' k) m' r fl q.
Proof.
  intros (HI & Hh & Hq) Hst. split_and!; [by eapply Inv_heap_step| |done]. eapply Held_step; [|done|done]. right. by exists r, fl.
Qed.

Lemma Work_stats k m r fl q x : Work k m r fl q -> Work (set_stats x k) m r fl q.
Proof. intros (HI & Hh & Hq). split_and!; [by apply Inv_stats|done|done]. Qed.

Lemma Work_rubber k m r fl q m' fl' x : Work k m r fl q -> os_rep x m' ->
  (forall id, id <> fl -> id <> fl' -> m' !! id = m !! id) -> (fl <> fl' -> m' !! fl = None) ->
  (fl' = 0 \/ 0 < fl' /\ is_Some (m' !! fl') /\ (fl' = fl \/ m !! fl' = None)) -> m' !! 0 = None ->
  Work (set_heap (with_rubber x (hc_heap k)) k) m' r fl' q.
Proof.
  intros (HI & Hh & Hq) H1 H2 H3 H4 H5. split_and!; [by eapply Inv_rubber|by destruct Hh|done].
Qed.

(** ** The end of a request *)

(** What the holders of [k'] hold is what they held before. *)
Definition kept (k : HttpCache) (m : gmap Z (list Z)) (k' : HttpCache) (m' : gmap Z (list Z)) : Prop :=
  forall p it i, p ∈ holders k' -> hh_docs (hc_heap k) !! p = Some it -> store (hh_cache (hc_heap k)) !! p = Some i ->
    hh_docs (hc_heap k') !! p = Some it /\ m' !! hi_body it = m !! hi_body it /\
    exists i', store (hh_cache (hc_heap k')) !! p = Some i' /\ item_key i' = item_key i.

Lemma kept_unlock k m h' m' p i x : HeapInv h' m' -> heap_evolves (hc_heap k) m h' m' ->
  item_changed p x (hh_cache (hc_heap k)) (hh_cache h') -> store (hh_cache (hc_heap k)) !! p = Some i ->
  (forall j, x = Some j -> item_key j = item_key i) -> leases_ok (hh_cache h') (holders k) ->
  kept k m (set_heap h' k) m'.
Proof.
  intros HI Hev Hc Hi Hx [_ L2] q it j Hq Hit Hj. destruct (L2 q Hq) as [j' Hj'].
  assert (Hd : hh_docs h' !! q = Some it) by (rewrite (live_doc _ _ _ _ q Hev HI); [done|by eexists]).
  split; [done|]. split; [by apply (he_kept _ _ _ _ Hev q)|]. exists j'. split; [done|].
  rewrite (ic_store _ _ _ _ Hc) in Hj'. destruct (decide (q = p)) as [->|Hne].
  - destruct x; [|by rewrite lookup_delete_eq in Hj']. rewrite lookup_insert_eq in Hj'. injection Hj' as <-.
    rewrite Hx by done. congruence.
  - destruct x; [rewrite lookup_insert_ne in Hj' by done|rewrite lookup_delete_ne in Hj' by done]; congruence.
Qed.

Lemma after_unlock_key c p i j : after_unlock c p i = Some j -> item_key j = item_key i.
Proof. unfold after_unlock. destruct ((_ =? 1)%nat && _); [done|]. by intros [= <-]. Qed.

(** A lease ends: the holder [p] is gone. *)
Lemma unlock_ok k m cur fl p l : Inv k m cur fl ->
  leases_ok (hh_cache (hc_heap k)) (p :: l) -> l ≡ₚ holders k ->
  wp (on_heap (Heap_Unlock p)) (fun _ k' => exists m' h', k' = set_heap h' k /\ Inv k' m' cur fl /\
    leases_ok (hh_cache h') l /\ kept k m k' m') k.
Proof.
  intros HI Hl Hp. destruct (proj2 Hl p ltac:(left)) as [i Hi].
  assert (Hne : item_leases i <> O) by (rewrite (proj1 Hl p i Hi); simpl; rewrite Nat.eqb_refl; done).
  apply wp_on_heap. eapply wp_mono; [apply (wp_Heap_Unlock p i _ m); [apply HI|done|done]|].
  intros [] h' (m' & HI' & Hev & Hc). exists m', h'. split; [done|].
  assert (Hl' : leases_ok (hh_cache h') l) by (by eapply leases_unlock).
  split; [eapply Inv_item_changed; [done..|]; intros j Hj; by eapply after_unlock_key|]. split; [done|].
  eapply kept_unlock; [done..| |]; [intros j Hj; by eapply after_unlock_key|].
  by eapply leases_perm.
Qed.

Lemma kept_same_item k m h' m' p : kept k m (set_heap h' k) m' -> p ∈ holders k -> same_item (hc_heap k) h' p.
Proof.
  intros Hk Hp it i Hit Hi. destruct (Hk p it i Hp Hit Hi) as (Hit' & _ & i' & Hi' & E). by exists it, i'.
Qed.

Lemma wp_Destroy k m r q : Work k m r 0 q -> (r ∉ hc_requests k) ->
  wp (Request_Destroy r) (fun _ k' => exists m', AllOk k' m' /\ hc_log k' = hc_log k /\
    hc_streams k' = hc_streams k /\ kept k m k' m') k.
Proof.
  intros HW Hr. pose proof (Work_next _ _ _ _ _ HW) as Hn. destruct HW as (HI & [Hl Hd] & Hq).
  unfold Request_Destroy. apply wp_bind, (wp_request r q); [done|]. apply wp_bind, wp_mod.
  set (k1 := set_objects (delete r (hc_objects k)) k).
  assert (HI1 : Inv k1 m None 0).
  { apply (Inv_unfocus k1 m r); [|apply lookup_delete_eq|done].
    apply Inv_objects; [done| |done]. intros r' Hr'. by apply lookup_delete_ne. }
  assert (Hd1 : held_docs k1).
  { intros r' q' p Hq' Hp. change (delete r (hc_objects k) !! r' = Some q') in Hq'. apply lookup_delete_Some in Hq' as [_ Hq']. by apply Hd. }
  assert (Hp1 : holders k ≡ₚ option_list (q_document q) ++ holders k1).
  { unfold holders. fold (docs_held (hc_objects k)). fold (docs_held (hc_objects k1)). cbn.
    rewrite (docs_held_delete _ r q Hq). by rewrite app_assoc. }
  destruct (q_document q) as [p|]; simpl in Hp1.
  - eapply wp_mono; [apply (unlock_ok k1 m None 0 p (holders k1)); [done|by eapply leases_perm|done]|].
    intros [] k' (m' & h' & -> & HI' & Hl' & Hk). exists m'. split; [|done].
    split; [done|]. apply Held_heap; [done|done|]. intros p' Hp'. by eapply kept_same_item.
  - apply wp_ret. exists m. split; [|split; [done|split; [done|]]].
    + split; [done|]. split; [|done]. by eapply leases_perm.
    + intros p it i _ Hit Hi. by eauto.
Qed.

(** ** The end of a sink *)

Definition finished (q : HttpCacheRequest) : HttpCacheRequest :=
  mkRequest (q_cache_tag q) (q_key q) (q_request_headers q) (q_request_info q) (q_document q)
    (q_eager_cache q) false (q_response q) None.

Lemma wp_StoreFinished k m r fl q : Work k m r fl q -> r ∈ hc_requests k -> q_cancel q = true ->
  wp (RubberStoreFinished r) (fun _ k' => Work k' m r fl (finished q) /\ (r ∉ hc_requests k') /\ hc_log k' = hc_log k /\
    hc_heap k' = hc_heap k) k.
Proof.
  intros HW Hr Hc. unfold RubberStoreFinished. apply wp_bind, (wp_request r q); [apply HW|].
  apply wp_bind, wp_assert; [done|]. unfold set_request. apply wp_bind, wp_mod. fold (finished q).
  pose proof (Work_update k m r fl q (finished q) HW eq_refl eq_refl) as HW1.
  apply wp_bind, wp_get, wp_bind, wp_assert; [by apply bool_decide_eq_true|]. apply wp_mod. cbn.
  set (l := List.filter (fun x => negb (x =? r)%nat) (hc_requests k)).
  assert (Hl : forall x, x ∈ l <-> x ∈ hc_requests k /\ x <> r).
  { intros x. unfold l. rewrite elem_of_bfilter, negb_true_iff, Nat.eqb_neq. done. }
  split; [|split; [|done]].
  - destruct HW1 as (HI & Hh & Hq). split_and!; [|done|done].
    apply (Inv_set_requests _ m r fl l HI); [|intros x Hx; rewrite Hl; naive_solver].
    eapply sublist_NoDup; [apply (iv_requests _ _ _ _ HI)|apply bfilter_sub].
  - cbn. intros Hx%Hl. naive_solver.
Qed.

Lemma wp_Failed k m r q : Work k m r 0 q -> r ∈ hc_requests k -> q_cancel q = true ->
  wp (Request_RubberFailed r) (fun _ k' => exists m', AllOk k' m' /\ quiet k k') k.
Proof.
  intros HW Hr Hc. unfold Request_RubberFailed. apply wp_bind.
  eapply wp_mono; [by apply (wp_StoreFinished k m r 0 q)|]. intros [] k1 (HW1 & Hr1 & El & _).
  eapply wp_mono; [by eapply wp_Destroy|]. intros [] k2 (m2 & HA & El2 & _). exists m2. split; [done|].
  apply quiet_same. congruence.
Qed.

(** ** Storing a response *)

(** What is known about a request whose response body [data] is in the object [fl] (or is empty). *)
Record stored (k : HttpCache) (m : gmap Z (list Z)) (r : req_ptr) (q : HttpCacheRequest) (fl size : Z) : Prop := {
  sd_begin : exists headers, Begin r (q_key q) headers ∈ hc_log k /\ q_request_headers q = StringMap_copy headers;
  sd_size : 0 <= size /\ (fl = 0 \/ exists b, m !! fl = Some b /\ size <= Z.of_nat (length b));
  sd_data : exists body, response_with (headers_from (hc_log k) (take (Z.to_nat size) (default [] (m !! fl)))) (hc_log k) r q body /\
    body_received (hc_log k) r body (take (Z.to_nat size) (default [] (m !! fl))) }.

Lemma stored_free k m r q fl size : Work k m r fl q -> stored k m r q fl size -> free_body (hc_heap k) m fl size.
Proof.
  intros (HI & _ & _) [_ [Hs Hb] _]. split; [done|]. destruct (decide (fl = 0)) as [->|Hz]; [by left|right].
  destruct (iv_floating _ _ _ _ HI Hz) as (Hpos & _ & Hn & _). split; [done|]. split; [done|]. by destruct Hb.
Qed.

Lemma wp_Request_Put k m r q fl size pool_size steady_now system_now : Work k m r fl q -> stored k m r q fl size ->
  0 < pool_size ->
  wp (Request_Put pool_size steady_now system_now r fl size) (fun _ k' => exists m', Work k' m' r 0 q /\
    hc_log k' = hc_log k /\ hc_requests k' = hc_requests k) k.
Proof.
  intros HW Hsd Hpool. pose proof (stored_free _ _ _ _ _ _ HW Hsd) as Hfree. destruct Hsd as [Hb Hsz Hd].
  destruct Hb as (headers0 & Hbegin & Eh). destruct Hd as (body & (info & status & headers & resp & clock & ri & eager & av &
    Eq & Hst & Hans & Hev & Hfrom) & Hrecv).
  unfold Request_Put. apply wp_bind, (wp_request r q); [apply HW|]. apply wp_bind. eapply wp_opt; [exact Eq|].
  unfold count_store. apply wp_bind, wp_mod. apply wp_bind, wp_on_heap. set (k1 := set_stats _ k).
  assert (HW1 : Work k1 m r fl q) by (by apply Work_stats).
  destruct (wp_Heap_Put pool_size steady_now system_now (q_key q) (q_cache_tag q) info (q_request_headers q) status headers
    fl size (hc_heap k1) m) as (it & i & Enew & Hput); [apply HW1|done|done|done|].
  eapply wp_mono; [exact Hput|]. intros res h' (m' & Hok). apply wp_ret. exists m'. split; [|done].
  unfold HttpCacheItem_new, HttpCacheDocument_new in Enew. rewrite Hst in Enew. injection Enew as <- <-.
  destruct HW1 as (HI & [Hl Hh] & Hq). split_and!; [| |done].
  - eapply (Inv_put k1 m r fl); [done|done|done|]. cbn.
    exists r, headers0, resp, body, info, clock, ri, eager, av. cbn. split; [done|]. split; [done|]. split; [done|].
    split; [done|]. split; [done|]. split; [unfold vary_of; by rewrite Eh|].
    split; [by apply headers_from_copy|by left].
  - apply Held_heap; [done|eapply leases_put; [apply HI|done|done|done]|]. intros p Hp it i Hit Hi.
    destruct Hl as [L1 L2]. assert (Hi' : store (hh_cache h') !! p = Some i).
    { apply (ev_leased _ _ (pu_cache _ _ _ _ _ _ _ Hok)); [done|]. rewrite (L1 p i Hi). intros E. by apply count_zero in E. }
    destruct (hp_live _ _ (proj1 (pu_inv _ _ _ _ _ _ _ Hok)) p ltac:(eauto)) as [it' Hit'].
    assert (Hne : p <> next_item (hh_cache (hc_heap k1))).
    { intros ->. by rewrite (fresh_None _ (hp_cache _ _ (proj1 (iv_heap _ _ _ _ HI)))) in Hi. }
    pose proof (pu_docs _ _ _ _ _ _ _ Hok p it' Hit' Hne) as Hit2. rewrite Hit in Hit2. injection Hit2 as <-.
    by exists it, i.
Qed.

Lemma stored_ext k m r q fl size k' q' : stored k m r q fl size -> hc_log k' = hc_log k ->
  q_key q' = q_key q -> q_request_headers q' = q_request_headers q ->
  (forall info status headers, q_response q = Some (info, status, headers) ->
     exists headers', q_response q' = Some (info, status, headers') /\ forall resp,
       headers_from (hc_log k) (take (Z.to_nat size) (default [] (m !! fl))) resp headers ->
       headers_from (hc_log k) (take (Z.to_nat size) (default [] (m !! fl))) resp headers') -> stored k' m r q' fl size.
Proof.
  intros [Hb Hs Hd] El Ek Eh Er. split; rewrite ?El.
  - destruct Hb as (h & ? & ?). exists h. rewrite Ek, Eh. done.
  - done.
  - destruct Hd as (body & (info & status & headers & resp & clock & ri & eager & av & Eq & H1 & H2 & H3 & H4) & Hr). exists body.
    split; [|done]. destruct (Er info status headers Eq) as (headers' & E & Hh).
    exists info, status, headers', resp, clock, ri, eager, av. split_and!; try done. by apply Hh.
Qed.

Lemma wp_ToSpan k m r fl q size : Work k m r fl q -> stored k m r q fl size -> (size <> 0 -> fl <> 0) ->
  wp (on_heap (on_rubber (ToSpan fl size))) (fun data k' => data = take (Z.to_nat size) (default [] (m !! fl)) /\ k' = k) k.
Proof.
  intros HW [_ [Hs Hb] _] Hfl. apply wp_on_heap, wp_on_rubber. unfold ToSpan.
  assert (E : set_heap (mkHeap (hh_cache (hc_heap k)) (hh_docs (hc_heap k)) (hh_per_tag (hc_heap k)) (hh_rubber (hc_heap k))) k = k).
  { destruct k as [[] ? ? ? ? ? ? ?]. done. }
  destruct (size =? 0) eqn:E0; simpl_bool; [apply wp_ret; by rewrite E0|].
  destruct Hb as [?|(b & Hb & Hl)]; [tauto|]. apply wp_bind, wp_assert; [apply negb_true_iff, Z.eqb_neq; by apply Hfl|].
  eapply wp_mono; [apply (os_load_ok fl 0 _ b _ m); [apply HW|done|lia]|].
  intros x st [-> ->]. by rewrite E, Hb.
Qed.

Lemma wp_RubberDone k m r q fl size pool_size steady_now system_now : Work k m r fl q -> r ∈ hc_requests k ->
  q_cancel q = true -> stored k m r q fl size -> (size <> 0 -> fl <> 0) -> 0 < pool_size ->
  wp (Request_RubberDone pool_size steady_now system_now r fl size) (fun _ k' => exists m', AllOk k' m' /\ quiet k k') k.
Proof.
  intros HW Hr Hc Hsd Hfl Hpool. unfold Request_RubberDone. apply wp_bind.
  eapply wp_mono; [by apply (wp_StoreFinished k m r fl q)|]. intros [] k1 (HW1 & Hr1 & El1 & Eh1).
  assert (Hsd1 : stored k1 m r (finished q) fl size) by (eapply stored_ext; [exact Hsd|done|done|done|eauto]).
  apply wp_bind, (wp_request r (finished q)); [apply HW1|].
  pose proof Hsd1 as [_ _ (body & (info & status & headers & resp & clock & ri & eager & av & Eq & _) & _)].
  apply wp_bind. eapply wp_opt; [exact Eq|].
  assert (Hrest : forall k2 q2, Work k2 m r fl q2 -> stored k2 m r q2 fl size -> hc_log k2 = hc_log k1 ->
    hc_requests k2 = hc_requests k1 ->
    wp (Request_Put pool_size steady_now system_now r fl size ;;; Request_Destroy r)
      (fun _ k' => exists m', AllOk k' m' /\ quiet k k') k2).
  { intros k2 q2 HW2 Hsd2 El2 Er2. apply wp_bind. eapply wp_mono; [by apply (wp_Request_Put k2 m r q2)|].
    intros [] k3 (m3 & HW3 & El3 & Er3). eapply wp_mono; [eapply wp_Destroy; [done|congruence]|].
    intros [] k4 (m4 & HA & El4 & _). exists m4. split; [done|]. apply quiet_same. congruence. }
  apply wp_bind. destruct (q_eager_cache (finished q) && _) eqn:Ed.
  - apply andb_true_iff in Ed as [_ Ed]. apply negb_true_iff in Ed.
    apply wp_bind. eapply wp_mono; [by apply (wp_ToSpan k1 m r fl (finished q))|]. intros data k2 [-> ->].
    unfold set_request. apply wp_mod. eapply (Hrest _ _); [by eapply Work_update| |done|done].
    eapply stored_ext; [exact Hsd1|done|done|done|]. cbn. intros i2 s2 h2 E2. cbn in Eq. rewrite Eq in E2.
    injection E2 as <- <- <-. eexists. split; [done|]. intros resp2 Hfrom. by apply headers_from_digest.
  - apply wp_ret. by eapply Hrest.
Qed.

(** ** What sinks report *)

(** What the log says about the abstract sink of a request. *)
Definition sink_logged (l : list cache_log) (r : req_ptr) (limit : Z) (body : Z * Z) (a : asink) : Prop :=
  match a with
  | Growing data => sunk limit (inputs_of r l) = Growing data
  | Complete data => body_received l r (Some body) data
  | Failed (RubberDone _ _) | Failed RubberCancelled => False
  | Failed _ => True
  end.

Definition with_sink (s : RubberSink) (q : HttpCacheRequest) : HttpCacheRequest :=
  mkRequest (q_cache_tag q) (q_key q) (q_request_headers q) (q_request_info q) (q_document q)
    (q_eager_cache q) true (q_response q) (Some s).

(** The floating object after a step of the sink. *)
Lemma Work_sink k m r fl q m' fl' x : Work k m r fl q -> os_rep x m' -> delete fl' m' = delete fl m ->
  (fl' = 0 /\ m' !! 0 = None \/ 0 < fl' /\ is_Some (m' !! fl') /\ delete fl m !! fl' = None) ->
  Work (set_heap (with_rubber x (hc_heap k)) k) m' r fl' q.
Proof.
  intros HW Hrep E Hfl'. assert (H0 : m !! 0 = None) by apply (hp_zero _ _ (proj1 (iv_heap _ _ _ _ (proj1 HW)))).
  assert (Hlook : forall id, id <> fl' -> m' !! id = delete fl m !! id).
  { intros id Hid. rewrite <-E. symmetry. by apply lookup_delete_ne. }
  eapply (Work_rubber k m r fl q m' fl' x HW Hrep).
  - intros id H1 H2. rewrite Hlook by done. by apply lookup_delete_ne.
  - intros Hne. rewrite Hlook by done. apply lookup_delete_eq.
  - destruct Hfl' as [[? _]|(Hpos & Hm & Hn)]; [by left|right]. split; [done|]. split; [done|].
    destruct (decide (fl' = fl)) as [->|Hne]; [by left|right]. by rewrite lookup_delete_ne in Hn.
  - destruct Hfl' as [[_ ?]|(Hpos & _ & _)]; [done|]. rewrite Hlook by lia.
    apply lookup_delete_None. by right.
Qed.

Lemma wp_sink_result k m r fl q x a c limit body pool_size steady_now system_now : Work k m r fl q ->
  sink_matches (delete fl m) limit a c x -> r ∈ hc_requests k -> request_ok (hc_log k) r q ->
  response_ok (hc_log k) r q (Some body) -> sink_logged (hc_log k) r limit body a -> 0 < pool_size ->
  wp (sink_result pool_size steady_now system_now r c) (fun _ k' => exists m', AllOk k' m' /\ quiet k k')
    (set_heap (with_rubber x (hc_heap k)) k).
Proof.
  intros HW Hm Hr Hok Hresp Hlog Hpool. set (k1 := set_heap (with_rubber x (hc_heap k)) k).
  assert (H0 : m !! 0 = None) by apply (hp_zero _ _ (proj1 (iv_heap _ _ _ _ (proj1 HW)))).
  assert (H0' : delete fl m !! 0 = None) by (apply lookup_delete_None; by right).
  destruct c as [s|e]; destruct a as [data|data|e']; try (exfalso; exact Hm).
  - destruct Hm as (Hl & Hn & m' & Hrep & Hh & Ed). pose proof Hh as (b & Hb & Hpos & _).
    assert (HW1 : Work k1 m' r (s_allocation s) q).
    { eapply Work_sink; [done|done|done|right]. split; [done|]. split; [by eexists|done]. }
    simpl sink_result. apply wp_bind, (wp_request r q); [apply HW1|]. unfold set_request. apply wp_mod. fold (with_sink s q).
    exists m'. pose proof (Work_update k1 m' r _ q (with_sink s q) HW1 eq_refl eq_refl) as (HI2 & Hh2 & Hq2).
    split; [|by apply quiet_same]. split; [|done].
    eapply (Inv_unfocus_sink _ m' r (with_sink s q) s data body); [done|done|done|done| | |done|by rewrite Hl].
    + destruct Hok as [_ ?]. by split.
    + exact Hresp.
  - destruct e as [id n| | | |]; try done. destruct Hm as [-> Hm]. destruct (decide (data = [])) as [->|Hne].
    + destruct Hm as [-> Hrep].
      assert (HW1 : Work k1 (delete fl m) r 0 q) by (eapply Work_sink; [done|done|by rewrite delete_id|left; done]).
      eapply wp_mono; [eapply (wp_RubberDone k1 _ r q 0 0); [done|done|apply Hok| |done|done]|by intros [] k'].
      split; [apply Hok|split; [done|by left]|]. exists (Some body). split; [by apply response_ok_from|]. exact Hlog.
    + destruct Hm as (Hpos & Hn & m' & b & Hrep & Ed & Hb & Hpre).
      assert (HW1 : Work k1 m' r id q).
      { eapply Work_sink; [done|done|done|right]. split; [done|]. split; [by eexists|done]. }
      eapply wp_mono; [eapply (wp_RubberDone k1 _ r q id); [done|done|apply Hok| |lia|done]|by intros [] k'].
      split; [apply Hok| |].
      * split; [lia|right]. exists b. split; [done|]. apply prefix_length in Hpre. lia.
      * exists (Some body). split; [by apply response_ok_from|]. rewrite Hb, Nat2Z.id. simpl. destruct Hpre as [tl ->].
        rewrite take_app_length. exact Hlog.
  - destruct Hm as [<- Hrep].
    assert (HW1 : Work k1 (delete fl m) r 0 q) by (eapply Work_sink; [done|done|by rewrite delete_id|left; done]).
    assert (HF : wp (Request_RubberFailed r) (fun _ k' => exists m', AllOk k' m' /\ quiet k k') k1).
    { eapply wp_mono; [eapply (wp_Failed k1); [done|done|apply Hok]|]. by intros [] k'. }
    by destruct e'.
Qed.

(** ** Input for a sink *)

Lemma sunk_snoc limit l i : sunk limit (l ++ [i]) = asink_step limit i (sunk limit l).
Proof. unfold sunk. by rewrite fold_left_app. Qed.

Lemma inputs_of_snoc r l i : inputs_of r (l ++ [Input r i]) = inputs_of r l ++ [i].
Proof. rewrite inputs_of_app. unfold inputs_of at 2. simpl. by rewrite Nat.eqb_refl. Qed.

Lemma sink_logged_step l r s body i data : sunk (s_max_size s) (inputs_of r l) = Growing data -> i <> InCancel ->
  sink_logged (l ++ [Input r i]) r (s_max_size s) body (asink_step (s_max_size s) i (Growing data)).
Proof.
  intros Hs Hi. unfold sink_logged.
  assert (E : sunk (s_max_size s) (inputs_of r (l ++ [Input r i])) = asink_step (s_max_size s) i (Growing data)).
  { by rewrite inputs_of_snoc, sunk_snoc, Hs. }
  destruct (asink_step (s_max_size s) i (Growing data)) as [d|d|e] eqn:Ea; [done| |].
  - unfold body_received. destruct body. right. by exists (s_max_size s).
  - destruct i as [x|[[|y x]|] n| | |]; simpl in Ea; try done;
      repeat match type of Ea with context [if ?b then _ else _] => destruct b end; try done; by injection Ea as <-.
Qed.

Lemma request_ok_app l l' r q : request_ok l r q -> request_ok (l ++ l') r q.
Proof. intros [Hc (hd & Hb & Eh)]. split; [done|]. exists hd. split; [apply elem_of_app; by left|done]. Qed.

Lemma wp_Input k m r q s i pool_size steady_now system_now : AllOk k m -> hc_objects k !! r = Some q -> q_sink q = Some s ->
  legal_input i -> i <> InCancel -> 0 < pool_size ->
  wp (Request_Input pool_size steady_now system_now r i) (fun _ k' => exists m', AllOk k' m' /\ quiet k k') k.
Proof.
  intros [HI Hh] Hq Hs Hi Hnc Hpool.
  assert (Hsk : sinks k None r s) by (split; eauto).
  destruct (iv_sink _ _ _ _ HI r s Hsk) as (_ & data & Hd & Hsunk).
  destruct (iv_response _ _ _ _ HI r q s Hq Hs ltac:(done)) as [body Hresp].
  destruct (iv_request _ _ _ _ HI r q Hq ltac:(done)) as [Hok _].
  destruct (Inv_focus_sink k m r q s HI Hq Hs) as [HI1 Hr].
  assert (HW : Work k m r (s_allocation s) q) by (split_and!; done).
  unfold Request_Input. apply wp_bind, (wp_request r q); [done|]. apply wp_bind. eapply wp_opt; [exact Hs|].
  unfold log. apply wp_bind, wp_mod.
  pose proof (Work_log k m r _ q (Input r i) HW eq_refl) as HW1. set (k1 := set_hc_log _ k) in *.
  apply wp_bind, wp_on_heap, wp_on_rubber.
  assert (Hm : sink_matches (delete (s_allocation s) m) (s_max_size s) (Growing data) (Receiving s) (hh_rubber (hc_heap k1))).
  { split; [done|]. split; [apply lookup_delete_eq|]. exists m. split; [apply HI|done]. }
  eapply wp_mono; [by apply (sink_step_matches i)|]. intros c x Hc.
  eapply wp_mono; [eapply (wp_sink_result k1 m r _ q x _ c (s_max_size s) body); [done|exact Hc|done| | | |done]|].
  - by apply request_ok_app.
  - by apply response_ok_app.
  - by apply sink_logged_step.
  - intros [] k' (m' & HA & Hqt). exists m'. split; [done|]. etrans; [|exact Hqt]. by apply quiet_log.
Qed.

(** ** Responses *)

(** The answer of the next loader to a waiting request. *)
Record answered (k : HttpCache) (r : req_ptr) (q : HttpCacheRequest) (status : HttpStatus) (headers : StringMap)
    (body : body_size) : Prop := {
  an_request : request_ok (hc_log k) r q;
  an_waiting : q_sink q = None;
  an_inputs : inputs_of r (hc_log k) = [];
  an_answer : Answer r status headers body ∈ hc_log k;
  an_status : http_status_is_valid status = true;
  an_size : match body with
    | Some (available, size) => known_size available size /\ honest_estimate cacheable_size_limit available size
    | None => True
    end;
  an_list : r ∉ hc_requests k }.

Definition with_response (x : HttpCacheResponseInfo * HttpStatus * StringMap) (q : HttpCacheRequest) : HttpCacheRequest :=
  mkRequest (q_cache_tag q) (q_key q) (q_request_headers q) (q_request_info q) (q_document q)
    (q_eager_cache q) (q_cancel q) (Some x) None.

(** Adding a silent entry to the log between operations. *)
Lemma AllOk_log k m e : AllOk k m -> silent e -> match e with Begin r _ _ | Answer r _ _ _ | Input r _ => False | _ => True end ->
  AllOk (set_hc_log (hc_log k ++ [e]) k) m.
Proof. intros [HI Hh] He Hr. split; [apply Inv_log; [done|by destruct e]|by apply Held_log]. Qed.

Lemma wp_store_response k m r q clock pool_size steady_now system_now status headers body : Work k m r 0 q ->
  answered k r q status headers body -> 0 < pool_size ->
  wp (store_response clock pool_size steady_now system_now r q status headers body)
    (fun _ k' => exists m', AllOk k' m' /\ quiet k k') k.
Proof.
  intros HW Han Hpool. destruct Han as [A1 A2 A3 A4 A5 A6 A7]. unfold store_response.
  set (available := match body with Some (a, _) => a | None => 0 end).
  destruct (http_cache_response_evaluate clock (q_request_info q) (q_eager_cache q) status headers available) as [info|] eqn:Ev.
  2: { unfold log. apply wp_bind, wp_mod. set (e := match body with Some _ => _ | None => _ end).
       assert (HW1 : Work (set_hc_log (hc_log k ++ [e]) k) m r 0 q) by (apply Work_log; [done|by subst e; destruct body]).
       eapply wp_mono; [by eapply wp_Destroy|]. intros [] k' (m' & HA & El & _). exists m'. split; [done|].
       etrans; [apply (quiet_log k e); by subst e; destruct body|]. by apply quiet_same. }
  unfold set_request. apply wp_bind, wp_mod. fold (with_response (info, status, strmap_dup headers) q).
  set (q1 := with_response (info, status, strmap_dup headers) q).
  pose proof (Work_update k m r 0 q q1 HW eq_refl eq_refl) as HW1. set (k1 := set_objects _ k) in *.
  assert (Hresp : response_ok (hc_log k1) r q1 body).
  { exists info, status, (strmap_dup headers), headers, clock, (q_request_info q), (q_eager_cache q), available.
    split_and!; try done. intros name. apply values_copy. }
  destruct body as [[av size]|].
  - apply wp_bind, wp_mod. set (k2 := set_requests (r :: hc_requests k1) k1).
    assert (HW2 : Work k2 m r 0 q1).
    { destruct HW1 as (HI & Hh & Hq). split_and!; [|done|done]. apply Inv_set_requests; [done| |].
      - apply NoDup_cons. split; [done|]. apply (iv_requests _ _ _ _ HI).
      - intros x Hx. rewrite elem_of_cons. naive_solver. }
    apply wp_bind, wp_on_heap, wp_on_rubber.
    eapply wp_mono; [apply (sink_new_matches av size cacheable_size_limit _ m); [apply HW2|apply A6|apply A6|done]|].
    intros c x (a & Hm & Ha). apply wp_bind.
    assert (Edel : delete 0 m = m) by (apply delete_id, (hp_zero _ _ (proj1 (iv_heap _ _ _ _ (proj1 HW2))))).
    rewrite <-Edel in Hm.
    eapply wp_mono; [eapply (wp_sink_result k2 m r 0 q1 x a c _ (av, size)); [done|exact Hm|left|exact A1|exact Hresp| |done]|].
    + destruct Ha as [[-> _]|[[-> ->]|[-> | ->]]]; simpl; [done|by left|done|]. by rewrite A3.
    + intros [] k' (m' & HA & Hqt). unfold log. apply wp_mod. exists m'. split; [by apply AllOk_log|].
      etrans; [exact Hqt|]. by apply quiet_log.
  - apply wp_bind. eapply wp_mono; [apply (wp_Request_Put k1 m r q1 0 0); [done| |done]|].
    + split; [apply A1|split; [done|by left]|]. exists None. split; [by apply response_ok_from|done].
    + intros [] k2 (m2 & HW2 & El2 & Er2). unfold log. apply wp_bind, wp_mod.
      assert (HW3 : Work (set_hc_log (hc_log k2 ++ [Respond status (StringMap_copy headers) NoBody]) k2) m2 r 0 q1) by (by apply Work_log).
      eapply wp_mono; [eapply wp_Destroy; [done|by cbn; rewrite Er2]|]. intros [] k' (m' & HA & El & _). exists m'. split; [done|].
      etrans; [|apply quiet_same; exact El]. etrans; [|by apply quiet_log]. by apply quiet_same.
Qed.

End Steps.
