(* ===== verification/HttpCacheServe.v ===== *)
(** * The HTTP cache: serving, revalidating and new requests

    The operations of [HttpCache] that read documents: what is served has the key of the request and fits its
    headers. *)

From Stdlib Require Import String.
From S2P Require Import Prelude CharUtil StrMap Uri HttpCacheRFC HttpCacheRFCFacts Cache CacheFacts ObjectStore.
From S2P Require Import RubberSink HttpCacheHeap HttpCacheHeapFacts HttpCacheHeapOps HttpCache HttpCacheInv.
From S2P Require Import HttpCacheSteps.

#[local] Open Scope beng_scope.

Section Spec.
Context `{CU : CharUtil} `{UL : UriLib} `{HL : HttpLib} `{HE : HttpCacheEnv}.
Context `{HS : HashSetOrder} `{TL : TrieLaws} `{OL : ObjectStoreLaws}.

(** ** Serving a document *)

(** The body [b] of an answer is the body [data] of the document [d]: the document is open, and the stream shows
    its body; or the body is empty. *)
Definition shows (k : HttpCache) (m : gmap Z (list Z)) (b : response_body) (d : HttpCacheDocument) (data : list Z) : Prop :=
  match b with
  | Cached p s => exists it, hh_docs (hc_heap k) !! p = Some it /\ hi_document it = d /\ i_id s = hi_body it /\
      data = stored_body m it /\ istream_shows m s data /\ p ∈ hc_streams k
  | CachedEmpty _ => data = []
  | NoBody | Upstream => False
  end.

(** A document that satisfies [P] was served with the status [st], the headers [hs] and the body [b] for the key [key]. *)
Definition served (P : HttpCacheDocument -> Prop) (k : HttpCache) (m : gmap Z (list Z)) (key : list Z)
    (headers : StringMap) (st : HttpStatus) (hs : StringMap) (b : response_body) : Prop :=
  exists d data, origin (hc_log k) key d data /\ VaryFits d headers = true /\ d_status d = st /\
    hs = StringMap_copy (d_headers d) /\ P d /\ shows k m b d data.

(** All that was served since [k] is right. *)
Definition serves (P : HttpCacheDocument -> Prop) (k : HttpCache) (key : list Z) (headers : StringMap) (k' : HttpCache) (m' : gmap Z (list Z)) : Prop :=
  exists l, hc_log k' = hc_log k ++ l /\ Forall has_tag l /\
    forall st hs b, Respond st hs b ∈ l -> from_cache b = true -> served P k' m' key headers st hs b.

Lemma quiet_serves P k k' key headers m' : quiet k k' -> serves P k key headers k' m'.
Proof.
  intros (l & El & Hl & Ht). exists l. split; [done|]. split; [done|]. intros st hs b Hin Hb.
  rewrite Forall_forall in Hl. apply Hl in Hin. simpl in Hin. congruence.
Qed.

Lemma serves_trans P k k1 key headers k' m' : quiet k k1 -> serves P k1 key headers k' m' -> serves P k key headers k' m'.
Proof.
  intros (l & El & Hl & Ht) (l' & El' & Ht' & Hl'). exists (l ++ l'). split; [by rewrite El', El, app_assoc|].
  split; [by apply Forall_app|]. intros st hs b [Hin|Hin]%elem_of_app Hb; [|eauto].
  rewrite Forall_forall in Hl. apply Hl in Hin. simpl in Hin. congruence.
Qed.

(** A document that fits. *)
Definition fits (k : HttpCache) (key : list Z) (headers : StringMap) (p : item_ptr) : Prop :=
  exists it i, hh_docs (hc_heap k) !! p = Some it /\ store (hh_cache (hc_heap k)) !! p = Some i /\ item_key i = key /\
    VaryFits (hi_document it) headers = true.

Lemma wp_Serve (P : HttpCacheDocument -> Prop) k m cur fl key headers p : Inv k m cur fl -> Held k -> fits k key headers p ->
  (forall it, hh_docs (hc_heap k) !! p = Some it -> P (hi_document it)) ->
  wp (HttpCache_Serve p) (fun _ k' => exists m', Inv k' m' cur fl /\ Held k' /\ serves P k key headers k' m' /\
    hc_objects k' = hc_objects k /\ hc_requests k' = hc_requests k) k.
Proof.
  intros HI Hh (it & i & Hit & Hi & Hkey & Hf) HP. unfold HttpCache_Serve. apply wp_bind, wp_on_heap.
  eapply wp_mono; [apply (wp_Heap_OpenStream p it i _ m); [apply HI|done|done]|].
  intros b h' (m' & HI' & Hev & Hb). apply wp_bind. destruct b as [s|].
  - destruct Hb as (Hc & Es & b & Hb' & Hb & Hshow).
    assert (Hit' : hh_docs h' !! p = Some it).
    { rewrite (live_doc _ _ _ _ p Hev HI'); [done|]. rewrite (ic_store _ _ _ _ Hc), lookup_insert_eq. by eexists. }
    apply (wp_document p it); [done|]. apply wp_bind, wp_mod. unfold log. apply wp_mod.
    set (e := Respond _ _ _). set (k1 := set_streams _ _). exists m'.
    assert (Hl1 : leases_ok (hh_cache h') (p :: holders k)) by (eapply leases_lock; [apply Hh|done|done]).
    assert (Hp1 : p :: holders k ≡ₚ holders k1).
    { unfold holders. cbn. by rewrite <-Permutation_middle. }
    assert (HI1 : Inv k1 m' cur fl).
    { apply Inv_streams. eapply Inv_item_changed; [done|done|done|done|done|]. by intros j [= <-]. }
    assert (Hh1 : Held k1).
    { split; [by eapply leases_perm|]. intros r q p' Hq Hp'. cbn in *.
      destruct (proj2 Hh r q p' Hq Hp') as (it2 & i2 & hd & G1 & G2 & G3 & G4 & G5). cbn.
      assert (Hsto : exists i3, store (hh_cache h') !! p' = Some i3 /\ item_key i3 = item_key i2).
      { rewrite (ic_store _ _ _ _ Hc). destruct (decide (p' = p)) as [->|Hne].
        - rewrite lookup_insert_eq. eexists. split; [done|]. cbn. congruence.
        - rewrite lookup_insert_ne by done. eauto. }
      destruct Hsto as (i3 & G6 & G7). exists it2, i3, hd. split; [|split; [done|split; [congruence|done]]].
      cbn. rewrite (live_doc _ _ _ _ p' Hev HI'); [done|by eexists]. }
    split_and!; [by apply Inv_log|by apply Held_log| |done|done].
    exists [e]. split; [done|]. split; [by apply Forall_singleton|].
    intros st hs b' E%list_elem_of_singleton _. injection E as -> -> ->.
    assert (Hsb : stored_body m' it = take (Z.to_nat (hi_size it)) b) by (unfold stored_body; by rewrite Hb').
    exists (hi_document it), (stored_body m' it). split_and!; try done; [|by apply HP|].
    + rewrite <-Hkey. apply origin_app. unfold stored_body. rewrite Hb', <-Hb. by apply (iv_origin _ _ _ _ HI p it i).
    + exists it. cbn. rewrite Hsb. split_and!; try done; [by rewrite Es|left].
  - destruct Hb as [Hb ->]. apply (wp_document p it); [done|]. unfold log. apply wp_mod.
    assert (Em : set_heap (hc_heap k) k = k) by (by destruct k). rewrite Em. exists m.
    split_and!; [by apply Inv_log|by apply Held_log| |done|done].
    eexists. split; [reflexivity|]. split; [by apply Forall_singleton|].
    intros st hs b' E%list_elem_of_singleton _. injection E as -> -> ->.
    exists (hi_document it), (stored_body m it). split_and!; try done; [|by apply HP|].
    + rewrite <-Hkey. apply origin_app. by apply (iv_origin _ _ _ _ HI p it i).
    + cbn. unfold stored_body. rewrite Hb, (hp_zero _ _ (proj1 (iv_heap _ _ _ _ HI))). apply take_nil.
Qed.

Lemma wp_check_request k info p it (Q : bool -> HttpCache -> Prop) : hh_docs (hc_heap k) !! p = Some it ->
  Q true k -> (forall st hs, Q false (set_hc_log (hc_log k ++ [Respond st hs NoBody]) k)) -> wp (check_request info p) Q k.
Proof.
  intros Hp HQ HQ'. unfold check_request. apply wp_bind, (wp_document p it); [done|].
  destruct (CheckCacheRequest info (hi_document it)) as [[st hs]|]; [|by apply wp_ret].
  unfold log. by apply wp_bind, wp_mod, wp_ret.
Qed.

(** [HttpCacheRequest::Serve()], and the end of the request. *)
Lemma wp_respond_cached k m r q p headers : Work k m r 0 q -> (r ∉ hc_requests k) -> q_document q = Some p ->
  fits k (q_key q) headers p ->
  wp (respond_cached r) (fun _ k' => exists m', AllOk k' m' /\ serves (fun _ => True) k (q_key q) headers k' m') k.
Proof.
  intros HW Hr Hp Hf. unfold respond_cached, Request_Serve. apply wp_bind, wp_bind, (wp_request r q); [apply HW|].
  apply wp_bind. eapply wp_opt; [exact Hp|]. apply wp_bind. pose proof Hf as (it & i & Hit & _).
  eapply wp_check_request; [done| |intros st hs].
  - eapply wp_mono; [apply (wp_Serve (fun _ => True) k m (Some r) 0 (q_key q) headers p); [apply HW|apply HW|done|done]|].
    intros [] k1 (m1 & HI1 & Hh1 & Hs1 & Eo & Er). assert (HW1 : Work k1 m1 r 0 q) by (split_and!; [done|done|]; rewrite Eo; apply HW).
    eapply wp_mono; [eapply wp_Destroy; [done|by rewrite Er]|]. intros [] k2 (m2 & HA & El & Est & Hk). exists m2. split; [done|].
    destruct Hs1 as (l & El1 & Ht & Hl). exists l. split; [congruence|]. split; [done|]. intros st hs b Hin Hb.
    destruct (Hl st hs b Hin Hb) as (d & data & G1 & G2 & G3 & G4 & G5 & G6). exists d, data.
    split_and!; try done; [by rewrite El|]. destruct b as [| |p' s|p']; try done.
    destruct G6 as (it1 & D1 & D2 & D3 & -> & D5 & D6).
    assert (Hin' : p' ∈ holders k2) by (apply elem_of_app; right; by rewrite Est).
    destruct (proj2 (proj1 Hh1) p') as [i1 D7]; [apply elem_of_app; right; done|].
    destruct (Hk p' it1 i1 Hin' D1 D7) as (K1 & K2 & _).
    exists it1. assert (Esb : stored_body m2 it1 = stored_body m1 it1) by (unfold stored_body; by rewrite K2).
    rewrite Esb. split_and!; try done; [|by rewrite Est].
    unfold istream_shows in *. by rewrite D3, K2, <-D3.
  - apply wp_ret. assert (HW1 : Work (set_hc_log (hc_log k ++ [Respond st hs NoBody]) k) m r 0 q) by (by apply Work_log).
    eapply wp_mono; [eapply wp_Destroy; [done|done]|]. intros [] k2 (m2 & HA & El & _). exists m2. split; [done|].
    apply quiet_serves. etrans; [by apply (quiet_log k (Respond st hs NoBody))|]. by apply quiet_same.
Qed.

(** ** Revalidation *)

(** A document changes, but not what it fits; its headers may be updated. *)
Definition same_variant (l : list cache_log) (d d' : HttpCacheDocument) : Prop :=
  d_vary d' = d_vary d /\ d_status d' = d_status d /\ r_vary (d_info d') = r_vary (d_info d) /\
  (forall data resp, headers_from l data resp (d_headers d) -> headers_from l data resp (d_headers d')) /\
  forall info, expires_from l info (r_expires (d_info d)) -> expires_from l info (r_expires (d_info d')).

Lemma Inv_with_document k m cur fl p it d : Inv k m cur fl -> hh_docs (hc_heap k) !! p = Some it ->
  same_variant (hc_log k) (hi_document it) d -> Inv (set_heap (with_document p it d (hc_heap k)) k) m cur fl.
Proof.
  intros [H1 H3 H4 H5 H6 H7 H8 H9 H10 H11 H12] Hp (V1 & V2 & V3 & V4 & V5).
  assert (Hown : forall q id, owner (hh_docs (with_document p it d (hc_heap k))) q id <-> owner (hh_docs (hc_heap k)) q id).
  { intros q id. by apply with_document_owner. }
  split; cbn [set_heap hc_heap hc_requests hc_objects hc_next hc_log]; try done.
  - by apply with_document_inv.
  - intros r s Hs. destruct (H6 r s Hs) as [Hn Hd]. split; [|done]. intros q Ho. apply Hown in Ho. by apply (Hn q).
  - intros id Hid. destruct (H9 id Hid) as [[q Hq]|?]; [left; exists q; by apply Hown|by right].
  - intros Hz. destruct (H10 Hz) as (A & B & C & D). split_and!; try done. intros q Ho. apply Hown in Ho. by apply (C q).
  - intros q jt i Hq Hi. cbn in Hq. destruct (decide (q = p)) as [->|Hne].
    + rewrite lookup_insert_eq in Hq. injection Hq as <-. specialize (H12 p it i Hp Hi).
      destruct H12 as (r & hd & resp & body & info & clock & ri & eager & av & O1 & O2 & O3 & O4 & O5 & O6 & O7 & O8).
      exists r, hd, resp, body, info, clock, ri, eager, av. cbn. rewrite V1, V2, V3. split_and!; try done; [by apply V4|by apply V5].
    + rewrite lookup_insert_ne in Hq by done. by apply (H12 q).
Qed.

Lemma fits_with_document k key headers p it d q : fits k key headers q -> hh_docs (hc_heap k) !! p = Some it ->
  same_variant (hc_log k) (hi_document it) d -> fits (set_heap (with_document p it d (hc_heap k)) k) key headers q.
Proof.
  intros (jt & i & Hj & Hi & Hk & Hf) Hp (V1 & _). destruct (decide (q = p)) as [->|Hne].
  - exists (set_document d it), i. cbn. rewrite lookup_insert_eq. split; [done|]. split; [done|]. split; [done|].
    unfold VaryFits in *. cbn. rewrite V1. congruence.
  - exists jt, i. cbn. by rewrite lookup_insert_ne by done.
Qed.

Lemma Held_with_document k p it d : Held k -> hh_docs (hc_heap k) !! p = Some it -> same_variant (hc_log k) (hi_document it) d ->
  Held (set_heap (with_document p it d (hc_heap k)) k).
Proof.
  intros [Hl Hd] Hp (V1 & _). apply Held_heap; [done|done|]. intros q Hq jt i Hj Hi. cbn.
  destruct (decide (q = p)) as [->|Hne].
  - exists (set_document d it), i. rewrite lookup_insert_eq. split; [done|]. split; [|done]. cbn. congruence.
  - exists jt, i. by rewrite lookup_insert_ne by done.
Qed.

(** What a working request keeps while its document is updated. *)
Definition updated (k : HttpCache) (r : req_ptr) (q : HttpCacheRequest) (key : list Z) (headers : StringMap) (p : item_ptr)
    (k' : HttpCache) : Prop :=
  exists m', Work k' m' r 0 q /\ hc_log k' = hc_log k /\ hc_requests k' = hc_requests k /\ fits k' key headers p.

Lemma wp_update_headers k m r q key headers p resp name : Work k m r 0 q -> fits k key headers p ->
  Answer r 304 resp None ∈ hc_log k -> name = str "expires" \/ name = str "cache-control" ->
  wp (Doc_SetHeaders p (UpdateHeader resp name)) (fun _ h => updated k r q key headers p (set_heap h k)) (hc_heap k).
Proof.
  intros (HI & Hh & Hq) Hf Hans Hname. pose proof Hf as (it & i & Hit & Hi & _).
  eapply wp_mono; [apply (wp_Doc_SetHeaders p it _ _ m); [apply HI|done]|]. intros [] h' [_ ->]. exists m.
  assert (Hv : same_variant (hc_log k) (hi_document it) (mkDocument (d_info (hi_document it)) (d_vary (hi_document it))
    (d_status (hi_document it)) (UpdateHeader resp name (d_headers (hi_document it))))).
  { split_and!; try done. intros data resp0 Hfrom. cbn. by eapply headers_from_update. }
  split_and!; [split_and!|done|done|by apply fits_with_document].
  - by apply Inv_with_document.
  - by apply Held_with_document.
  - done.
Qed.

Lemma wp_update_expires k m r q key headers p steady_now system_now e : Work k m r 0 q -> q_document q = Some p ->
  fits k key headers p -> (forall info, expires_from (hc_log k) info e) ->
  wp (Item_SetExpires p steady_now system_now e) (fun _ h => updated k r q key headers p (set_heap h k)) (hc_heap k).
Proof.
  intros (HI & Hh & Hq) Hp Hf Hexp. pose proof Hf as (it & i & Hit & Hi & _).
  eapply wp_mono; [apply (wp_Item_SetExpires p it i steady_now system_now e _ m); [apply HI|done|done]|].
  intros [] h' (m' & HI' & Hev & Hc). set (d := set_info_expires e (hi_document it)) in *.
  assert (Hv : same_variant (hc_log k) (hi_document it) d) by done.
  pose proof (Inv_with_document k m _ 0 p it d HI Hit Hv) as HI1. pose proof (Held_with_document k p it d Hh Hit Hv) as Hh1.
  pose proof (fits_with_document k key headers p it d p Hf Hit Hv) as Hf1.
  set (k1 := set_heap (with_document p it d (hc_heap k)) k) in *.
  assert (E : set_heap h' k1 = set_heap h' k) by done. rewrite <-E. exists m'.
  assert (Hkey : forall j, Some (mkCacheItem (item_key i) (http_cache_calc_expires steady_now system_now e (d_vary (hi_document it)))
        (item_size i) (item_leases i)) = Some j -> item_key j = item_key i) by (by intros j [= <-]).
  assert (Hsame : forall p', is_Some (store (hh_cache (hc_heap k1)) !! p') -> same_item (hc_heap k1) h' p').
  { intros p' _ jt j Hj Hst. exists jt.
    assert (Hs' : exists j', store (hh_cache h') !! p' = Some j' /\ item_key j' = item_key j).
    { rewrite (ic_store _ _ _ _ Hc). cbn in Hst. destruct (decide (p' = p)) as [->|Hne].
      - rewrite lookup_insert_eq. eexists. split; [done|]. cbn. congruence.
      - rewrite lookup_insert_ne by done. eauto. }
    destruct Hs' as (j' & Hj' & Ek). exists j'. split; [|done]. rewrite (live_doc _ _ _ _ p' Hev HI'); [done|by eexists]. }
  split_and!; [split_and!| | |].
  - eapply (Inv_item_changed k1 m); [done|done|done|exact Hc|done|done].
  - apply Held_heap; [apply Hh1| |].
    + destruct Hh1 as [[L1 L2] _]. split.
      * intros p' j Hj. rewrite (ic_store _ _ _ _ Hc) in Hj. destruct (decide (p' = p)) as [->|Hne].
        -- rewrite lookup_insert_eq in Hj. injection Hj as <-. cbn. by apply L1.
        -- rewrite lookup_insert_ne in Hj by done. by apply L1.
      * intros p' Hp'. destruct (L2 p' Hp') as [j Hj]. rewrite (ic_store _ _ _ _ Hc).
        destruct (decide (p' = p)) as [->|Hne]; [rewrite lookup_insert_eq; by eexists|]. rewrite lookup_insert_ne by done. by exists j.
    + intros p' Hp'. apply Hsame. by apply (proj2 (proj1 Hh1)).
  - done.
  - done.
  - done.
  - destruct Hf1 as (jt & j & Hj & Hst & Hk2 & Hfit). destruct (Hsame p ltac:(eauto) jt j Hj Hst) as (jt' & j' & G1 & G2 & G3 & G4).
    exists jt', j'. split; [done|]. split; [done|]. split; [congruence|]. unfold VaryFits in *. by rewrite G2.
Qed.

Lemma wp_not_modified k m r q p headers key rh clock steady_now system_now : Work k m r 0 q -> q_document q = Some p ->
  fits k key rh p -> Answer r 304 headers None ∈ hc_log k ->
  wp (not_modified clock steady_now system_now q p headers) (fun _ k' => updated k r q key rh p k') k.
Proof.
  intros HW Hp Hf Hans. unfold not_modified.
  assert (Hsame : updated k r q key rh p k) by (exists m; done).
  destruct (http_cache_response_evaluate _ _ _ _ _ _) as [info|] eqn:Ev; [|by apply wp_ret].
  destruct (system_now <=? r_expires info); [|by apply wp_ret]. apply wp_on_heap, wp_bind.
  eapply wp_mono; [apply (wp_update_expires k m); [done|done|done|]|].
  { intros info0. right. by exists r, headers, clock, (q_request_info q), (q_eager_cache q), info. }
  intros [] h1 (m1 & HW1 & El1 & Er1 & Hf1). apply wp_bind.
  set (k1 := set_heap h1 k) in *.
  eapply wp_mono; [apply (wp_update_headers k1 m1 r q key rh p headers); [done|done|by rewrite El1|by left]|]. intros [] h2 (m2 & HW2 & El2 & Er2 & Hf2).
  set (k2 := set_heap h2 k1) in *.
  eapply wp_mono; [apply (wp_update_headers k2 m2 r q key rh p headers); [done|done|by rewrite El2, El1|by right]|]. intros [] h3 (m3 & HW3 & El3 & Er3 & Hf3).
  exists m3. done.
Qed.

(** ** Answers of the next loader *)

Definition any_document (d : HttpCacheDocument) : Prop := True.

Lemma fits_log k key headers p e : fits k key headers p -> fits (set_hc_log (hc_log k ++ [e]) k) key headers p.
Proof. done. Qed.

Lemma serves_eq P k k1 key headers k' m' : hc_log k1 = hc_log k -> serves P k1 key headers k' m' -> serves P k key headers k' m'.
Proof. intros E. apply serves_trans. by apply quiet_same. Qed.

Lemma wp_OnHttpResponse k m r q clock pool_size steady_now system_now status headers body :
  AllOk k m -> hc_objects k !! r = Some q -> q_sink q = None -> http_status_is_valid status = true ->
  match body with
  | Some (available, size) => known_size available size /\ honest_estimate cacheable_size_limit available size
  | None => True
  end -> 0 < pool_size ->
  (is_Some (q_document q) -> status = 304 -> body = None) ->
  wp (Request_OnHttpResponse clock pool_size steady_now system_now r status headers body)
    (fun _ k' => exists m' rh, AllOk k' m' /\ Begin r (q_key q) rh ∈ hc_log k /\ serves any_document k (q_key q) rh k' m') k.
Proof.
  intros [HI Hh] Hq Hs Hst Hsz Hpool H304.
  destruct (iv_request _ _ _ _ HI r q Hq ltac:(done)) as [Hok Hn]. destruct (Hn Hs) as [_ Hin].
  destruct (Inv_focus k m r q HI Hq Hs) as [HI1 Hr].
  assert (HW : Work k m r 0 q) by (split_and!; done).
  unfold Request_OnHttpResponse. apply wp_bind, (wp_request r q); [done|]. unfold log. apply wp_bind, wp_mod.
  set (e := Answer r status headers body).
  assert (HW1 : Work (set_hc_log (hc_log k ++ [e]) k) m r 0 q) by (apply Work_log; [done|by eapply Work_next]).
  assert (Hqt : quiet k (set_hc_log (hc_log k ++ [e]) k)) by (by apply quiet_log).
  set (k1 := set_hc_log _ k) in *.
  assert (Han : forall k2, hc_log k2 = hc_log k1 -> hc_requests k2 = hc_requests k1 -> answered k2 r q status headers body).
  { intros k2 El Er. split; rewrite ?El, ?Er; try done.
    - by apply request_ok_app.
    - cbn. rewrite inputs_of_app, Hin. done.
    - apply elem_of_app. right. by apply list_elem_of_singleton. }
  destruct (q_document q) as [p|] eqn:Ep.
  - destruct (proj2 Hh r q p Hq Ep) as (it & i & rh & Hit & Hi & Hkey & Hbeg & Hfit).
    assert (Hf : fits k1 (q_key q) rh p) by (exists it, i; done).
    destruct (status =? 304) eqn:E3; simpl_bool.
    + assert (body = None) as -> by (by apply H304). subst status. apply wp_bind, wp_assert; [done|]. apply wp_bind.
      eapply wp_mono; [apply (wp_not_modified k1 m r q p headers (q_key q) rh); [done|done|done|]|].
      { apply elem_of_app. right. by apply list_elem_of_singleton. }
      intros [] k2 (m2 & HW2 & El2 & Er2 & Hf2).
      eapply wp_mono; [eapply (wp_respond_cached k2 m2 r q p rh); [done|by rewrite Er2|done|done]|].
      intros [] k3 (m3 & HA & Hsv). exists m3, rh. split; [done|]. split; [done|].
      apply (serves_trans _ k k1); [done|]. by eapply serves_eq.
    + apply wp_bind, (wp_document p it); [done|]. destruct (http_cache_prefer_cached (hi_document it) headers).
      * eapply wp_mono; [by eapply (wp_respond_cached k1 m r q p rh)|]. intros [] k3 (m3 & HA & Hsv).
        exists m3, rh. split; [done|]. split; [done|]. by apply (serves_trans _ k k1).
      * apply wp_bind, wp_on_heap. eapply wp_mono; [apply (wp_Heap_Remove p _ m); [apply HW1|by eexists]|].
        intros [] h2 (m2 & Hst2 & _). pose proof (Work_step k1 m r 0 q h2 m2 HW1 Hst2) as HW2.
        eapply wp_mono; [by eapply (wp_store_response _ m2 r q); [done|apply Han|]|]. intros [] k3 (m3 & HA & Hq3).
        exists m3, rh. split; [done|]. split; [done|]. apply quiet_serves. by etrans.
  - destruct Hok as [_ (rh & Hbeg & _)].
    eapply wp_mono; [by eapply (wp_store_response _ m r q); [done|apply Han|]|]. intros [] k3 (m3 & HA & Hq3).
    exists m3, rh. split; [done|]. split; [done|]. apply quiet_serves. by etrans.
Qed.

(** ** New requests *)

Lemma fresh_inputs k m r : Inv k m None 0 -> (hc_next k <= r)%nat -> inputs_of r (hc_log k) = [].
Proof.
  intros HI Hr. destruct (inputs_of r (hc_log k)) as [|i l] eqn:E; [done|].
  assert (Hin : i ∈ inputs_of r (hc_log k)) by (rewrite E; left).
  apply list_elem_of_omap in Hin as (e & He & Hi). destruct e as [| | | | |r' j| |]; try done.
  destruct (r' =? r)%nat eqn:Er; [|done]. apply Nat.eqb_eq in Er as ->.
  pose proof (iv_log _ _ _ _ HI (Input r j) r He eq_refl). lia.
Qed.

(** The state with a new waiting request. *)
Definition with_request (q : HttpCacheRequest) (headers : StringMap) (k : HttpCache) : HttpCache :=
  set_hc_log (hc_log k ++ [Begin (hc_next k) (q_key q) headers])
    (set_objects (<[hc_next k := q]> (hc_objects k)) (set_hc_next (S (hc_next k)) k)).

Definition new_request (q : HttpCacheRequest) (headers : StringMap) : Prop :=
  q_sink q = None /\ q_response q = None /\ q_cancel q = true /\ q_request_headers q = StringMap_copy headers.

Lemma fresh_object k m cur fl : Inv k m cur fl -> hc_objects k !! hc_next k = None.
Proof.
  intros HI. destruct (hc_objects k !! hc_next k) eqn:E; [|done]. pose proof (iv_fresh _ _ _ _ HI _ _ E). lia.
Qed.

Lemma Inv_new_request k m q headers : Inv k m None 0 -> new_request q headers -> Inv (with_request q headers k) m None 0.
Proof.
  intros HI (Q1 & Q2 & Q3 & Q4). pose proof (fresh_object _ _ _ _ HI) as Hf.
  pose proof (fresh_inputs k m (hc_next k) HI ltac:(lia)) as Hin. destruct HI as [H1 H3 H4 H5 H6 H7 H8 H9 H10 H11 H12].
  set (r := hc_next k) in *.
  assert (Hlog : forall r', inputs_of r' (hc_log k ++ [Begin r (q_key q) headers]) = inputs_of r' (hc_log k)).
  { intros r'. rewrite inputs_of_app. apply app_nil_r. }
  assert (Hobj : forall r' q', <[r := q]> (hc_objects k) !! r' = Some q' -> r' = r /\ q' = q \/ r' <> r /\ hc_objects k !! r' = Some q').
  { intros r' q'. destruct (decide (r' = r)) as [->|Hne]; [rewrite lookup_insert_eq; intros [= <-]; by left|].
    rewrite lookup_insert_ne by done. by right. }
  assert (Hsk : forall r' s, sinks (with_request q headers k) None r' s <-> sinks k None r' s).
  { intros r' s. unfold sinks. cbn. split; intros (_ & q' & Hq' & Hs); (split; [done|]); exists q'; (split; [|done]).
    - apply Hobj in Hq' as [[-> ->]|[_ ?]]; [congruence|done].
    - rewrite lookup_insert_ne; [done|]. intros <-. fold r in Hq'. congruence. }
  split; cbn; try done.
  - intros r' q' [[-> ->]|[Hne Hq']]%Hobj; [lia|]. apply H3 in Hq'. fold r in Hq'. lia.
  - split; [apply H4|]. intros r' Hr'. setoid_rewrite Hsk. by apply H4.
  - intros r' q' [[-> ->]|[Hne Hq']]%Hobj _; rewrite Hlog.
    + split; [|done]. split; [done|]. exists headers. split; [|done]. apply elem_of_app. right. by apply list_elem_of_singleton.
    + destruct (H5 r' q' Hq' ltac:(done)) as [Hok Hn]. split; [by apply request_ok_app|done].
  - intros r' s Hr'. apply Hsk in Hr'. destruct (H6 r' s Hr') as (Hn & data & Hd & Hi). split; [done|]. exists data.
    by rewrite Hlog.
  - intros r' q' s [[-> ->]|[Hne Hq']]%Hobj Hs _; [congruence|]. destruct (H7 r' q' s Hq' Hs ltac:(done)) as [body Hb].
    exists body. by apply response_ok_app.
  - intros r1 r2 s1 s2 Hs1 Hs2. apply Hsk in Hs1, Hs2. by apply H8.
  - intros id Hid. destruct (H9 id Hid) as [?|[(r' & s & Hr' & E)|?]]; [by left| |by right; right].
    right. left. exists r', s. by rewrite Hsk.
  - intros e r' [Hin'|Hin']%elem_of_app Hr'; [specialize (H11 e r' Hin' Hr'); fold r in H11; lia|].
    apply list_elem_of_singleton in Hin' as ->. simpl in Hr'. lia.
  - intros p it i Hp Hi. by apply origin_app, (H12 p it i).
Qed.

(** A document that fits is locked. *)
Lemma wp_lock k m p i : Inv k m None 0 -> Held k -> store (hh_cache (hc_heap k)) !! p = Some i ->
  wp (Heap_Lock p) (fun _ h' => exists m', Inv (set_heap h' k) m' None 0 /\ leases_ok (hh_cache h') (p :: holders k) /\
    forall p', is_Some (store (hh_cache (hc_heap k)) !! p') -> same_item (hc_heap k) h' p' /\
      hh_docs h' !! p' = hh_docs (hc_heap k) !! p') (hc_heap k).
Proof.
  intros HI Hh Hi. eapply wp_mono; [apply (wp_Heap_Lock p i _ m); [apply HI|done]|].
  intros [] h' (m' & HI' & Hev & Hc). exists m'. split; [|split].
  - eapply (Inv_item_changed k m); [done|done|done|done|done|]. by intros j [= <-].
  - eapply leases_lock; [apply Hh|done|done].
  - intros p' [j0 Hj0]. assert (Hs' : exists j', store (hh_cache h') !! p' = Some j' /\ item_key j' = item_key j0).
    { rewrite (ic_store _ _ _ _ Hc). destruct (decide (p' = p)) as [->|Hne].
      - rewrite lookup_insert_eq. eexists. split; [done|]. cbn. congruence.
      - rewrite lookup_insert_ne by done. eauto. }
    destruct Hs' as (j' & Hj' & Ek). assert (Hd : hh_docs h' !! p' = hh_docs (hc_heap k) !! p').
    { by rewrite (live_doc _ _ _ _ p' Hev HI'); [|eexists]. }
    split; [|done]. intros jt j Hj Hst. exists jt, j'. rewrite Hd. split_and!; try done. congruence.
Qed.

Lemma Held_new_request k q headers : leases_ok (hh_cache (hc_heap k)) (option_list (q_document q) ++ holders k) ->
  held_docs k -> hc_objects k !! hc_next k = None ->
  (forall p, q_document q = Some p -> fits k (q_key q) headers p) -> Held (with_request q headers k).
Proof.
  intros Hl Hd Hf Hq. split.
  - cbn. eapply leases_perm; [|exact Hl]. unfold holders. cbn. fold (docs_held (hc_objects k)).
    fold (docs_held (<[hc_next k := q]> (hc_objects k))). rewrite docs_held_insert by done. by rewrite app_assoc.
  - intros r' q' p Hq' Hp. cbn in *. destruct (decide (r' = hc_next k)) as [->|Hne].
    + rewrite lookup_insert_eq in Hq'. injection Hq' as <-. destruct (Hq p Hp) as (it & i & G1 & G2 & G3 & G4).
      exists it, i, headers. split_and!; try done. apply elem_of_app. right. by apply list_elem_of_singleton.
    + rewrite lookup_insert_ne in Hq' by done. destruct (Hd r' q' p Hq' Hp) as (it & i & hd & G1 & G2 & G3 & G4 & G5).
      exists it, i, hd. split_and!; try done. apply elem_of_app. by left.
Qed.

Lemma wp_Request_new k m params key headers info doc : AllOk k m ->
  (forall p, doc = Some p -> fits k key headers p) ->
  wp (Request_new params key headers info doc) (fun r k' => exists m', AllOk k' m' /\ quiet k k' /\
    forall p, doc = Some p -> is_Some (hh_docs (hc_heap k') !! p)) k.
Proof.
  intros [HI Hh] Hdoc. unfold Request_new. apply wp_bind, wp_gets, wp_bind, wp_mod.
  set (q := mkRequest (p_cache_tag params) key (StringMap_copy headers) info doc (p_eager_cache params) true None None).
  assert (Hnew : new_request q headers) by done. pose proof (fresh_object _ _ _ _ HI) as Hf.
  assert (Hrest : forall k1 m1, Inv k1 m1 None 0 -> hc_next k1 = hc_next k -> hc_log k1 = hc_log k ->
    Held (with_request q headers k1) -> (forall p, doc = Some p -> is_Some (hh_docs (hc_heap k1) !! p)) ->
    wp (set_request (hc_next k) q ;;; log (Begin (hc_next k) key headers) ;;; mret (hc_next k)) (fun r k' => exists m', AllOk k' m' /\
      quiet k k' /\ forall p, doc = Some p -> is_Some (hh_docs (hc_heap k') !! p)) (set_hc_next (S (hc_next k)) k1)).
  { intros k1 m1 HI1 En El Hh1 Hd1. unfold set_request, log. apply wp_bind, wp_mod, wp_bind, wp_mod, wp_ret.
    assert (E : set_hc_log (hc_log (set_objects (<[hc_next k := q]> (hc_objects (set_hc_next (S (hc_next k)) k1))) (set_hc_next (S (hc_next k)) k1))
      ++ [Begin (hc_next k) key headers]) (set_objects (<[hc_next k := q]> (hc_objects (set_hc_next (S (hc_next k)) k1))) (set_hc_next (S (hc_next k)) k1))
      = with_request q headers k1) by (unfold with_request; by rewrite En).
    rewrite E. exists m1. split; [split; [by apply Inv_new_request|done]|]. split; [|done].
    exists [Begin (hc_next k1) key headers]. split; [cbn; by rewrite El|]. by rewrite !Forall_singleton. }
  destruct doc as [p|].
  - destruct (Hdoc p eq_refl) as (it & i & Hit & Hi & Hk & Hfit). apply wp_bind, wp_on_heap.
    eapply wp_mono; [by apply (wp_lock k m p i)|]. intros [] h' (m' & HI' & Hl' & Hsame).
    apply (Hrest (set_heap h' k) m'); [done|done|done| |].
    + apply Held_new_request; [exact Hl'| |done|].
      * destruct Hh as [Hl Hd]. intros r' q' p' Hq' Hp'.
        destruct (Hd r' q' p' Hq' Hp') as (it2 & i2 & hd & G1 & G2 & G3 & G4 & G5).
        destruct (proj1 (Hsame p' ltac:(eauto)) it2 i2 G1 G2) as (it3 & i3 & K1 & K2 & K3 & K4).
        exists it3, i3, hd. split_and!; try done; [congruence|]. unfold VaryFits in *. by rewrite K2.
      * intros p' [= <-]. destruct (proj1 (Hsame p ltac:(eauto)) it i Hit Hi) as (it3 & i3 & K1 & K2 & K3 & K4).
        exists it3, i3. split_and!; try done; [cbn; congruence|]. unfold VaryFits in *. by rewrite K2.
    + intros p' [= <-]. cbn. rewrite (proj2 (Hsame p ltac:(eauto))). by eexists.
  - apply wp_bind, wp_ret. apply (Hrest k m); [done|done|done| |done]. apply Held_new_request; [apply Hh|apply Hh|done|done].
Qed.

End Spec.
