(* ===== verification/HttpCacheSpec.v ===== *)
(** * The HTTP cache: theorems

    The cache runs on events: requests of callers, answers and errors of the next loader, data of response
    bodies, closed streams, timers and commands.  The theorems are about every sequence of events: no assertion
    fails, all memory is accounted for, and what is served from the cache is a complete response to a
    matching request. *)

From Stdlib Require Import String.
From S2P Require Import Prelude Rubber RubberSpec ObjectStore Cache CacheFacts CharUtil StrMap Uri.
From S2P Require Import HttpCacheRFC UriInstance HttpCacheRFCFacts RubberSink HttpCacheHeap.
From S2P Require Import HttpCacheHeapFacts HttpCacheHeapOps HttpCache HttpCacheInv HttpCacheSteps.
From S2P Require Import HttpCacheServe.

#[local] Open Scope beng_scope.

(** ** Events *)

Inductive event :=
(** a request of a caller *)
| EStart (steady_now system_now : Z) (params : ResourceRequestParams) (method : HttpMethod)
    (address : ResourceAddress) (headers : StringMap) (has_body : bool)
(** the next loader answers a request, or fails *)
| EResponse (clock : nat -> Z) (pool_size steady_now system_now : Z) (r : req_ptr) (status : HttpStatus)
    (headers : StringMap) (body : body_size)
| EError (r : req_ptr)
| ECancel (r : req_ptr)
(** the body of a response that is stored delivers something *)
| EInput (pool_size steady_now system_now : Z) (r : req_ptr) (i : sink_input)
(** the response to a request with [AutoFlushHttpCacheRequest] *)
| EAutoFlush (tag : option (list Z)) (status : HttpStatus) (headers : StringMap) (has_body : bool)
(** a caller closes the body of a document *)
| EClose (p : item_ptr)
| EFlush
| EFlushTag (tag : list Z)
| ECompress
| EExpire (now : Z).

Section Spec.
Context `{CU : CharUtil} `{UL : UriLib} `{HL : HttpLib} `{HE : HttpCacheEnv}.
Context `{HS : HashSetOrder} `{TL : TrieLaws} `{OL : ObjectStoreLaws}.

Definition exec (e : event) : M HttpCache unit :=
  match e with
  | EStart steady_now system_now params method address headers has_body =>
      HttpCache_Start steady_now system_now params method address headers has_body
  | EResponse clock pool_size steady_now system_now r status headers body =>
      Request_OnHttpResponse clock pool_size steady_now system_now r status headers body
  | EError r => Request_OnHttpError r
  | ECancel r => Request_Cancel r
  | EInput pool_size steady_now system_now r i => Request_Input pool_size steady_now system_now r i
  | EAutoFlush tag status headers has_body => AutoFlush_OnHttpResponse tag status headers has_body
  | EClose p => CloseStream p
  | EFlush => HttpCache_Flush
  | EFlushTag tag => HttpCache_FlushTag tag
  | ECompress => OnCompressTimer
  | EExpire now => on_heap (Heap_Expire now) ;;; mret tt
  end.

(** What may happen: answers come for requests that wait for one, data for requests that store one, with valid status
    codes and with the sizes that [GetAvailable()] may report; a "304 Not Modified" that answers a revalidation has no body.
    A caller who asks for [AUTO_FLUSH_CACHE] gives a cache tag.  An [AutoFlushHttpCacheRequest] gets its answer after it was
    created, and closed streams were open. *)
Definition legal (k : HttpCache) (e : event) : Prop :=
  match e with
  | EStart _ _ params _ _ _ _ => p_auto_flush_cache params = true -> is_Some (p_cache_tag params)
  | EResponse _ pool_size _ _ r status _ body =>
      exists q, hc_objects k !! r = Some q /\ q_sink q = None /\ http_status_is_valid status = true /\
        match body with
        | Some (available, size) => known_size available size /\ honest_estimate cacheable_size_limit available size
        | None => True
        end /\ 0 < pool_size /\
        (is_Some (q_document q) -> status = 304 -> body = None)
  | EError r | ECancel r => exists q, hc_objects k !! r = Some q /\ q_sink q = None
  | EInput pool_size _ _ r i =>
      exists q s, hc_objects k !! r = Some q /\ q_sink q = Some s /\ legal_input i /\ i <> InCancel /\ 0 < pool_size
  | EAutoFlush tag _ _ _ => exists method headers has_body, ForwardFlush tag method headers has_body ∈ hc_log k
  | EClose p => p ∈ hc_streams k
  | _ => True
  end.

(** The request that an event may answer: its key and its headers, and the documents that may be used. *)
Definition asks (k : HttpCache) (e : event) (key : list Z) (headers : StringMap) (P : HttpCacheDocument -> Prop) : Prop :=
  match e with
  | EStart _ system_now params method address h has_body =>
      headers = h /\ (exists key0 info, http_cache_key address (p_address_id params) = Some key0 /\
        key = lhttp_key address h key0 /\
        http_cache_request_evaluate method address h (hc_obey_no_cache k && negb (p_ignore_no_cache params)) has_body = Some info /\
        P = fun d => http_cache_may_serve system_now info d = true)
  | EResponse _ _ _ _ r _ _ _ => Begin r key headers ∈ hc_log k /\ P = any_document
  | _ => False
  end.

(** The result of an event. *)
Definition event_ok (k : HttpCache) (e : event) (k' : HttpCache) : Prop :=
  exists m', AllOk k' m' /\ (quiet k k' \/ exists key headers P, asks k e key headers P /\ serves P k key headers k' m').

Lemma wp_heap_event {A} (mm : M HttpCacheHeap A) (P : A -> HttpCacheHeap -> Prop) k m :
  AllOk k m -> wp mm (fun a h' => exists m', heap_step (hc_heap k) m h' m' /\ P a h') (hc_heap k) ->
  wp (on_heap mm) (fun a k' => exists m', AllOk k' m' /\ quiet k k' /\ P a (hc_heap k')) k.
Proof.
  intros [HI Hh] Hm. apply wp_on_heap. eapply wp_mono; [exact Hm|]. intros a h' (m' & Hst & HP). exists m'.
  split; [split; [by eapply Inv_heap_step|eapply Held_step; [by left|done|done]]|]. split; [by apply quiet_same|done].
Qed.

(** ** Requests of callers *)

Lemma AllOk_stats k m x : AllOk k m -> AllOk (set_stats x k) m.
Proof. intros [HI Hh]. split; [by apply Inv_stats|done]. Qed.

Lemma wp_Miss k m params key info method headers : AllOk k m ->
  wp (HttpCache_Miss params key info method headers) (fun _ k' => exists m', AllOk k' m' /\ quiet k k') k.
Proof.
  intros HA. unfold HttpCache_Miss, count_miss. apply wp_bind, wp_mod. set (k1 := set_stats _ k).
  assert (HA1 : AllOk k1 m) by (by apply AllOk_stats). destruct (only_if_cached info).
  - unfold log. apply wp_mod. exists m. split; [by apply AllOk_log|]. etrans; [by apply (quiet_same k k1)|]. by apply quiet_log.
  - apply wp_bind. eapply wp_mono; [by apply (wp_Request_new k1 m)|]. intros r k2 (m2 & HA2 & Hq2 & _).
    unfold log. apply wp_mod. exists m2. split; [by apply AllOk_log|].
    etrans; [by apply (quiet_same k k1)|]. etrans; [exact Hq2|]. by apply quiet_log.
Qed.

Lemma wp_Revalidate k m params key info p method headers : AllOk k m -> fits k key headers p ->
  wp (HttpCache_Revalidate params key info p method headers) (fun _ k' => exists m', AllOk k' m' /\ quiet k k') k.
Proof.
  intros HA Hf. unfold HttpCache_Revalidate. apply wp_bind.
  eapply wp_mono; [apply (wp_Request_new k m); [done|]; by intros p' [= <-]|]. intros r k2 (m2 & HA2 & Hq2 & Hd).
  destruct (Hd p eq_refl) as [it Hit]. apply wp_bind, (wp_document p it); [done|].
  unfold log. apply wp_mod. exists m2. split; [by apply AllOk_log|]. etrans; [exact Hq2|]. by apply quiet_log.
Qed.

Lemma wp_Found k m system_now params key info p method headers : AllOk k m -> fits k key headers p ->
  wp (HttpCache_Found system_now params key info p method headers) (fun _ k' => exists m', AllOk k' m' /\
    serves (fun d => http_cache_may_serve system_now info d = true) k key headers k' m') k.
Proof.
  intros HA Hf. unfold HttpCache_Found, count_hit. apply wp_bind, wp_mod. set (k1 := set_stats _ k).
  assert (HA1 : AllOk k1 m) by (by apply AllOk_stats). assert (Hq1 : quiet k k1) by (by apply quiet_same).
  assert (Hf1 : fits k1 key headers p) by done. pose proof Hf1 as (it & i & Hit & Hi & Hk & Hfit).
  assert (Hgo : wp (let! d := document p in
      if http_cache_may_serve system_now info d then HttpCache_Serve p
      else HttpCache_Revalidate params key info p method headers) (fun _ k' => exists m', AllOk k' m' /\
    serves (fun d => http_cache_may_serve system_now info d = true) k key headers k' m') k1).
  { apply wp_bind, (wp_document p it); [done|].
    destruct (http_cache_may_serve system_now info (hi_document it)) eqn:Em.
    - eapply wp_mono; [apply (wp_Serve (fun d => http_cache_may_serve system_now info d = true) k1 m None 0 key headers p);
        [apply HA1|apply HA1|done|]|].
      + intros jt Hj. rewrite Hit in Hj. by injection Hj as <-.
      + intros [] k2 (m2 & HI2 & Hh2 & Hs2 & _). exists m2. split; [by split|]. by eapply serves_trans.
    - eapply wp_mono; [by apply (wp_Revalidate k1 m)|]. intros [] k2 (m2 & HA2 & Hq2). exists m2. split; [done|].
      apply quiet_serves. by etrans. }
  apply wp_bind. destruct (no_cache info); [apply wp_ret; exact Hgo|].
  eapply wp_check_request; [done|exact Hgo|]. intros st hs. apply wp_ret. exists m. split; [by apply AllOk_log|].
  apply quiet_serves. etrans; [exact Hq1|]. by apply quiet_log.
Qed.

Lemma wp_Use k m steady_now system_now params key method headers info : AllOk k m ->
  wp (HttpCache_Use steady_now system_now params key method headers info) (fun _ k' => exists m', AllOk k' m' /\
    serves (fun d => http_cache_may_serve system_now info d = true) k key headers k' m') k.
Proof.
  intros HA. unfold HttpCache_Use. apply wp_bind.
  eapply wp_mono; [apply (wp_heap_event _ (fun r h => match r with Some p => hit steady_now key headers h p | None => True end) k m HA);
    apply wp_Heap_Get, HA|].
  intros r k1 (m1 & HA1 & Hq1 & Hr). destruct r as [p|].
  - destruct Hr as (it & i & Hit & Hfit & Hi & Hk & _). eapply wp_mono; [apply (wp_Found k1 m1); [done|]; by exists it, i|].
    intros [] k2 (m2 & HA2 & Hs). exists m2. split; [done|]. by eapply serves_trans.
  - eapply wp_mono; [by apply (wp_Miss k1 m1)|]. intros [] k2 (m2 & HA2 & Hq2). exists m2. split; [done|].
    apply quiet_serves. by etrans.
Qed.

(** Adding the last entry to the log. *)
Lemma log_ok k m e : AllOk k m -> silent e -> has_tag e -> match e with Begin r _ _ | Answer r _ _ _ | Input r _ => False | _ => True end ->
  wp (log e) (fun _ k' => exists m', AllOk k' m' /\ quiet k k') k.
Proof. intros HA He Ht Hr. unfold log. apply wp_mod. exists m. split; [by apply AllOk_log|by apply quiet_log]. Qed.

Lemma wp_Start k m steady_now system_now params method address headers has_body : AllOk k m ->
  (p_auto_flush_cache params = true -> is_Some (p_cache_tag params)) ->
  wp (HttpCache_Start steady_now system_now params method address headers has_body)
    (fun _ k' => event_ok k (EStart steady_now system_now params method address headers has_body) k') k.
Proof.
  intros HA Htag. unfold HttpCache_Start, event_ok.
  assert (Hfwd : wp (log (Forward method headers has_body)) (fun _ k' => event_ok k (EStart steady_now system_now params
    method address headers has_body) k') k).
  { eapply wp_mono; [by apply (log_ok k m)|]. intros [] k' (m' & HA' & Hq). exists m'. by auto. }
  destruct (http_cache_key address (p_address_id params)) as [key|] eqn:Ek; [|done].
  destruct (8192 <? Z.of_nat (length key)); [done|]. cbv zeta. apply wp_bind, wp_gets.
  destruct (http_cache_request_evaluate method address headers (hc_obey_no_cache k && negb (p_ignore_no_cache params)) has_body)
    as [info|] eqn:Ei.
  - apply wp_bind, wp_assert.
    { unfold http_cache_request_evaluate in Ei. destruct has_body; [|done]. by rewrite orb_true_r in Ei. }
    eapply wp_mono; [by apply (wp_Use k m)|]. intros [] k' (m' & HA' & Hs). exists m'. split; [done|]. right.
    eexists _, _, _. split; [|exact Hs]. split; [done|]. by exists key, info.
  - assert (Hskip : forall k1 m1, AllOk k1 m1 -> wp count_skip (fun _ k2 => exists m2, AllOk k2 m2 /\ quiet k1 k2) k1).
    { intros k1 m1 HA1. unfold count_skip. apply wp_mod. exists m1. split; [by apply AllOk_stats|by apply quiet_same]. }
    assert (Hrm : forall k1 m1, AllOk k1 m1 -> wp (on_heap (Heap_RemoveKey (lhttp_key address headers key) headers))
      (fun _ k2 => exists m2, AllOk k2 m2 /\ quiet k1 k2) k1).
    { intros k1 m1 HA1. eapply wp_mono; [apply (wp_heap_event _ (fun _ _ => True) k1 m1 HA1)|].
      - eapply wp_mono; [apply (wp_Heap_RemoveKey _ _ _ m1), HA1|]. intros [] h' [m' Hm']. by exists m'.
      - intros [] k2 (m2 & HA2 & Hq2 & _). by exists m2. }
    assert (Hdone : forall e k1 m1, AllOk k1 m1 -> quiet k k1 -> silent e -> has_tag e ->
      match e with Begin r _ _ | Answer r _ _ _ | Input r _ => False | _ => True end ->
      wp (log e) (fun _ k' => event_ok k (EStart steady_now system_now params method address headers has_body) k') k1).
    { intros e k1 m1 HA1 Hq1 He Ht Hr. eapply wp_mono; [by apply (log_ok k1 m1)|]. intros [] k3 (m3 & HA3 & Hq3).
      exists m3. split; [done|]. left. by etrans. }
    destruct (p_auto_flush_cache params && IsModifyingMethod method) eqn:Eaf.
    + apply wp_bind. eapply wp_mono; [by apply (Hskip k m)|]. intros [] k1 (m1 & HA1 & Hq1).
      apply wp_bind. eapply wp_mono; [by apply (Hrm k1 m1)|]. intros [] k2 (m2 & HA2 & Hq2).
      apply andb_true_iff in Eaf as [Eaf _]. apply (Hdone _ k2 m2); [done|by etrans|done|by apply Htag|done].
    + apply wp_bind. eapply wp_mono with (Q := fun _ k1 => exists m1, AllOk k1 m1 /\ quiet k k1).
      { destruct (http_cache_request_invalidate method); [by apply (Hrm k m)|]. apply wp_ret. exists m. split; [done|reflexivity]. }
      intros [] k1 (m1 & HA1 & Hq1). apply wp_bind. eapply wp_mono; [by apply (Hskip k1 m1)|]. intros [] k2 (m2 & HA2 & Hq2).
      by apply (Hdone _ k2 m2); [|etrans| | |].
Qed.

(** ** The other events *)

Lemma wp_drop k m r q : AllOk k m -> hc_objects k !! r = Some q -> q_sink q = None ->
  wp (Request_Destroy r) (fun _ k' => exists m', AllOk k' m' /\ quiet k k') k.
Proof.
  intros [HI Hh] Hq Hs. destruct (Inv_focus k m r q HI Hq Hs) as [HI1 Hr].
  eapply wp_mono; [eapply (wp_Destroy k m r q); [split_and!; done|done]|].
  intros [] k' (m' & HA & El & _). exists m'. split; [done|by apply quiet_same].
Qed.

Lemma wp_Close k m p : AllOk k m -> p ∈ hc_streams k ->
  wp (CloseStream p) (fun _ k' => exists m', AllOk k' m' /\ quiet k k') k.
Proof.
  intros [HI Hh] Hp. unfold CloseStream. apply wp_bind, wp_get, wp_bind, wp_assert; [by apply bool_decide_eq_true|].
  apply wp_bind, wp_mod. set (k1 := set_streams (remove_one p (hc_streams k)) k).
  assert (Hp1 : holders k ≡ₚ p :: holders k1).
  { unfold holders. cbn. rewrite (remove_one_perm p (hc_streams k) Hp) at 1. by rewrite Permutation_middle. }
  eapply wp_mono; [apply (unlock_ok k1 m None 0 p (holders k1)); [by apply Inv_streams| |done]|].
  - eapply leases_perm; [exact Hp1|apply Hh].
  - intros [] k' (m' & h' & -> & HI' & Hl' & Hk). exists m'. split; [|by apply quiet_same].
    split; [done|]. apply Held_heap; [apply Hh|done|]. intros p' Hp'. by eapply kept_same_item.
Qed.

Lemma quiet_ok k e (mm : M HttpCache unit) : wp mm (fun _ k' => exists m', AllOk k' m' /\ quiet k k') k ->
  wp mm (fun _ k' => event_ok k e k') k.
Proof. intros H. eapply wp_mono; [exact H|]. intros [] k' (m' & HA & Hq). exists m'. split; [done|by left]. Qed.

Lemma exec_ok k m e : AllOk k m -> Forall has_tag (hc_log k) -> legal k e -> wp (exec e) (fun _ k' => event_ok k e k') k.
Proof.
  intros HA Htags Hl. destruct e as [steady_now system_now params method address headers has_body|clock pool_size steady_now system_now r status headers body
    |r|r|pool_size steady_now system_now r i|tag status headers has_body|p| |tag| |now]; simpl in Hl |- *.
  - by apply (wp_Start k m).
  - destruct Hl as (q & Hq & Hs & Hst & Hsz & Hpool & H304).
    eapply wp_mono; [by apply (wp_OnHttpResponse k m r q)|]. intros [] k' (m' & rh & HA' & Hb & Hsv). exists m'.
    split; [done|]. right. exists (q_key q), rh, any_document. done.
  - destruct Hl as (q & Hq & Hs). apply quiet_ok. unfold Request_OnHttpError. apply wp_bind.
    eapply wp_mono; [by apply (wp_drop k m r q)|]. intros [] k1 (m1 & HA1 & Hq1).
    eapply wp_mono; [by apply (log_ok k1 m1)|]. intros [] k2 (m2 & HA2 & Hq2). exists m2. split; [done|by etrans].
  - destruct Hl as (q & Hq & Hs). apply quiet_ok. by apply (wp_drop k m r q).
  - destruct Hl as (q & s & Hq & Hs & Hi & Hnc & Hpool). apply quiet_ok. by apply (wp_Input k m r q s).
  - destruct Hl as (mt & hs & hb & Hin). rewrite Forall_forall in Htags. apply Htags in Hin as [t ->].
    apply quiet_ok. unfold AutoFlush_OnHttpResponse. apply wp_bind. eapply wp_opt; [done|].
    apply wp_bind. eapply wp_mono with (Q := fun _ k1 => exists m1, AllOk k1 m1 /\ quiet k k1).
    { destruct (negb (http_status_is_error status)); [|apply wp_ret; exists m; split; [done|reflexivity]].
      eapply wp_mono; [apply (wp_heap_event _ (fun _ _ => True) k m HA)|].
      - eapply wp_mono; [apply (wp_Heap_FlushTag t _ m), HA|]. intros [] h' (m' & Hm' & _). by exists m'.
      - intros [] k2 (m2 & HA2 & Hq2 & _). by exists m2. }
    intros [] k1 (m1 & HA1 & Hq1). eapply wp_mono; [apply (log_ok k1 m1); [done|by destruct has_body|done|done]|].
    intros [] k2 (m2 & HA2 & Hq2). exists m2. split; [done|by etrans].
  - apply quiet_ok. by apply (wp_Close k m).
  - apply quiet_ok. eapply wp_mono; [apply (wp_heap_event _ (fun _ _ => True) k m HA)|].
    + eapply wp_mono; [apply (wp_Heap_Flush _ m), HA|]. intros [] h' (m' & Hm' & _). by exists m'.
    + intros [] k2 (m2 & HA2 & Hq2 & _). by exists m2.
  - apply quiet_ok. eapply wp_mono; [apply (wp_heap_event _ (fun _ _ => True) k m HA)|].
    + eapply wp_mono; [apply (wp_Heap_FlushTag tag _ m), HA|]. intros [] h' (m' & Hm' & _). by exists m'.
    + intros [] k2 (m2 & HA2 & Hq2 & _). by exists m2.
  - apply quiet_ok. eapply wp_mono; [apply (wp_heap_event _ (fun _ _ => True) k m HA)|].
    + eapply wp_mono; [apply (wp_Heap_Compress _ m), HA|]. intros [] h' (Hm' & _). by exists m.
    + intros [] k2 (m2 & HA2 & Hq2 & _). by exists m2.
  - apply quiet_ok. apply wp_bind. eapply wp_mono; [apply (wp_heap_event _ (fun _ _ => True) k m HA)|].
    + eapply wp_mono; [apply (wp_Heap_Expire now _ m), HA|]. intros a h' [m' Hm']. by exists m'.
    + intros a k2 (m2 & HA2 & Hq2 & _). apply wp_ret. by exists m2.
Qed.

(** ** Reachable states *)

Inductive reach (max_size : Z) (obey : bool) (x : os) : HttpCache -> Prop :=
| reach_new k : HttpCache_new max_size obey x = Some k -> reach max_size obey x k
| reach_step k e k' : reach max_size obey x k -> legal k e -> exec e k = Some (tt, k') -> reach max_size obey x k'.

Lemma new_heap_ok max_size x : os_rep x ∅ -> 0 < max_size < 2 ^ 60 -> HeapInv (HttpCacheHeap_new max_size x) ∅.
Proof.
  intros Hx Hmax. split; [split; cbn; try done|].
  - apply Cache_new_inv. rewrite wrap_id by lia. split; [apply Z.div_pos; lia|]. apply Z.div_lt_upper_bound; lia.
  - by intros p [? ?%lookup_empty_Some].
  - split; [constructor|]. by intros p ?%elem_of_nil.
  - by intros p q id (_ & it & ?%lookup_empty_Some & _).
  - intros p [it Hit]. cbn in Hit. by apply lookup_empty_Some in Hit.
Qed.

Lemma new_ok max_size obey x k : os_rep x ∅ -> 0 < max_size < 2 ^ 60 -> HttpCache_new max_size obey x = Some k -> AllOk k ∅.
Proof.
  intros Hx Hmax. unfold HttpCache_new. destruct (0 <? max_size); [|done]. intros [= <-].
  assert (Hsk : forall r s cur, ~ sinks (mkHttpCache (HttpCacheHeap_new max_size x) [] (mkStats 0 0 0 0) obey ∅ 0%nat [] []) cur r s).
  { intros r s cur (_ & q & Hq & _). cbn in Hq. by rewrite lookup_empty in Hq. }
  split; [split; cbn|split; [split|]].
  - by apply new_heap_ok.
  - by intros r q ?%lookup_empty_Some.
  - split; [constructor|]. intros r _. split; [by intros ?%elem_of_nil|]. intros [s Hs]. by apply Hsk in Hs.
  - by intros r q ?%lookup_empty_Some.
  - intros r s Hs. by apply Hsk in Hs.
  - by intros r q s ?%lookup_empty_Some.
  - intros r r' s s' Hs. by apply Hsk in Hs.
  - by intros id [? ?%lookup_empty_Some].
  - done.
  - by intros e r ?%elem_of_nil.
  - by intros p it i ?%lookup_empty_Some.
  - intros p i Hi. cbn in Hi. by apply lookup_empty_Some in Hi.
  - intros p Hp. unfold holders in Hp. cbn in Hp. rewrite map_to_list_empty in Hp. by apply elem_of_nil in Hp.
  - intros r q p Hq. cbn in Hq. by apply lookup_empty_Some in Hq.
Qed.

Lemma event_tags k e k' : Forall has_tag (hc_log k) -> event_ok k e k' -> Forall has_tag (hc_log k').
Proof.
  intros Hk (m' & _ & [(l & -> & _ & Ht)|(key & headers & P & _ & l & -> & Ht & _)]); by apply Forall_app.
Qed.

Lemma reach_ok max_size obey x k : os_rep x ∅ -> 0 < max_size < 2 ^ 60 -> reach max_size obey x k ->
  (exists m, AllOk k m) /\ Forall has_tag (hc_log k).
Proof.
  intros Hx Hmax Hr. induction Hr as [k Hk|k e k' Hr [[m IH] Ht] Hl He].
  - split; [exists ∅; by eapply new_ok|]. unfold HttpCache_new in Hk. destruct (0 <? max_size); [|done]. by injection Hk as <-.
  - destruct (exec_ok k m e IH Ht Hl) as ([] & k2 & E & Hev). rewrite He in E. injection E as <-.
    split; [destruct Hev as (m' & HA & _); by exists m'|by eapply event_tags].
Qed.

(** ** Theorems *)

(** C4: Safety: in no sequence of events that [legal] allows (requests, answers in any order, response bodies that end, fail
    or are too large, closed streams, flushes, timers) does the cache fail an assertion or use an item, a request or
    an object of the allocator that does not exist any more.  [legal] asks of the environment: a caller who wants
    AUTO_FLUSH_CACHE gives a cache tag; a body that knows that its size exceeds the limit of the cache says so in
    its estimate, too; the answer 304 to a revalidation has no body. *)
Theorem http_cache_safe max_size obey x k e :
  os_rep x ∅ -> 0 < max_size < 2 ^ 60 -> reach max_size obey x k -> legal k e -> is_Some (exec e k).
Proof.
  intros Hx Hmax Hr Hl. destruct (reach_ok max_size obey x k Hx Hmax Hr) as [[m HA] Ht].
  destruct (exec_ok k m e HA Ht Hl) as ([] & k' & E & _). rewrite E. by eexists.
Qed.

(** An object is used: as the body of a document, or by a request that fills it. *)
Definition body_of (k : HttpCache) (id : Z) (p : item_ptr) : Prop :=
  exists it, hh_docs (hc_heap k) !! p = Some it /\ hi_body it = id.

Definition filled_by (k : HttpCache) (id : Z) (r : req_ptr) : Prop :=
  exists q s, hc_objects k !! r = Some q /\ q_sink q = Some s /\ s_allocation s = id.

(** C5: Invariant: nothing leaks: after any sequence of events that [legal] allows, each object of the allocator is the body
    of exactly one document or is filled by exactly one request; a document that the cache has dropped exists only as long
    as a request or a stream holds it. *)
Theorem http_cache_no_leak max_size obey x k :
  os_rep x ∅ -> 0 < max_size < 2 ^ 60 -> reach max_size obey x k ->
  exists m, os_rep (hh_rubber (hc_heap k)) m /\
    (forall id, is_Some (m !! id) ->
      (exists p, body_of k id p /\ (forall p', body_of k id p' -> p' = p) /\ forall r, ~ filled_by k id r) \/
      (exists r, filled_by k id r /\ (forall r', filled_by k id r' -> r' = r) /\ forall p, ~ body_of k id p)) /\
    (forall p, is_Some (hh_docs (hc_heap k) !! p) -> p ∈ sorted_items (hh_cache (hc_heap k)) \/ p ∈ holders k).
Proof.
  intros Hx Hmax Hr. destruct (reach_ok max_size obey x k Hx Hmax Hr) as [[m [HI [[L1 L2] _]]] _]. exists m.
  pose proof (iv_heap _ _ _ _ HI) as [HP Hd]. split; [apply HP|].
  assert (Hsk : forall id r, filled_by k id r <-> exists s, sinks k None r s /\ s_allocation s = id).
  { intros id r. unfold filled_by, sinks. naive_solver. }
  assert (Hbo : forall id p, id <> 0 -> body_of k id p <-> owner (hh_docs (hc_heap k)) p id).
  { intros id p Hz. unfold body_of, owner. naive_solver. }
  split.
  - intros id Hid. assert (Hz : id <> 0).
    { intros ->. destruct Hid as [b Hb]. by rewrite (hp_zero _ _ HP) in Hb. }
    destruct (iv_owned _ _ _ _ HI id Hid) as [[p Hp]|[(r & s & Hs & E)|?]]; [left|right|done].
    + exists p. split; [by apply Hbo|]. split; [intros p' Hp'; apply Hbo in Hp'; [|done]; by eapply (hp_inj _ _ HP)|].
      intros r Hf. apply Hsk in Hf as (s & Hs & E). destruct (iv_sink _ _ _ _ HI r s Hs) as [Hn _]. apply (Hn p). by rewrite E.
    + exists r. split; [apply Hsk; eauto|]. split.
      * intros r' Hf. apply Hsk in Hf as (s' & Hs' & E'). eapply (iv_sinks _ _ _ _ HI); [done|done|congruence].
      * intros p Hp. apply Hbo in Hp; [|done]. destruct (iv_sink _ _ _ _ HI r s Hs) as [Hn _]. apply (Hn p). by rewrite E.
  - intros p Hp. destruct (Hd p Hp) as [i Hi]. destruct (decide (p ∈ sorted_items (hh_cache (hc_heap k)))) as [|Hn]; [by left|right].
    pose proof (ci_detached _ (hp_cache _ _ HP) p i Hi Hn) as Hl. rewrite (L1 p i Hi) in Hl.
    destruct (decide (p ∈ holders k)) as [|Hno]; [done|]. by apply count_zero in Hno.
Qed.




End Spec.

(** ** The HTTP cache: examples

    The cache with the allocator and with concrete library functions: a response is stored, served to
    another caller, and revalidated when it has expired. *)

#[local] Open Scope beng_scope.

Module CacheExamples.

Export HttpExamples.

Definition memory : @os rubber_store := empty_rubber.

Lemma memory_empty : os_rep memory ∅.
Proof. exact empty_rubber_Rep. Qed.

(** ** The sink *)

(** Nothing is known about the size of the input. *)
Lemma rubber_sink_witness : (exists c st', (let! c := sink_rubber_new (-1) (-1) 100 in sink_run [InData (str "hello"); InEof] c)
  memory = Some (c, st') /\ c = Ended (RubberDone 1 5)) /\ sink_rubber_new 10 101 100 memory = None.
Proof.
  split; [|refine (proj2 (rubber_sink_refines 10 101 100 [] memory ∅ memory_empty _ _ _) _);
    [split; [lia|right; lia]|lia|constructor|unfold honest_estimate; lia]].
  destruct (rubber_sink_refines (-1) (-1) 100 [InData (str "hello"); InEof] memory ∅ memory_empty)
    as [H _]; [split; [lia|by left]|lia|repeat constructor; vm_compute; done|].
  destruct H as (c & st' & E & _); [right; lia|].
  exists c, st'. split; [exact E|].
  assert (Ec : fst <$> ((let! c := sink_rubber_new (-1) (-1) 100 in sink_run [InData (str "hello"); InEof] c)
    memory) = Some (Ended (RubberDone 1 5))) by (vm_compute; reflexivity).
  rewrite E in Ec. by injection Ec.
Defined.

(** ** A cache *)

#[export] Instance ConcreteCacheEnv : HttpCacheEnv := {|
  hash_base32 s := s;
  GenerateDigestHeader s := str "sha-256=" ++ s |}.

Definition after (e : event) (k : HttpCache) : HttpCache :=
  match exec e k with Some (_, k') => k' | None => k end.

Definition runs (e : event) (k : HttpCache) : bool := match exec e k with Some _ => true | None => false end.

Lemma exec_after e k : runs e k = true -> exec e k = Some (tt, after e k).
Proof. unfold runs, after. by destruct (exec e k) as [[[] k']|]. Qed.

Definition params : ResourceRequestParams := mkParams false false false None (Some (str "t")).
Definition page : ResourceAddress := mkAddress A_HTTP (str "http://example.com/") false.

Definition get_page : event := EStart 0 (seconds 1000000) params GET page client false.
Definition answer_page : event := EResponse now 100 0 (seconds 1000000) 0%nat 200 answer (Some (3, -1)).
Definition data_page : event := EInput 100 0 (seconds 1000000) 0%nat (InData (str "hello")).
Definition end_page : event := EInput 100 0 (seconds 1000000) 0%nat InEof.

Definition empty_cache : HttpCache :=
  mkHttpCache (HttpCacheHeap_new 1048576 memory) [] (mkStats 0 0 0 0) true ∅ 0%nat [] [].

Definition asked : HttpCache := after get_page empty_cache.
Definition answered : HttpCache := after answer_page asked.
Definition filled : HttpCache := after data_page answered.
Definition stored : HttpCache := after end_page filled.
Definition served : HttpCache := after get_page stored.

Lemma reach_after k e : reach 1048576 true memory k -> legal k e -> runs e k = true -> reach 1048576 true memory (after e k).
Proof. intros Hk Hl Hr. eapply reach_step; [exact Hk|exact Hl|]. by apply exec_after. Qed.

Lemma legal_answer : legal asked answer_page.
Proof. eexists. split; [vm_compute; reflexivity|]. split_and!; try done; [split; [lia|by left]|by right]. Qed.

Lemma legal_input k i : legal_input i -> i <> InCancel ->
  match hc_objects k !! 0%nat with Some q => match q_sink q with Some _ => true | None => false end | None => false end = true ->
  legal k (EInput 100 0 (seconds 1000000) 0%nat i).
Proof.
  intros Hi Hc H. destruct (hc_objects k !! 0%nat) as [q|] eqn:Eq; [|done]. destruct (q_sink q) as [s|] eqn:Es; [|done].
  by exists q, s.
Qed.

Lemma reach_stored : reach 1048576 true memory stored.
Proof.
  apply reach_after; [|by apply legal_input; [done|done|vm_compute]|by vm_compute].
  apply reach_after; [|by apply legal_input; [vm_compute|done|vm_compute]|by vm_compute].
  apply reach_after; [|exact legal_answer|by vm_compute].
  apply reach_after; [|done|by vm_compute]. by apply reach_new.
Qed.


(** The second caller gets what the first one has received. *)
Example served_body : (fst <$> ToSpan 1 5 (hh_rubber (hc_heap served))) = Some (str "hello").
Proof. vm_compute. reflexivity. Qed.

(** A "POST" request with AUTO_FLUSH_CACHE flushes the documents with its tag. *)
Definition flush_params : ResourceRequestParams := mkParams false false true None (Some (str "t")).
Definition post_page : event := EStart 0 (seconds 1000000) flush_params POST page client true.
Definition answer_post : event := EAutoFlush (Some (str "t")) 200 answer false.
Definition posted : HttpCache := after post_page stored.

Lemma reach_posted : reach 1048576 true memory posted.
Proof. apply reach_after; [exact reach_stored|by eexists|by vm_compute]. Qed.

Lemma http_cache_safe_witness : is_Some (exec get_page stored) /\ is_Some (exec answer_post posted).
Proof.
  split.
  - apply (http_cache_safe 1048576 true memory stored get_page memory_empty); [lia|exact reach_stored|done].
  - apply (http_cache_safe 1048576 true memory posted answer_post memory_empty); [lia|exact reach_posted|].
    exists POST, client, true. vm_compute. repeat (first [left|right]).
Defined.

Lemma http_cache_no_leak_witness : exists m, os_rep (hh_rubber (hc_heap stored)) m /\
  forall id, is_Some (m !! id) -> (exists p, body_of stored id p) \/ exists r, filled_by stored id r.
Proof.
  destruct (http_cache_no_leak 1048576 true memory stored memory_empty) as (m & Hm & H & _); [lia|exact reach_stored|].
  exists m. split; [done|]. intros id Hid. destruct (H id Hid) as [(p & Hp & _)|(r & Hr & _)]; eauto.
Defined.


End CacheExamples.
