(* ===== verification/HttpHeaders.v ===== *)
(** * Header fields as text

    Models src/http/HeaderParser.cxx and HeaderWriter.cxx: the text of header lines in a
    growing buffer, which the FastCGI and CGI connections and the HTTP client exchange, and
    its conversion from and to a string map.

    The FIFO buffer between the reader and the line parser belongs to a library: how much room
    [Write()] yields depends on where its contents are, and is the parameter [StaticFifo]. *)

From Stdlib Require Import String.
From S2P Require Import Prelude CharUtil Bucket GrowingBuffer StrMap Uri HttpCacheRFC.

Local Open Scope beng_scope.

(** http/HeaderName.hxx *)
Class HeaderLib := {
  http_header_name_valid : list Z -> bool;
  http_header_is_hop_by_hop : list Z -> bool }.

(** [fifo_room i n]: the size of the range that [Write()] returns in iteration [i] while there
    are [n] bytes in the buffer. *)
Class StaticFifo := { fifo_room : nat -> nat -> nat }.

Definition HEADER_FIFO_SIZE : nat := 4096.

Class StaticFifoLaws `{SF : StaticFifo} := {
  fifo_room_some i n : (n < HEADER_FIFO_SIZE)%nat -> (0 < fifo_room i n)%nat;
  fifo_room_fits i n : (n <= HEADER_FIFO_SIZE)%nat -> (n + fifo_room i n <= HEADER_FIFO_SIZE)%nat }.

#[local] Abbreviation G := (M GrowingBuffer).

Section HttpHeaders.
Context `{CU : CharUtil} `{UL : UriLib} `{HS : HashSetOrder} `{TO : TrieOrder} `{HL : HttpLib}.
Context `{NL : HeaderLib} `{CS : ChunkSize} `{SF : StaticFifo}.

(** ** The parser *)

Definition IsValidHeaderValueChar (ch : Z) : bool :=
  negb (ch =? 0) && negb (ch =? 10) && negb (ch =? 13).

Definition IsValidHeaderValue (value : list Z) : bool := forallb IsValidHeaderValueChar value.

(** [StripLeft()] *)
Definition strip_front (s : list Z) : list Z := snd (span_while IsStripped s).

(** The result is the map, and whether the line is valid. *)
Definition header_parse_line (headers : StringMap) (line : list Z) : StringMap * bool :=
  let '(name, value) := Split line (chr ":") in
  match value with
  | None => (headers, false)
  | Some value =>
      if negb (http_header_name_valid name) || negb (IsValidHeaderValue value) then (headers, false)
      else (StringMap_Add (DupToLower name) (strip_front value) headers, true)
  end.

(** [while (eol > p && eol[-1] == '\r') --eol;] *)
Fixpoint trim_cr (line : list Z) : list Z :=
  match line with
  | [] => []
  | c :: l => match trim_cr l with
              | [] => if c =? 13 then [] else [c]
              | l' => c :: l'
              end
  end.

(** The loop over the lines in the buffer.  [p] is what is left of the buffer, [more] that more data
    may come ([gb != nullptr]).  The result is what is left in the buffer, and the map;
    [None]: [p] has been moved behind the end of the buffer. *)
Fixpoint parse_lines (fuel : nat) (more : bool) (p : list Z) (headers : StringMap)
    : option (list Z * StringMap) :=
  match fuel with
  | O => None
  | S fuel =>
      let p := strip_front p in
      match (match find_index (fun c => c =? 10) p with
             | Some eol => Some eol
             | None => if more then None else Some (length p)
             end) with
      | None => Some (p, headers)
      | Some eol =>
          let line := trim_cr (take eol p) in
          let headers := fst (header_parse_line headers line) in
          if (length p <? length line + 1)%nat then None
          else parse_lines fuel more (drop (length line + 1) p) headers
      end
  end.

Record HeaderParser := mkHP {
  hp_reader : GrowingBufferReader;
  hp_more : bool;
  hp_buffer : list Z;
  hp_headers : StringMap;
  hp_iteration : nat }.

(** Copies from the reader to the buffer; the result is the new state of all three. *)
Definition fill_buffer (i : nat) (reader : GrowingBufferReader) (buffer : list Z)
    : option (GrowingBufferReader * list Z * bool) :=
  let w := fifo_room i (length buffer) in
  if (w =? 0)%nat then Some (reader, buffer, true)
  else
    src ← R_Read reader;
    match src with
    | [] => Some (reader, buffer, false)
    | _ =>
        let nbytes := Nat.min (length src) w in
        reader ← R_Consume nbytes reader;
        Some (reader, buffer ++ take nbytes src, true)
    end.

(** One iteration of the outer loop; [false]: it ends. *)
Definition header_parse_step : M HeaderParser bool := fun s =>
  '(reader, buffer, more) ←
    (if hp_more s then fill_buffer (hp_iteration s) (hp_reader s) (hp_buffer s)
     else Some (hp_reader s, hp_buffer s, false));
  if bool_decide (buffer = []) && negb more then
    Some (false, mkHP reader more buffer (hp_headers s) (S (hp_iteration s)))
  else
    '(rest, headers) ← parse_lines (S (length buffer)) more buffer (hp_headers s);
    Some (true, mkHP reader more rest headers (S (hp_iteration s))).

(** At most [fuel] iterations. *)
Definition header_parse_buffer (fuel : positive) (headers : StringMap) (gb : GrowingBuffer)
    : option StringMap :=
  reader ← GrowingBufferReader_new gb;
  '(_, s) ← while fuel header_parse_step (mkHP reader true [] headers 0);
  Some (hp_headers s).

Definition IsHeaderLineNamed (line name : list Z) : option (list Z) :=
  line ← SkipPrefix line name;
  match strip_front line with
  | c :: rest => if c =? chr ":" then Some (strip_front rest) else None
  | [] => None
  end.

Fixpoint header_parse_find_loop (fuel : nat) (haystack name : list Z) : option (list Z) :=
  match fuel with
  | O => None
  | S fuel =>
      match haystack with
      | [] => None
      | _ =>
          let '(line, rest) := Split haystack 10 in
          match IsHeaderLineNamed line name with
          | Some value => Some value
          | None => match rest with
                    | Some rest => header_parse_find_loop fuel rest name
                    | None => None
                    end
          end
      end
  end.

Definition header_parse_find (haystack name : list Z) : option (list Z) :=
  header_parse_find_loop (S (length haystack)) haystack name.

(** ** The writer *)

Definition crlf : list Z := [13; 10].

Definition header_write_begin (name : list Z) : G unit :=
  massert (negb (bool_decide (name = []))) ;;; Write_reserve (name ++ str ": ").

Definition header_write_finish : G unit := GB_Write crlf.

Definition header_write (name value : list Z) : G unit :=
  massert (negb (bool_decide (name = []))) ;;;
  if (1024 <=? length name + length value)%nat then
    GB_Write name ;;; GB_Write (str ": ") ;;; GB_Write value ;;; GB_Write crlf
  else Write_reserve (name ++ str ": " ++ value ++ crlf).

Definition headers_copy_one (m : StringMap) (key : list Z) : G unit :=
  match StringMap_Get key m with
  | Some value => header_write key value
  | None => mret tt
  end.

Fixpoint headers_copy (m : StringMap) (keys : list (list Z)) : G unit :=
  match keys with
  | [] => mret tt
  | key :: keys =>
      match StringMap_Get key m with
      | Some value => header_write key value
      | None => mret tt
      end ;;;
      headers_copy m keys
  end.

Fixpoint headers_copy_all (m : StringMap) : G unit :=
  match m with
  | [] => mret tt
  | i :: m => header_write (fst i) (snd i) ;;; headers_copy_all m
  end.

Fixpoint headers_copy_most (m : StringMap) : G unit :=
  match m with
  | [] => mret tt
  | i :: m =>
      (if http_header_is_hop_by_hop (fst i) then mret tt else header_write (fst i) (snd i)) ;;;
      headers_copy_most m
  end.

Definition headers_dup (m : StringMap) : option GrowingBuffer :=
  snd <$> headers_copy_most m GrowingBuffer_new.

End HttpHeaders.
