(* ===== verification/HttpHeadersFacts.v ===== *)
(** * Theorems about header fields as text

    The parser does not depend on how the text is cut into chunks and on where the FIFO buffer
    has its contents, and it ends, if every line is terminated and fits into the buffer; it
    reverts the writer. *)

From Stdlib Require Import String.
From S2P Require Import Prelude CharUtil Bucket GrowingBuffer GrowingBufferFacts StrMap Uri HttpCacheRFC.
From S2P Require Import HttpHeaders UriInstance.

(** The documented behaviour of the library: line breaks are white space, and a valid name of a
    header field is a token, which has no white space and no colon. *)
Class HeaderLaws `{CU : CharUtil} `{NL : HeaderLib} := {
  stripped_lf : IsStripped 10 = true;
  stripped_cr : IsStripped 13 = true;
  stripped_space : IsStripped 32 = true;
  header_name_nonempty : http_header_name_valid [] = false;
  header_name_token name c : http_header_name_valid name = true -> c ∈ name ->
    IsStripped c = false /\ c <> chr ":" }.

Section Facts.
Context `{CU : CharUtil} `{UL : UriLib} `{HS : HashSetOrder} `{TO : TrieOrder} `{HL : HttpLib}.
Context `{NL : HeaderLib} `{CS : ChunkSize} `{SF : StaticFifo}.
Context `{HUL : !UriLaws} `{HHL : !HeaderLaws} `{HFL : !StaticFifoLaws}.

(** ** The reference: one line after the other *)

Fixpoint split_lines (text : list Z) : list (list Z) :=
  match text with
  | [] => [[]]
  | c :: text =>
      if c =? 10 then [] :: split_lines text
      else match split_lines text with
           | line :: lines => (c :: line) :: lines
           | [] => [[c]]
           end
  end.

Definition clean_line (line : list Z) : list Z := trim_cr (strip_front line).

Definition parse_clean (headers : StringMap) (line : list Z) : StringMap :=
  fst (header_parse_line headers (clean_line line)).

Definition parse_text (headers : StringMap) (text : list Z) : StringMap :=
  fold_left parse_clean (split_lines text) headers.

Lemma split_lines_cons text : exists line lines, split_lines text = line :: lines.
Proof.
  induction text as [|c text (line & lines & E)]; simpl; [by exists [], []|]. rewrite E.
  destruct (c =? 10); eauto.
Qed.

Lemma split_lines_lf a b : 10 ∉ a -> split_lines (a ++ 10 :: b) = a :: split_lines b.
Proof.
  intros Ha. induction a as [|c a IH]; simpl; [done|].
  apply not_elem_of_cons in Ha as [Hc Ha]. rewrite IH by done.
  by rewrite (proj2 (Z.eqb_neq c 10)) by done.
Qed.

Lemma split_lines_one a : 10 ∉ a -> split_lines a = [a].
Proof.
  intros Ha. induction a as [|c a IH]; simpl; [done|].
  apply not_elem_of_cons in Ha as [Hc Ha]. rewrite IH by done.
  by rewrite (proj2 (Z.eqb_neq c 10)) by done.
Qed.

Lemma find_lf p :
  match find_index (fun c => c =? 10) p with
  | Some i => exists b, p = take i p ++ 10 :: b /\ (10 ∉ take i p) /\ (i < length p)%nat /\ b = drop (S i) p
  | None => 10 ∉ p
  end.
Proof.
  destruct (find_index _ p) as [i|] eqn:E.
  - apply find_index_Some in E as (x & Ex & Hx & Hbefore). apply Z.eqb_eq in Hx as ->.
    exists (drop (S i) p). split_and!.
    + rewrite <- (take_drop i p) at 1. f_equal. by apply drop_S.
    + intros Hin. by apply Hbefore in Hin.
    + by eapply lookup_lt_Some.
    + done.
  - intros Hin. by apply (find_index_None _ _ E) in Hin.
Qed.

(** ** Lines *)

Lemma header_parse_line_nil headers : header_parse_line headers [] = (headers, false).
Proof. unfold header_parse_line. rewrite Split_missing by apply not_elem_of_nil. done. Qed.

Lemma strip_front_cons c s :
  strip_front (c :: s) = if IsStripped c then strip_front s else c :: s.
Proof. unfold strip_front. simpl. destruct (IsStripped c); [|done]. by destruct (span_while _ s). Qed.

Lemma strip_front_suffix s : exists a, s = a ++ strip_front s.
Proof.
  induction s as [|c s [a E]]; [by exists []|]. rewrite strip_front_cons.
  destruct (IsStripped c); [exists (c :: a); simpl; by f_equal|by exists []].
Qed.

Lemma strip_front_idemp s : strip_front (strip_front s) = strip_front s.
Proof.
  induction s as [|c s IH]; [done|]. rewrite strip_front_cons. destruct (IsStripped c) eqn:E; [done|].
  by rewrite strip_front_cons, E.
Qed.

Lemma strip_front_length s : (length (strip_front s) <= length s)%nat.
Proof. destruct (strip_front_suffix s) as [a E]. rewrite E at 2. rewrite length_app. lia. Qed.

(** White space before a line, which may include lines of white space, does not matter. *)
Lemma parse_text_strip headers p b :
  parse_text headers (strip_front p ++ b) = parse_text headers (p ++ b).
Proof.
  assert (Hc : forall c s, IsStripped c = true -> parse_text headers (c :: s) = parse_text headers s).
  { intros c s Hc. unfold parse_text. simpl. destruct (c =? 10) eqn:E.
    - simpl. unfold parse_clean at 2, clean_line. simpl. by rewrite header_parse_line_nil.
    - destruct (split_lines_cons s) as (line & lines & ->). simpl. unfold parse_clean at 2 4, clean_line.
      by rewrite strip_front_cons, Hc. }
  induction p as [|c p IH]; [done|]. rewrite strip_front_cons. destruct (IsStripped c) eqn:E; [|done].
  by rewrite IH, <- (Hc c).
Qed.

Lemma trim_cr_prefix line : exists k, line = trim_cr line ++ replicate k 13.
Proof.
  induction line as [|c line [k E]]; [by exists 0%nat|]. simpl. destruct (trim_cr line) as [|d l] eqn:Et.
  - simpl in E. destruct (Z.eqb_spec c 13) as [->|]; [exists (S k); simpl; by f_equal|].
    exists k. simpl. by f_equal.
  - exists k. simpl. f_equal. done.
Qed.

(** The carriage returns that are skipped with the next line. *)
Lemma parse_text_crs headers k b : parse_text headers (replicate k 13 ++ 10 :: b) = parse_text headers b.
Proof.
  assert (Hcr : strip_front (replicate k 13) = []).
  { induction k; simpl; [done|]. by rewrite strip_front_cons, stripped_cr. }
  rewrite <- (parse_text_strip headers (replicate k 13) (10 :: b)), Hcr. simpl.
  change (10 :: b) with ([10] ++ b). by rewrite <- parse_text_strip, strip_front_cons, stripped_lf.
Qed.

Lemma drop_line line k b :
  drop (length line + 1) (line ++ replicate k 13 ++ 10 :: b) =
  match k with O => b | S k => replicate k 13 ++ 10 :: b end.
Proof.
  rewrite drop_app_ge by lia. replace (length line + 1 - length line)%nat with 1%nat by lia.
  by destruct k.
Qed.

(** A line that has been parsed may be removed. *)
Lemma parse_text_line headers p i b : p = take i p ++ 10 :: b -> 10 ∉ take i p -> strip_front p = p ->
  forall tail, let line := trim_cr (take i p) in
  parse_text headers (p ++ tail) =
  parse_text (fst (header_parse_line headers line)) (drop (length line + 1) p ++ tail).
Proof.
  intros E Hn Hs tail line. destruct (trim_cr_prefix (take i p)) as [k Ek]. fold line in Ek.
  assert (Hp : p = line ++ replicate k 13 ++ 10 :: b) by (by rewrite app_assoc, <- Ek).
  assert (Hcl : clean_line (take i p) = line).
  { unfold clean_line. f_equal. destruct (take i p) as [|c q]; [done|].
    rewrite strip_front_cons. rewrite E, <- app_comm_cons, strip_front_cons in Hs.
    destruct (IsStripped c); [|done]. exfalso. apply (f_equal length) in Hs.
    pose proof (strip_front_length (q ++ 10 :: b)). simpl in Hs. lia. }
  transitivity (parse_text (fst (header_parse_line headers line)) (b ++ tail)).
  - rewrite E at 1. unfold parse_text. rewrite <- app_assoc. simpl. rewrite split_lines_lf by done. simpl.
    unfold parse_clean at 2. by rewrite Hcl.
  - rewrite Hp, drop_line. destruct k; [done|].
    rewrite <- app_assoc. simpl. by rewrite parse_text_crs.
Qed.

(** ** The loop over the lines in the buffer *)

Lemma parse_lines_spec fuel : forall p headers, (length p < fuel)%nat ->
  exists rest headers', parse_lines fuel true p headers = Some (rest, headers') /\
    (10 ∉ rest) /\ (exists a, p = a ++ rest) /\
    forall tail, parse_text headers (p ++ tail) = parse_text headers' (rest ++ tail).
Proof.
  induction fuel as [|fuel IH]; intros p headers Hf; [lia|]. simpl.
  set (q := strip_front p). pose proof (find_lf q) as Hfind.
  destruct (strip_front_suffix p) as [a Ea]. fold q in Ea.
  destruct (find_index _ q) as [i|].
  - destruct Hfind as (b & Eb & Hn & Hi & _). set (line := trim_cr (take i q)).
    assert (Hlen : (length line <= i)%nat).
    { destruct (trim_cr_prefix (take i q)) as [k Ek]. apply (f_equal length) in Ek.
      rewrite length_app, length_take in Ek. fold line in Ek. lia. }
    rewrite (proj2 (Nat.ltb_ge _ _)) by lia.
    assert (Hq : (length q <= length p)%nat) by apply strip_front_length.
    destruct (IH (drop (length line + 1) q) (fst (header_parse_line headers line)))
      as (rest & headers' & E & H1 & (a' & Ea') & H3); [rewrite length_drop; lia|].
    exists rest, headers'. split_and!; [done|done| |].
    + exists (a ++ take (length line + 1) q ++ a'). rewrite <- app_assoc, <- app_assoc, <- Ea', take_drop. done.
    + intros tail. rewrite <- parse_text_strip. fold q. rewrite <- H3.
      rewrite (parse_text_line headers q i b Eb Hn (strip_front_idemp p)). done.
  - exists q, headers. split_and!; [done|done|eauto|].
    intros tail. symmetry. apply parse_text_strip.
Qed.

(** ** The outer loop *)

(** The text ends with a line break. *)
Definition terminated (text : list Z) : Prop := text = [] \/ last text = Some 10.

Lemma below_fifo n : (Z.of_nat n <? 4096) = true -> (n < HEADER_FIFO_SIZE)%nat.
Proof. intros H%Z.ltb_lt. change HEADER_FIFO_SIZE with (Z.to_nat 4096). lia. Qed.

Definition short_lines (text : list Z) : Prop :=
  Forall (fun line => (length line < HEADER_FIFO_SIZE)%nat) (split_lines text).

Lemma terminated_suffix a b : terminated (a ++ b) -> terminated b.
Proof.
  destruct b as [|c b]; [by left|]. intros [H|H]; [by apply app_nil in H as [_ ?]|]. right.
  by rewrite last_app_cons in H.
Qed.

Lemma short_lines_suffix a b : short_lines (a ++ b) -> short_lines b.
Proof.
  unfold short_lines. induction a as [|c a IH]; simpl; [done|]. intros H. apply IH.
  destruct (c =? 10); [by apply Forall_cons in H as [_ H]|].
  destruct (split_lines_cons (a ++ b)) as (line & lines & E). rewrite E in *.
  apply Forall_cons in H as [H1 H2]. constructor; [simpl in H1; lia|done].
Qed.

Lemma short_lines_front a b : short_lines (a ++ b) -> 10 ∉ a -> (length a < HEADER_FIFO_SIZE)%nat.
Proof.
  intros H Ha. assert (E : exists line lines, split_lines (a ++ b) = (a ++ line) :: lines).
  { clear H. induction a as [|c a IH]; simpl; [apply split_lines_cons|].
    apply not_elem_of_cons in Ha as [Hc Ha]. destruct (IH Ha) as (line & lines & ->).
    rewrite (proj2 (Z.eqb_neq c 10)) by done. eauto. }
  destruct E as (line & lines & E). unfold short_lines in H. rewrite E in H.
  apply Forall_cons in H as [H _]. rewrite length_app in H. lia.
Qed.

Lemma header_fill_buffer_spec i reader buffer : RWF reader -> (length buffer < HEADER_FIFO_SIZE)%nat ->
  exists reader' buffer' more, fill_buffer i reader buffer = Some (reader', buffer', more) /\ RWF reader' /\
    buffer' ++ r_contents reader' = buffer ++ r_contents reader /\
    (if more : bool then (length (r_contents reader') < length (r_contents reader))%nat
     else r_contents reader' = [] /\ buffer' = buffer /\ reader' = reader).
Proof.
  intros Hr Hb. unfold fill_buffer. pose proof (fifo_room_some i _ Hb) as Hroom.
  rewrite (proj2 (Nat.eqb_neq _ 0)) by lia.
  destruct (R_Read_spec reader Hr) as (src & E & Hc & Hnil & Hlen). rewrite E. simpl.
  destruct src as [|x src'] eqn:Es.
  { exists reader, buffer, false. split_and!; [done..| |done|done]. by apply Hnil. }
  assert (Hs0 : (0 < length (x :: src'))%nat) by (simpl; lia). rewrite <- Es in *.
  set (n := Nat.min (length src) (fifo_room i (length buffer))).
  destruct (R_Consume_spec reader n Hr ltac:(lia)) as (reader' & Ec & Hr' & Hc').
  rewrite Ec. exists reader', (buffer ++ take n src), true. simpl. split_and!; [done|done| |].
  - rewrite Hc', Hc, drop_app_le by lia. by rewrite <- app_assoc, (app_assoc (take n src)), take_drop.
  - rewrite Hc', length_drop, Hc, length_app. lia.
Qed.

Record step_inv (result : StringMap) (m : Z) (s : HeaderParser) : Prop := {
  si_reader : RWF (hp_reader s);
  si_more : hp_more s = true;
  si_line : 10 ∉ hp_buffer s;
  si_terminated : terminated (hp_buffer s ++ r_contents (hp_reader s));
  si_short : short_lines (hp_buffer s ++ r_contents (hp_reader s));
  si_result : parse_text (hp_headers s) (hp_buffer s ++ r_contents (hp_reader s)) = result;
  si_measure : m = Z.of_nat (length (r_contents (hp_reader s))) }.

Lemma terminated_no_lf a : terminated a -> 10 ∉ a -> a = [].
Proof.
  intros [->|Hl]; [done|]. intros Hn. apply last_Some in Hl as (l & ->). exfalso. apply Hn.
  apply elem_of_app. right. by left.
Qed.

Lemma step_spec result m s : step_inv result m s ->
  wp header_parse_step (fun again s' =>
    if again : bool then exists m', step_inv result m' s' /\ m' < m else hp_headers s' = result) s.
Proof.
  intros [Hr Hmore Hn Ht Hs Hres Hm]. unfold wp, header_parse_step. rewrite Hmore.
  destruct (header_fill_buffer_spec (hp_iteration s) (hp_reader s) (hp_buffer s)) as
    (reader & buffer & more & E & Hr' & Hc & Hmore'); [done|by eapply short_lines_front|].
  rewrite E. cbn [mbind option_bind]. rewrite <- Hc in *. destruct more; cbn [negb]; rewrite ?andb_false_r, ?andb_true_r.
  - destruct (parse_lines_spec (S (length buffer)) buffer (hp_headers s)) as (rest & headers & Ep & H1 & (a & Ea) & H3);
      [lia|].
    rewrite Ep. exists true, (mkHP reader true rest headers (S (hp_iteration s))).
    split; [done|]. exists (Z.of_nat (length (r_contents reader))). split; [|lia].
    rewrite Ea, <- app_assoc in Ht, Hs.
    split; simpl; [done..|by eapply terminated_suffix|by eapply short_lines_suffix|by rewrite <- Hres, H3|done].
  - destruct Hmore' as (Hnil & -> & ->). rewrite Hnil, app_nil_r in *.
    pose proof (terminated_no_lf _ Ht Hn) as E0. rewrite E0 in *. simpl in *. subst result.
    eexists false, _. split; [done|]. simpl. unfold parse_text, parse_clean. simpl. by rewrite header_parse_line_nil.
Qed.

(** A buffer that has been written and from which nothing has been read. *)
Record gb_ready (gb : GrowingBuffer) : Prop := {
  ready_WF : WF gb;
  ready_position : position gb = 0%nat;
  ready_chunks : Forall (fun c => c <> []) (chunks gb) }.

Lemma gb_ready_reader gb : gb_ready gb ->
  exists r, GrowingBufferReader_new gb = Some r /\ RWF r /\ r_contents r = contents gb.
Proof.
  intros [H1 H2 H3]. apply GrowingBufferReader_new_spec; [done|done|]. rewrite H2.
  destruct (chunks gb) as [|c l]; simpl; [lia|]. left. apply Forall_cons in H3 as [H3 _].
  by apply nonempty_length.
Qed.

(** for every text whose lines are all terminated and shorter than the FIFO buffer, however it is
    cut into chunks and wherever the FIFO buffer has its contents, [header_parse_buffer()] ends, reads
    nothing out of bounds and adds what parsing one line after the other adds. *)
Theorem header_parse_buffer_lines headers gb fuel :
  gb_ready gb -> terminated (contents gb) -> short_lines (contents gb) ->
  Z.of_nat (length (contents gb)) < Zpos fuel ->
  header_parse_buffer fuel headers gb = Some (parse_text headers (contents gb)).
Proof.
  intros Hgb Ht Hs Hf. destruct (gb_ready_reader gb Hgb) as (r & E & Hr & Hc).
  unfold header_parse_buffer. rewrite E. simpl.
  destruct (while_wp header_parse_step (step_inv (parse_text headers (contents gb)))
    (fun s => hp_headers s = parse_text headers (contents gb)) fuel (Z.of_nat (length (contents gb)))
    (mkHP r true [] headers 0)) as ([] & s' & -> & H); [intros m s []; lia|apply step_spec| |done|].
  - split; simpl; rewrite ?Hc; [done|done|apply not_elem_of_nil|done..].
  - simpl. by rewrite H.
Qed.

(** ** The writer *)

Definition header_line (name value : list Z) : list Z := name ++ str ": " ++ value ++ crlf.

(** A write of data to a buffer from which nothing has been read yet. *)
Definition appended (data : list Z) (gb gb' : GrowingBuffer) : Prop :=
  gb_ready gb' /\ contents gb' = contents gb ++ data.

(** A chunk of [gb], or a new one, to which data may be appended. *)
Definition writable (gb : GrowingBuffer) (l : list (list Z)) (c : list Z) : Prop :=
  chunks gb = l ++ [c] \/ (chunks gb = l /\ c = []).

Lemma append_ready gb gb' l c data : gb_ready gb -> data <> [] -> WF gb' -> writable gb l c ->
  chunks gb' = l ++ [c ++ data] -> position gb' = position gb -> gb_ready gb'.
Proof.
  intros [H1 H2 H3] Hne Hwf Hl Hc Hp. split; [done|by rewrite Hp|]. rewrite Hc. apply Forall_app.
  split.
  - destruct Hl as [E|[E _]]; rewrite E in H3; [by apply Forall_app in H3 as [H3 _]|done].
  - repeat constructor. intros E. by apply app_nil in E as [_ E].
Qed.

(** What [BeginWrite(size)] and [WriteSome()] do before they write. *)
Lemma reserve_chunks gb gb' u (b : list Z -> bool) :
  (match last (chunks gb) with
   | Some c => if b c then AppendBuffer else mret tt
   | None => AppendBuffer
   end) gb = Some (u, gb') ->
  exists l c, chunks gb' = l ++ [c] /\ position gb' = position gb /\ writable gb l c.
Proof.
  unfold AppendBuffer, mmod, writable. destruct (last (chunks gb)) as [c|] eqn:E.
  - apply last_Some in E as (l & E). destruct (b c); intros [= _ <-]; simpl; [eauto 8|]. exists l, c. auto.
  - intros [= _ <-]. simpl. eauto 8.
Qed.

Lemma massert_bind {S A} b (k : unit -> M S A) s r : mbnd (massert b) k s = Some r -> k tt s = Some r.
Proof. by destruct b. Qed.

Lemma mbnd_Some {S A B} (m : M S A) (k : A -> M S B) s r :
  mbnd m k s = Some r -> exists a s', m s = Some (a, s') /\ k a s' = Some r.
Proof. unfold mbnd. destruct (m s) as [[a s']|]; [eauto|done]. Qed.

Lemma Write_reserve_ready data gb : gb_ready gb -> data <> [] -> (length data <= chunk_capacity)%nat ->
  wp (Write_reserve data) (fun _ gb' => appended data gb gb') gb.
Proof.
  intros Hgb Hne Hl. destruct (Write_reserve_wp data gb (ready_WF _ Hgb) Hl) as (u & gb' & E & Hwf & Hc).
  exists u, gb'. split; [done|]. split; [|done]. clear Hc.
  apply mbnd_Some in E as (u1 & gb1 & E1 & E2). unfold BeginWrite_size in E1.
  apply mbnd_Some in E1 as (? & ? & [= <- <-] & E1). apply massert_bind in E1.
  unfold CheckHead, CheckTail in E1.
  do 2 (apply mbnd_Some in E1 as (? & ? & Ec & E1); apply mbnd_Some in Ec as (? & ? & [= <- <-] & Ec);
        destruct (match _ with Some _ => _ | None => _ end) in Ec; [|done]; injection Ec as _ <-).
  apply mbnd_Some in E1 as (? & gb2 & Er & E1). apply reserve_chunks in Er as (l & c & Ec & Ep & Hw).
  unfold mbnd, mget in E1. destruct (match _ with Some _ => _ | None => _ end) in E1; [|done].
  injection E1 as <- <-.
  unfold CommitWrite, mbnd, mget in E2. rewrite Ec, last_snoc in E2.
  destruct (_ <=? _)%nat in E2; [|done]. injection E2 as _ <-. rewrite append_tail_snoc in *.
  by eapply append_ready.
Qed.

Lemma WriteSome_chunks src gb n gb' : WriteSome src gb = Some (n, gb') ->
  exists l c, chunks gb' = l ++ [c ++ take n src] /\ position gb' = position gb /\ writable gb l c.
Proof.
  intros E. unfold WriteSome in E. apply mbnd_Some in E as (? & ? & [= <- <-] & E).
  apply mbnd_Some in E as (? & gb2 & Er & E). apply reserve_chunks in Er as (l & c & Ec & Ep & Hw).
  unfold mbnd, mget in E. rewrite Ec, last_snoc in E. destruct (Check c); [|done].
  injection E as <- <-. exists l, c. simpl. by rewrite append_tail_snoc.
Qed.

Lemma GB_Write_ready src gb : gb_ready gb -> wp (GB_Write src) (fun _ gb' => appended src gb gb') gb.
Proof.
  intros Hgb. destruct (Write_wp src gb (ready_WF _ Hgb)) as (u & gb' & E & Hwf & Hc).
  exists u, gb'. split; [done|]. split; [|done]. clear Hc Hwf. revert Hgb E. unfold GB_Write.
  generalize (S (length src)) as fuel. intros fuel. revert src gb.
  induction fuel as [|fuel IH]; intros src gb Hgb E; [done|]. simpl in E.
  destruct src as [|x src']; [by injection E as _ <-|]. set (src := x :: src') in *.
  destruct (WriteSome_wp src gb (ready_WF _ Hgb) ltac:(done)) as (n & gb1 & E1 & Hn & Hwf1 & _).
  unfold mbnd in E. rewrite E1 in E. apply (IH (drop n src) gb1); [|done].
  apply WriteSome_chunks in E1 as (l & c & Ec & Ep & Hw). eapply append_ready; [done| |done..].
  intros E0. apply (f_equal length) in E0. rewrite length_take in E0. simpl in *. lia.
Qed.

Lemma appended_trans a b gb gb1 gb2 : appended a gb gb1 -> appended b gb1 gb2 -> appended (a ++ b) gb gb2.
Proof. intros [_ H1] [H2 H3]. split; [done|]. by rewrite H3, H1, app_assoc. Qed.

Lemma appended_bind a b (m k : M GrowingBuffer unit) gb : wp m (fun _ gb' => appended a gb gb') gb ->
  (forall gb', gb_ready gb' -> wp k (fun _ gb2 => appended b gb' gb2) gb') ->
  wp (m ;;; k)%beng (fun _ gb2 => appended (a ++ b) gb gb2) gb.
Proof.
  intros (u & gb' & E & A1) Hk. apply wp_bind. exists u, gb'. split; [done|].
  eapply wp_mono; [apply Hk, A1|]. intros ? gb2 A2. by eapply appended_trans.
Qed.

Lemma header_write_ready name value gb : (1028 <= chunk_capacity)%nat -> gb_ready gb -> name <> [] ->
  wp (header_write name value) (fun _ gb' => appended (header_line name value) gb gb') gb.
Proof.
  intros Hcap Hgb Hn. unfold header_write. wp_step. wp_step; [by rewrite bool_decide_eq_false_2|].
  destruct (Nat.leb_spec 1024 (length name + length value)).
  - unfold header_line.
    repeat (apply appended_bind; [by apply GB_Write_ready|clear gb Hgb; intros gb Hgb]).
    by apply GB_Write_ready.
  - eapply wp_mono; [apply Write_reserve_ready; [done| |]|done].
    + by destruct name.
    + rewrite !length_app. simpl. lia.
Qed.

(** The fields that are forwarded to the next hop. *)
Definition end_to_end (i : list Z * list Z) : bool := negb (http_header_is_hop_by_hop (fst i)).

Definition lines_of (m : StringMap) : list Z := concat (map (fun i => header_line (fst i) (snd i)) m).

Lemma headers_copy_most_ready m : (1028 <= chunk_capacity)%nat -> Forall (fun i => fst i <> []) m -> forall gb, gb_ready gb ->
  wp (headers_copy_most m) (fun _ gb' => appended (lines_of (List.filter end_to_end m)) gb gb') gb.
Proof.
  intros Hcap Hm. induction Hm as [|i m Hi Hm IH]; intros gb Hgb; simpl.
  { wp_step. split; [done|]. by rewrite app_nil_r. }
  unfold end_to_end at 1. destruct (http_header_is_hop_by_hop (fst i)); simpl.
  - wp_step. wp_step. by apply IH.
  - apply appended_bind; [by apply header_write_ready|apply IH].
Qed.

(** ** The round trip *)

(** A field with a valid name and a valid value that fits into the FIFO buffer, as a line. *)
Record good_field (i : list Z * list Z) : Prop := {
  gf_name : http_header_name_valid (fst i) = true;
  gf_value : IsValidHeaderValue (snd i) = true;
  gf_length : (length (fst i) + length (snd i) + 3 < HEADER_FIFO_SIZE)%nat }.

(** As what a field is read: the name in lower case, the value without its leading white space. *)
Definition read_field (i : list Z * list Z) : list Z * list Z := (DupToLower (fst i), strip_front (snd i)).

Lemma valid_value_chars value c : IsValidHeaderValue value = true -> c ∈ value -> c <> 10 /\ c <> 13.
Proof.
  intros H Hc. apply forallb_forall with (x := c) in H; [|by apply list_elem_of_In].
  unfold IsValidHeaderValueChar in H. simpl_bool. done.
Qed.

Lemma good_field_chars i c : good_field i -> c ∈ fst i ++ str ": " ++ snd i -> c <> 10 /\ c <> 13.
Proof.
  intros [H1 H3 _] Hc. apply elem_of_app in Hc as [Hc|Hc].
  - destruct (header_name_token _ _ H1 Hc) as [Hs _].
    split; intros ->; rewrite ?stripped_lf, ?stripped_cr in Hs; done.
  - change (str ": ") with [58; 32] in Hc. repeat apply elem_of_cons in Hc as [->|Hc]; [done|done|].
    by eapply valid_value_chars.
Qed.

Lemma trim_cr_snoc x : 13 ∉ x -> trim_cr (x ++ [13]) = x.
Proof.
  induction x as [|c x IH]; [done|]. intros H. apply not_elem_of_cons in H as [Hc Hx]. simpl.
  rewrite IH by done. destruct x; [|done]. by rewrite (proj2 (Z.eqb_neq c 13)) by done.
Qed.

Lemma good_field_clean i : good_field i ->
  clean_line (fst i ++ str ": " ++ snd i ++ [13]) = fst i ++ str ": " ++ snd i.
Proof.
  intros Hi. unfold clean_line. rewrite !app_assoc, <- (app_assoc (fst i)).
  assert (Hs : forall s, strip_front (fst i ++ s) = fst i ++ s).
  { intros s. destruct (fst i) as [|c l] eqn:E; [by pose proof (gf_name _ Hi); rewrite E, header_name_nonempty in *|].
    simpl. rewrite strip_front_cons. destruct (header_name_token (c :: l) c) as [-> _]; [|by left|done].
    rewrite <- E. apply Hi. }
  rewrite <- app_assoc, Hs, app_assoc. apply trim_cr_snoc. intros Hin.
  by apply (good_field_chars i) in Hin as [_ ?].
Qed.

Lemma parse_good_field headers i : good_field i ->
  parse_clean headers (fst i ++ str ": " ++ snd i ++ [13]) = StringMap_Add (DupToLower (fst i)) (strip_front (snd i)) headers.
Proof.
  intros Hi. unfold parse_clean. rewrite good_field_clean by done. destruct Hi as [H1 H3 _].
  unfold header_parse_line. change (str ": " ++ snd i) with (chr ":" :: 32 :: snd i).
  rewrite Split_found; [|intros Hc; by apply (header_name_token _ _ H1) in Hc as [_ ?]].
  rewrite H1. unfold IsValidHeaderValue in *. simpl. rewrite H3. simpl.
  by rewrite strip_front_cons, stripped_space.
Qed.

Lemma header_line_split i : header_line (fst i) (snd i) = (fst i ++ str ": " ++ snd i ++ [13]) ++ [10].
Proof. unfold header_line. by rewrite <- !app_assoc. Qed.

Lemma header_line_lf i : good_field i -> 10 ∉ fst i ++ str ": " ++ snd i ++ [13].
Proof.
  intros Hi Hin. rewrite !app_assoc, <- (app_assoc (fst i)) in Hin.
  apply elem_of_app in Hin as [Hin|Hin]; [by apply (good_field_chars i) in Hin as [? _]|].
  by apply list_elem_of_singleton in Hin.
Qed.

Lemma split_lines_of m : Forall good_field m ->
  split_lines (lines_of m) = map (fun i => fst i ++ str ": " ++ snd i ++ [13]) m ++ [[]].
Proof.
  unfold lines_of. induction 1 as [|i m Hi Hm IH]; [done|]. cbn [map concat].
  rewrite header_line_split, <- (app_assoc _ [10]).
  match goal with |- context [[10] ++ ?x] => change ([10] ++ x) with (10 :: x) end.
  by rewrite split_lines_lf, IH by (by apply header_line_lf).
Qed.

Lemma parse_lines_of m headers : Forall good_field m ->
  parse_text headers (lines_of m) = fold_left (fun h i => StringMap_Add (fst i) (snd i) h) (map read_field m) headers.
Proof.
  intros Hm. unfold parse_text. rewrite split_lines_of by done. rewrite fold_left_app. cbn [fold_left].
  transitivity (fold_left parse_clean (map (fun i => fst i ++ str ": " ++ snd i ++ [13]) m) headers).
  { unfold parse_clean at 1. by rewrite header_parse_line_nil. }
  revert headers. induction Hm as [|i m Hi Hm IH]; intros headers; [done|]. cbn [map fold_left].
  by rewrite parse_good_field, IH.
Qed.

Lemma add_all_perm m : forall h : StringMap,
  fold_left (fun h i => StringMap_Add (fst i) (snd i) h) m h ≡ₚ m ++ h.
Proof.
  induction m as [|[k v] m IH]; intros h; simpl; [done|]. rewrite IH. unfold StringMap_Add. rewrite hs_insert_perm.
  by rewrite Permutation_middle.
Qed.

Lemma lines_of_terminated m : terminated (lines_of m).
Proof.
  unfold lines_of. induction m as [|i m IH]; [by left|]. cbn [map concat]. right.
  destruct IH as [->|E].
  - by rewrite app_nil_r, header_line_split, last_snoc.
  - by rewrite last_app, E.
Qed.

Lemma lines_of_short m : Forall good_field m -> short_lines (lines_of m).
Proof.
  intros Hm. unfold short_lines. rewrite split_lines_of by done. apply Forall_app. split; [|apply Forall_singleton; by apply below_fifo].
  apply Forall_map. eapply Forall_impl; [done|]. intros i Hi. pose proof (gf_length _ Hi).
  rewrite !length_app. simpl. unfold HEADER_FIFO_SIZE in *. lia.
Qed.

(** C37: the fields that [headers_dup()] writes, which are all but the hop-by-hop ones, are what
    [header_parse_buffer()] reads, up to their order, the names in lower case and the values without leading white space;
    for all fields with a valid name and a valid value whose line is shorter than the FIFO
    buffer of the parser (4096 bytes; with a longer line it never ends, see [long_line_never_ends]), and for every size of
    the chunks of the growing buffer in which [header_write()] may be used. *)
Theorem headers_roundtrip m :
  (1028 <= chunk_capacity)%nat -> Forall good_field m ->
  exists gb, headers_dup m = Some gb /\
    contents gb = lines_of (List.filter end_to_end m) /\
    forall fuel, Z.of_nat (length (contents gb)) < Zpos fuel ->
    exists m', header_parse_buffer fuel [] gb = Some m' /\ m' ≡ₚ map read_field (List.filter end_to_end m).
Proof.
  intros Hcap Hm. assert (Hready : gb_ready GrowingBuffer_new) by (split; [apply WF_new|done|constructor]).
  destruct (headers_copy_most_ready m Hcap) with (gb := GrowingBuffer_new) as (u & gb & E & Hgb & Hc); [|done|].
  { eapply Forall_impl; [done|]. intros i [H1 _ _] E. by rewrite E, header_name_nonempty in H1. }
  exists gb. unfold headers_dup. rewrite E. split; [done|]. split; [done|]. intros fuel Hf. simpl in Hc.
  assert (Hg : Forall good_field (List.filter end_to_end m)).
  { rewrite Forall_forall in Hm |- *. intros i Hi. apply Hm. apply list_elem_of_In in Hi. apply list_elem_of_In.
    by apply filter_In in Hi as [? _]. }
  eexists. split.
  - apply (header_parse_buffer_lines [] gb fuel Hgb); [rewrite Hc; apply lines_of_terminated|
      rewrite Hc; by apply lines_of_short|done].
  - rewrite Hc, parse_lines_of, add_all_perm, app_nil_r by done. done.
Qed.

(** ** Where it does not end *)

(** A line that fills the FIFO buffer: nothing can be parsed and nothing more can be copied, so
    that the loop never ends. *)
Lemma long_line_never_ends s fuel : hp_more s = true -> 10 ∉ hp_buffer s ->
  strip_front (hp_buffer s) = hp_buffer s -> (forall i, fifo_room i (length (hp_buffer s)) = 0%nat) ->
  while fuel header_parse_step s = None.
Proof.
  intros H1 H2 H3 H4. unfold while, mbnd.
  assert (Hloop : forall p s', hp_more s' = true -> hp_buffer s' = hp_buffer s ->
    exists s2, ploop p header_parse_step s' = Some (false, s2) /\ hp_more s2 = true /\ hp_buffer s2 = hp_buffer s).
  { assert (Hstep : forall s', hp_more s' = true -> hp_buffer s' = hp_buffer s ->
      exists s2, header_parse_step s' = Some (true, s2) /\ hp_more s2 = true /\ hp_buffer s2 = hp_buffer s).
    { intros s' M1 M2. unfold header_parse_step, fill_buffer. rewrite M1, M2, H4. cbn -[parse_lines].
      rewrite andb_false_r. pose proof (find_lf (hp_buffer s)) as Hf. simpl. rewrite H3.
      destruct (find_index _ _) as [i|]; [|by eexists].
      destruct Hf as (b & E & _ & _ & _). exfalso. apply H2. rewrite E. apply elem_of_app. right. by left. }
    induction p as [q IH|q IH|]; intros s' M1 M2; simpl; unfold mbnd.
    - destruct (Hstep s' M1 M2) as (s1 & -> & A1 & A2). destruct (IH s1 A1 A2) as (s2 & -> & B1 & B2).
      by apply IH.
    - destruct (IH s' M1 M2) as (s1 & -> & A1 & A2). by apply IH.
    - destruct (Hstep s' M1 M2) as (s1 & -> & A1 & A2). by exists s1. }
  destruct (Hloop fuel s H1 eq_refl) as (s2 & -> & _). done.
Qed.

End Facts.

(** ** Examples *)

#[export] Instance ConcreteHeaderLib : HeaderLib := {|
  http_header_name_valid name :=
    negb (bool_decide (name = [])) && forallb (fun c => (32 <? c) && (c <? 127) && negb (c =? chr ":")) name;
  http_header_is_hop_by_hop name :=
    bool_decide (name ∈ map str ["connection"; "transfer-encoding"; "upgrade"; "te"; "keep-alive"]%string) |}.

(** All of the room, as if the contents were always at the beginning of the buffer. *)
#[export] Instance ShiftedFifo : StaticFifo := {| fifo_room i n := (HEADER_FIFO_SIZE - n)%nat |}.

#[local] Existing Instance AsciiChars.
Import ListTrie.

#[export] Instance ConcreteHeaderLaws : HeaderLaws.
Proof.
  split; [done..|]. intros name c H Hc. simpl in H. simpl_bool.
  apply forallb_forall with (x := c) in H0; [|by apply list_elem_of_In]. simpl_bool.
  split; [|done]. apply Z.leb_gt. lia.
Qed.

#[export] Instance ShiftedFifoLaws : StaticFifoLaws.
Proof. split; simpl; intros i n; lia. Qed.

#[local] Instance test_chunk : ChunkSize := {| chunk_capacity := 2048; chunk_capacity_pos := ltac:(lia) |}.

Definition some_fields : StringMap :=
  [(str "content-type", str "text/plain"); (str "connection", str "close"); (str "x-empty", []); (str "X-Foo", str "  bar")].

Lemma some_fields_good : Forall good_field some_fields.
Proof.
  assert (H : forall i, i ∈ some_fields -> good_field i); [|by apply Forall_forall].
  unfold some_fields. intros i Hi. repeat apply elem_of_cons in Hi as [->|Hi]; [..|by apply elem_of_nil in Hi];
    (split; [vm_compute; reflexivity..|apply below_fifo; vm_compute; reflexivity]).
Qed.

Lemma headers_roundtrip_witness : exists gb, headers_dup some_fields = Some gb /\
  contents gb = lines_of (List.filter end_to_end some_fields) /\
  forall fuel, Z.of_nat (length (contents gb)) < Zpos fuel ->
  exists m', header_parse_buffer fuel [] gb = Some m' /\
    m' ≡ₚ [(str "content-type", str "text/plain"); (str "x-empty", []); (str "x-foo", str "bar")].
Proof.
  assert (E : map read_field (List.filter end_to_end some_fields) =
    [(str "content-type", str "text/plain"); (str "x-empty", []); (str "x-foo", str "bar")]) by (vm_compute; reflexivity).
  rewrite <- E. apply (headers_roundtrip some_fields); [simpl; lia|apply some_fields_good].
Defined.

(** Two chunks that are cut inside of a line; invalid lines are ignored. *)
Definition some_text : GrowingBuffer :=
  mkGB [str "Foo: Bar" ++ [13]; [10] ++ str "garbage" ++ [10] ++ str " X-Y :z" ++ [13; 13; 10; 10] ++ str "a:"; str "b" ++ [10]] 0.

Lemma header_parse_buffer_lines_witness :
  header_parse_buffer 100 [] some_text = Some (parse_text [] (contents some_text)) /\
  parse_text [] (contents some_text) = [(str "a", str "b"); (str "foo", str "Bar")].
Proof.
  split; [|vm_compute; reflexivity]. apply (header_parse_buffer_lines [] some_text 100).
  - split; [split|done|]; [|simpl; lia|simpl; lia|]; repeat (apply Forall_cons; split); try done;
      apply (proj1 (Nat.leb_le _ _)); vm_compute; reflexivity.
  - right. vm_compute. reflexivity.
  - unfold short_lines.
    replace (split_lines _) with [str "Foo: Bar" ++ [13]; str "garbage"; str " X-Y :z" ++ [13; 13]; []; str "a:b"; []]
      by (vm_compute; reflexivity).
    repeat (apply Forall_cons; split; [apply below_fifo; vm_compute; reflexivity|]); apply Forall_nil_2.
  - vm_compute. reflexivity.
Defined.

(** A last line without a line break moves the pointer behind the end of the buffer, where
    [memchr()] is asked for a huge number of bytes. *)
Example unterminated_line : header_parse_buffer 100 [] (mkGB [str "foo: bar"] 0) = None.
Proof. vm_compute. reflexivity. Qed.
