(* ===== verification/Fcgi.v ===== *)
(** * FastCGI: records and requests

    Models src/fcgi/Protocol.hxx, Serialize.hxx and Serialize.cxx, the request that
    [fcgi_client_request()] of src/fcgi/Client.cxx serializes, and the parser of records
    (src/fcgi/Parser.hxx, Parser.cxx).

    A [GrowingBuffer] is the list of the bytes that have been written to it ([GrowingBufferFacts]
    shows that writing appends); the pointer to a record header is its offset.  [None] is a failed
    assertion. *)

From Stdlib Require Import String.
From S2P Require Import Prelude CharUtil StrMap Uri.

#[local] Open Scope beng_scope.

(** ** The protocol *)

(** [PackedBE16], [PackedBE32] and [ToBE32()]: the most significant byte first; larger numbers are truncated. *)
Definition be16 (x : Z) : list Z := [x / 256 mod 256; x mod 256].
Definition be32 (x : Z) : list Z := [x / 16777216 mod 256; x / 65536 mod 256; x / 256 mod 256; x mod 256].
Definition from_be16 (hi lo : Z) : Z := hi * 256 + lo.

Definition FCGI_VERSION_1 : Z := 1.

(** A [FcgiRecordType] is read from the network, so that it may be any byte. *)
Definition FcgiRecordType := Z.
Definition BEGIN_REQUEST : FcgiRecordType := 1.
Definition ABORT_REQUEST : FcgiRecordType := 2.
Definition END_REQUEST : FcgiRecordType := 3.
Definition PARAMS : FcgiRecordType := 4.
Definition STDIN : FcgiRecordType := 5.
Definition STDOUT : FcgiRecordType := 6.
Definition STDERR : FcgiRecordType := 7.

Record FcgiRecordHeader := mkRecord {
  version : Z;
  type : FcgiRecordType;
  request_id : Z;
  content_length : Z;
  padding_length : Z }.

Definition sizeof_FcgiRecordHeader : nat := 8.

(** The bytes of the packed struct; [reserved] is zero. *)
Definition header_bytes (h : FcgiRecordHeader) : list Z :=
  [version h; type h] ++ be16 (request_id h) ++ be16 (content_length h) ++ [padding_length h; 0].

(** The struct at the beginning of these bytes. *)
Definition header_of (s : list Z) : FcgiRecordHeader :=
  let b := fun i => default 0 (s !! i) in
  mkRecord (b 0%nat) (b 1%nat) (from_be16 (b 2%nat) (b 3%nat)) (from_be16 (b 4%nat) (b 5%nat)) (b 6%nat).

Definition RESPONDER : Z := 1.
Definition FCGI_FLAG_KEEP_CONN : Z := 1.

(** [FcgiBeginRequest] *)
Definition begin_request_bytes (role flags : Z) : list Z := be16 role ++ [flags; 0; 0; 0; 0; 0].

(** ** Serializing records *)

Record FcgiRecordSerializer := mkRecordSerializer {
  rs_buffer : list Z;
  rs_header : nat }.

Definition FcgiRecordSerializer_new (buffer : list Z) (type : FcgiRecordType) (request_id_be : Z)
    : FcgiRecordSerializer :=
  mkRecordSerializer (buffer ++ header_bytes (mkRecord FCGI_VERSION_1 type request_id_be 0 0)) (length buffer).

(** Writing to the header: its field [content_length]. *)
Definition patch (s : list Z) (pos : nat) (v : list Z) : list Z := take pos s ++ v ++ drop (pos + length v) s.

Definition FcgiRecordSerializer_Commit (r : FcgiRecordSerializer) (content_length : Z) : option (list Z) :=
  if content_length <? Z.shiftl 1 16 then Some (patch (rs_buffer r) (rs_header r + 4) (be16 content_length))
  else None.

(** The result is the number of bytes, and the buffer. *)
Definition fcgi_serialize_length (gb : list Z) (length_ : Z) : Z * list Z :=
  if length_ <? 0x80 then (1, gb ++ [length_])
  else (4, gb ++ be32 (wrap 32 (Z.lor length_ 0x80000000))).

Definition fcgi_serialize_pair (gb name value : list Z) : Z * list Z :=
  let '(size1, gb) := fcgi_serialize_length gb (Z.of_nat (length name)) in
  let '(size2, gb) := fcgi_serialize_length gb (Z.of_nat (length value)) in
  (size1 + size2 + Z.of_nat (length name) + Z.of_nat (length value), gb ++ name ++ value).

Record FcgiParamsSerializer := mkParams {
  ps_record : FcgiRecordSerializer;
  ps_content_length : Z }.

Definition FcgiParamsSerializer_new (buffer : list Z) (request_id_be : Z) : FcgiParamsSerializer :=
  mkParams (FcgiRecordSerializer_new buffer PARAMS request_id_be) 0.

(** [operator()]; a null pointer is an empty string. *)
Definition ps_add (name value : list Z) (ps : FcgiParamsSerializer) : FcgiParamsSerializer :=
  let '(n, gb) := fcgi_serialize_pair (rs_buffer (ps_record ps)) name value in
  mkParams (mkRecordSerializer gb (rs_header (ps_record ps))) (ps_content_length ps + n).

Definition ps_add_ptr (name : list Z) (value : option (list Z)) (ps : FcgiParamsSerializer) : FcgiParamsSerializer :=
  ps_add name (default [] value) ps.

(** Two more functions of util/CharUtil.hxx. *)
Class CaseChars := {
  IsLowerAlphaASCII : Z -> bool;
  IsUpperAlphaASCII : Z -> bool }.

Section Serialize.
Context `{CU : CharUtil} `{CC : CaseChars}.

Definition header_char (c : Z) : Z :=
  if IsLowerAlphaASCII c then c - chr "a" + chr "A"
  else if IsUpperAlphaASCII c || IsDigitASCII c then c
  else chr "_".

(** The buffer has 512 bytes; [5 + i < sizeof(buffer) - 1]. *)
Definition header_param (key : list Z) : list Z := str "HTTP_" ++ map header_char (take 506 key).

Definition FcgiParamsSerializer_Headers (headers : StringMap) (ps : FcgiParamsSerializer) : FcgiParamsSerializer :=
  fold_left (fun ps pair =>
    if bool_decide (fst pair = str "x-cm4all-https") then ps else ps_add (header_param (fst pair)) (snd pair) ps)
    headers ps.

Definition FcgiParamsSerializer_Commit (ps : FcgiParamsSerializer) : option (list Z) :=
  FcgiRecordSerializer_Commit (ps_record ps) (ps_content_length ps).

End Serialize.

(** ** The request *)

Record FcgiRequest := mkFcgiRequest {
  (** [http_method_to_string()] *)
  fr_method : list Z;
  fr_uri : list Z;
  fr_script_filename : option (list Z);
  fr_script_name : option (list Z);
  fr_path_info : option (list Z);
  fr_query_string : option (list Z);
  fr_document_root : option (list Z);
  fr_remote_addr : option (list Z);
  fr_headers : StringMap;
  (** is there a body, and what [GetAvailable(false)] returns for it *)
  fr_body : option Z;
  fr_params : list (list Z) }.

(** [PRODUCT_TOKEN] of product.h, and the decimal representation of a number ([fmt::format_int]). *)
Class FcgiEnv := {
  PRODUCT_TOKEN : list Z;
  format_int : Z -> list Z }.

Section Request.
Context `{CU : CharUtil} `{CC : CaseChars} `{UL : UriLib} `{TO : TrieOrder} `{FE : FcgiEnv}.

(** The loop over the parameters "NAME=VALUE". *)
Definition add_params (params : list (list Z)) (ps : FcgiParamsSerializer) : FcgiParamsSerializer :=
  fold_left (fun ps param =>
    match Split param (chr "=") with
    | (name, Some value) => if bool_decide (name = []) then ps else ps_add name value ps
    | (_, None) => ps
    end) params ps.

Definition when {A B} (o : option A) (f : A -> B -> B) (b : B) : B := from_option (fun a => f a b) b o.

(** The parameters up to the last [ps.Commit()]. *)
Definition request_params (r : FcgiRequest) (ps : FcgiParamsSerializer) : FcgiParamsSerializer :=
  let ps := ps_add (str "REQUEST_METHOD") (fr_method r) ps in
  let ps := ps_add (str "REQUEST_URI") (fr_uri r) ps in
  let ps := ps_add_ptr (str "SCRIPT_FILENAME") (fr_script_filename r) ps in
  let ps := ps_add_ptr (str "SCRIPT_NAME") (fr_script_name r) ps in
  let ps := ps_add_ptr (str "PATH_INFO") (fr_path_info r) ps in
  let ps := ps_add_ptr (str "QUERY_STRING") (fr_query_string r) ps in
  let ps := ps_add_ptr (str "DOCUMENT_ROOT") (fr_document_root r) ps in
  let ps := ps_add (str "SERVER_SOFTWARE") PRODUCT_TOKEN ps in
  let ps := when (fr_remote_addr r) (ps_add (str "REMOTE_ADDR")) ps in
  let ps := match fr_body r with
            | Some available =>
                if 0 <=? available then
                  ps_add (str "CONTENT_LENGTH") (format_int available)
                    (ps_add (str "HTTP_CONTENT_LENGTH") (format_int available) ps)
                else ps
            | None => ps
            end in
  let ps := when (StringMap_Get (str "content-type") (fr_headers r)) (ps_add (str "CONTENT_TYPE")) ps in
  let ps := match StringMap_Get (str "x-cm4all-https") (fr_headers r) with
            | Some https => if bool_decide (https = str "on") then ps_add (str "HTTPS") https ps else ps
            | None => ps
            end in
  let ps := FcgiParamsSerializer_Headers (fr_headers r) ps in
  add_params (fr_params r) ps.

(** [id]: the static variable [next_request_id], after it was incremented.  The result is what the buffer
    contains; a body follows as the records of [istream_fcgi_new()]. *)
Definition fcgi_client_request (id : Z) (r : FcgiRequest) : option (list Z) :=
  let header type_ length_ := header_bytes (mkRecord FCGI_VERSION_1 type_ (wrap 16 id) length_ 0) in
  let begin_request := begin_request_bytes RESPONDER FCGI_FLAG_KEEP_CONN in
  let buffer := header BEGIN_REQUEST (Z.of_nat (length begin_request)) ++ begin_request in
  match FcgiParamsSerializer_Commit (request_params r (FcgiParamsSerializer_new buffer (wrap 16 id))) with
  | None => None
  | Some buffer =>
      let buffer := buffer ++ header PARAMS 0 in
      Some (match fr_body r with
            | Some _ => buffer
            | None => buffer ++ header STDIN 0
            end)
  end.

End Request.

(** ** FastCGI: the parser of records

    Models src/fcgi/Parser.hxx and Parser.cxx: the incremental parser that cuts the input into
    records and shows them to a handler.  The handler is a record of functions on a state of its
    own; it may be the client, or one of the objects that look ahead in its buffer. *)

#[local] Open Scope beng_scope.

Inductive FrameResult := SKIP | CONTINUE | STOP | CLOSED.

(** [OK] is never returned. *)
Inductive FeedResult := FEED_OK | FEED_BLOCKING | FEED_MORE | FEED_STOP | FEED_CLOSED.

Record FcgiFrameHandler (H : Type) := mkFrameHandler {
  OnFrameConsumed : nat -> M H unit;
  OnFrameHeader : FcgiRecordType -> Z -> M H FrameResult;
  OnFramePayload : list Z -> M H (FrameResult * nat);
  OnFrameEnd : M H FrameResult }.
Arguments OnFrameConsumed {H} _ _.
Arguments OnFrameHeader {H} _ _ _.
Arguments OnFramePayload {H} _ _.
Arguments OnFrameEnd {H} _.

Record FcgiParser := mkFcgiParser {
  remaining : nat;
  skip : nat;
  in_frame : bool }.

Definition FcgiParser_new : FcgiParser := mkFcgiParser 0 0 false.

Definition GetRemaining (p : FcgiParser) : nat := remaining p.

Definition SkipCurrent (p : FcgiParser) : FcgiParser := mkFcgiParser 0 (skip p + remaining p) (in_frame p).

(** What a part of the loop does: [continue] with the next iteration, go on to the next part, or
    [return]. *)
Inductive feed_next :=
  | Again (p : FcgiParser) (src : list Z)
  | Next (p : FcgiParser) (src : list Z)
  | Return (r : FeedResult) (p : FcgiParser).

Section Feed.
Context {H : Type} (handler : FcgiFrameHandler H).

(** [if (remaining > 0)] *)
Definition feed_payload (p : FcgiParser) (src : list Z) : M H feed_next :=
  if (remaining p =? 0)%nat then mret (Next p src)
  else
    massert (in_frame p) ;;;
    if bool_decide (src = []) then mret (Return FEED_MORE p)
    else
      let payload := take (remaining p) src in
      let! (result, consumed) := OnFramePayload handler payload in
      if (consumed =? 0)%nat then
        mret (match result with
              | SKIP => Again (SkipCurrent p) src
              | CONTINUE => Return FEED_BLOCKING p
              | STOP => Return FEED_STOP p
              | CLOSED => Return FEED_CLOSED p
              end)
      else
        massert (consumed <=? length payload)%nat ;;;
        OnFrameConsumed handler consumed ;;;
        let p := mkFcgiParser (remaining p - consumed) (skip p) (in_frame p) in
        let src := drop consumed src in
        mret (match result with
              | SKIP => Again (SkipCurrent p) src
              | CONTINUE =>
                  if (0 <? remaining p)%nat then
                    Return (if (consumed <? length payload)%nat then FEED_BLOCKING else FEED_MORE) p
                  else Next p src
              | STOP => Return FEED_STOP p
              | CLOSED => Return FEED_CLOSED p
              end).

(** [if (skip > 0)] *)
Definition feed_skip (p : FcgiParser) (src : list Z) : M H feed_next :=
  if (skip p =? 0)%nat then mret (Next p src)
  else
    massert (in_frame p) ;;;
    if (length src <? skip p)%nat then
      OnFrameConsumed handler (length src) ;;;
      mret (Return FEED_MORE (mkFcgiParser (remaining p) (skip p - length src) (in_frame p)))
    else
      OnFrameConsumed handler (skip p) ;;;
      mret (Next (mkFcgiParser (remaining p) 0 (in_frame p)) (drop (skip p) src)).

(** [if (in_frame)] *)
Definition feed_end (p : FcgiParser) (src : list Z) : M H feed_next :=
  if in_frame p then
    let p := mkFcgiParser (remaining p) (skip p) false in
    let! result := OnFrameEnd handler in
    mret (match result with
          | SKIP | CONTINUE => Next p src
          | STOP => Return FEED_STOP p
          | CLOSED => Return FEED_CLOSED p
          end)
  else mret (Next p src).

(** The header of the next record. *)
Definition feed_header (p : FcgiParser) (src : list Z) : M H feed_next :=
  if (length src <? sizeof_FcgiRecordHeader)%nat then mret (Return FEED_MORE p)
  else
    let header := header_of src in
    let p := mkFcgiParser (Z.to_nat (content_length header)) (Z.to_nat (padding_length header)) true in
    OnFrameConsumed handler sizeof_FcgiRecordHeader ;;;
    let src := drop sizeof_FcgiRecordHeader src in
    let! result := OnFrameHeader handler (type header) (request_id header) in
    mret (match result with
          | SKIP => Again (SkipCurrent p) src
          | CONTINUE => Again p src
          | STOP => Return FEED_STOP p
          | CLOSED => Return FEED_CLOSED p
          end).

Definition feed_then (m : M H feed_next) (k : FcgiParser -> list Z -> M H feed_next) : M H feed_next :=
  let! n := m in
  match n with Next p src => k p src | _ => mret n end.

(** One iteration. *)
Definition feed_step (p : FcgiParser) (src : list Z) : M H feed_next :=
  feed_then (feed_then (feed_then (feed_payload p src) feed_skip) feed_end) feed_header.

Fixpoint Feed_loop (fuel : nat) (p : FcgiParser) (src : list Z) : M H (FeedResult * FcgiParser) :=
  match fuel with
  | O => mfail
  | S fuel =>
      let! n := feed_step p src in
      match n with
      | Again p src | Next p src => Feed_loop fuel p src
      | Return r p => mret (r, p)
      end
  end.

(** Every iteration consumes a header, or it skips the rest of a record. *)
Definition Feed (p : FcgiParser) (src : list Z) : M H (FeedResult * FcgiParser) :=
  Feed_loop (2 * length src + 2) p src.

End Feed.
