(* ===== verification/FcgiFacts.v ===== *)
(** * FastCGI: what the application receives

    A reference decoder of records and of name-value pairs, written from the FastCGI
    specification, reads back from a serialized request exactly its parameters. *)

From Stdlib Require Import String.
From S2P Require Import Prelude CharUtil StrMap Uri Fcgi.

#[local] Open Scope beng_scope.

(** ** The reference decoder *)

(** A length: one byte, or four if its most significant bit is set. *)
Definition decode_length (s : list Z) : option (Z * list Z) :=
  match s with
  | b3 :: s1 =>
      if b3 <? 128 then Some (b3, s1)
      else match s1 with
      | b2 :: b1 :: b0 :: s2 => Some ((b3 - 128) * 16777216 + b2 * 65536 + b1 * 256 + b0, s2)
      | _ => None
      end
  | [] => None
  end.

Definition decode_pair (s : list Z) : option (list Z * list Z * list Z) :=
  '(n, s) ← decode_length s; '(v, s) ← decode_length s;
  if (Z.to_nat n + Z.to_nat v <=? length s)%nat then
    Some (take (Z.to_nat n) s, take (Z.to_nat v) (drop (Z.to_nat n) s), drop (Z.to_nat n + Z.to_nat v) s)
  else None.

(** Every pair has at least two bytes. *)
Fixpoint decode_pairs (fuel : nat) (s : list Z) : option (list (list Z * list Z)) :=
  match s with
  | [] => Some []
  | _ => match fuel with
         | O => None
         | S fuel' => '(n, v, s') ← decode_pair s; l ← decode_pairs fuel' s'; Some ((n, v) :: l)
         end
  end.

(** A record: its type, its request id and its content. *)
Definition record : Type := Z * Z * list Z.

Fixpoint decode_records (fuel : nat) (s : list Z) : option (list record) :=
  match s with
  | [] => Some []
  | _ => match fuel with
         | O => None
         | S fuel' =>
             let h := header_of s in
             let n := Z.to_nat (content_length h) in
             if (length s <? 8 + n + Z.to_nat (padding_length h))%nat then None
             else l ← decode_records fuel' (drop (8 + n + Z.to_nat (padding_length h)) s);
                  Some ((type h, request_id h, take n (drop 8 s)) :: l)
         end
  end.

(** ** Numbers *)

Lemma from_be16_bytes x : 0 <= x < 65536 -> from_be16 (x / 256 mod 256) (x mod 256) = x.
Proof.
  intros Hx. unfold from_be16. rewrite (Z.mod_small (x / 256)); [|split; [apply Z.div_pos; lia|apply Z.div_lt_upper_bound; lia]].
  pose proof (Z.div_mod x 256). lia.
Qed.

Lemma high_bit x : 0 <= x < 2 ^ 31 -> Z.lor x 0x80000000 = x + 2 ^ 31.
Proof.
  intros Hx. change 0x80000000 with (2 ^ 31). rewrite <-Z.lxor_lor, <-Z.add_nocarry_lxor; [done|..].
  all: apply Z.bits_inj'; intros i Hi; rewrite Z.land_spec, Z.bits_0, Z.pow2_bits_eqb by lia;
    destruct (Z.eqb_spec 31 i) as [<-|]; [|apply andb_false_r];
    by rewrite andb_true_r, Z.testbit_false, Z.div_small by lia.
Qed.

Definition length_bytes (n : Z) : list Z := snd (fcgi_serialize_length [] n).

Lemma serialize_length_spec gb n :
  fcgi_serialize_length gb n = (Z.of_nat (length (length_bytes n)), gb ++ length_bytes n).
Proof. unfold length_bytes, fcgi_serialize_length. by destruct (n <? 0x80). Qed.

Lemma decode_length_bytes n s : 0 <= n < 2 ^ 31 -> decode_length (length_bytes n ++ s) = Some (n, s).
Proof.
  intros Hn. unfold length_bytes, fcgi_serialize_length. destruct (Z.ltb_spec n 0x80) as [Hl|Hl]; simpl.
  - by rewrite (proj2 (Z.ltb_lt _ _)).
  - rewrite high_bit, wrap_id by lia. set (x := n + 2 ^ 31).
    assert (Hx : x / 16777216 mod 256 = 128 + n / 16777216).
    { unfold x. change (2 ^ 31) with (128 * 16777216). rewrite Z.div_add, Z.add_comm by lia. apply Z.mod_small.
      pose proof (Z.div_pos n 16777216). assert (n / 16777216 < 128) by (apply Z.div_lt_upper_bound; lia). lia. }
    assert (Hx2 : x / 65536 mod 256 = n / 65536 mod 256).
    { unfold x. change (2 ^ 31) with (128 * 256 * 65536). rewrite Z.div_add by lia. by rewrite Z.mod_add by lia. }
    assert (Hx1 : x / 256 mod 256 = n / 256 mod 256).
    { unfold x. change (2 ^ 31) with (128 * 65536 * 256). rewrite Z.div_add by lia.
      change (128 * 65536) with (128 * 256 * 256). by rewrite Z.mod_add by lia. }
    assert (Hx0 : x mod 256 = n mod 256).
    { unfold x. change (2 ^ 31) with (8388608 * 256). by rewrite Z.mod_add by lia. }
    rewrite Hx, Hx2, Hx1, Hx0. pose proof (Z.div_pos n 16777216). rewrite (proj2 (Z.ltb_ge _ _)) by lia.
    do 2 f_equal. pose proof (Z.div_mod n 256). pose proof (Z.div_mod (n / 256) 256). pose proof (Z.div_mod (n / 65536) 256).
    rewrite !Z.div_div in * by lia. change (256 * 256) with 65536 in *. change (65536 * 256) with 16777216 in *. lia.
Qed.

(** ** Pairs *)

Definition pair_bytes (p : list Z * list Z) : list Z :=
  length_bytes (Z.of_nat (length (fst p))) ++ length_bytes (Z.of_nat (length (snd p))) ++ fst p ++ snd p.

Lemma serialize_pair_spec gb name value :
  fcgi_serialize_pair gb name value =
    (Z.of_nat (length (pair_bytes (name, value))), gb ++ pair_bytes (name, value)).
Proof.
  unfold fcgi_serialize_pair. rewrite !serialize_length_spec. unfold pair_bytes. simpl.
  rewrite !length_app, <-!app_assoc. f_equal. lia.
Qed.

Lemma decode_pair_bytes p s : Z.of_nat (length (fst p)) < 2 ^ 31 -> Z.of_nat (length (snd p)) < 2 ^ 31 ->
  decode_pair (pair_bytes p ++ s) = Some (fst p, snd p, s).
Proof.
  intros Hn Hv. unfold decode_pair, pair_bytes. rewrite <-!app_assoc, decode_length_bytes by lia. simpl.
  rewrite decode_length_bytes by lia. simpl. rewrite !Nat2Z.id, !length_app.
  rewrite (proj2 (Nat.leb_le _ _)) by lia. rewrite take_app_length, drop_app_length.
  rewrite take_app_length, <-drop_drop, drop_app_length, drop_app_length. done.
Qed.

Lemma length_bytes_nonempty n : (0 < length (length_bytes n))%nat.
Proof. unfold length_bytes, fcgi_serialize_length. destruct (n <? 0x80); simpl; lia. Qed.

Lemma decode_pairs_bytes l : forall fuel,
  (length (concat (map pair_bytes l)) <= fuel)%nat -> Z.of_nat (length (concat (map pair_bytes l))) < 2 ^ 31 ->
  decode_pairs fuel (concat (map pair_bytes l)) = Some l.
Proof.
  induction l as [|p l IH]; intros fuel Hf Hs; [by destruct fuel|]. simpl in *. rewrite length_app in Hf, Hs.
  assert (Hp : (0 < length (pair_bytes p))%nat).
  { unfold pair_bytes. rewrite length_app. pose proof (length_bytes_nonempty (Z.of_nat (length (fst p)))). lia. }
  destruct fuel as [|fuel]; [lia|].
  assert (E : decode_pair (pair_bytes p ++ concat (map pair_bytes l)) = Some (fst p, snd p, concat (map pair_bytes l))).
  { apply decode_pair_bytes; unfold pair_bytes in Hs; rewrite !length_app in Hs; lia. }
  remember (pair_bytes p ++ concat (map pair_bytes l)) as s eqn:Es. destruct s as [|c s].
  { apply (f_equal length) in Es. rewrite length_app in Es. simpl in Es. lia. }
  cbn [decode_pairs]. rewrite E. cbn [mbind option_bind]. rewrite IH by lia. cbn. by destruct p.
Qed.

(** ** Records *)

Definition header_ok (h : FcgiRecordHeader) : Prop :=
  0 <= request_id h < 65536 /\ 0 <= content_length h < 65536 /\ 0 <= padding_length h < 256.

Lemma header_of_bytes h s : header_ok h -> header_of (header_bytes h ++ s) = h.
Proof.
  intros (Hi & Hc & Hp). destruct h as [v t i n p]. unfold header_of, header_bytes. simpl in *.
  by rewrite !from_be16_bytes by lia.
Qed.

(** A record without padding. *)
Definition record_bytes (r : record) : list Z :=
  header_bytes (mkRecord FCGI_VERSION_1 (r.1.1) (r.1.2) (Z.of_nat (length r.2)) 0) ++ r.2.

Definition record_ok (r : record) : Prop := 0 <= r.1.2 < 65536 /\ Z.of_nat (length r.2) < 65536.

Lemma decode_records_cons r s fuel : record_ok r ->
  decode_records (S fuel) (record_bytes r ++ s) = l ← decode_records fuel s; Some (r :: l).
Proof.
  intros [Hi Hn]. destruct r as [[t i] c]. unfold record_bytes. cbn [fst snd] in *. rewrite <-app_assoc.
  set (h := mkRecord FCGI_VERSION_1 t i (Z.of_nat (length c)) 0).
  assert (Eh : header_of (header_bytes h ++ c ++ s) = h) by (apply header_of_bytes; split_and!; simpl; lia).
  assert (El : length (header_bytes h) = 8%nat) by done.
  remember (header_bytes h ++ c ++ s) as x eqn:Ex. destruct x as [|b x]; [done|]. cbn [decode_records]. rewrite Eh.
  cbn [content_length padding_length type request_id h]. rewrite Nat2Z.id. change (Z.to_nat 0) with 0%nat.
  rewrite Ex, !length_app, El, Nat.add_0_r, (proj2 (Nat.ltb_ge _ _)) by lia.
  rewrite <-drop_drop, <-El, !drop_app_length, take_app_length. done.
Qed.

Lemma decode_records_all l : forall fuel, Forall record_ok l -> (length l <= fuel)%nat ->
  decode_records fuel (concat (map record_bytes l)) = Some l.
Proof.
  induction l as [|r l IH]; intros fuel Hl Hf; [by destruct fuel|]. apply Forall_cons in Hl as [Hr Hl].
  destruct fuel as [|fuel]; simpl in Hf; [lia|]. cbn [map concat]. by rewrite decode_records_cons, IH by done || lia.
Qed.

(** ** Serialized parameters *)

(** The serializer has written these parameters behind the header of its record. *)
Definition encodes (before : list Z) (id : Z) (l : list (list Z * list Z)) (ps : FcgiParamsSerializer) : Prop :=
  rs_header (ps_record ps) = length before /\
  rs_buffer (ps_record ps) =
    before ++ header_bytes (mkRecord FCGI_VERSION_1 PARAMS id 0 0) ++ concat (map pair_bytes l) /\
  ps_content_length ps = Z.of_nat (length (concat (map pair_bytes l))).

Lemma encodes_new before id : encodes before id [] (FcgiParamsSerializer_new before id).
Proof. by split_and!. Qed.

Lemma encodes_add before id l name value ps : encodes before id l ps ->
  encodes before id (l ++ [(name, value)]) (ps_add name value ps).
Proof.
  intros (H1 & H2 & H3). unfold ps_add. rewrite serialize_pair_spec. unfold encodes. cbn.
  rewrite map_app, concat_app, H2, H3, length_app, <-!app_assoc. cbn. rewrite app_nil_r. split; [done|]. split; [done|lia].
Qed.

Lemma encodes_fold {A} (f : FcgiParamsSerializer -> A -> FcgiParamsSerializer) (g : A -> list (list Z * list Z))
    before id (items : list A) : forall l ps,
  (forall a l ps, encodes before id l ps -> encodes before id (l ++ g a) (f ps a)) ->
  encodes before id l ps -> encodes before id (l ++ concat (map g items)) (fold_left f items ps).
Proof.
  induction items as [|a items IH]; intros l ps Hf H; simpl; [by rewrite app_nil_r|].
  rewrite app_assoc. apply IH; [done|]. by apply Hf.
Qed.

(** The content length is filled in. *)
Lemma encodes_commit before id l ps : encodes before id l ps -> 
  FcgiParamsSerializer_Commit ps =
    if Z.of_nat (length (concat (map pair_bytes l))) <? 65536
    then Some (before ++ record_bytes (PARAMS, id, concat (map pair_bytes l))) else None.
Proof.
  intros (H1 & H2 & H3). unfold FcgiParamsSerializer_Commit, FcgiRecordSerializer_Commit. rewrite H1, H2, H3.
  change (Z.shiftl 1 16) with 65536. destruct (_ <? 65536); [|done]. f_equal. unfold patch, record_bytes.
  cbn [fst snd]. set (c := concat (map pair_bytes l)). set (n := Z.of_nat (length c)).
  rewrite take_app_ge, drop_app_ge by lia. rewrite Nat.add_comm, Nat.add_sub. 
  replace (4 + length before + length (be16 n) - length before)%nat with 6%nat by (simpl; lia).
  rewrite <-!app_assoc. done.
Qed.

(** ** Requests *)

Section Facts.
Context `{CU : CharUtil} `{CC : CaseChars} `{UL : UriLib} `{TO : TrieOrder} `{FE : FcgiEnv}.

Definition optional (name : list Z) (o : option (list Z)) : list (list Z * list Z) :=
  match o with Some value => [(name, value)] | None => [] end.

(** The header fields as parameters. *)
Definition header_pair (i : list Z * list Z) : list (list Z * list Z) :=
  if bool_decide (fst i = str "x-cm4all-https") then [] else [(header_param (fst i), snd i)].

Definition param_pair (param : list Z) : list (list Z * list Z) :=
  match Split param (chr "=") with
  | (name, Some value) => if bool_decide (name = []) then [] else [(name, value)]
  | (_, None) => []
  end.

(** The parameters of a request, in their order. *)
Definition request_pairs (r : FcgiRequest) : list (list Z * list Z) :=
  [(str "REQUEST_METHOD", fr_method r); (str "REQUEST_URI", fr_uri r);
   (str "SCRIPT_FILENAME", default [] (fr_script_filename r)); (str "SCRIPT_NAME", default [] (fr_script_name r));
   (str "PATH_INFO", default [] (fr_path_info r)); (str "QUERY_STRING", default [] (fr_query_string r));
   (str "DOCUMENT_ROOT", default [] (fr_document_root r)); (str "SERVER_SOFTWARE", PRODUCT_TOKEN)] ++
  optional (str "REMOTE_ADDR") (fr_remote_addr r) ++
  match fr_body r with
  | Some available =>
      if 0 <=? available then
        [(str "HTTP_CONTENT_LENGTH", format_int available); (str "CONTENT_LENGTH", format_int available)]
      else []
  | None => []
  end ++
  optional (str "CONTENT_TYPE") (StringMap_Get (str "content-type") (fr_headers r)) ++
  (if bool_decide (StringMap_Get (str "x-cm4all-https") (fr_headers r) = Some (str "on"))
   then [(str "HTTPS", str "on")] else []) ++
  concat (map header_pair (fr_headers r)) ++ concat (map param_pair (fr_params r)).

Lemma encodes_when before id l name o ps : encodes before id l ps ->
  encodes before id (l ++ optional name o) (when o (ps_add name) ps).
Proof. intros H. destruct o; simpl; [by apply encodes_add|by rewrite app_nil_r]. Qed.

Lemma request_params_encodes before id r ps : encodes before id [] ps ->
  encodes before id (request_pairs r) (request_params r ps).
Proof.
  intros H. unfold request_params, request_pairs, ps_add_ptr. rewrite !app_assoc.
  eapply encodes_fold; [|apply encodes_fold].
  - intros p l ps' Hp. unfold param_pair. destruct (Split p _) as [name [value|]]; [|by rewrite app_nil_r].
    case_bool_decide; [by rewrite app_nil_r|by apply encodes_add].
  - intros i l ps' Hp. unfold header_pair. case_bool_decide; [by rewrite app_nil_r|by apply encodes_add].
  - assert (H8 : forall l ps', encodes before id l ps' ->
      encodes before id (l ++ (if bool_decide (StringMap_Get (str "x-cm4all-https") (fr_headers r) = Some (str "on"))
        then [(str "HTTPS", str "on")] else []))
      (match StringMap_Get (str "x-cm4all-https") (fr_headers r) with
       | Some https => if bool_decide (https = str "on") then ps_add (str "HTTPS") https ps' else ps'
       | None => ps' end)).
    { intros l ps' Hp. destruct (StringMap_Get (str "x-cm4all-https") _) as [h|]; [|by rewrite app_nil_r].
      destruct (decide (h = str "on")) as [->|Hn]; [by apply encodes_add|].
      rewrite (bool_decide_eq_false_2 (Some h = _)) by congruence. rewrite bool_decide_eq_false_2 by done. by rewrite app_nil_r. }
    apply H8, encodes_when. clear H8.
    assert (Hbody : forall l ps', encodes before id l ps' -> encodes before id (l ++ match fr_body r with
      | Some available => if 0 <=? available
          then [(str "HTTP_CONTENT_LENGTH", format_int available); (str "CONTENT_LENGTH", format_int available)] else []
      | None => [] end) (match fr_body r with
      | Some available => if 0 <=? available then ps_add (str "CONTENT_LENGTH") (format_int available)
          (ps_add (str "HTTP_CONTENT_LENGTH") (format_int available) ps') else ps'
      | None => ps' end)).
    { intros l ps' Hp. destruct (fr_body r) as [a|]; [|by rewrite app_nil_r]. destruct (0 <=? a); [|by rewrite app_nil_r].
      apply (encodes_add _ _ _ (str "HTTP_CONTENT_LENGTH") (format_int a)), (encodes_add _ _ _ (str "CONTENT_LENGTH") (format_int a)) in Hp.
      by rewrite <-app_assoc in Hp. }
    apply Hbody, encodes_when.
    refine (encodes_fold (fun ps p => ps_add p.1 p.2 ps) (fun p => [p]) before id [_; _; _; _; _; _; _; _] [] ps _ H).
    intros [name value] l ps' Hp. by apply encodes_add.
Qed.

(** What the application has received of a request: the records that the code writes itself. *)
Definition request_records (id : Z) (r : FcgiRequest) : list record :=
  [(BEGIN_REQUEST, id, begin_request_bytes RESPONDER FCGI_FLAG_KEEP_CONN);
   (PARAMS, id, concat (map pair_bytes (request_pairs r))); (PARAMS, id, [])] ++
  match fr_body r with Some _ => [] | None => [(STDIN, id, [])] end.

Definition params_size (r : FcgiRequest) : Z := Z.of_nat (length (concat (map pair_bytes (request_pairs r)))).

Lemma fcgi_client_request_spec id r :
  fcgi_client_request id r =
    if params_size r <? 65536 then Some (concat (map record_bytes (request_records (wrap 16 id) r))) else None.
Proof.
  unfold fcgi_client_request. set (before := header_bytes _ ++ begin_request_bytes _ _). set (i := wrap 16 id).
  rewrite (encodes_commit before i (request_pairs r)) by apply request_params_encodes, encodes_new.
  unfold params_size. destruct (_ <? 65536); [|done]. f_equal. unfold request_records. rewrite map_app, concat_app.
  cbn [map concat]. unfold before. fold i. rewrite <-!app_assoc. destruct (fr_body r); reflexivity.
Qed.

(** C12: Round trip: the records of a request, read by the reference decoder, are a BEGIN_REQUEST record, one PARAMS
    record from which exactly the parameters of the request are decoded, the empty PARAMS record, and
    an empty STDIN record if there is no body; the only requests that fail an assertion are
    those whose parameters need 64 kB or more. *)
Theorem fcgi_request_roundtrip id r :
  match fcgi_client_request id r with
  | Some out =>
      exists params, decode_pairs (length params) params = Some (request_pairs r) /\
      decode_records (length out) out =
        Some ([(BEGIN_REQUEST, wrap 16 id, begin_request_bytes RESPONDER FCGI_FLAG_KEEP_CONN);
               (PARAMS, wrap 16 id, params); (PARAMS, wrap 16 id, [])] ++
              match fr_body r with Some _ => [] | None => [(STDIN, wrap 16 id, [])] end)
  | None => 65536 <= params_size r
  end.
Proof.
  rewrite fcgi_client_request_spec. destruct (Z.ltb_spec (params_size r) 65536) as [Hs|Hs]; [|done].
  exists (concat (map pair_bytes (request_pairs r))). split; [apply decode_pairs_bytes; unfold params_size in Hs; lia|].
  assert (Hid : 0 <= wrap 16 id < 65536) by (apply Z.mod_pos_bound; lia).
  rewrite decode_records_all; [done|..].
  - unfold request_records. unfold params_size in Hs.
    apply Forall_app. split; [|destruct (fr_body r)]; repeat apply Forall_cons_2; try apply Forall_nil_2;
      (split; [exact Hid|first [exact Hs|done]]).
  - clear. generalize (request_records (wrap 16 id) r). intros l. induction l as [|x l IH]; simpl; [lia|].
    rewrite length_app. simpl. lia.
Qed.

End Facts.
