(* ===== verification/FcgiIstream.v ===== *)
(** * FastCGI: the request body

    Models src/fcgi/istream_fcgi.cxx, the istream that frames a request body in STDIN records, and
    proves that the application receives the body, for every order of calls and every handler. *)

From S2P Require Import Prelude CharUtil Uri Chunked Sink Fcgi FcgiFacts.

#[local] Open Scope beng_scope.

Record FcgiIstream := mkFcgiIstream {
  missing_from_current_record : nat;
  fi_header : list Z;
  header_sent : nat;
  fi_input : bool;
  fi_sink : Sink }.

Definition stdin_header (id : Z) (n : nat) : list Z :=
  header_bytes (mkRecord FCGI_VERSION_1 STDIN id (Z.of_nat n) 0).

Definition istream_fcgi_new (id : Z) (h : list reaction) : FcgiIstream :=
  mkFcgiIstream 0 (stdin_header id 0) 8 true (Sink_new h).

Definition fi_alive (s : FcgiIstream) : bool := alive (fi_sink s).

Definition fi_set_sink k s :=
  mkFcgiIstream (missing_from_current_record s) (fi_header s) (header_sent s) (fi_input s) k.
Definition fi_set_sent n s :=
  mkFcgiIstream (missing_from_current_record s) (fi_header s) n (fi_input s) (fi_sink s).
Definition fi_set_missing n s := mkFcgiIstream n (fi_header s) (header_sent s) (fi_input s) (fi_sink s).
Definition fi_clear_input s :=
  mkFcgiIstream (missing_from_current_record s) (fi_header s) (header_sent s) false (fi_sink s).

Definition fi_invoke (src : list Z) : M FcgiIstream nat :=
  let! s := mget in
  let! r := mopt (Invoke src (fi_sink s)) in
  mput (fi_set_sink (snd r) s) ;;; mret (fst r).

Definition fi_destroy (l : phase) : M FcgiIstream unit :=
  let! s := mget in
  let! k := mopt (DestroySink l (fi_sink s)) in
  mput (fi_set_sink k s).

Definition WriteHeader : M FcgiIstream bool :=
  let! s := mget in
  massert (header_sent s <=? 8)%nat ;;;
  let length_ := (8 - header_sent s)%nat in
  if (length_ =? 0)%nat then mret true
  else
    let! nbytes := fi_invoke (drop (header_sent s) (fi_header s)) in
    (if (0 <? nbytes)%nat then mmod (fun s => fi_set_sent (header_sent s + nbytes) s) else mret tt) ;;;
    mret (nbytes =? length_)%nat.

Definition StartRecord (id : Z) (length_ : nat) : M FcgiIstream unit :=
  let! s := mget in
  massert (missing_from_current_record s =? 0)%nat ;;;
  massert (header_sent s =? 8)%nat ;;;
  let length_ := if 0xffff <? Z.of_nat length_ then Z.to_nat 0xffff else length_ in
  mput (mkFcgiIstream length_ (stdin_header id length_) 0 (fi_input s) (fi_sink s)).

(** Every iteration but the first consumes something. *)
Fixpoint FI_OnData_loop (id : Z) (fuel : nat) (src : list Z) (total : nat) : M FcgiIstream nat :=
  match fuel with
  | O => mfail
  | S fuel' =>
      let! ok := WriteHeader in
      if negb ok then mgets (fun s => if fi_alive s then total else 0%nat)
      else
        let! s := mget in
        let continue total :=
          (let rest := (length src - total)%nat in
           if (rest =? 0)%nat then mret total
           else StartRecord id rest ;;; FI_OnData_loop id fuel' src total) in
        if (0 <? missing_from_current_record s)%nat then
          let rest := Nat.min (length src - total) (missing_from_current_record s) in
          let! nbytes := fi_invoke (take rest (drop total src)) in
          if (nbytes =? 0)%nat then mgets (fun s => if fi_alive s then total else 0%nat)
          else
            let! s := mget in
            massert (fi_alive s) ;;;
            let total := (total + nbytes)%nat in
            massert (nbytes <=? missing_from_current_record s)%nat ;;;
            let missing := (missing_from_current_record s - nbytes)%nat in
            mput (fi_set_missing missing s) ;;;
            if (0 <? missing)%nat then mret total else continue total
        else continue total
  end.

Definition FI_OnData (id : Z) (src : list Z) : M FcgiIstream nat := FI_OnData_loop id (length src + 2) src 0.

Definition FI_OnEof (id : Z) : M FcgiIstream unit :=
  let! s := mget in
  massert (fi_input s) ;;;
  massert (missing_from_current_record s =? 0)%nat ;;;
  massert (header_sent s =? 8)%nat ;;;
  mput (fi_clear_input s) ;;;
  StartRecord id 0 ;;;
  let! ok := WriteHeader in
  if ok : bool then fi_destroy AtEof else mret tt.

Definition FI_OnError : M FcgiIstream unit := mmod fi_clear_input ;;; fi_destroy AtError.

(** [available] is what the input returns for [GetAvailable(true)]; the result is whether it is asked for data. *)
Definition FI_Read (id : Z) (available : nat) : M FcgiIstream bool :=
  let! ok := WriteHeader in
  if negb ok then mret false
  else
    let! s := mget in
    if negb (fi_input s) then fi_destroy AtEof ;;; mret false
    else if (missing_from_current_record s =? 0)%nat && (0 <? available)%nat then
      StartRecord id available ;;;
      let! ok := WriteHeader in
      mret ok
    else mret true.

(** [-1]: unknown. *)
Definition FI_GetAvailable (partial : bool) (input_available : Z) (s : FcgiIstream) : Z :=
  if partial then 8 - Z.of_nat (header_sent s) + input_available else -1.

(** ** Any order of calls *)

Inductive fi_event :=
| FiData (n : nat)
| FiRead (available : nat)
| FiEof
| FiError
| FiClose.

(** The input has the bytes [input], of which the first [pos] have been consumed.  It shows at most what it has, and
    ends when all is consumed; an event that cannot happen is ignored. *)
Definition fi_step (id : Z) (input : list Z) (ev : fi_event) (w : FcgiIstream * nat) : option (FcgiIstream * nat) :=
  let '(s, pos) := w in
  if negb (fi_alive s) then Some w
  else match ev with
  | FiData n =>
      let data := take n (drop pos input) in
      if negb (fi_input s) || bool_decide (data = []) then Some w
      else '(k, s') ← FI_OnData id data s; Some (s', pos + k)%nat
  | FiRead n => '(_, s') ← FI_Read id (Nat.min n (length input - pos)) s; Some (s', pos)
  | FiEof => if fi_input s && (pos =? length input)%nat then '(_, s') ← FI_OnEof id s; Some (s', pos) else Some w
  | FiError => if fi_input s then '(_, s') ← FI_OnError s; Some (s', pos) else Some w
  | FiClose => '(_, s') ← fi_destroy Closed s; Some (s', pos)
  end.

Fixpoint fi_run (id : Z) (input : list Z) (evs : list fi_event) (w : FcgiIstream * nat) : option (FcgiIstream * nat) :=
  match evs with
  | [] => Some w
  | ev :: evs' => w ← fi_step id input ev w; fi_run id input evs' w
  end.

(** ** The invariant *)

Lemma closed_dead k : k_life k = Closed -> alive k = false.
Proof. intros H. apply bool_decide_eq_false. congruence. Qed.

Section Facts.
Context (id : Z) (input : list Z).

Definition rb (c : list Z) : list Z := record_bytes (STDIN, id, c).

Lemma rb_eq c : rb c = stdin_header id (length c) ++ c.
Proof. done. Qed.

(** An empty record would end the body. *)
Definition chunk_ok (c : list Z) : Prop := c <> [] /\ Z.of_nat (length c) <= 65535.

Definition fi_output (s : FcgiIstream) : list Z := k_output (fi_sink s).

(** Between two records. *)
Record idle (dn : list (list Z)) (pos : nat) (s : FcgiIstream) : Prop := {
  il_ok : Forall chunk_ok dn;
  il_fields : header_sent s = 8%nat /\ missing_from_current_record s = 0%nat /\ fi_input s = true;
  il_output : fi_output s = concat (map rb dn);
  il_pos : concat dn = take pos input /\ (pos <= length input)%nat }.

(** The record with the content [c] is being sent; the body is [rest] longer. *)
Record sending (dn : list (list Z)) (c rest : list Z) (pos : nat) (s : FcgiIstream) : Prop := {
  sd_ok : Forall chunk_ok dn;
  sd_input : input = concat dn ++ c ++ rest;
  sd_size : Z.of_nat (length c) <= 65535;
  sd_header : fi_header s = stdin_header id (length c);
  sd_sent : (header_sent s <= 8)%nat;
  sd_missing : (missing_from_current_record s <= length c)%nat;
  sd_start : (header_sent s < 8)%nat -> missing_from_current_record s = length c;
  sd_pos : (pos + missing_from_current_record s = length (concat dn) + length c)%nat;
  sd_output : fi_output s = concat (map rb dn) ++ take (header_sent s) (stdin_header id (length c)) ++
    take (length c - missing_from_current_record s) c;
  sd_end : if fi_input s then c <> [] else c = [] /\ rest = [] }.

(** What has been sent is the beginning of records with a beginning of the body. *)
Definition framed (out : list Z) : Prop :=
  exists l, concat l `prefix_of` input /\ out `prefix_of` concat (map rb l).

Definition active (pos : nat) (s : FcgiIstream) : Prop :=
  (exists dn, idle dn pos s) \/
  exists dn c rest, sending dn c rest pos s /\ (fi_input s = true -> (0 < missing_from_current_record s)%nat) /\
    (fi_input s = false -> (header_sent s < 8)%nat).

Definition fi_state (pos : nat) (s : FcgiIstream) : Prop :=
  match k_life (fi_sink s) with
  | Alive => active pos s
  | AtEof => exists l, Forall chunk_ok l /\ concat l = input /\ fi_output s = concat (map rb (l ++ [[]]))
  | _ => framed (fi_output s)
  end.

Lemma idle_framed dn pos s : idle dn pos s -> framed (fi_output s).
Proof.
  intros [_ _ Ho [Hp _]]. exists dn. split; [|by rewrite Ho]. rewrite Hp. apply prefix_take.
Qed.

Lemma sending_framed dn c rest pos s out : sending dn c rest pos s ->
  out `prefix_of` concat (map rb dn) ++ rb c -> framed out.
Proof.
  intros [_ Hin _ _ _ _ _ _ _ _] Hout. exists (dn ++ [c]). rewrite map_app, !concat_app. cbn. rewrite !app_nil_r.
  split; [|done]. rewrite Hin, app_assoc. by apply prefix_app_r.
Qed.

Lemma sending_output dn c rest pos s : sending dn c rest pos s -> fi_output s `prefix_of` concat (map rb dn) ++ rb c.
Proof.
  intros [_ _ _ _ Hs _ Hst _ Ho _]. rewrite Ho, rb_eq. apply prefix_app.
  destruct (decide (header_sent s < 8)%nat) as [Hl|Hl].
  - rewrite Hst, Nat.sub_diag, take_0, app_nil_r by done. apply prefix_app_r, prefix_take.
  - rewrite (take_ge (stdin_header _ _)) by (simpl; lia). apply prefix_app, prefix_take.
Qed.

Lemma sending_done dn c rest pos s : sending dn c rest pos s -> fi_input s = true -> header_sent s = 8%nat ->
  missing_from_current_record s = 0%nat -> idle (dn ++ [c]) pos s.
Proof.
  intros [H1 H2 H3 H4 H5 H6 H7 H8 H9 H10] Hin Hs Hm. rewrite Hin in H10. split; try done.
  - apply Forall_app. split; [done|]. by constructor.
  - rewrite map_app, concat_app, H9, Hs, Hm. cbn [map concat]. rewrite app_nil_r, rb_eq, Nat.sub_0_r.
    by rewrite (take_ge (stdin_header _ _)), (take_ge c) by (simpl; lia).
  - rewrite Hm, Nat.add_0_r in H8. rewrite concat_app. cbn. rewrite app_nil_r, H2. split.
    + rewrite app_assoc, take_app_le by (rewrite length_app; lia). by rewrite take_ge by (rewrite length_app; lia).
    + rewrite !length_app. lia.
Qed.

(** ** Steps *)

Lemma fi_invoke_wp src s (Q : nat -> FcgiIstream -> Prop) : fi_alive s = true -> src <> [] ->
  (forall n k, (n <= length src)%nat -> k_output k = fi_output s ++ take n src ->
     alive k = true \/ n = 0%nat /\ k_life k = Closed -> Q n (fi_set_sink k s)) ->
  wp (fi_invoke src) Q s.
Proof.
  intros Ha Hne HQ. destruct (Invoke_spec src (fi_sink s) Ha Hne) as (n & k & E & Hn & Ho & Hl).
  unfold fi_invoke. do 2 wp_step. wp_step. wp_step; [exact E|]. wp_step. wp_step. wp_step. by apply HQ.
Qed.

Lemma WriteHeader_wp dn c rest pos s (Q : bool -> FcgiIstream -> Prop) : fi_alive s = true ->
  sending dn c rest pos s ->
  (forall s', fi_alive s' = true -> sending dn c rest pos s' -> header_sent s' = 8%nat ->
     missing_from_current_record s' = missing_from_current_record s -> fi_input s' = fi_input s -> Q true s') ->
  (forall s', fi_alive s' = true -> sending dn c rest pos s' -> (header_sent s' < 8)%nat -> 
     missing_from_current_record s' = missing_from_current_record s -> fi_input s' = fi_input s -> Q false s') ->
  (forall s', k_life (fi_sink s') = Closed -> framed (fi_output s') -> Q false s') ->
  wp WriteHeader Q s.
Proof.
  intros Ha Hs Ht Hf Hc. pose proof Hs as [H1 H2 H3 H4 H5 H6 H7 H8 H9 H10]. unfold WriteHeader. do 2 wp_step. wp_step.
  wp_step; [by apply Nat.leb_le|]. destruct (Nat.eqb_spec (8 - header_sent s) 0) as [E|E].
  { wp_step. apply Ht; try done. lia. }
  assert (El : length (stdin_header id (length c)) = 8%nat) by done.
  wp_step. apply fi_invoke_wp; [done|rewrite H4; intros Hd; apply (f_equal length) in Hd; rewrite length_drop, El in Hd; simpl in Hd; lia|].
  intros n k Hn Ho Hl. cbv beta. rewrite H4, length_drop, El in Hn. rewrite H4 in Ho.
  assert (Hout : fi_output s ++ take n (drop (header_sent s) (stdin_header id (length c))) =
    concat (map rb dn) ++ take (header_sent s + n) (stdin_header id (length c))).
  { rewrite H9, H7, Nat.sub_diag, take_0, app_nil_r by lia. rewrite <-app_assoc. f_equal. apply take_take_drop. }
  destruct Hl as [Hl|[-> Hl]].
  - assert (Hs' : forall s', s' = fi_set_sent (header_sent s + n) (fi_set_sink k s) -> sending dn c rest pos s').
    { intros s' ->. split; try done; cbn; [lia|intros; apply H7; lia|]. unfold fi_output. cbn. rewrite Ho, Hout, H7, Nat.sub_diag, take_0 by lia.
      by rewrite app_nil_r. }
    wp_step. destruct (Nat.ltb_spec 0 n) as [Hp|Hp]; wp_step; wp_step.
    + destruct (Nat.eqb_spec n (8 - header_sent s)) as [->|Hne].
      * apply Ht; try done; [by apply Hs'|cbn; lia].
      * apply Hf; try done; [by apply Hs'|cbn; lia].
    + assert (n = 0)%nat as -> by lia. rewrite (proj2 (Nat.eqb_neq _ _)) by lia.
      apply Hf; try done; [|cbn; lia]. apply Hs'. unfold fi_set_sent. cbn. by rewrite Nat.add_0_r.
  - wp_step. change (0 <? 0)%nat with false. cbv iota. wp_step. wp_step. rewrite (proj2 (Nat.eqb_neq _ _)) by lia. apply Hc; [done|]. unfold fi_output. cbn.
    rewrite Ho, take_0, app_nil_r. eapply sending_framed; [done|by eapply sending_output].
Qed.

Lemma StartRecord_wp dn pos s n (Q : unit -> FcgiIstream -> Prop) : idle dn pos s -> (0 < n <= length input - pos)%nat ->
  (forall s' c rest, sending dn c rest pos s' -> missing_from_current_record s' = length c -> (0 < length c <= n)%nat ->
     fi_input s' = true -> fi_sink s' = fi_sink s -> Q tt s') ->
  wp (StartRecord id n) Q s.
Proof.
  intros [H1 (Hs & Hm & Hi) Ho [Hp1 Hp2]] Hn HQ. unfold StartRecord. do 2 wp_step. wp_step. wp_step; [by rewrite Hm|].
  wp_step. wp_step; [by rewrite Hs|]. wp_step. set (n' := if _ <? _ then _ else _).
  assert (Hn' : (0 < n' <= n)%nat /\ Z.of_nat n' <= 65535).
  { unfold n'. destruct (Z.ltb_spec 0xffff (Z.of_nat n)); lia. }
  assert (El : length (take n' (drop pos input)) = n') by (rewrite length_take, length_drop; lia).
  apply (HQ _ (take n' (drop pos input)) (drop n' (drop pos input))); cbn; rewrite ?El; try done; try lia.
  split; cbn; rewrite ?El; try done; try lia.
  - by rewrite Hp1, take_drop, take_drop.
  - rewrite Hp1, length_take. lia.
  - unfold fi_output in *. cbn. by rewrite Nat.sub_diag, take_0, Ho, app_nil_r.
  - rewrite Hi. intros E. rewrite E in El. simpl in El. lia.
Qed.

(** What [OnData()] has done when it returns: it has consumed [k] bytes, or the stream was closed. *)
Definition fed (pos : nat) (k : nat) (s : FcgiIstream) : Prop :=
  fi_alive s = true /\ active (pos + k) s \/ k_life (fi_sink s) = Closed /\ framed (fi_output s).

Lemma invoke_content dn c rest pos s n k : sending dn c rest pos s -> header_sent s = 8%nat ->
  (n <= missing_from_current_record s)%nat -> k_output k = fi_output s ++ take n (drop (length c - missing_from_current_record s) c) ->
  sending dn c rest (pos + n) (fi_set_missing (missing_from_current_record s - n) (fi_set_sink k s)).
Proof.
  intros [H1 H2 H3 H4 H5 H6 H7 H8 H9 H10] Hs Hn Ho. split; try done; cbn; try lia. 
  unfold fi_output in *. cbn. rewrite Ho, H9, <-!app_assoc. do 2 f_equal. rewrite take_take_drop. f_equal. lia.
Qed.

Lemma sending_next dn c rest pos s src : sending dn c rest pos s -> src `prefix_of` drop pos input ->
  take (Nat.min (length src) (missing_from_current_record s)) src `prefix_of` drop (length c - missing_from_current_record s) c.
Proof.
  intros [H1 H2 H3 H4 H5 H6 H7 H8 H9 H10] [x Hx].
  assert (E : drop pos input = drop (length c - missing_from_current_record s) c ++ rest).
  { rewrite H2. replace pos with (length (concat dn) + (length c - missing_from_current_record s))%nat by lia.
    rewrite <-drop_drop, drop_app_length, drop_app_le by lia. done. }
  rewrite E in Hx. set (d := drop (length c - _) c) in *.
  assert (Hd : length d = missing_from_current_record s) by (unfold d; rewrite length_drop; lia).
  apply (f_equal (take (Nat.min (length src) (missing_from_current_record s)))) in Hx.
  rewrite !take_app_le in Hx by lia. rewrite <-Hx. apply prefix_take.
Qed.

(** The rest of an iteration: [OnData()] returns, or begins another record. *)
Lemma continue_wp src fuel base total dn s :
  (forall base total s, fi_alive s = true -> fi_input s = true -> src `prefix_of` drop base input ->
    (total < length src)%nat -> active (base + total) s ->
    (length src - total + (if (missing_from_current_record s =? 0)%nat then 1 else 0) <= fuel)%nat ->
    wp (FI_OnData_loop id fuel src total) (fun k s' => (k <= length src)%nat /\ fed base k s') s) ->
  src `prefix_of` drop base input -> fi_alive s = true -> fi_input s = true -> (total <= length src)%nat ->
  (length src - total <= fuel)%nat -> (base + length src <= length input)%nat -> idle dn (base + total) s ->
  wp (let rest := (length src - total)%nat in
      if (rest =? 0)%nat then mret total else StartRecord id rest ;;; FI_OnData_loop id fuel src total)
    (fun k s' => (k <= length src)%nat /\ fed base k s') s.
Proof.
  intros IH Hsrc Ha Hin Ht Hf Hlen Hid. cbv zeta. destruct (Nat.eqb_spec (length src - total) 0) as [E|E].
  - wp_step. split; [done|]. left. split; [done|]. left. by exists dn.
  - wp_step. apply (StartRecord_wp dn (base + total)); [done|lia|]. intros s' c rest Hs Hm Hc Hi Hk.
    apply IH; try done; try lia.
    + unfold fi_alive. by rewrite Hk.
    + right. exists dn, c, rest. split; [done|]. split; [lia|congruence].
    + rewrite Hm. rewrite (proj2 (Nat.eqb_neq _ _)) by lia. lia.
Qed.

Lemma FI_OnData_loop_wp src : forall fuel base total s, fi_alive s = true -> fi_input s = true ->
  src `prefix_of` drop base input -> (total < length src)%nat -> active (base + total) s ->
  (length src - total + (if (missing_from_current_record s =? 0)%nat then 1 else 0) <= fuel)%nat ->
  wp (FI_OnData_loop id fuel src total) (fun k s' => (k <= length src)%nat /\ fed base k s') s.
Proof.
  intros fuel. induction fuel as [|fuel IH]; intros base total s Ha Hin Hsrc Ht Hact Hf; [lia|]. cbn [FI_OnData_loop].
  assert (Hlen : (base + length src <= length input)%nat).
  { apply prefix_length in Hsrc. rewrite length_drop in Hsrc. lia. }
  destruct Hact as [[dn Hid]|(dn & c & rest & Hs & Hpos & _)].
  - pose proof Hid as [_ (E8 & Em & _) _ _]. wp_step. unfold WriteHeader at 1. do 2 wp_step. wp_step.
    wp_step; [by rewrite E8|]. rewrite E8. change (8 - 8 =? 0)%nat with true. cbv iota. wp_step. cbn [negb]. do 2 wp_step. rewrite Em in Hf |- *.
    apply (continue_wp src fuel base total dn); try done; simpl in Hf; lia.
  - specialize (Hpos Hin). wp_step. eapply WriteHeader_wp; [done|exact Hs|..].
    + intros s1 Ha1 Hs1 E1 Em Ei. cbn [negb]. do 2 wp_step. rewrite Em. rewrite (proj2 (Nat.ltb_lt _ _)) by lia.
      wp_step. set (m := missing_from_current_record s) in *.
      assert (Hpre : drop total src `prefix_of` drop (base + total) input).
      { destruct Hsrc as [x Hx]. exists x. rewrite <-drop_drop, Hx, drop_app_le by lia. done. }
      pose proof (sending_next _ _ _ _ _ _ Hs1 Hpre) as Hnext. rewrite Em, length_drop in Hnext. fold m in Hnext.
      set (piece := take (Nat.min (length src - total) m) (drop total src)) in *.
      assert (El : length piece = Nat.min (length src - total) m) by (unfold piece; rewrite length_take, length_drop; lia).
      apply fi_invoke_wp; [done|intros E; rewrite E in El; simpl in El; lia|]. intros n k Hn Ho Hl. cbv beta.
      destruct (Nat.eqb_spec n 0) as [->|Hn0].
      * wp_step. rewrite take_0, app_nil_r in Ho. cbn.
        assert (Hs2 : sending dn c rest (base + total) (fi_set_sink k s1)).
        { destruct Hs1. split; try done. unfold fi_output in *. cbn. by rewrite Ho. }
        destruct Hl as [Hl|[_ Hl]].
        -- unfold fi_alive. cbn. rewrite Hl. split; [lia|]. left. split; [done|]. right.
           exists dn, c, rest. split; [done|]. cbn. split; [lia|congruence].
        -- unfold fi_alive. cbn. rewrite (closed_dead k Hl). split; [lia|]. right. split; [done|].
           eapply sending_framed; [done|by eapply sending_output].
      * destruct Hl as [Hl|[? _]]; [|done]. do 2 wp_step. wp_step. wp_step; [done|].
        cbn [missing_from_current_record fi_set_sink]. rewrite Em. fold m. wp_step. wp_step; [apply Nat.leb_le; lia|].
        wp_step. wp_step.
        assert (Hs2 : sending dn c rest (base + total + n) (fi_set_missing (m - n) (fi_set_sink k s1))).
        { rewrite <-Em. apply invoke_content; try done; [lia|]. rewrite Ho, Em. f_equal.
          destruct Hnext as [x Hx]. rewrite Hx, take_app_le by lia. done. }
        destruct (Nat.ltb_spec 0 (m - n)) as [Hm|Hm].
        -- wp_step. split; [lia|]. left. split; [done|]. right. exists dn, c, rest.
           rewrite Nat.add_assoc. split; [done|]. cbn. split; [lia|congruence].
        -- apply (continue_wp src fuel base _ (dn ++ [c])); try done; [cbn; congruence|lia|lia|]. rewrite Nat.add_assoc.
           eapply sending_done; [done|cbn; congruence|done|cbn; lia].
    + intros s1 Ha1 Hs1 Hl1 Em Ei. cbn [negb]. wp_step. rewrite Ha1. split; [lia|]. left. split; [done|].
      right. exists dn, c, rest. split; [done|]. split; [lia|congruence].
    + intros s1 Hl1 Hfr. cbn [negb]. wp_step. unfold fi_alive. rewrite (closed_dead _ Hl1). split; [lia|]. by right.
Qed.

Lemma fi_destroy_wp l s (Q : unit -> FcgiIstream -> Prop) : fi_alive s = true ->
  Q tt (fi_set_sink (set_k_life l (fi_sink s)) s) -> wp (fi_destroy l) Q s.
Proof.
  intros Ha HQ. unfold fi_destroy. do 2 wp_step. wp_step. wp_step; [unfold DestroySink; unfold fi_alive in Ha; by rewrite Ha|].
  by wp_step.
Qed.

Lemma sending_state dn c rest pos s : fi_alive s = true -> sending dn c rest pos s -> (header_sent s < 8)%nat -> fi_state pos s.
Proof.
  intros Ha%alive_true Hs Hl. unfold fi_state. rewrite Ha. right. exists dn, c, rest. split; [done|]. split; [|done].
  intros Hin. pose proof Hs as [_ _ _ _ _ _ Hst _ _ He]. rewrite Hst by done. rewrite Hin in He. destruct c; [done|simpl; lia].
Qed.

Lemma closed_state pos s : k_life (fi_sink s) = Closed -> framed (fi_output s) -> fi_state pos s.
Proof. intros Hl Hf. unfold fi_state. by rewrite Hl. Qed.

(** The end of the input: the empty record is written. *)
Lemma finished dn c rest pos s : sending dn c rest pos s -> fi_input s = false -> header_sent s = 8%nat ->
  fi_state pos (fi_set_sink (set_k_life AtEof (fi_sink s)) s).
Proof.
  intros [H1 H2 H3 H4 H5 H6 H7 H8 H9 H10] Hin Hs. rewrite Hin in H10. destruct H10 as [-> ->]. unfold fi_state. cbn.
  exists dn. split; [done|]. split; [by rewrite H2, app_nil_r|]. unfold fi_output in *. cbn. rewrite H9, Hs.
  rewrite take_ge by (simpl; lia). rewrite take_nil, map_app, concat_app. done.
Qed.

Lemma OnEof_wp s : fi_alive s = true -> fi_input s = true -> active (length input) s ->
  wp (FI_OnEof id) (fun _ s' => fi_state (length input) s') s.
Proof.
  intros Ha Hin Hact. assert (Hid : exists dn, idle dn (length input) s).
  { destruct Hact as [?|(dn & c & rest & [H1 H2 H3 H4 H5 H6 H7 H8 H9 H10] & Hp & _)]; [done|]. specialize (Hp Hin).
    apply (f_equal length) in H2. rewrite !length_app in H2. lia. }
  destruct Hid as [dn [H1 (Hs & Hm & _) Ho [Hp _]]]. rewrite take_ge in Hp by lia.
  unfold FI_OnEof. do 2 wp_step. wp_step. wp_step; [done|]. wp_step. wp_step; [by rewrite Hm|]. wp_step. wp_step; [by rewrite Hs|].
  wp_step. wp_step. wp_step. unfold StartRecord. do 2 wp_step. wp_step. wp_step; [cbn; by rewrite Hm|]. wp_step.
  wp_step; [cbn; by rewrite Hs|]. wp_step. wp_step. change (0xffff <? Z.of_nat 0) with false. cbv iota.
  eapply (WriteHeader_wp dn [] [] (length input)); [done|..].
  - split; try done; cbn; try lia.
    + by rewrite !app_nil_r, Hp.
    + rewrite Hp. lia.
    + unfold fi_output in *. cbn. by rewrite Ho, app_nil_r.
  - intros s1 Ha1 Hs1 E _ Ei. apply fi_destroy_wp; [done|]. by eapply finished.
  - intros s1 Ha1 Hs1 E _ _. wp_step. by eapply sending_state.
  - intros s1 Hl Hf. wp_step. by apply closed_state.
Qed.

Lemma Read_wp n pos s : fi_alive s = true -> active pos s -> (n <= length input - pos)%nat ->
  wp (FI_Read id n) (fun _ s' => fi_state pos s') s.
Proof.
  intros Ha Hact Hn. unfold FI_Read.
  assert (Hst : forall s, fi_alive s = true -> active pos s -> fi_state pos s).
  { intros s' Ha'%alive_true H. unfold fi_state. by rewrite Ha'. }
  destruct Hact as [[dn Hid]|(dn & c & rest & Hs & Hpos & Hend)].
  - pose proof Hid as [_ (E8 & Em & Ein) _ _]. wp_step. unfold WriteHeader at 1. do 2 wp_step. wp_step.
    wp_step; [by rewrite E8|]. rewrite E8. change (8 - 8 =? 0)%nat with true. cbv iota. wp_step. cbn [negb]. do 2 wp_step.
    rewrite Ein, Em. cbn [negb andb Nat.eqb]. destruct (Nat.ltb_spec 0 n) as [Hp|Hp].
    + wp_step. apply (StartRecord_wp dn pos); [done|lia|]. intros s1 c rest Hs Hm Hc Hi Hk.
      assert (Ha1 : fi_alive s1 = true) by (unfold fi_alive; by rewrite Hk).
      wp_step. eapply WriteHeader_wp; [done|exact Hs|..].
      * intros s2 Ha2 Hs2 E8' Em' Ei'. wp_step. apply Hst; [done|]. right. exists dn, c, rest. split; [done|]. split; [lia|congruence].
      * intros s2 Ha2 Hs2 Hl _ _. wp_step. by eapply sending_state.
      * intros s2 Hl Hf. wp_step. by apply closed_state.
    + wp_step. apply Hst; [done|]. left. by exists dn.
  - wp_step. eapply WriteHeader_wp; [done|exact Hs|..].
    + intros s1 Ha1 Hs1 E8 Em Ei. cbn [negb]. do 2 wp_step. destruct (fi_input s1) eqn:Ein; cbn [negb].
      * specialize (Hpos ltac:(congruence)). rewrite (proj2 (Nat.eqb_neq _ _)) by lia. cbn [andb]. wp_step. apply Hst; [done|].
        right. exists dn, c, rest. split; [done|]. split; [lia|congruence].
      * wp_step. apply fi_destroy_wp; [done|]. wp_step. by eapply finished.
    + intros s1 Ha1 Hs1 Hl _ _. cbn [negb]. wp_step. by eapply sending_state.
    + intros s1 Hl Hf. cbn [negb]. wp_step. by apply closed_state.
Qed.

Lemma active_framed pos s : active pos s -> framed (fi_output s).
Proof.
  intros [[dn H]|(dn & c & rest & H & _)]; [by eapply idle_framed|]. eapply sending_framed; [done|by eapply sending_output].
Qed.

Lemma active_pos pos s : active pos s -> (pos <= length input)%nat.
Proof.
  intros [[dn [_ _ _ [_ H]]]|(dn & c & rest & [H1 H2 H3 H4 H5 H6 H7 H8 H9 H10] & _)]; [done|].
  rewrite H2, !length_app. lia.
Qed.

Lemma fi_step_ok ev s pos : fi_state pos s -> exists s' pos', fi_step id input ev (s, pos) = Some (s', pos') /\ fi_state pos' s'.
Proof.
  intros Hst. unfold fi_step. destruct (fi_alive s) eqn:Ha; cbn [negb]; [|by exists s, pos].
  assert (Hact : active pos s) by (unfold fi_state in Hst; apply alive_true in Ha; by rewrite Ha in Hst).
  assert (Hrun : forall {A} (m : M FcgiIstream A) f, wp m (fun a s' => fi_state (f a) s') s ->
    exists s' pos', ('(a, s') ← m s; Some (s', f a)) = Some (s', pos') /\ fi_state pos' s').
  { intros A m f (a & s' & E & Hf). exists s', (f a). by rewrite E. }
  destruct ev as [n|n| | |].
  - set (data := take n (drop pos input)). destruct (negb (fi_input s) || bool_decide (data = [])) eqn:E; [by exists s, pos|].
    simpl_bool. apply (Hrun _ (FI_OnData id data) (fun k => pos + k)%nat). unfold FI_OnData.
    eapply wp_mono; [apply (FI_OnData_loop_wp data _ pos 0); try done|].
    + apply prefix_take.
    + destruct data; [done|simpl; lia].
    + by rewrite Nat.add_0_r.
    + destruct (_ =? 0)%nat; lia.
    + intros k s' [_ [[Ha' Hk]|[Hl Hf]]]; [|by apply closed_state]. unfold fi_state. apply alive_true in Ha'. by rewrite Ha'.
  - apply (Hrun _ (FI_Read id _) (fun _ => pos)). apply Read_wp; [done..|]. lia.
  - destruct (fi_input s && (pos =? length input)%nat) eqn:E; [|by exists s, pos]. apply andb_true_iff in E as [Ei ->%Nat.eqb_eq].
    apply (Hrun _ (FI_OnEof id) (fun _ => length input)). by apply OnEof_wp.
  - destruct (fi_input s); [|by exists s, pos]. apply (Hrun _ FI_OnError (fun _ => pos)). unfold FI_OnError. do 2 wp_step.
    apply fi_destroy_wp; [done|]. unfold fi_state. cbn. by eapply active_framed.
  - apply (Hrun _ (fi_destroy Closed) (fun _ => pos)). apply fi_destroy_wp; [done|]. unfold fi_state. cbn. by eapply active_framed.
Qed.

Lemma fi_run_ok evs : forall s pos, fi_state pos s ->
  exists s' pos', fi_run id input evs (s, pos) = Some (s', pos') /\ fi_state pos' s'.
Proof.
  induction evs as [|ev evs IH]; intros s pos Hst; [by exists s, pos|]. cbn [fi_run].
  destruct (fi_step_ok ev s pos Hst) as (s1 & pos1 & E & H1). rewrite E. cbn. by apply IH.
Qed.

Lemma fi_new_ok h : fi_state 0 (istream_fcgi_new id h).
Proof. left. exists []. split; try done. split; [done|lia]. Qed.

End Facts.

(** C11: Refinement: for every order of calls, every way to cut the body and every handler, the istream fails no
    assertion; what it sends is a beginning of the STDIN records of a beginning of the body, and when it has reported its
    end, the application has received non-empty records whose contents are the body, and the empty record that
    ends it. *)
Theorem fcgi_istream_refines id input h evs : 0 <= id < 65536 ->
  exists s pos, fi_run id input evs (istream_fcgi_new id h, 0%nat) = Some (s, pos) /\
    framed id input (fi_output s) /\
    (k_life (fi_sink s) = AtEof -> exists l, Forall (fun c => c <> []) l /\ concat l = input /\
       decode_records (length (fi_output s)) (fi_output s) = Some (map (fun c => (STDIN, id, c)) (l ++ [[]]))).
Proof.
  intros Hid. destruct (fi_run_ok id input evs _ 0 (fi_new_ok id input h)) as (s & pos & E & Hst).
  exists s, pos. split; [done|]. unfold fi_state in Hst. destruct (k_life (fi_sink s)) eqn:El; try (split; [|done]).
  - by eapply active_framed.
  - destruct Hst as (l & Hl & Hin & Ho). split.
    + exists (l ++ [[]]). rewrite concat_app, app_nil_r, Hin. by rewrite Ho.
    + intros _. exists l. split; [eapply Forall_impl; [exact Hl|]; by intros c [? _]|]. split; [done|]. rewrite Ho.
      replace (map (rb id) (l ++ [[]])) with (map record_bytes (map (fun c => (STDIN, id, c)) (l ++ [[]]))) by by rewrite map_map.
      apply decode_records_all.
      * apply Forall_map, Forall_app. split; [|repeat constructor; simpl; lia].
        eapply Forall_impl; [exact Hl|]. intros c [_ Hc]. split; simpl; lia.
      * generalize (map (fun c => (STDIN, id, c)) (l ++ [[]])). clear. intros l. induction l as [|x l IH]; simpl; [lia|].
        rewrite length_app. simpl. lia.
  - done.
  - done.
Qed.

(** A body of five bytes, sent to a handler that takes seven bytes at a time. *)
Definition some_calls : list fi_event := [FiRead 2; FiData 3; FiRead 5; FiData 3; FiData 9; FiData 9; FiRead 0; FiData 9; FiEof; FiRead 0; FiRead 0].
Definition seven : list reaction := replicate 12 (Accept 7).

Lemma fcgi_istream_witness : exists s pos, fi_run 7 [1; 2; 3; 4; 5] some_calls (istream_fcgi_new 7 seven, 0%nat) = Some (s, pos) /\
  k_life (fi_sink s) = AtEof /\ exists l, concat l = [1; 2; 3; 4; 5] /\
    decode_records (length (fi_output s)) (fi_output s) = Some (map (fun c => (STDIN, 7, c)) (l ++ [[]])).
Proof.
  destruct (fcgi_istream_refines 7 [1; 2; 3; 4; 5] seven some_calls) as (s & pos & E & _ & H); [lia|].
  assert (El : (fun w => k_life (fi_sink w.1)) <$> fi_run 7 [1; 2; 3; 4; 5] some_calls (istream_fcgi_new 7 seven, 0%nat) = Some AtEof)
    by (vm_compute; reflexivity).
  rewrite E in El. injection El as El. destruct (H El) as (l & _ & Hl & Hd).
  exists s, pos. split; [exact E|]. split; [exact El|]. exists l. split; [exact Hl|exact Hd].
Defined.
