(* ===== verification/FcgiParserFacts.v ===== *)
(** * Theorems about the parser of records

    A rule for clients of the parser (it ends, whatever its handler does), and a machine that reads
    single bytes, to which the handlers are compared. *)

From S2P Require Import Prelude Fcgi.

(** The state of the parser at the beginning of an iteration. *)
Definition parser_ok (p : FcgiParser) : Prop :=
  in_frame p = false -> remaining p = 0%nat /\ skip p = 0%nat.

(** The fuel that an iteration needs. *)
Definition feed_measure (p : FcgiParser) (src : list Z) : nat :=
  (2 * length src + if (0 <? remaining p)%nat then 1 else 0)%nat.

Section Rule.
Context {H : Type} (handler : FcgiFrameHandler H).

(** A handler whose calls keep [I], which may mention the state of the parser and the input that is
    left; [Q] holds whenever [Feed()] returns. *)
Record FeedSpec (I : FcgiParser -> list Z -> H -> Prop) (Q : FeedResult -> FcgiParser -> H -> Prop) : Prop := {
  fs_payload p src h : I p src h -> in_frame p = true -> (0 < remaining p)%nat -> src <> [] ->
    wp (OnFramePayload handler (take (remaining p) src)) (fun '(result, consumed) h =>
      (consumed <= remaining p)%nat /\ (consumed <= length src)%nat /\
      if (consumed =? 0)%nat then
        match result with
        | SKIP => I (SkipCurrent p) src h
        | CONTINUE => Q FEED_BLOCKING p h
        | STOP => Q FEED_STOP p h
        | CLOSED => Q FEED_CLOSED p h
        end
      else
        wp (OnFrameConsumed handler consumed) (fun _ h =>
          let p := mkFcgiParser (remaining p - consumed) (skip p) true in
          let src := drop consumed src in
          match result with
          | SKIP => I (SkipCurrent p) src h
          | CONTINUE => I p src h /\ ((0 < remaining p)%nat -> src <> [] -> Q FEED_BLOCKING p h)
          | STOP => Q FEED_STOP p h
          | CLOSED => Q FEED_CLOSED p h
          end) h) h;
  fs_more p src h : I p src h ->
    (src = [] /\ (0 < remaining p + skip p)%nat) \/ (p = mkFcgiParser 0 0 false /\ (length src < sizeof_FcgiRecordHeader)%nat) ->
    Q FEED_MORE p h;
  fs_skip p src h n : I p src h -> in_frame p = true -> remaining p = 0%nat ->
    (n <= skip p)%nat -> (n <= length src)%nat ->
    wp (OnFrameConsumed handler n) (fun _ h => I (mkFcgiParser 0 (skip p - n) true) (drop n src) h) h;
  fs_end src h : I (mkFcgiParser 0 0 true) src h ->
    wp (OnFrameEnd handler) (fun result h =>
      match result with
      | SKIP | CONTINUE => I (mkFcgiParser 0 0 false) src h
      | STOP => Q FEED_STOP (mkFcgiParser 0 0 false) h
      | CLOSED => Q FEED_CLOSED (mkFcgiParser 0 0 false) h
      end) h;
  fs_header src h : I (mkFcgiParser 0 0 false) src h -> (sizeof_FcgiRecordHeader <= length src)%nat ->
    wp (OnFrameConsumed handler sizeof_FcgiRecordHeader) (fun _ h =>
      let header := header_of src in
      let p := mkFcgiParser (Z.to_nat (content_length header)) (Z.to_nat (padding_length header)) true in
      let src := drop sizeof_FcgiRecordHeader src in
      wp (OnFrameHeader handler (type header) (request_id header)) (fun result h =>
        match result with
        | SKIP => I (SkipCurrent p) src h
        | CONTINUE => I p src h
        | STOP => Q FEED_STOP p h
        | CLOSED => Q FEED_CLOSED p h
        end) h) h }.

Context (I : FcgiParser -> list Z -> H -> Prop) (Q : FeedResult -> FcgiParser -> H -> Prop).
Context (HS : FeedSpec I Q).

Definition next_ok (m : nat) (n : feed_next) (h : H) : Prop :=
  match n with
  | Again p src => I p src h /\ parser_ok p /\ (feed_measure p src < m)%nat
  | Next p src => False
  | Return r p => Q r p h /\ parser_ok p
  end.

Lemma feed_then_wp (m : M H feed_next) k P h :
  wp m (fun n h => match n with Next p src => wp (k p src) P h | _ => P n h end) h ->
  wp (feed_then m k) P h.
Proof.
  intros Hm. unfold feed_then. apply wp_bind. eapply wp_mono; [exact Hm|].
  intros [p src|p src|r p] h' Hn; simpl in *; [by apply wp_ret|done|by apply wp_ret].
Qed.

(** What holds between the parts of an iteration. *)
Definition part_ok (m : nat) (P : FcgiParser -> Prop) (n : feed_next) (h : H) : Prop :=
  match n with
  | Next p src => I p src h /\ P p /\ (feed_measure p src <= m)%nat
  | _ => next_ok m n h
  end.

Lemma feed_payload_wp p src h : I p src h -> parser_ok p ->
  wp (feed_payload handler p src)
    (part_ok (feed_measure p src) (fun p => parser_ok p /\ remaining p = 0%nat)) h.
Proof.
  intros HI Hp. unfold feed_payload. destruct (Nat.eqb_spec (remaining p) 0) as [E|E].
  { apply wp_ret. simpl. split; [done|]. split; [by split|done]. }
  assert (Hf : in_frame p = true).
  { destruct (in_frame p) eqn:Ef; [done|]. destruct Hp as [Hp _]; [done|lia]. }
  repeat wp_step; [done|]. case_bool_decide as Hne.
  { apply wp_ret. simpl. split; [|done]. eapply fs_more; [exact HS|exact HI|left; split; [done|lia]]. }
  assert (Hl : (0 < length src)%nat) by (destruct src; simpl; [done|lia]).
  wp_step. eapply wp_mono; [eapply (fs_payload _ _ HS); [exact HI|done|lia|done]|].
  intros [result consumed] h' (H1 & H2 & H3). simpl. destruct (Nat.eqb_spec consumed 0) as [->|Hc].
  - apply wp_ret. destruct result; simpl; [|by split..]. split; [done|]. split; [intros Ef; simpl in Ef; congruence|].
    unfold feed_measure. rewrite (proj2 (Nat.ltb_lt 0 (remaining p))) by lia. simpl. lia.
  - wp_step. wp_step; [apply Nat.leb_le; rewrite length_take; lia|]. wp_step.
    eapply wp_mono; [exact H3|]. intros ? h2 H4. apply wp_ret. rewrite Hf. simpl.
    assert (Hm : (feed_measure p src >= 2 * length src + 1)%nat).
    { unfold feed_measure. rewrite (proj2 (Nat.ltb_lt 0 (remaining p))) by lia. lia. }
    destruct result; simpl; [|destruct (Nat.ltb_spec 0 (remaining p - consumed)) as [Hr|Hr]; simpl| |]; [| | |by split|by split].
    + split; [done|]. split; [done|]. unfold feed_measure. simpl. rewrite length_drop. lia.
    + destruct H4 as [H4 H5].
      destruct (Nat.ltb_spec consumed (length (take (remaining p) src))) as [Hx|Hx]; rewrite length_take in Hx.
      * split; [|done]. apply H5; [simpl; lia|]. intros E0. apply (f_equal length) in E0. rewrite length_drop in E0. simpl in E0. lia.
      * split; [|done]. eapply fs_more; [exact HS|exact H4|]. left. simpl. split; [apply drop_ge; lia|lia].
    + destruct H4 as [H4 _]. split; [done|]. split; [split; [done|simpl; lia]|]. unfold feed_measure. simpl. rewrite length_drop.
      rewrite (proj2 (Nat.ltb_ge 0 (remaining p - consumed))) by lia. lia.
Qed.

Lemma feed_skip_wp m p src h : I p src h -> parser_ok p -> remaining p = 0%nat -> (feed_measure p src <= m)%nat ->
  wp (feed_skip handler p src) (part_ok m (fun p => remaining p = 0%nat /\ skip p = 0%nat)) h.
Proof.
  intros HI Hp Hr Hm. unfold feed_skip. destruct (Nat.eqb_spec (skip p) 0) as [E|E]; [by apply wp_ret|].
  assert (Hf : in_frame p = true).
  { destruct (in_frame p) eqn:Ef; [done|]. destruct Hp as [_ Hp]; [done|lia]. }
  wp_step. wp_step; [done|]. rewrite Hr, Hf. destruct (Nat.ltb_spec (length src) (skip p)) as [Hl|Hl].
  - wp_step. eapply wp_mono; [eapply (fs_skip _ _ HS _ src); [exact HI|done..|lia|lia]|].
    intros ? h' H1. apply wp_ret. simpl. split; [|done]. eapply fs_more; [exact HS|exact H1|].
    left. simpl. split; [by apply drop_ge|lia].
  - wp_step. eapply wp_mono; [eapply (fs_skip _ _ HS _ src); [exact HI|done..|lia|lia]|].
    intros ? h' H1. apply wp_ret. simpl. rewrite Nat.sub_diag in H1. split; [done|]. split; [done|].
    unfold feed_measure in *. simpl. rewrite Hr in Hm. simpl in Hm. rewrite length_drop. lia.
Qed.

Lemma feed_end_wp m p src h : I p src h -> remaining p = 0%nat -> skip p = 0%nat -> (feed_measure p src <= m)%nat ->
  wp (feed_end handler p src) (part_ok m (fun p => p = mkFcgiParser 0 0 false)) h.
Proof.
  intros HI Hr Hs Hm. unfold feed_end. destruct p as [r s [|]]; simpl in *; subst.
  - wp_step. eapply wp_mono; [by eapply (fs_end _ _ HS)|]. intros result h' H1. apply wp_ret.
    destruct result; simpl; by try split.
  - apply wp_ret. by simpl.
Qed.

Lemma feed_header_wp m src h : I (mkFcgiParser 0 0 false) src h -> (2 * length src <= m)%nat ->
  wp (feed_header handler (mkFcgiParser 0 0 false) src) (next_ok m) h.
Proof.
  intros HI Hm. unfold feed_header. destruct (Nat.ltb_spec (length src) sizeof_FcgiRecordHeader) as [Hl|Hl].
  { apply wp_ret. simpl. split; [|done]. eapply fs_more; [exact HS|exact HI|by right]. }
  wp_step. eapply wp_mono; [by eapply (fs_header _ _ HS)|]. intros ? h' H1. wp_step.
  eapply wp_mono; [exact H1|]. intros result h2 H2. apply wp_ret.
  destruct result; simpl in *; [| |by split|by split]; (split; [done|]; split; [done|]).
  - unfold feed_measure. simpl. rewrite length_drop. unfold sizeof_FcgiRecordHeader in *. lia.
  - unfold feed_measure. simpl. rewrite length_drop. unfold sizeof_FcgiRecordHeader in *. case_match; lia.
Qed.

Lemma feed_step_wp p src h : I p src h -> parser_ok p ->
  wp (feed_step handler p src) (next_ok (feed_measure p src)) h.
Proof.
  intros HI Hp. unfold feed_step. set (m := feed_measure p src).
  apply feed_then_wp. apply feed_then_wp. apply feed_then_wp.
  eapply wp_mono; [by apply feed_payload_wp|]. fold m.
  intros [p1 src1|p1 src1|r p1] h1; simpl; [done| |done]. intros (HI1 & [Hp1 Hr1] & Hm1).
  eapply wp_mono; [by apply (feed_skip_wp m)|].
  intros [p2 src2|p2 src2|r p2] h2; simpl; [done| |done]. intros (HI2 & [Hr2 Hs2] & Hm2).
  eapply wp_mono; [by apply (feed_end_wp m)|].
  intros [p3 src3|p3 src3|r p3] h3; simpl; [done| |done]. intros (HI3 & -> & Hm3).
  apply feed_header_wp; [done|]. unfold feed_measure in Hm3. simpl in Hm3. lia.
Qed.

Lemma Feed_wp p src h : I p src h -> parser_ok p -> wp (Feed handler p src) (fun r h => Q r.1 r.2 h /\ parser_ok r.2) h.
Proof.
  intros HI Hp. unfold Feed.
  assert (Hf : (feed_measure p src < 2 * length src + 2)%nat) by (unfold feed_measure; case_match; lia).
  revert HI Hp Hf. generalize (2 * length src + 2)%nat as fuel. intros fuel. revert p src h.
  induction fuel as [|fuel IH]; intros p src h HI Hp Hf; [lia|]. simpl. apply wp_bind.
  eapply wp_mono; [by apply feed_step_wp|]. intros [p1 src1|p1 src1|r p1] h1; simpl; [|done|].
  - intros (HI1 & Hp1 & Hm). apply IH; [done|done|lia].
  - intros HQ. by apply wp_ret.
Qed.

End Rule.

(** ** A machine that reads single bytes

    What the FastCGI specification says about the stream of records of one request: which bytes are
    the contents of STDOUT and of STDERR records, and whether END_REQUEST has been seen.  A record
    of the same request after END_REQUEST is an error of the application. *)

Record Demux := mkDemux {
  dm_remaining : nat;
  dm_skip : nat;
  dm_header : list Z;
  dm_stderr : bool;
  dm_ended : bool;
  dm_excess : bool }.

Definition Demux_new : Demux := mkDemux 0 0 [] false false false.

Section Machine.
Context (id : Z).

(** The header of a record has been read. *)
Definition dm_frame (h : FcgiRecordHeader) (d : Demux) : Demux :=
  let content := Z.to_nat (content_length h) in
  let padding := Z.to_nat (padding_length h) in
  let ignored := mkDemux 0 (padding + content) [] (dm_stderr d) (dm_ended d) (dm_excess d) in
  if negb (request_id h =? id) then ignored
  else if dm_ended d then mkDemux 0 (padding + content) [] (dm_stderr d) true true
  else if type h =? STDOUT then mkDemux content padding [] false false (dm_excess d)
  else if type h =? STDERR then mkDemux content padding [] true false (dm_excess d)
  else if type h =? END_REQUEST then mkDemux 0 (padding + content) [] (dm_stderr d) true (dm_excess d)
  else ignored.

Definition dm_step (d : Demux) (b : Z) : Demux :=
  if (0 <? dm_remaining d)%nat then
    mkDemux (dm_remaining d - 1) (dm_skip d) (dm_header d) (dm_stderr d) (dm_ended d) (dm_excess d)
  else if (0 <? dm_skip d)%nat then
    mkDemux 0 (dm_skip d - 1) (dm_header d) (dm_stderr d) (dm_ended d) (dm_excess d)
  else
    let header := dm_header d ++ [b] in
    if (length header =? sizeof_FcgiRecordHeader)%nat then dm_frame (header_of header) d
    else mkDemux 0 0 header (dm_stderr d) (dm_ended d) (dm_excess d).

Definition dm_run (d : Demux) (s : list Z) : Demux := fold_left dm_step s d.

(** The contents of the STDERR records if [want], else of the STDOUT records. *)
Fixpoint dm_out (want : bool) (d : Demux) (s : list Z) : list Z :=
  match s with
  | [] => []
  | b :: s => (if (0 <? dm_remaining d)%nat && eqb (dm_stderr d) want then [b] else []) ++ dm_out want (dm_step d b) s
  end.

Lemma dm_run_app d a b : dm_run d (a ++ b) = dm_run (dm_run d a) b.
Proof. apply fold_left_app. Qed.

Lemma dm_out_app want a : forall d b, dm_out want d (a ++ b) = dm_out want d a ++ dm_out want (dm_run d a) b.
Proof. induction a as [|x a IH]; intros d b; [done|]. simpl. by rewrite IH, app_assoc. Qed.

Lemma dm_out_split want d n s : dm_out want d s = dm_out want d (take n s) ++ dm_out want (dm_run d (take n s)) (drop n s).
Proof. by rewrite <- dm_out_app, take_drop. Qed.

Lemma dm_run_split d n s : dm_run d s = dm_run (dm_run d (take n s)) (drop n s).
Proof. by rewrite <- dm_run_app, take_drop. Qed.

(** What the machine is while the parser is in the given state. *)
Definition dm_of (p : FcgiParser) (err ended excess : bool) : Demux :=
  mkDemux (remaining p) (skip p) [] err ended excess.

Lemma dm_payload e p err ended excess s : (length s <= remaining p)%nat ->
  dm_run (dm_of p err ended excess) s =
    dm_of (mkFcgiParser (remaining p - length s) (skip p) e) err ended excess /\
  forall want, dm_out want (dm_of p err ended excess) s = if eqb err want then s else [].
Proof.
  revert p. induction s as [|b s IH]; intros p Hl; simpl in *.
  { unfold dm_of. simpl. rewrite Nat.sub_0_r. split; [done|]. intros want. by destruct (eqb err want). }
  assert (Hs : dm_step (dm_of p err ended excess) b =
    dm_of (mkFcgiParser (remaining p - 1) (skip p) (in_frame p)) err ended excess).
  { unfold dm_step, dm_of. simpl. by rewrite (proj2 (Nat.ltb_lt 0 (remaining p))) by lia. }
  rewrite Hs, (proj2 (Nat.ltb_lt 0 (remaining p))) by lia.
  destruct (IH (mkFcgiParser (remaining p - 1) (skip p) (in_frame p))) as [H1 H2]; [simpl; lia|]. split.
  - rewrite H1. unfold dm_of. simpl. f_equal. lia.
  - intros want. rewrite H2. by destruct (eqb err want).
Qed.

Lemma dm_skipped e p err ended excess s : remaining p = 0%nat -> (length s <= skip p)%nat ->
  dm_run (dm_of p err ended excess) s = dm_of (mkFcgiParser 0 (skip p - length s) e) err ended excess /\
  forall want, dm_out want (dm_of p err ended excess) s = [].
Proof.
  revert p. induction s as [|b s IH]; intros p Hr Hl; simpl in *.
  { unfold dm_of. simpl. by rewrite Nat.sub_0_r, Hr. }
  assert (Hs : dm_step (dm_of p err ended excess) b =
    dm_of (mkFcgiParser 0 (skip p - 1) (in_frame p)) err ended excess).
  { unfold dm_step, dm_of. simpl. by rewrite Hr, (proj2 (Nat.ltb_lt 0 (skip p))) by lia. }
  rewrite Hs, Hr. simpl.
  destruct (IH (mkFcgiParser 0 (skip p - 1) (in_frame p))) as [H1 H2]; [done|simpl; lia|]. split; [|done].
  rewrite H1. unfold dm_of. simpl. f_equal. lia.
Qed.

Lemma dm_framed err ended excess s : (sizeof_FcgiRecordHeader <= length s)%nat ->
  dm_run (mkDemux 0 0 [] err ended excess) (take sizeof_FcgiRecordHeader s) =
    dm_frame (header_of s) (mkDemux 0 0 [] err ended excess) /\
  forall want, dm_out want (mkDemux 0 0 [] err ended excess) (take sizeof_FcgiRecordHeader s) = [].
Proof.
  unfold sizeof_FcgiRecordHeader. intros Hl. do 8 (destruct s as [|? s]; [simpl in Hl; lia|]). done.
Qed.

(** An incomplete header. *)
Lemma dm_short p err ended excess s : remaining p = 0%nat -> skip p = 0%nat ->
  (length s < sizeof_FcgiRecordHeader)%nat ->
  dm_run (dm_of p err ended excess) s = mkDemux 0 0 s err ended excess /\
  forall want, dm_out want (dm_of p err ended excess) s = [].
Proof.
  intros Hr Hs. unfold dm_of. rewrite Hr, Hs. unfold sizeof_FcgiRecordHeader. intros Hl.
  do 8 (destruct s as [|? s]; [done|]). simpl in Hl. lia.
Qed.

(** *** A parser and the machine *)

(** A parser that is where the machine is; it may skip what it is not interested in ([acc]: STDERR or STDOUT). *)
Definition matches (acc : bool -> bool) (p : FcgiParser) (d : Demux) : Prop :=
  dm_header d = [] /\ ((0 < remaining p)%nat -> acc (dm_stderr d) = true) /\
  ((dm_remaining d = remaining p /\ dm_skip d = skip p) \/
   (remaining p = 0%nat /\ skip p = (dm_remaining d + dm_skip d)%nat /\ acc (dm_stderr d) = false)).

Definition same_flags (d d' : Demux) : Prop :=
  dm_stderr d' = dm_stderr d /\ dm_ended d' = dm_ended d /\ dm_excess d' = dm_excess d.

Lemma matches_new acc : matches acc FcgiParser_new Demux_new.
Proof. split; [done|]. split; [simpl; lia|by left]. Qed.

Lemma demux_eta d : dm_header d = [] ->
  d = dm_of (mkFcgiParser (dm_remaining d) (dm_skip d) true) (dm_stderr d) (dm_ended d) (dm_excess d).
Proof. destruct d; simpl. intros ->. done. Qed.

Lemma matches_payload acc p d x : matches acc p d -> (0 < remaining p)%nat -> (length x <= remaining p)%nat ->
  matches acc (mkFcgiParser (remaining p - length x) (skip p) true) (dm_run d x) /\
  same_flags d (dm_run d x) /\ (forall want, dm_out want d x = if eqb (dm_stderr d) want then x else []).
Proof.
  intros (H1 & H2 & H3) Hr Hl. destruct H3 as [[H3 H4]|[H3 _]]; [|lia]. rewrite (demux_eta d H1).
  edestruct (dm_payload true (mkFcgiParser (dm_remaining d) (dm_skip d) true) (dm_stderr d) (dm_ended d) (dm_excess d) x)
    as [-> H5]; [simpl; lia|].
  split; [|split; [done|exact H5]]. simpl. split; [done|]. simpl. split; [intros _; by apply H2|].
  left. by rewrite H3, H4.
Qed.

Lemma matches_skip acc p d x : matches acc p d -> remaining p = 0%nat -> (length x <= skip p)%nat ->
  matches acc (mkFcgiParser 0 (skip p - length x) true) (dm_run d x) /\
  same_flags d (dm_run d x) /\ (forall want, acc want = true -> dm_out want d x = []).
Proof.
  intros (H1 & H2 & H3) Hr Hl. destruct H3 as [[H3 H4]|(_ & H3 & H4)].
  - rewrite (demux_eta d H1).
    edestruct (dm_skipped true (mkFcgiParser (dm_remaining d) (dm_skip d) true) (dm_stderr d) (dm_ended d) (dm_excess d) x)
      as [-> H5]; [simpl; lia|simpl; lia|].
    split; [|split; [done|intros want _; apply H5]]. simpl. split; [done|]. split; [simpl; lia|]. left. by rewrite H4.
  - rewrite (demux_eta d H1). remember (dm_remaining d) as n eqn:En.
    rewrite (dm_run_split _ n x).
    edestruct (dm_payload true (mkFcgiParser n (dm_skip d) true) (dm_stderr d) (dm_ended d) (dm_excess d) (take n x)) as [E5 H5];
      [simpl; rewrite length_take; lia|].
    rewrite E5. simpl. rewrite length_take.
    assert (Hout : forall want, acc want = true ->
      (if eqb (dm_stderr d) want then take n x else []) = []) by (intros want Hw; destruct (dm_stderr d), want; simpl; congruence).
    destruct (Nat.le_gt_cases (length x) n) as [Hx|Hx].
    + rewrite (drop_ge x n) by lia. simpl. split; [|split; [done|]].
      * split; [done|]. split; [simpl; lia|]. right. simpl. split; [done|]. split; [lia|done].
      * intros want Hw. rewrite (dm_out_split _ _ n x), H5, (drop_ge x n), Hout by (done || lia). done.
    + replace (n - n `min` length x)%nat with 0%nat by lia.
      edestruct (dm_skipped true (mkFcgiParser 0 (dm_skip d) true) (dm_stderr d) (dm_ended d) (dm_excess d) (drop n x)) as [E6 H6];
        [done|simpl; rewrite length_drop; lia|].
      rewrite E6. simpl. rewrite length_drop. split; [|split; [done|]].
      * split; [done|]. split; [simpl; lia|]. left. simpl. split; [done|lia].
      * intros want Hw. rewrite (dm_out_split _ _ n x), H5, E5, Hout by done. simpl. rewrite length_take.
        replace (n - n `min` length x)%nat with 0%nat by lia. apply H6.
Qed.

Lemma matches_skip_current acc p d : matches acc p d -> acc (dm_stderr d) = false \/ remaining p = 0%nat ->
  matches acc (SkipCurrent p) d.
Proof.
  intros (H1 & H2 & H3) H. split; [done|]. split; [simpl; lia|]. simpl.
  destruct H as [H|H]; [right|].
  - split; [done|]. split; [|done]. destruct H3 as [[H3 H4]|(H3 & H4 & _)]; lia.
  - rewrite H, Nat.add_0_r. destruct H3 as [[H3 H4]|(_ & H3 & H4)]; [left|right]; split_and!; lia || done.
Qed.

(** Fewer bytes are of interest. *)
Lemma matches_weaken (acc acc' : bool -> bool) p d : matches acc p d -> acc' (dm_stderr d) = true ->
  acc (dm_stderr d) = true -> matches acc' p d.
Proof.
  intros (H1 & H2 & H3) Ha Hb. split; [done|]. split; [done|]. destruct H3 as [H3|(_ & _ & H3)]; [by left|congruence].
Qed.

Lemma matches_skipped (acc acc' : bool -> bool) p d : matches acc p d -> acc (dm_stderr d) = true ->
  acc' (dm_stderr d) = false -> matches acc' (SkipCurrent p) d.
Proof.
  intros (H1 & H2 & H3) Ha Hb. split; [done|]. split; [simpl; lia|]. right. simpl. split; [done|]. split; [|done].
  destruct H3 as [[H3 H4]|(_ & _ & H3)]; [lia|congruence].
Qed.

Lemma matches_idle acc p d : matches acc p d -> remaining p = 0%nat -> skip p = 0%nat ->
  d = mkDemux 0 0 [] (dm_stderr d) (dm_ended d) (dm_excess d).
Proof.
  intros (H1 & _ & H3) Hr Hs. destruct d as [r sk h e en ex]; simpl in *. subst.
  destruct H3 as [[-> ->]|(_ & H3 & _)]; [by rewrite Hr, Hs|]. f_equal; lia.
Qed.

(** The header of a record: nothing but the state of the machine changes. *)
Lemma matches_header acc p d src : matches acc p d -> remaining p = 0%nat -> skip p = 0%nat ->
  (sizeof_FcgiRecordHeader <= length src)%nat ->
  dm_run d (take sizeof_FcgiRecordHeader src) = dm_frame (header_of src) d /\
  forall want, dm_out want d (take sizeof_FcgiRecordHeader src) = [].
Proof. intros Hm Hr Hs Hl. rewrite (matches_idle _ _ _ Hm Hr Hs). by apply dm_framed. Qed.

(** *** Flags are never reset *)

Lemma dm_step_flags d b :
  (dm_ended d = true -> dm_ended (dm_step d b) = true) /\ (dm_excess d = true -> dm_excess (dm_step d b) = true).
Proof.
  unfold dm_step. case_match; [done|]. case_match; [done|]. case_match; [|done].
  unfold dm_frame. case_match; [done|]. destruct (dm_ended d) eqn:E; [done|]. repeat case_match; simpl; auto.
Qed.

Lemma dm_run_ended s : forall d, dm_ended d = true -> dm_ended (dm_run d s) = true.
Proof. induction s as [|b s IH]; intros d Hd; [done|]. simpl. apply IH. by apply dm_step_flags. Qed.

Lemma dm_run_excess s : forall d, dm_excess d = true -> dm_excess (dm_run d s) = true.
Proof. induction s as [|b s IH]; intros d Hd; [done|]. simpl. apply IH. by apply dm_step_flags. Qed.

Lemma no_excess_prefix d a b : dm_excess (dm_run d (a ++ b)) = false -> dm_excess (dm_run d a) = false.
Proof.
  rewrite dm_run_app. intros H. destruct (dm_excess (dm_run d a)) eqn:E; [|done].
  apply (dm_run_excess b) in E. congruence.
Qed.

(** Nothing comes after END_REQUEST. *)
Lemma dm_out_ended want s : forall d, dm_ended d = true -> dm_remaining d = 0%nat ->
  dm_out want d s = [] /\ dm_ended (dm_run d s) = true /\ dm_remaining (dm_run d s) = 0%nat.
Proof.
  induction s as [|b s IH]; intros d He Hr; [done|]. simpl. rewrite Hr. simpl. apply IH.
  - by apply dm_step_flags.
  - unfold dm_step. rewrite Hr. simpl. case_match; [done|]. case_match; [|done].
    unfold dm_frame. case_match; [done|]. by rewrite He.
Qed.

(** END_REQUEST ends the contents of the records. *)
Lemma dm_ended_remaining s : forall d, (dm_ended d = true -> dm_remaining d = 0%nat) ->
  dm_ended (dm_run d s) = true -> dm_remaining (dm_run d s) = 0%nat.
Proof.
  induction s as [|b s IH]; intros d Hd; [done|]. simpl. apply IH. unfold dm_step.
  case_match eqn:E; [simpl; intros He; apply Hd in He; by rewrite He|]. case_match; [done|]. case_match; [|done].
  unfold dm_frame. case_match; [done|]. destruct (dm_ended d) eqn:Ed; [done|]. by repeat case_match.
Qed.

(** The whole END_REQUEST record has been received. *)
Definition complete (s : list Z) : Prop :=
  exists a b, s = a ++ b /\ dm_ended (dm_run Demux_new a) = true /\
    dm_skip (dm_run Demux_new a) = 0%nat /\ dm_header (dm_run Demux_new a) = [].

Lemma complete_app a b : complete a -> complete (a ++ b).
Proof. intros (x & y & -> & H). exists x, (y ++ b). by rewrite app_assoc. Qed.

Lemma complete_ended s : complete s -> dm_ended (dm_run Demux_new s) = true.
Proof. intros (a & b & -> & H & _). rewrite dm_run_app. by apply dm_run_ended. Qed.

End Machine.
