(* ===== verification/FcgiClient.v ===== *)
(** * FastCGI: the client

    Models src/fcgi/Client.cxx (the reception of a response) and src/net/BufferedSocketLease.cxx, the
    lease of the socket that may be released while its input is still being consumed.

    The state is that of the client and of its lease.  [c_input] is what [ReadBuffer()] returns: the
    input buffer of the socket, or of the lease after the socket was released.  The handler of the
    response body is a [Sink]; its life is that of the client, which is the istream.  An exception
    is the list of the nested exceptions; [None] is a failed assertion or the use of an
    object that has been destroyed.  The socket library calls [OnBufferedData()] and the other
    methods; these calls, the calls of the handler and what they return are the events of
    [FcgiClientRun]. *)

From Stdlib Require Import String.
From S2P Require Import Prelude CharUtil Bucket Chunked Sink StrMap Uri HttpCacheRFC HttpHeaders.
From S2P Require Import Fcgi.

#[local] Open Scope beng_scope.

(** ** Errors *)

Inductive FcgiClientErrorCode := UNSPECIFIED | REFUSED | GARBAGE | IO.

Inductive client_exception :=
  | FcgiClientError (code : FcgiClientErrorCode)
  | SocketClosedPrematurelyError
  | TimeoutError
  | OtherError.

(** An exception and the ones nested in it. *)
Definition exception_ptr := list client_exception.

Definition garbage : exception_ptr := [FcgiClientError GARBAGE].

(** [FindNested<FcgiClientError>()] *)
Fixpoint FindFcgiClientError (error : exception_ptr) : option FcgiClientErrorCode :=
  match error with
  | [] => None
  | FcgiClientError code :: _ => Some code
  | _ :: error => FindFcgiClientError error
  end.

Definition IsFcgiClientRetryFailure (error : exception_ptr) : bool :=
  if existsb (fun e => match e with SocketClosedPrematurelyError => true | _ => false end) error then true
  else match FindFcgiClientError error with
  | Some code =>
      match code with
      | UNSPECIFIED | GARBAGE => false
      | REFUSED | IO => true
      end
  | None => false
  end.

(** ** The state *)

(** lease.hxx *)
Inductive PutAction := REUSE | DESTROY.

(** event/net/BufferedSocket.hxx *)
Inductive BufferedResult := BR_OK | BR_MORE | BR_AGAIN | BR_DESTROYED.

(** istream/Handler.hxx *)
Inductive IstreamReadyResult := READY_OK | READY_FALLBACK | READY_CLOSED.

(** What the HTTP response handler was told. *)
Inductive http_result :=
  | HttpResponse (status : HttpStatus) (headers : StringMap) (has_body : bool)
  | HttpError (e : exception_ptr).

(** [struct Response]; [available] is not initialized by its constructor. *)
Record Response := mkResponse {
  headers : StringMap;
  total_header_size : Z;
  available : Z;
  status : HttpStatus;
  no_body : bool;
  in_handler : bool;
  in_read : bool;
  receiving_headers : bool;
  stderr : bool;
  end_request : bool }.

Definition WasResponseSubmitted (r : Response) : bool := negb (receiving_headers r) && negb (no_body r).

Record FcgiClient := mkFcgiClient {
  c_input : list Z;
  (** [IsReleased()]: with which action *)
  c_released : option PutAction;
  (** what has been written to [stderr_fd] *)
  c_stderr : list Z;
  (** [HasInput()], [request.got_data]: the request istream *)
  c_has_request : bool;
  c_got_data : bool;
  c_response : Response;
  c_parser : FcgiParser;
  c_skip_stderr : nat;
  c_sink : Sink;
  (** does the response handler keep the body, or does it close it at once? *)
  c_keeps : bool;
  c_results : list http_result }.

Abbreviation C := (M FcgiClient).

Definition set_input v s := mkFcgiClient v (c_released s) (c_stderr s) (c_has_request s) (c_got_data s)
  (c_response s) (c_parser s) (c_skip_stderr s) (c_sink s) (c_keeps s) (c_results s).
Definition set_released v s := mkFcgiClient (c_input s) v (c_stderr s) (c_has_request s) (c_got_data s)
  (c_response s) (c_parser s) (c_skip_stderr s) (c_sink s) (c_keeps s) (c_results s).
Definition set_stderr_out v s := mkFcgiClient (c_input s) (c_released s) v (c_has_request s) (c_got_data s)
  (c_response s) (c_parser s) (c_skip_stderr s) (c_sink s) (c_keeps s) (c_results s).
Definition set_request v g s := mkFcgiClient (c_input s) (c_released s) (c_stderr s) v g
  (c_response s) (c_parser s) (c_skip_stderr s) (c_sink s) (c_keeps s) (c_results s).
Definition set_response v s := mkFcgiClient (c_input s) (c_released s) (c_stderr s) (c_has_request s) (c_got_data s)
  v (c_parser s) (c_skip_stderr s) (c_sink s) (c_keeps s) (c_results s).
Definition set_parser v s := mkFcgiClient (c_input s) (c_released s) (c_stderr s) (c_has_request s) (c_got_data s)
  (c_response s) v (c_skip_stderr s) (c_sink s) (c_keeps s) (c_results s).
Definition set_skip_stderr v s := mkFcgiClient (c_input s) (c_released s) (c_stderr s) (c_has_request s) (c_got_data s)
  (c_response s) (c_parser s) v (c_sink s) (c_keeps s) (c_results s).
Definition set_sink v s := mkFcgiClient (c_input s) (c_released s) (c_stderr s) (c_has_request s) (c_got_data s)
  (c_response s) (c_parser s) (c_skip_stderr s) v (c_keeps s) (c_results s).
Definition add_result v s := mkFcgiClient (c_input s) (c_released s) (c_stderr s) (c_has_request s) (c_got_data s)
  (c_response s) (c_parser s) (c_skip_stderr s) (c_sink s) (c_keeps s) (c_results s ++ [v]).

Definition set_headers v r := mkResponse v (total_header_size r) (available r) (status r) (no_body r)
  (in_handler r) (in_read r) (receiving_headers r) (stderr r) (end_request r).
Definition set_total_header_size v r := mkResponse (headers r) v (available r) (status r) (no_body r)
  (in_handler r) (in_read r) (receiving_headers r) (stderr r) (end_request r).
Definition set_available v r := mkResponse (headers r) (total_header_size r) v (status r) (no_body r)
  (in_handler r) (in_read r) (receiving_headers r) (stderr r) (end_request r).
Definition set_no_body v st r := mkResponse (headers r) (total_header_size r) (available r) st v
  (in_handler r) (in_read r) (receiving_headers r) (stderr r) (end_request r).
Definition set_in_handler v r := mkResponse (headers r) (total_header_size r) (available r) (status r) (no_body r)
  v (in_read r) (receiving_headers r) (stderr r) (end_request r).
Definition set_in_read v r := mkResponse (headers r) (total_header_size r) (available r) (status r) (no_body r)
  (in_handler r) v (receiving_headers r) (stderr r) (end_request r).
(** [receiving_headers = false; in_read = false] *)
Definition end_of_headers r := mkResponse (headers r) (total_header_size r) (available r) (status r) (no_body r)
  (in_handler r) false false (stderr r) (end_request r).
Definition set_stderr v r := mkResponse (headers r) (total_header_size r) (available r) (status r) (no_body r)
  (in_handler r) (in_read r) (receiving_headers r) v (end_request r).
Definition set_end_request v r := mkResponse (headers r) (total_header_size r) (available r) (status r) (no_body r)
  (in_handler r) (in_read r) (receiving_headers r) (stderr r) v.

Definition response_mod (f : Response -> Response) : C unit := mmod (fun s => set_response (f (c_response s)) s).

Definition get_response : C Response := mgets c_response.

Definition c_alive (s : FcgiClient) : bool := alive (c_sink s).
Definition IsReleased (s : FcgiClient) : bool := bool_decide (is_Some (c_released s)).

(** ** The lease of the socket *)

(** [BufferedSocketLease::Release()]; without [preserve], the input that is left in the socket is gone. *)
Definition Release (preserve : bool) (action : PutAction) : C unit :=
  let! s := mget in
  massert (negb (IsReleased s)) ;;;
  mput (set_released (Some action) (if preserve then s else set_input [] s)).

Definition DisposeConsumed (nbytes : nat) : C unit :=
  let! s := mget in
  massert (nbytes <=? length (c_input s))%nat ;;;
  mput (set_input (drop nbytes (c_input s)) s).

(** [AfterConsumed()]: the socket may be read again, which is another event. *)
Definition AfterConsumed : C unit := mret tt.

(** [ReadBuffer()] *)
Definition ReadBuffer : C (list Z) := mgets c_input.

(** ** The end of the client *)

(** [~FcgiClient()] and [~IstreamSink()], when the istream is destroyed in the given way. *)
Definition DestroyClient (l : phase) : C unit :=
  let! s := mget in
  let! k := mopt (DestroySink l (c_sink s)) in
  mput (set_sink k (set_request false (c_got_data s) s)) ;;;
  if IsReleased s then mret tt else Release false DESTROY.

(** [HttpResponseHandler::InvokeError()] and [InvokeResponse()] *)
Definition InvokeResult (r : http_result) : C unit := mmod (add_result r).

Definition AbortResponseHeaders (ep : exception_ptr) : C unit :=
  let! s := mget in
  massert (negb (WasResponseSubmitted (c_response s))) ;;;
  DestroyClient Chunked.Closed ;;; InvokeResult (HttpError ep).

Definition AbortResponseBody (ep : exception_ptr) : C unit :=
  let! s := mget in
  massert (WasResponseSubmitted (c_response s)) ;;;
  DestroyClient AtError.

Definition AbortResponse (ep : exception_ptr) : C unit :=
  let! s := mget in
  if negb (WasResponseSubmitted (c_response s)) then AbortResponseHeaders ep else AbortResponseBody ep.

Definition Client_Close : C unit :=
  let! s := mget in
  massert (WasResponseSubmitted (c_response s)) ;;;
  DestroyClient Chunked.Closed.

(** [InvokeData()]; if the handler closes the istream, then the client is destroyed.  *)
Definition Client_InvokeData (src : list Z) : C nat :=
  let! s := mget in
  let! r := mopt (Invoke src (c_sink s)) in
  let s := set_sink (snd r) s in
  (if c_alive s then mput s
   else mput (set_request false (c_got_data s) s) ;;;
        (if IsReleased s then mret tt else Release false DESTROY)) ;;;
  mret (fst r).

Definition HandleStderrPayload (payload : list Z) : C unit :=
  mmod (fun s => set_stderr_out (c_stderr s ++ payload) s).

(** ** Looking for the end *)

Record AnalysisHandler := mkAnalysis {
  end_request_offset : nat;
  total_stdout : nat;
  a_consumed : nat;
  is_end : bool }.

(** [AnalysisHandler], for request [id]. *)
Definition analysis_handler (id : Z) : FcgiFrameHandler AnalysisHandler := {|
  OnFrameConsumed nbytes :=
    mmod (fun a => mkAnalysis (end_request_offset a) (total_stdout a) (a_consumed a + nbytes) (is_end a));
  OnFrameHeader type request_id :=
    let! a := mget in
    massert (negb (is_end a)) ;;;
    if negb (request_id =? id) then mret SKIP
    else if type =? STDOUT then mret CONTINUE
    else if type =? END_REQUEST then
      mput (mkAnalysis (end_request_offset a) (total_stdout a) (a_consumed a) true) ;;; mret SKIP
    else mret SKIP;
  OnFramePayload src :=
    mmod (fun a => mkAnalysis (end_request_offset a) (total_stdout a + length src) (a_consumed a) (is_end a)) ;;;
    mret (CONTINUE, length src);
  OnFrameEnd :=
    let! a := mget in
    if is_end a then
      mput (mkAnalysis (a_consumed a) (total_stdout a) (a_consumed a) (is_end a)) ;;; mret STOP
    else mret CONTINUE |}.

Section Client.
Context `{CU : CharUtil} `{UL : UriLib} `{HS : HashSetOrder} `{TO : TrieOrder} `{HL : HttpLib} `{NL : HeaderLib}.

(** http/Status.hxx *)
Context (http_status_is_empty : HttpStatus -> bool).
(** [uint16_t id] *)
Context (id : Z).

Definition AnalyseBuffer (buffer : list Z) : C AnalysisHandler :=
  let! s := mget in
  let analysis_parser := if stderr (c_response s) then SkipCurrent (c_parser s) else c_parser s in
  match Feed (analysis_handler id) analysis_parser buffer (mkAnalysis 0 0 0 false) with
  | Some (_, result) => mret result
  | None => mfail
  end.

(** ** Response headers *)

(** http/HeaderLimits.hxx *)
Definition MAX_HTTP_HEADER_SIZE : Z := 8192.
Definition MAX_TOTAL_HTTP_HEADER_SIZE : Z := 64 * 1024.

(** The result: is this the end of the headers, or an exception. *)
Definition HandleLine (line : list Z) : C (bool + exception_ptr) :=
  let! r := get_response in
  massert (receiving_headers r) ;;;
  massert (negb (stderr r)) ;;;
  let size := Z.of_nat (length line) in
  match line with
  | [] => response_mod end_of_headers ;;; mret (inl true)
  | _ =>
      if MAX_HTTP_HEADER_SIZE <=? size then mret (inr garbage)
      else
        response_mod (set_total_header_size (total_header_size r + size)) ;;;
        if MAX_TOTAL_HTTP_HEADER_SIZE <=? total_header_size r + size then mret (inr garbage)
        else
          let '(h, ok) := header_parse_line (headers r) line in
          response_mod (set_headers h) ;;;
          if negb ok then mret (inr garbage) else mret (inl false)
  end.

(** The loop of [ParseHeaders()]; [pos] is the offset of [src]. *)
Fixpoint ParseHeaders_loop (fuel : nat) (pos : nat) (src : list Z) : C (nat + exception_ptr) :=
  match fuel with
  | O => mfail
  | S fuel =>
      match Split src 10 with
      | (_, None) => mret (inl 0%nat)
      | (line, Some rest) =>
          let next := (pos + (length src - length rest))%nat in
          let! r := HandleLine (StripRight line) in
          match r with
          | inl true => mret (inl next)
          | inl false => ParseHeaders_loop fuel next rest
          | inr ep => mret (inr ep)
          end
      end
  end.

Definition ParseHeaders (src0 : list Z) : C (nat + exception_ptr) :=
  ParseHeaders_loop (S (length src0)) 0 src0.

(** [FcgiClient::Feed()] *)
Definition Client_Feed (src : list Z) : C nat :=
  let! s := mget in
  let r := c_response s in
  if stderr r then
    let consumed := length src in
    (if (c_skip_stderr s <? length src)%nat then
       mput (set_skip_stderr 0 s) ;;; HandleStderrPayload (drop (c_skip_stderr s) src)
     else mput (set_skip_stderr (c_skip_stderr s - length src) s)) ;;;
    mret consumed
  else if receiving_headers r then
    let! result := ParseHeaders src in
    match result with
    | inl n => mret n
    | inr ep => AbortResponseHeaders ep ;;; mret 0%nat
    end
  else
    massert (negb (no_body r)) ;;;
    massert ((available r <? 0) || (Z.of_nat (length src) <=? available r)) ;;;
    let! consumed := Client_InvokeData src in
    (if (0 <? consumed)%nat && (0 <=? available r) then
       massert (Z.of_nat consumed <=? available r) ;;;
       response_mod (fun r => set_available (available r - Z.of_nat consumed) r)
     else mret tt) ;;;
    mret consumed.

(** [strtoull(p, &endptr, 10)]: the number, and what is left of the string. *)
Definition strtoull (p : list Z) : Z * list Z :=
  match snd (span_while is_space p) with
  | [] => (0, p)
  | c :: s =>
      let (digits, rest) := span_while is_digit (if (c =? chr "-") || (c =? chr "+") then s else c :: s) in
      match digits with
      | [] => (0, p)
      | _ =>
          let n := digits_value digits in
          (if 2 ^ 64 <=? n then 2 ^ 64 - 1 else if c =? chr "-" then wrap 64 (- n) else n, rest)
      end
  end.

(** The conversion to [off_t]. *)
Definition to_off_t (n : Z) : Z := wrap 64 (n + 2 ^ 63) - 2 ^ 63.

Definition status_header : list Z := str "status".
Definition content_length_header : list Z := str "content-length".

(** [response.available], from the header Content-Length. *)
Definition declared_length (p : option (list Z)) : Z :=
  match p with
  | Some p => let (l, rest) := strtoull p in
              if (length rest <? length p)%nat && bool_decide (rest = []) then to_off_t l else -1
  | None => -1
  end.

(** The result is false if the connection was closed. *)
Definition SubmitResponse : C bool :=
  let! r := get_response in
  massert (negb (receiving_headers r)) ;;;
  let '(h, p) := StringMap_Remove status_header (headers r) in
  response_mod (set_headers h) ;;;
  let st := match p with
            | Some p => if http_status_is_valid (atoi p) then atoi p else 200
            | None => 200
            end in
  (if http_status_is_empty st then response_mod (set_no_body true (status r)) else mret tt) ;;;
  let! r := get_response in
  if no_body r then
    response_mod (set_no_body true st) ;;;
    mmod (fun s => set_parser (SkipCurrent (c_parser s)) s) ;;;
    mret true
  else
    let '(h, p) := StringMap_Remove content_length_header (headers r) in
    response_mod (fun r => set_in_handler true (set_headers [] (set_available (declared_length p) r))) ;;;
    InvokeResult (HttpResponse st h true) ;;;
    let! s := mget in
    if c_keeps s then response_mod (set_in_handler false) ;;; mret true
    else Client_Close ;;; mret false.

(** ** The frames *)

Definition HandleEndComplete : C unit :=
  let! r := get_response in
  massert (negb (receiving_headers r)) ;;;
  massert (no_body r || (available r =? 0)) ;;;
  if no_body r then
    DestroyClient Chunked.Closed ;;; InvokeResult (HttpResponse (status r) (headers r) false)
  else DestroyClient AtEof.

Definition HandleEnd : C FrameResult :=
  let! r := get_response in
  massert (negb (end_request r)) ;;;
  response_mod (set_end_request true) ;;;
  if receiving_headers r then AbortResponseHeaders garbage ;;; mret CLOSED
  else if negb (no_body r) && (0 <? available r) then AbortResponseBody garbage ;;; mret CLOSED
  else response_mod (set_available 0) ;;; mret SKIP.

Definition Client_OnFrameHeader (type : FcgiRecordType) (request_id : Z) : C FrameResult :=
  if negb (request_id =? id) then mret SKIP
  else if type =? STDOUT then
    response_mod (set_stderr false) ;;;
    let! r := get_response in
    if negb (receiving_headers r) && no_body r then mret SKIP else mret CONTINUE
  else if type =? STDERR then response_mod (set_stderr true) ;;; mret CONTINUE
  else if type =? END_REQUEST then HandleEnd
  else mret SKIP.

Definition Client_OnFramePayload (payload : list Z) : C (FrameResult * nat) :=
  let! r := get_response in
  let at_headers := receiving_headers r in
  if WasResponseSubmitted r && negb (stderr r) && (0 <=? available r) &&
     (available r <? Z.of_nat (length payload)) then
    AbortResponseBody garbage ;;; mret (CLOSED, 0%nat)
  else
    let! nbytes := Client_Feed payload in
    let! s := mget in
    if (nbytes =? 0)%nat then
      if negb (c_alive s) then mret (CLOSED, 0%nat)
      else
        massert (implb at_headers (receiving_headers (c_response s))) ;;;
        mret (CONTINUE, 0%nat)
    else if at_headers && negb (receiving_headers (c_response s)) then mret (STOP, nbytes)
    else mret (CONTINUE, nbytes).

Definition Client_OnFrameEnd : C FrameResult :=
  let! r := get_response in
  if end_request r then HandleEndComplete ;;; mret CLOSED else mret CONTINUE.

Definition client_handler : FcgiFrameHandler FcgiClient := {|
  OnFrameConsumed := DisposeConsumed;
  OnFrameHeader := Client_OnFrameHeader;
  OnFramePayload := Client_OnFramePayload;
  OnFrameEnd := Client_OnFrameEnd |}.

Definition ConsumeInput (src : list Z) : C BufferedResult :=
  massert (negb (bool_decide (src = []))) ;;;
  let! s := mget in
  let at_headers := receiving_headers (c_response s) in
  let! (result, parser) := Feed client_handler (c_parser s) src in
  (match result with
   | FEED_CLOSED => mret tt
   | _ => mmod (set_parser parser) ;;; AfterConsumed
   end) ;;;
  match result with
  | FEED_OK => mret BR_MORE
  | FEED_BLOCKING => mret BR_OK
  | FEED_MORE => mret BR_MORE
  | FEED_STOP =>
      let! r := get_response in
      if at_headers && negb (receiving_headers r) then
        let! submitted := SubmitResponse in
        mret (if submitted : bool then BR_AGAIN else BR_DESTROYED)
      else mret BR_OK
  | FEED_CLOSED => mret BR_DESTROYED
  end.

(** ** The request *)

(** What [socket.Write()] returns. *)
Inductive write_result := WRITE_BYTES (n : nat) | WRITE_BLOCKING | WRITE_DESTROYED | WRITE_ERRNO.

Definition set_got_data (g : bool) : C unit := mmod (fun s => set_request (c_has_request s) g s).

(** [socket.IsConnected()], while the peer has not closed the connection. *)
Definition IsConnected (s : FcgiClient) : bool := negb (IsReleased s).

Definition Client_OnData (answer : write_result) (src : list Z) : C nat :=
  let! s := mget in
  massert (IsConnected s) ;;;
  massert (c_has_request s) ;;;
  set_got_data true ;;;
  match answer with
  | WRITE_BYTES n => mret (Nat.min n (length src))
  | WRITE_BLOCKING | WRITE_DESTROYED => mret 0%nat
  | WRITE_ERRNO => AbortResponse [FcgiClientError IO; OtherError] ;;; mret 0%nat
  end.

(** What [socket.WriteFrom()] returns; [eagain]: [errno] is [EAGAIN]. *)
Inductive write_from_result := WF_BYTES (n : nat) | WF_BLOCKING | WF_DESTROYED | WF_SOURCE_EOF | WF_ERRNO (eagain : bool).

(** istream/Handler.hxx *)
Inductive IstreamDirectResult := DIRECT_OK | DIRECT_BLOCKING | DIRECT_END | DIRECT_ERRNO | DIRECT_CLOSED.

Definition Client_OnDirect (answer : write_from_result) (max_length : nat) (then_eof : bool) : C IstreamDirectResult :=
  let! s := mget in
  massert (IsConnected s) ;;;
  set_got_data true ;;;
  match answer with
  | WF_BYTES n =>
      if then_eof && (n =? max_length)%nat then
        mmod (fun s => set_request false (c_got_data s) s) ;;; mret DIRECT_CLOSED
      else mret DIRECT_OK
  | WF_BLOCKING => mret DIRECT_BLOCKING
  | WF_DESTROYED => mret DIRECT_CLOSED
  | WF_SOURCE_EOF => mret DIRECT_END
  | WF_ERRNO eagain => (if eagain then set_got_data false else mret tt) ;;; mret DIRECT_ERRNO
  end.

Definition Client_OnEof : C unit :=
  let! s := mget in
  massert (c_has_request s) ;;;
  mput (set_request false (c_got_data s) s) ;;;
  massert (IsConnected s).

Definition Client_OnError (ep : exception_ptr) : C unit :=
  let! s := mget in
  massert (c_has_request s) ;;;
  mput (set_request false (c_got_data s) s) ;;;
  AbortResponse (OtherError :: ep).

(** ** Buckets *)

(** The handler of [_FillBucketList()] is an object beside the client; [fb_error]: an exception, which
    ends [Feed()] as the result [CLOSED] does. *)
Record FillBucketHandler := mkFill {
  fb_client : FcgiClient;
  fb_list : IstreamBucketList;
  fb_available : Z;
  fb_total_size : nat;
  fb_current_skip_stderr : nat;
  fb_current_stderr : bool;
  fb_found_end_request : bool;
  fb_release_socket : bool;
  fb_put_action : PutAction;
  fb_error : option exception_ptr }.

Definition Fill_OnFrameHeader (type : FcgiRecordType) (request_id : Z) : M FillBucketHandler FrameResult :=
  let! f := mget in
  let r := c_response (fb_client f) in
  let with_stderr e := mkFill (fb_client f) (fb_list f) (fb_available f) (fb_total_size f)
    (fb_current_skip_stderr f) e (fb_found_end_request f) (fb_release_socket f) (fb_put_action f) (fb_error f) in
  if negb (request_id =? id) then mret SKIP
  else if fb_found_end_request f then
    mput (mkFill (fb_client f) (fb_list f) (fb_available f) (fb_total_size f) (fb_current_skip_stderr f)
      (fb_current_stderr f) (fb_found_end_request f) (fb_release_socket f) DESTROY (fb_error f)) ;;;
    mret STOP
  else if type =? STDOUT then mput (with_stderr false) ;;; mret CONTINUE
  else if type =? STDERR then mput (with_stderr true) ;;; mret CONTINUE
  else if type =? END_REQUEST then
    massert ((available r <? 0) || (Z.of_nat (fb_total_size f) <=? available r)) ;;;
    if 0 <? fb_available f then
      mput (mkFill (fb_client f) (fb_list f) (fb_available f) (fb_total_size f) (fb_current_skip_stderr f)
        (fb_current_stderr f) (fb_found_end_request f) (fb_release_socket f) (fb_put_action f) (Some garbage)) ;;;
      mret CLOSED
    else
      let client := if available r <? 0
                    then set_response (set_available (Z.of_nat (fb_total_size f)) r) (fb_client f)
                    else fb_client f in
      mput (mkFill client (fb_list f) (fb_available f) (fb_total_size f) (fb_current_skip_stderr f)
        (fb_current_stderr f) true (fb_release_socket f) (fb_put_action f) (fb_error f)) ;;;
      mret SKIP
  else mret SKIP.

Definition Fill_OnFramePayload (src : list Z) : M FillBucketHandler (FrameResult * nat) :=
  let! f := mget in
  let client := fb_client f in
  let consumed := length src in
  if fb_current_stderr f then
    (if (fb_current_skip_stderr f <? length src)%nat then
       let src := drop (fb_current_skip_stderr f) src in
       let client := set_stderr_out (c_stderr client ++ src) client in
       mput (mkFill (set_skip_stderr (c_skip_stderr client + length src) client) (fb_list f) (fb_available f)
         (fb_total_size f) 0 (fb_current_stderr f) (fb_found_end_request f) (fb_release_socket f)
         (fb_put_action f) (fb_error f))
     else
       mput (mkFill client (fb_list f) (fb_available f)
         (fb_total_size f) (fb_current_skip_stderr f - length src) (fb_current_stderr f) (fb_found_end_request f)
         (fb_release_socket f) (fb_put_action f) (fb_error f))) ;;;
    mret (CONTINUE, consumed)
  else if (0 <=? fb_available f) && (fb_available f <? Z.of_nat (length src)) then
    mput (mkFill client (fb_list f) (fb_available f) (fb_total_size f) (fb_current_skip_stderr f)
      (fb_current_stderr f) (fb_found_end_request f) (fb_release_socket f) (fb_put_action f) (Some garbage)) ;;;
    mret (CLOSED, 0%nat)
  else
    let left := if 0 <=? fb_available f then fb_available f - Z.of_nat (length src) else fb_available f in
    mput (mkFill client (Push src (fb_list f)) left (fb_total_size f + length src) (fb_current_skip_stderr f)
      (fb_current_stderr f) (fb_found_end_request f) (fb_release_socket f) (fb_put_action f) (fb_error f)) ;;;
    mret (CONTINUE, consumed).

Definition Fill_OnFrameEnd : M FillBucketHandler FrameResult :=
  let! f := mget in
  if fb_found_end_request f then
    mput (mkFill (fb_client f) (fb_list f) (fb_available f) (fb_total_size f) (fb_current_skip_stderr f)
      (fb_current_stderr f) (fb_found_end_request f) true REUSE (fb_error f)) ;;;
    mret STOP
  else mret CONTINUE.

Definition fill_bucket_handler : FcgiFrameHandler FillBucketHandler := {|
  OnFrameConsumed nbytes := mret tt;
  OnFrameHeader := Fill_OnFrameHeader;
  OnFramePayload := Fill_OnFramePayload;
  OnFrameEnd := Fill_OnFrameEnd |}.

(** The result is the list, or an exception. *)
Definition Client_FillBucketList (list : IstreamBucketList) : C (IstreamBucketList + exception_ptr) :=
  let! s := mget in
  let r := c_response s in
  massert (WasResponseSubmitted r) ;;;
  if (available r =? 0) && IsReleased s then mret (inl list)
  else
    match Feed fill_bucket_handler (c_parser s) (c_input s)
      (mkFill s list (available r) 0 (c_skip_stderr s) (stderr r) (end_request r) false DESTROY None) with
    | None => mfail
    | Some (_, f) =>
        mput (fb_client f) ;;;
        match fb_error f with
        | Some ep => DestroyClient Chunked.Closed ;;; mret (inr ep)
        | None =>
            let! s := mget in
            (if fb_release_socket f && negb (IsReleased s) then Release true (fb_put_action f) else mret tt) ;;;
            let! s := mget in
            mret (inl (if IsReleased s then fb_list f else SetMore (fb_list f)))
        end
    end.

(** [ConsumeBucketHandler]: the client, [nbytes] and [total]. *)
Record ConsumeBucketHandler := mkConsume {
  cb_client : FcgiClient;
  cb_nbytes : nat;
  cb_total : nat }.

Definition consume_client {A} (m : C A) : M ConsumeBucketHandler A := fun h =>
  match m (cb_client h) with
  | Some (a, s) => Some (a, mkConsume s (cb_nbytes h) (cb_total h))
  | None => None
  end.

Definition Consume_OnFrameHeader (type : FcgiRecordType) (request_id : Z) : M ConsumeBucketHandler FrameResult :=
  if negb (request_id =? id) then mret SKIP
  else if type =? END_REQUEST then
    let! h := mget in
    (if IsReleased (cb_client h) then
       massert (available (c_response (cb_client h)) =? 0) ;;;
       consume_client (response_mod (set_end_request true))
     else mret tt) ;;;
    mret SKIP
  else if type =? STDOUT then consume_client (response_mod (set_stderr false)) ;;; mret CONTINUE
  else if type =? STDERR then consume_client (response_mod (set_stderr true)) ;;; mret CONTINUE
  else mret SKIP.

Definition Consume_OnFramePayload (src : list Z) : M ConsumeBucketHandler (FrameResult * nat) :=
  let! h := mget in
  let s := cb_client h in
  let r := c_response s in
  if stderr r then
    massert (length src <=? c_skip_stderr s)%nat ;;;
    mput (mkConsume (set_skip_stderr (c_skip_stderr s - length src) s) (cb_nbytes h) (cb_total h)) ;;;
    mret (CONTINUE, length src)
  else
    let '(result, consumed) := if (cb_nbytes h <? length src)%nat then (STOP, cb_nbytes h)
                               else (CONTINUE, length src) in
    let s := if 0 <? available r then set_response (set_available (available r - Z.of_nat consumed) r) s else s in
    mput (mkConsume s (cb_nbytes h - consumed) (cb_total h + consumed)) ;;;
    mret (result, consumed).

Definition consume_bucket_handler : FcgiFrameHandler ConsumeBucketHandler := {|
  OnFrameConsumed n := consume_client (DisposeConsumed n);
  OnFrameHeader := Consume_OnFrameHeader;
  OnFramePayload := Consume_OnFramePayload;
  OnFrameEnd := mret CONTINUE |}.

(** The results are [consumed] and [eof]. *)
Definition Client_ConsumeBucketList (nbytes : nat) : C (nat * bool) :=
  let! s := mget in
  massert (negb (available (c_response s) =? 0)) ;;;
  massert (WasResponseSubmitted (c_response s)) ;;;
  match Feed consume_bucket_handler (c_parser s) (c_input s) (mkConsume s nbytes 0) with
  | None => mfail
  | Some ((_, parser), h) =>
      mput (set_parser parser (cb_client h)) ;;;
      AfterConsumed ;;;
      let! r := get_response in
      massert (end_request r || (cb_nbytes h =? 0)%nat) ;;;
      mret (cb_total h, end_request r)
  end.

(** ** Socket events *)

(** [InvokeReady()] has returned [ready]; [READY_CLOSED] means that the handler has closed the istream. *)
Definition Client_OnBufferedData (ready : IstreamReadyResult) : C BufferedResult :=
  let! r := get_response in
  let consume :=
    let! r := ReadBuffer in
    massert (negb (bool_decide (r = []))) ;;;
    let! s := mget in
    (if IsReleased s then mret tt
     else
       let! analysis := AnalyseBuffer r in
       if (0 <? end_request_offset analysis)%nat && (end_request_offset analysis <=? length r)%nat then
         Release true (if (end_request_offset analysis =? length r)%nat then REUSE else DESTROY)
       else mret tt) ;;;
    ConsumeInput r in
  if WasResponseSubmitted r && negb (in_read r) then
    match ready with
    | READY_OK => mret BR_OK
    | READY_FALLBACK => consume
    | READY_CLOSED => Client_Close ;;; mret BR_DESTROYED
    end
  else consume.

(** The client does not override [OnBufferedEnd()]; its default throws. *)
Definition Client_OnBufferedEnd : C (bool + exception_ptr) := mret (inr [SocketClosedPrematurelyError]).

Definition Client_OnBufferedError (ep : exception_ptr) : C unit :=
  AbortResponse (FcgiClientError IO :: ep).

(** [read] is [input.Read()]; scheduling the next write is left to the socket. *)
Definition Client_OnBufferedWrite (read : C unit) : C bool :=
  set_got_data false ;;;
  read ;;;
  let! s := mget in
  mret (c_alive s).

Definition Client_OnBufferedTimeout : C bool := AbortResponse [TimeoutError] ;;; mret false.

Definition Client_OnBufferedClosed : C bool := Release false DESTROY ;;; mret true.

Definition Client_Cancel : C unit :=
  let! s := mget in
  massert (negb (WasResponseSubmitted (c_response s))) ;;;
  massert (negb (IsReleased s)) ;;;
  DestroyClient Chunked.Closed.

(** [IsReleasedEmpty()] *)
Definition IsReleasedEmpty (s : FcgiClient) : bool := bool_decide (c_input s = []).

(** [handler.OnBufferedEnd()] with its exceptions passed to [OnBufferedError()]. *)
Definition lease_end : C bool :=
  let! r := Client_OnBufferedEnd in
  match r with
  | inl b => mret b
  | inr ep => Client_OnBufferedError ep ;;; mret false
  end.

(** [BufferedSocketLease::ReadReleased()] *)
Definition ReadReleased (ready : IstreamReadyResult) : C bool :=
  let! s := mget in
  let remaining := length (c_input s) in
  if (remaining =? 0)%nat then mret true
  else
    let! result := Client_OnBufferedData ready in
    let! s := mget in
    match result with
    | BR_OK =>
        if IsReleasedEmpty s then
          let! ok := lease_end in
          if negb ok then mret false else mret true
        else mret true
    | BR_MORE =>
        if IsReleasedEmpty s then Client_OnBufferedError [SocketClosedPrematurelyError] ;;; mret false
        else mret true
    | BR_AGAIN => mret true
    | BR_DESTROYED => mret false
    end.

(** [BufferedSocketLease::OnBufferedData()]; what it returns to the [BufferedSocket] if the lease was
    released depends on the action, which the owner of the socket may have changed. *)
Fixpoint lease_OnBufferedData (fuel : nat) (ready : IstreamReadyResult) : C BufferedResult :=
  match fuel with
  | O => mfail
  | S fuel =>
      let! result := Client_OnBufferedData ready in
      let! s := mget in
      match result with
      | BR_DESTROYED =>
          massert (IsReleased s) ;;;
          mret (match c_released s with Some DESTROY => BR_DESTROYED | _ => BR_OK end)
      | _ =>
          if negb (IsReleased s) then mret result
          else if negb (match result with BR_AGAIN => true | _ => false end) && negb (IsReleasedEmpty s) then
            mret (match c_released s with Some DESTROY => BR_DESTROYED | _ => BR_OK end)
          else lease_OnBufferedData fuel ready
      end
  end.

(** [BufferedSocketLease::OnBufferedClosed()]; the client does not override [OnBufferedRemaining()]. *)
Definition lease_OnBufferedClosed (ready : IstreamReadyResult) : C bool :=
  let! result := Client_OnBufferedClosed in
  let! s := mget in
  if result && IsReleased s then
    let! ok := ReadReleased ready in
    let! s := mget in
    (if ok && IsReleasedEmpty s then let! _ := lease_end in mret tt else mret tt) ;;;
    mret false
  else mret result.

(** ** The istream *)

Definition Client_GetAvailable (partial : bool) : C Z :=
  let! s := mget in
  let r := c_response s in
  if 0 <=? available r then mret (available r)
  else
    let remaining := GetRemaining (c_parser s) in
    let fallback := if partial && negb (stderr r) then Z.of_nat remaining else -1 in
    if (remaining <? length (c_input s))%nat then
      let! analysis := AnalyseBuffer (c_input s) in
      if (0 <? end_request_offset analysis)%nat || partial then mret (Z.of_nat (total_stdout analysis))
      else mret fallback
    else mret fallback.

(** [_Read()]; [data] is what [BufferedSocket::Read()] receives before it calls the lease. *)
Definition Client_Read (data : list Z) : C unit :=
  let! s := mget in
  massert (WasResponseSubmitted (c_response s)) ;;;
  massert (negb (in_read (c_response s))) ;;;
  if in_handler (c_response s) then mret tt
  else
    response_mod (set_in_read true) ;;;
    (if IsReleased s then let! _ := ReadReleased READY_FALLBACK in mret tt
     else
       mmod (fun s => set_input (c_input s ++ data) s) ;;;
       let! s := mget in
       if bool_decide (c_input s = []) then mret tt
       else let! _ := lease_OnBufferedData 2 READY_FALLBACK in mret tt) ;;;
    let! s := mget in
    if c_alive s then response_mod (set_in_read false) else mret tt.

(** [FcgiClient()]; [junk] is what is in the members without an initializer. *)
Definition FcgiClient_new (junk : Response) (method_is_empty keeps : bool) (h : list reaction) : FcgiClient :=
  mkFcgiClient [] None [] true false
    (mkResponse [] 0 (available junk) (status junk) method_is_empty (in_handler junk) (in_read junk) true false false)
    FcgiParser_new 0 (Sink_new h) keeps [].

End Client.
