(* ===== verification/FcgiClientFacts.v ===== *)
(** * FastCGI: what the client's look-ahead finds

    The handlers of [AnalyseBuffer()], [_FillBucketList()] and [_ConsumeBucketList()] compared with the
    machine that reads single bytes, and the parser of the header block with the response that is
    made of it. *)

From Stdlib Require Import String.
From S2P Require Import Prelude Bucket Chunked GrowingBufferFacts CharUtil StrMap Uri HttpCacheRFC Sink.
From S2P Require Import HttpHeaders HttpHeadersFacts Fcgi FcgiParserFacts FcgiClient.

#[local] Open Scope beng_scope.

(** ** Bucket lists and states of the client *)

Lemma extends_trans a b c x y : extends a b x -> extends b c y -> extends a c (x ++ y).
Proof.
  intros (k & E1 & E2 & E3 & E4) (m & F1 & F2 & F3 & F4). destruct (Nat.le_gt_cases (length x) k) as [Hk|Hk].
  - exists (length x + m)%nat. rewrite take_ge in E1 by done. split_and!.
    + by rewrite F1, E1, take_app_add, app_assoc.
    + intros Hm. destruct (F2 Hm) as [Hm' Hy]. rewrite length_app. split; [by apply E2|lia].
    + rewrite length_app. destruct F3; [left; lia|by right].
    + intros Hf. destruct (E4 Hf) as [G1 G2]. destruct (F4 G2) as [G3 G4]. by rewrite G3, G1.
  - destruct E3 as [E3|E3]; [lia|]. destruct (F4 E3) as [G1 G2]. exists k. split_and!.
    + by rewrite G1, E1, take_app_le by lia.
    + intros Hm. destruct (F2 Hm) as [Hm' Hy]. destruct (E2 Hm') as [_ ?]. lia.
    + by right.
    + intros Hf. destruct (E4 Hf) as [G3 _]. by rewrite G1, G3.
Qed.

Lemma extends_snoc a b x y : extends a b x -> extends a (Push y b) (x ++ y).
Proof.
  intros H. eapply extends_trans; [exact H|]. rewrite <- (app_nil_r y) at 2. apply extends_Push, extends_refl.
Qed.

(** ** Looking at a buffer *)

(** The header of the next record, as the client sees it and as the machine sees it. *)
Inductive frame_view (id : Z) (h : FcgiRecordHeader) (d : Demux) : Prop :=
  | V_other : (request_id h =? id) = false ->
      dm_frame id h d = mkDemux 0 (Z.to_nat (padding_length h) + Z.to_nat (content_length h)) []
        (dm_stderr d) (dm_ended d) (dm_excess d) ->
      frame_view id h d
  | V_stdout : (request_id h =? id) = true -> dm_ended d = false -> type h = STDOUT ->
      dm_frame id h d = mkDemux (Z.to_nat (content_length h)) (Z.to_nat (padding_length h)) [] false false (dm_excess d) ->
      frame_view id h d
  | V_stderr : (request_id h =? id) = true -> dm_ended d = false -> type h = STDERR ->
      dm_frame id h d = mkDemux (Z.to_nat (content_length h)) (Z.to_nat (padding_length h)) [] true false (dm_excess d) ->
      frame_view id h d
  | V_end : (request_id h =? id) = true -> dm_ended d = false -> type h = END_REQUEST ->
      dm_frame id h d = mkDemux 0 (Z.to_nat (padding_length h) + Z.to_nat (content_length h)) []
        (dm_stderr d) true (dm_excess d) ->
      frame_view id h d
  | V_unknown : (request_id h =? id) = true -> dm_ended d = false ->
      (type h =? STDOUT) = false -> (type h =? STDERR) = false -> (type h =? END_REQUEST) = false ->
      dm_frame id h d = mkDemux 0 (Z.to_nat (padding_length h) + Z.to_nat (content_length h)) []
        (dm_stderr d) false (dm_excess d) ->
      frame_view id h d.

Lemma frame_viewed id h d : dm_excess (dm_frame id h d) = false -> frame_view id h d.
Proof.
  unfold dm_frame. intros H. destruct (request_id h =? id) eqn:E; [|by apply V_other; [|unfold dm_frame; rewrite E]].
  destruct (dm_ended d) eqn:Ee; [done|]. simpl in H.
  destruct (type h =? STDOUT) eqn:E1.
  { apply V_stdout; [done|done|by apply Z.eqb_eq|]. unfold dm_frame. by rewrite E, Ee, E1. }
  destruct (type h =? STDERR) eqn:E2.
  { apply V_stderr; [done|done|by apply Z.eqb_eq|]. unfold dm_frame. by rewrite E, Ee, E1, E2. }
  destruct (type h =? END_REQUEST) eqn:E3.
  { apply V_end; [done|done|by apply Z.eqb_eq|]. unfold dm_frame. by rewrite E, Ee, E1, E2, E3. }
  apply V_unknown; [done..|]. unfold dm_frame. by rewrite E, Ee, E1, E2, E3.
Qed.

(** The parser after the header of a record that it ignores, accepts or skips. *)
Lemma matches_ignored acc content padding err ended excess :
  matches acc (SkipCurrent (mkFcgiParser content padding true)) (mkDemux 0 (padding + content) [] err ended excess).
Proof. split; [done|]. split; [simpl; lia|]. by left. Qed.

Lemma matches_accepted (acc : bool -> bool) content padding err ended excess : acc err = true ->
  matches acc (mkFcgiParser content padding true) (mkDemux content padding [] err ended excess).
Proof. intros Ha. split; [done|]. split; [done|]. by left. Qed.

Lemma matches_unwanted (acc : bool -> bool) content padding err ended excess : acc err = false ->
  matches acc (SkipCurrent (mkFcgiParser content padding true)) (mkDemux content padding [] err ended excess).
Proof. intros Ha. split; [done|]. split; [simpl; lia|]. right. split; [done|]. split; [simpl; lia|done]. Qed.

(** A payload that is consumed completely leaves nothing for now. *)
Lemma no_rest p (src : list Z) :
  (0 < remaining (mkFcgiParser (remaining p - length (take (remaining p) src)) (skip p) true))%nat ->
  drop (length (take (remaining p) src)) src <> [] -> False.
Proof. simpl. rewrite length_take. intros Hr Hne. apply Hne, drop_ge. lia. Qed.

Section Buffer.
(** [dn] has been processed, [input] has not. *)
Context (id : Z) (dn input : list Z).
Hypothesis Hexcess : dm_excess (dm_run id Demux_new (dn ++ input)) = false.

Abbreviation d0 := (dm_run id Demux_new dn).

(** The machine after the first [n] bytes of the input, and what it has emitted. *)
Definition after (n : nat) : Demux := dm_run id d0 (take n input).
Definition emitted (want : bool) (n : nat) : list Z := dm_out id want d0 (take n input).

Lemma after_no_excess n : dm_excess (after n) = false.
Proof.
  unfold after. rewrite <- dm_run_app. apply (no_excess_prefix id _ _ (drop n input)).
  by rewrite <- app_assoc, take_drop.
Qed.

Lemma after_add n m : after (n + m) = dm_run id (after n) (take m (drop n input)).
Proof. unfold after. by rewrite <- (dm_run_app id d0), take_take_drop. Qed.

Lemma emitted_add want n m : emitted want (n + m) = emitted want n ++ dm_out id want (after n) (take m (drop n input)).
Proof. unfold emitted, after. by rewrite <- dm_out_app, take_take_drop. Qed.

(** The parser has processed [n] bytes and [src] is what is left. *)
Record tracked (acc : bool -> bool) (p : FcgiParser) (src : list Z) (n : nat) : Prop := {
  t_src : src = drop n input;
  t_length : (n <= length input)%nat;
  t_matches : matches acc p (after n) }.

Lemma tracked_src_length acc p src n : tracked acc p src n -> length src = (length input - n)%nat.
Proof. intros [-> _ _]. apply length_drop. Qed.

Lemma tracked_payload acc p src n m : tracked acc p src n -> (0 < remaining p)%nat ->
  (m <= remaining p)%nat -> (m <= length src)%nat ->
  tracked acc (mkFcgiParser (remaining p - m) (skip p) true) (drop m src) (n + m) /\
  same_flags (after n) (after (n + m)) /\ acc (dm_stderr (after n)) = true /\
  forall want, emitted want (n + m) = emitted want n ++ (if eqb (dm_stderr (after n)) want then take m src else []).
Proof.
  intros Ht Hr H1 H2. pose proof (tracked_src_length _ _ _ _ Ht) as Hl. destruct Ht as [-> Hn Hm].
  assert (Hx : length (take m (drop n input)) = m) by (rewrite length_take; lia).
  destruct (matches_payload id acc p (after n) (take m (drop n input)) Hm Hr) as (M1 & M2 & M3); [lia|].
  rewrite Hx, <- after_add in *. split; [split; [by rewrite drop_drop|lia|done]|].
  split; [done|]. split; [by apply Hm|]. intros want. by rewrite emitted_add, M3.
Qed.

Lemma tracked_skip acc p src n m : tracked acc p src n -> remaining p = 0%nat ->
  (m <= skip p)%nat -> (m <= length src)%nat ->
  tracked acc (mkFcgiParser 0 (skip p - m) true) (drop m src) (n + m) /\
  same_flags (after n) (after (n + m)) /\ forall want, acc want = true -> emitted want (n + m) = emitted want n.
Proof.
  intros Ht Hr H1 H2. pose proof (tracked_src_length _ _ _ _ Ht) as Hl. destruct Ht as [-> Hn Hm].
  assert (Hx : length (take m (drop n input)) = m) by (rewrite length_take; lia).
  destruct (matches_skip id acc p (after n) (take m (drop n input)) Hm Hr) as (M1 & M2 & M3); [lia|].
  rewrite Hx, <- after_add in *. split; [split; [by rewrite drop_drop|lia|done]|].
  split; [done|]. intros want Hw. by rewrite emitted_add, M3, app_nil_r.
Qed.

Lemma tracked_header acc e src n : tracked acc (mkFcgiParser 0 0 e) src n -> (sizeof_FcgiRecordHeader <= length src)%nat ->
  drop sizeof_FcgiRecordHeader src = drop (n + sizeof_FcgiRecordHeader) input /\
  (n + sizeof_FcgiRecordHeader <= length input)%nat /\
  after (n + sizeof_FcgiRecordHeader) = dm_frame id (header_of src) (after n) /\
  frame_view id (header_of src) (after n) /\
  forall want, emitted want (n + sizeof_FcgiRecordHeader) = emitted want n.
Proof.
  intros Ht Hl. pose proof (tracked_src_length _ _ _ _ Ht) as Hs. destruct Ht as [-> Hn Hm].
  destruct (matches_header id acc _ (after n) (drop n input) Hm eq_refl eq_refl Hl) as [M1 M2].
  assert (Ha : after (n + sizeof_FcgiRecordHeader) = dm_frame id (header_of (drop n input)) (after n)) by by rewrite after_add.
  split; [by rewrite drop_drop|]. split; [lia|]. split; [done|]. split.
  - apply frame_viewed. rewrite <- Ha. apply after_no_excess.
  - intros want. by rewrite emitted_add, M2, app_nil_r.
Qed.

(** Nothing is emitted by the bytes that [Feed()] does not process. *)
Lemma rest_silent acc p src n want : tracked acc p src n ->
  (src = [] /\ (0 < remaining p + skip p)%nat) \/
  (p = mkFcgiParser 0 0 false /\ (length src < sizeof_FcgiRecordHeader)%nat) ->
  emitted want n = dm_out id want d0 input.
Proof.
  intros [-> Hn Hm] H. unfold emitted. rewrite (dm_out_split id want d0 n input). fold (after n).
  assert (E : dm_out id want (after n) (drop n input) = []); [|by rewrite E, app_nil_r].
  destruct H as [[-> _]|[-> Hl]]; [done|].
  pose proof (matches_idle _ _ _ Hm eq_refl eq_refl) as E.
  change (mkDemux 0 0 [] ?a ?b ?c) with (dm_of FcgiParser_new a b c) in E. rewrite E. by apply dm_short.
Qed.

Lemma rest_ended acc p src n : tracked acc p src n ->
  (src = [] /\ (0 < remaining p + skip p)%nat) \/
  (p = mkFcgiParser 0 0 false /\ (length src < sizeof_FcgiRecordHeader)%nat) ->
  dm_ended (dm_run id d0 input) = dm_ended (after n).
Proof.
  intros [-> Hn Hm] H. rewrite (dm_run_split id d0 n input). fold (after n).
  destruct H as [[-> _]|[-> Hl]]; [done|].
  pose proof (matches_idle _ _ _ Hm eq_refl eq_refl) as E.
  change (mkDemux 0 0 [] ?a ?b ?c) with (dm_of FcgiParser_new a b c) in E. rewrite E.
  destruct (dm_short id FcgiParser_new (dm_stderr (after n)) (dm_ended (after n)) (dm_excess (after n)) (drop n input) eq_refl eq_refl Hl)
    as [-> _]. done.
Qed.

Lemma ended_input n : dm_ended (after n) = true -> dm_ended (dm_run id d0 input) = true.
Proof. intros H. rewrite (dm_run_split id d0 n input). by apply dm_run_ended. Qed.

(** Once END_REQUEST has been seen, there is nothing left. *)
Lemma ended_silent n want : dm_ended (after n) = true -> emitted want n = dm_out id want d0 input.
Proof.
  intros He. unfold emitted. rewrite (dm_out_split id want d0 n input). fold (after n).
  destruct (dm_out_ended id want (drop n input) (after n)) as [E _]; [done| |by rewrite E, app_nil_r].
  unfold after in *. rewrite <- dm_run_app in *. by apply dm_ended_remaining.
Qed.

Lemma complete_after acc src n e : tracked acc (mkFcgiParser 0 0 e) src n -> dm_ended (after n) = true ->
  complete id (dn ++ take n input).
Proof.
  intros [_ _ Hm] He. exists (dn ++ take n input), []. rewrite app_nil_r, dm_run_app. fold (after n).
  pose proof (matches_idle _ _ _ Hm eq_refl eq_refl) as E. rewrite E. done.
Qed.

Lemma complete_input n : complete id (dn ++ take n input) -> complete id (dn ++ input).
Proof. intros H. rewrite <- (take_drop n input), app_assoc. by apply complete_app. Qed.

(** *** [AnalyseBuffer()] *)

Section AnalyseBuffer.
Context (exact : bool).

Record analysis_inv (p : FcgiParser) (src : list Z) (a : AnalysisHandler) : Prop := {
  ai_tracked : exists acc, tracked acc p src (a_consumed a) /\ acc true = false /\ (exact = true -> acc false = true);
  ai_stdout : exact = true -> total_stdout a = length (emitted false (a_consumed a));
  ai_end : is_end a = dm_ended (after (a_consumed a)) && negb (dm_ended d0);
  ai_frame : is_end a = true -> in_frame p = true;
  ai_offset : end_request_offset a = 0%nat }.

Record analysis_post (a : AnalysisHandler) : Prop := {
  ap_complete : (0 < end_request_offset a)%nat -> complete id (dn ++ input) /\ dm_ended d0 = false /\
    (end_request_offset a <= length input)%nat;
  ap_stdout : exact = true -> total_stdout a = length (dm_out id false d0 input) }.

Lemma analysis_spec :
  FeedSpec (analysis_handler id) analysis_inv (fun _ _ a => analysis_post a).
Proof.
  split.
  - intros p src a [(acc & Ht & Ha & Hb) H4 H5 H6 H7] Hf Hr Hne. cbn [OnFramePayload analysis_handler].
    wp_step. wp_step. apply wp_ret. set (x := take (remaining p) src).
    assert (Hx : (length x = remaining p `min` length src)%nat) by apply length_take.
    assert (Hl : (0 < length src)%nat) by (destruct src; simpl; [done|lia]).
    split; [lia|]. split; [lia|]. rewrite (proj2 (Nat.eqb_neq (length x) 0)) by lia.
    cbn [OnFrameConsumed]. apply wp_mod. split; [|intros Hr' Hne'; by destruct (no_rest p src Hr' Hne')].
    destruct (tracked_payload acc p src (a_consumed a) (length x) Ht Hr) as (M1 & (F1 & F2 & _) & M2 & M3); [lia|lia|].
    assert (Hs : dm_stderr (after (a_consumed a)) = false) by (destruct (dm_stderr _); [congruence|done]).
    split; cbn [a_consumed total_stdout is_end end_request_offset].
    + by exists acc.
    + intros He. rewrite M3, Hs, length_app, H4 by done. simpl. f_equal. rewrite length_take. lia.
    + by rewrite F2.
    + done.
    + done.
  - intros p src a [(acc & Ht & Ha & Hb) H4 H5 H6 H7] H. split.
    + lia.
    + intros He. rewrite H4 by done. f_equal. by eapply rest_silent.
  - intros p src a n [(acc & Ht & Ha & Hb) H4 H5 H6 H7] Hf Hr Hn Hl. apply wp_mod. cbn [OnFrameConsumed].
    destruct (tracked_skip acc p src (a_consumed a) n Ht Hr Hn Hl) as (M1 & (F1 & F2 & _) & M2).
    split; cbn [a_consumed total_stdout is_end end_request_offset].
    + by exists acc.
    + intros He. rewrite M2 by auto. by apply H4.
    + by rewrite F2.
    + done.
    + done.
  - intros src a [(acc & Ht & Ha & Hb) H4 H5 H6 H7]. cbn [OnFrameEnd analysis_handler].
    wp_step. wp_step. destruct (is_end a) eqn:Ee.
    + wp_step. wp_step. apply wp_ret. symmetry in H5. apply andb_true_iff in H5 as [H5 H8].
      split; cbn [end_request_offset total_stdout].
      * intros _. apply negb_true_iff in H8. split; [|split; [done|apply Ht]].
        eapply complete_input, complete_after; [exact Ht|done].
      * intros He. rewrite H4 by done. f_equal. by apply ended_silent.
    + apply wp_ret. split; [|done|congruence|congruence|done]. exists acc. split; [|done]. by destruct Ht.
  - intros src a [(acc & Ht & Ha & Hb) H4 H5 H6 H7] Hl. apply wp_mod. cbn [OnFrameHeader analysis_handler].
    destruct (tracked_header acc _ src _ Ht Hl) as (M1 & M2 & M3 & V & M4).
    assert (He : is_end a = false) by (destruct (is_end a); [by discriminate H6|done]).
    wp_step. wp_step. wp_step. wp_step; [by apply negb_true_iff|].
    assert (Hinv : forall p e, in_frame p = true -> matches negb p (dm_frame id (header_of src) (after (a_consumed a))) ->
      e = dm_ended (dm_frame id (header_of src) (after (a_consumed a))) && negb (dm_ended d0) ->
      analysis_inv p (drop sizeof_FcgiRecordHeader src)
        (mkAnalysis (end_request_offset a) (total_stdout a) (a_consumed a + sizeof_FcgiRecordHeader) e)).
    { intros p e Hp Hm Hee. split; cbn [a_consumed total_stdout is_end end_request_offset]; rewrite ?M3, ?M4; [|done..].
      exists negb. split; [|done]. split; [done|done|by rewrite M3]. }
    destruct V as [E1 E2|E1 E2 E3 E4|E1 E2 E3 E4|E1 E2 E3 E4|E1 E2 E3 E4 E5 E6]; rewrite E1; cbn [negb].
    + apply wp_ret. apply Hinv; [done|rewrite E2; apply matches_ignored|by rewrite E2].
    + rewrite E3. apply wp_ret. apply Hinv; [done|rewrite E4; by apply matches_accepted|by rewrite E4].
    + rewrite E3. apply wp_ret. apply Hinv; [done|rewrite E4; by apply matches_unwanted|by rewrite E4].
    + rewrite E3. cbn. wp_step. wp_step. apply wp_ret. apply Hinv; [done|rewrite E4; apply matches_ignored|].
      rewrite E4. simpl. destruct (dm_ended d0) eqn:E0; [|done]. exfalso.
      assert (dm_ended (after (a_consumed a)) = true) by (by apply dm_run_ended). congruence.
    + rewrite E3, E5. apply wp_ret. apply Hinv; [done|rewrite E6; apply matches_ignored|by rewrite E6].
Qed.

End AnalyseBuffer.
(** *** [_FillBucketList()] *)

Section FillBucketList.
Context (s0 : FcgiClient) (list0 : IstreamBucketList).

Abbreviation avail0 := (available (c_response s0)).
Abbreviation end0 := (end_request (c_response s0)).

Hypothesis Hend0 : end0 = true -> dm_ended d0 = true.

(** What was found: END_REQUEST, unless it was consumed without being noticed. *)
Definition found_at (n : nat) : bool := end0 || (dm_ended (after n) && negb (dm_ended d0)).

(** STDERR data is written when it is seen for the first time. *)
Definition after_stderr (e : list Z) : FcgiClient :=
  set_skip_stderr (c_skip_stderr s0 + length (drop (c_skip_stderr s0) e))
    (set_stderr_out (c_stderr s0 ++ drop (c_skip_stderr s0) e) s0).

Definition filled_client (found : bool) (e : list Z) (total : nat) : FcgiClient :=
  if found && negb end0 && (avail0 <? 0) then
    set_response (set_available (Z.of_nat total) (c_response s0)) (after_stderr e)
  else after_stderr e.

Record fill_inv (p : FcgiParser) (src : list Z) (f : FillBucketHandler) : Prop := {
  fi_tracked : exists n, tracked (fun _ => true) p src n /\
    fb_current_stderr f = dm_stderr (after n) /\
    fb_total_size f = length (emitted false n) /\
    fb_found_end_request f = found_at n /\
    fb_current_skip_stderr f = (c_skip_stderr s0 - length (emitted true n))%nat /\
    extends list0 (fb_list f) (emitted false n) /\
    fb_client f = filled_client (found_at n) (emitted true n) (fb_total_size f) /\
    (avail0 < 0 -> fb_available f = avail0) /\
    (0 <= avail0 -> fb_available f = avail0 - Z.of_nat (fb_total_size f) /\ 0 <= fb_available f) /\
    (found_at n = true -> end0 = false -> 0 <= avail0 -> fb_available f = 0);
  fi_release : fb_release_socket f = false;
  fi_error : fb_error f = None }.

Record fill_done (f : FillBucketHandler) : Prop := {
  fd_list : extends list0 (fb_list f) (dm_out id false d0 input);
  fd_client : fb_client f = filled_client (fb_found_end_request f) (dm_out id true d0 input)
    (length (dm_out id false d0 input));
  fd_found : fb_found_end_request f = end0 || (dm_ended (dm_run id d0 input) && negb (dm_ended d0));
  fd_bound : 0 <= avail0 -> Z.of_nat (length (dm_out id false d0 input)) <= avail0;
  fd_known : 0 <= avail0 -> end0 = false -> fb_found_end_request f = true ->
    Z.of_nat (length (dm_out id false d0 input)) = avail0;
  fd_release : fb_release_socket f = true -> complete id (dn ++ input) /\ fb_found_end_request f = true }.

Definition fill_post (f : FillBucketHandler) : Prop :=
  match fb_error f with
  | None => fill_done f
  | Some _ => exists found e total, fb_client f = filled_client found e total /\ e `prefix_of` dm_out id true d0 input
  end.

Lemma emitted_prefix want n : emitted want n `prefix_of` dm_out id want d0 input.
Proof. rewrite (dm_out_split id want d0 n input). by eexists. Qed.

Lemma found_ended n : found_at n = true -> dm_ended (after n) = true.
Proof.
  unfold found_at. intros H. apply orb_true_iff in H as [H|H].
  - apply Hend0 in H. by apply dm_run_ended.
  - by apply andb_true_iff in H as [H _].
Qed.

Lemma found_same n n' : dm_ended (after n') = dm_ended (after n) -> found_at n' = found_at n.
Proof. unfold found_at. by intros ->. Qed.

Lemma drop_app_skip (k : nat) (e x : list Z) :
  drop k (e ++ x) = drop k e ++ drop (k - length e) x.
Proof. apply drop_app. Qed.

Lemma fill_payload p src f : fill_inv p src f -> in_frame p = true -> (0 < remaining p)%nat -> src <> [] ->
  wp (Fill_OnFramePayload (take (remaining p) src)) (fun '(result, consumed) f =>
    if (consumed =? 0)%nat then result = CLOSED /\ fill_post f
    else result = CONTINUE /\ consumed = length (take (remaining p) src) /\
      fill_inv (mkFcgiParser (remaining p - consumed) (skip p) true) (drop consumed src) f) f.
Proof.
  intros [(n & Ht & E1 & E2 & E3 & E4 & E5 & E6 & E7 & E8 & E9) Hrel Herr] Hf Hr Hne.
  set (x := take (remaining p) src).
  assert (Hx : (length x = remaining p `min` length src)%nat) by apply length_take.
  assert (Hl : (0 < length src)%nat) by (destruct src; simpl; [done|lia]).
  destruct (tracked_payload _ p src n (length x) Ht Hr) as (M1 & (F1 & F2 & _) & _ & M3); [lia|lia|].
  assert (Hxx : take (length x) src = x) by (unfold x; by rewrite length_take, <- take_take, (take_ge src (length src))).
  rewrite Hxx in M3. assert (Hnf : found_at n = false).
  { destruct (found_at n) eqn:Efn; [|done]. apply found_ended in Efn. destruct Ht as [_ _ (_ & _ & Hm)].
    destruct Hm as [[Hm _]|[Hm _]]; [|lia].
    unfold after in *. rewrite <- dm_run_app in *. apply dm_ended_remaining in Efn; [lia|done]. }
  unfold Fill_OnFramePayload. wp_step. wp_step. rewrite E1.
  destruct (dm_stderr (after n)) eqn:Es.
  - assert (M3t := M3 true). assert (M3f := M3 false). simpl in M3t, M3f. rewrite app_nil_r in M3f.
    apply wp_bind. apply (wp_mono _ (fun _ f' => fb_list f' = fb_list f /\ fb_available f' = fb_available f /\
      fb_total_size f' = fb_total_size f /\ fb_current_stderr f' = fb_current_stderr f /\
      fb_found_end_request f' = fb_found_end_request f /\ fb_release_socket f' = false /\ fb_error f' = None /\
      fb_current_skip_stderr f' = (c_skip_stderr s0 - length (emitted true (n + length x)))%nat /\
      fb_client f' = filled_client (found_at n) (emitted true (n + length x)) (fb_total_size f))).
    + rewrite M3t, length_app, E4, E6. unfold filled_client, after_stderr.
      destruct (Nat.ltb_spec (c_skip_stderr s0 - length (emitted true n)) (length x)) as [Hs|Hs]; wp_step; simpl;
        (split_and!; [done..|lia|]); rewrite drop_app_skip.
      * rewrite app_assoc, length_app, Nat.add_assoc. by rewrite Hnf.
      * rewrite (drop_ge x) by lia. by rewrite app_nil_r.
    + intros _ f' (G1 & G2 & G3 & G4 & G5 & G6 & G7 & G8 & G9). apply wp_ret.
      rewrite (proj2 (Nat.eqb_neq (length x) 0)) by lia. split; [done|]. split; [done|].
      split; [|done|done]. exists (n + length x)%nat. rewrite (found_same _ _ F2), M3f, G1, G2, G3, G4, G5, G8, G9.
      split_and!; [done|rewrite F1; congruence|done..].
  - assert (M3t := M3 true). assert (M3f := M3 false). simpl in M3t, M3f. rewrite app_nil_r in M3t.
    destruct (Z.leb_spec 0 (fb_available f)) as [Ha|Ha]; simpl.
    2: { assert (Ha0 : avail0 < 0) by (destruct (Z.lt_ge_cases avail0 0); [done|]; destruct E8; lia).
      wp_step. wp_step. apply wp_ret. rewrite (proj2 (Nat.eqb_neq (length x) 0)) by lia.
      split; [done|]. split; [done|]. split; [|done|done]. exists (n + length x)%nat. cbn.
      rewrite (found_same _ _ F2), M3f, M3t, length_app, E2.
      split_and!; [done|by rewrite F1|done|done|done|by apply extends_snoc| |done|lia|lia].
      by rewrite E6, Hnf. }
    destruct (Z.ltb_spec (fb_available f) (Z.of_nat (length x))) as [Hb|Hb].
    + wp_step. wp_step. apply wp_ret. simpl. split; [done|]. unfold fill_post. simpl. eauto using emitted_prefix.
    + assert (Ha0 : 0 <= avail0) by (destruct (Z.lt_ge_cases avail0 0); [rewrite E7 in Ha by done; lia|done]).
      destruct (E8 Ha0) as [E8' _].
      wp_step. wp_step. apply wp_ret. rewrite (proj2 (Nat.eqb_neq (length x) 0)) by lia.
      split; [done|]. split; [done|]. split; [|done|done]. exists (n + length x)%nat. cbn.
      rewrite (found_same _ _ F2), M3f, M3t, length_app, E2.
      split_and!; [done|by rewrite F1|done|done|done|by apply extends_snoc| |lia|lia|].
      * by rewrite E6, Hnf.
      * congruence.
Qed.

Lemma fill_skip p src f n : fill_inv p src f -> remaining p = 0%nat -> (n <= skip p)%nat -> (n <= length src)%nat ->
  fill_inv (mkFcgiParser 0 (skip p - n) true) (drop n src) f.
Proof.
  intros [(m & Ht & E1 & E2 & E3 & E4 & E5 & E6 & E7 & E8 & E9) Hrel Herr] Hr Hn Hl.
  destruct (tracked_skip _ p src m n Ht Hr Hn Hl) as (M1 & (F1 & F2 & _) & M2).
  split; [|done|done]. exists (m + n)%nat. by rewrite F1, (found_same _ _ F2), !M2.
Qed.

Lemma fill_more p src f : fill_inv p src f ->
  (src = [] /\ (0 < remaining p + skip p)%nat) \/
  (p = mkFcgiParser 0 0 false /\ (length src < sizeof_FcgiRecordHeader)%nat) -> fill_post f.
Proof.
  intros [(m & Ht & E1 & E2 & E3 & E4 & E5 & E6 & E7 & E8 & E9) Hrel Herr] H. unfold fill_post. rewrite Herr.
  pose proof (rest_silent _ _ _ _ false Ht H) as R1. pose proof (rest_silent _ _ _ _ true Ht H) as R2.
  pose proof (rest_ended _ _ _ _ Ht H) as R3. rewrite R1 in E2, E5. rewrite R2 in E6. split.
  - done.
  - by rewrite E6, E3, E2.
  - rewrite E3. unfold found_at. by rewrite R3.
  - intros Ha. destruct (E8 Ha). lia.
  - intros Ha He Hf. rewrite E3 in Hf. destruct (E8 Ha). specialize (E9 Hf He Ha). lia.
  - congruence.
Qed.

Lemma fill_end src f : fill_inv (mkFcgiParser 0 0 true) src f ->
  wp Fill_OnFrameEnd (fun result f =>
    match result with
    | STOP => fill_post f
    | CONTINUE => fill_inv (mkFcgiParser 0 0 false) src f
    | _ => False
    end) f.
Proof.
  intros [(m & Ht & E1 & E2 & E3 & E4 & E5 & E6 & E7 & E8 & E9) Hrel Herr]. unfold Fill_OnFrameEnd. wp_step. wp_step.
  destruct (fb_found_end_request f) eqn:Ef.
  - wp_step. wp_step. apply wp_ret. unfold fill_post. simpl. rewrite Herr.
    assert (He : dm_ended (after m) = true) by (by apply found_ended).
    pose proof (ended_silent m false He) as R1. pose proof (ended_silent m true He) as R2. rewrite R1 in E2, E5. rewrite R2 in E6.
    split; simpl.
    + done.
    + by rewrite E6, E2, <- E3.
    + rewrite E3. unfold found_at. by rewrite He, (ended_input m He).
    + intros Ha. destruct (E8 Ha). lia.
    + intros Ha He' _. destruct (E8 Ha). specialize (E9 (eq_sym E3) He' Ha). lia.
    + intros _. split; [|done]. eapply complete_input, complete_after; [exact Ht|done].
  - apply wp_ret. split; [|done|done]. exists m. rewrite Ef. split_and!; try done. by destruct Ht.
Qed.

Lemma fill_header src f : fill_inv (mkFcgiParser 0 0 false) src f -> (sizeof_FcgiRecordHeader <= length src)%nat ->
  let h := header_of src in
  let p := mkFcgiParser (Z.to_nat (content_length h)) (Z.to_nat (padding_length h)) true in
  wp (Fill_OnFrameHeader id (type h) (request_id h)) (fun result f =>
    match result with
    | SKIP => fill_inv (SkipCurrent p) (drop sizeof_FcgiRecordHeader src) f
    | CONTINUE => fill_inv p (drop sizeof_FcgiRecordHeader src) f
    | _ => fill_post f
    end) f.
Proof.
  intros [(m & Ht & E1 & E2 & E3 & E4 & E5 & E6 & E7 & E8 & E9) Hrel Herr] Hl h p.
  destruct (tracked_header _ _ src _ Ht Hl) as (M1 & M2 & M3 & V & M4). fold h in M3, V.
  unfold Fill_OnFrameHeader. wp_step. wp_step.
  assert (Hnf : (request_id h =? id) = true -> dm_ended (after m) = false -> found_at m = false).
  { intros _ He. destruct (found_at m) eqn:Ef; [|done]. apply found_ended in Ef. congruence. }
  assert (Hstay : forall p' f', matches (fun _ => true) p' (dm_frame id h (after m)) ->
    dm_ended (dm_frame id h (after m)) = dm_ended (after m) ->
    fb_current_stderr f' = dm_stderr (dm_frame id h (after m)) ->
    fb_total_size f' = fb_total_size f -> fb_found_end_request f' = fb_found_end_request f ->
    fb_current_skip_stderr f' = fb_current_skip_stderr f -> fb_list f' = fb_list f -> fb_client f' = fb_client f ->
    fb_available f' = fb_available f -> fb_release_socket f' = false -> fb_error f' = None ->
    fill_inv p' (drop sizeof_FcgiRecordHeader src) f').
  { intros p' f' G1 G2 G3 G4 G5 G6 G7 G8 G9 G10 G11. split; [|done|done].
    exists (m + sizeof_FcgiRecordHeader)%nat. rewrite <- M3 in G1, G2, G3.
    rewrite (found_same _ _ G2), !M4, G4, G5, G6, G7, G8, G9. by split_and!. }
  destruct V as [V1 V2|V1 V2 V3 V4|V1 V2 V3 V4|V1 V2 V3 V4|V1 V2 V3 V4 V5 V6]; rewrite V1; cbn [negb].
  - apply wp_ret. apply Hstay; rewrite ?V2; try done. apply matches_ignored.
  - rewrite E3, Hnf, V3 by done. cbn. wp_step. wp_step. apply wp_ret.
    apply Hstay; rewrite ?V4; try done; [by apply matches_accepted|by rewrite E3, Hnf].
  - rewrite E3, Hnf, V3 by done. cbn. wp_step. wp_step. apply wp_ret.
    apply Hstay; rewrite ?V4; try done; [by apply matches_accepted|by rewrite E3, Hnf].
  - assert (Hcl : available (c_response (fb_client f)) = avail0 /\ c_response (fb_client f) = c_response s0).
    { rewrite E6, Hnf by done. done. }
    destruct Hcl as [Hcl1 Hcl2]. rewrite E3, Hnf, V3 by done. cbn [Z.eqb STDOUT STDERR END_REQUEST Pos.eqb].
    rewrite Hcl1. wp_step. wp_step.
    { apply orb_true_iff. destruct (Z.lt_ge_cases avail0 0) as [Ha|Ha]; [left; by apply Z.ltb_lt|right].
      destruct (E8 Ha). apply Z.leb_le. lia. }
    destruct (Z.ltb_spec 0 (fb_available f)) as [Hb|Hb].
    { wp_step. wp_step. apply wp_ret. unfold fill_post. simpl. rewrite E6. eauto using emitted_prefix. }
    wp_step. wp_step. apply wp_ret. split; [|done|done]. exists (m + sizeof_FcgiRecordHeader)%nat. cbn.
    assert (Hd0 : dm_ended d0 = false).
    { destruct (dm_ended d0) eqn:E0; [|done]. assert (dm_ended (after m) = true) by (by apply dm_run_ended). congruence. }
    assert (He0 : end0 = false) by (destruct end0 eqn:Ee; [rewrite Hend0 in Hd0 by done; done|done]).
    assert (Hfn : found_at (m + sizeof_FcgiRecordHeader) = true).
    { unfold found_at. rewrite M3, V4, Hd0, He0. done. }
    rewrite Hfn, !M4, E1. split_and!; try done.
    + split; [done|done|]. rewrite M3, V4. apply matches_ignored.
    + by rewrite M3, V4.
    + rewrite Hcl2, E6, Hnf by done. unfold filled_client. rewrite He0. simpl.
      destruct (avail0 <? 0); done.
    + intros _ _ Ha. destruct (E8 Ha). lia.
  - rewrite E3, Hnf, V3, V4, V5 by done. apply wp_ret.
    apply Hstay; rewrite ?V6; try done. apply matches_ignored.
Qed.

Lemma fill_spec : FeedSpec (fill_bucket_handler id) fill_inv (fun _ _ f => fill_post f).
Proof.
  split.
  - intros p src f HI Hf Hr Hne. eapply wp_mono; [by apply fill_payload|]. intros [result consumed] f' H.
    cbv beta iota in H. destruct (Nat.eqb_spec consumed 0) as [->|Hc].
    + destruct H as [-> H]. split; [lia|]. split; [lia|]. done.
    + destruct H as (-> & E & H). rewrite length_take in E. split; [lia|]. split; [lia|].
      apply wp_ret. split; [done|]. intros H1 H2. simpl in H1. exfalso. apply H2, drop_ge. lia.
  - intros p src f HI H. by eapply fill_more.
  - intros p src f n HI Hf Hr Hn Hl. apply wp_ret. by apply fill_skip.
  - intros src f HI. eapply wp_mono; [by apply fill_end|]. intros [] f'; done.
  - intros src f HI Hl. apply wp_ret. eapply wp_mono; [by apply fill_header|]. intros [] f'; done.
Qed.

End FillBucketList.
(** *** [_ConsumeBucketList()] *)

Section ConsumeBucketList.
Context (s1 : FcgiClient) (n : nat).

Abbreviation avail1 := (available (c_response s1)).
Abbreviation rest_out := (dm_out id false d0 input).
Abbreviation rest_err := (dm_out id true d0 input).

(** What [_FillBucketList()] has established. *)
Hypothesis Hinput : c_input s1 = input.
Hypothesis Hd0 : dm_ended d0 = false.
Hypothesis Hend1 : end_request (c_response s1) = false.
Hypothesis Hn : (n <= length rest_out)%nat.
Hypothesis Hskip : c_skip_stderr s1 = length rest_err.
Hypothesis Havail : 0 <= avail1 -> Z.of_nat (length rest_out) <= avail1.
Hypothesis Hknown : dm_ended (dm_run id d0 input) = true -> avail1 = Z.of_nat (length rest_out).
Hypothesis Hstderr : stderr (c_response s1) = dm_stderr d0.

Definition available_after (total : nat) : Z := if 0 <=? avail1 then avail1 - Z.of_nat total else avail1.

(** The client after [m] bytes of input. *)
Definition consumed_client (m : nat) : FcgiClient :=
  let r := c_response s1 in
  mkFcgiClient (drop m input) (c_released s1) (c_stderr s1) (c_has_request s1) (c_got_data s1)
    (mkResponse (headers r) (total_header_size r) (available_after (length (emitted false m))) (status r) (no_body r)
       (in_handler r) (in_read r) (receiving_headers r) (dm_stderr (after m)) (IsReleased s1 && dm_ended (after m)))
    (c_parser s1) (length rest_err - length (emitted true m)) (c_sink s1) (c_keeps s1) (c_results s1).

Lemma emitted_length want m : (length (emitted want m) <= length (dm_out id want d0 input))%nat.
Proof. rewrite (dm_out_split id want d0 m input), length_app. unfold emitted. lia. Qed.

Lemma consumed_client_0 : consumed_client 0 = s1.
Proof.
  unfold consumed_client, available_after, after, emitted. simpl. rewrite Hd0, <- Hstderr, andb_false_r, Nat.sub_0_r, <- Hskip.
  rewrite drop_0, <- Hinput, <- Hend1, Z.sub_0_r. destruct (0 <=? avail1); by destruct s1 as [? ? ? ? ? []].
Qed.

Record consume_inv (p : FcgiParser) (src : list Z) (h : ConsumeBucketHandler) : Prop := {
  ci_tracked : exists m, tracked (fun _ => true) p src m /\ cb_client h = consumed_client m /\
    cb_total h = length (emitted false m);
  ci_nbytes : (cb_nbytes h + cb_total h)%nat = n }.

Record consume_post (r : FeedResult) (p : FcgiParser) (h : ConsumeBucketHandler) : Prop := {
  cp_inv : exists src, consume_inv p src h;
  cp_nbytes : cb_nbytes h = 0%nat }.

Lemma consume_dispose m k h (Q : unit -> ConsumeBucketHandler -> Prop) : cb_client h = consumed_client m ->
  (m + k <= length input)%nat ->
  Q tt (mkConsume (set_input (drop (m + k) input) (consumed_client m)) (cb_nbytes h) (cb_total h)) ->
  wp (consume_client (DisposeConsumed k)) Q h.
Proof.
  intros E Hk HQ. unfold wp, consume_client, DisposeConsumed, mbnd, mget, massert. rewrite E. simpl.
  rewrite length_drop, (proj2 (Nat.leb_le _ _)) by lia. simpl. rewrite drop_drop. eauto.
Qed.

Lemma consume_payload p src h : consume_inv p src h -> (0 < remaining p)%nat -> src <> [] ->
  wp (Consume_OnFramePayload (take (remaining p) src)) (fun '(result, consumed) h =>
    (consumed <= remaining p)%nat /\ (consumed <= length src)%nat /\
    (result = CONTINUE \/ (result = STOP /\ cb_nbytes h = 0%nat)) /\
    (result = CONTINUE -> consumed = length (take (remaining p) src)) /\
    exists m, cb_client h = set_input (drop m input) (consumed_client (m + consumed)) /\
      (m + consumed <= length input)%nat /\
      tracked (fun _ => true) (mkFcgiParser (remaining p - consumed) (skip p) true) (drop consumed src) (m + consumed) /\
      cb_total h = length (emitted false (m + consumed)) /\ (cb_nbytes h + cb_total h)%nat = n) h.
Proof.
  intros [(m & Ht & E1 & E2) E3] Hr Hne. set (x := take (remaining p) src).
  assert (Hx : (length x = remaining p `min` length src)%nat) by apply length_take.
  assert (Hl : (0 < length src)%nat) by (destruct src; simpl; [done|lia]).
  assert (Hxx : forall k, (k <= length x)%nat -> take k src = take k x).
  { intros k Hk. unfold x. rewrite take_take. by replace (k `min` remaining p)%nat with k by lia. }
  assert (Hstep : forall k, (k <= length x)%nat -> tracked (fun _ => true) (mkFcgiParser (remaining p - k) (skip p) true) (drop k src) (m + k) /\
    same_flags (after m) (after (m + k)) /\ (m + k <= length input)%nat /\
    forall want, emitted want (m + k) = emitted want m ++ (if eqb (dm_stderr (after m)) want then take k x else [])).
  { intros k Hk. destruct (tracked_payload _ p src m k Ht Hr) as (M1 & M2 & _ & M3); [lia|lia|].
    split; [done|]. split; [done|]. split; [by destruct M1|]. intros want. by rewrite M3, Hxx. }
  assert (Hlen : forall want, dm_stderr (after m) = want -> forall k, (k <= length x)%nat ->
    length (emitted want (m + k)) = (length (emitted want m) + k)%nat).
  { intros want Hw k Hk. destruct (Hstep k Hk) as (_ & _ & _ & M). rewrite M, Hw, eqb_reflx, length_app, length_take. lia. }
  assert (Hother : forall want, dm_stderr (after m) <> want -> forall k, (k <= length x)%nat -> emitted want (m + k) = emitted want m).
  { intros want Hw k Hk. destruct (Hstep k Hk) as (_ & _ & _ & M). rewrite M.
    destruct (dm_stderr (after m)), want; simpl; rewrite ?app_nil_r; congruence. }
  unfold Consume_OnFramePayload. wp_step. wp_step. rewrite E1. cbn [consumed_client c_response stderr c_skip_stderr].
  destruct (dm_stderr (after m)) eqn:Es.
  - destruct (Hstep (length x)) as (M1 & (F1 & F2 & _) & M2 & M3); [done|].
    pose proof (emitted_length true (m + length x)) as Hle. rewrite (Hlen true eq_refl) in Hle by done.
    wp_step. wp_step; [apply Nat.leb_le; lia|]. wp_step. wp_step. apply wp_ret.
    split; [lia|]. split; [lia|]. split; [by left|]. split; [done|]. exists m. cbn.
    rewrite (Hother false) by done. split; [|done].
    unfold consumed_client, set_skip_stderr, set_input. cbn. rewrite F1, F2, Es, (Hlen true), (Hother false) by done.
    f_equal. lia.
  - assert (Hav : available_after (length (emitted false m)) = avail1 - Z.of_nat (length (emitted false m)) /\
        0 < available_after (length (emitted false m)) \/ avail1 < 0 /\ available_after (length (emitted false m)) = avail1).
    { unfold available_after. destruct (Z.leb_spec 0 avail1) as [Ha|Ha]; [left|right; lia]. split; [done|].
      specialize (Havail Ha). pose proof (emitted_length false (m + length x)) as Hle.
      rewrite (Hlen false eq_refl) in Hle by done. lia. }
    set (k := if (cb_nbytes h <? length x)%nat then cb_nbytes h else length x).
    assert (Hk : (k <= length x)%nat) by (unfold k; case_match eqn:Ek; [apply Nat.ltb_lt in Ek|]; lia).
    destruct (Hstep k Hk) as (M1 & (F1 & F2 & _) & M2 & M3).
    rewrite (surjective_pairing (if (cb_nbytes h <? length x)%nat then (STOP, cb_nbytes h) else (CONTINUE, length x))).
    assert (Hk2 : snd (if (cb_nbytes h <? length x)%nat then (STOP, cb_nbytes h) else (CONTINUE, length x)) = k) by (unfold k; by case_match).
    rewrite Hk2. wp_step. wp_step. apply wp_ret. split; [lia|]. split; [lia|].
    assert (Hkn : (k <= cb_nbytes h)%nat) by (unfold k; case_match eqn:Ek; [|apply Nat.ltb_ge in Ek]; lia).
    split; [|split].
    + unfold k. cbn [cb_nbytes]. case_match; simpl; [right; split; [done|lia]|by left].
    + unfold k. by case_match.
    + exists m. cbn [cb_client cb_total cb_nbytes]. rewrite (Hlen false) by done. split; [|split_and!; [done|done|lia|lia]].
      cbn [available consumed_client c_response]. unfold consumed_client, set_response, set_input, set_available. cbn.
      rewrite F1, F2, Es, (Hlen false), (Hother true) by done.
      destruct Hav as [[Hav1 Hav2]|[Hav1 Hav2]].
      * rewrite (proj2 (Z.ltb_lt 0 _)) by done. rewrite Hav1. unfold available_after at 1.
        destruct (Z.leb_spec 0 avail1) as [Ha|Ha].
        -- do 2 f_equal. rewrite Nat2Z.inj_add. lia.
        -- exfalso. unfold available_after in Hav2. rewrite (proj2 (Z.leb_gt _ _)) in Hav2 by done. lia.
      * rewrite Hav2, (proj2 (Z.ltb_ge 0 _)) by lia. unfold available_after.
        by rewrite (proj2 (Z.leb_gt _ _)).
Qed.

Lemma consume_header src h : consume_inv (mkFcgiParser 0 0 false) src h ->
  (sizeof_FcgiRecordHeader <= length src)%nat ->
  let hd := header_of src in
  let p := mkFcgiParser (Z.to_nat (content_length hd)) (Z.to_nat (padding_length hd)) true in
  wp (consume_client (DisposeConsumed sizeof_FcgiRecordHeader)) (fun _ h =>
    wp (Consume_OnFrameHeader id (type hd) (request_id hd)) (fun result h =>
      match result with
      | SKIP => consume_inv (SkipCurrent p) (drop sizeof_FcgiRecordHeader src) h
      | CONTINUE => consume_inv p (drop sizeof_FcgiRecordHeader src) h
      | _ => False
      end) h) h.
Proof.
  intros [(m & Ht & E1 & E2) E3] Hl hd p.
  destruct (tracked_header _ _ src _ Ht Hl) as (M1 & M2 & M3 & V & M4). fold hd in M3, V.
  apply (consume_dispose m); [done|done|]. set (m' := (m + sizeof_FcgiRecordHeader)%nat) in *.
  assert (Hfin : forall p' c, matches (fun _ => true) p' (after m') -> c = consumed_client m' ->
    consume_inv p' (drop sizeof_FcgiRecordHeader src) (mkConsume c (cb_nbytes h) (cb_total h))).
  { intros p' c G1 G2. split; [|done]. exists m'. split; [by split|]. split; [done|]. simpl. by rewrite M4. }
  assert (Hrel : IsReleased (set_input (drop m' input) (consumed_client m)) = IsReleased s1) by done.
  unfold Consume_OnFrameHeader.
  destruct V as [V1 V2|V1 V2 V3 V4|V1 V2 V3 V4|V1 V2 V3 V4|V1 V2 V3 V4 V5 V6]; rewrite V1; cbn [negb].
  - apply wp_ret. apply Hfin; [rewrite M3, V2; apply matches_ignored|].
    unfold consumed_client, set_input. cbn. by rewrite !M4, M3, V2.
  - rewrite V3. cbn [Z.eqb STDOUT END_REQUEST Pos.eqb]. wp_step. eexists _, _. split; [done|]. apply wp_ret.
    apply Hfin; [rewrite M3, V4; by apply matches_accepted|].
    unfold consumed_client, set_input, set_response, set_stderr. cbn. by rewrite !M4, M3, V4, V2.
  - rewrite V3. cbn [Z.eqb STDOUT STDERR END_REQUEST Pos.eqb]. wp_step. eexists _, _. split; [done|]. apply wp_ret.
    apply Hfin; [rewrite M3, V4; by apply matches_accepted|].
    unfold consumed_client, set_input, set_response, set_stderr. cbn. by rewrite !M4, M3, V4, V2.
  - rewrite V3. cbn [Z.eqb STDOUT STDERR END_REQUEST Pos.eqb]. wp_step. wp_step. cbn [cb_client]. rewrite Hrel.
    assert (He : dm_ended (after m') = true) by (by rewrite M3, V4).
    assert (Hz : available_after (length (emitted false m)) = 0).
    { unfold available_after. rewrite <- (M4 false), (ended_silent m' false He).
      rewrite (Hknown (ended_input m' He)), (proj2 (Z.leb_le 0 _)) by lia. lia. }
    assert (Hm' : matches (fun _ => true) (SkipCurrent p) (after m')) by (rewrite M3, V4; apply matches_ignored).
    destruct (IsReleased s1) eqn:Er.
    + wp_step. wp_step. wp_step; [cbn; by rewrite Hz|]. eexists _, _. split; [done|]. apply wp_ret.
      apply Hfin; [done|]. unfold consumed_client, set_input, set_response, set_end_request. cbn.
      by rewrite !M4, M3, V4, Er.
    + wp_step. wp_step. apply wp_ret. apply Hfin; [done|].
      unfold consumed_client, set_input. cbn. by rewrite !M4, M3, V4, Er.
  - rewrite V5, V3, V4. apply wp_ret. apply Hfin; [rewrite M3, V6; apply matches_ignored|].
    unfold consumed_client, set_input. cbn. by rewrite !M4, M3, V6, V2.
Qed.

Lemma consume_spec : FeedSpec (consume_bucket_handler id) consume_inv consume_post.
Proof.
  split.
  - intros p src h HI Hf Hr Hne. eapply wp_mono; [by apply consume_payload|]. intros [result consumed] h' H.
    cbv beta iota in H. destruct H as (H1 & H2 & H3 & H4 & m & G1 & G2 & G3 & G4 & G5).
    split; [done|]. split; [done|].
    assert (Hi : consume_inv (mkFcgiParser (remaining p - consumed) (skip p) true) (drop consumed src)
      (mkConsume (consumed_client (m + consumed)) (cb_nbytes h') (cb_total h'))).
    { split; [|done]. by exists (m + consumed)%nat. }
    assert (Hl : (0 < length src)%nat) by (destruct src; simpl; [done|lia]).
    destruct (Nat.eqb_spec consumed 0) as [->|Hc].
    + destruct H3 as [->|[-> H3]]; [specialize (H4 eq_refl); rewrite length_take in H4; lia|].
      split; [|done]. exists src. rewrite Nat.add_0_r in *. rewrite Nat.sub_0_r in Hi. destruct Hi as [(m2 & T2 & C2 & N2) _].
      cbn in C2, N2. split; [|done]. exists m. split_and!; [|by rewrite G1|done]. destruct p as [r sk fr]. simpl in *.
      rewrite Nat.sub_0_r in G3. by subst fr.
    + set (k := consumed). assert (Hcl : cb_client h' = set_input (drop m input) (consumed_client (m + k))) by done.
      unfold wp at 1. cbn [OnFrameConsumed consume_bucket_handler].
      unfold consume_client, DisposeConsumed, mbnd, mget, massert. rewrite Hcl. cbn [c_input set_input].
      rewrite length_drop, (proj2 (Nat.leb_le k _)) by (unfold k; lia). eexists tt, _. split; [done|].
      cbn [cb_nbytes cb_total]. rewrite drop_drop.
      change (set_input (drop (m + k) input) (set_input (drop m input) (consumed_client (m + k))))
        with (consumed_client (m + k)).
      destruct H3 as [->|[-> H3]].
      * split; [done|]. intros X1 X2. specialize (H4 eq_refl). rewrite length_take in H4. simpl in X1.
        exfalso. apply X2, drop_ge. lia.
      * split; [eauto|done].
  - intros p src h [(m & Ht & E1 & E2) E3] H. pose proof (rest_silent _ _ _ _ false Ht H) as R. split.
    + exists src. split; [eauto|done].
    + rewrite R in E2. lia.
  - intros p src h k [(m & Ht & E1 & E2) E3] Hf Hr Hk Hl.
    destruct (tracked_skip _ p src m k Ht Hr Hk Hl) as (M1 & (F1 & F2 & _) & M2).
    apply (consume_dispose m); [done|by destruct M1|]. split; [|done]. exists (m + k)%nat.
    split; [done|]. cbn. rewrite !M2 by done. split; [|done]. unfold consumed_client, set_input. cbn.
    by rewrite F1, F2, !M2.
  - intros src h [(m & Ht & E1 & E2) E3]. apply wp_ret. split; [|done]. exists m. split; [|done]. by destruct Ht.
  - intros src h HI Hl. eapply wp_mono; [by apply consume_header|]. intros ? h' H. cbv beta in H.
    eapply wp_mono; [exact H|]. intros [] h2; done.
Qed.

End ConsumeBucketList.
End Buffer.

(** ** FastCGI: the header block of a response

    What [ParseHeaders()] does with the text it has, and what the client makes of the header
    fields.  The block ends with a line that is empty but for white space. *)

#[local] Open Scope beng_scope.

Section Headers.
Context `{CU : CharUtil} `{UL : UriLib} `{HS : HashSetOrder} `{TO : TrieOrder} `{HL : HttpLib} `{NL : HeaderLib}.
Context `{HUL : !UriLaws}.

(** ** The reference *)

(** The field in a line. *)
Definition header_field (line : list Z) : option (list Z * list Z) :=
  match Split line (chr ":") with
  | (name, Some value) =>
      if http_header_name_valid name && IsValidHeaderValue value then Some (DupToLower name, strip_front value) else None
  | _ => None
  end.

Lemma header_parse_line_field headers line :
  header_parse_line headers line =
  match header_field line with
  | Some (k, v) => (StringMap_Add k v headers, true)
  | None => (headers, false)
  end.
Proof.
  unfold header_parse_line, header_field. destruct (Split line (chr ":")) as [name [value|]]; [|done].
  by destruct (http_header_name_valid name), (IsValidHeaderValue value).
Qed.

Definition is_blank (line : list Z) : bool := bool_decide (StripRight line = []).

(** The lines which are terminated, up to the blank one. *)
Definition before_blank (text : list Z) : list (list Z) :=
  fst (span_while (fun line => negb (is_blank line)) (removelast (split_lines text))).

Definition fields (lines : list (list Z)) : StringMap := omap (fun line => header_field (StripRight line)) lines.

(** A header block: lines with fields and a blank line. *)
Definition header_block (text : list Z) (lines : list (list Z)) : Prop :=
  exists blank, split_lines text = lines ++ [blank; []] /\ is_blank blank = true /\
    Forall (fun line => is_blank line = false) lines.

(** ** More text does not change the lines that are complete *)

Lemma split_lines_app a b : exists l y, split_lines (a ++ b) = removelast (split_lines a) ++ l :: y.
Proof.
  induction a as [|c a (l & y & IH)]; simpl.
  { apply split_lines_cons. }
  rewrite IH. destruct (split_lines_cons a) as (l1 & ls & E). rewrite E in *. simpl.
  destruct (c =? 10); [destruct ls; eauto|]. destruct ls as [|l2 ls]; simpl in *; eauto.
Qed.

Lemma span_while_prefix {A} (P : A -> bool) l k : fst (span_while P l) `prefix_of` fst (span_while P (l ++ k)).
Proof.
  induction l as [|x l IH]; simpl; [apply prefix_nil|]. destruct (P x); [|done].
  destruct (span_while P l), (span_while P (l ++ k)). simpl in *. by apply prefix_cons.
Qed.

Lemma before_blank_app a b : before_blank a `prefix_of` before_blank (a ++ b).
Proof.
  unfold before_blank. destruct (split_lines_app a b) as (l & y & ->).
  rewrite removelast_app by done. apply span_while_prefix.
Qed.

Lemma fields_prefix l l' i : l `prefix_of` l' -> i ∈ fields l -> i ∈ fields l'.
Proof. intros [k ->]. unfold fields. rewrite omap_app. intros H. apply elem_of_app. by left. Qed.

Lemma before_blank_lf a b : 10 ∉ a ->
  before_blank (a ++ 10 :: b) = if is_blank a then [] else a :: before_blank b.
Proof.
  intros Ha. unfold before_blank. rewrite split_lines_lf by done.
  destruct (split_lines_cons b) as (l & ls & ->). cbn [removelast span_while].
  destruct (is_blank a); [done|]. simpl. by destruct (span_while _ _).
Qed.

Lemma before_blank_one a : 10 ∉ a -> before_blank a = [].
Proof. intros Ha. unfold before_blank. by rewrite split_lines_one. Qed.

(** ** The parser of the header block *)

Definition with_response (s s' : FcgiClient) : Prop := s' = set_response (c_response s') s.

Lemma with_response_trans s s1 s2 : with_response s s1 -> with_response s1 s2 -> with_response s s2.
Proof. unfold with_response. intros E1 E2. rewrite E2. rewrite E1. done. Qed.

(** What receiving headers does not touch. *)
Definition same_body (r r' : Response) : Prop :=
  available r' = available r /\ status r' = status r /\ no_body r' = no_body r /\ in_handler r' = in_handler r /\
  stderr r' = stderr r /\ end_request r' = end_request r.

Lemma same_body_trans r r1 r2 : same_body r r1 -> same_body r1 r2 -> same_body r r2.
Proof. unfold same_body. intros H1 H2. intuition congruence. Qed.

Definition line_post (line : list Z) (s : FcgiClient) (r : bool + exception_ptr) (s' : FcgiClient) : Prop :=
  with_response s s' /\ same_body (c_response s) (c_response s') /\
  match r with
  | inl true => line = [] /\ receiving_headers (c_response s') = false /\ in_read (c_response s') = false /\
      headers (c_response s') = headers (c_response s)
  | inl false => line <> [] /\ receiving_headers (c_response s') = true /\
      exists k v, header_field line = Some (k, v) /\
        headers (c_response s') = StringMap_Add k v (headers (c_response s))
  | inr ep => receiving_headers (c_response s') = true /\ ep = garbage
  end.

Lemma HandleLine_spec line s : receiving_headers (c_response s) = true -> stderr (c_response s) = false ->
  wp (HandleLine line) (line_post line s) s.
Proof.
  intros Hr Hs. unfold HandleLine, get_response, response_mod. wp_step. wp_step. wp_step.
  wp_step; [done|]. wp_step. wp_step; [by rewrite Hs|]. destruct line as [|c line].
  { wp_step. wp_step. apply wp_ret. by repeat split. }
  case_match; [apply wp_ret; split_and!; [by destruct s|done|done|done]|].
  wp_step. wp_step. case_match; [apply wp_ret; by repeat split|].
  rewrite header_parse_line_field. destruct (header_field (c :: line)) as [[k v]|] eqn:Ef.
  - wp_step. wp_step. cbn [negb]. apply wp_ret. repeat split; try done. eauto.
  - wp_step. wp_step. cbn [negb]. apply wp_ret. by repeat split.
Qed.

Definition parse_post (pos : nat) (src : list Z) (s : FcgiClient) (r : nat + exception_ptr) (s' : FcgiClient) : Prop :=
  with_response s s' /\ same_body (c_response s) (c_response s') /\
  match r with
  | inl O => receiving_headers (c_response s') = true /\
      headers (c_response s') ≡ₚ fields (before_blank src) ++ headers (c_response s)
  | inl n => receiving_headers (c_response s') = false /\ in_read (c_response s') = false /\
      (pos < n)%nat /\ (n - pos <= length src)%nat /\
      header_block (take (n - pos) src) (before_blank src) /\
      headers (c_response s') ≡ₚ fields (before_blank src) ++ headers (c_response s)
  | inr ep => receiving_headers (c_response s') = true /\ ep = garbage
  end.

Lemma ParseHeaders_loop_spec fuel : forall pos src s, (length src < fuel)%nat ->
  receiving_headers (c_response s) = true -> stderr (c_response s) = false ->
  wp (ParseHeaders_loop fuel pos src) (parse_post pos src s) s.
Proof.
  induction fuel as [|fuel IH]; intros pos src s Hf Hr Hs; [lia|]. simpl.
  pose proof (find_lf src) as Hfind. destruct (find_index _ src) as [i|].
  2: { rewrite Split_missing by done. apply wp_ret. split; [by destruct s|]. split; [done|]. split; [done|].
       by rewrite before_blank_one. }
  destruct Hfind as (b & Eb & Hn & Hi & _). set (a := take i src) in *.
  assert (Hla : length a = i) by (unfold a; rewrite length_take; lia).
  rewrite Eb at 1. rewrite Split_found by done.
  assert (Hls : length src = (i + S (length b))%nat) by (rewrite Eb, length_app, Hla; done).
  wp_step. eapply wp_mono; [by apply HandleLine_spec|]. intros r s1 (W1 & B1 & H1).
  assert (Hs1 : stderr (c_response s1) = false) by (by destruct B1 as (_ & _ & _ & _ & -> & _)).
  destruct r as [[|]|ep].
  - destruct H1 as (Hl & H2 & H3 & H4). apply wp_ret.
    assert (Hbl : is_blank a = true) by (by apply bool_decide_eq_true).
    split; [done|]. split; [done|]. rewrite Hls.
    destruct (pos + (i + S (length b) - length b))%nat as [|n] eqn:En; [lia|].
    split; [done|]. split; [done|]. split; [lia|]. split; [lia|].
    rewrite Eb, before_blank_lf, Hbl by done. split; [|by rewrite H4].
    replace (S n - pos)%nat with (length a + 1)%nat by lia. rewrite take_app_add. simpl. rewrite take_0.
    exists a. rewrite split_lines_lf by done. split; [done|]. split; [done|]. constructor.
  - destruct H1 as (Hl & H2 & k & v & H3 & H4).
    assert (Hbl : is_blank a = false) by (by apply bool_decide_eq_false).
    eapply wp_mono; [apply IH; [lia|done|done]|]. intros r2 s2 (W2 & B2 & H5).
    split; [by eapply with_response_trans|]. split; [by eapply same_body_trans|].
    assert (Hfields : fields (before_blank src) ≡ₚ (k, v) :: fields (before_blank b)).
    { rewrite Eb, before_blank_lf, Hbl by done. unfold fields. cbn [omap list_omap]. by rewrite H3. }
    assert (Hperm : headers (c_response s2) ≡ₚ fields (before_blank b) ++ headers (c_response s1) ->
      headers (c_response s2) ≡ₚ fields (before_blank src) ++ headers (c_response s)).
    { intros ->. rewrite H4, Hfields. unfold StringMap_Add. rewrite hs_insert_perm. simpl. by rewrite Permutation_middle. }
    destruct r2 as [[|n]|ep]; [|clear IH|done].
    + destruct H5 as [H5 H6]. split; [done|]. by apply Hperm.
    + destruct H5 as (H5 & H6 & H7 & H8 & (blank & G1 & G2 & G3) & H9).
      split; [done|]. split; [done|]. split; [lia|]. split; [lia|]. split; [|by apply Hperm].
      exists blank. rewrite Hls in *. replace (pos + (i + S (length b) - length b))%nat with (pos + (i + 1))%nat in * by lia.
      rewrite Eb, before_blank_lf, Hbl by done.
      replace (S n - pos)%nat with (length a + S (S n - (pos + (i + 1))))%nat by lia.
      rewrite take_app_add. cbn [take]. rewrite split_lines_lf, G1 by done.
      split; [done|]. split; [done|]. by constructor.
  - apply wp_ret. split; [done|]. split; [done|]. destruct H1 as [H1 ->]. done.
Qed.

Lemma ParseHeaders_spec src s : receiving_headers (c_response s) = true -> stderr (c_response s) = false ->
  wp (ParseHeaders src) (parse_post 0 src s) s.
Proof. intros. by apply ParseHeaders_loop_spec; [lia|..]. Qed.

(** ** The response *)

Section Response.
Context (http_status_is_empty : HttpStatus -> bool).

Definition status_of (h : StringMap) : HttpStatus :=
  match snd (StringMap_Remove status_header h) with
  | Some p => if http_status_is_valid (atoi p) then atoi p else 200
  | None => 200
  end.

(** The map has the fields of the block; some may be duplicated. *)
Definition map_of (h : StringMap) (text : list Z) : Prop :=
  exists lines, header_block text lines /\ forall i, i ∈ h <-> i ∈ fields lines.

(** The response with a body that is made of a header block; [n] is the declared length of the body or
    negative. *)
Definition response_of (text : list Z) (st : HttpStatus) (h : StringMap) (n : Z) : Prop :=
  exists h0, map_of h0 text /\ st = status_of h0 /\ http_status_is_empty st = false /\
    let r := StringMap_Remove content_length_header (fst (StringMap_Remove status_header h0)) in
    h = fst r /\ n = declared_length (snd r).

Definition empty_response_of (text : list Z) (st : HttpStatus) (h : StringMap) : Prop :=
  exists h0, map_of h0 text /\ st = status_of h0 /\ h = fst (StringMap_Remove status_header h0).

End Response.
End Headers.
