(* ===== verification/FcgiClientFeed.v ===== *)
(** * FastCGI: the invariant of the client, and its input

    What the client has done with the input it has consumed, in terms of the machine that
    reads single bytes; the handler that the parser calls keeps it. *)

From Stdlib Require Import String.
From S2P Require Import Prelude CharUtil Bucket GrowingBufferFacts Chunked Sink StrMap Uri HttpCacheRFC HttpHeaders HttpHeadersFacts.
From S2P Require Import Fcgi FcgiParserFacts FcgiClient FcgiClientFacts.

#[local] Open Scope beng_scope.

Section Feed.
Context `{CU : CharUtil} `{UL : UriLib} `{HS : HashSetOrder} `{TO : TrieOrder} `{HL : HttpLib} `{NL : HeaderLib}.
Context `{HUL : !UriLaws}.
Context (http_status_is_empty : HttpStatus -> bool) (id : Z).

(** [T] is everything that has been received. *)
Section Received.
Context (T : list Z).
Hypothesis Hexcess : dm_excess (dm_run id Demux_new T) = false.

Abbreviation all_out := (dm_out id false Demux_new T).
Abbreviation all_err := (dm_out id true Demux_new T).
Abbreviation at_ m := (after id [] T m).
Abbreviation out m := (emitted id [] T false m).
Abbreviation err m := (emitted id [] T true m).
Abbreviation tracked_ := (tracked id [] T).

Lemma out_prefix m : out m `prefix_of` all_out.
Proof. rewrite (dm_out_split id false Demux_new m T). by eexists. Qed.

Lemma err_prefix m : err m `prefix_of` all_err.
Proof. rewrite (dm_out_split id true Demux_new m T). by eexists. Qed.

(** *** What the handlers were told *)

Definition good_response (rs : list http_result) (k : Sink) : Prop :=
  exists st h, rs = [HttpResponse st h true] /\
  exists text n, response_of http_status_is_empty text st h n /\
    text ++ k_output k `prefix_of` all_out /\
    (k_life k = AtEof -> dm_ended (dm_run id Demux_new T) = true /\
       (0 <= n -> Z.of_nat (length (k_output k)) = n) /\ (n < 0 -> text ++ k_output k = all_out)).

Definition good_empty_response (rs : list http_result) (k : Sink) : Prop :=
  exists st h, rs = [HttpResponse st h false] /\ k_output k = [] /\ k_life k = Chunked.Closed /\
  dm_ended (dm_run id Demux_new T) = true /\
  exists text, empty_response_of text st h /\ text `prefix_of` all_out.

Definition outcome_ok (s : FcgiClient) : Prop :=
  c_stderr s `prefix_of` all_err /\
  ((k_output (c_sink s) = [] /\ k_life (c_sink s) <> AtEof /\
      (c_results s = [] \/ exists ep, c_results s = [HttpError ep])) \/
   good_response (c_results s) (c_sink s) \/ good_empty_response (c_results s) (c_sink s)).

(** *** The invariant *)

Definition payload_seen (p : FcgiParser) (s : FcgiClient) : list Z :=
  if stderr (c_response s) then [] else take (remaining p) (c_input s).

(** Receiving headers. *)
Record in_headers (p : FcgiParser) (s : FcgiClient) (m : nat) : Prop := {
  ih_receiving : receiving_headers (c_response s) = true;
  ih_end : end_request (c_response s) = false;
  ih_ended : dm_ended (at_ m) = false;
  ih_out : out m = [];
  ih_output : k_output (c_sink s) = [];
  ih_results : c_results s = [];
  ih_matches : matches (fun _ => true) p (at_ m);
  ih_headers : forall i, i ∈ headers (c_response s) -> i ∈ fields (before_blank (payload_seen p s)) }.

(** The block is complete, but the response has not been submitted. *)
Record headers_done (p : FcgiParser) (s : FcgiClient) (m : nat) : Prop := {
  hd_receiving : receiving_headers (c_response s) = false;
  hd_in_read : in_read (c_response s) = false;
  hd_end : end_request (c_response s) = false;
  hd_ended : dm_ended (at_ m) = false;
  hd_stderr : stderr (c_response s) = false;
  hd_map : map_of (headers (c_response s)) (out m);
  hd_output : k_output (c_sink s) = [];
  hd_results : c_results s = [];
  hd_matches : matches (fun _ => true) p (at_ m) }.

(** [n] is the declared length, [a] is [available], [sent] how much of the body was sent. *)
Record available_ok (n a : Z) (sent : nat) (m : nat) (end_ : bool) : Prop := {
  av_unknown : a < 0 -> n < 0 /\ dm_ended (at_ m) = false;
  av_known : 0 <= a -> (0 <= n /\ a + Z.of_nat sent = n) \/
    (n < 0 /\ dm_ended (dm_run id Demux_new T) = true /\ a = Z.of_nat (length all_out) - Z.of_nat (length (out m)));
  av_ended : dm_ended (at_ m) = true -> a = 0;
  av_end : end_ = true -> dm_ended (at_ m) = true }.

Record in_body (ir : bool) (p : FcgiParser) (s : FcgiClient) (m : nat) : Prop := {
  ib_submitted : WasResponseSubmitted (c_response s) = true;
  ib_in_handler : in_handler (c_response s) = false;
  ib_in_read : in_read (c_response s) = ir;
  ib_matches : matches (fun _ => true) p (at_ m);
  ib_response : exists st h text n, c_results s = [HttpResponse st h true] /\
    response_of http_status_is_empty text st h n /\ out m = text ++ k_output (c_sink s) /\
    available_ok n (available (c_response s)) (length (k_output (c_sink s))) m (end_request (c_response s)) }.

(** The body is ignored. *)
Record no_body_phase (p : FcgiParser) (s : FcgiClient) (m : nat) : Prop := {
  nb_receiving : receiving_headers (c_response s) = false;
  nb_no_body : no_body (c_response s) = true;
  nb_matches : matches (fun err => err) p (at_ m);
  nb_output : k_output (c_sink s) = [];
  nb_results : c_results s = [];
  nb_end : end_request (c_response s) = true -> dm_ended (at_ m) = true;
  nb_response : exists text, empty_response_of text (status (c_response s)) (headers (c_response s)) /\
    text `prefix_of` out m }.

Record common (p : FcgiParser) (s : FcgiClient) (m : nat) : Prop := {
  cm_alive : c_alive s = true;
  cm_input : c_input s = drop m T;
  cm_length : (m <= length T)%nat;
  cm_stderr : stderr (c_response s) = dm_stderr (at_ m);
  cm_skip : (length (err m) + c_skip_stderr s <= length all_err)%nat;
  cm_written : c_stderr s = take (length (err m) + c_skip_stderr s) all_err;
  cm_complete : IsReleased s = true -> complete id T;
  cm_not_passed : IsReleased s = true -> dm_ended (at_ m) = true -> end_request (c_response s) = true;
  cm_end : end_request (c_response s) = true \/ IsReleased s = true -> complete id (take m T) ->
    end_request (c_response s) = true /\ p = mkFcgiParser 0 0 true }.

Definition phase_ok (ir : bool) (p : FcgiParser) (s : FcgiClient) (m : nat) : Prop :=
  (in_headers p s m /\ ir = false) \/ in_body ir p s m \/ no_body_phase p s m.

Definition core (ir : bool) (p : FcgiParser) (s : FcgiClient) : Prop :=
  exists m, common p s m /\ phase_ok ir p s m.

(** *** Destruction *)

Lemma written_prefix p s m : common p s m -> c_stderr s `prefix_of` all_err.
Proof. intros H. rewrite (cm_written _ _ _ H). apply prefix_take. Qed.

(** How the client is destroyed. *)
Definition destroyed (l : phase) (s s' : FcgiClient) : Prop :=
  c_stderr s' = c_stderr s /\ c_results s' = c_results s /\ k_output (c_sink s') = k_output (c_sink s) /\
  k_life (c_sink s') = l /\ IsReleased s' = true.

Lemma DestroyClient_wp l s : c_alive s = true -> wp (DestroyClient l) (fun _ s' => destroyed l s s') s.
Proof.
  intros Ha. unfold DestroyClient. wp_step. wp_step. wp_step.
  eapply wp_opt; [unfold DestroySink; by rewrite (Ha : alive (c_sink s) = true)|].
  wp_step. wp_step. unfold IsReleased at 1. destruct (c_released s) as [a|] eqn:E.
  - rewrite bool_decide_eq_true_2 by done. apply wp_ret. repeat split; simpl. by unfold IsReleased; simpl; rewrite E.
  - rewrite bool_decide_eq_false_2 by (by intros [? ?]). unfold Release. wp_step. wp_step. wp_step.
    wp_step; [by unfold IsReleased; simpl; rewrite E|]. wp_step. repeat split.
Qed.

Lemma destroyed_dead l s s' : destroyed l s s' -> l <> Alive -> c_alive s' = false /\ IsReleased s' = true.
Proof.
  intros (_ & _ & _ & H & H2) Hl. split; [|done]. unfold c_alive, alive. rewrite H. by apply bool_decide_eq_false.
Qed.

Definition dead (s : FcgiClient) : Prop := c_alive s = false /\ IsReleased s = true /\ outcome_ok s.

(** Whatever the client does, it may still be destroyed with an error. *)
Definition abortable (s : FcgiClient) : Prop :=
  c_alive s = true /\ c_stderr s `prefix_of` all_err /\
  ((WasResponseSubmitted (c_response s) = false /\ k_output (c_sink s) = [] /\ c_results s = []) \/
   (WasResponseSubmitted (c_response s) = true /\ exists st h text n, c_results s = [HttpResponse st h true] /\
      response_of http_status_is_empty text st h n /\ text ++ k_output (c_sink s) `prefix_of` all_out)).

Lemma core_abortable ir p s : core ir p s -> abortable s.
Proof.
  intros (m & Hc & Hp). split; [apply Hc|]. split; [by eapply written_prefix|].
  destruct Hp as [[Hp _]|[Hp|Hp]]; [left|right|left].
  - split; [|split; apply Hp]. unfold WasResponseSubmitted. by rewrite (ih_receiving _ _ _ Hp).
  - split; [apply Hp|]. destruct (ib_response _ _ _ _ Hp) as (st & h & text & n & E1 & E2 & E3 & _).
    exists st, h, text, n. rewrite <- E3. split_and!; [done|done|apply out_prefix].
  - split; [|split; apply Hp]. unfold WasResponseSubmitted. by rewrite (nb_receiving _ _ _ Hp), (nb_no_body _ _ _ Hp).
Qed.

(** Not the end of the stream. *)
Lemma abort_outcome l s s' : abortable s -> l <> AtEof -> l <> Alive -> destroyed l s s' ->
  dead s' /\ (WasResponseSubmitted (c_response s) = false -> forall ep, dead (add_result (HttpError ep) s')).
Proof.
  intros (Ha & Hw & H) Hl Hl' Hd. destruct (destroyed_dead _ _ _ Hd Hl') as [Hdead Hr].
  destruct Hd as (D1 & D2 & D3 & D4 & _). unfold dead, outcome_ok. simpl. rewrite D1, D2, D3, D4.
  destruct H as [(Hs & Hk & Hrs)|(Hs & st & h & text & n & E1 & E2 & E3)].
  - rewrite Hk, Hrs. split; [|intros _ ep]; (split; [done|]; split; [done|]; split; [done|]; left; eauto).
  - split; [|congruence]. split; [done|]. split; [done|]. split; [done|]. right. left.
    exists st, h. split; [done|]. exists text, n. by rewrite D3, D4.
Qed.

Lemma AbortResponseHeaders_wp s ep : abortable s -> WasResponseSubmitted (c_response s) = false ->
  wp (AbortResponseHeaders ep) (fun _ s' => dead s') s.
Proof.
  intros Ha Hw. unfold AbortResponseHeaders. wp_step. wp_step. wp_step. wp_step; [by rewrite Hw|].
  wp_step. eapply wp_mono; [apply DestroyClient_wp, Ha|]. intros ? s' Hd. unfold InvokeResult. wp_step.
  by apply (abort_outcome Chunked.Closed s s').
Qed.

Lemma AbortResponseBody_wp s ep : abortable s -> WasResponseSubmitted (c_response s) = true ->
  wp (AbortResponseBody ep) (fun _ s' => dead s') s.
Proof.
  intros Ha Hw. unfold AbortResponseBody. wp_step. wp_step. wp_step. wp_step; [done|].
  eapply wp_mono; [apply DestroyClient_wp, Ha|]. intros ? s' Hd. by apply (abort_outcome AtError s s').
Qed.

Lemma Client_Close_wp s : abortable s -> WasResponseSubmitted (c_response s) = true ->
  wp Client_Close (fun _ s' => dead s') s.
Proof.
  intros Ha Hw. unfold Client_Close. wp_step. wp_step. wp_step. wp_step; [done|].
  eapply wp_mono; [apply DestroyClient_wp, Ha|]. intros ? s' Hd. by apply (abort_outcome Chunked.Closed s s').
Qed.

Lemma AbortResponse_wp s ep : abortable s -> wp (AbortResponse ep) (fun _ s' => dead s') s.
Proof.
  intros Ha. unfold AbortResponse. wp_step. wp_step. destruct (WasResponseSubmitted (c_response s)) eqn:E; simpl.
  - by apply AbortResponseBody_wp.
  - by apply AbortResponseHeaders_wp.
Qed.

(** *** Moving forward *)

Lemma tracked_at acc p s m : common p s m -> matches acc p (at_ m) -> tracked_ acc p (c_input s) m.
Proof. intros H Hm. split; [apply H|apply H|done]. Qed.

Lemma complete_split m n : (m + n <= length T)%nat -> complete id (take (m + n) T) ->
  complete id (take m T) \/
  exists k, (0 < k <= n)%nat /\ dm_ended (at_ (m + k)) = true /\ dm_skip (at_ (m + k)) = 0%nat /\ dm_header (at_ (m + k)) = [].
Proof.
  intros Hl (a & b & E & H1 & H2 & H3).
  assert (Ha : a = take (length a) T /\ (length a <= m + n)%nat).
  { assert (length a <= m + n)%nat.
    { apply (f_equal length) in E. rewrite length_app, length_take in E. lia. }
    split; [|done]. assert (E' : take (length a) (take (m + n) T) = a) by (rewrite E; apply take_app_length).
    by rewrite take_take, Nat.min_l in E'. }
  destruct Ha as [Ha Hal]. destruct (Nat.le_gt_cases (length a) m) as [Hx|Hx].
  - left. exists a, (drop (length a) (take m T)). split; [|done]. rewrite Ha at 1.
    rewrite <- (take_drop (length a) (take m T)) at 1. by rewrite take_take, Nat.min_l.
  - right. exists (length a - m)%nat. split; [lia|]. replace (m + (length a - m))%nat with (length a) by lia.
    unfold after. simpl. by rewrite <- Ha.
Qed.

Lemma not_complete m : dm_ended (at_ m) = false -> complete id (take m T) -> False.
Proof. intros H Hc. apply complete_ended in Hc. unfold after in H. simpl in H. congruence. Qed.

(** What a step of the client may change. *)
Definition moved (s s' : FcgiClient) (n : nat) : Prop :=
  c_input s' = drop n (c_input s) /\ c_alive s' = true /\ IsReleased s' = IsReleased s /\
  stderr (c_response s') = stderr (c_response s) /\ end_request (c_response s') = end_request (c_response s).

(** STDERR data is written once. *)
Definition written_ok (s' : FcgiClient) (m' : nat) : Prop :=
  (length (err m') + c_skip_stderr s' <= length all_err)%nat /\
  c_stderr s' = take (length (err m') + c_skip_stderr s') all_err.

Lemma common_payload acc p s s' m n : common p s m -> matches acc p (at_ m) -> (0 < remaining p)%nat ->
  (n <= remaining p)%nat -> (n <= length (c_input s))%nat -> moved s s' n -> written_ok s' (m + n) ->
  common (mkFcgiParser (remaining p - n) (skip p) true) s' (m + n) /\ dm_ended (at_ m) = false.
Proof.
  intros Hc Hm Hr H1 H2 (V1 & V2 & V3 & V4 & V5) [W1 W2].
  destruct (tracked_payload id [] T acc p (c_input s) m n (tracked_at _ _ _ _ Hc Hm) Hr H1 H2) as (M1 & (F1 & F2 & _) & _ & _).
  assert (He : dm_ended (at_ m) = false).
  { destruct (dm_ended (at_ m)) eqn:E; [|done]. destruct Hm as (_ & _ & [[Hm _]|[Hm _]]); [|lia].
    unfold after in *. apply dm_ended_remaining in E; [simpl in *; lia|done]. }
  split; [|done]. destruct M1 as [M1 M2 _].
  split; rewrite ?V3, ?V4, ?V5, ?F1; try done.
  - rewrite V1. by rewrite (cm_input _ _ _ Hc), drop_drop.
  - apply Hc.
  - apply Hc.
  - rewrite F2, He. done.
  - intros _ Hcm. exfalso. apply (not_complete (m + n)); [by rewrite F2|done].
Qed.

Lemma written_silent s s' m m' : written_ok s m -> c_stderr s' = c_stderr s -> c_skip_stderr s' = c_skip_stderr s ->
  err m' = err m -> written_ok s' m'.
Proof. intros [W1 W2] E1 E2 E3. unfold written_ok. by rewrite E1, E2, E3. Qed.

Lemma common_written p s m : common p s m -> written_ok s m.
Proof. intros H. split; apply H. Qed.

Lemma matches_at_ended acc p m : matches acc p (at_ m) -> dm_ended (at_ m) = true ->
  dm_skip (at_ m) = skip p.
Proof.
  intros (_ & _ & Hm) E. destruct Hm as [[_ Hm]|(_ & Hm & _)]; [done|].
  unfold after in *. apply dm_ended_remaining in E; [simpl in *; lia|done].
Qed.

Lemma common_skip (acc : bool -> bool) p s s' m n : common p s m -> matches acc p (at_ m) -> acc true = true -> in_frame p = true ->
  remaining p = 0%nat ->
  (n <= skip p)%nat -> (n <= length (c_input s))%nat -> moved s s' n ->
  c_stderr s' = c_stderr s -> c_skip_stderr s' = c_skip_stderr s ->
  common (mkFcgiParser 0 (skip p - n) true) s' (m + n).
Proof.
  intros Hc Hm Ha Hf Hr H1 H2 (V1 & V2 & V3 & V4 & V5) S1 S2.
  destruct (tracked_skip id [] T acc p (c_input s) m n (tracked_at _ _ _ _ Hc Hm) Hr H1 H2) as (M1 & (F1 & F2 & _) & M3).
  destruct (written_silent s s' m (m + n) (common_written _ _ _ Hc) S1 S2 (M3 true Ha)) as [W1 W2].
  destruct M1 as [M1 M2 M4]. split; rewrite ?V3, ?V4, ?V5, ?F1, ?F2; try done; [|by apply Hc..|].
  - rewrite V1. by rewrite (cm_input _ _ _ Hc), drop_drop.
  - intros Hrel Hcm. split.
    + destruct Hrel as [Hrel|Hrel]; [done|]. apply (cm_not_passed _ _ _ Hc Hrel). rewrite <- F2.
      apply complete_ended in Hcm. unfold after. done.
    + destruct (complete_split m n M2 Hcm) as [Hx|(k & Hk & K1 & K2 & K3)].
      * destruct (cm_end _ _ _ Hc Hrel Hx) as [_ ->]. simpl in *. done.
      * destruct (tracked_skip id [] T acc p (c_input s) m k (tracked_at _ _ _ _ Hc Hm) Hr ltac:(lia) ltac:(lia))
          as ([_ _ M5] & _). pose proof (matches_at_ended _ _ _ M5 K1) as K4. simpl in K4. f_equal. lia.
Qed.

Lemma common_frame_end p s m : common (mkFcgiParser 0 0 true) s m -> end_request (c_response s) = false ->
  p = mkFcgiParser 0 0 false -> common p s m.
Proof.
  intros [H1 H2 H3 H4 H5 H6 H7 H8 H9] He ->. split; try done. intros Hr Hcm. destruct (H9 Hr Hcm). congruence.
Qed.

(** The parser wants more, but the whole END_REQUEST record is in the buffer. *)
Lemma released_not_more acc p s m : common p s m -> matches acc p (at_ m) ->
  (c_input s = [] /\ (0 < remaining p + skip p)%nat) \/
  (p = mkFcgiParser 0 0 false /\ (length (c_input s) < sizeof_FcgiRecordHeader)%nat) ->
  IsReleased s = false.
Proof.
  intros Hc Hm H. destruct (IsReleased s) eqn:Er; [|done]. exfalso.
  pose proof (cm_complete _ _ _ Hc Er) as Hcm. pose proof (cm_end _ _ _ Hc (or_intror Er)) as Hend.
  pose proof (cm_input _ _ _ Hc) as Hi. pose proof (cm_length _ _ _ Hc) as Hl.
  assert (HT : T = take (m + length (c_input s)) T) by (rewrite take_ge; [done|rewrite Hi, length_drop; lia]).
  rewrite HT in Hcm. apply complete_split in Hcm; [|rewrite Hi, length_drop; lia].
  destruct H as [[E Hp]|[-> Hs]].
  - destruct Hcm as [Hcm|(k & Hk & _)]; [|rewrite E in Hk; simpl in Hk; lia].
    destruct (Hend Hcm) as [_ ->]. simpl in Hp. lia.
  - destruct Hcm as [Hcm|(k & Hk & K1 & K2 & K3)]; [by destruct (Hend Hcm) as [_ ?]|].
    rewrite after_add, <- Hi in K3. pose proof (matches_idle _ _ _ Hm eq_refl eq_refl) as E.
    change (mkDemux 0 0 [] ?a ?b ?c) with (dm_of FcgiParser_new a b c) in E. rewrite E in K3.
    destruct (dm_short id FcgiParser_new (dm_stderr (at_ m)) (dm_ended (at_ m)) (dm_excess (at_ m)) (take k (c_input s)) eq_refl eq_refl)
      as [K5 _]; [rewrite length_take; lia|].
    rewrite K5 in K3. simpl in K3. apply (f_equal length) in K3. rewrite length_take in K3. simpl in K3. lia.
Qed.

Lemma DisposeConsumed_wp n s (Q : unit -> FcgiClient -> Prop) : (n <= length (c_input s))%nat ->
  Q tt (set_input (drop n (c_input s)) s) -> wp (DisposeConsumed n) Q s.
Proof.
  intros Hn HQ. unfold DisposeConsumed. wp_step. wp_step. wp_step. wp_step; [by apply Nat.leb_le|]. by wp_step.
Qed.

(** *** The handler *)

Lemma common_idle acc s m : common (mkFcgiParser 0 0 false) s m -> matches acc (mkFcgiParser 0 0 false) (at_ m) ->
  end_request (c_response s) = true \/ IsReleased s = true -> dm_ended (at_ m) = false.
Proof.
  intros Hc Hm Hr. destruct (dm_ended (at_ m)) eqn:E; [|done]. exfalso.
  pose proof (complete_after id [] T acc _ m false (tracked_at _ _ _ _ Hc Hm) E) as Hcm.
  by destruct (cm_end _ _ _ Hc Hr Hcm) as [_ ?].
Qed.

Lemma common_header acc p' s s' m : common (mkFcgiParser 0 0 false) s m -> matches acc (mkFcgiParser 0 0 false) (at_ m) ->
  (sizeof_FcgiRecordHeader <= length (c_input s))%nat ->
  c_input s' = drop sizeof_FcgiRecordHeader (c_input s) -> c_alive s' = true -> IsReleased s' = IsReleased s ->
  stderr (c_response s') = dm_stderr (at_ (m + sizeof_FcgiRecordHeader)) ->
  c_stderr s' = c_stderr s -> c_skip_stderr s' = c_skip_stderr s ->
  (end_request (c_response s') = true \/ IsReleased s = true -> dm_ended (at_ (m + sizeof_FcgiRecordHeader)) = true ->
    end_request (c_response s') = true /\ (dm_skip (at_ (m + sizeof_FcgiRecordHeader)) = 0%nat -> p' = mkFcgiParser 0 0 true)) ->
  (end_request (c_response s') = true -> dm_ended (at_ m) = true -> end_request (c_response s) = true) ->
  common p' s' (m + sizeof_FcgiRecordHeader).
Proof.
  intros Hc Hm Hl V1 V2 V3 V4 S1 S2 He Hold.
  destruct (tracked_header id [] T Hexcess acc _ _ _ (tracked_at _ _ _ _ Hc Hm) Hl) as (M1 & M2 & M3 & _ & M4).
  destruct (written_silent s s' m _ (common_written _ _ _ Hc) S1 S2 (M4 true)) as [W1 W2].
  split; rewrite ?V3; try done; [by rewrite V1|by apply Hc|intros Hr Hx; apply He; [by right|done]|].
  intros Hr Hcm. pose proof Hcm as Hen. apply complete_ended in Hen.
  destruct (He Hr Hen) as [He1 He2]. split; [done|].
  destruct (complete_split m _ M2 Hcm) as [Hx|(k & Hk & K1 & K2 & K3)].
  { destruct (dm_ended (at_ m)) eqn:E; [|by destruct (not_complete m E Hx)].
    destruct (cm_end _ _ _ Hc) as [_ ?]; [|done|done]. destruct Hr as [Hr|Hr]; [left; by apply Hold|by right]. }
  destruct (decide (k = sizeof_FcgiRecordHeader)) as [->|Hne]; [by apply He2|]. exfalso.
  rewrite after_add, <- (cm_input _ _ _ Hc) in K3. pose proof (matches_idle _ _ _ Hm eq_refl eq_refl) as E.
  change (mkDemux 0 0 [] ?a ?b ?c) with (dm_of FcgiParser_new a b c) in E. rewrite E in K3.
  destruct (dm_short id FcgiParser_new (dm_stderr (at_ m)) (dm_ended (at_ m)) (dm_excess (at_ m)) (take k (c_input s)) eq_refl eq_refl)
    as [K5 _]; [rewrite length_take; lia|].
  rewrite K5 in K3. simpl in K3. apply (f_equal length) in K3. rewrite length_take in K3. simpl in K3. lia.
Qed.

Lemma no_headers p s m : in_headers p s m -> payload_seen p s = [] -> headers (c_response s) = [].
Proof.
  intros H E. apply list_nil_subseteq. intros i Hi. apply (ih_headers _ _ _ H) in Hi. by rewrite E in Hi.
Qed.

Lemma available_move n a sent m m' e : available_ok n a sent m e -> dm_ended (at_ m') = dm_ended (at_ m) ->
  out m' = out m -> available_ok n a sent m' e.
Proof. intros [A1 A2 A3 A4] E1 E2. split; rewrite ?E1, ?E2; done. Qed.

Lemma out_grows m n : out m `prefix_of` out (m + n).
Proof. rewrite emitted_add. by eexists. Qed.

Lemma set_stderr_same r : r = set_stderr (stderr r) r.
Proof. by destruct r. Qed.

(** The phase stays the same if nothing but the position changes. *)
Lemma phase_move ir p p' s s' m n : phase_ok ir p s m ->
  (exists b, c_response s' = set_stderr b (c_response s)) -> c_sink s' = c_sink s -> c_results s' = c_results s ->
  dm_ended (at_ (m + n)) = dm_ended (at_ m) ->
  (no_body (c_response s) = false \/ receiving_headers (c_response s) = true -> out (m + n) = out m) ->
  payload_seen p s = [] ->
  (forall acc, acc true = true -> matches acc p (at_ m) -> matches acc p' (at_ (m + n))) ->
  phase_ok ir p' s' (m + n).
Proof.
  intros Hp [b Er] Ek Es F2 Ho Hs Hm. destruct Hp as [[Hp ->]|[Hp|Hp]].
  - left. split; [|done]. pose proof (no_headers _ _ _ Hp Hs) as Hnil. destruct Hp as [P1 P2 P3 P4 P5 P6 P7 P8].
    split; rewrite ?Er, ?Ek, ?Es, ?F2, ?Ho by auto; try done; [by apply Hm|].
    simpl. rewrite Hnil. intros i Hi. by apply elem_of_nil in Hi.
  - right. left. destruct Hp as [P1 P2 P3 P4 (st & h & text & k & P5 & P6 & P7 & P8)].
    assert (Hnb : no_body (c_response s) = false).
    { unfold WasResponseSubmitted in P1. by apply andb_true_iff in P1 as [_ P1%negb_true_iff]. }
    split; rewrite ?Er, ?Ek, ?Es; try done; [by apply Hm|]. exists st, h, text, k. rewrite Ho by auto.
    split_and!; try done. eapply available_move; [done|done|auto].
  - right. right. destruct Hp as [P1 P2 P3 P4 P5 P6 (text & P7 & P8)].
    split; rewrite ?Er, ?Ek, ?Es, ?F2; try done; [by apply Hm|]. exists text. split; [done|].
    etrans; [exact P8|apply out_grows].
Qed.

Lemma phase_matches ir p s m : phase_ok ir p s m -> exists acc : bool -> bool, acc true = true /\ matches acc p (at_ m).
Proof. intros [[Hp _]|[Hp|Hp]]; [exists (fun _ => true)|exists (fun _ => true)|exists (fun e => e)]; split; try done; apply Hp. Qed.

Context (ir at0 : bool).

Definition feed_inv (p : FcgiParser) (src : list Z) (s : FcgiClient) : Prop :=
  c_input s = src /\ core ir p s /\ (receiving_headers (c_response s) = true -> at0 = true).

Definition feed_post (r : FeedResult) (p : FcgiParser) (s : FcgiClient) : Prop :=
  match r with
  | FEED_OK => False
  | FEED_BLOCKING => core ir p s /\ c_input s <> []
  | FEED_MORE => core ir p s /\ IsReleased s = false
  | FEED_STOP => at0 = true /\ ir = false /\ exists m, common p s m /\ headers_done p s m
  | FEED_CLOSED => dead s
  end.

Lemma feed_skip_inv p src s n : feed_inv p src s -> in_frame p = true -> remaining p = 0%nat ->
  (n <= skip p)%nat -> (n <= length src)%nat ->
  wp (DisposeConsumed n) (fun _ s => feed_inv (mkFcgiParser 0 (skip p - n) true) (drop n src) s) s.
Proof.
  intros (<- & (m & Hc & Hp) & Hr) Hf Hrem H1 H2. apply DisposeConsumed_wp; [done|]. split; [done|]. split; [|done].
  exists (m + n)%nat. destruct (phase_matches _ _ _ _ Hp) as (acc & Ha & Hm).
  destruct (tracked_skip id [] T acc p (c_input s) m n (tracked_at _ _ _ _ Hc Hm) Hrem H1 H2) as (M1 & (F1 & F2 & _) & _).
  split; [eapply common_skip; try done; split_and!; try done; apply Hc|].
  eapply (phase_move ir p); try done.
  - eexists. apply set_stderr_same.
  - intros Hb. destruct Hp as [[Hp _]|[Hp|Hp]].
    + by apply (tracked_skip id [] T (fun _ => true) p (c_input s) m n (tracked_at _ _ _ _ Hc (ih_matches _ _ _ Hp)) Hrem H1 H2).
    + by apply (tracked_skip id [] T (fun _ => true) p (c_input s) m n (tracked_at _ _ _ _ Hc (ib_matches _ _ _ _ Hp)) Hrem H1 H2).
    + rewrite (nb_no_body _ _ _ Hp), (nb_receiving _ _ _ Hp) in Hb. by destruct Hb.
  - unfold payload_seen. rewrite Hrem. by case_match.
  - intros acc' Ha' Hm'. by apply (tracked_skip id [] T acc' p (c_input s) m n (tracked_at _ _ _ _ Hc Hm') Hrem H1 H2).
Qed.

Lemma feed_more p src s : feed_inv p src s ->
  (src = [] /\ (0 < remaining p + skip p)%nat) \/
  (p = mkFcgiParser 0 0 false /\ (length src < sizeof_FcgiRecordHeader)%nat) -> feed_post FEED_MORE p s.
Proof.
  intros (<- & (m & Hc & Hp) & Hr) H. split; [by exists m|]. destruct (phase_matches _ _ _ _ Hp) as (acc & Ha & Hm).
  by eapply released_not_more.
Qed.

Lemma HandleEndComplete_wp s m : common (mkFcgiParser 0 0 true) s m -> phase_ok ir (mkFcgiParser 0 0 true) s m ->
  end_request (c_response s) = true -> wp HandleEndComplete (fun _ s => dead s) s.
Proof.
  intros Hc Hp He. unfold HandleEndComplete, get_response. wp_step. wp_step.
  destruct Hp as [[Hp _]|[Hp|Hp]]; [by rewrite (ih_end _ _ _ Hp) in He|..].
  - pose proof (ib_submitted _ _ _ _ Hp) as Hs. unfold WasResponseSubmitted in Hs.
    apply andb_true_iff in Hs as [Hs1 Hs2]. apply negb_true_iff in Hs2.
    destruct (ib_response _ _ _ _ Hp) as (st & h & text & n & P5 & P6 & P7 & [A1 A2 A3 A4]).
    specialize (A4 He). specialize (A3 A4).
    wp_step. wp_step; [done|]. wp_step. wp_step; [rewrite A3, Hs2; done|]. rewrite Hs2.
    eapply wp_mono; [apply DestroyClient_wp, Hc|]. intros ? s' Hd.
    destruct (destroyed_dead _ _ _ Hd) as [Ha Hr]; [done|]. split; [done|]. split; [done|].
    destruct Hd as (D1 & D2 & D3 & D4 & _). split; [rewrite D1; by eapply written_prefix|]. right. left.
    exists st, h. rewrite D2. split; [done|]. exists text, n. rewrite D3, D4. split; [done|].
    assert (Hall : out m = all_out) by (by apply ended_silent).
    rewrite <- P7, Hall. split; [done|]. intros _. split; [|split].
    + pose proof (ended_input id [] T m A4) as Hx. done.
    + intros Hn. destruct A2 as [A2|A2]; [lia|lia|lia].
    + done.
  - wp_step. wp_step; [by rewrite (nb_receiving _ _ _ Hp)|]. wp_step. wp_step; [by rewrite (nb_no_body _ _ _ Hp)|].
    rewrite (nb_no_body _ _ _ Hp). wp_step. eapply wp_mono; [apply DestroyClient_wp, Hc|]. intros ? s' Hd.
    destruct (destroyed_dead _ _ _ Hd) as [Ha Hr]; [done|]. unfold InvokeResult. wp_step. split; [done|]. split; [done|].
    destruct Hd as (D1 & D2 & D3 & D4 & _). split; [simpl; rewrite D1; by eapply written_prefix|]. right. right.
    destruct Hp as [_ _ _ P4 P5 P6 (text & P7 & P8)].
    eexists _, _. simpl. rewrite D2, P5, D3, D4. split; [done|]. split; [done|]. split; [done|]. split.
    + apply (ended_input id [] T m), P6, He.
    + exists text. split; [done|]. etrans; [done|apply out_prefix].
Qed.

Lemma feed_end_inv src s : feed_inv (mkFcgiParser 0 0 true) src s ->
  wp Client_OnFrameEnd (fun result s =>
    match result with
    | CONTINUE => feed_inv (mkFcgiParser 0 0 false) src s
    | CLOSED => dead s
    | _ => False
    end) s.
Proof.
  intros (<- & (m & Hc & Hp) & Hr). unfold Client_OnFrameEnd, get_response. wp_step. wp_step.
  destruct (end_request (c_response s)) eqn:He.
  - wp_step. eapply wp_mono; [by apply (HandleEndComplete_wp s m)|]. intros ? s' Hd. by apply wp_ret.
  - apply wp_ret. split; [done|]. split; [|done]. exists m. split; [by eapply common_frame_end|].
    assert (Hm : forall acc, matches acc (mkFcgiParser 0 0 true) (at_ m) -> matches acc (mkFcgiParser 0 0 false) (at_ m)) by done.
    destruct Hp as [[[P1 P2 P3 P4 P5 P6 P7 P8] ?]|[[P1 P2 P3 P4 P5]|[P1 P2 P3 P4 P5 P6 P7]]];
      [left; split; [|done]|right; left|right; right]; split; auto.
Qed.

(** *** Headers of records *)

Definition header_post (p : FcgiParser) (src : list Z) (result : FrameResult) (s : FcgiClient) : Prop :=
  match result with
  | SKIP => feed_inv (SkipCurrent p) src s
  | CONTINUE => feed_inv p src s
  | STOP => False
  | CLOSED => dead s
  end.

(** A record that is no END_REQUEST. *)
Lemma feed_frame p' s s' m : common (mkFcgiParser 0 0 false) s m -> phase_ok ir (mkFcgiParser 0 0 false) s m ->
  (receiving_headers (c_response s) = true -> at0 = true) ->
  (sizeof_FcgiRecordHeader <= length (c_input s))%nat ->
  s' = set_response (set_stderr (dm_stderr (at_ (m + sizeof_FcgiRecordHeader))) (c_response s))
         (set_input (drop sizeof_FcgiRecordHeader (c_input s)) s) ->
  dm_ended (at_ (m + sizeof_FcgiRecordHeader)) = dm_ended (at_ m) ->
  ((forall acc : bool -> bool, acc true = true -> matches acc p' (at_ (m + sizeof_FcgiRecordHeader))) \/
   (negb (receiving_headers (c_response s)) && no_body (c_response s) = false /\
    matches (fun _ => true) p' (at_ (m + sizeof_FcgiRecordHeader))) \/
   (negb (receiving_headers (c_response s)) && no_body (c_response s) = true /\
    matches (fun e => e) p' (at_ (m + sizeof_FcgiRecordHeader)))) ->
  feed_inv p' (drop sizeof_FcgiRecordHeader (c_input s)) s'.
Proof.
  intros Hc Hp Hat Hl -> He Hm. split; [done|]. split; [|done]. exists (m + sizeof_FcgiRecordHeader)%nat.
  destruct (phase_matches _ _ _ _ Hp) as (acc0 & Ha0 & Hm0).
  destruct (tracked_header id [] T Hexcess acc0 _ _ _ (tracked_at _ _ _ _ Hc Hm0) Hl) as (M1 & M2 & M3 & _ & M4).
  split.
  - eapply common_header; try done; [apply Hc|]. intros Hr Hx. rewrite He in Hx.
    pose proof (common_idle _ _ _ Hc Hm0 Hr). congruence.
  - destruct Hm as [Hm|[[Hb Hm]|[Hb Hm]]].
    + eapply (phase_move ir (mkFcgiParser 0 0 false)); try done; [by eexists|unfold payload_seen; by case_match|auto].
    + destruct Hp as [[Hp ->]|[Hp|Hp]].
      * left. split; [|done]. pose proof (no_headers _ _ _ Hp) as Hnil. destruct Hp as [P1 P2 P3 P4 P5 P6 P7 P8].
        split; simpl; rewrite ?He, ?M4; try done. rewrite Hnil by (unfold payload_seen; by case_match).
        intros i Hi. by apply elem_of_nil in Hi.
      * right. left. destruct Hp as [P1 P2 P3 P4 (st & h & text & k & P5 & P6 & P7 & P8)]. split; try done.
        exists st, h, text, k. simpl. rewrite M4. split_and!; try done. eapply available_move; [done|done|auto].
      * rewrite (nb_no_body _ _ _ Hp), (nb_receiving _ _ _ Hp) in Hb. done.
    + destruct Hp as [[Hp ->]|[Hp|Hp]].
      * by rewrite (ih_receiving _ _ _ Hp) in Hb.
      * pose proof (ib_submitted _ _ _ _ Hp) as Hs. unfold WasResponseSubmitted in Hs.
        apply andb_true_iff in Hs as [Hs1 Hs2]. apply negb_true_iff in Hs2. by rewrite Hs2, andb_false_r in Hb.
      * right. right. destruct Hp as [P1 P2 P3 P4 P5 P6 (text & P7 & P8)]. split; simpl; rewrite ?He; try done.
        exists text. by rewrite M4.
Qed.

Lemma HandleEnd_wp s m : common (mkFcgiParser 0 0 false) s m -> phase_ok ir (mkFcgiParser 0 0 false) s m ->
  (receiving_headers (c_response s) = true -> at0 = true) ->
  (sizeof_FcgiRecordHeader <= length (c_input s))%nat ->
  dm_ended (at_ m) = false ->
  let h := header_of (c_input s) in
  at_ (m + sizeof_FcgiRecordHeader) =
    mkDemux 0 (Z.to_nat (padding_length h) + Z.to_nat (content_length h)) [] (dm_stderr (at_ m)) true (dm_excess (at_ m)) ->
  wp HandleEnd (header_post (mkFcgiParser (Z.to_nat (content_length h)) (Z.to_nat (padding_length h)) true)
      (drop sizeof_FcgiRecordHeader (c_input s)))
    (set_input (drop sizeof_FcgiRecordHeader (c_input s)) s).
Proof.
  intros Hc Hp Hat Hl Hne h Hd. set (s1 := set_input _ s). set (m' := (m + sizeof_FcgiRecordHeader)%nat) in *.
  destruct (phase_matches _ _ _ _ Hp) as (acc0 & Ha0 & Hm0).
  destruct (tracked_header id [] T Hexcess acc0 _ _ _ (tracked_at _ _ _ _ Hc Hm0) Hl) as (M1 & M2 & M3 & _ & M4).
  assert (Hend : end_request (c_response s) = false).
  { destruct (end_request (c_response s)) eqn:E; [|done].
    destruct Hp as [[Hp _]|[Hp|Hp]]; [by rewrite (ih_end _ _ _ Hp) in E| |].
    - destruct (ib_response _ _ _ _ Hp) as (st & hh & text & n & _ & _ & _ & [_ _ _ A4]). specialize (A4 E). congruence.
    - specialize (nb_end _ _ _ Hp E). congruence. }
  assert (Hen : dm_ended (at_ m') = true) by by rewrite Hd.
  assert (Hab : forall s2, c_sink s2 = c_sink s -> c_results s2 = c_results s -> c_stderr s2 = c_stderr s ->
    WasResponseSubmitted (c_response s2) = WasResponseSubmitted (c_response s) -> abortable s2).
  { intros s2 E1 E2 E3 E4. destruct (core_abortable ir (mkFcgiParser 0 0 false) s) as (B1 & B2 & B3); [by exists m|].
    unfold abortable, c_alive in *. by rewrite E1, E2, E3, E4. }
  set (p' := SkipCurrent (mkFcgiParser (Z.to_nat (content_length h)) (Z.to_nat (padding_length h)) true)).
  assert (Hcm : forall s2, c_input s2 = drop sizeof_FcgiRecordHeader (c_input s) -> c_alive s2 = true -> IsReleased s2 = IsReleased s ->
    stderr (c_response s2) = stderr (c_response s) -> c_stderr s2 = c_stderr s -> c_skip_stderr s2 = c_skip_stderr s ->
    end_request (c_response s2) = true -> common p' s2 m').
  { intros s2 E1 E2 E3 E4 E5 E6 E7. eapply common_header; try done.
    - rewrite E4, (cm_stderr _ _ _ Hc). fold m'. by rewrite Hd.
    - intros _ _. split; [done|]. fold m'. rewrite Hd. simpl. intros Hz. unfold p', SkipCurrent. simpl. by rewrite Hz.
    - congruence. }
  assert (Hmt : forall acc, matches acc p' (at_ m')) by (intros acc; rewrite Hd; apply matches_ignored).
  unfold HandleEnd, get_response, response_mod. wp_step. wp_step. wp_step. wp_step; [by change (c_response s1) with (c_response s); rewrite Hend|]. wp_step. wp_step.
  change (c_response s1) with (c_response s).
  destruct (receiving_headers (c_response s)) eqn:Er.
  { wp_step. eapply wp_mono; [apply AbortResponseHeaders_wp; [by apply Hab|unfold WasResponseSubmitted; simpl; by rewrite Er]|].
    intros ? s2 Hdead. by apply wp_ret. }
  destruct (negb (no_body (c_response s)) && (0 <? available (c_response s))) eqn:Eb.
  { apply andb_true_iff in Eb as [Eb _]. wp_step.
    eapply wp_mono; [apply AbortResponseBody_wp; [by apply Hab|unfold WasResponseSubmitted; simpl; by rewrite Er, Eb]|].
    intros ? s2 Hdead. by apply wp_ret. }
  wp_step. wp_step. apply wp_ret. split; [done|]. split; [|simpl; congruence]. exists m'.
  split; [apply Hcm; try done; apply Hc|].
  destruct Hp as [[Hp _]|[Hp|Hp]]; [by rewrite (ih_receiving _ _ _ Hp) in Er| |].
  - right. left. destruct Hp as [P1 P2 P3 P4 (st & hh & text & k & P5 & P6 & P7 & [A1 A2 A3 A4])]. split; try done.
    exists st, hh, text, k. simpl. unfold m'. rewrite M4. split_and!; try done. fold m'.
    assert (Hnb : no_body (c_response s) = false).
    { unfold WasResponseSubmitted in P1. by apply andb_true_iff in P1 as [_ P1%negb_true_iff]. }
    rewrite Hnb in Eb. simpl in Eb. apply Z.ltb_ge in Eb.
    split; [lia| |done|done]. intros _.
    pose proof (ended_silent id [] T m' false Hen) as Hall. unfold m' in Hall. rewrite M4 in Hall. fold m' in Hall.
    destruct (Z.lt_ge_cases (available (c_response s)) 0) as [Ha|Ha].
    + right. destruct (A1 Ha) as [Hn _]. split; [done|]. split; [apply (ended_input id [] T m' Hen)|].
      unfold m'. rewrite M4. change (dm_out id false (dm_run id Demux_new []) T) with all_out in Hall. rewrite Hall. lia.
    + assert (available (c_response s) = 0) by lia.
      destruct (A2 Ha) as [[A5 A6]|(A5 & A6 & A7)]; [left; lia|right]. unfold m'. rewrite M4. split_and!; [done|done|lia].
  - right. right. destruct Hp as [P1 P2 P3 P4 P5 P6 (text & P7 & P8)]. split; try done.
    exists text. unfold m'. by rewrite M4.
Qed.

Lemma feed_header_inv src s : feed_inv (mkFcgiParser 0 0 false) src s -> (sizeof_FcgiRecordHeader <= length src)%nat ->
  let h := header_of src in
  let p := mkFcgiParser (Z.to_nat (content_length h)) (Z.to_nat (padding_length h)) true in
  wp (DisposeConsumed sizeof_FcgiRecordHeader) (fun _ s =>
    wp (Client_OnFrameHeader id (type h) (request_id h)) (header_post p (drop sizeof_FcgiRecordHeader src)) s) s.
Proof.
  intros (<- & (m & Hc & Hp) & Hat) Hl h p. apply DisposeConsumed_wp; [done|].
  destruct (phase_matches _ _ _ _ Hp) as (acc0 & Ha0 & Hm0).
  destruct (tracked_header id [] T Hexcess acc0 _ _ _ (tracked_at _ _ _ _ Hc Hm0) Hl) as (M1 & M2 & M3 & V & M4).
  fold h in M3, V. pose proof (cm_stderr _ _ _ Hc) as Hs. unfold Client_OnFrameHeader.
  pose proof (feed_frame (SkipCurrent p) s) as Fskip. pose proof (feed_frame p s) as Fgo.
  assert (Hsame : dm_stderr (at_ (m + sizeof_FcgiRecordHeader)) = dm_stderr (at_ m) ->
    set_input (drop sizeof_FcgiRecordHeader (c_input s)) s =
    set_response (set_stderr (dm_stderr (at_ (m + sizeof_FcgiRecordHeader))) (c_response s))
      (set_input (drop sizeof_FcgiRecordHeader (c_input s)) s)).
  { intros ->. rewrite <- Hs, <- set_stderr_same. done. }
  destruct V as [V1 V2|V1 V2 V3 V4|V1 V2 V3 V4|V1 V2 V3 V4|V1 V2 V3 V4 V5 V6]; rewrite V1; cbn [negb].
  - apply wp_ret. eapply Fskip; try done; [apply Hsame|..]; rewrite M3, V2; try done. left. intros acc _. apply matches_ignored.
  - rewrite V3. cbn [Z.eqb STDOUT Pos.eqb]. unfold response_mod, get_response. wp_step. wp_step. wp_step. wp_step.
    cbn [c_response set_response set_input receiving_headers no_body set_stderr].
    destruct (negb (receiving_headers (c_response s)) && no_body (c_response s)) eqn:Eb; apply wp_ret.
    + eapply Fskip; try done; rewrite M3, V4; try done. right. right. split; [done|]. by apply matches_unwanted.
    + eapply Fgo; try done; rewrite M3, V4; try done. right. left. split; [done|]. by apply matches_accepted.
  - rewrite V3. cbn [Z.eqb STDOUT STDERR Pos.eqb]. unfold response_mod. wp_step. wp_step. apply wp_ret.
    eapply Fgo; try done; rewrite M3, V4; try done. left. intros acc Hacc. by apply matches_accepted.
  - rewrite V3. cbn [Z.eqb STDOUT STDERR END_REQUEST Pos.eqb]. apply (HandleEnd_wp s m); try done. by rewrite M3.
  - rewrite V3, V4, V5. apply wp_ret. eapply Fskip; try done; [apply Hsame|..]; rewrite M3, V6; try done.
    left. intros acc _. apply matches_ignored.
Qed.

(** *** Payloads *)

Definition payload_post (p : FcgiParser) (src : list Z) (r : FrameResult * nat) (s : FcgiClient) : Prop :=
  let '(result, consumed) := r in
  (consumed <= remaining p)%nat /\ (consumed <= length src)%nat /\
  if (consumed =? 0)%nat then
    match result with
    | CONTINUE => core ir p s /\ c_input s = src
    | CLOSED => dead s
    | _ => False
    end
  else
    let p := mkFcgiParser (remaining p - consumed) (skip p) true in
    c_input s = src /\
    match result with
    | CONTINUE => feed_inv p (drop consumed src) (set_input (drop consumed src) s)
    | STOP => feed_post FEED_STOP p (set_input (drop consumed src) s)
    | _ => False
    end.

(** STDERR, in every phase. *)
Lemma stderr_payload p s m x : common p s m -> phase_ok ir p s m -> (receiving_headers (c_response s) = true -> at0 = true) ->
  (0 < remaining p)%nat -> x = take (remaining p) (c_input s) -> dm_stderr (at_ m) = true ->
  forall s', c_input s' = c_input s -> c_released s' = c_released s -> c_response s' = c_response s ->
  c_sink s' = c_sink s -> c_results s' = c_results s ->
  c_stderr s' = c_stderr s ++ drop (c_skip_stderr s) x -> c_skip_stderr s' = (c_skip_stderr s - length x)%nat ->
  feed_inv (mkFcgiParser (remaining p - length x) (skip p) true) (drop (length x) (c_input s))
    (set_input (drop (length x) (c_input s)) s').
Proof.
  intros Hc Hp Hat Hr Hx Hs s' E1 E2 E3 E4 E5 E6 E7.
  assert (Hlx : length x = (remaining p `min` length (c_input s))%nat) by (rewrite Hx; apply length_take).
  destruct (phase_matches _ _ _ _ Hp) as (acc0 & Ha0 & Hm0).
  assert (Htr : forall acc : bool -> bool, matches acc p (at_ m) -> _) by
    (intros acc Hm; exact (tracked_payload id [] T acc p (c_input s) m (length x) (tracked_at _ _ _ _ Hc Hm) Hr ltac:(lia) ltac:(lia))).
  destruct (Htr acc0 Hm0) as (M1 & (F1 & F2 & _) & _ & M3). rewrite Hs in M3.
  assert (Hxx : take (length x) (c_input s) = x).
  { rewrite Hx. by rewrite length_take, <- take_take, (take_ge (c_input s) (length (c_input s))). }
  rewrite Hxx in M3. pose proof (M3 true) as Me. pose proof (M3 false) as Mo. simpl in Me, Mo. rewrite app_nil_r in Mo.
  split; [done|]. split; [|simpl; by rewrite E3]. exists (m + length x)%nat.
  split.
  - apply (common_payload acc0 p s); try done; [lia|lia| |].
    + split_and!; simpl; rewrite ?E3; try done; [|by unfold IsReleased; simpl; rewrite E2].
      unfold c_alive. simpl. rewrite E4. apply Hc.
    + unfold written_ok. simpl. rewrite E6, E7, Me, length_app.
      pose proof (cm_skip _ _ _ Hc) as Hk. pose proof (cm_written _ _ _ Hc) as Hw.
      destruct (err_prefix (m + length x)) as [R HR]. rewrite Me, <- app_assoc in HR.
      rewrite HR, !length_app in Hk. rewrite Hw, HR, !length_app. split; [lia|].
      rewrite <- !Nat.add_assoc, !take_app_add.
      destruct (Nat.le_gt_cases (length x) (c_skip_stderr s)) as [Hl|Hl].
      * by rewrite (drop_ge x), app_nil_r, take_app_ge by done.
      * replace (c_skip_stderr s - length x)%nat with 0%nat by lia.
        by rewrite take_app_le, take_0, app_nil_r, <- app_assoc, take_drop by lia.
  - apply (phase_move ir p _ s); try done; [simpl; rewrite E3; eexists; apply set_stderr_same| |].
    + unfold payload_seen. by rewrite (cm_stderr _ _ _ Hc), Hs.
    + intros acc Hacc Hm. apply (Htr acc Hm).
Qed.

(** The client is as it was, but its headers. *)
Lemma common_with_headers p s s' m : common p s m -> with_response s s' -> same_body (c_response s) (c_response s') ->
  common p s' m.
Proof.
  intros [C1 C2 C3 C4 C5 C6 C7 C8 C9] W (B1 & B2 & B3 & B4 & B5 & B6). rewrite W.
  split; simpl; rewrite ?B5, ?B6; try done.
Qed.

Lemma headers_payload p s m x : common p s m -> in_headers p s m -> ir = false -> at0 = true ->
  (0 < remaining p)%nat -> c_input s <> [] -> x = take (remaining p) (c_input s) -> dm_stderr (at_ m) = false ->
  wp (Client_OnFramePayload x) (payload_post p (c_input s)) s.
Proof.
  intros Hc Hp Hir Hat Hr Hne Hx Hs.
  pose proof (cm_stderr _ _ _ Hc) as Hse. rewrite Hs in Hse.
  pose proof (ih_receiving _ _ _ Hp) as Hrec.
  assert (Hlx : length x = (remaining p `min` length (c_input s))%nat) by (rewrite Hx; apply length_take).
  unfold Client_OnFramePayload, get_response. wp_step. wp_step.
  unfold WasResponseSubmitted. rewrite Hrec. cbn [negb andb]. unfold Client_Feed.
  wp_step. wp_step. wp_step. rewrite Hse, Hrec. wp_step.
  eapply wp_mono; [by apply ParseHeaders_spec|]. intros r s' (W & B & H).
  pose proof (common_with_headers _ _ _ _ Hc W B) as Hc'.
  assert (Hsin : c_input s' = c_input s) by by rewrite W.
  assert (Hsk : c_sink s' = c_sink s /\ c_results s' = c_results s) by by rewrite W. destruct Hsk as [Hsk Hrs].
  assert (Hold : forall i, i ∈ headers (c_response s) -> i ∈ fields (before_blank x)).
  { intros i Hi. apply (ih_headers _ _ _ Hp) in Hi. unfold payload_seen in Hi. by rewrite Hse, <- Hx in Hi. }
  destruct r as [[|n]|ep].
  - apply wp_ret. wp_step. wp_step. cbn [Nat.eqb]. destruct H as [H1 H2].
    rewrite (cm_alive _ _ _ Hc'). cbn [negb]. wp_step. wp_step; [by rewrite H1|]. apply wp_ret.
    split; [lia|]. split; [lia|]. split; [|done]. exists m. split; [done|]. left. split; [|done].
    destruct Hp as [P1 P2 P3 P4 P5 P6 P7 P8]. destruct B as (B1 & B2 & B3 & B4 & B5 & B6).
    split; rewrite ?Hsk, ?Hrs, ?B6; try done. intros i Hi. unfold payload_seen. rewrite B5, Hse, Hsin, <- Hx.
    rewrite H2 in Hi. apply elem_of_app in Hi as [Hi|Hi]; auto.
  - apply wp_ret. wp_step. wp_step. cbn [Nat.eqb]. destruct H as (H1 & H2 & H3 & H4 & H5 & H6).
    rewrite H1. cbn [negb andb]. apply wp_ret. rewrite Nat.sub_0_r in *.
    split; [lia|]. split; [lia|]. cbn [Nat.eqb]. split; [done|]. split; [done|]. split; [done|].
    exists (m + S n)%nat.
    destruct (tracked_payload id [] T _ p (c_input s) m (S n) (tracked_at _ _ _ _ Hc (ih_matches _ _ _ Hp)) Hr ltac:(lia) ltac:(lia))
      as (M1 & (F1 & F2 & _) & _ & M3). rewrite Hs in M3.
    split.
    + apply (common_payload (fun _ => true) p s'); try done; [apply Hp|lia|by rewrite Hsin; lia| |].
      * split_and!; simpl; try done. by rewrite Hsin. apply Hc'.
      * eapply (written_silent s'); [by eapply common_written|done|done|]. rewrite M3. simpl. by rewrite app_nil_r.
    + destruct Hp as [P1 P2 P3 P4 P5 P6 P7 P8]. destruct B as (B1 & B2 & B3 & B4 & B5 & B6).
      split; simpl; rewrite ?Hsk, ?Hrs, ?B6, ?B5, ?F2; try done; [|by apply M1].
      rewrite M3, P4. simpl. exists (before_blank x).
      assert (Htk : take (S n) (c_input s) = take (S n) x) by (rewrite Hx, take_take; f_equal; lia).
      rewrite Htk. split; [done|]. intros i. rewrite H6. rewrite elem_of_app. split; [intros [?|?]; auto|auto].
  - destruct H as [H1 ->]. wp_step. eapply wp_mono.
    { apply AbortResponseHeaders_wp; [|unfold WasResponseSubmitted; by rewrite H1].
      split; [apply Hc'|]. split; [by eapply written_prefix|]. left. rewrite Hsk, Hrs.
      split; [unfold WasResponseSubmitted; by rewrite H1|]. split; apply Hp. }
    intros ? s2 Hd. apply wp_ret. wp_step. wp_step. cbn [Nat.eqb]. destruct Hd as (Hd1 & Hd2 & Hd3).
    rewrite Hd1. cbn [negb]. apply wp_ret. split; [lia|]. split; [lia|]. done.
Qed.

Lemma body_payload p s m x : common p s m -> in_body ir p s m ->
  (0 < remaining p)%nat -> c_input s <> [] -> x = take (remaining p) (c_input s) -> dm_stderr (at_ m) = false ->
  wp (Client_OnFramePayload x) (payload_post p (c_input s)) s.
Proof.
  intros Hc Hp Hr Hne Hx Hs.
  pose proof (cm_stderr _ _ _ Hc) as Hse. rewrite Hs in Hse.
  pose proof (ib_submitted _ _ _ _ Hp) as Hsub. pose proof Hsub as Hsub2. unfold WasResponseSubmitted in Hsub2.
  apply andb_true_iff in Hsub2 as [Hrec%negb_true_iff Hnb%negb_true_iff].
  assert (Hlx : length x = (remaining p `min` length (c_input s))%nat) by (rewrite Hx; apply length_take).
  assert (Hlen : (0 < length (c_input s))%nat) by (destruct (c_input s); simpl; [done|lia]).
  assert (Hxne : x <> []) by (intros E; rewrite E in Hlx; simpl in Hlx; lia).
  destruct (core_abortable ir p s) as (B1 & B2 & B3); [exists m; split; [done|by right; left]|].
  assert (Hab : abortable s) by done.
  unfold Client_OnFramePayload, get_response. wp_step. wp_step. rewrite Hsub, Hse. cbn [negb andb].
  destruct ((0 <=? available (c_response s)) && (available (c_response s) <? Z.of_nat (length x))) eqn:Eex.
  { wp_step. eapply wp_mono; [by apply AbortResponseBody_wp|]. intros ? s2 Hd. apply wp_ret.
    split; [lia|]. split; [lia|]. done. }
  assert (Hfit : available (c_response s) < 0 \/ Z.of_nat (length x) <= available (c_response s)).
  { apply andb_false_iff in Eex as [E|E]; simpl_bool; [left|right]; lia. }
  destruct (ib_response _ _ _ _ Hp) as (st & h & text & n & P5 & P6 & P7 & Hav).
  unfold Client_Feed. wp_step. wp_step. wp_step. rewrite Hse, Hrec. wp_step.
  wp_step; [by rewrite Hnb|]. wp_step. wp_step.
  { apply orb_true_iff. destruct Hfit; [left; by apply Z.ltb_lt|right; by apply Z.leb_le]. }
  wp_step. unfold Client_InvokeData. wp_step. wp_step. wp_step.
  destruct (Invoke_spec x (c_sink s) B1 Hxne) as (k & sk & Ei & Hk & Hout & Hlife).
  eapply wp_opt; [exact Ei|]. cbn [fst snd]. unfold c_alive at 1. simpl c_sink.
  destruct (alive sk) eqn:Ealive.
  - (* the handler has consumed [k] bytes *)
    clear Hlife. wp_step. wp_step. apply wp_ret.
    set (s1 := set_sink sk s).
    set (a' := if 0 <=? available (c_response s) then available (c_response s) - Z.of_nat k else available (c_response s)).
    apply wp_bind. apply (wp_mono _ (fun _ s2 => s2 = set_response (set_available a' (c_response s)) s1)).
    { assert (Hself : a' = available (c_response s) -> s1 = set_response (set_available a' (c_response s)) s1).
      { intros ->. unfold s1. by destruct s as [? ? ? ? ? []]. }
      unfold a' in *. destruct (Nat.ltb_spec 0 k) as [Hk0|Hk0]; cbn [andb].
      - destruct (Z.leb_spec 0 (available (c_response s))) as [Ha|Ha].
        + wp_step. wp_step; [apply Z.leb_le; lia|]. unfold response_mod. by wp_step.
        + apply wp_ret. by apply Hself.
      - apply wp_ret. apply Hself. case_match; [|done]. lia. }
    intros ? s2 ->. apply wp_ret. wp_step. wp_step.
    destruct (tracked_payload id [] T _ p (c_input s) m k (tracked_at _ _ _ _ Hc (ib_matches _ _ _ _ Hp)) Hr ltac:(lia) ltac:(lia))
      as (M1 & (F1 & F2 & _) & _ & M3). rewrite Hs in M3.
    assert (Hav' : available_ok n a' (length (k_output sk)) (m + k) (end_request (c_response s))).
    { destruct Hav as [A1 A2 A3 A4]. rewrite Hout, length_app, length_take.
      assert (Hol : length (out (m + k)) = (length (out m) + k)%nat).
      { rewrite (M3 false). simpl. rewrite length_app, length_take. lia. }
      unfold a'. split; rewrite ?F2.
      - destruct (Z.leb_spec 0 (available (c_response s))); intros Hneg; [lia|]. by apply A1.
      - destruct (Z.leb_spec 0 (available (c_response s))); intros Hpos; [|lia].
        destruct (A2 ltac:(lia)) as [[A5 A6]|(A5 & A6 & A7)]; [left; lia|right]. rewrite Hol. split_and!; [done|done|lia].
      - intros He. specialize (A3 He). rewrite A3 in *. simpl in *. lia.
      - done. }
    assert (Hbody : in_body ir (mkFcgiParser (remaining p - k) (skip p) true)
      (set_input (drop k (c_input s)) (set_response (set_available a' (c_response s)) s1)) (m + k)).
    { destruct Hp as [P1 P2 P3 P4 _]. split; try done; [by apply M1|].
      exists st, h, text, n. split_and!; try done. simpl.
      rewrite (M3 false), P7, Hout. simpl. rewrite <- app_assoc. do 2 f_equal.
      rewrite Hx, take_take. f_equal. lia. }
    assert (Hcom : common (mkFcgiParser (remaining p - k) (skip p) true)
      (set_input (drop k (c_input s)) (set_response (set_available a' (c_response s)) s1)) (m + k)).
    { apply (common_payload (fun _ => true) p s); try done; [apply Hp|lia|lia|].
      eapply (written_silent s); [by eapply common_written|done|done|]. rewrite (M3 true). simpl. by rewrite app_nil_r. }
    destruct (Nat.eqb_spec k 0) as [->|Hk0].
    + change (c_alive (set_response (set_available a' (c_response s)) s1)) with (alive sk). rewrite Ealive. cbn [negb].
      wp_step. wp_step; [done|]. apply wp_ret. split; [lia|]. split; [lia|]. cbn [Nat.eqb]. split; [|done].
      exists m. rewrite Nat.add_0_r in *. split.
      * destruct Hc as [C1 C2 C3 C4 C5 C6 C7 C8 C9]. by split.
      * right. left. destruct Hbody as [Q1 Q2 Q3 Q4 Q5]. split; try done. apply Hp.
    + cbn [andb]. apply wp_ret. split; [lia|]. split; [lia|].
      rewrite (proj2 (Nat.eqb_neq k 0)) by done. split; [done|]. split; [done|]. split; [|simpl; congruence].
      exists (m + k)%nat. split; [done|]. right. by left.
  - (* the handler has closed the istream *)
    destruct Hlife as [?|[-> Hclosed]]; [done|]. rewrite take_0, app_nil_r in Hout.
    apply wp_bind. set (s1 := set_sink sk s).
    apply (wp_mono _ (fun _ s2 => destroyed Chunked.Closed s s2)).
    { wp_step. wp_step. change (IsReleased s1) with (IsReleased s). destruct (IsReleased s) eqn:E.
      - apply wp_ret. by repeat split.
      - unfold Release. wp_step. wp_step. wp_step. wp_step; [by apply negb_true_iff|]. wp_step. by repeat split. }
    intros ? s2 Hd. apply wp_ret. wp_step. cbn [andb Nat.ltb Nat.leb]. wp_step. apply wp_ret. wp_step. wp_step.
    destruct (abort_outcome Chunked.Closed s s2 Hab ltac:(done) ltac:(done) Hd) as [Hdead _]. cbn [Nat.eqb].
    destruct Hdead as (Hd1 & Hd2 & Hd3). rewrite Hd1. cbn [negb]. apply wp_ret.
    split; [lia|]. split; [lia|]. done.
Qed.

Lemma feed_payload_inv p src s : feed_inv p src s -> in_frame p = true -> (0 < remaining p)%nat -> src <> [] ->
  wp (Client_OnFramePayload (take (remaining p) src)) (payload_post p src) s.
Proof.
  intros (<- & (m & Hc & Hp) & Hat) Hf Hr Hne. set (x := take (remaining p) (c_input s)).
  destruct (dm_stderr (at_ m)) eqn:Hs.
  - pose proof (cm_stderr _ _ _ Hc) as Hse. rewrite Hs in Hse.
    assert (Hlx : length x = (remaining p `min` length (c_input s))%nat) by apply length_take.
    assert (Hlen : (0 < length (c_input s))%nat) by (destruct (c_input s); simpl; [done|lia]).
    pose proof (stderr_payload p s m x Hc Hp Hat Hr eq_refl Hs) as Hfin.
    unfold Client_OnFramePayload, get_response. wp_step. wp_step. rewrite Hse. rewrite !andb_false_r. cbn [andb].
    unfold Client_Feed. wp_step. wp_step. wp_step. rewrite Hse. wp_step.
    apply (wp_mono _ (fun _ s' => c_input s' = c_input s /\ c_released s' = c_released s /\ c_response s' = c_response s /\
      c_sink s' = c_sink s /\ c_results s' = c_results s /\
      c_stderr s' = c_stderr s ++ drop (c_skip_stderr s) x /\ c_skip_stderr s' = (c_skip_stderr s - length x)%nat)).
    { destruct (Nat.ltb_spec (c_skip_stderr s) (length x)) as [Hl|Hl].
      - wp_step. wp_step. unfold HandleStderrPayload. wp_step. simpl. split_and!; try done. lia.
      - wp_step. simpl. rewrite (drop_ge x) by done. rewrite app_nil_r. done. }
    intros ? s' (E1 & E2 & E3 & E4 & E5 & E6 & E7). apply wp_ret. wp_step. wp_step.
    rewrite (proj2 (Nat.eqb_neq (length x) 0)) by lia. rewrite E3, andb_negb_r. apply wp_ret.
    split; [lia|]. split; [lia|]. rewrite (proj2 (Nat.eqb_neq (length x) 0)) by lia. split; [done|]. by apply Hfin.
  - destruct Hp as [[Hp Hir]|[Hp|Hp]].
    + eapply headers_payload; try done. apply Hat, Hp.
    + by eapply body_payload.
    + destruct (nb_matches _ _ _ Hp) as (_ & Hm & _). specialize (Hm Hr). simpl in Hm. congruence.
Qed.

Lemma client_feed_spec : FeedSpec (client_handler id) feed_inv feed_post.
Proof.
  split.
  - intros p src s HI Hf Hr Hne. eapply wp_mono; [by apply feed_payload_inv|]. intros [result consumed] s' (H1 & H2 & H3).
    split; [done|]. split; [done|]. destruct (Nat.eqb_spec consumed 0) as [->|Hc].
    + destruct result; try done. destruct H3 as [H3 H4]. split; [done|]. by rewrite H4.
    + destruct H3 as [H3 H4]. apply DisposeConsumed_wp; [by rewrite H3|]. rewrite H3. destruct result; try done.
      split; [done|]. intros _ Hne'. destruct H4 as (H5 & H6 & _). split; [done|]. by rewrite H5.
  - intros p src s HI H. by eapply feed_more.
  - intros p src s n HI Hf Hr Hn Hl. by apply feed_skip_inv.
  - intros src s HI. eapply wp_mono; [by apply feed_end_inv|]. intros [] s'; done.
  - intros src s HI Hl. eapply wp_mono; [by apply feed_header_inv|]. intros ? s' H. cbv beta in H.
    eapply wp_mono; [exact H|]. intros [] s2; done.
Qed.

End Received.
End Feed.
