(* ===== verification/FcgiClientBuckets.v ===== *)
(** * FastCGI: the response body as buckets

    [_FillBucketList()] and [_ConsumeBucketList()] keep the invariant of the client: what they show
    and consume is what the machine that reads single bytes emits. *)

From Stdlib Require Import String.
From S2P Require Import Prelude CharUtil Bucket GrowingBufferFacts Chunked Sink StrMap Uri HttpCacheRFC HttpHeaders HttpHeadersFacts.
From S2P Require Import Fcgi FcgiParserFacts FcgiClient FcgiClientFacts FcgiClientFeed.

#[local] Open Scope beng_scope.

Lemma extends_SetMore b b' x : extends b b' x -> extends b (SetMore b') x.
Proof. intros (k & E1 & E2 & E3 & E4). by exists k. Qed.

Section Buckets.
Context `{CU : CharUtil} `{UL : UriLib} `{HS : HashSetOrder} `{TO : TrieOrder} `{HL : HttpLib} `{NL : HeaderLib}.
Context (http_status_is_empty : HttpStatus -> bool) (id : Z).

Section Received.
Context (T : list Z).
Hypothesis Hexcess : dm_excess (dm_run id Demux_new T) = false.

Abbreviation dead_ := (dead http_status_is_empty id T).
Abbreviation common_ := (common id T).
Abbreviation body_ := (in_body http_status_is_empty id T).
Abbreviation at_ m := (after id [] T m).
Abbreviation out m := (emitted id [] T false m).
Abbreviation err m := (emitted id [] T true m).
Abbreviation all_out := (dm_out id false Demux_new T).
Abbreviation all_err := (dm_out id true Demux_new T).
Abbreviation rest_out m := (dm_out id false (at_ m) (drop m T)).
Abbreviation rest_err m := (dm_out id true (at_ m) (drop m T)).

Lemma tail_no_excess m : dm_excess (dm_run id Demux_new (take m T ++ drop m T)) = false.
Proof. by rewrite take_drop. Qed.

(** The machine at the beginning of the buffer. *)
Lemma at_add m k : (m + k <= length T)%nat -> at_ (m + k) = after id (take m T) (drop m T) k.
Proof. intros H. unfold after. simpl. by rewrite <- dm_run_app, take_take_drop. Qed.

Lemma emitted_from want m k :
  emitted id [] T want (m + k) = emitted id [] T want m ++ emitted id (take m T) (drop m T) want k.
Proof. by rewrite (emitted_add id [] T want m k). Qed.

Lemma all_from want m : dm_out id want Demux_new T = emitted id [] T want m ++ dm_out id want (at_ m) (drop m T).
Proof. exact (dm_out_split id want Demux_new m T). Qed.

Lemma ended_all m : dm_ended (dm_run id (at_ m) (drop m T)) = dm_ended (dm_run id Demux_new T).
Proof. f_equal. symmetry. exact (dm_run_split id Demux_new m T). Qed.

Lemma ended_nothing want m : dm_ended (at_ m) = true -> dm_out id want (at_ m) (drop m T) = [].
Proof.
  intros H. destruct (dm_out_ended id want (drop m T) (at_ m)) as [E _]; [done| |done].
  unfold after in *. by apply dm_ended_remaining.
Qed.

(** The end of the response body. *)
Lemma AtEof_wp ir p s m : c_alive s = true -> c_stderr s `prefix_of` all_err -> body_ ir p s m ->
  available (c_response s) = 0 -> dm_ended (dm_run id Demux_new T) = true ->
  wp (DestroyClient AtEof) (fun _ s' => dead_ s') s.
Proof.
  intros Ha Hw Hb Hz He. destruct (ib_response _ _ _ _ _ _ _ Hb) as (st & h & text & n & P5 & P6 & P7 & [A1 A2 A3 A4]).
  eapply wp_mono; [by apply DestroyClient_wp|]. intros ? s' Hd.
  destruct (destroyed_dead _ _ _ Hd) as [Hx Hr]; [done|]. split; [done|]. split; [done|].
  destruct Hd as (D1 & D2 & D3 & D4 & _). split; [by rewrite D1|]. right. left.
  exists st, h. rewrite D2. split; [done|]. exists text, n. rewrite D3, D4. split; [done|].
  rewrite <- P7. split; [apply out_prefix|]. intros _. split; [done|]. rewrite Hz in A2.
  destruct A2 as [[A5 A6]|(A5 & A6 & A7)]; [done|split; lia|]. split; [lia|]. intros _.
  assert (Hp : out m `prefix_of` all_out) by apply out_prefix. destruct Hp as [k Hk].
  rewrite Hk in *. rewrite length_app in A7. destruct k; [by rewrite app_nil_r|simpl in A7; lia].
Qed.

(** *** [_FillBucketList()] *)

(** The client after everything in the buffer was shown. *)
Record filled (s : FcgiClient) (m : nat) : Prop := {
  fl_common : common_ (c_parser s) s m;
  fl_body : body_ false (c_parser s) s m;
  fl_ok : parser_ok (c_parser s);
  fl_skip : c_skip_stderr s = length (rest_err m);
  fl_bound : 0 <= available (c_response s) -> Z.of_nat (length (rest_out m)) <= available (c_response s);
  fl_known : dm_ended (dm_run id Demux_new T) = true -> available (c_response s) = Z.of_nat (length (rest_out m)) }.

Lemma body_end_request ir p s m : body_ ir p s m -> end_request (c_response s) = true -> dm_ended (at_ m) = true.
Proof. intros Hb. by destruct (ib_response _ _ _ _ _ _ _ Hb) as (st & h & text & n & _ & _ & _ & [_ _ _ A4]). Qed.

Lemma fill_start s m l : common_ (c_parser s) s m -> body_ false (c_parser s) s m ->
  fill_inv id (take m T) (drop m T) s l (c_parser s) (c_input s)
    (mkFill s l (available (c_response s)) 0 (c_skip_stderr s) (stderr (c_response s)) (end_request (c_response s))
       false DESTROY None).
Proof.
  intros Hc Hb. split; [|done|done]. exists 0%nat.
  change (after id (take m T) (drop m T) 0) with (at_ m).
  assert (Hf : found_at id (take m T) (drop m T) s 0 = end_request (c_response s)).
  { unfold found_at. change (after id (take m T) (drop m T) 0) with (at_ m).
    change (dm_run id Demux_new (take m T)) with (at_ m). by rewrite andb_negb_r, orb_false_r. }
  rewrite Hf. change (emitted id (take m T) (drop m T) ?w 0) with (@nil Z). cbn.
  split_and!; try done.
  - split; [apply Hc|lia|apply Hb].
  - apply Hc.
  - by rewrite Nat.sub_0_r.
  - apply extends_refl.
  - unfold filled_client, after_stderr. rewrite andb_negb_r. simpl. rewrite drop_nil, app_nil_r. simpl.
    rewrite Nat.add_0_r. by destruct s.
  - lia.
  - congruence.
Qed.

Lemma after_stderr_prefix s m e : common_ (c_parser s) s m -> e `prefix_of` rest_err m ->
  c_stderr s ++ drop (c_skip_stderr s) e `prefix_of` all_err.
Proof.
  intros Hc [R HR]. rewrite (cm_written _ _ _ _ _ Hc), (all_from true m), take_app_add.
  rewrite <- app_assoc. apply prefix_app. rewrite HR.
  destruct (Nat.le_gt_cases (length e) (c_skip_stderr s)) as [Hl|Hl].
  - rewrite (drop_ge e), app_nil_r by done. apply prefix_take.
  - rewrite take_app_le, take_drop by lia. by eexists.
Qed.

Lemma filled_client_same s found e total : let s' := filled_client s found e total in
  c_input s' = c_input s /\ c_released s' = c_released s /\ c_sink s' = c_sink s /\ c_results s' = c_results s /\
  c_parser s' = c_parser s /\ c_stderr s' = c_stderr s ++ drop (c_skip_stderr s) e /\
  c_skip_stderr s' = (c_skip_stderr s + length (drop (c_skip_stderr s) e))%nat /\
  c_response s' = set_available (if found && negb (end_request (c_response s)) && (available (c_response s) <? 0)
                                 then Z.of_nat total else available (c_response s)) (c_response s).
Proof. unfold filled_client. case_match; simpl; split_and!; try done. by destruct (c_response s). Qed.

Lemma fill_filled s m l f : common_ (c_parser s) s m -> body_ false (c_parser s) s m -> parser_ok (c_parser s) ->
  fill_done id (take m T) (drop m T) s l f ->
  filled (if fb_release_socket f && negb (IsReleased (fb_client f)) then set_released (Some (fb_put_action f)) (fb_client f)
          else fb_client f) m.
Proof.
  intros Hc Hb Hok [F1 F2 F3 F4 F5 F6].
  change (dm_run id Demux_new (take m T)) with (at_ m) in *. rewrite (ended_all m) in F3. rewrite take_drop in F6.
  match goal with |- filled ?x m => set (s2 := x) end.
  destruct (filled_client_same s (fb_found_end_request f) (rest_err m) (length (rest_out m)))
    as (G1 & G2 & G3 & G4 & G5 & G6 & G7 & G8). rewrite <- F2 in *.
  assert (H2 : c_input s2 = c_input s /\ c_sink s2 = c_sink s /\ c_results s2 = c_results s /\ c_parser s2 = c_parser s /\
    c_stderr s2 = c_stderr (fb_client f) /\ c_skip_stderr s2 = c_skip_stderr (fb_client f) /\
    c_response s2 = c_response (fb_client f)) by (rewrite <- G1, <- G3, <- G4, <- G5; unfold s2; by destruct (fb_release_socket f && negb (IsReleased (fb_client f)))).
  destruct H2 as (K1 & K2 & K3 & K4 & K5 & K6 & K7). rewrite G6 in K5. rewrite G7 in K6. rewrite G8 in K7.
  assert (Hrel : IsReleased s2 = true -> IsReleased s = true \/ fb_release_socket f = true).
  { unfold s2. destruct (fb_release_socket f && _) eqn:Er; [apply andb_true_iff in Er as [Er _]; by right|].
    unfold IsReleased. rewrite G2. by left. }
  match type of K7 with _ = set_available ?x _ => set (a := x) in * end.
  pose proof (cm_skip _ _ _ _ _ Hc) as Hsk. rewrite (all_from true m), length_app in Hsk.
  assert (Hskip : c_skip_stderr s2 = length (rest_err m)) by (rewrite K6, length_drop; lia).
  assert (Hnf : dm_ended (at_ m) = true -> fb_found_end_request f = end_request (c_response s)).
  { intros E. by rewrite F3, E, andb_false_r, orb_false_r. }
  destruct (ib_response _ _ _ _ _ _ _ Hb) as (st & h & text & n & P5 & P6 & P7 & [A1 A2 A3 A4]).
  assert (Hao : a = available (c_response s) \/
    (end_request (c_response s) = false /\ available (c_response s) < 0 /\ dm_ended (dm_run id Demux_new T) = true /\
     dm_ended (at_ m) = false /\ a = Z.of_nat (length (rest_out m)))).
  { unfold a. destruct (fb_found_end_request f) eqn:Ef, (end_request (c_response s)) eqn:Ee; simpl; try (by left).
    destruct (Z.ltb_spec (available (c_response s)) 0); [right|by left]. symmetry in F3. simpl in F3.
    apply andb_true_iff in F3 as [F3 F3']. by apply negb_true_iff in F3'. }
  split; rewrite ?K4; [| |done|done| |].
  - destruct Hc as [C1 C2 C3 C4 C5 C6 C7 C8 C9].
    split; rewrite ?K1, ?K7; try done.
    + unfold c_alive. by rewrite K2.
    + rewrite Hskip, (all_from true m), length_app. lia.
    + rewrite Hskip, K5, C6, (all_from true m), !take_app_add, (take_ge (rest_err m) (length (rest_err m))) by done.
      by rewrite <- app_assoc, take_drop.
    + intros Hr. destruct (Hrel Hr) as [Hx|Hx]; [by apply C7|]. by apply F6.
    + intros Hr He. simpl. destruct (Hrel Hr) as [Hx|Hx]; [by apply C8|]. rewrite <- Hnf by done. by apply F6.
    + intros Hr Hcm. simpl in *. apply C9; [|done]. destruct Hr as [Hr|Hr]; [by left|].
      destruct (Hrel Hr) as [Hx|Hx]; [by right|left]. rewrite <- Hnf; [by apply F6|]. by apply complete_ended in Hcm.
  - destruct Hb as [P1 P2 P3 P4 _]. split; rewrite ?K7; try done. exists st, h, text, n. rewrite K2, K3.
    split_and!; try done. simpl. destruct Hao as [->|(B1 & B2 & B3 & B4 & ->)]; [by split|].
    destruct (A1 B2) as [Hn _]. split; [lia| |congruence|congruence]. intros _. right. split; [done|]. split; [done|].
    rewrite (all_from false m), length_app. lia.
  - rewrite K7. simpl. destruct Hao as [->|(B1 & B2 & B3 & B4 & ->)]; [done|lia].
  - rewrite K7. simpl. intros He. destruct Hao as [Ha|(B1 & B2 & B3 & B4 & ->)]; [|done].
    destruct (dm_ended (at_ m)) eqn:Em; [by rewrite Ha, A3, ended_nothing|].
    rewrite Ha. rewrite He in F3. simpl in F3. rewrite orb_true_r in F3.
    assert (Ee : end_request (c_response s) = false) by (destruct (end_request _); [by specialize (A4 eq_refl)|done]).
    destruct (Z.lt_ge_cases (available (c_response s)) 0) as [Hneg|Hpos].
    + unfold a in Ha. rewrite F3, Ee, (proj2 (Z.ltb_lt _ 0)) in Ha by done. simpl in Ha. lia.
    + symmetry. by apply F5.
Qed.

Definition fill_result (m : nat) (s : FcgiClient) (r : IstreamBucketList + exception_ptr) (s' : FcgiClient) : Prop :=
  match r with
  | inr _ => dead_ s'
  | inl l =>
      (l = IstreamBucketList_new /\ s' = s /\ available (c_response s) = 0 /\ IsReleased s = true) \/
      (filled s' m /\ extends IstreamBucketList_new l (rest_out m) /\ (more l = false -> IsReleased s' = true))
  end.

Lemma Client_FillBucketList_wp s m : common_ (c_parser s) s m -> body_ false (c_parser s) s m -> parser_ok (c_parser s) ->
  wp (Client_FillBucketList id IstreamBucketList_new) (fill_result m s) s.
Proof.
  intros Hc Hb Hok. unfold Client_FillBucketList. wp_step. wp_step. wp_step. wp_step; [apply Hb|].
  destruct ((available (c_response s) =? 0) && IsReleased s) eqn:E0.
  { apply andb_true_iff in E0 as [E0%Z.eqb_eq E1]. apply wp_ret. by left. }
  pose proof (fill_start s m IstreamBucketList_new Hc Hb) as HI.
  pose proof (fill_spec id (take m T) (drop m T) (tail_no_excess m) s IstreamBucketList_new (body_end_request _ _ _ _ Hb)) as HF.
  destruct (Feed_wp _ _ _ HF _ _ _ HI Hok) as ([r p] & f & E & [HQ _]).
  rewrite E. clear E HI HF E0. wp_step. wp_step. unfold fill_post in HQ. destruct (fb_error f) as [ep|].
  - destruct HQ as (found & e & total & Ef & He). wp_step.
    destruct (filled_client_same s found e total) as (G1 & G2 & G3 & G4 & G5 & G6 & G7 & G8). rewrite <- Ef in *.
    assert (Hab : abortable http_status_is_empty id T (fb_client f)).
    { split; [unfold c_alive; rewrite G3; apply Hc|]. split.
      - rewrite G6. by eapply after_stderr_prefix.
      - right. rewrite G3, G4, G8. split; [apply Hb|].
        destruct (ib_response _ _ _ _ _ _ _ Hb) as (st & h & text & n & P5 & P6 & P7 & _).
        exists st, h, text, n. rewrite <- P7. split_and!; [done|done|apply out_prefix]. }
    eapply wp_mono; [apply DestroyClient_wp, Hab|]. intros ? s' Hd. apply wp_ret.
    by eapply (abort_outcome _ _ _ Chunked.Closed (fb_client f)).
  - pose proof (fill_filled s m _ f Hc Hb Hok HQ) as Hfl. wp_step. wp_step. wp_step.
    apply (wp_mono _ (fun _ s' => s' = if fb_release_socket f && negb (IsReleased (fb_client f)) then
      set_released (Some (fb_put_action f)) (fb_client f) else fb_client f)).
    { destruct (fb_release_socket f && negb (IsReleased (fb_client f))) eqn:Er; [|by apply wp_ret].
      apply andb_true_iff in Er as [_ Er]. unfold Release. wp_step. wp_step. wp_step. wp_step; [done|]. by wp_step. }
    intros ? s' Hs. rewrite <- Hs in Hfl. clear Hs. wp_step. wp_step. apply wp_ret. right. split; [done|].
    destruct (IsReleased s') eqn:Er; (split; [|done]); [apply HQ|apply extends_SetMore, HQ].
Qed.

(** *** [_ConsumeBucketList()] *)

(** The consumer of the buckets has got [x]. *)
Definition deliver (x : list Z) (s : FcgiClient) : FcgiClient :=
  set_sink (mkSink (k_life (c_sink s)) (k_handler (c_sink s)) (k_output (c_sink s) ++ x)) s.

Record consumed_ok (s : FcgiClient) (m k : nat) (s' : FcgiClient) : Prop := {
  co_alive : c_alive s' = true;
  co_stderr : c_stderr s' = c_stderr s;
  co_released : IsReleased s' = IsReleased s;
  co_ok : parser_ok (c_parser s');
  co_known : dm_ended (dm_run id Demux_new T) = true ->
    available (c_response s') = Z.of_nat (length (rest_out m)) - Z.of_nat k;
  co_end : end_request (c_response s') = true -> IsReleased s = true /\ k = length (rest_out m);
  co_body : exists m', body_ false (c_parser s') (deliver (take k (rest_out m)) s') (m + m') /\
    (end_request (c_response s') = false -> common_ (c_parser s') (deliver (take k (rest_out m)) s') (m + m')) }.

Lemma Client_ConsumeBucketList_wp s m k : filled s m -> (0 < k <= length (rest_out m))%nat ->
  wp (Client_ConsumeBucketList id k) (fun r s' => r = (k, end_request (c_response s')) /\ consumed_ok s m k s') s.
Proof.
  intros [Hc Hb Hok Hskip Hbound Hknown] Hk.
  destruct (ib_response _ _ _ _ _ _ _ Hb) as (st & h & text & n & P5 & P6 & P7 & [A1 A2 A3 A4]).
  assert (Hd0 : dm_ended (at_ m) = false).
  { destruct (dm_ended (at_ m)) eqn:E; [|done]. rewrite ended_nothing in Hk by done. simpl in Hk. lia. }
  assert (Hend : end_request (c_response s) = false).
  { destruct (end_request _); [|done]. rewrite A4 in Hd0; done. }
  assert (Hknown' : dm_ended (dm_run id (dm_run id Demux_new (take m T)) (drop m T)) = true ->
    available (c_response s) = Z.of_nat (length (rest_out m))).
  { intros He. apply Hknown. by rewrite <- (ended_all m). }
  unfold Client_ConsumeBucketList. wp_step. wp_step. wp_step.
  wp_step. { apply negb_true_iff, Z.eqb_neq. intros E. rewrite E in Hbound. lia. }
  wp_step. wp_step; [apply Hb|].
  pose proof (consume_spec id (take m T) (drop m T) (tail_no_excess m) s k
    (proj2 Hk) Hskip Hbound Hknown') as HF.
  assert (HI : consume_inv id (take m T) (drop m T) s k (c_parser s) (c_input s) (mkConsume s k 0)).
  { split; [|simpl; lia]. exists 0%nat. rewrite consumed_client_0; try done; [|apply Hc..].
    split; [|done]. split; [apply Hc|lia|apply Hb]. }
  destruct (Feed_wp _ _ _ HF _ _ _ HI Hok) as ([r p] & f & E & [[(src & [(m' & Ht & E1 & E2) E3]) E4] Hp]).
  rewrite E. clear E HI HF. simpl in Hp. wp_step. wp_step. unfold AfterConsumed, get_response. wp_step. apply wp_ret.
  wp_step. wp_step. wp_step. wp_step; [by rewrite E4, orb_true_r|].
  assert (Ek : cb_total f = k) by lia. rewrite Ek in *. apply wp_ret. rewrite E1. clear E1 E3 E4. split; [done|].
  destruct Ht as [_ Hl Hm]. rewrite length_drop in Hl. pose proof (cm_length _ _ _ _ _ Hc) as Hlm.
  assert (Hat : at_ (m + m') = after id (take m T) (drop m T) m') by (apply at_add; lia).
  assert (Hpre : emitted id (take m T) (drop m T) false m' = take k (rest_out m)).
  { destruct (emitted_prefix id (take m T) (drop m T) false m') as [R HR].
    change (dm_run id Demux_new (take m T)) with (at_ m) in HR. by rewrite E2, HR, take_app_length. }
  assert (Hle : (length (take k (rest_out m)) = k)%nat) by (rewrite length_take; lia).
  assert (Hall : dm_ended (at_ (m + m')) = true -> dm_ended (dm_run id Demux_new T) = true /\ k = length (rest_out m)).
  { intros He. split; [exact (ended_input id [] T (m + m') He)|]. rewrite Hat in He. rewrite E2.
    by rewrite (ended_silent id (take m T) (drop m T) m' false He). }
  assert (Hk0 : 0 <= available (c_response s) -> available_after s (length (emitted id (take m T) (drop m T) false m')) =
    available (c_response s) - Z.of_nat k).
  { intros Ha. unfold available_after. by rewrite (proj2 (Z.leb_le _ _)), <- E2. }
  split; try done; [apply Hc|..].
  - intros He. simpl. rewrite Hk0 by (rewrite Hknown by done; lia). by rewrite Hknown.
  - simpl. intros [He1 He2]%andb_true_iff. split; [done|]. apply Hall. by rewrite Hat.
  - exists m'. split.
    + destruct Hb as [P1 P2 P3 P4 _]. split; try done; [by rewrite Hat|]. exists st, h, text, n. split; [done|]. split; [done|].
      split; [rewrite emitted_from, Hpre, P7; simpl; by rewrite app_assoc|]. simpl. rewrite length_app, Hle.
      assert (Hol : length (out (m + m')) = (length (out m) + k)%nat) by (rewrite emitted_from, length_app; lia).
      destruct (Z.lt_ge_cases (available (c_response s)) 0) as [Ha|Ha].
      * assert (Hne : dm_ended (at_ (m + m')) = false).
        { destruct (dm_ended (at_ (m + m'))) eqn:E; [|done]. destruct (Hall eq_refl) as [E5 _]. rewrite Hknown in Ha by done. lia. }
        unfold available_after. rewrite (proj2 (Z.leb_gt _ _)) by done.
        destruct (A1 Ha) as [Hn _].
        split; [done|lia|congruence|]. intros He. apply andb_true_iff in He as [_ He]. by rewrite <- Hat in He.
      * rewrite Hk0 by done. specialize (Hbound Ha). split; [lia| | |].
        -- intros _. destruct (A2 Ha) as [[A5 A6]|(A5 & A6 & A7)]; [left; lia|right]. rewrite Hol. split_and!; [done|done|lia].
        -- intros He. destruct (Hall He) as [E5 E6]. rewrite Hknown by done. lia.
        -- intros He. apply andb_true_iff in He as [_ He]. by rewrite Hat.
    + intros Hne. simpl in Hne.
      assert (Hen : (length (err (m + m')) + (length (rest_err m) - length (emitted id (take m T) (drop m T) true m')) =
        length (err m) + length (rest_err m))%nat).
      { rewrite emitted_from, length_app. pose proof (prefix_length _ _ (emitted_prefix id (take m T) (drop m T) true m')) as Hpl. unfold after in *. simpl in *. lia. }
      destruct Hc as [C1 C2 C3 C4 C5 C6 C7 C8 C9]. split; simpl; try done; rewrite ?Hat; try done.
      * by rewrite drop_drop.
      * lia.
      * change (dm_run id Demux_new (take m T)) with (at_ m). rewrite Hen, (all_from true m), length_app. lia.
      * change (dm_run id Demux_new (take m T)) with (at_ m). by rewrite Hen, C6, Hskip.
      * intros Hr He. change (IsReleased s = true) in Hr. by rewrite Hr, He in Hne.
      * intros [Hr|Hr] Hcm; [congruence|]. change (IsReleased s = true) in Hr. apply complete_ended in Hcm.
        change (dm_ended (at_ (m + m')) = true) in Hcm. rewrite Hat in Hcm. by rewrite Hr, Hcm in Hne.
Qed.

End Received.
End Buckets.
