(* ===== verification/FcgiClientRun.v ===== *)
(** * FastCGI: runs of the client

    The events that the client sees, and the theorem about all their sequences: whatever the order of
    received data, calls of the body's consumer and errors, no assertion fails, and what the handlers
    are told is made of the contents of the STDOUT and STDERR records. *)

From Stdlib Require Import String.
From S2P Require Import Prelude CharUtil Bucket GrowingBufferFacts Chunked Sink StrMap Uri UriInstance HttpCacheRFC HttpCacheRFCFacts HttpHeaders HttpHeadersFacts.
From S2P Require Import Fcgi FcgiParserFacts FcgiClient FcgiClientFacts FcgiClientFeed FcgiClientBuckets.

#[local] Open Scope beng_scope.

(** ** The events *)

(** What the request istream does. *)
Inductive request_event :=
  | RqData (answer : write_result) (src : list Z)
  | RqDirect (answer : write_from_result) (max_length : nat) (then_eof : bool)
  | RqEof
  | RqError (ep : exception_ptr).

Inductive event :=
  (** the socket has received data (or it calls again); what [InvokeReady()] will return *)
  | EvData (data : list Z) (ready : IstreamReadyResult)
  (** the consumer calls [Read()], which receives data *)
  | EvRead (data : list Z)
  (** the consumer calls [FillBucketList()] and consumes at most so many bytes *)
  | EvBuckets (n : nat)
  | EvClose
  | EvCancel
  | EvSocketClosed (ready : IstreamReadyResult)
  | EvTimeout
  | EvSocketError (ep : exception_ptr)
  | EvRequest (r : request_event)
  (** the socket may be written to; the request istream is read *)
  | EvWrite (r : option request_event).

Section Events.
Context `{CU : CharUtil} `{UL : UriLib} `{HS : HashSetOrder} `{TO : TrieOrder} `{HL : HttpLib} `{NL : HeaderLib}.
Context (http_status_is_empty : HttpStatus -> bool) (id : Z).

(** The consumer takes the data from the buckets; at the end it drops the istream. *)
Definition take_buckets (n : nat) : C unit :=
  let! r := Client_FillBucketList id IstreamBucketList_new in
  match r with
  | inr _ => mret tt
  | inl list =>
      let shown := concat (buckets list) in
      let k := Nat.min n (length shown) in
      let! (total, eof) := (if (k =? 0)%nat then mret (0%nat, false) else Client_ConsumeBucketList id k) in
      mmod (fun s => set_sink (mkSink (k_life (c_sink s)) (k_handler (c_sink s))
                                 (k_output (c_sink s) ++ take total shown)) s) ;;;
      if eof || IsDepleted (Z.of_nat k) list then DestroyClient AtEof else mret tt
  end.

Definition run_request (r : request_event) : C unit :=
  match r with
  | RqData answer src => let! _ := Client_OnData answer src in mret tt
  | RqDirect answer max_length then_eof => let! _ := Client_OnDirect answer max_length then_eof in mret tt
  | RqEof => Client_OnEof
  | RqError ep => Client_OnError ep
  end.

Definition run_event (e : event) : C unit :=
  match e with
  | EvData data ready =>
      mmod (fun s => set_input (c_input s ++ data) s) ;;;
      let! _ := lease_OnBufferedData http_status_is_empty id 2 ready in mret tt
  | EvRead data => Client_Read http_status_is_empty id data
  | EvBuckets n => take_buckets n
  | EvClose => Client_Close
  | EvCancel => Client_Cancel
  | EvSocketClosed ready => let! _ := lease_OnBufferedClosed http_status_is_empty id ready in mret tt
  | EvTimeout => let! _ := Client_OnBufferedTimeout in mret tt
  | EvSocketError ep => Client_OnBufferedError ep
  | EvRequest r => run_request r
  | EvWrite r => let! _ := Client_OnBufferedWrite (match r with Some r => run_request r | None => mret tt end) in mret tt
  end.

(** Who may call when.  Once the socket was released, it calls no more. *)
Definition legal (e : event) (s : FcgiClient) : Prop :=
  c_alive s = true /\
  match e with
  | EvData data ready => IsReleased s = false /\ c_input s ++ data <> []
  | EvRead _ | EvBuckets _ | EvClose => WasResponseSubmitted (c_response s) = true
  | EvCancel => WasResponseSubmitted (c_response s) = false
  | EvSocketClosed _ | EvTimeout | EvSocketError _ => IsReleased s = false
  | EvRequest _ => c_has_request s = true
  | EvWrite _ => c_has_request s = true /\ IsReleased s = false
  end.

(** The calls that come too late once the socket was released, because END_REQUEST is in the buffer: the request is
    cancelled, or its body has data or ends. *)
Definition late (e : event) (s : FcgiClient) : Prop :=
  IsReleased s = true /\
  match e with
  | EvCancel => True
  | EvRequest (RqError _) => False
  | EvRequest _ => True
  | _ => False
  end.

Definition received (e : event) (s : FcgiClient) : list Z :=
  match e with
  | EvData data _ => data
  | EvRead data => if IsReleased s then [] else data
  | _ => []
  end.

(** The states of a client after some events, and what it has received. *)
Inductive reachable : list Z -> FcgiClient -> Prop :=
  | R_start junk method_is_empty keeps h :
      reachable [] (FcgiClient_new junk method_is_empty keeps h)
  | R_step T s e s' : reachable T s -> legal e s -> run_event e s = Some (tt, s') ->
      reachable (T ++ received e s) s'.

End Events.

Section Run.
Context `{CU : CharUtil} `{UL : UriLib} `{HS : HashSetOrder} `{TO : TrieOrder} `{HL : HttpLib} `{NL : HeaderLib}.
Context `{HUL : !UriLaws}.
Context (http_status_is_empty : HttpStatus -> bool) (id : Z).

Section Received.
Context (T : list Z).
Hypothesis Hexcess : dm_excess (dm_run id Demux_new T) = false.

Abbreviation core_ := (core http_status_is_empty id T).
Abbreviation dead_ := (dead http_status_is_empty id T).
Abbreviation common_ := (common id T).
Abbreviation phase_ := (phase_ok http_status_is_empty id T).
Abbreviation at_ m := (after id [] T m).
Abbreviation out m := (emitted id [] T false m).
Abbreviation err m := (emitted id [] T true m).
Abbreviation all_out := (dm_out id false Demux_new T).
Abbreviation all_err := (dm_out id true Demux_new T).
Abbreviation rest_out m := (dm_out id false (at_ m) (drop m T)).

(** ** Consuming the input *)

Lemma SubmitResponse_wp s m : common_ (c_parser s) s m -> headers_done id T (c_parser s) s m -> parser_ok (c_parser s) ->
  wp (SubmitResponse http_status_is_empty) (fun r s' =>
    if r : bool then core_ false (c_parser s') s' /\ parser_ok (c_parser s') /\ receiving_headers (c_response s') = false /\
      c_input s' = c_input s /\ IsReleased s' = IsReleased s
    else dead_ s') s.
Proof.
  intros Hc [D1 D2 D3 D4 D5 D6 D7 D8 D9] Hok.
  unfold SubmitResponse, get_response, response_mod. wp_step. wp_step. wp_step. wp_step; [by rewrite D1|].
  set (h0 := headers (c_response s)) in *.
  destruct (StringMap_Remove status_header h0) as [h1 p1] eqn:E1. cbv beta iota.
  match goal with |- context [http_status_is_empty ?x] =>
    assert (Hst : x = status_of h0) by (unfold status_of; by rewrite E1); rewrite Hst; clear Hst
  end.
  set (st := status_of h0). wp_step. wp_step. cbn [set_headers].
  set (r1 := set_headers h1 (c_response s)). wp_step.
  apply (wp_mono _ (fun _ s1 => s1 = set_response (if http_status_is_empty st then set_no_body true (status r1) r1 else r1) s)).
  { destruct (http_status_is_empty st); by wp_step. }
  intros ? s1 ->. wp_step. wp_step. destruct (no_body _) eqn:Enb.
  - (* no response body *)
    wp_step. wp_step. wp_step. wp_step. apply wp_ret. simpl. split; [|split; [|split; [by case_match|done]]].
    2: { intros Hf. simpl in *. destruct (Hok Hf). lia. }
    exists m. split.
    + destruct Hc as [C1 C2 C3 C4 C5 C6 C7 C8 C9]. split; simpl; try done; [by case_match..|].
      intros Hr Hcm. exfalso. by apply (not_complete id T m).
    + right. right. split; simpl; try done; [by case_match| |intros He; case_match; simpl in He; congruence|].
      * apply (matches_skipped (fun _ => true)); [done|done|]. by rewrite <- (cm_stderr _ _ _ _ _ Hc), D5.
      * exists (out m). split; [|done]. exists h0. split; [done|]. split; [done|]. rewrite E1. by case_match.
  - (* the response has a body *)
    assert (Hemp : http_status_is_empty st = false) by (by destruct (http_status_is_empty st)).
    rewrite Hemp in *. cbn [c_response set_response r1 set_headers headers].
    destruct (StringMap_Remove content_length_header h1) as [h2 p2] eqn:E2.
    wp_step. wp_step. wp_step. unfold InvokeResult. wp_step. wp_step. wp_step.
    assert (Hresp : response_of http_status_is_empty (out m) st h2 (declared_length p2)).
    { exists h0. rewrite E1. simpl. by rewrite E2. }
    cbn [c_keeps add_result set_response]. destruct (c_keeps s).
    + wp_step. wp_step. apply wp_ret. split; [|done]. exists m. split.
      * destruct Hc as [C1 C2 C3 C4 C5 C6 C7 C8 C9]. by split.
      * right. left. split; simpl; try done.
        { unfold WasResponseSubmitted. simpl. rewrite D1. simpl in Enb. by rewrite Enb. }
        exists st, h2, (out m), (declared_length p2). rewrite D7, D8, app_nil_r. split_and!; try done.
        split; simpl; [intros; by split|intros; left; lia|congruence|congruence].
    + wp_step. eapply wp_mono; [apply (Client_Close_wp http_status_is_empty id T)|].
      * split; [apply Hc|]. split; [exact (written_prefix id T _ s m Hc)|]. right. simpl.
        split; [unfold WasResponseSubmitted; simpl; simpl in Enb; by rewrite D1, Enb|].
        exists st, h2, (out m), (declared_length p2). rewrite D7, D8, app_nil_r. split_and!; [done|done|apply out_prefix].
      * unfold WasResponseSubmitted. simpl. simpl in Enb. by rewrite D1, Enb.
      * intros ? s2 Hd. by apply wp_ret.
Qed.

(** What the socket's calls return. *)
Definition buffered_post (at0 ir : bool) (r : BufferedResult) (s : FcgiClient) : Prop :=
  match r with
  | BR_DESTROYED => dead_ s
  | _ => core_ ir (c_parser s) s /\ parser_ok (c_parser s) /\
      match r with
      | BR_OK => IsReleased s = true -> c_input s <> []
      | BR_MORE => IsReleased s = false
      | _ => at0 = true /\ receiving_headers (c_response s) = false /\ (IsReleased s = true -> c_input s <> [])
      end
  end.

Lemma ConsumeInput_wp ir s : core_ ir (c_parser s) s -> parser_ok (c_parser s) -> c_input s <> [] ->
  wp (ConsumeInput http_status_is_empty id (c_input s)) (buffered_post (receiving_headers (c_response s)) ir) s.
Proof.
  intros Hcore Hok Hne. unfold ConsumeInput. wp_step. wp_step; [by rewrite bool_decide_eq_false_2|]. wp_step. wp_step.
  wp_step. set (at0 := receiving_headers (c_response s)).
  eapply wp_mono; [eapply (Feed_wp _ _ _ (client_feed_spec http_status_is_empty id T Hexcess ir at0)); [|done]|].
  { split; [done|]. by split. }
  intros [result parser] s' [HQ Hp]. simpl in HQ, Hp.
  assert (Hset : core_ ir parser s' -> core_ ir parser (set_parser parser s')).
  { intros (m & [C1 C2 C3 C4 C5 C6 C7 C8 C9] & Hph). exists m. split; [by split|].
    destruct Hph as [[[P1 P2 P3 P4 P5 P6 P7 P8] Hir]|[[P1 P2 P3 P4 P5]|[P1 P2 P3 P4 P5 P6 P7]]];
      [left; split; [by split|done]|right; left; by split|right; right; by split]. }
  wp_step. destruct result; simpl in HQ.
  - done.
  - wp_step. wp_step. unfold AfterConsumed. apply wp_ret. apply wp_ret. split; [apply Hset, HQ|]. split; [done|]. intros _. apply HQ.
  - wp_step. wp_step. unfold AfterConsumed. apply wp_ret. apply wp_ret. split; [apply Hset, HQ|]. split; [done|]. apply HQ.
  - wp_step. wp_step. unfold AfterConsumed. apply wp_ret. destruct HQ as (Hat & Hir & m & Hc & Hd).
    unfold get_response. wp_step. wp_step. rewrite Hat. simpl. rewrite (hd_receiving _ _ _ _ _ Hd). simpl.
    set (s1 := set_parser parser s').
    assert (Hne1 : IsReleased s' = true -> c_input s' <> []).
    { intros Hr E. pose proof (cm_complete _ _ _ _ _ Hc Hr) as Hcm.
      apply (not_complete id T m); [apply Hd|]. rewrite take_ge; [done|].
      pose proof (f_equal length (cm_input _ _ _ _ _ Hc)) as Hi. rewrite E, length_drop in Hi. simpl in Hi. lia. }
    wp_step. eapply wp_mono; [apply (SubmitResponse_wp s1 m)|].
    + destruct Hc as [C1 C2 C3 C4 C5 C6 C7 C8 C9]. by split.
    + destruct Hd as [D1 D2 D3 D4 D5 D6 D7 D8 D9]. by split.
    + done.
    + intros [|] s2 Hs; apply wp_ret; [|done]. destruct Hs as (H1 & H2 & H3 & H4 & H5). rewrite Hir.
      split; [done|]. split; [done|]. split; [done|]. split; [done|]. by rewrite H4, H5.
  - apply wp_ret. by apply wp_ret.
Qed.

(** ** Events of the socket *)

(** The machine at the beginning of the buffer. *)
Lemma at_buffer m : after id [] T m = dm_run id Demux_new (take m T).
Proof. done. Qed.

Lemma AnalyseBuffer_wp ir s m : common_ (c_parser s) s m -> phase_ ir (c_parser s) s m -> parser_ok (c_parser s) ->
  wp (AnalyseBuffer id (c_input s)) (fun a s' => s' = s /\
    ((0 < end_request_offset a)%nat -> complete id T /\ dm_ended (at_ m) = false) /\
    (in_body http_status_is_empty id T ir (c_parser s) s m -> total_stdout a = length (dm_out id false (at_ m) (c_input s)))) s.
Proof.
  intros Hc Hp Hok. destruct (phase_matches _ _ _ _ _ _ _ Hp) as (acc & Ha & Hm).
  pose proof (cm_stderr _ _ _ _ _ Hc) as Hs. rewrite (cm_input _ _ _ _ _ Hc).
  pose proof (tail_no_excess id T Hexcess m) as Hx. unfold AnalyseBuffer. wp_step. wp_step.
  set (p0 := if stderr (c_response s) then SkipCurrent (c_parser s) else c_parser s).
  assert (Hok0 : parser_ok p0).
  { unfold p0. destruct (stderr (c_response s)); [|done]. intros Hf. simpl in *. destruct (Hok Hf). lia. }
  assert (Hrun : forall exact, (exact = true -> forall b, acc b = true) ->
    wp (Feed (analysis_handler id) p0 (drop m T)) (fun _ a => analysis_post id (take m T) (drop m T) exact a) (mkAnalysis 0 0 0 false)).
  { intros exact Hex. eapply wp_mono; [eapply (Feed_wp _ _ _ (analysis_spec id (take m T) (drop m T) Hx exact)); [|done]|].
    - split; simpl; try done.
      + exists (fun b => negb b && acc b). split; [|split; [done|intros He; simpl; by apply Hex]].
        split; [done|lia|]. change (after id (take m T) (drop m T) 0) with (at_ m). unfold p0. rewrite Hs.
        destruct (dm_stderr (at_ m)) eqn:Ed.
        * apply (matches_skipped acc); [done|by rewrite Ed|by rewrite Ed].
        * destruct (acc false) eqn:Ef; [apply (matches_weaken acc); rewrite ?Ed; try done; by rewrite Ef|].
          destruct Hm as (M1 & M2 & M3). split; [done|]. split; [intros Hr; specialize (M2 Hr); congruence|].
          rewrite Ed in *. destruct M3 as [M3|M3]; [by left|right]. split_and!; apply M3.
      + change (after id (take m T) (drop m T) 0) with (at_ m). rewrite <- at_buffer. by destruct (dm_ended (at_ m)).
    - intros r a [H _]. exact H. }
  destruct (Hrun false ltac:(done)) as (r & a & E & [Hpc _]).
  rewrite E. destruct r as [r p1]. apply wp_ret. split; [done|]. split.
  - intros Hpos. destruct (Hpc Hpos) as (H1 & H2 & _). rewrite take_drop in H1. by split.
  - intros Hb. pose proof (ib_matches _ _ _ _ _ _ _ Hb) as Hmb.
    assert (Hrun2 : wp (Feed (analysis_handler id) p0 (drop m T)) (fun _ a => analysis_post id (take m T) (drop m T) true a) (mkAnalysis 0 0 0 false)).
    { eapply wp_mono; [eapply (Feed_wp _ _ _ (analysis_spec id (take m T) (drop m T) Hx true)); [|done]|intros ? ? [H _]; exact H].
      split; simpl; try done.
      - exists negb. split; [|done]. split; [done|lia|]. change (after id (take m T) (drop m T) 0) with (at_ m). unfold p0. rewrite Hs.
        destruct (dm_stderr (at_ m)) eqn:Ed; [by apply (matches_skipped (fun _ => true)); rewrite ?Ed|
          by apply (matches_weaken (fun _ => true)); rewrite ?Ed].
      - change (after id (take m T) (drop m T) 0) with (at_ m). rewrite <- at_buffer. by destruct (dm_ended (at_ m)). }
    destruct Hrun2 as (r2 & a2 & E2 & [_ Hst]). rewrite E in E2. injection E2 as <- <-. by apply Hst.
Qed.

Lemma Client_OnBufferedData_wp ir ready s : core_ ir (c_parser s) s -> parser_ok (c_parser s) -> c_input s <> [] ->
  wp (Client_OnBufferedData http_status_is_empty id ready) (buffered_post (receiving_headers (c_response s)) ir) s.
Proof.
  intros Hcore Hok Hne. unfold Client_OnBufferedData, get_response, ReadBuffer. wp_step. wp_step.
  match goal with |- wp (if _ then match _ with READY_OK => _ | READY_FALLBACK => ?c | READY_CLOSED => _ end else _) ?Q _ =>
    assert (Hconsume : wp c Q s) end.
  { wp_step. wp_step. wp_step. wp_step; [by rewrite bool_decide_eq_false_2|]. wp_step. wp_step. wp_step.
    apply (wp_mono _ (fun _ s1 => core_ ir (c_parser s1) s1 /\ parser_ok (c_parser s1) /\ c_input s1 = c_input s /\
      c_response s1 = c_response s)).
    - destruct (IsReleased s) eqn:Er; [by apply wp_ret|].
      destruct Hcore as (m & Hc & Hp). wp_step. eapply wp_mono; [by apply (AnalyseBuffer_wp ir s m)|].
      intros a s1 (-> & Ha & _). destruct ((0 <? end_request_offset a)%nat && _) eqn:Eo.
      2: { apply wp_ret. split; [by exists m|done]. }
      apply andb_true_iff in Eo as [Eo _]. apply Nat.ltb_lt in Eo. destruct (Ha Eo) as [Hcm Hen].
      unfold Release. wp_step. wp_step. wp_step. wp_step; [by rewrite Er|]. wp_step. split; [|done].
      exists m. split.
      + destruct Hc as [C1 C2 C3 C4 C5 C6 C7 C8 C9]. split; simpl; try done; [congruence|].
        intros _ Hx. exfalso. by apply (not_complete id T m).
      + destruct Hp as [[[P1 P2 P3 P4 P5 P6 P7 P8] Hir]|[[P1 P2 P3 P4 P5]|[P1 P2 P3 P4 P5 P6 P7]]];
          [left; split; [by split|done]|right; left; by split|right; right; by split].
    - intros ? s1 (H1 & H2 & H3 & H4). rewrite <- H3, <- H4. apply ConsumeInput_wp; [done|done|by rewrite H3]. }
  destruct (WasResponseSubmitted (c_response s) && negb (in_read (c_response s))) eqn:Ew; [|exact Hconsume].
  apply andb_true_iff in Ew as [Ew _]. destruct ready; [by apply wp_ret|exact Hconsume|].
  wp_step. eapply wp_mono; [apply (Client_Close_wp http_status_is_empty id T); [by eapply core_abortable|done]|].
  intros ? s1 Hd. by apply wp_ret.
Qed.

Definition settled (ir : bool) (s : FcgiClient) : Prop :=
  (c_alive s = true -> core_ ir (c_parser s) s /\ parser_ok (c_parser s)) /\ (c_alive s = false -> dead_ s).

Lemma core_settled ir s : core_ ir (c_parser s) s -> parser_ok (c_parser s) -> settled ir s.
Proof. intros H1 H2. split; [done|]. intros Ha. destruct H1 as (m & Hc & _). rewrite (cm_alive _ _ _ _ _ Hc) in Ha. done. Qed.

Lemma dead_settled ir s : dead_ s -> settled ir s.
Proof. intros H. split; [|done]. intros Ha. destruct H as [H _]. congruence. Qed.

Lemma lease_OnBufferedData_wp ir ready s : core_ ir (c_parser s) s -> parser_ok (c_parser s) -> c_input s <> [] ->
  wp (lease_OnBufferedData http_status_is_empty id 2 ready) (fun _ s' => settled ir s') s.
Proof.
  intros Hcore Hok Hne.
  assert (Hone : forall fuel s, core_ ir (c_parser s) s -> parser_ok (c_parser s) -> c_input s <> [] ->
    (receiving_headers (c_response s) = true -> forall s2, core_ ir (c_parser s2) s2 -> parser_ok (c_parser s2) ->
       c_input s2 <> [] -> receiving_headers (c_response s2) = false ->
       wp (lease_OnBufferedData http_status_is_empty id fuel ready) (fun _ s' => settled ir s') s2) ->
    wp (lease_OnBufferedData http_status_is_empty id (S fuel) ready) (fun _ s' => settled ir s') s).
  { clear s Hcore Hok Hne. intros fuel s Hcore Hok Hne Hnext. cbn [lease_OnBufferedData]. wp_step.
    eapply wp_mono; [by apply (Client_OnBufferedData_wp ir)|]. intros result s1 H1. wp_step. wp_step.
    destruct result; simpl in H1.
    - destruct H1 as (H1 & H2 & H3). destruct (IsReleased s1) eqn:Er; cbn [negb]; [|apply wp_ret; by apply core_settled].
      unfold IsReleasedEmpty. rewrite bool_decide_eq_false_2 by auto. apply wp_ret. by apply core_settled.
    - destruct H1 as (H1 & H2 & H3). rewrite H3. apply wp_ret. by apply core_settled.
    - destruct H1 as (H1 & H2 & H3 & H4 & H5).
      destruct (IsReleased s1) eqn:Er; cbn [negb andb]; [|apply wp_ret; by apply core_settled]. apply Hnext; auto.
    - wp_step. wp_step; [apply H1|]. apply wp_ret. by apply dead_settled. }
  apply Hone; try done. intros _ s2 H1 H2 H3 H4. apply Hone; try done. congruence.
Qed.

Lemma ReadReleased_wp ir ready s : core_ ir (c_parser s) s -> parser_ok (c_parser s) ->
  wp (ReadReleased http_status_is_empty id ready) (fun _ s' => settled ir s') s.
Proof.
  intros Hcore Hok. unfold ReadReleased. wp_step. wp_step. destruct (Nat.eqb_spec (length (c_input s)) 0) as [E|E].
  { apply wp_ret. by apply core_settled. }
  wp_step. eapply wp_mono; [apply (Client_OnBufferedData_wp ir); [done|done|by destruct (c_input s)]|].
  intros result s1 H1. wp_step. wp_step. unfold IsReleasedEmpty. destruct result; simpl in H1.
  - destruct H1 as (H1 & H2 & H3). case_bool_decide as Hi; [|apply wp_ret; by apply core_settled].
    unfold lease_end, Client_OnBufferedEnd, Client_OnBufferedError. wp_step. wp_step. wp_step. wp_step.
    eapply wp_mono; [apply (AbortResponse_wp http_status_is_empty id T); by eapply core_abortable|].
    intros ? s2 Hd. apply wp_ret. cbn [negb]. apply wp_ret. by apply dead_settled.
  - destruct H1 as (H1 & H2 & H3). case_bool_decide as Hi; [|apply wp_ret; by apply core_settled].
    unfold Client_OnBufferedError. wp_step.
    eapply wp_mono; [apply (AbortResponse_wp http_status_is_empty id T); by eapply core_abortable|].
    intros ? s2 Hd. apply wp_ret. by apply dead_settled.
  - destruct H1 as (H1 & H2 & H3). apply wp_ret. by apply core_settled.
  - apply wp_ret. by apply dead_settled.
Qed.

Lemma core_submitted s : core_ false (c_parser s) s -> WasResponseSubmitted (c_response s) = true ->
  exists m, common_ (c_parser s) s m /\ in_body http_status_is_empty id T false (c_parser s) s m.
Proof.
  intros (m & Hc & Hp) Hw. exists m. split; [done|]. unfold WasResponseSubmitted in Hw. destruct Hp as [[Hp _]|[Hp|Hp]]; [|done|].
  - by rewrite (ih_receiving _ _ _ _ _ Hp) in Hw.
  - by rewrite (nb_no_body _ _ _ _ _ Hp), andb_false_r in Hw.
Qed.

(** *** [_GetAvailable()] *)

(** [a] bytes of the body are missing. *)
Definition left_of_body (a : Z) (s : FcgiClient) : Prop :=
  exists st h text n, c_results s = [HttpResponse st h true] /\ response_of http_status_is_empty text st h n /\
  let sent := Z.of_nat (length (k_output (c_sink s))) in
  (0 <= n /\ sent + a = n) \/
  (n < 0 /\ dm_ended (dm_run id Demux_new T) = true /\ Z.of_nat (length text) + sent + a = Z.of_nat (length all_out)).

Lemma Client_GetAvailable_wp s : core_ false (c_parser s) s -> parser_ok (c_parser s) ->
  WasResponseSubmitted (c_response s) = true ->
  wp (Client_GetAvailable id false) (fun a s' => s' = s /\ (0 <= a -> left_of_body a s)) s.
Proof.
  intros Hcore Hok Hw. destruct (core_submitted s Hcore Hw) as (m & Hc & Hb).
  destruct (ib_response _ _ _ _ _ _ _ Hb) as (st & h & text & n & P5 & P6 & P7 & [A1 A2 A3 A4]).
  unfold Client_GetAvailable. wp_step. wp_step. destruct (Z.leb_spec 0 (available (c_response s))) as [Ha|Ha].
  - apply wp_ret. split; [done|]. intros _. exists st, h, text, n. split; [done|]. split; [done|]. simpl.
    destruct (A2 Ha) as [[A5 A6]|(A5 & A6 & A7)]; [left; lia|right]. split; [done|]. split; [done|].
    rewrite P7, length_app in A7. lia.
  - cbn [andb]. destruct (_ <? _)%nat; [|apply wp_ret; split; [done|lia]]. wp_step.
    eapply wp_mono; [apply (AnalyseBuffer_wp false s m); [done|by right; left|done]|]. intros a s' (-> & H1 & H2). rewrite orb_false_r.
    destruct (Nat.ltb_spec 0 (end_request_offset a)) as [Ho|Ho]; apply wp_ret; (split; [done|]); [|lia]. intros _.
    destruct (H1 Ho) as [Hcm _]. destruct (A1 Ha) as [Hn _]. exists st, h, text, n. split; [done|]. split; [done|]. right.
    split; [done|]. split; [by apply complete_ended|]. rewrite (H2 Hb), (cm_input _ _ _ _ _ Hc).
    rewrite (all_from id T false m), P7, !length_app. lia.
Qed.

(** *** [_Read()] *)

Lemma core_in_read s : core_ false (c_parser s) s -> WasResponseSubmitted (c_response s) = true ->
  in_read (c_response s) = false /\ in_handler (c_response s) = false /\
  core_ true (c_parser s) (set_response (set_in_read true (c_response s)) s).
Proof.
  intros (m & Hc & Hp) Hw. destruct Hp as [[Hp _]|[[P1 P2 P3 P4 P5]|Hp]].
  - unfold WasResponseSubmitted in Hw. by rewrite (ih_receiving _ _ _ _ _ Hp) in Hw.
  - split; [done|]. split; [done|]. exists m. split; [destruct Hc; by split|]. right. left. by split.
  - unfold WasResponseSubmitted in Hw. by rewrite (nb_no_body _ _ _ _ _ Hp), andb_false_r in Hw.
Qed.

Lemma core_read_done s : core_ true (c_parser s) s -> core_ false (c_parser s) (set_response (set_in_read false (c_response s)) s).
Proof.
  intros (m & Hc & Hp). exists m. split; [destruct Hc; by split|].
  destruct Hp as [[_ Hp]|[[P1 P2 P3 P4 P5]|[P1 P2 P3 P4 P5 P6 P7]]]; [done|right; left; by split|right; right; by split].
Qed.

Lemma Client_Read_wp data s :
  core_ false (c_parser s) (if IsReleased s then s else set_input (c_input s ++ data) s) -> parser_ok (c_parser s) ->
  WasResponseSubmitted (c_response s) = true ->
  wp (Client_Read http_status_is_empty id data) (fun _ s' => settled false s') s.
Proof.
  intros Hcore Hok Hw. set (s1 := if IsReleased s then _ else _) in Hcore.
  assert (Hs1 : c_parser s1 = c_parser s /\ c_response s1 = c_response s) by (unfold s1; by destruct (IsReleased s)).
  destruct Hs1 as [Hs1 Hs2]. rewrite <- Hs1 in Hcore.
  destruct (core_in_read s1 Hcore) as (H1 & H2 & H3); [by rewrite Hs2|]. rewrite Hs2 in *.
  unfold Client_Read, response_mod. wp_step. wp_step. wp_step. wp_step; [done|]. wp_step. wp_step; [by rewrite H1|].
  rewrite H2. wp_step. wp_step. wp_step.
  assert (Hread : wp (if IsReleased s then let! _ := ReadReleased http_status_is_empty id READY_FALLBACK in mret tt
     else
       mmod (fun s => set_input (c_input s ++ data) s) ;;;
       let! s := mget in
       if bool_decide (c_input s = []) then mret tt
       else let! _ := lease_OnBufferedData http_status_is_empty id 2 READY_FALLBACK in mret tt)
     (fun _ s' => settled true s') (set_response (set_in_read true (c_response s)) s)).
  { unfold s1 in H3. destruct (IsReleased s).
    - wp_step. eapply wp_mono; [by apply (ReadReleased_wp true)|]. intros ? s' Hd. by apply wp_ret.
    - wp_step. wp_step. wp_step. wp_step. case_bool_decide as Hi; [apply wp_ret; by apply core_settled|].
      wp_step. eapply wp_mono; [by apply (lease_OnBufferedData_wp true)|]. intros ? s' Hd. by apply wp_ret. }
  eapply wp_mono; [exact Hread|]. intros ? s' [Ha Hd]. wp_step. wp_step. destruct (c_alive s') eqn:E.
  - destruct (Ha eq_refl) as [G1 G2]. wp_step. by apply core_settled; [exact (core_read_done s' G1)|].
  - apply wp_ret. apply dead_settled. by apply Hd.
Qed.

(** *** The buckets *)

Lemma shown_take (l : IstreamBucketList) O k : extends IstreamBucketList_new l O -> (k <= length (concat (buckets l)))%nat ->
  (k <= length O)%nat /\ take k (concat (buckets l)) = take k O /\
  (more l = false -> length (concat (buckets l)) = length O).
Proof.
  intros (j & E1 & E2 & _ & _) Hk. change (bytes l) with (concat (buckets l)) in E1. rewrite E1 in *. simpl in *.
  rewrite length_take in Hk. split; [lia|]. split; [rewrite take_take; f_equal; lia|].
  intros Hm. destruct (E2 Hm). rewrite length_take. lia.
Qed.

(** What the consumer of the buckets has after it has taken [k] bytes of them. *)
Definition taken (s1 : FcgiClient) (m k : nat) (r : nat * bool) (s2 : FcgiClient) : Prop :=
  r.1 = k /\ c_alive s2 = true /\ c_stderr s2 `prefix_of` all_err /\ parser_ok (c_parser s2) /\
  (dm_ended (dm_run id Demux_new T) = true -> available (c_response s2) = Z.of_nat (length (rest_out m)) - Z.of_nat k) /\
  (r.2 = true -> complete id T /\ k = length (rest_out m)) /\
  (IsReleased s1 = true -> complete id T) /\
  exists m2, in_body http_status_is_empty id T false (c_parser s2) (deliver (take k (rest_out m)) s2) m2 /\
    (r.2 = false -> common_ (c_parser s2) (deliver (take k (rest_out m)) s2) m2).

Lemma take_consume s m k : filled http_status_is_empty id T s m -> (k <= length (rest_out m))%nat ->
  wp (if (k =? 0)%nat then mret (0%nat, false) else Client_ConsumeBucketList id k) (taken s m k) s.
Proof.
  intros Hf Hk. destruct (Nat.eqb_spec k 0) as [->|Hne].
  - apply wp_ret. destruct Hf as [F1 F2 F3 F4 F5 F6].
    assert (Hd : deliver (take 0 (rest_out m)) s = s).
    { unfold deliver. rewrite take_0, app_nil_r. by destruct s as [? ? ? ? ? ? ? ? []]. }
    split; [done|]. split; [apply F1|]. split; [by eapply written_prefix|]. split; [done|].
    split; [intros He; rewrite F6 by done; lia|]. split; [done|]. split; [apply F1|]. exists m. by rewrite Hd.
  - eapply wp_mono; [apply (Client_ConsumeBucketList_wp http_status_is_empty id T Hexcess s m k); [done|lia]|].
    intros r s2 [-> [O1 O2 O3 O4 O5 O6 (m' & O7 & O8)]]. destruct Hf as [F1 F2 F3 F4 F5 F6].
    split; [done|]. split; [done|]. split; [rewrite O2; by eapply written_prefix|]. split; [done|]. split; [done|].
    split; [intros [? ?]%O6; split; [by apply F1|done]|]. split; [apply F1|]. by exists (m + m')%nat.
Qed.

Lemma take_buckets_wp n s : core_ false (c_parser s) s -> parser_ok (c_parser s) ->
  WasResponseSubmitted (c_response s) = true -> wp (take_buckets id n) (fun _ s' => settled false s') s.
Proof.
  intros Hcore Hok Hw. destruct (core_submitted s Hcore Hw) as (m & Hc & Hb). unfold take_buckets. wp_step.
  eapply wp_mono; [by apply (Client_FillBucketList_wp http_status_is_empty id T Hexcess s m)|]. intros [l|ep] s1 HF.
  2: { apply wp_ret. by apply dead_settled. }
  destruct HF as [(-> & -> & Hz & Hr)|(Hf & Hl & Hmore)].
  - cbn [buckets IstreamBucketList_new concat length]. rewrite Nat.min_0_r. wp_step. apply wp_ret. wp_step. wp_step.
    cbn -[DestroyClient]. rewrite app_nil_r.
    eapply wp_mono; [apply (AtEof_wp http_status_is_empty id T false (c_parser s) _ m)|].
    + apply Hc.
    + exact (written_prefix id T _ s m Hc).
    + destruct Hb as [P1 P2 P3 P4 P5]. by split.
    + done.
    + apply (complete_ended id), (cm_complete _ _ _ _ _ Hc Hr).
    + intros ? s' Hd. by apply dead_settled.
  - pose proof (Nat.le_min_r n (length (concat (buckets l)))) as Hk.
    set (k := Nat.min n (length (concat (buckets l)))) in *.
    destruct (shown_take l _ k Hl Hk) as (Hk1 & Hk2 & Hk3). wp_step.
    eapply wp_mono; [by apply (take_consume s1 m k)|]. intros [total eof] s2 (Et & T1 & T2 & T3 & T4 & T5 & T6 & m2 & T7 & T8).
    simpl in Et, T5, T8. subst total. cbv beta iota. wp_step. wp_step. rewrite Hk2.
    match goal with |- wp _ _ ?x => change x with (deliver (take k (rest_out m)) s2) end.
    destruct (eof || IsDepleted (Z.of_nat k) l) eqn:Eeof.
    + assert (Hend : complete id T /\ k = length (rest_out m)).
      { apply orb_true_iff in Eeof as [E|E]; [by apply T5|]. unfold IsDepleted in E.
        apply andb_true_iff in E as [E1%negb_true_iff E2%Z.eqb_eq]. rewrite <- bytes_size in E2. unfold bytes in E2.
        rewrite Hk3 in E2 by done. split; [|lia]. apply T6. by apply Hmore. }
      destruct Hend as [Hcm Hkk]. apply complete_ended in Hcm.
      eapply wp_mono; [apply (AtEof_wp http_status_is_empty id T false (c_parser s2) (deliver (take k (rest_out m)) s2) m2)|].
      * exact T1.
      * exact T2.
      * exact T7.
      * simpl. rewrite T4 by done. lia.
      * done.
      * intros ? s' Hd. by apply dead_settled.
    + apply wp_ret. apply orb_false_iff in Eeof as [Eeof _]. apply core_settled; [|done]. exists m2. split; [by apply T8|].
      right. by left.
Qed.

(** *** The other events *)

Lemma abort_settled ep s : core_ false (c_parser s) s -> wp (AbortResponse ep) (fun _ s' => settled false s') s.
Proof.
  intros Hc. eapply wp_mono; [by apply AbortResponse_wp, (core_abortable _ _ _ false (c_parser s))|].
  intros ? s' Hd. by apply dead_settled.
Qed.

Lemma core_request v g s : core_ false (c_parser s) s -> core_ false (c_parser s) (set_request v g s).
Proof.
  intros (m & Hc & Hp). exists m. split; [destruct Hc; by split|].
  destruct Hp as [[[P1 P2 P3 P4 P5 P6 P7 P8] Hir]|[[P1 P2 P3 P4 P5]|[P1 P2 P3 P4 P5 P6 P7]]];
    [left; split; [by split|done]|right; left; by split|right; right; by split].
Qed.

Lemma request_settled v g s : core_ false (c_parser s) s -> parser_ok (c_parser s) -> settled false (set_request v g s).
Proof. intros H1 H2. apply core_settled; [exact (core_request v g s H1)|done]. Qed.

Lemma lease_OnBufferedClosed_wp ready s : core_ false (c_parser s) s -> IsReleased s = false ->
  wp (lease_OnBufferedClosed http_status_is_empty id ready) (fun _ s' => settled false s') s.
Proof.
  intros Hc Hr. unfold lease_OnBufferedClosed, Client_OnBufferedClosed, Release, ReadReleased.
  wp_step. wp_step. wp_step. wp_step. wp_step. wp_step; [by rewrite Hr|]. wp_step. apply wp_ret. wp_step. wp_step.
  change (IsReleased (set_released (Some DESTROY) (set_input [] s))) with true. cbn [andb].
  wp_step. wp_step. wp_step. cbn [c_input set_released set_input length Nat.eqb]. apply wp_ret. wp_step. wp_step.
  change (IsReleasedEmpty (set_released (Some DESTROY) (set_input [] s))) with true. cbn [andb].
  unfold lease_end, Client_OnBufferedEnd, Client_OnBufferedError. wp_step. wp_step. wp_step. apply wp_ret. wp_step.
  eapply wp_mono; [apply (AbortResponse_wp http_status_is_empty id T), (core_abortable _ _ _ false (c_parser s) s Hc)|].
  intros ? s' Hd. apply wp_ret. apply wp_ret. apply wp_ret. by apply dead_settled.
Qed.

Lemma Client_Cancel_wp s : core_ false (c_parser s) s -> WasResponseSubmitted (c_response s) = false -> IsReleased s = false ->
  wp Client_Cancel (fun _ s' => settled false s') s.
Proof.
  intros Hc Hw Hr. unfold Client_Cancel. wp_step. wp_step. wp_step. wp_step; [by rewrite Hw|].
  wp_step. wp_step; [by rewrite Hr|]. pose proof (core_abortable _ _ _ _ _ _ Hc) as Hab.
  eapply wp_mono; [apply DestroyClient_wp, Hab|]. intros ? s' Hd. apply dead_settled.
  by eapply (abort_outcome _ _ _ Chunked.Closed s).
Qed.

Lemma Client_OnData_wp answer src s : core_ false (c_parser s) s -> parser_ok (c_parser s) ->
  c_has_request s = true -> IsReleased s = false ->
  wp (Client_OnData answer src) (fun _ s' => settled false s') s.
Proof.
  intros Hc Hok Hh Hr. unfold Client_OnData, set_got_data, IsConnected. wp_step. wp_step. wp_step. wp_step; [by rewrite Hr|].
  wp_step. wp_step; [done|]. wp_step. wp_step. destruct answer; [apply wp_ret; by apply request_settled..|].
  wp_step. eapply wp_mono; [apply abort_settled; exact (core_request _ _ _ Hc)|]. intros ? s' Hd. by apply wp_ret.
Qed.

Lemma Client_OnDirect_wp answer max_length then_eof s : core_ false (c_parser s) s -> parser_ok (c_parser s) ->
  IsReleased s = false -> wp (Client_OnDirect answer max_length then_eof) (fun _ s' => settled false s') s.
Proof.
  intros Hc Hok Hr. unfold Client_OnDirect, set_got_data, IsConnected. wp_step. wp_step. wp_step. wp_step; [by rewrite Hr|].
  wp_step. wp_step. set (s1 := set_request _ _ s).
  assert (Hc1 : core_ false (c_parser s1) s1) by exact (core_request _ _ _ Hc).
  destruct answer as [n| | | |eagain]; [|apply wp_ret; by apply core_settled..|].
  - case_match; [wp_step; wp_step|]; apply wp_ret; [by apply request_settled|by apply core_settled].
  - wp_step. destruct eagain; [wp_step|apply wp_ret]; apply wp_ret; [by apply request_settled|by apply core_settled].
Qed.

Lemma run_request_wp r s : core_ false (c_parser s) s -> parser_ok (c_parser s) -> c_has_request s = true ->
  (match r with RqError _ => True | _ => IsReleased s = false end) -> wp (run_request r) (fun _ s' => settled false s') s.
Proof.
  intros Hc Hok Hh Hr. destruct r; cbn [run_request].
  - wp_step. eapply wp_mono; [by apply Client_OnData_wp|]. intros ? s' Hd. by apply wp_ret.
  - wp_step. eapply wp_mono; [by apply Client_OnDirect_wp|]. intros ? s' Hd. by apply wp_ret.
  - unfold Client_OnEof, IsConnected. wp_step. wp_step. wp_step. wp_step; [done|]. wp_step. wp_step.
    eapply wp_assert; [|by apply request_settled]. change (negb (IsReleased s) = true). by rewrite Hr.
  - unfold Client_OnError. wp_step. wp_step. wp_step. wp_step; [done|]. wp_step. wp_step.
    apply abort_settled. exact (core_request _ _ _ Hc).
Qed.

(** The client has received [T], the last part with this event. *)
Lemma run_event_wp e s :
  core_ false (c_parser s) (set_input (c_input s ++ received e s) s) -> parser_ok (c_parser s) -> legal e s -> ~ late e s ->
  wp (run_event http_status_is_empty id e) (fun _ s' => settled false s') s.
Proof.
  intros Hcore Hok [Ha Hl] Hlate.
  assert (Hsame : received e s = [] -> core_ false (c_parser s) s).
  { intros E. rewrite E, app_nil_r in Hcore. by destruct s. }
  destruct e; cbn [run_event].
  - destruct Hl as [Hr Hne]. wp_step. wp_step. wp_step. eapply wp_mono; [by apply (lease_OnBufferedData_wp false)|].
    intros ? s' Hd. by apply wp_ret.
  - apply Client_Read_wp; [|done|done]. unfold received in *. destruct (IsReleased s) eqn:E; [by apply Hsame|done].
  - by apply take_buckets_wp; [apply Hsame|..].
  - eapply wp_mono; [apply (Client_Close_wp http_status_is_empty id T); [by eapply core_abortable, Hsame|done]|].
    intros ? s' Hd. by apply dead_settled.
  - assert (Hr : IsReleased s = false) by (apply not_true_is_false; intros Hr; by apply Hlate).
    by apply Client_Cancel_wp; [apply Hsame|..].
  - wp_step. eapply wp_mono; [by apply lease_OnBufferedClosed_wp; [apply Hsame|]|]. intros ? s' Hd. by apply wp_ret.
  - unfold Client_OnBufferedTimeout. wp_step. wp_step. eapply wp_mono; [by apply abort_settled, Hsame|].
    intros ? s' Hd. apply wp_ret. by apply wp_ret.
  - unfold Client_OnBufferedError. by apply abort_settled, Hsame.
  - apply run_request_wp; [by apply Hsame|done|done|].
    destruct r; try done; apply not_true_is_false; intros Hr; by apply Hlate.
  - destruct Hl as [Hh Hr]. wp_step. unfold Client_OnBufferedWrite, set_got_data. wp_step. wp_step. wp_step.
    assert (Hc : core_ false (c_parser s) (set_request (c_has_request s) false s)) by exact (core_request _ _ _ (Hsame eq_refl)).
    destruct r as [r|].
    + eapply wp_mono; [apply run_request_wp; [done|done|done|by destruct r]|]. intros ? s' Hd. wp_step. wp_step. apply wp_ret. by apply wp_ret.
    + apply wp_ret. wp_step. wp_step. apply wp_ret. apply wp_ret. by apply core_settled.
Qed.

End Received.

(** ** More data *)

Lemma after_extend T data m : (m <= length T)%nat -> after id [] (T ++ data) m = after id [] T m.
Proof. intros H. unfold after. by rewrite take_app_le. Qed.

Lemma emitted_extend T data want m : (m <= length T)%nat -> emitted id [] (T ++ data) want m = emitted id [] T want m.
Proof. intros H. unfold emitted. by rewrite take_app_le. Qed.

Lemma ended_out T data want : dm_ended (dm_run id Demux_new T) = true ->
  dm_out id want Demux_new (T ++ data) = dm_out id want Demux_new T.
Proof.
  intros He. rewrite dm_out_app. destruct (dm_out_ended id want data (dm_run id Demux_new T)) as [-> _]; [done| |by rewrite app_nil_r].
  by apply dm_ended_remaining.
Qed.

Lemma common_extend T data p s m : common id T p s m -> IsReleased s = false ->
  common id (T ++ data) p (set_input (c_input s ++ data) s) m.
Proof.
  intros [C1 C2 C3 C4 C5 C6 C7 C8 C9] Hr. pose proof (dm_out_app id true T Demux_new data) as Hall.
  split; simpl; rewrite ?emitted_extend, ?after_extend by done; try done.
  - by rewrite C2, drop_app_le.
  - rewrite length_app. lia.
  - rewrite Hall, length_app. lia.
  - rewrite Hall, take_app_le by lia. done.
  - intros Hx. change (IsReleased s = true) in Hx. congruence.
  - by rewrite take_app_le.
Qed.

Lemma phase_extend T data ir p s m : (m <= length T)%nat -> phase_ok http_status_is_empty id T ir p s m ->
  phase_ok http_status_is_empty id (T ++ data) ir p (set_input (c_input s ++ data) s) m.
Proof.
  intros Hm [[[P1 P2 P3 P4 P5 P6 P7 P8] Hir]|[[P1 P2 P3 P4 (st & h & text & n & P5 & P6 & P7 & [A1 A2 A3 A4])]|
    [P1 P2 P3 P4 P5 P6 P7]]]; [left; split; [|done]|right; left|right; right];
    split; simpl; rewrite ?emitted_extend, ?after_extend by done; try done.
  - intros i Hi. apply P8 in Hi. unfold payload_seen in *. simpl. destruct (stderr (c_response s)); [done|].
    eapply fields_prefix; [|exact Hi].
    assert (Hp : exists y, take (remaining p) (c_input s ++ data) = take (remaining p) (c_input s) ++ y)
      by (rewrite take_app; eauto). destruct Hp as [y ->]. apply before_blank_app.
  - exists st, h, text, n. split_and!; try done. split; rewrite ?after_extend, ?emitted_extend by done; try done.
    intros Ha. destruct (A2 Ha) as [H|(H1 & H2 & H3)]; [by left|right]. split; [done|].
    split; [rewrite dm_run_app; by apply dm_run_ended|]. by rewrite ended_out.
Qed.

Lemma core_extend T data ir p s : core http_status_is_empty id T ir p s -> (IsReleased s = true -> data = []) ->
  core http_status_is_empty id (T ++ data) ir p (set_input (c_input s ++ data) s).
Proof.
  intros (m & Hc & Hp) Hr. destruct (IsReleased s) eqn:E.
  - rewrite Hr by done. rewrite !app_nil_r. exists m. by destruct s.
  - exists m. split; [by apply common_extend|]. apply phase_extend; [apply Hc|done].
Qed.

(** ** All runs *)

Lemma settled_start junk method_is_empty keeps h :
  settled [] false (FcgiClient_new junk method_is_empty keeps h).
Proof.
  apply core_settled; [|done]. exists 0%nat. split.
  - split; try done. intros [Hx|Hx]; change (false = true) in Hx; discriminate.
  - left. split; [|done]. split; try done. apply matches_new.
Qed.

Lemma settled_step T e s : dm_excess (dm_run id Demux_new (T ++ received e s)) = false ->
  settled T false s -> legal e s -> ~ late e s ->
  wp (run_event http_status_is_empty id e) (fun _ s' => settled (T ++ received e s) false s') s.
Proof.
  intros Hx [Ha _] Hl Hlate. destruct (Ha (proj1 Hl)) as [Hcore Hok]. apply run_event_wp; [done| |done..].
  apply core_extend; [done|]. intros Hr. destruct e; try done; destruct Hl as [_ Hl]; simpl; [|by rewrite Hr].
  destruct Hl. congruence.
Qed.

Lemma settled_outcome T ir s : settled T ir s -> outcome_ok http_status_is_empty id T s.
Proof.
  intros [Ha Hd]. destruct (c_alive s) eqn:E; [|by apply Hd].
  destruct (Ha eq_refl) as [Hcore _]. apply core_abortable in Hcore as (_ & Hw & H). split; [done|].
  apply alive_true in E. destruct H as [(_ & Hk & Hr)|(_ & st & h & text & n & E1 & E2 & E3)].
  - left. split; [done|]. split; [by rewrite E|by left].
  - right. left. exists st, h. split; [done|]. exists text, n. split; [done|]. split; [done|]. by rewrite E.
Qed.

Lemma settled_alive T s : settled T false s -> c_alive s = true ->
  core http_status_is_empty id T false (c_parser s) s /\ parser_ok (c_parser s).
Proof. intros [H _]. exact H. Qed.

(** In the calls that come too late, an assertion fails. *)
Lemma late_fails e s : late e s -> run_event http_status_is_empty id e s = None.
Proof.
  intros [Hr He]. destruct e as [| | | | | | | |r|]; try done.
  - cbn [run_event]. unfold Client_Cancel, mbnd, mget, massert, mfail, mret. rewrite Hr. by destruct (negb _).
  - destruct r; try done; cbn [run_event run_request];
      unfold Client_OnData, Client_OnDirect, Client_OnEof, IsConnected, mbnd, mget, mput, massert, mfail, mret; cbn beta iota.
    + by rewrite Hr.
    + by rewrite Hr.
    + destruct (c_has_request s); [|done]. change (IsReleased (set_request false (c_got_data s) s)) with (IsReleased s).
      by rewrite Hr.
Qed.

Lemma reachable_settled T s : reachable http_status_is_empty id T s -> dm_excess (dm_run id Demux_new T) = false ->
  settled T false s.
Proof.
  induction 1 as [junk method_is_empty keeps h|T s e s' Hr IH Hl Hrun]; intros Hx; [apply settled_start|].
  assert (Hlate : ~ late e s) by (intros H; apply late_fails in H; congruence).
  destruct (settled_step T e s Hx (IH (no_excess_prefix _ _ _ _ Hx)) Hl Hlate) as (u & s2 & E & Hs).
  rewrite Hrun in E. by injection E as _ <-.
Qed.

(** C1: For every sequence of calls of the socket, of the consumer of the body and of the request, in any order and with
    any data in any pieces, as long as no record of the same request follows END_REQUEST ([dm_excess]): an event comes to
    its end, and no assertion of the client fails, unless it is one of the calls that come too late, in which an
    assertion does fail: cancelling, data or the end of the request body, after the
    socket was released because END_REQUEST is in the buffer.  The response handler is called at most once, with the
    header fields of a block at the beginning of the STDOUT contents; the body's consumer gets the STDOUT contents after
    this block, in order, each byte once; the body ends without error only after END_REQUEST, when
    the declared length or, without one, all of it was delivered; and what is written to
    stderr is the contents of the STDERR records, each byte at most once. *)
Theorem fcgi_client_correct T s : reachable http_status_is_empty id T s -> dm_excess (dm_run id Demux_new T) = false ->
  outcome_ok http_status_is_empty id T s /\
  forall e, legal e s -> dm_excess (dm_run id Demux_new (T ++ received e s)) = false ->
    (exists s', run_event http_status_is_empty id e s = Some (tt, s')) <-> ~ late e s.
Proof.
  intros Hr Hx. pose proof (reachable_settled T s Hr Hx) as Hs. split; [by eapply settled_outcome|].
  intros e Hl He. split; [intros [s' E] H; apply late_fails in H; congruence|].
  intros H. destruct (settled_step T e s He Hs Hl H) as ([] & s' & E & _). by exists s'.
Qed.

(** C38: As long as no record of the same request follows END_REQUEST: [GetAvailable(false)] of the response body
    returns without a failing assertion and changes nothing; and if it answers with a number, then this is exactly
    what is missing: to the declared length or, without one, to the end of the STDOUT contents, which has been
    received in this case. *)
Theorem fcgi_available_exact T s : reachable http_status_is_empty id T s -> dm_excess (dm_run id Demux_new T) = false ->
  c_alive s = true -> WasResponseSubmitted (c_response s) = true ->
  exists a, Client_GetAvailable id false s = Some (a, s) /\ (0 <= a -> left_of_body T a s).
Proof.
  intros Hr Hx Ha Hw. destruct (settled_alive T s (reachable_settled T s Hr Hx) Ha) as [Hc Hok].
  destruct (Client_GetAvailable_wp T Hx s Hc Hok Hw) as (a & s' & E & -> & H). by exists a.
Qed.

End Run.

(** ** Examples *)

#[local] Existing Instance AsciiChars.
#[local] Existing Instance HttpExamples.ConcreteHttpLib.
Import ListTrie.

Definition record_of (type : Z) (content : list Z) : list Z :=
  [1; type; 0; 1; 0; Z.of_nat (length content); 0; 0] ++ content.

Definition some_status_is_empty (s : HttpStatus) : bool := (s =? 204) || (s =? 304).

Definition some_start : FcgiClient :=
  FcgiClient_new (mkResponse [] 0 0 0 false false false false false false) false true [Accept 2; Accept 100].

Fixpoint run_events (es : list event) (s : FcgiClient) : option FcgiClient :=
  match es with
  | [] => Some s
  | e :: es =>
      match run_event some_status_is_empty 1 e s with
      | Some (_, s) => run_events es s
      | None => None
      end
  end.

Definition some_headers : list Z := str "Status: 201" ++ [13; 10] ++ str "Foo: bar" ++ [10; 10].
Definition some_stdout : list Z := record_of STDOUT (some_headers ++ str "Hello").
Definition some_stderr : list Z := record_of STDERR (str "oops").
Definition some_end : list Z := record_of END_REQUEST (repeat 0 8).

Example whole_response :
  option_map (fun s => (c_results s, k_output (c_sink s), k_life (c_sink s), c_stderr s, c_released s))
    (run_events [EvData (some_stdout ++ some_stderr ++ some_end) READY_OK; EvRead []; EvBuckets 100] some_start) =
  Some ([HttpResponse 201 [(str "foo", str "bar")] true], str "Hello", AtEof, str "oops", Some REUSE).
Proof. vm_compute. reflexivity. Qed.

Definition no_handler : FcgiClient :=
  FcgiClient_new (mkResponse [] 0 0 0 false false false false false false) false true [].

(** The lines of an incomplete header block are parsed again when more of the record arrives: here the
    second [Status] is left in the response. *)
Example duplicate_header :
  option_map c_results
    (run_events [EvData (take 25 some_stdout) READY_OK; EvData (drop 25 some_stdout) READY_OK] some_start) =
  Some [HttpResponse 201 [(str "foo", str "bar"); (str "status", str "201")] true].
Proof. vm_compute. reflexivity. Qed.

(** An incomplete header block, and END_REQUEST: the socket is released, so nothing calls the client any more; there is no
    response and no error. *)
Definition lost : list event := [EvData (record_of STDOUT (str "Foo: bar" ++ [10]) ++ some_end) READY_OK].

Example lost_response :
  option_map (fun s => (c_results s, c_alive s, c_released s)) (run_events lost some_start) = Some ([], true, Some REUSE).
Proof. vm_compute. reflexivity. Qed.

(** If only the header of END_REQUEST is in the buffer when buckets are consumed, then it is lost:
    [available] is zero, but the response does not end. *)
Example endless_response :
  option_map (fun s => (k_output (c_sink s), k_life (c_sink s), available (c_response s), end_request (c_response s), c_released s, c_input s))
    (run_events [EvData (some_stdout ++ take 10 some_end) READY_OK; EvBuckets 100; EvData (drop 10 some_end) READY_OK;
                 EvRead []; EvBuckets 100] no_handler) =
  Some (str "Hello", Alive, 0, false, None, []).
Proof. vm_compute. reflexivity. Qed.

(** The response has just been submitted. *)
Definition some_received : list Z := some_stdout ++ take 10 some_stderr.
Definition some_client : FcgiClient :=
  Eval vm_compute in match run_event some_status_is_empty 1 (EvData some_received READY_OK) some_start with
                     | Some (_, s) => s
                     | None => some_start
                     end.
Definition some_rest : event := EvData (drop 10 some_stderr ++ some_end) READY_FALLBACK.

Lemma some_reachable : reachable some_status_is_empty 1 some_received some_client.
Proof.
  apply (R_step _ _ [] some_start (EvData some_received READY_OK)); [apply R_start|..].
  - split; [vm_compute; reflexivity|split; [vm_compute; reflexivity|discriminate]].
  - vm_compute. reflexivity.
Qed.

Lemma fcgi_client_witness :
  (outcome_ok some_status_is_empty 1 some_received some_client /\
   exists s', run_event some_status_is_empty 1 some_rest some_client = Some (tt, s')) /\
  c_results some_client = [HttpResponse 201 [(str "foo", str "bar")] true].
Proof.
  split; [|vm_compute; reflexivity].
  destruct (fcgi_client_correct some_status_is_empty 1 some_received some_client some_reachable ltac:(vm_compute; reflexivity)) as [H1 H2].
  split; [exact H1|]. apply H2.
  - split; [vm_compute; reflexivity|split; [vm_compute; reflexivity|discriminate]].
  - vm_compute. reflexivity.
  - by intros [_ H].
Defined.

(** All of the response is received with END_REQUEST; the consumer has accepted two bytes of the body. *)
Definition all_received : list Z := some_stdout ++ some_stderr ++ some_end.
Definition waiting_client : FcgiClient :=
  Eval vm_compute in match run_event some_status_is_empty 1 (EvData all_received READY_FALLBACK) some_start with
                     | Some (_, s) => s
                     | None => some_start
                     end.

Lemma waiting_reachable : reachable some_status_is_empty 1 all_received waiting_client.
Proof.
  apply (R_step _ _ [] some_start (EvData all_received READY_FALLBACK)); [apply R_start|..].
  - split; [vm_compute; reflexivity|split; [vm_compute; reflexivity|discriminate]].
  - vm_compute. reflexivity.
Qed.

(** The request body does not know that the socket is gone. *)
Example late_events :
  option_map IsReleased (run_events lost some_start) = Some true /\
  run_events (lost ++ [EvCancel]) some_start = None /\
  run_events (lost ++ [EvRequest (RqData (WRITE_BYTES 1) (str "x"))]) some_start = None.
Proof. vm_compute. done. Qed.

Lemma fcgi_available_witness :
  left_of_body some_status_is_empty 1 all_received 3 waiting_client /\
  Client_GetAvailable 1 false waiting_client = Some (3, waiting_client) /\
  k_output (c_sink waiting_client) = str "He".
Proof.
  split_and!; [|vm_compute; reflexivity..].
  destruct (fcgi_available_exact some_status_is_empty 1 all_received waiting_client waiting_reachable) as (a & E & H);
    [vm_compute; reflexivity..|].
  assert (Ha : a = 3) by (vm_compute in E; injection E as <-; reflexivity). subst a. apply H. lia.
Defined.
