(* ===== verification/Cookies.v ===== *)
(** * Cookies

    Models src/http/Chars.hxx, Tokenizer.cxx, PTokenizer.cxx, Quote.cxx and CookieString.cxx (the
    character classes of HTTP and the functions that take a token, a quoted string, a value or a
    pair off the front of the input, and that quote a string), CookieClient.cxx (the cookies that other
    servers set, and the header that sends them back), CookieServer.cxx and CookieExtract.cxx (the
    cookies of a client's request), and their callers in src/bp/CollectCookies.cxx and
    RSession.cxx.

    A function that advances a [std::string_view &input] returns what it found and the rest.  A
    view that may be null is an [option].  A buffer is the list of the bytes written to it so far,
    with its capacity beside it.  The jar is the [CookieJar] of [SessionData].  [None] is an access
    behind the end of a buffer, or a null pointer that is passed to [strlen()] or converted to a
    view. *)

From Stdlib Require Import String.
From S2P Require Import Prelude CharUtil StdMap StrMap Uri HttpCacheRFC HttpHeaders Expiry SessionData.

(** util/StringSplit.hxx, util/StringCompare.hxx, util/NumberParser.hxx, util/AllocatedString.hxx *)
Class TokenLib := {
  SplitWhile : list Z -> (Z -> bool) -> list Z * list Z;
  StringIsEqualIgnoreCase : list Z -> list Z -> bool;
  StringStartsWith : list Z -> list Z -> bool;
  (** [ParseInteger<unsigned>()] *)
  ParseUnsigned : list Z -> option Z;
  (** the [AllocatedString] that is assigned from a null view *)
  AllocatedString_null : option (list Z) }.

Class TokenLaws `{TL : TokenLib} := {
  SplitWhile_spec s p : SplitWhile s p = span_while p s;
  StringStartsWith_spec s p : StringStartsWith s p = bool_decide (p `prefix_of` s);
  StringIsEqualIgnoreCase_nil s : s <> [] -> StringIsEqualIgnoreCase [] s = false }.

(** [StripLeft()] removes white space, which has codes up to that of the space. *)
Class StripLaws `{CU : CharUtil} := {
  stripped_space c : IsStripped c = true -> c <= 32 }.

(** ** Buffers *)

(** [dest[pos++] = c] *)
Definition push (cap : nat) (dest : list Z) (c : Z) : option (list Z) :=
  if (length dest <? cap)%nat then Some (dest ++ [c]) else None.

(** [memcpy()], [std::copy()] *)
Definition append (cap : nat) (dest src : list Z) : option (list Z) :=
  if (length dest + length src <=? cap)%nat then Some (dest ++ src) else None.

(** ** Chars.hxx *)

Definition char_is_http_char (ch : Z) : bool := Z.land ch 128 =? 0.
Definition char_is_http_ctl (ch : Z) : bool := (ch <=? 31) || (ch =? 127).
Definition char_is_http_text (ch : Z) : bool := negb (char_is_http_ctl ch).
Definition char_is_http_sp (ch : Z) : bool := ch =? chr " ".
Definition char_is_http_ht (ch : Z) : bool := ch =? 9.

Definition quote : Z := 34.
Definition backslash : Z := 92.

Definition char_is_http_separator (ch : Z) : bool :=
  (ch =? chr "(") || (ch =? chr ")") || (ch =? chr "<") || (ch =? chr ">") ||
  (ch =? chr "@") || (ch =? chr ",") || (ch =? chr ";") || (ch =? chr ":") ||
  (ch =? backslash) || (ch =? quote) || (ch =? chr "/") ||
  (ch =? chr "[") || (ch =? chr "]") ||
  (ch =? chr "?") || (ch =? chr "=") || (ch =? chr "{") || (ch =? chr "}") ||
  char_is_http_sp ch || char_is_http_ht ch.

Definition char_is_http_token (ch : Z) : bool :=
  char_is_http_char ch && negb (char_is_http_ctl ch) && negb (char_is_http_separator ch).

(** ** Quote.cxx *)

Definition http_must_quote_token (src : list Z) : bool :=
  existsb (fun ch => negb (char_is_http_token ch)) src.

Fixpoint http_quote_loop (cap : nat) (dest src : list Z) : option (list Z) :=
  match src with
  | [] => Some dest
  | c :: src =>
      if (c =? quote) || (c =? backslash) then
        dest ← push cap dest backslash;
        dest ← push cap dest c;
        http_quote_loop cap dest src
      else if char_is_http_text c then
        dest ← push cap dest c;
        http_quote_loop cap dest src
      else http_quote_loop cap dest src
  end.

Definition http_quote_string (cap : nat) (dest src : list Z) : option (list Z) :=
  dest ← push cap dest quote;
  dest ← http_quote_loop cap dest src;
  push cap dest quote.

Section CookieString.
Context `{CU : CharUtil} `{UL : UriLib} `{TL : TokenLib}.

(** ** Tokenizer.cxx *)

Definition http_next_token (input : list Z) : list Z * list Z := SplitWhile input char_is_http_token.

(** [None]: the input does not start with a quote. *)
Definition http_next_quoted_string_raw (input : list Z) : option (list Z * list Z) :=
  match input with
  | c :: input =>
      if c =? quote then
        let '(value, rest) := Split input quote in Some (value, default [] rest)
      else None
  | [] => None
  end.

(** ** PTokenizer.cxx *)

(** [rest] is the input from [pos] on. *)
Fixpoint http_next_quoted_loop (cap : nat) (rest dest : list Z) : option (list Z * list Z) :=
  match rest with
  | [] => Some (dest, [])
  | c :: rest =>
      if c =? backslash then
        match rest with
        | [] => Some (dest, [])
        | d :: rest =>
            dest ← push cap dest d;
            http_next_quoted_loop cap rest dest
        end
      else if c =? quote then Some (dest, rest)
      else if char_is_http_text c then
        dest ← push cap dest c;
        http_next_quoted_loop cap rest dest
      else http_next_quoted_loop cap rest dest
  end.

Definition http_next_quoted_string (input : list Z) : option (list Z * list Z) :=
  http_next_quoted_loop (length input) (drop 1 input) [].

Definition http_next_value (input : list Z) : option (list Z * list Z) :=
  match input with
  | c :: _ => if c =? quote then http_next_quoted_string input else Some (http_next_token input)
  | [] => Some (http_next_token input)
  end.

(** Name, value and the rest of the input. *)
Definition http_next_name_value (input : list Z) : option (list Z * option (list Z) * list Z) :=
  let '(name, input) := http_next_token input in
  if bool_decide (name = []) then Some (name, None, input)
  else
    let input := strip_front input in
    match input with
    | c :: input' =>
        if c =? chr "=" then
          '(value, input) ← http_next_value (strip_front input');
          Some (name, Some value, input)
        else Some (name, None, input)
    | [] => Some (name, None, input)
    end.

(** ** CookieString.cxx *)

Definition char_is_cookie_octet (ch : Z) : bool :=
  (ch =? 33) || ((35 <=? ch) && (ch <=? 43)) || ((45 <=? ch) && (ch <=? 58)) ||
  ((60 <=? ch) && (ch <=? 91)) || ((93 <=? ch) && (ch <=? 126)).

Definition cookie_next_unquoted_value (input : list Z) : list Z * list Z :=
  SplitWhile input char_is_cookie_octet.

Definition char_is_rfc_ignorant_cookie_octet (ch : Z) : bool :=
  char_is_cookie_octet ch || (ch =? chr " ") || (ch =? chr ",").

Definition cookie_next_rfc_ignorant_value_raw (input : list Z) : list Z * list Z :=
  SplitWhile input char_is_rfc_ignorant_cookie_octet.

Definition cookie_next_value (input : list Z) : option (list Z * list Z) :=
  match input with
  | c :: _ => if c =? quote then http_next_quoted_string_raw input
              else Some (cookie_next_unquoted_value input)
  | [] => Some (cookie_next_unquoted_value input)
  end.

Definition cookie_next_rfc_ignorant_value (input : list Z) : option (list Z * list Z) :=
  match input with
  | c :: _ => if c =? quote then http_next_quoted_string_raw input
              else Some (cookie_next_rfc_ignorant_value_raw input)
  | [] => Some (cookie_next_rfc_ignorant_value_raw input)
  end.

Definition cookie_next_name_value (input : list Z) (rfc_ignorant : bool)
    : option (list Z * option (list Z) * list Z) :=
  let '(name, input) := http_next_token input in
  if bool_decide (name = []) then Some (name, None, input)
  else
    let input := strip_front input in
    match input with
    | c :: input' =>
        if c =? chr "=" then
          let input := strip_front input' in
          '(value, input) ← (if rfc_ignorant then cookie_next_rfc_ignorant_value input
                             else cookie_next_value input);
          Some (name, Some value, input)
        else Some (name, None, input)
    | [] => Some (name, None, input)
    end.

End CookieString.

(** ** Domains and paths *)

Definition semicolon : Z := chr ";".

Definition tolower (c : Z) : Z := if (65 <=? c) && (c <=? 90) then c + 32 else c.

(** [strcasecmp(a, b) == 0] *)
Definition strcasecmp_eq (a b : list Z) : bool := bool_decide (map tolower a = map tolower b).

Definition domain_matches (domain match_ : list Z) : bool :=
  let domain_length := length domain in
  let match_length := length match_ in
  (match_length <=? domain_length)%nat &&
  strcasecmp_eq (drop (domain_length - match_length) domain) match_ &&
  ((domain_length =? match_length)%nat ||
   (cstr_at match_ 0 =? chr ".") ||
   ((match_length <? domain_length)%nat &&
    (cstr_at domain (domain_length - match_length - 1) =? chr "."))).

Section Cookies.
Context `{EO : ExpiryOps} `{EE : !EqDecision Expiry}.
Context `{CU : CharUtil} `{UL : UriLib} `{TL : TokenLib} `{HS : HashSetOrder} `{TO : TrieOrder}.

(** ** CookieClient.cxx: setting cookies *)

Definition path_matches (path : list Z) (match_ : option (list Z)) : bool :=
  match match_ with
  | None => true
  | Some match_ => StringStartsWith path match_
  end.

Definition delete_match (domain : list Z) (path : option (list Z)) (name : list Z) (cookie : Cookie)
    : option bool :=
  cookie_domain' ← cookie_domain cookie;
  if negb (domain_matches domain cookie_domain') then Some false
  else if negb (match cookie_path cookie with
                | None => is_null path
                | Some cookie_path => path_matches cookie_path path
                end) then Some false
  else
    cookie_name' ← cookie_name cookie;
    Some (bool_decide (name = cookie_name')).

Fixpoint cookie_list_delete_match (list : CookieJar) (domain : bytes) (path : option bytes) (name : bytes)
    : option CookieJar :=
  match list with
  | [] => Some []
  | cookie :: list =>
      del ← delete_match domain path name cookie;
      list ← cookie_list_delete_match list domain path name;
      Some (if del : bool then list else cookie :: list)
  end.

(** Assigning a view to an [AllocatedString]. *)
Definition assign_view (value : option (list Z)) : AllocatedString :=
  match value with
  | Some s => Some s
  | None => AllocatedString_null
  end.

Definition set_domain (c : Cookie) (d : AllocatedString) : Cookie :=
  mkCookie (cookie_name c) (cookie_value c) d (cookie_path c) (cookie_expires c).
Definition set_path (c : Cookie) (p : AllocatedString) : Cookie :=
  mkCookie (cookie_name c) (cookie_value c) (cookie_domain c) p (cookie_expires c).
Definition set_expires (c : Cookie) (e : Expiry) : Cookie :=
  mkCookie (cookie_name c) (cookie_value c) (cookie_domain c) (cookie_path c) e.

(** [now] is the time at which [Touch()] is called. *)
Definition cookie_attribute (now : Expiry) (cookie : Cookie) (name : list Z) (value : option (list Z))
    : Cookie :=
  if StringIsEqualIgnoreCase name (str "domain") then set_domain cookie (assign_view value)
  else if StringIsEqualIgnoreCase name (str "path") then set_path cookie (assign_view value)
  else if StringIsEqualIgnoreCase name (str "max-age") then
    match ParseUnsigned (default [] value) with
    | Some seconds =>
        set_expires cookie (if seconds =? 0 then AlreadyExpired else Touched now seconds)
    | None => cookie
    end
  else cookie.

Fixpoint cookie_attributes (fuel : nat) (now : Expiry) (cookie : Cookie) (input : list Z)
    : option (Cookie * list Z) :=
  match fuel with
  | O => None
  | S fuel =>
      match input with
      | c :: input' =>
          if c =? semicolon then
            '(name, value, input) ← http_next_name_value input';
            cookie_attributes fuel now (cookie_attribute now cookie name value) (strip_front input)
          else Some (cookie, input)
      | [] => Some (cookie, input)
      end
  end.

(** The cookie, or null, and the rest of the input. *)
Definition parse_next_cookie (now : Expiry) (input : list Z) : option (option Cookie * list Z) :=
  '(name, value, input) ← cookie_next_name_value input false;
  if bool_decide (name = []) then Some (None, input)
  else
    let cookie := Cookie_new (Some name) (assign_view value) in
    let input := strip_front input in
    '(cookie, input) ← cookie_attributes (S (length input)) now cookie input;
    Some (Some cookie, input).

Definition expired_now (e : Expiry) : bool := bool_decide (e = AlreadyExpired).

(** The jar, the rest of the input and the return value. *)
Definition apply_next_cookie (now : Expiry) (jar : CookieJar) (input domain : list Z) (path : option (list Z))
    : option (CookieJar * list Z * bool) :=
  '(cookie, input) ← parse_next_cookie now input;
  match cookie with
  | None => Some (jar, input, false)
  | Some cookie =>
      let '(cookie, matching) :=
        match cookie_domain cookie with
        | None => (set_domain cookie (Some domain), true)
        | Some d => (cookie, domain_matches domain d)
        end in
      if negb matching then Some (jar, input, false)
      else if match path, cookie_path cookie with
              | Some path, Some cookie_path => negb (path_matches path (Some cookie_path))
              | _, _ => false
              end then Some (jar, input, false)
      else
        cookie_domain' ← cookie_domain cookie;
        cookie_name' ← cookie_name cookie;
        jar ← cookie_list_delete_match jar cookie_domain' (cookie_path cookie) cookie_name';
        let jar :=
          if negb (bool_decide (default [] (cookie_value cookie) = [])) &&
             negb (expired_now (cookie_expires cookie))
          then CookieJar_Add jar cookie else jar in
        Some (jar, input, true)
  end.

Fixpoint set_cookie2_loop (fuel : nat) (now : Expiry) (jar : CookieJar) (input domain : list Z)
    (path : option (list Z)) : option CookieJar :=
  match fuel with
  | O => None
  | S fuel =>
      '(jar, input, applied) ← apply_next_cookie now jar input domain path;
      if negb applied then Some jar
      else
        match input with
        | [] => Some jar
        | c :: input =>
            if negb (c =? chr ",") then Some jar
            else set_cookie2_loop fuel now jar (strip_front input) domain path
        end
  end.

Definition cookie_jar_set_cookie2 (now : Expiry) (jar : CookieJar) (value domain : list Z)
    (path : option (list Z)) : option CookieJar :=
  set_cookie2_loop (S (length value)) now jar value domain path.

(** CollectCookies.cxx *)
Fixpoint ParseSetCookie (now : Expiry) (cookies : CookieJar) (items : list (list Z * list Z))
    (host_and_port : list Z) (path : option (list Z)) : option CookieJar :=
  match items with
  | [] => Some cookies
  | i :: items =>
      cookies ← cookie_jar_set_cookie2 now cookies (snd i) host_and_port path;
      ParseSetCookie now cookies items host_and_port path
  end.

(** ** CookieClient.cxx: sending cookies *)

Definition buffer_size : nat := 4096.

(** One cookie, after the test that it fits. *)
Definition cookie_write (buffer name value : list Z) : option (list Z) :=
  buffer ← (if (0 <? length buffer)%nat
            then (buffer ← push buffer_size buffer semicolon; push buffer_size buffer (chr " "))
            else Some buffer);
  buffer ← append buffer_size buffer name;
  buffer ← push buffer_size buffer (chr "=");
  if http_must_quote_token value then http_quote_string buffer_size buffer value
  else append buffer_size buffer value.

Fixpoint cookie_header_loop (cookies : CookieJar) (domain path buffer : list Z) : option (list Z) :=
  match cookies with
  | [] => Some buffer
  | cookie :: cookies =>
      cookie_domain' ← cookie_domain cookie;
      if negb (domain_matches domain cookie_domain') || negb (path_matches path (cookie_path cookie))
      then cookie_header_loop cookies domain path buffer
      else
        name ← cookie_name cookie;
        value ← cookie_value cookie;
        if (buffer_size - length buffer <? length name + 1 + 1 + length value * 2 + 1 + 2)%nat
        then Some buffer
        else
          buffer ← cookie_write buffer name value;
          cookie_header_loop cookies domain path buffer
  end.

(** The inner [option] is the pointer that is returned. *)
Definition cookie_jar_http_header_value (jar : CookieJar) (domain path : list Z)
    : option (option (list Z)) :=
  match jar with
  | [] => Some None
  | _ =>
      buffer ← cookie_header_loop jar domain path [];
      Some (if (0 <? length buffer)%nat then Some buffer else None)
  end.

Definition cookie2_value : list Z := str "$Version=" ++ [quote] ++ str "1" ++ [quote].

Definition cookie_jar_http_header (jar : CookieJar) (domain path : list Z) (headers : StringMap)
    : option StringMap :=
  cookie ← cookie_jar_http_header_value jar domain path;
  Some (match cookie with
        | Some cookie => StringMap_Add (str "cookie") cookie
                           (StringMap_Add (str "cookie2") cookie2_value headers)
        | None => headers
        end).

(** ** CookieServer.cxx *)

(** [pos] is the offset of the next piece: the pieces are views of the input, which are separated by
    one character. *)
Fixpoint exclude_loop (cap : nat) (input exclude : list Z) (pos : nat) (pieces : list (list Z))
    (found : bool) (dest : list Z) : option (bool * list Z) :=
  match pieces with
  | [] => Some (found, dest)
  | piece :: pieces =>
      let i := strip_front piece in
      let next := (pos + length piece + 1)%nat in
      let '(name, _) := http_next_token i in
      if bool_decide (name = exclude) then
        if negb found then
          dest ← append cap dest (take (pos + (length piece - length i)) input);
          exclude_loop cap input exclude next pieces true dest
        else exclude_loop cap input exclude next pieces found dest
      else if found then
        dest ← append cap dest i;
        dest ← push cap dest semicolon;
        exclude_loop cap input exclude next pieces found dest
      else exclude_loop cap input exclude next pieces found dest
  end.

(** The inner [option] is the pointer that is returned. *)
Definition cookie_exclude (p exclude : list Z) : option (option (list Z)) :=
  let cap := S (length p) in
  '(found, dest) ← exclude_loop cap p exclude 0 (IterableSplitString p semicolon) false [];
  if negb found then Some (Some p)
  else
    match last dest with
    | None => Some None
    | Some c =>
        let dest := if c =? semicolon then removelast dest else dest in
        _ ← push cap dest 0;
        Some (Some dest)
    end.

(** ** CookieExtract.cxx *)

(** The inner [option] is the view, which may be null. *)
Fixpoint extract_loop (pieces : list (list Z)) (name : list Z) : option (option (list Z)) :=
  match pieces with
  | [] => Some None
  | piece :: pieces =>
      let '(current_name, i) := http_next_token (strip_front piece) in
      if bool_decide (current_name = name) then
        match i with
        | [] => Some (Some [])
        | c :: i =>
            if negb (c =? chr "=") then Some None
            else
              '(value, _) ← cookie_next_rfc_ignorant_value i;
              Some (Some value)
        end
      else extract_loop pieces name
  end.

Definition ExtractCookieRaw (cookie_header name : list Z) : option (option (list Z)) :=
  extract_loop (IterableSplitString cookie_header semicolon) name.

(** RSession.cxx: the first of several header fields that has the cookie. *)
Fixpoint extract_from_items (items : list (list Z * list Z)) (name : list Z) : option (option (list Z)) :=
  match items with
  | [] => Some None
  | i :: items =>
      value ← ExtractCookieRaw (snd i) name;
      match value with
      | Some value => Some (Some value)
      | None => extract_from_items items name
      end
  end.

Definition ExtractCookieRaw_headers (headers : StringMap) (name : list Z) : option (option (list Z)) :=
  extract_from_items (StringMap_EqualRange (str "cookie") headers) name.

End Cookies.
