(* ===== verification/CookieFacts.v ===== *)
(** * Theorems about cookies

    [cookie_exclude] removes the cookies with a name and nothing else: it writes inside of its
    buffer, the excluded cookie cannot be extracted from the result, and all others still can.  A server
    can only set and delete cookies of its own domain, and the header that is sent to it fits into its buffer
    and has exactly the matching cookies.

    The examples at the end are the unit tests of the program (test/http/t_cookie_client.cxx, t_cookie_server.cxx,
    TestCookieExtract.cxx), and those that show where the code differs from what it means to do. *)

From Stdlib Require Import String.
From S2P Require Import Prelude CharUtil StdMap StrMap Uri UriFacts UriInstance HttpCacheRFC HttpHeaders Expiry SessionData.
From S2P Require Import Cookies.

Section Facts.
Context `{CU : CharUtil} `{UL : UriLib} `{TL : TokenLib}.
Context `{HUL : !UriLaws} `{HTL : !TokenLaws}.

Lemma span_while_all {A} (P : A -> bool) l : Forall (fun c => P c = true) l -> span_while P l = (l, []).
Proof. induction 1 as [|x l Hx _ IH]; simpl; [done|]. by rewrite Hx, IH. Qed.

Lemma next_token_span s : http_next_token s = span_while char_is_http_token s.
Proof. apply SplitWhile_spec. Qed.

(** ** Stripping *)

Lemma strip_front_split s : exists ws, s = ws ++ strip_front s /\ Forall (fun c => IsStripped c = true) ws /\
  (length s = length ws + length (strip_front s))%nat.
Proof.
  unfold strip_front. destruct (span_while IsStripped s) as [a b] eqn:E.
  destruct (span_while_cons _ _ _ _ E) as (-> & Ha & _). exists a. simpl.
  split_and!; [done|done|by rewrite length_app].
Qed.

Lemma strip_front_ws ws s : Forall (fun c => IsStripped c = true) ws -> strip_front (ws ++ s) = strip_front s.
Proof.
  induction 1 as [|c ws Hc _ IH]; [done|]. unfold strip_front in *. simpl. rewrite Hc.
  by destruct (span_while IsStripped (ws ++ s)).
Qed.

Lemma strip_front_idem s : strip_front (strip_front s) = strip_front s.
Proof.
  unfold strip_front. destruct (span_while IsStripped s) as [a b] eqn:E.
  destruct (span_while_cons _ _ _ _ E) as (_ & _ & Hb). simpl. destruct b as [|c b]; [done|].
  simpl. by rewrite Hb.
Qed.

Lemma strip_front_notin c s : c ∉ s -> c ∉ strip_front s.
Proof. destruct (strip_front_split s) as (ws & E & _). rewrite E at 1. rewrite not_elem_of_app. tauto. Qed.

(** ** Pieces *)

Definition nonempty (s : list Z) : bool := negb (bool_decide (s = [])).

(** The cookies of a header value: the pieces that are not blank. *)
Definition cookies_of (s : list Z) : list (list Z) :=
  List.filter nonempty (strip_front <$> IterableSplitString s semicolon).

Lemma cookies_of_app a b : cookies_of (a ++ semicolon :: b) = cookies_of a ++ cookies_of b.
Proof. unfold cookies_of. by rewrite split_app, fmap_app, List.filter_app. Qed.

Lemma cookies_of_one s : semicolon ∉ s -> cookies_of s = if nonempty (strip_front s) then [strip_front s] else [].
Proof. intros Hs. unfold cookies_of. rewrite IterableSplit_one by done. simpl. by destruct (nonempty _). Qed.

Lemma cookies_of_nil : cookies_of [] = [].
Proof. by rewrite cookies_of_one by apply not_elem_of_nil. Qed.

Lemma cookies_of_end s : cookies_of (s ++ [semicolon]) = cookies_of s.
Proof. by rewrite cookies_of_app, cookies_of_nil, app_nil_r. Qed.

Lemma cookies_of_ws ws s :
  Forall (fun c => IsStripped c = true) ws -> semicolon ∉ ws -> cookies_of (ws ++ s) = cookies_of s.
Proof.
  intros Hws Hsep. destruct (first_char s semicolon) as [Hs|(a & b & -> & Ha)].
  - rewrite !cookies_of_one by (rewrite ?not_elem_of_app; done). by rewrite strip_front_ws.
  - rewrite app_assoc, !cookies_of_app. f_equal.
    rewrite !cookies_of_one by (rewrite ?not_elem_of_app; done). by rewrite strip_front_ws.
Qed.

(** Every piece with the separator behind it. *)
Definition terminated (l : list (list Z)) : list Z := concat (map (fun i => i ++ [semicolon]) l).

Lemma terminated_cons i l : terminated (i :: l) = i ++ semicolon :: terminated l.
Proof. unfold terminated. simpl. by rewrite <- app_assoc. Qed.

Lemma cookies_of_terminated l s : cookies_of (terminated l ++ s) = concat (map cookies_of l) ++ cookies_of s.
Proof.
  induction l as [|i l IH]; [done|]. rewrite terminated_cons, <- app_assoc. simpl.
  by rewrite cookies_of_app, IH, app_assoc.
Qed.

(** The pieces that are separated, with what precedes them. *)
Lemma split_terminated s : exists l last,
  IterableSplitString s semicolon = l ++ [last] /\ s = terminated l ++ last /\
  Forall (fun i => semicolon ∉ i) (l ++ [last]).
Proof.
  remember (length s) as n eqn:En. revert s En. induction (lt_wf n) as [n _ IH]. intros s ->.
  destruct (first_char s semicolon) as [Hs|(a & b & -> & Ha)].
  - exists [], s. rewrite IterableSplit_one by done. split_and!; [done|done|by repeat constructor].
  - destruct (IH (length b) ltac:(rewrite length_app; simpl; lia) b eq_refl) as (l & last & E & -> & HF).
    exists (a :: l), last. rewrite IterableSplit_cons, E by done. rewrite terminated_cons.
    split_and!; [done|by rewrite <- app_assoc|by constructor].
Qed.

(** ** The loop of [cookie_exclude] *)

Definition name_of (i : list Z) : list Z := fst (http_next_token i).
Definition kept (exclude i : list Z) : bool := negb (bool_decide (name_of i = exclude)).

Definition total (l : list (list Z)) : nat := length (terminated l).

Lemma total_length_cons i l : total (i :: l) = (length i + 1 + total l)%nat.
Proof. unfold total. rewrite terminated_cons, length_app. simpl. lia. Qed.

Lemma total_kept exclude l : (total (List.filter (kept exclude) (strip_front <$> l)) <= total l)%nat.
Proof.
  induction l as [|i l IH]; [done|]. simpl. destruct (strip_front_split i) as (ws & _ & _ & Hl).
  rewrite total_length_cons. fold (strip_front <$> l).
  destruct (kept exclude (strip_front i)); rewrite ?total_length_cons; lia.
Qed.

(** After the first excluded cookie: the others are appended. *)
Lemma exclude_loop_found cap input exclude pieces pos dest :
  (length dest + total pieces <= cap)%nat ->
  exclude_loop cap input exclude pos pieces true dest =
    Some (true, dest ++ terminated (List.filter (kept exclude) (strip_front <$> pieces))).
Proof.
  revert pos dest. induction pieces as [|i pieces IH]; intros pos dest Hcap; simpl.
  - by rewrite app_nil_r.
  - rewrite total_length_cons in Hcap. destruct (strip_front_split i) as (ws & _ & _ & Hl).
    destruct (http_next_token (strip_front i)) as [name r] eqn:Et.
    assert (Hn : name_of (strip_front i) = name) by (unfold name_of; by rewrite Et).
    unfold kept at 1. rewrite Hn. destruct (bool_decide (name = exclude)); simpl; [apply IH; lia|].
    unfold append. rewrite (proj2 (Nat.leb_le _ _)) by lia. simpl.
    unfold push. rewrite length_app, (proj2 (Nat.ltb_lt _ _)) by lia. simpl.
    rewrite IH by (rewrite !length_app; simpl; lia). by rewrite terminated_cons, <- !app_assoc.
Qed.

(** Up to there: nothing happens, or everything in front of the excluded cookie is copied. *)
Lemma exclude_loop_spec cap input exclude pieces pre :
  input ++ [semicolon] = pre ++ terminated pieces -> (length input < cap)%nat -> pieces <> [] ->
  Forall (fun i => semicolon ∉ i) pieces ->
  (Forall (fun i => kept exclude (strip_front i) = true) pieces /\
   exclude_loop cap input exclude (length pre) pieces false [] = Some (false, [])) \/
  (exists before ws i after,
     pieces = before ++ (ws ++ i) :: after /\ strip_front (ws ++ i) = i /\
     Forall (fun c => IsStripped c = true) ws /\
     Forall (fun i => kept exclude (strip_front i) = true) before /\ kept exclude i = false /\
     exclude_loop cap input exclude (length pre) pieces false [] =
       Some (true, (pre ++ terminated before ++ ws) ++
                   terminated (List.filter (kept exclude) (strip_front <$> after)))).
Proof.
  intros Hin Hcap. revert pre Hin. induction pieces as [|i pieces IH]; intros pre Hin Hne HF; [done|].
  apply Forall_cons in HF as [Hi HF]. rewrite terminated_cons in Hin. simpl.
  destruct (strip_front_split i) as (ws & Ei & Hws & Hl).
  destruct (http_next_token (strip_front i)) as [name r] eqn:Et.
  assert (Hn : name_of (strip_front i) = name) by (unfold name_of; by rewrite Et).
  destruct (bool_decide (name = exclude)) eqn:Ex; simpl.
  - right. exists [], ws, (strip_front i), pieces. rewrite <- Ei.
    assert (Hpre : take (length pre + (length i - length (strip_front i))) input = pre ++ ws).
    { assert (exists t, input = pre ++ ws ++ t) as (t & ->).
      { destruct pieces as [|j pieces] using rev_ind.
        - exists (strip_front i). apply (app_inj_tail _ _ semicolon semicolon).
          rewrite <- Ei, Hin. by rewrite <- app_assoc.
        - unfold terminated in Hin. rewrite map_app, concat_app in Hin. simpl in Hin.
          exists (strip_front i ++ semicolon :: terminated pieces ++ j).
          apply (app_inj_tail _ _ semicolon semicolon). rewrite Hin. rewrite Ei at 1.
          unfold terminated. rewrite app_nil_r. simpl. by repeat (rewrite <- app_assoc; simpl). }
      rewrite Hl. rewrite app_assoc. replace (length pre + _)%nat with (length (pre ++ ws)) by (rewrite length_app; lia).
      by rewrite take_app_length. }
    assert (Hlen : (length input + 1 = length pre + (length i + 1 + total pieces))%nat).
    { apply (f_equal length) in Hin. rewrite !length_app in Hin. simpl in Hin. unfold total. lia. }
    unfold append. rewrite Hpre. simpl. rewrite length_app, (proj2 (Nat.leb_le _ _)) by lia. simpl.
    rewrite exclude_loop_found by (rewrite length_app; lia).
    split_and!; [done|done|done|by constructor|unfold kept; by rewrite Hn, Ex|].
    unfold terminated at 2. simpl. done.
  - assert (Hk : kept exclude (strip_front i) = true) by (unfold kept; by rewrite Hn, Ex).
    replace (length pre + length i + 1)%nat with (length (pre ++ i ++ [semicolon])) by (rewrite !length_app; simpl; lia).
    destruct pieces as [|j pieces'] eqn:Ep; [left; split; [by repeat constructor|done]|].
    rewrite <- Ep in *.
    destruct (IH (pre ++ i ++ [semicolon])) as [[HK HL]|(before & ws' & i' & after & E & Hs & Hw & Hb & Hx & HL)];
      [by rewrite <- !app_assoc|by rewrite Ep|done| |].
    + left. split; [by constructor|done].
    + right. exists (i :: before), ws', i', after. rewrite HL, E, terminated_cons.
      split_and!; [done|done|done|by constructor|done|]. by repeat (rewrite <- app_assoc; simpl).
Qed.

Lemma kept_nonempty exclude l :
  List.filter nonempty (List.filter (kept exclude) l) = List.filter (kept exclude) (List.filter nonempty l).
Proof.
  induction l as [|i l IH]; simpl; [done|].
  destruct (kept exclude i) eqn:Ek, (nonempty i) eqn:En; simpl; rewrite ?En, ?Ek, IH; done.
Qed.

Lemma cookies_of_pieces l :
  Forall (fun i => semicolon ∉ i) l ->
  concat (map cookies_of l) = List.filter nonempty (strip_front <$> l).
Proof.
  induction 1 as [|i l Hi _ IH]; [done|]. simpl. rewrite cookies_of_one, IH by done.
  by destruct (nonempty (strip_front i)).
Qed.

Lemma cookies_of_kept exclude l :
  Forall (fun i => semicolon ∉ i) l ->
  concat (map cookies_of (List.filter (kept exclude) (strip_front <$> l))) =
  List.filter (kept exclude) (List.filter nonempty (strip_front <$> l)).
Proof.
  intros Hl. rewrite cookies_of_pieces.
  - rewrite <- kept_nonempty. f_equal. clear Hl.
    induction l as [|i l IH]; [done|]. rewrite fmap_cons. cbn [List.filter].
    destruct (kept exclude (strip_front i)); [|done]. rewrite fmap_cons, strip_front_idem. by f_equal.
  - apply Forall_forall. intros i [(j & -> & Hj)%list_elem_of_fmap _]%elem_of_bfilter.
    apply strip_front_notin. by eapply (proj1 (Forall_forall _ _)) in Hl.
Qed.

Lemma filter_kept_all exclude l :
  Forall (fun i => kept exclude (strip_front i) = true) l ->
  List.filter (kept exclude) (List.filter nonempty (strip_front <$> l)) = List.filter nonempty (strip_front <$> l).
Proof.
  intros H. rewrite <- kept_nonempty. f_equal.
  induction H as [|i l Hi _ IH]; [done|]. rewrite fmap_cons. cbn [List.filter]. by rewrite Hi, IH.
Qed.

(** The trailing semicolon does not matter. *)
Lemma cookies_of_trim (s : list Z) c :
  last s = Some c -> cookies_of (if c =? semicolon then removelast s else s) = cookies_of s.
Proof.
  intros Hl. destruct (c =? semicolon) eqn:E; [|done]. simpl_bool. subst c.
  destruct s as [|x s _] using rev_ind; [done|]. rewrite last_snoc in Hl. injection Hl as ->.
  by rewrite removelast_last, cookies_of_end.
Qed.

(** What is left are the other cookies, in their order. *)
Lemma cookie_exclude_cookies p exclude : exists r,
  cookie_exclude p exclude = Some r /\
  cookies_of (default [] r) = List.filter (kept exclude) (cookies_of p) /\
  (exclude ∉ map name_of (cookies_of p) -> exclude <> [] -> r = Some p).
Proof.
  destruct (split_terminated p) as (l & lst & Es & Ep & HF).
  unfold cookie_exclude. rewrite Es.
  assert (Hin : p ++ [semicolon] = [] ++ terminated (l ++ [lst])).
  { rewrite Ep. unfold terminated. rewrite map_app, concat_app. simpl. by rewrite app_nil_r, <- app_assoc. }
  assert (Hof : cookies_of p = List.filter nonempty (strip_front <$> (l ++ [lst])))
    by (unfold cookies_of; by rewrite Es).
  destruct (exclude_loop_spec (S (length p)) p exclude (l ++ [lst]) [] Hin ltac:(lia) ltac:(by destruct l) HF)
    as [[HK HL]|(before & ws & i & after & E & Hs & Hw & Hb & Hx & HL)];
    simpl length in HL; rewrite HL; simpl.
  - exists (Some p). split_and!; [done| |done]. simpl. by rewrite Hof, filter_kept_all.
  - rewrite E in HF. apply Forall_app in HF as [HFb [HFi HFa]%Forall_cons].
    set (dest := (terminated before ++ ws) ++ terminated (List.filter (kept exclude) (strip_front <$> after))) in *.
    assert (Hd : cookies_of dest = List.filter (kept exclude) (cookies_of p)).
    { unfold dest. rewrite <- app_assoc, cookies_of_terminated, cookies_of_ws
        by (done || (intros H; apply HFi, elem_of_app; by left)).
      rewrite <- (app_nil_r (terminated (List.filter _ _))), cookies_of_terminated, cookies_of_nil, app_nil_r.
      rewrite cookies_of_kept, cookies_of_pieces by done.
      rewrite Hof, E, fmap_app, fmap_cons, List.filter_app, Hs. simpl.
      rewrite List.filter_app, (filter_kept_all exclude before) by done. f_equal.
      destruct (nonempty i); [|done]. cbn [List.filter]. by rewrite Hx. }
    assert (Hlen : (length dest <= length p)%nat).
    { apply (f_equal length) in Hin. rewrite E in Hin. unfold dest.
      pose proof (total_kept exclude after) as Ht. unfold total, terminated in *.
      rewrite map_app, concat_app in Hin. simpl in Hin. rewrite !length_app in *. simpl in *. lia. }
    assert (Hnot : ~ ((exclude ∉ map name_of (cookies_of p)) /\ exclude <> [])).
    { intros [Hn Hne]. apply Hn. unfold kept in Hx. simpl_bool. subst exclude.
      apply (list_elem_of_fmap_2 name_of). rewrite Hof, E, fmap_app, fmap_cons, Hs.
      apply elem_of_bfilter. split; [apply elem_of_app; right; left|].
      unfold nonempty. apply negb_true_iff, bool_decide_eq_false. intros ->. apply Hne.
      unfold name_of. by rewrite next_token_span. }
    destruct (last dest) as [c|] eqn:El.
    + unfold push. rewrite (proj2 (Nat.ltb_lt _ _)).
      * simpl. eexists. split_and!; [done| |by intros ? ?; destruct Hnot].
        simpl. by rewrite cookies_of_trim.
      * destruct (c =? semicolon); [|lia]. rewrite removelast_firstn_len, length_take. lia.
    + exists None. split_and!; [done| |by intros ? ?; destruct Hnot].
      apply last_None in El. rewrite El in Hd. by rewrite <- Hd.
Qed.

(** ** Extraction *)

Lemma extract_loop_cookies pieces name : name <> [] ->
  extract_loop pieces name = extract_loop (List.filter nonempty (strip_front <$> pieces)) name.
Proof.
  intros Hne. induction pieces as [|i pieces IH]; [done|]. simpl.
  unfold nonempty at 1. destruct (strip_front i) as [|c s] eqn:Es; simpl.
  - rewrite next_token_span. simpl. by rewrite bool_decide_eq_false_2 by congruence.
  - rewrite <- Es, strip_front_idem, Es. by rewrite IH.
Qed.

Lemma extract_spec p name : name <> [] -> ExtractCookieRaw p name = extract_loop (cookies_of p) name.
Proof. apply extract_loop_cookies. Qed.

Lemma cookies_of_stripped p i : i ∈ cookies_of p -> strip_front i = i.
Proof.
  intros [(j & -> & _)%list_elem_of_fmap _]%elem_of_bfilter. apply strip_front_idem.
Qed.

Lemma extract_kept exclude name l :
  (forall i, i ∈ l -> strip_front i = i) ->
  extract_loop (List.filter (kept exclude) l) name =
  if bool_decide (name = exclude) then Some None else extract_loop l name.
Proof.
  induction l as [|i l IH]; intros Hl; [by destruct (bool_decide _)|].
  specialize (IH (fun j Hj => Hl j (list_elem_of_further _ _ _ Hj))).
  assert (Hi : strip_front i = i) by (apply Hl; left).
  destruct (http_next_token i) as [n r] eqn:Et.
  assert (Hk : kept exclude i = negb (bool_decide (n = exclude))) by (unfold kept, name_of; by rewrite Et).
  cbn [List.filter]. rewrite Hk.
  destruct (bool_decide (n = exclude)) eqn:En; simpl; rewrite Hi, Et.
  - rewrite IH. simpl_bool. subst n. destruct (decide (exclude = name)) as [->|Hn].
    + by rewrite bool_decide_eq_true_2.
    + by rewrite !bool_decide_eq_false_2 by congruence.
  - rewrite IH. destruct (decide (n = name)) as [->|Hn].
    + rewrite !(bool_decide_eq_true_2 (name = name)) by done. by rewrite En.
    + by rewrite !(bool_decide_eq_false_2 (n = name)) by done.
Qed.

(** ** Domains *)

Lemma tolower_dot c : tolower c = chr "." -> c = chr ".".
Proof. unfold tolower. change (chr ".") with 46. destruct (_ && _) eqn:E; [|done]. simpl_bool. lia. Qed.

(** The suffix is the whole domain, or it starts with a dot, or it follows one. *)
Lemma domain_matches_spec d m :
  domain_matches d m = true <->
  exists pre suf, d = pre ++ suf /\ map tolower suf = map tolower m /\
    (pre = [] \/ head m = Some (chr ".") \/ last pre = Some (chr ".")).
Proof.
  unfold domain_matches, strcasecmp_eq. split.
  - intros H. apply andb_true_iff in H as [H Hp]. apply andb_true_iff in H as [Hl Hs].
    apply Nat.leb_le in Hl. apply bool_decide_eq_true in Hs.
    exists (take (length d - length m) d), (drop (length d - length m) d).
    split_and!; [by rewrite take_drop|done|]. apply orb_true_iff in Hp as [Hp|Hp]; [apply orb_true_iff in Hp as [Hp|Hp]|].
    + apply Nat.eqb_eq in Hp. left. by rewrite Hp, Nat.sub_diag.
    + right. left. unfold cstr_at in Hp. destruct m as [|x m]; [discriminate Hp|]. simpl in *. by simpl_bool; subst.
    + right. right. apply andb_true_iff in Hp as [Hlt Hc]. apply Nat.ltb_lt in Hlt. apply Z.eqb_eq in Hc.
      unfold cstr_at in Hc. destruct (d !! _) as [x|] eqn:Ex; [|discriminate Hc]. simpl in Hc. subst x.
      rewrite last_lookup, length_take, lookup_take_lt by lia. rewrite <- Ex. f_equal. lia.
  - intros (pre & suf & -> & Hs & Hp). assert (Hl : length suf = length m).
    { apply (f_equal length) in Hs. by rewrite !length_map in Hs. }
    rewrite length_app, Hl. replace (length pre + length m - length m)%nat with (length pre) by lia.
    rewrite drop_app_length. repeat (apply andb_true_iff; split).
    + apply Nat.leb_le. lia.
    + by apply bool_decide_eq_true.
    + apply orb_true_iff. destruct Hp as [->|[Hm|Hp]].
      * left. apply orb_true_iff. left. apply Nat.eqb_eq. done.
      * left. apply orb_true_iff. right. destruct m as [|x m]; [done|]. injection Hm as ->. apply Z.eqb_refl.
      * right. destruct pre as [|x pre _] using rev_ind; [done|]. rewrite last_snoc in Hp. injection Hp as ->.
        rewrite length_app. apply andb_true_iff. split; [apply Nat.ltb_lt; simpl; lia|].
        unfold cstr_at. replace (length pre + length [chr "."] - 1)%nat with (length pre) by (simpl; lia).
        by rewrite <- app_assoc, lookup_app_r, Nat.sub_diag.
Qed.

Lemma domain_matches_refl d : domain_matches d d = true.
Proof. apply domain_matches_spec. exists [], d. auto. Qed.

Lemma domain_matches_trans a b c :
  domain_matches a b = true -> domain_matches b c = true -> domain_matches a c = true.
Proof.
  rewrite !domain_matches_spec. intros (p1 & s1 & -> & E1 & H1) (p2 & s2 & -> & E2 & H2).
  rewrite map_app in E1. apply map_eq_app in E1 as (q & s & -> & Eq & Es).
  exists (p1 ++ q), s. split_and!; [by rewrite app_assoc|by rewrite Es|].
  destruct H2 as [->|[H2|H2]].
  - apply map_eq_nil in Eq as ->. rewrite app_nil_r. simpl in *.
    destruct H1 as [H1|[H1|H1]]; [by left| |by right; right]. right. left.
    destruct s2 as [|x s2]; [done|]. injection H1 as ->. destruct c as [|y c]; [done|].
    simpl in E2. injection E2 as E2 _. simpl. f_equal. apply tolower_dot. by rewrite <- E2.
  - by right; left.
  - right. right. destruct p2 as [|x p2 _] using rev_ind; [done|]. rewrite last_snoc in H2. injection H2 as ->.
    rewrite map_app in Eq. apply map_eq_app in Eq as (q1 & q2 & -> & _ & Eq).
    destruct q2 as [|y [|z q2]]; try done. simpl in Eq. injection Eq as Eq.
    rewrite app_assoc, last_snoc. f_equal. by apply tolower_dot.
Qed.

(** ** The parsers accept everything and make progress *)

Lemma strip_front_le s : (length (strip_front s) <= length s)%nat.
Proof. destruct (strip_front_split s) as (ws & _ & _ & H). lia. Qed.

Lemma next_token_ok s : exists t r, http_next_token s = (t, r) /\ s = t ++ r /\
  Forall (fun c => char_is_http_token c = true) t.
Proof.
  rewrite next_token_span. destruct (span_while char_is_http_token s) as [t r] eqn:E.
  destruct (span_while_cons _ _ _ _ E) as (-> & Ht & _). eauto.
Qed.

Lemma push_ok cap d c : (length d < cap)%nat -> push cap d c = Some (d ++ [c]).
Proof. intros H. unfold push. by rewrite (proj2 (Nat.ltb_lt _ _)). Qed.

Lemma append_ok cap d s : (length d + length s <= cap)%nat -> append cap d s = Some (d ++ s).
Proof. intros H. unfold append. by rewrite (proj2 (Nat.leb_le _ _)). Qed.

Lemma quoted_loop_ok cap rest dest :
  (length dest + length rest <= cap)%nat ->
  exists v r, http_next_quoted_loop cap rest dest = Some (v, r) /\ (length r <= length rest)%nat.
Proof.
  remember (length rest) as n eqn:En. revert rest dest En. induction (lt_wf n) as [n _ IH].
  intros [|c rest] dest -> Hcap; [exists dest, []; simpl; split; [done|lia]|]. simpl in *.
  destruct (c =? backslash).
  - destruct rest as [|d rest]; [exists dest, []; simpl; split; [done|lia]|]. simpl in *.
    rewrite push_ok by lia. simpl.
    destruct (IH (length rest) ltac:(lia) rest (dest ++ [d]) eq_refl) as (v & r & E & Hr);
      [rewrite length_app; simpl; lia|]. exists v, r. split; [done|lia].
  - destruct (c =? quote); [exists dest, rest; split; [done|lia]|].
    destruct (char_is_http_text c).
    + rewrite push_ok by lia. simpl.
      destruct (IH (length rest) ltac:(lia) rest (dest ++ [c]) eq_refl) as (v & r & E & Hr);
        [rewrite length_app; simpl; lia|]. exists v, r. split; [done|lia].
    + destruct (IH (length rest) ltac:(lia) rest dest eq_refl ltac:(lia)) as (v & r & E & Hr).
      exists v, r. split; [done|lia].
Qed.

Lemma next_value_ok s : exists v r, http_next_value s = Some (v, r) /\ (length r <= length s)%nat.
Proof.
  unfold http_next_value. destruct (next_token_ok s) as (t & r & Et & Es & _).
  destruct s as [|c s]; [rewrite Et; exists t, r; split; [done|]; rewrite Es, length_app; lia|].
  destruct (c =? quote).
  - unfold http_next_quoted_string. simpl drop.
    destruct (quoted_loop_ok (length (c :: s)) s [] ltac:(simpl; lia)) as (v & r' & E & H).
    exists v, r'. split; [done|simpl; lia].
  - rewrite Et. exists t, r. split; [done|]. rewrite Es, length_app. lia.
Qed.

Lemma next_name_value_ok s : exists n v r, http_next_name_value s = Some (n, v, r) /\ (length r <= length s)%nat.
Proof.
  unfold http_next_name_value. destruct (next_token_ok s) as (t & r & Et & Es & _). rewrite Et.
  assert (Hr : (length r <= length s)%nat) by (rewrite Es, length_app; lia).
  case_bool_decide; [by eauto|]. pose proof (strip_front_le r).
  destruct (strip_front r) as [|c r'] eqn:Er; [exists t, None, []; split; [done|simpl; lia]|].
  destruct (c =? chr "="); [|exists t, None, (c :: r'); split; [done|lia]].
  destruct (next_value_ok (strip_front r')) as (v & r2 & E & H2). rewrite E. simpl.
  pose proof (strip_front_le r'). simpl in *. exists t, (Some v), r2. split; [done|lia].
Qed.

Lemma raw_quoted_ok s : exists v r,
  http_next_quoted_string_raw (quote :: s) = Some (v, r) /\ (length r <= length s)%nat.
Proof.
  unfold http_next_quoted_string_raw. rewrite Z.eqb_refl.
  destruct (first_char s quote) as [Hs|(a & b & -> & Ha)].
  - rewrite Split_missing by done. exists s, []. split; [done|simpl; lia].
  - rewrite Split_found by done. exists a, b. split; [done|]. rewrite length_app. simpl. lia.
Qed.

Lemma cookie_value_ok s : exists v r, cookie_next_value s = Some (v, r) /\ (length r <= length s)%nat.
Proof.
  assert (Hu : exists v r, cookie_next_unquoted_value s = (v, r) /\ (length r <= length s)%nat).
  { unfold cookie_next_unquoted_value. rewrite SplitWhile_spec.
    destruct (span_while char_is_cookie_octet s) as [v r] eqn:E.
    destruct (span_while_length _ _ _ _ E) as [_ H]. exists v, r. split; [done|lia]. }
  destruct Hu as (v & r & E & H). unfold cookie_next_value.
  destruct s as [|c s]; [rewrite E; eauto|]. destruct (c =? quote) eqn:Ec; [|rewrite E; eauto].
  simpl_bool. subst c. destruct (raw_quoted_ok s) as (v' & r' & E' & H'). rewrite E'. exists v', r'.
  split; [done|simpl; lia].
Qed.

Lemma cookie_name_value_ok s : exists n v r, cookie_next_name_value s false = Some (n, v, r) /\
  Forall (fun c => char_is_http_token c = true) n /\ (length n + length r <= length s)%nat.
Proof.
  unfold cookie_next_name_value. destruct (next_token_ok s) as (t & r & Et & Es & Ht). rewrite Et.
  assert (Hr : (length t + length r = length s)%nat) by (by rewrite Es, length_app).
  case_bool_decide; [exists t, None, r; split_and!; [done|done|lia]|]. pose proof (strip_front_le r).
  destruct (strip_front r) as [|c r'] eqn:Er; [exists t, None, []; split_and!; [done|done|simpl in *; lia]|].
  destruct (c =? chr "="); [|exists t, None, (c :: r'); split_and!; [done|done|lia]].
  destruct (cookie_value_ok (strip_front r')) as (v & r2 & E & H2). rewrite E. simpl.
  pose proof (strip_front_le r'). simpl in *. exists t, (Some v), r2. split_and!; [done|done|lia].
Qed.

End Facts.

Section ClientFacts.
Context `{EO : ExpiryOps} `{EE : !EqDecision Expiry}.
Context `{CU : CharUtil} `{UL : UriLib} `{TL : TokenLib}.
Context `{HUL : !UriLaws} `{HTL : !TokenLaws}.

(** ** The jar *)

(** What [parse_next_cookie] guarantees, and what the other functions rely on. *)
Definition cookie_ok (c : Cookie) : Prop :=
  is_Some (cookie_name c) /\ is_Some (cookie_value c) /\ is_Some (cookie_domain c).

Definition jar_ok (jar : CookieJar) : Prop := Forall cookie_ok jar.

(** The cookie is for this host. *)
Definition allows (domain : list Z) (c : Cookie) : bool :=
  match cookie_domain c with
  | Some d => domain_matches domain d
  | None => false
  end.

Definition foreign (domain : list Z) (jar : CookieJar) : CookieJar :=
  List.filter (fun c => negb (allows domain c)) jar.

Definition deletes (domain : list Z) (path : option (list Z)) (name : list Z) (c : Cookie) : bool :=
  allows domain c &&
  match cookie_path c with
  | None => is_null path
  | Some p => path_matches p path
  end && bool_decide (cookie_name c = Some name).

Lemma cookie_list_delete_match_spec jar d p n :
  jar_ok jar -> cookie_list_delete_match jar d p n = Some (List.filter (fun c => negb (deletes d p n c)) jar).
Proof.
  induction 1 as [|c jar ([cn Hn] & _ & [cd Hd]) _ IH]; [done|]. simpl.
  assert (delete_match d p n c = Some (deletes d p n c)) as ->.
  { unfold delete_match, deletes, allows. rewrite Hd, Hn. simpl.
    destruct (domain_matches d cd); simpl; [|done].
    destruct (match cookie_path c with None => _ | Some _ => _ end); simpl; [|done].
    f_equal. apply bool_decide_ext. naive_solver. }
  simpl. rewrite IH. simpl. by destruct (deletes d p n c).
Qed.

Lemma jar_ok_filter P jar : jar_ok jar -> jar_ok (List.filter P jar).
Proof.
  unfold jar_ok. rewrite !Forall_forall. intros H c [Hc _]%elem_of_bfilter. by apply H.
Qed.

Lemma foreign_delete host d p n jar :
  domain_matches host d = true ->
  foreign host (List.filter (fun c => negb (deletes d p n c)) jar) = foreign host jar.
Proof.
  intros Hh. unfold foreign. induction jar as [|c jar IH]; [done|]. simpl.
  destruct (deletes d p n c) eqn:E; simpl; [|by destruct (allows host c); simpl; rewrite IH].
  assert (allows host c = true) as ->; [|done].
  unfold deletes, allows in *. simpl_bool. destruct (cookie_domain c); [|done].
  by eapply domain_matches_trans.
Qed.

(** ** Parsing a cookie *)

Lemma cookie_attribute_name now c n v :
  cookie_name (cookie_attribute now c n v) = cookie_name c /\
  cookie_value (cookie_attribute now c n v) = cookie_value c.
Proof.
  unfold cookie_attribute. repeat case_match; done.
Qed.

Lemma cookie_attributes_ok fuel now c s : (length s < fuel)%nat ->
  exists c' r, cookie_attributes fuel now c s = Some (c', r) /\ (length r <= length s)%nat /\
    cookie_name c' = cookie_name c /\ cookie_value c' = cookie_value c.
Proof.
  revert c s. induction fuel as [|fuel IH]; intros c s Hf; [lia|]. simpl.
  destruct s as [|x s]; [by exists c, []|]. destruct (x =? semicolon); [|by exists c, (x :: s)].
  destruct (next_name_value_ok s) as (n & v & r & E & Hr). rewrite E. simpl in *.
  pose proof (strip_front_le r).
  destruct (IH (cookie_attribute now c n v) (strip_front r) ltac:(lia)) as (c' & r' & E' & Hr' & H1 & H2).
  destruct (cookie_attribute_name now c n v) as [H3 H4].
  exists c', r'. split_and!; [done|lia|congruence|congruence].
Qed.

Definition token (n : list Z) : Prop := n <> [] /\ Forall (fun c => char_is_http_token c = true) n.

Lemma parse_next_cookie_ok now s :
  exists oc r, parse_next_cookie now s = Some (oc, r) /\
    match oc with
    | None => True
    | Some c => (length r < length s)%nat /\ exists n v, cookie_name c = Some n /\ token n /\ cookie_value c = assign_view v
    end.
Proof.
  unfold parse_next_cookie. destruct (cookie_name_value_ok s) as (n & v & r & E & Hn & Hl). rewrite E. simpl.
  case_bool_decide as Hne; [by exists None, r|]. pose proof (strip_front_le r).
  destruct (cookie_attributes_ok (S (length (strip_front r))) now (Cookie_new (Some n) (assign_view v)) (strip_front r)
              ltac:(lia)) as (c & r' & E' & Hr & H1 & H2).
  simpl in E'. cbn [cookie_attributes] in *. rewrite E'. simpl. exists (Some c), r'. split; [done|].
  split; [|by exists n, v]. destruct n; [done|]. simpl in *. lia.
Qed.

(** ** Setting a cookie *)

(** What a cookie that is stored looks like. *)
Definition acceptable (domain : list Z) (path : option (list Z)) (c : Cookie) : Prop :=
  allows domain c = true /\
  (forall p cp, path = Some p -> cookie_path c = Some cp -> cp `prefix_of` p) /\
  (exists n, cookie_name c = Some n /\ token n) /\
  (exists v, cookie_value c = Some v /\ v <> []) /\
  cookie_expires c <> AlreadyExpired.

Lemma acceptable_ok d p c : acceptable d p c -> cookie_ok c.
Proof.
  intros (Ha & _ & (n & Hn & _) & (v & Hv & _) & _). unfold cookie_ok. rewrite Hn, Hv.
  split_and!; [done|done|]. unfold allows in Ha. by destruct (cookie_domain c).
Qed.

(** A step of the loop keeps [kept_by]: other cookies stay, and new ones are acceptable. *)
Definition kept_by (domain : list Z) (path : option (list Z)) (jar jar' : CookieJar) : Prop :=
  jar_ok jar' /\ foreign domain jar' = foreign domain jar /\
  forall c, c ∈ jar' -> c ∈ jar \/ acceptable domain path c.

Lemma kept_by_refl d p jar : jar_ok jar -> kept_by d p jar jar.
Proof. intros H. split_and!; auto. Qed.

Lemma kept_by_trans d p j1 j2 j3 : kept_by d p j1 j2 -> kept_by d p j2 j3 -> kept_by d p j1 j3.
Proof.
  intros (_ & F1 & C1) (K & F2 & C2). split_and!; [done|congruence|].
  intros c Hc. destruct (C2 c Hc); auto.
Qed.

(** What is stored after the tests. *)
Definition store (jar : CookieJar) (d n : list Z) (c : Cookie) : CookieJar :=
  let jar := List.filter (fun c' => negb (deletes d (cookie_path c) n c')) jar in
  if negb (bool_decide (default [] (cookie_value c) = [])) && negb (expired_now (cookie_expires c))
  then CookieJar_Add jar c else jar.

Lemma store_kept jar host path d n c :
  jar_ok jar -> cookie_domain c = Some d -> domain_matches host d = true -> cookie_name c = Some n -> token n ->
  (forall p cp, path = Some p -> cookie_path c = Some cp -> cp `prefix_of` p) ->
  kept_by host path jar (store jar d n c).
Proof.
  intros Hj Hd Hh Hn Ht Hp. unfold store.
  set (jar' := List.filter _ jar).
  assert (Hk : kept_by host path jar jar').
  { split_and!; [by apply jar_ok_filter|by apply foreign_delete|]. intros c' [? _]%elem_of_bfilter. auto. }
  destruct (_ && _) eqn:E; [|done]. simpl_bool.
  assert (Ha : allows host c = true) by (unfold allows; by rewrite Hd).
  assert (Hacc : acceptable host path c).
  { split_and!; [done|done|by exists n| |].
    - destruct (cookie_value c) as [v|] eqn:Ev; [|done]. by exists v.
    - unfold expired_now in *. by simpl_bool. }
  destruct Hk as (K & F & C). unfold CookieJar_Add. split_and!.
  - constructor; [by eapply acceptable_ok|done].
  - unfold foreign. simpl. rewrite Ha. done.
  - intros c' [->|Hc']%elem_of_cons; auto.
Qed.

Lemma apply_next_cookie_ok now jar s domain path :
  jar_ok jar -> exists jar' r b, apply_next_cookie now jar s domain path = Some (jar', r, b) /\
    kept_by domain path jar jar' /\ (b = true -> (length r < length s)%nat).
Proof.
  intros Hj. unfold apply_next_cookie. destruct (parse_next_cookie_ok now s) as (oc & r & E & Hoc). rewrite E. simpl.
  destruct oc as [c|]; [|exists jar, r, false; split_and!; [done|by apply kept_by_refl|done]].
  destruct Hoc as (Hl & n & v & Hn & Ht & _).
  set (cm := match cookie_domain c with None => _ | Some _ => _ end).
  destruct cm as [c' matching] eqn:Ecm.
  assert (Hc' : exists d, cookie_domain c' = Some d /\ matching = domain_matches domain d /\ cookie_name c' = Some n).
  { unfold cm in Ecm. destruct (cookie_domain c) as [d|] eqn:Ed; injection Ecm as <- <-.
    - by exists d.
    - exists domain. by rewrite domain_matches_refl. }
  destruct Hc' as (d & Hd & -> & Hn').
  destruct (domain_matches domain d) eqn:Em; simpl;
    [|exists jar, r, false; split_and!; [done|by apply kept_by_refl|done]].
  destruct (match path with None => _ | Some _ => _ end) eqn:Ep;
    [exists jar, r, false; split_and!; [done|by apply kept_by_refl|done]|].
  rewrite Hd, Hn'. simpl. rewrite cookie_list_delete_match_spec by done. simpl.
  exists (store jar d n c'), r, true. split_and!; [done| |by intros _].
  apply store_kept; try done. intros p cp -> Hcp. rewrite Hcp in Ep. simpl in Ep. simpl_bool.
  rewrite StringStartsWith_spec in Ep. by simpl_bool.
Qed.

Lemma set_cookie2_loop_ok fuel now jar s domain path :
  (length s < fuel)%nat -> jar_ok jar ->
  exists jar', set_cookie2_loop fuel now jar s domain path = Some jar' /\ kept_by domain path jar jar'.
Proof.
  revert jar s. induction fuel as [|fuel IH]; intros jar s Hf Hj; [lia|]. cbn [set_cookie2_loop].
  destruct (apply_next_cookie_ok now jar s domain path Hj) as (jar' & r & b & E & Hk & Hr). rewrite E. simpl.
  destruct b; simpl; [|by exists jar']. specialize (Hr eq_refl).
  destruct r as [|x r]; [by exists jar'|]. destruct (x =? chr ","); simpl; [|by exists jar'].
  pose proof (strip_front_le r). simpl in Hr.
  destruct (IH jar' (strip_front r) ltac:(lia) (proj1 Hk)) as (jar2 & E2 & Hk2).
  exists jar2. split; [done|by eapply kept_by_trans].
Qed.

(** ** The header that is sent *)

Fixpoint quote_body (v : list Z) : list Z :=
  match v with
  | [] => []
  | c :: v =>
      (if (c =? quote) || (c =? backslash) then [backslash; c]
       else if char_is_http_text c then [c] else []) ++ quote_body v
  end.

Definition value_text (v : list Z) : list Z :=
  if http_must_quote_token v then quote :: quote_body v ++ [quote] else v.

Definition pair_text (p : list Z * list Z) : list Z := fst p ++ chr "=" :: value_text (snd p).

(** The pairs, separated by a semicolon and a space. *)
Fixpoint render (l : list (list Z * list Z)) : list Z :=
  match l with
  | [] => []
  | [p] => pair_text p
  | p :: l => pair_text p ++ semicolon :: chr " " :: render l
  end.

Lemma render_cons p q l : render (p :: q :: l) = pair_text p ++ semicolon :: chr " " :: render (q :: l).
Proof. done. Qed.

Lemma render_nonempty p l : (0 < length (render (p :: l)))%nat.
Proof. destruct l; simpl; unfold pair_text; rewrite !length_app; simpl; lia. Qed.

Lemma render_snoc l p :
  render (l ++ [p]) = render l ++ (if (0 <? length (render l))%nat then [semicolon; chr " "] else []) ++ pair_text p.
Proof.
  induction l as [|q l IH]; [done|]. pose proof (render_nonempty q l) as Hne.
  rewrite (proj2 (Nat.ltb_lt _ _)) by done.
  destruct l as [|q' l]; [done|]. change ((q :: q' :: l) ++ [p]) with (q :: q' :: (l ++ [p])).
  rewrite !render_cons. change (q' :: l ++ [p]) with ((q' :: l) ++ [p]). rewrite IH.
  rewrite (proj2 (Nat.ltb_lt _ _)) by apply render_nonempty. by rewrite <- app_assoc.
Qed.

Lemma quote_body_length v : (length (quote_body v) <= 2 * length v)%nat.
Proof. induction v as [|c v IH]; simpl; [lia|]. rewrite length_app. repeat case_match; simpl; lia. Qed.

Lemma http_quote_loop_ok cap dest v :
  (length dest + 2 * length v <= cap)%nat -> http_quote_loop cap dest v = Some (dest ++ quote_body v).
Proof.
  revert dest. induction v as [|c v IH]; intros dest H; simpl in *; [by rewrite app_nil_r|].
  destruct (_ || _).
  - rewrite push_ok by lia. simpl. rewrite push_ok by (rewrite length_app; simpl; lia). simpl.
    rewrite IH by (rewrite !length_app; simpl; lia). by rewrite <- !app_assoc.
  - destruct (char_is_http_text c); [|apply IH; lia].
    rewrite push_ok by lia. simpl. rewrite IH by (rewrite length_app; simpl; lia). by rewrite <- app_assoc.
Qed.

(** What is reserved for a cookie is enough. *)
Definition cost (p : list Z * list Z) : nat := length (fst p) + 1 + 1 + length (snd p) * 2 + 1 + 2.

Lemma pair_text_length p : (length (pair_text p) + 2 <= cost p)%nat.
Proof.
  unfold pair_text, value_text, cost. pose proof (quote_body_length (snd p)).
  rewrite length_app. simpl. destruct (http_must_quote_token (snd p)); simpl; rewrite ?length_app; simpl; lia.
Qed.

Lemma cookie_write_ok buffer p :
  (length buffer + cost p <= buffer_size)%nat ->
  cookie_write buffer (fst p) (snd p) =
    Some (buffer ++ (if (0 <? length buffer)%nat then [semicolon; chr " "] else []) ++ pair_text p).
Proof.
  intros H. unfold cookie_write, cost in *.
  set (sep := if (0 <? length buffer)%nat then _ else []).
  assert (Hsep : (if (0 <? length buffer)%nat
                  then buffer' ← push buffer_size buffer semicolon; push buffer_size buffer' (chr " ")
                  else Some buffer) = Some (buffer ++ sep) /\ (length sep <= 2)%nat).
  { unfold sep. destruct (0 <? length buffer)%nat; [|by rewrite app_nil_r; auto].
    rewrite push_ok by lia. simpl. rewrite push_ok by (rewrite length_app; simpl; lia).
    simpl. split; [|done]. by rewrite <- app_assoc. }
  destruct Hsep as [-> Hsep]. simpl.
  rewrite append_ok by (rewrite length_app; lia). simpl.
  rewrite push_ok by (rewrite !length_app; lia). simpl. unfold pair_text, value_text.
  destruct (http_must_quote_token (snd p)).
  - unfold http_quote_string. rewrite push_ok by (rewrite !length_app; simpl; lia). simpl.
    pose proof (quote_body_length (snd p)).
    rewrite http_quote_loop_ok by (rewrite !length_app; simpl; lia). simpl.
    rewrite push_ok by (rewrite !length_app; simpl; lia). f_equal.
    by repeat (rewrite <- app_assoc; simpl).
  - rewrite append_ok by (rewrite !length_app; simpl; lia). f_equal. by repeat (rewrite <- app_assoc; simpl).
Qed.

(** The cookies that match, in the order of the jar. *)
Definition matching (domain path : list Z) (c : Cookie) : bool :=
  allows domain c && path_matches path (cookie_path c).

Definition pair_of (c : Cookie) : list Z * list Z := (default [] (cookie_name c), default [] (cookie_value c)).

Definition pairs_for (domain path : list Z) (jar : CookieJar) : list (list Z * list Z) :=
  map pair_of (List.filter (matching domain path) jar).

Definition total_cost (l : list (list Z * list Z)) : nat := foldr (fun p n => cost p + n)%nat O l.

Lemma cookie_header_loop_spec jar domain path done_ :
  jar_ok jar -> (length (render done_) <= buffer_size)%nat ->
  exists k, let sent := take k (pairs_for domain path jar) in
    cookie_header_loop jar domain path (render done_) = Some (render (done_ ++ sent)) /\
    (length (render (done_ ++ sent)) <= buffer_size)%nat /\
    ((length (render done_) + total_cost (pairs_for domain path jar) <= buffer_size)%nat ->
     sent = pairs_for domain path jar).
Proof.
  intros Hj. revert done_. induction Hj as [|c jar ([n Hn] & [v Hv] & [d Hd]) _ IH]; intros done_ Hl.
  - exists O. simpl. rewrite app_nil_r. auto.
  - assert (Hm : matching domain path c = domain_matches domain d && path_matches path (cookie_path c))
      by (unfold matching, allows; by rewrite Hd).
    unfold pairs_for in *. cbn [List.filter cookie_header_loop]. rewrite Hd, Hm. simpl.
    destruct (domain_matches domain d && path_matches path (cookie_path c)) eqn:Em.
    + apply andb_true_iff in Em as [-> ->]. simpl. rewrite Hn, Hv. simpl.
      set (p := pair_of c). assert (Hp : p = (n, v)) by (unfold p, pair_of; by rewrite Hn, Hv).
      change (length n + 1 + 1 + length v * 2 + 1 + 2)%nat with (cost (n, v)). rewrite <- Hp.
      destruct (buffer_size - length (render done_) <? cost p)%nat eqn:Ef.
      * exists O. simpl. rewrite app_nil_r. apply Nat.ltb_lt in Ef. split_and!; [done|done|lia].
      * apply Nat.ltb_ge in Ef. pose proof (pair_text_length p).
        assert (length (render done_) + cost p <= buffer_size)%nat by lia.
        change n with (fst (n, v)) at 1. change v with (snd (n, v)) at 2. rewrite <- Hp.
        rewrite cookie_write_ok by done. simpl. rewrite <- render_snoc.
        assert (Hlen : (length (render (done_ ++ [p])) <= length (render done_) + cost p)%nat).
        { rewrite render_snoc, !length_app. destruct (0 <? length (render done_))%nat; simpl; lia. }
        destruct (IH (done_ ++ [p]) ltac:(lia)) as (k & E & Hk & Hall).
        exists (S k). simpl. rewrite <- app_assoc in E, Hk. split_and!; [done|done|].
        intros Ht. f_equal. apply Hall. lia.
    + destruct (IH done_ Hl) as (k & E & Hk & Hall). exists k.
      split_and!; [|done|done]. rewrite <- E. apply andb_false_iff in Em as [-> | ->]; [done|].
      by rewrite orb_true_r.
Qed.

Lemma header_value_spec jar domain path : jar_ok jar ->
  exists k, let sent := take k (pairs_for domain path jar) in
    cookie_jar_http_header_value jar domain path =
      Some (if bool_decide (sent = []) then None else Some (render sent)) /\
    (length (render sent) <= buffer_size)%nat /\
    ((total_cost (pairs_for domain path jar) <= buffer_size)%nat -> sent = pairs_for domain path jar).
Proof.
  intros Hj. destruct (cookie_header_loop_spec jar domain path [] Hj ltac:(simpl; unfold buffer_size; lia)) as (k & E & Hk & Hall).
  exists k. set (sent := take k _) in *. simpl in E, Hk, Hall.
  split_and!; [|done|done]. unfold cookie_jar_http_header_value.
  destruct jar as [|c jar]; [assert (sent = []) as -> by apply take_nil; done|]. rewrite E. simpl.
  destruct sent as [|p sent']; [done|]. rewrite bool_decide_eq_false_2 by done.
  by rewrite (proj2 (Nat.ltb_lt _ _)) by apply render_nonempty.
Qed.

(** ** Reading the header *)

Section Reading.
Context `{HSL : !StripLaws}.

(** The reference: pairs as [http_next_name_value()] reads them, with "; " between them. *)
Fixpoint read_cookies (fuel : nat) (text : list Z) : option (list (list Z * list Z)) :=
  match fuel with
  | O => None
  | S fuel =>
      '(name, value, rest) ← http_next_name_value text;
      value ← value;
      match rest with
      | [] => Some [(name, value)]
      | c :: d :: rest =>
          if (c =? semicolon) && (d =? chr " ")
          then cons (name, value) <$> read_cookies fuel rest else None
      | _ => None
      end
  end.

Lemma token_char c : char_is_http_token c = true -> c <> quote /\ c <> backslash /\ c <> semicolon /\ 32 < c.
Proof.
  unfold char_is_http_token, char_is_http_ctl, char_is_http_separator, char_is_http_sp.
  intros H. unfold quote, backslash, semicolon. change (chr ";") with 59. change (chr " ") with 32 in H.
  change (chr ";") with 59 in H.
  simpl_bool. unfold quote, backslash in *. lia.
Qed.

Lemma strip_front_keep c s : 32 < c -> strip_front (c :: s) = c :: s.
Proof.
  intros Hc. unfold strip_front. simpl. destruct (IsStripped c) eqn:E; [|done].
  specialize (stripped_space c E). lia.
Qed.

Definition ends (rest : list Z) : Prop := rest = [] \/ exists r, rest = semicolon :: r.

Lemma next_token_app n c rest :
  Forall (fun c => char_is_http_token c = true) n -> char_is_http_token c = false ->
  http_next_token (n ++ c :: rest) = (n, c :: rest).
Proof.
  intros Hn Hc. rewrite next_token_span. induction Hn as [|x n Hx _ IH]; simpl; [by rewrite Hc|].
  by rewrite Hx, IH.
Qed.

Lemma next_token_all n : Forall (fun c => char_is_http_token c = true) n -> http_next_token n = (n, []).
Proof.
  intros Hn. rewrite next_token_span. by apply span_while_all.
Qed.

Lemma next_token_ends n rest : Forall (fun c => char_is_http_token c = true) n -> ends rest ->
  http_next_token (n ++ rest) = (n, rest).
Proof.
  intros Hn [->|(r & ->)]; [rewrite app_nil_r; by apply next_token_all|by apply next_token_app].
Qed.

Lemma quoted_loop_body cap v rest dest :
  Forall (fun c => char_is_http_text c = true) v -> (length dest + length v <= cap)%nat ->
  http_next_quoted_loop cap (quote_body v ++ quote :: rest) dest = Some (dest ++ v, rest).
Proof.
  intros Hv. revert dest. induction Hv as [|c v Hc _ IH]; intros dest Hcap; simpl in *; [by rewrite app_nil_r|].
  rewrite Hc. destruct ((c =? quote) || (c =? backslash)) eqn:E; simpl.
  - rewrite push_ok by lia. simpl. rewrite IH by (rewrite length_app; simpl; lia). by rewrite <- app_assoc.
  - apply orb_false_iff in E as [E1 E2]. rewrite E2, E1, Hc, push_ok by lia. simpl.
    rewrite IH by (rewrite length_app; simpl; lia). by rewrite <- app_assoc.
Qed.

(** What is sent of a value: [http_quote_string()] drops control characters. *)
Definition sent_value (v : list Z) : list Z := List.filter char_is_http_text v.

Definition sent_pair (p : list Z * list Z) : list Z * list Z := (fst p, sent_value (snd p)).

Lemma sent_value_text v : Forall (fun c => char_is_http_text c = true) (sent_value v).
Proof. apply Forall_forall. by intros c [_ Hc]%elem_of_bfilter. Qed.

Lemma sent_value_id v : Forall (fun c => char_is_http_text c = true) v -> sent_value v = v.
Proof. unfold sent_value. induction 1 as [|c v Hc _ IH]; simpl; [done|]. by rewrite Hc, IH. Qed.

Lemma quote_body_sent v : quote_body (sent_value v) = quote_body v.
Proof.
  unfold sent_value. induction v as [|c v IH]; simpl; [done|]. destruct (char_is_http_text c) eqn:Et; simpl.
  - by rewrite Et, IH.
  - rewrite IH. destruct ((c =? quote) || (c =? backslash)) eqn:E; [|done]. exfalso. apply orb_true_iff in E.
    unfold quote, backslash in E. rewrite !Z.eqb_eq in E. by destruct E; subst c.
Qed.

Lemma quote_body_longer v : (length (sent_value v) <= length (quote_body v))%nat.
Proof.
  unfold sent_value. induction v as [|c v IH]; simpl; [lia|]. rewrite length_app. destruct (char_is_http_text c); simpl;
    destruct (_ || _); simpl; lia.
Qed.

Lemma must_quote_spec v : http_must_quote_token v = false <-> Forall (fun c => char_is_http_token c = true) v.
Proof.
  induction v as [|c v IH]; simpl; [split; [by constructor|done]|]. rewrite orb_false_iff, IH, negb_false_iff.
  split; [intros [? ?]; by constructor|by inversion 1].
Qed.

Lemma next_value_text v rest : ends rest ->
  http_next_value (strip_front (value_text v ++ rest)) = Some (sent_value v, rest).
Proof.
  intros Hr. unfold value_text. destruct (http_must_quote_token v) eqn:Eq.
  - simpl. rewrite strip_front_keep by done. simpl. unfold http_next_quoted_string. simpl drop.
    rewrite drop_0, <- !app_assoc, <-quote_body_sent. cbn [app].
    rewrite quoted_loop_body; [done|apply sent_value_text|].
    simpl. rewrite quote_body_sent, length_app. pose proof (quote_body_longer v). simpl. lia.
  - apply must_quote_spec in Eq. rewrite sent_value_id.
    2: { eapply Forall_impl; [exact Eq|]. intros c Hc. unfold char_is_http_token in Hc. unfold char_is_http_text.
         apply andb_true_iff in Hc as [Hc _]. by apply andb_true_iff in Hc as [_ Hc]. }
    assert (Hs : strip_front (v ++ rest) = v ++ rest).
    { destruct v as [|c v]; [destruct Hr as [->|(r & ->)]; [done|by apply (strip_front_keep semicolon r)]|].
      apply Forall_cons in Eq as [Hc _]. simpl. apply strip_front_keep.
      by destruct (token_char _ Hc) as (_ & _ & _ & H). }
    rewrite Hs. unfold http_next_value. rewrite next_token_ends by done.
    destruct (v ++ rest) as [|c s] eqn:E; [done|]. destruct (c =? quote) eqn:Ec; [|done]. simpl_bool. subst c.
    exfalso. destruct v as [|c v]; simpl in E.
    + destruct Hr as [->|(r & ->)]; discriminate E.
    + injection E as -> _. apply Forall_cons in Eq as [Hc _]. by destruct (token_char _ Hc).
Qed.

Lemma next_pair p rest : token (fst p) -> ends rest ->
  http_next_name_value (pair_text p ++ rest) = Some (fst p, Some (sent_value (snd p)), rest).
Proof.
  intros [Hne Hn] Hr. unfold pair_text, http_next_name_value. rewrite <- app_assoc. simpl.
  rewrite next_token_app by done. rewrite bool_decide_eq_false_2 by done.
  rewrite strip_front_keep by done. rewrite Z.eqb_refl. by rewrite next_value_text.
Qed.

Lemma read_render l : Forall (fun p => token (fst p)) l -> l <> [] ->
  read_cookies (length l) (render l) = Some (map sent_pair l).
Proof.
  induction 1 as [|p l Hp Hl IH]; intros Hne; [done|]. cbn [length read_cookies].
  destruct l as [|q l].
  - simpl render. by rewrite <- (app_nil_r (pair_text p)), next_pair by (done || by left).
  - rewrite render_cons, next_pair by (done || (right; by eexists)).
    specialize (IH ltac:(done)). cbn [mbind option_bind]. rewrite !Z.eqb_refl. cbn [andb]. by rewrite IH.
Qed.

End Reading.

(** ** Theorems *)

(** C20: A response can only set and delete cookies of its own host.  For every value of a Set-Cookie header (however
    malformed), [cookie_jar_set_cookie2] ends without reading or writing behind the end of a buffer or
    using a null pointer; the cookies in the jar that the host would not be sent are the same as before, in
    the same order; and whatever is new in the jar is a cookie whose domain matches the host, whose path is a prefix of the
    request's path, with a name that is a token, a value, and an expiry that has not passed. *)
Theorem set_cookie_isolated now jar value domain path :
  jar_ok jar ->
  exists jar', cookie_jar_set_cookie2 now jar value domain path = Some jar' /\ jar_ok jar' /\
    foreign domain jar' = foreign domain jar /\
    forall c, c ∈ jar' -> c ∈ jar \/ acceptable domain path c.
Proof.
  intros Hj. unfold cookie_jar_set_cookie2.
  destruct (set_cookie2_loop_ok (S (length value)) now jar value domain path ltac:(lia) Hj) as (jar' & E & K & F & C).
  by exists jar'.
Qed.

(** C23: What [cookie_jar_http_header_value] sends fits into its buffer of 4096 bytes and consists of the
    cookies whose domain and path match, in the order of the jar; cookies are only left out at the end, and none if
    the worst-case sizes of all add up to at most 4096.  Null is returned if there is nothing to send.  If the names are
    tokens (as those of all cookies that are received), then reading the header back pair by pair, with quoted values unescaped,
    yields the names in the jar and their values without control characters, which are not sent. *)
Theorem cookie_header_roundtrip `{!StripLaws} jar domain path :
  jar_ok jar ->
  exists k, let sent := take k (pairs_for domain path jar) in
    cookie_jar_http_header_value jar domain path =
      Some (if bool_decide (sent = []) then None else Some (render sent)) /\
    (length (render sent) <= 4096)%nat /\
    ((total_cost (pairs_for domain path jar) <= 4096)%nat -> sent = pairs_for domain path jar) /\
    (Forall (fun p => token (fst p)) sent -> sent <> [] ->
     read_cookies (length sent) (render sent) = Some (map sent_pair sent)).
Proof.
  intros Hj. destruct (header_value_spec jar domain path Hj) as (k & E & Hl & Hall).
  exists k. split_and!; [done|done|done|]. by apply read_render.
Qed.

(** What may follow a cookie: nothing, or a semicolon and a space, in front of other text which does not
    go on with a semicolon or a comma. *)
Definition tail_ok (rest : list Z) : Prop :=
  rest = [] \/ exists x, rest = semicolon :: chr " " :: x /\
    forall c s, strip_front (chr " " :: x) = c :: s -> c <> semicolon /\ c <> chr ",".

Lemma cookie_octet c : char_is_cookie_octet c = true -> 32 < c /\ c <> quote.
Proof.
  unfold char_is_cookie_octet, quote. intros H. simpl_bool.
  repeat match goal with H : _ \/ _ |- _ => destruct H; simpl_bool end; lia.
Qed.

Lemma name_value_octets `{!StripLaws} n v rest : tail_ok rest ->
  token n -> v <> [] -> Forall (fun c => char_is_cookie_octet c = true) v ->
  cookie_next_name_value (n ++ chr "=" :: v ++ rest) false = Some (n, Some v, rest).
Proof.
  intros Hr [Hne Hn] Hv Ho. unfold cookie_next_name_value. rewrite next_token_app by done.
  rewrite bool_decide_eq_false_2 by done. rewrite strip_front_keep by done. rewrite Z.eqb_refl.
  destruct v as [|c v]; [done|]. pose proof Ho as [Hc _]%Forall_cons. apply cookie_octet in Hc as [H32 Hq].
  cbn [app]. rewrite strip_front_keep by done. unfold cookie_next_value.
  rewrite (proj2 (Z.eqb_neq c quote)) by done. unfold cookie_next_unquoted_value. rewrite SplitWhile_spec.
  change (c :: v ++ rest) with ((c :: v) ++ rest). destruct Hr as [->|(x & -> & _)].
  - rewrite app_nil_r. by rewrite span_while_all.
  - clear Hv H32 Hq. assert (E : span_while char_is_cookie_octet ((c :: v) ++ semicolon :: chr " " :: x) = (c :: v, semicolon :: chr " " :: x)).
    { revert Ho. generalize (c :: v). induction 1 as [|y l Hy _ IH]; [done|]. simpl. by rewrite Hy, IH. }
    by rewrite E.
Qed.

(** The attributes behind a semicolon and a space are not found. *)
Lemma attributes_ignored `{!StripLaws} now c rest : tail_ok rest ->
  exists r, cookie_attributes (S (length (strip_front rest))) now c (strip_front rest) = Some (c, r) /\
    match r with [] => True | y :: _ => y <> chr "," end.
Proof.
  intros [->|(x & -> & Hx)]; [by exists []|]. rewrite strip_front_keep by done. cbn [cookie_attributes length].
  rewrite Z.eqb_refl. unfold http_next_name_value.
  assert (En : http_next_token (chr " " :: x) = ([], chr " " :: x)) by (rewrite next_token_span; done).
  rewrite En. cbn [mbind option_bind]. rewrite bool_decide_eq_true_2 by done. cbn [mbind option_bind].
  assert (Ea : cookie_attribute now c [] None = c).
  { unfold cookie_attribute. by rewrite !StringIsEqualIgnoreCase_nil by done. }
  rewrite Ea. exists (strip_front (chr " " :: x)). destruct (strip_front (chr " " :: x)) as [|y s] eqn:Es; [done|].
  destruct (Hx y s eq_refl) as [H1 H2]. by rewrite (proj2 (Z.eqb_neq _ _)) by done.
Qed.

Lemma deletes_any host n c : allows host c = true ->
  deletes host None n c = bool_decide (cookie_name c = Some n).
Proof.
  intros Ha. unfold deletes. rewrite Ha. simpl. by destruct (cookie_path c).
Qed.

Lemma pairs_for_store host path jar n :
  jar_ok jar ->
  pairs_for host path (List.filter (fun c => negb (deletes host None n c)) jar) =
  List.filter (fun p => negb (bool_decide (fst p = n))) (pairs_for host path jar).
Proof.
  unfold pairs_for. induction 1 as [|c jar ([cn Hn] & _ & _) _ IH]; [done|]. cbn [List.filter].
  destruct (allows host c) eqn:Ea.
  - rewrite deletes_any, Hn by done.
    assert (Hf : fst (pair_of c) = cn) by (unfold pair_of; by rewrite Hn).
    destruct (decide (cn = n)) as [E|E].
    + rewrite bool_decide_eq_true_2 by (by rewrite E). cbn [negb]. rewrite IH.
      destruct (matching host path c); [|done]. cbn [map List.filter].
      by rewrite Hf, bool_decide_eq_true_2.
    + rewrite bool_decide_eq_false_2 by (by intros [= ?]). cbn [negb List.filter].
      destruct (matching host path c); [|done]. cbn [map List.filter].
      by rewrite Hf, bool_decide_eq_false_2, IH.
  - assert (matching host path c = false) as Hm by (unfold matching; by rewrite Ea).
    assert (deletes host None n c = false) as -> by (unfold deletes; by rewrite Ea).
    cbn [negb List.filter]. by rewrite Hm.
Qed.

(** C39: A cookie that a server sets (a token as its name, a value of cookie octets, and nothing else or any attributes behind
    a semicolon and a space, which are ignored: see [attributes_after_space_ignored]) is the first of the pairs for the next
    request to that host, and it has replaced all cookies of that name which were sent to that host before; the others
    are sent as before.  If the worst-case sizes of the pairs add up to at most 4096, then these are the
    header that is sent. *)
Theorem set_cookie_sent `{!ExpiryLaws} `{!StripLaws} now jar domain path n v rest p :
  jar_ok jar -> token n -> v <> [] -> Forall (fun c => char_is_cookie_octet c = true) v -> tail_ok rest ->
  let pairs := (n, v) :: List.filter (fun p => negb (bool_decide (fst p = n))) (pairs_for domain p jar) in
  exists jar', cookie_jar_set_cookie2 now jar (n ++ chr "=" :: v ++ rest) domain path = Some jar' /\
    pairs_for domain p jar' = pairs /\
    ((total_cost pairs <= 4096)%nat -> cookie_jar_http_header_value jar' domain p = Some (Some (render pairs))).
Proof.
  intros Hj Ht Hv Ho Hrest pairs.
  set (c := set_domain (Cookie_new (Some n) (Some v)) (Some domain)).
  set (jar' := store jar domain n c).
  assert (Hk : kept_by domain path jar jar').
  { apply store_kept; try done. apply domain_matches_refl. }
  assert (Hjar : jar' = c :: List.filter (fun c => negb (deletes domain None n c)) jar).
  { unfold jar', store. simpl. rewrite bool_decide_eq_false_2 by done. unfold expired_now.
    rewrite bool_decide_eq_false_2; [done|]. intros E.
    pose proof (IsExpired_Never now) as H1. by rewrite E, IsExpired_AlreadyExpired in H1. }
  assert (Hp : pairs_for domain p jar' = pairs).
  { rewrite Hjar. unfold pairs. rewrite <- pairs_for_store by done. unfold pairs_for. cbn [List.filter].
    assert (matching domain p c = true) as ->; [|done].
    unfold matching, allows. simpl. by rewrite domain_matches_refl. }
  exists jar'. split_and!; [|done|].
  - unfold cookie_jar_set_cookie2. cbn [set_cookie2_loop]. unfold apply_next_cookie, parse_next_cookie.
    rewrite name_value_octets by done. cbn [mbind option_bind]. destruct Ht as [Hne _].
    rewrite bool_decide_eq_false_2 by done.
    destruct (attributes_ignored now (Cookie_new (Some n) (assign_view (Some v))) rest Hrest) as (r & Er & Hr).
    rewrite Er. cbn [mbind option_bind]. simpl.
    assert ((match path with Some _ | _ => false end) = false) as -> by (by destruct path). simpl.
    rewrite cookie_list_delete_match_spec by done. simpl. destruct r as [|y r]; [done|].
    by rewrite (proj2 (Z.eqb_neq y _)).
  - intros Hc. destruct (header_value_spec jar' domain p (proj1 Hk)) as (k & E & _ & Hall).
    rewrite Hp in *. rewrite E, Hall by done. by rewrite bool_decide_eq_false_2.
Qed.

End ClientFacts.

(** C21: [cookie_exclude] stays inside of its buffer for every header value and every name, and
    what it returns (null counts as no cookies) has exactly the cookies with other names, in their order: the
    excluded cookie, for example the one with the session id, cannot be extracted from the result, and the
    extraction of every other cookie yields the same as before; a header without the cookie is
    returned unchanged. *)
Theorem cookie_exclude_exact `{CharUtil, UriLib, TokenLib} `{!UriLaws} `{!TokenLaws} p exclude :
  exclude <> [] ->
  exists r, cookie_exclude p exclude = Some r /\
    cookies_of (default [] r) = List.filter (kept exclude) (cookies_of p) /\
    (exclude ∉ map name_of (cookies_of p) -> r = Some p) /\
    ExtractCookieRaw (default [] r) exclude = Some None /\
    forall name, name <> [] -> name <> exclude ->
      ExtractCookieRaw (default [] r) name = ExtractCookieRaw p name.
Proof.
  intros Hne. destruct (cookie_exclude_cookies p exclude) as (r & E & Hc & Hid).
  exists r. split_and!; [done|done|by intros; apply Hid| |].
  - rewrite extract_spec, Hc, extract_kept by (done || apply cookies_of_stripped).
    by rewrite bool_decide_eq_true_2.
  - intros name Hn Hx. rewrite !extract_spec, Hc, extract_kept by (done || apply cookies_of_stripped).
    by rewrite bool_decide_eq_false_2.
Qed.

(** ** Concrete library functions *)

#[local] Existing Instance AsciiChars.
#[export] Existing Instance TimePointOps.

#[export] Instance TimePoint_eq_dec : EqDecision (Expiry (ExpiryOps := TimePointOps)).
Proof.
  intros a b. destruct (decide (seconds a = seconds b)) as [E|E].
  - left. by apply tp_eq.
  - right. congruence.
Defined.

Definition digits_value (s : list Z) : option Z :=
  match s with
  | [] => None
  | _ => if forallb (in_range "0" "9") s
         then Some (fold_left (fun n c => 10 * n + (c - 48)) s 0) else None
  end.

#[export] Instance ConcreteTokenLib : TokenLib := {|
  SplitWhile s p := span_while p s;
  StringIsEqualIgnoreCase a b := strcasecmp_eq a b;
  StringStartsWith s p := bool_decide (p `prefix_of` s);
  ParseUnsigned := digits_value;
  AllocatedString_null := None |}.

#[export] Instance ConcreteTokenLaws : TokenLaws.
Proof. split; [done|done|]. intros [|c s] Hs; [done|reflexivity]. Qed.

Definition quoted (s : list Z) : list Z := quote :: s ++ [quote].

Definition now0 : Expiry (ExpiryOps := TimePointOps) := tp_of_Z 1000.

(** A sequence of received cookies (value, domain, path), and what is sent then. *)
Definition jar_after (l : list (list Z * list Z * option (list Z))) : option CookieJar :=
  foldl (fun jar '(value, domain, path) =>
           jar ← jar; cookie_jar_set_cookie2 now0 jar value domain path) (Some []) l.

Definition sent (l : list (list Z * list Z * option (list Z))) (domain path : list Z) : option (option (list Z)) :=
  jar ← jar_after l; cookie_jar_http_header_value jar domain path.

(** ** The unit tests *)

Example client_test1 :
  let foo := str "foo.bar" in
  let l0 := [(str "a=b", str "other.domain", None)] in
  let l1 := l0 ++ [(str "a=b", foo, None)] in
  let l2 := l1 ++ [(str "c=d", foo, None)] in
  let l3 := l2 ++ [(str "c=xyz;max-age=0", foo, None)] in
  sent [] foo (str "/") = Some None /\
  sent l0 foo (str "/") = Some None /\
  sent l1 foo (str "/") = Some (Some (str "a=b")) /\
  sent l2 foo (str "/") = Some (Some (str "c=d; a=b")) /\
  sent l3 foo (str "/") = Some (Some (str "a=b")) /\
  sent l3 (str "other.domain") (str "/some_path") = Some (Some (str "a=b")).
Proof. vm_compute. by split_and!. Qed.

Example client_test2 :
  let foo := str "foo.bar" in
  let l0 := [(str "a=b;path=" ++ quoted (str "/foo"), foo, Some (str "/bar/x"))] in
  let l1 := l0 ++ [(str "a=b;path=" ++ quoted (str "/bar"), foo, Some (str "/bar/x"))] in
  let l2 := l1 ++ [(str "a=b;path=" ++ quoted (str "/foo") ++ str ";max-age=0", foo, Some (str "/foo/x"))] in
  let l3 := l2 ++ [(str "a=b;path=" ++ quoted (str "/bar") ++ str ";max-age=0", foo, Some (str "/bar/x"))] in
  sent l0 foo (str "/") = Some None /\
  sent l1 foo (str "/bar") = Some (Some (str "a=b")) /\
  sent l2 foo (str "/bar") = Some (Some (str "a=b")) /\
  sent l3 foo (str "/bar") = Some None.
Proof. vm_compute. by split_and!. Qed.

Example server_test :
  let a := str "a=" ++ quoted (str "b") in
  let c := str "c=" ++ quoted (str "d") in
  let foo := str "foo=" ++ quoted (str "bar") in
  let s := str "; " in
  cookie_exclude foo (str "abc") = Some (Some foo) /\
  cookie_exclude foo (str "foo") = Some None /\
  cookie_exclude a (str "foo") = Some (Some a) /\
  cookie_exclude (str "foo=bar;a=b") (str "foo") = Some (Some (str "a=b")) /\
  cookie_exclude (str "a=b;foo=bar") (str "foo") = Some (Some (str "a=b")) /\
  cookie_exclude (a ++ s ++ foo ++ s ++ c) (str "foo") = Some (Some (a ++ s ++ c)) /\
  cookie_exclude (foo ++ s ++ c) (str "foo") = Some (Some c) /\
  cookie_exclude (a ++ s ++ foo) (str "foo") = Some (Some (a ++ s)) /\
  cookie_exclude (foo ++ s ++ a ++ s ++ foo ++ s ++ c) (str "foo") = Some (Some (a ++ str ";" ++ c)).
Proof. vm_compute. by split_and!. Qed.

Example extract_test :
  ExtractCookieRaw (str "a=b") (str "c") = Some None /\
  ExtractCookieRaw (str "a=b") (str "a") = Some (Some (str "b")) /\
  ExtractCookieRaw (str "c=d;e=f") (str "e") = Some (Some (str "f")) /\
  ExtractCookieRaw (str "quoted=" ++ [quote] ++ str "quoted!\\") (str "quoted") = Some (Some (str "quoted!\\")) /\
  ExtractCookieRaw (str "invalid1=foo" ++ [9]) (str "invalid1") = Some (Some (str "foo")) /\
  ExtractCookieRaw (str "invalid2=foo |[bar] ,") (str "invalid2") = Some (Some (str "foo |[bar] ,")) /\
  ExtractCookieRaw (str "xyz=[{(,)}];foo=bar;abc=(,)") (str "foo") = Some (Some (str "bar")).
Proof. vm_compute. by split_and!. Qed.

(** ** Where the code differs *)

(** White space after the semicolon, which browsers and servers send, hides the attributes: the
    cookie below is not restricted to its path, and it is not deleted by a maximum age of zero. *)
Example attributes_after_space_ignored :
  let foo := str "foo.bar" in
  sent [(str "a=b; path=/x", foo, None)] foo (str "/y") = Some (Some (str "a=b")) /\
  sent [(str "a=b;path=/x", foo, None)] foo (str "/y") = Some (Some (str "a=b")) /\
  sent [(str "a=b;path=" ++ quoted (str "/x"), foo, None)] foo (str "/y") = Some None /\
  sent [(str "a=b", foo, None); (str "a=b; max-age=0", foo, None)] foo (str "/") = Some (Some (str "a=b")).
Proof. vm_compute. by split_and!. Qed.

(** A cookie that is rejected ends the processing of the whole field. *)
Example rejected_cookie_drops_the_rest :
  sent [(str "a=b;domain=other, c=d", str "foo.bar", None)] (str "foo.bar") (str "/") = Some None /\
  sent [(str "c=d, a=b;domain=other", str "foo.bar", None)] (str "foo.bar") (str "/") = Some (Some (str "c=d")).
Proof. vm_compute. by split_and!. Qed.

(** A quoted value is stored with its escapes, and escaped again when it is sent. *)
Example quoted_value_escaped_twice :
  sent [(str "a=" ++ quoted (str "x\\y z"), str "foo.bar", None)] (str "foo.bar") (str "/") =
    Some (Some (str "a=" ++ quoted (str "x\\\\y z"))).
Proof. reflexivity. Qed.

(** Nothing is left, but the result is not null. *)
Example exclude_leaves_nothing :
  cookie_exclude (str ";foo=1") (str "foo") = Some (Some []) /\
  cookie_exclude (str " foo=1") (str "foo") = Some (Some (str " ")).
Proof. vm_compute. by split_and!. Qed.

(** ** Witnesses *)

Lemma cookie_exclude_exact_witness :
  let p := str "a=b; id=1 ;c=d" in
  exists r, cookie_exclude p (str "id") = Some r /\
    ExtractCookieRaw (default [] r) (str "id") = Some None /\
    ExtractCookieRaw (default [] r) (str "c") = Some (Some (str "d")).
Proof.
  intros p. destruct (cookie_exclude_exact (H := AsciiChars) p (str "id") ltac:(discriminate))
    as (r & E & _ & _ & Hx & Hn).
  exists r. split_and!; [exact E|exact Hx|].
  rewrite (Hn (str "c") ltac:(discriminate) ltac:(discriminate)). vm_compute. reflexivity.
Defined.

#[export] Instance AsciiStripLaws : StripLaws (CU := AsciiChars).
Proof. split. simpl. intros c H. by simpl_bool. Qed.

(** A jar with a cookie of another host and one of this host. *)
Definition test_jar : CookieJar :=
  [mkCookie (Some (str "b")) (Some (str "x y")) (Some (str ".bar")) (Some (str "/")) Never;
   mkCookie (Some (str "a")) (Some (str "1")) (Some (str "other")) None Never].

Lemma test_jar_ok : jar_ok test_jar.
Proof. repeat constructor; eexists; reflexivity. Qed.

Lemma set_cookie_isolated_witness :
  exists jar', cookie_jar_set_cookie2 now0 test_jar (str "a=2;domain=" ++ quoted (str ".bar")) (str "foo.bar") None = Some jar' /\
    foreign (str "foo.bar") jar' = foreign (str "foo.bar") test_jar.
Proof.
  destruct (set_cookie_isolated now0 test_jar (str "a=2;domain=" ++ quoted (str ".bar")) (str "foo.bar") None test_jar_ok)
    as (jar' & E & _ & F & _).
  exists jar'. split; [exact E|exact F].
Defined.

(** A cookie with a tabulator in its value, which is not sent. *)
Definition tab_jar : CookieJar :=
  mkCookie (Some (str "t")) (Some (str "x" ++ 9 :: str "y")) (Some (str "foo.bar")) None Never :: test_jar.

Lemma cookie_header_roundtrip_witness :
  cookie_jar_http_header_value tab_jar (str "foo.bar") (str "/index") =
    Some (Some (str "t=" ++ quoted (str "xy") ++ str "; b=" ++ quoted (str "x y"))) /\
  read_cookies 2 (str "t=" ++ quoted (str "xy") ++ str "; b=" ++ quoted (str "x y")) =
    Some [(str "t", str "xy"); (str "b", str "x y")].
Proof.
  assert (Hj : jar_ok tab_jar) by (constructor; [split_and!; by eexists|exact test_jar_ok]).
  destruct (cookie_header_roundtrip tab_jar (str "foo.bar") (str "/index") Hj) as (k & E & _ & Hall & Hread).
  assert (Hs : take k (pairs_for (str "foo.bar") (str "/index") tab_jar) =
    [(str "t", str "x" ++ 9 :: str "y"); (str "b", str "x y")]) by (rewrite Hall; [|apply Nat.leb_le]; vm_compute; reflexivity).
  rewrite Hs in E, Hread. split; [rewrite E; vm_compute; reflexivity|].
  refine (eq_trans _ (eq_trans (Hread _ _) _)); [vm_compute; reflexivity| |discriminate|vm_compute; reflexivity].
  repeat constructor; discriminate.
Defined.

Lemma set_cookie_sent_witness :
  exists jar', cookie_jar_set_cookie2 now0 test_jar (str "c=3; path=/; httponly") (str "foo.bar") None = Some jar' /\
    cookie_jar_http_header_value jar' (str "foo.bar") (str "/") =
      Some (Some (str "c=3; b=" ++ quoted (str "x y"))).
Proof.
  destruct (set_cookie_sent now0 test_jar (str "foo.bar") None (str "c") (str "3") (str "; path=/; httponly") (str "/") test_jar_ok)
    as (jar' & E & _ & H).
  - split; [discriminate|]. repeat constructor.
  - discriminate.
  - repeat constructor.
  - right. exists (str "path=/; httponly"). split; [reflexivity|]. intros c s Hs. vm_compute in Hs.
    injection Hs as <- _. split; discriminate.
  - exists jar'. split; [exact E|]. rewrite H by (apply Nat.leb_le; vm_compute; reflexivity). vm_compute. reflexivity.
Defined.
