(* ===== verification/ForwardHeaders.v ===== *)
(** * Forwarding header fields

    Models src/bp/ForwardHeaders.cxx, src/bp/ForwardHeaders.hxx and src/http/Upgrade.cxx: which header fields of
    a client's request are forwarded to another server, and which ones of its response come back.

    A header is a [StringMap], whose names are in lower case (the parser of header lines sees to that).  The
    groups and modes are an enumeration of the library.  [session_cookie] is null ([None]) if
    the request has no valid pointer; [None] as a result is a null pointer that is converted to
    a view, or an error in [Cookies]. *)

From Stdlib Require Import String.
From S2P Require Import Prelude CharUtil StdMap StrMap Uri HttpCacheRFC HttpHeaders Expiry SessionData Cookies.

(** translation/Headers.hxx *)
Inductive HeaderGroup :=
  | HG_ALL | HG_IDENTITY | HG_CAPABILITIES | HG_COOKIE | HG_OTHER | HG_FORWARD | HG_CORS | HG_SECURE
  | HG_TRANSFORMATION | HG_LINK | HG_SSL | HG_AUTH | HG_MAX.

Inductive HeaderForwardMode := FM_NO | FM_YES | FM_MANGLE | FM_BOTH.

#[export] Instance HeaderGroup_eq_dec : EqDecision HeaderGroup.
Proof. solve_decision. Defined.

#[export] Instance HeaderForwardMode_eq_dec : EqDecision HeaderForwardMode.
Proof. solve_decision. Defined.

Definition HeaderForwardSettings := HeaderGroup -> HeaderForwardMode.

Definition AllNo : HeaderForwardSettings := fun _ => FM_NO.

Definition set_mode (group : HeaderGroup) (mode : HeaderForwardMode) (s : HeaderForwardSettings) : HeaderForwardSettings :=
  fun g => if bool_decide (g = group) then mode else s g.

Definition IsCookieMangle (s : HeaderForwardSettings) : bool := bool_decide (s HG_COOKIE = FM_MANGLE).

Definition MakeDefaultRequest : HeaderForwardSettings :=
  set_mode HG_COOKIE FM_MANGLE (set_mode HG_CAPABILITIES FM_YES (set_mode HG_IDENTITY FM_MANGLE AllNo)).

Definition MakeDefaultResponse : HeaderForwardSettings :=
  set_mode HG_AUTH FM_MANGLE (set_mode HG_LINK FM_YES (set_mode HG_TRANSFORMATION FM_MANGLE
    (set_mode HG_COOKIE FM_MANGLE (set_mode HG_CAPABILITIES FM_YES AllNo)))).

(** The macro of product.h. *)
Class Product := { PRODUCT_TOKEN : list Z }.

Definition equals (s : list Z) (literal : string) : bool := bool_decide (s = str literal).
#[global] Arguments equals s literal%_string_scope.

(** The [if] statements of a [case]: the first one that returns. *)
Definition or_else {A} (a : option A) (b : option A) : option A :=
  match a with Some _ => a | None => b end.

Definition returns {A} (cond : bool) (a : A) : option A := if cond then Some a else None.

Section ForwardHeaders.
Context `{EO : ExpiryOps} `{EE : !EqDecision Expiry} `{HA : HttpAddressType}.
Context `{CU : CharUtil} `{UL : UriLib} `{TL : TokenLib} `{HS : HashSetOrder} `{TO : TrieOrder}.
Context `{NL : HeaderLib} `{PR : Product}.

Definition http_is_upgrade (headers : StringMap) : bool := StringMap_Contains (str "upgrade") headers.

Definition SWITCHING_PROTOCOLS : HttpStatus := 101.

Definition http_is_upgrade_response (status : HttpStatus) (headers : StringMap) : bool :=
  (status =? SWITCHING_PROTOCOLS) && http_is_upgrade headers.

(** ** Request header fields *)

Definition IsIfCacheHeader (name : list Z) : bool :=
  match StringAfterPrefix name (str "if-") with
  | Some i => equals i "modified-since" || equals i "unmodified-since" || equals i "match" ||
              equals i "none-match" || equals i "range"
  | None => false
  end.

(** The [switch] statement; [None]: it ends with [break]. *)
Definition request_group (name : list Z) (with_body is_upgrade : bool) : option HeaderGroup :=
  let c := cstr_at name 0 in
  if c =? chr "a" then
    or_else
      (match StringAfterPrefix name (str "accept") with
       | Some accept =>
           or_else (returns (bool_decide (accept = [])) HG_ALL)
             (returns (equals accept "-language" || equals accept "-charset" || equals accept "-encoding") HG_MAX)
       | None => None
       end)
      (or_else
        (match StringAfterPrefix name (str "access-control-request-") with
         | Some acr => returns (equals acr "method" || equals acr "headers") HG_CORS
         | None => None
         end)
        (returns (equals name "authorization") HG_AUTH))
  else if c =? chr "c" then
    or_else (returns (equals name "cache-control") HG_ALL)
      (or_else (returns (equals name "cookie" || equals name "cookie2") HG_COOKIE)
        (match StringAfterPrefix name (str "content-") with
         | Some content =>
             returns (equals content "encoding" || equals content "language" || equals content "md5" ||
                      equals content "range" || equals content "type" || equals content "disposition")
               (if with_body then HG_ALL else HG_MAX)
         | None => None
         end))
  else if c =? chr "f" then returns (equals name "from") HG_ALL
  else if c =? chr "i" then returns (IsIfCacheHeader name) HG_MAX
  else if c =? chr "h" then returns (equals name "host") HG_MAX
  else if c =? chr "o" then returns (equals name "origin") (if is_upgrade then HG_ALL else HG_CORS)
  else if c =? chr "r" then
    or_else (returns (equals name "referer") HG_LINK) (returns (equals name "range") HG_MAX)
  else if c =? chr "s" then returns (is_upgrade && StringStartsWith name (str "sec-websocket-")) HG_ALL
  else if c =? chr "u" then
    or_else (returns (is_upgrade && equals name "upgrade") HG_ALL) (returns (equals name "user-agent") HG_MAX)
  else if c =? chr "v" then returns (equals name "via") HG_MAX
  else if c =? chr "x" then
    match StringAfterPrefix name (str "x-cm4all-") with
    | Some c4 =>
        match StringAfterPrefix c4 (str "beng-") with
        | Some b =>
            Some (if equals b "peer-subject" || equals b "peer-issuer-subject" then HG_SSL else HG_SECURE)
        | None =>
            or_else (returns (equals c4 "https") HG_SSL) (returns (equals c4 "docroot") HG_MAX)
        end
    | None => returns (equals name "x-forwarded-for") HG_MAX
    end
  else None.

Definition ClassifyRequestHeader (name : list Z) (with_body is_upgrade : bool) : HeaderGroup :=
  match request_group name with_body is_upgrade with
  | Some group => group
  | None => if http_header_is_hop_by_hop name then HG_MAX else HG_OTHER
  end.

Definition forward_user_agent (dest src : StringMap) (mangle : bool) : StringMap :=
  let p := if negb mangle then StringMap_Get (str "user-agent") src else None in
  StringMap_Add (str "user-agent") (default PRODUCT_TOKEN p) dest.

Definition forward_via (dest src : StringMap) (local_host : option (list Z)) (mangle : bool) : StringMap :=
  match StringMap_Get (str "via") src with
  | None =>
      match local_host with
      | Some local_host => if mangle then StringMap_Add (str "via") (str "1.1 " ++ local_host) dest else dest
      | None => dest
      end
  | Some p =>
      match local_host with
      | Some local_host =>
          if negb mangle then StringMap_Add (str "via") p dest
          else StringMap_Add (str "via") (p ++ str ", 1.1 " ++ local_host) dest
      | None => StringMap_Add (str "via") p dest
      end
  end.

Definition forward_xff (dest src : StringMap) (remote_host : option (list Z)) (mangle : bool) : StringMap :=
  match StringMap_Get (str "x-forwarded-for") src with
  | None =>
      match remote_host with
      | Some remote_host => if mangle then StringMap_Add (str "x-forwarded-for") remote_host dest else dest
      | None => dest
      end
  | Some p =>
      match remote_host with
      | Some remote_host =>
          if negb mangle then StringMap_Add (str "x-forwarded-for") p dest
          else StringMap_Add (str "x-forwarded-for") (p ++ str ", " ++ remote_host) dest
      | None => StringMap_Add (str "x-forwarded-for") p dest
      end
  end.

Definition forward_identity (dest src : StringMap) (local_host remote_host : option (list Z)) (mangle : bool)
    : StringMap :=
  forward_xff (forward_via dest src local_host mangle) src remote_host mangle.

Definition compare_set_cookie_name (set_cookie name : list Z) : bool :=
  match StringAfterPrefix set_cookie name with
  | Some suffix => negb (IsAlphaNumericASCII (cstr_at suffix 0))
  | None => false
  end.

(** The parameters of [forward_request_headers()] that describe the request; the session is the realm session
    with the session it belongs to. *)
Record RequestParameters := mkRequestParameters {
  rq_local_host : option (list Z);
  rq_remote_host : option (list Z);
  rq_peer_subject : option (list Z);
  rq_peer_issuer_subject : option (list Z);
  rq_exclude_host : bool;
  rq_with_body : bool;
  rq_forward_charset : bool;
  rq_forward_encoding : bool;
  rq_forward_range : bool;
  rq_session_cookie : option (list Z);
  rq_session : option (Session * RealmSession);
  rq_user : option (list Z);
  rq_has_session : option (list Z);
  rq_host_and_port : option (list Z);
  rq_uri : option (list Z) }.

Definition session_language (session : option (Session * RealmSession)) : AllocatedString :=
  s ← session; sess_language (fst s).

(** Header fields with special handling. *)
Definition forward_special (r : RequestParameters) (settings : HeaderForwardSettings)
    (key value : list Z) (dest : StringMap) : StringMap :=
  if equals key "host" then
    let dest := if negb (rq_exclude_host r) then StringMap_Add key value dest else dest in
    if bool_decide (settings HG_FORWARD = FM_MANGLE) then StringMap_Add (str "x-forwarded-host") value dest else dest
  else if rq_forward_charset r && equals key "accept-charset" then StringMap_Add key value dest
  else if rq_forward_encoding r && equals key "accept-encoding" then StringMap_Add key value dest
  else if is_null (session_language (rq_session r)) && equals key "accept-language" then StringMap_Add key value dest
  else if rq_forward_range r && (equals key "range" || IsIfCacheHeader key) then StringMap_Add key value dest
  else dest.

(** The value of a cookie header in mode BOTH; the inner [option]: [continue]. *)
Definition forward_cookie_both (r : RequestParameters) (key value : list Z) : option (option (list Z)) :=
  if equals key "cookie2" then Some (Some value)
  else if equals key "cookie" then
    session_cookie ← rq_session_cookie r;
    cookie_exclude value session_cookie
  else Some None.

(** One iteration of the loop over the header fields of the client. *)
Definition forward_request_item (r : RequestParameters) (settings : HeaderForwardSettings) (is_upgrade : bool)
    (dest : StringMap) (i : list Z * list Z) : option StringMap :=
  let '(key, value) := i in
  let group := ClassifyRequestHeader key (rq_with_body r) is_upgrade in
  if bool_decide (group = HG_ALL) then Some (StringMap_Add key value dest)
  else if bool_decide (group = HG_MAX) then Some (forward_special r settings key value dest)
  else
    match settings group with
    | FM_NO => Some dest
    | FM_YES => Some (StringMap_Add key value dest)
    | FM_BOTH =>
        if bool_decide (group = HG_COOKIE) then
          value ← forward_cookie_both r key value;
          Some (match value with Some value => StringMap_Add key value dest | None => dest end)
        else Some dest
    | FM_MANGLE => Some dest
    end.

Fixpoint forward_request_items (r : RequestParameters) (settings : HeaderForwardSettings) (is_upgrade : bool)
    (dest src : StringMap) : option StringMap :=
  match src with
  | [] => Some dest
  | i :: src =>
      dest ← forward_request_item r settings is_upgrade dest i;
      forward_request_items r settings is_upgrade dest src
  end.

Definition add_opt (key : list Z) (value : option (list Z)) (dest : StringMap) : StringMap :=
  match value with Some value => StringMap_Add key value dest | None => dest end.

(** The rest of [forward_request_headers()], one [if] after the other. *)

Definition add_cookie_jar (r : RequestParameters) (settings : HeaderForwardSettings) (dest : StringMap)
    : option StringMap :=
  match rq_session r, rq_host_and_port r, rq_uri r with
  | Some (_, session), Some host_and_port, Some uri =>
      if bool_decide (settings HG_COOKIE = FM_MANGLE)
      then cookie_jar_http_header (realm_cookies session) host_and_port uri dest else Some dest
  | _, _, _ => Some dest
  end.

Definition add_user (r : RequestParameters) (settings : HeaderForwardSettings) (dest : StringMap) : StringMap :=
  match rq_user r with
  | Some user =>
      if bool_decide (settings HG_SECURE = FM_MANGLE) then
        add_opt (str "x-cm4all-beng-has-session") (rq_has_session r) (StringMap_Add (str "x-cm4all-beng-user") user dest)
      else dest
  | None => dest
  end.

Definition add_authorization (r : RequestParameters) (settings : HeaderForwardSettings) (dest : StringMap) : StringMap :=
  match rq_user r with
  | Some user =>
      if bool_decide (settings HG_AUTH = FM_MANGLE)
      then StringMap_Add (str "authorization") (str "Bearer " ++ user) dest else dest
  | None => dest
  end.

Definition add_capabilities (src : StringMap) (settings : HeaderForwardSettings) (dest : StringMap) : StringMap :=
  if bool_decide (settings HG_CAPABILITIES = FM_NO) then dest
  else forward_user_agent dest src (bool_decide (settings HG_CAPABILITIES = FM_MANGLE)).

Definition add_identity (src : StringMap) (r : RequestParameters) (settings : HeaderForwardSettings) (dest : StringMap)
    : StringMap :=
  if bool_decide (settings HG_IDENTITY = FM_NO) then dest
  else forward_identity dest src (rq_local_host r) (rq_remote_host r) (bool_decide (settings HG_IDENTITY = FM_MANGLE)).

Definition add_ssl (r : RequestParameters) (settings : HeaderForwardSettings) (dest : StringMap) : StringMap :=
  if bool_decide (settings HG_SSL = FM_MANGLE) then
    add_opt (str "x-cm4all-beng-peer-issuer-subject") (rq_peer_issuer_subject r)
      (add_opt (str "x-cm4all-beng-peer-subject") (rq_peer_subject r) dest)
  else dest.

Definition forward_request_headers (src : StringMap) (r : RequestParameters) (settings : HeaderForwardSettings)
    : option StringMap :=
  let is_upgrade := rq_with_body r && http_is_upgrade src in
  dest ← forward_request_items r settings is_upgrade [] src;
  dest ← add_cookie_jar r settings dest;
  let dest := add_opt (str "accept-language") (session_language (rq_session r)) dest in
  let dest := add_user r settings dest in
  let dest := add_authorization r settings dest in
  let dest := add_capabilities src settings dest in
  let dest := add_identity src r settings dest in
  Some (add_ssl r settings dest).

(** ** Response header fields *)

Definition response_group (name : list Z) (is_upgrade : bool) : option HeaderGroup :=
  let c := cstr_at name 0 in
  if c =? chr "a" then
    or_else (returns (equals name "accept-ranges" || equals name "age" || equals name "allow") HG_ALL)
      (or_else
        (match StringAfterPrefix name (str "access-control-") with
         | Some acr =>
             returns (equals acr "allow-origin" || equals acr "allow-credentials" || equals acr "expose-headers" ||
                      equals acr "max-age" || equals acr "allow-methods" || equals acr "allow-headers") HG_CORS
         | None => None
         end)
        (returns (equals name "authentication-info") HG_AUTH))
  else if c =? chr "c" then
    match StringAfterPrefix name (str "content-") with
    | Some content =>
        or_else
          (returns (equals content "encoding" || equals content "language" || equals content "md5" ||
                    equals content "range" || equals content "security-policy" || equals content "type" ||
                    equals content "disposition") HG_ALL)
          (returns (equals content "location") HG_LINK)
    | None => returns (equals name "cache-control") HG_ALL
    end
  else if c =? chr "d" then
    or_else (returns (equals name "date") HG_MAX) (returns (equals name "digest") HG_ALL)
  else if c =? chr "e" then returns (equals name "etag" || equals name "expires") HG_ALL
  else if c =? chr "l" then
    or_else (returns (equals name "last-modified") HG_ALL) (returns (equals name "location") HG_LINK)
  else if c =? chr "r" then returns (equals name "retry-after") HG_ALL
  else if c =? chr "s" then
    or_else (returns (is_upgrade && StringStartsWith name (str "sec-websocket-")) HG_ALL)
      (or_else (returns (equals name "server") HG_CAPABILITIES)
        (returns (equals name "set-cookie" || equals name "set-cookie2") HG_COOKIE))
  else if c =? chr "u" then returns (is_upgrade && equals name "upgrade") HG_ALL
  else if c =? chr "v" then
    or_else (returns (equals name "vary") HG_ALL) (returns (equals name "via") HG_MAX)
  else if c =? chr "w" then returns (equals name "www-authenticate") HG_AUTH
  else if c =? chr "x" then
    match StringAfterPrefix name (str "x-cm4all-") with
    | Some c4 =>
        match StringAfterPrefix c4 (str "beng-") with
        | Some b =>
            Some (if equals b "peer-subject" || equals b "peer-issuer-subject" then HG_OTHER else HG_SECURE)
        | None =>
            or_else (returns (equals c4 "https") HG_SSL)
              (or_else (returns (equals c4 "generator") HG_IDENTITY) (returns (equals c4 "view") HG_TRANSFORMATION))
        end
    | None =>
        or_else (returns (equals name "x-content-type-options") HG_ALL)
          (returns (equals name "x-frame-options") HG_ALL)
    end
  else None.

Definition ClassifyResponseHeader (name : list Z) (is_upgrade : bool) : HeaderGroup :=
  match response_group name is_upgrade with
  | Some group => group
  | None => if http_header_is_hop_by_hop name then HG_MAX else HG_OTHER
  end.

Definition forward_response_item (session_cookie : option (list Z)) (relocate : option (list Z -> option (list Z)))
    (settings : HeaderForwardSettings) (is_upgrade : bool) (dest : StringMap) (i : list Z * list Z) : StringMap :=
  let '(key, value) := i in
  let group := ClassifyResponseHeader key is_upgrade in
  if bool_decide (group = HG_ALL) then StringMap_Add key value dest
  else if bool_decide (group = HG_MAX) then dest
  else
    match settings group with
    | FM_NO => dest
    | FM_YES => StringMap_Add key value dest
    | FM_BOTH =>
        if bool_decide (group = HG_COOKIE) &&
           match session_cookie with
           | None => true
           | Some session_cookie => negb (compare_set_cookie_name value session_cookie)
           end
        then StringMap_Add key value dest else dest
    | FM_MANGLE =>
        match relocate with
        | Some relocate => if bool_decide (group = HG_LINK) then add_opt key (relocate value) dest else dest
        | None => dest
        end
    end.

Definition forward_response_headers (status : HttpStatus) (src : StringMap) (local_host session_cookie : option (list Z))
    (relocate : option (list Z -> option (list Z))) (settings : HeaderForwardSettings) : StringMap :=
  let is_upgrade := http_is_upgrade_response status src in
  let dest := fold_left (forward_response_item session_cookie relocate settings is_upgrade) src [] in
  if bool_decide (settings HG_IDENTITY = FM_NO) then dest
  else forward_via dest src local_host (bool_decide (settings HG_IDENTITY = FM_MANGLE)).

Definition forward_reveal_user (headers : StringMap) (user : option (list Z)) : StringMap :=
  StringMap_SecureSet (str "x-cm4all-beng-user") user headers.

End ForwardHeaders.
