(* ===== verification/ForwardHeadersFacts.v ===== *)
(** * Theorems about forwarded header fields

    Where every field of the result comes from, and what follows from that: fields by which this server talks to its
    backends cannot be forged by clients, the session cookie stays here, and hop-by-hop fields are not
    forwarded.  The examples at the end are unit tests of the program (test/t_header_forward.cxx). *)

From Stdlib Require Import String.
From S2P Require Import Prelude CharUtil StdMap StrMap Uri UriCompress UriInstance HttpCacheRFC HttpHeaders Expiry SessionData Cookies.
From S2P Require Import CookieFacts ForwardHeaders.

(** ** Lists of fields *)

Lemma elem_of_add `{HashSetOrder} k v k' v' m :
  (k, v) ∈ StringMap_Add k' v' m <-> (k = k' /\ v = v') \/ (k, v) ∈ m.
Proof.
  unfold StringMap_Add. rewrite hs_insert_perm, elem_of_cons. naive_solver.
Qed.

Lemma elem_of_add_opt `{HashSetOrder} k v k' o m :
  (k, v) ∈ add_opt k' o m <-> (k = k' /\ o = Some v) \/ (k, v) ∈ m.
Proof. destruct o; simpl; [rewrite elem_of_add|]; naive_solver. Qed.

Lemma equals_true s l : equals s l = true <-> s = str l.
Proof. apply bool_decide_eq_true. Qed.

Section Facts.
Context `{EO : ExpiryOps} `{EE : !EqDecision Expiry} `{HA : HttpAddressType}.
Context `{CU : CharUtil} `{UL : UriLib} `{TL : TokenLib} `{HS : HashSetOrder} `{TO : TrieOrder}.
Context `{NL : HeaderLib} `{PR : Product}.
Context `{HUL : !UriLaws} `{HTL : !TokenLaws}.

Lemma after_prefix_eq s p : StringAfterPrefix s p = if starts_with s p then Some (drop (length p) s) else None.
Proof.
  destruct (starts_with s p) eqn:E.
  - apply starts_with_spec in E as [t ->]. by rewrite StringAfterPrefix_found, drop_app_length.
  - apply StringAfterPrefix_missing. intros Hp. apply starts_with_spec in Hp. congruence.
Qed.

(** ** Where a field of a request comes from *)

Definition special_name (k : list Z) : Prop :=
  k ∈ map str ["host"; "accept-charset"; "accept-encoding"; "accept-language"; "range"]%string \/
  IsIfCacheHeader k = true.

Inductive from_client (r : RequestParameters) (settings : HeaderForwardSettings) (up : bool)
    : list Z * list Z -> list Z * list Z -> Prop :=
  | FC_all k v :
      ClassifyRequestHeader k (rq_with_body r) up = HG_ALL -> from_client r settings up (k, v) (k, v)
  | FC_special k v :
      ClassifyRequestHeader k (rq_with_body r) up = HG_MAX -> special_name k ->
      from_client r settings up (k, v) (k, v)
  | FC_host v :
      settings HG_FORWARD = FM_MANGLE ->
      from_client r settings up (str "host", v) (str "x-forwarded-host", v)
  | FC_group k v group :
      ClassifyRequestHeader k (rq_with_body r) up = group -> group <> HG_ALL -> group <> HG_MAX ->
      settings group = FM_YES -> from_client r settings up (k, v) (k, v)
  | FC_cookie k v v' :
      ClassifyRequestHeader k (rq_with_body r) up = HG_COOKIE -> settings HG_COOKIE = FM_BOTH ->
      forward_cookie_both r k v = Some (Some v') -> from_client r settings up (k, v) (k, v').

Inductive from_here (r : RequestParameters) (settings : HeaderForwardSettings) : list Z * list Z -> Prop :=
  | FH_cookie v : settings HG_COOKIE = FM_MANGLE -> is_Some (rq_session r) -> from_here r settings (str "cookie", v)
  | FH_cookie2 v : settings HG_COOKIE = FM_MANGLE -> is_Some (rq_session r) -> from_here r settings (str "cookie2", v)
  | FH_language v : session_language (rq_session r) = Some v -> from_here r settings (str "accept-language", v)
  | FH_user v : settings HG_SECURE = FM_MANGLE -> rq_user r = Some v -> from_here r settings (str "x-cm4all-beng-user", v)
  | FH_has_session v : settings HG_SECURE = FM_MANGLE -> is_Some (rq_user r) -> rq_has_session r = Some v ->
      from_here r settings (str "x-cm4all-beng-has-session", v)
  | FH_auth v : settings HG_AUTH = FM_MANGLE -> rq_user r = Some v ->
      from_here r settings (str "authorization", str "Bearer " ++ v)
  | FH_agent v : settings HG_CAPABILITIES <> FM_NO -> from_here r settings (str "user-agent", v)
  | FH_via v : settings HG_IDENTITY <> FM_NO -> from_here r settings (str "via", v)
  | FH_xff v : settings HG_IDENTITY <> FM_NO -> from_here r settings (str "x-forwarded-for", v)
  | FH_subject v : settings HG_SSL = FM_MANGLE -> rq_peer_subject r = Some v ->
      from_here r settings (str "x-cm4all-beng-peer-subject", v)
  | FH_issuer v : settings HG_SSL = FM_MANGLE -> rq_peer_issuer_subject r = Some v ->
      from_here r settings (str "x-cm4all-beng-peer-issuer-subject", v).

Lemma forward_special_elem r settings up key value dest k v :
  ClassifyRequestHeader key (rq_with_body r) up = HG_MAX ->
  (k, v) ∈ forward_special r settings key value dest ->
  (k, v) ∈ dest \/ from_client r settings up (key, value) (k, v).
Proof.
  intros Hc. unfold forward_special.
  assert (Hsp : special_name key -> (k, v) ∈ StringMap_Add key value dest ->
                (k, v) ∈ dest \/ from_client r settings up (key, value) (k, v)).
  { intros Hs [[-> ->]|?]%elem_of_add; [right; by apply FC_special|by left]. }
  assert (Hn : forall l, l ∈ ["host"; "accept-charset"; "accept-encoding"; "accept-language"; "range"]%string ->
                equals key l = true -> special_name key).
  { intros l Hl ->%equals_true. left. by apply list_elem_of_fmap_2. }
  destruct (equals key "host") eqn:E0.
  - assert (Hd : (k, v) ∈ (if negb (rq_exclude_host r) then StringMap_Add key value dest else dest) ->
                 (k, v) ∈ dest \/ from_client r settings up (key, value) (k, v)).
    { destruct (negb _); [apply Hsp; apply (Hn "host"%string); [set_solver|done]|auto]. }
    case_bool_decide as Hm; [|done]. rewrite elem_of_add. intros [[-> ->]|H]; [|auto].
    right. apply equals_true in E0 as ->. by apply FC_host.
  - destruct (rq_forward_charset r && _) eqn:E1; [apply Hsp; simpl_bool; eapply Hn; [|done]; set_solver|].
    destruct (rq_forward_encoding r && _) eqn:E2; [apply Hsp; simpl_bool; eapply Hn; [|done]; set_solver|].
    destruct (is_null _ && _) eqn:E3; [apply Hsp; simpl_bool; eapply Hn; [|done]; set_solver|].
    destruct (rq_forward_range r && _) eqn:E4; [|auto]. apply Hsp. simpl_bool.
    destruct H0; [eapply Hn; [|done]; set_solver|by right].
Qed.

Lemma forward_request_item_elem r settings up dest i dest' k v :
  forward_request_item r settings up dest i = Some dest' -> (k, v) ∈ dest' ->
  (k, v) ∈ dest \/ from_client r settings up i (k, v).
Proof.
  destruct i as [key value]. unfold forward_request_item. intros E Hin.
  case_bool_decide as E1.
  { injection E as <-. apply elem_of_add in Hin as [[-> ->]|?]; [right; by apply FC_all|by left]. }
  case_bool_decide as E2; [injection E as <-; by eapply forward_special_elem|].
  destruct (settings _) eqn:Em; try (injection E as <-; by left).
  - injection E as <-. apply elem_of_add in Hin as [[-> ->]|?]; [right; by eapply FC_group|by left].
  - case_bool_decide as E3; [|injection E as <-; by left].
    destruct (forward_cookie_both r key value) as [[v'|]|] eqn:Ec; simpl in E; try done; injection E as <-; [|by left].
    apply elem_of_add in Hin as [[-> ->]|?]; [right|by left]. rewrite E3 in Em. by apply FC_cookie.
Qed.

Lemma forward_request_items_elem r settings up dest src dest' k v :
  forward_request_items r settings up dest src = Some dest' -> (k, v) ∈ dest' ->
  (k, v) ∈ dest \/ exists i, i ∈ src /\ from_client r settings up i (k, v).
Proof.
  revert dest. induction src as [|i src IH]; intros dest; simpl; [intros [= <-]; auto|].
  destruct (forward_request_item r settings up dest i) as [d|] eqn:E; [|done]. simpl. intros E' Hin.
  destruct (IH d E' Hin) as [H|(j & Hj & H)].
  - destruct (forward_request_item_elem _ _ _ _ _ _ _ _ E H) as [?|?]; [by left|]. right. exists i. split; [left|done].
  - right. exists j. split; [by right|done].
Qed.

Lemma forward_via_elem dest src h m k v :
  (k, v) ∈ forward_via dest src h m -> k = str "via" \/ (k, v) ∈ dest.
Proof. unfold forward_via. repeat case_match; rewrite ?elem_of_add; naive_solver. Qed.

Lemma forward_xff_elem dest src h m k v :
  (k, v) ∈ forward_xff dest src h m -> k = str "x-forwarded-for" \/ (k, v) ∈ dest.
Proof. unfold forward_xff. repeat case_match; rewrite ?elem_of_add; naive_solver. Qed.

(** A step at the end of [forward_request_headers] adds fields that are made here. *)
Definition made_here (r : RequestParameters) (settings : HeaderForwardSettings) (dest dest' : StringMap) : Prop :=
  forall p, p ∈ dest' -> from_here r settings p \/ p ∈ dest.

Lemma add_cookie_jar_made r settings dest dest' :
  add_cookie_jar r settings dest = Some dest' -> made_here r settings dest dest'.
Proof.
  unfold add_cookie_jar. intros E [k v] Hin.
  destruct (rq_session r) as [[s rs]|] eqn:Es; [|injection E as <-; by right].
  destruct (rq_host_and_port r), (rq_uri r); try (injection E as <-; by right).
  case_bool_decide; [|injection E as <-; by right]. unfold cookie_jar_http_header in E.
  destruct (cookie_jar_http_header_value _ _ _) as [[c|]|]; try done; injection E as <-; [|by right].
  rewrite !elem_of_add in Hin. destruct Hin as [[-> ->]|[[-> ->]|?]]; [left|left|by right].
  - apply FH_cookie; [done|]. by rewrite Es.
  - apply FH_cookie2; [done|]. by rewrite Es.
Qed.

Lemma add_language_made r settings dest :
  made_here r settings dest (add_opt (str "accept-language") (session_language (rq_session r)) dest).
Proof. intros [k v] [[-> ?]|?]%elem_of_add_opt; [left; by apply FH_language|by right]. Qed.

Lemma add_user_made r settings dest : made_here r settings dest (add_user r settings dest).
Proof.
  unfold add_user. intros [k v]. destruct (rq_user r) as [u|] eqn:Eu; [|by right]. case_bool_decide; [|by right].
  rewrite elem_of_add_opt, elem_of_add. intros [[-> ?]|[[-> ->]|?]]; [left|left|by right].
  - apply FH_has_session; [done| |done]. by rewrite Eu.
  - by apply FH_user.
Qed.

Lemma add_authorization_made r settings dest : made_here r settings dest (add_authorization r settings dest).
Proof.
  unfold add_authorization. intros [k v]. destruct (rq_user r) as [u|] eqn:Eu; [|by right].
  case_bool_decide; [|by right]. intros [[-> ->]|?]%elem_of_add; [left; by apply FH_auth|by right].
Qed.

Lemma add_capabilities_made src r settings dest : made_here r settings dest (add_capabilities src settings dest).
Proof.
  unfold add_capabilities. intros [k v]. case_bool_decide; [by right|].
  unfold forward_user_agent. intros [[-> ->]|?]%elem_of_add; [left; by apply FH_agent|by right].
Qed.

Lemma add_identity_made src r settings dest : made_here r settings dest (add_identity src r settings dest).
Proof.
  unfold add_identity. intros [k v]. case_bool_decide; [by right|].
  intros [->|[->|?]%forward_via_elem]%forward_xff_elem;
    [left; by apply FH_xff|left; by apply FH_via|by right].
Qed.

Lemma add_ssl_made r settings dest : made_here r settings dest (add_ssl r settings dest).
Proof.
  unfold add_ssl. intros [k v]. case_bool_decide; [|by right]. rewrite !elem_of_add_opt.
  intros [[-> ?]|[[-> ?]|?]]; [left; by apply FH_issuer|left; by apply FH_subject|by right].
Qed.

Lemma made_here_trans r settings d1 d2 d3 :
  made_here r settings d1 d2 -> made_here r settings d2 d3 -> made_here r settings d1 d3.
Proof. intros H1 H2 p Hp. destruct (H2 p Hp); auto. Qed.

(** Every field is one of the client, or it was made here. *)
Lemma forward_request_elem src r settings dest k v :
  forward_request_headers src r settings = Some dest -> (k, v) ∈ dest ->
  from_here r settings (k, v) \/
  exists i, i ∈ src /\ from_client r settings (rq_with_body r && http_is_upgrade src) i (k, v).
Proof.
  unfold forward_request_headers. intros E Hin.
  destruct (forward_request_items _ _ _ [] src) as [d1|] eqn:E1; [|done]. simpl in E.
  destruct (add_cookie_jar r settings d1) as [d2|] eqn:E2; [|done]. simpl in E. injection E as <-.
  assert (H : made_here r settings d1 (add_ssl r settings (add_identity src r settings (add_capabilities src settings
            (add_authorization r settings (add_user r settings
               (add_opt (str "accept-language") (session_language (rq_session r)) d2))))))).
  { eapply made_here_trans; [|apply add_ssl_made]. eapply made_here_trans; [|apply add_identity_made].
    eapply made_here_trans; [|apply add_capabilities_made]. eapply made_here_trans; [|apply add_authorization_made].
    eapply made_here_trans; [|apply add_user_made]. eapply made_here_trans; [|apply add_language_made].
    by apply add_cookie_jar_made. }
  destruct (H _ Hin) as [?|H1]; [by left|]. right.
  by destruct (forward_request_items_elem _ _ _ _ _ _ _ _ E1 H1) as [?%elem_of_nil|?].
Qed.

(** ** Classification *)

Lemma class_beng b with_body up :
  ClassifyRequestHeader (str "x-cm4all-beng-" ++ b) with_body up =
  if equals b "peer-subject" || equals b "peer-issuer-subject" then HG_SSL else HG_SECURE.
Proof.
  unfold ClassifyRequestHeader, request_group.
  change (str "x-cm4all-beng-" ++ b) with (str "x-cm4all-" ++ str "beng-" ++ b).
  rewrite StringAfterPrefix_found. cbv zeta. change (cstr_at _ 0) with (chr "x").
  simpl. by rewrite (StringAfterPrefix_found (str "beng-") b).
Qed.

(** The name of a field of the client does not change, but for the host. *)
Lemma from_client_key r settings up i k v :
  from_client r settings up i (k, v) -> k = fst i \/ k = str "x-forwarded-host".
Proof. inversion 1; subst; auto. Qed.

Lemma not_special_x k : str "x-" `prefix_of` k -> ~ special_name k.
Proof.
  intros [t ->] [H|H].
  - unfold special_name in *. repeat (apply elem_of_cons in H as [H|H]; [discriminate H|]). by apply elem_of_nil in H.
  - unfold IsIfCacheHeader in H. by rewrite after_prefix_eq in H.
Qed.

Definition trusted (r : RequestParameters) (settings : HeaderForwardSettings) (k v : list Z) : Prop :=
  settings HG_SECURE = FM_MANGLE /\
    (k = str "x-cm4all-beng-user" /\ rq_user r = Some v \/
     k = str "x-cm4all-beng-has-session" /\ rq_has_session r = Some v) \/
  settings HG_SSL = FM_MANGLE /\
    (k = str "x-cm4all-beng-peer-subject" /\ rq_peer_subject r = Some v \/
     k = str "x-cm4all-beng-peer-issuer-subject" /\ rq_peer_issuer_subject r = Some v).

(** The group of a field whose name starts with x-cm4all-beng-. *)
Definition beng_group (k : list Z) : HeaderGroup :=
  if equals k "x-cm4all-beng-peer-subject" || equals k "x-cm4all-beng-peer-issuer-subject" then HG_SSL else HG_SECURE.

Lemma str_app a b : str (a ++ b)%string = str a ++ str b.
Proof. unfold str. induction a as [|c a IH]; [done|]. change (String c a ++ b)%string with (String c (a ++ b)). simpl. by f_equal. Qed.

Lemma equals_app a b c : equals (str a ++ b) (a ++ c)%string = equals b c.
Proof.
  apply eq_bool_prop_intro. rewrite !Is_true_true, !equals_true, str_app. split; [apply app_inv_head|by intros ->].
Qed.

Lemma class_beng_group k with_body up : str "x-cm4all-beng-" `prefix_of` k ->
  ClassifyRequestHeader k with_body up = beng_group k.
Proof.
  intros [b ->]. rewrite class_beng. unfold beng_group.
  change "x-cm4all-beng-peer-subject"%string with ("x-cm4all-beng-" ++ "peer-subject")%string.
  change "x-cm4all-beng-peer-issuer-subject"%string with ("x-cm4all-beng-" ++ "peer-issuer-subject")%string.
  by rewrite !equals_app.
Qed.

Lemma client_beng r settings up i k v : str "x-cm4all-beng-" `prefix_of` k ->
  from_client r settings up i (k, v) -> i = (k, v) /\ settings (beng_group k) = FM_YES.
Proof.
  intros Hp H.
  assert (Hx : ~ special_name k) by (apply not_special_x; destruct Hp as [b ->]; by eexists).
  assert (Hne : k <> str "x-forwarded-host") by (by destruct Hp as [b ->]).
  pose proof (class_beng_group k (rq_with_body r) up Hp) as Hc.
  assert (Hg : beng_group k = HG_SSL \/ beng_group k = HG_SECURE) by (unfold beng_group; destruct (_ || _); auto).
  clear Hp. inversion H; subst; try (destruct Hg; congruence). split; [done|]. congruence.
Qed.

(** ** Hop-by-hop fields *)

Definition hop_by_hop_names : list (list Z) :=
  map str ["connection"; "keep-alive"; "proxy-authenticate"; "proxy-authorization"; "te"; "trailer";
           "transfer-encoding"; "upgrade"]%string.

Lemma class_hop_by_hop k with_body up :
  k ∈ hop_by_hop_names -> http_header_is_hop_by_hop k = true -> (k = str "upgrade" -> up = false) ->
  ClassifyRequestHeader k with_body up = HG_MAX /\ ClassifyResponseHeader k up = HG_MAX /\ ~ special_name k.
Proof.
  intros Hk Hh Hup. unfold ClassifyRequestHeader, ClassifyResponseHeader, request_group, response_group, special_name, IsIfCacheHeader.
  repeat (apply elem_of_cons in Hk as [->|Hk];
    [try rewrite (Hup eq_refl); rewrite Hh, !after_prefix_eq; split_and!; [reflexivity|reflexivity|];
     intros [H|H]; [|discriminate H];
     repeat (apply elem_of_cons in H as [H|H]; [discriminate H|]); by apply elem_of_nil in H|]).
  by apply elem_of_nil in Hk.
Qed.

(** ** Where a field of a response comes from *)

Inductive from_server (session_cookie : option (list Z)) (relocate : option (list Z -> option (list Z)))
    (settings : HeaderForwardSettings) (up : bool) : list Z * list Z -> list Z * list Z -> Prop :=
  | FS_all k v : ClassifyResponseHeader k up = HG_ALL -> from_server session_cookie relocate settings up (k, v) (k, v)
  | FS_group k v group :
      ClassifyResponseHeader k up = group -> group <> HG_ALL -> group <> HG_MAX -> settings group = FM_YES ->
      from_server session_cookie relocate settings up (k, v) (k, v)
  | FS_cookie k v :
      ClassifyResponseHeader k up = HG_COOKIE -> settings HG_COOKIE = FM_BOTH ->
      (forall name, session_cookie = Some name -> compare_set_cookie_name v name = false) ->
      from_server session_cookie relocate settings up (k, v) (k, v)
  | FS_link k v v' f :
      ClassifyResponseHeader k up = HG_LINK -> settings HG_LINK = FM_MANGLE -> relocate = Some f -> f v = Some v' ->
      from_server session_cookie relocate settings up (k, v) (k, v').

Lemma forward_response_item_elem sc rel settings up dest i p :
  p ∈ forward_response_item sc rel settings up dest i -> p ∈ dest \/ from_server sc rel settings up i p.
Proof.
  destruct i as [key value], p as [k v]. unfold forward_response_item.
  case_bool_decide as E1; [intros [[-> ->]|?]%elem_of_add; [right; by apply FS_all|by left]|].
  case_bool_decide as E2; [by left|].
  destruct (settings _) eqn:Em; [by left| | |].
  - intros [[-> ->]|?]%elem_of_add; [right; by eapply FS_group|by left].
  - destruct rel as [f|]; [|by left]. case_bool_decide as E3; [|by left].
    intros [[-> Hf]|?]%elem_of_add_opt; [right|by left]. rewrite E3 in Em. by eapply FS_link.
  - destruct (_ && _) eqn:E3; [|by left]. simpl_bool. rewrite H in Em.
    intros [[-> ->]|?]%elem_of_add; [right|by left]. apply FS_cookie; [done|done|].
    intros name ->. by apply negb_true_iff.
Qed.

Lemma forward_response_elem status src local_host sc rel settings k v :
  (k, v) ∈ forward_response_headers status src local_host sc rel settings ->
  k = str "via" \/ exists i, i ∈ src /\ from_server sc rel settings (http_is_upgrade_response status src) i (k, v).
Proof.
  unfold forward_response_headers. set (up := http_is_upgrade_response status src). intros Hin.
  assert (H : k = str "via" \/ (k, v) ∈ fold_left (forward_response_item sc rel settings up) src []).
  { case_bool_decide; [by right|]. by apply forward_via_elem in Hin. }
  destruct H as [?|H]; [by left|]. right. clear Hin.
  assert (Hf : forall dest, (k, v) ∈ fold_left (forward_response_item sc rel settings up) src dest ->
           (k, v) ∈ dest \/ exists i, i ∈ src /\ from_server sc rel settings up i (k, v)).
  { clear H. clearbody up. induction src as [|i l IH]; intros dest Hd; simpl in Hd; [by left|].
    destruct (IH _ Hd) as [Hi|(j & Hj & Hs)].
    - apply forward_response_item_elem in Hi as [?|?]; [by left|]. right. exists i. split; [left|done].
    - right. exists j. split; [by right|done]. }
  by destruct (Hf [] H) as [?%elem_of_nil|?].
Qed.

(** ** Cookies *)

Lemma class_cookie with_body up : ClassifyRequestHeader (str "cookie") with_body up = HG_COOKIE.
Proof. unfold ClassifyRequestHeader, request_group. by rewrite !after_prefix_eq. Qed.

Lemma class_set_cookie up : ClassifyResponseHeader (str "set-cookie") up = HG_COOKIE.
Proof.
  unfold ClassifyResponseHeader, response_group. rewrite !after_prefix_eq, StringStartsWith_spec.
  rewrite (bool_decide_eq_false_2 (str "sec-websocket-" `prefix_of` str "set-cookie")).
  - rewrite andb_false_r. reflexivity.
  - intros [t H]. discriminate H.
Qed.

Lemma cookie_not_special : ~ special_name (str "cookie").
Proof.
  intros [H|H].
  - repeat (apply elem_of_cons in H as [H|H]; [discriminate H|]). by apply elem_of_nil in H.
  - unfold IsIfCacheHeader in H. by rewrite after_prefix_eq in H.
Qed.

(** The loop ends, whatever the header fields are, if there is a session cookie. *)
Lemma forward_request_items_total r settings up dest src :
  (settings HG_COOKIE = FM_BOTH -> exists sc, rq_session_cookie r = Some sc /\ sc <> []) ->
  exists dest', forward_request_items r settings up dest src = Some dest'.
Proof.
  intros Hsc. revert dest. induction src as [|[k v] src IH]; intros dest; simpl; [eauto|].
  assert (exists d, forward_request_item r settings up dest (k, v) = Some d) as (d & Ed).
  { unfold forward_request_item. case_bool_decide; [eauto|]. case_bool_decide; [eauto|].
    destruct (settings (ClassifyRequestHeader k _ up)) eqn:Em; eauto. case_bool_decide as Ec; [|eauto]. rewrite Ec in Em.
    destruct (Hsc Em) as (sc & Esc & Hne). unfold forward_cookie_both.
    destruct (equals k "cookie2"); simpl; [eauto|]. destruct (equals k "cookie"); simpl; [|eauto].
    rewrite Esc. simpl. destruct (cookie_exclude_exact v sc Hne) as (o & -> & _). simpl. eauto. }
  simpl in Ed. rewrite Ed. simpl. apply IH.
Qed.

Lemma add_cookie_jar_total r settings dest :
  (forall s, rq_session r = Some s -> jar_ok (realm_cookies (snd s))) ->
  exists dest', add_cookie_jar r settings dest = Some dest'.
Proof.
  intros Hj. unfold add_cookie_jar. destruct (rq_session r) as [[s rs]|]; [|eauto].
  destruct (rq_host_and_port r) as [h|], (rq_uri r) as [u|]; eauto. case_bool_decide; [|eauto].
  unfold cookie_jar_http_header. destruct (header_value_spec (realm_cookies rs) h u (Hj _ eq_refl)) as (k & -> & _).
  simpl. eauto.
Qed.

Lemma forward_request_total src r settings :
  (settings HG_COOKIE = FM_BOTH -> exists sc, rq_session_cookie r = Some sc /\ sc <> []) ->
  (forall s, rq_session r = Some s -> jar_ok (realm_cookies (snd s))) ->
  exists dest, forward_request_headers src r settings = Some dest.
Proof.
  intros Hsc Hj. unfold forward_request_headers.
  destruct (forward_request_items_total r settings (rq_with_body r && http_is_upgrade src) [] src Hsc) as (d & ->).
  simpl. destruct (add_cookie_jar_total r settings d Hj) as (d' & ->). simpl. eauto.
Qed.

(** ** Nothing is lost *)

Definition grows (dest dest' : StringMap) : Prop := forall p, p ∈ dest -> p ∈ dest'.

Lemma grows_add k v dest : grows dest (StringMap_Add k v dest).
Proof. intros [k' v'] H. apply elem_of_add. by right. Qed.

Lemma grows_add_opt k o dest : grows dest (add_opt k o dest).
Proof. intros [k' v'] H. apply elem_of_add_opt. by right. Qed.

Lemma forward_grows_trans d1 d2 d3 : grows d1 d2 -> grows d2 d3 -> grows d1 d3.
Proof. intros H1 H2 p Hp. by apply H2, H1. Qed.

Lemma grows_item r settings up dest i dest' :
  forward_request_item r settings up dest i = Some dest' -> grows dest dest'.
Proof.
  destruct i as [k v]. unfold forward_request_item, forward_special.
  intros E. repeat case_match; simplify_eq; try done; eauto using grows_add, forward_grows_trans;
    destruct (forward_cookie_both r k v) as [[?|]|]; simplify_eq/=; try done; apply grows_add.
Qed.

Lemma grows_items r settings up dest src dest' :
  forward_request_items r settings up dest src = Some dest' -> grows dest dest'.
Proof.
  revert dest. induction src as [|i src IH]; intros dest; simpl; [by intros [= <-]|].
  destruct (forward_request_item r settings up dest i) as [d|] eqn:E; [|done]. simpl. intros E'.
  eapply forward_grows_trans; [by eapply grows_item|by apply IH].
Qed.

Lemma forward_item_kept r settings up dest src dest' i p :
  forward_request_items r settings up dest src = Some dest' -> i ∈ src ->
  (forall d d', forward_request_item r settings up d i = Some d' -> p ∈ d') -> p ∈ dest'.
Proof.
  intros E Hi Hp. revert dest E. induction Hi as [i src|i j src _ IH]; intros dest; simpl;
    destruct (forward_request_item _ _ _ _ _) as [d|] eqn:Ei; simpl; try done; intros E.
  - eapply grows_items; [done|by eapply Hp].
  - by eapply IH.
Qed.

Lemma forward_request_grows src r settings dest :
  forward_request_headers src r settings = Some dest ->
  exists d, forward_request_items r settings (rq_with_body r && http_is_upgrade src) [] src = Some d /\ grows d dest.
Proof.
  unfold forward_request_headers. destruct (forward_request_items _ _ _ [] src) as [d|] eqn:E; [|done]. simpl.
  destruct (add_cookie_jar r settings d) as [d2|] eqn:E2; [|done]. simpl. intros [= <-]. exists d. split; [done|].
  assert (H2 : grows d d2).
  { unfold add_cookie_jar in E2. repeat case_match; simplify_eq; try done. unfold cookie_jar_http_header in E2.
    destruct (cookie_jar_http_header_value _ _ _) as [[c|]|]; simplify_eq/=; eauto using forward_grows_trans, grows_add; done. }
  eapply forward_grows_trans; [done|].
  unfold add_ssl, add_identity, add_capabilities, forward_identity, forward_xff, forward_via, forward_user_agent,
    add_authorization, add_user.
  intros p Hp. repeat case_match; repeat (apply grows_add_opt || apply grows_add); done.
Qed.

(** ** Theorems *)

(** C19: Clients cannot forge the fields by which backends are told who the user is.  For all settings, every field of the
    forwarded request whose name starts with x-cm4all-beng- is one that this server adds with its own value (the user,
    whether there is a session, the subjects of the TLS peer), unless the settings say that the fields of its group (SSL
    for the subjects, SECURE for the others) are forwarded as they are: then it may also be a field that the client has
    sent, with the same name and value.  x-cm4all-docroot is never forwarded, whatever the client has sent. *)
Theorem beng_fields_genuine src r settings dest k v :
  forward_request_headers src r settings = Some dest -> (k, v) ∈ dest ->
  (str "x-cm4all-beng-" `prefix_of` k ->
     trusted r settings k v \/ settings (beng_group k) = FM_YES /\ (k, v) ∈ src) /\
  k <> str "x-cm4all-docroot".
Proof.
  intros E Hin. destruct (forward_request_elem _ _ _ _ _ _ E Hin) as [H|(i & Hi & H)]; split.
  - intros Hp. left. unfold trusted. inversion H; subst; try (destruct Hp as [b Hb]; discriminate Hb); auto 10.
  - inversion H; subst; discriminate.
  - intros Hp. right. destruct (client_beng _ _ _ _ _ _ Hp H) as [-> Hs]. by split.
  - intros ->. assert (Hc : forall w up, ClassifyRequestHeader (str "x-cm4all-docroot") w up = HG_MAX).
    { intros w up. unfold ClassifyRequestHeader, request_group. rewrite !after_prefix_eq. simpl.
      by rewrite !after_prefix_eq. }
    assert (Hn : ~ special_name (str "x-cm4all-docroot")).
    { apply not_special_x. by exists (str "cm4all-docroot"). }
    specialize (Hc (rq_with_body r) (rq_with_body r && http_is_upgrade src)).
    assert (Hne : str "x-cm4all-docroot" <> str "x-forwarded-host") by discriminate.
    revert Hc Hn Hne H. generalize (str "x-cm4all-docroot"). intros k Hc Hn Hne H.
    inversion H; subst; congruence.
Qed.

(** C18: In mode BOTH the session cookie is not revealed to the other server, and nothing else is lost.
    [forward_request_headers] returns for every request that has a session cookie name; the
    session cookie cannot be extracted from any Cookie field that is forwarded; each of these is the client's
    field without that cookie; and every other cookie that could be extracted from a field of the client can
    still be extracted, with the same value. *)
Theorem session_cookie_hidden src r settings sc :
  settings HG_COOKIE = FM_BOTH -> rq_session_cookie r = Some sc -> sc <> [] ->
  exists dest, forward_request_headers src r settings = Some dest /\
    (forall v, (str "cookie", v) ∈ dest ->
       ExtractCookieRaw v sc = Some None /\
       exists v0, (str "cookie", v0) ∈ src /\ cookies_of v = List.filter (kept sc) (cookies_of v0)) /\
    (forall v0 name x, (str "cookie", v0) ∈ src -> name <> [] -> name <> sc ->
       ExtractCookieRaw v0 name = Some (Some x) ->
       exists v, (str "cookie", v) ∈ dest /\ ExtractCookieRaw v name = Some (Some x)).
Proof.
  intros Hm Hsc Hne.
  assert (Hex : forall v, forward_cookie_both r (str "cookie") v = cookie_exclude v sc).
  { intros v. unfold forward_cookie_both. by rewrite Hsc. }
  assert (exists dest, forward_request_headers src r settings = Some dest) as (dest & E).
  { destruct (forward_request_items_total r settings (rq_with_body r && http_is_upgrade src) [] src) as (d & Ed);
      [intros _; by exists sc|].
    unfold forward_request_headers. rewrite Ed. simpl.
    assert (add_cookie_jar r settings d = Some d) as ->; [|simpl; eauto].
    unfold add_cookie_jar. rewrite Hm. by repeat case_match. }
  exists dest. split_and!; [done| |].
  - intros v Hin. destruct (forward_request_elem _ _ _ _ _ _ E Hin) as [H|(i & Hi & H)].
    { inversion H; congruence. }
    set (up := rq_with_body r && http_is_upgrade src) in *.
    pose proof (class_cookie (rq_with_body r) up) as Hc. pose proof cookie_not_special as Hn.
    assert (Hx : exists v0, i = (str "cookie", v0) /\ cookie_exclude v0 sc = Some (Some v)).
    { assert (Hnh : str "cookie" <> str "x-forwarded-host") by discriminate.
      revert Hex Hc Hn Hnh H. generalize (str "cookie"). intros k Hex Hc Hn Hnh H.
      inversion H; subst; try congruence. exists v0. by rewrite <- Hex. }
    destruct Hx as (v0 & -> & Ev). destruct (cookie_exclude_exact v0 sc Hne) as (o & Eo & Hof & _ & Hno & _).
    rewrite Ev in Eo. injection Eo as <-. split; [done|]. by exists v0.
  - intros v0 name x Hin Hn Hns Hx.
    destruct (cookie_exclude_exact v0 sc Hne) as (o & Eo & _ & _ & _ & Hkeep).
    specialize (Hkeep name Hn Hns). rewrite Hx in Hkeep. destruct o as [v|].
    2:{ exfalso. simpl in Hkeep. rewrite extract_spec, cookies_of_nil in Hkeep by done. discriminate Hkeep. }
    exists v. split; [|done]. destruct (forward_request_grows _ _ _ _ E) as (d & Ed & Hg). apply Hg.
    eapply forward_item_kept; [done|done|]. intros d0 d'. unfold forward_request_item.
    rewrite class_cookie. simpl. rewrite Hm. simpl. rewrite Hex, Eo. simpl. intros [= <-].
    apply elem_of_add. by left.
Qed.

(** C24: Hop-by-hop fields end here in both directions: neither a forwarded request nor a forwarded response has
    one of them, for any settings, except for "upgrade" in a request with a body that asks for it and in a response
    that switches protocols. *)
Theorem hop_by_hop_dropped src r settings dest status local_host sc relocate k v :
  k ∈ hop_by_hop_names -> http_header_is_hop_by_hop k = true ->
  (forward_request_headers src r settings = Some dest -> (k, v) ∈ dest ->
     k = str "upgrade" /\ rq_with_body r = true /\ http_is_upgrade src = true) /\
  ((k, v) ∈ forward_response_headers status src local_host sc relocate settings ->
     k = str "upgrade" /\ status = SWITCHING_PROTOCOLS /\ http_is_upgrade src = true).
Proof.
  intros Hk Hh.
  assert (Hclass : forall w up, (k = str "upgrade" -> up = false) ->
    ClassifyRequestHeader k w up = HG_MAX /\ ClassifyResponseHeader k up = HG_MAX /\ ~ special_name k).
  { intros w up Hup. by apply class_hop_by_hop. }
  assert (Hother : k <> str "x-forwarded-host" /\ k <> str "via" /\ forall r settings v, ~ from_here r settings (k, v)).
  { clear - Hk. repeat (apply elem_of_cons in Hk as [->|Hk];
      [split_and!; [discriminate|discriminate|intros r s v' H; inversion H; discriminate]|]).
    by apply elem_of_nil in Hk. }
  destruct Hother as (Hnh & Hnv & Hnf). split.
  - intros E Hin. destruct (forward_request_elem _ _ _ _ _ _ E Hin) as [H|(i & _ & H)]; [by apply Hnf in H|].
    set (up := rq_with_body r && http_is_upgrade src) in *.
    destruct (decide (k = str "upgrade" /\ up = true)) as [[-> Hup]|Hno].
    { unfold up in Hup. simpl_bool. auto. }
    destruct (Hclass (rq_with_body r) up) as (Hc & _ & Hns); [intros ->; destruct up; naive_solver|].
    exfalso. inversion H; subst; congruence.
  - intros Hin. destruct (forward_response_elem _ _ _ _ _ _ _ _ Hin) as [H|(i & _ & H)]; [done|].
    set (up := http_is_upgrade_response status src) in *.
    destruct (decide (k = str "upgrade" /\ up = true)) as [[-> Hup]|Hno].
    { unfold up, http_is_upgrade_response in Hup. simpl_bool. auto. }
    destruct (Hclass false up) as (_ & Hc & _); [intros ->; destruct up; naive_solver|].
    exfalso. inversion H; subst; congruence.
Qed.

(** Letters and digits are what the name says, and the null byte is neither. *)
Class AlphaNumericLaws `{CU : CharUtil} := {
  alphanumeric_token c : IsAlphaNumericASCII c = true -> char_is_http_token c = true;
  alphanumeric_null : IsAlphaNumericASCII 0 = false }.

(** C40: Another server cannot set the session cookie: in mode BOTH, no Set-Cookie field that is forwarded
    to the client parses as a cookie with the name of the session cookie. *)
Theorem session_cookie_not_set `{HAN : !AlphaNumericLaws} status src local_host sc relocate settings v name value rest ignorant :
  settings HG_COOKIE = FM_BOTH ->
  (str "set-cookie", v) ∈ forward_response_headers status src local_host (Some sc) relocate settings ->
  cookie_next_name_value v ignorant = Some (name, value, rest) -> name <> sc.
Proof.
  intros Hm Hin Ev ->. destruct (forward_response_elem _ _ _ _ _ _ _ _ Hin) as [H|(i & _ & H)]; [discriminate H|].
  set (up := http_is_upgrade_response status src) in *.
  pose proof (class_set_cookie up) as Hc.
  assert (Hcmp : compare_set_cookie_name v sc = false).
  { revert Hc H. generalize (str "set-cookie"). intros k Hc H. inversion H; subst; try congruence. auto. }
  assert (Hn : exists r, http_next_token v = (sc, r)).
  { unfold cookie_next_name_value in Ev. destruct (http_next_token v) as [t r]. exists r. f_equal.
    repeat case_match; simplify_eq/=; try done;
      match type of Ev with (?o ≫= _) = _ => destruct o as [[? ?]|]; simplify_eq/=; done end. }
  destruct Hn as (r & Et). rewrite next_token_span in Et. apply span_while_cons in Et as (-> & _ & Hr).
  unfold compare_set_cookie_name in Hcmp. rewrite StringAfterPrefix_found in Hcmp. simpl_bool.
  destruct r as [|c r].
  - unfold cstr_at in Hcmp. simpl in Hcmp. by rewrite alphanumeric_null in Hcmp.
  - unfold cstr_at in Hcmp. simpl in Hcmp. apply alphanumeric_token in Hcmp. congruence.
Qed.

End Facts.

(** ** Examples: unit tests of the program *)

Module ForwardExamples.

#[local] Existing Instance AsciiChars.
#[local] Existing Instance ListTrie.front.
#[local] Existing Instance ListTrie.first_match.
#[local] Instance test_product : Product := {| PRODUCT_TOKEN := str "beng-proxy/18" |}.
#[local] Instance test_address : HttpAddressType := {| HttpAddress := unit |}.
#[local] Instance test_header_lib : HeaderLib := {|
  http_header_name_valid s := negb (bool_decide (s = []));
  http_header_is_hop_by_hop s := bool_decide (s ∈ hop_by_hop_names) |}.

#[local] Instance ascii_alphanumeric : AlphaNumericLaws.
Proof.
  split; [|done]. intros c Hc.
  assert (Hr : 0 <= c < 128).
  { simpl in Hc. unfold in_range in Hc. change (chr "a") with 97 in Hc. change (chr "z") with 122 in Hc.
    change (chr "A") with 65 in Hc. change (chr "Z") with 90 in Hc. change (chr "0") with 48 in Hc.
    change (chr "9") with 57 in Hc. simpl_bool. lia. }
  assert (Hall : forallb (fun n => implb (IsAlphaNumericASCII (Z.of_nat n)) (char_is_http_token (Z.of_nat n))) (seq 0 128) = true)
    by (vm_compute; reflexivity).
  rewrite forallb_forall in Hall. specialize (Hall (Z.to_nat c)). rewrite Z2Nat.id in Hall by lia.
  rewrite Hc in Hall. apply Hall, in_seq. lia.
Qed.

Definition fields (l : list (string * string)) : StringMap := map (fun p => (str (fst p), str (snd p))) l.

(** The parameters of the unit tests. *)
Definition test_request (exclude_host with_body charset encoding range : bool) : RequestParameters :=
  mkRequestParameters (Some (str "192.168.0.2")) (Some (str "192.168.0.3")) None None exclude_host with_body
    charset encoding range None None None None None None.

Definition all_modes (mode : HeaderForwardMode) : HeaderForwardSettings := fun _ => mode.

Example basic_request_header :
  let headers := fields [("accept", "1"); ("from", "2"); ("cache-control", "3")]%string in
  let basic := [("cache-control", "3"); ("from", "2"); ("accept", "1")]%string in
  let r := test_request false false false false false in
  forward_request_headers headers r AllNo = Some (fields basic) /\
  forward_request_headers headers (test_request true true true true true) AllNo = Some (fields basic) /\
  forward_request_headers headers r (all_modes FM_YES) = Some (fields (("user-agent", "beng-proxy/18") :: basic)%string) /\
  forward_request_headers headers r (all_modes FM_MANGLE) =
    Some (fields (("x-forwarded-for", "192.168.0.3") :: ("via", "1.1 192.168.0.2") ::
                  ("user-agent", "beng-proxy/18") :: basic)%string) /\
  forward_request_headers headers r (all_modes FM_BOTH) = Some (fields (("user-agent", "beng-proxy/18") :: basic)%string).
Proof. vm_compute. by split_and!. Qed.

Example host_request_header :
  let headers := fields [("host", "foo")]%string in
  let mangle := set_mode HG_FORWARD FM_MANGLE AllNo in
  let r exclude := test_request exclude false false false false in
  forward_request_headers headers (r true) AllNo = Some [] /\
  forward_request_headers headers (r false) AllNo = Some headers /\
  forward_request_headers headers (r true) mangle = Some (fields [("x-forwarded-host", "foo")]%string) /\
  forward_request_headers headers (r false) mangle =
    Some (fields [("x-forwarded-host", "foo"); ("host", "foo")]%string).
Proof. vm_compute. by split_and!. Qed.

Example auth_and_range_request_headers :
  let headers := fields [("authorization", "foo"); ("range", "1-42"); ("if-match", "c"); ("if-foo", "e")]%string in
  let r range := test_request false false false false range in
  forward_request_headers headers (r false) AllNo = Some [] /\
  forward_request_headers headers (r true) AllNo = Some (fields [("if-match", "c"); ("range", "1-42")]%string) /\
  forward_request_headers headers (r false) (set_mode HG_AUTH FM_MANGLE AllNo) = Some [] /\
  forward_request_headers headers (r false) (set_mode HG_AUTH FM_BOTH AllNo) = Some [] /\
  forward_request_headers headers (r false) (set_mode HG_AUTH FM_YES AllNo) = Some (fields [("authorization", "foo")]%string).
Proof. vm_compute. by split_and!. Qed.

Example default_request_headers :
  let headers := fields
    [("from", "foo"); ("abc", "def"); ("cookie", "a=b"); ("content-type", "image/jpeg"); ("accept", "text/*");
     ("via", "1.1 192.168.0.1"); ("x-forwarded-for", "10.0.0.2"); ("x-cm4all-beng-user", "hans");
     ("x-cm4all-beng-peer-subject", "CN=hans"); ("x-cm4all-https", "tls"); ("referer", "http://referer.example/");
     ("user-agent", "firesomething"); ("accept-charset", "iso-8859-1")]%string in
  let own := [("x-forwarded-for", "10.0.0.2, 192.168.0.3"); ("via", "1.1 192.168.0.1, 1.1 192.168.0.2");
              ("user-agent", "firesomething")]%string in
  forward_request_headers headers (test_request false false false false false) MakeDefaultRequest =
    Some (fields (own ++ [("accept", "text/*"); ("from", "foo")]%string)) /\
  forward_request_headers headers (test_request false false true false false) MakeDefaultRequest =
    Some (fields (own ++ [("accept-charset", "iso-8859-1"); ("accept", "text/*"); ("from", "foo")]%string)) /\
  forward_request_headers headers (test_request false true false false false) MakeDefaultRequest =
    Some (fields (own ++ [("accept", "text/*"); ("content-type", "image/jpeg"); ("from", "foo")]%string)).
Proof. vm_compute. by split_and!. Qed.

(** ** Where the code differs *)

(** A request without a session cookie name (which [Request::DetermineSession()] leaves unset for bots) must not
    get to [cookie_exclude()] in mode BOTH. *)
Example stateless_request_fails :
  forward_request_headers (fields [("cookie", "a=b")]%string) (test_request false false false false false)
    (all_modes FM_BOTH) = None.
Proof. reflexivity. Qed.

(** Cookies of other servers are taken for the session cookie if their name goes on with a character which
    is no letter and no digit. *)
Example similar_cookie_dropped :
  let forward v := forward_response_headers 200 [(str "set-cookie", str v)] None (Some (str "sid")) None
                     (set_mode HG_COOKIE FM_BOTH AllNo) in
  forward "sid=1"%string = [] /\ forward "sid_theme=dark"%string = [] /\ forward "sid-2=x"%string = [] /\
  forward "sidx=1"%string = [(str "set-cookie", str "sidx=1")].
Proof. vm_compute. by split_and!. Qed.

(** ** Witnesses *)

Definition test_settings : HeaderForwardSettings := set_mode HG_COOKIE FM_BOTH (set_mode HG_SECURE FM_MANGLE AllNo).

Definition user_request : RequestParameters :=
  mkRequestParameters None None None None false true false false false (Some (str "sid")) None (Some (str "hans"))
    None None None.

Definition forged : StringMap :=
  fields [("x-cm4all-beng-user", "root"); ("cookie", "a=b; sid=1"); ("connection", "upgrade"); ("upgrade", "websocket")]%string.

Definition forwarded : StringMap :=
  fields [("x-cm4all-beng-user", "hans"); ("upgrade", "websocket"); ("cookie", "a=b; ")]%string.

Definition trusting : HeaderForwardSettings := set_mode HG_SECURE FM_YES AllNo.

Lemma beng_fields_genuine_witness :
  (forward_request_headers forged user_request test_settings = Some forwarded /\
   trusted user_request test_settings (str "x-cm4all-beng-user") (str "hans")) /\
  forward_request_headers forged (test_request false false false false false) trusting =
    Some (fields [("x-cm4all-beng-user", "root")]%string) /\ (str "x-cm4all-beng-user", str "root") ∈ forged.
Proof.
  assert (E : forward_request_headers forged user_request test_settings = Some forwarded) by (vm_compute; reflexivity).
  assert (E2 : forward_request_headers forged (test_request false false false false false) trusting =
    Some (fields [("x-cm4all-beng-user", "root")]%string)) by (vm_compute; reflexivity).
  split; [split; [exact E|]|split; [exact E2|]].
  - destruct (beng_fields_genuine forged user_request test_settings forwarded (str "x-cm4all-beng-user") (str "hans"))
      as [H _]; [exact E|left|].
    destruct H as [H|[H _]]; [exists (str "user"); reflexivity|exact H|discriminate H].
  - destruct (beng_fields_genuine forged (test_request false false false false false) trusting
      (fields [("x-cm4all-beng-user", "root")]%string) (str "x-cm4all-beng-user") (str "root")) as [H _]; [exact E2|left|].
    destruct H as [H|[_ H]]; [exists (str "user"); reflexivity| |exact H].
    destruct H as [[H _]|[H _]]; discriminate H.
Defined.

Lemma session_cookie_hidden_witness :
  ExtractCookieRaw (str "a=b; sid=1") (str "sid") = Some (Some (str "1")) /\
  exists dest, forward_request_headers forged user_request test_settings = Some dest /\
    forall v, (str "cookie", v) ∈ dest -> ExtractCookieRaw v (str "sid") = Some None.
Proof.
  split; [vm_compute; reflexivity|].
  destruct (session_cookie_hidden forged user_request test_settings (str "sid")) as (dest & E & H & _).
  - reflexivity.
  - reflexivity.
  - discriminate.
  - exists dest. split; [exact E|]. intros v Hv. exact (proj1 (H v Hv)).
Defined.

Lemma hop_by_hop_dropped_witness :
  forward_request_headers forged user_request test_settings = Some forwarded /\
  rq_with_body user_request = true /\ http_is_upgrade forged = true.
Proof.
  assert (E : forward_request_headers forged user_request test_settings = Some forwarded) by (vm_compute; reflexivity).
  split; [exact E|].
  destruct (hop_by_hop_dropped forged user_request test_settings forwarded 200 None None None
              (str "upgrade") (str "websocket")) as [H _].
  - unfold hop_by_hop_names. do 7 right. left.
  - vm_compute. reflexivity.
  - apply H; [exact E|right; left].
Defined.

Lemma session_cookie_not_set_witness :
  let v := str "sidx=1" in
  (str "set-cookie", v) ∈ forward_response_headers 200 [(str "set-cookie", v); (str "set-cookie", str "sid=2")] None
                            (Some (str "sid")) None test_settings /\
  str "sidx" <> str "sid".
Proof.
  intros v.
  assert (Hin : (str "set-cookie", v) ∈ forward_response_headers 200
                  [(str "set-cookie", v); (str "set-cookie", str "sid=2")] None (Some (str "sid")) None test_settings)
    by (vm_compute; left).
  split; [exact Hin|].
  eapply (session_cookie_not_set 200 _ None (str "sid") None test_settings v (str "sidx") (Some (str "1")) [] false).
  - reflexivity.
  - exact Hin.
  - vm_compute. reflexivity.
Defined.

End ForwardExamples.
