(* ===== verification/XForwardedFor.v ===== *)
(** * The address of the client behind trusted proxies

    Models src/http/XForwardedFor.cxx and XForwardedFor.hxx: the header X-Forwarded-For lists the client and the
    proxies it went through; the real client is the right-most one which is not a trusted proxy.

    Socket addresses, their parser ([inet_pton()]) and network masks are parameters; a view that may be
    null is an [option], and [None] is the first character of an empty view. *)

From Stdlib Require Import String.
From S2P Require Import Prelude CharUtil StrMap Uri UriFacts UriInstance HttpCacheRFC HttpCacheRFCFacts.

Class SocketLib := {
  in_addr : Type;
  in6_addr : Type;
  StaticSocketAddress : Type;
  MaskedSocketAddress : Type;
  (** [inet_pton(AF_INET)], [inet_pton(AF_INET6)] *)
  inet_pton4 : list Z -> option in_addr;
  inet_pton6 : list Z -> option in6_addr;
  (** addresses with port 0, and one that is cleared *)
  IPv4Address : in_addr -> StaticSocketAddress;
  IPv6Address : in6_addr -> StaticSocketAddress;
  cleared : StaticSocketAddress;
  IsDefined : StaticSocketAddress -> bool;
  Matches : MaskedSocketAddress -> StaticSocketAddress -> bool;
  (** util/StringSplit.hxx: what is before and after the last separator; the second part is null if there
      is none *)
  SplitLast : list Z -> Z -> list Z * option (list Z) }.

Class SocketLaws `{SL : SocketLib} `{HL : HttpLib} := {
  SplitLast_found a c b : c ∉ b -> SplitLast (a ++ c :: b) c = (a, Some b);
  SplitLast_missing s c : c ∉ s -> SplitLast s c = (s, None);
  Strip_nil : Strip [] = [] }.

Section XForwardedFor.
Context `{UL : UriLib} `{HL : HttpLib} `{SL : SocketLib}.

Record XForwardedForConfig := mkXForwardedForConfig {
  trust : list (list Z);
  trust_networks : list MaskedSocketAddress;
  trust_interfaces : list (list Z) }.

Definition config_empty (c : XForwardedForConfig) : bool :=
  bool_decide (trust c = []) && match trust_networks c with [] => true | _ => false end &&
  bool_decide (trust_interfaces c = []).

Definition IsTrustedHost (c : XForwardedForConfig) (host : list Z) : bool :=
  if bool_decide (host ∈ trust c) then true
  else
    let '(address, interface) := Split host (chr "%") in
    negb (bool_decide (address = [])) && negb (bool_decide (default [] interface = [])) &&
    bool_decide (default [] interface ∈ trust_interfaces c).

Definition IsTrustedAddress (c : XForwardedForConfig) (address : StaticSocketAddress) : bool :=
  existsb (fun i => Matches i address) (trust_networks c).

(** [s] without brackets and port; [None]: there is no closing bracket. *)
Definition ip_part (s : list Z) : option (list Z) :=
  match s with
  | c :: s' =>
      if c =? chr "[" then
        let '(t, rest) := Split s' (chr "]") in
        match rest with None => None | Some _ => Some t end
      else
        let '(t, rest) := Split s (chr ":") in
        Some (if bool_decide (chr ":" ∈ default [] rest) then s else t)
  | [] => Some s
  end.

Definition ParseIpAddress (s : list Z) : option StaticSocketAddress :=
  match s with
  | [] => None
  | _ =>
      Some match ip_part s with
           | None => cleared
           | Some s =>
               if (64 <=? length s)%nat then cleared
               else
                 match inet_pton4 s with
                 | Some v4 => IPv4Address v4
                 | None => match inet_pton6 s with
                           | Some v6 => IPv6Address v6
                           | None => cleared
                           end
                 end
           end
  end.

Definition IsTrustedHostOrAddress (c : XForwardedForConfig) (host : list Z) : option bool :=
  if IsTrustedHost c host then Some true
  else
    match trust_networks c with
    | [] => Some false
    | _ =>
        address ← ParseIpAddress host;
        Some (IsDefined address && IsTrustedAddress c address)
    end.

Definition LastListItem (l : list Z) : list Z * list Z :=
  match SplitLast l (chr ",") with
  | (a, None) =>
      let a := Strip a in
      if bool_decide (a = []) then (a, []) else ([], a)
  | (a, Some b) => (a, Strip b)
  end.

Fixpoint real_remote_host_loop (fuel : nat) (c : XForwardedForConfig) (l result : list Z) : option (list Z) :=
  match fuel with
  | O => None
  | S fuel =>
      let '(first, second) := LastListItem l in
      if bool_decide (second = []) then Some result
      else
        trusted ← IsTrustedHostOrAddress c second;
        if negb trusted then Some second
        else real_remote_host_loop fuel c first second
  end.

(** The list gets shorter in every iteration but the last one. *)
Definition GetRealRemoteHost (c : XForwardedForConfig) (l : list Z) : option (list Z) :=
  real_remote_host_loop (S (S (length l))) c l [].

(** ** The reference *)

Context `{HUL : !UriLaws} `{HSL : !SocketLaws}.

(** The items from right to left. *)
Definition items (l : list Z) : list (list Z) := Strip <$> reverse (IterableSplitString l (chr ",")).

Definition is_trusted (c : XForwardedForConfig) (host : list Z) : bool := default false (IsTrustedHostOrAddress c host).

(** The first item that is not trusted; the last trusted one in front of an empty item or the end. *)
Fixpoint pick_host (c : XForwardedForConfig) (l : list (list Z)) (result : list Z) : list Z :=
  match l with
  | [] => result
  | [] :: _ => result
  | x :: l => if is_trusted c x then pick_host c l x else x
  end.

Lemma trusted_defined c host : host <> [] -> IsTrustedHostOrAddress c host = Some (is_trusted c host).
Proof.
  intros Hne. unfold is_trusted, IsTrustedHostOrAddress. destruct (IsTrustedHost c host); [done|].
  destruct (trust_networks c); [done|]. by destruct host.
Qed.

Lemma last_separator (c : Z) s : c ∉ s \/ exists a b, s = a ++ c :: b /\ c ∉ b.
Proof.
  induction s as [|x s IH]; [left; apply not_elem_of_nil|].
  destruct IH as [Hs|(a & b & -> & Hb)]; [|right; by exists (x :: a), b].
  destruct (decide (x = c)) as [->|Hx]; [right; by exists [], s|left; apply not_elem_of_cons; auto].
Qed.

Lemma items_app a b : items (a ++ chr "," :: b) = items b ++ items a.
Proof. unfold items. by rewrite split_app, reverse_app, fmap_app. Qed.

Lemma items_one s : chr "," ∉ s -> items s = [Strip s].
Proof. intros Hs. unfold items. by rewrite IterableSplit_one. Qed.

Lemma loop_pick fuel c l result :
  (S (length l) < fuel)%nat -> real_remote_host_loop fuel c l result = Some (pick_host c (items l) result).
Proof.
  revert l result. induction fuel as [|fuel IH]; intros l result Hf; [lia|]. cbn [real_remote_host_loop].
  unfold LastListItem. destruct (last_separator (chr ",") l) as [Hl|(a & b & -> & Hb)].
  - rewrite SplitLast_missing, items_one by done. destruct (Strip l) as [|x s] eqn:Es; [done|].
    rewrite !bool_decide_eq_false_2 by done. rewrite trusted_defined by done. simpl.
    destruct (is_trusted c (x :: s)); [|done]. simpl. destruct fuel as [|fuel]; [lia|].
    assert (Hnil : (S (length (@nil Z)) < S fuel)%nat).
    { destruct l; [by rewrite Strip_nil in Es|]. simpl in *. lia. }
    rewrite IH by done. by rewrite items_one, Strip_nil by apply not_elem_of_nil.
  - rewrite SplitLast_found, items_app, (items_one b) by done. rewrite length_app in Hf. simpl in Hf.
    destruct (Strip b) as [|x s] eqn:Es; [done|]. rewrite bool_decide_eq_false_2 by done.
    rewrite trusted_defined by done. simpl. destruct (is_trusted c (x :: s)); [|done]. simpl. apply IH. lia.
Qed.

(** All items are trusted hosts. *)
Definition all_trusted (c : XForwardedForConfig) (l : list (list Z)) : bool :=
  forallb (fun x => negb (bool_decide (x = [])) && is_trusted c x) l.

Lemma pick_host_more c l l' result :
  pick_host c (l ++ l') result =
  if all_trusted c l then pick_host c l' (pick_host c l result) else pick_host c l result.
Proof.
  revert result. induction l as [|[|x s] l IH]; intros result; simpl; [done|done|].
  destruct (is_trusted c (x :: s)); simpl; [apply IH|done].
Qed.

Lemma pick_host_trusted c l result :
  all_trusted c l = true -> result = [] \/ is_trusted c result = true ->
  pick_host c l result = [] \/ is_trusted c (pick_host c l result) = true.
Proof.
  revert result. induction l as [|[|x s] l IH]; intros result; simpl; [done|done|].
  destruct (is_trusted c (x :: s)) eqn:E; simpl; [|done]. intros Hl _. apply IH; auto.
Qed.

(** C22: [GetRealRemoteHost] returns for every header value what a walk over the list from its right end
    finds: the first host that is not trusted, or the last trusted one in front of an empty item or of the end.  What is
    added on the left, where the part of the header is that a client itself can choose, changes the answer only if all items
    of the rest are trusted hosts; then the walk goes on.  In particular, a client cannot change an answer which
    is not empty and not a trusted host. *)
Theorem real_remote_host_spec c l :
  exists host, GetRealRemoteHost c l = Some host /\ host = pick_host c (items l) [] /\
    (forall forged, GetRealRemoteHost c (forged ++ chr "," :: l) =
       Some (if all_trusted c (items l) then pick_host c (items forged) host else host)) /\
    (host <> [] -> is_trusted c host = false ->
     forall forged, GetRealRemoteHost c (forged ++ chr "," :: l) = Some host).
Proof.
  exists (pick_host c (items l) []). unfold GetRealRemoteHost.
  assert (H : forall forged, real_remote_host_loop (S (S (length (forged ++ chr "," :: l)))) c (forged ++ chr "," :: l) [] =
    Some (if all_trusted c (items l) then pick_host c (items forged) (pick_host c (items l) []) else pick_host c (items l) [])).
  { intros forged. rewrite loop_pick by lia. by rewrite items_app, pick_host_more. }
  split_and!; [apply loop_pick; lia|done|done|].
  intros Hne Ht forged. rewrite H. destruct (all_trusted c (items l)) eqn:E; [|done].
  destruct (pick_host_trusted c (items l) []); [done|by left|done|congruence].
Qed.

End XForwardedFor.

(** ** Examples: the unit test of the program (test/http/TestXFF.cxx), with IPv4 addresses *)

Module XffExamples.

#[local] Existing Instance HttpExamples.ConcreteHttpLib.

Definition octet (s : list Z) : option Z :=
  if bool_decide (s = []) || negb (forallb (fun c => (48 <=? c) && (c <=? 57)) s) then None
  else let n := fold_left (fun n c => 10 * n + (c - 48)) s 0 in if n <? 256 then Some n else None.

Definition dotted (s : list Z) : option Z :=
  match map octet (cut_all s (chr ".")) with
  | [Some a; Some b; Some c; Some d] => Some (((a * 256 + b) * 256 + c) * 256 + d)
  | _ => None
  end.

Definition cut_last (s : list Z) (c : Z) : list Z * option (list Z) :=
  match strrchr s c with
  | Some i => (take i s, Some (drop (S i) s))
  | None => (s, None)
  end.

(** An address is a number, a network its number and the length of its prefix. *)
#[local] Instance test_sockets : SocketLib := {|
  in_addr := Z;
  in6_addr := unit;
  StaticSocketAddress := option Z;
  MaskedSocketAddress := Z * Z;
  inet_pton4 := dotted;
  inet_pton6 s := None;
  IPv4Address a := Some a;
  IPv6Address a := None;
  cleared := None;
  IsDefined a := bool_decide (is_Some a);
  Matches m a := match a with
                 | Some a => Z.shiftr a (32 - snd m) =? Z.shiftr (fst m) (32 - snd m)
                 | None => false
                 end;
  SplitLast := cut_last |}.

Lemma strrchr_absent s c : c ∉ s -> strrchr s c = None.
Proof.
  induction s as [|x s IH]; simpl; [done|]. intros [Hx Hs]%not_elem_of_cons.
  rewrite IH by done. by rewrite (proj2 (Z.eqb_neq x c)) by congruence.
Qed.

Lemma strrchr_last a c b : c ∉ b -> strrchr (a ++ c :: b) c = Some (length a).
Proof.
  intros Hb. induction a as [|x a IH]; simpl; [by rewrite strrchr_absent, Z.eqb_refl|]. by rewrite IH.
Qed.

#[local] Instance test_socket_laws : SocketLaws.
Proof.
  split.
  - intros a c b Hb. simpl. unfold cut_last. rewrite strrchr_last by done.
    rewrite take_app_length. replace (S (length a)) with (length a + 1)%nat by lia. by rewrite drop_app_add.
  - intros s c Hs. simpl. unfold cut_last. by rewrite strrchr_absent.
  - reflexivity.
Qed.

Definition test_config : XForwardedForConfig :=
  mkXForwardedForConfig (map str ["192.168.0.1"; "127.0.0.1"; "localhost"]%string)
    [(default 0 (dotted (str "10.42.0.0")), 16); (default 0 (dotted (str "192.168.128.0")), 18)] [].

Definition real_host (s : string) : option (list Z) := GetRealRemoteHost test_config (str s).

Example xff_test :
  IsTrustedHost test_config (str "127.0.0.1") = true /\
  IsTrustedHost test_config (str "127.0.0.2") = false /\
  IsTrustedAddress test_config (dotted (str "10.42.255.255")) = true /\
  IsTrustedAddress test_config (dotted (str "10.43.0.0")) = false /\
  IsTrustedAddress test_config (dotted (str "192.168.191.255")) = true /\
  IsTrustedAddress test_config (dotted (str "192.168.192.1")) = false /\
  real_host "" = Some [] /\ real_host " " = Some [] /\
  real_host "foo, bar" = Some (str "bar") /\ real_host "foo, bar " = Some (str "bar") /\
  real_host " foo,bar,localhost" = Some (str "bar") /\ real_host " foo,bar, localhost  " = Some (str "bar") /\
  real_host "foo,bar,192.168.0.1" = Some (str "bar") /\
  real_host "localhost" = Some (str "localhost") /\ real_host " ,localhost" = Some (str "localhost") /\
  real_host "foo, 10.41.0.0" = Some (str "10.41.0.0") /\ real_host "foo, 10.42.0.0" = Some (str "foo") /\
  real_host "foo, 10.42.1.2:1234" = Some (str "foo").
Proof. vm_compute. by split_and!. Qed.

(** The second header has only trusted hosts, so that the client can choose the answer. *)
Lemma real_remote_host_witness :
  GetRealRemoteHost test_config (str "1.2.3.4" ++ chr "," :: str "5.6.7.8, 10.42.0.1") = Some (str "5.6.7.8") /\
  GetRealRemoteHost test_config (str "1.2.3.4" ++ chr "," :: str "10.42.0.1") = Some (str "1.2.3.4").
Proof.
  destruct (real_remote_host_spec test_config (str "5.6.7.8, 10.42.0.1")) as (host & E & Eh & _ & H).
  destruct (real_remote_host_spec test_config (str "10.42.0.1")) as (host2 & E2 & Eh2 & H2 & _).
  split.
  - assert (Eh' : host = str "5.6.7.8") by (rewrite Eh; vm_compute; reflexivity).
    rewrite Eh' in H. apply H; vm_compute; [discriminate|reflexivity].
  - rewrite H2. assert (Ea : all_trusted test_config (items (str "10.42.0.1")) = true) by (vm_compute; reflexivity).
    rewrite Ea, Eh2. vm_compute. reflexivity.
Defined.

End XffExamples.
